(* ===== verification/_CoqProject ===== *)
-Q . S2P
Prelude.v
EiTypes.v
EiCursor.v
EiEncode.v
EiEncodeSpec.v
EiDecode.v
EiDecodeSpec.v
EiTerm.v
EiXBuff.v
EiTermDecode.v
EiBig.v
EiTheorems.v
Hash.v
HashSpec.v
Index.v
HashTheorems.v
Avl.v
AvlSpec.v
Monitors.v
MonitorTheorems.v
Big.v
BigSpec.v
BigBits.v
BigBitsSpec.v
BigDiv.v
BigTerm.v
BigTermSpec.v
BigOutSpec.v
BigTheorems.v
Timer.v
TimerSpec.v
TimerOps.v
TimerTheorems.v
Rbt.v
RbtSpec.v
FreeBlocks.v
BestFit.v
BestFitSpec.v
AllocMem.v
AllocUtil.v
AllocHdr.v
AllocCarrier.v
AllocFree.v
AllocAlloc.v
AllocRealloc.v
AllocMove.v
AllocReach.v
AllocTheorems.v
LinearHash.v
ProcDict.v
ProcDictSpec.v
ProcDictOps.v
ProcDictTheorems.v
DbUtil.v
DbTree.v
DbTreeSpec.v
DbTreeOps.v
DbTreeTheorems.v
Grouped.v
DbHash.v
DbHashSegs.v
DbHashChain.v
DbHashSpec.v
DbHashOps.v
DbHashOrder.v
DbHashTheorems.v
Bits.v
BitsSpec.v
BitsCmp.v
BitsBuild.v
BitsFmt.v
BitsPut.v
BitsMatch.v
BitsGet.v
BitsGetMore.v
BitsSegments.v
BitsTheorems.v
Atoms.v
Exports.v
Register.v
