(* ===== verification/Prelude.v ===== *)
(** * Erlang/OTP: verified models of the C runtime and of [erl_interface]

    Erlang/OTP consists of the emulator ([erts/emulator], C), the C interface library [lib/erl_interface], and libraries
    in Erlang.  This development models C code: the data structures, memory management, timers and integer arithmetic of the
    emulator, and the external term codec of [erl_interface].  Paths below are relative to [src/]; [beam] is
    [erts/emulator/beam].

    ** The parts and the files

    - [Prelude]: C integers as [Z] with explicit wrap-around, the monad [M] of C function bodies (undefined
      behaviour is [None], an early [return] is [Ret]), memory blocks with bounds-checked loads and stores, shared tactics and
      lemmas.  Code without early returns uses [option] alone: [None] is undefined behaviour, a failed [ASSERT] or
      [erl_exit].

    - Memory: multiblock carriers ([beam/erl_alloc_util.c]) over the best fit strategies ([beam/erl_bestfit_alloc.c]).
      [Rbt], [RbtSpec]: red-black trees with parent pointers as zippers.  [FreeBlocks]: the interface
      between the allocator and a strategy ([FreeBlockOps], the function pointers of [Allctr_t_], with
      [FreeBlockLaws]).  [BestFit], [BestFitSpec]: the two strategies, which discharge it.  [AllocMem]: a byte memory.
      [AllocUtil]: [mbc_alloc], [mbc_free], [mbc_realloc], creation and destruction of carriers, the header and footer
      macros.  [AllocHdr], [AllocCarrier]: the layout of headers, blocks and carriers as invariants.
      [AllocFree], [AllocAlloc], [AllocRealloc], [AllocMove]: the operations preserve them.  [AllocReach]: sequences of calls.
      [AllocTheorems]: any sequence of calls returns disjoint aligned blocks that keep their contents, the accounting is
      exact and nothing is lost (allocator_safe); what each operation does on every branch (mbc_alloc_correct,
      mbc_free_correct, mbc_realloc_correct); the strategies return best fits in logarithmic time
      (best_fit_correct).

    - Ordered ETS tables ([beam/erl_db_tree.c]).  [DbTree]: the table operations, with the static stack that remembers a
      position, on the trees of [Avl]; nodes have addresses, and a stack holds addresses.  [DbTreeSpec]: paths, and what a
      stack means.  [DbTreeOps]: the operations.  [DbTreeTheorems]: the refinement of a sorted list by any sequence of calls
      (ets_refines_ordered_list), traversals, freeing in portions and the debug checks
      (ets_traversal_and_freeing).

    - Hashed ETS tables ([beam/erl_db_hash.c], with the fixation of [beam/erl_db.c]): sets, bags and duplicate bags.  [DbUtil]: the error
      codes both kinds of tables share.  [Grouped]: lists in which equal keys stand together.  [LinearHash]: the arithmetic of linear
      hashing, also for the process dictionary.  [DbHash]: the operations; segments are blocks with addresses.  [DbHashSegs]: the segments
      as one list of buckets.  [DbHashChain]: the loops over one bucket.  [DbHashSpec]: the invariant, growing and shrinking.  [DbHashOps]: the operations, fixation, creation and freeing.  [DbHashOrder]: the order of [first] and [next].  [DbHashTheorems]: the
      refinement of bags by any sequence of calls (ets_hash_refines_bags), traversal of a fixed table while others change it
      (ets_hash_safe_traversal; the key '$end_of_table', which ends a traversal, is not inserted), freeing in portions and purging (ets_hash_reclaims).

    - Process dictionaries ([beam/erl_process_dict.c]).  [ProcDict]: linear hashing in an array of slots.  [ProcDictSpec],
      [ProcDictOps]: its invariant, and how splitting and merging buckets keeps it.  [ProcDictTheorems]: the refinement of a finite
      map (dict_refines_map), load and memory (dict_load_bounded).

    - Generic hash tables and index tables ([beam/hash.c], [beam/index.c]), used by the atom, export,
      module, registration and node tables.  [Hash]: every function of [hash.c]; a bucket chain is a list.  [HashSpec]: the invariant
      [hash_ok] and the abstraction [table_map] to a finite map from keys to objects.  [Index]: every function of
      [index.c], on top of [Hash].  [HashTheorems]: hash_refines_map, hash_life_cycle; index_tables_correct (numbers are
      given once and for good).  The section [Listed] of [Index] is the interface for tables that number their objects: a table and
      the list of its objects.

    - Their clients in the emulator, with threads that interleave at the points where the code has no lock.  [Atoms]: the atom table, its text segments
      and the order of atoms ([beam/atom.c], [cmp_atoms] of [beam/utils.c]): any interleaving returns what a list of names returns
      (atom_table_refines_names), and atoms are ordered like their names (cmp_atoms_lexicographic).  [Exports]: the export table with its stubs,
      and the module table ([beam/export.c], [beam/module.c]): one entry per function, for good, as long as stubs are consolidated before
      their functions are put, and what happens otherwise; modules are a finite map (export_and_module_tables).  [Register]: the registry of names ([beam/register.c]) with the lock of its table and those
      of the ports: calls in progress are part of the state, a call that cannot get the lock of a port starts again, and processes and
      ports come and go; names are one-to-one, a call waits only for ports that others have locked, and two defects are shown (registry_one_to_one).

    - Monitors and links ([beam/erl_monitors.c]).  [Avl]: the AVL trees with explicit stacks: descent,
      insertion and deletion rebalancing, the sweep loop.  [AvlSpec]: balance, order, and that 50 stack
      slots are enough.  [Monitors]: the three kinds of nodes and all operations on them.  [MonitorTheorems]:
      erts_monitors_links_correct, sweep_and_stacks.

    - Timers ([beam/time.c], with parts of [beam/erl_time_sup.c]).  [Timer]: the timing wheel and the counter of delivered
      ticks.  [TimerSpec], [TimerOps]: the wheel invariant.  [TimerTheorems]: the wheel refines a set of deadlines on a clock, with several schedulers
      that interleave (timer_wheel_refines_clock), every timer fires (timer_fires_when_due), queries and callbacks
      (timer_callbacks_clock).

    - Bignums ([beam/big.c]).  [Big], [BigBits], [BigDiv]: digit macros and digit vectors.  [BigTerm]: the functions on integer terms.
      [BigSpec], [BigBitsSpec], [BigTermSpec], [BigOutSpec]: their values.  [BigTheorems]:
      the results are the integers they should be, for 32- and 64-bit digits (big_arithmetic_correct, big_bits_and_shifts,
      big_conversions_correct), with the cases where they are not: lost borrows, and right shifts by counts that an [int] does not hold; the macros on half digits agree with those
      on double digits (digit_arithmetic_exact).

    - Bit syntax ([beam/erl_bits.c]).  [Bits]: the bit copy and comparison, in a byte memory.  [BitsBuild]: the [bs_put] functions on the state
      of [struct erl_bits_state]; [BitsMatch]: the [bs_get] functions on a match buffer.  [BitsSpec]: a string of bits at an address in a
      direction, and [erts_copy_bits]; [BitsCmp]: the order of bit strings.  [BitsFmt], [BitsPut]: what the fields hold after a put.
      [BitsGet], [BitsGetMore]: what is read from a field; bignums go through [bytes_to_big] of [BigTerm].  [BitsSegments]: sequences of
      segments.  [BitsTheorems]: what was built is matched (bit_syntax_roundtrip), the copy and the comparison (erts_copy_bits_exact,
      erts_cmp_bits_lexicographic), the UTF decoders accept exactly the encodings (bs_get_utf_exact), types of results (bs_get_well_typed),
      appended binaries and refused arguments (bs_put_outcomes).

    - The [ei] codec ([lib/erl_interface/src/encode], [decode], [misc]).
      [EiTypes]: the structures and tags of [ei.h].  [EiCursor]: the [put]/[get] macros of [putget.h] and the contracts:
      [Emits f bs] (the encoder [f] writes exactly [bs], and its dry run on a NULL buffer computes their number) and
      [Decodes]/[DecodesTo] (a decoder reads exactly [bs] and stores a value, if it has a place for it).  [EiEncode],
      [EiDecode]: one definition per [ei_encode_*], [ei_decode_*] function, [ei_skip_term], [ei_get_type_internal] and the
      functions on [erlang_big].  [EiEncodeSpec], [EiDecodeSpec]: the external format as functions to bytes, and
      the contract of every function.  [EiTerm]: terms, as an abstract data type, and the induction over nested
      terms.  [EiXBuff]: the growing buffers of [ei_x_encode.c], and programs of [ei_x_*] calls.
      [EiTermDecode]: [ei_decode_ei_term].  [EiBig]: [ei_big_comp], [ei_small_to_big].  [EiTheorems]: whole terms and
      messages (ei_encode_term_exact; ei_skip_encoded_term, for funs of the old form; ei_x_buffers), round trips (ei_scalars_roundtrip,
      ei_compound_data_roundtrips), errors and ranges, [ei_decode_ei_term] and bigs (ei_decoders_exact).

    ** Interfaces

    Code outside of the repository is a parameter: a class with what the code relies on.  [CFloat] with [CFloatLaws]:
    [sprintf("%.20e")] and [sscanf("%lf")]; [CAlloc], [CRealloc], [NodeAlloc]: allocators; what [alcu_mseg_alloc] and
    [alcu_sys_alloc] answer is an argument of the operations, and so are the addresses of temporary buffers of the bit syntax, which lie in a set
    [scratch] apart from the binaries.  Callbacks and other parts of the emulator
    are classes too: [HashFunctions] with [HashLaws] (the [HashFunctions] structure of [hash.h]: equal keys compare
    equal and hash alike), [Terms] with [TermLaws], [DictTerms] with [DictTermLaws], [DbTerms] with [DbTermLaws], [DbHashTerms] with [DbHashTermLaws] (terms:
    equality, order, hash values, as far as the part needs them), [FreeBlockOps] with [FreeBlockLaws].  [EiConfig]
    chooses between 32- and 64-bit [long], [DigitWidth] the digit size, [AllocConfig] word and header sizes,
    [TimerConfig] the clock, [DbHashConfig]
    the emulator with or without [ERTS_SMP].  Each property that depends on such a class has
    an instance on concrete parameters in the [Module Instances] of its file.

    ** Bounds and fuel

    [int] indices are 32 bits wide and wrap; the properties of the codec assume that the buffer is not larger than
    [INT_MAX].  [ei_skip_term] recurs on nested terms: its fuel is the recursion depth, and ei_skip_encoded_term shows that the
    nesting depth of the term is enough.  Loops with fuel: the sweep (three steps per node, sweep_and_stacks), the
    deletion fix-up of red-black trees (the length of the path), [next_time] (one turn of the wheel), [search_size]
    (the size of the table), the slot search and the traversals of ETS (the number of objects), the freeing of a tree (the number of
    objects for a portion, one portion per 12000 objects and a last one), that of a hashed table (one portion per
    20000 kept deletions or segment), the search for the next key (the number of slots, and of objects); that the fuel is enough is part of the
    theorems.  The AVL stacks have 50 slots: a push on a full stack is undefined here, and sweep_and_stacks shows
    that this needs 53316291172 nodes.  Process dictionaries are followed for less than 2^29 entries, where
    [int needed] cannot overflow; ordered ETS tables up to [INT_MAX] objects, beyond which [NITEMS] is negative;
    hashed ones for less than 2^28 operations, where [nactive * (CHAIN_LEN + 1)] cannot overflow.

    ** What is not modelled

    I/O (connections, printing, dumps), code on process heaps (garbage collector, interpreter, message
    passing, the external term codec of the emulator, the creation of binaries for the bit syntax), vendored libraries, the GMP variants of the
    codec, locking apart from the clients of the hash tables.  [assert]s are not part of the models
    except where a comment says so.  In [big.c]: long division ([I_div], [I_rem]) and floating point.  In [erl_bits.c]: floats.  In [time.c]: the timer
    thread.  In [erl_alloc_util.c]: single block carriers beyond their creation, the choice between [mseg] and [sys] memory, statistics of
    carriers.  Of ETS: [select] and [match], which run compiled match programs, and the
    fine-grained locks: an operation on a bucket is one step. *)

From Stdlib Require Import ZArith ZifyBool.
From stdpp Require Import base list numbers option.

Declare Scope c_scope.
Delimit Scope c_scope with c.
Local Open Scope Z_scope.

(** * Machine integers *)

(** Conversion of a mathematical integer to a [w]-bit unsigned C integer. *)
Definition wrap_u (w z : Z) : Z := z mod 2 ^ w.

(** Conversion of a mathematical integer to a [w]-bit two's complement C integer. *)
Definition wrap_s (w z : Z) : Z := (z + 2 ^ (w - 1)) mod 2 ^ w - 2 ^ (w - 1).

Definition INT_MAX : Z := 2147483647.

Abbreviation int32 := (wrap_s 32).
Abbreviation uint32 := (wrap_u 32).

(** A value stored in one byte of a C buffer. *)
Definition is_byte (z : Z) : Prop := 0 <= z < 256.

(** Length of a block as a C offset. *)
Abbreviation zlen l := (Z.of_nat (length l)).

(** * Control: undefined behaviour, early return, normal flow

    A C statement either runs into undefined behaviour ([None]: an access outside a
    block, for instance), executes [return code] ([Ret code]) or falls through
    with a value ([Go a]); in the last two cases it leaves a state. *)
Inductive ctl (A : Type) : Type :=
| Go (a : A)
| Ret (code : Z).
Arguments Go {A} a.
Arguments Ret {A} code.

Definition M (S A : Type) : Type := S → option (ctl A * S).

#[export] Instance M_ret S : MRet (M S) := λ A a s, Some (Go a, s).
#[export] Instance M_bind S : MBind (M S) := λ A B f m s,
  match m s with
  | None => None
  | Some (Ret c, s') => Some (Ret c, s')
  | Some (Go a, s') => f a s'
  end.

Definition undefined {S A} : M S A := λ _, None.
Definition ret_code {S A} (c : Z) : M S A := λ s, Some (Ret c, s).
Definition get_st {S} : M S S := λ s, Some (Go s, s).
Definition put_st {S} (s : S) : M S unit := λ _, Some (Go tt, s).

(** A C function body whose value is its return code: a [return c] inside the
    body becomes the value of the call. *)
Definition c_call {S} (body : M S Z) : M S Z := λ s,
  match body s with
  | None => None
  | Some (Go c, s') => Some (Go c, s')
  | Some (Ret c, s') => Some (Go c, s')
  end.

(** [for (i = 0; i < n; i++) body i] for a non-negative count. *)
Fixpoint for_upto {S} (n : nat) (i : Z) (body : Z → M S unit) : M S unit :=
  match n with
  | O => mret tt
  | Datatypes.S n' => body i ;; for_upto n' (i + 1) body
  end.
Definition for_range {S} (n : Z) (body : Z → M S unit) : M S unit :=
  for_upto (Z.to_nat n) 0 body.

(** * Memory blocks

    A block of [char]s is the list of its bytes; an access outside the block is
    undefined behaviour ([None]). *)
Definition load (b : list Z) (i : Z) : option Z :=
  if bool_decide (0 ≤ i) then b !! Z.to_nat i else None.

Definition store (b : list Z) (i v : Z) : option (list Z) :=
  if bool_decide (0 ≤ i < zlen b) then Some (<[Z.to_nat i := v]> b) else None.

Definition load_bytes (b : list Z) (i n : Z) : option (list Z) :=
  if bool_decide (0 ≤ i ∧ 0 ≤ n ∧ i + n ≤ zlen b)
  then Some (take (Z.to_nat n) (drop (Z.to_nat i) b)) else None.

Definition store_bytes (b : list Z) (i : Z) (vs : list Z) : option (list Z) :=
  if bool_decide (0 ≤ i ∧ i + zlen vs ≤ zlen b)
  then Some (take (Z.to_nat i) b ++ vs ++ drop (Z.to_nat i + length vs) b) else None.

(** [strlen(3)] on a block: the offset of the first NUL, undefined without one. *)
Fixpoint strlen (p : list Z) : option Z :=
  match p with
  | [] => None
  | c :: p' => if bool_decide (c = 0) then Some 0 else Z.succ <$> strlen p'
  end.

(** A NUL-terminated string with contents [s], stored in a block with [pad] behind it. *)
Definition cstring (s pad : list Z) : list Z := s ++ 0 :: pad.

(** * Automation *)
Create HintDb otp discriminated.

(** Splits hypotheses and the options, booleans and pairs they compute. *)
Ltac cleanup :=
  repeat match goal with
  | H : _ ∧ _ |- _ => destruct H
  | H : ∃ _, _ |- _ => destruct H
  | H : Some _ = Some _ |- _ => injection H as H; subst
  | H : (_, _) = (_, _) |- _ => injection H as H; subst
  | H : Some _ = None |- _ => discriminate H
  | H : None = Some _ |- _ => discriminate H
  | H : bool_decide _ = true |- _ => apply bool_decide_eq_true_1 in H
  | H : bool_decide _ = false |- _ => apply bool_decide_eq_false_1 in H
  end.

(** Lengths of lists built from the usual operations. *)
Ltac len_simpl :=
  repeat rewrite ?length_app, ?length_cons, ?length_nil, ?length_take, ?length_drop,
    ?length_insert, ?length_replicate, ?length_fmap, ?Nat2Z.inj_add, ?Nat2Z.inj_succ.
Ltac len_simpl_all :=
  repeat rewrite ?length_app, ?length_cons, ?length_nil, ?length_take, ?length_drop,
    ?length_insert, ?length_replicate, ?length_fmap, ?Nat2Z.inj_add, ?Nat2Z.inj_succ in *.
Ltac len_lia := len_simpl_all; cbn [length] in *; lia.

(** Decides a test on integers from the hypotheses. *)
Ltac decide_true := rewrite bool_decide_eq_true_2 by (len_simpl; cbn [length] in *; lia).
Ltac decide_false := rewrite bool_decide_eq_false_2 by (len_simpl; cbn [length] in *; lia).

(** * Lemmas on machine integers *)
Section IntLemmas.

Lemma wrap_u_small w z : 0 ≤ z < 2 ^ w → wrap_u w z = z.
Proof. apply Z.mod_small. Qed.

Lemma wrap_s_small w z : - 2 ^ (w - 1) ≤ z < 2 ^ (w - 1) → 0 < w → wrap_s w z = z.
Proof.
  intros Hz Hw. unfold wrap_s.
  assert (2 ^ w = 2 * 2 ^ (w - 1)) as Hp.
  { rewrite <- Z.pow_succ_r by lia. f_equal. lia. }
  rewrite Z.mod_small; lia.
Qed.

Lemma int32_small z : - 2147483648 ≤ z ≤ INT_MAX → int32 z = z.
Proof. unfold INT_MAX. intros. apply wrap_s_small; [change (2 ^ (32 - 1)) with 2147483648|]; lia. Qed.

Lemma int32_range z : - 2147483648 ≤ int32 z ≤ INT_MAX.
Proof.
  unfold wrap_s, INT_MAX. change (2 ^ (32 - 1)) with 2147483648. change (2 ^ 32) with 4294967296.
  pose proof (Z.mod_pos_bound (z + 2147483648) 4294967296 eq_refl). lia.
Qed.

Lemma land_255 z : Z.land z 255 = z mod 256.
Proof. exact (Z.land_ones z 8 ltac:(lia)). Qed.

Lemma is_byte_land z : is_byte (Z.land z 255).
Proof. rewrite land_255. apply Z.mod_pos_bound. lia. Qed.

(** Bits put side by side: [hi << k | lo] is a sum when [lo] fits in [k] bits. *)
Lemma lor_shiftl_add hi lo k : 0 ≤ k → 0 ≤ lo < 2 ^ k → Z.lor (Z.shiftl hi k) lo = hi * 2 ^ k + lo.
Proof.
  intros Hk Hlo. rewrite Z.shiftl_mul_pow2 by lia.
  assert (Z.land (hi * 2 ^ k) lo = 0) as Hz.
  { rewrite <- (Z.mod_small lo (2 ^ k)) at 1 by lia. rewrite <- Z.land_ones by lia.
    rewrite <- Z.shiftl_mul_pow2 by lia. apply Z.bits_inj'. intros n Hn.
    rewrite !Z.land_spec, Z.bits_0. destruct (Z.ltb_spec n k).
    - rewrite Z.shiftl_spec_low by lia. done.
    - rewrite Z.ones_spec_high by lia. by rewrite !andb_false_r. }
  rewrite <- Z.lxor_lor by done. rewrite <- Z.add_nocarry_lxor by done. done.
Qed.

Lemma lor_shiftl_add' lo hi k : 0 ≤ k → 0 ≤ lo < 2 ^ k → Z.lor lo (Z.shiftl hi k) = lo + hi * 2 ^ k.
Proof. intros. rewrite Z.lor_comm, lor_shiftl_add by done. lia. Qed.

End IntLemmas.

#[export] Hint Resolve is_byte_land : otp.

(** * Lemmas on blocks

    Every access below happens at a cursor that splits the block in what lies
    before it and what lies after it. *)
Section BlockLemmas.
Implicit Types pre post old vs bs p : list Z.

Lemma load_app pre x post : load (pre ++ x :: post) (zlen pre) = Some x.
Proof. unfold load. decide_true. rewrite Nat2Z.id. by apply list_lookup_middle. Qed.

Lemma store_app pre x post v : store (pre ++ x :: post) (zlen pre) v = Some (pre ++ v :: post).
Proof.
  unfold store. decide_true. rewrite Nat2Z.id. f_equal. by rewrite insert_app_r_alt, Nat.sub_diag by lia.
Qed.

Lemma store_bytes_app pre old post vs :
  length old = length vs → store_bytes (pre ++ old ++ post) (zlen pre) vs = Some (pre ++ vs ++ post).
Proof.
  intros Hl. unfold store_bytes. decide_true. rewrite Nat2Z.id, take_app_length, drop_app_ge by lia.
  replace (length pre + length vs - length pre)%nat with (length old) by lia.
  by rewrite drop_app_length.
Qed.

Lemma load_bytes_app pre bs post : load_bytes (pre ++ bs ++ post) (zlen pre) (zlen bs) = Some bs.
Proof.
  unfold load_bytes. decide_true. by rewrite !Nat2Z.id, drop_app_length, take_app_length.
Qed.

Lemma load_lt b i : 0 ≤ i < zlen b → ∃ v, load b i = Some v ∧ b !! Z.to_nat i = Some v.
Proof.
  intros Hi. unfold load. decide_true.
  destruct (lookup_lt_is_Some_2 b (Z.to_nat i)) as [v Hv]; [lia|]. eauto.
Qed.

Lemma load_oob b i : i < 0 ∨ zlen b ≤ i → load b i = None.
Proof.
  intros Hi. unfold load. case_bool_decide; [|done]. apply lookup_ge_None_2. lia.
Qed.

Lemma strlen_cstring s pad : Forall (λ c, c ≠ 0) s → strlen (cstring s pad) = Some (zlen s).
Proof.
  unfold cstring. induction 1 as [|c s Hc Hs IH]; [done|].
  cbn [strlen app]. rewrite bool_decide_eq_false_2, IH by done. cbn. f_equal. lia.
Qed.

Lemma length_store b i v b' : store b i v = Some b' → length b' = length b.
Proof. unfold store. case_bool_decide; intros; cleanup. by rewrite length_insert. Qed.

Lemma length_store_bytes b i vs b' : store_bytes b i vs = Some b' → length b' = length b.
Proof. unfold store_bytes. case_bool_decide; intros; cleanup. len_simpl. lia. Qed.

End BlockLemmas.
