(* ===== verification/EiTypes.v ===== *)
(** The data of [lib/erl_interface/include/ei.h]: external term tags and the C
    representations of pids, ports, references, funs, bignums, trace tokens and terms.

    A [char] array is the list of its bytes, an [unsigned int] or [long] field its value. *)

From Stdlib Require Import ZArith ZifyBool.
From stdpp Require Import base list numbers option.
From S2P Require Import Prelude.
Local Open Scope Z_scope.

(** * External format tags *)
Definition ERL_SMALL_INTEGER_EXT := 97.
Definition ERL_INTEGER_EXT := 98.
Definition ERL_FLOAT_EXT := 99.
Definition ERL_ATOM_EXT := 100.
Definition ERL_REFERENCE_EXT := 101.
Definition ERL_NEW_REFERENCE_EXT := 114.
Definition ERL_PORT_EXT := 102.
Definition ERL_PID_EXT := 103.
Definition ERL_SMALL_TUPLE_EXT := 104.
Definition ERL_LARGE_TUPLE_EXT := 105.
Definition ERL_NIL_EXT := 106.
Definition ERL_STRING_EXT := 107.
Definition ERL_LIST_EXT := 108.
Definition ERL_BINARY_EXT := 109.
Definition ERL_SMALL_BIG_EXT := 110.
Definition ERL_LARGE_BIG_EXT := 111.
Definition ERL_NEW_FUN_EXT := 112.
Definition ERL_FUN_EXT := 117.
Definition ERL_PASS_THROUGH := 112.
Definition ERL_NEW_CACHE := 78.
Definition ERL_CACHED_ATOM := 67.
Definition ERL_VERSION_MAGIC := 131.
Definition MAXATOMLEN := 255.
(** [ERL_MAX], [ERL_MIN] of [eiext.h]: the integers sent as [ERL_INTEGER_EXT]. *)
Definition ERL_MAX := 134217727.
Definition ERL_MIN := -134217728.

(** * C structures *)
Record erlang_pid := Pid {
  pid_node : list Z;      (* char node[MAXATOMLEN+1] *)
  pid_num : Z; pid_serial : Z; pid_creation : Z }.

Record erlang_port := Port { port_node : list Z; port_id : Z; port_creation : Z }.

Record erlang_ref := Ref {
  ref_node : list Z; ref_len : Z;
  ref_n : list Z;         (* unsigned int n[3] *)
  ref_creation : Z }.

Record erlang_trace := Trace {
  tr_serial : Z; tr_prev : Z; tr_from : erlang_pid; tr_label : Z; tr_flags : Z }.

Record erlang_fun := Fun {
  fun_arity : Z; fun_module : list Z; fun_md5 : list Z; fun_index : Z; fun_old_index : Z;
  fun_uniq : Z; fun_n_free_vars : Z; fun_pid : erlang_pid; fun_free_var_len : Z;
  fun_free_vars : list Z  (* the block free_vars points to *) }.

Record erlang_big := Big {
  big_arity : Z;          (* number of digit bytes *)
  big_is_neg : Z;
  big_digits : list Z     (* unsigned short digits[(arity+1)/2], least significant first *) }.

(** * Build configuration

    [EI_64BIT] is set by configure when [long] has 64 bits; it selects the
    [long] codecs of [encode_long.c]/[decode_long.c] or those of
    [encode_longlong.c]/[decode_longlong.c]. *)
Class EiConfig := { ei_64bit : bool }.

(** The C library's floating point formatting as [encode_double.c] and [decode_double.c]
    use it: [sprintf(s, "%.20e", p)] (the characters without the final NUL)
    and [sscanf(s, "%lf", &f)] on the characters at [s] ([None] when nothing converts). *)
Class CFloat := {
  double : Type;
  sprintf_20e : double → list Z;
  sscanf_lf : list Z → option double }.

(** [malloc(3)]: the block for a size, with indeterminate contents, or NULL. *)
Class CAlloc := {
  c_malloc : Z → option (list Z);
  c_malloc_length : ∀ n b, 0 ≤ n → c_malloc n = Some b → length b = Z.to_nat n }.
