(* ===== verification/EiCursor.v ===== *)
(** The encode and decode cursors of [lib/erl_interface/src/misc/putget.h].

    An [ei_encode_*] function works on a [char *buf] that may be NULL (a dry run
    that only computes a size) and an [int *index]; inside it, [s = buf + *index]
    is the write cursor.  An [ei_decode_*] function reads at the same kind of cursor
    in a constant buffer and stores the value it decodes through a pointer that may be
    NULL.  Both are functions of the monad [M], over the states below. *)

From Stdlib Require Import ZArith ZifyBool.
From stdpp Require Import base list numbers option.
From S2P Require Import Prelude.
Local Open Scope Z_scope.

(** * Encoding *)

(** [ebuf]: the block [buf] points to, [None] for NULL.  [epos]: the offset of
    the cursor [s] in a function body, [*index] between calls. *)
Record estate := EState { ebuf : option (list Z); epos : Z }.

Definition encoder : Type := M estate Z.

(** [s += n]. *)
Definition adv (n : Z) : M estate unit := λ st, Some (Go tt, EState (ebuf st) (epos st + n)).

(** [s[d] = v] *)
Definition store_at (d v : Z) : M estate unit := λ st,
  match ebuf st with
  | None => None
  | Some b => b' ← store b (epos st + d) v; Some (Go tt, EState (Some b') (epos st))
  end.

(** [memmove(s, p, len)], [memcpy(s, p, len)]: the cursor stays; [len] bytes are read from [p]. *)
Definition memmove_to (p : list Z) (len : Z) : M estate unit := λ st,
  match ebuf st with
  | None => None
  | Some b =>
      vs ← load_bytes p 0 len; b' ← store_bytes b (epos st) vs;
      Some (Go tt, EState (Some b') (epos st))
  end.

(** [if (!buf) dry else real] *)
Definition if_buf {A} (real dry : M estate A) : M estate A := λ st,
  match ebuf st with Some _ => real st | None => dry st end.

Definition put8 (n : Z) : M estate unit :=
  store_at 0 (Z.land n 255) ;; adv 1.

Definition put16be (n : Z) : M estate unit :=
  store_at 0 (Z.land (Z.shiftr n 8) 255) ;; store_at 1 (Z.land n 255) ;; adv 2.

Definition put32be (n : Z) : M estate unit :=
  store_at 0 (Z.land (Z.shiftr n 24) 255) ;; store_at 1 (Z.land (Z.shiftr n 16) 255) ;;
  store_at 2 (Z.land (Z.shiftr n 8) 255) ;; store_at 3 (Z.land n 255) ;; adv 4.

Definition put32le (n : Z) : M estate unit :=
  store_at 0 (Z.land n 255) ;; store_at 1 (Z.land (Z.shiftr n 8) 255) ;;
  store_at 2 (Z.land (Z.shiftr n 16) 255) ;; store_at 3 (Z.land (Z.shiftr n 24) 255) ;; adv 4.

(** A body with [s = buf + *index; s0 = s; ...; *index += s-s0; return 0]; a [return c]
    inside the body leaves [*index] as it was. *)
Definition encode_body (body : M estate unit) : encoder := λ st,
  match body st with
  | None => None
  | Some (Ret c, st') => Some (Go c, EState (ebuf st') (epos st))
  | Some (Go _, st') => Some (Go 0, EState (ebuf st') (int32 (epos st + (epos st' - epos st))))
  end.

(** * Decoding *)

(** [dpos]: the cursor [s], or [*index] between calls.  [dout]: what the
    result pointer points to, [None] when it is NULL. *)
Record dstate (T : Type) := DState { dpos : Z; dout : option T }.
Arguments DState {T} dpos dout.
Arguments dpos {T} d.
Arguments dout {T} d.

Section Decode.
Context {T : Type}.
Implicit Type buf : list Z.

Definition skip (n : Z) : M (dstate T) unit := λ st, Some (Go tt, DState (dpos st + n) (dout st)).

(** [s[d]] read as an [unsigned char]. *)
Definition peek buf (d : Z) : M (dstate T) Z := λ st,
  v ← load buf (dpos st + d); Some (Go v, st).

(** [n] bytes at [s], as [memmove(_, s, n)] reads them. *)
Definition peek_bytes buf (n : Z) : M (dstate T) (list Z) := λ st,
  vs ← load_bytes buf (dpos st) n; Some (Go vs, st).

Definition get8 buf : M (dstate T) Z :=
  skip 1 ;; v ← peek buf (-1); mret (Z.land v 255).

Definition get16be buf : M (dstate T) Z :=
  skip 2 ;; a ← peek buf (-2); b ← peek buf (-1);
  mret (Z.land (Z.lor (Z.shiftl a 8) b) 65535).

(** An [int] expression: [<< 24] of a byte above 127 gives a negative number. *)
Definition get32be buf : M (dstate T) Z :=
  skip 4 ;; a ← peek buf (-4); b ← peek buf (-3); c ← peek buf (-2); d ← peek buf (-1);
  mret (int32 (Z.lor (Z.lor (Z.lor (Z.shiftl a 24) (Z.shiftl b 16)) (Z.shiftl c 8)) d)).

Definition get32le buf : M (dstate T) Z :=
  skip 4 ;; a ← peek buf (-1); b ← peek buf (-2); c ← peek buf (-3); d ← peek buf (-4);
  mret (int32 (Z.lor (Z.lor (Z.lor (Z.shiftl a 24) (Z.shiftl b 16)) (Z.shiftl c 8)) d)).

(** Whether the result pointer is non-NULL. *)
Definition has_out : M (dstate T) bool := λ st,
  Some (Go (match dout st with Some _ => true | None => false end), st).

(** [*p = f( *p )], undefined through NULL or when the update leaves its block. *)
Definition set_out (f : T → option T) : M (dstate T) unit := λ st,
  o ← dout st; o' ← f o; Some (Go tt, DState (dpos st) (Some o')).

(** [if (p) *p = v] *)
Definition out_if (v : T) : M (dstate T) unit := λ st,
  Some (Go tt, DState (dpos st) (match dout st with Some _ => Some v | None => None end)).

(** [if (p) a else b] *)
Definition if_out {A} (a b : M (dstate T) A) : M (dstate T) A := λ st,
  match dout st with Some _ => a st | None => b st end.

(** [s = buf + *index; s0 = s; ...; *index += s-s0; return c]. *)
Definition decode_body (body : M (dstate T) unit) : M (dstate T) Z := λ st,
  match body st with
  | None => None
  | Some (Ret c, st') => Some (Go c, DState (dpos st) (dout st'))
  | Some (Go _, st') => Some (Go 0, DState (int32 (dpos st + (dpos st' - dpos st))) (dout st'))
  end.

End Decode.

(** A call that passes the address of a field [&p->f], NULL when [p] is NULL. *)
Definition on_field {T A R} (prj : T → A) (upd : A → T → T) (f : M (dstate A) R) : M (dstate T) R := λ st,
  match f (DState (dpos st) (prj <$> dout st)) with
  | None => None
  | Some (r, st') =>
      Some (r, DState (dpos st')
                 (match dout st, dout st' with
                  | Some t, Some a => Some (upd a t)
                  | o, _ => o
                  end))
  end.

(** A call that passes NULL for its result pointer. *)
Definition on_null {T} (A : Type) {R} (f : M (dstate A) R) : M (dstate T) R := λ st,
  match f (DState (dpos st) None) with
  | None => None
  | Some (r, st') => Some (r, DState (dpos st') (dout st))
  end.

(** Equality of outcomes: of the values by [reflexivity], of the cursors by arithmetic. *)
Ltac state_eq :=
  repeat match goal with
  | |- Some _ = Some _ => f_equal
  | |- (_, _) = (_, _) => f_equal
  | |- Go _ = Go _ => f_equal
  | |- EState _ _ = EState _ _ => f_equal
  | |- DState _ _ = DState _ _ => f_equal
  | |- @eq Z _ _ => len_lia
  end; try reflexivity.

(** * What the encoding statements write *)

(** The bytes of the [put] macros. *)
Definition be16 (n : Z) : list Z := [Z.land (Z.shiftr n 8) 255; Z.land n 255].
Definition be32 (n : Z) : list Z :=
  [Z.land (Z.shiftr n 24) 255; Z.land (Z.shiftr n 16) 255; Z.land (Z.shiftr n 8) 255; Z.land n 255].
Definition le32 (n : Z) : list Z :=
  [Z.land n 255; Z.land (Z.shiftr n 8) 255; Z.land (Z.shiftr n 16) 255; Z.land (Z.shiftr n 24) 255].

(** Statement [m], at the cursor, replaces the next [length bs] bytes by [bs] and
    moves the cursor by [k]; the rest of the buffer is untouched. *)
Definition writes (m : M estate unit) (bs : list Z) (k : Z) : Prop :=
  ∀ pre old post, length old = length bs →
    m (EState (Some (pre ++ old ++ post)) (zlen pre)) =
    Some (Go tt, EState (Some (pre ++ bs ++ post)) (zlen pre + k)).

(** On a NULL buffer, statement [m] only moves the cursor by [k]. *)
Definition moves (m : M estate unit) (k : Z) : Prop :=
  ∀ i, m (EState None i) = Some (Go tt, EState None (i + k)).

(** The contract of an encoder: on a buffer with room for [bs] at [*index] it
    stores exactly [bs] there, and on NULL it computes the same index. *)
Class Emits (f : encoder) (bs : list Z) : Prop := {
  emits_write : ∀ pre old post, length old = length bs → zlen pre + zlen bs ≤ INT_MAX →
    f (EState (Some (pre ++ old ++ post)) (zlen pre)) =
    Some (Go 0, EState (Some (pre ++ bs ++ post)) (zlen pre + zlen bs));
  emits_size : ∀ i, 0 ≤ i → i + zlen bs ≤ INT_MAX →
    f (EState None i) = Some (Go 0, EState None (i + zlen bs)) }.

Section Writes.
Implicit Types (m : M estate unit) (bs p : list Z).

Lemma M_bind_Go {S A B} (m : M S A) (f : A → M S B) s a s' :
  m s = Some (Go a, s') → (m ≫= f) s = f a s'.
Proof. unfold mbind, M_bind. by intros ->. Qed.

Lemma writes_seq m1 b1 m2 b2 k :
  writes m1 b1 (zlen b1) → writes m2 b2 k → writes (m1 ;; m2) (b1 ++ b2) (zlen b1 + k).
Proof.
  intros H1 H2 pre old post Hl. rewrite length_app in Hl.
  rewrite <- (take_drop (length b1) old), <- app_assoc.
  erewrite M_bind_Go; [|apply H1; rewrite length_take; lia]. cbn beta.
  rewrite (app_assoc pre b1). replace (zlen pre + zlen b1) with (zlen (pre ++ b1)) by len_lia.
  rewrite H2 by (rewrite length_drop; lia). rewrite <- !app_assoc. state_eq.
Qed.

Lemma writes_adv m bs k n : writes m bs k → writes (m ;; adv n) bs (k + n).
Proof.
  intros H pre old post Hl. erewrite M_bind_Go; [|by apply H].
  cbn. unfold adv. cbn. state_eq.
Qed.

Lemma writes_if_buf m1 m2 bs k : writes m1 bs k → writes (if_buf m1 m2) bs k.
Proof. intros H pre old post Hl. by apply H. Qed.

Lemma writes_nil : writes (mret tt) [] 0.
Proof. intros pre [|] post Hl; [|done]. unfold mret, M_ret. state_eq. Qed.

Lemma writes_cast m bs k k' : writes m bs k → k = k' → writes m bs k'.
Proof. by intros ? <-. Qed.

Lemma writes_memmove p len :
  0 ≤ len ≤ zlen p → writes (memmove_to p len) (take (Z.to_nat len) p) 0.
Proof.
  intros Hlen pre old post Hl. unfold memmove_to. cbn [ebuf epos].
  unfold load_bytes. decide_true. rewrite drop_0. cbn [mbind option_bind].
  rewrite store_bytes_app by done. cbn. state_eq.
Qed.

Lemma store_at_app pre seg x rest v d :
  d = zlen seg →
  store_at d v (EState (Some (pre ++ seg ++ x :: rest)) (zlen pre)) =
  Some (Go tt, EState (Some (pre ++ seg ++ v :: rest)) (zlen pre)).
Proof.
  intros ->. unfold store_at. cbn [ebuf epos]. rewrite !(app_assoc pre seg).
  replace (zlen pre + zlen seg) with (zlen (pre ++ seg)) by len_lia. by rewrite store_app.
Qed.

Lemma writes_put8 n : writes (put8 n) [Z.land n 255] (zlen [Z.land n 255]).
Proof.
  intros pre old post Hl. destruct old as [|x [|]]; try done.
  unfold put8. erewrite M_bind_Go; [|by apply (store_at_app pre [])]. reflexivity.
Qed.

Lemma writes_put16be n : writes (put16be n) (be16 n) (zlen (be16 n)).
Proof.
  intros pre old post Hl. destruct old as [|x0 [|x1 [|]]]; try done. unfold put16be.
  erewrite M_bind_Go; [|by apply (store_at_app pre [])]. cbn beta.
  erewrite M_bind_Go; [|by apply (store_at_app pre [_])]. reflexivity.
Qed.

Lemma writes_put32be n : writes (put32be n) (be32 n) (zlen (be32 n)).
Proof.
  intros pre old post Hl. destruct old as [|x0 [|x1 [|x2 [|x3 [|]]]]]; try done. unfold put32be.
  erewrite M_bind_Go; [|by apply (store_at_app pre [])]. cbn beta.
  erewrite M_bind_Go; [|by apply (store_at_app pre [_])]. cbn beta.
  erewrite M_bind_Go; [|by apply (store_at_app pre [_; _])]. cbn beta.
  erewrite M_bind_Go; [|by apply (store_at_app pre [_; _; _])]. reflexivity.
Qed.

Lemma writes_put32le n : writes (put32le n) (le32 n) (zlen (le32 n)).
Proof.
  intros pre old post Hl. destruct old as [|x0 [|x1 [|x2 [|x3 [|]]]]]; try done. unfold put32le.
  erewrite M_bind_Go; [|by apply (store_at_app pre [])]. cbn beta.
  erewrite M_bind_Go; [|by apply (store_at_app pre [_])]. cbn beta.
  erewrite M_bind_Go; [|by apply (store_at_app pre [_; _])]. cbn beta.
  erewrite M_bind_Go; [|by apply (store_at_app pre [_; _; _])]. reflexivity.
Qed.

Lemma moves_adv n : moves (adv n) n.
Proof. done. Qed.

Lemma moves_seq m1 m2 k1 k2 : moves m1 k1 → moves m2 k2 → moves (m1 ;; m2) (k1 + k2).
Proof. intros H1 H2 i. erewrite M_bind_Go; [|apply H1]. rewrite H2. state_eq. Qed.

Lemma moves_if_buf m1 m2 k : moves m2 k → moves (if_buf m1 m2) k.
Proof. intros H i. apply H. Qed.

Lemma moves_nil : moves (mret tt) 0.
Proof. intros i. unfold mret, M_ret. state_eq. Qed.

Lemma moves_cast m k k' : moves m k → k = k' → moves m k'.
Proof. by intros ? <-. Qed.

(** A function body that keeps both promises is an encoder that meets the contract. *)
Lemma emits_body m bs : writes m bs (zlen bs) → moves m (zlen bs) → Emits (encode_body m) bs.
Proof.
  intros Hw Hm. split.
  - intros pre old post Hl Hmax. unfold encode_body. rewrite Hw by done. cbn [epos ebuf].
    rewrite int32_small by lia. state_eq.
  - intros i Hi Hmax. unfold encode_body. rewrite Hm. cbn [epos ebuf].
    rewrite int32_small by lia. state_eq.
Qed.

(** Encoders called one after the other emit one after the other. *)
Lemma emits_seq f b1 (k : Z → encoder) b2 :
  Emits f b1 → Emits (k 0) b2 → Emits (f ≫= k) (b1 ++ b2).
Proof.
  intros [W1 S1] [W2 S2]. split.
  - intros pre old post Hl Hmax. rewrite length_app in Hl, Hmax.
    rewrite <- (take_drop (length b1) old), <- app_assoc.
    erewrite M_bind_Go; [|apply W1; [rewrite length_take|]; lia].
    rewrite (app_assoc pre b1). replace (zlen pre + zlen b1) with (zlen (pre ++ b1)) by len_lia.
    rewrite W2 by len_lia. rewrite <- !app_assoc. state_eq.
  - intros i Hi Hmax. rewrite length_app in Hmax. erewrite M_bind_Go; [|apply S1; lia].
    rewrite S2 by lia. state_eq.
Qed.

Lemma emits_ret : Emits (mret 0) [].
Proof.
  split.
  - intros pre [|] post Hl _; [|done]. unfold mret, M_ret. state_eq.
  - intros i _ _. unfold mret, M_ret. state_eq.
Qed.

End Writes.

#[export] Hint Resolve writes_seq writes_adv writes_if_buf writes_put8 writes_put16be writes_put32be
  writes_put32le moves_adv moves_seq moves_if_buf moves_nil emits_ret : otp.

(** * What the decoding statements read *)

(** Statement [m], with [bs] at the cursor, yields [a], moves the cursor by [k] and
    changes the result from [o] to [o']. *)
Definition sees {T A} (m : list Z → M (dstate T) A) (bs : list Z) (a : A) (k : Z) (o o' : option T) : Prop :=
  ∀ pre post, zlen pre + zlen bs ≤ INT_MAX →
    m (pre ++ bs ++ post) (DState (zlen pre) o) = Some (Go a, DState (zlen pre + k) o').

(** The contract of a decoder: given [bs] at [*index] it returns 0, moves [*index] past
    [bs], stores [upd o] in a result [o] it may write to, and stores nothing through NULL. *)
Class Decodes {T} (f : list Z → M (dstate T) Z) (bs : list Z) (ok : T → Prop) (upd : T → T) : Prop := {
  decodes_out : ∀ pre post o, ok o → zlen pre + zlen bs ≤ INT_MAX →
    f (pre ++ bs ++ post) (DState (zlen pre) (Some o)) = Some (Go 0, DState (zlen pre + zlen bs) (Some (upd o)));
  decodes_null : ∀ pre post, zlen pre + zlen bs ≤ INT_MAX →
    f (pre ++ bs ++ post) (DState (zlen pre) None) = Some (Go 0, DState (zlen pre + zlen bs) None) }.

(** A decoder of a value that is simply stored. *)
Abbreviation DecodesTo f bs v := (Decodes f bs (λ _, True) (λ _, v)).

Section Sees.
Context {T : Type}.
Implicit Types (bs : list Z) (o : option T).

Lemma sees_bind {A B} (m1 : list Z → M (dstate T) A) (f : list Z → A → M (dstate T) B) b1 b2 a c k o o1 o2 :
  sees m1 b1 a (zlen b1) o o1 → sees (λ buf, f buf a) b2 c k o1 o2 →
  sees (λ buf, m1 buf ≫= f buf) (b1 ++ b2) c (zlen b1 + k) o o2.
Proof.
  intros H1 H2 pre post Hmax. rewrite <- app_assoc. erewrite M_bind_Go; [|apply H1; len_lia].
  specialize (H2 (pre ++ b1) post ltac:(len_lia)). rewrite <- !app_assoc in H2.
  replace (zlen pre + zlen b1) with (zlen (pre ++ b1)) by len_lia. rewrite H2.
  state_eq.
Qed.

Lemma sees_stay {A B} (m1 : list Z → M (dstate T) A) (f : list Z → A → M (dstate T) B) bs a c k o o1 o2 :
  sees m1 bs a 0 o o1 → sees (λ buf, f buf a) bs c k o1 o2 →
  sees (λ buf, m1 buf ≫= f buf) bs c k o o2.
Proof.
  intros H1 H2 pre post Hmax. erewrite M_bind_Go; [|by apply H1]. rewrite Z.add_0_r. by apply H2.
Qed.

Lemma sees_cast {A} (m : list Z → M (dstate T) A) bs bs' a a' k k' o o' :
  sees m bs a k o o' → bs = bs' → a = a' → k = k' → sees m bs' a' k' o o'.
Proof. by intros ? <- <- <-. Qed.

Lemma sees_ret {A} (a : A) bs o : sees (λ _, mret a) bs a 0 o o.
Proof. intros pre post _. unfold mret, M_ret. state_eq. Qed.

Lemma sees_skip n bs o : sees (λ _, skip n) bs tt n o o.
Proof. done. Qed.

Lemma sees_peek d bs v o : 0 ≤ d → bs !! Z.to_nat d = Some v → sees (λ buf, peek buf d) bs v 0 o o.
Proof.
  intros Hd Hv pre post _. unfold peek. cbn [dpos].
  assert (load (pre ++ bs ++ post) (zlen pre + d) = Some v) as ->.
  { unfold load. decide_true. rewrite lookup_app_r by lia.
    replace (Z.to_nat (zlen pre + d) - length pre)%nat with (Z.to_nat d) by lia.
    by apply lookup_app_l_Some. }
  cbn. state_eq.
Qed.

(** [s] is first moved by [n], then read at a negative offset. *)
Lemma peek_back pre bs post v n d o :
  bs !! Z.to_nat (n + d) = Some v → 0 ≤ n + d →
  peek (pre ++ bs ++ post) d (DState (zlen pre + n) o) = Some (Go v, DState (zlen pre + n) o).
Proof.
  intros Hv Hd. unfold peek. cbn [dpos].
  assert (load (pre ++ bs ++ post) (zlen pre + n + d) = Some v) as ->; [|done].
  unfold load. decide_true. rewrite lookup_app_r by lia.
  replace (Z.to_nat (zlen pre + n + d) - length pre)%nat with (Z.to_nat (n + d)) by lia.
  by apply lookup_app_l_Some.
Qed.

Lemma sees_peek_bytes bs rest n o : n = zlen bs → sees (λ buf, peek_bytes buf n) (bs ++ rest) bs 0 o o.
Proof.
  intros -> pre post _. unfold peek_bytes. cbn [dpos]. rewrite <- app_assoc, load_bytes_app. cbn. state_eq.
Qed.

Lemma sees_get8 x o : is_byte x → sees get8 [x] x 1 o o.
Proof.
  intros Hx pre post _. unfold get8. erewrite M_bind_Go; [|reflexivity]. cbn [dpos dout].
  erewrite M_bind_Go; [|by apply (peek_back pre [x])].
  rewrite land_255, Z.mod_small by exact Hx. done.
Qed.

Lemma sees_get16be n o : sees get16be (be16 n) (wrap_u 16 n) 2 o o.
Proof.
  intros pre post _. unfold get16be. erewrite M_bind_Go; [|reflexivity]. cbn [dpos dout].
  do 2 (erewrite M_bind_Go; [|by apply (peek_back pre (be16 n))]). unfold mret, M_ret. do 3 f_equal.
  rewrite lor_shiftl_add by (auto using is_byte_land || lia || apply is_byte_land). change 65535 with (Z.ones 16).
  rewrite Z.land_ones, !land_255, Z.shiftr_div_pow2 by lia. unfold wrap_u.
  change (2 ^ 8) with 256. change (2 ^ 16) with 65536. Z.div_mod_to_equations. lia.
Qed.

Lemma combine32 n :
  int32 (Z.lor (Z.lor (Z.lor (Z.shiftl (Z.land (Z.shiftr n 24) 255) 24) (Z.shiftl (Z.land (Z.shiftr n 16) 255) 16))
     (Z.shiftl (Z.land (Z.shiftr n 8) 255) 8)) (Z.land n 255)) = int32 n.
Proof.
  rewrite <- !Z.lor_assoc.
  rewrite (lor_shiftl_add (Z.land (Z.shiftr n 8) 255)) by (lia || apply is_byte_land).
  pose proof (is_byte_land n). pose proof (is_byte_land (Z.shiftr n 8)).
  pose proof (is_byte_land (Z.shiftr n 16)). unfold is_byte in *.
  change (2 ^ 8) with 256. rewrite (lor_shiftl_add (Z.land (Z.shiftr n 16) 255)) by (change (2 ^ 16) with 65536; lia).
  change (2 ^ 16) with 65536.
  rewrite lor_shiftl_add by (change (2 ^ 24) with 16777216; lia).
  rewrite !land_255, !Z.shiftr_div_pow2 by lia. unfold wrap_s.
  change (2 ^ 8) with 256. change (2 ^ 16) with 65536. change (2 ^ 24) with 16777216.
  change (2 ^ 32) with 4294967296. change (2 ^ (32 - 1)) with 2147483648.
  Z.div_mod_to_equations. lia.
Qed.

Lemma sees_get32be n o : sees get32be (be32 n) (int32 n) 4 o o.
Proof.
  intros pre post _. unfold get32be. erewrite M_bind_Go; [|reflexivity]. cbn [dpos dout].
  do 4 (erewrite M_bind_Go; [|by apply (peek_back pre (be32 n))]). unfold mret, M_ret. by rewrite combine32.
Qed.

Lemma sees_get32le n o : sees get32le (le32 n) (int32 n) 4 o o.
Proof.
  intros pre post _. unfold get32le. erewrite M_bind_Go; [|reflexivity]. cbn [dpos dout].
  do 4 (erewrite M_bind_Go; [|by apply (peek_back pre (le32 n))]). unfold mret, M_ret. by rewrite combine32.
Qed.

Lemma sees_has_out bs o : sees (λ _, has_out) bs (match o with Some _ => true | None => false end) 0 o o.
Proof. intros pre post _. unfold has_out. cbn. state_eq. Qed.

Lemma sees_set_out f bs (x x' : T) : f x = Some x' → sees (λ _, set_out f) bs tt 0 (Some x) (Some x').
Proof. intros Hf pre post _. unfold set_out. cbn. rewrite Hf. cbn. state_eq. Qed.

Lemma sees_out_if v bs o : sees (λ _, out_if v) bs tt 0 o (match o with Some _ => Some v | None => None end).
Proof. intros pre post _. unfold out_if. cbn. state_eq. Qed.

Lemma sees_out_some (v : T) bs (x : T) : sees (λ _, out_if v) bs tt 0 (Some x) (Some v).
Proof. apply (sees_out_if v bs (Some x)). Qed.

Lemma sees_out_none (v : T) bs : sees (λ _, out_if v) bs tt 0 None None.
Proof. apply (sees_out_if v bs None). Qed.

Lemma sees_if_out {A} (m1 m2 : list Z → M (dstate T) A) bs a k o o' :
  match o with Some _ => sees m1 bs a k o o' | None => sees m2 bs a k o o' end →
  sees (λ buf, if_out (m1 buf) (m2 buf)) bs a k o o'.
Proof. destruct o; intros H pre post Hmax; by apply H. Qed.

Lemma sees_body (m : list Z → M (dstate T) unit) bs k o o' pre post :
  sees m bs tt k o o' → k = zlen bs → zlen pre + zlen bs ≤ INT_MAX →
  decode_body (m (pre ++ bs ++ post)) (DState (zlen pre) o) = Some (Go 0, DState (zlen pre + zlen bs) o').
Proof.
  intros H -> Hmax. unfold decode_body. rewrite H by done. cbn [dpos dout].
  rewrite int32_small by lia. state_eq.
Qed.

(** A body that works for every result pointer is a decoder that meets the contract. *)
Lemma decodes_body (m : list Z → M (dstate T) unit) bs k ok upd :
  (∀ x, ok x → sees m bs tt k (Some x) (Some (upd x))) → sees m bs tt k None None → k = zlen bs →
  Decodes (λ buf, decode_body (m buf)) bs ok upd.
Proof. intros Hs Hn Hk. split; intros; by eapply sees_body; eauto. Qed.

End Sees.
