(* ===== verification/EiEncode.v ===== *)
(** Encoding into the external term format: [lib/erl_interface/src/encode/*.c].

    Each function is the C function of the same name on the state [(buf, *index)];
    its value is the C return code. *)

From Stdlib Require Import ZArith ZifyBool.
From stdpp Require Import base list numbers option.
From S2P Require Import Prelude EiTypes EiCursor.
Local Open Scope Z_scope.

(** A [const char *p] argument on which the C code calls [strlen]. *)
Definition with_strlen {S A} (p : list Z) (f : Z → M S A) : M S A := λ st,
  n ← strlen p; f n st.

(** [p[i]] of an argument block. *)
Definition arg_at {S A} (p : list Z) (i : Z) (f : Z → M S A) : M S A := λ st,
  v ← load p i; f v st.

Section Encode.
Context {cfg : EiConfig} {cf : CFloat}.

Definition ei_encode_version : encoder := encode_body
  (if_buf (put8 ERL_VERSION_MAGIC) (adv 1)).

Definition ei_encode_atom_len (p : list Z) (len : Z) : encoder := encode_body
  (let len := if len >? MAXATOMLEN then MAXATOMLEN else len in
   if_buf (put8 ERL_ATOM_EXT ;; put16be len ;; memmove_to p len) (adv 3) ;;
   adv len).

Definition ei_encode_atom (p : list Z) : encoder :=
  with_strlen p (λ len, ei_encode_atom_len p len).

Definition ei_encode_binary (p : list Z) (len : Z) : encoder := encode_body
  (if_buf (put8 ERL_BINARY_EXT ;; put32be len ;; memmove_to p len) (adv 5) ;;
   adv len).

(** The characters of "true" and "false". *)
Definition str_true : list Z := [116; 114; 117; 101].
Definition str_false : list Z := [102; 97; 108; 115; 101].

Definition ei_encode_boolean (p : Z) : encoder := encode_body
  (let val := if negb (p =? 0) then str_true else str_false in
   let len := zlen val in
   if_buf (put8 ERL_ATOM_EXT ;; put16be len ;; memmove_to val len) (adv 3) ;;
   adv len).

Definition ei_encode_char (p : Z) : encoder := encode_body
  (if_buf (put8 ERL_SMALL_INTEGER_EXT ;; put8 (Z.land p 255)) (adv 2)).

(** [memset(s, 0, 31); sprintf(s, "%.20e", p)]: the NUL of [sprintf] is written too. *)
Definition ei_encode_double (p : double) : encoder := encode_body
  (if_buf (put8 ERL_FLOAT_EXT ;; memmove_to (replicate 31 0) 31 ;;
           memmove_to (sprintf_20e p ++ [0]) (zlen (sprintf_20e p) + 1)) (adv 1) ;;
   adv 31).

Definition ei_encode_list_header (arity : Z) : encoder := encode_body
  (if arity <? 0 then ret_code (-1)
   else if arity >? 0 then
     if_buf (put8 ERL_LIST_EXT ;; put32be arity) (adv 5)
   else if_buf (put8 ERL_NIL_EXT) (adv 1)).

Definition ei_encode_empty_list : encoder := ei_encode_list_header 0.

Definition ei_encode_tuple_header (arity : Z) : encoder := encode_body
  (if arity <? 0 then ret_code (-1)
   else if arity <=? 255 then
     if_buf (put8 ERL_SMALL_TUPLE_EXT ;; put8 arity) (adv 2)
   else if_buf (put8 ERL_LARGE_TUPLE_EXT ;; put32be arity) (adv 5)).

(** [#define abs(p) (((p)<0) ? -(p) : p)] on a [w]-bit signed integer. *)
Definition c_abs (w p : Z) : Z := if p <? 0 then wrap_s w (- p) else p.

(** [encode_long.c], compiled when [long] has 32 bits. *)
Definition ei_encode_long_32 (p : Z) : encoder := encode_body
  (if (p <? 256) && (p >=? 0) then
     if_buf (put8 ERL_SMALL_INTEGER_EXT ;; put8 (Z.land p 255)) (adv 2)
   else if (p <=? ERL_MAX) && (p >=? ERL_MIN) then
     if_buf (put8 ERL_INTEGER_EXT ;; put32be p) (adv 5)
   else
     if_buf (put8 ERL_SMALL_BIG_EXT ;; put8 4 ;; put8 (if p <? 0 then 1 else 0) ;;
             put32le (c_abs 32 p)) (adv 7)).

(** [while (up) { *s++ = up & 0xff; up >>= 8; arity++; }]; an unsigned 64-bit [up]
    has at most 8 bytes, which is the fuel the callers give. *)
Fixpoint put_digits (fuel : nat) (up arity : Z) : M estate Z :=
  if up =? 0 then mret arity else
  match fuel with
  | O => undefined
  | S fuel' => store_at 0 (Z.land up 255) ;; adv 1 ;; put_digits fuel' (Z.shiftr up 8) (arity + 1)
  end.

(** [while (up) { s++; up >>= 8; }] *)
Fixpoint skip_digits (fuel : nat) (up : Z) : M estate unit :=
  if up =? 0 then mret tt else
  match fuel with
  | O => undefined
  | S fuel' => adv 1 ;; skip_digits fuel' (Z.shiftr up 8)
  end.

(** Runs a statement with the cursor moved to [pos], then moves it back. *)
Definition at_pos (pos : Z) (m : M estate unit) : M estate unit := λ st,
  match m (EState (ebuf st) pos) with
  | None => None
  | Some (r, st') => Some (r, EState (ebuf st') (epos st))
  end.

(** The [ERL_SMALL_BIG_EXT] branch of the 64-bit encoders: the arity byte
    ([arityp = s++]) is filled in after the digits are written. *)
Definition put_small_big (neg up : Z) : M estate unit :=
  if_buf
    (put8 ERL_SMALL_BIG_EXT ;;
     st ← get_st;
     adv 1 ;;
     put8 neg ;;
     arity ← put_digits 8 up 0;
     at_pos (epos st) (put8 arity))
    (adv 3 ;; skip_digits 8 up).

Definition ei_encode_longlong (p : Z) : encoder := encode_body
  (if (p <? 256) && (p >=? 0) then
     if_buf (put8 ERL_SMALL_INTEGER_EXT ;; put8 (Z.land p 255)) (adv 2)
   else if (p <=? ERL_MAX) && (p >=? ERL_MIN) then
     if_buf (put8 ERL_INTEGER_EXT ;; put32be p) (adv 5)
   else put_small_big (if p <? 0 then 1 else 0) (wrap_u 64 (c_abs 64 p))).

Definition ei_encode_long (p : Z) : encoder :=
  if ei_64bit then ei_encode_longlong p else ei_encode_long_32 p.

(** [encode_ulong.c], compiled when [long] has 32 bits. *)
Definition ei_encode_ulong_32 (p : Z) : encoder := encode_body
  (if p >? ERL_MAX then
     if_buf (put8 ERL_SMALL_BIG_EXT ;; put8 4 ;; put8 0 ;; put32le p) (adv 7)
   else if (p <? 256) && (p >=? 0) then
     if_buf (put8 ERL_SMALL_INTEGER_EXT ;; put8 (Z.land p 255)) (adv 2)
   else if_buf (put8 ERL_INTEGER_EXT ;; put32be p) (adv 5)).

Definition ei_encode_ulonglong (p : Z) : encoder := encode_body
  (if (p <? 256) && (p >=? 0) then
     if_buf (put8 ERL_SMALL_INTEGER_EXT ;; put8 (Z.land p 255)) (adv 2)
   else if p <=? ERL_MAX then
     if_buf (put8 ERL_INTEGER_EXT ;; put32be p) (adv 5)
   else put_small_big 0 p).

Definition ei_encode_ulong (p : Z) : encoder :=
  if ei_64bit then ei_encode_ulonglong p else ei_encode_ulong_32 p.

Definition ei_encode_pid (p : erlang_pid) : encoder :=
  with_strlen (pid_node p) (λ len, encode_body
  (if_buf (put8 ERL_PID_EXT ;; put8 ERL_ATOM_EXT ;; put16be len ;;
           memmove_to (pid_node p) len ;; adv len ;;
           put32be (Z.land (pid_num p) 0x7fff) ;; put32be (Z.land (pid_serial p) 0x1fff) ;;
           put8 (Z.land (pid_creation p) 0x03))
          (adv (13 + len)))).

Definition ei_encode_port (p : erlang_port) : encoder :=
  with_strlen (port_node p) (λ len, encode_body
  (if_buf (put8 ERL_PORT_EXT ;; put8 ERL_ATOM_EXT ;; put16be len ;;
           memmove_to (port_node p) len ;; adv len ;;
           put32be (Z.land (port_id p) 0x0fffffff) ;; put8 (Z.land (port_creation p) 0x03))
          (adv (9 + len)))).

Definition ei_encode_ref (p : erlang_ref) : encoder :=
  with_strlen (ref_node p) (λ len, encode_body
  (if_buf (put8 ERL_NEW_REFERENCE_EXT ;; put16be (ref_len p) ;; put8 ERL_ATOM_EXT ;; put16be len ;;
           memmove_to (ref_node p) len ;; adv len ;;
           put8 (Z.land (ref_creation p) 0x03) ;;
           for_range (ref_len p) (λ i, arg_at (ref_n p) i put32be))
          (adv (1 + 2 + (3 + len) + ref_len p * 4 + 1)))).

Definition ei_encode_string_len (p : list Z) (len : Z) : encoder := encode_body
  (if len =? 0 then if_buf (put8 ERL_NIL_EXT) (adv 1)
   else if len <=? 0xffff then
     if_buf (put8 ERL_STRING_EXT ;; put16be len ;; memmove_to p len) (adv 3) ;;
     adv len
   else
     if_buf (put8 ERL_LIST_EXT ;; put32be len ;;
             for_range len (λ i, put8 ERL_SMALL_INTEGER_EXT ;; arg_at p i put8) ;;
             put8 ERL_NIL_EXT)
            (adv (5 + 2 * len + 1))).

Definition ei_encode_string (p : list Z) : encoder :=
  with_strlen p (λ len, ei_encode_string_len p len).

Definition ei_encode_trace (p : erlang_trace) : encoder :=
  ei_encode_tuple_header 5 ;;
  ei_encode_long (tr_flags p) ;;
  ei_encode_long (tr_label p) ;;
  ei_encode_long (tr_serial p) ;;
  ei_encode_pid (tr_from p) ;;
  ei_encode_long (tr_prev p) ;;
  mret 0.

(** The digit loop of [ei_encode_big]: [s] stays at the first digit byte. *)
Definition put_big_digits (digits : list Z) (digit_bytes : Z) : M estate unit :=
  for_range (uint32 (digit_bytes + 1) / 2) (λ i,
    arg_at digits i (λ dt,
      let hi := Z.land (Z.shiftr dt 8) 255 in
      let lo := Z.land dt 255 in
      store_at (i * 2) lo ;;
      if i * 2 + 1 <? digit_bytes then store_at (i * 2 + 1) hi else mret tt)).

Definition ei_encode_big (big : erlang_big) : encoder := encode_body
  (let digit_bytes := big_arity big in
   (if digit_bytes <? 256
    then if_buf (put8 ERL_SMALL_BIG_EXT ;; put8 digit_bytes) (adv 2)
    else if_buf (put8 ERL_LARGE_BIG_EXT ;; put32be digit_bytes) (adv 5)) ;;
   if_buf (put8 (big_is_neg big) ;; put_big_digits (big_digits big) digit_bytes) (adv 1) ;;
   adv digit_bytes).

(** [ix += n] on the local [int ix]. *)
Definition adv_ix (n : Z) : M estate unit := λ st, Some (Go tt, EState (ebuf st) (int32 (epos st + n))).

(** [if (f(buf, &ix, ...) < 0) return -1] *)
Definition check (f : encoder) : M estate unit :=
  r ← f; if r <? 0 then ret_code (-1) else mret tt.

(** [int ix = *index; ...; *index = ix; return 0]: [*index] is assigned only at the end. *)
Definition index_body (body : M estate unit) : encoder := λ st,
  match body st with
  | None => None
  | Some (Ret c, st') => Some (Go c, EState (ebuf st') (epos st))
  | Some (Go _, st') => Some (Go 0, st')
  end.

(** Statements on a local [char *s = buf + ix], which leave [ix] alone. *)
Definition at_ix (m : M estate unit) : M estate unit := λ st, at_pos (epos st) m st.

Definition ei_encode_fun_ext (p : erlang_fun) : M estate unit :=
  if_buf (at_ix (put8 ERL_FUN_EXT ;; put32be (fun_n_free_vars p))) (mret tt) ;;
  adv_ix 5 ;;
  check (ei_encode_pid (fun_pid p)) ;;
  check (ei_encode_atom (fun_module p)) ;;
  check (ei_encode_long (fun_index p)) ;;
  check (ei_encode_long (fun_uniq p)) ;;
  if_buf (memmove_to (fun_free_vars p) (fun_free_var_len p)) (mret tt) ;;
  adv_ix (fun_free_var_len p).

(** The fields of a new fun behind its fixed part. *)
Definition new_fun_fields (p : erlang_fun) : M estate unit :=
  check (ei_encode_atom (fun_module p)) ;;
  check (ei_encode_long (fun_old_index p)) ;;
  check (ei_encode_long (fun_uniq p)) ;;
  check (ei_encode_pid (fun_pid p)) ;;
  if_buf (memmove_to (fun_free_vars p) (fun_free_var_len p)) (mret tt) ;;
  adv_ix (fun_free_var_len p).

(** [size_p] is the position behind the tag; the size is written there at the end. *)
Definition ei_encode_new_fun_ext (p : erlang_fun) : M estate unit :=
  st ← get_st;
  let size_p := epos st + 1 in
  if_buf (at_ix (put8 ERL_NEW_FUN_EXT ;; adv 4 ;; put8 (fun_arity p) ;;
                 memmove_to (fun_md5 p) 16 ;; adv 16 ;;
                 put32be (fun_index p) ;; put32be (fun_n_free_vars p))) (mret tt) ;;
  adv_ix (1 + 4 + 1 + 16 + 4 + 4) ;;
  new_fun_fields p ;;
  st' ← get_st;
  if_buf (at_pos size_p (put32be (epos st' - size_p))) (mret tt).

Definition ei_encode_fun (p : erlang_fun) : encoder := index_body
  (if fun_arity p =? -1 then ei_encode_fun_ext p else ei_encode_new_fun_ext p).

End Encode.
