(* ===== verification/EiEncodeSpec.v ===== *)
(** What the encoders of [EiEncode] write: for every encoder, the bytes of its external
    representation and the proof that it meets the [Emits] contract. *)

From Stdlib Require Import ZArith ZifyBool.
From stdpp Require Import base list numbers option.
From S2P Require Import Prelude EiTypes EiCursor EiEncode.
Local Open Scope Z_scope.

(** * Writing statements *)

Lemma writes_eq m bs bs' k k' : writes m bs k → bs = bs' → k = k' → writes m bs' k'.
Proof. by intros ? <- <-. Qed.

Lemma writes_memmove_adv p len m bs k :
  0 ≤ len ≤ zlen p → writes m bs k →
  writes (memmove_to p len ;; adv len ;; m) (take (Z.to_nat len) p ++ bs) (len + k).
Proof.
  intros Hlen Hm pre old post Hl. rewrite length_app, length_take in Hl.
  rewrite <- (take_drop (Z.to_nat len) old), <- app_assoc.
  erewrite M_bind_Go; [|apply writes_memmove; [done|rewrite !length_take; lia]]. cbn beta.
  erewrite M_bind_Go; [|reflexivity]. cbn [epos ebuf].
  rewrite (app_assoc pre). replace (zlen pre + 0 + len) with (zlen (pre ++ take (Z.to_nat len) p)) by len_lia.
  rewrite Hm by (rewrite length_drop; lia). rewrite <- !app_assoc. state_eq.
Qed.

Lemma writes_arg_at p i v (f : Z → M estate unit) bs k :
  load p i = Some v → writes (f v) bs k → writes (arg_at p i f) bs k.
Proof. intros Hv H pre old post Hl. unfold arg_at. rewrite Hv. cbn. by apply H. Qed.

(** A loop over an argument array writes what its iterations write. *)
Lemma writes_for_upto (p : list Z) (body : Z → M estate unit) (g : Z → list Z) i :
  (∀ j v, p !! j = Some v → writes (body (i + Z.of_nat j)) (g v) (zlen (g v))) →
  writes (for_upto (length p) i body) (concat (map g p)) (zlen (concat (map g p))).
Proof.
  revert i. induction p as [|v p IH]; intros i Hb; [exact writes_nil|].
  cbn [for_upto length map concat]. rewrite length_app, Nat2Z.inj_add. apply writes_seq.
  - specialize (Hb 0%nat v eq_refl). by rewrite Z.add_0_r in Hb.
  - apply IH. intros j w Hj. replace (i + 1 + Z.of_nat j) with (i + Z.of_nat (S j)) by lia. by apply Hb.
Qed.

Ltac writes_step :=
  lazymatch goal with
  | |- writes (put8 _) _ _ => apply writes_put8
  | |- writes (put16be _) _ _ => apply writes_put16be
  | |- writes (put32be _) _ _ => apply writes_put32be
  | |- writes (put32le _) _ _ => apply writes_put32le
  | |- writes (memmove_to _ _) _ _ => apply writes_memmove; lia
  | |- writes (memmove_to _ _ ≫= (λ _, adv _ ≫= _)) _ _ => eapply writes_memmove_adv; [lia|]
  | |- writes (_ ≫= (λ _, adv _)) _ _ => eapply writes_adv
  | |- writes (if_buf _ _) _ _ => eapply writes_if_buf
  | |- writes (mret _) _ _ => apply writes_nil
  | |- writes (_ ≫= _) _ _ => eapply writes_seq
  end.
Ltac moves_step :=
  lazymatch goal with
  | |- moves (adv _) _ => apply moves_adv
  | |- moves (mret _) _ => apply moves_nil
  | |- moves (if_buf _ _) _ => apply moves_if_buf
  | |- moves (_ ≫= _) _ => apply moves_seq
  end.
(** Views the current buffer as [P ++ O ++ R] with the cursor behind [P]. *)
Ltac at_split P O R :=
  match goal with
  | |- context [EState (Some ?b) ?k] =>
      replace (EState (Some b) k) with (EState (Some (P ++ O ++ R)) (zlen P))
        by (f_equal; [f_equal; rewrite <- ?app_assoc; reflexivity | len_lia])
  end.
(** An encoder body without loops. *)
Ltac emits_tac :=
  apply emits_body;
  [ eapply writes_eq; [repeat writes_step|..]; [cbn [app]; try reflexivity|try (autounfold with ei_bytes; len_lia)]
  | eapply moves_cast; [repeat moves_step|try (autounfold with ei_bytes; len_lia)] ].

(** * The external representations *)

Definition atom_bytes (s : list Z) : list Z := ERL_ATOM_EXT :: be16 (zlen s) ++ s.
Definition binary_bytes (s : list Z) : list Z := ERL_BINARY_EXT :: be32 (zlen s) ++ s.
Definition small_int_bytes (p : Z) : list Z := [ERL_SMALL_INTEGER_EXT; p].
Definition int_bytes (p : Z) : list Z := ERL_INTEGER_EXT :: be32 p.

(** The base-256 digits of [up], least significant first, without leading zeros. *)
Fixpoint digits256 (fuel : nat) (up : Z) : list Z :=
  if up =? 0 then [] else
  match fuel with
  | O => []
  | S fuel' => up mod 256 :: digits256 fuel' (up / 256)
  end.

Definition small_big_bytes (neg up : Z) : list Z :=
  ERL_SMALL_BIG_EXT :: zlen (digits256 8 up) :: neg :: digits256 8 up.

Definition bool_to_Z (b : bool) : Z := if b then 1 else 0.

Definition long_32_bytes (p : Z) : list Z :=
  if (p <? 256) && (p >=? 0) then small_int_bytes p
  else if (p <=? ERL_MAX) && (p >=? ERL_MIN) then int_bytes p
  else ERL_SMALL_BIG_EXT :: 4 :: bool_to_Z (p <? 0) :: le32 (Z.abs p).

Definition longlong_bytes (p : Z) : list Z :=
  if (p <? 256) && (p >=? 0) then small_int_bytes p
  else if (p <=? ERL_MAX) && (p >=? ERL_MIN) then int_bytes p
  else small_big_bytes (bool_to_Z (p <? 0)) (Z.abs p).

Definition ulong_32_bytes (p : Z) : list Z :=
  if p >? ERL_MAX then ERL_SMALL_BIG_EXT :: 4 :: 0 :: le32 p
  else if (p <? 256) && (p >=? 0) then small_int_bytes p else int_bytes p.

Definition ulonglong_bytes (p : Z) : list Z :=
  if (p <? 256) && (p >=? 0) then small_int_bytes p
  else if p <=? ERL_MAX then int_bytes p
  else small_big_bytes 0 p.

Definition list_header_bytes (arity : Z) : list Z :=
  if arity =? 0 then [ERL_NIL_EXT] else ERL_LIST_EXT :: be32 arity.

Definition tuple_header_bytes (arity : Z) : list Z :=
  if arity <=? 255 then [ERL_SMALL_TUPLE_EXT; arity] else ERL_LARGE_TUPLE_EXT :: be32 arity.

Definition string_bytes (s : list Z) : list Z :=
  if zlen s =? 0 then [ERL_NIL_EXT]
  else if zlen s <=? 0xffff then ERL_STRING_EXT :: be16 (zlen s) ++ s
  else ERL_LIST_EXT :: be32 (zlen s) ++ concat (map small_int_bytes s) ++ [ERL_NIL_EXT].

(** A node name is the string in front of the first NUL of its array. *)
Definition name_of (block : list Z) : list Z :=
  match strlen block with Some n => take (Z.to_nat n) block | None => [] end.

Definition pid_bytes (p : erlang_pid) : list Z :=
  ERL_PID_EXT :: atom_bytes (name_of (pid_node p)) ++
  be32 (Z.land (pid_num p) 0x7fff) ++ be32 (Z.land (pid_serial p) 0x1fff) ++ [Z.land (pid_creation p) 3].

Definition port_bytes (p : erlang_port) : list Z :=
  ERL_PORT_EXT :: atom_bytes (name_of (port_node p)) ++
  be32 (Z.land (port_id p) 0x0fffffff) ++ [Z.land (port_creation p) 3].

Definition ref_bytes (p : erlang_ref) : list Z :=
  ERL_NEW_REFERENCE_EXT :: be16 (ref_len p) ++ atom_bytes (name_of (ref_node p)) ++
  Z.land (ref_creation p) 3 :: concat (map be32 (take (Z.to_nat (ref_len p)) (ref_n p))).

Create HintDb ei_bytes.
#[export] Hint Unfold be16 be32 le32 atom_bytes binary_bytes small_int_bytes int_bytes pid_bytes port_bytes
  ref_bytes : ei_bytes.

(** Two bytes per digit, low byte first, cut to the number of digit bytes. *)
Definition digit_pair (d : Z) : list Z := [Z.land d 255; Z.land (Z.shiftr d 8) 255].
Definition big_digit_bytes (digits : list Z) (digit_bytes : Z) : list Z :=
  take (Z.to_nat digit_bytes) (concat (map digit_pair digits)).
Definition big_bytes (b : erlang_big) : list Z :=
  (if big_arity b <? 256 then [ERL_SMALL_BIG_EXT; big_arity b] else ERL_LARGE_BIG_EXT :: be32 (big_arity b)) ++
  Z.land (big_is_neg b) 255 :: big_digit_bytes (big_digits b) (big_arity b).

(** The encoding of a [long], whose width is the configuration's. *)
Definition long_bits {cfg : EiConfig} : Z := if ei_64bit then 64 else 32.
Definition is_long {cfg : EiConfig} (p : Z) : Prop := - 2 ^ (long_bits - 1) ≤ p < 2 ^ (long_bits - 1).
Definition long_bytes {cfg : EiConfig} (p : Z) : list Z := if ei_64bit then longlong_bytes p else long_32_bytes p.

Definition trace_bytes {cfg : EiConfig} (p : erlang_trace) : list Z :=
  tuple_header_bytes 5 ++ long_bytes (tr_flags p) ++ long_bytes (tr_label p) ++ long_bytes (tr_serial p) ++
  pid_bytes (tr_from p) ++ long_bytes (tr_prev p).

Definition fun_free_bytes (p : erlang_fun) : list Z := take (Z.to_nat (fun_free_var_len p)) (fun_free_vars p).
Definition fun_module_bytes (p : erlang_fun) : list Z :=
  atom_bytes (take (Z.to_nat MAXATOMLEN) (name_of (fun_module p))).
Definition fun_ext_bytes {cfg : EiConfig} (p : erlang_fun) : list Z :=
  (ERL_FUN_EXT :: be32 (fun_n_free_vars p)) ++ pid_bytes (fun_pid p) ++ fun_module_bytes p ++
  long_bytes (fun_index p) ++ long_bytes (fun_uniq p) ++ fun_free_bytes p.
(** What follows the size field of a new fun. *)
Definition new_fun_tail {cfg : EiConfig} (p : erlang_fun) : list Z :=
  (Z.land (fun_arity p) 255 :: fun_md5 p ++ be32 (fun_index p) ++ be32 (fun_n_free_vars p)) ++
  fun_module_bytes p ++ long_bytes (fun_old_index p) ++ long_bytes (fun_uniq p) ++
  pid_bytes (fun_pid p) ++ fun_free_bytes p.
Definition new_fun_ext_bytes {cfg : EiConfig} (p : erlang_fun) : list Z :=
  ERL_NEW_FUN_EXT :: be32 (4 + zlen (new_fun_tail p)) ++ new_fun_tail p.
Definition fun_bytes {cfg : EiConfig} (p : erlang_fun) : list Z :=
  if fun_arity p =? -1 then fun_ext_bytes p else new_fun_ext_bytes p.

(** [ERL_FLOAT_EXT] is 31 bytes of text padded with NULs. *)
Definition float_text (s : list Z) : list Z := s ++ replicate (31 - length s) 0.


(** * Every encoder meets its contract *)
Section EmitsLemmas.
Context {cfg : EiConfig} {cf : CFloat}.

Lemma put_digits_run fuel up ar pre old post :
  0 ≤ up < 256 ^ Z.of_nat fuel → length old = length (digits256 fuel up) →
  put_digits fuel up ar (EState (Some (pre ++ old ++ post)) (zlen pre)) =
  Some (Go (ar + zlen (digits256 fuel up)),
        EState (Some (pre ++ digits256 fuel up ++ post)) (zlen pre + zlen (digits256 fuel up))).
Proof.
  revert up ar pre old. induction fuel as [|fuel IH]; intros up ar pre old Hup Hl.
  - cbn in Hup. assert (up = 0) as -> by lia. destruct old; [|done]. cbn.
    unfold mret, M_ret. state_eq.
  - cbn [digits256 put_digits] in *. destruct (Z.eqb_spec up 0) as [->|Hne].
    { destruct old; [|done]. unfold mret, M_ret. cbn. state_eq. }
    rewrite Nat2Z.inj_succ, Z.pow_succ_r in Hup by lia.
    destruct old as [|x old]; [done|]. injection Hl as Hl.
    erewrite M_bind_Go; [|by apply (store_at_app pre [])]. cbn beta.
    erewrite M_bind_Go; [|reflexivity]. cbn beta. cbn [epos ebuf app].
    rewrite cons_middle, app_assoc. replace (zlen pre + 1) with (zlen (pre ++ [Z.land up 255])) by len_lia.
    rewrite Z.shiftr_div_pow2 by lia. change (2 ^ 8) with 256.
    rewrite IH; [|split; [apply Z.div_pos|apply Z.div_lt_upper_bound]; lia|done].
    rewrite land_255, <- app_assoc. cbn [app]. state_eq.
Qed.

Lemma skip_digits_run fuel up i :
  0 ≤ up < 256 ^ Z.of_nat fuel →
  skip_digits fuel up (EState None i) = Some (Go tt, EState None (i + zlen (digits256 fuel up))).
Proof.
  revert up i. induction fuel as [|fuel IH]; intros up i Hup.
  - cbn in Hup. assert (up = 0) as -> by lia. cbn. unfold mret, M_ret. state_eq.
  - cbn [digits256 skip_digits]. destruct (Z.eqb_spec up 0) as [->|Hne].
    { unfold mret, M_ret. cbn. state_eq. }
    rewrite Nat2Z.inj_succ, Z.pow_succ_r in Hup by lia.
    erewrite M_bind_Go; [|reflexivity]. cbn beta. cbn [epos ebuf].
    rewrite Z.shiftr_div_pow2 by lia. change (2 ^ 8) with 256.
    rewrite IH by (split; [apply Z.div_pos|apply Z.div_lt_upper_bound]; lia). state_eq.
Qed.

Lemma digits256_bytes fuel up : 0 ≤ up → Forall is_byte (digits256 fuel up).
Proof.
  revert up. induction fuel as [|fuel IH]; intros up Hup; cbn; destruct (up =? 0); constructor.
  - by apply Z.mod_pos_bound.
  - apply IH. by apply Z.div_pos.
Qed.

Lemma length_digits256 fuel up : (length (digits256 fuel up) ≤ fuel)%nat.
Proof. revert up. induction fuel as [|fuel IH]; intros up; cbn; destruct (up =? 0); cbn; [..|specialize (IH (up / 256))]; lia. Qed.

Lemma writes_small_big neg up : 0 ≤ up < 2 ^ 64 → is_byte neg →
  writes (put_small_big neg up) (small_big_bytes neg up) (zlen (small_big_bytes neg up)).
Proof.
  intros Hup Hneg pre old post Hl. unfold put_small_big, if_buf, small_big_bytes in *. cbn [ebuf].
  destruct old as [|x0 [|x1 [|x2 old]]]; try done. cbn [length] in Hl.
  erewrite M_bind_Go; [|by apply (writes_put8 _ pre [_])]. cbn beta.
  erewrite M_bind_Go; [|reflexivity]. cbn [epos].
  erewrite M_bind_Go; [|reflexivity]. cbn [epos ebuf].
  at_split (pre ++ [ERL_SMALL_BIG_EXT; x1]) [x2] (old ++ post).
  erewrite M_bind_Go; [|by apply (writes_put8 _ _ [_])]. cbn beta.
  at_split (pre ++ [ERL_SMALL_BIG_EXT; x1; Z.land neg 255]) old post.
  erewrite M_bind_Go; [|apply put_digits_run; [exact Hup|lia]].
  unfold at_pos. cbn [ebuf epos].
  at_split (pre ++ [ERL_SMALL_BIG_EXT]) [x1] (Z.land neg 255 :: digits256 8 up ++ post).
  rewrite (writes_put8 _ _ [_]) by done. cbn [epos ebuf]. rewrite <- !app_assoc, !land_255.
  pose proof (length_digits256 8 up). rewrite (Z.mod_small neg) by exact Hneg.
  rewrite (Z.mod_small (0 + _)) by lia. cbn [app]. rewrite Z.add_0_l. state_eq.
Qed.

Lemma moves_small_big neg up : 0 ≤ up < 2 ^ 64 → moves (put_small_big neg up) (zlen (small_big_bytes neg up)).
Proof.
  intros Hup i. unfold put_small_big, if_buf. cbn [ebuf]. erewrite M_bind_Go; [|reflexivity]. cbn [epos ebuf].
  rewrite skip_digits_run by exact Hup. unfold small_big_bytes. state_eq.
Qed.

Lemma c_abs_64 p : - 2 ^ 63 ≤ p < 2 ^ 63 → wrap_u 64 (c_abs 64 p) = Z.abs p.
Proof.
  intros Hp. unfold c_abs, wrap_u, wrap_s. change (2 ^ (64 - 1)) with (2 ^ 63).
  destruct (Z.ltb_spec p 0); change (2 ^ 64) with 18446744073709551616 in *;
    change (2 ^ 63) with 9223372036854775808 in *; Z.div_mod_to_equations; lia.
Qed.

Lemma le32_c_abs p : - 2 ^ 31 ≤ p < 2 ^ 31 → le32 (c_abs 32 p) = le32 (Z.abs p).
Proof.
  intros Hp. unfold c_abs. destruct (Z.ltb_spec p 0); [|by rewrite Z.abs_eq by lia].
  destruct (decide (p = - 2 ^ 31)) as [->|Hne]; [done|].
  rewrite wrap_s_small by (change (2 ^ (32 - 1)) with (2 ^ 31); lia). f_equal. lia.
Qed.

(** A branch of an integer encoder. *)
Lemma emits_if (b : bool) (m1 m2 : M estate unit) bs1 bs2 :
  (b = true → Emits (encode_body m1) bs1) → (b = false → Emits (encode_body m2) bs2) →
  Emits (encode_body (if b then m1 else m2)) (if b then bs1 else bs2).
Proof. destruct b; auto. Qed.

Lemma emits_small_int p : is_byte p → Emits (encode_body
  (if_buf (put8 ERL_SMALL_INTEGER_EXT ;; put8 (Z.land p 255)) (adv 2))) (small_int_bytes p).
Proof. intros Hp. emits_tac. rewrite !land_255, !(Z.mod_small p) by exact Hp. done. Qed.

Lemma emits_int p : Emits (encode_body (if_buf (put8 ERL_INTEGER_EXT ;; put32be p) (adv 5))) (int_bytes p).
Proof. emits_tac. Qed.

Lemma emits_longlong p : - 2 ^ 63 ≤ p < 2 ^ 63 → Emits (ei_encode_longlong p) (longlong_bytes p).
Proof.
  intros Hp. unfold ei_encode_longlong, longlong_bytes.
  apply emits_if; intros; [apply emits_small_int; unfold is_byte; lia|].
  apply emits_if; intros; [apply emits_int|]. rewrite c_abs_64 by done.
  change (2 ^ 63) with 9223372036854775808 in Hp.
  assert (0 ≤ Z.abs p < 2 ^ 64) by (change (2 ^ 64) with 18446744073709551616; lia).
  apply emits_body; [apply writes_small_big|apply moves_small_big]; try done.
  unfold is_byte, bool_to_Z. destruct (p <? 0); lia.
Qed.

Lemma emits_long_32 p : - 2 ^ 31 ≤ p < 2 ^ 31 → Emits (ei_encode_long_32 p) (long_32_bytes p).
Proof.
  intros Hp. unfold ei_encode_long_32, long_32_bytes.
  apply emits_if; intros; [apply emits_small_int; unfold is_byte; lia|].
  apply emits_if; intros; [apply emits_int|]. emits_tac. rewrite le32_c_abs by done. by destruct (p <? 0).
Qed.

Lemma emits_ulong_32 p : 0 ≤ p < 2 ^ 32 → Emits (ei_encode_ulong_32 p) (ulong_32_bytes p).
Proof.
  intros Hp. unfold ei_encode_ulong_32, ulong_32_bytes. apply emits_if; intros; [emits_tac|].
  apply emits_if; intros; [apply emits_small_int; unfold is_byte; lia|apply emits_int].
Qed.

Lemma emits_ulonglong p : 0 ≤ p < 2 ^ 64 → Emits (ei_encode_ulonglong p) (ulonglong_bytes p).
Proof.
  intros Hp. unfold ei_encode_ulonglong, ulonglong_bytes.
  apply emits_if; intros; [apply emits_small_int; unfold is_byte; lia|].
  apply emits_if; intros; [apply emits_int|].
  apply emits_body; [apply writes_small_big|apply moves_small_big]; done.
Qed.

Lemma emits_with_strlen p n (f : Z → encoder) bs :
  strlen p = Some n → Emits (f n) bs → Emits (with_strlen p f) bs.
Proof.
  intros Hp [W S]. split; intros; unfold with_strlen; rewrite Hp; cbn [mbind option_bind];
    [by apply W|by apply S].
Qed.

Lemma emits_version : Emits ei_encode_version [ERL_VERSION_MAGIC].
Proof. unfold ei_encode_version. emits_tac. Qed.

Lemma emits_atom_len p len : 0 ≤ len → len `min` MAXATOMLEN ≤ zlen p →
  Emits (ei_encode_atom_len p len) (atom_bytes (take (Z.to_nat (len `min` MAXATOMLEN)) p)).
Proof.
  intros H0 Hp. unfold ei_encode_atom_len.
  replace (if len >? MAXATOMLEN then MAXATOMLEN else len) with (len `min` MAXATOMLEN)
    by (rewrite Z.gtb_ltb; destruct (Z.ltb_spec MAXATOMLEN len); lia).
  assert (0 ≤ len `min` MAXATOMLEN) by (unfold MAXATOMLEN; lia). set (n := len `min` MAXATOMLEN) in *.
  cbv zeta. assert (zlen (take (Z.to_nat n) p) = n) as Hn by len_lia.
  emits_tac. unfold atom_bytes. by rewrite Hn.
Qed.

Lemma emits_binary p len : 0 ≤ len ≤ zlen p → Emits (ei_encode_binary p len) (binary_bytes (take (Z.to_nat len) p)).
Proof.
  intros H. unfold ei_encode_binary. assert (zlen (take (Z.to_nat len) p) = len) as Hn by len_lia.
  emits_tac. unfold binary_bytes. by rewrite Hn.
Qed.

Lemma emits_boolean p : Emits (ei_encode_boolean p) (atom_bytes (if p =? 0 then str_false else str_true)).
Proof. unfold ei_encode_boolean. destruct (p =? 0); cbn [negb]; cbv zeta; emits_tac. Qed.

Lemma emits_char p : Emits (ei_encode_char p) (small_int_bytes (Z.land p 255)).
Proof. unfold ei_encode_char. emits_tac. by rewrite <- Z.land_assoc. Qed.

Lemma emits_double p : (length (sprintf_20e p) < 31)%nat →
  Emits (ei_encode_double p) (ERL_FLOAT_EXT :: float_text (sprintf_20e p)).
Proof.
  intros Hs. unfold ei_encode_double, float_text. set (t := sprintf_20e p) in *. apply emits_body.
  - eapply writes_eq; [|reflexivity|].
    + apply writes_adv, writes_if_buf. apply (writes_seq _ [_] _ (t ++ replicate (31 - length t) 0) 0); [apply writes_put8|].
      intros pre old post Hl. erewrite M_bind_Go; [|apply writes_memmove; [cbn; lia|]; len_lia]. cbn beta.
      rewrite Z.add_0_r, firstn_all2 by (rewrite length_replicate; lia).
      replace (replicate 31 0) with (replicate (length t + 1) 0 ++ replicate (31 - (length t + 1)) 0)
        by (rewrite <- replicate_add; f_equal; lia).
      rewrite <- app_assoc.
      rewrite (writes_memmove (t ++ [0]) (zlen t + 1)) by len_lia.
      rewrite firstn_all2 by len_lia. state_eq.
      rewrite <- !app_assoc. cbn [app]. do 2 f_equal.
      replace (31 - length t)%nat with (S (31 - (length t + 1))) by lia. done.
    + len_lia.
  - eapply moves_cast; [repeat moves_step|len_lia].
Qed.

Lemma emits_list_header n : 0 ≤ n → Emits (ei_encode_list_header n) (list_header_bytes n).
Proof.
  intros Hn. unfold ei_encode_list_header, list_header_bytes. destruct (Z.ltb_spec n 0); [lia|].
  destruct (Z.eqb_spec n 0) as [->|]; [change (0 >? 0) with false|replace (n >? 0) with true by lia]; emits_tac.
Qed.

Lemma emits_tuple_header n : 0 ≤ n → Emits (ei_encode_tuple_header n) (tuple_header_bytes n).
Proof.
  intros Hn. unfold ei_encode_tuple_header, tuple_header_bytes. destruct (Z.ltb_spec n 0); [lia|].
  apply emits_if; intros; emits_tac. rewrite !land_255, !(Z.mod_small n) by lia. done.
Qed.

Lemma name_of_strlen block n : strlen block = Some n → name_of block = take (Z.to_nat n) block ∧ 0 ≤ n < zlen block.
Proof.
  intros H. unfold name_of. rewrite H. split; [done|].
  revert n H. induction block as [|c b IH]; intros n H; [done|]. cbn in H. case_bool_decide; cleanup; [len_lia|].
  destruct (strlen b) as [m|] eqn:E; cbn in H; [|done]. cleanup. specialize (IH m eq_refl). len_lia.
Qed.

Lemma emits_pid p n : strlen (pid_node p) = Some n → Emits (ei_encode_pid p) (pid_bytes p).
Proof.
  intros Hn. pose proof (name_of_strlen _ _ Hn) as [Hname ?]. eapply emits_with_strlen; [done|].
  unfold pid_bytes. rewrite Hname. assert (zlen (take (Z.to_nat n) (pid_node p)) = n) as Hz by len_lia.
  emits_tac. unfold atom_bytes. rewrite Hz. cbn [app]. rewrite <- !app_assoc. cbn [app].
  by rewrite <- (Z.land_assoc (pid_creation p)).
Qed.

Lemma emits_port p n : strlen (port_node p) = Some n → Emits (ei_encode_port p) (port_bytes p).
Proof.
  intros Hn. pose proof (name_of_strlen _ _ Hn) as [Hname ?]. eapply emits_with_strlen; [done|].
  unfold port_bytes. rewrite Hname. assert (zlen (take (Z.to_nat n) (port_node p)) = n) as Hz by len_lia.
  emits_tac. unfold atom_bytes. rewrite Hz. cbn [app]. rewrite <- !app_assoc. cbn [app].
  by rewrite <- (Z.land_assoc (port_creation p)).
Qed.

Lemma length_concat_const {A} (g : A → list Z) k l : (∀ x, length (g x) = k) → length (concat (map g l)) = (length l * k)%nat.
Proof. intros Hg. induction l as [|x l IH]; [done|]. cbn. rewrite length_app, Hg, IH. done. Qed.

(** A loop [for (i = 0; i < n; i++) body(p[i])] over the first [n] elements of an array. *)
Lemma writes_for_array p n (body : Z → M estate unit) (g : Z → list Z) :
  0 ≤ n ≤ zlen p →
  (∀ i v, load p i = Some v → writes (body i) (g v) (zlen (g v))) →
  writes (for_range n body) (concat (map g (take (Z.to_nat n) p))) (zlen (concat (map g (take (Z.to_nat n) p)))).
Proof.
  intros Hn Hb. unfold for_range. replace (Z.to_nat n) with (length (take (Z.to_nat n) p)) at 1 by len_lia.
  apply writes_for_upto. intros j v Hj. rewrite Z.add_0_l. apply Hb. unfold load. decide_true. rewrite Nat2Z.id.
  rewrite lookup_take in Hj. by case_decide.
Qed.

Lemma emits_ref p n : strlen (ref_node p) = Some n → 0 ≤ ref_len p ≤ zlen (ref_n p) →
  Emits (ei_encode_ref p) (ref_bytes p).
Proof.
  intros Hn Hl. pose proof (name_of_strlen _ _ Hn) as [Hname ?]. eapply emits_with_strlen; [done|].
  unfold ref_bytes. rewrite Hname. assert (zlen (take (Z.to_nat n) (ref_node p)) = n) as Hz by len_lia.
  assert (length (concat (map be32 (take (Z.to_nat (ref_len p)) (ref_n p)))) = (Z.to_nat (ref_len p) * 4)%nat) as Hc.
  { rewrite (length_concat_const _ 4), length_take by done. lia. }
  apply emits_body.
  - eapply writes_eq; [repeat writes_step|..].
    + apply (writes_for_array (ref_n p) _ _ be32); [done|]. intros i v Hv. eapply writes_arg_at; [done|]. apply writes_put32be.
    + unfold atom_bytes. rewrite Hz. cbn [app]. rewrite <- !app_assoc. cbn [app].
      by rewrite <- (Z.land_assoc (ref_creation p)).
    + unfold atom_bytes, be16 in *. len_lia.
  - eapply moves_cast; [repeat moves_step|]. unfold atom_bytes, be16 in *. len_lia.
Qed.

Lemma emits_string_len p len : Forall is_byte p → 0 ≤ len ≤ zlen p →
  Emits (ei_encode_string_len p len) (string_bytes (take (Z.to_nat len) p)).
Proof.
  intros Hb H. assert (zlen (take (Z.to_nat len) p) = len) as Hn by len_lia.
  unfold ei_encode_string_len, string_bytes. rewrite Hn.
  apply emits_if; intros; [emits_tac|]. apply emits_if; intros; [emits_tac|].
  assert (length (concat (map small_int_bytes (take (Z.to_nat len) p))) = (Z.to_nat len * 2)%nat) as Hc.
  { rewrite (length_concat_const _ 2), length_take by done. lia. }
  apply emits_body.
  - eapply writes_eq; [do 3 writes_step; [writes_step|]; apply writes_seq; [|writes_step]|..].
    + apply (writes_for_array p _ _ small_int_bytes); [done|]. intros i v Hv.
      eapply writes_eq; [apply writes_seq; [apply writes_put8|eapply writes_arg_at; [done|apply writes_put8]]|..]; [|done].
      unfold small_int_bytes. cbn [app]. rewrite (land_255 v), Z.mod_small; [done|].
      unfold load in Hv. case_bool_decide; [|done]. rewrite Forall_lookup in Hb. by eapply Hb.
    + done.
    + len_lia.
  - eapply moves_cast; [repeat moves_step|]. unfold be32. len_lia.
Qed.

Lemma emits_long p : is_long p → Emits (ei_encode_long p) (long_bytes p).
Proof.
  unfold is_long, long_bits, ei_encode_long, long_bytes.
  destruct ei_64bit; [apply emits_longlong|apply emits_long_32].
Qed.

Lemma emits_atom p n : strlen p = Some n → Emits (ei_encode_atom p) (atom_bytes (take (Z.to_nat MAXATOMLEN) (name_of p))).
Proof.
  intros Hn. pose proof (name_of_strlen _ _ Hn) as [-> ?]. eapply emits_with_strlen; [done|].
  rewrite take_take. replace (Z.to_nat MAXATOMLEN `min` Z.to_nat n)%nat with (Z.to_nat (n `min` MAXATOMLEN)) by lia.
  apply emits_atom_len; lia.
Qed.

Lemma emits_trace p n : strlen (pid_node (tr_from p)) = Some n →
  is_long (tr_flags p) → is_long (tr_label p) → is_long (tr_serial p) → is_long (tr_prev p) →
  Emits (ei_encode_trace p) (trace_bytes p).
Proof.
  intros. unfold ei_encode_trace, trace_bytes. rewrite <- (app_nil_r (long_bytes (tr_prev p))).
  apply emits_seq; [by apply emits_tuple_header|].
  do 3 (apply emits_seq; [by apply emits_long|]). apply emits_seq; [by eapply emits_pid|].
  apply emits_seq; [by apply emits_long|apply emits_ret].
Qed.

(** The digit loop: digits before [i] are already in [seg]. *)
Lemma put_big_loop digits digit_bytes m i pre seg old post :
  zlen seg = 2 * i → zlen old = digit_bytes - 2 * i → 0 ≤ i →
  Z.of_nat m = (digit_bytes + 1) / 2 - i → (digit_bytes + 1) / 2 ≤ zlen digits →
  for_upto m i (λ i, arg_at digits i (λ dt,
      let hi := Z.land (Z.shiftr dt 8) 255 in
      let lo := Z.land dt 255 in
      store_at (i * 2) lo ;;
      if i * 2 + 1 <? digit_bytes then store_at (i * 2 + 1) hi else mret tt))
    (EState (Some (pre ++ seg ++ old ++ post)) (zlen pre)) =
  Some (Go tt, EState (Some (pre ++ seg ++ big_digit_bytes (drop (Z.to_nat i) digits) (digit_bytes - 2 * i) ++ post)) (zlen pre)).
Proof.
  revert i seg old. induction m as [|m IH]; intros i seg old Hseg Hold Hi Hm Hd.
  - assert (digit_bytes - 2 * i ≤ 0) as Hz by (Z.div_mod_to_equations; lia).
    destruct old; [|len_lia]. unfold big_digit_bytes. replace (Z.to_nat (digit_bytes - 2 * i)) with 0%nat by lia.
    done.
  - cbn [for_upto]. destruct (load_lt digits i) as (d & Hl & Hd'); [Z.div_mod_to_equations; lia|].
    assert (0 < digit_bytes - 2 * i) as Hpos by (Z.div_mod_to_equations; lia).
    rewrite (drop_S _ _ _ Hd'). destruct old as [|x0 old]; [len_lia|]. cbn [app].
    unfold big_digit_bytes. cbn [map concat digit_pair app].
    replace (Z.to_nat (digit_bytes - 2 * i)) with (S (Z.to_nat (digit_bytes - 2 * i - 1))) by lia. cbn [take].
    set (K := for_upto m). unfold mbind at 1, M_bind. unfold arg_at at 1. rewrite Hl. cbn [mbind option_bind].
    rewrite (M_bind_Go _ _ _ _ _ (store_at_app pre seg x0 (old ++ post) (Z.land d 255) (i * 2) ltac:(lia))).
    destruct (Z.ltb_spec (i * 2 + 1) digit_bytes).
    + destruct old as [|x1 old]; [len_lia|]. cbn [app].
      replace (pre ++ seg ++ Z.land d 255 :: x1 :: old ++ post) with (pre ++ (seg ++ [Z.land d 255]) ++ x1 :: old ++ post)
        by (by rewrite <- app_assoc).
      rewrite (store_at_app pre (seg ++ [Z.land d 255])) by len_lia.
      replace (pre ++ (seg ++ [Z.land d 255]) ++ Z.land (Z.shiftr d 8) 255 :: old ++ post) with
        (pre ++ (seg ++ [Z.land d 255; Z.land (Z.shiftr d 8) 255]) ++ old ++ post) by (by rewrite <- !app_assoc).
      unfold K. rewrite IH by len_lia. replace (S (Z.to_nat i)) with (Z.to_nat (i + 1)) by lia.
      replace (Z.to_nat (digit_bytes - 2 * i - 1)) with (S (Z.to_nat (digit_bytes - 2 * (i + 1)))) by lia.
      cbn [take]. rewrite <- !app_assoc. done.
    + unfold mret, M_ret. assert (m = 0%nat) as -> by (Z.div_mod_to_equations; lia). destruct old; [|len_lia].
      replace (Z.to_nat (digit_bytes - 2 * i - 1)) with 0%nat by lia. done.
Qed.

Lemma length_big_digit_bytes digits n : 0 ≤ n → (n + 1) / 2 ≤ zlen digits → zlen (big_digit_bytes digits n) = n.
Proof.
  intros Hn Hd. unfold big_digit_bytes. rewrite length_take, (length_concat_const _ 2) by done.
  Z.div_mod_to_equations. lia.
Qed.

Lemma emits_big b : 0 ≤ big_arity b ≤ INT_MAX → (big_arity b + 1) / 2 ≤ zlen (big_digits b) →
  Emits (ei_encode_big b) (big_bytes b).
Proof.
  intros Ha Hd. unfold ei_encode_big, big_bytes. cbv zeta. set (n := big_arity b) in *.
  pose proof (length_big_digit_bytes (big_digits b) n ltac:(lia) Hd) as Hl.
  assert (writes (put_big_digits (big_digits b) n) (big_digit_bytes (big_digits b) n) 0) as Hw.
  { intros pre old post Ho. unfold put_big_digits, for_range. rewrite wrap_u_small by (unfold INT_MAX in *; lia).
    etrans; [apply (put_big_loop (big_digits b) n _ 0 pre [] old post); cbn [length]; Z.div_mod_to_equations; lia|].
    rewrite drop_0, Z.sub_0_r. state_eq. }
  apply emits_body.
  - eapply writes_eq; [apply writes_seq; [|eapply writes_adv, writes_if_buf, writes_seq; [apply writes_put8|exact Hw]]|..].
    + instantiate (1 := if n <? 256 then [ERL_SMALL_BIG_EXT; n] else ERL_LARGE_BIG_EXT :: be32 n).
      destruct (Z.ltb_spec n 256); (eapply writes_eq; [repeat writes_step|..]); try done.
      by rewrite (land_255 n), Z.mod_small by lia.
    + done.
    + rewrite length_app, length_cons. cbn [length]. lia.
  - eapply moves_cast; [apply moves_seq; [|repeat moves_step]|].
    + instantiate (1 := if n <? 256 then 2 else 5). destruct (n <? 256); apply moves_if_buf, moves_adv.
    + rewrite length_app, length_cons. destruct (n <? 256); cbn [length be32]; lia.
Qed.

(** ** Funs: encoders called in sequence on a local index *)

(** Statement [m] emits [bs], moving the local index past them. *)
Definition steps (m : M estate unit) (bs : list Z) : Prop :=
  (∀ pre old post, length old = length bs → zlen pre + zlen bs ≤ INT_MAX →
     m (EState (Some (pre ++ old ++ post)) (zlen pre)) =
     Some (Go tt, EState (Some (pre ++ bs ++ post)) (zlen pre + zlen bs))) ∧
  (∀ i, 0 ≤ i → i + zlen bs ≤ INT_MAX → m (EState None i) = Some (Go tt, EState None (i + zlen bs))).

Lemma steps_run m bs k pre old post :
  steps m bs → (length bs ≤ length old)%nat → zlen pre + zlen bs ≤ INT_MAX →
  (m ;; k) (EState (Some (pre ++ old ++ post)) (zlen pre)) =
  (k : M estate unit) (EState (Some ((pre ++ bs) ++ drop (length bs) old ++ post)) (zlen (pre ++ bs))).
Proof.
  intros [Hw _] Hl Hmax. rewrite <- (take_drop (length bs) old) at 1. rewrite <- (app_assoc (take _ _)).
  erewrite M_bind_Go; [|apply Hw; [rewrite length_take|]; lia].
  rewrite <- (app_assoc pre), length_app, Nat2Z.inj_add. done.
Qed.

Lemma steps_run_null m bs k i :
  steps m bs → 0 ≤ i → i + zlen bs ≤ INT_MAX →
  (m ;; k) (EState None i) = (k : M estate unit) (EState None (i + zlen bs)).
Proof. intros [_ Hs] H0 Hi. by erewrite M_bind_Go; [|apply Hs]. Qed.

Lemma steps_seq m1 b1 m2 b2 : steps m1 b1 → steps m2 b2 → steps (m1 ;; m2) (b1 ++ b2).
Proof.
  intros H1 H2. split.
  - intros pre old post Hl Hmax. rewrite (steps_run _ b1) by (done || len_lia).
    rewrite (proj1 H2) by len_lia. rewrite <- !app_assoc. state_eq.
  - intros i Hi Hmax. rewrite (steps_run_null _ b1), (proj2 H2) by (done || len_lia). state_eq.
Qed.

Lemma steps_check f bs : Emits f bs → steps (check f) bs.
Proof.
  intros [W S]. split; intros; unfold check.
  - by erewrite M_bind_Go; [|by apply W].
  - by erewrite M_bind_Go; [|by apply S].
Qed.

Lemma steps_index_body m bs : steps m bs → Emits (index_body m) bs.
Proof. intros [W S]. split; intros; unfold index_body; [by rewrite W|by rewrite S]. Qed.

(** [if (buf != NULL) memcpy(buf + ix, p, len); ix += len;] *)
Lemma steps_memcpy p len : 0 ≤ len ≤ zlen p →
  steps (if_buf (memmove_to p len) (mret tt) ;; adv_ix len) (take (Z.to_nat len) p).
Proof.
  intros Hlen. split.
  - intros pre old post Hl Hmax. erewrite M_bind_Go; [|by apply (writes_if_buf _ _ _ _ (writes_memmove p len Hlen))].
    unfold adv_ix. cbn [ebuf epos]. rewrite length_take in *. rewrite int32_small by lia. state_eq.
  - intros i Hi Hmax. erewrite M_bind_Go; [|reflexivity]. unfold adv_ix. cbn [ebuf epos].
    rewrite length_take in *. rewrite int32_small by lia. state_eq.
Qed.

(** [if (buf != NULL) { char *s = buf + ix; m } ix += k;] *)
Lemma steps_header m bs k : writes m bs (zlen bs) → k = zlen bs →
  steps (if_buf (at_ix m) (mret tt) ;; adv_ix k) bs.
Proof.
  intros Hm ->. split.
  - intros pre old post Hl Hmax. erewrite M_bind_Go.
    2:{ unfold if_buf, at_ix, at_pos. cbn [ebuf epos]. by rewrite Hm. }
    unfold adv_ix. cbn [ebuf epos]. rewrite int32_small by lia. state_eq.
  - intros i Hi Hmax. erewrite M_bind_Go; [|reflexivity]. unfold adv_ix. cbn [ebuf epos].
    rewrite int32_small by lia. state_eq.
Qed.

Lemma M_bind_assoc {S A B C} (m : M S A) (f : A → M S B) (g : B → M S C) s :
  (m ≫= λ a, f a ≫= g) s = ((m ≫= f) ≫= g) s.
Proof. unfold mbind, M_bind. by destruct (m s) as [[[a|c] s']|]. Qed.

Lemma steps_assoc (m1 m2 m3 : M estate unit) bs : steps ((m1 ;; m2) ;; m3) bs → steps (m1 ;; m2 ;; m3) bs.
Proof. intros [W S]. split; intros; rewrite M_bind_assoc; auto. Qed.

(** What the fields of a fun must satisfy for its encoding to be defined. *)
Record fun_ok (p : erlang_fun) : Prop := {
  fo_pid : ∃ n, strlen (pid_node (fun_pid p)) = Some n;
  fo_module : ∃ n, strlen (fun_module p) = Some n;
  fo_md5 : length (fun_md5 p) = 16%nat;
  fo_index : is_long (fun_index p); fo_old_index : is_long (fun_old_index p); fo_uniq : is_long (fun_uniq p);
  fo_free : 0 ≤ fun_free_var_len p ≤ zlen (fun_free_vars p) }.

Lemma steps_fun_ext p : fun_ok p → steps (ei_encode_fun_ext p) (fun_ext_bytes p).
Proof.
  intros [[n Hn] [m Hm] _ Hi _ Hu Hf]. unfold ei_encode_fun_ext, fun_ext_bytes. apply steps_assoc, steps_seq.
  { apply steps_header; [|done]. eapply writes_eq; [repeat writes_step|..]; done. }
  apply steps_seq; [by eapply steps_check, emits_pid|]. apply steps_seq; [by eapply steps_check, emits_atom|].
  do 2 (apply steps_seq; [by apply steps_check, emits_long|]). by apply steps_memcpy.
Qed.

Lemma steps_new_fun_fields p : fun_ok p →
  steps (new_fun_fields p) (fun_module_bytes p ++ long_bytes (fun_old_index p) ++ long_bytes (fun_uniq p) ++
    pid_bytes (fun_pid p) ++ fun_free_bytes p).
Proof.
  intros [[n Hn] [m Hm] _ Hi Ho Hu Hf]. unfold new_fun_fields.
  apply steps_seq; [by eapply steps_check, emits_atom|].
  do 2 (apply steps_seq; [by apply steps_check, emits_long|]).
  apply steps_seq; [by eapply steps_check, emits_pid|by apply steps_memcpy].
Qed.

(** The fixed part of a new fun behind its size field. *)
Definition new_fun_head (p : erlang_fun) : list Z :=
  Z.land (fun_arity p) 255 :: fun_md5 p ++ be32 (fun_index p) ++ be32 (fun_n_free_vars p).

Lemma writes_new_fun_head p : length (fun_md5 p) = 16%nat →
  writes (put8 (fun_arity p) ;; memmove_to (fun_md5 p) 16 ;; adv 16 ;; put32be (fun_index p) ;;
          put32be (fun_n_free_vars p)) (new_fun_head p) 25.
Proof.
  intros H5. eapply writes_eq; [repeat writes_step|..]; [|by (unfold be32; len_lia)].
  by rewrite firstn_all2 by lia.
Qed.

Lemma length_new_fun_head p : length (fun_md5 p) = 16%nat → length (new_fun_head p) = 25%nat.
Proof. intros H5. unfold new_fun_head. cbn [length]. rewrite !length_app, H5. done. Qed.

(** The size field is skipped first and written when everything behind it is in place. *)
Lemma new_fun_write p pre x0 x1 x2 x3 x4 old post : fun_ok p →
  length old = length (new_fun_tail p) → zlen pre + 5 + zlen (new_fun_tail p) ≤ INT_MAX →
  ei_encode_new_fun_ext p (EState (Some (pre ++ (x0 :: x1 :: x2 :: x3 :: x4 :: old) ++ post)) (zlen pre)) =
  Some (Go tt, EState (Some (pre ++ new_fun_ext_bytes p ++ post)) (zlen pre + (5 + zlen (new_fun_tail p)))).
Proof.
  intros Hok Hl Hmax. unfold ei_encode_new_fun_ext.
  erewrite M_bind_Go; [|reflexivity]. cbn [epos]. cbv zeta.
  pose proof (length_new_fun_head p (fo_md5 p Hok)) as Hhd. pose proof (steps_new_fun_fields p Hok) as Hf.
  unfold new_fun_tail in Hl, Hmax. fold (new_fun_head p) in Hl, Hmax.
  set (fs := fun_module_bytes p ++ _) in *. rewrite length_app, Hhd in Hl, Hmax.
  rewrite <- (take_drop 25 old). set (o1 := take 25 old). set (o2 := drop 25 old).
  assert (length o1 = 25 ∧ length o2 = length fs)%nat as [Ho1 Ho2] by (unfold o1, o2; len_lia).
  erewrite M_bind_Go.
  2:{ unfold if_buf, at_ix, at_pos. cbn [ebuf epos].
      erewrite M_bind_Go; [|by apply (writes_put8 _ pre [x0])]. cbn beta.
      erewrite M_bind_Go; [|reflexivity]. cbn [ebuf epos]. rewrite <- (app_assoc o1).
      at_split (pre ++ [ERL_NEW_FUN_EXT; x1; x2; x3; x4]) o1 (o2 ++ post).
      rewrite (writes_new_fun_head p (fo_md5 p Hok)) by lia. reflexivity. }
  erewrite M_bind_Go; [|reflexivity]. cbn [ebuf epos]. rewrite int32_small by len_lia.
  at_split (pre ++ [ERL_NEW_FUN_EXT; x1; x2; x3; x4] ++ new_fun_head p) o2 post.
  rewrite (steps_run _ fs) by (done || len_lia). rewrite <- Ho2, drop_all, !app_nil_l.
  erewrite M_bind_Go; [|reflexivity]. unfold if_buf, at_pos. cbn [ebuf epos].
  at_split (pre ++ [ERL_NEW_FUN_EXT]) [x1; x2; x3; x4] (new_fun_head p ++ fs ++ post).
  rewrite writes_put32be by done. unfold new_fun_ext_bytes, new_fun_tail. fold (new_fun_head p). fold fs.
  cbn [ebuf epos]. rewrite <- !app_assoc. cbn [app]. rewrite <- !app_assoc. state_eq.
  do 4 f_equal. len_lia.
Qed.

Lemma new_fun_size p i : fun_ok p → 0 ≤ i → i + (5 + zlen (new_fun_tail p)) ≤ INT_MAX →
  ei_encode_new_fun_ext p (EState None i) = Some (Go tt, EState None (i + (5 + zlen (new_fun_tail p)))).
Proof.
  intros Hok Hi Hmax. unfold ei_encode_new_fun_ext. erewrite M_bind_Go; [|reflexivity].
  cbv zeta. erewrite M_bind_Go; [|reflexivity]. erewrite M_bind_Go; [|reflexivity]. cbn [epos ebuf].
  pose proof (length_new_fun_head p (fo_md5 p Hok)). unfold new_fun_tail in *. fold (new_fun_head p) in *.
  rewrite length_app in Hmax. rewrite int32_small by lia.
  erewrite steps_run_null by (apply steps_new_fun_fields || lia; done || lia).
  erewrite M_bind_Go; [|reflexivity]. unfold if_buf, mret, M_ret. cbn [ebuf epos].
  rewrite (length_app (new_fun_head p)). state_eq.
Qed.

Lemma emits_fun p : fun_ok p → Emits (ei_encode_fun p) (fun_bytes p).
Proof.
  intros Hok. unfold ei_encode_fun, fun_bytes. destruct (fun_arity p =? -1).
  { by apply steps_index_body, steps_fun_ext. }
  apply steps_index_body. assert (zlen (new_fun_ext_bytes p) = 5 + zlen (new_fun_tail p)) as He.
  { unfold new_fun_ext_bytes. rewrite length_cons, length_app. cbn [length be32]. lia. }
  split; rewrite He.
  - intros pre old post Hl Hmax. destruct old as [|x0 [|x1 [|x2 [|x3 [|x4 old]]]]]; try (cbn [length] in Hl; lia).
    apply new_fun_write; [done|cbn [length] in Hl|]; lia.
  - intros. by apply new_fun_size.
Qed.

End EmitsLemmas.
