(* ===== verification/EiDecode.v ===== *)
(** Decoding of the external term format: [lib/erl_interface/src/decode/*.c] and
    [ei_get_type_internal] of [misc/get_type.c].

    Each function is the C function of the same name on a constant buffer and the
    state [( *index, *p )]; its value is the C return code. *)

From Stdlib Require Import ZArith ZifyBool.
From stdpp Require Import base list numbers option.
From S2P Require Import Prelude EiTypes EiCursor EiEncode.
Local Open Scope Z_scope.

(** [return c] when [b] holds. *)
Definition ret_if {S} (b : bool) (c : Z) : M S unit := if b then ret_code c else mret tt.

(** [memmove(p, s, len); p[len] = 0] into the array [p]. *)
Definition copy_string (vs p : list Z) : option (list Z) :=
  p' ← store_bytes p 0 vs; store p' (zlen vs) 0.

Section Scalars.
Implicit Type buf : list Z.

Definition ei_decode_version buf : M (dstate Z) Z := decode_body
  (v ← get8 buf; out_if v ;; ret_if (negb (v =? ERL_VERSION_MAGIC)) (-1)).

Definition ei_decode_atom buf : M (dstate (list Z)) Z := decode_body
  (t ← get8 buf; ret_if (negb (t =? ERL_ATOM_EXT)) (-1) ;;
   len ← get16be buf;
   if_out (vs ← peek_bytes buf len; set_out (copy_string vs)) (mret tt) ;;
   skip len).

(** The results are [void *p] and [long *lenp], either of which may be NULL. *)
Definition ei_decode_binary buf : M (dstate (option (list Z) * option Z)) Z := decode_body
  (t ← get8 buf; ret_if (negb (t =? ERL_BINARY_EXT)) (-1) ;;
   len ← get32be buf;
   st ← get_st;
   match dout st with
   | Some (Some _, _) =>
       vs ← peek_bytes buf len;
       set_out (λ o, p ← o.1; p' ← store_bytes p 0 vs; Some (Some p', o.2))
   | _ => mret tt
   end ;;
   skip len ;;
   if_out (set_out (λ o, Some (o.1, match o.2 with Some _ => Some len | None => None end))) (mret tt)).

(** [strncmp(s, lit, strlen(lit)) == 0]; comparison stops at the first difference. *)
Fixpoint strncmp_eq {T} buf (d : Z) (lit : list Z) : M (dstate T) bool :=
  match lit with
  | [] => mret true
  | c :: lit' => v ← peek buf d; if v =? c then strncmp_eq buf (d + 1) lit' else mret false
  end.

Definition ei_decode_boolean buf : M (dstate Z) Z := decode_body
  (t ← get8 buf; ret_if (negb (t =? ERL_ATOM_EXT)) (-1) ;;
   len ← get16be buf;
   t ← (if len =? 4 then b ← strncmp_eq buf 0 str_true; ret_if (negb b) (-1) ;; mret 1
        else if len =? 5 then b ← strncmp_eq buf 0 str_false; ret_if (negb b) (-1) ;; mret 0
        else ret_code (-1));
   skip len ;; out_if t).

(** [for (...) if ( *(s++) != 0) return -1], [n] times. *)
Fixpoint all_zero {T} buf (n : nat) : M (dstate T) unit :=
  match n with
  | O => mret tt
  | S n' => v ← peek buf 0; skip 1 ;; ret_if (negb (v =? 0)) (-1) ;; all_zero buf n'
  end.

Definition ei_decode_char buf : M (dstate Z) Z :=
  let decode_big arity : M (dstate Z) Z :=
    sign ← get8 buf; ret_if (negb (sign =? 0)) (-1) ;;
    n ← get8 buf; all_zero buf (Z.to_nat (arity - 1)) ;; mret n in
  decode_body
  (t ← get8 buf;
   n ← (if t =? ERL_SMALL_INTEGER_EXT then get8 buf
        else if t =? ERL_INTEGER_EXT then
          n ← get32be buf; ret_if ((n <? 0) || (n >? 255)) (-1) ;; mret n
        else if t =? ERL_SMALL_BIG_EXT then arity ← get8 buf; decode_big arity
        else if t =? ERL_LARGE_BIG_EXT then arity ← get32be buf; decode_big arity
        else ret_code (-1));
   out_if n).

(** The digit loop of the integer decoders: the first [lim] bytes are collected in the
    [w]-bit unsigned [u], the others must be 0. *)
Fixpoint get_digits {T} buf (w lim : Z) (n : nat) (i u : Z) : M (dstate T) Z :=
  match n with
  | O => mret u
  | S n' =>
      b ← get8 buf;
      if i <? lim then get_digits buf w lim n' (i + 1) (Z.lor u (wrap_u w (Z.shiftl b (i * 8))))
      else ret_if (negb (b =? 0)) (-1) ;; get_digits buf w lim n' (i + 1) u
  end.

(** The [decode_big] block of the signed decoders. *)
Definition get_signed_big {T} buf (w arity : Z) : M (dstate T) Z :=
  sign ← get8 buf;
  u ← get_digits buf w (w / 8) (Z.to_nat arity) 0 0;
  if negb (sign =? 0) then
    ret_if (u >? 2 ^ (w - 1)) (-1) ;; mret (wrap_s w (- wrap_s w u))
  else
    ret_if (u >? 2 ^ (w - 1) - 1) (-1) ;; mret (wrap_s w u).

Definition get_unsigned_big {T} buf (w arity : Z) : M (dstate T) Z :=
  sign ← get8 buf; ret_if (negb (sign =? 0)) (-1) ;;
  get_digits buf w (w / 8) (Z.to_nat arity) 0 0.

Definition decode_signed (w : Z) buf : M (dstate Z) Z := decode_body
  (t ← get8 buf;
   n ← (if t =? ERL_SMALL_INTEGER_EXT then get8 buf
        else if t =? ERL_INTEGER_EXT then get32be buf
        else if t =? ERL_SMALL_BIG_EXT then arity ← get8 buf; get_signed_big buf w arity
        else if t =? ERL_LARGE_BIG_EXT then arity ← get32be buf; get_signed_big buf w arity
        else ret_code (-1));
   out_if n).

Definition decode_unsigned (w : Z) buf : M (dstate Z) Z := decode_body
  (t ← get8 buf;
   n ← (if t =? ERL_SMALL_INTEGER_EXT then get8 buf
        else if t =? ERL_INTEGER_EXT then
          sn ← get32be buf; ret_if (sn <? 0) (-1) ;; mret sn
        else if t =? ERL_SMALL_BIG_EXT then arity ← get8 buf; get_unsigned_big buf w arity
        else if t =? ERL_LARGE_BIG_EXT then arity ← get32be buf; get_unsigned_big buf w arity
        else ret_code (-1));
   out_if n).

(** [decode_long.c] and [decode_ulong.c] (32-bit [long]), [decode_longlong.c] and
    [decode_ulonglong.c]: the same code at two widths. *)
Definition ei_decode_long_32 := decode_signed 32.
Definition ei_decode_longlong := decode_signed 64.
Definition ei_decode_ulong_32 := decode_unsigned 32.
Definition ei_decode_ulonglong := decode_unsigned 64.

Definition ei_decode_long {cfg : EiConfig} buf : M (dstate Z) Z :=
  if ei_64bit then ei_decode_longlong buf else ei_decode_long_32 buf.
Definition ei_decode_ulong {cfg : EiConfig} buf : M (dstate Z) Z :=
  if ei_64bit then ei_decode_ulonglong buf else ei_decode_ulong_32 buf.

(** [sscanf] reads the characters at [s]. *)
Definition ei_decode_double {cf : CFloat} buf : M (dstate double) Z := decode_body
  (t ← get8 buf; ret_if (negb (t =? ERL_FLOAT_EXT)) (-1) ;;
   st ← get_st;
   match sscanf_lf (drop (Z.to_nat (dpos st)) buf) with
   | None => ret_code (-1)
   | Some f => skip 31 ;; out_if f
   end).

Definition ei_decode_list_header buf : M (dstate Z) Z := decode_body
  (t ← get8 buf;
   if t =? ERL_NIL_EXT then out_if 0
   else if t =? ERL_LIST_EXT then if_out (n ← get32be buf; out_if n) (skip 4)
   else ret_code (-1)).

Definition ei_decode_tuple_header buf : M (dstate Z) Z := decode_body
  (t ← get8 buf;
   if t =? ERL_SMALL_TUPLE_EXT then if_out (n ← get8 buf; out_if n) (skip 1)
   else if t =? ERL_LARGE_TUPLE_EXT then if_out (n ← get32be buf; out_if n) (skip 4)
   else ret_code (-1)).

End Scalars.

Section Structures.
Implicit Type buf : list Z.

Definition set_pid_node (vs : list Z) (p : erlang_pid) : option erlang_pid :=
  node ← copy_string vs (pid_node p); Some (Pid node (pid_num p) (pid_serial p) (pid_creation p)).

Definition ei_decode_pid buf : M (dstate erlang_pid) Z := decode_body
  (t ← get8 buf; ret_if (negb (t =? ERL_PID_EXT)) (-1) ;;
   t ← get8 buf; ret_if (negb (t =? ERL_ATOM_EXT)) (-1) ;;
   len ← get16be buf;
   if_out (vs ← peek_bytes buf len; set_out (set_pid_node vs)) (mret tt) ;;
   skip len ;;
   if_out
     (num ← get32be buf; set_out (λ p, Some (Pid (pid_node p) (Z.land num 0x7fff) (pid_serial p) (pid_creation p))) ;;
      serial ← get32be buf; set_out (λ p, Some (Pid (pid_node p) (pid_num p) (Z.land serial 0x1fff) (pid_creation p))) ;;
      creation ← get8 buf; set_out (λ p, Some (Pid (pid_node p) (pid_num p) (pid_serial p) (Z.land creation 0x03))))
     (skip 9)).

Definition set_port_node (vs : list Z) (p : erlang_port) : option erlang_port :=
  node ← copy_string vs (port_node p); Some (Port node (port_id p) (port_creation p)).

Definition ei_decode_port buf : M (dstate erlang_port) Z := decode_body
  (t ← get8 buf; ret_if (negb (t =? ERL_PORT_EXT)) (-1) ;;
   t ← get8 buf; ret_if (negb (t =? ERL_ATOM_EXT)) (-1) ;;
   len ← get16be buf;
   if_out (vs ← peek_bytes buf len; set_out (set_port_node vs)) (mret tt) ;;
   skip len ;;
   if_out
     (id ← get32be buf; set_out (λ p, Some (Port (port_node p) (Z.land id 0x0fffffff) (port_creation p))) ;;
      creation ← get8 buf; set_out (λ p, Some (Port (port_node p) (port_id p) (Z.land creation 0x03))))
     (skip 5)).

Definition set_ref_node (vs : list Z) (p : erlang_ref) : option erlang_ref :=
  node ← copy_string vs (ref_node p); Some (Ref node (ref_len p) (ref_n p) (ref_creation p)).
Definition set_ref_len (n : Z) (p : erlang_ref) : option erlang_ref :=
  Some (Ref (ref_node p) n (ref_n p) (ref_creation p)).
Definition set_ref_n (i v : Z) (p : erlang_ref) : option erlang_ref :=
  n ← store (ref_n p) i (uint32 v); Some (Ref (ref_node p) (ref_len p) n (ref_creation p)).
Definition set_ref_creation (c : Z) (p : erlang_ref) : option erlang_ref :=
  Some (Ref (ref_node p) (ref_len p) (ref_n p) (Z.land c 0x03)).

Definition ei_decode_ref buf : M (dstate erlang_ref) Z := decode_body
  (t ← get8 buf;
   if t =? ERL_REFERENCE_EXT then
     t ← get8 buf; ret_if (negb (t =? ERL_ATOM_EXT)) (-1) ;;
     len ← get16be buf;
     if_out (vs ← peek_bytes buf len; set_out (set_ref_node vs)) (mret tt) ;;
     skip len ;;
     if_out
       (n0 ← get32be buf; set_out (set_ref_n 0 n0) ;;
        set_out (set_ref_len 1) ;;
        c ← get8 buf; set_out (set_ref_creation c))
       (skip 5)
   else if t =? ERL_NEW_REFERENCE_EXT then
     count ← get16be buf;
     if_out (set_out (set_ref_len count)) (mret tt) ;;
     t ← get8 buf; ret_if (negb (t =? ERL_ATOM_EXT)) (-1) ;;
     len ← get16be buf;
     if_out (vs ← peek_bytes buf len; set_out (set_ref_node vs)) (mret tt) ;;
     skip len ;;
     if_out (c ← get8 buf; set_out (set_ref_creation c)) (skip 1) ;;
     if_out (for_range (count `min` 3) (λ i, v ← get32be buf; set_out (set_ref_n i v)))
            (skip (4 * count))
   else ret_code (-1)).

(** The list branch of [ei_decode_string] with a destination: [p[i] = get8(s)] until a
    non-character, where the string is cut and -1 returned. *)
Fixpoint string_list buf (n : nat) (i : Z) : M (dstate (list Z)) unit :=
  match n with
  | O => if_out (set_out (λ p, store p i 0)) (mret tt)
  | S n' =>
      t ← get8 buf;
      if negb (t =? ERL_SMALL_INTEGER_EXT) then
        if_out (set_out (λ p, store p i 0)) (mret tt) ;; ret_code (-1)
      else
        if_out (v ← get8 buf; set_out (λ p, store p i v)) (skip 1) ;; string_list buf n' (i + 1)
  end.

Definition ei_decode_string buf : M (dstate (list Z)) Z := decode_body
  (t ← get8 buf;
   if t =? ERL_STRING_EXT then
     len ← get16be buf;
     if_out (vs ← peek_bytes buf len; set_out (copy_string vs)) (mret tt) ;;
     skip len
   else if t =? ERL_LIST_EXT then
     len ← get32be buf;
     string_list buf (Z.to_nat len) 0 ;;
     t ← get8 buf; ret_if (negb (t =? ERL_NIL_EXT)) (-1)
   else if t =? ERL_NIL_EXT then
     if_out (set_out (λ p, store p 0 0)) (mret tt)
   else ret_code (-1)).

(** [for (i = 0; i < n; ++i) { dt[i] = s[i*2]; if ((i*2 + 1) < digit_bytes) dt[i] |= s[i*2+1] << 8; }] *)
Definition big_digit_loop buf (digit_bytes : Z) : M (dstate erlang_big) unit :=
  for_range (uint32 (digit_bytes + 1) / 2) (λ i,
    lo ← peek buf (i * 2);
    d ← (if i * 2 + 1 <? digit_bytes then hi ← peek buf (i * 2 + 1); mret (Z.lor lo (Z.shiftl hi 8)) else mret lo);
    set_out (λ b, ds ← store (big_digits b) i d; Some (Big (big_arity b) (big_is_neg b) ds))).

Definition ei_decode_big buf : M (dstate erlang_big) Z := decode_body
  (t ← get8 buf;
   digit_bytes ← (if t =? ERL_SMALL_BIG_EXT then get8 buf
                  else if t =? ERL_LARGE_BIG_EXT then n ← get32be buf; mret (uint32 n)
                  else ret_code (-1));
   st ← get_st;
   match dout st with
   | Some b =>
       ret_if (negb (digit_bytes =? big_arity b)) (-1) ;;
       neg ← get8 buf;
       set_out (λ b, Some (Big (big_arity b) neg (big_digits b))) ;;
       big_digit_loop buf digit_bytes
   | None => skip 1
   end ;;
   skip digit_bytes).

(** The tag and, for the types that have one, the length that follows it. *)
Definition get_type_body {T} buf : M (dstate T) (Z * Z) :=
  t ← get8 buf;
  n ← (if t =? ERL_SMALL_TUPLE_EXT then get8 buf
       else if (t =? ERL_ATOM_EXT) || (t =? ERL_STRING_EXT) then get16be buf
       else if (t =? ERL_LARGE_TUPLE_EXT) || (t =? ERL_LIST_EXT) || (t =? ERL_BINARY_EXT) then get32be buf
       else if t =? ERL_SMALL_BIG_EXT then get8 buf
       else if t =? ERL_LARGE_BIG_EXT then get32be buf
       else mret 0);
  mret (t, n).

(** [ei_get_type_internal(buf, index, &type, &len)]: the index is left alone. *)
Definition ei_get_type_internal {T} buf : M (dstate T) (Z * Z) := λ st,
  match get_type_body buf st with
  | None => None
  | Some (r, _) => Some (r, st)
  end.

End Structures.

Section Compound.
Context {cfg : EiConfig} {cf : CFloat}.
Implicit Type buf : list Z.

(** [if (f(...)) return -1] *)
Definition check0 {S} (f : M S Z) : M S unit := r ← f; ret_if (negb (r =? 0)) (-1).
(** [if (f(...) < 0) return -1] *)
Definition check_neg {S} (f : M S Z) : M S unit := r ← f; ret_if (r <? 0) (-1).

(** A call with the address of a local variable: its code and the variable's new value. *)
Definition with_local {T A} (x : A) (f : M (dstate A) Z) : M (dstate T) (Z * A) := λ st,
  match f (DState (dpos st) (Some x)) with
  | Some (Go r, st') => Some (Go (r, default x (dout st')), DState (dpos st') (dout st))
  | _ => None
  end.

Definition tr_set_flags v p := Trace (tr_serial p) (tr_prev p) (tr_from p) (tr_label p) v.
Definition tr_set_label v p := Trace (tr_serial p) (tr_prev p) (tr_from p) v (tr_flags p).
Definition tr_set_serial v p := Trace v (tr_prev p) (tr_from p) (tr_label p) (tr_flags p).
Definition tr_set_from v p := Trace (tr_serial p) (tr_prev p) v (tr_label p) (tr_flags p).
Definition tr_set_prev v p := Trace (tr_serial p) v (tr_from p) (tr_label p) (tr_flags p).

(** Works on [int tindex = *index], which is copied back at the end.  The addresses of the fields are taken without a test for NULL:
    behind the header a NULL result is undefined. *)
Definition ei_decode_trace_body buf : M (dstate erlang_trace) unit :=
  ('(r, arity) ← with_local 0 (ei_decode_tuple_header buf);
   ret_if (negb (r =? 0) || negb (arity =? 5)) (-1) ;;
   has_p ← has_out;
   if negb has_p then ((λ _, None) : M (dstate erlang_trace) unit) else (
   check0 (on_field tr_flags tr_set_flags (ei_decode_long buf)) ;;
   check0 (on_field tr_label tr_set_label (ei_decode_long buf)) ;;
   check0 (on_field tr_serial tr_set_serial (ei_decode_long buf)) ;;
   check0 (on_field tr_from tr_set_from (ei_decode_pid buf)) ;;
   check0 (on_field tr_prev tr_set_prev (ei_decode_long buf)))).

Definition ei_decode_trace buf : M (dstate erlang_trace) Z := decode_body (ei_decode_trace_body buf).

(** ** Funs *)
Definition fun_set_arity v p := Fun v (fun_module p) (fun_md5 p) (fun_index p) (fun_old_index p)
  (fun_uniq p) (fun_n_free_vars p) (fun_pid p) (fun_free_var_len p) (fun_free_vars p).
Definition fun_set_module v p := Fun (fun_arity p) v (fun_md5 p) (fun_index p) (fun_old_index p)
  (fun_uniq p) (fun_n_free_vars p) (fun_pid p) (fun_free_var_len p) (fun_free_vars p).
Definition fun_set_md5 v p := Fun (fun_arity p) (fun_module p) v (fun_index p) (fun_old_index p)
  (fun_uniq p) (fun_n_free_vars p) (fun_pid p) (fun_free_var_len p) (fun_free_vars p).
Definition fun_set_index v p := Fun (fun_arity p) (fun_module p) (fun_md5 p) v (fun_old_index p)
  (fun_uniq p) (fun_n_free_vars p) (fun_pid p) (fun_free_var_len p) (fun_free_vars p).
Definition fun_set_old_index v p := Fun (fun_arity p) (fun_module p) (fun_md5 p) (fun_index p) v
  (fun_uniq p) (fun_n_free_vars p) (fun_pid p) (fun_free_var_len p) (fun_free_vars p).
Definition fun_set_uniq v p := Fun (fun_arity p) (fun_module p) (fun_md5 p) (fun_index p) (fun_old_index p)
  v (fun_n_free_vars p) (fun_pid p) (fun_free_var_len p) (fun_free_vars p).
Definition fun_set_n_free_vars v p := Fun (fun_arity p) (fun_module p) (fun_md5 p) (fun_index p) (fun_old_index p)
  (fun_uniq p) v (fun_pid p) (fun_free_var_len p) (fun_free_vars p).
Definition fun_set_pid v p := Fun (fun_arity p) (fun_module p) (fun_md5 p) (fun_index p) (fun_old_index p)
  (fun_uniq p) (fun_n_free_vars p) v (fun_free_var_len p) (fun_free_vars p).
Definition fun_set_free_var_len v p := Fun (fun_arity p) (fun_module p) (fun_md5 p) (fun_index p) (fun_old_index p)
  (fun_uniq p) (fun_n_free_vars p) (fun_pid p) v (fun_free_vars p).
Definition fun_set_free_vars v p := Fun (fun_arity p) (fun_module p) (fun_md5 p) (fun_index p) (fun_old_index p)
  (fun_uniq p) (fun_n_free_vars p) (fun_pid p) (fun_free_var_len p) v.

(** [if (p != NULL) p->f = v] *)
Definition out_upd {T} (f : T → T) : M (dstate T) unit := if_out (set_out (λ o, Some (f o))) (mret tt).

(** The part of a function that decodes with [s] as the buffer and a fresh [ix = 0],
    up to [s += ix]. *)
Definition rebased {T A} (f : list Z → M (dstate T) A) buf : M (dstate T) A := λ st,
  match f (drop (Z.to_nat (dpos st)) buf) (DState 0 (dout st)) with
  | None => None
  | Some (Go a, st') => Some (Go a, DState (dpos st + dpos st') (dout st'))
  | Some (Ret c, st') => Some (Ret c, DState (dpos st) (dout st'))
  end.

(** [p->free_vars = malloc(n); if (!(p->free_vars)) return -1; memcpy(p->free_vars, s + pos, n)] *)
Definition copy_free_vars {ca : CAlloc} buf (pos n : Z) : M (dstate erlang_fun) unit :=
  match c_malloc n with
  | None => ret_code (-1)
  | Some blk => λ st,
      vs ← load_bytes buf pos n; blk' ← store_bytes blk 0 vs;
      set_out (λ p, Some (fun_set_free_vars blk' p)) st
  end.

(** The two cases of [ei_decode_fun], behind the tag.  [ei_skip_term] is an argument
    (the two functions are mutually recursive). *)
Definition ei_decode_fun_ext {ca : CAlloc} (ei_skip_term : list Z → M (dstate unit) Z) buf : M (dstate erlang_fun) unit :=
  out_upd (fun_set_arity (-1)) ;;
  n ← get32be buf;
  rebased (λ s,
    check_neg (on_field fun_pid fun_set_pid (ei_decode_pid s)) ;;
    check_neg (on_field fun_module fun_set_module (ei_decode_atom s)) ;;
    check_neg (on_field fun_index fun_set_index (ei_decode_long s)) ;;
    check_neg (on_field fun_uniq fun_set_uniq (ei_decode_long s)) ;;
    st ← get_st;
    let ix0 := dpos st in
    for_range n (λ _, check_neg (on_null unit (ei_skip_term s))) ;;
    st' ← get_st;
    let ix := dpos st' in
    if_out
      (out_upd (fun_set_n_free_vars n) ;;
       out_upd (fun_set_free_var_len (ix - ix0)) ;;
       copy_free_vars s ix0 (ix - ix0))
      (mret tt)) buf.

Definition ei_decode_new_fun_ext {ca : CAlloc} (s0 : Z) buf : M (dstate erlang_fun) unit :=
  n ← get32be buf;
  i ← get8 buf;
  out_upd (fun_set_arity i) ;;
  if_out (vs ← peek_bytes buf 16; set_out (λ p, md5 ← store_bytes (fun_md5 p) 0 vs; Some (fun_set_md5 md5 p))) (mret tt) ;;
  skip 16 ;;
  i ← get32be buf;
  out_upd (fun_set_index i) ;;
  i ← get32be buf;
  out_upd (fun_set_n_free_vars i) ;;
  rebased (λ s,
    check_neg (on_field fun_module fun_set_module (ei_decode_atom s)) ;;
    check_neg (on_field fun_old_index fun_set_old_index (ei_decode_long s)) ;;
    check_neg (on_field fun_uniq fun_set_uniq (ei_decode_long s)) ;;
    check_neg (on_field fun_pid fun_set_pid (ei_decode_pid s))) buf ;;
  st ← get_st;
  let n := int32 (n - (dpos st - s0) + 1) in
  ret_if (n <? 0) (-1) ;;
  if_out
    (out_upd (fun_set_free_var_len n) ;;
     if n >? 0 then copy_free_vars buf (dpos st) n else mret tt)
    (mret tt) ;;
  skip n.

Definition ei_decode_fun_with {ca : CAlloc} (ei_skip_term : list Z → M (dstate unit) Z) buf : M (dstate erlang_fun) Z :=
  decode_body
  (st0 ← get_st;
   t ← get8 buf;
   if t =? ERL_FUN_EXT then ei_decode_fun_ext ei_skip_term buf
   else if t =? ERL_NEW_FUN_EXT then ei_decode_new_fun_ext (dpos st0) buf
   else ret_code (-1)).

(** The [switch] of [ei_skip_term] on the tag [ty] and length [n]; [skip] stands for the recursive
    calls.  The codes of the calls on elements are ignored, as in the source. *)
Definition ei_skip_switch {ca : CAlloc} (skip : list Z → M (dstate unit) Z) (ty n : Z) buf : M (dstate unit) unit :=
  if ty =? ERL_ATOM_EXT then check_neg (on_null _ (ei_decode_atom buf))
  else if ty =? ERL_PID_EXT then check_neg (on_null _ (ei_decode_pid buf))
  else if ty =? ERL_PORT_EXT then check_neg (on_null _ (ei_decode_port buf))
  else if (ty =? ERL_NEW_REFERENCE_EXT) || (ty =? ERL_REFERENCE_EXT) then
    check_neg (on_null _ (ei_decode_ref buf))
  else if ty =? ERL_NIL_EXT then
    '(r, _) ← with_local n (ei_decode_list_header buf); ret_if (r <? 0) (-1)
  else if ty =? ERL_LIST_EXT then
    '(r, n) ← with_local n (ei_decode_list_header buf); ret_if (r <? 0) (-1) ;;
    for_range n (λ _, skip buf ;; mret tt) ;;
    '(ty, n) ← ei_get_type_internal buf;
    if negb (ty =? ERL_NIL_EXT) then skip buf ;; mret tt
    else '(r, _) ← with_local n (ei_decode_list_header buf); ret_if (r <? 0) (-1)
  else if ty =? ERL_STRING_EXT then check_neg (on_null _ (ei_decode_string buf))
  else if (ty =? ERL_SMALL_TUPLE_EXT) || (ty =? ERL_LARGE_TUPLE_EXT) then
    '(r, n) ← with_local n (ei_decode_tuple_header buf); ret_if (r <? 0) (-1) ;;
    for_range n (λ _, skip buf ;; mret tt)
  else if ty =? ERL_BINARY_EXT then check_neg (on_null _ (ei_decode_binary buf))
  else if (ty =? ERL_SMALL_INTEGER_EXT) || (ty =? ERL_INTEGER_EXT) then
    check_neg (on_null _ (ei_decode_long buf))
  else if (ty =? ERL_SMALL_BIG_EXT) || (ty =? ERL_LARGE_BIG_EXT) then
    check_neg (on_null _ (ei_decode_big buf))
  else if ty =? ERL_FLOAT_EXT then check_neg (on_null _ (ei_decode_double buf))
  else if ty =? ERL_FUN_EXT then check_neg (on_null _ (ei_decode_fun_with skip buf))
  else ret_code (-1).

(** [ei_skip_term].  The recursion is over the nesting of the term, bounded by [fuel]. *)
Fixpoint ei_skip_term {ca : CAlloc} (fuel : nat) buf : M (dstate unit) Z :=
  match fuel with
  | O => undefined
  | S fuel' => c_call
    ('(ty, n) ← ei_get_type_internal buf; ei_skip_switch (ei_skip_term fuel') ty n buf ;; mret 0)
  end.

Definition ei_decode_fun {ca : CAlloc} (fuel : nat) := ei_decode_fun_with (ei_skip_term fuel).

(** [ei_decode_intlist]: the results are [long *a] and [int *count], either may be NULL. *)
Definition il_set (i v : Z) (o : option (list Z) * option Z) : option (option (list Z) * option Z) :=
  match o.1 with Some a => a' ← store a i v; Some (Some a', o.2) | None => Some o end.
Definition il_count (n : Z) : M (dstate (option (list Z) * option Z)) unit :=
  out_upd (λ o, (o.1, match o.2 with Some _ => Some n | None => None end)).

(** One iteration over a list: [ei_decode_long(s, &idx, a+i)], or NULL without an array. *)
Definition il_elem buf (i : Z) : M (dstate (option (list Z) * option Z)) unit :=
  st ← get_st;
  match dout st with
  | Some (Some a, _) =>
      '(r, v) ← with_local (default 0 (load a i)) (ei_decode_long buf);
      (if r <? 0 then il_count i ;; ret_code (-1) else set_out (il_set i v))
  | _ =>
      r ← on_null _ (ei_decode_long buf);
      if r <? 0 then il_count i ;; ret_code (-1) else mret tt
  end.

Definition ei_decode_intlist buf : M (dstate (option (list Z) * option Z)) Z := decode_body
  (t ← get8 buf;
   if t =? ERL_STRING_EXT then
     len ← get16be buf;
     st ← get_st;
     match dout st with
     | Some (Some _, _) => for_range len (λ i, v ← peek buf i; set_out (il_set i v))
     | _ => mret tt
     end ;;
     il_count len ;; skip len
   else if t =? ERL_LIST_EXT then
     len ← get32be buf;
     rebased (λ s, for_range len (il_elem s)) buf ;;
     il_count len
   else ret_code (-1)).

End Compound.

(** * Bignums: the rest of [decode_big.c] *)

(** [ei_alloc_big]: zeroed digits; NULL when either [malloc] fails. *)
Definition ei_alloc_big {ca : CAlloc} (sizeof_big digit_bytes : Z) : option erlang_big :=
  let n := uint32 (digit_bytes + 1) / 2 in
  _ ← c_malloc sizeof_big; _ ← c_malloc (uint32 (2 * n));
  Some (Big digit_bytes 0 (replicate (Z.to_nat n) 0)).

(** [while ((xl>0) && ( *x==*y)) { x--; y--; xl--; }] from the last digits down, then the comparison. *)
Fixpoint I_comp_loop (x y : list Z) (xl : nat) : option Z :=
  match xl with
  | O => Some 0
  | S xl' =>
      a ← x !! xl'; b ← y !! xl';
      if a =? b then I_comp_loop x y xl' else Some (if a <? b then -1 else 1)
  end.

Definition I_comp (x : list Z) (xl : Z) (y : list Z) (yl : Z) : option Z :=
  if xl <? yl then Some (-1) else if xl >? yl then Some 1 else I_comp_loop x y (Z.to_nat xl).

Definition ei_big_comp (x y : erlang_big) : option Z :=
  if big_is_neg x =? big_is_neg y then
    c ← I_comp (big_digits x) (uint32 (big_arity x + 1) / 2) (big_digits y) (uint32 (big_arity y + 1) / 2);
    Some (if negb (big_is_neg x =? 0) then - c else c)
  else Some (if negb (big_is_neg x =? 0) then -1 else 1).

(** [ei_small_to_big]: [DLOW(s)] is [s & 0xffff], [DHIGH(s)] is [(digit_t)(s >> 16)]. *)
Definition ei_small_to_big (s : Z) (b : erlang_big) : option (Z * erlang_big) :=
  let n := uint32 (big_arity b + 1) / 2 in
  if n <? 2 then Some (-1, b)
  else
    d0 ← store (big_digits b) 0 (Z.land s 65535);
    d1 ← store d0 1 (wrap_u 16 (Z.shiftr s 16));
    Some (0, Big (big_arity b) (if s <? 0 then 1 else 0) d1).
