(* ===== verification/EiDecodeSpec.v ===== *)
(** What the decoders of [EiDecode] do on the external representations of [EiEncodeSpec]:
    every decoder meets the [Decodes] contract on the bytes of its encoder. *)

From Stdlib Require Import ZArith ZifyBool.
From stdpp Require Import base list numbers option.
From S2P Require Import Prelude EiTypes EiCursor EiEncode EiEncodeSpec EiDecode.
Local Open Scope Z_scope.

Section SeesSteps.
Context {T A : Type}.
Implicit Types (o : option T) (bs rest : list Z) (c : A).

Lemma sees_get8_bind (f : list Z → Z → M (dstate T) A) x rest c k o o' :
  is_byte x → sees (λ buf, f buf x) rest c k o o' → sees (λ buf, get8 buf ≫= f buf) (x :: rest) c (1 + k) o o'.
Proof. intros Hx H. eapply (sees_bind get8 f [x] rest x); [by apply sees_get8|done]. Qed.

Lemma sees_get8_last (f : list Z → Z → M (dstate T) A) x c o o' :
  is_byte x → sees (λ buf, f buf x) [] c 0 o o' → sees (λ buf, get8 buf ≫= f buf) [x] c (zlen [x]) o o'.
Proof. apply sees_get8_bind. Qed.

Lemma sees_get16be_bind (f : list Z → Z → M (dstate T) A) n rest c k o o' :
  sees (λ buf, f buf (wrap_u 16 n)) rest c k o o' →
  sees (λ buf, get16be buf ≫= f buf) (be16 n ++ rest) c (2 + k) o o'.
Proof. intros H. eapply (sees_bind get16be f (be16 n) rest (wrap_u 16 n)); [apply sees_get16be|done]. Qed.

Lemma sees_get32be_bind (f : list Z → Z → M (dstate T) A) n rest c k o o' :
  sees (λ buf, f buf (int32 n)) rest c k o o' →
  sees (λ buf, get32be buf ≫= f buf) (be32 n ++ rest) c (4 + k) o o'.
Proof. intros H. eapply (sees_bind get32be f (be32 n) rest (int32 n)); [apply sees_get32be|done]. Qed.

Lemma sees_ret_bind {B} (b : B) (f : list Z → B → M (dstate T) A) bs c k o o' :
  sees (λ buf, f buf b) bs c k o o' → sees (λ buf, mret b ≫= f buf) bs c k o o'.
Proof. intros H pre post Hmax. by apply H. Qed.

(** An inner block computes [b] from the bytes it consumes. *)
Lemma sees_block {B} (m : list Z → M (dstate T) B) (f : list Z → B → M (dstate T) A) b b1 b2 k c o o1 o2 :
  sees m b1 b (zlen b1) o o1 → sees (λ buf, f buf b) b2 c k o1 o2 →
  sees (λ buf, m buf ≫= f buf) (b1 ++ b2) c (zlen b1 + k) o o2.
Proof. apply sees_bind. Qed.

(** A block that consumes [b1] but looks ahead into [b2]. *)
Lemma sees_ahead {B} (m : list Z → M (dstate T) B) (f : list Z → B → M (dstate T) A) b b1 b2 k1 k c o o1 o2 :
  sees m (b1 ++ b2) b k1 o o1 → k1 = zlen b1 → sees (λ buf, f buf b) b2 c k o1 o2 →
  sees (λ buf, m buf ≫= f buf) (b1 ++ b2) c (zlen b1 + k) o o2.
Proof.
  intros H1 -> H2 pre post Hmax. erewrite M_bind_Go; [|by apply H1].
  specialize (H2 (pre ++ b1) post ltac:(len_lia)). rewrite <- !app_assoc in *.
  replace (zlen pre + zlen b1) with (zlen (pre ++ b1)) by len_lia. rewrite H2. state_eq.
Qed.

(** A block that consumes everything, followed by a statement that only stores. *)
Lemma sees_last {B} (m : list Z → M (dstate T) B) (f : list Z → B → M (dstate T) A) b bs c k o o1 o2 :
  sees m bs b k o o1 → k = zlen bs → sees (λ buf, f buf b) [] c 0 o1 o2 →
  sees (λ buf, m buf ≫= f buf) bs c k o o2.
Proof.
  intros H1 -> H2. eapply sees_cast; [eapply (sees_bind m f bs [] b); eassumption|apply app_nil_r|done|lia].
Qed.

Lemma sees_skip_bind n (f : list Z → unit → M (dstate T) A) b1 b2 c k o o' :
  n = zlen b1 → sees (λ buf, f buf tt) b2 c k o o' →
  sees (λ buf, skip n ≫= f buf) (b1 ++ b2) c (n + k) o o'.
Proof. intros -> H. eapply (sees_bind (λ _, skip (zlen b1)) f b1 b2 tt); [apply sees_skip|exact H]. Qed.

Lemma sees_skip_last n (f : list Z → unit → M (dstate T) A) bs c o o' :
  n = zlen bs → sees (λ buf, f buf tt) [] c 0 o o' → sees (λ buf, skip n ≫= f buf) bs c n o o'.
Proof. intros Hn H. by eapply (sees_last (λ _, skip n) f tt); [apply sees_skip|..]. Qed.

Lemma sees_peek_all n bs o : n = zlen bs → sees (λ buf, peek_bytes buf n) bs bs 0 o o.
Proof. intros Hn. eapply sees_cast; [by apply (sees_peek_bytes bs [])|apply app_nil_r|done|done]. Qed.

Lemma sees_get_st_bind (f : list Z → dstate T → M (dstate T) A) bs c k o o' :
  (∀ pos, sees (λ buf, f buf (DState pos o)) bs c k o o') → sees (λ buf, get_st ≫= f buf) bs c k o o'.
Proof. intros H pre post Hmax. by apply H. Qed.

End SeesSteps.

Section SeesCopy.
Context {T A : Type}.
Implicit Types (o : option T) (bs rest : list Z) (c : A).

(** The result after the optional copy [F] of the string [s]. *)
Definition copied (F : list Z → T → option T) (s : list Z) (o o1 : option T) : Prop :=
  match o with Some x => ∃ x', F s x = Some x' ∧ o1 = Some x' | None => o1 = None end.

(** [if (p) { copy the next len bytes }] *)
Lemma sees_copy F (s : list Z) len rest o o1 :
  len = zlen s → copied F s o o1 →
  sees (λ buf, if_out (vs ← peek_bytes buf len; set_out (F vs)) (mret tt)) (s ++ rest) tt 0 o o1.
Proof.
  intros -> Ho. destruct o as [x|].
  - destruct Ho as (x' & Hx & ->). apply (sees_if_out (λ buf, vs ← peek_bytes buf (zlen s); set_out (F vs)) (λ _, mret tt)).
    eapply (sees_stay (λ buf, peek_bytes buf (zlen s)) (λ _ vs, set_out (F vs)));
      [by apply sees_peek_bytes|by apply sees_set_out].
  - cbn in Ho. subst o1. apply (sees_if_out _ (λ _, mret tt)). apply sees_ret.
Qed.

(** [if (p) { copy the next len bytes } s += len; rest] *)
Lemma sees_copy_bind F (s : list Z) len (f : list Z → M (dstate T) A) b2 c k o o1 o2 :
  len = zlen s → copied F s o o1 → sees f b2 c k o1 o2 →
  sees (λ buf, if_out (vs ← peek_bytes buf len; set_out (F vs)) (mret tt) ;; skip len ;; f buf)
       (s ++ b2) c (len + k) o o2.
Proof.
  intros Hl Ho H. eapply sees_stay; [by apply sees_copy|]. by apply (sees_skip_bind len (λ buf _, f buf)).
Qed.

(** [if (p) { copy the next len bytes } s += len;] *)
Lemma sees_copy_skip F (s : list Z) len o o1 :
  len = zlen s → copied F s o o1 →
  sees (λ buf, if_out (vs ← peek_bytes buf len; set_out (F vs)) (mret tt) ;; skip len) s tt len o o1.
Proof.
  intros Hl Ho. eapply sees_stay; [|apply sees_skip].
  rewrite <- (app_nil_r s). by apply sees_copy.
Qed.

End SeesCopy.


(** Evaluates tests on tags. *)
Ltac eval_tags :=
  repeat match goal with
  | |- context [Z.eqb ?a ?b] =>
      let r := eval vm_compute in (Z.eqb a b) in
      match r with
      | true => change (Z.eqb a b) with true
      | false => change (Z.eqb a b) with false
      end
  end; cbn [negb orb andb ret_if].

Ltac sees_step :=
  cbv beta;
  lazymatch goal with
  | |- sees (λ buf, get8 buf ≫= _) _ _ _ _ _ => eapply sees_get8_bind; [try done; try (unfold is_byte; lia)|]
  | |- sees (λ buf, get16be buf ≫= _) _ _ _ _ _ => eapply sees_get16be_bind
  | |- sees (λ buf, get32be buf ≫= _) _ _ _ _ _ => eapply sees_get32be_bind
  | |- sees (λ buf, mret _ ≫= _) _ _ _ _ _ => eapply sees_ret_bind
  | |- sees (λ buf, mret _) _ _ _ _ _ => eapply sees_ret
  | |- sees (λ buf, out_if _) _ _ _ _ _ => first [apply sees_out_some | apply sees_out_none]
  | |- sees (λ buf, skip _) _ _ _ _ _ => eapply sees_skip
  | |- sees (λ buf, out_if _ ≫= _) _ _ _ _ _ => eapply sees_stay; [first [apply sees_out_some | apply sees_out_none]|]
  | |- sees (λ buf, set_out _ ≫= _) _ _ _ _ _ => eapply sees_stay; [eapply sees_set_out; try reflexivity|]
  | |- sees (λ buf, set_out _) _ _ _ _ _ => eapply sees_set_out; try reflexivity
  | |- sees (λ buf, if_out _ _) _ _ _ _ _ => eapply sees_if_out; cbv beta iota
  | |- sees (λ buf, get_st ≫= _) _ _ _ _ _ => eapply sees_get_st_bind; intros; cbn [dout]
  end; eval_tags.

(** * Scalars *)

(** An array holding [p], after a string [s] is copied to its start. *)
Definition put_name (s p : list Z) : list Z := s ++ 0 :: drop (S (length s)) p.

Lemma copy_string_ok s p : (length s < length p)%nat → copy_string s p = Some (put_name s p).
Proof.
  intros Hl. unfold copy_string, store_bytes. decide_true. cbn [mbind option_bind].
  change (Z.to_nat 0) with 0%nat. rewrite take_0. cbn [app Nat.add].
  destruct (drop (length s) p) as [|x r] eqn:E.
  { apply (f_equal length) in E. rewrite length_drop in E. cbn in E. lia. }
  rewrite store_app. unfold put_name. replace (drop (S (length s)) p) with r; [done|].
  replace (S (length s)) with (length s + 1)%nat by lia. by rewrite <- drop_drop, E.
Qed.

Lemma copy_string_overflow s p : (length p ≤ length s)%nat → copy_string s p = None.
Proof.
  intros Hl. unfold copy_string, store_bytes. case_bool_decide; [|done]. cbn [mbind option_bind].
  unfold store. rewrite bool_decide_eq_false_2; [done|len_lia].
Qed.

Section DecodesLemmas.
Context {cfg : EiConfig} {cf : CFloat}.

Lemma decodes_version : DecodesTo ei_decode_version [ERL_VERSION_MAGIC] ERL_VERSION_MAGIC.
Proof. eapply decodes_body; [intros x _|..]; [repeat sees_step..|done]. Qed.

Lemma decodes_atom s : zlen s < 65536 →
  Decodes ei_decode_atom (atom_bytes s) (λ p, (length s < length p)%nat) (put_name s).
Proof.
  intros Hs. assert (wrap_u 16 (zlen s) = zlen s) as Hw by (apply wrap_u_small; change (2 ^ 16) with 65536; lia).
  eapply decodes_body; [intros p Hp|..].
  - repeat sees_step. rewrite Hw. apply sees_copy_skip; [done|]. exists (put_name s p). by rewrite copy_string_ok.
  - repeat sees_step. rewrite Hw. by apply sees_copy_skip.
  - unfold atom_bytes, be16. len_lia.
Qed.
(** ** Integers *)

(** The value of little-endian base-256 digits. *)
Definition le_value (ds : list Z) : Z := foldr (λ b v, b + 256 * v) 0 ds.

Lemma le_value_digits256 fuel up : 0 ≤ up < 256 ^ Z.of_nat fuel → le_value (digits256 fuel up) = up.
Proof.
  revert up. induction fuel as [|fuel IH]; intros up Hup.
  - cbn in Hup. assert (up = 0) as -> by lia. done.
  - cbn [digits256]. destruct (Z.eqb_spec up 0) as [->|]; [done|]. cbn [le_value foldr]. fold (le_value (digits256 fuel (up / 256))).
    rewrite Nat2Z.inj_succ, Z.pow_succ_r in Hup by lia.
    rewrite IH by (split; [apply Z.div_pos|apply Z.div_lt_upper_bound]; lia). pose proof (Z.div_mod up 256). lia.
Qed.

Lemma le_value_le32 n : 0 ≤ n < 2 ^ 32 → le_value (le32 n) = n.
Proof.
  intros Hn. unfold le_value, le32. cbn [foldr]. rewrite !land_255, !Z.shiftr_div_pow2 by lia.
  change (2 ^ 8) with 256. change (2 ^ 16) with 65536. change (2 ^ 24) with 16777216.
  change (2 ^ 32) with 4294967296 in Hn. Z.div_mod_to_equations. lia.
Qed.

Lemma sees_get_digits {T} w lim ds i u (o : option T) :
  Forall is_byte ds → 0 ≤ i → i + zlen ds ≤ lim → w = 8 * lim → 0 ≤ u < 2 ^ (8 * i) →
  sees (λ buf, get_digits buf w lim (length ds) i u) ds (u + 2 ^ (8 * i) * le_value ds) (zlen ds) o o.
Proof.
  intros Hds. revert i u. induction Hds as [|b ds Hb Hds IH]; intros i u Hi Hl Hw Hu.
  - eapply sees_cast; [apply sees_ret|done|cbn [le_value foldr]; lia|done].
  - cbn [length] in *. eapply sees_cast; [|done|..].
    + cbn [get_digits]. eapply sees_get8_bind; [done|]. cbv beta. replace (i <? lim) with true by lia.
      assert (2 ^ (8 * (i + 1)) = 256 * 2 ^ (8 * i)) as Hp.
      { replace (8 * (i + 1)) with (8 + 8 * i) by lia. rewrite Z.pow_add_r by lia. done. }
      unfold is_byte in Hb.
      assert (2 ^ (8 * (i + 1)) ≤ 2 ^ w) by (apply Z.pow_le_mono_r; lia).
      rewrite wrap_u_small by (rewrite Z.shiftl_mul_pow2 by lia; replace (i * 8) with (8 * i) by lia; nia).
      replace (i * 8) with (8 * i) by lia. rewrite lor_shiftl_add' by lia.
      apply (IH (i + 1)); nia.
    + cbn [le_value foldr]. fold (le_value ds). replace (8 * (i + 1)) with (8 + 8 * i) by lia.
      rewrite Z.pow_add_r by lia. change (2 ^ 8) with 256. ring.
    + cbn [length]. lia.
Qed.

(** The signed [decode_big] block on a sign byte and digits. *)
Lemma sees_signed_big {T} w neg ds p (o : option T) :
  (w = 32 ∨ w = 64) → - 2 ^ (w - 1) ≤ p < 2 ^ (w - 1) → Forall is_byte ds → 8 * zlen ds ≤ w →
  le_value ds = Z.abs p → neg = bool_to_Z (p <? 0) →
  sees (λ buf, get_signed_big buf w (zlen ds)) (neg :: ds) p (1 + zlen ds) o o.
Proof.
  intros Hw Hp Hds Hl Hv ->. assert (w = 8 * (w / 8) ∧ 0 < w) as [Hw8 Hpos] by (destruct Hw as [-> | ->]; done).
  assert (2 ^ w = 2 * 2 ^ (w - 1)) as Hpow by (rewrite <- Z.pow_succ_r by lia; f_equal; lia).
  pose proof (Z.pow_pos_nonneg 2 (w - 1) ltac:(lia) ltac:(lia)) as Hpp.
  apply (sees_cast _ (bool_to_Z (p <? 0) :: ds ++ []) _ p _ (1 + (zlen ds + 0))); [|by rewrite app_nil_r|done|lia].
  eapply sees_get8_bind; [unfold is_byte, bool_to_Z; destruct (p <? 0); lia|]. cbv beta.
    rewrite Nat2Z.id.
    eapply (sees_block (λ buf, get_digits buf w (w / 8) (length ds) 0 0)); [apply sees_get_digits; done || lia|].
    cbv beta. change (2 ^ (8 * 0)) with 1. rewrite Z.add_0_l, Z.mul_1_l, Hv.
    destruct (Z.ltb_spec p 0) as [Hneg|Hneg]; cbn [bool_to_Z]; eval_tags.
    + replace (Z.abs p >? 2 ^ (w - 1)) with false by lia. cbn [ret_if]. apply sees_ret_bind.
      eapply sees_cast; [apply sees_ret|done| |done].
      destruct (decide (p = - 2 ^ (w - 1))) as [->|].
      * destruct Hw as [-> | ->]; reflexivity.
      * rewrite (wrap_s_small w (Z.abs p)) by lia. rewrite wrap_s_small by lia. lia.
    + replace (Z.abs p >? 2 ^ (w - 1) - 1) with false by lia. cbn [ret_if]. apply sees_ret_bind.
      eapply sees_cast; [apply sees_ret|done| |done]. rewrite wrap_s_small by lia. lia.
Qed.

Lemma sees_unsigned_big {T} w ds p (o : option T) :
  (w = 32 ∨ w = 64) → Forall is_byte ds → 8 * zlen ds ≤ w → le_value ds = p →
  sees (λ buf, get_unsigned_big buf w (zlen ds)) (0 :: ds) p (1 + zlen ds) o o.
Proof.
  intros Hw Hds Hl Hv. assert (w = 8 * (w / 8)) as Hw8 by (destruct Hw as [-> | ->]; done).
  unfold get_unsigned_big. do 2 sees_step. rewrite Nat2Z.id.
  eapply sees_cast; [apply sees_get_digits; done || lia|done| |done].
  change (2 ^ (8 * 0)) with 1. lia.
Qed.

Lemma decodes_signed_small w p : is_byte p → DecodesTo (decode_signed w) (small_int_bytes p) p.
Proof. intros Hp. eapply decodes_body; [intros x _|..]; [repeat sees_step..|done]. Qed.

Lemma decodes_signed_int w p : int32 p = p → DecodesTo (decode_signed w) (int_bytes p) p.
Proof.
  intros Hp. unfold int_bytes. rewrite <- (app_nil_r (be32 p)).
  eapply decodes_body; [intros x _|..]; [do 2 sees_step; rewrite Hp; sees_step..|done].
Qed.

Lemma decodes_signed_big w ds p :
  (w = 32 ∨ w = 64) → - 2 ^ (w - 1) ≤ p < 2 ^ (w - 1) → Forall is_byte ds → 8 * zlen ds ≤ w →
  le_value ds = Z.abs p →
  DecodesTo (decode_signed w) (ERL_SMALL_BIG_EXT :: zlen ds :: bool_to_Z (p <? 0) :: ds) p.
Proof.
  intros Hw Hp Hds Hl Hv.
  assert (∀ o : option Z, sees (λ buf, arity ← get8 buf; get_signed_big buf w arity) (zlen ds :: bool_to_Z (p <? 0) :: ds)
                p (1 + (1 + zlen ds)) o o) as Hb.
  { intros o. eapply sees_get8_bind; [unfold is_byte; lia|]. by apply sees_signed_big. }
  eapply decodes_body; [intros x _|..].
  - sees_step. eapply (sees_last (λ buf, arity ← get8 buf; get_signed_big buf w arity) (λ _ n, out_if n));
      [apply Hb|len_lia|sees_step].
  - sees_step. eapply (sees_last (λ buf, arity ← get8 buf; get_signed_big buf w arity) (λ _ n, out_if n));
      [apply Hb|len_lia|sees_step].
  - len_lia.
Qed.

Lemma le32_bytes n : Forall is_byte (le32 n).
Proof. unfold le32. repeat constructor; apply is_byte_land. Qed.

Lemma small_range p : ERL_MIN ≤ p ≤ ERL_MAX → int32 p = p.
Proof. unfold ERL_MIN, ERL_MAX. intros. apply int32_small. unfold INT_MAX. lia. Qed.

Lemma decodes_longlong p : - 2 ^ 63 ≤ p < 2 ^ 63 → DecodesTo ei_decode_longlong (longlong_bytes p) p.
Proof.
  intros Hp. unfold longlong_bytes.
  destruct ((p <? 256) && (p >=? 0)) eqn:E1; [apply decodes_signed_small; unfold is_byte; lia|].
  destruct ((p <=? ERL_MAX) && (p >=? ERL_MIN)) eqn:E2; [apply decodes_signed_int, small_range; lia|].
  assert (0 ≤ Z.abs p < 256 ^ Z.of_nat 8)
    by (change (256 ^ Z.of_nat 8) with 18446744073709551616; change (2 ^ 63) with 9223372036854775808 in Hp; lia).
  unfold small_big_bytes. pose proof (length_digits256 8 (Z.abs p)).
  apply decodes_signed_big; [by right|done|apply digits256_bytes; lia|lia|by apply le_value_digits256].
Qed.

Lemma decodes_long_32 p : - 2 ^ 31 ≤ p < 2 ^ 31 → DecodesTo ei_decode_long_32 (long_32_bytes p) p.
Proof.
  intros Hp. unfold long_32_bytes.
  destruct ((p <? 256) && (p >=? 0)) eqn:E1; [apply decodes_signed_small; unfold is_byte; lia|].
  destruct ((p <=? ERL_MAX) && (p >=? ERL_MIN)) eqn:E2; [apply decodes_signed_int, small_range; lia|].
  change 4 with (zlen (le32 (Z.abs p))).
  apply decodes_signed_big; [by left|done|apply le32_bytes|done|apply le_value_le32].
  change (2 ^ 31) with 2147483648 in Hp. change (2 ^ 32) with 4294967296. lia.
Qed.

Lemma decodes_long p : is_long p → DecodesTo ei_decode_long (long_bytes p) p.
Proof.
  unfold is_long, long_bits, ei_decode_long, long_bytes.
  destruct ei_64bit; [apply decodes_longlong|apply decodes_long_32].
Qed.

Lemma decodes_unsigned_small w p : is_byte p → DecodesTo (decode_unsigned w) (small_int_bytes p) p.
Proof. intros Hp. eapply decodes_body; [intros x _|..]; [repeat sees_step..|done]. Qed.

Lemma decodes_unsigned_int w p : 0 ≤ p ≤ ERL_MAX → DecodesTo (decode_unsigned w) (int_bytes p) p.
Proof.
  intros Hp. unfold int_bytes. rewrite <- (app_nil_r (be32 p)).
  assert (int32 p = p) as Hi by (apply small_range; unfold ERL_MIN; lia).
  assert (∀ o, sees (λ buf, sn ← get32be buf; ret_if (sn <? 0) (-1) ;; mret sn) (be32 p ++ []) p (4 + 0)
    (o : option Z) o) as Hb.
  { intros o. repeat sees_step. rewrite Hi. replace (p <? 0) with false by lia. cbn [ret_if]. repeat sees_step. }
  eapply decodes_body; [intros x _|..];
    [sees_step; eapply (sees_last (λ buf, sn ← get32be buf; ret_if (sn <? 0) (-1) ;; mret sn) (λ _ n, out_if n));
      [apply Hb|done|sees_step]..|done].
Qed.

Lemma decodes_unsigned_big w ds p :
  (w = 32 ∨ w = 64) → Forall is_byte ds → 8 * zlen ds ≤ w → le_value ds = p →
  DecodesTo (decode_unsigned w) (ERL_SMALL_BIG_EXT :: zlen ds :: 0 :: ds) p.
Proof.
  intros Hw Hds Hl Hv.
  assert (∀ o : option Z, sees (λ buf, arity ← get8 buf; get_unsigned_big buf w arity) (zlen ds :: 0 :: ds)
                p (1 + (1 + zlen ds)) o o) as Hb.
  { intros o. eapply sees_get8_bind; [unfold is_byte; lia|]. by apply sees_unsigned_big. }
  eapply decodes_body; [intros x _|..];
    [sees_step; eapply (sees_last (λ buf, arity ← get8 buf; get_unsigned_big buf w arity) (λ _ n, out_if n));
      [apply Hb|len_lia|sees_step]..|len_lia].
Qed.

Lemma decodes_ulonglong p : 0 ≤ p < 2 ^ 64 → DecodesTo ei_decode_ulonglong (ulonglong_bytes p) p.
Proof.
  intros Hp. unfold ulonglong_bytes.
  destruct ((p <? 256) && (p >=? 0)) eqn:E1; [apply decodes_unsigned_small; unfold is_byte; lia|].
  destruct (p <=? ERL_MAX) eqn:E2; [apply decodes_unsigned_int; lia|].
  unfold small_big_bytes. pose proof (length_digits256 8 p).
  apply decodes_unsigned_big; [by right|apply digits256_bytes; lia|lia|by apply le_value_digits256].
Qed.

Lemma decodes_ulong_32 p : 0 ≤ p < 2 ^ 32 → DecodesTo ei_decode_ulong_32 (ulong_32_bytes p) p.
Proof.
  intros Hp. unfold ulong_32_bytes. destruct (p >? ERL_MAX) eqn:E2.
  { change 4 with (zlen (le32 p)).
    apply decodes_unsigned_big; [by left|apply le32_bytes|done|by apply le_value_le32]. }
  destruct ((p <? 256) && (p >=? 0)) eqn:E1; [apply decodes_unsigned_small; unfold is_byte; lia|].
  apply decodes_unsigned_int; lia.
Qed.

(** ** Other scalars *)

Lemma decodes_char p : is_byte p → DecodesTo ei_decode_char (small_int_bytes p) p.
Proof. intros Hp. eapply decodes_body; [intros x _|..]; [repeat sees_step..|done]. Qed.

Lemma sees_strncmp {T} lit d bs (o : option T) :
  0 ≤ d → (∀ i c, lit !! i = Some c → bs !! (Z.to_nat d + i)%nat = Some c) →
  sees (λ buf, strncmp_eq buf d lit) bs true 0 o o.
Proof.
  revert d. induction lit as [|c lit IH]; intros d Hd Hl; [apply sees_ret|]. cbn [strncmp_eq].
  eapply (sees_stay (λ buf, peek buf d) (λ buf v, if v =? c then strncmp_eq buf (d + 1) lit else mret false)).
  - apply sees_peek; [done|]. replace (Z.to_nat d) with (Z.to_nat d + 0)%nat by lia. by apply Hl.
  - cbv beta. rewrite Z.eqb_refl. apply IH; [lia|]. intros i c' Hi.
    replace (Z.to_nat (d + 1) + i)%nat with (Z.to_nat d + S i)%nat by lia. by apply Hl.
Qed.

Lemma decodes_boolean (b : bool) :
  DecodesTo ei_decode_boolean (atom_bytes (if b then str_true else str_false)) (bool_to_Z b).
Proof.
  assert (∀ o : option Z, sees (λ buf, len ← get16be buf;
     t ← (if len =? 4 then b ← strncmp_eq buf 0 str_true; ret_if (negb b) (-1) ;; mret 1
        else if len =? 5 then b ← strncmp_eq buf 0 str_false; ret_if (negb b) (-1) ;; mret 0
        else ret_code (-1));
     skip len ;; out_if t) (be16 (zlen (if b then str_true else str_false)) ++ (if b then str_true else str_false))
       tt (2 + zlen (if b then str_true else str_false)) o (match o with Some _ => Some (bool_to_Z b) | None => None end)) as H.
  { intros o. sees_step. destruct b; (eapply sees_stay; [eapply sees_stay; [by apply sees_strncmp|]; cbn [negb ret_if]; eapply sees_ret_bind, sees_ret|]);
      cbv beta; (apply (sees_skip_last _ (λ _ _, out_if _)); [done|apply sees_out_if]). }
  eapply decodes_body; [intros x _|..]; [do 2 sees_step; apply H..|by destruct b].
Qed.

Lemma decodes_binary s : zlen s ≤ INT_MAX →
  Decodes ei_decode_binary (binary_bytes s)
    (λ o, match o.1 with Some p => (length s ≤ length p)%nat | None => True end)
    (λ o, ((λ p, s ++ drop (length s) p) <$> o.1, (λ _, zlen s) <$> o.2)).
Proof.
  intros Hs. assert (int32 (zlen s) = zlen s) as Hw by (apply int32_small; lia).
  eapply decodes_body; [intros [p lp] Hp; cbn [fst snd] in *|..].
  - do 4 sees_step. rewrite Hw. eapply sees_stay with (o1 := Some ((λ p, s ++ drop (length s) p) <$> p, lp)).
    + destruct p as [p|].
      * eapply (sees_stay (λ buf, peek_bytes buf (zlen s))); [by apply sees_peek_all|].
        apply sees_set_out. cbn. unfold store_bytes. decide_true. cbn. reflexivity.
      * apply sees_ret.
    + cbv beta. eapply (sees_skip_last (zlen s) (λ _ _, if_out _ _)); [done|].
      eapply (sees_if_out (λ _, set_out _)). destruct p; apply sees_set_out; by destruct lp.
  - do 4 sees_step. rewrite Hw. apply sees_ret_bind.
    eapply (sees_skip_last (zlen s) (λ _ _, if_out _ _)); [done|].
    eapply (sees_if_out _ (λ _, mret tt)). apply sees_ret.
  - unfold binary_bytes, be32. len_lia.
Qed.

Lemma decodes_list_header n : 0 ≤ n ≤ INT_MAX → DecodesTo ei_decode_list_header (list_header_bytes n) n.
Proof.
  intros Hn. assert (int32 n = n) as Hw by (apply int32_small; lia). unfold list_header_bytes.
  destruct (Z.eqb_spec n 0) as [->|].
  - eapply decodes_body; [intros x _|..]; [repeat sees_step..|done].
  - rewrite <- (app_nil_r (be32 n)). eapply decodes_body; [intros x _|..].
    + do 3 sees_step. rewrite Hw. sees_step.
    + do 2 sees_step. apply sees_skip.
    + done.
Qed.

Lemma decodes_tuple_header n : 0 ≤ n ≤ INT_MAX → DecodesTo ei_decode_tuple_header (tuple_header_bytes n) n.
Proof.
  intros Hn. assert (int32 n = n) as Hw by (apply int32_small; lia). unfold tuple_header_bytes.
  destruct (Z.leb_spec n 255).
  - eapply decodes_body; [intros x _|..]; [repeat sees_step..|done].
  - rewrite <- (app_nil_r (be32 n)). eapply decodes_body; [intros x _|..].
    + do 3 sees_step. rewrite Hw. sees_step.
    + do 2 sees_step. apply sees_skip.
    + done.
Qed.

(** ** Pids, ports and references *)

Lemma mask_int32 n k : 0 ≤ k ≤ 30 → Z.land (int32 (Z.land n (Z.ones k))) (Z.ones k) = Z.land n (Z.ones k).
Proof.
  intros Hk. rewrite int32_small; [by rewrite <- Z.land_assoc, Z.land_diag|].
  rewrite Z.land_ones by lia. pose proof (Z.mod_pos_bound n (2 ^ k) ltac:(lia)).
  pose proof (Z.pow_le_mono_r 2 k 30 ltac:(lia) ltac:(lia)). unfold INT_MAX. change (2 ^ 30) with 1073741824 in *. lia.
Qed.

Lemma is_byte_land3 c : is_byte (Z.land c 3).
Proof. change 3 with (Z.ones 2). rewrite Z.land_ones by lia. pose proof (Z.mod_pos_bound c (2 ^ 2)). unfold is_byte. lia. Qed.

(** What a received pid looks like: the numbers are masked to their widths. *)
Definition pid_received (p o : erlang_pid) : erlang_pid :=
  Pid (put_name (name_of (pid_node p)) (pid_node o)) (Z.land (pid_num p) 0x7fff) (Z.land (pid_serial p) 0x1fff)
      (Z.land (pid_creation p) 3).

Lemma decodes_pid p : zlen (name_of (pid_node p)) < 65536 →
  Decodes ei_decode_pid (pid_bytes p) (λ o, (length (name_of (pid_node p)) < length (pid_node o))%nat) (pid_received p).
Proof.
  intros Hs. set (s := name_of (pid_node p)) in *.
  assert (wrap_u 16 (zlen s) = zlen s) as Hw by (apply wrap_u_small; change (2 ^ 16) with 65536; lia).
  pose proof (is_byte_land3 (pid_creation p)) as Hc. unfold pid_bytes, atom_bytes. fold s.
  rewrite <- !app_comm_cons, <- !app_assoc. eapply decodes_body; [intros o Ho|..].
  - do 5 sees_step. rewrite Hw. eapply sees_copy_bind; [done| |].
    { eexists. split; [|done]. unfold set_pid_node. rewrite copy_string_ok by done. reflexivity. }
    repeat sees_step. unfold pid_received. fold s. cbn [pid_node pid_num pid_serial pid_creation].
    rewrite <- (Z.land_assoc (pid_creation p)).
    by rewrite (mask_int32 _ 15 ltac:(lia)), (mask_int32 _ 13 ltac:(lia)).
  - do 5 sees_step. rewrite Hw. eapply sees_copy_bind; [done..|]. eapply (sees_if_out _ (λ _, skip 9)). apply sees_skip.
  - unfold be16, be32. len_lia.
Qed.

Definition port_received (p o : erlang_port) : erlang_port :=
  Port (put_name (name_of (port_node p)) (port_node o)) (Z.land (port_id p) 0x0fffffff) (Z.land (port_creation p) 3).

Lemma decodes_port p : zlen (name_of (port_node p)) < 65536 →
  Decodes ei_decode_port (port_bytes p) (λ o, (length (name_of (port_node p)) < length (port_node o))%nat) (port_received p).
Proof.
  intros Hs. set (s := name_of (port_node p)) in *.
  assert (wrap_u 16 (zlen s) = zlen s) as Hw by (apply wrap_u_small; change (2 ^ 16) with 65536; lia).
  pose proof (is_byte_land3 (port_creation p)) as Hc. unfold port_bytes, atom_bytes. fold s.
  rewrite <- !app_comm_cons, <- !app_assoc. eapply decodes_body; [intros o Ho|..].
  - do 5 sees_step. rewrite Hw. eapply sees_copy_bind; [done| |].
    { eexists. split; [|done]. unfold set_port_node. rewrite copy_string_ok by done. reflexivity. }
    repeat sees_step. unfold port_received. fold s. cbn [port_node port_id port_creation].
    rewrite <- (Z.land_assoc (port_creation p)). by rewrite (mask_int32 _ 28 ltac:(lia)).
  - do 5 sees_step. rewrite Hw. eapply sees_copy_bind; [done..|]. eapply (sees_if_out _ (λ _, skip 5)). apply sees_skip.
  - unfold be16, be32. len_lia.
Qed.

Lemma uint32_int32 v : uint32 (int32 v) = uint32 v.
Proof.
  unfold wrap_u, wrap_s. change (2 ^ 32) with 4294967296. change (2 ^ (32 - 1)) with 2147483648.
  Z.div_mod_to_equations. lia.
Qed.

(** The id loop: [seg] is already filled in, [old] is about to be. *)
Lemma sees_ref_ids vs i seg old rest node len c :
  i = zlen seg → length old = length vs →
  sees (λ buf, for_upto (length vs) i (λ i, v ← get32be buf; set_out (set_ref_n i v)))
    (concat (map be32 vs)) tt (zlen (concat (map be32 vs)))
    (Some (Ref node len (seg ++ old ++ rest) c)) (Some (Ref node len (seg ++ map (wrap_u 32) vs ++ rest) c)).
Proof.
  revert i seg old. induction vs as [|v vs IH]; intros i seg old Hi Hl.
  { destruct old; [|done]. apply sees_ret. }
  destruct old as [|x old]; [done|]. injection Hl as Hl. cbn [length for_upto map concat].
  rewrite length_app, Nat2Z.inj_add.
  eapply (sees_bind (λ buf, v ← get32be buf; set_out (set_ref_n i v)) (λ buf _, for_upto _ _ _)).
  - apply (sees_cast _ (be32 v ++ []) _ tt _ (4 + 0)); [|apply app_nil_r|done|done]. sees_step. apply sees_set_out.
    unfold set_ref_n. cbn [ref_n ref_node ref_len ref_creation app]. rewrite Hi, store_app, uint32_int32. reflexivity.
  - cbv beta. cbn [map]. specialize (IH (i + 1) (seg ++ [uint32 v]) old ltac:(len_lia) Hl).
    rewrite <- !app_assoc in IH. exact IH.
Qed.

(** What a received reference looks like. *)
Definition ref_received (p o : erlang_ref) : erlang_ref :=
  let ids := take (Z.to_nat (ref_len p)) (ref_n p) in
  Ref (put_name (name_of (ref_node p)) (ref_node o)) (ref_len p)
      (map (wrap_u 32) ids ++ drop (length ids) (ref_n o)) (Z.land (ref_creation p) 3).

Lemma decodes_ref p : zlen (name_of (ref_node p)) < 65536 → 0 ≤ ref_len p ≤ 3 → ref_len p ≤ zlen (ref_n p) →
  Decodes ei_decode_ref (ref_bytes p)
    (λ o, (length (name_of (ref_node p)) < length (ref_node o))%nat ∧ length (ref_n o) = 3%nat) (ref_received p).
Proof.
  intros Hs Hn Hn'. set (s := name_of (ref_node p)) in *. set (ids := take (Z.to_nat (ref_len p)) (ref_n p)).
  assert (zlen ids = ref_len p) as Hids by (unfold ids; len_lia).
  assert (wrap_u 16 (zlen s) = zlen s) as Hw by (apply wrap_u_small; change (2 ^ 16) with 65536; lia).
  assert (wrap_u 16 (ref_len p) = ref_len p) as Hwl by (apply wrap_u_small; change (2 ^ 16) with 65536; lia).
  pose proof (is_byte_land3 (ref_creation p)) as Hc. unfold ref_bytes, atom_bytes. fold s ids.
  assert (length (concat (map be32 ids)) = (length ids * 4)%nat) as Hcc by (by apply length_concat_const).
  rewrite <- !app_comm_cons, <- !app_assoc. eapply decodes_body; [intros o [Ho Ho3]|..].
  - do 2 sees_step. rewrite Hwl. eapply sees_stay; [eapply (sees_if_out (λ _, set_out _)), sees_set_out; reflexivity|].
    do 3 sees_step. rewrite Hw. eapply sees_copy_bind; [done| |].
    { eexists. split; [|done]. unfold set_ref_node. cbn [ref_node]. rewrite copy_string_ok by done. reflexivity. }
    eapply (sees_block (λ buf, if_out (c ← get8 buf; set_out (set_ref_creation c)) (skip 1))
              (λ buf _, if_out _ _) tt [Z.land (ref_creation p) 3]).
    { eapply (sees_if_out (λ buf, c ← get8 buf; set_out (set_ref_creation c)) (λ _, skip 1)).
      eapply sees_get8_last; [done|]. eapply sees_set_out. reflexivity. }
    cbv beta. eapply (sees_if_out (λ buf, for_range _ _) (λ _, skip _)).
    rewrite Z.min_l by lia. unfold for_range. replace (Z.to_nat (ref_len p)) with (length ids) by lia.
    cbn [ref_node ref_len ref_n]. rewrite <- (Z.land_assoc (ref_creation p)).
    unfold ref_received. fold s ids. rewrite <- (take_drop (length ids) (ref_n o)) at 1.
    apply (sees_ref_ids ids 0 []); [done|]. rewrite length_take. lia.
  - do 2 sees_step. rewrite Hwl. eapply sees_stay; [eapply (sees_if_out _ (λ _, mret tt)), sees_ret|].
    do 3 sees_step. rewrite Hw. eapply sees_copy_bind; [done..|].
    eapply (sees_block (λ buf, if_out (c ← get8 buf; set_out (set_ref_creation c)) (skip 1))
              (λ buf _, if_out _ _) tt [Z.land (ref_creation p) 3]).
    { eapply (sees_if_out _ (λ _, skip 1)). apply sees_skip. }
    cbv beta. eapply (sees_if_out _ (λ _, skip _)).
    replace (4 * ref_len p) with (zlen (concat (map be32 ids))) by lia. apply sees_skip.
  - unfold be16, be32. len_lia.
Qed.

(** ** Strings *)

Lemma string_list_out s i seg old rest post :
  Forall is_byte s → i = zlen seg → length old = length s →
  sees (λ buf, string_list buf (length s) i) (concat (map small_int_bytes s)) tt (zlen (concat (map small_int_bytes s)))
    (Some (seg ++ old ++ rest :: post)) (Some (seg ++ s ++ 0 :: post)).
Proof.
  intros Hb. revert i seg old. induction Hb as [|c s Hc Hb IH]; intros i seg old Hi Hl.
  { destruct old; [|done]. cbn [string_list length map concat app]. eapply (sees_if_out (λ _, set_out _)), sees_set_out.
    by rewrite Hi, store_app. }
  destruct old as [|x old]; [done|]. injection Hl as Hl.
  eapply sees_cast; [|done|done|].
  - cbn [string_list length map concat app]. sees_step.
    eapply (sees_block (λ buf, if_out (v ← get8 buf; set_out (λ p, store p i v)) (skip 1))
              (λ buf _, string_list buf (length s) (i + 1)) tt [c]).
    { eapply (sees_if_out (λ buf, v ← get8 buf; set_out (λ p, store p i v)) (λ _, skip 1)).
      eapply sees_get8_last; [done|]. eapply sees_set_out. by rewrite Hi, store_app. }
    cbv beta. specialize (IH (i + 1) (seg ++ [c]) old ltac:(len_lia) Hl). rewrite <- !app_assoc in IH. exact IH.
  - cbn [map concat]. rewrite length_app, Nat2Z.inj_add. change (zlen (small_int_bytes c)) with 2. cbn [length]. lia.
Qed.

Lemma string_list_null s i : Forall is_byte s →
  sees (λ buf, string_list buf (length s) i) (concat (map small_int_bytes s)) tt (zlen (concat (map small_int_bytes s))) None None.
Proof.
  intros Hb. revert i. induction Hb as [|c s Hc Hb IH]; intros i.
  { cbn [string_list length map concat app]. eapply (sees_if_out _ (λ _, mret tt)), sees_ret. }
  eapply sees_cast; [|done|done|].
  - cbn [string_list length map concat app]. sees_step.
    eapply (sees_block (λ buf, if_out (v ← get8 buf; set_out (λ p, store p i v)) (skip 1))
              (λ buf _, string_list buf (length s) (i + 1)) tt [c]).
    { eapply (sees_if_out _ (λ _, skip 1)). apply sees_skip. }
    apply IH.
  - cbn [map concat]. rewrite length_app, Nat2Z.inj_add. change (zlen (small_int_bytes c)) with 2. cbn [length]. lia.
Qed.

Lemma decodes_string s : Forall is_byte s → zlen s ≤ INT_MAX →
  Decodes ei_decode_string (string_bytes s) (λ p, (length s < length p)%nat) (put_name s).
Proof.
  intros Hb Hs. unfold string_bytes.
  destruct (Z.eqb_spec (zlen s) 0) as [H0|H0].
  { destruct s; [|cbn in H0; lia]. eapply decodes_body; [intros p Hp|..].
    - do 1 sees_step. destruct p as [|x p]; [cbn in Hp; lia|].
      eapply (sees_if_out (λ _, set_out _)), sees_set_out. done.
    - do 1 sees_step. eapply (sees_if_out _ (λ _, mret tt)), sees_ret.
    - done. }
  destruct (Z.leb_spec (zlen s) 0xffff) as [H1|H1].
  { assert (wrap_u 16 (zlen s) = zlen s) as Hw by (apply wrap_u_small; change (2 ^ 16) with 65536; lia).
    eapply decodes_body; [intros p Hp|..].
    - do 2 sees_step. rewrite Hw. apply sees_copy_skip; [done|]. exists (put_name s p). by rewrite copy_string_ok.
    - do 2 sees_step. rewrite Hw. by apply sees_copy_skip.
    - unfold be16. len_lia. }
  assert (int32 (zlen s) = zlen s) as Hw by (apply int32_small; lia).
  eapply decodes_body; [intros p Hp|..].
  - do 2 sees_step. rewrite Hw, Nat2Z.id.
    eapply sees_block with (o1 := Some (put_name s p)).
    { destruct (drop (length s) p) as [|x r] eqn:E.
      { apply (f_equal length) in E. rewrite length_drop in E. cbn in E. lia. }
      assert (put_name s p = s ++ 0 :: r) as ->.
      { unfold put_name. do 2 f_equal. replace (S (length s)) with (length s + 1)%nat by lia. by rewrite <- drop_drop, E. }
      rewrite <- (take_drop (length s) p), E.
      apply (string_list_out s 0 []); [done|done|]. rewrite length_take. lia. }
    repeat sees_step.
  - do 2 sees_step. rewrite Hw, Nat2Z.id.
    eapply (sees_block (λ buf, string_list buf (length s) 0)); [by apply string_list_null|]. repeat sees_step.
  - unfold be32. len_lia.
Qed.

(** ** Bignums *)

Lemma lookup_digit_pairs ds i d : ds !! i = Some d →
  concat (map digit_pair ds) !! (2 * i)%nat = Some (Z.land d 255) ∧
  concat (map digit_pair ds) !! (2 * i + 1)%nat = Some (Z.land (Z.shiftr d 8) 255).
Proof.
  revert i. induction ds as [|x ds IH]; intros [|i] Hi; try done; cbn in Hi.
  - by injection Hi as ->.
  - destruct (IH i Hi) as [H1 H2]. cbn [map concat digit_pair app].
    replace (2 * S i)%nat with (S (S (2 * i))) by lia. by split.
Qed.

(** A big whose digits are 16-bit and whose value fits in [arity] bytes. *)
Definition big_ok (b : erlang_big) : Prop :=
  0 ≤ big_arity b ≤ INT_MAX ∧ zlen (big_digits b) = (big_arity b + 1) / 2 ∧
  ∀ i d, big_digits b !! i = Some d →
    0 ≤ d < 65536 ∧ (big_arity b ≤ 2 * Z.of_nat i + 1 → d < 256).

Lemma digit_bytes_value d : 0 ≤ d < 65536 →
  Z.lor (Z.land d 255) (Z.shiftl (Z.land (Z.shiftr d 8) 255) 8) = d.
Proof.
  intros Hd. rewrite lor_shiftl_add' by (lia || apply is_byte_land).
  rewrite !land_255, Z.shiftr_div_pow2 by lia. change (2 ^ 8) with 256. Z.div_mod_to_equations. lia.
Qed.

Lemma sees_big_loop b m i seg old rest neg a0 :
  big_ok b → i = zlen seg → length old = m → (m + Z.to_nat i = length (big_digits b))%nat → 0 ≤ i →
  sees (λ buf, for_upto m i (λ i,
      lo ← peek buf (i * 2);
      d ← (if i * 2 + 1 <? big_arity b then hi ← peek buf (i * 2 + 1); mret (Z.lor lo (Z.shiftl hi 8)) else mret lo);
      set_out (λ b, ds ← store (big_digits b) i d; Some (Big (big_arity b) (big_is_neg b) ds))))
    (big_digit_bytes (big_digits b) (big_arity b)) tt 0
    (Some (Big a0 neg (seg ++ old ++ rest)))
    (Some (Big a0 neg (seg ++ drop (Z.to_nat i) (big_digits b) ++ rest))).
Proof.
  intros (Ha & Hn & Hd). revert i seg old. induction m as [|m IH]; intros i seg old Hi Hl Hm Hi0.
  { destruct old; [|done]. rewrite drop_ge by lia. apply sees_ret. }
  destruct old as [|x old]; [done|]. injection Hl as Hl. cbn [for_upto].
  destruct (lookup_lt_is_Some_2 (big_digits b) (Z.to_nat i)) as [d Hdi]; [lia|].
  destruct (Hd _ _ Hdi) as [Hrange Htop]. destruct (lookup_digit_pairs _ _ _ Hdi) as [Hlo Hhi].
  rewrite (drop_S _ _ _ Hdi).
  set (bs := big_digit_bytes _ _).
  assert (bs !! Z.to_nat (i * 2) = Some (Z.land d 255)) as Hlo'.
  { unfold bs, big_digit_bytes. rewrite lookup_take. rewrite decide_True by (Z.div_mod_to_equations; lia).
    replace (Z.to_nat (i * 2)) with (2 * Z.to_nat i)%nat by lia. done. }
  eapply sees_stay with (o1 := Some (Big a0 neg (seg ++ d :: old ++ rest))).
  - eapply (sees_stay (λ buf, peek buf (i * 2))); [apply sees_peek; [lia|exact Hlo']|]. cbv beta.
    eapply (sees_stay _ (λ _ d, set_out _)) with (a := d).
    + destruct (Z.ltb_spec (i * 2 + 1) (big_arity b)) as [Hlt|Hge].
      * eapply (sees_stay (λ buf, peek buf (i * 2 + 1))); [apply sees_peek; [lia|]|].
        { unfold bs, big_digit_bytes. rewrite lookup_take. rewrite decide_True by lia.
          replace (Z.to_nat (i * 2 + 1)) with (2 * Z.to_nat i + 1)%nat by lia. exact Hhi. }
        cbv beta. rewrite digit_bytes_value by done. apply sees_ret.
      * assert (Z.land d 255 = d) as -> by (rewrite land_255; apply Z.mod_small; lia). apply sees_ret.
    + apply sees_set_out. cbn [big_digits big_arity big_is_neg app]. by rewrite Hi, store_app.
  - cbv beta. specialize (IH (i + 1) (seg ++ [d]) old ltac:(len_lia) Hl ltac:(lia) ltac:(lia)).
    rewrite <- !app_assoc in IH. cbn [app] in *. replace (S (Z.to_nat i)) with (Z.to_nat (i + 1)) by lia. exact IH.
Qed.

Definition big_received (b o : erlang_big) : erlang_big :=
  Big (big_arity b) (Z.land (big_is_neg b) 255) (big_digits b ++ drop (length (big_digits b)) (big_digits o)).

Lemma decodes_big b : big_ok b →
  Decodes ei_decode_big (big_bytes b)
    (λ o, big_arity o = big_arity b ∧ (length (big_digits b) ≤ length (big_digits o))%nat) (big_received b).
Proof.
  intros Hok. pose proof Hok as (Ha & Hn & Hd). set (D := big_digit_bytes (big_digits b) (big_arity b)).
  assert (zlen D = big_arity b) as HD by (apply length_big_digit_bytes; lia).
  pose (rest := λ (n : Z) (buf : list Z),
    st ← get_st;
    match dout st with
    | Some b =>
        ret_if (negb (n =? big_arity b)) (-1) ;;
        neg ← get8 buf;
        set_out (λ b, Some (Big (big_arity b) neg (big_digits b))) ;;
        big_digit_loop buf n
    | None => skip 1
    end ;; skip n : M (dstate erlang_big) unit).
  assert (∀ o o' k, sees (rest (big_arity b)) (Z.land (big_is_neg b) 255 :: D) tt k o o' →
     k = 1 + zlen D → ∃ k', k' = zlen (big_bytes b) ∧
     sees (λ buf, t ← get8 buf;
       digit_bytes ← (if t =? ERL_SMALL_BIG_EXT then get8 buf
                      else if t =? ERL_LARGE_BIG_EXT then n ← get32be buf; mret (uint32 n)
                      else ret_code (-1));
       rest digit_bytes buf) (big_bytes b) tt k' o o') as Hh.
  { intros o o' k Hr Hk. unfold big_bytes. fold D. destruct (Z.ltb_spec (big_arity b) 256).
    - exists (1 + (1 + k)). split; [len_lia|]. cbn [app]. do 2 sees_step. exact Hr.
    - exists (1 + (zlen (be32 (big_arity b)) + k)). split; [unfold be32; len_lia|]. rewrite <- app_comm_cons. sees_step.
      eapply (sees_block (λ buf, n ← get32be buf; mret (uint32 n)) (λ buf n, rest n buf) (big_arity b)); [|exact Hr].
      apply (sees_cast _ (be32 (big_arity b)) _ (uint32 (int32 (big_arity b))) _ 4); [|done| |done].
      + eapply (sees_last get32be (λ _ n, mret (uint32 n))); [apply sees_get32be|done|apply sees_ret].
      + rewrite uint32_int32. apply wrap_u_small. unfold INT_MAX in Ha. lia. }
  assert (sees (rest (big_arity b)) (Z.land (big_is_neg b) 255 :: D) tt (1 + zlen D) None None) as Hnull.
  { unfold rest. sees_step. rewrite HD. eapply (sees_skip_bind 1 (λ _ _, skip (big_arity b)) [_]); [done|]. apply sees_skip. }
  assert (∀ o, big_arity o = big_arity b ∧ (length (big_digits b) ≤ length (big_digits o))%nat →
    sees (rest (big_arity b)) (Z.land (big_is_neg b) 255 :: D) tt (1 + zlen D) (Some o) (Some (big_received b o))) as Hsome.
  { intros o [Hoa Hod]. unfold rest. sees_step. rewrite Hoa, Z.eqb_refl. cbn [negb ret_if].
    eapply (sees_ahead _ (λ _ _, skip (big_arity b)) tt [_] D (1 + 0)); [|done|rewrite HD; apply sees_skip].
    apply sees_ret_bind. eapply sees_get8_bind; [apply is_byte_land|]. cbv beta.
    eapply sees_stay; [apply sees_set_out; reflexivity|].
    unfold big_digit_loop, for_range. rewrite wrap_u_small by (unfold INT_MAX in *; lia). rewrite <- Hn, Nat2Z.id.
    rewrite <- (take_drop (length (big_digits b)) (big_digits o)) at 1.
    unfold big_received. rewrite Hoa. apply (sees_big_loop b _ 0 []); [done|done| |lia|done]. rewrite length_take. lia. }
  split.
  - intros pre post o Ho Hmax. destruct (Hh _ _ _ (Hsome o Ho) eq_refl) as (k' & Hk' & Hs).
    exact (sees_body _ _ _ _ _ pre post Hs Hk' Hmax).
  - intros pre post Hmax. destruct (Hh _ _ _ Hnull eq_refl) as (k' & Hk' & Hs).
    exact (sees_body _ _ _ _ _ pre post Hs Hk' Hmax).
Qed.

(** ** Floats *)

(** [sscanf] reads back what [sprintf] wrote, up to the terminating NUL. *)
Class CFloatLaws : Prop := {
  sprintf_fits : ∀ d, (length (sprintf_20e d) < 31)%nat;
  sscanf_sprintf : ∀ d rest, sscanf_lf (sprintf_20e d ++ 0 :: rest) = Some d }.

Lemma decodes_double `{!CFloatLaws} d : DecodesTo ei_decode_double (ERL_FLOAT_EXT :: float_text (sprintf_20e d)) d.
Proof.
  pose proof (sprintf_fits d) as Hfit. unfold float_text.
  destruct (31 - length (sprintf_20e d))%nat as [|z] eqn:Ez; [lia|]. cbn [replicate].
  set (txt := sprintf_20e d ++ 0 :: replicate z 0).
  assert (zlen txt = 31) as Htxt by (unfold txt; len_lia).
  assert (∀ o o', sees (λ _, skip 31 ;; out_if d) txt tt 31 o o' →
    sees (λ buf, st ← get_st; match sscanf_lf (drop (Z.to_nat (dpos st)) buf) with
      | None => ret_code (-1) | Some f => skip 31 ;; out_if f end) txt tt 31 o o') as Hsc.
  { intros o o' Hsk pre post Hmax. erewrite M_bind_Go; [|reflexivity]. cbn [dpos]. rewrite Nat2Z.id, drop_app_length.
    unfold txt at 1. rewrite <- app_assoc. cbn [app]. rewrite sscanf_sprintf. by apply Hsk. }
  eapply decodes_body; [intros x _|..].
  - do 2 sees_step. apply Hsc. eapply (sees_skip_last 31 (λ _ _, out_if d)); [done|sees_step].
  - do 2 sees_step. apply Hsc. eapply (sees_skip_last 31 (λ _ _, out_if d)); [done|sees_step].
  - len_lia.
Qed.

End DecodesLemmas.

(** * Rejected input *)
Section Rejects.
Context {cfg : EiConfig} {cf : CFloat}.

Lemma get8_at {T} buf i x (o : option T) :
  load buf i = Some x → is_byte x → get8 buf (DState i o) = Some (Go x, DState (i + 1) o).
Proof.
  intros Hl Hx. unfold get8. erewrite M_bind_Go; [|reflexivity]. cbn [dpos dout].
  unfold peek. erewrite M_bind_Go; [|cbn [dpos]; replace (i + 1 + -1) with i by lia; rewrite Hl; reflexivity].
  by rewrite land_255, Z.mod_small by exact Hx.
Qed.

(** A body that starts with a tag and returns -1 on it. *)
Lemma reject_tag {T} (f : Z → M (dstate T) unit) buf i x o :
  load buf i = Some x → is_byte x → (∀ st, f x st = Some (Ret (-1), st)) →
  decode_body (get8 buf ≫= f) (DState i o) = Some (Go (-1), DState i o).
Proof.
  intros Hl Hx Hf. unfold decode_body. erewrite M_bind_Go; [|by apply get8_at]. rewrite Hf. done.
Qed.

(** Running a loop that reads one byte, on the bytes behind it. *)
Lemma get_digits_shift {T} pre b ds post w lim n i x (o : option T) :
  get_digits (pre ++ (b :: ds) ++ post) w lim n i x (DState (zlen pre + 1) o) =
  get_digits ((pre ++ [b]) ++ ds ++ post) w lim n i x (DState (zlen (pre ++ [b])) o).
Proof. rewrite <- app_assoc. do 2 f_equal. len_lia. Qed.

(** Behind the digits that fit, only zeros are accepted. *)
Lemma get_digits_zeros {T} w lim ds i u (o : option T) pre post :
  Forall is_byte ds → lim ≤ i →
  if forallb (Z.eqb 0) ds
  then get_digits (pre ++ ds ++ post) w lim (length ds) i u (DState (zlen pre) o) =
       Some (Go u, DState (zlen pre + zlen ds) o)
  else ∃ st, get_digits (pre ++ ds ++ post) w lim (length ds) i u (DState (zlen pre) o) = Some (Ret (-1), st) ∧ dout st = o.
Proof.
  intros Hds. revert i pre. induction Hds as [|b ds Hb Hds IH]; intros i pre Hi.
  { cbn. unfold mret, M_ret. state_eq. }
  specialize (IH (i + 1) (pre ++ [b]) ltac:(lia)). cbn [length get_digits forallb].
  assert (zlen pre + Z.of_nat (S (length ds)) = zlen (pre ++ [b]) + zlen ds) as -> by len_lia.
  erewrite M_bind_Go; [|apply get8_at; [apply load_app|done]]. cbv beta. replace (i <? lim) with false by lia.
  rewrite (Z.eqb_sym 0 b). destruct (b =? 0); cbn [negb ret_if andb].
  - erewrite M_bind_Go; [|reflexivity]. by rewrite get_digits_shift.
  - unfold mbind, M_bind, ret_code. eauto.
Qed.

(** The digit loop on any digits: the first [lim - i] are collected, the others must be 0. *)
Lemma get_digits_any {T} w lim ds i u (o : option T) pre post :
  Forall is_byte ds → 0 ≤ i ≤ lim → w = 8 * lim → 0 ≤ u < 2 ^ (8 * i) →
  let k := Z.to_nat (lim - i) in
  if forallb (Z.eqb 0) (drop k ds)
  then get_digits (pre ++ ds ++ post) w lim (length ds) i u (DState (zlen pre) o) =
       Some (Go (u + 2 ^ (8 * i) * le_value (take k ds)), DState (zlen pre + zlen ds) o)
  else ∃ st, get_digits (pre ++ ds ++ post) w lim (length ds) i u (DState (zlen pre) o) = Some (Ret (-1), st) ∧ dout st = o.
Proof.
  intros Hds. revert i u pre. induction Hds as [|b ds Hb Hds IH]; intros i u pre Hi Hw Hu k.
  { unfold k. rewrite drop_nil, take_nil. cbn. unfold mret, M_ret. state_eq. }
  destruct (Z.eq_dec i lim) as [->|Hne].
  { unfold k. replace (Z.to_nat (lim - lim)) with 0%nat by lia. rewrite drop_0, take_0. cbn [le_value foldr].
    rewrite Z.mul_0_r, Z.add_0_r. apply get_digits_zeros; [by constructor|lia]. }
  unfold k. replace (Z.to_nat (lim - i)) with (S (Z.to_nat (lim - (i + 1)))) by lia. cbn [drop take length get_digits].
  assert (zlen pre + Z.of_nat (S (length ds)) = zlen (pre ++ [b]) + zlen ds) as -> by len_lia.
  assert (2 ^ (8 * (i + 1)) = 256 * 2 ^ (8 * i)) as Hp.
  { replace (8 * (i + 1)) with (8 + 8 * i) by lia. rewrite Z.pow_add_r by lia. done. }
  assert (2 ^ (8 * (i + 1)) ≤ 2 ^ w) by (apply Z.pow_le_mono_r; lia).
  erewrite M_bind_Go; [|apply get8_at; [apply load_app|done]]. cbv beta. replace (i <? lim) with true by lia.
  unfold is_byte in Hb.
  assert (Z.lor u (wrap_u w (Z.shiftl b (i * 8))) = u + 2 ^ (8 * i) * b) as ->.
  { rewrite wrap_u_small by (rewrite Z.shiftl_mul_pow2 by lia; replace (i * 8) with (8 * i) by lia; nia).
    replace (i * 8) with (8 * i) by lia. rewrite lor_shiftl_add' by lia. lia. }
  rewrite get_digits_shift. specialize (IH (i + 1) (u + 2 ^ (8 * i) * b) (pre ++ [b]) ltac:(lia) Hw ltac:(nia)).
  cbn zeta in IH. destruct (forallb _ _); [|done]. rewrite IH. cbn [le_value foldr].
  fold (le_value (take (Z.to_nat (lim - (i + 1))) ds)). do 3 f_equal. rewrite Hp. ring.
Qed.

Lemma le_value_bound ds : Forall is_byte ds → 0 ≤ le_value ds < 256 ^ zlen ds.
Proof.
  induction 1 as [|b ds Hb Hds IH]; [done|]. cbn [le_value foldr length]. fold (le_value ds).
  rewrite Nat2Z.inj_succ, Z.pow_succ_r by lia. unfold is_byte in Hb. lia.
Qed.

Lemma le_value_zeros k ds : Forall is_byte ds →
  if forallb (Z.eqb 0) (drop k ds) then le_value ds = le_value (take k ds)
  else 256 ^ Z.of_nat k ≤ le_value ds.
Proof.
  intros Hds. revert k. induction Hds as [|b ds Hb Hds IH]; intros k.
  { by rewrite drop_nil, take_nil. }
  unfold is_byte in Hb. destruct k as [|k].
  - specialize (IH 0%nat). rewrite drop_0, take_0 in *. cbn [forallb le_value foldr] in *. fold (le_value ds) in *.
    pose proof (le_value_bound ds Hds). change (256 ^ Z.of_nat 0) with 1 in *.
    destruct (Z.eqb_spec 0 b) as [<-|]; cbn [andb]; [destruct (forallb _ ds); lia|lia].
  - specialize (IH k). cbn [drop take le_value foldr]. fold (le_value ds) (le_value (take k ds)).
    rewrite Nat2Z.inj_succ, Z.pow_succ_r by lia. destruct (forallb _ _); lia.
Qed.

(** The signed [decode_big] block decides exactly whether the value fits. *)
Lemma signed_big_any {T} w neg ds (o : option T) pre post :
  (w = 32 ∨ w = 64) → Forall is_byte ds → is_byte neg →
  let v := if neg =? 0 then le_value ds else - le_value ds in
  if bool_decide (- 2 ^ (w - 1) ≤ v < 2 ^ (w - 1))
  then get_signed_big (pre ++ (neg :: ds) ++ post) w (zlen ds) (DState (zlen pre) o) =
       Some (Go v, DState (zlen pre + (1 + zlen ds)) o)
  else ∃ st, get_signed_big (pre ++ (neg :: ds) ++ post) w (zlen ds) (DState (zlen pre) o) = Some (Ret (-1), st) ∧ dout st = o.
Proof.
  intros Hw Hds Hn v. assert (w = 8 * (w / 8) ∧ 0 < w) as [Hw8 Hpos] by (destruct Hw as [-> | ->]; done).
  assert (2 ^ w = 2 * 2 ^ (w - 1)) as Hpow by (rewrite <- Z.pow_succ_r by lia; f_equal; lia).
  assert (256 ^ (w / 8) = 2 ^ w) as H256 by (destruct Hw as [-> | ->]; done).
  unfold get_signed_big. erewrite M_bind_Go; [|apply get8_at; [apply load_app|done]]. cbv beta. rewrite Nat2Z.id.
  pose proof (get_digits_any w (w / 8) ds 0 0 o (pre ++ [neg]) post Hds ltac:(lia) Hw8 ltac:(cbn; lia)) as Hg.
  pose proof (le_value_zeros (Z.to_nat (w / 8)) ds Hds) as Hz. rewrite Z2Nat.id in Hz by lia.
  pose proof (le_value_bound ds Hds) as Hb.
  rewrite Z.sub_0_r in Hg. cbn zeta in Hg. rewrite <- get_digits_shift in Hg.
  destruct (forallb _ _).
  - erewrite M_bind_Go; [|exact Hg]. change (2 ^ (8 * 0)) with 1. rewrite Z.add_0_l, Z.mul_1_l, <- Hz.
    replace (zlen (pre ++ [neg]) + zlen ds) with (zlen pre + (1 + zlen ds)) by len_lia.
    unfold v. destruct (Z.eqb_spec neg 0); cbn [negb]; case_bool_decide as Hc.
    + replace (_ >? _) with false by lia. cbn [ret_if]. erewrite M_bind_Go; [|reflexivity].
      by rewrite wrap_s_small by lia.
    + replace (_ >? _) with true by lia. unfold mbind, M_bind, ret_if, ret_code. eauto.
    + replace (_ >? _) with false by lia. cbn [ret_if]. erewrite M_bind_Go; [|reflexivity].
      destruct (decide (le_value ds = 2 ^ (w - 1))) as [->|]; [destruct Hw as [-> | ->]; reflexivity|].
      rewrite (wrap_s_small w (le_value ds)) by lia. by rewrite wrap_s_small by lia.
    + replace (_ >? _) with true by lia. unfold mbind, M_bind, ret_if, ret_code. eauto.
  - rewrite bool_decide_eq_false_2 by (unfold v; destruct (neg =? 0); lia).
    destruct Hg as (st & Hg & Ho). exists st. split; [|done]. unfold mbind, M_bind. by rewrite Hg.
Qed.

(** The unsigned block refuses any negative sign and decides exactly whether the digits fit. *)
Lemma unsigned_big_any {T} w neg ds (o : option T) pre post :
  (w = 32 ∨ w = 64) → Forall is_byte ds → is_byte neg →
  if bool_decide (neg = 0 ∧ le_value ds < 2 ^ w)
  then get_unsigned_big (pre ++ (neg :: ds) ++ post) w (zlen ds) (DState (zlen pre) o) =
       Some (Go (le_value ds), DState (zlen pre + (1 + zlen ds)) o)
  else ∃ st, get_unsigned_big (pre ++ (neg :: ds) ++ post) w (zlen ds) (DState (zlen pre) o) = Some (Ret (-1), st) ∧ dout st = o.
Proof.
  intros Hw Hds Hn. assert (w = 8 * (w / 8) ∧ 0 < w) as [Hw8 Hpos] by (destruct Hw as [-> | ->]; done).
  assert (256 ^ (w / 8) = 2 ^ w) as H256 by (destruct Hw as [-> | ->]; done).
  unfold get_unsigned_big. erewrite M_bind_Go; [|apply get8_at; [apply load_app|done]]. cbv beta. rewrite Nat2Z.id.
  destruct (Z.eqb_spec neg 0) as [E0|E0]; cbn [negb ret_if].
  2:{ rewrite bool_decide_eq_false_2 by tauto. unfold mbind, M_bind, ret_code. eauto. }
  erewrite M_bind_Go; [|reflexivity].
  pose proof (get_digits_any w (w / 8) ds 0 0 o (pre ++ [neg]) post Hds ltac:(lia) Hw8 ltac:(cbn; lia)) as Hg.
  pose proof (le_value_zeros (Z.to_nat (w / 8)) ds Hds) as Hz. rewrite Z2Nat.id in Hz by lia.
  rewrite Z.sub_0_r in Hg. cbn zeta in Hg. rewrite <- get_digits_shift in Hg.
  destruct (forallb _ _).
  - rewrite Hg. change (2 ^ (8 * 0)) with 1. rewrite Z.add_0_l, Z.mul_1_l, <- Hz.
    replace (zlen (pre ++ [neg]) + zlen ds) with (zlen pre + (1 + zlen ds)) by len_lia.
    assert (le_value ds < 2 ^ w) as Hlt.
    { rewrite Hz. pose proof (le_value_bound (take (Z.to_nat (w / 8)) ds) ltac:(by apply Forall_take)) as [_ Hb].
      rewrite <- H256. eapply Z.lt_le_trans; [exact Hb|]. apply Z.pow_le_mono_r; [lia|]. rewrite length_take. lia. }
    by rewrite bool_decide_eq_true_2.
  - rewrite bool_decide_eq_false_2 by lia. destruct Hg as (st & Hg & Ho). by exists st.
Qed.

(** A bignum in the small or the large form. *)
Definition big_ext (large : bool) (neg : Z) (ds : list Z) : list Z :=
  (if large then ERL_LARGE_BIG_EXT :: be32 (zlen ds) else [ERL_SMALL_BIG_EXT; zlen ds]) ++ neg :: ds.
Definition big_ext_ok (large : bool) (neg : Z) (ds : list Z) : Prop :=
  Forall is_byte ds ∧ is_byte neg ∧ zlen ds ≤ (if large then INT_MAX else 255).

(** The part of the integer decoders in front of the [decode_big] block. *)
Definition big_switch (small int : M (dstate Z) Z) (big : Z → M (dstate Z) Z) (buf : list Z) : M (dstate Z) Z := decode_body
  (t ← get8 buf;
   n ← (if t =? ERL_SMALL_INTEGER_EXT then small else if t =? ERL_INTEGER_EXT then int
        else if t =? ERL_SMALL_BIG_EXT then arity ← get8 buf; big arity
        else if t =? ERL_LARGE_BIG_EXT then arity ← get32be buf; big arity
        else ret_code (-1));
   out_if n).

(** The decoder runs the block on the sign and the digits. *)
Lemma big_switch_run small int big large neg ds pre post o v :
  big_ext_ok large neg ds → zlen pre + zlen (big_ext large neg ds) ≤ INT_MAX →
  let buf := pre ++ big_ext large neg ds ++ post in
  let hdr := zlen pre + (zlen (big_ext large neg ds) - (1 + zlen ds)) in
  (big (zlen ds) (DState hdr o) = Some (Go v, DState (zlen pre + zlen (big_ext large neg ds)) o) →
     big_switch small int big buf (DState (zlen pre) o) =
     Some (Go 0, DState (zlen pre + zlen (big_ext large neg ds)) (match o with Some _ => Some v | None => None end))) ∧
  ((∃ st, big (zlen ds) (DState hdr o) = Some (Ret (-1), st) ∧ dout st = o) →
     big_switch small int big buf (DState (zlen pre) o) = Some (Go (-1), DState (zlen pre) o)).
Proof.
  intros (Hds & Hn & Hl) Hmax buf hdr. unfold big_switch, decode_body.
  assert (∃ tag, load buf (zlen pre) = Some tag ∧ is_byte tag ∧
    ∀ r, big (zlen ds) (DState hdr o) = r →
      (if tag =? ERL_SMALL_INTEGER_EXT then small else if tag =? ERL_INTEGER_EXT then int
       else if tag =? ERL_SMALL_BIG_EXT then arity ← get8 buf; big arity
       else if tag =? ERL_LARGE_BIG_EXT then arity ← get32be buf; big arity else ret_code (-1)) (DState (zlen pre + 1) o) = r) as (tag & Ht & Hb & Hrun).
  { unfold buf, hdr, big_ext in *. destruct large.
    - exists ERL_LARGE_BIG_EXT. split; [apply load_app|]. split; [done|]. intros r <-. eval_tags.
      erewrite M_bind_Go; [|]. 2:{ pose proof (sees_get32be (zlen ds) o (pre ++ [ERL_LARGE_BIG_EXT]) ((neg :: ds) ++ post)) as Hg.
        rewrite <- !app_assoc in Hg. cbn [app] in Hg. replace (zlen (pre ++ [ERL_LARGE_BIG_EXT])) with (zlen pre + 1) in Hg by len_lia.
        rewrite <- app_assoc. apply Hg. revert Hmax. len_simpl. unfold be32. cbn [length]. lia. }
      rewrite int32_small by lia. do 2 f_equal. unfold be32. len_lia.
    - exists ERL_SMALL_BIG_EXT. split; [apply load_app|]. split; [done|]. intros r <-. eval_tags.
      erewrite M_bind_Go; [|]. 2:{ apply (get8_at _ _ (zlen ds)); [|unfold is_byte; lia].
        pose proof (load_app (pre ++ [ERL_SMALL_BIG_EXT]) (zlen ds) ((neg :: ds) ++ post)) as Hld. rewrite <- app_assoc in Hld.
        cbn [app] in Hld |- *. by replace (zlen (pre ++ [ERL_SMALL_BIG_EXT])) with (zlen pre + 1) in Hld by len_lia. }
      do 2 f_equal. len_lia. }
  split.
  - intros Hg. erewrite M_bind_Go; [|by apply get8_at]. cbv beta. erewrite M_bind_Go; [|by apply Hrun]. unfold out_if. cbn [dpos dout].
    rewrite int32_small by lia. state_eq.
  - intros (st & Hg & Ho). erewrite M_bind_Go; [|by apply get8_at]. cbv beta. specialize (Hrun _ Hg). revert Hrun.
    generalize (if tag =? ERL_SMALL_INTEGER_EXT then small else if tag =? ERL_INTEGER_EXT then int else if tag =? ERL_SMALL_BIG_EXT then arity ← get8 buf; big arity
      else if tag =? ERL_LARGE_BIG_EXT then arity ← get32be buf; big arity else ret_code (-1)).
    intros m Hm. unfold mbind, M_bind. rewrite Hm. cbn [dpos]. by rewrite Ho.
Qed.

(** The block lies behind the header. *)
Lemma big_block (large : bool) neg ds pre post :
  ∃ pre', pre ++ big_ext large neg ds ++ post = pre' ++ (neg :: ds) ++ post ∧ zlen pre' = zlen pre + (zlen (big_ext large neg ds) - (1 + zlen ds)).
Proof.
  unfold big_ext. eexists. split; [by rewrite app_assoc, (app_assoc pre), <- app_assoc|]. len_simpl. lia.
Qed.

End Rejects.
