(* ===== verification/EiTerm.v ===== *)
(** Whole terms: trace tokens, funs and the recursive [ei_skip_term].

    A [term] is a value an [erl_interface] program builds by a sequence of
    [ei_encode_*] calls; [encode_term] is that sequence and [term_bytes] the external
    representation it produces. *)

From Stdlib Require Import ZArith ZifyBool.
From stdpp Require Import base list numbers option.
From S2P Require Import Prelude EiTypes EiCursor EiEncode EiEncodeSpec EiDecode EiDecodeSpec.
Local Open Scope Z_scope.

(** * Calls of decoders by decoders *)
Section SeesCalls.
Context {T A : Type}.
Implicit Types (f : list Z → M (dstate A) Z) (bs : list Z).

Lemma sees_on_field f bs ok upd (prj : T → A) set t :
  Decodes f bs ok upd → ok (prj t) →
  sees (λ buf, on_field prj set (f buf)) bs 0 (zlen bs) (Some t) (Some (set (upd (prj t)) t)).
Proof.
  intros [Ho _] Hok pre post Hmax. unfold on_field. cbn [dpos dout fmap option_fmap option_map].
  by rewrite Ho.
Qed.

Lemma sees_on_field_null f bs ok upd (prj : T → A) set :
  Decodes f bs ok upd → sees (λ buf, on_field prj set (f buf)) bs 0 (zlen bs) None None.
Proof.
  intros [_ Hn] pre post Hmax. unfold on_field. cbn [dpos dout fmap option_fmap option_map]. by rewrite Hn.
Qed.

Lemma sees_on_null f bs ok upd (o : option T) :
  Decodes f bs ok upd → sees (λ buf, on_null A (f buf)) bs 0 (zlen bs) o o.
Proof. intros [_ Hn] pre post Hmax. unfold on_null. cbn [dpos dout]. by rewrite Hn. Qed.

Lemma sees_with_local f bs v x (o : option T) :
  DecodesTo f bs v → sees (λ buf, with_local x (f buf)) bs (0, v) (zlen bs) o o.
Proof. intros [Ho _] pre post Hmax. unfold with_local. cbn [dpos]. by rewrite Ho. Qed.

Lemma sees_check0 (m : list Z → M (dstate T) Z) bs k o o' :
  sees m bs 0 k o o' → sees (λ buf, check0 (m buf)) bs tt k o o'.
Proof. intros H pre post Hmax. unfold check0. by erewrite M_bind_Go; [|by apply H]. Qed.

Lemma sees_check_neg (m : list Z → M (dstate T) Z) bs k o o' :
  sees m bs 0 k o o' → sees (λ buf, check_neg (m buf)) bs tt k o o'.
Proof. intros H pre post Hmax. unfold check_neg. by erewrite M_bind_Go; [|by apply H]. Qed.

Lemma sees_rebased {B} (m : list Z → M (dstate T) B) bs b k o o' :
  sees m bs b k o o' → sees (rebased m) bs b k o o'.
Proof.
  intros H pre post Hmax. unfold rebased. cbn [dpos dout]. rewrite Nat2Z.id, drop_app_length.
  specialize (H [] post ltac:(cbn [length]; lia)). change (m (bs ++ post) (DState 0 o) = Some (Go b, DState (0 + k) o')) in H.
  rewrite H. cbn [dpos dout]. state_eq.
Qed.

Lemma sees_c_call (m : list Z → M (dstate T) Z) bs c k o o' :
  sees m bs c k o o' → sees (λ buf, c_call (m buf)) bs c k o o'.
Proof. intros H pre post Hmax. unfold c_call. by rewrite H. Qed.

(** A loop whose iterations consume the elements of a list. *)
Lemma sees_for_upto {X} (xs : list X) (g : X → list Z) (body : list Z → Z → M (dstate T) unit) i (o : option T) :
  (∀ x j, x ∈ xs → sees (λ buf, body buf j) (g x) tt (zlen (g x)) o o) →
  sees (λ buf, for_upto (length xs) i (body buf)) (concat (map g xs)) tt (zlen (concat (map g xs))) o o.
Proof.
  revert i. induction xs as [|x xs IH]; intros i Hb; [apply sees_ret|].
  cbn [length for_upto map concat]. rewrite length_app, Nat2Z.inj_add.
  apply (sees_bind (λ buf, body buf i) (λ buf _, for_upto (length xs) (i + 1) (body buf)) _ _ tt _ _ _ o).
  - apply Hb. left.
  - apply IH. intros. apply Hb. by right.
Qed.

End SeesCalls.

(** * Trace tokens *)
Section Trace.
Context {cfg : EiConfig}.

Definition trace_received (p o : erlang_trace) : erlang_trace :=
  Trace (tr_serial p) (tr_prev p) (pid_received (tr_from p) (tr_from o)) (tr_label p) (tr_flags p).

Lemma decodes_trace p pre post o :
  zlen (name_of (pid_node (tr_from p))) < 65536 →
  is_long (tr_flags p) → is_long (tr_label p) → is_long (tr_serial p) → is_long (tr_prev p) →
  (length (name_of (pid_node (tr_from p))) < length (pid_node (tr_from o)))%nat →
  zlen pre + zlen (trace_bytes p) ≤ INT_MAX →
  ei_decode_trace (pre ++ trace_bytes p ++ post) (DState (zlen pre) (Some o)) =
  Some (Go 0, DState (zlen pre + zlen (trace_bytes p)) (Some (trace_received p o))).
Proof.
  intros Hn H1 H2 H3 H4 Ho Hmax. eapply (sees_body ei_decode_trace_body); [|reflexivity|exact Hmax].
  unfold trace_bytes, ei_decode_trace_body. rewrite !(length_app _ (_ ++ _)), (length_app (pid_bytes _)), !Nat2Z.inj_add.
  eapply (sees_bind (λ buf, with_local 0 (ei_decode_tuple_header buf))).
  { apply sees_with_local, decodes_tuple_header. unfold INT_MAX. lia. }
  cbv beta iota. eval_tags. apply sees_ret_bind. eapply sees_stay; [apply sees_has_out|]. cbv beta iota. cbn [negb].
  do 3 (eapply sees_bind; [eapply sees_check0, sees_on_field; [by apply decodes_long|done]|]).
  eapply sees_bind; [eapply sees_check0, sees_on_field; [by apply decodes_pid|done]|].
  eapply sees_check0.
  eapply (sees_on_field ei_decode_long _ (λ _, True) (λ _, tr_prev p) tr_prev tr_set_prev (Trace _ _ _ _ _));
    [by apply decodes_long|done].
Qed.

End Trace.

(** * Terms *)
Section Terms.
Context {cfg : EiConfig} {cf : CFloat} {ca : CAlloc}.

#[warnings="-register-all"]
Inductive term : Type :=
| T_long (p : Z)
| T_float (d : double)
| T_atom (s : list Z)
| T_binary (s : list Z)
| T_string (s : list Z)
| T_pid (p : erlang_pid)
| T_port (p : erlang_port)
| T_ref (p : erlang_ref)
| T_big (b : erlang_big)
| T_fun (p : erlang_fun) (fvs : list term)   (* the terms in free_vars *)
| T_nil
| T_list (ts : list term) (tl : term)
| T_tuple (ts : list term)
| T_ulong (p : Z)
| T_longlong (p : Z)
| T_ulonglong (p : Z)
| T_char (p : Z)
| T_boolean (p : Z).

(** The induction hypothesis holds for the elements of lists, tuples and closures. *)
Lemma term_nested_ind (P : term → Prop) :
  (∀ p, P (T_long p)) → (∀ d, P (T_float d)) → (∀ s, P (T_atom s)) → (∀ s, P (T_binary s)) →
  (∀ s, P (T_string s)) → (∀ p, P (T_pid p)) → (∀ p, P (T_port p)) → (∀ p, P (T_ref p)) → (∀ b, P (T_big b)) →
  (∀ p fvs, Forall P fvs → P (T_fun p fvs)) → P T_nil →
  (∀ ts tl, Forall P ts → P tl → P (T_list ts tl)) → (∀ ts, Forall P ts → P (T_tuple ts)) →
  (∀ p, P (T_ulong p)) → (∀ p, P (T_longlong p)) → (∀ p, P (T_ulonglong p)) → (∀ p, P (T_char p)) → (∀ p, P (T_boolean p)) → ∀ t, P t.
Proof.
  intros H1 H2 H3 H4 H5 H6 H7 H8 H9 H10 H11 H12 H13 H14 H15 H16 H17 H18.
  fix IH 1. intros [p|d|s|s|s|p|p|p|b|p fvs| |ts tl|ts|p|p|p|p|p].
  - apply H1.
  - apply H2.
  - apply H3.
  - apply H4.
  - apply H5.
  - apply H6.
  - apply H7.
  - apply H8.
  - apply H9.
  - apply H10. induction fvs as [|t fvs IHf]; constructor; [apply IH|exact IHf].
  - apply H11.
  - apply H12; [|apply IH]. induction ts as [|t ts IHt]; constructor; [apply IH|exact IHt].
  - apply H13. induction ts as [|t ts IHt]; constructor; [apply IH|exact IHt].
  - apply H14.
  - apply H15.
  - apply H16.
  - apply H17.
  - apply H18.
Qed.

(** The calls that build a term. *)
Fixpoint encode_term (t : term) : encoder :=
  match t with
  | T_long p => ei_encode_long p
  | T_float d => ei_encode_double d
  | T_atom s => ei_encode_atom_len s (zlen s)
  | T_binary s => ei_encode_binary s (zlen s)
  | T_string s => ei_encode_string_len s (zlen s)
  | T_pid p => ei_encode_pid p
  | T_port p => ei_encode_port p
  | T_ref p => ei_encode_ref p
  | T_big b => ei_encode_big b
  | T_fun p _ => ei_encode_fun p
  | T_nil => ei_encode_empty_list
  | T_list ts tl =>
      ei_encode_list_header (zlen ts) ;; foldr (λ t k, encode_term t ;; k) (encode_term tl) ts
  | T_tuple ts =>
      ei_encode_tuple_header (zlen ts) ;; foldr (λ t k, encode_term t ;; k) (mret 0) ts
  | T_ulong p => ei_encode_ulong p
  | T_longlong p => ei_encode_longlong p
  | T_ulonglong p => ei_encode_ulonglong p
  | T_char p => ei_encode_char p
  | T_boolean p => ei_encode_boolean p
  end.

Definition ulong_bytes (p : Z) : list Z := if ei_64bit then ulonglong_bytes p else ulong_32_bytes p.
Lemma emits_ulong p : 0 ≤ p < 2 ^ long_bits → Emits (ei_encode_ulong p) (ulong_bytes p).
Proof. unfold ei_encode_ulong, ulong_bytes, long_bits. destruct ei_64bit; [apply emits_ulonglong|apply emits_ulong_32]. Qed.


Fixpoint term_bytes (t : term) : list Z :=
  match t with
  | T_long p => long_bytes p
  | T_float d => ERL_FLOAT_EXT :: float_text (sprintf_20e d)
  | T_atom s => atom_bytes s
  | T_binary s => binary_bytes s
  | T_string s => string_bytes s
  | T_pid p => pid_bytes p
  | T_port p => port_bytes p
  | T_ref p => ref_bytes p
  | T_big b => big_bytes b
  | T_fun p _ => fun_bytes p
  | T_nil => [ERL_NIL_EXT]
  | T_list ts tl => list_header_bytes (zlen ts) ++ concat (map term_bytes ts) ++ term_bytes tl
  | T_tuple ts => tuple_header_bytes (zlen ts) ++ concat (map term_bytes ts)
  | T_ulong p => ulong_bytes p
  | T_longlong p => longlong_bytes p
  | T_ulonglong p => ulonglong_bytes p
  | T_char p => small_int_bytes (Z.land p 255)
  | T_boolean p => atom_bytes (if p =? 0 then str_false else str_true)
  end.

(** A name array with a NUL, short enough for its 16-bit length field. *)
Definition name_ok (block : list Z) : Prop := ∃ n, strlen block = Some n ∧ n < 65536.

(** The C values are in the range of their types and the structures well formed.  The [free_vars] block of a closure holds its
    free variables; [fp] says which closures are allowed. *)
Fixpoint term_wf (fp : erlang_fun → Prop) (t : term) : Prop :=
  match t with
  | T_long p => is_long p
  | T_float _ | T_nil => True
  | T_atom s => zlen s ≤ MAXATOMLEN
  | T_binary s => zlen s ≤ INT_MAX
  | T_string s => Forall is_byte s ∧ zlen s ≤ INT_MAX
  | T_pid p => name_ok (pid_node p)
  | T_port p => name_ok (port_node p)
  | T_ref p => name_ok (ref_node p) ∧ 0 ≤ ref_len p ≤ 3 ∧ ref_len p ≤ zlen (ref_n p)
  | T_big b => big_ok b
  | T_fun p fvs =>
      fun_ok p ∧ name_ok (pid_node (fun_pid p)) ∧ fp p ∧
      fun_n_free_vars p = zlen fvs ∧ zlen fvs ≤ INT_MAX ∧
      fun_free_vars p = concat (map term_bytes fvs) ∧ fun_free_var_len p = zlen (fun_free_vars p) ∧
      foldr (λ t P, term_wf fp t ∧ P) True fvs
  | T_list ts tl =>
      ts ≠ [] ∧ zlen ts ≤ INT_MAX ∧ foldr (λ t P, term_wf fp t ∧ P) True ts ∧ term_wf fp tl
  | T_tuple ts => zlen ts ≤ INT_MAX ∧ foldr (λ t P, term_wf fp t ∧ P) True ts
  | T_ulong p => 0 ≤ p < 2 ^ long_bits
  | T_longlong p => - 2 ^ 63 ≤ p < 2 ^ 63
  | T_ulonglong p => 0 ≤ p < 2 ^ 64
  | T_char _ | T_boolean _ => True
  end.

(** Terms that can be encoded, with closures of either form, and those whose closures are all of the old one ([arity] is -1). *)
Definition encodable : term → Prop := term_wf (λ _, True).
Definition old_fun (p : erlang_fun) : Prop := fun_arity p = -1.
Definition term_ok : term → Prop := term_wf old_fun.

(** Nesting depth: the recursion depth of [ei_skip_term]. *)
Fixpoint depth (t : term) : nat :=
  match t with
  | T_string _ => 2
  | T_fun _ fvs => S (foldr (λ t n, depth t `max` n)%nat 1%nat fvs)
  | T_list ts tl => S (foldr (λ t n, depth t `max` n)%nat (depth tl) ts)
  | T_tuple ts => S (foldr (λ t n, depth t `max` n)%nat 1%nat ts)
  | _ => 1
  end.

Lemma foldr_and_Forall {X} (P : X → Prop) xs : foldr (λ x Q, P x ∧ Q) True xs ↔ Forall P xs.
Proof.
  induction xs as [|x xs IH]; cbn; [by split|]. split.
  - intros [H1 H2]. constructor; [done|by apply IH].
  - intros H. inversion H; subst. split; [done|by apply IH].
Qed.

Lemma foldr_max_le {X} (f : X → nat) xs d n :
  (foldr (λ x m, f x `max` m) d xs ≤ n)%nat → (d ≤ n)%nat ∧ Forall (λ x, f x ≤ n)%nat xs.
Proof.
  induction xs as [|x xs IH]; cbn; intros H; [split; [done|constructor]|].
  destruct IH as [H1 H2]; [lia|]. split; [done|]. constructor; [lia|done].
Qed.

Lemma emits_list_bytes (f : term → encoder) (g : term → list Z) k bk ts :
  Forall (λ t, Emits (f t) (g t)) ts → Emits k bk →
  Emits (foldr (λ t k, f t ;; k) k ts) (concat (map g ts) ++ bk).
Proof.
  intros Hts Hk. induction Hts as [|t ts Ht Hts IH]; [done|]. cbn [foldr map concat]. rewrite <- app_assoc.
  by apply emits_seq.
Qed.

Lemma emits_term `{!CFloatLaws} fp t : term_wf fp t → Emits (encode_term t) (term_bytes t).
Proof.
  induction t as [p|d|s|s|s|p|p|p|b|p fvs _| |ts tl IH IHtl|ts IH|p|p|p|p|p] using term_nested_ind; cbn [term_wf encode_term term_bytes].
  - apply emits_long.
  - intros _. apply emits_double, sprintf_fits.
  - intros Hs. pose proof (emits_atom_len s (zlen s) ltac:(lia) ltac:(lia)) as He. by rewrite take_ge in He by lia.
  - intros Hs. pose proof (emits_binary s (zlen s) ltac:(lia)) as He. by rewrite take_ge in He by lia.
  - intros [Hb Hs]. pose proof (emits_string_len s (zlen s) Hb ltac:(lia)) as He. by rewrite take_ge in He by lia.
  - intros (n & Hn & _). by eapply emits_pid.
  - intros (n & Hn & _). by eapply emits_port.
  - intros ((n & Hn & _) & Hl & Hl'). eapply emits_ref; [done|lia].
  - intros (Ha & Hn & _). apply emits_big; lia.
  - intros (Hok & _). by apply emits_fun.
  - intros _. by apply (emits_list_header 0).
  - intros (_ & _ & Hts%foldr_and_Forall & Htl). apply emits_seq; [apply emits_list_header; lia|].
    apply emits_list_bytes; [|auto]. rewrite Forall_forall in *. auto.
  - intros (_ & Hts%foldr_and_Forall). apply emits_seq; [apply emits_tuple_header; lia|].
    rewrite <- (app_nil_r (concat _)). apply emits_list_bytes; [|apply emits_ret]. rewrite Forall_forall in *. auto.
  - apply emits_ulong.
  - apply emits_longlong.
  - apply emits_ulonglong.
  - intros _. apply emits_char.
  - intros _. apply emits_boolean.
Qed.

(** * Skipping a term *)

(** [ei_get_type_internal] sees tag [t] at the start of [bs]. *)
Definition typed (bs : list Z) (t : Z) : Prop :=
  ∃ n, ∀ T (o : option T), sees ei_get_type_internal bs (t, n) 0 o o.

Lemma typed_intro bs t n k : (∀ T (o : option T), sees get_type_body bs (t, n) k o o) → typed bs t.
Proof.
  intros H. exists n. intros T o pre post Hmax. unfold ei_get_type_internal. rewrite H by done. state_eq.
Qed.

Lemma typed_8 t x r : t = ERL_SMALL_TUPLE_EXT ∨ t = ERL_SMALL_BIG_EXT → is_byte x → typed (t :: x :: r) t.
Proof. intros Ht Hx. apply (typed_intro _ _ x (1 + (1 + 0))). intros T o. unfold get_type_body.
  destruct Ht as [-> | ->]; repeat sees_step. Qed.

Lemma typed_16 t x r : t = ERL_ATOM_EXT ∨ t = ERL_STRING_EXT → typed (t :: be16 x ++ r) t.
Proof. intros Ht. apply (typed_intro _ _ (wrap_u 16 x) (1 + (2 + 0))). intros T o. unfold get_type_body.
  destruct Ht as [-> | ->]; repeat sees_step. Qed.

Lemma typed_32 t x r : t = ERL_LARGE_TUPLE_EXT ∨ t = ERL_LIST_EXT ∨ t = ERL_BINARY_EXT ∨ t = ERL_LARGE_BIG_EXT →
  typed (t :: be32 x ++ r) t.
Proof.
  intros Ht. apply (typed_intro _ _ (int32 x) (1 + (4 + 0))). intros T o. unfold get_type_body.
  destruct Ht as [-> | [-> | [-> | ->]]]; repeat sees_step.
Qed.

(** Tags without a length field. *)
Definition no_length (t : Z) : bool :=
  (t =? ERL_SMALL_INTEGER_EXT) || (t =? ERL_INTEGER_EXT) || (t =? ERL_FLOAT_EXT) || (t =? ERL_PID_EXT) ||
  (t =? ERL_PORT_EXT) || (t =? ERL_NEW_REFERENCE_EXT) || (t =? ERL_FUN_EXT) || (t =? ERL_NIL_EXT).

Lemma typed_0 t r : no_length t = true → typed (t :: r) t.
Proof.
  intros Ht. apply (typed_intro _ _ 0 (1 + 0)). intros T o. unfold get_type_body. unfold no_length in Ht.
  repeat (apply orb_true_iff in Ht as [Ht|Ht]); apply Z.eqb_eq in Ht as ->; repeat sees_step.
Qed.

Lemma typed_app bs1 bs2 t : typed bs1 t → typed (bs1 ++ bs2) t.
Proof.
  intros (n & H). exists n. intros T o pre post Hmax. rewrite <- app_assoc. apply H. len_lia.
Qed.


(** What [ei_get_type_internal] makes of the terms: a tag, which is [ERL_NIL_EXT] for
    the empty list only. *)
Lemma sees_type {A T} bs t (f : list Z → Z * Z → M (dstate T) A) c k o o' :
  typed bs t → (∀ n, sees (λ buf, f buf (t, n)) bs c k o o') →
  sees (λ buf, ei_get_type_internal buf ≫= f buf) bs c k o o'.
Proof. intros (n & Hn) H. eapply sees_stay; [apply Hn|apply H]. Qed.

Lemma ei_skip_term_S fuel buf :
  ei_skip_term (S fuel) buf =
  c_call ('(ty, n) ← ei_get_type_internal buf; ei_skip_switch (ei_skip_term fuel) ty n buf ;; mret 0).
Proof. reflexivity. Qed.

Lemma skip_typed fuel bs t o :
  typed bs t → (∀ n, sees (ei_skip_switch (ei_skip_term fuel) t n) bs tt (zlen bs) o o) →
  sees (ei_skip_term (S fuel)) bs 0 (zlen bs) o o.
Proof.
  intros Ht H pre post Hmax. rewrite ei_skip_term_S. revert pre post Hmax.
  apply (sees_c_call (λ buf, '(ty, n) ← ei_get_type_internal buf; ei_skip_switch (ei_skip_term fuel) ty n buf ;; mret 0)).
  generalize dependent (ei_skip_term fuel). intros skip H.
  eapply (sees_type _ _ (λ buf '(ty, n), ei_skip_switch skip ty n buf ;; mret 0)); [exact Ht|].
  intros n. cbv beta iota. eapply (sees_last (ei_skip_switch _ t n) (λ _ _, mret 0)); [apply H|reflexivity|apply sees_ret].
Qed.

(** Tags whose case is one call of a decoder with NULL. *)
Lemma skip_leaf {T} (f : list Z → M (dstate T) Z) fuel bs t o :
  typed bs t → (∀ n buf, ei_skip_switch (ei_skip_term fuel) t n buf = check_neg (on_null T (f buf))) →
  sees f bs 0 (zlen bs) None None → sees (ei_skip_term (S fuel)) bs 0 (zlen bs) o o.
Proof.
  intros Ht Hs Hd. eapply skip_typed; [done|]. intros n pre post Hmax. rewrite Hs.
  apply (sees_check_neg (λ buf, on_null T (f buf))); [|done].
  intros pre' post' Hmax'. unfold on_null. cbn [dpos dout]. by rewrite Hd.
Qed.

Lemma sees_null {T} (f : list Z → M (dstate T) Z) bs ok upd : Decodes f bs ok upd → sees f bs 0 (zlen bs) None None.
Proof. by intros [_ Hn] pre post Hmax; apply Hn. Qed.

Lemma sees_decode_body {T} (m : list Z → M (dstate T) unit) bs k o o' :
  sees m bs tt k o o' → k = zlen bs → sees (λ buf, decode_body (m buf)) bs 0 (zlen bs) o o'.
Proof. intros H Hk pre post Hmax. by eapply sees_body. Qed.

Lemma sees_small_big_null ds neg : is_byte (zlen ds) →
  sees ei_decode_big (ERL_SMALL_BIG_EXT :: zlen ds :: neg :: ds) 0 (zlen (ERL_SMALL_BIG_EXT :: zlen ds :: neg :: ds)) None None.
Proof.
  intros Hb. eapply sees_decode_body.
  - repeat sees_step. eapply (sees_skip_bind 1 (λ _ _, skip (zlen ds)) [neg]); [done|]. apply sees_skip.
  - len_lia.
Qed.

Lemma digits256_zlen up : is_byte (zlen (digits256 8 up)).
Proof. pose proof (length_digits256 8 up). unfold is_byte. lia. Qed.

(** The three forms of an encoded integer. *)
Definition int_form (bs : list Z) : Prop :=
  (∃ p, is_byte p ∧ bs = small_int_bytes p) ∨ (∃ p, ERL_MIN ≤ p ≤ ERL_MAX ∧ bs = int_bytes p) ∨
  ∃ ds neg, is_byte (zlen ds) ∧ bs = ERL_SMALL_BIG_EXT :: zlen ds :: neg :: ds.

Lemma int_form_32 neg n : int_form (ERL_SMALL_BIG_EXT :: 4 :: neg :: le32 n).
Proof. right; right. exists (le32 n), neg. by split; [vm_compute|]. Qed.
Lemma int_form_big neg up : int_form (small_big_bytes neg up).
Proof. right; right. exists (digits256 8 up), neg. split; [apply digits256_zlen|done]. Qed.
Lemma int_form_small p : (p <? 256) && (p >=? 0) = true → int_form (small_int_bytes p).
Proof. intros H. left. exists p. split; [unfold is_byte; lia|done]. Qed.
Lemma int_form_int p : ERL_MIN ≤ p ≤ ERL_MAX → int_form (int_bytes p).
Proof. intros H. right; left. by exists p. Qed.

Lemma longlong_form p : int_form (longlong_bytes p).
Proof. unfold longlong_bytes. repeat case_match; [by apply int_form_small|apply int_form_int; lia|apply int_form_big]. Qed.
Lemma long_form p : int_form (long_bytes p).
Proof.
  unfold long_bytes, long_32_bytes. case_match; [apply longlong_form|]. repeat case_match; [by apply int_form_small|apply int_form_int; lia|apply int_form_32].
Qed.
Lemma ulonglong_form p : 0 ≤ p → int_form (ulonglong_bytes p).
Proof. intros Hp. unfold ulonglong_bytes. repeat case_match; [by apply int_form_small|apply int_form_int; unfold ERL_MIN, ERL_MAX in *; lia|apply int_form_big]. Qed.
Lemma ulong_form p : 0 ≤ p → int_form (ulong_bytes p).
Proof.
  intros Hp. unfold ulong_bytes, ulong_32_bytes. case_match; [by apply ulonglong_form|].
  repeat case_match; [apply int_form_32|by apply int_form_small|apply int_form_int; unfold ERL_MIN, ERL_MAX in *; lia].
Qed.

Lemma small_long p : is_byte p → is_long p ∧ long_bytes p = small_int_bytes p.
Proof.
  unfold is_byte, is_long, long_bits, long_bytes, longlong_bytes, long_32_bytes. intros Hp.
  replace ((p <? 256) && (p >=? 0)) with true by lia. destruct ei_64bit; split; (done || lia).
Qed.

Lemma typed_int bs : int_form bs → ∃ t, typed bs t ∧ t ≠ ERL_NIL_EXT.
Proof.
  intros [(p & _ & ->)|[(p & _ & ->)|(ds & neg & Hds & ->)]]; eexists; (split; [|]); [by apply typed_0|done|by apply typed_0|done|by apply typed_8; auto|done].
Qed.

Lemma skip_int fuel bs o : int_form bs → sees (ei_skip_term (S fuel)) bs 0 (zlen bs) o o.
Proof.
  intros [(p & Hp & ->)|[(p & Hp & ->)|(ds & neg & Hds & ->)]].
  - destruct (small_long p Hp) as [Hl <-]. pose proof (sees_null _ _ _ _ (decodes_long p Hl)) as Hd. destruct (small_long p Hp) as [_ E]. rewrite E in *.
    eapply (skip_leaf ei_decode_long); [by apply typed_0|reflexivity|exact Hd].
  - eapply (skip_leaf ei_decode_long); [by apply typed_0|reflexivity|].
    assert (DecodesTo ei_decode_long (int_bytes p) p) as Hd by (unfold ei_decode_long; destruct ei_64bit; apply decodes_signed_int, small_range; lia).
    by eapply sees_null.
  - eapply (skip_leaf ei_decode_big); [apply typed_8; auto|reflexivity|by apply sees_small_big_null].
Qed.

Lemma skip_big fuel b o : big_ok b → sees (ei_skip_term (S fuel)) (big_bytes b) 0 (zlen (big_bytes b)) o o.
Proof.
  intros Hb. pose proof (sees_null _ _ _ _ (decodes_big b Hb)) as Hd. destruct Hb as (Ha & _). unfold big_bytes in *.
  destruct (Z.ltb_spec (big_arity b) 256).
  - eapply (skip_leaf ei_decode_big); [apply typed_8; [auto|unfold is_byte; lia]|reflexivity|exact Hd].
  - eapply (skip_leaf ei_decode_big); [apply typed_32; auto|reflexivity|exact Hd].
Qed.


(** The element loops. *)
Lemma skip_elems {T X} (m : list Z → M (dstate T) Z) (g : X → list Z) xs n o :
  n = zlen xs → Forall (λ x, sees m (g x) 0 (zlen (g x)) o o) xs →
  sees (λ buf, for_range n (λ _, m buf ;; mret tt)) (concat (map g xs)) tt (zlen (concat (map g xs))) o o.
Proof.
  intros -> Hxs. unfold for_range. rewrite Nat2Z.id.
  apply (sees_for_upto xs g (λ buf _, m buf ;; mret tt)). intros x _ Hx. rewrite Forall_forall in Hxs.
  eapply (sees_last m (λ _ _, mret tt)); [by apply Hxs, list_elem_of_In|done|apply sees_ret].
Qed.

Lemma skip_nil fuel o : sees (ei_skip_term (S fuel)) [ERL_NIL_EXT] 0 1 o o.
Proof.
  apply (skip_typed fuel [ERL_NIL_EXT] ERL_NIL_EXT); [by apply typed_0|]. intros n. unfold ei_skip_switch. eval_tags.
  eapply (sees_last (λ buf, with_local n (ei_decode_list_header buf)) (λ _ '(r, _), ret_if (r <? 0) (-1)));
    [eapply sees_with_local, (decodes_list_header 0); done|done|apply sees_ret].
Qed.

(** The end of a list: an empty tail is consumed by its header, another one by a recursive call. *)
Definition tail_ok (fuel : nat) (bs : list Z) (o : option unit) : Prop :=
  ∃ t, typed bs t ∧ (t = ERL_NIL_EXT → bs = [ERL_NIL_EXT]) ∧ sees (ei_skip_term fuel) bs 0 (zlen bs) o o.

Lemma skip_list {X} fuel (g : X → list Z) xs tl o :
  xs ≠ [] → zlen xs ≤ INT_MAX → Forall (λ x, sees (ei_skip_term fuel) (g x) 0 (zlen (g x)) o o) xs →
  tail_ok fuel tl o →
  let bs := ERL_LIST_EXT :: be32 (zlen xs) ++ concat (map g xs) ++ tl in
  sees (ei_skip_term (S fuel)) bs 0 (zlen bs) o o.
Proof.
  intros Hne Hmax Hxs (t & Ht & Hnil & Htl) bs. eapply skip_typed; [apply typed_32; auto|].
  intros n0. unfold ei_skip_switch. eval_tags.
  pose proof (decodes_list_header (zlen xs) ltac:(lia)) as Hd.
  assert (list_header_bytes (zlen xs) = ERL_LIST_EXT :: be32 (zlen xs)) as Hh.
  { unfold list_header_bytes. destruct (Z.eqb_spec (zlen xs) 0) as [E|]; [destruct xs; [done|discriminate E]|done]. }
  rewrite Hh in Hd. unfold bs. rewrite app_comm_cons, !length_app, !Nat2Z.inj_add.
  eapply (sees_bind (λ buf, with_local n0 (ei_decode_list_header buf))); [by apply sees_with_local|].
  cbv beta iota. eval_tags. apply sees_ret_bind.
  eapply (sees_bind (λ buf, for_range (zlen xs) (λ _, ei_skip_term fuel buf ;; mret tt)));
    [by apply skip_elems|].
  cbv beta. generalize dependent (ei_skip_term fuel). intros skip _ Htl.
  eapply (sees_type _ _ (λ buf '(ty, n), if negb (ty =? ERL_NIL_EXT) then skip buf ;; mret tt
    else '(r, _) ← with_local n (ei_decode_list_header buf); ret_if (r <? 0) (-1))); [exact Ht|].
  intros n. cbv beta iota. destruct (Z.eqb_spec t ERL_NIL_EXT) as [E|E]; cbn [negb].
  - rewrite (Hnil E).
    eapply (sees_last (λ buf, with_local n (ei_decode_list_header buf)) (λ _ '(r, _), ret_if (r <? 0) (-1)));
      [eapply sees_with_local, (decodes_list_header 0); done|done|apply sees_ret].
  - eapply (sees_last skip (λ _ _, mret tt)); [exact Htl|done|apply sees_ret].
Qed.

Lemma skip_tuple {X} fuel (g : X → list Z) xs o :
  zlen xs ≤ INT_MAX → Forall (λ x, sees (ei_skip_term fuel) (g x) 0 (zlen (g x)) o o) xs →
  let bs := tuple_header_bytes (zlen xs) ++ concat (map g xs) in
  sees (ei_skip_term (S fuel)) bs 0 (zlen bs) o o.
Proof.
  intros Hmax Hxs bs.
  assert (∃ t, typed bs t ∧ (t = ERL_SMALL_TUPLE_EXT ∨ t = ERL_LARGE_TUPLE_EXT)) as (t & Ht & Htag).
  { unfold bs, tuple_header_bytes. destruct (Z.leb_spec (zlen xs) 255).
    - eexists. split; [apply typed_8; [auto|unfold is_byte; lia]|auto].
    - eexists. split; [apply typed_32; auto|auto]. }
  eapply skip_typed; [exact Ht|]. intros n0. generalize dependent (ei_skip_term fuel). intros skip Hxs.
  assert (ei_skip_switch skip t n0 = λ buf, '(r, n) ← with_local n0 (ei_decode_tuple_header buf);
    ret_if (r <? 0) (-1) ;; for_range n (λ _, skip buf ;; mret tt)) as ->.
  { by destruct Htag as [-> | ->]. }
  unfold bs. rewrite length_app, Nat2Z.inj_add.
  eapply (sees_bind (λ buf, with_local n0 (ei_decode_tuple_header buf)));
    [apply sees_with_local, decodes_tuple_header; lia|].
  cbv beta iota. eval_tags. apply sees_ret_bind. by apply skip_elems.
Qed.


(** ** Closures *)

(** A fun [o] after an old-style fun [p] has been decoded into it. *)
Definition fun_received (p o : erlang_fun) : erlang_fun :=
  Fun (-1) (put_name (take (Z.to_nat MAXATOMLEN) (name_of (fun_module p))) (fun_module o)) (fun_md5 o) (fun_index p)
    (fun_old_index o) (fun_uniq p) (fun_n_free_vars p) (pid_received (fun_pid p) (fun_pid o))
    (fun_free_var_len p) (fun_free_bytes p).

(** The result pointer of [ei_decode_fun] can take [p]: the names fit and [malloc] has the space. *)
Definition fun_room (p o : erlang_fun) : Prop :=
  (length (name_of (pid_node (fun_pid p))) < length (pid_node (fun_pid o)))%nat ∧
  (Z.to_nat MAXATOMLEN < length (fun_module o))%nat ∧ is_Some (c_malloc (fun_free_var_len p)).

Lemma sees_free_vars {X} (skip : list Z → M (dstate unit) Z) (g : X → list Z) xs (o o' : option erlang_fun) :
  Forall (λ x, sees skip (g x) 0 (zlen (g x)) None None) xs →
  match o with
  | None => o' = None
  | Some p => is_Some (c_malloc (zlen (concat (map g xs)))) ∧
      o' = Some (fun_set_free_vars (concat (map g xs))
        (fun_set_free_var_len (zlen (concat (map g xs))) (fun_set_n_free_vars (zlen xs) p)))
  end →
  sees (λ s, st ← get_st;
    let ix0 := dpos st in
    for_range (zlen xs) (λ _, check_neg (on_null unit (skip s))) ;;
    st' ← get_st;
    let ix := dpos st' in
    if_out
      (out_upd (fun_set_n_free_vars (zlen xs)) ;; out_upd (fun_set_free_var_len (ix - ix0)) ;;
       copy_free_vars s ix0 (ix - ix0))
      (mret tt)) (concat (map g xs)) tt (zlen (concat (map g xs))) o o'.
Proof.
  intros Hxs Ho pre post Hmax. erewrite M_bind_Go; [|reflexivity]. cbn [dpos].
  erewrite M_bind_Go.
  2:{ unfold for_range. rewrite Nat2Z.id.
      apply (sees_for_upto xs g (λ s _, check_neg (on_null unit (skip s)))); [|exact Hmax].
      intros x _ Hx pre' post' Hmax'. unfold check_neg, on_null. rewrite Forall_forall in Hxs.
      erewrite M_bind_Go; [|cbn [dpos dout]; by rewrite Hxs by (done || by apply list_elem_of_In)]. done. }
  cbv beta. erewrite M_bind_Go; [|reflexivity]. cbn [dpos]. destruct o as [p|]; [|by subst].
  destruct Ho as [[blk Hblk] ->].
  replace (zlen pre + zlen (concat (map g xs)) - zlen pre) with (zlen (concat (map g xs))) by lia.
  unfold if_out at 1. cbn [dout]. do 2 (erewrite M_bind_Go; [|reflexivity]). unfold copy_free_vars. rewrite Hblk.
  rewrite load_bytes_app. apply c_malloc_length in Hblk; [|lia]. rewrite Nat2Z.id in Hblk.
  pose proof (store_bytes_app [] blk [] (concat (map g xs)) Hblk) as Hst. cbn [app length] in Hst.
  rewrite !app_nil_r in Hst. cbn [mbind option_bind]. change (Z.of_nat 0) with 0 in Hst. by rewrite Hst.
Qed.

Lemma sees_fun {X} (skip : list Z → M (dstate unit) Z) (g : X → list Z) xs p (o o' : option erlang_fun) :
  fun_ok p → zlen (name_of (pid_node (fun_pid p))) < 65536 →
  fun_n_free_vars p = zlen xs → zlen xs ≤ INT_MAX → fun_free_vars p = concat (map g xs) →
  fun_free_var_len p = zlen (fun_free_vars p) →
  Forall (λ x, sees skip (g x) 0 (zlen (g x)) None None) xs →
  match o with None => o' = None | Some q => fun_room p q ∧ o' = Some (fun_received p q) end →
  sees (ei_decode_fun_with skip) (fun_ext_bytes p) 0 (zlen (fun_ext_bytes p)) o o'.
Proof.
  intros Hok Hpn Hn Hmax Hfv Hfl Hxs Ho. destruct Hok as [_ _ _ Hi _ Hu _].
  set (nm := take (Z.to_nat MAXATOMLEN) (name_of (fun_module p))).
  assert (length nm ≤ Z.to_nat MAXATOMLEN)%nat as Hnm by (unfold nm; rewrite length_take; lia).
  assert (zlen nm < 65536) as Hnm' by (unfold MAXATOMLEN in Hnm; lia).
  assert (fun_free_bytes p = concat (map g xs)) as Hfb.
  { unfold fun_free_bytes. rewrite Hfl, Hfv, Nat2Z.id. by apply take_ge. }
  eapply sees_decode_body.
  - apply sees_get_st_bind. intros pos. unfold fun_ext_bytes. rewrite <- app_comm_cons. sees_step.
    unfold ei_decode_fun_ext.
    eapply (sees_stay (λ _, out_upd (fun_set_arity (-1)))).
    { instantiate (1 := fun_set_arity (-1) <$> o). destruct o; [by apply sees_set_out|by apply sees_ret]. }
    eapply sees_get32be_bind. rewrite Hn, (int32_small (zlen xs)) by lia. apply sees_rebased. rewrite Hfb.
    assert (∀ A (f : list Z → M (dstate A) Z) bs ok upd prj set (q : option erlang_fun),
      Decodes f bs ok upd → match q with Some q => ok (prj q) | None => True end →
      sees (λ buf, check_neg (on_field prj set (f buf))) bs tt (zlen bs) q ((λ q, set (upd (prj q)) q) <$> q)) as Hf.
    { intros A f bs ok upd prj set q Hd Hq. apply sees_check_neg.
      destruct q; [by eapply sees_on_field|by eapply sees_on_field_null]. }
    eapply sees_bind; [eapply Hf; [by apply decodes_pid|]|].
    { destruct o; [|done]. cbn. apply Ho. }
    eapply sees_bind; [eapply Hf; [by apply (decodes_atom nm)|]|].
    { destruct o; [|done]. cbn. destruct Ho as [(_ & Hm & _) _]. lia. }
    eapply sees_bind; [eapply Hf; [by apply decodes_long|by destruct o]|].
    eapply sees_bind; [eapply Hf; [by apply decodes_long|by destruct o]|].
    apply sees_free_vars; [done|]. destruct o as [q|]; cbn; [|done]. destruct Ho as [(_ & _ & Hc) ->].
    rewrite <- Hfv, <- Hfl. split; [done|]. unfold fun_received. rewrite Hn, Hfv, <- Hfb. reflexivity.
  - unfold fun_ext_bytes, fun_module_bytes, be32. rewrite Hfb. fold nm. len_lia.
Qed.


(** ** Every term *)

Lemma name_of_short block : name_ok block → zlen (name_of block) < 65536.
Proof. intros (n & Hn & Hl). destruct (name_of_strlen _ _ Hn) as [-> Hb]. rewrite length_take. lia. Qed.

Lemma string_bytes_cases s :
  (s = [] ∧ string_bytes s = [ERL_NIL_EXT]) ∨
  (s ≠ [] ∧ string_bytes s = ERL_STRING_EXT :: be16 (zlen s) ++ s) ∨
  (s ≠ [] ∧ string_bytes s = ERL_LIST_EXT :: be32 (zlen s) ++ concat (map small_int_bytes s) ++ [ERL_NIL_EXT]).
Proof.
  unfold string_bytes. destruct s as [|x s]; [by left|right]. replace (zlen (x :: s) =? 0) with false by len_lia.
  destruct (zlen (x :: s) <=? 65535); [left|right]; done.
Qed.

Lemma term_typed t : term_wf old_fun t → ∃ tag, typed (term_bytes t) tag ∧ (tag = ERL_NIL_EXT → term_bytes t = [ERL_NIL_EXT]).
Proof.
  assert (∀ bs tag, typed bs tag → tag ≠ ERL_NIL_EXT → ∃ tag, typed bs tag ∧ (tag = ERL_NIL_EXT → bs = [ERL_NIL_EXT]))
    as Hne by (intros bs tag ??; exists tag; done).
  assert (∀ bs, int_form bs → ∃ tag, typed bs tag ∧ (tag = ERL_NIL_EXT → bs = [ERL_NIL_EXT])) as Hint
    by (intros bs (tag & ? & ?)%typed_int; by apply (Hne bs tag)).
  destruct t as [p|d|s|s|s|p|p|p|b|p fvs| |ts tl|ts|p|p|p|p|p]; cbn [term_wf term_bytes]; intros Hok.
  - apply Hint, long_form.
  - by eapply Hne; [apply typed_0|].
  - by eapply Hne; [apply typed_16; auto|].
  - by eapply Hne; [apply typed_32; auto|].
  - destruct (string_bytes_cases s) as [[_ ->]|[[_ ->]|[_ ->]]].
    + exists ERL_NIL_EXT. split; [by apply typed_0|done].
    + by eapply Hne; [apply typed_16; auto|].
    + by eapply Hne; [apply typed_32; auto|].
  - by eapply Hne; [apply typed_0|].
  - by eapply Hne; [apply typed_0|].
  - by eapply Hne; [apply typed_0|].
  - unfold big_bytes. destruct (Z.ltb_spec (big_arity b) 256).
    + eapply Hne; [apply typed_8; [auto|destruct Hok; unfold is_byte; lia]|done].
    + by eapply Hne; [apply typed_32; auto|].
  - destruct Hok as (_ & _ & Ha & _). unfold fun_bytes. rewrite Ha. eapply Hne; [by apply typed_0|done].
  - exists ERL_NIL_EXT. split; [by apply typed_0|done].
  - destruct Hok as (Hts & _). unfold list_header_bytes. destruct (Z.eqb_spec (zlen ts) 0); [by destruct ts|].
    by eapply Hne; [apply typed_32; auto|].
  - destruct Hok as (Hl & _). unfold tuple_header_bytes. destruct (Z.leb_spec (zlen ts) 255).
    + eapply Hne; [apply typed_8; [auto|unfold is_byte; lia]|done].
    + by eapply Hne; [apply typed_32; auto|].
  - apply Hint, ulong_form, Hok.
  - apply Hint, longlong_form.
  - apply Hint, ulonglong_form, Hok.
  - by eapply Hne; [apply typed_0|].
  - by eapply Hne; [apply typed_16; auto|].
Qed.

Lemma skip_string fuel s o : Forall is_byte s → zlen s ≤ INT_MAX →
  sees (ei_skip_term (S (S fuel))) (string_bytes s) 0 (zlen (string_bytes s)) o o.
Proof.
  intros Hs Hl. pose proof (sees_null _ _ _ _ (decodes_string s Hs Hl)) as Hd.
  destruct (string_bytes_cases s) as [[_ E]|[[_ E]|[Hne E]]]; rewrite E in *.
  - apply skip_nil.
  - eapply (skip_leaf ei_decode_string); [apply typed_16; auto|reflexivity|exact Hd].
  - apply skip_list; [done|done| |].
    + eapply Forall_impl; [|exact Hs]. intros p Hp. apply skip_int. left. by exists p.
    + exists ERL_NIL_EXT. split; [by apply typed_0|]. split; [done|apply skip_nil].
Qed.

Lemma skip_term_bytes `{!CFloatLaws} t fuel o : term_wf old_fun t → (depth t ≤ fuel)%nat →
  sees (ei_skip_term fuel) (term_bytes t) 0 (zlen (term_bytes t)) o o.
Proof.
  revert fuel o. induction t as [p|d|s|s|s|p|p|p|b|p fvs IH| |ts tl IH IHtl|ts IH|p|p|p|p|p] using term_nested_ind;
    cbn [term_wf term_bytes depth]; intros [|fuel] o Hok Hd; try lia.
  - apply skip_int, long_form.
  - eapply (skip_leaf ei_decode_double); [by apply typed_0|reflexivity|by eapply sees_null, decodes_double].
  - eapply (skip_leaf ei_decode_atom); [apply typed_16; auto|reflexivity|eapply sees_null, decodes_atom].
    unfold MAXATOMLEN in Hok. lia.
  - eapply (skip_leaf ei_decode_binary); [apply typed_32; auto|reflexivity|by eapply sees_null, decodes_binary].
  - destruct Hok as [Hb Hl], fuel as [|fuel]; [lia|]. by apply skip_string.
  - eapply (skip_leaf ei_decode_pid); [by apply typed_0|reflexivity|by eapply sees_null, decodes_pid, name_of_short].
  - eapply (skip_leaf ei_decode_port); [by apply typed_0|reflexivity|by eapply sees_null, decodes_port, name_of_short].
  - destruct Hok as (Hn & Hl & Hl').
    eapply (skip_leaf ei_decode_ref); [by apply typed_0|reflexivity|eapply sees_null, decodes_ref; auto using name_of_short].
  - by apply skip_big.
  - destruct Hok as (Hok & Hpn & Ha & Hn & Hmax & Hfv & Hfl & Hfvs%foldr_and_Forall).
    apply le_S_n, foldr_max_le in Hd as [_ Hd]. unfold fun_bytes. rewrite Ha.
    eapply (skip_leaf (ei_decode_fun_with (ei_skip_term fuel))); [by apply typed_0|reflexivity|].
    eapply (sees_fun _ term_bytes fvs); eauto using name_of_short. rewrite !Forall_forall in *. auto.
  - apply skip_nil.
  - destruct Hok as (Hne & Hmax & Hts%foldr_and_Forall & Htl). apply le_S_n, foldr_max_le in Hd as [Hdt Hd].
    assert (list_header_bytes (zlen ts) = ERL_LIST_EXT :: be32 (zlen ts)) as ->.
    { unfold list_header_bytes. destruct (Z.eqb_spec (zlen ts) 0); [by destruct ts|done]. }
    rewrite <- app_comm_cons. apply skip_list; [done|done| |].
    + rewrite !Forall_forall in *. auto.
    + destruct (term_typed tl Htl) as (tag & Ht & Hnil). exists tag. auto.
  - destruct Hok as (Hmax & Hts%foldr_and_Forall). apply le_S_n, foldr_max_le in Hd as [_ Hd].
    apply skip_tuple; [done|]. rewrite !Forall_forall in *. auto.
  - apply skip_int, ulong_form, Hok.
  - apply skip_int, longlong_form.
  - apply skip_int, ulonglong_form, Hok.
  - apply skip_int. left. exists (Z.land p 255). split; [rewrite land_255; by apply Z.mod_pos_bound|done].
  - eapply (skip_leaf ei_decode_atom); [apply typed_16; auto|reflexivity|eapply sees_null, decodes_atom]. by destruct (p =? 0).
Qed.

(** [ei_skip_term] does not know the tag of a fun of the new form. *)
Lemma skip_new_fun p fuel pre post (o : option unit) : fun_arity p ≠ -1 → zlen pre + zlen (fun_bytes p) ≤ INT_MAX →
  ei_skip_term (S fuel) (pre ++ fun_bytes p ++ post) (DState (zlen pre) o) = Some (Go (-1), DState (zlen pre) o).
Proof.
  intros Ha Hmax. rewrite ei_skip_term_S. unfold fun_bytes. rewrite (proj2 (Z.eqb_neq _ _) Ha). unfold new_fun_ext_bytes.
  assert (typed (ERL_NEW_FUN_EXT :: be32 (4 + zlen (new_fun_tail p)) ++ new_fun_tail p) ERL_NEW_FUN_EXT) as (n & Hn).
  { apply (typed_intro _ _ 0 (1 + 0)). intros T o'. unfold get_type_body. repeat sees_step. }
  unfold fun_bytes in Hmax. rewrite (proj2 (Z.eqb_neq _ _) Ha) in Hmax. specialize (Hn _ o pre post Hmax). unfold new_fun_ext_bytes in Hn.
  generalize dependent (ei_skip_term fuel). intros skip. unfold c_call. erewrite M_bind_Go; [|exact Hn].
  unfold ei_skip_switch. eval_tags. cbn. by rewrite Z.add_0_r.
Qed.


Lemma skip_fun_sees `{!CFloatLaws} p fvs fuel : term_ok (T_fun p fvs) → (depth (T_fun p fvs) ≤ fuel)%nat →
  ∀ o o' : option erlang_fun, match o with None => o' = None | Some q => fun_room p q ∧ o' = Some (fun_received p q) end →
  sees (ei_decode_fun fuel) (fun_bytes p) 0 (zlen (fun_bytes p)) o o'.
Proof.
  unfold term_ok. cbn [term_wf depth]. intros (Hok & Hpn & Ha & Hn & Hmax & Hfv & Hfl & Hfvs%foldr_and_Forall) Hd o o' Ho.
  assert (foldr (λ t n, depth t `max` n)%nat 1%nat fvs ≤ fuel)%nat as [_ Hd']%foldr_max_le by lia.
  unfold fun_bytes. rewrite Ha. eapply (sees_fun _ term_bytes fvs); eauto using name_of_short.
  rewrite !Forall_forall in *. auto using skip_term_bytes.
Qed.

End Terms.
