(* ===== verification/EiXBuff.v ===== *)
(** Growing encode buffers: [lib/erl_interface/src/misc/ei_x_encode.c].

    An [ei_x_buff] owns a heap block, its size and the write index.  Each [ei_x_encode_*] function
    makes a dry run of the encoder for the size, grows the block with [x_fix_buff], then encodes. *)

From Stdlib Require Import ZArith ZifyBool.
From stdpp Require Import base list numbers option.
From S2P Require Import Prelude EiTypes EiCursor EiEncode EiEncodeSpec EiDecodeSpec.
Local Open Scope Z_scope.

Record ei_x_buff := XBuff { x_buff : option (list Z); x_buffsz : Z; x_index : Z }.

(** [realloc(3)]: the new block keeps the contents up to the smaller of the two sizes, or NULL. *)
Class CRealloc := {
  c_realloc : option (list Z) → Z → option (list Z);
  c_realloc_length : ∀ p n b, 0 ≤ n → c_realloc p n = Some b → length b = Z.to_nat n;
  c_realloc_prefix : ∀ p n b, 0 ≤ n → c_realloc (Some p) n = Some b →
    take (length p `min` Z.to_nat n) b = take (length p `min` Z.to_nat n) p }.

Definition ei_x_extra : Z := 100.

Section XBuff.
Context {cfg : EiConfig} {cf : CFloat} {ca : CAlloc} {cr : CRealloc}.
Implicit Type x : ei_x_buff.

Definition ei_x_new : Z * ei_x_buff :=
  let b := c_malloc ei_x_extra in
  (match b with Some _ => 0 | None => -1 end, XBuff b ei_x_extra 0).

(** A call [f(x->buff, &x->index, ...)] of an encoder. *)
Definition run_on x (f : encoder) : option (Z * ei_x_buff) :=
  match f (EState (x_buff x) (x_index x)) with
  | Some (Go c, st) | Some (Ret c, st) => Some (c, XBuff (ebuf st) (x_buffsz x) (epos st))
  | None => None
  end.

Definition ei_x_new_with_version : option (Z * ei_x_buff) :=
  let (r, x) := ei_x_new in
  if r <? 0 then Some (-1, x) else run_on x ei_encode_version.

Definition ei_x_free x : Z * ei_x_buff :=
  match x_buff x with
  | None => (-1, x)
  | Some _ => (0, XBuff None (x_buffsz x) (x_index x))
  end.

(** The truth value is the C return value [x->buff != NULL]. *)
Definition x_fix_buff x (szneeded : Z) : bool * ei_x_buff :=
  let sz := int32 (szneeded + ei_x_extra) in
  let x' := if sz >? x_buffsz x
            then let sz' := int32 (sz + ei_x_extra) in XBuff (c_realloc (x_buff x) sz') sz' (x_index x)
            else x in
  (match x_buff x' with Some _ => true | None => false end, x').

Definition ei_x_append_buf x (buf : list Z) (len : Z) : option (Z * ei_x_buff) :=
  let (ok, x') := x_fix_buff x (int32 (x_index x + len)) in
  if ok then
    b ← x_buff x'; vs ← load_bytes buf 0 len; b' ← store_bytes b (x_index x') vs;
    Some (0, XBuff (Some b') (x_buffsz x') (int32 (x_index x' + len)))
  else Some (-1, x').

(** [x2] is another buffer than [x]. *)
Definition ei_x_append x (x2 : ei_x_buff) : option (Z * ei_x_buff) :=
  b2 ← x_buff x2; ei_x_append_buf x b2 (x_index x2).

(** The common body of the [ei_x_encode_*] functions: [int i = x->index; f(NULL, &i, ...);
    if (!x_fix_buff(x, i)) return -1; return f(x->buff, &x->index, ...)]. *)
Definition x_encode (f : encoder) x : option (Z * ei_x_buff) :=
  match f (EState None (x_index x)) with
  | None => None
  | Some (_, st) =>
      let (ok, x') := x_fix_buff x (epos st) in
      if ok then run_on x' f else Some (-1, x')
  end.

Definition ei_x_encode_string_len x (s : list Z) (len : Z) := x_encode (ei_encode_string_len s len) x.
Definition ei_x_encode_string x (s : list Z) : option (Z * ei_x_buff) :=
  n ← strlen s; ei_x_encode_string_len x s (int32 n).
Definition ei_x_encode_binary x (p : list Z) (len : Z) := x_encode (ei_encode_binary p len) x.
Definition ei_x_encode_long x (n : Z) := x_encode (ei_encode_long n) x.
Definition ei_x_encode_ulong x (n : Z) := x_encode (ei_encode_ulong n) x.
Definition ei_x_encode_char x (p : Z) := x_encode (ei_encode_char p) x.
Definition ei_x_encode_boolean x (p : Z) := x_encode (ei_encode_boolean p) x.
Definition ei_x_encode_double x (dbl : double) := x_encode (ei_encode_double dbl) x.
Definition ei_x_encode_list_header x (n : Z) := x_encode (ei_encode_list_header n) x.
Definition ei_x_encode_empty_list x := x_encode ei_encode_empty_list x.
Definition ei_x_encode_version x := x_encode ei_encode_version x.
Definition ei_x_encode_tuple_header x (n : Z) := x_encode (ei_encode_tuple_header n) x.
Definition ei_x_encode_atom_len x (s : list Z) (len : Z) := x_encode (ei_encode_atom_len s len) x.
Definition ei_x_encode_atom x (s : list Z) : option (Z * ei_x_buff) :=
  n ← strlen s; ei_x_encode_atom_len x s (int32 n).
Definition ei_x_encode_pid x (pid : erlang_pid) := x_encode (ei_encode_pid pid) x.
Definition ei_x_encode_fun x (fn : erlang_fun) := x_encode (ei_encode_fun fn) x.
Definition ei_x_encode_ref x (ref : erlang_ref) := x_encode (ei_encode_ref ref) x.
Definition ei_x_encode_port x (port : erlang_port) := x_encode (ei_encode_port port) x.
Definition ei_x_encode_trace x (trace : erlang_trace) := x_encode (ei_encode_trace trace) x.

(** Declared next to the encoders they call ([encode_longlong.c], [encode_ulonglong.c], [encode_big.c]). *)
Definition ei_x_encode_longlong x (n : Z) := x_encode (ei_encode_longlong n) x.
Definition ei_x_encode_ulonglong x (n : Z) := x_encode (ei_encode_ulonglong n) x.
Definition ei_x_encode_big x (big : erlang_big) := x_encode (ei_encode_big big) x.

(** * The buffer invariant *)

(** The block has the recorded size and the index lies inside it. *)
Definition x_ok x : Prop := ∃ b, x_buff x = Some b ∧ zlen b = x_buffsz x ∧ 0 ≤ x_index x ≤ x_buffsz x.

(** What has been encoded so far. *)
Definition x_contents x : list Z :=
  match x_buff x with Some b => take (Z.to_nat (x_index x)) b | None => [] end.

(** Growing: the block keeps its contents and has room for [szneeded] bytes, or [realloc] failed. *)
Lemma x_fix_buff_spec x n :
  x_ok x → x_index x ≤ n → n + 2 * ei_x_extra ≤ INT_MAX →
  let (ok, x') := x_fix_buff x n in
  x_index x' = x_index x ∧
  if ok then x_ok x' ∧ n ≤ x_buffsz x' ∧ x_contents x' = x_contents x
  else x_buff x' = None ∧ ∃ p sz, c_realloc p sz = None.
Proof.
  unfold x_fix_buff, ei_x_extra. intros (b & Hb & Hl & Hi) Hn Hmax. rewrite (int32_small (n + 100)) by lia.
  destruct (Z.gtb_spec (n + 100) (x_buffsz x)).
  - rewrite int32_small by lia. cbn [x_buff x_index]. split; [done|].
    destruct (c_realloc (x_buff x) (n + 100 + 100)) as [b'|] eqn:E; [|eauto].
    rewrite Hb in E. pose proof E as Hl'. apply c_realloc_length in Hl'; [|lia].
    apply c_realloc_prefix in E as Hp; [|lia]. split; [|split].
    + exists b'. cbn. split; [done|]. lia.
    + cbn. lia.
    + unfold x_contents. cbn. rewrite Hb. replace (length b `min` Z.to_nat (n + 100 + 100))%nat with (length b) in Hp by lia.
      apply (f_equal (take (Z.to_nat (x_index x)))) in Hp. rewrite !take_take in Hp.
      by replace (Z.to_nat (x_index x) `min` length b)%nat with (Z.to_nat (x_index x)) in Hp by lia.
  - rewrite Hb. split; [done|]. split; [|split; [lia|done]]. by exists b.
Qed.

(** An encoder that meets its contract, called on a buffer with room. *)
Lemma run_on_spec x f bs :
  Emits f bs → x_ok x → x_index x + zlen bs ≤ x_buffsz x → x_buffsz x ≤ INT_MAX →
  ∃ x', run_on x f = Some (0, x') ∧ x_ok x' ∧ x_index x' = x_index x + zlen bs ∧
    x_contents x' = x_contents x ++ bs ∧ x_buffsz x' = x_buffsz x.
Proof.
  intros [W _] (b & Hb & Hl & Hi) Hroom Hmax.
  assert (∃ pre old post, b = pre ++ old ++ post ∧ zlen pre = x_index x ∧ length old = length bs ∧ x_contents x = pre)
    as (pre & old & post & -> & Hpre & Hold & Hc).
  { exists (take (Z.to_nat (x_index x)) b), (take (length bs) (drop (Z.to_nat (x_index x)) b)),
      (drop (length bs) (drop (Z.to_nat (x_index x)) b)). rewrite !take_drop. unfold x_contents. rewrite Hb.
    len_simpl. split; [done|]. split; [lia|]. split; [lia|done]. }
  unfold run_on. rewrite Hb, Hc, <- Hpre, W by lia. eexists. split; [reflexivity|]. unfold x_ok, x_contents.
  cbn [x_buff x_index x_buffsz ebuf epos]. split; [|split; [done|split; [|done]]].
  - eexists. split; [done|]. revert Hl. len_simpl. lia.
  - rewrite app_assoc. by rewrite take_app_length' by len_lia.
Qed.

(** What a call with the encoding [bs] promises: it is appended, or the block could not grow. *)
Definition appends x (bs : list Z) (res : option (Z * ei_x_buff)) : Prop :=
  ∃ c x', res = Some (c, x') ∧
  ((c = 0 ∧ x_ok x' ∧ x_index x' = x_index x + zlen bs ∧ x_contents x' = x_contents x ++ bs ∧ x_buffsz x' ≤ INT_MAX) ∨
   (c = -1 ∧ x_buff x' = None ∧ ∃ p sz, c_realloc p sz = None)).

(** The whole call: the encoding is appended to the contents whatever room was left, or the block could
    not grow. *)
Lemma x_encode_spec f bs x :
  Emits f bs → x_ok x → x_buffsz x ≤ INT_MAX → x_index x + zlen bs + 2 * ei_x_extra ≤ INT_MAX →
  appends x bs (x_encode f x).
Proof.
  intros He Hok Hsz Hmax. pose proof Hok as (b & Hb & Hl & Hi). unfold x_encode.
  destruct He as [W S] eqn:EE. unfold ei_x_extra in *.
  rewrite (S (x_index x)) by lia. cbn [epos].
  pose proof (x_fix_buff_spec x (x_index x + zlen bs) Hok ltac:(lia) ltac:(unfold ei_x_extra; lia)) as Hf.
  assert (x_buffsz (x_fix_buff x (x_index x + zlen bs)).2 ≤ INT_MAX) as Hsz'.
  { unfold x_fix_buff. cbn [snd]. destruct (_ >? _); [|done]. cbn [x_buffsz]. apply int32_range. }
  destruct (x_fix_buff x (x_index x + zlen bs)) as [[] x1] eqn:E1; cbn [snd] in Hsz'.
  - destruct Hf as (Hi1 & Hok1 & Hroom & Hc1).
    destruct (run_on_spec x1 f bs He Hok1 ltac:(lia) Hsz') as (x' & Hr & Hok' & Hi' & Hc' & Hs').
    exists 0, x'. split; [done|left]. split; [done|]. split; [done|]. split; [lia|]. split; [by rewrite Hc', Hc1|lia].
  - destruct Hf as (_ & Hn & Hr). exists (-1), x1. split; [done|right]. done.
Qed.

Lemma ei_x_new_ok : c_malloc ei_x_extra ≠ None →
  ∃ x, ei_x_new = (0, x) ∧ x_ok x ∧ x_index x = 0 ∧ x_buffsz x = ei_x_extra ∧ x_contents x = [].
Proof.
  unfold ei_x_new. destruct (c_malloc ei_x_extra) as [b|] eqn:E; [|done]. intros _. eexists. split; [done|].
  apply c_malloc_length in E; [|unfold ei_x_extra; lia]. unfold x_ok, x_contents. cbn. split; [|done].
  exists b. unfold ei_x_extra in *. split; [done|]. lia.
Qed.

Lemma ei_x_append_buf_spec x buf len :
  x_ok x → x_buffsz x ≤ INT_MAX → 0 ≤ len ≤ zlen buf → x_index x + len + 2 * ei_x_extra ≤ INT_MAX →
  appends x (take (Z.to_nat len) buf) (ei_x_append_buf x buf len).
Proof.
  intros Hok Hsz Hlen Hmax. pose proof Hok as (b & Hb & Hl & Hi). unfold ei_x_append_buf, ei_x_extra in *.
  rewrite (int32_small (x_index x + len)) by lia.
  pose proof (x_fix_buff_spec x (x_index x + len) Hok ltac:(lia) ltac:(unfold ei_x_extra; lia)) as Hf.
  assert (x_buffsz (x_fix_buff x (x_index x + len)).2 ≤ INT_MAX) as Hsz'.
  { unfold x_fix_buff. cbn [snd]. destruct (_ >? _); [|done]. cbn [x_buffsz]. apply int32_range. }
  destruct (x_fix_buff x (x_index x + len)) as [[] x1] eqn:E1; cbn [snd] in Hsz'.
  2: { destruct Hf as (_ & Hn & Hr). exists (-1), x1. split; [done|by right]. }
  destruct Hf as (Hi1 & (b1 & Hb1 & Hl1 & Hi1') & Hroom & Hc1). rewrite Hb1. cbn [mbind option_bind].
  unfold load_bytes, store_bytes. decide_true. cbn [mbind option_bind Z.to_nat]. rewrite drop_0. decide_true.
  cbn [mbind option_bind]. rewrite Hi1, (int32_small (x_index x + len)) by lia.
  eexists 0, _. split; [reflexivity|left]. unfold x_ok, x_contents in *. rewrite Hb1, Hb in Hc1. rewrite Hb.
  cbn [x_buff x_index x_buffsz]. split; [done|]. split.
  { eexists. split; [done|]. len_simpl. lia. }
  split; [len_simpl; lia|]. split; [|done]. rewrite <- Hc1, Hi1, app_assoc.
  apply take_app_length'. len_simpl. lia.
Qed.

End XBuff.

(** * Programs on growing buffers: every [ei_x_*] call that appends to an [ei_x_buff], its arguments, the bytes it
    promises and when its arguments are well formed; then sequences of such calls. *)

Section XCalls.
Context {cfg : EiConfig} {cf : CFloat} {ca : CAlloc} {cr : CRealloc}.

Inductive x_call : Type :=
| X_string (s : list Z) | X_string_len (s : list Z) (len : Z) | X_binary (p : list Z) (len : Z)
| X_long (n : Z) | X_ulong (n : Z) | X_longlong (n : Z) | X_ulonglong (n : Z) | X_big (b : erlang_big)
| X_char (p : Z) | X_boolean (p : Z) | X_double (d : double)
| X_list_header (n : Z) | X_empty_list | X_version | X_tuple_header (n : Z)
| X_atom (s : list Z) | X_atom_len (s : list Z) (len : Z)
| X_pid (p : erlang_pid) | X_fun (p : erlang_fun) | X_ref (p : erlang_ref) | X_port (p : erlang_port)
| X_trace (p : erlang_trace)
| X_append (x2 : ei_x_buff) | X_append_buf (buf : list Z) (len : Z).

Definition x_run (k : x_call) (x : ei_x_buff) : option (Z * ei_x_buff) :=
  match k with
  | X_string s => ei_x_encode_string x s
  | X_string_len s len => ei_x_encode_string_len x s len
  | X_binary p len => ei_x_encode_binary x p len
  | X_long n => ei_x_encode_long x n
  | X_ulong n => ei_x_encode_ulong x n
  | X_longlong n => ei_x_encode_longlong x n
  | X_ulonglong n => ei_x_encode_ulonglong x n
  | X_big b => ei_x_encode_big x b
  | X_char p => ei_x_encode_char x p
  | X_boolean p => ei_x_encode_boolean x p
  | X_double d => ei_x_encode_double x d
  | X_list_header n => ei_x_encode_list_header x n
  | X_empty_list => ei_x_encode_empty_list x
  | X_version => ei_x_encode_version x
  | X_tuple_header n => ei_x_encode_tuple_header x n
  | X_atom s => ei_x_encode_atom x s
  | X_atom_len s len => ei_x_encode_atom_len x s len
  | X_pid p => ei_x_encode_pid x p
  | X_fun p => ei_x_encode_fun x p
  | X_ref p => ei_x_encode_ref x p
  | X_port p => ei_x_encode_port x p
  | X_trace p => ei_x_encode_trace x p
  | X_append x2 => ei_x_append x x2
  | X_append_buf buf len => ei_x_append_buf x buf len
  end.

(** The bytes the call appends. *)
Definition x_bytes (k : x_call) : list Z :=
  match k with
  | X_string s => string_bytes (name_of s)
  | X_string_len s len => string_bytes (take (Z.to_nat len) s)
  | X_binary p len => binary_bytes (take (Z.to_nat len) p)
  | X_long n => long_bytes n
  | X_ulong n => if ei_64bit then ulonglong_bytes n else ulong_32_bytes n
  | X_longlong n => longlong_bytes n
  | X_ulonglong n => ulonglong_bytes n
  | X_big b => big_bytes b
  | X_char p => small_int_bytes (Z.land p 255)
  | X_boolean p => atom_bytes (if p =? 0 then str_false else str_true)
  | X_double d => ERL_FLOAT_EXT :: float_text (sprintf_20e d)
  | X_list_header n => list_header_bytes n
  | X_empty_list => [ERL_NIL_EXT]
  | X_version => [ERL_VERSION_MAGIC]
  | X_tuple_header n => tuple_header_bytes n
  | X_atom s => atom_bytes (take (Z.to_nat MAXATOMLEN) (name_of s))
  | X_atom_len s len => atom_bytes (take (Z.to_nat (len `min` MAXATOMLEN)) s)
  | X_pid p => pid_bytes p
  | X_fun p => fun_bytes p
  | X_ref p => ref_bytes p
  | X_port p => port_bytes p
  | X_trace p => trace_bytes p
  | X_append x2 => x_contents x2
  | X_append_buf buf len => take (Z.to_nat len) buf
  end.

(** A block with a terminating NUL whose offset is an [int]. *)
Definition is_string (s : list Z) : Prop := ∃ n, strlen s = Some n ∧ n ≤ INT_MAX.

Definition x_call_ok (k : x_call) : Prop :=
  match k with
  | X_string s => is_string s ∧ Forall is_byte s
  | X_string_len s len => Forall is_byte s ∧ 0 ≤ len ≤ zlen s
  | X_binary p len => 0 ≤ len ≤ zlen p
  | X_long n => is_long n
  | X_ulong n => 0 ≤ n < 2 ^ long_bits
  | X_longlong n => - 2 ^ 63 ≤ n < 2 ^ 63
  | X_ulonglong n => 0 ≤ n < 2 ^ 64
  | X_big b => 0 ≤ big_arity b ≤ INT_MAX ∧ (big_arity b + 1) / 2 ≤ zlen (big_digits b)
  | X_char _ | X_boolean _ | X_empty_list | X_version => True
  | X_double d => (length (sprintf_20e d) < 31)%nat
  | X_list_header n | X_tuple_header n => 0 ≤ n
  | X_atom s => is_string s
  | X_atom_len s len => 0 ≤ len ∧ len `min` MAXATOMLEN ≤ zlen s
  | X_pid p => is_string (pid_node p)
  | X_fun p => fun_ok p
  | X_ref p => is_string (ref_node p) ∧ 0 ≤ ref_len p ≤ zlen (ref_n p)
  | X_port p => is_string (port_node p)
  | X_trace p => is_string (pid_node (tr_from p)) ∧
      is_long (tr_flags p) ∧ is_long (tr_label p) ∧ is_long (tr_serial p) ∧ is_long (tr_prev p)
  | X_append x2 => x_ok x2
  | X_append_buf buf len => 0 ≤ len ≤ zlen buf
  end.

Lemma x_run_string x s bs : is_string s → Forall is_byte s → string_bytes (name_of s) = bs →
  x_ok x → x_buffsz x ≤ INT_MAX → x_index x + zlen bs + 2 * ei_x_extra ≤ INT_MAX →
  appends x bs (ei_x_encode_string x s).
Proof.
  intros (n & Hn & Hmax) Hb <- Hok Hsz Hroom. unfold ei_x_encode_string. rewrite Hn. cbn [mbind option_bind].
  pose proof (name_of_strlen _ _ Hn) as [E ?]. rewrite int32_small by lia. rewrite E in *.
  apply x_encode_spec; [apply emits_string_len; [done|lia]|done..].
Qed.

Lemma x_run_atom x s bs : is_string s → atom_bytes (take (Z.to_nat MAXATOMLEN) (name_of s)) = bs →
  x_ok x → x_buffsz x ≤ INT_MAX → x_index x + zlen bs + 2 * ei_x_extra ≤ INT_MAX →
  appends x bs (ei_x_encode_atom x s).
Proof.
  intros (n & Hn & Hmax) <- Hok Hsz Hroom. unfold ei_x_encode_atom. rewrite Hn. cbn [mbind option_bind].
  pose proof (name_of_strlen _ _ Hn) as [E ?]. rewrite int32_small by lia. rewrite E in *.
  revert Hroom. rewrite take_take. replace (Z.to_nat MAXATOMLEN `min` Z.to_nat n)%nat with (Z.to_nat (n `min` MAXATOMLEN)) by lia.
  intros Hroom. apply x_encode_spec; [apply emits_atom_len; lia|done..].
Qed.

Lemma x_run_spec k x : x_call_ok k → x_ok x → x_buffsz x ≤ INT_MAX →
  x_index x + zlen (x_bytes k) + 2 * ei_x_extra ≤ INT_MAX → appends x (x_bytes k) (x_run k x).
Proof.
  intros Hk Hok Hsz Hroom.
  destruct k; cbn [x_call_ok x_bytes x_run] in *; try (apply x_encode_spec; [|done..]).
  - destruct Hk. by apply (x_run_string x s).
  - destruct Hk. by apply emits_string_len.
  - by apply emits_binary.
  - by apply emits_long.
  - unfold long_bits, ei_encode_ulong in *. destruct ei_64bit; [by apply emits_ulonglong|by apply emits_ulong_32].
  - by apply emits_longlong.
  - by apply emits_ulonglong.
  - destruct Hk. by apply emits_big.
  - apply emits_char.
  - apply emits_boolean.
  - by apply emits_double.
  - by apply emits_list_header.
  - by apply (emits_list_header 0).
  - apply emits_version.
  - by apply emits_tuple_header.
  - by apply (x_run_atom x s).
  - destruct Hk. by apply emits_atom_len.
  - destruct Hk as (? & ? & _). by eapply emits_pid.
  - by apply emits_fun.
  - destruct Hk as [(? & ? & _) ?]. by eapply emits_ref.
  - destruct Hk as (? & ? & _). by eapply emits_port.
  - destruct Hk as ((? & ? & _) & ? & ? & ? & ?). by eapply emits_trace.
  - destruct Hk as (b & Hb & Hl & Hi). unfold ei_x_append, x_contents in *. rewrite Hb in *. cbn [mbind option_bind].
    apply ei_x_append_buf_spec; [done|done|lia|]. revert Hroom. len_simpl. lia.
  - apply ei_x_append_buf_spec; [done..|]. revert Hroom. len_simpl. lia.
Qed.

(** A program: the calls one after the other, until one fails. *)
Fixpoint x_run_all (ks : list x_call) (x : ei_x_buff) : option (Z * ei_x_buff) :=
  match ks with
  | [] => Some (0, x)
  | k :: ks' => '(c, x') ← x_run k x; if c =? 0 then x_run_all ks' x' else Some (c, x')
  end.

Lemma x_run_all_spec ks x : Forall x_call_ok ks → x_ok x → x_buffsz x ≤ INT_MAX →
  x_index x + zlen (concat (map x_bytes ks)) + 2 * ei_x_extra ≤ INT_MAX → (∀ p sz, c_realloc p sz ≠ None) →
  ∃ x', x_run_all ks x = Some (0, x') ∧ x_ok x' ∧ x_contents x' = x_contents x ++ concat (map x_bytes ks).
Proof.
  intros Hf. revert x. induction Hf as [|k ks He Hf IH]; intros x Hok Hsz Hmax Hr; cbn [map concat] in *.
  - exists x. by rewrite app_nil_r.
  - rewrite length_app in Hmax. cbn [x_run_all].
    destruct (x_run_spec k x He Hok Hsz ltac:(lia)) as (c & x1 & -> & [(-> & Hok1 & Hi1 & Hc1 & Hsz1)|(_ & _ & p & sz & Hn)]);
      [|by destruct (Hr p sz)].
    cbn. destruct (IH x1 Hok1 Hsz1 ltac:(lia) Hr) as (x' & -> & Hok' & Hc'). exists x'.
    split; [done|]. split; [done|]. by rewrite Hc', Hc1, app_assoc.
Qed.

End XCalls.
