(* ===== verification/EiTermDecode.v ===== *)
(** [ei_decode_ei_term] of [lib/erl_interface/src/misc/ei_decode_term.c]: one step of decoding
    into a tagged [ei_term]. *)

From Stdlib Require Import ZArith ZifyBool.
From stdpp Require Import base list numbers option.
From S2P Require Import Prelude EiTypes EiCursor EiEncode EiEncodeSpec EiDecode EiDecodeSpec EiTerm.
Local Open Scope Z_scope.

Section EiTerm.
Context {cfg : EiConfig} {cf : CFloat}.

(** The members of the union [value] are kept side by side: the code only writes them, each under
    the tag that selects it. *)
Record ei_term := ETerm {
  t_ei_type : Z; t_arity : Z; t_size : Z;
  t_i_val : Z; t_d_val : double; t_atom_name : list Z; t_pid : erlang_pid; t_port : erlang_port; t_ref : erlang_ref }.

Definition t_set_type v t := ETerm v (t_arity t) (t_size t) (t_i_val t) (t_d_val t) (t_atom_name t) (t_pid t) (t_port t) (t_ref t).
Definition t_set_arity v t := ETerm (t_ei_type t) v (t_size t) (t_i_val t) (t_d_val t) (t_atom_name t) (t_pid t) (t_port t) (t_ref t).
Definition t_set_size v t := ETerm (t_ei_type t) (t_arity t) v (t_i_val t) (t_d_val t) (t_atom_name t) (t_pid t) (t_port t) (t_ref t).
Definition t_set_i_val v t := ETerm (t_ei_type t) (t_arity t) (t_size t) v (t_d_val t) (t_atom_name t) (t_pid t) (t_port t) (t_ref t).
Definition t_set_d_val v t := ETerm (t_ei_type t) (t_arity t) (t_size t) (t_i_val t) v (t_atom_name t) (t_pid t) (t_port t) (t_ref t).
Definition t_set_atom_name v t := ETerm (t_ei_type t) (t_arity t) (t_size t) (t_i_val t) (t_d_val t) v (t_pid t) (t_port t) (t_ref t).
Definition t_set_pid v t := ETerm (t_ei_type t) (t_arity t) (t_size t) (t_i_val t) (t_d_val t) (t_atom_name t) v (t_port t) (t_ref t).
Definition t_set_port v t := ETerm (t_ei_type t) (t_arity t) (t_size t) (t_i_val t) (t_d_val t) (t_atom_name t) (t_pid t) v (t_ref t).
Definition t_set_ref v t := ETerm (t_ei_type t) (t_arity t) (t_size t) (t_i_val t) (t_d_val t) (t_atom_name t) (t_pid t) (t_port t) v.

(** A store in a member: [term->value.m = ...]. *)
Definition on_member {A} (prj : ei_term → A) (set : A → ei_term → ei_term) (f : A → option A) : M (dstate ei_term) unit :=
  set_out (λ t, a ← f (prj t); Some (set a t)).

Definition pid_num_set v p := Some (Pid (pid_node p) v (pid_serial p) (pid_creation p)).
Definition pid_serial_set v p := Some (Pid (pid_node p) (pid_num p) v (pid_creation p)).
Definition pid_creation_set v p := Some (Pid (pid_node p) (pid_num p) (pid_serial p) v).
Definition port_id_set v p := Some (Port (port_node p) v (port_creation p)).
Definition port_creation_set v p := Some (Port (port_node p) (port_id p) v).

(** [s = buf + *index; s0 = s; ...; *index += s-s0; return 1]. *)
Definition decode_body1 {T} (body : M (dstate T) unit) : M (dstate T) Z := λ st,
  match body st with
  | None => None
  | Some (Ret c, st') => Some (Go c, DState (dpos st) (dout st'))
  | Some (Go _, st') => Some (Go 1, DState (int32 (dpos st + (dpos st' - dpos st))) (dout st'))
  end.

(** The [switch (c)]. *)
Definition ei_term_switch (buf : list Z) (c : Z) : M (dstate ei_term) unit :=
  (if c =? ERL_SMALL_INTEGER_EXT then v ← get8 buf; set_out (λ t, Some (t_set_i_val v t))
   else if c =? ERL_INTEGER_EXT then v ← get32be buf; set_out (λ t, Some (t_set_i_val v t))
   else if c =? ERL_FLOAT_EXT then
     z ← peek buf 30; ret_if (negb (z =? 0)) (-1) ;;
     st ← get_st;
     match sscanf_lf (drop (Z.to_nat (dpos st)) buf) with
     | None => ret_code (-1)
     | Some f => skip 31 ;; set_out (λ t, Some (t_set_d_val f t))
     end
   else if c =? ERL_ATOM_EXT then
     len ← get16be buf; vs ← peek_bytes buf len;
     on_member t_atom_name t_set_atom_name (copy_string vs) ;; skip len
   else if c =? ERL_REFERENCE_EXT then
     a ← get8 buf; ret_if (negb (a =? ERL_ATOM_EXT)) (-1) ;;
     len ← get16be buf; vs ← peek_bytes buf len;
     on_member t_ref t_set_ref (set_ref_node vs) ;; skip len ;;
     n0 ← get32be buf; on_member t_ref t_set_ref (set_ref_n 0 n0) ;;
     on_member t_ref t_set_ref (set_ref_len 1) ;;
     cr ← get8 buf; on_member t_ref t_set_ref (set_ref_creation cr)
   else if c =? ERL_NEW_REFERENCE_EXT then
     count ← get16be buf; on_member t_ref t_set_ref (set_ref_len count) ;;
     a ← get8 buf; ret_if (negb (a =? ERL_ATOM_EXT)) (-1) ;;
     len ← get16be buf; vs ← peek_bytes buf len;
     on_member t_ref t_set_ref (set_ref_node vs) ;; skip len ;;
     cr ← get8 buf; on_member t_ref t_set_ref (set_ref_creation cr) ;;
     for_range (count `min` 3) (λ i, v ← get32be buf; on_member t_ref t_set_ref (set_ref_n i v)) ;;
     (if count >? 3 then skip (4 * (count - 3)) else mret tt)
   else if c =? ERL_PORT_EXT then
     a ← get8 buf; ret_if (negb (a =? ERL_ATOM_EXT)) (-1) ;;
     len ← get16be buf; vs ← peek_bytes buf len;
     on_member t_port t_set_port (set_port_node vs) ;;
     id ← get32be buf; on_member t_port t_set_port (port_id_set (Z.land id 0x0fffffff)) ;;
     cr ← get8 buf; on_member t_port t_set_port (port_creation_set (Z.land cr 0x03))
   else if c =? ERL_PID_EXT then
     a ← get8 buf; ret_if (negb (a =? ERL_ATOM_EXT)) (-1) ;;
     len ← get16be buf; vs ← peek_bytes buf len;
     on_member t_pid t_set_pid (set_pid_node vs) ;; skip len ;;
     num ← get32be buf; on_member t_pid t_set_pid (pid_num_set (Z.land num 0x7fff)) ;;
     serial ← get32be buf; on_member t_pid t_set_pid (pid_serial_set (Z.land serial 0x1fff)) ;;
     cr ← get8 buf; on_member t_pid t_set_pid (pid_creation_set (Z.land cr 0x03))
   else if c =? ERL_SMALL_TUPLE_EXT then n ← get8 buf; set_out (λ t, Some (t_set_arity n t))
   else if c =? ERL_LARGE_TUPLE_EXT then n ← get32be buf; set_out (λ t, Some (t_set_arity n t))
   else if c =? ERL_NIL_EXT then set_out (λ t, Some (t_set_arity 0 t))
   else if c =? ERL_STRING_EXT then n ← get16be buf; set_out (λ t, Some (t_set_size n t)) ;; ret_code 0
   else if c =? ERL_LIST_EXT then n ← get32be buf; set_out (λ t, Some (t_set_arity n t))
   else if c =? ERL_BINARY_EXT then n ← get32be buf; set_out (λ t, Some (t_set_size n t)) ;; ret_code 0
   else if c =? ERL_SMALL_BIG_EXT then
     a ← get8 buf; set_out (λ t, Some (t_set_arity a t)) ;; ret_if (negb (a =? 4)) (-1) ;;
     sign ← get8 buf; n ← get32le buf;
     if negb (sign =? 0) then ret_if (int32 (n - 1) <? 0) (-1)   (* n = -n, then unused *)
     else ret_if (n <? 0) (-1)
   else if (c =? ERL_LARGE_BIG_EXT) || (c =? ERL_PASS_THROUGH) then ret_code 0
   else ret_code (-1)).

Definition ei_term_body (buf : list Z) : M (dstate ei_term) unit :=
  h ← has_out; ret_if (negb h) (-1) ;;
  c ← get8 buf; set_out (λ t, Some (t_set_type c t)) ;;
  ei_term_switch buf c.

Definition ei_decode_ei_term (buf : list Z) : M (dstate ei_term) Z := decode_body1 (ei_term_body buf).

(** * One step per kind of term *)

Lemma sees_body1 {T} (m : list Z → M (dstate T) unit) bs k o o' pre post :
  sees m bs tt k o o' → k = zlen bs → zlen pre + zlen bs ≤ INT_MAX →
  decode_body1 (m (pre ++ bs ++ post)) (DState (zlen pre) o) = Some (Go 1, DState (zlen pre + zlen bs) o').
Proof.
  intros H -> Hmax. unfold decode_body1. rewrite H by done. cbn [dpos dout].
  rewrite int32_small by lia. state_eq.
Qed.

(** The term that results from decoding a value [t] into [o], for the kinds of values this function
    reads in one step. *)
Definition ei_term_of (t : term) (o : ei_term) : option ei_term :=
  match t with
  | T_long p =>
      if (p <? 256) && (p >=? 0) then Some (t_set_i_val p (t_set_type ERL_SMALL_INTEGER_EXT o))
      else if (p <=? ERL_MAX) && (p >=? ERL_MIN) then Some (t_set_i_val p (t_set_type ERL_INTEGER_EXT o))
      else None
  | T_atom s => Some (t_set_atom_name (put_name s (t_atom_name o)) (t_set_type ERL_ATOM_EXT o))
  | T_pid p => Some (t_set_pid (pid_received p (t_pid o)) (t_set_type ERL_PID_EXT o))
  | T_nil => Some (t_set_arity 0 (t_set_type ERL_NIL_EXT o))
  | _ => None
  end.

(** The name arrays of [o] are as long as the declarations of [ei.h] make them, and those of [t] fit. *)
Definition ei_term_room (t : term) (o : ei_term) : Prop :=
  match t with
  | T_atom _ => length (t_atom_name o) = Z.to_nat (MAXATOMLEN + 1)
  | T_pid p => (length (name_of (pid_node p)) < length (pid_node (t_pid o)))%nat
  | _ => True
  end.

Lemma ei_term_run c rest k o o' bs pre post :
  bs = c :: rest → is_byte c → sees (λ buf, ei_term_switch buf c) rest tt k (Some (t_set_type c o)) o' →
  1 + k = zlen bs → zlen pre + zlen bs ≤ INT_MAX →
  ei_decode_ei_term (pre ++ bs ++ post) (DState (zlen pre) (Some o)) = Some (Go 1, DState (zlen pre + zlen bs) o').
Proof.
  intros -> Hc H Hk Hmax. apply (sees_body1 ei_term_body _ (1 + k)); [|done|done].
  eapply sees_stay; [apply sees_has_out|]. cbv beta iota. cbn [negb ret_if]. do 3 sees_step. exact H.
Qed.

Lemma sees_on_member {A} (prj : ei_term → A) set f (bs : list Z) o a :
  f (prj o) = Some a → sees (λ _, on_member prj set f) bs tt 0 (Some o) (Some (set a o)).
Proof. intros Hf. apply sees_set_out. by rewrite Hf. Qed.

(** [memcpy(term->value.m, s, len); term->value.m[len] = 0] *)
Lemma sees_member_name {A B} (prj : ei_term → A) set (F : list Z → A → option A) s len rest
    (f : list Z → M (dstate ei_term) B) r k o a o' :
  len = zlen s → F s (prj o) = Some a →
  sees f (s ++ rest) r k (Some (set a o)) o' →
  sees (λ buf, vs ← peek_bytes buf len; on_member prj set (F vs) ;; f buf) (s ++ rest) r k (Some o) o'.
Proof.
  intros Hl HF H. eapply sees_stay; [by apply sees_peek_bytes|]. cbv beta.
  eapply sees_stay; [by apply sees_on_member|]. exact H.
Qed.

Lemma wrap_u16_len (s : list Z) : zlen s < 65536 → wrap_u 16 (zlen s) = zlen s.
Proof. intros. apply wrap_u_small. change (2 ^ 16) with 65536. lia. Qed.

Lemma ei_term_step (t : term) o o' : term_ok t → ei_term_room t o → ei_term_of t o = Some o' →
  ∀ pre post, zlen pre + zlen (term_bytes t) ≤ INT_MAX →
  ei_decode_ei_term (pre ++ term_bytes t ++ post) (DState (zlen pre) (Some o)) =
  Some (Go 1, DState (zlen pre + zlen (term_bytes t)) (Some o')).
Proof.
  intros Hok Hroom Hof pre post Hmax. destruct t as [p|d|s|s|s|p|p|p|b|p fvs| |ts tl|ts|p|p|p|p|p]; try discriminate Hof; unfold term_ok in Hok;
    cbn [term_wf ei_term_room ei_term_of term_bytes] in *.
  - unfold long_bytes, longlong_bytes, long_32_bytes in *.
    destruct ((p <? 256) && (p >=? 0)) eqn:E1; [|destruct ((p <=? ERL_MAX) && (p >=? ERL_MIN)) eqn:E2; [|done]];
      injection Hof as <-.
    + replace (if ei_64bit then small_int_bytes p else small_int_bytes p) with (small_int_bytes p) in *
        by (by destruct ei_64bit).
      eapply ei_term_run; [done|done| |shelve|done]. unfold ei_term_switch. eval_tags. sees_step. sees_step.
      Unshelve. done.
    + replace (if ei_64bit then int_bytes p else int_bytes p) with (int_bytes p) in * by (by destruct ei_64bit).
      eapply (ei_term_run _ (be32 p ++ [])); [by rewrite app_nil_r|done| |shelve|done]. unfold ei_term_switch.
      eval_tags. sees_step. rewrite small_range by lia. sees_step.
      Unshelve. done.
  - injection Hof as <-. unfold MAXATOMLEN in *. eapply ei_term_run; [done|done| |shelve|done]. unfold ei_term_switch.
    eval_tags. sees_step. rewrite wrap_u16_len by lia.
    rewrite <- (app_nil_r s) at 1. eapply (sees_member_name _ _ copy_string); [done|apply copy_string_ok; cbn [t_set_type t_atom_name]; lia|].
    rewrite app_nil_r. apply sees_skip.
    Unshelve. unfold atom_bytes, be16. len_lia.
  - injection Hof as <-. pose proof (name_of_short _ Hok) as Hs.
    pose proof (is_byte_land3 (pid_creation p)) as Hc.
    eapply ei_term_run; [reflexivity|done| |shelve|done]. unfold ei_term_switch, atom_bytes. eval_tags.
    rewrite <- !app_comm_cons, <- !app_assoc.
    do 3 sees_step. set (s := name_of (pid_node p)) in *. rewrite wrap_u16_len by lia.
    eapply (sees_member_name _ _ set_pid_node); [done|unfold set_pid_node; rewrite copy_string_ok by done; reflexivity|].
    eapply sees_skip_bind; [done|].
    sees_step. eapply sees_stay; [eapply sees_on_member; reflexivity|].
    sees_step. eapply sees_stay; [eapply sees_on_member; reflexivity|].
    sees_step. unfold on_member. apply sees_set_out. unfold pid_creation_set, t_set_pid, t_set_type, pid_received.
    cbn [mbind option_bind t_ei_type t_arity t_size t_i_val t_d_val t_atom_name t_pid t_port t_ref
      pid_node pid_num pid_serial pid_creation]. fold s.
    by rewrite (mask_int32 _ 15 ltac:(lia)), (mask_int32 _ 13 ltac:(lia)), <- (Z.land_assoc (pid_creation p)).
    Unshelve. unfold pid_bytes, atom_bytes, be16, be32. len_lia.
  - injection Hof as <-. eapply ei_term_run; [done|done| |shelve|done].
    unfold ei_term_switch. eval_tags. sees_step.
    Unshelve. done.
Qed.

End EiTerm.
