(* ===== verification/EiBig.v ===== *)
(** The bignum helpers of [lib/erl_interface/src/decode/decode_big.c] against the integers they stand for. *)

From Stdlib Require Import ZArith ZifyBool.
From stdpp Require Import base list numbers option.
From S2P Require Import Prelude EiTypes EiCursor EiEncode EiDecode.
Local Open Scope Z_scope.

(** The value of 16-bit digits, least significant first, and of a big. *)
Definition digits_value (ds : list Z) : Z := foldr (λ d v, d + 65536 * v) 0 ds.
Definition big_value (b : erlang_big) : Z :=
  if big_is_neg b =? 0 then digits_value (big_digits b) else - digits_value (big_digits b).

Definition is_digit (d : Z) : Prop := 0 ≤ d < 65536.

(** Digits in range, as many as the arity says, the last of them not 0; zero is not negative. *)
Record big_normal (b : erlang_big) : Prop := {
  bn_digits : Forall is_digit (big_digits b);
  bn_arity : 0 ≤ big_arity b ≤ INT_MAX;
  bn_length : zlen (big_digits b) = (big_arity b + 1) / 2;
  bn_last : big_digits b ≠ [] → list.last (big_digits b) ≠ Some 0;
  bn_sign : big_is_neg b ≠ 0 → big_digits b ≠ [] }.

Lemma digits_value_bound ds : Forall is_digit ds → 0 ≤ digits_value ds < 65536 ^ zlen ds.
Proof.
  induction 1 as [|d ds Hd Hds IH]; [done|]. cbn [digits_value foldr length]. fold (digits_value ds).
  rewrite Nat2Z.inj_succ, Z.pow_succ_r by lia. unfold is_digit in Hd. lia.
Qed.

Lemma digits_value_app ds es : digits_value (ds ++ es) = digits_value ds + 65536 ^ zlen ds * digits_value es.
Proof.
  induction ds as [|d ds IH]; [cbn [app length digits_value foldr]; change (65536 ^ Z.of_nat 0) with 1; fold (digits_value es); lia|].
  cbn [app digits_value foldr length]. fold (digits_value ds) (digits_value (ds ++ es)).
  rewrite IH, Nat2Z.inj_succ, Z.pow_succ_r by lia. ring.
Qed.

Lemma digits_value_lower ds : Forall is_digit ds → ds ≠ [] → list.last ds ≠ Some 0 →
  65536 ^ (zlen ds - 1) ≤ digits_value ds.
Proof.
  intros Hds. destruct ds as [|d ds] using rev_ind; [done|clear IHds]. intros _ Hl. rewrite list.last_snoc in Hl.
  apply Forall_app in Hds as [Hds Hd]. inversion Hd as [|? ? Hd1 _]; subst. unfold is_digit in Hd1.
  rewrite digits_value_app. cbn [digits_value foldr]. pose proof (digits_value_bound ds Hds).
  replace (zlen (ds ++ [d]) - 1) with (zlen ds) by len_lia. assert (1 ≤ d) by (assert (d ≠ 0) by congruence; lia).
  pose proof (Z.pow_pos_nonneg 65536 (zlen ds) ltac:(lia) ltac:(lia)). nia.
Qed.

(** The comparison as C returns it. *)
Definition cmp_code (x y : Z) : Z := if x <? y then -1 else if x =? y then 0 else 1.

Lemma cmp_code_lt x y : x < y → cmp_code x y = -1.
Proof. intros. unfold cmp_code. by replace (x <? y) with true by lia. Qed.

Lemma cmp_code_gt x y : y < x → cmp_code x y = 1.
Proof. intros. unfold cmp_code. replace (x <? y) with false by lia. by replace (x =? y) with false by lia. Qed.

Lemma cmp_code_eq x : cmp_code x x = 0.
Proof. unfold cmp_code. replace (x <? x) with false by lia. by rewrite Z.eqb_refl. Qed.

Lemma cmp_code_add x y z : cmp_code (x + z) (y + z) = cmp_code x y.
Proof.
  destruct (Z.lt_trichotomy x y) as [H|[->|H]]; [rewrite !cmp_code_lt by lia|rewrite !cmp_code_eq|rewrite !cmp_code_gt by lia]; done.
Qed.

Lemma cmp_code_opp x y : cmp_code (- x) (- y) = - cmp_code x y.
Proof.
  destruct (Z.lt_trichotomy x y) as [H|[->|H]]; [|by rewrite !cmp_code_eq|].
  - by rewrite (cmp_code_lt x y), cmp_code_gt by lia.
  - by rewrite (cmp_code_gt x y), cmp_code_lt by lia.
Qed.

Lemma I_comp_loop_spec x y xl : Forall is_digit x → Forall is_digit y → (xl ≤ length x)%nat → (xl ≤ length y)%nat →
  I_comp_loop x y xl = Some (cmp_code (digits_value (take xl x)) (digits_value (take xl y))).
Proof.
  intros Hx Hy. induction xl as [|xl IH]; intros Hlx Hly; [done|]. cbn [I_comp_loop].
  destruct (lookup_lt_is_Some_2 x xl) as [a Ha]; [lia|]. destruct (lookup_lt_is_Some_2 y xl) as [b Hb]; [lia|].
  rewrite Ha, Hb. cbn [mbind option_bind].
  rewrite (take_S_r _ _ a Ha), (take_S_r _ _ b Hb), !digits_value_app.
  pose proof (digits_value_bound (take xl x) ltac:(by apply Forall_take)).
  pose proof (digits_value_bound (take xl y) ltac:(by apply Forall_take)).
  rewrite !length_take, !Nat.min_l in * by lia. cbn [digits_value foldr]. rewrite !Z.mul_0_r, !Z.add_0_r.
  destruct (Z.eqb_spec a b) as [->|Hne].
  - rewrite IH by lia. by rewrite cmp_code_add.
  - pose proof (Z.pow_pos_nonneg 65536 (Z.of_nat xl) ltac:(lia) ltac:(lia)). f_equal.
    destruct (Z.ltb_spec a b); symmetry; [apply cmp_code_lt|apply cmp_code_gt]; nia.
Qed.

Lemma I_comp_spec x y : Forall is_digit x → Forall is_digit y →
  (x ≠ [] → list.last x ≠ Some 0) → (y ≠ [] → list.last y ≠ Some 0) →
  I_comp x (zlen x) y (zlen y) = Some (cmp_code (digits_value x) (digits_value y)).
Proof.
  intros Hx Hy Hlx Hly. unfold I_comp.
  pose proof (digits_value_bound x Hx). pose proof (digits_value_bound y Hy).
  destruct (Z.ltb_spec (zlen x) (zlen y)) as [Hlt|Hge].
  - pose proof (digits_value_lower y Hy ltac:(by intros ->; cbn in Hlt; lia) ltac:(apply Hly; intros ->; cbn in Hlt; lia)).
    pose proof (Z.pow_le_mono_r 65536 (zlen x) (zlen y - 1) ltac:(lia) ltac:(lia)). by rewrite cmp_code_lt by lia.
  - destruct (Z.gtb_spec (zlen x) (zlen y)) as [Hgt|Hle].
    + pose proof (digits_value_lower x Hx ltac:(by intros ->; cbn in Hgt; lia) ltac:(apply Hlx; intros ->; cbn in Hgt; lia)).
      pose proof (Z.pow_le_mono_r 65536 (zlen y) (zlen x - 1) ltac:(lia) ltac:(lia)). by rewrite cmp_code_gt by lia.
    + rewrite Nat2Z.id, I_comp_loop_spec by (done || lia). by rewrite !take_ge by lia.
Qed.

Lemma ei_big_comp_spec x y : big_normal x → big_normal y →
  (big_is_neg x ≠ 0 → big_is_neg y ≠ 0 → big_is_neg x = big_is_neg y) →
  ei_big_comp x y = Some (cmp_code (big_value x) (big_value y)).
Proof.
  intros [Hdx Hax Hlx Hnx Hsx] [Hdy Hay Hly Hny Hsy] Hs. unfold ei_big_comp, INT_MAX in *.
  rewrite !wrap_u_small by lia. rewrite <- Hlx, <- Hly. unfold big_value.
  pose proof (digits_value_bound _ Hdx). pose proof (digits_value_bound _ Hdy).
  assert (∀ ds, Forall is_digit ds → ds ≠ [] → (ds ≠ [] → list.last ds ≠ Some 0) → 0 < digits_value ds) as Hp.
  { intros ds Hds Hne Hl. pose proof (digits_value_lower ds Hds Hne (Hl Hne)).
    assert (0 < 65536 ^ (zlen ds - 1)); [|lia]. apply Z.pow_pos_nonneg; [lia|]. destruct ds; [done|cbn; lia]. }
  destruct (Z.eqb_spec (big_is_neg x) (big_is_neg y)) as [E|E].
  - rewrite I_comp_spec by done. cbn [mbind option_bind]. rewrite E. f_equal.
    destruct (Z.eqb_spec (big_is_neg y) 0); cbn [negb]; [done|by rewrite cmp_code_opp].
  - f_equal. destruct (Z.eqb_spec (big_is_neg x) 0) as [Ex|Ex]; cbn [negb].
    + replace (big_is_neg y =? 0) with false by lia.
      pose proof (Hp _ Hdy ltac:(apply Hsy; lia) Hny). by rewrite cmp_code_gt by lia.
    + destruct (Z.eqb_spec (big_is_neg y) 0); [|by destruct E; apply Hs].
      pose proof (Hp _ Hdx (Hsx Ex) Hnx). by rewrite cmp_code_lt by lia.
Qed.

(** [ei_small_to_big] stores the two halves of the 32-bit pattern of [s]. *)
Lemma ei_small_to_big_spec s b d0 d1 rest : - 2 ^ 31 ≤ s < 2 ^ 31 → 3 ≤ big_arity b ≤ INT_MAX → big_digits b = d0 :: d1 :: rest →
  ∃ b', ei_small_to_big s b = Some (0, b') ∧ big_is_neg b' = (if s <? 0 then 1 else 0) ∧
    big_digits b' = Z.land s 65535 :: wrap_u 16 (Z.shiftr s 16) :: rest ∧
    digits_value (take 2 (big_digits b')) = s mod 2 ^ 32.
Proof.
  intros Hs Ha Hd. unfold ei_small_to_big, INT_MAX in *. rewrite wrap_u_small by lia.
  replace ((big_arity b + 1) / 2 <? 2) with false by (symmetry; apply Z.ltb_ge, Z.div_le_lower_bound; lia).
  rewrite Hd. set (lo := Z.land s 65535). set (hi := wrap_u 16 (Z.shiftr s 16)).
  assert (store (d0 :: d1 :: rest) 0 lo = Some (lo :: d1 :: rest)) as -> by apply (store_app []).
  assert (store (lo :: d1 :: rest) 1 hi = Some (lo :: hi :: rest)) as E by apply (store_app [lo]).
  cbn [mbind option_bind]. rewrite E. cbn [mbind option_bind].
  eexists. split; [reflexivity|]. split; [done|]. split; [done|].
  cbn [big_digits take digits_value foldr]. unfold lo, hi. change 65535 with (Z.ones 16). rewrite Z.land_ones, Z.shiftr_div_pow2 by lia.
  unfold wrap_u. change (2 ^ 16) with 65536. change (2 ^ 32) with 4294967296. rewrite take_0. cbn [foldr]. Z.div_mod_to_equations. lia.
Qed.
