(* ===== verification/EiTheorems.v ===== *)
(** The correctness properties of the [erl_interface] codec ([EiEncode], [EiDecode], [EiTermDecode], [EiXBuff]),
    each with a concrete instance.

    [codec f g bs o o'] is the promise of an encoder/decoder pair; the properties instantiate it for the
    types of [ei.h] and add the error behaviour of the decoders, [ei_skip_term] and the growing buffers. *)

From Stdlib Require Import ZArith ZifyBool.
From stdpp Require Import base list numbers option.
From S2P Require Import Prelude EiTypes EiCursor EiEncode EiEncodeSpec EiDecode EiDecodeSpec EiTerm EiXBuff EiTermDecode EiBig.
Local Open Scope Z_scope.

(** Encoder [f] and decoder [g] agree on a value represented by [bs]: the dry run computes the size; encoding at
    any index of any buffer with enough room changes exactly those bytes and moves the index behind them; decoding
    there returns 0, turns the destination [o] into [o'] and moves the index to the same place. *)
Definition codec {T} (f : encoder) (g : list Z → M (dstate T) Z) (bs : list Z) (o o' : T) : Prop :=
  ∀ b i, 0 ≤ i → i + zlen bs ≤ zlen b → zlen b ≤ INT_MAX →
    let n := i + zlen bs in
    f (EState None i) = Some (Go 0, EState None n) ∧
    ∃ b', f (EState (Some b) i) = Some (Go 0, EState (Some b') n) ∧
      length b' = length b ∧ take (Z.to_nat i) b' = take (Z.to_nat i) b ∧ drop (Z.to_nat n) b' = drop (Z.to_nat n) b ∧
      g b' (DState i (Some o)) = Some (Go 0, DState n (Some o')) ∧
      g b' (DState i None) = Some (Go 0, DState n None).

Lemma split_at (b : list Z) (i : Z) (k : nat) : 0 ≤ i → i + Z.of_nat k ≤ zlen b →
  ∃ pre old post, b = pre ++ old ++ post ∧ zlen pre = i ∧ length old = k.
Proof.
  intros Hi Hk. exists (take (Z.to_nat i) b), (take k (drop (Z.to_nat i) b)), (drop k (drop (Z.to_nat i) b)).
  rewrite !take_drop. len_simpl. split; [done|]. lia.
Qed.

(** The two contracts give the pair's promise. *)
Lemma codec_of {T} (f : encoder) (g : list Z → M (dstate T) Z) bs ok upd o :
  Emits f bs → Decodes g bs ok upd → ok o → codec f g bs o (upd o).
Proof.
  intros [W S] [D N] Ho b i Hi Hn Hmax. split; [apply S; lia|].
  destruct (split_at b i (length bs) Hi Hn) as (pre & old & post & -> & <- & Hold).
  exists (pre ++ bs ++ post). rewrite W by lia. split; [done|]. split; [len_simpl; lia|].
  rewrite Nat2Z.id, !take_app_length. split; [done|]. split.
  - rewrite !app_assoc, !drop_app_length' by (len_simpl; lia). done.
  - split; [apply D|apply N]; (done || lia).
Qed.

Lemma codec_to {T} (f : encoder) (g : list Z → M (dstate T) Z) bs (v o : T) :
  Emits f bs → DecodesTo g bs v → codec f g bs o v.
Proof. intros Hf Hg. exact (codec_of f g bs _ _ o Hf Hg I). Qed.

(** * Concrete environments for the instances *)
Module Env.

#[export] Instance cfg64 : EiConfig := {| ei_64bit := true |}.

(** A heap with enough memory. *)
#[export, program] Instance heap : CAlloc := {| c_malloc := λ n, Some (replicate (Z.to_nat n) 7) |}.
Next Obligation. intros n b _ [= <-]. apply length_replicate. Qed.

#[export, program] Instance reheap : CRealloc :=
  {| c_realloc := λ p n, Some (take (Z.to_nat n) (default [] p ++ replicate (Z.to_nat n) 7)) |}.
Next Obligation. intros p n b _ [= <-]. rewrite length_take, length_app, length_replicate. lia. Qed.
Next Obligation.
  intros p n b _ [= <-]. cbn [default]. rewrite take_take, Nat.min_l by lia. by rewrite take_app_le by lia.
Qed.

(** The two floats 0 and 1 in the notation of "%.20e" (with fewer digits). *)
#[export] Instance floats : CFloat :=
  {| double := bool;
     sprintf_20e := λ d, [if d then 49 else 48; 46; 48; 101; 43; 48; 48];
     sscanf_lf := λ s, match s with 49 :: _ => Some true | 48 :: _ => Some false | _ => None end |}.
#[export] Instance floats_laws : CFloatLaws.
Proof. split; intros []; cbn; (lia || done). Qed.

Definition node : list Z := [97; 64; 98].   (* a@b *)
Definition block : list Z := replicate 256 0.
Definition a_pid := Pid (cstring node (replicate 252 0)) 40 1 2.
Definition no_pid := Pid block 0 0 0.
Definition a_ref := Ref (cstring node (replicate 252 0)) 3 [7; 8; 4294967295] 1.
Definition no_ref := Ref block 0 [0; 0; 0] 0.

End Env.

Section Properties.
Context {cfg : EiConfig} {cf : CFloat} {ca : CAlloc}.

(** C14: Every term that an [erl_interface] program builds by nested [ei_encode_*] calls (integers through [ei_encode_long],
    [ei_encode_ulong], [ei_encode_longlong], [ei_encode_ulonglong] and [ei_encode_char], booleans, floats, atoms of at most 255 characters,
    binaries, strings, pids, ports, references of at most three ids, bignums, funs of the old and the new form, non-empty
    lists with any tail, the empty list, and tuples, of any depth) is encoded exactly as the external term format says:
    a dry run on NULL yields the size, and with that much room at any place of a buffer of at most [INT_MAX] bytes the calls
    store these bytes, touch no other byte and leave the index behind them. *)
Theorem ei_encode_term_exact `{!CFloatLaws} (t : term) (b : list Z) (i : Z) :
  encodable t → 0 ≤ i → i + zlen (term_bytes t) ≤ zlen b → zlen b ≤ INT_MAX →
  encode_term t (EState None i) = Some (Go 0, EState None (i + zlen (term_bytes t))) ∧
  encode_term t (EState (Some b) i) =
    Some (Go 0, EState (Some (take (Z.to_nat i) b ++ term_bytes t ++ drop (Z.to_nat (i + zlen (term_bytes t))) b))
                  (i + zlen (term_bytes t))).
Proof.
  intros Ht Hi Hn Hmax. destruct (emits_term _ t Ht) as [W S]. split; [apply S; lia|].
  pose proof (W (take (Z.to_nat i) b) (take (length (term_bytes t)) (drop (Z.to_nat i) b))
    (drop (Z.to_nat (i + zlen (term_bytes t))) b)) as Hw.
  rewrite Z2Nat.inj_add, Nat2Z.id, <- drop_drop in Hw |- * by lia. rewrite !take_drop in Hw.
  replace (zlen (take (Z.to_nat i) b)) with i in Hw by (rewrite length_take; lia).
  apply Hw; [rewrite length_take, length_drop|]; lia.
Qed.

(** C15: [ei_skip_term] is a left inverse of encoding on terms whose funs have the old form ([arity] -1): on the bytes of any such
    term, followed by anything, it returns 0 and moves the index exactly behind the term, for every recursion depth
    at least the nesting depth of the term.  A fun of the new form, which [ei_encode_fun] writes too, is not skipped: -1
    is returned and the index stays. *)
Theorem ei_skip_encoded_term :
  (∀ `{!CFloatLaws} (t : term) (fuel : nat) (pre post : list Z),
    term_ok t → (depth t ≤ fuel)%nat → zlen pre + zlen (term_bytes t) ≤ INT_MAX →
    ei_skip_term fuel (pre ++ term_bytes t ++ post) (DState (zlen pre) None) =
    Some (Go 0, DState (zlen pre + zlen (term_bytes t)) None)) ∧
  (∀ (p : erlang_fun) (fvs : list term) (fuel : nat) (pre post : list Z),
    fun_arity p ≠ -1 → zlen pre + zlen (term_bytes (T_fun p fvs)) ≤ INT_MAX →
    ei_skip_term (S fuel) (pre ++ term_bytes (T_fun p fvs) ++ post) (DState (zlen pre) None) = Some (Go (-1), DState (zlen pre) None)).
Proof.
  split; [intros Hcf t fuel pre post Ht Hd Hmax; by apply skip_term_bytes|].
  intros p fvs fuel pre post Ha Hmax. by apply skip_new_fun.
Qed.

(** 64-bit signed integers round trip, from LLONG_MIN to LLONG_MAX, through the small, the 32-bit and
    the bignum form. *)
Lemma ei_longlong_roundtrip (p o : Z) : - 2 ^ 63 ≤ p < 2 ^ 63 →
  codec (ei_encode_longlong p) ei_decode_longlong (longlong_bytes p) o p.
Proof. intros Hp. by apply codec_to; [apply emits_longlong|apply decodes_longlong]. Qed.

(** 32-bit signed and unsigned and 64-bit unsigned integers round trip over their whole ranges. *)
Lemma ei_integer_roundtrips (p o : Z) :
  (- 2 ^ 31 ≤ p < 2 ^ 31 → codec (ei_encode_long_32 p) ei_decode_long_32 (long_32_bytes p) o p) ∧
  (0 ≤ p < 2 ^ 32 → codec (ei_encode_ulong_32 p) ei_decode_ulong_32 (ulong_32_bytes p) o p) ∧
  (0 ≤ p < 2 ^ 64 → codec (ei_encode_ulonglong p) ei_decode_ulonglong (ulonglong_bytes p) o p).
Proof.
  split; [|split]; intros Hp.
  - by apply codec_to; [apply emits_long_32|apply decodes_long_32].
  - by apply codec_to; [apply emits_ulong_32|apply decodes_ulong_32].
  - by apply codec_to; [apply emits_ulonglong|apply decodes_ulonglong].
Qed.

(** 64-bit and 32-bit signed and unsigned integers round trip over their whole ranges, through the small, the 32-bit and the
    bignum form. *)
Lemma ei_integers_roundtrip (p o : Z) :
  (- 2 ^ 63 ≤ p < 2 ^ 63 → codec (ei_encode_longlong p) ei_decode_longlong (longlong_bytes p) o p) ∧
  (- 2 ^ 31 ≤ p < 2 ^ 31 → codec (ei_encode_long_32 p) ei_decode_long_32 (long_32_bytes p) o p) ∧
  (0 ≤ p < 2 ^ 32 → codec (ei_encode_ulong_32 p) ei_decode_ulong_32 (ulong_32_bytes p) o p) ∧
  (0 ≤ p < 2 ^ 64 → codec (ei_encode_ulonglong p) ei_decode_ulonglong (ulonglong_bytes p) o p).
Proof. split; [apply ei_longlong_roundtrip|apply ei_integer_roundtrips]. Qed.

(** Pids and ports round trip: the node name arrives with its NUL, and the numbers reduced to the 15, 13, 28 and
    2 bits the format carries. *)
Lemma ei_pid_port_roundtrip (p o : erlang_pid) (q r : erlang_port) :
  name_ok (pid_node p) → (length (name_of (pid_node p)) < length (pid_node o))%nat →
  name_ok (port_node q) → (length (name_of (port_node q)) < length (port_node r))%nat →
  codec (ei_encode_pid p) ei_decode_pid (pid_bytes p) o (pid_received p o) ∧
  codec (ei_encode_port q) ei_decode_port (port_bytes q) r (port_received q r).
Proof.
  intros Hp Ho Hq Hr. pose proof Hp as (n & Hn & _). pose proof Hq as (m & Hm & _). split.
  - by eapply codec_of; [eapply emits_pid|apply decodes_pid, name_of_short|].
  - by eapply codec_of; [eapply emits_port|apply decodes_port, name_of_short|].
Qed.

(** References of up to three ids round trip. *)
Lemma ei_ref_roundtrip (p o : erlang_ref) :
  name_ok (ref_node p) → 0 ≤ ref_len p ≤ 3 → ref_len p ≤ zlen (ref_n p) →
  (length (name_of (ref_node p)) < length (ref_node o))%nat → length (ref_n o) = 3%nat →
  codec (ei_encode_ref p) ei_decode_ref (ref_bytes p) o (ref_received p o).
Proof.
  intros Hp Hl Hl' Ho Ho3. pose proof Hp as (n & Hn & _).
  eapply codec_of; [eapply emits_ref; [done|lia]|apply decodes_ref; auto using name_of_short|done].
Qed.

(** Pids, ports and references round trip: the node name arrives with its NUL, the numbers of a pid and a port reduced to the
    15, 13, 28 and 2 bits the format carries, and all of the up to three ids of a reference. *)
Lemma ei_identifiers_roundtrip (p o : erlang_pid) (q r : erlang_port) (x y : erlang_ref) :
  name_ok (pid_node p) → (length (name_of (pid_node p)) < length (pid_node o))%nat →
  name_ok (port_node q) → (length (name_of (port_node q)) < length (port_node r))%nat →
  name_ok (ref_node x) → 0 ≤ ref_len x ≤ 3 → ref_len x ≤ zlen (ref_n x) →
  (length (name_of (ref_node x)) < length (ref_node y))%nat → length (ref_n y) = 3%nat →
  codec (ei_encode_pid p) ei_decode_pid (pid_bytes p) o (pid_received p o) ∧
  codec (ei_encode_port q) ei_decode_port (port_bytes q) r (port_received q r) ∧
  codec (ei_encode_ref x) ei_decode_ref (ref_bytes x) y (ref_received x y).
Proof. intros. apply and_assoc. split; [by apply ei_pid_port_roundtrip|by apply ei_ref_roundtrip]. Qed.

(** C38: 64-bit and 32-bit signed and unsigned integers round trip over their whole ranges, through the small, the 32-bit
    and the bignum form.  Pids, ports and references round trip: the node name arrives with its NUL, the numbers of a pid
    and a port reduced to the 15, 13, 28 and 2 bits the format carries, and all of the up to three ids of a reference. *)
Theorem ei_scalars_roundtrip :
  (∀ (p o : Z), (- 2 ^ 63 ≤ p < 2 ^ 63 → codec (ei_encode_longlong p) ei_decode_longlong (longlong_bytes p) o p) ∧
  (- 2 ^ 31 ≤ p < 2 ^ 31 → codec (ei_encode_long_32 p) ei_decode_long_32 (long_32_bytes p) o p) ∧
  (0 ≤ p < 2 ^ 32 → codec (ei_encode_ulong_32 p) ei_decode_ulong_32 (ulong_32_bytes p) o p) ∧
  (0 ≤ p < 2 ^ 64 → codec (ei_encode_ulonglong p) ei_decode_ulonglong (ulonglong_bytes p) o p)) ∧
  (∀ (p o : erlang_pid) (q r : erlang_port) (x y : erlang_ref), name_ok (pid_node p) → (length (name_of (pid_node p)) < length (pid_node o))%nat →
  name_ok (port_node q) → (length (name_of (port_node q)) < length (port_node r))%nat →
  name_ok (ref_node x) → 0 ≤ ref_len x ≤ 3 → ref_len x ≤ zlen (ref_n x) →
  (length (name_of (ref_node x)) < length (ref_node y))%nat → length (ref_n y) = 3%nat →
  codec (ei_encode_pid p) ei_decode_pid (pid_bytes p) o (pid_received p o) ∧
  codec (ei_encode_port q) ei_decode_port (port_bytes q) r (port_received q r) ∧
  codec (ei_encode_ref x) ei_decode_ref (ref_bytes x) y (ref_received x y)).
Proof. split; [exact ei_integers_roundtrip|exact ei_identifiers_roundtrip]. Qed.

(** Character strings of every length round trip, in each of the three forms the encoder picks (the empty
    list, the 16-bit string, the list of small integers), and a NUL is stored behind them. *)
Lemma ei_string_roundtrip (s o : list Z) :
  Forall is_byte s → zlen s ≤ INT_MAX → (length s < length o)%nat →
  codec (ei_encode_string_len s (zlen s)) ei_decode_string (string_bytes s) o (put_name s o).
Proof.
  intros Hs Hl Ho. pose proof (emits_string_len s (zlen s) Hs ltac:(lia)) as He. rewrite take_ge in He by lia.
  by eapply codec_of; [exact He|apply decodes_string|].
Qed.

(** Bignums round trip: any number of 16-bit digits, small or large form. *)
Lemma ei_big_roundtrip (b o : erlang_big) :
  big_ok b → big_arity o = big_arity b → (length (big_digits b) ≤ length (big_digits o))%nat →
  codec (ei_encode_big b) ei_decode_big (big_bytes b) o (big_received b o).
Proof.
  intros Hb Ha Hd. pose proof Hb as (Hb1 & Hb2 & _).
  eapply codec_of; [apply emits_big; lia|by apply decodes_big|done].
Qed.

(** Character strings of every length and bignums of every size round trip: a string in each of the three forms the encoder
    picks (the empty list, the 16-bit string, the list of small integers), with a NUL stored behind it; any number of
    16-bit digits, in the small or the large form. *)
Lemma ei_string_big_roundtrip (s o : list Z) (b r : erlang_big) :
  Forall is_byte s → zlen s ≤ INT_MAX → (length s < length o)%nat →
  big_ok b → big_arity r = big_arity b → (length (big_digits b) ≤ length (big_digits r))%nat →
  codec (ei_encode_string_len s (zlen s)) ei_decode_string (string_bytes s) o (put_name s o) ∧
  codec (ei_encode_big b) ei_decode_big (big_bytes b) r (big_received b r).
Proof. intros. split; [by apply ei_string_roundtrip|by apply ei_big_roundtrip]. Qed.

(** Trace tokens round trip, with the sender's pid. *)
Lemma ei_trace_roundtrip (p o : erlang_trace) (b : list Z) (i : Z) :
  name_ok (pid_node (tr_from p)) →
  is_long (tr_flags p) → is_long (tr_label p) → is_long (tr_serial p) → is_long (tr_prev p) →
  (length (name_of (pid_node (tr_from p))) < length (pid_node (tr_from o)))%nat →
  0 ≤ i → i + zlen (trace_bytes p) ≤ zlen b → zlen b ≤ INT_MAX →
  ∃ b', ei_encode_trace p (EState (Some b) i) = Some (Go 0, EState (Some b') (i + zlen (trace_bytes p))) ∧
    ei_decode_trace b' (DState i (Some o)) = Some (Go 0, DState (i + zlen (trace_bytes p)) (Some (trace_received p o))).
Proof.
  intros Hn H1 H2 H3 H4 Ho Hi Hl Hmax. pose proof Hn as (n & Hn' & _).
  destruct (emits_trace p n Hn' H1 H2 H3 H4) as [W _].
  pose proof (split_at b i (length (trace_bytes p)) Hi Hl) as (pre & old & post & -> & <- & Hold).
  exists (pre ++ trace_bytes p ++ post). split; [apply W; lia|]. apply decodes_trace; auto using name_of_short. lia.
Qed.

(** Funs of the old form round trip: all fields arrive and [free_vars] points to a block with
    exactly the encoded free variables, however deeply nested they are. *)
Lemma ei_fun_roundtrip `{!CFloatLaws} (p o : erlang_fun) (fvs : list term) (fuel : nat) :
  term_ok (T_fun p fvs) → (depth (T_fun p fvs) ≤ fuel)%nat → fun_room p o →
  codec (ei_encode_fun p) (ei_decode_fun fuel) (fun_bytes p) o (fun_received p o).
Proof.
  intros Hok Hd Hr. pose proof (emits_term _ _ Hok) as He. cbn [encode_term term_bytes] in He.
  pose proof (skip_fun_sees p fvs fuel Hok Hd) as Hs.
  eapply (codec_of _ _ _ (λ q, fun_room p q) (fun_received p)); [exact He| |exact Hr].
  split; intros; apply Hs; auto.
Qed.

(** Trace tokens and funs of the old form round trip: a token with the sender's pid; all fields of a fun, with [free_vars]
    pointing to a block with exactly the encoded free variables, however deeply nested they are. *)
Lemma ei_trace_fun_roundtrip `{!CFloatLaws} :
  (∀ (p o : erlang_trace) (b : list Z) (i : Z), name_ok (pid_node (tr_from p)) →
    is_long (tr_flags p) → is_long (tr_label p) → is_long (tr_serial p) → is_long (tr_prev p) →
    (length (name_of (pid_node (tr_from p))) < length (pid_node (tr_from o)))%nat →
    0 ≤ i → i + zlen (trace_bytes p) ≤ zlen b → zlen b ≤ INT_MAX →
    ∃ b', ei_encode_trace p (EState (Some b) i) = Some (Go 0, EState (Some b') (i + zlen (trace_bytes p))) ∧
      ei_decode_trace b' (DState i (Some o)) = Some (Go 0, DState (i + zlen (trace_bytes p)) (Some (trace_received p o)))) ∧
  (∀ (p o : erlang_fun) (fvs : list term) (fuel : nat), term_ok (T_fun p fvs) → (depth (T_fun p fvs) ≤ fuel)%nat → fun_room p o →
    codec (ei_encode_fun p) (ei_decode_fun fuel) (fun_bytes p) o (fun_received p o)).
Proof. split; [apply ei_trace_roundtrip|apply ei_fun_roundtrip]. Qed.

(** Character strings of every length and bignums of every size round trip: a string in each of the three forms the
    encoder picks (the empty list, the 16-bit string, the list of small integers), with a NUL stored behind it; any number
    of 16-bit digits, in the small or the large form.  Trace tokens and funs of the old form round trip: a token with the
    sender's pid; all fields of a fun, with [free_vars] pointing to a block with exactly the encoded free variables,
    however deeply nested they are. *)
Lemma ei_compound_roundtrips :
  (∀ (s o : list Z) (b r : erlang_big), Forall is_byte s → zlen s ≤ INT_MAX → (length s < length o)%nat →
  big_ok b → big_arity r = big_arity b → (length (big_digits b) ≤ length (big_digits r))%nat →
  codec (ei_encode_string_len s (zlen s)) ei_decode_string (string_bytes s) o (put_name s o) ∧
  codec (ei_encode_big b) ei_decode_big (big_bytes b) r (big_received b r)) ∧
  (∀ `{!CFloatLaws}, (∀ (p o : erlang_trace) (b : list Z) (i : Z), name_ok (pid_node (tr_from p)) →
    is_long (tr_flags p) → is_long (tr_label p) → is_long (tr_serial p) → is_long (tr_prev p) →
    (length (name_of (pid_node (tr_from p))) < length (pid_node (tr_from o)))%nat →
    0 ≤ i → i + zlen (trace_bytes p) ≤ zlen b → zlen b ≤ INT_MAX →
    ∃ b', ei_encode_trace p (EState (Some b) i) = Some (Go 0, EState (Some b') (i + zlen (trace_bytes p))) ∧
      ei_decode_trace b' (DState i (Some o)) = Some (Go 0, DState (i + zlen (trace_bytes p)) (Some (trace_received p o)))) ∧
  (∀ (p o : erlang_fun) (fvs : list term) (fuel : nat), term_ok (T_fun p fvs) → (depth (T_fun p fvs) ≤ fuel)%nat → fun_room p o →
    codec (ei_encode_fun p) (ei_decode_fun fuel) (fun_bytes p) o (fun_received p o))).
Proof. split; [exact ei_string_big_roundtrip|intros ?; exact ei_trace_fun_roundtrip]. Qed.

Lemma binary_codec (s : list Z) (p : option (list Z)) (len : option Z) :
  zlen s ≤ INT_MAX → match p with Some blk => (length s ≤ length blk)%nat | None => True end →
  codec (ei_encode_binary s (zlen s)) ei_decode_binary (binary_bytes s)
    (p, len) ((λ blk, s ++ drop (length s) blk) <$> p, (λ _, zlen s) <$> len).
Proof.
  intros Hs Hp. pose proof (emits_binary s (zlen s) ltac:(lia)) as He. rewrite take_ge in He by lia.
  by apply (codec_of _ _ _ _ _ (p, len) He (decodes_binary s Hs)).
Qed.

Lemma atom_codec (p o : list Z) (n : Z) :
  strlen p = Some n → length o = Z.to_nat (MAXATOMLEN + 1) →
  let name := take (Z.to_nat MAXATOMLEN) (name_of p) in
  codec (ei_encode_atom p) ei_decode_atom (atom_bytes name) o (put_name name o).
Proof.
  intros Hn Ho name. assert (length name ≤ Z.to_nat MAXATOMLEN)%nat as Hl by (unfold name; rewrite length_take; lia).
  eapply codec_of; [by eapply emits_atom|apply decodes_atom|]; cbn; unfold MAXATOMLEN in *; lia.
Qed.

(** Binaries, atoms, booleans and floats round trip.  Each of the two result pointers of [ei_decode_binary] may be NULL
    on its own; [ei_encode_atom] cuts a name to 255 characters, and what it wrote is read back into any array of
    [MAXATOMLEN + 1] characters; any non-zero [int] is sent as the atom true and read as 1, zero as false and 0; a
    double is read back from its text. *)
Lemma ei_data_roundtrips `{!CFloatLaws} (s : list Z) (bin : option (list Z)) (len : option Z) (p o : list Z) (n b b0 : Z)
    (d d0 : double) :
  zlen s ≤ INT_MAX → match bin with Some blk => (length s ≤ length blk)%nat | None => True end →
  strlen p = Some n → length o = Z.to_nat (MAXATOMLEN + 1) →
  let name := take (Z.to_nat MAXATOMLEN) (name_of p) in
  codec (ei_encode_binary s (zlen s)) ei_decode_binary (binary_bytes s)
    (bin, len) ((λ blk, s ++ drop (length s) blk) <$> bin, (λ _, zlen s) <$> len) ∧
  codec (ei_encode_atom p) ei_decode_atom (atom_bytes name) o (put_name name o) ∧
  codec (ei_encode_boolean b) ei_decode_boolean (atom_bytes (if b =? 0 then str_false else str_true)) b0
    (bool_to_Z (negb (b =? 0))) ∧
  codec (ei_encode_double d) ei_decode_double (ERL_FLOAT_EXT :: float_text (sprintf_20e d)) d0 d.
Proof.
  intros Hs Hbin Hn Ho name. split; [by apply binary_codec|]. split; [by eapply atom_codec|]. split.
  - apply codec_to; [apply emits_boolean|]. pose proof (decodes_boolean (negb (b =? 0))) as Hb. by destruct (b =? 0).
  - apply codec_to; [apply emits_double, sprintf_fits|apply decodes_double].
Qed.

(** C39: Character strings of every length and bignums of every size round trip: a string in each of the three forms the
    encoder picks (the empty list, the 16-bit string, the list of small integers), with a NUL stored behind it; any number
    of 16-bit digits, in the small or the large form.  Trace tokens and funs of the old form round trip: a token with the
    sender's pid; all fields of a fun, with [free_vars] pointing to a block with exactly the encoded free variables,
    however deeply nested they are.  Binaries, atoms, booleans and floats round trip.  Each of the two result pointers of
    [ei_decode_binary] may be NULL on its own; [ei_encode_atom] cuts a name to 255 characters, and what it wrote is read
    back into any array of [MAXATOMLEN + 1] characters; any non-zero [int] is sent as the atom true and read as 1, zero as
    false and 0; a double is read back from its text. *)
Theorem ei_compound_data_roundtrips :
  ((∀ (s o : list Z) (b r : erlang_big), Forall is_byte s → zlen s ≤ INT_MAX → (length s < length o)%nat →
  big_ok b → big_arity r = big_arity b → (length (big_digits b) ≤ length (big_digits r))%nat →
  codec (ei_encode_string_len s (zlen s)) ei_decode_string (string_bytes s) o (put_name s o) ∧
  codec (ei_encode_big b) ei_decode_big (big_bytes b) r (big_received b r)) ∧
  (∀ `{!CFloatLaws}, (∀ (p o : erlang_trace) (b : list Z) (i : Z), name_ok (pid_node (tr_from p)) →
    is_long (tr_flags p) → is_long (tr_label p) → is_long (tr_serial p) → is_long (tr_prev p) →
    (length (name_of (pid_node (tr_from p))) < length (pid_node (tr_from o)))%nat →
    0 ≤ i → i + zlen (trace_bytes p) ≤ zlen b → zlen b ≤ INT_MAX →
    ∃ b', ei_encode_trace p (EState (Some b) i) = Some (Go 0, EState (Some b') (i + zlen (trace_bytes p))) ∧
      ei_decode_trace b' (DState i (Some o)) = Some (Go 0, DState (i + zlen (trace_bytes p)) (Some (trace_received p o)))) ∧
  (∀ (p o : erlang_fun) (fvs : list term) (fuel : nat), term_ok (T_fun p fvs) → (depth (T_fun p fvs) ≤ fuel)%nat → fun_room p o →
    codec (ei_encode_fun p) (ei_decode_fun fuel) (fun_bytes p) o (fun_received p o)))) ∧
  (∀ `{!CFloatLaws} (s : list Z) (bin : option (list Z)) (len : option Z) (p o : list Z) (n b b0 : Z)
    (d d0 : double), zlen s ≤ INT_MAX → match bin with Some blk => (length s ≤ length blk)%nat | None => True end →
  strlen p = Some n → length o = Z.to_nat (MAXATOMLEN + 1) →
  let name := take (Z.to_nat MAXATOMLEN) (name_of p) in
  codec (ei_encode_binary s (zlen s)) ei_decode_binary (binary_bytes s)
    (bin, len) ((λ blk, s ++ drop (length s) blk) <$> bin, (λ _, zlen s) <$> len) ∧
  codec (ei_encode_atom p) ei_decode_atom (atom_bytes name) o (put_name name o) ∧
  codec (ei_encode_boolean b) ei_decode_boolean (atom_bytes (if b =? 0 then str_false else str_true)) b0
    (bool_to_Z (negb (b =? 0))) ∧
  codec (ei_encode_double d) ei_decode_double (ERL_FLOAT_EXT :: float_text (sprintf_20e d)) d0 d).
Proof. split; [exact ei_compound_roundtrips|intros Hcf; exact (ei_data_roundtrips (H:=Hcf))]. Qed.

(** A decoder that finds another tag than its own at the index returns -1 and changes neither the index nor
    its result, whatever else the buffer holds. *)
Lemma ei_decoders_reject_wrong_tag (buf : list Z) (i tag : Z) :
  load buf i = Some tag → is_byte tag →
  (tag ≠ ERL_ATOM_EXT → ∀ o, ei_decode_atom buf (DState i o) = Some (Go (-1), DState i o)) ∧
  (tag ≠ ERL_ATOM_EXT → ∀ o, ei_decode_boolean buf (DState i o) = Some (Go (-1), DState i o)) ∧
  (tag ≠ ERL_BINARY_EXT → ∀ o, ei_decode_binary buf (DState i o) = Some (Go (-1), DState i o)) ∧
  (tag ≠ ERL_FLOAT_EXT → ∀ o, ei_decode_double buf (DState i o) = Some (Go (-1), DState i o)) ∧
  (tag ≠ ERL_PID_EXT → ∀ o, ei_decode_pid buf (DState i o) = Some (Go (-1), DState i o)) ∧
  (tag ≠ ERL_PORT_EXT → ∀ o, ei_decode_port buf (DState i o) = Some (Go (-1), DState i o)) ∧
  (tag ≠ ERL_REFERENCE_EXT → tag ≠ ERL_NEW_REFERENCE_EXT → ∀ o, ei_decode_ref buf (DState i o) = Some (Go (-1), DState i o)) ∧
  (tag ≠ ERL_NIL_EXT → tag ≠ ERL_LIST_EXT → ∀ o, ei_decode_list_header buf (DState i o) = Some (Go (-1), DState i o)) ∧
  (tag ≠ ERL_SMALL_TUPLE_EXT → tag ≠ ERL_LARGE_TUPLE_EXT →
     ∀ o, ei_decode_tuple_header buf (DState i o) = Some (Go (-1), DState i o)) ∧
  (tag ≠ ERL_STRING_EXT → tag ≠ ERL_LIST_EXT → tag ≠ ERL_NIL_EXT →
     ∀ o, ei_decode_string buf (DState i o) = Some (Go (-1), DState i o)) ∧
  (tag ≠ ERL_SMALL_BIG_EXT → tag ≠ ERL_LARGE_BIG_EXT → ∀ o, ei_decode_big buf (DState i o) = Some (Go (-1), DState i o)) ∧
  (tag ≠ ERL_SMALL_INTEGER_EXT → tag ≠ ERL_INTEGER_EXT → tag ≠ ERL_SMALL_BIG_EXT → tag ≠ ERL_LARGE_BIG_EXT → ∀ o,
     ei_decode_long buf (DState i o) = Some (Go (-1), DState i o) ∧
     ei_decode_ulong buf (DState i o) = Some (Go (-1), DState i o) ∧
     ei_decode_longlong buf (DState i o) = Some (Go (-1), DState i o) ∧
     ei_decode_ulonglong buf (DState i o) = Some (Go (-1), DState i o) ∧
     ei_decode_char buf (DState i o) = Some (Go (-1), DState i o)) ∧
  (tag ≠ ERL_STRING_EXT → tag ≠ ERL_LIST_EXT → ∀ o, ei_decode_intlist buf (DState i o) = Some (Go (-1), DState i o)) ∧
  (tag ≠ ERL_FUN_EXT → tag ≠ ERL_NEW_FUN_EXT → ∀ fuel o, ei_decode_fun fuel buf (DState i o) = Some (Go (-1), DState i o)) ∧
  (tag ≠ ERL_SMALL_TUPLE_EXT → tag ≠ ERL_LARGE_TUPLE_EXT → ∀ o, ei_decode_trace buf (DState i o) = Some (Go (-1), DState i o)) ∧
  (tag ≠ ERL_VERSION_MAGIC → ∀ o, ei_decode_version buf (DState i o) = Some (Go (-1), DState i (match o with Some _ => Some tag | None => None end))).
Proof.
  intros Hl Hb.
  assert (∀ a b, a ≠ b → (a =? b) = false) as Hne by (intros; by apply Z.eqb_neq).
  do 11 (split; [intros; (eapply reject_tag; [exact Hl|exact Hb|]); intros; cbv beta; rewrite !Hne by done; reflexivity|]). split; [|split; [|split; [|split]]].
  - intros. repeat split; unfold ei_decode_long, ei_decode_ulong, ei_decode_longlong, ei_decode_ulonglong, ei_decode_long_32, ei_decode_ulong_32;
      try destruct ei_64bit; (eapply reject_tag; [exact Hl|exact Hb|]); intros; cbv beta; rewrite !Hne by done; reflexivity.
  - intros. (eapply reject_tag; [exact Hl|exact Hb|]); intros; cbv beta; rewrite !Hne by done; reflexivity.
  - intros H1 H2 fuel o. unfold ei_decode_fun, ei_decode_fun_with, decode_body. erewrite M_bind_Go; [|reflexivity]. erewrite M_bind_Go; [|by apply get8_at].
    cbv beta. by rewrite !Hne by done.
  - intros H1 H2 o. unfold ei_decode_trace, decode_body, ei_decode_trace_body.
    assert (ei_decode_tuple_header buf (DState i (Some 0)) = Some (Go (-1), DState i (Some 0))) as Ht
      by ((eapply reject_tag; [exact Hl|exact Hb|]); intros; cbv beta; rewrite !Hne by done; reflexivity).
    erewrite M_bind_Go; [|unfold with_local; cbn [dpos]; rewrite Ht; reflexivity]. done.
  - intros H1 o. unfold ei_decode_version, decode_body. erewrite M_bind_Go; [|by apply get8_at]. cbv beta.
    erewrite M_bind_Go; [|reflexivity]. rewrite Hne by done. by destruct o.
Qed.

(** The integer decoders accept exactly the bignums that fit, in the small and the large form: on any sign and digits, leading zeros
    included, the result is the denoted value when it lies in the range of the C type, and otherwise -1 with index and
    result unchanged; the unsigned ones refuse the negative sign also in front of zero. *)
Lemma ei_decode_bigs_exact :
  (∀ (w neg : Z) (large : bool) (ds pre post : list Z) (o : option Z), w = 32 ∨ w = 64 → big_ext_ok large neg ds →
  zlen pre + zlen (big_ext large neg ds) ≤ INT_MAX →
  let v := if neg =? 0 then le_value ds else - le_value ds in
  let st' v := DState (zlen pre + zlen (big_ext large neg ds)) (match o with Some _ => Some v | None => None end) in
  decode_signed w (pre ++ big_ext large neg ds ++ post) (DState (zlen pre) o) =
    (if bool_decide (- 2 ^ (w - 1) ≤ v < 2 ^ (w - 1)) then Some (Go 0, st' v) else Some (Go (-1), DState (zlen pre) o)) ∧
  decode_unsigned w (pre ++ big_ext large neg ds ++ post) (DState (zlen pre) o) =
    (if bool_decide (neg = 0 ∧ le_value ds < 2 ^ w) then Some (Go 0, st' (le_value ds)) else Some (Go (-1), DState (zlen pre) o))).
Proof.
  intros w neg large ds pre post o Hw Hok Hmax v st'. pose proof Hok as (Hds & Hn & _). destruct (big_block large neg ds pre post) as (pre' & Eb & El).
  assert (zlen pre' + (1 + zlen ds) = zlen pre + zlen (big_ext large neg ds)) as Ee by lia. split.
  - pose proof (signed_big_any w neg ds o pre' post Hw Hds Hn) as Hs. cbn zeta in Hs. fold v in Hs. rewrite <- Eb, Ee, El in Hs.
    set (buf := pre ++ _) in *. destruct (big_switch_run (get8 buf) (get32be buf) (get_signed_big buf w) large neg ds pre post o v Hok Hmax) as [H1 H2].
    case_bool_decide; [exact (H1 Hs)|exact (H2 Hs)].
  - pose proof (unsigned_big_any w neg ds o pre' post Hw Hds Hn) as Hs. rewrite <- Eb, Ee, El in Hs.
    set (buf := pre ++ _) in *.
    destruct (big_switch_run (get8 buf) (sn ← get32be buf; ret_if (sn <? 0) (-1) ;; mret sn) (get_unsigned_big buf w) large neg ds pre post o (le_value ds) Hok Hmax) as [H1 H2].
    case_bool_decide; [exact (H1 Hs)|exact (H2 Hs)].
Qed.

(** A decoder that finds another tag than its own at the index returns -1 and changes neither the index nor its
    result, whatever else the buffer holds.  The integer decoders accept exactly the bignums that fit: on any sign and
    digits, leading zeros included, the result is the denoted value when it lies in the range of the C type, and otherwise
    -1 with index and result unchanged. *)
Lemma ei_decoders_refuse :
  (∀ (buf : list Z) (i tag : Z), load buf i = Some tag → is_byte tag →
  (tag ≠ ERL_ATOM_EXT → ∀ o, ei_decode_atom buf (DState i o) = Some (Go (-1), DState i o)) ∧
  (tag ≠ ERL_ATOM_EXT → ∀ o, ei_decode_boolean buf (DState i o) = Some (Go (-1), DState i o)) ∧
  (tag ≠ ERL_BINARY_EXT → ∀ o, ei_decode_binary buf (DState i o) = Some (Go (-1), DState i o)) ∧
  (tag ≠ ERL_FLOAT_EXT → ∀ o, ei_decode_double buf (DState i o) = Some (Go (-1), DState i o)) ∧
  (tag ≠ ERL_PID_EXT → ∀ o, ei_decode_pid buf (DState i o) = Some (Go (-1), DState i o)) ∧
  (tag ≠ ERL_PORT_EXT → ∀ o, ei_decode_port buf (DState i o) = Some (Go (-1), DState i o)) ∧
  (tag ≠ ERL_REFERENCE_EXT → tag ≠ ERL_NEW_REFERENCE_EXT → ∀ o, ei_decode_ref buf (DState i o) = Some (Go (-1), DState i o)) ∧
  (tag ≠ ERL_NIL_EXT → tag ≠ ERL_LIST_EXT → ∀ o, ei_decode_list_header buf (DState i o) = Some (Go (-1), DState i o)) ∧
  (tag ≠ ERL_SMALL_TUPLE_EXT → tag ≠ ERL_LARGE_TUPLE_EXT →
     ∀ o, ei_decode_tuple_header buf (DState i o) = Some (Go (-1), DState i o)) ∧
  (tag ≠ ERL_STRING_EXT → tag ≠ ERL_LIST_EXT → tag ≠ ERL_NIL_EXT →
     ∀ o, ei_decode_string buf (DState i o) = Some (Go (-1), DState i o)) ∧
  (tag ≠ ERL_SMALL_BIG_EXT → tag ≠ ERL_LARGE_BIG_EXT → ∀ o, ei_decode_big buf (DState i o) = Some (Go (-1), DState i o)) ∧
  (tag ≠ ERL_SMALL_INTEGER_EXT → tag ≠ ERL_INTEGER_EXT → tag ≠ ERL_SMALL_BIG_EXT → tag ≠ ERL_LARGE_BIG_EXT → ∀ o,
     ei_decode_long buf (DState i o) = Some (Go (-1), DState i o) ∧
     ei_decode_ulong buf (DState i o) = Some (Go (-1), DState i o) ∧
     ei_decode_longlong buf (DState i o) = Some (Go (-1), DState i o) ∧
     ei_decode_ulonglong buf (DState i o) = Some (Go (-1), DState i o) ∧
     ei_decode_char buf (DState i o) = Some (Go (-1), DState i o)) ∧
  (tag ≠ ERL_STRING_EXT → tag ≠ ERL_LIST_EXT → ∀ o, ei_decode_intlist buf (DState i o) = Some (Go (-1), DState i o)) ∧
  (tag ≠ ERL_FUN_EXT → tag ≠ ERL_NEW_FUN_EXT → ∀ fuel o, ei_decode_fun fuel buf (DState i o) = Some (Go (-1), DState i o)) ∧
  (tag ≠ ERL_SMALL_TUPLE_EXT → tag ≠ ERL_LARGE_TUPLE_EXT → ∀ o, ei_decode_trace buf (DState i o) = Some (Go (-1), DState i o)) ∧
  (tag ≠ ERL_VERSION_MAGIC → ∀ o, ei_decode_version buf (DState i o) = Some (Go (-1), DState i (match o with Some _ => Some tag | None => None end)))) ∧
  (∀ (w neg : Z) (large : bool) (ds pre post : list Z) (o : option Z), w = 32 ∨ w = 64 → big_ext_ok large neg ds →
  zlen pre + zlen (big_ext large neg ds) ≤ INT_MAX →
  let v := if neg =? 0 then le_value ds else - le_value ds in
  let st' v := DState (zlen pre + zlen (big_ext large neg ds)) (match o with Some _ => Some v | None => None end) in
  decode_signed w (pre ++ big_ext large neg ds ++ post) (DState (zlen pre) o) =
    (if bool_decide (- 2 ^ (w - 1) ≤ v < 2 ^ (w - 1)) then Some (Go 0, st' v) else Some (Go (-1), DState (zlen pre) o)) ∧
  decode_unsigned w (pre ++ big_ext large neg ds ++ post) (DState (zlen pre) o) =
    (if bool_decide (neg = 0 ∧ le_value ds < 2 ^ w) then Some (Go 0, st' (le_value ds)) else Some (Go (-1), DState (zlen pre) o))).
Proof. split; [exact ei_decoders_reject_wrong_tag|exact ei_decode_bigs_exact]. Qed.

End Properties.

Section MoreProperties.
Context {cfg : EiConfig} {cf : CFloat} {ca : CAlloc} {cr : CRealloc}.

(** Every [ei_x_encode_*] and [ei_x_append*] call on well formed arguments appends exactly the encoding of its value
    to the contents of the buffer, growing the block as needed and keeping the invariant that the index lies inside
    a block of the recorded size; the only other outcome is -1, when [realloc] had no memory, and then the buffer is lost. *)
Lemma ei_x_encode_appends (k : x_call) (x : ei_x_buff) :
  x_call_ok k → x_ok x → x_buffsz x ≤ INT_MAX → x_index x + zlen (x_bytes k) + 2 * ei_x_extra ≤ INT_MAX →
  ∃ c x', x_run k x = Some (c, x') ∧
  ((c = 0 ∧ x_ok x' ∧ x_index x' = x_index x + zlen (x_bytes k) ∧ x_contents x' = x_contents x ++ x_bytes k ∧
    x_buffsz x' ≤ INT_MAX) ∨
   (c = -1 ∧ x_buff x' = None ∧ ∃ p sz, c_realloc p sz = None)).
Proof. apply x_run_spec. Qed.

(** A whole message: after [ei_x_new_with_version] and any sequence of calls, with memory available, the
    buffer holds the version byte followed by the encodings in order, and [ei_x_free] releases it once. *)
Lemma ei_x_message (ks : list x_call) :
  Forall x_call_ok ks → 1 + zlen (concat (map x_bytes ks)) + 2 * ei_x_extra ≤ INT_MAX →
  c_malloc ei_x_extra ≠ None → (∀ p sz, c_realloc p sz ≠ None) →
  ∃ x0 x, ei_x_new_with_version = Some (0, x0) ∧ x_run_all ks x0 = Some (0, x) ∧
    x_ok x ∧ x_contents x = ERL_VERSION_MAGIC :: concat (map x_bytes ks) ∧
    (ei_x_free x).1 = 0 ∧ (ei_x_free (ei_x_free x).2).1 = -1.
Proof.
  intros Hf Hmax Hm Hr. destruct (ei_x_new_ok Hm) as (x & Hx & Hok & Hi & Hsz & Hc).
  unfold ei_x_new_with_version. rewrite Hx. cbn. unfold ei_x_extra, INT_MAX in *.
  destruct (run_on_spec x ei_encode_version [ERL_VERSION_MAGIC] emits_version Hok) as (x0 & -> & Hok0 & Hi0 & Hc0 & Hs0).
  { cbn. lia. }
  { unfold INT_MAX. lia. }
  rewrite Hc in Hc0. cbn [app] in Hc0. cbn [length] in Hi0. exists x0.
  destruct (x_run_all_spec ks x0 Hf Hok0) as (x1 & -> & Hok1 & Hc1).
  - unfold INT_MAX. lia.
  - unfold ei_x_extra, INT_MAX. lia.
  - done.
  - exists x1. rewrite Hc1, Hc0. split; [done|]. split; [done|]. split; [done|]. split; [done|].
    destruct Hok1 as (b & Hb & _). unfold ei_x_free. rewrite Hb. done.
Qed.

(** C25: Every [ei_x_encode_*] and [ei_x_append*] call on well formed arguments appends exactly the encoding of its value
    to the contents of the buffer, growing the block as needed and keeping the invariant that the index lies inside a
    block of the recorded size; the only other outcome is -1, when [realloc] had no memory, and then the buffer is lost.
    A whole message: after [ei_x_new_with_version] and any sequence of calls, with memory available, the buffer holds the
    version byte followed by the encodings in order, and [ei_x_free] releases it once. *)
Theorem ei_x_buffers :
  (∀ (k : x_call) (x : ei_x_buff), x_call_ok k → x_ok x → x_buffsz x ≤ INT_MAX → x_index x + zlen (x_bytes k) + 2 * ei_x_extra ≤ INT_MAX →
  ∃ c x', x_run k x = Some (c, x') ∧
  ((c = 0 ∧ x_ok x' ∧ x_index x' = x_index x + zlen (x_bytes k) ∧ x_contents x' = x_contents x ++ x_bytes k ∧
    x_buffsz x' ≤ INT_MAX) ∨
   (c = -1 ∧ x_buff x' = None ∧ ∃ p sz, c_realloc p sz = None))) ∧
  (∀ (ks : list x_call), Forall x_call_ok ks → 1 + zlen (concat (map x_bytes ks)) + 2 * ei_x_extra ≤ INT_MAX →
  c_malloc ei_x_extra ≠ None → (∀ p sz, c_realloc p sz ≠ None) →
  ∃ x0 x, ei_x_new_with_version = Some (0, x0) ∧ x_run_all ks x0 = Some (0, x) ∧
    x_ok x ∧ x_contents x = ERL_VERSION_MAGIC :: concat (map x_bytes ks) ∧
    (ei_x_free x).1 = 0 ∧ (ei_x_free (ei_x_free x).2).1 = -1).
Proof. split; [exact ei_x_encode_appends|exact ei_x_message]. Qed.

(** One step of [ei_decode_ei_term] on an encoded integer (in the range of [ERL_INTEGER_EXT]), atom, pid or
    empty list returns 1, moves the index behind it and stores tag and value in the term. *)
Lemma ei_decode_ei_term_step (t : term) (o o' : ei_term) (pre post : list Z) :
  term_ok t → ei_term_room t o → ei_term_of t o = Some o' → zlen pre + zlen (term_bytes t) ≤ INT_MAX →
  ei_decode_ei_term (pre ++ term_bytes t ++ post) (DState (zlen pre) (Some o)) =
  Some (Go 1, DState (zlen pre + zlen (term_bytes t)) (Some o')).
Proof. intros Hok Hroom Hof Hmax. by apply ei_term_step. Qed.

(** [ei_big_comp] orders bignums as the integers they denote: negative, zero or positive as C comparison
    functions do, for normalised operands. *)
Lemma ei_big_comp_correct (x y : erlang_big) :
  big_normal x → big_normal y → (big_is_neg x ≠ 0 → big_is_neg y ≠ 0 → big_is_neg x = big_is_neg y) →
  ei_big_comp x y = Some (cmp_code (big_value x) (big_value y)).
Proof. apply ei_big_comp_spec. Qed.

(** [ei_small_to_big] represents a non-negative [int] by its value, but a negative one by a negative big whose
    magnitude is [2^32 + s] instead of [-s]: the digits are those of the two's complement pattern. *)
Lemma ei_small_to_big_value (s d0 d1 : Z) (b : erlang_big) :
  - 2 ^ 31 ≤ s < 2 ^ 31 → 3 ≤ big_arity b ≤ 4 → big_digits b = [d0; d1] →
  ∃ b', ei_small_to_big s b = Some (0, b') ∧ big_value b' = if s <? 0 then - (2 ^ 32 + s) else s.
Proof.
  intros Hs Ha Hd. destruct (ei_small_to_big_spec s b d0 d1 []) as (b' & Hb' & Hn & Hds & Hv); [done|unfold INT_MAX; lia|done|].
  exists b'. split; [done|]. unfold big_value. rewrite Hds in Hv |- *. cbn [take] in Hv. rewrite Hv, Hn.
  change (2 ^ 32) with 4294967296. change (2 ^ 31) with 2147483648 in Hs.
  destruct (Z.ltb_spec s 0); cbn [Z.eqb]; Z.div_mod_to_equations; lia.
Qed.

(** [ei_big_comp] orders bignums as the integers they denote: negative, zero or positive as C comparison functions do, for
    normalised operands.  [ei_small_to_big] represents a non-negative [int] by its value, but a negative one by a negative
    big whose magnitude is [2^32 + s] instead of [-s]: the digits are those of the two's complement pattern. *)
Lemma ei_big_values :
  (∀ x y : erlang_big, big_normal x → big_normal y → (big_is_neg x ≠ 0 → big_is_neg y ≠ 0 → big_is_neg x = big_is_neg y) →
    ei_big_comp x y = Some (cmp_code (big_value x) (big_value y))) ∧
  (∀ (s d0 d1 : Z) (b : erlang_big), - 2 ^ 31 ≤ s < 2 ^ 31 → 3 ≤ big_arity b ≤ 4 → big_digits b = [d0; d1] →
    ∃ b', ei_small_to_big s b = Some (0, b') ∧ big_value b' = if s <? 0 then - (2 ^ 32 + s) else s).
Proof. split; [apply ei_big_comp_correct|apply ei_small_to_big_value]. Qed.

(** One step of [ei_decode_ei_term] on an encoded integer (in the range of [ERL_INTEGER_EXT]), atom, pid or empty list
    returns 1, moves the index behind it and stores tag and value in the term.  [ei_big_comp] orders bignums as the
    integers they denote: negative, zero or positive as C comparison functions do, for normalised operands.
    [ei_small_to_big] represents a non-negative [int] by its value, but a negative one by a negative big whose magnitude
    is [2^32 + s] instead of [-s]: the digits are those of the two's complement pattern. *)
Lemma ei_terms_and_bigs :
  (∀ (t : term) (o o' : ei_term) (pre post : list Z), term_ok t → ei_term_room t o → ei_term_of t o = Some o' → zlen pre + zlen (term_bytes t) ≤ INT_MAX →
  ei_decode_ei_term (pre ++ term_bytes t ++ post) (DState (zlen pre) (Some o)) =
  Some (Go 1, DState (zlen pre + zlen (term_bytes t)) (Some o'))) ∧
  ((∀ x y : erlang_big, big_normal x → big_normal y → (big_is_neg x ≠ 0 → big_is_neg y ≠ 0 → big_is_neg x = big_is_neg y) →
    ei_big_comp x y = Some (cmp_code (big_value x) (big_value y))) ∧
  (∀ (s d0 d1 : Z) (b : erlang_big), - 2 ^ 31 ≤ s < 2 ^ 31 → 3 ≤ big_arity b ≤ 4 → big_digits b = [d0; d1] →
    ∃ b', ei_small_to_big s b = Some (0, b') ∧ big_value b' = if s <? 0 then - (2 ^ 32 + s) else s)).
Proof. split; [exact ei_decode_ei_term_step|exact ei_big_values]. Qed.

(** C40: Each [ei_decode_*] function that finds another tag than its own at the index returns -1 and changes neither the index
    nor its result ([ei_decode_version] stores the byte it found), whatever else the buffer holds.  The integer decoders,
    signed and unsigned, of 32 and 64 bits, accept exactly the bignums that fit, in the small and the large form: on any
    sign and digits, leading zeros included, the result is the value when it lies in the range of the C type, and otherwise
    -1 with index and result unchanged; the unsigned ones refuse any negative sign, in front of zero too.  One step of
    [ei_decode_ei_term] on an encoded integer (in the range of [ERL_INTEGER_EXT]), atom, pid or empty list returns 1, moves the
    index behind it and stores tag and value.  [ei_big_comp] orders normalised bignums as the integers they denote.
    [ei_small_to_big] represents a non-negative [int] by its value, but a negative one by a negative big of magnitude
    [2^32 + s] instead of [-s]. *)
Theorem ei_decoders_exact :
  ((∀ (buf : list Z) (i tag : Z), load buf i = Some tag → is_byte tag →
  (tag ≠ ERL_ATOM_EXT → ∀ o, ei_decode_atom buf (DState i o) = Some (Go (-1), DState i o)) ∧
  (tag ≠ ERL_ATOM_EXT → ∀ o, ei_decode_boolean buf (DState i o) = Some (Go (-1), DState i o)) ∧
  (tag ≠ ERL_BINARY_EXT → ∀ o, ei_decode_binary buf (DState i o) = Some (Go (-1), DState i o)) ∧
  (tag ≠ ERL_FLOAT_EXT → ∀ o, ei_decode_double buf (DState i o) = Some (Go (-1), DState i o)) ∧
  (tag ≠ ERL_PID_EXT → ∀ o, ei_decode_pid buf (DState i o) = Some (Go (-1), DState i o)) ∧
  (tag ≠ ERL_PORT_EXT → ∀ o, ei_decode_port buf (DState i o) = Some (Go (-1), DState i o)) ∧
  (tag ≠ ERL_REFERENCE_EXT → tag ≠ ERL_NEW_REFERENCE_EXT → ∀ o, ei_decode_ref buf (DState i o) = Some (Go (-1), DState i o)) ∧
  (tag ≠ ERL_NIL_EXT → tag ≠ ERL_LIST_EXT → ∀ o, ei_decode_list_header buf (DState i o) = Some (Go (-1), DState i o)) ∧
  (tag ≠ ERL_SMALL_TUPLE_EXT → tag ≠ ERL_LARGE_TUPLE_EXT →
     ∀ o, ei_decode_tuple_header buf (DState i o) = Some (Go (-1), DState i o)) ∧
  (tag ≠ ERL_STRING_EXT → tag ≠ ERL_LIST_EXT → tag ≠ ERL_NIL_EXT →
     ∀ o, ei_decode_string buf (DState i o) = Some (Go (-1), DState i o)) ∧
  (tag ≠ ERL_SMALL_BIG_EXT → tag ≠ ERL_LARGE_BIG_EXT → ∀ o, ei_decode_big buf (DState i o) = Some (Go (-1), DState i o)) ∧
  (tag ≠ ERL_SMALL_INTEGER_EXT → tag ≠ ERL_INTEGER_EXT → tag ≠ ERL_SMALL_BIG_EXT → tag ≠ ERL_LARGE_BIG_EXT → ∀ o,
     ei_decode_long buf (DState i o) = Some (Go (-1), DState i o) ∧
     ei_decode_ulong buf (DState i o) = Some (Go (-1), DState i o) ∧
     ei_decode_longlong buf (DState i o) = Some (Go (-1), DState i o) ∧
     ei_decode_ulonglong buf (DState i o) = Some (Go (-1), DState i o) ∧
     ei_decode_char buf (DState i o) = Some (Go (-1), DState i o)) ∧
  (tag ≠ ERL_STRING_EXT → tag ≠ ERL_LIST_EXT → ∀ o, ei_decode_intlist buf (DState i o) = Some (Go (-1), DState i o)) ∧
  (tag ≠ ERL_FUN_EXT → tag ≠ ERL_NEW_FUN_EXT → ∀ fuel o, ei_decode_fun fuel buf (DState i o) = Some (Go (-1), DState i o)) ∧
  (tag ≠ ERL_SMALL_TUPLE_EXT → tag ≠ ERL_LARGE_TUPLE_EXT → ∀ o, ei_decode_trace buf (DState i o) = Some (Go (-1), DState i o)) ∧
  (tag ≠ ERL_VERSION_MAGIC → ∀ o, ei_decode_version buf (DState i o) = Some (Go (-1), DState i (match o with Some _ => Some tag | None => None end)))) ∧
  (∀ (w neg : Z) (large : bool) (ds pre post : list Z) (o : option Z), w = 32 ∨ w = 64 → big_ext_ok large neg ds →
  zlen pre + zlen (big_ext large neg ds) ≤ INT_MAX →
  let v := if neg =? 0 then le_value ds else - le_value ds in
  let st' v := DState (zlen pre + zlen (big_ext large neg ds)) (match o with Some _ => Some v | None => None end) in
  decode_signed w (pre ++ big_ext large neg ds ++ post) (DState (zlen pre) o) =
    (if bool_decide (- 2 ^ (w - 1) ≤ v < 2 ^ (w - 1)) then Some (Go 0, st' v) else Some (Go (-1), DState (zlen pre) o)) ∧
  decode_unsigned w (pre ++ big_ext large neg ds ++ post) (DState (zlen pre) o) =
    (if bool_decide (neg = 0 ∧ le_value ds < 2 ^ w) then Some (Go 0, st' (le_value ds)) else Some (Go (-1), DState (zlen pre) o)))) ∧
  ((∀ (t : term) (o o' : ei_term) (pre post : list Z), term_ok t → ei_term_room t o → ei_term_of t o = Some o' → zlen pre + zlen (term_bytes t) ≤ INT_MAX →
  ei_decode_ei_term (pre ++ term_bytes t ++ post) (DState (zlen pre) (Some o)) =
  Some (Go 1, DState (zlen pre + zlen (term_bytes t)) (Some o'))) ∧
  ((∀ x y : erlang_big, big_normal x → big_normal y → (big_is_neg x ≠ 0 → big_is_neg y ≠ 0 → big_is_neg x = big_is_neg y) →
    ei_big_comp x y = Some (cmp_code (big_value x) (big_value y))) ∧
  (∀ (s d0 d1 : Z) (b : erlang_big), - 2 ^ 31 ≤ s < 2 ^ 31 → 3 ≤ big_arity b ≤ 4 → big_digits b = [d0; d1] →
    ∃ b', ei_small_to_big s b = Some (0, b') ∧ big_value b' = if s <? 0 then - (2 ^ 32 + s) else s))).
Proof. split; [exact ei_decoders_refuse|exact ei_terms_and_bigs]. Qed.

End MoreProperties.

(** * Instances *)
Module Instances.
Import Env.

(** The tuple [{ping, <0.40.1>, [1, -70000, 9223372036854775808 | "hi"]}]. *)
Definition a_term : term :=
  T_tuple [T_atom [112; 105; 110; 103]; T_pid a_pid; T_list [T_long 1; T_long (-70000); T_ulonglong (2 ^ 63)] (T_string [104; 105])].

Lemma a_term_ok : term_ok a_term.
Proof.
  repeat split; cbn; unfold is_long, is_byte, MAXATOMLEN, INT_MAX; try lia; try done.
  - exists 3. split; [reflexivity|lia].
  - repeat constructor; lia.
Qed.

Lemma a_name : name_ok (cstring node (replicate 252 0)).
Proof. exists 3. split; [reflexivity|lia]. Qed.

(** A fun of the new form, with the free variable 42, next to that tuple. *)
Definition new_fun := Fun 2 (cstring [109] (replicate 254 0)) (replicate 16 0) 3 0 9 1 a_pid 2 [97; 42].
Definition b_term : term := T_tuple [a_term; T_fun new_fun [T_long 42]].

Lemma b_term_ok : encodable b_term.
Proof.
  split; [vm_compute; congruence|]. split; [|split; [|done]].
  - repeat split; cbn; unfold is_long, is_byte, MAXATOMLEN, INT_MAX; try lia; try done; [exact a_name|repeat constructor; lia].
  - repeat split; try (vm_compute; congruence); try (vm_compute; by eauto); try exact a_name.
Qed.

Lemma ei_encode_term_exact_witness :
  encode_term b_term (EState None 2) = Some (Go 0, EState None (2 + 111)) ∧
  encode_term b_term (EState (Some (replicate 115 0)) 2) =
    Some (Go 0, EState (Some ([0; 0] ++ term_bytes b_term ++ [0; 0])) (2 + 111)).
Proof.
  exact (ei_encode_term_exact b_term (replicate 115 0) 2 b_term_ok ltac:(lia) ltac:(vm_compute; discriminate)
    ltac:(vm_compute; discriminate)).
Defined.

Lemma ei_skip_encoded_term_witness :
  ei_skip_term 4 ([9] ++ term_bytes a_term ++ [1; 2]) (DState 1 None) = Some (Go 0, DState 54 None) ∧
  ei_skip_term 4 ([9] ++ term_bytes (T_fun new_fun [T_long 42]) ++ [1; 2]) (DState 1 None) = Some (Go (-1), DState 1 None).
Proof.
  split.
  - exact (proj1 ei_skip_encoded_term _ a_term 4%nat [9] [1; 2] a_term_ok ltac:(vm_compute; lia) ltac:(vm_compute; discriminate)).
  - exact (proj2 ei_skip_encoded_term new_fun [T_long 42] 3%nat [9] [1; 2] ltac:(done) ltac:(vm_compute; discriminate)).
Defined.

Lemma ei_scalars_roundtrip_witness :
  (codec (ei_encode_longlong (-2 ^ 63)) ei_decode_longlong [110; 8; 1; 0; 0; 0; 0; 0; 0; 0; 128] 0 (-2 ^ 63) ∧
  codec (ei_encode_long_32 (-2 ^ 31)) ei_decode_long_32 [110; 4; 1; 0; 0; 0; 128] 0 (-2 ^ 31) ∧
  codec (ei_encode_ulong_32 4294967295) ei_decode_ulong_32 [110; 4; 0; 255; 255; 255; 255] 0 4294967295 ∧
  codec (ei_encode_ulonglong 300) ei_decode_ulonglong [98; 0; 0; 1; 44] 0 300) ∧
  (let p := Port (cstring node (replicate 252 0)) 5 1 in let r := Port block 0 0 in
  codec (ei_encode_pid a_pid) ei_decode_pid (pid_bytes a_pid) no_pid (pid_received a_pid no_pid) ∧
  codec (ei_encode_port p) ei_decode_port (port_bytes p) r (port_received p r) ∧
  codec (ei_encode_ref a_ref) ei_decode_ref (ref_bytes a_ref) no_ref (ref_received a_ref no_ref)).
Proof.
  split.
  - split; [|split; [|split]].
    + exact (proj1 ((proj1 ei_scalars_roundtrip) (-2 ^ 63) 0) ltac:(lia)).
    + exact (proj1 (proj2 ((proj1 ei_scalars_roundtrip) (-2 ^ 31) 0)) ltac:(lia)).
    + exact (proj1 (proj2 (proj2 ((proj1 ei_scalars_roundtrip) 4294967295 0))) ltac:(lia)).
    + exact (proj2 (proj2 (proj2 ((proj1 ei_scalars_roundtrip) 300 0))) ltac:(lia)).
  - exact (proj2 ei_scalars_roundtrip a_pid no_pid (Port (cstring node (replicate 252 0)) 5 1) (Port block 0 0) a_ref no_ref
      a_name ltac:(vm_compute; lia) a_name ltac:(vm_compute; lia)
      a_name ltac:(cbn; lia) ltac:(cbn; lia) ltac:(vm_compute; lia) eq_refl).
Defined.

Lemma a_big_ok : big_ok (Big 3 1 [513; 3]).
Proof.
  split; [unfold INT_MAX; cbn; lia|]. split; [reflexivity|]. intros [|[|i]] d [= <-]; cbn; lia.
Qed.

Definition a_fun := Fun (-1) (cstring [109] (replicate 254 0)) (replicate 16 0) 3 0 9 1 a_pid 2 [97; 42].
Definition no_fun := Fun 0 block (replicate 16 0) 0 0 0 0 no_pid 0 [].

Lemma a_fun_ok : term_ok (T_fun a_fun [T_long 42]).
Proof.
  repeat split; try (vm_compute; congruence); try (vm_compute; by eauto); try exact a_name.
Qed.

Lemma ei_compound_data_roundtrips_witness :
  ((codec (ei_encode_string_len [104; 105] 2) ei_decode_string [107; 0; 2; 104; 105] [7; 7; 7; 7] [104; 105; 0; 7] ∧
  codec (ei_encode_big (Big 3 1 [513; 3])) ei_decode_big [110; 3; 1; 1; 2; 3] (Big 3 0 [0; 0]) (Big 3 1 [513; 3])) ∧
  ((let p := Trace 5 6 a_pid 7 8 in let o := Trace 0 0 no_pid 0 0 in
   ∃ b', ei_encode_trace p (EState (Some (replicate 40 0)) 1) = Some (Go 0, EState (Some b') 27) ∧
     ei_decode_trace b' (DState 1 (Some o)) = Some (Go 0, DState 27 (Some (trace_received p o)))) ∧
  codec (ei_encode_fun a_fun) (ei_decode_fun 2) (fun_bytes a_fun) no_fun (fun_received a_fun no_fun))) ∧
  (codec (ei_encode_binary [1; 2] 2) ei_decode_binary [109; 0; 0; 0; 2; 1; 2] (Some [0; 0; 5], None) (Some [1; 2; 5], None) ∧
  codec (ei_encode_atom (replicate 300 97 ++ [0])) ei_decode_atom (atom_bytes (replicate 255 97)) block
    (put_name (replicate 255 97) block) ∧
  codec (ei_encode_boolean 7) ei_decode_boolean (atom_bytes str_true) 0 1 ∧
  codec (ei_encode_double true) ei_decode_double ([99; 49; 46; 48; 101; 43; 48; 48] ++ replicate 24 0) false true).
Proof.
  split.
  - split.
    + exact (proj1 (proj1 ei_compound_data_roundtrips) [104; 105] [7; 7; 7; 7] (Big 3 1 [513; 3]) (Big 3 0 [0; 0]) ltac:(repeat constructor; unfold is_byte; lia)
      ltac:(vm_compute; discriminate) ltac:(cbn; lia) a_big_ok eq_refl ltac:(cbn; lia)).
    + split; [refine (proj1 (proj2 (proj1 ei_compound_data_roundtrips) _) (Trace 5 6 a_pid 7 8) (Trace 0 0 no_pid 0 0) (replicate 40 0) 1 a_name _ _ _ _ _ _ _ _)
                |refine (proj2 (proj2 (proj1 ei_compound_data_roundtrips) _) a_fun no_fun [T_long 42] 2%nat a_fun_ok _ _)].
      1-4: vm_compute; split; congruence.
      * vm_compute. lia.
      * lia.
      * vm_compute. congruence.
      * vm_compute. congruence.
      * cbn. lia.
      * split; [vm_compute; lia|]. split; [vm_compute; lia|]. by eexists.
  - exact (proj2 ei_compound_data_roundtrips _ [1; 2] (Some [0; 0; 5]) None (replicate 300 97 ++ [0]) block 300 7 0 true false
    ltac:(vm_compute; congruence) ltac:(cbn; lia) ltac:(vm_compute; reflexivity) eq_refl).
Defined.

Definition a_xbuff := XBuff (Some (replicate 100 0)) 100 99.

Lemma ei_x_buffers_witness :
  (∃ c x', ei_x_encode_long a_xbuff 300 = Some (c, x') ∧
  ((c = 0 ∧ x_ok x' ∧ x_index x' = 104 ∧ x_contents x' = replicate 99 0 ++ [98; 0; 0; 1; 44] ∧ x_buffsz x' ≤ INT_MAX) ∨
   (c = -1 ∧ x_buff x' = None ∧ ∃ p sz, c_realloc p sz = None))) ∧
  (∃ x0 x, ei_x_new_with_version = Some (0, x0) ∧
    x_run_all [X_tuple_header 2; X_long (-1); X_atom_len [111; 107] 2] x0 = Some (0, x) ∧
    x_ok x ∧ x_contents x = 131 :: [104; 2; 98; 255; 255; 255; 255; 100; 0; 2; 111; 107] ∧
    (ei_x_free x).1 = 0 ∧ (ei_x_free (ei_x_free x).2).1 = -1).
Proof.
  split.
  - refine (proj1 ei_x_buffers (X_long 300) a_xbuff _ _ _ _).
    + vm_compute. split; congruence.
    + exists (replicate 100 0). vm_compute. repeat split; congruence.
    + vm_compute. congruence.
    + vm_compute. congruence.
  - refine (proj2 ei_x_buffers [X_tuple_header 2; X_long (-1); X_atom_len [111; 107] 2] _ _ _ _).
    + repeat constructor; vm_compute; congruence.
    + vm_compute. congruence.
    + done.
    + done.
Defined.

Definition no_term : ei_term := ETerm 0 0 0 0 false block no_pid (Port block 0 0) no_ref.

Lemma ei_decoders_exact_witness :
  ((ei_decode_pid [7; 100; 0; 0] (DState 1 None) = Some (Go (-1), DState 1 None)) ∧
  (ei_decode_longlong [110; 9; 0; 1; 0; 0; 0; 0; 0; 0; 0; 1] (DState 0 (Some 5)) = Some (Go (-1), DState 0 (Some 5)) ∧
   ei_decode_ulong_32 [111; 0; 0; 0; 5; 0; 1; 0; 0; 128; 0] (DState 0 (Some 5)) = Some (Go 0, DState 11 (Some 2147483649)))) ∧
  ((ei_decode_ei_term ([] ++ [98; 255; 254; 238; 144] ++ []) (DState 0 (Some no_term)) =
  Some (Go 1, DState 5 (Some (t_set_i_val (-70000) (t_set_type 98 no_term))))) ∧
  (ei_big_comp (Big 4 1 [5; 2]) (Big 2 1 [9]) = Some (-1) ∧
  ∃ b', ei_small_to_big (-1) (Big 4 0 [0; 0]) = Some (0, b') ∧ big_value b' = -4294967295)).
Proof.
  split.
  - split.
    + exact (proj1 (proj2 (proj2 (proj2 (proj2 ((proj1 (proj1 ei_decoders_exact)) [7; 100; 0; 0] 1 100 eq_refl
      ltac:(unfold is_byte; lia)))))) ltac:(vm_compute; congruence) None).
    + split.
      * refine (proj1 (proj2 (proj1 ei_decoders_exact) 64 0 false [1; 0; 0; 0; 0; 0; 0; 0; 1] [] [] (Some 5) ltac:(auto) _ ltac:(vm_compute; congruence))).
        split; [repeat constructor; unfold is_byte; lia|]. split; [unfold is_byte; lia|cbn; lia].
      * refine (proj2 (proj2 (proj1 ei_decoders_exact) 32 0 true [1; 0; 0; 128; 0] [] [] (Some 5) ltac:(auto) _ ltac:(vm_compute; congruence))).
        split; [repeat constructor; unfold is_byte; lia|]. split; [unfold is_byte; lia|vm_compute; congruence].
  - split.
    + refine (proj1 (proj2 ei_decoders_exact) (T_long (-70000)) no_term _ [] [] _ I eq_refl _).
      * vm_compute. split; congruence.
      * vm_compute. congruence.
    + split.
      * refine (proj1 (proj2 (proj2 ei_decoders_exact)) (Big 4 1 [5; 2]) (Big 2 1 [9]) _ _ _); [..|done].
        all: split; cbn; unfold INT_MAX; try done; repeat constructor; unfold is_digit; lia.
      * exact (proj2 (proj2 (proj2 ei_decoders_exact)) (-1) 0 0 (Big 4 0 [0; 0]) ltac:(lia) ltac:(cbn; lia) eq_refl).
Defined.

End Instances.
