(* ===== verification/Hash.v ===== *)
(** The generic hash table of the emulator: [erts/emulator/beam/hash.c].

    Objects are linked into chains through a [HashBucket] at their start; here an object is a pointer (a value of
    type [O]) and a chain is the list of its buckets, first one first.  What a user of the table supplies as
    [HashFunctions] is a class; the pointer that the [alloc] callback would return is an argument
    of the operation that may call it, and objects handed to the [free] callback are part of the result. *)

From Stdlib Require Import ZArith ZifyBool.
From stdpp Require Import base list numbers option gmap sorting.
From S2P Require Import Prelude.
Local Open Scope Z_scope.

(** The [hash] and [cmp] callbacks; templates and objects are both [void*]. *)
Class HashFunctions (O : Type) := { hf_hash : O → Z; hf_cmp : O → O → Z }.

(** What the table relies on: the callbacks look at a key only, [cmp] is 0 exactly on equal keys, and
    hash values are unsigned. *)
Class HashLaws (O K : Type) `{HashFunctions O, Countable K} := {
  okey : O → K;
  hf_cmp_key : ∀ a b, hf_cmp a b = 0 ↔ okey a = okey b;
  hf_hash_key : ∀ a b, okey a = okey b → hf_hash a = hf_hash b;
  hf_hash_pos : ∀ a, 0 ≤ hf_hash a }.

Definition h_size_table : list Z :=
  [2; 5; 11; 23; 47; 97; 197; 397; 797; 1201; 1597; 2411; 3203; 4813; 6421; 9643; 12853; 19289; 25717; 51437;
   102877; 205759; 411527; 823117; 1646237; 3292489; 6584983; 13169977; 26339969; 52679969; -1].

Section Hash.
Context {O : Type} `{HashFunctions O}.

Record HashBucket := HB { hb_obj : O; hb_hvalue : Z }.

Record Hash := MkHash {
  h_is_allocated : bool; h_name : list Z;
  h_size : Z; h_size20percent : Z; h_size80percent : Z; h_ix : Z; h_used : Z;
  h_bucket : list (list HashBucket) }.

Record HashInfo := MkInfo { hi_name : list Z; hi_size : Z; hi_used : Z; hi_objs : Z; hi_depth : Z }.

Implicit Types (h : Hash) (tmpl : O) (chain : list HashBucket).

Definition hash_get_info h : HashInfo :=
  let '(objects, max_depth) :=
    foldl (λ '(objects, max_depth) chain,
             let depth := zlen chain in
             (objects + depth, if depth >? max_depth then depth else max_depth)) (0, 0) (h_bucket h) in
  MkInfo (h_name h) (h_size h) (h_used h) objects max_depth.

(** The sizes of a [Hash] and of a pointer are arguments. *)
Definition hash_table_sz (sizeof_hash sizeof_ptr : Z) h : option Z :=
  i ← strlen (h_name h); Some (sizeof_hash + h_size h * sizeof_ptr + (i + 1)).

(** [while (h_size_table[ix] != -1 && h_size_table[ix] < size) ix++] *)
Fixpoint find_size (t : list Z) (size ix : Z) : option (Z * Z) :=
  match t with
  | [] => None
  | s :: t' => if negb (s =? -1) && (s <? size) then find_size t' size (ix + 1) else Some (ix, s)
  end.

(** [None] is the panic of [erl_exit]. *)
Definition hash_init (name : list Z) (size : Z) : option Hash :=
  '(ix, size) ← find_size h_size_table size 0;
  if size =? -1 then None
  else Some (MkHash false name size (size `quot` 5) ((4 * size) `quot` 5) ix 0 (replicate (Z.to_nat size) [])).

Definition hash_new (name : list Z) (size : Z) : option Hash :=
  h ← hash_init name size;
  Some (MkHash true (h_name h) (h_size h) (h_size20percent h) (h_size80percent h) (h_ix h) (h_used h) (h_bucket h)).

(** The objects handed to the [free] callback, in order. *)
Definition hash_delete h : list O := map hb_obj (concat (h_bucket h)).

(** [if (bucket[ix] == NULL) used++; b->next = bucket[ix]; bucket[ix] = b] with [ix = b->hvalue % size]. *)
Definition link_entry (size : Z) (b : HashBucket) (bucket : list (list HashBucket)) (used : Z) :
    option (list (list HashBucket) * Z) :=
  let ix := Z.to_nat (hb_hvalue b `mod` size) in
  chain ← bucket !! ix;
  Some (<[ix := b :: chain]> bucket, match chain with [] => used + 1 | _ => used end).

(** The double loop of [rehash] over the old chains. *)
Fixpoint rehash_all (size : Z) (bs : list HashBucket) (new_bucket : list (list HashBucket)) (used : Z) :
    option (list (list HashBucket) * Z) :=
  match bs with
  | [] => Some (new_bucket, used)
  | b :: bs' => '(nb, u) ← link_entry size b new_bucket used; rehash_all size bs' nb u
  end.

(** The part of [rehash] behind the choice of the new size index. *)
Definition rehash_to (ix : Z) h : option Hash :=
  size ← load h_size_table ix;
  '(nb, u) ← rehash_all size (concat (h_bucket h)) (replicate (Z.to_nat size) []) 0;
  Some (MkHash (h_is_allocated h) (h_name h) size (size `quot` 5) ((4 * size) `quot` 5) ix u nb).

Definition rehash h (grow : bool) : option Hash :=
  if grow then
    s ← load h_size_table (h_ix h + 1);
    if s =? -1 then Some h else rehash_to (h_ix h + 1) h
  else if h_ix h =? 0 then Some h else rehash_to (h_ix h - 1) h.

(** The search loops: [while (b != 0) { if (b->hvalue == hval && cmp(tmpl, b) == 0) return b; b = b->next; }] *)
Fixpoint find_in tmpl (hval : Z) chain : option O :=
  match chain with
  | [] => None
  | b :: chain' => if (hb_hvalue b =? hval) && (hf_cmp tmpl (hb_obj b) =? 0) then Some (hb_obj b) else find_in tmpl hval chain'
  end.

Definition hash_get h tmpl : option (option O) :=
  let hval := hf_hash tmpl in
  chain ← h_bucket h !! Z.to_nat (hval `mod` h_size h);
  Some (find_in tmpl hval chain).

Definition set_buckets h (bucket : list (list HashBucket)) (used : Z) : Hash :=
  MkHash (h_is_allocated h) (h_name h) (h_size h) (h_size20percent h) (h_size80percent h) (h_ix h) used bucket.

(** [b] is linked in, and the table grown when more than 80% of the slots are used. *)
Definition add_entry h (b : HashBucket) : option Hash :=
  '(bucket, used) ← link_entry (h_size h) b (h_bucket h) (h_used h);
  let h' := set_buckets h bucket used in
  if h_used h' >? h_size80percent h' then rehash h' true else Some h'.

(** [newobj] is the result of the [alloc] callback. *)
Definition hash_put h tmpl (newobj : O) : option (O * Hash) :=
  let hval := hf_hash tmpl in
  chain ← h_bucket h !! Z.to_nat (hval `mod` h_size h);
  match find_in tmpl hval chain with
  | Some b => Some (b, h)
  | None => h' ← add_entry h (HB newobj hval); Some (newobj, h')
  end.

(** [None] is [abort()]: an entry with the same key was there already. *)
Definition hash_insert_entry h (entry : HashBucket) : option Hash :=
  let hval := hb_hvalue entry in
  chain ← h_bucket h !! Z.to_nat (hval `mod` h_size h);
  match find_in (hb_obj entry) hval chain with
  | Some _ => None
  | None => add_entry h entry
  end.

Fixpoint insert_entries h (bs : list HashBucket) : option Hash :=
  match bs with
  | [] => Some h
  | b :: bs' => h' ← hash_insert_entry h b; insert_entries h' bs'
  end.

(** The new [src] and [dst]. *)
Definition erts_hash_merge (src dst : Hash) : option (Hash * Hash) :=
  dst' ← insert_entries dst (concat (h_bucket src));
  Some (set_buckets src (replicate (length (h_bucket src)) []) 0, dst').

(** The [prev]/[next] loop: the first match is unlinked. *)
Fixpoint unlink tmpl (hval : Z) chain : option (O * list HashBucket) :=
  match chain with
  | [] => None
  | b :: chain' =>
      if (hb_hvalue b =? hval) && (hf_cmp tmpl (hb_obj b) =? 0) then Some (hb_obj b, chain')
      else '(o, c) ← unlink tmpl hval chain'; Some (o, b :: c)
  end.

(** [hash_remove] returns the removed object, if any. *)
Definition hash_remove h tmpl : option (option O * Hash) :=
  let hval := hf_hash tmpl in
  let ix := Z.to_nat (hval `mod` h_size h) in
  chain ← h_bucket h !! ix;
  match unlink tmpl hval chain with
  | None => Some (None, h)
  | Some (o, chain') =>
      let used := match chain' with [] => h_used h - 1 | _ => h_used h end in
      let h' := set_buckets h (<[ix := chain']> (h_bucket h)) used in
      h'' ← (if h_used h' <? h_size20percent h' then rehash h' false else Some h');
      Some (Some o, h'')
  end.

(** [hash_erase] returns the template instead; the removed object goes to the [free] callback. *)
Definition hash_erase h tmpl : option (option O * option O * Hash) :=
  '(removed, h') ← hash_remove h tmpl;
  Some (match removed with Some _ => Some tmpl | None => None end, removed, h').

(** The calls of [func], in order. *)
Definition hash_foreach {S} h (func : O → S → S) (s : S) : S :=
  foldl (λ s b, func (hb_obj b) s) s (concat (h_bucket h)).

End Hash.

Arguments HashBucket : clear implicits.
Arguments Hash : clear implicits.
