(* ===== verification/HashSpec.v ===== *)
(** The hash table implements a finite map from keys to objects: invariant, the effect of every operation on
    the map, and refinement of sequences of operations. *)

From Stdlib Require Import ZArith ZifyBool.
From stdpp Require Import base list numbers option gmap sorting.
From S2P Require Import Prelude Hash.
Local Open Scope Z_scope.

(** * Chains and slots *)
Section Buckets.
Context {O : Type}.
Implicit Types (nb : list (list (HashBucket O))) (es c : list (HashBucket O)) (b : HashBucket O).

(** The number of slots with a chain. *)
Definition nonempty c : Z := match c with [] => 0 | _ => 1 end.
Definition used_count nb : Z := foldr (λ c n, nonempty c + n) 0 nb.

(** [nb] is a table of [size] slots that holds exactly [es], each where its hash value says, [used] slots of it
    non-empty. *)
Record buckets_ok (size : Z) nb (used : Z) es : Prop := {
  bo_length : length nb = Z.to_nat size;
  bo_placed : ∀ i c, nb !! i = Some c → Forall (λ b, hb_hvalue b `mod` size = Z.of_nat i) c;
  bo_used : used = used_count nb;
  bo_entries : concat nb ≡ₚ es }.

Lemma used_count_insert nb i c c' :
  nb !! i = Some c →
  used_count (<[i := c']> nb) = used_count nb - nonempty c + nonempty c'.
Proof.
  revert i. induction nb as [|x nb IH]; intros [|i] Hi; try discriminate Hi.
  - injection Hi as ->. cbn. fold (used_count nb). lia.
  - change (nonempty x + used_count (<[i := c']> nb) = nonempty x + used_count nb - nonempty c + nonempty c').
    rewrite (IH i Hi). lia.
Qed.

Lemma concat_insert nb i c :
  nb !! i = Some c → ∃ rest, concat nb ≡ₚ c ++ rest ∧ ∀ c', concat (<[i := c']> nb) ≡ₚ c' ++ rest.
Proof.
  intros Hi. exists (concat (take i nb) ++ concat (drop (S i) nb)).
  assert (∀ c', <[i := c']> nb = take i nb ++ c' :: drop (S i) nb) as Hs.
  { intros c'. apply insert_take_drop, lookup_lt_is_Some_1. eauto. }
  assert (∀ c', concat (<[i := c']> nb) ≡ₚ c' ++ concat (take i nb) ++ concat (drop (S i) nb)) as Hc.
  { intros c'. rewrite Hs, concat_app. cbn [concat]. rewrite !app_assoc. by rewrite (Permutation_app_comm (concat (take i nb))). }
  split; [|exact Hc]. rewrite <- Hc. by rewrite list_insert_id.
Qed.

Lemma slot_lt size b : 0 < size → (Z.to_nat (hb_hvalue b `mod` size) < Z.to_nat size)%nat.
Proof. intros Hs. pose proof (Z.mod_pos_bound (hb_hvalue b) size Hs). lia. Qed.

(** Replacing one chain by another with the same hash values. *)
Lemma buckets_replace size nb used es i c c' rest :
  0 < size → buckets_ok size nb used es → nb !! i = Some c →
  Forall (λ b, hb_hvalue b `mod` size = Z.of_nat i) c' → concat nb ≡ₚ c ++ rest →
  buckets_ok size (<[i := c']> nb)
    (used - nonempty c + nonempty c') (c' ++ rest).
Proof.
  intros Hs [Hl Hp Hu He] Hi Hc' Hr. split.
  - by rewrite length_insert.
  - intros j d Hj. destruct (decide (i = j)) as [->|Hne].
    + rewrite list_lookup_insert_eq in Hj by (by eapply lookup_lt_Some). injection Hj as <-. done.
    + rewrite list_lookup_insert_ne in Hj by done. by apply Hp.
  - rewrite (used_count_insert nb i c) by done. by rewrite Hu.
  - destruct (concat_insert nb i c Hi) as (r & H1 & H2). rewrite H2. apply Permutation_app_head.
    eapply Permutation_app_inv_l. by rewrite <- H1, Hr.
Qed.

Lemma link_entry_ok size b nb used es :
  0 < size → buckets_ok size nb used es →
  ∃ nb' used', link_entry size b nb used = Some (nb', used') ∧ buckets_ok size nb' used' (b :: es).
Proof.
  intros Hs Hok. pose proof Hok as [Hl Hp Hu He]. unfold link_entry.
  set (ix := Z.to_nat (hb_hvalue b `mod` size)).
  assert (is_Some (nb !! ix)) as [c Hc] by (apply lookup_lt_is_Some; rewrite Hl; by apply slot_lt).
  rewrite Hc. cbn [mbind option_bind]. do 2 eexists. split; [done|].
  destruct (concat_insert nb ix c Hc) as (rest & Hr & _).
  assert (Forall (λ b, hb_hvalue b `mod` size = Z.of_nat ix) (b :: c)) as Hbc.
  { constructor; [|by apply Hp]. unfold ix. pose proof (Z.mod_pos_bound (hb_hvalue b) size Hs). lia. }
  destruct (buckets_replace size nb used es ix c (b :: c) rest Hs Hok Hc Hbc Hr) as [H1 H2 H3 H4].
  split; [done|done| |].
  - rewrite <- H3. destruct c; cbn [nonempty]; lia.
  - rewrite H4. cbn [app]. by rewrite <- Hr, He.
Qed.

Lemma buckets_empty size : buckets_ok size (replicate (Z.to_nat size) []) 0 [].
Proof.
  split.
  - apply length_replicate.
  - intros i c [-> _]%lookup_replicate. constructor.
  - induction (Z.to_nat size); [done|]. by cbn.
  - induction (Z.to_nat size); [done|]. by cbn.
Qed.

Lemma rehash_all_ok size bs nb used es :
  0 < size → buckets_ok size nb used es →
  ∃ nb' used', rehash_all size bs nb used = Some (nb', used') ∧ buckets_ok size nb' used' (bs ++ es).
Proof.
  intros Hs. revert nb used es. induction bs as [|b bs IH]; intros nb used es Hok; [by do 2 eexists|].
  destruct (link_entry_ok size b nb used es Hs Hok) as (nb1 & u1 & He & Hok1). cbn [rehash_all]. rewrite He.
  cbn [mbind option_bind]. destruct (IH nb1 u1 _ Hok1) as (nb2 & u2 & -> & Hok2). do 2 eexists. split; [done|].
  destruct Hok2 as [H1 H2 H3 H4]. split; try done. rewrite H4. cbn [app]. by rewrite Permutation_middle.
Qed.

End Buckets.

(** * The table *)
Section Spec.
Context {O K : Type} `{HashLaws O K}.
Implicit Types (h : Hash O) (tmpl o : O).

(** The objects in the table, and the map they form. *)
Definition objs h : list O := map hb_obj (concat (h_bucket h)).
Definition obj_map (os : list O) : gmap K O := list_to_map (map (λ o, (okey o, o)) os).
Definition table_map h : gmap K O := obj_map (objs h).

Definition entry_ok (b : HashBucket O) : Prop := hb_hvalue b = hf_hash (hb_obj b).

Record hash_ok h : Prop := {
  ho_size : load h_size_table (h_ix h) = Some (h_size h) ∧ 0 < h_size h;
  ho_20 : h_size20percent h = h_size h `quot` 5;
  ho_80 : h_size80percent h = (4 * h_size h) `quot` 5;
  ho_buckets : buckets_ok (h_size h) (h_bucket h) (h_used h) (concat (h_bucket h));
  ho_entries : Forall entry_ok (concat (h_bucket h));
  ho_nodup : NoDup (map okey (objs h)) }.

Lemma size_table_pos ix s : load h_size_table ix = Some s → s = -1 ∧ ix = 30 ∨ 0 < s ∧ 0 ≤ ix < 30.
Proof.
  intros Hl. assert (0 ≤ ix) as Hix by (unfold load in Hl; case_bool_decide; [done|discriminate]).
  unfold load in Hl. rewrite bool_decide_eq_true_2 in Hl by done.
  pose proof (lookup_lt_Some _ _ _ Hl) as Hlt. cbn [h_size_table length] in Hlt.
  assert (∀ n : nat, (n < 31)%nat → h_size_table !! n = Some s → s = -1 ∧ n = 30%nat ∨ 0 < s ∧ (n < 30)%nat) as Hn.
  { clear. intros n Hn Hs. do 30 (destruct n as [|n]; [injection Hs as <-; lia|]). destruct n; [|lia].
    injection Hs as <-. by left. }
  destruct (Hn _ Hlt Hl) as [[-> Hi]|[Hp Hi]]; [left|right]; lia.
Qed.

(** Building an invariant from buckets that hold the entries [es]. *)
Lemma hash_ok_intro h es :
  load h_size_table (h_ix h) = Some (h_size h) → 0 < h_size h →
  h_size20percent h = h_size h `quot` 5 → h_size80percent h = (4 * h_size h) `quot` 5 →
  buckets_ok (h_size h) (h_bucket h) (h_used h) es → Forall entry_ok es → NoDup (map okey (map hb_obj es)) →
  hash_ok h ∧ objs h ≡ₚ map hb_obj es.
Proof.
  intros Hl Hs H20 H80 [B1 B2 B3 B4] He Hn. assert (objs h ≡ₚ map hb_obj es) as Ho by (unfold objs; by rewrite B4).
  split; [|done]. split; try done.
  - by rewrite B4.
  - by rewrite Ho.
Qed.

Lemma rehash_ok h g es :
  load h_size_table (h_ix h) = Some (h_size h) → 0 < h_size h →
  h_size20percent h = h_size h `quot` 5 → h_size80percent h = (4 * h_size h) `quot` 5 →
  buckets_ok (h_size h) (h_bucket h) (h_used h) es → Forall entry_ok es → NoDup (map okey (map hb_obj es)) →
  ∃ h', rehash h g = Some h' ∧ hash_ok h' ∧ objs h' ≡ₚ map hb_obj es.
Proof.
  intros Hl Hs H20 H80 Hb He Hn.
  assert (∃ h', Some h = Some h' ∧ hash_ok h' ∧ objs h' ≡ₚ map hb_obj es) as Hsame.
  { exists h. split; [done|]. by apply hash_ok_intro. }
  assert (∀ ix s, load h_size_table ix = Some s → 0 < s →
    ∃ h', rehash_to ix h = Some h' ∧ hash_ok h' ∧ objs h' ≡ₚ map hb_obj es) as Hto.
  { intros ix s Hix Hpos. unfold rehash_to. rewrite Hix. cbn [mbind option_bind].
    destruct (rehash_all_ok s (concat (h_bucket h)) _ 0 [] Hpos (buckets_empty s)) as (nb & u & -> & Hok).
    cbn [mbind option_bind]. eexists. split; [done|]. apply hash_ok_intro; try done. cbn.
    destruct Hok as [B1 B2 B3 B4]. split; try done. rewrite B4, app_nil_r. by destruct Hb. }
  pose proof (size_table_pos _ _ Hl) as [[Hneg _]|[_ Hi]]; [lia|]. unfold rehash. destruct g.
  - destruct (load_lt h_size_table (h_ix h + 1)) as (s & Hs' & _); [cbn; lia|]. rewrite Hs'. cbn [mbind option_bind].
    destruct (Z.eqb_spec s (-1)); [done|]. eapply Hto; [done|]. destruct (size_table_pos _ _ Hs') as [[]|[]]; lia.
  - destruct (Z.eqb_spec (h_ix h) 0); [done|].
    destruct (load_lt h_size_table (h_ix h - 1)) as (s & Hs' & _); [cbn; lia|]. eapply Hto; [done|].
    destruct (size_table_pos _ _ Hs') as [[]|[]]; lia.
Qed.

(** The chain a template's key must be in. *)
Lemma chain_exists h tmpl : hash_ok h → ∃ c, h_bucket h !! Z.to_nat (hf_hash tmpl `mod` h_size h) = Some c.
Proof.
  intros Hok. destruct (ho_size h Hok) as [_ Hs]. apply lookup_lt_is_Some. rewrite (bo_length _ _ _ _ (ho_buckets h Hok)).
  apply (slot_lt (h_size h) (HB tmpl (hf_hash tmpl)) Hs).
Qed.

Lemma same_chain h tmpl o c : hash_ok h → h_bucket h !! Z.to_nat (hf_hash tmpl `mod` h_size h) = Some c →
  o ∈ objs h → okey o = okey tmpl → o ∈ map hb_obj c.
Proof.
  intros Hok Hc Ho Hk. unfold objs in Ho. apply list_elem_of_fmap in Ho as (b & -> & Hb).
  destruct Hok as [[_ Hs] _ _ [B1 B2 B3 B4] He _]. rewrite Forall_forall in He.
  pose proof (He b Hb) as Hv. apply list_elem_of_In, in_concat in Hb as (d & Hd & Hb).
  apply list_elem_of_In in Hd. apply list_elem_of_lookup in Hd as [i Hi]. specialize (B2 i d Hi).
  rewrite Forall_forall in B2. apply list_elem_of_In in Hb. specialize (B2 b Hb). unfold entry_ok in Hv.
  rewrite Hv, (hf_hash_key _ _ Hk) in B2. rewrite B2, Nat2Z.id, Hi in Hc. injection Hc as <-.
  apply list_elem_of_fmap. by exists b.
Qed.

Lemma find_in_spec tmpl c : Forall entry_ok c →
  match find_in tmpl (hf_hash tmpl) c with
  | Some o => o ∈ map hb_obj c ∧ okey o = okey tmpl
  | None => ∀ o, o ∈ map hb_obj c → okey o ≠ okey tmpl
  end.
Proof.
  induction 1 as [|b c Hb Hc IH]; [intros o Ho; by apply elem_of_nil in Ho|]. cbn [find_in map].
  destruct (_ && _) eqn:E.
  - apply andb_true_iff in E as [_ E%Z.eqb_eq%hf_cmp_key]. split; [left|done].
  - destruct (find_in _ _ _) as [o|]; [destruct IH; split; [by right|done]|].
    intros o [->|Ho]%elem_of_cons; [|by apply IH]. intros Hk. apply andb_false_iff in E as [E|E]; apply Z.eqb_neq in E.
    + apply E. rewrite Hb. by apply hf_hash_key.
    + apply E. by apply hf_cmp_key.
Qed.


(** ** The map *)
Lemma obj_map_keys os : (map (λ o, (okey o, o)) os).*1 = map okey os.
Proof. induction os as [|o os IH]; [done|]. cbn. by f_equal. Qed.

Lemma obj_map_lookup os k o : NoDup (map okey os) → obj_map os !! k = Some o ↔ o ∈ os ∧ okey o = k.
Proof.
  intros Hn. unfold obj_map. rewrite <- elem_of_list_to_map by (by rewrite obj_map_keys). rewrite list_elem_of_fmap.
  split; [intros (o' & Ho' & Ho); by injection Ho' as -> ->|]. intros [Ho <-]. by exists o.
Qed.

Lemma obj_map_perm os os' : NoDup (map okey os) → os ≡ₚ os' → obj_map os = obj_map os'.
Proof.
  intros Hn Hp. apply list_to_map_proper; [by rewrite obj_map_keys|]. by rewrite Hp.
Qed.

Lemma obj_map_cons o os : obj_map (o :: os) = <[okey o := o]> (obj_map os).
Proof. done. Qed.

Lemma table_map_lookup h k o : hash_ok h → table_map h !! k = Some o ↔ o ∈ objs h ∧ okey o = k.
Proof. intros Hok. by apply obj_map_lookup, ho_nodup. Qed.

Lemma chain_entries h i c : hash_ok h → h_bucket h !! i = Some c → Forall entry_ok c.
Proof.
  intros Hok Hc. destruct (concat_insert _ _ _ Hc) as (rest & Hr & _). pose proof (ho_entries h Hok) as He.
  rewrite Hr, Forall_app in He. apply He.
Qed.

Lemma chain_objs h i c o : h_bucket h !! i = Some c → o ∈ map hb_obj c → o ∈ objs h.
Proof.
  intros Hc Ho. destruct (concat_insert _ _ _ Hc) as (rest & Hr & _). unfold objs. rewrite Hr, map_app. apply elem_of_app. by left.
Qed.

(** Searching the chain decides membership in the table. *)
Lemma find_in_table h tmpl c : hash_ok h → h_bucket h !! Z.to_nat (hf_hash tmpl `mod` h_size h) = Some c →
  find_in tmpl (hf_hash tmpl) c = table_map h !! okey tmpl.
Proof.
  intros Hok Hc. pose proof (find_in_spec tmpl c (chain_entries h _ c Hok Hc)) as Hf.
  destruct (find_in tmpl (hf_hash tmpl) c) as [o|].
  - destruct Hf as [Ho Hk]. symmetry. apply table_map_lookup; [done|]. split; [by eapply chain_objs|done].
  - symmetry. apply eq_None_not_Some. intros [o Ho]. apply table_map_lookup in Ho as [Ho Hk]; [|done].
    by apply (Hf o); [eapply same_chain|].
Qed.

Lemma hash_get_spec h tmpl : hash_ok h → hash_get h tmpl = Some (table_map h !! okey tmpl).
Proof.
  intros Hok. destruct (chain_exists h tmpl Hok) as [c Hc]. unfold hash_get. rewrite Hc. cbn [mbind option_bind].
  by rewrite (find_in_table h).
Qed.

Lemma table_map_None h k : hash_ok h → table_map h !! k = None → k ∉ map okey (objs h).
Proof.
  intros Hok Hn Hin. apply list_elem_of_fmap in Hin as (o & -> & Ho).
  assert (table_map h !! okey o = Some o) by (by apply table_map_lookup). congruence.
Qed.

Lemma add_entry_ok h b : hash_ok h → entry_ok b → okey (hb_obj b) ∉ map okey (objs h) →
  ∃ h', add_entry h b = Some h' ∧ hash_ok h' ∧ objs h' ≡ₚ hb_obj b :: objs h.
Proof.
  intros [[Hl Hs] H20 H80 Hb He Hn] Heb Hk. unfold add_entry.
  destruct (link_entry_ok (h_size h) b _ _ _ Hs Hb) as (nb & u & -> & Hb'). cbn [mbind option_bind].
  assert (NoDup (map okey (map hb_obj (b :: concat (h_bucket h))))) as Hn' by (by constructor).
  assert (Forall entry_ok (b :: concat (h_bucket h))) as He' by (by constructor).
  destruct (_ >? _).
  - by apply (rehash_ok (set_buckets h nb u) true (b :: concat (h_bucket h))).
  - exists (set_buckets h nb u). split; [done|]. by apply (hash_ok_intro _ (b :: concat (h_bucket h))).
Qed.

Lemma table_map_add h h' o : hash_ok h → hash_ok h' → objs h' ≡ₚ o :: objs h →
  table_map h' = <[okey o := o]> (table_map h).
Proof.
  intros Hok Hok' Hp. unfold table_map. rewrite (obj_map_perm _ (o :: objs h)); [done|by apply ho_nodup|done].
Qed.

Lemma hash_put_spec h tmpl newobj : hash_ok h → okey newobj = okey tmpl →
  match table_map h !! okey tmpl with
  | Some o => hash_put h tmpl newobj = Some (o, h)
  | None => ∃ h', hash_put h tmpl newobj = Some (newobj, h') ∧ hash_ok h' ∧
      objs h' ≡ₚ newobj :: objs h ∧ table_map h' = <[okey tmpl := newobj]> (table_map h)
  end.
Proof.
  intros Hok Hk. destruct (chain_exists h tmpl Hok) as [c Hc]. unfold hash_put. rewrite Hc. cbn [mbind option_bind].
  rewrite (find_in_table h) by done. destruct (table_map h !! okey tmpl) as [o|] eqn:E; [done|].
  destruct (add_entry_ok h (HB newobj (hf_hash tmpl)) Hok) as (h' & -> & Hok' & Hp).
  - unfold entry_ok. cbn. by apply hf_hash_key.
  - cbn. rewrite Hk. by apply table_map_None.
  - exists h'. cbn in *. rewrite <- Hk. auto using table_map_add.
Qed.

Lemma hash_insert_entry_spec h b : hash_ok h → entry_ok b →
  match table_map h !! okey (hb_obj b) with
  | Some _ => hash_insert_entry h b = None
  | None => ∃ h', hash_insert_entry h b = Some h' ∧ hash_ok h' ∧ objs h' ≡ₚ hb_obj b :: objs h
  end.
Proof.
  intros Hok Hb. destruct (chain_exists h (hb_obj b) Hok) as [c Hc]. unfold hash_insert_entry. rewrite Hb, Hc.
  cbn [mbind option_bind]. rewrite (find_in_table h) by done.
  destruct (table_map h !! okey (hb_obj b)) eqn:E; [done|]. apply add_entry_ok; [done|done|by apply table_map_None].
Qed.

Lemma insert_entries_spec bs h : hash_ok h → Forall entry_ok bs → NoDup (map okey (map hb_obj bs ++ objs h)) →
  ∃ h', insert_entries h bs = Some h' ∧ hash_ok h' ∧ objs h' ≡ₚ map hb_obj bs ++ objs h.
Proof.
  revert h. induction bs as [|b bs IH]; intros h Hok Hbs Hn; [by exists h|].
  inversion Hbs as [|? ? Hb Hbs']; subst. cbn [map app] in Hn. apply NoDup_cons in Hn as [Hnb Hn].
  pose proof (hash_insert_entry_spec h b Hok Hb) as Hi.
  destruct (table_map h !! okey (hb_obj b)) as [o|] eqn:E.
  { destruct Hnb. apply table_map_lookup in E as [Ho Hk]; [|done]. rewrite map_app, <- Hk. apply elem_of_app. right.
    by apply list_elem_of_fmap_2. }
  destruct Hi as (h1 & Hi & Hok1 & Hp1). cbn [insert_entries]. rewrite Hi. cbn [mbind option_bind].
  destruct (IH h1 Hok1 Hbs') as (h2 & -> & Hok2 & Hp2).
  - rewrite Hp1, map_app. cbn [map]. rewrite <- Permutation_middle, <- map_app. by constructor.
  - exists h2. split; [done|]. split; [done|]. rewrite Hp2, Hp1. cbn [map app]. by rewrite Permutation_middle.
Qed.

Lemma unlink_spec tmpl hval (c : list (HashBucket O)) :
  match unlink tmpl hval c with
  | Some (o, c') => find_in tmpl hval c = Some o ∧ ∃ b, hb_obj b = o ∧ c ≡ₚ b :: c' ∧ ∀ P, Forall P c → Forall P c'
  | None => find_in tmpl hval c = None
  end.
Proof.
  induction c as [|b c IH]; [done|]. cbn [unlink find_in]. destruct (_ && _).
  - split; [done|]. exists b. split; [done|]. split; [done|]. intros P HP. by inversion HP.
  - destruct (unlink tmpl hval c) as [[o c']|]; cbn [mbind option_bind]; [|done].
    destruct IH as (Hf & x & Hx & Hp & HP). split; [done|]. exists x. split; [done|]. split.
    + rewrite Hp. by apply Permutation_swap.
    + intros P HPc. inversion HPc; subst. constructor; auto.
Qed.

Lemma hash_remove_spec h tmpl : hash_ok h →
  ∃ h', hash_remove h tmpl = Some (table_map h !! okey tmpl, h') ∧ hash_ok h' ∧
    table_map h' = delete (okey tmpl) (table_map h) ∧
    (∀ o, table_map h !! okey tmpl = Some o → objs h ≡ₚ o :: objs h').
Proof.
  intros Hok. destruct (chain_exists h tmpl Hok) as [c Hc]. unfold hash_remove. rewrite Hc. cbn [mbind option_bind].
  pose proof (unlink_spec tmpl (hf_hash tmpl) c) as Hu. rewrite (find_in_table h) in Hu by done.
  destruct (unlink tmpl (hf_hash tmpl) c) as [[o c']|].
  2:{ rewrite Hu. exists h. split; [done|]. split; [done|]. split; [by rewrite delete_id|done]. }
  destruct Hu as (Hm & b & <- & Hp & HP). rewrite Hm.
  destruct (concat_insert _ _ _ Hc) as (rest & Hr & _). pose proof Hok as [[Hl Hs] H20 H80 Hb He Hn].
  set (ix := Z.to_nat (hf_hash tmpl `mod` h_size h)) in *.
  pose proof (buckets_replace _ _ _ _ ix c c' rest Hs Hb Hc (HP _ (bo_placed _ _ _ _ Hb ix c Hc)) Hr) as Hb'.
  set (u := match c' with [] => h_used h - 1 | _ => h_used h end).
  replace (h_used h - nonempty c + nonempty c') with u in Hb'.
  2:{ unfold u. destruct c; [by apply Permutation_nil_cons in Hp|]. destruct c'; cbn [nonempty]; lia. }
  assert (concat (h_bucket h) ≡ₚ b :: c' ++ rest) as Hes by (by rewrite Hr, Hp).
  assert (Forall entry_ok (c' ++ rest)) as He' by (rewrite Hes in He; by inversion He).
  assert (NoDup (map okey (map hb_obj (c' ++ rest)))) as Hn'.
  { unfold objs in Hn. rewrite Hes in Hn. cbn [map] in Hn. by apply NoDup_cons in Hn as [_ Hn]. }
  assert (∃ h', (if h_used (set_buckets h (<[ix:=c']> (h_bucket h)) u) <? h_size20percent (set_buckets h (<[ix:=c']> (h_bucket h)) u)
     then rehash (set_buckets h (<[ix:=c']> (h_bucket h)) u) false else Some (set_buckets h (<[ix:=c']> (h_bucket h)) u)) = Some h' ∧
     hash_ok h' ∧ objs h' ≡ₚ map hb_obj (c' ++ rest)) as (h' & -> & Hok' & Hp').
  { destruct (_ <? _); [by eapply rehash_ok|]. eexists. split; [done|]. by apply hash_ok_intro. }
  cbn [mbind option_bind]. exists h'.
  assert (objs h ≡ₚ hb_obj b :: objs h') as Hoo by (unfold objs at 1; by rewrite Hes, Hp').
  split; [done|]. split; [done|]. split; [|intros o [= <-]; done].
  apply table_map_lookup in Hm as [_ Hk]; [|done]. rewrite (table_map_add h' h (hb_obj b)) by done. rewrite Hk.
  rewrite delete_insert_eq, delete_id; [done|]. apply eq_None_not_Some. intros [o Ho].
  apply table_map_lookup in Ho as [Ho Hko]; [|done].
  pose proof (ho_nodup h Hok) as Hnd. rewrite Hoo in Hnd. cbn [map] in Hnd. apply NoDup_cons in Hnd as [Hnd _].
  apply Hnd. rewrite Hk, <- Hko. by apply list_elem_of_fmap_2.
Qed.

(** ** Creation *)
Lemma find_size_spec t size ix : (∃ l, t = l ++ [-1] ∧ Forall (λ s, 0 < s) l) →
  ∃ i s, find_size t size ix = Some (ix + Z.of_nat i, s) ∧ t !! i = Some s ∧
    ((s = -1 ∧ ∀ s', s' ∈ t → s' < size ∨ s' = -1) ∨ (size ≤ s ∧ 0 < s)).
Proof.
  intros (l & -> & Hl). revert ix. induction Hl as [|s l Hs Hl IH]; intros ix; cbn [app find_size].
  - exists 0%nat, (-1). cbn. rewrite Z.add_0_r. split; [done|]. split; [done|]. left. split; [done|]. intros s' Hs'. right.
    by apply list_elem_of_singleton in Hs'.
  - replace (s =? -1) with false by lia. cbn [negb andb]. destruct (Z.ltb_spec s size).
    + destruct (IH (ix + 1)) as (i & s' & -> & Hi & Hor). exists (S i), s'. split; [do 2 f_equal; lia|]. split; [done|].
      destruct Hor as [[-> Hall]|Hor]; [left; split; [done|]|by right]. intros s' [->|Hs']%elem_of_cons; [by left|by apply Hall].
    + exists 0%nat, s. rewrite Z.add_0_r. split; [done|]. split; [done|]. right. lia.
Qed.

Lemma hash_init_ok name size : size ≤ 52679969 →
  ∃ h, hash_init name size = Some h ∧ hash_ok h ∧ objs h = [] ∧ size ≤ h_size h ∧ h_used h = 0.
Proof.
  intros Hsz. unfold hash_init. destruct (find_size_spec h_size_table size 0) as (i & s & -> & Hi & Hor).
  { exists (take 30 h_size_table). split; [done|]. repeat constructor. }
  cbn [mbind option_bind]. destruct Hor as [[-> Hall]|[Hle Hs]].
  { destruct (Hall 52679969); [|lia|done]. apply list_elem_of_In. cbn. tauto. }
  replace (s =? -1) with false by lia. eexists. split; [done|].
  destruct (hash_ok_intro (MkHash false name s (s `quot` 5) ((4 * s) `quot` 5) (0 + Z.of_nat i) 0 (replicate (Z.to_nat s) []))
    []) as [Hok Hp]; try done; cbn [h_ix h_size h_bucket h_used].
  - unfold load. rewrite bool_decide_eq_true_2 by lia. by replace (Z.to_nat (0 + Z.of_nat i)) with i by lia.
  - apply buckets_empty.
  - constructor.
  - split; [done|]. split; [|done]. by apply Permutation_nil_r in Hp.
Qed.

Lemma hash_init_panic name size : 52679969 < size → hash_init (O := O) name size = None.
Proof.
  intros Hsz. unfold hash_init. destruct (find_size_spec h_size_table size 0) as (i & s & -> & Hi & Hor).
  { exists (take 30 h_size_table). split; [done|]. repeat constructor. }
  cbn [mbind option_bind]. destruct Hor as [[-> _]|[Hle Hs]]; [done|]. exfalso.
  do 31 (destruct i as [|i]; [injection Hi as <-; lia|]). discriminate Hi.
Qed.

(** ** Merging *)
Lemma erts_hash_merge_ok (src dst : Hash O) :
  hash_ok src → hash_ok dst → table_map src ##ₘ table_map dst →
  ∃ src' dst', erts_hash_merge src dst = Some (src', dst') ∧ hash_ok src' ∧ hash_ok dst' ∧
    objs src' = [] ∧ table_map dst' = table_map src ∪ table_map dst ∧ objs dst' ≡ₚ objs src ++ objs dst.
Proof.
  intros Hs Hd Hdisj. unfold erts_hash_merge.
  assert (NoDup (map okey (map hb_obj (concat (h_bucket src)) ++ objs dst))) as Hnd.
  { rewrite map_app. apply NoDup_app. split; [by apply ho_nodup|]. split; [|by apply ho_nodup].
    intros k (o & -> & Ho)%list_elem_of_fmap (o' & Hk & Ho')%list_elem_of_fmap.
    apply (map_disjoint_spec (table_map src) (table_map dst)) with (okey o) o o'; [done|..];
      by apply table_map_lookup. }
  destruct (insert_entries_spec (concat (h_bucket src)) dst Hd (ho_entries src Hs) Hnd) as (dst' & -> & Hd' & Hp).
  cbn [mbind option_bind]. do 2 eexists. split; [done|]. pose proof Hs as [[Hl Hsz] H20 H80 Hb He Hn].
  destruct (hash_ok_intro (set_buckets src (replicate (length (h_bucket src)) []) 0) []) as [Hs' Hps]; try done.
  { cbn. rewrite (bo_length _ _ _ _ Hb). apply buckets_empty. }
  { constructor. }
  apply Permutation_nil_r in Hps.
  split; [done|]. split; [done|]. split; [done|].
  split; [|done]. apply map_eq. intros k. apply option_eq. intros o. rewrite table_map_lookup by done.
  rewrite lookup_union_Some by done. rewrite !table_map_lookup by done. rewrite Hp, elem_of_app. unfold objs at 2. tauto.
Qed.

End Spec.
