(* ===== verification/Index.v ===== *)
(** The index table of the emulator: [erts/emulator/beam/index.c], [index.h].

    An index table numbers the objects of a hash table; atoms, exports and modules are kept in such tables.  The
    [index] field of an object (an [IndexSlot]) lives in the object itself, which both the hash chains and the segment
    table point to: it is a component [ix_field] of the state, a function of the object pointer. *)

From Stdlib Require Import ZArith ZifyBool.
From stdpp Require Import base list numbers option gmap sorting.
From S2P Require Import Prelude Hash HashSpec.
Local Open Scope Z_scope.

Definition INDEX_PAGE_SHIFT : Z := 10.
Definition INDEX_PAGE_SIZE : Z := Z.shiftl 1 INDEX_PAGE_SHIFT.
Definition INDEX_PAGE_MASK : Z := Z.shiftl 1 INDEX_PAGE_SHIFT - 1.

Section Index.
Context {O : Type} `{HashFunctions O} `{EqDecision O}.

(** A page that is not allocated yet, and a slot that has not been written, are [None]. *)
Record IndexTable := MkIndex {
  t_htable : Hash O; t_size : Z; t_limit : Z; t_entries : Z;
  t_seg_table : list (option (list (option O)));
  ix_field : O → Z }.
Implicit Type t : IndexTable.

(** [p->index = ix] *)
Definition set_index (p : O) (ix : Z) (f : O → Z) : O → Z := λ o, if decide (o = p) then ix else f o.

Definition index_table_sz (sizeof_index sizeof_hash sizeof_ptr : Z) t : option Z :=
  n ← hash_table_sz sizeof_hash sizeof_ptr (t_htable t);
  Some (sizeof_index - sizeof_hash + t_size t * sizeof_ptr + n).

(** [erts_alloc] leaves the base table unwritten: no page is there. *)
Definition erts_index_init (name : list Z) (size limit : Z) (f : O → Z) : option IndexTable :=
  h ← hash_init name ((3 * size) `quot` 4);
  Some (MkIndex h 0 limit 0 (replicate (Z.to_nat ((limit + INDEX_PAGE_SIZE - 1) `quot` INDEX_PAGE_SIZE)) None) f).

(** [t->seg_table[ix>>INDEX_PAGE_SHIFT] = erts_alloc(...)]; [t->size += INDEX_PAGE_SIZE] *)
Definition add_page t (ix : Z) : option IndexTable :=
  let pg := Z.to_nat (Z.shiftr ix INDEX_PAGE_SHIFT) in
  if bool_decide (pg < length (t_seg_table t))%nat then
    Some (MkIndex (t_htable t) (t_size t + INDEX_PAGE_SIZE) (t_limit t) (t_entries t)
            (<[pg := Some (replicate (Z.to_nat INDEX_PAGE_SIZE) None)]> (t_seg_table t)) (ix_field t))
  else None.

(** [t->seg_table[ix>>INDEX_PAGE_SHIFT][ix&INDEX_PAGE_MASK] = p], undefined outside an allocated page. *)
Definition set_slot t (ix : Z) (p : O) : option IndexTable :=
  let pg := Z.to_nat (Z.shiftr ix INDEX_PAGE_SHIFT) in
  let sl := Z.to_nat (Z.land ix INDEX_PAGE_MASK) in
  match t_seg_table t !! pg with
  | Some (Some page) =>
      if bool_decide (sl < length page)%nat then
        Some (MkIndex (t_htable t) (t_size t) (t_limit t) (t_entries t)
                (<[pg := Some (<[sl := Some p]> page)]> (t_seg_table t)) (ix_field t))
      else None
  | _ => None
  end.

Definition set_htable t (h : Hash O) : IndexTable :=
  MkIndex h (t_size t) (t_limit t) (t_entries t) (t_seg_table t) (ix_field t).
Definition set_entries t (n : Z) : IndexTable :=
  MkIndex (t_htable t) (t_size t) (t_limit t) n (t_seg_table t) (ix_field t).
Definition set_field t (p : O) (ix : Z) : IndexTable :=
  MkIndex (t_htable t) (t_size t) (t_limit t) (t_entries t) (t_seg_table t) (set_index p ix (ix_field t)).

(** [if (ix >= t->size) { if (ix >= t->limit) erl_exit(...); seg_table[...] = erts_alloc(...); size += ...; }], where
    [None] is the panic of [erl_exit]. *)
Definition ensure_page t (ix : Z) : option IndexTable :=
  if ix >=? t_size t then if ix >=? t_limit t then None else add_page t ix else Some t.

(** [newobj] is what the [alloc] callback would return. *)
Definition index_put t (tmpl newobj : O) : option (Z * IndexTable) :=
  '(p, h) ← hash_put (t_htable t) tmpl newobj;
  let t := set_htable t h in
  if ix_field t p >=? 0 then Some (ix_field t p, t)
  else
    let ix := t_entries t in
    t ← ensure_page t ix;
    let t := set_entries t (t_entries t + 1) in
    let t := set_field t p ix in
    t ← set_slot t ix p;
    Some (ix, t).

Definition index_get t (tmpl : O) : option Z :=
  p ← hash_get (t_htable t) tmpl;
  Some (match p with Some p => ix_field t p | None => -1 end).

Definition seg_lookup (seg : list (option (list (option O)))) (ix : Z) : option O :=
  page ← seg !! Z.to_nat (Z.shiftr ix INDEX_PAGE_SHIFT);
  page ← page;
  slot ← page !! Z.to_nat (Z.land ix INDEX_PAGE_MASK);
  slot.
Definition erts_index_lookup t (ix : Z) : option O := seg_lookup (t_seg_table t) ix.

(** The loop body of [erts_index_merge] on one object of [src]. *)
Definition index_merge_one t (p : O) : option IndexTable :=
  let ix := t_entries t in
  let t := set_entries t (ix + 1) in
  t ← ensure_page t ix;
  let t := set_field t p ix in
  set_slot t ix p.

Fixpoint index_merge_all t (ps : list O) : option IndexTable :=
  match ps with
  | [] => Some t
  | p :: ps' => t' ← index_merge_one t p; index_merge_all t' ps'
  end.

Definition erts_index_merge (src : Hash O) (dst : IndexTable) : option IndexTable :=
  index_merge_all dst (map hb_obj (concat (h_bucket src))).

End Index.

Arguments IndexTable : clear implicits.

(** * The segment table *)
Section Segments.
Context {O : Type}.
Implicit Type seg : list (option (list (option O))).

(** The first [size / 1024] pages are there. *)
Definition seg_ok seg (size : Z) : Prop :=
  ∃ k, size = INDEX_PAGE_SIZE * Z.of_nat k ∧ (k ≤ length seg)%nat ∧
    ∀ i, (i < k)%nat → ∃ page, seg !! i = Some (Some page) ∧ length page = Z.to_nat INDEX_PAGE_SIZE.

Lemma page_of ix : Z.shiftr ix INDEX_PAGE_SHIFT = ix / 1024 ∧ Z.land ix INDEX_PAGE_MASK = ix mod 1024.
Proof. split; [by rewrite Z.shiftr_div_pow2|]. change INDEX_PAGE_MASK with (Z.ones 10). by rewrite Z.land_ones. Qed.

Lemma page_lt ix k : 0 ≤ ix < INDEX_PAGE_SIZE * Z.of_nat k →
  (Z.to_nat (ix / 1024) < k)%nat ∧ (Z.to_nat (ix mod 1024) < Z.to_nat INDEX_PAGE_SIZE)%nat.
Proof.
  change INDEX_PAGE_SIZE with 1024. intros Hix. pose proof (Z.div_lt_upper_bound ix 1024 (Z.of_nat k) ltac:(lia) ltac:(lia)).
  pose proof (Z.div_pos ix 1024 ltac:(lia) ltac:(lia)). pose proof (Z.mod_pos_bound ix 1024 ltac:(lia)). lia.
Qed.

Lemma page_inj i j : 0 ≤ i → 0 ≤ j → Z.to_nat (i / 1024) = Z.to_nat (j / 1024) →
  Z.to_nat (i mod 1024) = Z.to_nat (j mod 1024) → i = j.
Proof. intros Hi Hj H1 H2. Z.div_mod_to_equations. lia. Qed.

(** Storing in an allocated page. *)
Lemma seg_store seg size ix p : seg_ok seg size → 0 ≤ ix < size →
  ∃ page, seg !! Z.to_nat (ix / 1024) = Some (Some page) ∧ (Z.to_nat (ix mod 1024) < length page)%nat ∧
    let seg' := <[Z.to_nat (ix / 1024) := Some (<[Z.to_nat (ix mod 1024) := Some p]> page)]> seg in
    seg_ok seg' size ∧ ∀ j, 0 ≤ j → seg_lookup seg' j = if j =? ix then Some p else seg_lookup seg j.
Proof.
  intros (k & -> & Hk & Hpg) Hix. destruct (page_lt ix k Hix) as [Hlt Hm]. destruct (Hpg _ Hlt) as (page & Hp & Hl).
  exists page. split; [done|]. split; [lia|]. split.
  - exists k. split; [done|]. split; [by rewrite length_insert|]. intros i Hi.
    destruct (decide (i = Z.to_nat (ix / 1024))) as [->|Hne].
    + rewrite list_lookup_insert_eq by lia. eexists. split; [done|]. by rewrite length_insert.
    + rewrite list_lookup_insert_ne by done. by apply Hpg.
  - intros j Hj. unfold seg_lookup. destruct (page_of j) as [-> ->]. destruct (Z.eqb_spec j ix) as [->|Hne].
    + rewrite list_lookup_insert_eq by lia. cbn. by rewrite list_lookup_insert_eq by lia.
    + destruct (decide (Z.to_nat (j / 1024) = Z.to_nat (ix / 1024))) as [E|E].
      * rewrite E, list_lookup_insert_eq, Hp by lia. cbn. rewrite list_lookup_insert_ne; [done|].
        intros E2. apply Hne. apply page_inj; (done || lia).
      * by rewrite list_lookup_insert_ne by done.
Qed.

(** Allocating the next page. *)
Lemma seg_grow seg size : seg_ok seg size → (Z.to_nat (size / 1024) < length seg)%nat → 0 ≤ size →
  let seg' := <[Z.to_nat (size / 1024) := Some (replicate (Z.to_nat INDEX_PAGE_SIZE) None)]> seg in
  seg_ok seg' (size + INDEX_PAGE_SIZE) ∧ ∀ j, 0 ≤ j < size → seg_lookup seg' j = seg_lookup seg j.
Proof.
  intros (k & -> & Hk & Hpg) Hlt Hs. change INDEX_PAGE_SIZE with 1024 in *.
  replace (Z.to_nat (1024 * Z.of_nat k / 1024)) with k in * by (rewrite Z.mul_comm, Z.div_mul; lia). split.
  - exists (S k). change INDEX_PAGE_SIZE with 1024. split; [lia|]. split; [rewrite length_insert; lia|]. intros i Hi.
    destruct (decide (i = k)) as [->|Hne].
    + rewrite list_lookup_insert_eq by lia. eexists. split; [done|]. apply length_replicate.
    + rewrite list_lookup_insert_ne by done. apply Hpg. lia.
  - intros j Hj. unfold seg_lookup. destruct (page_of j) as [-> ->].
    assert (Z.to_nat (j / 1024) < k)%nat by (apply page_lt; change INDEX_PAGE_SIZE with 1024; lia).
    by rewrite list_lookup_insert_ne by lia.
Qed.

End Segments.

(** * Invariant *)
Section IndexSpec.
Context {O K : Type} `{HashLaws O K} `{EqDecision O}.
Implicit Types (t : IndexTable O) (p : O).

(** The objects [os] are numbered: each has a number below [entries], which the segment table maps back to
    it, and every number below [entries] is taken. *)
Record numbered t (os : list O) : Prop := {
  nu_entries : 0 ≤ t_entries t ≤ t_size t;
  nu_seg : seg_ok (t_seg_table t) (t_size t);
  nu_pages : zlen (t_seg_table t) = (t_limit t + INDEX_PAGE_SIZE - 1) `quot` INDEX_PAGE_SIZE ∧ 0 ≤ t_limit t;
  nu_slot : ∀ p, p ∈ os → 0 ≤ ix_field t p < t_entries t ∧ erts_index_lookup t (ix_field t p) = Some p;
  nu_back : ∀ i, 0 ≤ i < t_entries t → ∃ p, erts_index_lookup t i = Some p ∧ p ∈ os ∧ ix_field t p = i }.

Record index_ok t : Prop := {
  io_hash : hash_ok (t_htable t);
  io_numbered : numbered t (objs (t_htable t)) }.

Lemma numbered_perm t os os' : os ≡ₚ os' → numbered t os → numbered t os'.
Proof.
  intros Hp [N1 N2 N3 N4 N5]. split; [done|done|done| |].
  - intros p. rewrite <- Hp. apply N4.
  - intros i Hi. destruct (N5 i Hi) as (p & H1' & H2' & H3'). exists p. by rewrite <- Hp.
Qed.

(** Nothing of this depends on the hash table. *)
Lemma numbered_htable t h os : numbered t os → numbered (set_htable t h) os.
Proof. by intros [N1 N2 N3 N4 N5]. Qed.

(** A page for the next number: there already, allocated now, or the limit has been reached. *)
Lemma ensure_page_ok t : 0 ≤ t_entries t ≤ t_size t → seg_ok (t_seg_table t) (t_size t) →
  zlen (t_seg_table t) = (t_limit t + INDEX_PAGE_SIZE - 1) `quot` INDEX_PAGE_SIZE ∧ 0 ≤ t_limit t →
  (ensure_page t (t_entries t) = None ∧ t_size t = t_entries t ∧ t_limit t ≤ t_entries t) ∨
  ∃ size' seg', ensure_page t (t_entries t) =
      Some (MkIndex (t_htable t) size' (t_limit t) (t_entries t) seg' (ix_field t)) ∧
    t_entries t < size' ∧ seg_ok seg' size' ∧ length seg' = length (t_seg_table t) ∧
    ∀ j, 0 ≤ j < t_entries t → seg_lookup seg' j = erts_index_lookup t j.
Proof.
  intros He Hseg [Hl Hlim]. unfold ensure_page. destruct (Z.geb_spec (t_entries t) (t_size t)) as [Hge|Hlt].
  - assert (t_entries t = t_size t) as E by lia. destruct (Z.geb_spec (t_entries t) (t_limit t)); [left; split; [done|lia]|right].
    unfold add_page. destruct (page_of (t_entries t)) as [-> _]. rewrite E in *.
    assert (Z.to_nat (t_size t / 1024) < length (t_seg_table t))%nat as Hpg.
    { change INDEX_PAGE_SIZE with 1024 in *. rewrite Z.quot_div_nonneg in Hl by lia.
      assert (t_size t / 1024 < (t_limit t + 1024 - 1) / 1024); [|pose proof (Z.div_pos (t_size t) 1024); lia].
      destruct Hseg as (k & Hk & _). change INDEX_PAGE_SIZE with 1024 in Hk. Z.div_mod_to_equations. lia. }
    rewrite bool_decide_eq_true_2 by done. do 2 eexists. split; [done|].
    destruct (seg_grow _ _ Hseg Hpg ltac:(lia)) as [Hg1 Hg2]. change INDEX_PAGE_SIZE with 1024. split; [lia|].
    split; [done|]. split; [by rewrite length_insert|]. intros j Hj. by apply Hg2.
  - right. exists (t_size t), (t_seg_table t). split; [by destruct t|]. split; [lia|]. done.
Qed.

Lemma set_slot_ok t ix p : seg_ok (t_seg_table t) (t_size t) → 0 ≤ ix < t_size t →
  ∃ seg', set_slot t ix p = Some (MkIndex (t_htable t) (t_size t) (t_limit t) (t_entries t) seg' (ix_field t)) ∧
    seg_ok seg' (t_size t) ∧ length seg' = length (t_seg_table t) ∧
    ∀ j, 0 ≤ j → seg_lookup seg' j = if j =? ix then Some p else erts_index_lookup t j.
Proof.
  intros Hseg Hix. destruct (seg_store _ _ ix p Hseg Hix) as (page & Hp & Hl & Hok & Hlk). unfold set_slot.
  destruct (page_of ix) as [-> ->]. rewrite Hp, bool_decide_eq_true_2 by done. eexists. split; [done|].
  split; [done|]. split; [by rewrite length_insert|]. done.
Qed.

(** The steps that give an object the next number. *)
Definition number_next t p : option (IndexTable O) :=
  let ix := t_entries t in
  t ← ensure_page t ix; set_slot (set_field (set_entries t (ix + 1)) p ix) ix p.

Lemma number_next_ok t os p : numbered t os → p ∉ os →
  (number_next t p = None ∧ t_size t = t_entries t ∧ t_limit t ≤ t_entries t) ∨
  ∃ t', number_next t p = Some t' ∧ numbered t' (p :: os) ∧ t_htable t' = t_htable t ∧ t_entries t' = t_entries t + 1 ∧
    ix_field t' p = t_entries t ∧ (∀ q, q ≠ p → ix_field t' q = ix_field t q) ∧ t_limit t' = t_limit t ∧
    (∀ i, 0 ≤ i < t_entries t → erts_index_lookup t' i = erts_index_lookup t i).
Proof.
  intros [He Hseg Hpg Hslot Hback] Hfresh. unfold number_next.
  destruct (ensure_page_ok t He Hseg Hpg) as [(Hn & Hs & Hl)|(size' & seg' & Hen & Hs & Hseg' & Hlen & Hlk)].
  { left. rewrite Hn. done. }
  right. rewrite Hen. cbn [mbind option_bind]. unfold set_entries, set_field.
  cbn [t_entries t_size t_limit t_seg_table t_htable ix_field].
  destruct (set_slot_ok (MkIndex (t_htable t) size' (t_limit t) (t_entries t + 1) seg' (set_index p (t_entries t) (ix_field t)))
    (t_entries t) p) as (seg'' & Hst & Hseg'' & Hlen' & Hlk'); [done|cbn; lia|].
  rewrite Hst. eexists. split; [done|].
  unfold erts_index_lookup in *. cbn [t_entries t_size t_limit t_seg_table t_htable ix_field] in *.
  assert (∀ q, q ≠ p → set_index p (t_entries t) (ix_field t) q = ix_field t q) as Hf
    by (intros q Hq; unfold set_index; by rewrite decide_False).
  assert (set_index p (t_entries t) (ix_field t) p = t_entries t) as Hfn by (unfold set_index; by rewrite decide_True).
  assert (∀ i, 0 ≤ i < t_entries t → seg_lookup seg'' i = seg_lookup (t_seg_table t) i) as Hlow.
  { intros i Hi. rewrite Hlk' by lia. replace (i =? t_entries t) with false by lia. by apply Hlk. }
  assert (seg_lookup seg'' (t_entries t) = Some p) as Htop by (rewrite Hlk' by lia; by rewrite Z.eqb_refl).
  assert (∀ q, q ∈ os → q ≠ p) as Hne by (by intros q Hq ->).
  split; [|done]. split; unfold erts_index_lookup; cbn [t_entries t_size t_limit t_seg_table t_htable ix_field].
  - lia.
  - done.
  - by rewrite Hlen', Hlen.
  - intros q [->|Hin]%elem_of_cons; [rewrite Hfn; split; [lia|done]|].
    rewrite (Hf q) by auto. destruct (Hslot q Hin) as [Hr Hl2]. split; [lia|]. by rewrite Hlow.
  - intros i Hi. destruct (decide (i = t_entries t)) as [->|Hne'].
    + exists p. split; [done|]. split; [left|done].
    + destruct (Hback i ltac:(lia)) as (q & Hq1 & Hq2 & Hq3). exists q. rewrite Hlow by lia. split; [done|].
      split; [by right|]. by rewrite Hf by auto.
Qed.

Lemma index_get_spec t tmpl : index_ok t →
  index_get t tmpl = Some (match table_map (t_htable t) !! okey tmpl with Some p => ix_field t p | None => -1 end).
Proof. intros Hok. unfold index_get. by rewrite hash_get_spec by apply Hok. Qed.

(** Numbering: an object with the key is returned with the number it has; otherwise the new object gets the next one,
    and nobody else's number changes. *)
Lemma index_put_spec t tmpl newobj : index_ok t → okey newobj = okey tmpl → ix_field t newobj = -1 →
  match table_map (t_htable t) !! okey tmpl with
  | Some p => index_put t tmpl newobj = Some (ix_field t p, t)
  | None =>
      (index_put t tmpl newobj = None ∧ t_size t = t_entries t ∧ t_limit t ≤ t_entries t) ∨
      ∃ t', index_put t tmpl newobj = Some (t_entries t, t') ∧ index_ok t' ∧ t_entries t' = t_entries t + 1 ∧
        table_map (t_htable t') = <[okey tmpl := newobj]> (table_map (t_htable t)) ∧
        (∀ p, p ∈ objs (t_htable t) → ix_field t' p = ix_field t p) ∧
        (∀ i, 0 ≤ i < t_entries t → erts_index_lookup t' i = erts_index_lookup t i) ∧
        erts_index_lookup t' (t_entries t) = Some newobj ∧ ix_field t' newobj = t_entries t
  end.
Proof.
  intros [Hh Hn] Hk Hnew. pose proof (hash_put_spec (t_htable t) tmpl newobj Hh Hk) as Hput. unfold index_put.
  destruct (table_map (t_htable t) !! okey tmpl) as [p|] eqn:E.
  { rewrite Hput. cbn [mbind option_bind]. apply table_map_lookup in E as [Ho _]; [|done].
    cbn [set_htable ix_field]. replace (ix_field t p >=? 0) with true; [by destruct t|].
    destruct (nu_slot _ _ Hn p Ho); lia. }
  destruct Hput as (h' & -> & Hh' & Hp & Hm). cbn [mbind option_bind]. cbn [set_htable ix_field t_entries].
  rewrite Hnew. change (-1 >=? 0) with false. cbv iota.
  assert (newobj ∉ objs (t_htable t)) as Hfresh.
  { intros Hin. assert (table_map (t_htable t) !! okey tmpl = Some newobj) by (by apply table_map_lookup). congruence. }
  pose proof (number_next_ok _ _ newobj (numbered_htable t h' _ Hn) Hfresh) as Hnext. unfold number_next in Hnext.
  assert (∀ t1, ensure_page (set_htable t h') (t_entries t) = Some t1 → t_entries t1 = t_entries t) as Hent.
  { intros t1. unfold ensure_page, add_page. repeat case_match; intros [= <-]; done. }
  cbn [set_htable t_entries t_size t_limit] in Hnext. destruct (ensure_page _ _) as [t1|]; cbn [mbind option_bind] in *.
  2:{ destruct Hnext as [(_ & Hs & Hl)|(t' & [=] & _)]. by left. }
  rewrite (Hent t1) by done. destruct Hnext as [(-> & Hs & Hl)|(t' & -> & Hn' & Ht' & He' & Hf' & Hq' & _ & Hlow)]; [by left|].
  right. exists t'. cbn [set_htable t_htable ix_field] in *. split; [done|]. rewrite Ht'. split.
  - split; [by rewrite Ht'|]. rewrite Ht'. cbn. eapply numbered_perm; [|exact Hn']. by rewrite Hp.
  - split; [done|]. split; [done|]. split; [intros p Hin; apply Hq'; by intros ->|]. split; [done|].
    destruct (nu_slot _ _ Hn' newobj) as [_ Hl]; [left|]. rewrite Hf' in Hl. done.
Qed.

(** ** Merging a hash table *)
Lemma ensure_page_entries t n ix : ensure_page (set_entries t n) ix = (λ t, set_entries t n) <$> ensure_page t ix.
Proof. unfold ensure_page, add_page, set_entries. cbn. by repeat case_match. Qed.

Lemma index_merge_one_next t p : index_merge_one t p = number_next t p.
Proof.
  unfold index_merge_one, number_next. rewrite ensure_page_entries. by destruct (ensure_page t (t_entries t)).
Qed.

(** The objects get consecutive numbers in the order of the chains. *)
Lemma index_merge_all_ok ps t os : numbered t os → NoDup ps → (∀ p, p ∈ ps → p ∉ os) →
  t_entries t + zlen ps ≤ t_limit t →
  ∃ t', index_merge_all t ps = Some t' ∧ numbered t' (ps ++ os) ∧ t_htable t' = t_htable t ∧
    t_entries t' = t_entries t + zlen ps ∧
    (∀ i p, ps !! i = Some p → ix_field t' p = t_entries t + Z.of_nat i) ∧ (∀ q, q ∉ ps → ix_field t' q = ix_field t q).
Proof.
  revert t os. induction ps as [|p ps IH]; intros t os Hn Hnd Hfresh Hlim.
  { exists t. cbn. split; [done|]. split; [done|]. split; [done|]. split; [lia|]. done. }
  apply NoDup_cons in Hnd as [Hnp Hnd]. cbn [index_merge_all]. rewrite index_merge_one_next.
  destruct (number_next_ok t os p Hn) as [(_ & _ & Hl)|(t1 & -> & Hn1 & Ht1 & He1 & Hf1 & Hq1 & Hl1 & _)].
  - apply Hfresh. left.
  - cbn [length] in Hlim. lia.
  - cbn [mbind option_bind].
    destruct (IH t1 (p :: os) Hn1 Hnd) as (t' & -> & Hn' & Ht' & He' & Hi' & Hq').
    + intros q Hq [->|Hin]%elem_of_cons; [done|]. apply (Hfresh q); [by right|done].
    + cbn [length] in Hlim. lia.
    + exists t'. split; [done|]. split; [eapply numbered_perm; [|exact Hn']; by rewrite <- Permutation_middle|].
      split; [congruence|]. split; [cbn [length]; lia|]. split.
      * intros [|i] q Hq; [injection Hq as <-; rewrite Hq' by done; lia|]. rewrite (Hi' i q Hq). lia.
      * intros q [Hqp Hq]%not_elem_of_cons. by rewrite Hq', Hq1.
Qed.

End IndexSpec.

(** * The table as a list

    [listed t os]: the objects of the table in the order of their numbers. *)
Section Listed.
Context {O K : Type} `{HashLaws O K} `{EqDecision O}.
Implicit Types (t : IndexTable O) (o p : O) (os : list O).

Record listed t os : Prop := {
  li_ok : index_ok t;
  li_entries : t_entries t = zlen os;
  li_lookup : ∀ i o, os !! i = Some o → erts_index_lookup t (Z.of_nat i) = Some o }.

Lemma listed_field t os i o : listed t os → os !! i = Some o → o ∈ objs (t_htable t) ∧ ix_field t o = Z.of_nat i.
Proof.
  intros [[_ Hn] He Hl] Hi. pose proof (lookup_lt_Some _ _ _ Hi). destruct (nu_back _ _ Hn (Z.of_nat i) ltac:(lia)) as (p & Hp & Hin & Hf).
  rewrite (Hl i o Hi) in Hp. by injection Hp as <-.
Qed.

Lemma listed_in t os o : listed t os → o ∈ objs (t_htable t) ↔ o ∈ os.
Proof.
  intros L. pose proof L as [[_ Hn] He Hl]. split.
  - intros Hin. destruct (nu_slot _ _ Hn o Hin) as [Hr Ho]. destruct (lookup_lt_is_Some_2 os (Z.to_nat (ix_field t o))) as [p Hp]; [lia|].
    pose proof (Hl _ _ Hp) as Hl'. rewrite Z2Nat.id in Hl' by lia. rewrite Ho in Hl'. injection Hl' as <-. by eapply list_elem_of_lookup_2.
  - intros [i Hi]%list_elem_of_lookup. by eapply listed_field.
Qed.

Lemma listed_nodup t os : listed t os → NoDup (okey <$> os).
Proof.
  intros L. pose proof (ho_nodup _ (io_hash _ (li_ok _ _ L))) as Hnd. apply NoDup_alt. intros i j k Hi Hj.
  apply list_lookup_fmap_Some in Hi as (o & -> & Hi). apply list_lookup_fmap_Some in Hj as (p & Hk & Hj).
  destruct (listed_field t os i o L Hi) as [Ho Ei]. destruct (listed_field t os j p L Hj) as [Hp Ej].
  assert (table_map (t_htable t) !! okey o = Some o) as E1 by (apply table_map_lookup; [apply L|done]).
  assert (table_map (t_htable t) !! okey o = Some p) as E2 by (apply table_map_lookup; [apply L|done]).
  rewrite E1 in E2. injection E2 as <-. lia.
Qed.

Lemma listed_map t os k o : listed t os → table_map (t_htable t) !! k = Some o ↔ o ∈ os ∧ okey o = k.
Proof. intros L. rewrite table_map_lookup by apply L. by rewrite (listed_in t os o L). Qed.

Lemma listed_map_None t os k : listed t os → table_map (t_htable t) !! k = None ↔ k ∉ okey <$> os.
Proof.
  intros L. split.
  - intros Hn (o & -> & Ho)%list_elem_of_fmap. assert (table_map (t_htable t) !! okey o = Some o) by (by apply (listed_map t os)). congruence.
  - intros Hk. destruct (table_map _ !! k) as [o|] eqn:E; [|done]. apply (listed_map t os) in E as [Ho <-]; [|done].
    destruct Hk. by apply list_elem_of_fmap_2.
Qed.

(** The map of the objects with one more. *)
Lemma listed_map_snoc t os t' o : listed t os → listed t' (os ++ [o]) → table_map (t_htable t') = <[okey o := o]> (table_map (t_htable t)).
Proof.
  intros L L'. pose proof (listed_nodup _ _ L') as Hnd. rewrite fmap_app in Hnd. apply NoDup_app in Hnd as (_ & Hn & _).
  apply map_eq. intros k. apply option_eq. intros e. rewrite (listed_map _ _ k e L'), elem_of_app, list_elem_of_singleton.
  destruct (decide (k = okey o)) as [->|Hne].
  - rewrite lookup_insert_eq. split; [|intros [= <-]; split; [by right|done]]. intros [[Hin| ->] Hc]; [|done].
    exfalso. apply (Hn (okey e)); [by apply list_elem_of_fmap_2|]. rewrite Hc. by left.
  - rewrite lookup_insert_ne by done. split.
    + intros [[Hin| ->] Hc]; [by apply (listed_map _ _ k e L)|done].
    + intros [Hin Hc]%(listed_map _ _ k e L). split; [by left|done].
Qed.

(** [index_get] is the position, -1 if there is none. *)
Lemma listed_get t os tmpl : listed t os →
  (∀ i o, os !! i = Some o → okey o = okey tmpl → index_get t tmpl = Some (Z.of_nat i)) ∧
  (okey tmpl ∉ okey <$> os → index_get t tmpl = Some (-1)).
Proof.
  intros L. rewrite index_get_spec by apply L. split.
  - intros i o Hi Hk. assert (table_map (t_htable t) !! okey tmpl = Some o) as ->.
    { apply (listed_map t os); [done|]. split; [by eapply list_elem_of_lookup_2|done]. }
    f_equal. by eapply listed_field.
  - intros Hn. by rewrite (proj2 (listed_map_None t os _ L) Hn).
Qed.

Lemma index_put_limit t tmpl newobj i t' : index_put t tmpl newobj = Some (i, t') → t_limit t' = t_limit t.
Proof.
  unfold index_put. destruct (hash_put _ _ _) as [[p h]|]; [|done]. cbn [mbind option_bind]. case_match; [intros [= _ <-]; done|].
  unfold ensure_page, add_page, set_slot. intros E. repeat (case_match || (cbn [mbind option_bind] in E)); simplify_eq; done.
Qed.

(** [obj->slot.index = -1] on an object that is not in the table. *)
Lemma listed_set_field t os p i : listed t os → p ∉ os → listed (set_field t p i) os.
Proof.
  intros L Hp. pose proof L as [[Hh [N1 N2 N3 N4 N5]] He Hl]. split; [split; [done|]|done|done]. cbn. split; try done; cbn.
  - intros q Hq. unfold set_index. destruct (decide (q = p)) as [->|]; [|by apply N4]. destruct Hp. by apply (listed_in t os).
  - intros j Hj. destruct (N5 j Hj) as (q & Q1 & Q2 & Q3). exists q. split; [done|]. split; [done|]. unfold set_index. rewrite decide_False; [done|].
    intros ->. destruct Hp. by apply (listed_in t os).
Qed.

(** [index_put] finds the object or appends the new one. *)
Lemma listed_put t os tmpl newobj : listed t os → okey newobj = okey tmpl →
  (∀ i o, os !! i = Some o → okey o = okey tmpl → index_put t tmpl newobj = Some (Z.of_nat i, t)) ∧
  (okey tmpl ∉ okey <$> os → ix_field t newobj = -1 → zlen os < t_limit t →
     ∃ t', index_put t tmpl newobj = Some (zlen os, t') ∧ listed t' (os ++ [newobj]) ∧ t_limit t' = t_limit t ∧
       (∀ o, o ∈ os → ix_field t' o = ix_field t o)).
Proof.
  intros L Hk. pose proof L as [Ho He Hl]. split.
  - intros i o Hi Hko. assert (table_map (t_htable t) !! okey tmpl = Some o) as E.
    { apply (listed_map t os); [done|]. split; [by eapply list_elem_of_lookup_2|done]. }
    unfold index_put. pose proof (hash_put_spec (t_htable t) tmpl newobj (io_hash _ Ho) Hk) as Hp. rewrite E in Hp. rewrite Hp.
    cbn [mbind option_bind set_htable ix_field]. destruct (listed_field t os i o L Hi) as [_ ->].
    replace (Z.of_nat i >=? 0) with true by lia. by destruct t.
  - intros Hn Hf Hlim. pose proof (index_put_spec t tmpl newobj Ho Hk Hf) as Hs. rewrite (proj2 (listed_map_None t os _ L) Hn) in Hs.
    destruct Hs as [(_ & _ & Hfull)|(t' & Hput & Ho' & He' & _ & Hfix & Hold & Hnew & _)]; [lia|]. exists t'. rewrite He in Hput, Hnew, Hold.
    split; [done|]. split; [|split; [by eapply index_put_limit|intros o Hin; by apply Hfix, (listed_in t os)]].
    split; [done|rewrite length_app; cbn; lia|]. intros i o [Hi|[Hge Hi]]%lookup_app_Some.
    + pose proof (lookup_lt_Some _ _ _ Hi). rewrite Hold by lia. by apply Hl.
    + pose proof (lookup_lt_Some _ _ _ Hi) as Hlt. cbn in Hlt. replace (i - length os)%nat with 0%nat in Hi by lia. injection Hi as <-.
      by replace (Z.of_nat i) with (zlen os) by lia.
Qed.

(** A limit that is a multiple of the page size is exact. *)
Lemma listed_limit t os : listed t os → t_limit t mod INDEX_PAGE_SIZE = 0 → zlen os ≤ t_size t ≤ t_limit t.
Proof.
  intros [[_ [Ne [k (Hsz & Hkl & _)] [Hp Hl0] _ _]] He _] Hmod. change INDEX_PAGE_SIZE with 1024 in *.
  rewrite Z.quot_div_nonneg in Hp by lia. Z.div_mod_to_equations. lia.
Qed.

Lemma listed_room t os tmpl newobj r : listed t os → okey newobj = okey tmpl → ix_field t newobj = -1 → okey tmpl ∉ okey <$> os →
  t_limit t mod INDEX_PAGE_SIZE = 0 → index_put t tmpl newobj = Some r → zlen os < t_limit t.
Proof.
  intros L Hk Hf Hn Hmod Hput. pose proof (listed_limit t os L Hmod). pose proof L as [[Hh _] He _].
  destruct (Z.ltb_spec (zlen os) (t_limit t)) as [|Hge]; [done|exfalso]. unfold index_put in Hput.
  pose proof (hash_put_spec (t_htable t) tmpl newobj Hh Hk) as Hs. rewrite (proj2 (listed_map_None t os _ L) Hn) in Hs.
  destruct Hs as (h' & Eh & _). rewrite Eh in Hput. cbn [mbind option_bind set_htable ix_field] in Hput. rewrite Hf in Hput.
  change (-1 >=? 0) with false in Hput. unfold ensure_page in Hput. cbn [t_entries t_size t_limit set_htable] in Hput.
  replace (t_entries t >=? t_size t) with true in Hput by lia. by replace (t_entries t >=? t_limit t) with true in Hput by lia.
Qed.

Lemma index_merge_all_limit ps : ∀ t t', index_merge_all t ps = Some t' → t_limit t' = t_limit t.
Proof.
  induction ps as [|p ps IH]; intros t t' E; cbn [index_merge_all] in E; [by injection E as ->|].
  destruct (index_merge_one t p) as [t1|] eqn:E1; [|done]. cbn [mbind option_bind] in E. rewrite (IH _ _ E). revert E1.
  unfold index_merge_one, ensure_page, add_page, set_slot. intros E1. repeat (case_match || (cbn [mbind option_bind] in E1)); simplify_eq; done.
Qed.

(** Consolidation appends the objects of another hash table. *)
Lemma listed_merge (src : Hash O) t os : hash_ok src → listed t os → table_map src ##ₘ table_map (t_htable t) → zlen os + zlen (objs src) ≤ t_limit t →
  ∃ t1 src' h', erts_index_merge src t = Some t1 ∧ erts_hash_merge src (t_htable t1) = Some (src', h') ∧ hash_ok src' ∧ objs src' = [] ∧
    listed (set_htable t1 h') (os ++ objs src) ∧ t_limit t1 = t_limit t ∧ (∀ q, q ∉ objs src → ix_field t1 q = ix_field t q).
Proof.
  intros Hs L Hd Hlim. pose proof L as [[Hh Hn] He Hl]. unfold erts_index_merge. fold (objs src).
  assert (∀ p, p ∈ objs src → p ∉ objs (t_htable t)) as Hfresh.
  { intros p Hp Hp'. by apply (map_disjoint_spec (table_map src) (table_map (t_htable t))) with (okey p) p p; [|apply table_map_lookup..]. }
  destruct (index_merge_all_ok (objs src) t _ Hn) as (t1 & E1 & Hn1 & Ht1 & He1 & Hi1 & Hq1); [|done|lia|].
  { pose proof (ho_nodup src Hs) as Hnd. by eapply NoDup_fmap_1. }
  destruct (erts_hash_merge_ok src (t_htable t) Hs Hh Hd) as (src' & h' & Hm & Hs' & Hh' & He' & _ & Hp).
  exists t1, src', h'. split; [done|]. split; [by rewrite Ht1|]. split; [done|]. split; [done|].
  assert (numbered (set_htable t1 h') (objs h')) as Hnum by (eapply numbered_perm; [symmetry; exact Hp|]; by apply numbered_htable).
  split; [|split; [by eapply index_merge_all_limit|done]].
  split; [by split|cbn; rewrite length_app; lia|]. intros i o [Hi|[Hge Hi]]%lookup_app_Some.
  - destruct (listed_field t os i o L Hi) as [Ho Ei]. rewrite <- Ei. rewrite <- (Hq1 o) by (intros Hin; by apply (Hfresh o)).
    apply (nu_slot _ _ Hnum). rewrite Hp, elem_of_app. by right.
  - replace (Z.of_nat i) with (t_entries t + Z.of_nat (i - length os)) by lia. rewrite <- (Hi1 _ _ Hi). apply (nu_slot _ _ Hnum).
    rewrite Hp, elem_of_app. left. by eapply list_elem_of_lookup_2.
Qed.

Lemma listed_init name size limit f : 3 * size ≤ 4 * 52679969 → 0 ≤ size → 0 ≤ limit →
  ∃ t, erts_index_init name size limit f = Some t ∧ listed t [] ∧ t_limit t = limit ∧ ix_field t = f.
Proof.
  intros Hs Hs0 Hl. unfold erts_index_init. destruct (hash_init_ok (O := O) name ((3 * size) `quot` 4)) as (h & -> & Hok & Ho & _).
  { rewrite Z.quot_div_nonneg by lia. apply Z.div_le_upper_bound; lia. }
  cbn [mbind option_bind]. eexists. split; [done|]. split; [|done]. split; [split; [done|]|done|by intros i o Hi; rewrite lookup_nil in Hi].
  cbn [t_htable]. rewrite Ho. split; cbn [t_entries t_size t_limit t_seg_table ix_field].
  - lia.
  - exists 0%nat. change INDEX_PAGE_SIZE with 1024. split; [done|]. split; [lia|]. lia.
  - rewrite length_replicate. change INDEX_PAGE_SIZE with 1024. split; [|done]. rewrite Z2Nat.id; [done|]. rewrite Z.quot_div_nonneg by lia. apply Z.div_pos; lia.
  - intros p Hp. by apply elem_of_nil in Hp.
  - lia.
Qed.

End Listed.
