(* ===== verification/HashTheorems.v ===== *)
(** The correctness properties of the hash and index tables ([Hash], [HashSpec], [Index]), each with a concrete
    instance. *)

From Stdlib Require Import ZArith ZifyBool.
From stdpp Require Import base list numbers option gmap sorting.
From S2P Require Import Prelude Hash HashSpec Index.
Local Open Scope Z_scope.

(** * Sequences of operations *)
Section Ops.
Context {O K : Type} `{HashLaws O K}.

(** The calls a client makes; [Put tmpl newobj] carries the object its [alloc] callback would build. *)
Inductive hash_op :=
| Get (tmpl : O)
| Put (tmpl newobj : O)
| Remove (tmpl : O)
| Erase (tmpl : O).

(** The concrete step: returned pointer and new table. *)
Definition hash_step (h : Hash O) (op : hash_op) : option (option O * Hash O) :=
  match op with
  | Get tmpl => r ← hash_get h tmpl; Some (r, h)
  | Put tmpl newobj => '(o, h') ← hash_put h tmpl newobj; Some (Some o, h')
  | Remove tmpl => hash_remove h tmpl
  | Erase tmpl => '(r, _, h') ← hash_erase h tmpl; Some (r, h')
  end.

(** The same on a finite map. *)
Definition map_step (m : gmap K O) (op : hash_op) : option O * gmap K O :=
  match op with
  | Get tmpl => (m !! okey tmpl, m)
  | Put tmpl newobj =>
      match m !! okey tmpl with
      | Some o => (Some o, m)
      | None => (Some newobj, <[okey tmpl := newobj]> m)
      end
  | Remove tmpl => (m !! okey tmpl, delete (okey tmpl) m)
  | Erase tmpl => (match m !! okey tmpl with Some _ => Some tmpl | None => None end, delete (okey tmpl) m)
  end.

Fixpoint hash_run (h : Hash O) (ops : list hash_op) : option (list (option O) * Hash O) :=
  match ops with
  | [] => Some ([], h)
  | op :: ops' => '(r, h') ← hash_step h op; '(rs, h'') ← hash_run h' ops'; Some (r :: rs, h'')
  end.

Fixpoint map_run (m : gmap K O) (ops : list hash_op) : list (option O) * gmap K O :=
  match ops with
  | [] => ([], m)
  | op :: ops' => let '(r, m') := map_step m op in let '(rs, m'') := map_run m' ops' in (r :: rs, m'')
  end.

(** The [alloc] callback builds an object with the key of the template. *)
Definition op_ok (op : hash_op) : Prop :=
  match op with Put tmpl newobj => okey newobj = okey tmpl | _ => True end.

Lemma hash_step_ok h op : hash_ok h → op_ok op →
  ∃ r h', hash_step h op = Some (r, h') ∧ hash_ok h' ∧ map_step (table_map h) op = (r, table_map h').
Proof.
  intros Hok Hop. destruct op as [tmpl|tmpl newobj|tmpl|tmpl]; cbn [hash_step map_step].
  - rewrite hash_get_spec by done. by do 2 eexists.
  - pose proof (hash_put_spec h tmpl newobj Hok Hop) as Hp. destruct (table_map h !! okey tmpl).
    + rewrite Hp. by do 2 eexists.
    + destruct Hp as (h' & -> & Hok' & _ & Hm). do 2 eexists. split; [done|]. split; [done|]. by rewrite Hm.
  - destruct (hash_remove_spec h tmpl Hok) as (h' & -> & Hok' & Hm & _). do 2 eexists. split; [done|].
    split; [done|]. by rewrite Hm.
  - unfold hash_erase. destruct (hash_remove_spec h tmpl Hok) as (h' & -> & Hok' & Hm & _).
    do 2 eexists. split; [done|]. split; [done|]. by rewrite Hm.
Qed.

Lemma hash_run_ok ops h : hash_ok h → Forall op_ok ops →
  ∃ rs h', hash_run h ops = Some (rs, h') ∧ hash_ok h' ∧ map_run (table_map h) ops = (rs, table_map h').
Proof.
  intros Hok Hops. revert h Hok. induction Hops as [|op ops Hop Hops IH]; intros h Hok; [by do 2 eexists|].
  destruct (hash_step_ok h op Hok Hop) as (r & h1 & Hs & Hok1 & Hm1). cbn [hash_run map_run]. rewrite Hs, Hm1.
  cbn [mbind option_bind]. destruct (IH h1 Hok1) as (rs & h2 & Hr & Hok2 & Hm2). rewrite Hr, Hm2. by do 2 eexists.
Qed.

End Ops.
Arguments hash_op : clear implicits.

Section Properties.
Context {O K : Type} `{HashLaws O K} `{EqDecision O}.

(** [hash_init] makes an empty, well-formed table with at least the requested number of slots, up to the largest
    size of the table of primes; above it panics. *)
Lemma hash_init_correct (name : list Z) (size : Z) :
  (size ≤ 52679969 → ∃ h : Hash O, hash_init name size = Some h ∧ hash_ok h ∧ table_map h = ∅ ∧ size ≤ h_size h) ∧
  (52679969 < size → hash_init (O := O) name size = None).
Proof.
  split; [|apply hash_init_panic]. intros Hs. destruct (hash_init_ok name size Hs) as (h & -> & Hok & Ho & Hsz & _).
  exists h. split; [done|]. split; [done|]. split; [unfold table_map; by rewrite Ho|done].
Qed.

(** C9: Refinement: any sequence of [hash_get], [hash_put], [hash_remove] and [hash_erase] calls on a
    well-formed table completes, returns the same pointers as the same sequence on a finite map from keys to
    objects, and ends in a well-formed table for the final map, whatever growing and shrinking happened on the way. *)
Theorem hash_refines_map (h : Hash O) (ops : list (hash_op O)) :
  hash_ok h → Forall op_ok ops →
  ∃ rs h', hash_run h ops = Some (rs, h') ∧ hash_ok h' ∧ map_run (table_map h) ops = (rs, table_map h').
Proof. intros Hok Hops. by apply hash_run_ok. Qed.

(** [rehash], growing or shrinking, moves every object: the map is unchanged, the stored objects are the same
    up to their order, and [used] is again the number of non-empty slots. *)
Lemma rehash_preserves (h : Hash O) (grow : bool) :
  hash_ok h → ∃ h', rehash h grow = Some h' ∧ hash_ok h' ∧ objs h' ≡ₚ objs h ∧ table_map h' = table_map h ∧
    h_used h' = used_count (h_bucket h').
Proof.
  intros Hok. pose proof Hok as [[Hl Hs] H20 H80 Hb He Hn].
  destruct (rehash_ok h grow (concat (h_bucket h)) Hl Hs H20 H80 Hb He Hn) as (h' & -> & Hok' & Hp). exists h'.
  split; [done|]. split; [done|]. split; [done|]. split; [|by destruct Hok' as [_ _ _ [? ? ? ?]]].
  apply obj_map_perm; [by apply ho_nodup|done].
Qed.

(** [erts_hash_merge] of tables with disjoint keys moves all entries: the source is empty afterwards and the
    destination is the union of the two maps. *)
Lemma erts_hash_merge_union (src dst : Hash O) :
  hash_ok src → hash_ok dst → table_map src ##ₘ table_map dst →
  ∃ src' dst', erts_hash_merge src dst = Some (src', dst') ∧ hash_ok src' ∧ hash_ok dst' ∧
    table_map src' = ∅ ∧ table_map dst' = table_map src ∪ table_map dst.
Proof.
  intros Hs Hd Hdisj. destruct (erts_hash_merge_ok src dst Hs Hd Hdisj) as (src' & dst' & H1' & H2' & H3' & H4' & H5' & _).
  exists src', dst'. unfold table_map at 1. by rewrite H4'.
Qed.

(** [rehash], growing or shrinking, moves every object: the map is unchanged, the stored objects are the same up to their order,
    and [used] is again the number of non-empty slots.  [erts_hash_merge] of tables with disjoint keys moves all entries: the
    source is empty afterwards and the destination is the union of the two maps. *)
Lemma hash_moves_entries :
  (∀ (h : Hash O) (grow : bool), hash_ok h → ∃ h', rehash h grow = Some h' ∧ hash_ok h' ∧ objs h' ≡ₚ objs h ∧ table_map h' = table_map h ∧
    h_used h' = used_count (h_bucket h')) ∧
  (∀ (src dst : Hash O), hash_ok src → hash_ok dst → table_map src ##ₘ table_map dst →
  ∃ src' dst', erts_hash_merge src dst = Some (src', dst') ∧ hash_ok src' ∧ hash_ok dst' ∧
    table_map src' = ∅ ∧ table_map dst' = table_map src ∪ table_map dst).
Proof. split; [exact rehash_preserves|exact erts_hash_merge_union]. Qed.

(** [hash_delete] hands every object of the table to the [free] callback, each once; [hash_foreach] visits the
    same objects; [hash_get_info] counts them. *)
Lemma hash_delete_frees_all (h : Hash O) :
  hash_ok h →
  NoDup (hash_delete h) ∧ (∀ o, o ∈ hash_delete h ↔ table_map h !! okey o = Some o) ∧
  hash_foreach h (λ o acc, acc ++ [o]) [] = hash_delete h ∧
  hi_objs (hash_get_info h) = Z.of_nat (size (table_map h)).
Proof.
  intros Hok. pose proof (ho_nodup h Hok) as Hn. split; [by eapply NoDup_fmap_1|]. split; [|split].
  - intros o. rewrite table_map_lookup by done. unfold hash_delete, objs. tauto.
  - unfold hash_foreach, hash_delete.
    assert (∀ acc bs, foldl (λ s b, s ++ [hb_obj b]) acc bs = acc ++ map (hb_obj (O := O)) bs) as Hf; [|by rewrite Hf].
    intros acc bs. revert acc. induction bs as [|b bs IH]; intros acc; cbn; [by rewrite app_nil_r|].
    rewrite IH. by rewrite <- app_assoc.
  - assert (∀ nb n d, hi_objs (let '(a, b) := foldl (λ '(objects, max_depth) (chain : list (HashBucket O)),
        let depth := zlen chain in (objects + depth, if depth >? max_depth then depth else max_depth)) (n, d) nb in
        MkInfo (h_name h) (h_size h) (h_used h) a b) = n + zlen (concat nb)) as Hc.
    { induction nb as [|c nb IH]; intros n d; cbn; [lia|]. rewrite IH, length_app. lia. }
    unfold hash_get_info. rewrite Hc. unfold table_map, obj_map. rewrite map_size_list_to_map by (by rewrite obj_map_keys).
    rewrite length_fmap. unfold objs. rewrite length_fmap. lia.
Qed.

(** [hash_init] makes an empty, well-formed table with at least the requested number of slots, up to the largest size of the
    table of primes; above it panics.  [hash_delete] hands every object of the table to the [free] callback, each once;
    [hash_foreach] visits the same objects; [hash_get_info] counts them. *)
Lemma hash_init_delete :
  (∀ (name : list Z) (size : Z), (size ≤ 52679969 → ∃ h : Hash O, hash_init name size = Some h ∧ hash_ok h ∧ table_map h = ∅ ∧ size ≤ h_size h) ∧
  (52679969 < size → hash_init (O := O) name size = None)) ∧
  (∀ (h : Hash O), hash_ok h →
  NoDup (hash_delete h) ∧ (∀ o, o ∈ hash_delete h ↔ table_map h !! okey o = Some o) ∧
  hash_foreach h (λ o acc, acc ++ [o]) [] = hash_delete h ∧
  hi_objs (hash_get_info h) = Z.of_nat (size (table_map h))).
Proof. split; [exact hash_init_correct|exact hash_delete_frees_all]. Qed.

(** C33: [rehash], growing or shrinking, moves every object: the map is unchanged, the stored objects are the same up to
    their order, and [used] is again the number of non-empty slots.  [erts_hash_merge] of tables with disjoint keys moves
    all entries: the source is empty afterwards and the destination is the union of the two maps.  [hash_init] makes an
    empty, well-formed table with at least the requested number of slots, up to the largest size of the table of primes;
    above it panics.  [hash_delete] hands every object of the table to the [free] callback, each once; [hash_foreach]
    visits the same objects; [hash_get_info] counts them. *)
Theorem hash_life_cycle :
  ((∀ (h : Hash O) (grow : bool), hash_ok h → ∃ h', rehash h grow = Some h' ∧ hash_ok h' ∧ objs h' ≡ₚ objs h ∧ table_map h' = table_map h ∧
    h_used h' = used_count (h_bucket h')) ∧
  (∀ (src dst : Hash O), hash_ok src → hash_ok dst → table_map src ##ₘ table_map dst →
  ∃ src' dst', erts_hash_merge src dst = Some (src', dst') ∧ hash_ok src' ∧ hash_ok dst' ∧
    table_map src' = ∅ ∧ table_map dst' = table_map src ∪ table_map dst)) ∧
  ((∀ (name : list Z) (size : Z), (size ≤ 52679969 → ∃ h : Hash O, hash_init name size = Some h ∧ hash_ok h ∧ table_map h = ∅ ∧ size ≤ h_size h) ∧
  (52679969 < size → hash_init (O := O) name size = None)) ∧
  (∀ (h : Hash O), hash_ok h →
  NoDup (hash_delete h) ∧ (∀ o, o ∈ hash_delete h ↔ table_map h !! okey o = Some o) ∧
  hash_foreach h (λ o acc, acc ++ [o]) [] = hash_delete h ∧
  hi_objs (hash_get_info h) = Z.of_nat (size (table_map h)))).
Proof. split; [exact hash_moves_entries|exact hash_init_delete]. Qed.

(** [index_put] numbers objects 0, 1, 2, ... and for good: a known key gets the number it has, a new one
    the next number, which [index_get] (-1 before) reports from then on; the numbers and objects of all others stay, the table stays a bijection between its objects
    and the numbers below [entries]; the only other outcome is the panic on a full table. *)
Lemma index_put_numbers (t : IndexTable O) (tmpl newobj : O) :
  index_ok t → okey newobj = okey tmpl → ix_field t newobj = -1 →
  match table_map (t_htable t) !! okey tmpl with
  | Some p => index_get t tmpl = Some (ix_field t p) ∧ index_put t tmpl newobj = Some (ix_field t p, t)
  | None =>
      index_get t tmpl = Some (-1) ∧
      ((index_put t tmpl newobj = None ∧ t_size t = t_entries t ∧ t_limit t ≤ t_entries t) ∨
      ∃ t', index_put t tmpl newobj = Some (t_entries t, t') ∧ index_ok t' ∧ t_entries t' = t_entries t + 1 ∧
        table_map (t_htable t') = <[okey tmpl := newobj]> (table_map (t_htable t)) ∧
        (∀ p, p ∈ objs (t_htable t) → ix_field t' p = ix_field t p) ∧
        (∀ i, 0 ≤ i < t_entries t → erts_index_lookup t' i = erts_index_lookup t i) ∧
        erts_index_lookup t' (t_entries t) = Some newobj ∧ index_get t' tmpl = Some (t_entries t))
  end.
Proof.
  intros Hok Hk Hnew. pose proof (index_put_spec t tmpl newobj Hok Hk Hnew) as Hs. rewrite index_get_spec by done.
  destruct (table_map (t_htable t) !! okey tmpl) as [p|]; [done|]. split; [done|].
  destruct Hs as [Hn|(t' & Hput & Hok' & He & Hm & Hp & Hi & Hl & Hf)]; [by left|right]. exists t'.
  repeat (split; [done|]). by rewrite index_get_spec, Hm, lookup_insert_eq, Hf by done.
Qed.

(** The two calls of export consolidation: [erts_index_merge] numbers the entries of a second table
    consecutively behind the existing ones, and [erts_hash_merge] then moves them into the hash table; together they
    restore the invariant, and all old numbers stay. *)
Lemma index_merge_consolidates (src : Hash O) (dst : IndexTable O) :
  hash_ok src → index_ok dst → table_map src ##ₘ table_map (t_htable dst) →
  t_entries dst + zlen (objs src) ≤ t_limit dst →
  ∃ dst1 src' h', erts_index_merge src dst = Some dst1 ∧ erts_hash_merge src (t_htable dst1) = Some (src', h') ∧
    index_ok (set_htable dst1 h') ∧ table_map src' = ∅ ∧ table_map h' = table_map src ∪ table_map (t_htable dst) ∧
    (∀ i p, objs src !! i = Some p → ix_field dst1 p = t_entries dst + Z.of_nat i) ∧
    (∀ p, p ∈ objs (t_htable dst) → ix_field dst1 p = ix_field dst p).
Proof.
  intros Hs [Hh Hn] Hdisj Hlim. unfold erts_index_merge. fold (objs src).
  assert (∀ p, p ∈ objs src → p ∉ objs (t_htable dst)) as Hfresh.
  { intros p Hp Hp'. by apply (map_disjoint_spec (table_map src) (table_map (t_htable dst))) with (okey p) p p; [|apply table_map_lookup..]. }
  destruct (index_merge_all_ok (objs src) dst _ Hn) as (dst1 & -> & Hn1 & Ht1 & He1 & Hi1 & Hq1); [|done|done|].
  { pose proof (ho_nodup src Hs) as Hnd. by eapply NoDup_fmap_1. }
  destruct (erts_hash_merge_ok src (t_htable dst) Hs Hh Hdisj) as (src' & h' & Hm & _ & Hh' & He' & Hu & Hp).
  exists dst1, src', h'. split; [done|]. split; [by rewrite Ht1|]. split; [|split; [unfold table_map; by rewrite He'|split; [done|split; [done|]]]].
  - split; [done|]. cbn. eapply numbered_perm; [symmetry; exact Hp|]. by apply numbered_htable.
  - intros p Hin. apply Hq1. intros Hin'. by apply (Hfresh p).
Qed.

(** C24: [index_put] numbers objects 0, 1, 2, ... and for good: a known key gets the number it has, a new one the next
    number, which [index_get] (-1 before) reports from then on; the numbers and objects of all others stay, the table
    stays a bijection between its objects and the numbers below [entries]; the only other outcome is the panic on a full
    table.  The two calls of export consolidation: [erts_index_merge] numbers the entries of a second table consecutively
    behind the existing ones, and [erts_hash_merge] then moves them into the hash table; together they restore the
    invariant, and all old numbers stay. *)
Theorem index_tables_correct :
  (∀ (t : IndexTable O) (tmpl newobj : O), index_ok t → okey newobj = okey tmpl → ix_field t newobj = -1 →
  match table_map (t_htable t) !! okey tmpl with
  | Some p => index_get t tmpl = Some (ix_field t p) ∧ index_put t tmpl newobj = Some (ix_field t p, t)
  | None =>
      index_get t tmpl = Some (-1) ∧
      ((index_put t tmpl newobj = None ∧ t_size t = t_entries t ∧ t_limit t ≤ t_entries t) ∨
      ∃ t', index_put t tmpl newobj = Some (t_entries t, t') ∧ index_ok t' ∧ t_entries t' = t_entries t + 1 ∧
        table_map (t_htable t') = <[okey tmpl := newobj]> (table_map (t_htable t)) ∧
        (∀ p, p ∈ objs (t_htable t) → ix_field t' p = ix_field t p) ∧
        (∀ i, 0 ≤ i < t_entries t → erts_index_lookup t' i = erts_index_lookup t i) ∧
        erts_index_lookup t' (t_entries t) = Some newobj ∧ index_get t' tmpl = Some (t_entries t))
  end) ∧
  (∀ (src : Hash O) (dst : IndexTable O), hash_ok src → index_ok dst → table_map src ##ₘ table_map (t_htable dst) →
  t_entries dst + zlen (objs src) ≤ t_limit dst →
  ∃ dst1 src' h', erts_index_merge src dst = Some dst1 ∧ erts_hash_merge src (t_htable dst1) = Some (src', h') ∧
    index_ok (set_htable dst1 h') ∧ table_map src' = ∅ ∧ table_map h' = table_map src ∪ table_map (t_htable dst) ∧
    (∀ i p, objs src !! i = Some p → ix_field dst1 p = t_entries dst + Z.of_nat i) ∧
    (∀ p, p ∈ objs (t_htable dst) → ix_field dst1 p = ix_field dst p)).
Proof. split; [exact index_put_numbers|exact index_merge_consolidates]. Qed.

End Properties.

(** * Instances: objects are pairs of a key and an identity, with a poor hash function. *)
Module Instances.

#[export] Instance pair_functions : HashFunctions (Z * Z) :=
  {| hf_hash := λ o, o.1 `mod` 7; hf_cmp := λ a b, a.1 - b.1 |}.
#[export, program] Instance pair_laws : HashLaws (Z * Z) Z := {| okey := λ o, o.1 |}.
Next Obligation. intros a b. cbn. lia. Qed.
Next Obligation. intros a b Hab. cbn in *. by rewrite Hab. Qed.
Next Obligation. intros a. cbn. pose proof (Z.mod_pos_bound a.1 7). lia. Qed.

Definition empty : Hash (Z * Z) := default (MkHash false [] 0 0 0 0 0 []) (hash_init [97; 0] 2).

Lemma empty_ok : hash_ok empty ∧ table_map empty = ∅.
Proof.
  destruct (hash_init_ok (O := Z * Z) [97; 0] 2 ltac:(lia)) as (h & Hh & Hok & Ho & _).
  unfold empty. rewrite Hh. cbn [default from_option id]. split; [done|]. unfold table_map. by rewrite Ho.
Qed.

Definition ops : list (hash_op (Z * Z)) :=
  [Put (1, 0) (1, 10); Put (8, 0) (8, 11); Put (2, 0) (2, 12); Put (1, 0) (1, 13); Get (8, 0); Remove (1, 0); Get (1, 5);
   Erase (8, 0)].

(** Two colliding keys, growth to 5 slots, a second put of the same key, removal and shrinking. *)
Lemma hash_refines_map_witness :
  ∃ rs h', hash_run empty ops = Some (rs, h') ∧ hash_ok h' ∧ map_run (table_map empty) ops = (rs, table_map h').
Proof.
  refine (hash_refines_map empty ops (proj1 empty_ok) _). repeat constructor.
Defined.

Definition with_key (k : Z) : Hash (Z * Z) :=
  match hash_put empty (k, 0) (k, 1) with Some (_, h) => h | None => empty end.

Lemma with_key_ok k : hash_ok (with_key k) ∧ table_map (with_key k) = {[k := (k, 1)]}.
Proof.
  destruct empty_ok as [Hok Hm]. unfold with_key.
  pose proof (hash_put_spec empty (k, 0) (k, 1) Hok eq_refl) as Hp. rewrite Hm, lookup_empty in Hp.
  destruct Hp as (h' & -> & Hok' & _ & Hm'). done.
Qed.

Lemma one_two_disjoint : table_map (with_key 1) ##ₘ table_map (with_key 2).
Proof.
  rewrite (proj2 (with_key_ok 1)), (proj2 (with_key_ok 2)). apply map_disjoint_singleton_l. by apply lookup_singleton_ne.
Qed.

Lemma hash_life_cycle_witness :
  ((∃ h', rehash empty true = Some h' ∧ hash_ok h' ∧ objs h' ≡ₚ objs empty ∧ table_map h' = table_map empty ∧
    h_used h' = used_count (h_bucket h')) ∧
  (∃ src' dst', erts_hash_merge (with_key 1) (with_key 2) = Some (src', dst') ∧ hash_ok src' ∧ hash_ok dst' ∧
    table_map src' = ∅ ∧ table_map dst' = table_map (with_key 1) ∪ table_map (with_key 2))) ∧
  ((∃ h : Hash (Z * Z), hash_init [97; 0] 100 = Some h ∧ hash_ok h ∧ table_map h = ∅ ∧ 100 ≤ h_size h) ∧
  (NoDup (hash_delete (with_key 1)) ∧ (∀ o, o ∈ hash_delete (with_key 1) ↔ table_map (with_key 1) !! okey o = Some o) ∧
  hash_foreach (with_key 1) (λ o acc, acc ++ [o]) [] = [(1, 1)] ∧
  hi_objs (hash_get_info (with_key 1)) = Z.of_nat (size (table_map (with_key 1))))).
Proof.
  split.
  - split.
    + exact (proj1 (proj1 hash_life_cycle) empty true (proj1 empty_ok)).
    + exact (proj2 (proj1 hash_life_cycle) _ _ (proj1 (with_key_ok 1)) (proj1 (with_key_ok 2)) one_two_disjoint).
  - split.
    + exact (proj1 ((proj1 (proj2 hash_life_cycle)) [97; 0] 100) ltac:(lia)).
    + exact (proj2 (proj2 hash_life_cycle) (with_key 1) (proj1 (with_key_ok 1))).
Defined.

Definition no_index : Z * Z → Z := λ _, -1.
Definition empty_ix : IndexTable (Z * Z) := MkIndex empty 0 2000 0 [None; None] no_index.

Lemma empty_ix_ok : index_ok empty_ix.
Proof.
  split; [apply empty_ok|]. split; cbn.
  - lia.
  - exists 0%nat. split; [done|]. split; [cbn; lia|]. lia.
  - done.
  - intros p Hp. by apply elem_of_nil in Hp.
  - lia.
Qed.

Lemma index_tables_correct_witness :
  (index_get empty_ix (5, 0) = Some (-1) ∧
  ((index_put empty_ix (5, 0) (5, 1) = None ∧ 0 = 0 ∧ 2000 ≤ 0) ∨
  ∃ t', index_put empty_ix (5, 0) (5, 1) = Some (0, t') ∧ index_ok t' ∧ t_entries t' = 0 + 1 ∧
    table_map (t_htable t') = <[5 := (5, 1)]> (table_map empty) ∧
    (∀ p, p ∈ objs empty → ix_field t' p = -1) ∧
    (∀ i, 0 ≤ i < 0 → erts_index_lookup t' i = erts_index_lookup empty_ix i) ∧
    erts_index_lookup t' 0 = Some (5, 1) ∧ index_get t' (5, 0) = Some 0)) ∧
  (∃ dst1 src' h', erts_index_merge (with_key 1) empty_ix = Some dst1 ∧
    erts_hash_merge (with_key 1) (t_htable dst1) = Some (src', h') ∧
    index_ok (set_htable dst1 h') ∧ table_map src' = ∅ ∧ table_map h' = table_map (with_key 1) ∪ table_map empty ∧
    (∀ i p, objs (with_key 1) !! i = Some p → ix_field dst1 p = 0 + Z.of_nat i) ∧
    (∀ p, p ∈ objs empty → ix_field dst1 p = -1)).
Proof.
  split.
  - exact (proj1 index_tables_correct empty_ix (5, 0) (5, 1) empty_ix_ok eq_refl eq_refl).
  - refine (proj2 index_tables_correct (with_key 1) empty_ix (proj1 (with_key_ok 1)) empty_ix_ok _ _).
    + change (t_htable empty_ix) with empty. rewrite (proj2 empty_ok). apply map_disjoint_empty_r.
    + vm_compute. discriminate.
Defined.

End Instances.
