(* ===== verification/Avl.v ===== *)
(** The AVL trees of [erts/emulator/beam/erl_monitors.c].

    Monitors, links and suspend monitors are kept in trees of nodes that start with [left], [right] and [balance].  The
    operations walk down with a pointer [this] to the slot that holds the current node, pushing slots on [tstack] and
    directions on [dstack], and rebalance on the way back.  A tree is a value here; a stack of slots is the list of
    the nodes above the current slot, each without the child the walk went into, innermost first. *)

From Stdlib Require Import ZArith ZifyBool.
From stdpp Require Import base list numbers option.
From S2P Require Import Prelude.
Local Open Scope Z_scope.

Definition STACK_NEED : nat := 50.

Inductive tree (A : Type) : Type :=
| Leaf
| Node (left : tree A) (a : A) (balance : Z) (right : tree A).
Arguments Leaf {A}.
Arguments Node {A} left a balance right.

(** A node above the current slot: [FL]: the walk went left ([DIR_LEFT]), [FR]: right ([DIR_RIGHT]). *)
Inductive frame (A : Type) : Type :=
| FL (a : A) (balance : Z) (right : tree A)
| FR (left : tree A) (a : A) (balance : Z).
Arguments FL {A} a balance right.
Arguments FR {A} left a balance.

Section Avl.
Context {A : Type}.
Implicit Types (t p : tree A) (stk : list (frame A)).

Definition plug (f : frame A) (sub : tree A) : tree A :=
  match f with FL a b r => Node sub a b r | FR l a b => Node l a b sub end.

(** [dstack[dpos++] = dir; tstack[tpos++] = this]: undefined when the arrays are full. *)
Definition push (f : frame A) stk : option (list (frame A)) :=
  if bool_decide (length stk < STACK_NEED)%nat then Some (f :: stk) else None.

(** The descent of all operations: [c] is the comparison of the searched key with a node's.  Ends at an empty
    slot or at the node with an equal key. *)
Fixpoint walk (c : A → Z) t stk : option (list (frame A) * tree A) :=
  match t with
  | Leaf => Some (stk, Leaf)
  | Node l a b r =>
      if c a <? 0 then stk' ← push (FL a b r) stk; walk c l stk'
      else if c a >? 0 then stk' ← push (FR l a b) stk; walk c r stk'
      else Some (stk, t)
  end.

Definition set_balance (b : Z) t : option (tree A) :=
  match t with Leaf => None | Node l a _ r => Some (Node l a b r) end.

(** One iteration of [insertion_rotation] at the node above a grown subtree: the new subtree and [state]. *)
Definition rotate_insert (f : frame A) (sub : tree A) : option (tree A * bool) :=
  match f with
  | FL a b r =>
      if b =? 1 then Some (Node sub a 0 r, false)
      else if b =? 0 then Some (Node sub a (-1) r, true)
      else if b =? -1 then
        match sub with
        | Node p1l p1 b1 p1r =>
            if b1 =? -1 then Some (Node p1l p1 0 (Node p1r a 0 r), false)
            else
              match p1r with
              | Node p2l p2 b2 p2r =>
                  Some (Node (Node p1l p1 (if b2 =? 1 then -1 else 0) p2l) p2 0
                             (Node p2r a (if b2 =? -1 then 1 else 0) r), false)
              | Leaf => None
              end
        | Leaf => None
        end
      else Some (Node sub a b r, true)
  | FR l a b =>
      if b =? -1 then Some (Node l a 0 sub, false)
      else if b =? 0 then Some (Node l a 1 sub, true)
      else if b =? 1 then
        match sub with
        | Node p1l p1 b1 p1r =>
            if b1 =? 1 then Some (Node (Node l a 0 p1l) p1 0 p1r, false)
            else
              match p1l with
              | Node p2l p2 b2 p2r =>
                  Some (Node (Node l a (if b2 =? 1 then -1 else 0) p2l) p2 0
                             (Node p2r p1 (if b2 =? -1 then 1 else 0) p1r), false)
              | Leaf => None
              end
        | Leaf => None
        end
      else Some (Node l a b sub, true)
  end.

Fixpoint insertion_rotation stk (sub : tree A) (state : bool) : option (tree A) :=
  match stk with
  | [] => Some sub
  | f :: stk' =>
      if state then '(p, state') ← rotate_insert f sub; insertion_rotation stk' p state'
      else insertion_rotation stk' (plug f sub) false
  end.

(** [balance_left]: the left subtree of the node has become lower.  The result is the new
    subtree and whether it has become lower itself. *)
Definition balance_left t : option (tree A * bool) :=
  match t with
  | Leaf => None
  | Node l a b r =>
      if b =? -1 then Some (Node l a 0 r, true)
      else if b =? 0 then Some (Node l a 1 r, false)
      else if b =? 1 then
        match r with
        | Leaf => None
        | Node p1l p1 b1 p1r =>
            if b1 >=? 0 then
              if b1 =? 0 then Some (Node (Node l a 1 p1l) p1 (-1) p1r, false)
              else Some (Node (Node l a 0 p1l) p1 0 p1r, true)
            else
              match p1l with
              | Leaf => None
              | Node p2l p2 b2 p2r =>
                  Some (Node (Node l a (if b2 =? 1 then -1 else 0) p2l) p2 0
                             (Node p2r p1 (if b2 =? -1 then 1 else 0) p1r), true)
              end
        end
      else Some (t, true)
  end.

Definition balance_right t : option (tree A * bool) :=
  match t with
  | Leaf => None
  | Node l a b r =>
      if b =? 1 then Some (Node l a 0 r, true)
      else if b =? 0 then Some (Node l a (-1) r, false)
      else if b =? -1 then
        match l with
        | Leaf => None
        | Node p1l p1 b1 p1r =>
            if b1 <=? 0 then
              if b1 =? 0 then Some (Node p1l p1 1 (Node p1r a (-1) r), false)
              else Some (Node p1l p1 0 (Node p1r a 0 r), true)
            else
              match p1r with
              | Leaf => None
              | Node p2l p2 b2 p2r =>
                  Some (Node (Node p1l p1 (if b2 =? 1 then -1 else 0) p2l) p2 0
                             (Node p2r a (if b2 =? -1 then 1 else 0) r), true)
              end
        end
      else Some (t, true)
  end.

(** The first loop of [delsub], from slot [r]: down to the node without right child.  The slots are pushed on the
    function's own [tstack]; the result is that stack, the node taken out, and what replaces it. *)
Fixpoint rightmost t stk : option (list (frame A) * A * tree A) :=
  match t with
  | Leaf => None
  | Node l a b r =>
      match r with
      | Leaf => Some (stk, a, l)
      | Node _ _ _ _ => stk' ← push (FR l a b) stk; rightmost r stk'
      end
  end.

(** [while (tpos && h) h = balance_right(tstack[--tpos])] *)
Fixpoint unwind_right stk (sub : tree A) (h : bool) : option (tree A * bool) :=
  match stk with
  | [] => Some (sub, h)
  | f :: stk' =>
      if h then '(p, h') ← balance_right (plug f sub); unwind_right stk' p h'
      else unwind_right stk' (plug f sub) false
  end.

(** [delsub] at a node with two children: the node's place is taken by its predecessor. *)
Definition delsub (ql : tree A) (qb : Z) (qr : tree A) : option (tree A * bool) :=
  '(stk, x, xl) ← rightmost ql [];
  '(l', h) ← unwind_right stk xl true;
  Some (Node l' x qb qr, h).

(** The loop after a deletion. *)
Fixpoint deletion_rotation stk (sub : tree A) (state : bool) : option (tree A) :=
  match stk with
  | [] => Some sub
  | f :: stk' =>
      if state then
        '(p, state') ← (match f with FL _ _ _ => balance_left (plug f sub) | FR _ _ _ => balance_right (plug f sub) end);
        deletion_rotation stk' p state'
      else deletion_rotation stk' (plug f sub) false
  end.

(** The insertions: [None] is undefined behaviour; [inl q] an equal key at node [q]. *)
Definition avl_insert (c : A → Z) (a : A) (root : tree A) : option (A + tree A) :=
  '(stk, sub) ← walk c root [];
  match sub with
  | Node _ q _ _ => Some (inl q)
  | Leaf => root' ← insertion_rotation stk (Node Leaf a 0 Leaf) true; Some (inr root')
  end.

(** The removals: the removed node's contents, if any, and the new tree. *)
Definition avl_remove (c : A → Z) (root : tree A) : option (option A * tree A) :=
  '(stk, sub) ← walk c root [];
  match sub with
  | Leaf => Some (None, root)
  | Node l q b r =>
      root' ← (match r, l with
               | Leaf, _ => deletion_rotation stk l true
               | _, Leaf => deletion_rotation stk r true
               | _, _ =>
                   _ ← push (FL q b r) stk;
                   '(p, state) ← delsub l b r;
                   if (state : bool) then q' ← balance_left p; deletion_rotation stk q'.1 q'.2
                   else deletion_rotation stk p false
               end);
      Some (Some q, root')
  end.

Fixpoint avl_lookup (c : A → Z) (root : tree A) : option A :=
  match root with
  | Leaf => None
  | Node l a _ r => if c a =? 0 then Some a else if c a <? 0 then avl_lookup c l else avl_lookup c r
  end.

(** The loop of the sweep functions over [root] and the stacks, one iteration: [inr] ends it. *)
Inductive dir := DIR_LEFT | DIR_RIGHT.

Definition sweep_step (s : tree A * list (dir * tree A) * list A) : option ((tree A * list (dir * tree A) * list A) + list A) :=
  let '(root, stk, done) := s in
  match root with
  | Leaf =>
      match stk with
      | [] => Some (inr done)
      | (DIR_LEFT, t) :: stk' =>
          match t with Node _ _ _ r => Some (inl (r, (DIR_RIGHT, t) :: stk', done)) | Leaf => None end
      | (DIR_RIGHT, t) :: stk' =>
          match t with Node _ a _ _ => Some (inl (Leaf, stk', done ++ [a])) | Leaf => None end
      end
  | Node l _ _ _ =>
      if bool_decide (length stk < STACK_NEED)%nat then Some (inl (l, (DIR_LEFT, root) :: stk, done)) else None
  end.

(** [done] collects the arguments of the calls of [doit], in order; the outer [None] is undefined
    behaviour or lack of fuel. *)
Fixpoint sweep_loop (fuel : nat) (s : tree A * list (dir * tree A) * list A) : option (list A) :=
  match fuel with
  | O => None
  | S fuel' => match sweep_step s with None => None | Some (inr done) => Some done | Some (inl s') => sweep_loop fuel' s' end
  end.

Definition avl_sweep (fuel : nat) (root : tree A) : option (list A) := sweep_loop fuel (root, [], []).

End Avl.
