(* ===== verification/AvlSpec.v ===== *)
(** The AVL operations keep the trees balanced and ordered, act as operations on the ordered list of nodes,
    and never overflow their stacks of 50 slots on any tree that fits in memory. *)

From Stdlib Require Import ZArith ZifyBool Sorted.
From stdpp Require Import base list numbers option.
From S2P Require Import Prelude Avl.
Local Open Scope Z_scope.

Section Balance.
Context {A : Type}.
Implicit Types (t l r : tree A) (stk : list (frame A)).

(** In-order contents, and the number of nodes. *)
Fixpoint elems t : list A :=
  match t with Leaf => [] | Node l a _ r => elems l ++ a :: elems r end.

(** [avl t h]: [t] has height [h], and every [balance] is the difference of the heights, at most 1. *)
Inductive avl : tree A → Z → Prop :=
| avl_leaf : avl Leaf 0
| avl_node l a b r hl hr :
    avl l hl → avl r hr → b = hr - hl → -1 ≤ b ≤ 1 → avl (Node l a b r) (1 + hl `max` hr).

Lemma avl_pos t h : avl t h → 0 ≤ h.
Proof. induction 1; lia. Qed.

Lemma avl_node' l a b r hl hr h :
  avl l hl → avl r hr → b = hr - hl → -1 ≤ b ≤ 1 → h = 1 + hl `max` hr → avl (Node l a b r) h.
Proof. intros ? ? ? ? ->. by constructor. Qed.

Lemma avl_node_inv l a b r h : avl (Node l a b r) h →
  ∃ hl hr, avl l hl ∧ avl r hr ∧ b = hr - hl ∧ -1 ≤ b ≤ 1 ∧ h = 1 + hl `max` hr ∧ 0 ≤ hl ∧ 0 ≤ hr.
Proof. inversion 1; subst. do 2 eexists. repeat split; eauto using avl_pos; lia. Qed.

Lemma avl_Leaf_inv h : avl Leaf h → h = 0.
Proof. by inversion 1. Qed.

Lemma avl_leaf_inv t h : avl t h → h = 0 → t = Leaf.
Proof. intros Ht. destruct Ht as [|l a b r hl hr Hl Hr]; [done|]. apply avl_pos in Hl, Hr. lia. Qed.

(** A subtree that has grown: its root is not balanced, unless it is the new node. *)
Definition grown t (h : Z) : Prop :=
  avl t h ∧ match t with Leaf => False | Node _ _ b _ => b ≠ 0 ∨ h = 1 end.

(** [f] fits above a subtree of height [hs]: with it the node has height [h]. *)
Definition frame_avl (f : frame A) (hs h : Z) : Prop :=
  match f with
  | FL _ b r => ∃ hr, avl r hr ∧ b = hr - hs ∧ -1 ≤ b ≤ 1 ∧ h = 1 + hs `max` hr
  | FR l _ b => ∃ hl, avl l hl ∧ b = hs - hl ∧ -1 ≤ b ≤ 1 ∧ h = 1 + hl `max` hs
  end.

Fixpoint ctx_avl stk (hs h : Z) : Prop :=
  match stk with [] => hs = h | f :: stk' => ∃ hm, frame_avl f hs hm ∧ ctx_avl stk' hm h end.

Lemma plug_avl f t hs h : frame_avl f hs h → avl t hs → avl (plug f t) h.
Proof.
  destruct f; intros (hx & Hx & Hb & Hb1 & ->) Ht; cbn [plug].
  - by eapply avl_node'.
  - by eapply avl_node'.
Qed.

(** What lies left and right of the slot. *)
Fixpoint ctx_left stk : list A :=
  match stk with [] => [] | FL _ _ _ :: stk' => ctx_left stk' | FR l a _ :: stk' => ctx_left stk' ++ elems l ++ [a] end.
Fixpoint ctx_right stk : list A :=
  match stk with [] => [] | FL a _ r :: stk' => a :: elems r ++ ctx_right stk' | FR _ _ _ :: stk' => ctx_right stk' end.

Ltac avl_inv :=
  repeat match goal with
  | H : avl (Node _ _ _ _) _ |- _ => apply avl_node_inv in H as (? & ? & ? & ? & ? & ? & ? & ? & ?)
  | H : avl Leaf _ |- _ => apply avl_Leaf_inv in H
  end.

(** Solves goals [avl (Node ...) h] from the subtrees. *)
Ltac avl_build := repeat first [eassumption | eapply avl_node' | lia | reflexivity].

Ltac elems_eq := cbn [elems plug]; rewrite <- ?app_assoc, <- ?app_comm_cons; cbn [app]; rewrite <- ?app_assoc; done.

(** ** Insertion *)
Lemma rotate_insert_ok f sub hs h :
  frame_avl f hs h → grown sub (hs + 1) →
  ∃ p state, rotate_insert f sub = Some (p, state) ∧ elems p = elems (plug f sub) ∧
    if state then grown p (h + 1) else avl p h.
Proof.
  intros Hf [Hsub Hg]. destruct f as [a b r|l a b]; destruct Hf as (hx & Hx & Hb & Hb1 & ->).
  - cbn [rotate_insert plug]. destruct (Z.eqb_spec b 1) as [->|].
    { do 2 eexists. split; [done|]. split; [done|]. avl_build. }
    destruct (Z.eqb_spec b 0) as [->|].
    { do 2 eexists. split; [done|]. split; [done|]. split; [avl_build|]. left. lia. }
    destruct (Z.eqb_spec b (-1)) as [->|]; [|lia].
    destruct sub as [|p1l p1 b1 p1r]; [done|]. avl_inv.
    destruct (Z.eqb_spec b1 (-1)) as [->|].
    { do 2 eexists. split; [done|]. split; [elems_eq|]. avl_build. }
    destruct p1r as [|p2l p2 b2 p2r]; avl_inv.
    { exfalso. pose proof (avl_pos _ _ Hx). lia. }
    do 2 eexists. split; [done|]. split; [elems_eq|]. pose proof (avl_pos _ _ Hx).
    destruct (Z.eqb_spec b2 1), (Z.eqb_spec b2 (-1)); try lia; avl_build.
  - cbn [rotate_insert plug]. destruct (Z.eqb_spec b (-1)) as [->|].
    { do 2 eexists. split; [done|]. split; [done|]. avl_build. }
    destruct (Z.eqb_spec b 0) as [->|].
    { do 2 eexists. split; [done|]. split; [done|]. split; [avl_build|]. left. lia. }
    destruct (Z.eqb_spec b 1) as [->|]; [|lia].
    destruct sub as [|p1l p1 b1 p1r]; [done|]. avl_inv.
    destruct (Z.eqb_spec b1 1) as [->|].
    { do 2 eexists. split; [done|]. split; [elems_eq|]. avl_build. }
    destruct p1l as [|p2l p2 b2 p2r]; avl_inv.
    { exfalso. pose proof (avl_pos _ _ Hx). lia. }
    do 2 eexists. split; [done|]. split; [elems_eq|]. pose proof (avl_pos _ _ Hx).
    destruct (Z.eqb_spec b2 1), (Z.eqb_spec b2 (-1)); try lia; avl_build.
Qed.



Lemma insertion_rotation_keep stk t : insertion_rotation stk t false = Some (foldl (λ t f, plug f t) t stk).
Proof. revert t. induction stk as [|f stk IH]; intros t; [done|]. cbn. apply IH. Qed.

Lemma foldl_plug_avl stk t hs h : ctx_avl stk hs h → avl t hs → avl (foldl (λ t f, plug f t) t stk) h.
Proof.
  revert t hs. induction stk as [|f stk IH]; intros t hs; cbn; [by intros ->|].
  intros (hm & Hf & Hc) Ht. eapply IH; [done|by eapply plug_avl].
Qed.

Lemma foldl_plug_elems stk t : elems (foldl (λ t f, plug f t) t stk) = ctx_left stk ++ elems t ++ ctx_right stk.
Proof.
  revert t. induction stk as [|f stk IH]; intros t; cbn; [by rewrite app_nil_r|]. rewrite IH.
  destruct f; cbn; rewrite <- ?app_assoc; cbn; by rewrite <- ?app_assoc.
Qed.

Lemma insertion_rotation_ok stk sub hs h :
  ctx_avl stk hs h → grown sub (hs + 1) →
  ∃ t, insertion_rotation stk sub true = Some t ∧ (avl t h ∨ avl t (h + 1)) ∧
    elems t = ctx_left stk ++ elems sub ++ ctx_right stk.
Proof.
  revert sub hs. induction stk as [|f stk IH]; intros sub hs.
  { cbn. intros -> [Hs _]. exists sub. rewrite app_nil_r. auto. }
  cbn [ctx_avl]. intros (hm & Hf & Hc) Hg. cbn [insertion_rotation].
  destruct (rotate_insert_ok f sub hs hm Hf Hg) as (p & state & -> & He & Hp). cbn [mbind option_bind].
  assert (ctx_left stk ++ elems p ++ ctx_right stk = ctx_left (f :: stk) ++ elems sub ++ ctx_right (f :: stk)) as Hctx.
  { rewrite He. destruct f; cbn; rewrite <- ?app_assoc; cbn; by rewrite <- ?app_assoc. }
  destruct state.
  - destruct (IH p hm Hc Hp) as (t & -> & Ha & Het). exists t. by rewrite Het, Hctx.
  - rewrite insertion_rotation_keep. eexists. split; [done|]. rewrite foldl_plug_elems, Hctx. split; [|done].
    left. by eapply foldl_plug_avl.
Qed.

(** ** Deletion *)

(** The result of a rebalancing step at a node of height [h] before: [low] tells whether it is lower now. *)
Definition shrunk t (low : bool) (h : Z) : Prop := if low then avl t (h - 1) else avl t h.

Lemma balance_left_ok l a b r hl hr :
  avl l (hl - 1) → avl r hr → b = hr - hl → -1 ≤ b ≤ 1 →
  ∃ p low, balance_left (Node l a b r) = Some (p, low) ∧ elems p = elems (Node l a b r) ∧ shrunk p low (1 + hl `max` hr).
Proof.
  intros Hl Hr Hb Hb1. pose proof (avl_pos _ _ Hl). pose proof (avl_pos _ _ Hr). unfold shrunk. cbn [balance_left].
  destruct (Z.eqb_spec b (-1)) as [->|].
  { do 2 eexists. split; [done|]. split; [done|]. avl_build. }
  destruct (Z.eqb_spec b 0) as [->|].
  { do 2 eexists. split; [done|]. split; [done|]. avl_build. }
  destruct (Z.eqb_spec b 1) as [->|]; [|lia].
  destruct r as [|p1l p1 b1 p1r]; avl_inv; [lia|].
  destruct (Z.geb_spec b1 0).
  { destruct (Z.eqb_spec b1 0) as [->|]; do 2 eexists; (split; [done|]); (split; [elems_eq|]); avl_build. }
  destruct p1l as [|p2l p2 b2 p2r]; avl_inv; [lia|].
  do 2 eexists. split; [done|]. split; [elems_eq|].
  destruct (Z.eqb_spec b2 1), (Z.eqb_spec b2 (-1)); try lia; avl_build.
Qed.

Lemma balance_right_ok l a b r hl hr :
  avl l hl → avl r (hr - 1) → b = hr - hl → -1 ≤ b ≤ 1 →
  ∃ p low, balance_right (Node l a b r) = Some (p, low) ∧ elems p = elems (Node l a b r) ∧ shrunk p low (1 + hl `max` hr).
Proof.
  intros Hl Hr Hb Hb1. pose proof (avl_pos _ _ Hl). pose proof (avl_pos _ _ Hr). unfold shrunk. cbn [balance_right].
  destruct (Z.eqb_spec b 1) as [->|].
  { do 2 eexists. split; [done|]. split; [done|]. avl_build. }
  destruct (Z.eqb_spec b 0) as [->|].
  { do 2 eexists. split; [done|]. split; [done|]. avl_build. }
  destruct (Z.eqb_spec b (-1)) as [->|]; [|lia].
  destruct l as [|p1l p1 b1 p1r]; avl_inv; [lia|].
  destruct (Z.leb_spec b1 0).
  { destruct (Z.eqb_spec b1 0) as [->|]; do 2 eexists; (split; [done|]); (split; [elems_eq|]); avl_build. }
  destruct p1r as [|p2l p2 b2 p2r]; avl_inv; [lia|].
  do 2 eexists. split; [done|]. split; [elems_eq|].
  destruct (Z.eqb_spec b2 1), (Z.eqb_spec b2 (-1)); try lia; avl_build.
Qed.

(** Rebalancing one frame, whichever side became lower. *)
Lemma balance_frame_ok f sub hs h :
  frame_avl f hs h → avl sub (hs - 1) →
  ∃ p low, (match f with FL _ _ _ => balance_left (plug f sub) | FR _ _ _ => balance_right (plug f sub) end) = Some (p, low) ∧
    elems p = elems (plug f sub) ∧ shrunk p low h.
Proof.
  destruct f as [a b r|l a b]; intros (hx & Hx & Hb & Hb1 & ->) Hs; cbn [plug].
  - by apply balance_left_ok.
  - by apply balance_right_ok.
Qed.

Lemma deletion_rotation_keep stk t : deletion_rotation stk t false = Some (foldl (λ t f, plug f t) t stk).
Proof. revert t. induction stk as [|f stk IH]; intros t; [done|]. cbn. apply IH. Qed.

Lemma ctx_elems f stk t p : elems p = elems (plug f t) →
  ctx_left stk ++ elems p ++ ctx_right stk = ctx_left (f :: stk) ++ elems t ++ ctx_right (f :: stk).
Proof. intros ->. destruct f; cbn; rewrite <- ?app_assoc; cbn; by rewrite <- ?app_assoc. Qed.

Lemma deletion_rotation_ok stk sub low hs h :
  ctx_avl stk hs h → shrunk sub low hs →
  ∃ t, deletion_rotation stk sub low = Some t ∧ (avl t h ∨ avl t (h - 1)) ∧
    elems t = ctx_left stk ++ elems sub ++ ctx_right stk.
Proof.
  revert sub low hs. induction stk as [|f stk IH]; intros sub low hs.
  { cbn. intros -> Hs. exists sub. rewrite app_nil_r. split; [done|]. split; [|done]. destruct low; auto. }
  cbn [ctx_avl]. intros (hm & Hf & Hc) Hs. destruct low; cbn [deletion_rotation].
  - destruct (balance_frame_ok f sub hs hm Hf Hs) as (p & low & -> & He & Hp). cbn [mbind option_bind].
    destruct (IH p low hm Hc Hp) as (t & -> & Ha & Het). exists t. rewrite Het. by rewrite (ctx_elems f stk sub p).
  - rewrite deletion_rotation_keep. eexists. split; [done|]. rewrite foldl_plug_elems, (ctx_elems f stk sub (plug f sub)) by done.
    split; [|done]. left. eapply foldl_plug_avl; [done|by eapply plug_avl].
Qed.

(** [unwind_right] on a stack of right turns, as [delsub] builds it. *)
Definition all_right stk : Prop := Forall (λ f, match f with FR _ _ _ => True | FL _ _ _ => False end) stk.

Lemma unwind_right_keep stk t : unwind_right stk t false = Some (foldl (λ t f, plug f t) t stk, false).
Proof. revert t. induction stk as [|f stk IH]; intros t; [done|]. cbn. apply IH. Qed.

Lemma unwind_right_ok stk sub low hs h :
  all_right stk → ctx_avl stk hs h → shrunk sub low hs →
  ∃ t low', unwind_right stk sub low = Some (t, low') ∧ shrunk t low' h ∧
    elems t = ctx_left stk ++ elems sub ++ ctx_right stk.
Proof.
  intros Hall. revert sub low hs. induction Hall as [|f stk Hf0 Hall IH]; intros sub low hs.
  { cbn. intros -> Hs. exists sub, low. by rewrite app_nil_r. }
  cbn [ctx_avl]. intros (hm & Hf & Hc) Hs. destruct low; cbn [unwind_right].
  - destruct (balance_frame_ok f sub hs hm Hf Hs) as (p & low & Hp' & He & Hp). destruct f; [done|]. rewrite Hp'.
    cbn [mbind option_bind]. destruct (IH p low hm Hc Hp) as (t & low' & -> & Ha & Het). exists t, low'.
    rewrite Het. by rewrite (ctx_elems (FR left a balance) stk sub p).
  - rewrite unwind_right_keep. do 2 eexists. split; [done|].
    rewrite foldl_plug_elems, (ctx_elems f stk sub (plug f sub)) by done.
    split; [|done]. eapply foldl_plug_avl; [done|by eapply plug_avl].
Qed.

Lemma push_ok (f : frame A) stk : (length stk < STACK_NEED)%nat → push f stk = Some (f :: stk).
Proof. intros Hl. unfold push. by rewrite bool_decide_eq_true_2. Qed.

Lemma rightmost_ok t stk hs h :
  avl t hs → t ≠ Leaf → ctx_avl stk hs h → all_right stk → Z.of_nat (length stk) + hs ≤ Z.of_nat STACK_NEED →
  ∃ stk' x xl hx, rightmost t stk = Some (stk', x, xl) ∧ all_right stk' ∧ ctx_avl stk' hx h ∧ avl xl (hx - 1) ∧
    ctx_left stk ++ elems t ++ ctx_right stk = ctx_left stk' ++ elems xl ++ x :: ctx_right stk' ∧ ctx_right stk' = ctx_right stk.
Proof.
  revert stk hs. induction t as [|l IHl a b r IHr]; intros stk hs Ht Hne Hc Hall Hlen; [done|]. clear IHl.
  avl_inv. cbn [rightmost]. destruct r as [|rl ra rb rr].
  - avl_inv. exists stk, a, l, hs. split; [done|]. split; [done|]. split; [done|]. split; [|split; [|done]].
    + match goal with H : avl l ?x |- _ => replace (hs - 1) with x by lia; exact H end.
    + cbn [elems]. by rewrite <- app_assoc.
  - set (r := Node rl ra rb rr) in *.
    match goal with H : avl r ?x |- _ => rename x into hr; rename H into Hr end.
    match goal with H : avl l ?x |- _ => rename x into hl; rename H into Hl end.
    assert (1 ≤ hr) by (unfold r in Hr; avl_inv; lia).
    rewrite push_ok by lia. cbn [mbind option_bind].
    destruct (IHr (FR l a b :: stk) hr) as (stk' & x & xl & hx & -> & G1 & G2 & G3 & G4 & G5); [done|done| | |cbn [length]; lia|].
    + cbn [ctx_avl frame_avl]. exists hs. split; [exists hl; repeat split; (done || lia)|done].
    + by constructor.
    + exists stk', x, xl, hx. split; [done|]. split; [done|]. split; [done|]. split; [done|]. split; [|done].
      rewrite <- G4. cbn [elems ctx_left ctx_right]. rewrite <- !app_assoc. by cbn [app].
Qed.

Lemma delsub_ok ql q qb qr hl hr :
  avl ql hl → avl qr hr → ql ≠ Leaf → qb = hr - hl → hl ≤ Z.of_nat STACK_NEED →
  ∃ l' x low, delsub ql qb qr = Some (Node l' x qb qr, low) ∧ shrunk l' low hl ∧
    elems (Node ql q qb qr) = elems l' ++ x :: q :: elems qr.
Proof.
  intros Hl Hr Hne Hb Hlen. unfold delsub.
  destruct (rightmost_ok ql [] hl hl Hl Hne) as (stk & x & xl & hx & -> & Hall & Hc & Hx & He & Hcr); [done|constructor|cbn; lia|].
  cbn [mbind option_bind].
  destruct (unwind_right_ok stk xl true hx hl Hall Hc Hx) as (l' & low & -> & Hs & He'). cbn [mbind option_bind].
  exists l', x, low. split; [done|]. split; [done|]. cbn [ctx_left ctx_right app] in He, Hcr. rewrite app_nil_r in He.
  cbn [elems]. rewrite He, He', Hcr, app_nil_r, <- !app_assoc. done.
Qed.

End Balance.

(** * Ordered AVL trees: the operations of [Avl] as operations on a finite map ordered by key, the height of a tree,
    and the sweep. *)

(** A comparison function in the C style is a strict total order. *)
Class CmpOrder {K : Type} (cmp : K → K → Z) : Prop := {
  cmp_eq : ∀ x y, cmp x y = 0 ↔ x = y;
  cmp_anti : ∀ x y, cmp x y < 0 ↔ 0 < cmp y x;
  cmp_trans : ∀ x y z, cmp x y < 0 → cmp y z < 0 → cmp x z < 0 }.

(** * Height *)

(** The least number of nodes of a tree of height [n], and of height [n + 1]. *)
Fixpoint min_nodes2 (n : nat) : Z * Z :=
  match n with O => (0, 1) | S n' => let (a, b) := min_nodes2 n' in (b, a + b + 1) end.
Definition min_nodes (n : nat) : Z := (min_nodes2 n).1.

Lemma min_nodes_SS n : min_nodes (S (S n)) = min_nodes n + min_nodes (S n) + 1.
Proof. unfold min_nodes. cbn. by destruct (min_nodes2 n). Qed.

Lemma min_nodes_mono n m : (n ≤ m)%nat → 0 ≤ min_nodes n ≤ min_nodes m.
Proof.
  assert (∀ n, 0 ≤ min_nodes n ≤ min_nodes (S n)) as Hs.
  { induction n0 as [|n0 IH]; [done|]. rewrite min_nodes_SS. lia. }
  induction 1 as [|m Hle IH]; [specialize (Hs n); lia|]. specialize (Hs m). lia.
Qed.

Section Height.
Context {A : Type}.
Implicit Types t : tree A.

Lemma avl_min_nodes t h : avl t h → min_nodes (Z.to_nat h) ≤ zlen (elems t).
Proof.
  induction 1 as [|l a b r hl hr Hl IHl Hr IHr Hb Hb1]; [done|].
  pose proof (avl_pos _ _ Hl). pose proof (avl_pos _ _ Hr). cbn [elems]. len_simpl.
  assert (hl = hr ∨ hl = hr + 1 ∨ hr = hl + 1) as [->|[->| ->]] by lia.
  - replace (Z.to_nat (1 + hr `max` hr)) with (S (Z.to_nat hr)) by lia.
    destruct (Z.to_nat hr) as [|k] eqn:E; [cbn; lia|]. rewrite min_nodes_SS.
    pose proof (min_nodes_mono k (S k) ltac:(lia)). lia.
  - replace (Z.to_nat (1 + (hr + 1) `max` hr)) with (S (S (Z.to_nat hr))) by lia. rewrite min_nodes_SS.
    replace (Z.to_nat (hr + 1)) with (S (Z.to_nat hr)) in IHl by lia. lia.
  - replace (Z.to_nat (1 + hl `max` (hl + 1))) with (S (S (Z.to_nat hl))) by lia. rewrite min_nodes_SS.
    replace (Z.to_nat (hl + 1)) with (S (Z.to_nat hl)) in IHr by lia. lia.
Qed.

(** The number of nodes that a tree needs to be higher than the stacks. *)
Definition STACK_NODES : Z := 53316291172.

Lemma avl_stack_need t h : avl t h → zlen (elems t) < STACK_NODES → h ≤ Z.of_nat STACK_NEED.
Proof.
  intros Ht Hn. apply avl_min_nodes in Ht as Hm. destruct (Z.le_gt_cases h (Z.of_nat STACK_NEED)) as [|Hgt]; [done|].
  pose proof (min_nodes_mono 51 (Z.to_nat h) ltac:(unfold STACK_NEED in Hgt; lia)).
  change (min_nodes 51) with STACK_NODES in *. lia.
Qed.

(** ** Sweep *)
Fixpoint postorder t : list A :=
  match t with Leaf => [] | Node l a _ r => postorder l ++ postorder r ++ [a] end.

Lemma postorder_perm t : postorder t ≡ₚ elems t.
Proof.
  induction t as [|l IHl a b r IHr]; [done|]. cbn. rewrite IHl, IHr. by rewrite Permutation_app_comm with (l := elems r).
Qed.

Lemma sweep_tree t h stk dn fuel :
  avl t h → Z.of_nat (length stk) + h ≤ Z.of_nat STACK_NEED →
  sweep_loop (3 * length (elems t) + fuel) (t, stk, dn) = sweep_loop fuel (Leaf, stk, dn ++ postorder t).
Proof.
  intros Ht. revert stk dn fuel.
  induction Ht as [|l a b r hl hr Hl IHl Hr IHr Hb Hb1]; intros stk dn fuel Hlen; [by rewrite app_nil_r|].
  pose proof (avl_pos _ _ Hl). pose proof (avl_pos _ _ Hr). cbn [elems postorder]. rewrite length_app. cbn [length].
  replace (3 * (length (elems l) + S (length (elems r))) + fuel)%nat
    with (S (3 * length (elems l) + S (3 * length (elems r) + S fuel)))%nat by lia.
  cbn [sweep_loop sweep_step]. rewrite bool_decide_eq_true_2 by lia.
  rewrite IHl by (cbn [length]; lia). cbn [sweep_loop sweep_step].
  rewrite IHr by (cbn [length]; lia). cbn [sweep_loop sweep_step]. by rewrite <- !app_assoc.
Qed.

Lemma avl_sweep_ok t h fuel : avl t h → zlen (elems t) < STACK_NODES → (3 * length (elems t) < fuel)%nat →
  avl_sweep fuel t = Some (postorder t).
Proof.
  intros Ht Hn Hf. pose proof (avl_stack_need t h Ht Hn). unfold avl_sweep.
  replace fuel with (3 * length (elems t) + S (fuel - 3 * length (elems t) - 1))%nat by lia.
  rewrite (sweep_tree t h) by (done || cbn; lia). done.
Qed.

End Height.

(** * Order *)
Section Order.
Context {A K : Type} (key : A → K) (cmp : K → K → Z) `{!CmpOrder cmp}.
Implicit Types (t : tree A) (stk : list (frame A)) (k : K) (a q : A).

Definition below k a : Prop := cmp (key a) k < 0.
Definition above k a : Prop := cmp k (key a) < 0.
Definition lt_key a b : Prop := cmp (key a) (key b) < 0.
Definition ordered (l : list A) : Prop := StronglySorted lt_key l.

Lemma ordered_app l1 l2 : ordered (l1 ++ l2) ↔ ordered l1 ∧ ordered l2 ∧ ∀ x y, x ∈ l1 → y ∈ l2 → lt_key x y.
Proof.
  induction l1 as [|x l1 IH]; cbn [app].
  - split; [intros; split; [constructor|]; split; [done|]; intros x y Hx; by apply elem_of_nil in Hx|tauto].
  - split.
    + intros [Hs Hf]%StronglySorted_inv. apply IH in Hs as (H1 & H2 & H3). rewrite Forall_app in Hf. destruct Hf as [Hf1 Hf2].
      split; [by constructor|]. split; [done|]. intros u v [->|Hu]%elem_of_cons Hv; [|by apply H3].
      rewrite Forall_forall in Hf2. apply Hf2. by apply list_elem_of_In.
    + intros ([Hs Hf]%StronglySorted_inv & H2 & H3). constructor.
      * apply IH. split; [done|]. split; [done|]. intros u v Hu. apply H3. by right.
      * rewrite Forall_app. split; [done|]. apply Forall_forall. intros v Hv. apply H3; [left|by apply list_elem_of_In].
Qed.

Lemma ordered_split l a r : ordered (l ++ a :: r) → Forall (below (key a)) l ∧ Forall (above (key a)) r.
Proof.
  intros (H1 & [H2 H3]%StronglySorted_inv & H4)%ordered_app. split; [|done].
  apply Forall_forall. intros x Hx. apply H4; [by apply list_elem_of_In|left].
Qed.

Lemma below_trans k a b : lt_key a b → below k b → below k a.
Proof. apply cmp_trans. Qed.
Lemma above_trans k a b : above k a → lt_key a b → above k b.
Proof. apply cmp_trans. Qed.

Lemma forall_below k a l : cmp k (key a) > 0 → Forall (below (key a)) l → Forall (below k) (l ++ [a]).
Proof.
  intros Hk Hl. assert (below k a) by (apply cmp_anti; lia). apply Forall_app. split; [|by constructor].
  eapply Forall_impl; [|exact Hl]. intros x Hx. eapply cmp_trans; [exact Hx|done].
Qed.

Lemma forall_above k a l : cmp k (key a) < 0 → Forall (above (key a)) l → Forall (above k) (a :: l).
Proof.
  intros Hk Hl. constructor; [done|]. eapply Forall_impl; [|exact Hl]. intros x Hx. eapply cmp_trans; [exact Hk|exact Hx].
Qed.

(** Where the walk for [k] ends. *)
Lemma walk_ok t k stk hs h :
  avl t hs → ctx_avl stk hs h → Z.of_nat (length stk) + hs ≤ Z.of_nat STACK_NEED → ordered (elems t) →
  Forall (below k) (ctx_left stk) → Forall (above k) (ctx_right stk) →
  ∃ stk' sub hsub, walk (λ a, cmp k (key a)) t stk = Some (stk', sub) ∧ avl sub hsub ∧ ctx_avl stk' hsub h ∧
    Z.of_nat (length stk') + hsub ≤ Z.of_nat STACK_NEED ∧
    ctx_left stk ++ elems t ++ ctx_right stk = ctx_left stk' ++ elems sub ++ ctx_right stk' ∧
    Forall (below k) (ctx_left stk') ∧ Forall (above k) (ctx_right stk') ∧
    match sub with Leaf => True | Node _ q _ _ => key q = k end.
Proof.
  intros Ht. revert stk. induction Ht as [|l a b r hl hr Hl IHl Hr IHr Hb Hb1]; intros stk Hc Hlen Ho Hlow Hhigh.
  { exists stk, Leaf, 0. cbn [walk]. repeat split; (done || constructor). }
  cbn [elems] in Ho. destruct (ordered_split _ _ _ Ho) as [Hbl Hab]. apply ordered_app in Ho as (Hol & [Hor _]%StronglySorted_inv & _).
  pose proof (avl_pos _ _ Hl). pose proof (avl_pos _ _ Hr). cbn [walk].
  destruct (Z.ltb_spec (cmp k (key a)) 0); [|destruct (Z.gtb_spec (cmp k (key a)) 0)].
  - rewrite push_ok by lia. cbn [mbind option_bind].
    destruct (IHl (FL a b r :: stk)) as (stk' & sub & hsub & -> & G1 & G2 & G3 & G4 & G5 & G6 & G7).
    + cbn [ctx_avl frame_avl]. exists (1 + hl `max` hr). split; [exists hr; auto|done].
    + cbn [length]. lia.
    + done.
    + done.
    + cbn [ctx_right]. rewrite app_comm_cons. apply Forall_app. split; [by apply forall_above|done].
    + exists stk', sub, hsub. repeat split; try done. rewrite <- G4. cbn [elems ctx_left ctx_right]. by rewrite <- !app_assoc.
  - rewrite push_ok by lia. cbn [mbind option_bind].
    destruct (IHr (FR l a b :: stk)) as (stk' & sub & hsub & -> & G1 & G2 & G3 & G4 & G5 & G6 & G7).
    + cbn [ctx_avl frame_avl]. exists (1 + hl `max` hr). split; [exists hl; auto|done].
    + cbn [length]. lia.
    + done.
    + cbn [ctx_left]. apply Forall_app. split; [done|apply forall_below; [lia|done]].
    + done.
    + exists stk', sub, hsub. repeat split; try done. rewrite <- G4. cbn [elems ctx_left ctx_right].
      rewrite <- !app_assoc. by cbn [app].
  - exists stk, (Node l a b r), (1 + hl `max` hr). repeat split; try done; [by constructor|].
    symmetry. apply cmp_eq. lia.
Qed.

(** A tree of the right shape, of a size that fits in memory. *)
Definition avl_tree t : Prop := (∃ h, avl t h) ∧ ordered (elems t).

Lemma lookup_ok t k : ordered (elems t) →
  match avl_lookup (λ a, cmp k (key a)) t with
  | Some q => q ∈ elems t ∧ key q = k
  | None => ∀ q, q ∈ elems t → key q ≠ k
  end.
Proof.
  induction t as [|l IHl a b r IHr]; cbn [elems avl_lookup]; intros Ho.
  { intros q Hq. by apply elem_of_nil in Hq. }
  destruct (ordered_split _ _ _ Ho) as [Hbl Hab]. apply ordered_app in Ho as (Hol & [Hor _]%StronglySorted_inv & _).
  rewrite Forall_forall in Hbl, Hab.
  assert (∀ x, cmp x x = 0) as Hrefl by (intros; by apply cmp_eq).
  destruct (Z.eqb_spec (cmp k (key a)) 0) as [E|E].
  { apply cmp_eq in E. split; [|done]. apply elem_of_app. right. left. }
  destruct (Z.ltb_spec (cmp k (key a)) 0).
  - specialize (IHl Hol). destruct (avl_lookup _ l) as [q|]; [destruct IHl; split; [apply elem_of_app; by left|done]|].
    intros q [Hq|[->|Hq]%elem_of_cons]%elem_of_app Hk; [by apply (IHl q)|rewrite Hk in E; by rewrite Hrefl in E|].
    apply list_elem_of_In, Hab in Hq. unfold above in Hq. rewrite Hk in Hq. apply cmp_anti in Hq. lia.
  - specialize (IHr Hor). destruct (avl_lookup _ r) as [q|]; [destruct IHr; split; [apply elem_of_app; right; by right|done]|].
    intros q [Hq|[->|Hq]%elem_of_cons]%elem_of_app Hk; [|rewrite Hk in E; by rewrite Hrefl in E|by apply (IHr q)].
    apply list_elem_of_In, Hbl in Hq. unfold below in Hq. rewrite Hk in Hq. lia.
Qed.

Lemma no_key k l r : Forall (below k) l → Forall (above k) r → ∀ q, q ∈ l ++ r → key q ≠ k.
Proof.
  intros Hl Hr q Hq <-. assert (cmp (key q) (key q) = 0) by (by apply cmp_eq). rewrite Forall_forall in Hl, Hr.
  apply elem_of_app in Hq as [Hq%list_elem_of_In%Hl|Hq%list_elem_of_In%Hr]; unfold below, above in Hq; lia.
Qed.

Lemma ordered_unique l q q' : ordered l → q ∈ l → q' ∈ l → key q = key q' → q = q'.
Proof.
  intros Ho Hq Hq' Hk. assert (cmp (key q') (key q') = 0) as Hr by (by apply cmp_eq).
  induction Ho as [|x l Ho IH Hx]; [by apply elem_of_nil in Hq|]. rewrite Forall_forall in Hx.
  apply elem_of_cons in Hq as [->|Hq], Hq' as [->|Hq']; [done|..|by apply IH].
  - apply list_elem_of_In, Hx in Hq'. unfold lt_key in Hq'. rewrite Hk in Hq'. lia.
  - apply list_elem_of_In, Hx in Hq. unfold lt_key in Hq. rewrite Hk in Hq. lia.
Qed.

Lemma insert_ok t k a : avl_tree t → zlen (elems t) < STACK_NODES → key a = k →
  match avl_lookup (λ a, cmp k (key a)) t with
  | Some q => avl_insert (λ a, cmp k (key a)) a t = Some (inl q)
  | None => ∃ t' l r, avl_insert (λ a, cmp k (key a)) a t = Some (inr t') ∧ avl_tree t' ∧
      elems t = l ++ r ∧ elems t' = l ++ a :: r
  end.
Proof.
  intros [[h Ht] Ho] Hn Hk. pose proof (avl_stack_need t h Ht Hn) as Hh.
  destruct (walk_ok t k [] h h Ht eq_refl ltac:(cbn; lia) Ho) as (stk & sub & hs & Hw & Hs & Hc & _ & He & Hlo & Hhi & Hsub);
    [constructor|constructor|].
  cbn [ctx_left ctx_right app] in He. rewrite app_nil_r in He. unfold avl_insert. rewrite Hw. cbn [mbind option_bind].
  pose proof (lookup_ok t k Ho) as Hlk. destruct sub as [|sl q sb sr].
  - cbn [elems app] in He. pose proof (no_key k _ _ Hlo Hhi) as Hnk.
    destruct (avl_lookup _ t) as [q|]; [destruct Hlk as [Hq Hkq]; rewrite He in Hq; by destruct (Hnk q Hq)|].
    apply avl_Leaf_inv in Hs. subst hs.
    destruct (insertion_rotation_ok stk (Node Leaf a 0 Leaf) 0 h Hc) as (t' & -> & Ha & Het).
    { split; [|by right]. eapply avl_node'; [constructor|constructor|..]; lia. }
    exists t', (ctx_left stk), (ctx_right stk). split; [done|]. cbn [elems app] in Het. split; [|done].
    split; [destruct Ha; eauto|]. rewrite Het. rewrite He in Ho. apply ordered_app in Ho as (O1 & O2 & O3).
    apply ordered_app. split; [done|]. rewrite Forall_forall in Hlo. split.
    + constructor; [done|]. subst k. exact Hhi.
    + intros x y Hx [->|Hy]%elem_of_cons; [|by apply O3]. unfold lt_key. rewrite Hk. by apply Hlo, list_elem_of_In.
  - assert (q ∈ elems t) as Hq by (rewrite He; cbn [elems]; rewrite !elem_of_app, elem_of_cons; tauto).
    destruct (avl_lookup _ t) as [q'|]; [|by destruct (Hlk q Hq)]. destruct Hlk as [Hq' Hkq].
    do 2 f_equal. eapply ordered_unique; eauto. congruence.
Qed.

(** Taking an element out keeps the order. *)
Lemma ordered_remove l q r : ordered (l ++ q :: r) → ordered (l ++ r).
Proof.
  intros (O1 & [O2 _]%StronglySorted_inv & O3)%ordered_app. apply ordered_app. split; [done|]. split; [done|].
  intros x y Hx Hy. apply O3; [done|by right].
Qed.

Lemma remove_ok t k : avl_tree t → zlen (elems t) < STACK_NODES →
  match avl_lookup (λ a, cmp k (key a)) t with
  | None => avl_remove (λ a, cmp k (key a)) t = Some (None, t)
  | Some q => ∃ t' l r, avl_remove (λ a, cmp k (key a)) t = Some (Some q, t') ∧ avl_tree t' ∧
      elems t = l ++ q :: r ∧ elems t' = l ++ r
  end.
Proof.
  intros [[h Ht] Ho] Hn. pose proof (avl_stack_need t h Ht Hn) as Hh.
  destruct (walk_ok t k [] h h Ht eq_refl ltac:(cbn; lia) Ho) as (stk & sub & hs & Hw & Hs & Hc & Hlen & He & Hlo & Hhi & Hsub);
    [constructor|constructor|].
  cbn [ctx_left ctx_right app] in He. rewrite app_nil_r in He. unfold avl_remove. rewrite Hw. cbn [mbind option_bind].
  pose proof (lookup_ok t k Ho) as Hlk. destruct sub as [|sl q sb sr].
  { cbn [elems app] in He. pose proof (no_key k _ _ Hlo Hhi) as Hnk.
    destruct (avl_lookup _ t) as [q|]; [destruct Hlk as [Hq Hkq]; rewrite He in Hq; by destruct (Hnk q Hq)|done]. }
  assert (q ∈ elems t) as Hq by (rewrite He; cbn [elems]; rewrite !elem_of_app, elem_of_cons; tauto).
  destruct (avl_lookup _ t) as [q'|]; [|by destruct (Hlk q Hq)]. destruct Hlk as [Hq' Hkq].
  assert (q' = q) as -> by (eapply ordered_unique; eauto; congruence). clear Hw Hq Hq'.
  apply avl_node_inv in Hs as (hl & hr & Hl & Hr & Hb & Hb1 & -> & Hpl & Hpr).
  (* it is enough to rebuild the tree with the other elements of the subtree *)
  assert (∀ T : option (tree A), (∃ t', T = Some t' ∧ (avl t' h ∨ avl t' (h - 1)) ∧
      elems t' = ctx_left stk ++ (elems sl ++ elems sr) ++ ctx_right stk) →
    ∃ t' l r, (root' ← T; Some (Some q, root')) = Some (Some q, t') ∧ avl_tree t' ∧ elems t = l ++ q :: r ∧ elems t' = l ++ r) as Hfin.
  { intros T (t' & -> & Ha & Het). exists t', (ctx_left stk ++ elems sl), (elems sr ++ ctx_right stk).
    assert (elems t = (ctx_left stk ++ elems sl) ++ q :: elems sr ++ ctx_right stk) as Het0.
    { rewrite He. cbn [elems]. rewrite <- !app_assoc. by cbn [app]. }
    assert (elems t' = (ctx_left stk ++ elems sl) ++ elems sr ++ ctx_right stk) as Het1 by (rewrite Het, <- !app_assoc; done).
    split; [done|]. split; [|done]. split; [destruct Ha; eauto|]. rewrite Het1. rewrite Het0 in Ho. by eapply ordered_remove. }
  apply Hfin. destruct sr as [|srl sra srb srr]; [|destruct sl as [|sll sla slb slr]].
  - apply avl_Leaf_inv in Hr. destruct (deletion_rotation_ok stk sl true (1 + hl `max` hr) h Hc) as (t' & Hd & Ha & Het).
    { unfold shrunk. by replace (1 + hl `max` hr - 1) with hl by lia. }
    exists t'. split; [by destruct sl|]. split; [done|]. by rewrite Het, app_nil_r.
  - apply avl_Leaf_inv in Hl. destruct (deletion_rotation_ok stk (Node srl sra srb srr) true (1 + hl `max` hr) h Hc) as (t' & Hd & Ha & Het).
    { unfold shrunk. by replace (1 + hl `max` hr - 1) with hr by lia. }
    exists t'. done.
  - set (sl := Node sll sla slb slr) in *. set (sr := Node srl sra srb srr) in *.
    rewrite push_ok by lia. cbn [mbind option_bind].
    destruct (delsub_ok sl q sb sr hl hr Hl Hr) as (l' & x & low & -> & Hs' & Hel); [done|done|lia|].
    cbn [mbind option_bind elems] in *. 
    assert (elems l' ++ x :: elems sr = elems sl ++ elems sr) as Hmid.
    { change (elems sl ++ ([q] ++ elems sr) = elems l' ++ [x] ++ [q] ++ elems sr) in Hel.
      rewrite !app_assoc in Hel. apply app_inv_tail, app_inj_tail in Hel as [Hel _]. by rewrite Hel, <- app_assoc. }
    destruct low.
    + destruct (balance_left_ok l' x sb sr hl hr Hs' Hr Hb Hb1) as (p & low' & -> & Hep & Hsp). cbn [mbind option_bind fst snd].
      destruct (deletion_rotation_ok stk p low' _ h Hc Hsp) as (t' & -> & Ha & Het). exists t'. split; [done|]. split; [done|].
      rewrite Het, Hep. cbn [elems]. by rewrite Hmid.
    + destruct (deletion_rotation_ok stk (Node l' x sb sr) false (1 + hl `max` hr) h Hc) as (t' & -> & Ha & Het).
      { by eapply avl_node'. }
      exists t'. split; [done|]. split; [done|]. rewrite Het. cbn [elems]. by rewrite Hmid.
Qed.


(** ** The tree as a map *)
Lemma lookup_elem t k q : ordered (elems t) → avl_lookup (λ a, cmp k (key a)) t = Some q ↔ q ∈ elems t ∧ key q = k.
Proof.
  intros Ho. pose proof (lookup_ok t k Ho) as Hl. destruct (avl_lookup _ t) as [q'|].
  - split; [intros [= <-]; done|]. intros [Hq Hk]. f_equal. destruct Hl. eapply ordered_unique; eauto. congruence.
  - split; [done|]. intros [Hq Hk]. by destruct (Hl q Hq).
Qed.

(** Two trees that differ by one element answer alike for all other keys. *)
Lemma lookup_other t t' l a r k : ordered (elems t) → ordered (elems t') → elems t = l ++ r → elems t' = l ++ a :: r → k ≠ key a →
  avl_lookup (λ b, cmp k (key b)) t' = avl_lookup (λ b, cmp k (key b)) t.
Proof.
  intros Ho Ho' He He' Hk. apply option_eq. intros q. rewrite !lookup_elem by done.
  rewrite He, He', !elem_of_app, elem_of_cons. split; [|tauto]. intros [[?|[->|?]] Hq]; [tauto|by destruct Hk|tauto].
Qed.

Lemma lookup_absent t l a r : ordered (elems t) → elems t = l ++ r → ordered (l ++ a :: r) →
  avl_lookup (λ b, cmp (key a) (key b)) t = None.
Proof.
  intros Ho He Ho'. destruct (avl_lookup _ t) as [q|] eqn:E; [|done]. apply lookup_elem in E as [Hq Hk]; [|done].
  destruct (ordered_split _ _ _ Ho') as [Hl Hr]. rewrite He in Hq. by destruct (no_key (key a) l r Hl Hr q Hq).
Qed.

(** The map laws of insertion and removal. *)
Lemma insert_map t a : avl_tree t → zlen (elems t) < STACK_NODES →
  let look k t := avl_lookup (λ b, cmp k (key b)) t in
  match look (key a) t with
  | Some q => avl_insert (λ b, cmp (key a) (key b)) a t = Some (inl q)
  | None => ∃ t', avl_insert (λ b, cmp (key a) (key b)) a t = Some (inr t') ∧ avl_tree t' ∧ elems t' ≡ₚ a :: elems t ∧
      look (key a) t' = Some a ∧ ∀ k, k ≠ key a → look k t' = look k t
  end.
Proof.
  intros Ht Hn look. pose proof (insert_ok t (key a) a Ht Hn eq_refl) as Hi. subst look. cbv beta.
  destruct (avl_lookup _ t); [done|]. destruct Hi as (t' & l & r & Hi & Ht' & He & He'). exists t'.
  destruct Ht as [_ Ho], Ht' as [Ha' Ho']. split; [done|]. split; [done|]. split; [rewrite He, He'; by rewrite Permutation_middle|].
  split; [|intros k Hk; by eapply lookup_other]. apply lookup_elem; [done|]. rewrite He', elem_of_app, elem_of_cons. tauto.
Qed.

Lemma remove_map t k : avl_tree t → zlen (elems t) < STACK_NODES →
  let look k t := avl_lookup (λ b, cmp k (key b)) t in
  ∃ t', avl_remove (λ b, cmp k (key b)) t = Some (look k t, t') ∧ avl_tree t' ∧
    look k t' = None ∧ (∀ k', k' ≠ k → look k' t' = look k' t) ∧
    match look k t with None => t' = t | Some q => elems t ≡ₚ q :: elems t' end.
Proof.
  intros Ht Hn look. pose proof (remove_ok t k Ht Hn) as Hr. subst look. cbv beta.
  pose proof (lookup_elem t k) as Hle. destruct (avl_lookup _ t) as [q|] eqn:E.
  - destruct Hr as (t' & l & r & Hr & Ht' & He & He'). destruct (proj1 (Hle q (proj2 Ht)) eq_refl) as [Hq <-].
    destruct Ht as [_ Ho], Ht' as [Ha' Ho']. exists t'. split; [done|]. split; [done|]. split; [|split].
    + eapply lookup_absent; [done|done|]. by rewrite <- He.
    + intros k' Hk'. symmetry. by eapply lookup_other.
    + rewrite He, He'. symmetry. apply Permutation_middle.
  - exists t. split; [done|]. split; [done|]. split; [done|]. split; done.
Qed.

End Order.
