(* ===== verification/Monitors.v ===== *)
(** Monitors, links and suspend monitors: [erts/emulator/beam/erl_monitors.c], [erl_monitors.h].

    The three kinds of nodes live in AVL trees ([Avl]); the functions of the file are the tree operations with the
    comparison, the node construction and the result of each kind.  The global counter [tot_link_lh_size] of
    bytes in large nodes is passed along. *)

From Stdlib Require Import ZArith ZifyBool Sorted.
From stdpp Require Import base list numbers option.
From S2P Require Import Prelude Avl AvlSpec.
Local Open Scope Z_scope.

(** What the file uses of the term representation and of the term order [cmp()]: terms that serve as keys
    (pids, ports, node names, references); the data of an internal reference; the size of a boxed term. *)
Class Terms := {
  Eterm : Type;
  term_cmp : Eterm → Eterm → Z;
  ref_thing : Eterm → option (list Z);      (* the bytes behind the header, for an internal reference *)
  is_const : Eterm → bool;                  (* IS_CONST *)
  nc_heap_size : Eterm → Z;                 (* NC_HEAP_SIZE *)
  sizeof_Uint : Z; MONITOR_SIZE : Z; REF_THING_SIZE : Z; LINK_SIZE : Z }.

(** [cmp] is a total order; internal references have data of one length, and are equal when their data are. *)
Class TermLaws `{Terms} : Prop := {
  term_cmp_order :: CmpOrder term_cmp;
  ref_thing_length : ∀ x y d e, ref_thing x = Some d → ref_thing y = Some e → length d = length e;
  ref_thing_inj : ∀ x y d, ref_thing x = Some d → ref_thing y = Some d → x = y }.

(** [memcmp] over two arrays of the same length. *)
Fixpoint memcmp (p q : list Z) : Z :=
  match p, q with
  | x :: p', y :: q' => if x =? y then memcmp p' q' else x - y
  | _, _ => 0
  end.

Definition LINK_PID : Z := 1.
Definition LINK_NODE : Z := 3.

Section Monitors.
Context `{Terms}.

Definition cmp_mon_ref (ref1 ref2 : Eterm) : Z :=
  match ref_thing ref1, ref_thing ref2 with
  | Some d1, Some d2 => memcmp d1 d2
  | Some _, None => -1
  | None, Some _ => 1
  | None, None => term_cmp ref1 ref2
  end.

(** ** Nodes *)
Record ErtsMonitor := Monitor { mon_type : Z; mon_ref : Eterm; mon_pid : Eterm; mon_name : Eterm }.

(** [shared] is a reference count for a node link, otherwise the root of a subtree of links. *)
#[warnings="-register-all"]
Inductive ErtsLink := Link (lnk_type : Z) (lnk_pid : Eterm) (lnk_shared : Z + tree ErtsLink).
Definition lnk_type (l : ErtsLink) : Z := let (ty, _, _) := l in ty.
Definition lnk_pid (l : ErtsLink) : Eterm := let (_, pid, _) := l in pid.

Record ErtsSuspendMonitor := SuspendMonitor { smon_pending : Z; smon_active : Z; smon_pid : Eterm }.

Definition monitor_words (ref pid : Eterm) : Z :=
  MONITOR_SIZE + nc_heap_size ref + (if is_const pid then 0 else nc_heap_size pid).
Definition link_words (pid : Eterm) : Z := LINK_SIZE + (if is_const pid then 0 else nc_heap_size pid).

(** [erts_smp_atomic_add(&tot_link_lh_size, size*sizeof(Uint))] for a node of more than [small] words. *)
Definition lh_add (small size sign tot : Z) : Z :=
  if size <=? small then tot else tot + sign * (size * sizeof_Uint).

Definition erts_init_monitors : Z := 0.
Definition erts_tot_link_lh_size (tot : Z) : Z := tot.

(** The nodes' contents; their [left], [right] and [balance] are set where they enter a tree. *)
Definition create_monitor (type : Z) (ref pid name : Eterm) (tot : Z) : ErtsMonitor * Z :=
  (Monitor (wrap_u 16 type) ref pid name, lh_add (MONITOR_SIZE + REF_THING_SIZE) (monitor_words ref pid) 1 tot).

Definition create_link (type : Z) (pid : Eterm) (tot : Z) : ErtsLink * Z :=
  let ty := wrap_u 16 type in
  (Link ty pid (if ty =? LINK_NODE then inl 0 else inr Leaf), lh_add LINK_SIZE (link_words pid) 1 tot).

Definition create_suspend_monitor (pid : Eterm) : ErtsSuspendMonitor := SuspendMonitor 0 0 pid.

Definition erts_destroy_monitor (mon : ErtsMonitor) (tot : Z) : Z :=
  lh_add (MONITOR_SIZE + REF_THING_SIZE) (monitor_words (mon_ref mon) (mon_pid mon)) (-1) tot.
Definition erts_destroy_link (lnk : ErtsLink) (tot : Z) : Z :=
  lh_add LINK_SIZE (link_words (lnk_pid lnk)) (-1) tot.

(** ** Insertion *)

(** A call that may end the emulator with [erl_exit]. *)
Inductive outcome (A : Type) : Type := Done (a : A) | ErlExit.
Arguments Done {A} a.
Arguments ErlExit {A}.

Definition erts_add_monitor (root : tree ErtsMonitor) (type : Z) (ref pid name : Eterm) (tot : Z) :
    option (outcome (tree ErtsMonitor * Z)) :=
  let (n, tot') := create_monitor type ref pid name tot in
  r ← avl_insert (λ m, cmp_mon_ref ref (mon_ref m)) n root;
  Some (match r with inl _ => ErlExit | inr root' => Done (root', tot') end).

Definition erts_add_link (root : tree ErtsLink) (type : Z) (pid : Eterm) (tot : Z) : option (Z * tree ErtsLink * Z) :=
  let (n, tot') := create_link type pid tot in
  r ← avl_insert (λ l, term_cmp pid (lnk_pid l)) n root;
  Some (match r with inl _ => (-1, root, tot) | inr root' => (0, root', tot') end).

(** The link returned is the node of the tree. *)
Definition erts_add_or_lookup_link (root : tree ErtsLink) (type : Z) (pid : Eterm) (tot : Z) :
    option (ErtsLink * tree ErtsLink * Z) :=
  let (n, tot') := create_link type pid tot in
  r ← avl_insert (λ l, term_cmp pid (lnk_pid l)) n root;
  Some (match r with inl q => (q, root, tot) | inr root' => (n, root', tot') end).

Definition erts_add_or_lookup_suspend_monitor (root : tree ErtsSuspendMonitor) (pid : Eterm) :
    option (ErtsSuspendMonitor * tree ErtsSuspendMonitor) :=
  let n := create_suspend_monitor pid in
  r ← avl_insert (λ s, term_cmp pid (smon_pid s)) n root;
  Some (match r with inl q => (q, root) | inr root' => (n, root') end).

(** ** Removal, lookup, sweep *)
Definition erts_remove_monitor (root : tree ErtsMonitor) (ref : Eterm) : option (option ErtsMonitor * tree ErtsMonitor) :=
  avl_remove (λ m, cmp_mon_ref ref (mon_ref m)) root.
Definition erts_remove_link (root : tree ErtsLink) (pid : Eterm) : option (option ErtsLink * tree ErtsLink) :=
  avl_remove (λ l, term_cmp pid (lnk_pid l)) root.
Definition erts_delete_suspend_monitor (root : tree ErtsSuspendMonitor) (pid : Eterm) : option (tree ErtsSuspendMonitor) :=
  '(_, root') ← avl_remove (λ s, term_cmp pid (smon_pid s)) root; Some root'.

Definition erts_lookup_monitor (root : tree ErtsMonitor) (ref : Eterm) : option ErtsMonitor :=
  avl_lookup (λ m, cmp_mon_ref ref (mon_ref m)) root.
Definition erts_lookup_link (root : tree ErtsLink) (pid : Eterm) : option ErtsLink :=
  avl_lookup (λ l, term_cmp pid (lnk_pid l)) root.
Definition erts_lookup_suspend_monitor (root : tree ErtsSuspendMonitor) (pid : Eterm) : option ErtsSuspendMonitor :=
  avl_lookup (λ s, term_cmp pid (smon_pid s)) root.

(** The nodes [doit] is called on, in order. *)
Definition erts_sweep_monitors (fuel : nat) (root : tree ErtsMonitor) : option (list ErtsMonitor) := avl_sweep fuel root.
Definition erts_sweep_links (fuel : nat) (root : tree ErtsLink) : option (list ErtsLink) := avl_sweep fuel root.
Definition erts_sweep_suspend_monitors (fuel : nat) (root : tree ErtsSuspendMonitor) : option (list ErtsSuspendMonitor) :=
  avl_sweep fuel root.

(** * The order of references *)
Lemma memcmp_eq p q : length p = length q → memcmp p q = 0 ↔ p = q.
Proof.
  revert q. induction p as [|x p IH]; intros [|y q] Hl; try done. injection Hl as Hl. cbn.
  destruct (Z.eqb_spec x y) as [->|Hne]; [rewrite IH by done; split; [by intros ->|congruence]|].
  split; [lia|congruence].
Qed.

Lemma memcmp_anti p q : memcmp p q = - memcmp q p.
Proof.
  revert q. induction p as [|x p IH]; intros [|y q]; try done. cbn. rewrite (Z.eqb_sym y x).
  destruct (Z.eqb_spec x y); [apply IH|lia].
Qed.

Lemma memcmp_trans p q r : length p = length q → length q = length r → memcmp p q < 0 → memcmp q r < 0 → memcmp p r < 0.
Proof.
  revert q r. induction p as [|x p IH]; intros [|y q] [|z r]; cbn; try done. intros [= H1] [= H2].
  destruct (Z.eqb_spec x y), (Z.eqb_spec y z), (Z.eqb_spec x z); try lia. by apply IH.
Qed.

Context `{!TermLaws}.

#[export] Instance cmp_mon_ref_order : CmpOrder cmp_mon_ref.
Proof.
  split; unfold cmp_mon_ref.
  - intros x y. destruct (ref_thing x) as [d|] eqn:Ex, (ref_thing y) as [e|] eqn:Ey.
    + rewrite memcmp_eq by (by eapply ref_thing_length). split; [intros ->; by eapply ref_thing_inj|congruence].
    + split; [lia|congruence].
    + split; [lia|congruence].
    + apply cmp_eq.
  - intros x y. destruct (ref_thing x) as [d|] eqn:Ex, (ref_thing y) as [e|] eqn:Ey; [|lia|lia|apply cmp_anti].
    rewrite (memcmp_anti d e). lia.
  - intros x y z. destruct (ref_thing x) as [d|] eqn:Ex, (ref_thing y) as [e|] eqn:Ey, (ref_thing z) as [f|] eqn:Ez;
      try lia; [|apply cmp_trans].
    apply memcmp_trans; by eapply ref_thing_length.
Qed.

End Monitors.

Arguments Done {A} a.
Arguments ErlExit {A}.
