(* ===== verification/MonitorTheorems.v ===== *)
(** The correctness properties of monitors, links and suspend monitors ([Avl], [AvlSpec], [Monitors]), each
    with a concrete instance. *)

From Stdlib Require Import ZArith ZifyBool Sorted.
From stdpp Require Import base list numbers option.
From S2P Require Import Prelude Avl AvlSpec Monitors.
Local Open Scope Z_scope.

Section Properties.
Context `{TermLaws}.

(** Well-formed trees of the three kinds: AVL, ordered by reference or pid. *)
Definition monitor_tree (t : tree ErtsMonitor) : Prop := avl_tree mon_ref cmp_mon_ref t.
Definition link_tree (t : tree ErtsLink) : Prop := avl_tree lnk_pid term_cmp t.
Definition suspend_tree (t : tree ErtsSuspendMonitor) : Prop := avl_tree smon_pid term_cmp t.

(** [erts_add_monitor] puts a new monitor in a well-formed tree and leaves it well formed: balanced with correct
    balance fields and ordered by reference; the new monitor is found under its reference, all others as
    before.  A reference that is present already ends the emulator.  Nothing is undefined: the 50-slot stacks are enough. *)
Lemma erts_add_monitor_correct (root : tree ErtsMonitor) (type : Z) (ref pid name : Eterm) (tot : Z) :
  monitor_tree root → zlen (elems root) < STACK_NODES →
  match erts_lookup_monitor root ref with
  | Some _ => erts_add_monitor root type ref pid name tot = Some ErlExit
  | None => ∃ root', erts_add_monitor root type ref pid name tot =
        Some (Done (root', (create_monitor type ref pid name tot).2)) ∧ monitor_tree root' ∧
      elems root' ≡ₚ Monitor (wrap_u 16 type) ref pid name :: elems root ∧
      erts_lookup_monitor root' ref = Some (Monitor (wrap_u 16 type) ref pid name) ∧
      ∀ ref', ref' ≠ ref → erts_lookup_monitor root' ref' = erts_lookup_monitor root ref'
  end.
Proof.
  intros Ht Hn. pose proof (insert_map mon_ref cmp_mon_ref root (Monitor (wrap_u 16 type) ref pid name) Ht Hn) as Hi.
  unfold erts_lookup_monitor, erts_add_monitor. cbn [create_monitor mon_ref fst snd] in *.
  destruct (avl_lookup _ root); [by rewrite Hi|]. destruct Hi as (t' & -> & Hi). by exists t'.
Qed.

(** [erts_remove_monitor] returns the monitor with the reference, if any, and leaves a well-formed tree with
    exactly the other monitors. *)
Lemma erts_remove_monitor_correct (root : tree ErtsMonitor) (ref : Eterm) :
  monitor_tree root → zlen (elems root) < STACK_NODES →
  ∃ root', erts_remove_monitor root ref = Some (erts_lookup_monitor root ref, root') ∧ monitor_tree root' ∧
    erts_lookup_monitor root' ref = None ∧
    (∀ ref', ref' ≠ ref → erts_lookup_monitor root' ref' = erts_lookup_monitor root ref') ∧
    match erts_lookup_monitor root ref with None => root' = root | Some q => elems root ≡ₚ q :: elems root' end.
Proof. intros Ht Hn. by apply (remove_map mon_ref cmp_mon_ref). Qed.

(** [erts_add_monitor] puts a new monitor in a well-formed tree and leaves it well formed: balanced with correct
    balance fields and ordered by reference; the new monitor is found under its reference, all others as before.  A
    reference that is present already ends the emulator.  Nothing is undefined: the 50-slot stacks are enough.
    [erts_remove_monitor] returns the monitor with the reference, if any, and leaves a well-formed tree with exactly the
    other monitors. *)
Lemma erts_monitors_correct :
  (∀ (root : tree ErtsMonitor) (type : Z) (ref pid name : Eterm) (tot : Z), monitor_tree root → zlen (elems root) < STACK_NODES →
  match erts_lookup_monitor root ref with
  | Some _ => erts_add_monitor root type ref pid name tot = Some ErlExit
  | None => ∃ root', erts_add_monitor root type ref pid name tot =
        Some (Done (root', (create_monitor type ref pid name tot).2)) ∧ monitor_tree root' ∧
      elems root' ≡ₚ Monitor (wrap_u 16 type) ref pid name :: elems root ∧
      erts_lookup_monitor root' ref = Some (Monitor (wrap_u 16 type) ref pid name) ∧
      ∀ ref', ref' ≠ ref → erts_lookup_monitor root' ref' = erts_lookup_monitor root ref'
  end) ∧
  (∀ (root : tree ErtsMonitor) (ref : Eterm), monitor_tree root → zlen (elems root) < STACK_NODES →
  ∃ root', erts_remove_monitor root ref = Some (erts_lookup_monitor root ref, root') ∧ monitor_tree root' ∧
    erts_lookup_monitor root' ref = None ∧
    (∀ ref', ref' ≠ ref → erts_lookup_monitor root' ref' = erts_lookup_monitor root ref') ∧
    match erts_lookup_monitor root ref with None => root' = root | Some q => elems root ≡ₚ q :: elems root' end).
Proof. split; [exact erts_add_monitor_correct|exact erts_remove_monitor_correct]. Qed.

(** Links: [erts_add_link] returns 0 and adds the link, or -1 and changes nothing when the pid is linked
    already; [erts_add_or_lookup_link] returns the link that is in the tree afterwards; [erts_remove_link] takes it
    out.  The trees stay well formed and other pids are not affected. *)
Lemma erts_links_correct (root : tree ErtsLink) (type : Z) (pid : Eterm) (tot : Z) :
  link_tree root → zlen (elems root) < STACK_NODES →
  let n := (create_link type pid tot).1 in
  match erts_lookup_link root pid with
  | Some q => erts_add_link root type pid tot = Some (-1, root, tot) ∧
      erts_add_or_lookup_link root type pid tot = Some (q, root, tot) ∧
      ∃ root', erts_remove_link root pid = Some (Some q, root') ∧ link_tree root' ∧ elems root ≡ₚ q :: elems root' ∧
        erts_lookup_link root' pid = None ∧ ∀ k, k ≠ pid → erts_lookup_link root' k = erts_lookup_link root k
  | None => ∃ root' tot', erts_add_link root type pid tot = Some (0, root', tot') ∧
      erts_add_or_lookup_link root type pid tot = Some (n, root', tot') ∧ link_tree root' ∧ elems root' ≡ₚ n :: elems root ∧
      erts_lookup_link root' pid = Some n ∧ (∀ k, k ≠ pid → erts_lookup_link root' k = erts_lookup_link root k) ∧
      erts_remove_link root pid = Some (None, root)
  end.
Proof.
  intros Ht Hn n. pose proof (insert_map lnk_pid term_cmp root n Ht Hn) as Hi.
  pose proof (remove_map lnk_pid term_cmp root pid Ht Hn) as (t1 & Hr & Ht1 & Hr1 & Hr2 & Hr3).
  unfold erts_lookup_link, erts_add_link, erts_add_or_lookup_link, erts_remove_link in *.
  assert (create_link type pid tot = (n, (create_link type pid tot).2)) as -> by done.
  change (lnk_pid n) with pid in Hi. cbv beta zeta in Hi, Hr. destruct (avl_lookup _ root) as [q|].
  - rewrite Hi. split; [done|]. split; [done|]. by exists t1.
  - destruct Hi as (t' & -> & Ht' & He & Hl1 & Hl2). do 2 eexists. subst t1.
    split; [reflexivity|]. split; [reflexivity|]. done.
Qed.

(** Suspend monitors: after [erts_add_or_lookup_suspend_monitor] the returned monitor is in the tree under its pid,
    new with zero counters if there was none, and after [erts_delete_suspend_monitor] there is none. *)
Lemma erts_suspend_monitors_correct (root : tree ErtsSuspendMonitor) (pid : Eterm) :
  suspend_tree root → zlen (elems root) < STACK_NODES →
  (∃ s root', erts_add_or_lookup_suspend_monitor root pid = Some (s, root') ∧ suspend_tree root' ∧
     erts_lookup_suspend_monitor root' pid = Some s ∧
     s = default (SuspendMonitor 0 0 pid) (erts_lookup_suspend_monitor root pid) ∧
     ∀ k, k ≠ pid → erts_lookup_suspend_monitor root' k = erts_lookup_suspend_monitor root k) ∧
  (∃ root', erts_delete_suspend_monitor root pid = Some root' ∧ suspend_tree root' ∧
     erts_lookup_suspend_monitor root' pid = None ∧
     ∀ k, k ≠ pid → erts_lookup_suspend_monitor root' k = erts_lookup_suspend_monitor root k).
Proof.
  intros Ht Hn. pose proof (insert_map smon_pid term_cmp root (create_suspend_monitor pid) Ht Hn) as Hi.
  pose proof (remove_map smon_pid term_cmp root pid Ht Hn) as (t1 & Hr & Ht1 & Hr1 & Hr2 & _).
  unfold erts_lookup_suspend_monitor, erts_add_or_lookup_suspend_monitor, erts_delete_suspend_monitor in *.
  cbn [create_suspend_monitor smon_pid] in *. split.
  - destruct (avl_lookup _ root) as [q|] eqn:E.
    + rewrite Hi. exists q, root. done.
    + destruct Hi as (t' & -> & Ht' & He & Hl1 & Hl2). exists (SuspendMonitor 0 0 pid), t'. done.
  - exists t1. cbv beta in Hr. rewrite Hr. done.
Qed.

(** Links: [erts_add_link] returns 0 and adds the link, or -1 and changes nothing when the pid is linked already;
    [erts_add_or_lookup_link] returns the link that is in the tree afterwards; [erts_remove_link] takes it out.  Suspend
    monitors: after [erts_add_or_lookup_suspend_monitor] the returned monitor is in the tree under its pid, new with zero counters
    if there was none, and after [erts_delete_suspend_monitor] there is none.  The trees stay well formed and other pids
    are not affected. *)
Lemma erts_links_suspend_correct :
  (∀ (root : tree ErtsLink) (type : Z) (pid : Eterm) (tot : Z), link_tree root → zlen (elems root) < STACK_NODES →
  let n := (create_link type pid tot).1 in
  match erts_lookup_link root pid with
  | Some q => erts_add_link root type pid tot = Some (-1, root, tot) ∧
      erts_add_or_lookup_link root type pid tot = Some (q, root, tot) ∧
      ∃ root', erts_remove_link root pid = Some (Some q, root') ∧ link_tree root' ∧ elems root ≡ₚ q :: elems root' ∧
        erts_lookup_link root' pid = None ∧ ∀ k, k ≠ pid → erts_lookup_link root' k = erts_lookup_link root k
  | None => ∃ root' tot', erts_add_link root type pid tot = Some (0, root', tot') ∧
      erts_add_or_lookup_link root type pid tot = Some (n, root', tot') ∧ link_tree root' ∧ elems root' ≡ₚ n :: elems root ∧
      erts_lookup_link root' pid = Some n ∧ (∀ k, k ≠ pid → erts_lookup_link root' k = erts_lookup_link root k) ∧
      erts_remove_link root pid = Some (None, root)
  end) ∧
  (∀ (root : tree ErtsSuspendMonitor) (pid : Eterm), suspend_tree root → zlen (elems root) < STACK_NODES →
  (∃ s root', erts_add_or_lookup_suspend_monitor root pid = Some (s, root') ∧ suspend_tree root' ∧
     erts_lookup_suspend_monitor root' pid = Some s ∧
     s = default (SuspendMonitor 0 0 pid) (erts_lookup_suspend_monitor root pid) ∧
     ∀ k, k ≠ pid → erts_lookup_suspend_monitor root' k = erts_lookup_suspend_monitor root k) ∧
  (∃ root', erts_delete_suspend_monitor root pid = Some root' ∧ suspend_tree root' ∧
     erts_lookup_suspend_monitor root' pid = None ∧
     ∀ k, k ≠ pid → erts_lookup_suspend_monitor root' k = erts_lookup_suspend_monitor root k)).
Proof. split; [exact erts_links_correct|exact erts_suspend_monitors_correct]. Qed.

(** C23: [erts_add_monitor] puts a new monitor in a well-formed tree and leaves it well formed: balanced with correct
    balance fields and ordered by reference; the new monitor is found under its reference, all others as before.  A
    reference that is present already ends the emulator.  Nothing is undefined: the 50-slot stacks are enough.
    [erts_remove_monitor] returns the monitor with the reference, if any, and leaves a well-formed tree with exactly the
    other monitors.  Links: [erts_add_link] returns 0 and adds the link, or -1 and changes nothing when the pid is linked
    already; [erts_add_or_lookup_link] returns the link that is in the tree afterwards; [erts_remove_link] takes it out.
    Suspend monitors: after [erts_add_or_lookup_suspend_monitor] the returned monitor is in the tree under its pid, new
    with zero counters if there was none, and after [erts_delete_suspend_monitor] there is none.  The trees stay well
    formed and other pids are not affected. *)
Theorem erts_monitors_links_correct :
  ((∀ (root : tree ErtsMonitor) (type : Z) (ref pid name : Eterm) (tot : Z), monitor_tree root → zlen (elems root) < STACK_NODES →
  match erts_lookup_monitor root ref with
  | Some _ => erts_add_monitor root type ref pid name tot = Some ErlExit
  | None => ∃ root', erts_add_monitor root type ref pid name tot =
        Some (Done (root', (create_monitor type ref pid name tot).2)) ∧ monitor_tree root' ∧
      elems root' ≡ₚ Monitor (wrap_u 16 type) ref pid name :: elems root ∧
      erts_lookup_monitor root' ref = Some (Monitor (wrap_u 16 type) ref pid name) ∧
      ∀ ref', ref' ≠ ref → erts_lookup_monitor root' ref' = erts_lookup_monitor root ref'
  end) ∧
  (∀ (root : tree ErtsMonitor) (ref : Eterm), monitor_tree root → zlen (elems root) < STACK_NODES →
  ∃ root', erts_remove_monitor root ref = Some (erts_lookup_monitor root ref, root') ∧ monitor_tree root' ∧
    erts_lookup_monitor root' ref = None ∧
    (∀ ref', ref' ≠ ref → erts_lookup_monitor root' ref' = erts_lookup_monitor root ref') ∧
    match erts_lookup_monitor root ref with None => root' = root | Some q => elems root ≡ₚ q :: elems root' end)) ∧
  ((∀ (root : tree ErtsLink) (type : Z) (pid : Eterm) (tot : Z), link_tree root → zlen (elems root) < STACK_NODES →
  let n := (create_link type pid tot).1 in
  match erts_lookup_link root pid with
  | Some q => erts_add_link root type pid tot = Some (-1, root, tot) ∧
      erts_add_or_lookup_link root type pid tot = Some (q, root, tot) ∧
      ∃ root', erts_remove_link root pid = Some (Some q, root') ∧ link_tree root' ∧ elems root ≡ₚ q :: elems root' ∧
        erts_lookup_link root' pid = None ∧ ∀ k, k ≠ pid → erts_lookup_link root' k = erts_lookup_link root k
  | None => ∃ root' tot', erts_add_link root type pid tot = Some (0, root', tot') ∧
      erts_add_or_lookup_link root type pid tot = Some (n, root', tot') ∧ link_tree root' ∧ elems root' ≡ₚ n :: elems root ∧
      erts_lookup_link root' pid = Some n ∧ (∀ k, k ≠ pid → erts_lookup_link root' k = erts_lookup_link root k) ∧
      erts_remove_link root pid = Some (None, root)
  end) ∧
  (∀ (root : tree ErtsSuspendMonitor) (pid : Eterm), suspend_tree root → zlen (elems root) < STACK_NODES →
  (∃ s root', erts_add_or_lookup_suspend_monitor root pid = Some (s, root') ∧ suspend_tree root' ∧
     erts_lookup_suspend_monitor root' pid = Some s ∧
     s = default (SuspendMonitor 0 0 pid) (erts_lookup_suspend_monitor root pid) ∧
     ∀ k, k ≠ pid → erts_lookup_suspend_monitor root' k = erts_lookup_suspend_monitor root k) ∧
  (∃ root', erts_delete_suspend_monitor root pid = Some root' ∧ suspend_tree root' ∧
     erts_lookup_suspend_monitor root' pid = None ∧
     ∀ k, k ≠ pid → erts_lookup_suspend_monitor root' k = erts_lookup_suspend_monitor root k))).
Proof. split; [exact erts_monitors_correct|exact erts_links_suspend_correct]. Qed.

(** A sweep calls [doit] on every node of the tree exactly once, children before their parent (so that
    [doit] may free the node), and ends after at most three iterations per node. *)
Lemma erts_sweep_visits_all (root : tree ErtsLink) (h : Z) (fuel : nat) :
  avl root h → zlen (elems root) < STACK_NODES → (3 * length (elems root) < fuel)%nat →
  erts_sweep_links fuel root = Some (postorder root) ∧ postorder root ≡ₚ elems root.
Proof. intros Ht Hn Hf. split; [by eapply avl_sweep_ok|apply postorder_perm]. Qed.

(** The stacks suffice: a tree that needs more than [STACK_NEED] slots has at least 53316291172 nodes, more than
    [MAX_MONITORS]. *)
Lemma stack_need_suffices (root : tree ErtsMonitor) (h : Z) :
  avl root h → Z.of_nat STACK_NEED < h → 53316291172 ≤ zlen (elems root).
Proof. intros Ht Hh. pose proof (avl_stack_need root h Ht) as Hs. unfold STACK_NODES in Hs. lia. Qed.

(** C36: A sweep calls [doit] on every node of the tree exactly once, children before their parent (so that [doit] may free the node),
    and ends after at most three iterations per node.  The stacks suffice: a tree that needs more than [STACK_NEED] slots
    has at least 53316291172 nodes, more than [MAX_MONITORS]. *)
Theorem sweep_and_stacks :
  (∀ (root : tree ErtsLink) (h : Z) (fuel : nat), avl root h → zlen (elems root) < STACK_NODES → (3 * length (elems root) < fuel)%nat →
  erts_sweep_links fuel root = Some (postorder root) ∧ postorder root ≡ₚ elems root) ∧
  (∀ (root : tree ErtsMonitor) (h : Z), avl root h → Z.of_nat STACK_NEED < h → 53316291172 ≤ zlen (elems root)).
Proof. split; [exact erts_sweep_visits_all|exact stack_need_suffices]. Qed.

(** Destroying a node takes from [tot_link_lh_size] exactly what creating it added. *)
Lemma tot_link_lh_size_balanced (type : Z) (ref pid name : Eterm) (tot : Z) :
  (let (m, tot') := create_monitor type ref pid name tot in erts_destroy_monitor m tot' = tot) ∧
  (let (l, tot') := create_link type pid tot in erts_destroy_link l tot' = tot).
Proof.
  split; cbn [create_monitor create_link]; unfold erts_destroy_monitor, erts_destroy_link, lh_add; cbn [mon_ref mon_pid lnk_pid];
    destruct (_ <=? _); lia.
Qed.

End Properties.

(** * Instances: keys are integers, the negative ones internal references. *)
Module Instances.

#[export] Instance int_terms : Terms :=
  {| Eterm := Z; term_cmp := Z.sub; ref_thing := λ x, if x <? 0 then Some [- x] else None;
     is_const := λ x, x <? 1000; nc_heap_size := λ _, 3; sizeof_Uint := 8; MONITOR_SIZE := 6; REF_THING_SIZE := 3; LINK_SIZE := 5 |}.
#[export] Instance int_laws : TermLaws.
Proof.
  split.
  - split; cbn; lia.
  - intros x y d e. cbn. destruct (x <? 0), (y <? 0); intros; simplify_eq; done.
  - intros x y d. cbn. destruct (x <? 0), (y <? 0); intros; simplify_eq; lia.
Qed.

Definition mon (r : Z) : ErtsMonitor := Monitor 1 r 5 0.

(** Three monitors; the next one makes a rotation necessary. *)
Definition chain : tree ErtsMonitor := Node (Node Leaf (mon 10) 0 Leaf) (mon 20) 1 (Node Leaf (mon 30) 1 (Node Leaf (mon 40) 0 Leaf)).

Lemma chain_ok : monitor_tree chain.
Proof.
  split; [exists 3|].
  - repeat first [apply avl_leaf | eapply avl_node' | lia | reflexivity].
  - repeat constructor; unfold lt_key; vm_compute; congruence.
Qed.

Definition lnk (p : Z) : ErtsLink := Link 1 p (inr Leaf).
Definition links : tree ErtsLink := Node Leaf (lnk 7) 1 (Node Leaf (lnk 9) 0 Leaf).

Lemma links_ok : link_tree links ∧ avl links 2.
Proof.
  assert (avl links 2) by (repeat first [apply avl_leaf | eapply avl_node' | lia | reflexivity]).
  split; [split; [by exists 2|]|done]. repeat constructor; unfold lt_key; vm_compute; congruence.
Qed.

Definition no_smons : tree ErtsSuspendMonitor := Leaf.
Lemma no_smons_ok : suspend_tree no_smons.
Proof. split; [exists 0|]; constructor. Qed.

Lemma erts_monitors_links_correct_witness :
  ((∃ root', erts_add_monitor chain 1 50 5 0 0 = Some (Done (root', 0)) ∧ monitor_tree root' ∧
    elems root' ≡ₚ mon 50 :: elems chain ∧ erts_lookup_monitor root' 50 = Some (mon 50) ∧
    ∀ ref', ref' ≠ 50 → erts_lookup_monitor root' ref' = erts_lookup_monitor chain ref') ∧
  (∃ root', erts_remove_monitor chain 10 = Some (Some (mon 10), root') ∧ monitor_tree root' ∧
    erts_lookup_monitor root' 10 = None ∧
    (∀ ref', ref' ≠ 10 → erts_lookup_monitor root' ref' = erts_lookup_monitor chain ref') ∧
    elems chain ≡ₚ mon 10 :: elems root')) ∧
  ((∃ root' tot', erts_add_link links 1 8 0 = Some (0, root', tot') ∧
    erts_add_or_lookup_link links 1 8 0 = Some (lnk 8, root', tot') ∧ link_tree root' ∧ elems root' ≡ₚ lnk 8 :: elems links ∧
    erts_lookup_link root' 8 = Some (lnk 8) ∧ (∀ k, k ≠ 8 → erts_lookup_link root' k = erts_lookup_link links k) ∧
    erts_remove_link links 8 = Some (None, links)) ∧
  ((∃ s root', erts_add_or_lookup_suspend_monitor no_smons 5 = Some (s, root') ∧ suspend_tree root' ∧
     erts_lookup_suspend_monitor root' 5 = Some s ∧ s = SuspendMonitor 0 0 5 ∧
     ∀ k, k ≠ 5 → erts_lookup_suspend_monitor root' k = None) ∧
  (∃ root', erts_delete_suspend_monitor no_smons 5 = Some root' ∧ suspend_tree root' ∧
     erts_lookup_suspend_monitor root' 5 = None ∧ ∀ k, k ≠ 5 → erts_lookup_suspend_monitor root' k = None))).
Proof.
  split.
  - split.
    + refine (proj1 (proj1 erts_monitors_links_correct) chain 1 50 5 0 0 chain_ok _). vm_compute. congruence.
    + refine (proj2 (proj1 erts_monitors_links_correct) chain 10 chain_ok _). vm_compute. congruence.
  - split.
    + refine (proj1 (proj2 erts_monitors_links_correct) links 1 8 0 (proj1 links_ok) _). vm_compute. congruence.
    + refine (proj2 (proj2 erts_monitors_links_correct) no_smons 5 no_smons_ok _). vm_compute. congruence.
Defined.

(** A perfect tree of height [n], all of whose subtrees are shared. *)
Fixpoint perfect (n : nat) : tree ErtsMonitor :=
  match n with O => Leaf | S n' => Node (perfect n') (mon 0) 0 (perfect n') end.
Lemma perfect_avl n : avl (perfect n) (Z.of_nat n).
Proof. induction n as [|n IH]; [constructor|]. eapply avl_node'; [exact IH|exact IH|lia..]. Qed.

Lemma sweep_and_stacks_witness :
  (erts_sweep_links 7 links = Some [lnk 9; lnk 7] ∧ [lnk 9; lnk 7] ≡ₚ [lnk 7; lnk 9]) ∧
  (53316291172 ≤ zlen (elems (perfect 51))).
Proof.
  split.
  - refine (proj1 sweep_and_stacks links 2 7%nat (proj2 links_ok) _ _).
    + vm_compute. congruence.
    + cbn. lia.
  - refine (proj2 sweep_and_stacks (perfect 51) 51 (perfect_avl 51) _). unfold STACK_NEED. lia.
Defined.

End Instances.
