(* ===== verification/Big.v ===== *)
(** Digit vectors of the emulator's bignums: [erts/emulator/beam/big.c].

    A vector is the list of its digits, least significant first; its size is the length of the list.  A digit
    ([ErtsDigit]) has [D_EXP] bits and all digit arithmetic wraps.  The functions store result digit [i] after the last
    read of operand digits below [i], so that the result array may be an operand; here they return the digits
    stored, and the returned size is the length of that list.  [None] stands for reading behind an operand. *)

From Stdlib Require Import ZArith ZifyBool.
From stdpp Require Import base list numbers option.
From S2P Require Import Prelude.
Local Open Scope Z_scope.

(** [H_EXP] is half of [D_EXP], which is the width of a pointer: [SIZEOF_VOID_P*8]. *)
Class DigitWidth := { H_EXP : Z; H_EXP_cases : H_EXP = 16 ∨ H_EXP = 32 }.

Section Digits.
Context {dw : DigitWidth}.

Definition D_EXP : Z := 2 * H_EXP.
Definition D_BASE : Z := 2 ^ D_EXP.
Definition D_MASK : Z := D_BASE - 1.

(** Conversion to [ErtsDigit]. *)
Definition dig (z : Z) : Z := z mod D_BASE.
Definition b2d (b : bool) : Z := if b then 1 else 0.

(** The digit macros: each yields the new values of the variables it assigns. *)
Definition DSUMc (a b c : Z) : Z * Z :=        (* s, c *)
  let cr := c in let xr := dig (a + cr) in let yr := b in
  let cr := b2d (xr <? cr) in
  let xr := dig (yr + xr) in
  let cr := cr + b2d (xr <? yr) in (xr, cr).

Definition DSUM (a b : Z) : Z * Z :=           (* s, c *)
  let xr := dig (b + a) in (xr, b2d (xr <? b)).

Definition DSUBb (a b r : Z) : Z * Z :=        (* d, r *)
  let cr := r in let xr := a in let yr := dig (b + cr) in
  let cr := b2d (yr <? cr) in
  let yr := dig (xr - yr) in
  let cr := cr + b2d (yr >? xr) in (yr, cr).

Definition DSUB (a b : Z) : Z * Z :=           (* d, r *)
  let yr := dig (a - b) in (yr, b2d (yr >? a)).

Definition LO_MASK : Z := dig (dig (Z.shiftl 1 H_EXP) - 1).
Definition HI_MASK : Z := dig (Z.shiftl LO_MASK H_EXP).
(** Conversion to [ErtsHalfDigit]. *)
Definition half (z : Z) : Z := z mod 2 ^ H_EXP.

(** [a*b + d1] in two digits, without double-width arithmetic. *)
Definition DMULc (a b d1 : Z) : Z * Z :=       (* d1, d0 *)
  let a0 := half a in let a1 := half (Z.shiftr a H_EXP) in
  let b0 := half b in let b1 := half (Z.shiftr b H_EXP) in
  let a0b0 := dig (a0 * b0) in let a0b1 := dig (a0 * b1) in
  let a1b0 := dig (a1 * b0) in let a1b1 := dig (a1 * b1) in
  let '(p0, c0) := DSUM a0b0 d1 in
  let '(p1, p2) := DSUM (dig (Z.shiftl c0 H_EXP)) (Z.shiftr p0 H_EXP) in
  let '(p1, c0) := DSUM p1 a0b1 in
  let p2 := dig (p2 + c0) in
  let '(p1, c0) := DSUM p1 a1b0 in
  let p2 := dig (p2 + c0) in
  let '(p1, c0) := DSUM p1 (dig (Z.shiftl a1b1 H_EXP)) in
  let p2 := dig (p2 + c0) in
  let '(p2, c0) := DSUM a1b1 (dig (Z.shiftl p2 H_EXP)) in
  (Z.lor (Z.land p2 HI_MASK) (Z.shiftr p1 H_EXP), Z.lor (dig (Z.shiftl p1 H_EXP)) (Z.land p0 LO_MASK)).

Definition DMUL (a b : Z) : Z * Z := DMULc a b 0.

(** The macro under [BIG_HAVE_DOUBLE_DIGIT]: [ErtsDoubleDigit] has twice the bits. *)
Definition ddig (z : Z) : Z := z mod (D_BASE * D_BASE).
Definition DLOW (z : Z) : Z := dig z.
Definition DHIGH (z : Z) : Z := dig (Z.shiftr z D_EXP).
Definition DMULc_double (a b c : Z) : Z * Z := (* c, p *)
  let t := ddig (ddig (a * b) + c) in (DHIGH t, DLOW t).

(** ** Vectors *)

(** [while((xl > 0) && ( *x == *y)) { x--; y--; xl--; }] from the top, then the comparison.  (The test
    [x == y] of the pointers only saves the loop.) *)
Fixpoint I_comp_loop (x y : list Z) (xl : nat) : option Z :=
  match xl with
  | O => Some 0
  | S xl' =>
      a ← x !! xl'; b ← y !! xl';
      if a =? b then I_comp_loop x y xl' else Some (if a <? b then -1 else 1)
  end.

Definition I_comp (x y : list Z) : option Z :=
  if (length x <? length y)%nat then Some (-1)
  else if (length y <? length x)%nat then Some 1
  else I_comp_loop x y (length x).

(** The loop over the longer operand's remaining digits in [I_add] and in [D_add]. *)
Fixpoint add_carry (x : list Z) (c : Z) : list Z :=
  match x with
  | [] => if c =? 0 then [] else [1]
  | xd :: x' => let xr := dig (xd + c) in xr :: add_carry x' (b2d (xr <? c))
  end.

Fixpoint add_digits (x y : list Z) (c : Z) : option (list Z) :=
  match y with
  | [] => Some (add_carry x c)
  | yr :: y' =>
      match x with
      | [] => None
      | xd :: x' =>
          let xr := dig (xd + c) in let c := b2d (xr <? c) in
          let xr := dig (yr + xr) in let c := c + b2d (xr <? yr) in
          rest ← add_digits x' y' c; Some (xr :: rest)
      end
  end.

(** The first loop is a [do ... while (--yl)]: [y] must not be empty. *)
Definition I_add (x y : list Z) : option (list Z) :=
  match y with [] => None | _ => add_digits x y 0 end.

Definition D_add (x : list Z) (c : Z) : list Z := add_carry x c.

(** [do { r--; } while ( *r == 0 && r != r0)]: leading zeros are dropped, but the last digit stays. *)
Fixpoint strip (r : list Z) : list Z :=
  match r with
  | [] => []
  | d :: r' => match strip r' with [] => [d] | [0] => [d] | s => d :: s end
  end.

Fixpoint sub_borrow (x : list Z) (c : Z) : list Z :=
  match x with
  | [] => []
  | xr :: x' => let yr := dig (xr - c) in yr :: sub_borrow x' (b2d (yr >? xr))
  end.

Fixpoint sub_digits (x y : list Z) (c : Z) : option (list Z) :=
  match y with
  | [] => Some (sub_borrow x c)
  | yd :: y' =>
      match x with
      | [] => None
      | xr :: x' =>
          let yr := dig (yd + c) in let c := b2d (yr <? c) in
          let yr := dig (xr - yr) in let c := c + b2d (yr >? xr) in
          rest ← sub_digits x' y' c; Some (yr :: rest)
      end
  end.

Definition I_sub (x y : list Z) : option (list Z) :=
  match y with [] => None | _ => r ← sub_digits x y 0; Some (strip r) end.

Definition D_sub (x : list Z) (c : Z) : option (list Z) :=
  match x with [] => None | _ => Some (strip (sub_borrow x c)) end.

Fixpoint zsub_digits (y : list Z) (c : Z) : list Z :=
  match y with
  | [] => []
  | yd :: y' =>
      let yr := dig (yd + c) in let c := b2d (yr <? c) in
      let yr := dig (0 - yr) in let c := c + b2d (yr >? 0) in
      yr :: zsub_digits y' c
  end.

Definition Z_sub (y : list Z) : option (list Z) :=
  match y with [] => None | _ => Some (strip (zsub_digits y 0)) end.

(** The inner loops of [I_mul], by the digit [d] of [x]: [rt] are the digits of the result so far, the carries are
    [cp] and [c]; the last digit stored is [c + cp]. *)
Fixpoint mul_row (d : Z) (y rt : list Z) (cp c : Z) : option (list Z) :=
  match y, rt with
  | [], [] => Some [dig (c + cp)]
  | yt :: y', r :: rt' =>
      if d =? 0 then rest ← mul_row d y' rt' cp c; Some (r :: rest)
      else if d =? 1 then
        let '(p, c) := DSUMc yt r c in
        rest ← mul_row d y' rt' cp c; Some (p :: rest)
      else if d =? 2 then
        let '(p, cp) := DSUMc yt yt cp in
        let '(p, c) := DSUMc p r c in
        rest ← mul_row d y' rt' cp c; Some (p :: rest)
      else
        let '(cp, p) := DMULc d yt cp in
        let '(p, c) := DSUMc p r c in
        rest ← mul_row d y' rt' cp c; Some (p :: rest)
  | _, _ => None
  end.

(** The outer loop: each row starts one digit higher. *)
Fixpoint mul_rows (x y r : list Z) : option (list Z) :=
  match x with
  | [] => Some r
  | d :: x' =>
      row ← mul_row d y r 0 0;
      match x', row with
      | [], _ => Some row
      | _, r0 :: row' => rest ← mul_rows x' y row'; Some (r0 :: rest)
      | _, [] => None
      end
  end.

(** [if ( *rt == 0) return rt - r0; else return (rt - r0) + 1]: one leading zero is dropped. *)
Definition drop_top_zero (r : list Z) : list Z :=
  match list.last r with Some 0 => removelast r | _ => r end.

(** [r] is the result array before the call, as far as it is read. *)
Definition I_mul (x y r : list Z) : option (list Z) :=
  match x with [] => None | _ => res ← mul_rows x y (take (length y) r); Some (drop_top_zero res) end.

Fixpoint dmul_digits (d : Z) (x : list Z) (c : Z) : list Z :=
  match x with
  | [] => if c =? 0 then [] else [c]
  | xd :: x' =>
      if d =? 2 then let '(p, c) := DSUMc xd xd c in p :: dmul_digits d x' c
      else let '(c, p) := DMULc d xd c in p :: dmul_digits d x' c
  end.

Definition D_mul (x : list Z) (d : Z) : list Z :=
  if d =? 0 then [0] else if d =? 1 then x else dmul_digits d x 0.

(** [I_sqr], inner loop: the products of [d] with the digits [y] behind it, added twice to the result digits [s]; [z1] is the
    high digit and [y0] ... [y3] are the carries in flight.  The last [*s] and the digit behind it follow. *)
Fixpoint sqr_row (d : Z) (y s : list Z) (z1 y0 y1 y2 y3 : Z) : option (list Z * Z) :=
  match y, s with
  | yd :: y', sd :: s' =>
      let '(b1, b0) := DMUL d yd in
      let '(z0, y0) := DSUMc b0 b0 y0 in
      let '(z2, y2) := DSUMc z0 z1 y2 in
      let '(t, y3) := DSUMc sd z2 y3 in
      let '(z1, y1) := DSUMc b1 b1 y1 in
      '(rest, top) ← sqr_row d y' s' z1 y0 y1 y2 y3; Some (t :: rest, top)
  | [], [sd] =>
      let z0 := y0 in
      let '(z2, y2) := DSUMc z0 z1 y2 in
      let '(t, y3) := DSUMc sd z2 y3 in
      Some ([t], dig (dig (y1 + y2) + y3))
  | _, _ => None
  end.

(** The outer loop, with [r] the result digits from the current one on.  The digit that is read ahead behind the last one
    is not used.  After the last row the carries are not stored. *)
Fixpoint sqr_rows (x r : list Z) : option (list Z) :=
  match x with
  | [] => Some []
  | d :: x' =>
      match r with
      | [] => None
      | sd :: s' =>
          let '(b1, b0) := DMUL d d in
          let '(t, y3) := DSUMc sd b0 0 in
          '(row, top) ← sqr_row d x' s' b1 0 0 0 y3;
          match x', row with
          | [], _ => Some (t :: row)
          | _, r1 :: row' => rest ← sqr_rows x' (row' ++ [top]); Some (t :: r1 :: rest)
          | _, [] => None
          end
      end
  end.

(** [r]: the result array before the call, as far as it is read. *)
Definition I_sqr (x r : list Z) : option (list Z) :=
  match x with [] => None | _ => res ← sqr_rows x (take (length x + 1) r); Some (drop_top_zero res) end.

(** [D_mulsub]: the digits of [x - d*y], and the carries at the end. *)
Fixpoint mulsub_digits (d : Z) (x y : list Z) (c b : Z) : option (list Z * list Z * Z * Z) :=
  match y with
  | [] => Some ([], x, c, b)
  | yd :: y' =>
      match x with
      | [] => None
      | xd :: x' =>
          let '(c, c0) := DMULc d yd c in
          let '(s, b) := DSUBb xd c0 b in
          '(r, x'', c, b) ← mulsub_digits d x' y' c b; Some (s :: r, x'', c, b)
      end
  end.

(** [Some []] is the result size 0, which means a borrow. *)
Definition D_mulsub (x : list Z) (d : Z) (y : list Z) : option (list Z) :=
  '(r, x', c, b) ← mulsub_digits d x y 0 0;
  match x' with
  | [] => if negb (c =? 0) || negb (b =? 0) then Some [] else match r with [] => None | _ => Some (strip r) end
  | [xd] => let '(s, b) := DSUBb xd c b in if negb (b =? 0) then Some [] else Some (strip (r ++ [s]))
  | _ => None
  end.

End Digits.
