(* ===== verification/BigSpec.v ===== *)
(** Lemmas on the digit vectors of [Big.v]: the digit macros are exact, and each loop computes on the values. *)

From Stdlib Require Import ZArith ZifyBool.
From stdpp Require Import base list numbers option.
From S2P Require Import Prelude Big.
Local Open Scope Z_scope.

Section Digits.
Context {dw : DigitWidth}.

(** The number a vector stands for. *)
Fixpoint val (ds : list Z) : Z :=
  match ds with [] => 0 | d :: ds' => d + D_BASE * val ds' end.

Definition is_digit (d : Z) : Prop := 0 ≤ d < D_BASE.
Definition digits (ds : list Z) : Prop := Forall is_digit ds.

(** A vector without leading zero digit. *)
Definition norm (ds : list Z) : Prop := list.last ds ≠ Some 0.

(** The size of a vector is a number of digits: [B^n] bounds its value. *)
Definition base_pow (ds : list Z) : Z := D_BASE ^ zlen ds.

(** ** The base *)
Lemma H_EXP_pos : 1 ≤ H_EXP.
Proof. destruct H_EXP_cases; lia. Qed.

Lemma H_base_ge : 2 ≤ 2 ^ H_EXP.
Proof. pose proof H_EXP_pos. change 2 with (2 ^ 1) at 1. apply Z.pow_le_mono_r; lia. Qed.

Lemma D_BASE_square : D_BASE = 2 ^ H_EXP * 2 ^ H_EXP.
Proof. pose proof H_EXP_pos. unfold D_BASE, D_EXP. rewrite <- Z.pow_add_r by lia. f_equal. lia. Qed.

Lemma D_BASE_ge : 4 ≤ D_BASE.
Proof. pose proof H_base_ge. rewrite D_BASE_square. nia. Qed.

Lemma base_pow_cons d ds : base_pow (d :: ds) = D_BASE * base_pow ds.
Proof.
  unfold base_pow. cbn [length]. rewrite Nat2Z.inj_succ, Z.pow_succ_r by lia. done.
Qed.

Lemma base_pow_pos ds : 0 < base_pow ds.
Proof. pose proof D_BASE_ge. unfold base_pow. apply Z.pow_pos_nonneg; lia. Qed.

Lemma val_range ds : digits ds → 0 ≤ val ds < base_pow ds.
Proof.
  pose proof D_BASE_ge. induction 1 as [|d ds Hd _ IH]; [unfold base_pow; cbn; lia|].
  rewrite base_pow_cons. cbn [val]. unfold is_digit in Hd. nia.
Qed.

Lemma val_app a b : val (a ++ b) = val a + base_pow a * val b.
Proof.
  induction a as [|d a IH]; [unfold base_pow; cbn; lia|].
  rewrite base_pow_cons. cbn [val app]. rewrite IH. ring.
Qed.

Lemma val_zeros n : val (replicate n 0) = 0.
Proof. induction n as [|n IH]; [done|]. cbn [val replicate]. rewrite IH. lia. Qed.

Lemma dig_digit z : is_digit (dig z).
Proof. pose proof D_BASE_ge. apply Z.mod_pos_bound. lia. Qed.

Lemma dig_small z : is_digit z → dig z = z.
Proof. apply Z.mod_small. Qed.

(** A sum of two digits is reduced at most once, and so is a difference. *)
Lemma dig_cases z : - D_BASE ≤ z < 2 * D_BASE →
  (0 ≤ z < D_BASE ∧ dig z = z) ∨ (D_BASE ≤ z ∧ dig z = z - D_BASE) ∨ (z < 0 ∧ dig z = z + D_BASE).
Proof.
  intros Hz. pose proof D_BASE_ge. unfold dig.
  destruct (Z.lt_trichotomy z 0) as [Hn|Hn]; [right; right|destruct (Z.lt_ge_cases z D_BASE); [left|right; left]].
  - split; [done|]. symmetry. apply (Z.mod_unique_pos z D_BASE (-1)); lia.
  - split; [lia|]. apply Z.mod_small. lia.
  - split; [done|]. symmetry. apply (Z.mod_unique_pos z D_BASE 1); lia.
Qed.

(** ** The digit macros *)

(** Decides the wrap of the innermost [dig] and of the comparisons with it. *)
Ltac digit_step :=
  match goal with |- context [dig ?z] =>
    lazymatch z with
    | context [dig _] => fail
    | _ => let d := fresh "d" in let E := fresh "E" in
           destruct (dig_cases z) as [[? E]|[[? E]|[? E]]]; [lia|set (d := dig z) in *; clearbody d; subst d..]
    end
  end.
Ltac digit_arith :=
  unfold b2d, is_digit in *;
  repeat (digit_step; try lia);
  repeat match goal with
  | |- context [?a <? ?b] => destruct (Z.ltb_spec a b); try lia
  | |- context [?a >? ?b] => rewrite (Z.gtb_ltb a b)
  end.

Lemma DSUM_spec a b : is_digit a → is_digit b →
  ∃ s c, DSUM a b = (s, c) ∧ is_digit s ∧ 0 ≤ c ≤ 1 ∧ s + D_BASE * c = a + b.
Proof.
  intros Ha Hb. pose proof D_BASE_ge. do 2 eexists. split; [reflexivity|]. digit_arith.
Qed.

Lemma DSUMc_spec a b c : is_digit a → is_digit b → 0 ≤ c ≤ 1 →
  ∃ s c', DSUMc a b c = (s, c') ∧ is_digit s ∧ 0 ≤ c' ≤ 1 ∧ s + D_BASE * c' = a + b + c.
Proof.
  intros Ha Hb Hc. pose proof D_BASE_ge. do 2 eexists. split; [reflexivity|]. cbv zeta. digit_arith.
Qed.

Lemma DSUBb_spec a b r : is_digit a → is_digit b → 0 ≤ r ≤ 1 →
  ∃ d r', DSUBb a b r = (d, r') ∧ is_digit d ∧ 0 ≤ r' ≤ 1 ∧ d - D_BASE * r' = a - b - r.
Proof.
  intros Ha Hb Hc. pose proof D_BASE_ge. do 2 eexists. split; [reflexivity|]. cbv zeta. digit_arith.
Qed.

Lemma DSUB_spec a b : is_digit a → is_digit b →
  ∃ d r, DSUB a b = (d, r) ∧ is_digit d ∧ 0 ≤ r ≤ 1 ∧ d - D_BASE * r = a - b.
Proof.
  intros Ha Hb. pose proof D_BASE_ge. do 2 eexists. split; [reflexivity|]. cbv zeta. digit_arith.
Qed.

(** ** Half digits *)
Lemma half_range z : 0 ≤ half z < 2 ^ H_EXP.
Proof. pose proof H_base_ge. apply Z.mod_pos_bound. lia. Qed.

Lemma half_split a : is_digit a → a = half a + 2 ^ H_EXP * half (Z.shiftr a H_EXP).
Proof.
  intros Ha. pose proof H_base_ge. pose proof H_EXP_pos. unfold half, is_digit in *. rewrite D_BASE_square in Ha.
  rewrite Z.shiftr_div_pow2 by lia. rewrite (Z.mod_small (a / _)).
  - rewrite Z.add_comm. apply Z.div_mod. lia.
  - split; [apply Z.div_pos|apply Z.div_lt_upper_bound]; lia.
Qed.

Lemma half_mul_digit a b : dig (half a * half b) = half a * half b ∧ is_digit (half a * half b).
Proof.
  pose proof (half_range a). pose proof (half_range b).
  assert (is_digit (half a * half b)) by (unfold is_digit; rewrite D_BASE_square; nia).
  by rewrite dig_small.
Qed.

Lemma LO_MASK_eq : LO_MASK = Z.ones H_EXP.
Proof.
  pose proof H_EXP_pos. pose proof H_base_ge. unfold LO_MASK. rewrite Z.shiftl_1_l, Z.ones_equiv.
  pose proof D_BASE_square.
  rewrite (dig_small (2 ^ H_EXP)) by (unfold is_digit; nia). rewrite dig_small by (unfold is_digit; nia). lia.
Qed.

Lemma land_LO_MASK z : Z.land z LO_MASK = z mod 2 ^ H_EXP.
Proof. pose proof H_EXP_pos. rewrite LO_MASK_eq. apply Z.land_ones. lia. Qed.

Lemma HI_MASK_eq : HI_MASK = Z.shiftl (Z.ones H_EXP) H_EXP.
Proof.
  pose proof H_EXP_pos. pose proof H_base_ge. unfold HI_MASK. rewrite LO_MASK_eq. apply dig_small.
  rewrite Z.shiftl_mul_pow2, Z.ones_equiv by lia. unfold is_digit. rewrite D_BASE_square. nia.
Qed.

Lemma land_HI_MASK z : is_digit z → Z.land z HI_MASK = Z.shiftl (z / 2 ^ H_EXP) H_EXP.
Proof.
  intros Hz. pose proof H_EXP_pos. pose proof H_base_ge.
  rewrite HI_MASK_eq, <- Z.shiftr_div_pow2 by lia. apply Z.bits_inj'. intros n Hn. rewrite Z.land_spec.
  destruct (Z.ltb_spec n H_EXP); [rewrite !Z.shiftl_spec_low by lia; apply andb_false_r|].
  rewrite !Z.shiftl_spec, Z.shiftr_spec by lia. replace (n - H_EXP + H_EXP) with n by lia.
  destruct (Z.ltb_spec (n - H_EXP) H_EXP); [rewrite Z.ones_spec_low by lia; apply andb_true_r|].
  rewrite Z.ones_spec_high, andb_false_r by lia. symmetry.
  rewrite <- (dig_small z) by done. apply Z.mod_pow2_bits_high. unfold D_EXP. lia.
Qed.

(** Shifting a digit by half its width keeps the low half. *)
Lemma dig_shiftl z : is_digit z → dig (Z.shiftl z H_EXP) = 2 ^ H_EXP * (z mod 2 ^ H_EXP).
Proof.
  intros Hz. pose proof H_EXP_pos. pose proof H_base_ge. unfold dig.
  rewrite Z.shiftl_mul_pow2, D_BASE_square by lia. rewrite Z.mul_mod_distr_r by lia. lia.
Qed.

(** The high and low halves of the product, once the middle sum [p1 + B*p2] is known. *)
Lemma DMULc_assemble h0 p1 p2 u v :
  is_digit p1 → 0 ≤ p2 ≤ 3 → 0 ≤ u → 0 ≤ v < 2 ^ H_EXP → 0 ≤ h0 < 2 ^ H_EXP →
  (u + p2) < 2 ^ H_EXP →
  let t := dig (dig (Z.shiftl p2 H_EXP) + (u * 2 ^ H_EXP + v)) in
  let hi := Z.lor (Z.land t HI_MASK) (Z.shiftr p1 H_EXP) in
  let lo := Z.lor (dig (Z.shiftl p1 H_EXP)) h0 in
  is_digit hi ∧ is_digit lo ∧
  hi * D_BASE + lo = (u + p2) * 2 ^ H_EXP * D_BASE + p1 * 2 ^ H_EXP + h0.
Proof.
  intros Hp1 Hp2 Hu Hv Hh Hup. pose proof H_EXP_pos. pose proof H_base_ge. pose proof D_BASE_square.
  set (β := 2 ^ H_EXP) in *.
  assert (is_digit p2) by (unfold is_digit; nia).
  rewrite dig_shiftl by done. fold β. rewrite (Z.mod_small p2) by lia.
  cbv zeta. rewrite (dig_small (β * p2 + _)) by (unfold is_digit; nia).
  rewrite land_HI_MASK by (unfold is_digit; nia). fold β.
  replace ((β * p2 + (u * β + v)) / β) with (u + p2) by (apply (Z.div_unique_pos _ β _ v); lia).
  unfold is_digit in Hp1. assert (0 ≤ p1 / β < β) by (split; [apply Z.div_pos|apply Z.div_lt_upper_bound]; lia).
  pose proof (Z.mod_pos_bound p1 β ltac:(lia)). pose proof (Z.div_mod p1 β ltac:(lia)).
  rewrite Z.shiftr_div_pow2 by lia. fold β. rewrite lor_shiftl_add by lia. fold β.
  rewrite dig_shiftl by done. fold β.
  replace (β * (p1 mod β)) with (Z.shiftl (p1 mod β) H_EXP) by (rewrite Z.shiftl_mul_pow2 by lia; fold β; lia).
  rewrite lor_shiftl_add by lia. fold β.
  unfold is_digit. split; [nia|split; nia].
Qed.

(** The low part of [a0*b0 + d1] and the first middle term. *)
Lemma DMULc_low x d1 : 0 ≤ x ≤ (2 ^ H_EXP - 1) * (2 ^ H_EXP - 1) → is_digit d1 →
  ∃ p0 c0 p1, DSUM x d1 = (p0, c0) ∧ DSUM (dig (Z.shiftl c0 H_EXP)) (Z.shiftr p0 H_EXP) = (p1, 0) ∧
    0 ≤ p1 < 2 * 2 ^ H_EXP ∧ is_digit p1 ∧ p1 * 2 ^ H_EXP + p0 mod 2 ^ H_EXP = x + d1.
Proof.
  intros Hx Hd. pose proof H_EXP_pos. pose proof H_base_ge. pose proof D_BASE_square.
  set (β := 2 ^ H_EXP) in *.
  destruct (DSUM_spec x d1) as (p0 & c0 & -> & Hp0 & Hc0 & E); [unfold is_digit; nia|done|].
  assert (is_digit c0) by (unfold is_digit; lia).
  unfold is_digit in Hp0, Hd. pose proof (Z.div_mod p0 β ltac:(lia)). pose proof (Z.mod_pos_bound p0 β ltac:(lia)).
  assert (0 ≤ p0 / β < β) by (split; [apply Z.div_pos|apply Z.div_lt_upper_bound]; lia).
  exists p0, c0, (β * c0 + p0 / β).
  rewrite dig_shiftl, (Z.mod_small c0), Z.shiftr_div_pow2 by lia || done. fold β.
  destruct (DSUM_spec (β * c0) (p0 / β)) as (p1 & c1 & -> & Hp1 & Hc1 & E1); [unfold is_digit; nia..|].
  unfold is_digit in *.
  assert (c1 = 0) as -> by nia. repeat split; try (f_equal; lia); nia.
Qed.

(** The middle sum: three more terms, each with its carry in [p2]. *)
Lemma DMULc_mid p1 x y z : 0 ≤ p1 < D_BASE → is_digit x → is_digit y → is_digit z →
  ∃ q1 c1 q2 c2 q3 c3, DSUM p1 x = (q1, c1) ∧ DSUM q1 y = (q2, c2) ∧ DSUM q2 z = (q3, c3) ∧ is_digit q3 ∧
    dig (dig (dig (0 + c1) + c2) + c3) = c1 + c2 + c3 ∧ 0 ≤ c1 + c2 + c3 ≤ 3 ∧
    q3 + D_BASE * (c1 + c2 + c3) = p1 + x + y + z.
Proof.
  intros Hp Hx Hy Hz. pose proof D_BASE_ge.
  destruct (DSUM_spec p1 x Hp Hx) as (q1 & c1 & E1 & Hq1 & Hc1 & V1).
  destruct (DSUM_spec q1 y Hq1 Hy) as (q2 & c2 & E2 & Hq2 & Hc2 & V2).
  destruct (DSUM_spec q2 z Hq2 Hz) as (q3 & c3 & E3 & Hq3 & Hc3 & V3).
  exists q1, c1, q2, c2, q3, c3. repeat (split; [done|]).
  rewrite (dig_small (0 + c1)), (dig_small (0 + c1 + c2)), dig_small by (unfold is_digit; lia). lia.
Qed.

Lemma DMULc_spec a b d1 : is_digit a → is_digit b → is_digit d1 →
  ∃ hi lo, DMULc a b d1 = (hi, lo) ∧ is_digit hi ∧ is_digit lo ∧ hi * D_BASE + lo = a * b + d1.
Proof.
  intros Ha Hb Hd. pose proof H_EXP_pos. pose proof H_base_ge. pose proof D_BASE_square as HB.
  pose proof (half_split a Ha) as Ea. pose proof (half_split b Hb) as Eb.
  unfold DMULc. cbv zeta.
  destruct (half_mul_digit a b) as [-> D00]. destruct (half_mul_digit a (Z.shiftr b H_EXP)) as [-> D01].
  destruct (half_mul_digit (Z.shiftr a H_EXP) b) as [-> D10].
  destruct (half_mul_digit (Z.shiftr a H_EXP) (Z.shiftr b H_EXP)) as [-> D11].
  pose proof (half_range a) as Ra. pose proof (half_range b) as Rb.
  pose proof (half_range (Z.shiftr a H_EXP)) as Ra1. pose proof (half_range (Z.shiftr b H_EXP)) as Rb1.
  set (a0 := half a) in *. set (b0 := half b) in *.
  set (a1 := half (Z.shiftr a H_EXP)) in *. set (b1 := half (Z.shiftr b H_EXP)) in *.
  clearbody a0 b0 a1 b1. set (β := 2 ^ H_EXP) in *.
  destruct (DMULc_low (a0 * b0) d1) as (p0 & c0 & p1 & -> & -> & Rp1 & Dp1 & Ep1); [fold β; nia|done|].
  fold β in Rp1, Ep1.
  set (u := a1 * b1 / β). set (v := a1 * b1 mod β).
  assert (0 ≤ v < β) by (apply Z.mod_pos_bound; lia).
  assert (a1 * b1 = u * β + v) as Euv by (unfold u, v; rewrite (Z.mul_comm _ β); apply Z.div_mod; lia).
  assert (0 ≤ u) by (apply Z.div_pos; nia).
  rewrite (dig_shiftl (a1 * b1)) by done. fold β v.
  destruct (DMULc_mid p1 (a0 * b1) (a1 * b0) (β * v)) as (q1 & c1 & q2 & c2 & q3 & c3 & -> & -> & -> & Dq & -> & Rc & Eq);
    [unfold is_digit in *; nia..|].
  unfold DSUM. cbv zeta. set (p2 := c1 + c2 + c3) in *. clearbody p2. rewrite land_LO_MASK, Euv.
  assert ((u + p2) * β * D_BASE + q3 * β + p0 mod β = a * b + d1) as Etot by (subst a b; nia).
  pose proof (Z.mod_pos_bound p0 β ltac:(lia)) as Rm.
  assert (a * b + d1 < D_BASE * D_BASE).
  { clear - Ha Hb Hd. unfold is_digit in *. nia. }
  assert (u + p2 < β).
  { apply Z.lt_nge. intros Hge. unfold is_digit in Dq.
    assert (β * (β * D_BASE) = D_BASE * D_BASE) by (rewrite HB; ring).
    assert (β * (β * D_BASE) ≤ (u + p2) * (β * D_BASE)) by (apply Z.mul_le_mono_nonneg_r; nia).
    assert (0 ≤ q3 * β) by (apply Z.mul_nonneg_nonneg; lia). lia. }
  destruct (DMULc_assemble (p0 mod β) q3 p2 u v) as (R1 & R2 & R3); [done..|].
  eexists _, _. split; [reflexivity|]. fold β in R1, R2, R3 |- *. split; [exact R1|]. split; [exact R2|]. lia.
Qed.

(** The two versions of the macro agree. *)
Lemma DMULc_double_spec a b c : is_digit a → is_digit b → is_digit c →
  let '(hi, lo) := DMULc_double a b c in is_digit hi ∧ is_digit lo ∧ hi * D_BASE + lo = a * b + c.
Proof.
  intros Ha Hb Hc. pose proof D_BASE_ge. unfold DMULc_double, ddig, DHIGH, DLOW. cbv zeta.
  unfold is_digit in *. assert (0 ≤ a * b) by nia. assert (a * b + c < D_BASE * D_BASE) by nia.
  rewrite (Z.mod_small (a * b)) by lia. rewrite (Z.mod_small (_ + c)) by lia.
  rewrite Z.shiftr_div_pow2 by (unfold D_EXP; pose proof H_EXP_pos; lia). fold D_BASE.
  assert (0 ≤ (a * b + c) / D_BASE < D_BASE) by (split; [apply Z.div_pos|apply Z.div_lt_upper_bound]; lia).
  rewrite (dig_small (_ / _)) by done. split; [done|]. split; [apply dig_digit|].
  unfold dig. rewrite Z.mul_comm, <- Z.div_mod; lia.
Qed.

(** Two digits are determined by the number they make. *)
Lemma two_digits_inj h l h' l' : is_digit l → is_digit l' →
  h * D_BASE + l = h' * D_BASE + l' → h = h' ∧ l = l'.
Proof. unfold is_digit. intros. assert (h = h') by nia. subst. lia. Qed.

(** ** Sizes *)
Lemma last_cons_ne (d : Z) ds : ds ≠ [] → list.last (d :: ds) = list.last ds.
Proof. by destruct ds. Qed.

(** A vector has no leading zero when its value needs its last digit. *)
Lemma norm_val ds : digits ds → ds ≠ [] → norm ds ↔ base_pow ds ≤ D_BASE * val ds.
Proof.
  pose proof D_BASE_ge. unfold norm. induction 1 as [|d ds Hd Hds IH]; [done|]. intros _.
  rewrite base_pow_cons. cbn [val]. unfold is_digit in Hd. pose proof (val_range ds Hds).
  destruct (decide (ds = [])) as [->|Hne].
  - unfold base_pow. cbn. split; [intros Hz; assert (d ≠ 0) by congruence; nia|]. intros ? [= ->]. lia.
  - rewrite last_cons_ne by done. rewrite IH by done. pose proof (base_pow_pos ds).
    rewrite <- Z.mul_le_mono_pos_l by lia. split; intros ?; [lia|]. assert (∃ k, base_pow ds = D_BASE * k) as [k Hk].
    { destruct ds as [|e ds]; [done|]. exists (base_pow ds). apply base_pow_cons. }
    rewrite Hk in *. rewrite <- Z.mul_le_mono_pos_l by lia. assert (D_BASE * k < D_BASE * (val ds + 1)) as Hlt by lia.
    apply Z.mul_lt_mono_pos_l in Hlt; lia.
Qed.

(** ** Addition *)

(** The digits [r] hold [v]; they are as many as those of [x], or one more, which then is 1. *)
Definition sum_of (x : list Z) (v : Z) (r : list Z) : Prop :=
  digits r ∧ val r = v ∧ (length r = length x ∨ length r = S (length x) ∧ list.last r = Some 1).

Lemma sum_of_cons d x v r s c : is_digit s → s + D_BASE * c = d + v → 
  sum_of x (val x + c) r → sum_of (d :: x) (val (d :: x) + v) (s :: r).
Proof.
  intros Hs Hv (D & V & L). cbn [val]. split; [by constructor|]. split; [cbn [val]; nia|].
  destruct L as [L|[L T]]; [left; cbn; lia|right]. cbn [length]. split; [lia|].
  rewrite last_cons_ne; [done|]. by intros ->.
Qed.

Lemma add_carry_spec x : ∀ c, digits x → is_digit c → (x = [] → c ≤ 1) → sum_of x (val x + c) (add_carry x c).
Proof.
  pose proof D_BASE_ge. induction x as [|d x IH]; intros c Hx Hc Hn; cbn [add_carry].
  - unfold is_digit in Hc. specialize (Hn eq_refl). destruct (Z.eqb_spec c 0).
    + split; [constructor|]. cbn. split; [lia|by left].
    + split; [repeat constructor; lia|]. cbn. split; [lia|by right].
  - apply Forall_cons_iff in Hx as [Hd Hx]. set (xr := dig (d + c)). set (c' := b2d (xr <? c)).
    assert (is_digit xr ∧ 0 ≤ c' ≤ 1 ∧ xr + D_BASE * c' = d + c) as (Dx & Rc & Ev).
    { unfold c', xr. digit_arith. }
    apply (sum_of_cons _ _ _ _ _ c'); [done..|]. apply IH; [done|unfold is_digit; lia|lia].
Qed.

Lemma add_digits_spec y : ∀ x c, digits x → digits y → (length y ≤ length x)%nat → 0 ≤ c ≤ 1 →
  ∃ r, add_digits x y c = Some r ∧ sum_of x (val x + val y + c) r.
Proof.
  pose proof D_BASE_ge. induction y as [|yr y IH]; intros x c Hx Hy Hl Hc.
  - eexists. split; [destruct x; reflexivity|]. cbn [val]. rewrite Z.add_0_r.
    apply add_carry_spec; [done|unfold is_digit; lia|lia].
  - destruct x as [|xd x]; [cbn in Hl; lia|]. apply Forall_cons_iff in Hx as [Hxd Hx]. apply Forall_cons_iff in Hy as [Hyd Hy].
    cbn [add_digits]. destruct (DSUMc_spec xd yr c Hxd Hyd Hc) as (s & c' & E & Hs & Hc' & Ev).
    unfold DSUMc in E. cbv zeta in E. injection E as E1 E2. rewrite E2, E1.
    destruct (IH x c' Hx Hy ltac:(cbn in Hl; lia) Hc') as (r & -> & D & V & L). eexists. split; [reflexivity|].
    rewrite <- Z.add_assoc. apply (sum_of_cons _ _ _ _ _ (val y + c')); [done|cbn [val]; nia|].
    split; [done|]. split; [lia|done].
Qed.

Lemma sum_of_norm x v r : sum_of x v r → digits x → x ≠ [] → norm x → val x ≤ v → norm r.
Proof.
  intros (D & V & L) Dx Nx Hn Hv. pose proof D_BASE_ge. destruct L as [L|[L T]]; [|unfold norm; congruence].
  apply norm_val; [done|intros ->; by destruct x|]. apply norm_val in Hn; [|done..].
  unfold base_pow in *. rewrite L. nia.
Qed.

(** ** Subtraction *)

(** No leading zero, except for the single digit zero. *)
Definition stripped (r : list Z) : Prop := r = [0] ∨ r ≠ [] ∧ norm r.

(** One step of [strip]. *)
Lemma strip_cons d r : strip (d :: r) = if decide (strip r = [] ∨ strip r = [0]) then [d] else d :: strip r.
Proof.
  cbn [strip]. destruct (strip r) as [|e [|e' s]]; [by rewrite decide_True by by left| |].
  - destruct (decide (e = 0)) as [->|]; [by rewrite decide_True by by right|].
    rewrite decide_False by (intros [?|?]; congruence). by destruct e.
  - rewrite decide_False by (intros [?|?]; congruence). by destruct e.
Qed.

Lemma strip_spec r : digits r → r ≠ [] →
  digits (strip r) ∧ val (strip r) = val r ∧ stripped (strip r) ∧ (length (strip r) ≤ length r)%nat.
Proof.
  induction 1 as [|d r Hd Hr IH]; [done|]. intros _. rewrite strip_cons.
  destruct (decide (r = [])) as [->|Hne].
  - rewrite decide_True by by left. repeat split; [by constructor| |cbn; lia].
    destruct (decide (d = 0)) as [->|]; [by left|right]. split; [done|]. by intros [= ->].
  - destruct (IH Hne) as (D & V & S & L). case_decide as Hs.
    + destruct Hs as [Hs|Hs]; [destruct S as [S|[S _]]; congruence|]. rewrite Hs in V. cbn [val] in *.
      repeat split; [by constructor|lia| |cbn; lia].
      destruct (decide (d = 0)) as [->|]; [by left|right]. split; [done|]. by intros [= ->].
    + destruct S as [S|[S1 S2]]; [tauto|]. cbn [val length]. rewrite V. repeat split; [by constructor| |lia].
      right. split; [done|]. unfold norm in *. by rewrite last_cons_ne.
Qed.

(** The digits of a difference, up to a borrow [b] from behind the vector. *)
Definition diff_of (n : nat) (v : Z) (r : list Z) : Prop :=
  digits r ∧ length r = n ∧ ∃ b, 0 ≤ b ≤ 1 ∧ val r - base_pow r * b = v.

Lemma diff_of_cons n v s r e c : is_digit s → s - D_BASE * c = e → diff_of n (v - c) r →
  diff_of (S n) (e + D_BASE * v) (s :: r).
Proof.
  intros Hs He (D & L & b & Rb & Eb). split; [by constructor|]. split; [cbn; lia|]. exists b. split; [done|].
  rewrite base_pow_cons. cbn [val]. nia.
Qed.

Lemma sub_borrow_spec x : ∀ c, digits x → is_digit c → (x = [] → c ≤ 1) →
  diff_of (length x) (val x - c) (sub_borrow x c).
Proof.
  pose proof D_BASE_ge. induction x as [|d x IH]; intros c Hx Hc Hn; cbn [sub_borrow].
  - split; [constructor|]. split; [done|]. exists c. unfold is_digit, base_pow in *. cbn. specialize (Hn eq_refl). lia.
  - apply Forall_cons_iff in Hx as [Hd Hx]. set (yr := dig (d - c)). set (c' := b2d (yr >? d)).
    assert (is_digit yr ∧ 0 ≤ c' ≤ 1 ∧ yr - D_BASE * c' = d - c) as (Dx & Rc & Ev).
    { unfold c', yr. digit_arith. }
    cbn [val length]. replace (d + D_BASE * val x - c) with ((d - c) + D_BASE * val x) by lia.
    apply (diff_of_cons _ _ _ _ _ c'); [done..|]. apply IH; [done|unfold is_digit; lia|lia].
Qed.

Lemma sub_digits_spec y : ∀ x c, digits x → digits y → (length y ≤ length x)%nat → 0 ≤ c ≤ 1 →
  ∃ r, sub_digits x y c = Some r ∧ diff_of (length x) (val x - val y - c) r.
Proof.
  pose proof D_BASE_ge. induction y as [|yr y IH]; intros x c Hx Hy Hl Hc.
  - eexists. split; [destruct x; reflexivity|]. cbn [val]. rewrite Z.sub_0_r.
    apply sub_borrow_spec; [done|unfold is_digit; lia|lia].
  - destruct x as [|xd x]; [cbn in Hl; lia|]. apply Forall_cons_iff in Hx as [Hxd Hx]. apply Forall_cons_iff in Hy as [Hyd Hy].
    cbn [sub_digits]. destruct (DSUBb_spec xd yr c Hxd Hyd Hc) as (s & c' & E & Hs & Hc' & Ev).
    unfold DSUBb in E. cbv zeta in E. injection E as E1 E2. rewrite E2, E1.
    destruct (IH x c' Hx Hy ltac:(cbn in Hl; lia) Hc') as (r & -> & D). eexists. split; [reflexivity|].
    cbn [val length]. replace (_ - _ - c) with ((xd - yr - c) + D_BASE * (val x - val y)) by lia.
    by apply (diff_of_cons _ _ _ _ _ c').
Qed.

Lemma zsub_digits_spec y : ∀ c, digits y → 0 ≤ c ≤ 1 → diff_of (length y) (- val y - c) (zsub_digits y c).
Proof.
  pose proof D_BASE_ge. induction y as [|yr y IH]; intros c Hy Hc; cbn [zsub_digits].
  - split; [constructor|]. split; [done|]. exists c. unfold base_pow. cbn. lia.
  - apply Forall_cons_iff in Hy as [Hyd Hy].
    destruct (DSUBb_spec 0 yr c ltac:(unfold is_digit; lia) Hyd Hc) as (s & c' & E & Hs & Hc' & Ev).
    unfold DSUBb in E. cbv zeta in E. injection E as E1 E2. rewrite E2, E1.
    cbn [val length]. replace (_ - c) with ((0 - yr - c) + D_BASE * (- val y)) by lia.
    apply (diff_of_cons _ _ _ _ _ c'); [done|done|]. by apply IH.
Qed.

(** A difference that is not negative has no borrow left, and is read off the stripped digits. *)
Lemma diff_of_nonneg n v r : diff_of n v r → 0 ≤ v → (0 < n)%nat →
  digits (strip r) ∧ val (strip r) = v ∧ stripped (strip r) ∧ (length (strip r) ≤ n)%nat.
Proof.
  intros (D & L & b & Rb & Eb) Hv Hn. destruct (strip_spec r D) as (D' & V & S & L'); [by intros ->; cbn in *; lia|].
  pose proof (val_range r D). assert (b = 0) as -> by nia. rewrite V. repeat split; [done|lia|done|lia].
Qed.

(** ** Comparison *)
Lemma I_comp_loop_sgn xl x y : digits x → digits y → (xl ≤ length x)%nat → (xl ≤ length y)%nat →
  I_comp_loop x y xl = Some (Z.sgn (val (take xl x) - val (take xl y))).
Proof.
  intros Hx Hy. induction xl as [|xl IH]; intros Lx Ly; cbn [I_comp_loop]; [done|].
  destruct (lookup_lt_is_Some_2 x xl) as [a Ha]; [lia|]. destruct (lookup_lt_is_Some_2 y xl) as [b Hb]; [lia|].
  rewrite Ha, Hb. cbn. rewrite (take_S_r x xl a Ha), (take_S_r y xl b Hb), !val_app. cbn [val].
  assert (base_pow (take xl x) = base_pow (take xl y)) as Ep by (unfold base_pow; rewrite !length_take; f_equal; lia).
  destruct (Z.eqb_spec a b) as [->|Hne].
  { rewrite IH by lia. do 2 f_equal. rewrite Ep. lia. }
  pose proof (val_range (take xl x) (Forall_take _ _ _ Hx)). pose proof (val_range (take xl y) (Forall_take _ _ _ Hy)).
  rewrite Ep in *. destruct (Z.ltb_spec a b); f_equal; symmetry; [apply Z.sgn_neg|apply Z.sgn_pos]; nia.
Qed.

Lemma I_comp_sgn x y : digits x → digits y → x ≠ [] → y ≠ [] → norm x → norm y →
  I_comp x y = Some (Z.sgn (val x - val y)).
Proof.
  pose proof D_BASE_ge. assert (∀ a b, digits a → digits b → b ≠ [] → norm b → (length a < length b)%nat → val a < val b) as Hlt.
  { intros a b Ha Hb Hne Hn Hl. pose proof (val_range a Ha). apply norm_val in Hn; [|done..].
    assert (D_BASE * base_pow a ≤ base_pow b); [|nia]. unfold base_pow. rewrite <- Z.pow_succ_r by lia.
    apply Z.pow_le_mono_r; lia. }
  intros Hx Hy Nx Ny Rx Ry. unfold I_comp.
  destruct (Nat.ltb_spec (length x) (length y)); [f_equal; symmetry; apply Z.sgn_neg; specialize (Hlt x y); naive_solver lia|].
  destruct (Nat.ltb_spec (length y) (length x)); [f_equal; symmetry; apply Z.sgn_pos; specialize (Hlt y x); naive_solver lia|].
  rewrite I_comp_loop_sgn by done || lia. by rewrite !firstn_all2 by lia.
Qed.

(** ** Multiplication *)

(** What [mul_row] keeps of its carries: they are those of the branch for the digit. *)
Definition row_carries (d cp c : Z) : Prop :=
  is_digit cp ∧ 0 ≤ c ≤ 1 ∧ (d = 0 → cp = 0 ∧ c = 0) ∧ (d = 1 → cp = 0) ∧ (d = 2 → cp ≤ 1).

(** One digit of the row. *)
Lemma mul_row_step d yt y r rt cp c : is_digit d → is_digit yt → is_digit r → row_carries d cp c →
  ∃ p cp' c', mul_row d (yt :: y) (r :: rt) cp c = (rest ← mul_row d y rt cp' c'; Some (p :: rest)) ∧
    is_digit p ∧ row_carries d cp' c' ∧ p + D_BASE * (cp' + c') = d * yt + r + cp + c.
Proof.
  intros Hd Hy Hr (Rp & Rc & C0 & C1 & C2). pose proof D_BASE_ge. unfold row_carries. cbn [mul_row].
  destruct (Z.eqb_spec d 0) as [->|H0].
  { destruct (C0 eq_refl) as [-> ->]. exists r, 0, 0. repeat split; unfold is_digit in *; lia. }
  destruct (Z.eqb_spec d 1) as [->|H1].
  { rewrite (C1 eq_refl). destruct (DSUMc_spec yt r c Hy Hr Rc) as (p & c' & -> & Hp & Hc' & E).
    exists p, 0, c'. repeat split; unfold is_digit in *; lia. }
  destruct (Z.eqb_spec d 2) as [->|H2].
  { specialize (C2 eq_refl). unfold is_digit in Rp.
    destruct (DSUMc_spec yt yt cp Hy Hy ltac:(lia)) as (p & cp' & -> & Hp & Hcp' & E).
    destruct (DSUMc_spec p r c Hp Hr Rc) as (p' & c' & -> & Hp' & Hc' & E').
    exists p', cp', c'. repeat split; unfold is_digit in *; lia. }
  destruct (DMULc_spec d yt cp Hd Hy Rp) as (cp' & p & -> & Hcp' & Hp & E).
  destruct (DSUMc_spec p r c Hp Hr Rc) as (p' & c' & -> & Hp' & Hc' & E').
  exists p', cp', c'. repeat split; unfold is_digit in *; lia.
Qed.

Lemma mul_row_spec d y : ∀ rt cp c, is_digit d → digits y → digits rt → length rt = length y → row_carries d cp c →
  d * val y + val rt + cp + c < D_BASE * base_pow y →
  ∃ row, mul_row d y rt cp c = Some row ∧ digits row ∧ length row = S (length y) ∧
    val row = d * val y + val rt + cp + c.
Proof.
  pose proof D_BASE_ge. induction y as [|yt y IH]; intros [|r rt] cp c Hd Hy Hr Hl Hc Hb; try discriminate Hl.
  - destruct Hc as (Rp & Rc & _). unfold base_pow, is_digit in *. cbn in Hb. eexists. split; [reflexivity|].
    pose proof (dig_digit (c + cp)). split; [by constructor; [|constructor]|]. split; [done|]. cbn.
    rewrite dig_small by (unfold is_digit; lia). lia.
  - apply Forall_cons_iff in Hy as [Hyd Hy]. apply Forall_cons_iff in Hr as [Hrd Hr].
    destruct (mul_row_step d yt y r rt cp c Hd Hyd Hrd Hc) as (p & cp' & c' & -> & Hp & Hc' & E).
    rewrite base_pow_cons in Hb. cbn [val] in *.
    destruct (IH rt cp' c' Hd Hy Hr ltac:(cbn in Hl; lia) Hc') as (row & -> & D & L & V).
    { unfold is_digit in Hp. apply (Z.mul_lt_mono_pos_l D_BASE); lia. }
    eexists. split; [reflexivity|]. split; [by constructor|]. split; [cbn; lia|]. cbn [val]. rewrite V. nia.
Qed.

Lemma mul_rows_spec x : ∀ y r, x ≠ [] → digits x → digits y → digits r → length r = length y →
  ∃ res, mul_rows x y r = Some res ∧ digits res ∧ length res = (length x + length y)%nat ∧
    val res = val x * val y + val r.
Proof.
  pose proof D_BASE_ge. induction x as [|d x IH]; intros y r Hne Hx Hy Hr Hl; [done|].
  apply Forall_cons_iff in Hx as [Hd Hx]. cbn [mul_rows].
  destruct (mul_row_spec d y r 0 0 Hd Hy Hr Hl) as (row & -> & D & L & V).
  { unfold row_carries, is_digit. lia. }
  { pose proof (val_range y Hy). pose proof (val_range r Hr) as Hvr. unfold base_pow in Hvr. rewrite Hl in Hvr.
    fold (base_pow y) in Hvr. unfold is_digit in Hd. nia. }
  destruct row as [|r0 row]; [done|]. apply Forall_cons_iff in D as [D0 D]. cbn [val length] in *.
  destruct x as [|d' x]; cbn [mbind option_bind].
  - eexists. split; [reflexivity|]. split; [by constructor|]. split; [cbn; lia|]. cbn [val]. nia.
  - destruct (IH y row ltac:(done) Hx Hy D ltac:(lia)) as (res & E & D' & L' & V'). rewrite E. eexists.
    split; [reflexivity|]. split; [by constructor|]. split; [cbn in *; lia|]. cbn [val] in *. nia.
Qed.

Lemma drop_top_zero_spec r : digits r → digits (drop_top_zero r) ∧ val (drop_top_zero r) = val r ∧
  (length r ≤ S (length (drop_top_zero r)))%nat.
Proof.
  intros D. unfold drop_top_zero. destruct (list.last r) as [[]|] eqn:E; try (split; [done|split; [done|lia]]).
  apply last_Some in E as [l ->]. rewrite removelast_last, val_app. apply Forall_app in D as [D _].
  split; [done|]. split; [cbn; lia|]. rewrite length_app. cbn. lia.
Qed.

Lemma dmul_digits_spec d x : ∀ c, is_digit d → digits x → is_digit c → (d = 2 → c ≤ 1) →
  digits (dmul_digits d x c) ∧ val (dmul_digits d x c) = d * val x + c ∧
  (length (dmul_digits d x c) = length x ∨ length (dmul_digits d x c) = S (length x) ∧ norm (dmul_digits d x c)).
Proof.
  pose proof D_BASE_ge. induction x as [|xd x IH]; intros c Hd Hx Hc H2; cbn [dmul_digits].
  - destruct (Z.eqb_spec c 0); [split; [constructor|]; cbn; lia|]. split; [by constructor; [|constructor]|].
    split; [cbn; lia|right]. split; [done|]. by intros [= ->].
  - apply Forall_cons_iff in Hx as [Hxd Hx].
    assert (∃ p c', (if d =? 2 then let '(p, c) := DSUMc xd xd c in p :: dmul_digits d x c
      else let '(c, p) := DMULc d xd c in p :: dmul_digits d x c) = p :: dmul_digits d x c' ∧
      is_digit p ∧ is_digit c' ∧ (d = 2 → c' ≤ 1) ∧ p + D_BASE * c' = d * xd + c) as (p & c' & -> & Hp & Hc' & H2' & E).
    { destruct (Z.eqb_spec d 2) as [->|].
      - specialize (H2 eq_refl). unfold is_digit in Hc.
        destruct (DSUMc_spec xd xd c Hxd Hxd ltac:(lia)) as (p & c' & -> & Hp & Hc' & E). exists p, c'.
        repeat split; unfold is_digit in *; lia.
      - destruct (DMULc_spec d xd c Hd Hxd Hc) as (c' & p & -> & Hc' & Hp & E). exists p, c'.
        repeat split; unfold is_digit in *; lia. }
    destruct (IH c' Hd Hx Hc' H2') as (D & V & L). split; [by constructor|]. cbn [val length]. split; [rewrite V; nia|].
    destruct L as [L|[L N]]; [left; lia|right]. split; [lia|]. unfold norm in *. rewrite last_cons_ne; [done|].
    intros E0. by rewrite E0 in L.
Qed.

(** The loop of [D_mulsub]: the carries hold what is still to be subtracted. *)
Lemma mulsub_digits_spec d y : ∀ x c b, is_digit d → digits y → digits x → (length y ≤ length x)%nat → is_digit c → 0 ≤ b ≤ 1 →
  ∃ r c' b', mulsub_digits d x y c b = Some (r, drop (length y) x, c', b') ∧ digits r ∧ length r = length y ∧
    is_digit c' ∧ 0 ≤ b' ≤ 1 ∧ val r - base_pow r * (c' + b') = val (take (length y) x) - d * val y - c - b.
Proof.
  pose proof D_BASE_ge. induction y as [|yd y IH]; intros x c b Hd Hy Hx Hl Hc Hb.
  - exists [], c, b. split; [by destruct x|]. split; [constructor|]. repeat split; try (unfold is_digit in *; lia).
    change (base_pow []) with 1. cbn [length]. rewrite take_0. cbn [val length]. lia.
  - destruct x as [|xd x]; [cbn in Hl; lia|]. apply Forall_cons_iff in Hx as [Hxd Hx]. apply Forall_cons_iff in Hy as [Hyd Hy].
    cbn [mulsub_digits]. destruct (DMULc_spec d yd c Hd Hyd Hc) as (c1 & c0 & -> & Hc1 & Hc0 & E).
    destruct (DSUBb_spec xd c0 b Hxd Hc0 Hb) as (s & b1 & -> & Hs & Hb1 & E').
    destruct (IH x c1 b1 Hd Hy Hx ltac:(cbn in Hl; lia) Hc1 Hb1) as (r & c' & b' & -> & D & L & Hc' & Hb' & V).
    exists (s :: r), c', b'. split; [done|]. split; [by constructor|]. split; [cbn; lia|]. split; [done|]. split; [done|].
    rewrite base_pow_cons. cbn [val take length]. nia.
Qed.

Lemma D_mul_spec x d : is_digit d → digits x →
  digits (D_mul x d) ∧ val (D_mul x d) = d * val x ∧ (length (D_mul x d) ≤ S (length x))%nat.
Proof.
  intros Hd Hx. pose proof D_BASE_ge. unfold D_mul.
  destruct (Z.eqb_spec d 0) as [->|]; [split; [repeat constructor; lia|cbn; lia]|].
  destruct (Z.eqb_spec d 1) as [->|]; [split; [done|lia]|].
  destruct (dmul_digits_spec d x 0 Hd Hx) as (D & V & L); [unfold is_digit; lia|lia|]. split; [done|]. lia.
Qed.

(** What [D_mulsub] promises of its result, for the difference [v]. *)
Definition mulsub_result (v : Z) (r : list Z) : Prop :=
  (r = [] ↔ v < 0) ∧ (0 ≤ v → digits r ∧ val r = v ∧ stripped r).

(** The end of [D_mulsub]: something is left to subtract, or the digits are stripped. *)
Lemma mulsub_end r v k : digits r → r ≠ [] → 0 ≤ k → val r - base_pow r * k = v →
  mulsub_result v (if negb (k =? 0) then [] else strip r).
Proof.
  intros D Nr Hk V. pose proof (val_range r D). pose proof (base_pow_pos r). unfold mulsub_result.
  destruct (Z.eqb_spec k 0) as [->|Hne]; cbn [negb].
  - destruct (strip_spec r D Nr) as (D' & V' & S & L'). split; [|intros _; split; [done|]; split; [lia|done]].
    split; [intros Hr; destruct S as [S|[S _]]; congruence|lia].
  - split; [split; [nia|done]|nia].
Qed.

Lemma D_mulsub_spec d x y : is_digit d → digits x → digits y → y ≠ [] → length x = length y ∨ length x = S (length y) →
  ∃ r, D_mulsub x d y = Some r ∧ mulsub_result (val x - d * val y) r.
Proof.
  intros Hd Hx Hy Ny Hl. pose proof D_BASE_ge.
  assert (is_digit 0) as H0 by (unfold is_digit; lia).
  destruct (mulsub_digits_spec d y x 0 0 Hd Hy Hx ltac:(lia) H0 ltac:(lia)) as (r & c & b & E & D & L & Hc & Hb & V).
  unfold D_mulsub. rewrite E. cbn [mbind option_bind].
  assert (r ≠ []) as Nr by (intros ->; by destruct y).
  pose proof (take_drop (length y) x) as Ex. destruct (drop (length y) x) as [|xd [|]] eqn:Ed.
  - rewrite app_nil_r in Ex. rewrite Ex in V. unfold is_digit in Hc. eexists. split.
    2: apply (mulsub_end r _ (c + b)); [done|done|lia|lia].
    destruct (Z.eqb_spec c 0), (Z.eqb_spec b 0), (Z.eqb_spec (c + b) 0); try lia; by destruct r.
  - assert (is_digit xd) as Hxd by (apply (Forall_drop _ (length y)) in Hx; rewrite Ed in Hx; by inversion Hx).
    destruct (DSUBb_spec xd c b Hxd Hc Hb) as (s & b' & -> & Hs & Hb' & Es).
    assert (base_pow r = base_pow (take (length y) x)) as Er.
    { unfold base_pow. rewrite length_take, L. do 2 f_equal. lia. }
    assert (base_pow (r ++ [s]) = base_pow r * D_BASE) as Ep.
    { unfold base_pow. rewrite length_app. cbn [length]. rewrite Nat2Z.inj_add, Z.pow_add_r, Z.pow_1_r by lia. done. }
    exists (if negb (b' =? 0) then [] else strip (r ++ [s])). split; [by destruct (b' =? 0)|].
    apply mulsub_end; [apply Forall_app; split; [done|by constructor; [|constructor]]|by destruct r|lia|].
    rewrite Ep, val_app. apply (f_equal val) in Ex. rewrite val_app, <- Er in Ex. cbn [val] in *. nia.
  - apply (f_equal length) in Ed. rewrite length_drop in Ed. cbn in Ed. lia.
Qed.

Lemma Z_sub_spec y : digits y → y ≠ [] → ∃ r, Z_sub y = Some r ∧ digits r ∧ val r = (- val y) mod base_pow y ∧ stripped r ∧
  (length r ≤ length y)%nat.
Proof.
  intros Hy Ny. pose proof (zsub_digits_spec y 0 Hy ltac:(lia)) as (D & L & b & Rb & Eb). set (r := zsub_digits y 0) in *.
  exists (strip r). split; [by destruct y|].
  destruct (strip_spec r D) as (D' & V & S & L'); [intros ->; by destruct y|].
  split; [done|]. split; [|split; [done|lia]]. rewrite V.
  assert (base_pow r = base_pow y) as Ep by (unfold base_pow; by rewrite L). rewrite <- Ep.
  apply (Z.mod_unique_pos _ _ (- b)); [by apply val_range|lia].
Qed.

(** The macros agree with the double-width ones and with integer arithmetic. *)
Lemma DMULc_value a b d1 : is_digit a → is_digit b → is_digit d1 →
  DMULc a b d1 = ((a * b + d1) / D_BASE, (a * b + d1) mod D_BASE) ∧ DMULc a b d1 = DMULc_double a b d1.
Proof.
  intros Ha Hb Hd. destruct (DMULc_spec a b d1 Ha Hb Hd) as (hi & lo & E & Hhi & Hlo & V).
  pose proof (DMULc_double_spec a b d1 Ha Hb Hd) as Hdd. rewrite E. destruct (DMULc_double a b d1) as [hi' lo'].
  destruct Hdd as (_ & Hlo' & V'). split.
  - f_equal; [apply (Z.div_unique_pos _ D_BASE _ lo)|apply (Z.mod_unique_pos _ D_BASE hi)]; unfold is_digit in *; lia.
  - destruct (two_digits_inj hi lo hi' lo') as [-> ->]; [done..|lia|done].
Qed.

(** ** Squaring *)

(** The row adds [2*d*y] and the carries, in flight at the weight of its first digit. *)
Lemma sqr_row_spec d y : ∀ s z1 y0 y1 y2 y3, is_digit d → digits y → digits s → length s = S (length y) →
  is_digit z1 → 0 ≤ y0 ≤ 1 → 0 ≤ y1 ≤ 1 → 0 ≤ y2 ≤ 1 → 0 ≤ y3 ≤ 1 →
  ∃ r top, sqr_row d y s z1 y0 y1 y2 y3 = Some (r, top) ∧ digits r ∧ length r = S (length y) ∧ is_digit top ∧
    val r + base_pow r * top = val s + 2 * d * val y + z1 + y0 + y2 + y3 + D_BASE * y1.
Proof.
  pose proof D_BASE_ge. induction y as [|yd y IH]; intros [|sd s] z1 y0 y1 y2 y3 Hd Hy Hs Hl Hz H0 H1 H2 H3; try discriminate Hl.
  - destruct s; [|discriminate Hl]. apply Forall_cons_iff in Hs as [Hsd _]. cbn [sqr_row].
    destruct (DSUMc_spec y0 z1 y2) as (z2 & y2' & -> & Hz2 & Hy2 & E2); [unfold is_digit; lia|done|done|].
    destruct (DSUMc_spec sd z2 y3) as (t & y3' & -> & Ht & Hy3 & E3); [done..|].
    rewrite (dig_small (y1 + y2')) by (unfold is_digit; lia). rewrite dig_small by (unfold is_digit; lia).
    eexists _, _. split; [reflexivity|]. split; [by constructor; [|constructor]|]. split; [done|].
    split; [unfold is_digit; lia|]. rewrite base_pow_cons. change (base_pow []) with 1. cbn [val]. lia.
  - apply Forall_cons_iff in Hs as [Hsd Hs]. apply Forall_cons_iff in Hy as [Hyd Hy]. cbn [sqr_row]. unfold DMUL.
    destruct (DMULc_spec d yd 0 Hd Hyd) as (b1 & b0 & -> & Hb1 & Hb0 & Eb); [unfold is_digit; lia|].
    destruct (DSUMc_spec b0 b0 y0) as (z0 & y0' & -> & Hz0 & Hy0 & E0); [done..|].
    destruct (DSUMc_spec z0 z1 y2) as (z2 & y2' & -> & Hz2 & Hy2 & E2); [done..|].
    destruct (DSUMc_spec sd z2 y3) as (t & y3' & -> & Ht & Hy3 & E3); [done..|].
    destruct (DSUMc_spec b1 b1 y1) as (z1' & y1' & -> & Hz1 & Hy1 & E1); [done..|].
    destruct (IH s z1' y0' y1' y2' y3') as (r & top & -> & D & L & Ht' & V); [done || (cbn in Hl; lia)..|].
    eexists _, _. split; [reflexivity|]. split; [by constructor|]. split; [cbn; lia|]. split; [done|].
    rewrite base_pow_cons. cbn [val]. nia.
Qed.

Lemma sqr_rows_spec x : ∀ r, x ≠ [] → digits x → digits r → length r = S (length x) →
  val r + val x * val x < base_pow x * base_pow x →
  ∃ res, sqr_rows x r = Some res ∧ digits res ∧ length res = (2 * length x)%nat ∧ val res = val r + val x * val x.
Proof.
  pose proof D_BASE_ge. induction x as [|d x IH]; intros r Hne Hx Hr Hl Hb; [done|]. clear Hne.
  apply Forall_cons_iff in Hx as [Hd Hx]. destruct r as [|sd s]; [done|]. apply Forall_cons_iff in Hr as [Hsd Hs].
  cbn [sqr_rows]. unfold DMUL.
  destruct (DMULc_spec d d 0 Hd Hd) as (b1 & b0 & -> & Hb1 & Hb0 & Eb); [unfold is_digit; lia|].
  destruct (DSUMc_spec sd b0 0 Hsd Hb0 ltac:(lia)) as (t & y3 & -> & Ht & Hy3 & E3).
  destruct (sqr_row_spec d x s b1 0 0 0 y3) as (row & top & -> & D & L & Htop & V); try done; try lia; try (cbn in Hl; lia).
  cbn [mbind option_bind]. rewrite base_pow_cons in Hb. cbn [val] in Hb |- *.
  pose proof (val_range row D) as Rrow. unfold is_digit in Ht, Htop. pose proof (base_pow_pos row) as Prow.
  destruct x as [|d' x].
  - destruct row as [|r0 [|]]; cbn in L; try lia. eexists. split; [reflexivity|]. split; [by constructor|]. split; [done|].
    rewrite base_pow_cons in V. change (base_pow []) with 1 in *. cbn [val] in *.
    assert (top = 0) as -> by nia. lia.
  - destruct row as [|r1 row]; [done|]. apply Forall_cons_iff in D as [Hr1 D].
    assert (length row = length (d' :: x)) as Lrow by (cbn in L |- *; lia).
    assert (base_pow row = base_pow (d' :: x)) as Ep by (unfold base_pow; by rewrite Lrow).
    rewrite base_pow_cons in V. cbn [val] in V. unfold is_digit in Hr1.
    assert (t + D_BASE * r1 + D_BASE * D_BASE * (val (row ++ [top]) + val (d' :: x) * val (d' :: x)) =
      sd + D_BASE * val s + (d + D_BASE * val (d' :: x)) * (d + D_BASE * val (d' :: x))) as Etot.
    { rewrite val_app. cbn [val]. cbn [val] in V. nia. }
    destruct (IH (row ++ [top])) as (res & -> & D' & L' & V'); [done|done| | | |].
    + apply Forall_app. split; [done|]. by constructor; [|constructor].
    + rewrite length_app, Lrow. cbn. lia.
    + assert (0 ≤ t + D_BASE * r1) by nia. apply (Z.mul_lt_mono_pos_l (D_BASE * D_BASE)); [nia|]. lia.
    + eexists. split; [reflexivity|]. split; [constructor; [exact Ht|constructor; [exact Hr1|exact D']]|]. split; [cbn in L' |- *; lia|].
      cbn [val]. cbn [val] in V', Etot. lia.
Qed.

End Digits.
