(* ===== verification/BigBits.v ===== *)
(** Bit operations and shifts on digit vectors: [I_btrail], [I_band], [I_bor], [I_bxor], [I_bnot], [I_lshift] of
    [erts/emulator/beam/big.c], and their values.

    A negative operand is given by its magnitude and a sign; its two's complement digits are those of [~(x - 1)], made
    digit by digit with a borrow. *)

From Stdlib Require Import ZArith ZifyBool.
From stdpp Require Import base list numbers option.
From S2P Require Import Prelude Big BigSpec.
Local Open Scope Z_scope.

Section Bits.
Context {dw : DigitWidth}.

(** [~d] on a digit. *)
Definition bnot_digit (d : Z) : Z := dig (Z.lnot d).

(** The top bit: [DCONST(1) << (D_EXP-1)]. *)
Definition TOP_BIT : Z := dig (Z.shiftl 1 (D_EXP - 1)).

(** [while((d & mask) == mask) { prev_mask = mask; mask = (prev_mask >> 1) | TOP_BIT; }]: [prev_mask] at the end. *)
Fixpoint btrail_mask (fuel : nat) (d prev_mask mask : Z) : option Z :=
  match fuel with
  | O => None
  | S fuel' =>
      if Z.land d mask =? mask then btrail_mask fuel' d mask (Z.lor (Z.shiftr mask 1) TOP_BIT) else Some prev_mask
  end.

(** The high digits [D_MASK] removed, down to the lowest digit. *)
Fixpoint strip_ones (r : list Z) : list Z :=
  match r with
  | [] => []
  | d :: r' =>
      match strip_ones r' with
      | [] => [d]
      | [e] => if e =? D_MASK then [d] else [d; e]
      | s => d :: s
      end
  end.

(** Step 2: the highest digit that is left is complemented. *)
Definition btrail_top (d : Z) : option Z :=
  if d =? D_MASK then Some 0
  else prev_mask ← btrail_mask (Z.to_nat D_EXP) d 0 TOP_BIT; Some (Z.land (bnot_digit d) (bnot_digit prev_mask)).

Fixpoint btrail_neg (r : list Z) : option (list Z) :=
  match r with
  | [] => None
  | [d] => e ← btrail_top d; Some [e]
  | d :: r' => rest ← btrail_neg r'; Some (bnot_digit d :: rest)
  end.

Definition I_btrail (r : list Z) (sign : bool) : option (list Z) :=
  match r with
  | [] => None
  | _ =>
      if sign then r' ← btrail_neg (strip_ones r); Some (D_add r' 1)
      else Some (strip r)
  end.

(** The next digit of an operand: of a negative one, [~c] with [DSUB(d,1,b,c)] for the first digit ([b] is [None]
    before) and [DSUBb(d,0,b,c)] for the others. *)
Definition operand (sgn : bool) (d : Z) (b : option Z) : Z * option Z :=
  if sgn then
    let '(c, b') := match b with None => DSUB d 1 | Some b => DSUBb d 0 b end in (bnot_digit c, Some b')
  else (d, b).

(** The loops over the digits of [y]: the digits stored, the rest of [x] and the borrow of [x]. *)
Fixpoint bit_loop (op : Z → Z → Z) (xsgn ysgn : bool) (x y : list Z) (bx by_ : option Z) : option (list Z * list Z * option Z) :=
  match y with
  | [] => Some ([], x, bx)
  | yd :: y' =>
      match x with
      | [] => None
      | xd :: x' =>
          let '(u, bx) := operand xsgn xd bx in
          let '(v, by_) := operand ysgn yd by_ in
          '(r, x'', bx) ← bit_loop op xsgn ysgn x' y' bx by_; Some (op u v :: r, x'', bx)
      end
  end.

(** With a negative operand the first digit is handled before the loop, whether there is one or not. *)
Definition bit_digits (op : Z → Z → Z) (xsgn ysgn : bool) (x y : list Z) : option (list Z * list Z * option Z) :=
  match y with
  | [] => if xsgn || ysgn then None else Some ([], x, None)
  | _ => bit_loop op xsgn ysgn x y None None
  end.

(** [while(xl--) { DSUBb( *x,0,b,c); *r++ = ~c; x++; }] *)
Fixpoint neg_rest (x : list Z) (b : option Z) : list Z :=
  match x with [] => [] | xd :: x' => let '(v, b') := operand true xd b in v :: neg_rest x' b' end.

(** [sign] is the sign of the result; the rest of [x] behind the digits of [y] is treated as each function does. *)
Definition I_band (x : list Z) (xsgn : bool) (y : list Z) (ysgn : bool) : option (list Z) :=
  '(r, x', b) ← bit_digits Z.land xsgn ysgn x y;
  let rest := match xsgn, ysgn with
              | false, false => []
              | false, true => x'
              | true, false => []
              | true, true => map bnot_digit x'
              end in
  I_btrail (r ++ rest) (xsgn && ysgn).

Definition I_bor (x : list Z) (xsgn : bool) (y : list Z) (ysgn : bool) : option (list Z) :=
  '(r, x', b) ← bit_digits Z.lor xsgn ysgn x y;
  let rest := match xsgn, ysgn with
              | false, false => x'
              | false, true => []
              | true, false => neg_rest x' b
              | true, true => []
              end in
  I_btrail (r ++ rest) (xsgn || ysgn).

Definition I_bxor (x : list Z) (xsgn : bool) (y : list Z) (ysgn : bool) : option (list Z) :=
  '(r, x', b) ← bit_digits Z.lxor xsgn ysgn x y;
  let rest := match xsgn, ysgn with
              | false, false => x'
              | false, true => map bnot_digit x'
              | true, false => map bnot_digit x'
              | true, true => x'
              end in
  I_btrail (r ++ rest) (xorb xsgn ysgn).

(** [xsgn] is the sign of the result, as the caller passes it. *)
Definition I_bnot (x : list Z) (xsgn : bool) : option (list Z) :=
  if xsgn then Some (D_add x 1) else D_sub x 1.

(** ** Shifts *)

(** [a0 = ( *x << sw) | a1; a1 = *x >> (D_EXP - sw)], and the last [a1]. *)
Fixpoint shl_digits (sw : Z) (x : list Z) (a1 : Z) : list Z :=
  match x with
  | [] => if a1 =? 0 then [] else [a1]
  | xd :: x' => Z.lor (dig (Z.shiftl xd sw)) a1 :: shl_digits sw x' (Z.shiftr xd (D_EXP - sw))
  end.

(** From the highest digit down: [a1 = ( *x >> sw) | a0; a0 = *x << (D_EXP-sw)]; the digits and the last [a0]. *)
Fixpoint shr_digits (sw : Z) (x : list Z) : list Z * Z :=
  match x with
  | [] => ([], 0)
  | xd :: x' =>
      let '(r, a0) := shr_digits sw x' in (Z.lor (Z.shiftr xd sw) a0 :: r, dig (Z.shiftl xd (D_EXP - sw)))
  end.

(** [bw] is an [int]: for a right shift it is compared with [xl] as an unsigned word, and for a left shift [while(bw--)] with a negative one is undefined. *)
Definition I_lshift (x : list Z) (y : Z) (sign : bool) : option (list Z) :=
  if y =? 0 then Some x
  else if bool_decide (x = [0]) then Some [0]
  else
    let ay := if y <? 0 then - y else y in
    let bw := int32 (ay / D_EXP) in
    let sw := ay mod D_EXP in
    if y >? 0 then
      if bw <? 0 then None else Some (replicate (Z.to_nat bw) 0 ++ (if negb (sw =? 0) then shl_digits sw x 0 else x))
    else if zlen x <=? dig bw then Some [if sign then 1 else 0]
    else
      let n := Z.to_nat bw in
      let add_one := sign && existsb (λ z, negb (z =? 0)) (take n x) in
      let '(r, a0) := if negb (sw =? 0) then shr_digits sw (drop n x) else (drop n x, 0) in
      let add_one := add_one || (sign && negb (a0 =? 0)) in
      match list.last r with
      | Some 0 =>
          if (length r =? 1)%nat then Some [if sign then 1 else 0]
          else if add_one then Some (D_add (removelast r) 1) else Some (removelast r)
      | _ => if add_one then Some (D_add r 1) else Some r
      end.

End Bits.
