(* ===== verification/BigBitsSpec.v ===== *)
(** Values of the bit operations and shifts of [BigBits.v]. *)

From Stdlib Require Import ZArith ZifyBool.
From stdpp Require Import base list numbers option.
From S2P Require Import Prelude Big BigSpec BigBits.
Local Open Scope Z_scope.

Section Bits.
Context {dw : DigitWidth}.

(** The number with magnitude [x] and a sign. *)
Definition sval (sgn : bool) (x : list Z) : Z := if sgn then - val x else val x.

Lemma D_EXP_ge : 32 ≤ D_EXP.
Proof. unfold D_EXP. destruct H_EXP_cases; lia. Qed.

(** ** Complements *)
Lemma bnot_digit_eq d : is_digit d → bnot_digit d = D_BASE - 1 - d.
Proof.
  unfold is_digit, bnot_digit. intros Hd. unfold Z.lnot, dig.
  symmetry. apply (Z.mod_unique_pos _ _ (-1)); lia.
Qed.

Lemma bnot_digit_digit d : is_digit d → is_digit (bnot_digit d).
Proof. intros Hd. rewrite bnot_digit_eq by done. unfold is_digit in *. lia. Qed.

Lemma map_bnot_digits x : digits x → digits (map bnot_digit x).
Proof. induction 1; constructor; [by apply bnot_digit_digit|done]. Qed.

Lemma val_map_bnot x : digits x → val (map bnot_digit x) = base_pow x - 1 - val x.
Proof.
  induction 1 as [|d x Hd Hx IH]; [done|]. rewrite base_pow_cons. cbn [map val]. rewrite IH, bnot_digit_eq by done. ring.
Qed.

Lemma base_pow_length x y : length x = length y → base_pow x = base_pow y.
Proof. unfold base_pow. by intros ->. Qed.

(** ** [I_btrail] *)
Lemma TOP_BIT_eq : TOP_BIT = 2 ^ (D_EXP - 1).
Proof.
  pose proof D_EXP_ge. unfold TOP_BIT. rewrite Z.shiftl_1_l. apply dig_small. unfold is_digit, D_BASE.
  split; [apply Z.pow_nonneg; lia|apply Z.pow_lt_mono_r; lia].
Qed.

(** The mask with [k + 1] leading ones. *)
Lemma next_mask k : 0 ≤ k < D_EXP - 1 →
  Z.lor (Z.shiftr (D_BASE - 2 ^ (D_EXP - 1 - k)) 1) TOP_BIT = D_BASE - 2 ^ (D_EXP - 1 - (k + 1)).
Proof.
  intros Hk. rewrite TOP_BIT_eq, Z.lor_comm. rewrite Z.shiftr_div_pow2 by lia. unfold D_BASE.
  set (e := D_EXP - 1) in *. replace D_EXP with (e + 1) by lia. rewrite Z.pow_add_r by lia.
  replace (e - k) with (e - (k + 1) + 1) by lia. rewrite (Z.pow_add_r 2 (e - (k + 1)) 1) by lia.
  assert (0 < 2 ^ (e - (k + 1))) by (apply Z.pow_pos_nonneg; lia).
  assert (2 ^ (e - (k + 1)) ≤ 2 ^ e) by (apply Z.pow_le_mono_r; lia).
  change (2 ^ 1) with 2. rewrite <- Z.mul_sub_distr_r, Z.div_mul by lia.
  rewrite <- (Z.shiftl_1_l e) at 1. rewrite lor_shiftl_add by lia. lia.
Qed.

Lemma btrail_mask_spec fuel : ∀ d prev k, is_digit d → d ≠ D_MASK → Z.of_nat fuel = D_EXP - k → 0 ≤ k < D_EXP →
  Z.land d prev = prev →
  ∃ p, btrail_mask fuel d prev (D_BASE - 2 ^ (D_EXP - 1 - k)) = Some p ∧ Z.land d p = p.
Proof.
  induction fuel as [|fuel IH]; intros d prev k Hd Hne Hf Hk Hp; [lia|]. cbn [btrail_mask].
  destruct (Z.eqb_spec (Z.land d (D_BASE - 2 ^ (D_EXP - 1 - k))) (D_BASE - 2 ^ (D_EXP - 1 - k))) as [E|]; [|eauto].
  destruct (decide (k = D_EXP - 1)) as [->|].
  - exfalso. apply Hne. unfold D_MASK. replace (D_EXP - 1 - (D_EXP - 1)) with 0 in E by lia. change (2 ^ 0) with 1 in E.
    rewrite <- E. unfold D_BASE. replace (2 ^ D_EXP - 1) with (Z.ones D_EXP) by (rewrite Z.ones_equiv; lia).
    rewrite Z.land_ones by lia. symmetry. by apply dig_small.
  - rewrite next_mask by lia. apply IH; [done|done|lia|lia|done].
Qed.

Lemma btrail_top_spec d : is_digit d → btrail_top d = Some (bnot_digit d).
Proof.
  intros Hd. pose proof D_EXP_ge. unfold btrail_top. destruct (Z.eqb_spec d D_MASK) as [->|Hne].
  - rewrite bnot_digit_eq by done. f_equal. unfold D_MASK. lia.
  - destruct (btrail_mask_spec (Z.to_nat D_EXP) d 0 0 Hd Hne) as (p & E & Hp); [lia|lia|apply Z.land_0_r|].
    replace (D_BASE - 2 ^ (D_EXP - 1 - 0)) with TOP_BIT in E.
    2: { rewrite TOP_BIT_eq. unfold D_BASE. replace D_EXP with ((D_EXP - 1) + 1) at 2 by lia. rewrite Z.pow_add_r by lia.
         change (2 ^ 1) with 2. replace (D_EXP - 1 - 0) with (D_EXP - 1) by lia. lia. }
    rewrite E. cbn [mbind option_bind]. f_equal. unfold bnot_digit, dig, D_BASE. rewrite <- !Z.land_ones by lia.
    apply Z.bits_inj'. intros n Hn. rewrite !Z.land_spec, !Z.lnot_spec by done. rewrite <- Hp, Z.land_spec.
    destruct (Z.testbit d n), (Z.testbit p n), (Z.testbit (Z.ones D_EXP) n); done.
Qed.

Lemma btrail_neg_spec r : digits r → r ≠ [] → btrail_neg r = Some (map bnot_digit r).
Proof.
  induction 1 as [|d r Hd Hr IH]; [done|]. intros _. cbn [btrail_neg]. destruct r as [|e r].
  - by rewrite btrail_top_spec.
  - by rewrite IH.
Qed.

(** The number of a two's complement vector: the digits are followed by zeros or by ones for ever. *)
Definition tc (sign : bool) (r : list Z) : Z := if sign then val r - base_pow r else val r.

Lemma strip_ones_cons d r : r ≠ [] →
  strip_ones (d :: r) = if decide (strip_ones r = [D_MASK]) then [d] else d :: strip_ones r.
Proof.
  intros Hne. cbn [strip_ones]. destruct (strip_ones r) as [|e [|e' s]] eqn:E.
  - exfalso. destruct r as [|a r]; [done|]. cbn [strip_ones] in E.
    destruct (strip_ones r) as [|? [|? ?]]; try done. destruct (_ =? _); done.
  - destruct (Z.eqb_spec e D_MASK) as [->|]; [by rewrite decide_True|rewrite decide_False by congruence; done].
  - rewrite decide_False by congruence. done.
Qed.

Lemma strip_ones_spec r : digits r → r ≠ [] →
  digits (strip_ones r) ∧ strip_ones r ≠ [] ∧ tc true (strip_ones r) = tc true r ∧
  (strip_ones r = [D_MASK] ∨ list.last (strip_ones r) ≠ Some D_MASK).
Proof.
  unfold tc. induction 1 as [|d r Hd Hr IH]; [done|]. intros _. destruct (decide (r = [])) as [->|Hne].
  - cbn [strip_ones]. repeat split; [by constructor|done|].
    destruct (decide (d = D_MASK)) as [->|]; [by left|right; cbn; congruence].
  - rewrite strip_ones_cons by done. destruct (IH Hne) as (D & N & V & T). case_decide as Hs.
    + rewrite Hs in V. rewrite !base_pow_cons in *. change (base_pow []) with 1 in *. cbn [val] in *. unfold D_MASK in V.
      repeat split; [by constructor|done|nia|].
      destruct (decide (d = D_MASK)) as [->|]; [by left|right; cbn; congruence].
    + repeat split; [by constructor|done|rewrite !base_pow_cons; cbn [val]; nia|right].
      rewrite last_cons_ne by done. destruct T; [done|done].
Qed.

Lemma last_map_bnot r d : list.last r = Some d → list.last (map bnot_digit r) = Some (bnot_digit d).
Proof. intros E. apply last_Some in E as [l ->]. by rewrite map_app, last_app. Qed.

(** The magnitude of a two's complement vector. *)
Lemma I_btrail_spec r sign : digits r → r ≠ [] →
  ∃ res, I_btrail r sign = Some res ∧ digits res ∧ sval sign res = tc sign r ∧ stripped res.
Proof.
  intros Hr Hne. pose proof D_BASE_ge. unfold I_btrail, sval, tc. destruct sign.
  - destruct (strip_ones_spec r Hr Hne) as (D & N & V & T). unfold tc in V. set (r' := strip_ones r) in *.
    rewrite (btrail_neg_spec r' D N). cbn [mbind option_bind].
    assert (map bnot_digit r' ≠ []) as N' by (by destruct r').
    pose proof (map_bnot_digits r' D) as D'.
    pose proof (add_carry_spec (map bnot_digit r') 1 D' ltac:(unfold is_digit; lia) ltac:(done)) as S.
    exists (D_add (map bnot_digit r') 1). split; [by destruct r|]. pose proof S as (S1 & S2 & _).
    split; [done|]. split; [unfold D_add in *; rewrite S2, val_map_bnot by done; lia|].
    right. split; [intros E; unfold D_add in E; rewrite E in S2; cbn in S2; pose proof (val_range _ D'); lia|].
    destruct T as [T|T].
    + rewrite T. rewrite T in D. cbn [map D_add add_carry].
      apply Forall_cons_iff in D as [D _]. rewrite bnot_digit_eq by done. unfold D_MASK.
      replace (D_BASE - 1 - (D_BASE - 1) + 1) with 1 by lia. rewrite dig_small by (unfold is_digit; lia). done.
    + apply (sum_of_norm _ _ _ S); [done|done| |lia]. unfold norm. destruct (list.last r') as [d|] eqn:E.
      2: { apply last_None in E. done. }
      rewrite (last_map_bnot _ _ E). intros [= E0]. apply T. f_equal. apply last_Some in E as [l El].
      rewrite El in D. apply Forall_app in D as [_ D]. apply Forall_cons_iff in D as [D _].
      rewrite bnot_digit_eq in E0 by done. unfold D_MASK. lia.
  - destruct (strip_spec r Hr Hne) as (D & V & S & _). exists (strip r). split; [by destruct r|]. done.
Qed.

(** ** The operands *)

(** What is left of an operand: of a negative one, [~(x - b)] with the pending borrow [b]. *)
Definition bval (b : option Z) : Z := default 1 b.
Definition num (sgn : bool) (x : list Z) (b : option Z) : Z := if sgn then - val x + bval b - 1 else val x.

Lemma operand_spec sgn d b : is_digit d → 0 ≤ bval b ≤ 1 →
  ∃ u b', operand sgn d b = (u, b') ∧ is_digit u ∧ 0 ≤ bval b' ≤ 1 ∧
    ∀ x, num sgn (d :: x) b = u + D_BASE * num sgn x b'.
Proof.
  intros Hd Hb. pose proof D_BASE_ge. unfold operand, num. destruct sgn; [|by exists d, b].
  assert (∃ c b', match b with None => DSUB d 1 | Some b => DSUBb d 0 b end = (c, b') ∧ is_digit c ∧ 0 ≤ b' ≤ 1 ∧
    c - D_BASE * b' = d - bval b) as (c & b' & -> & Hc & Hb' & E).
  { destruct b as [b|]; [change (bval (Some b)) with b in *|change (bval None) with 1 in *].
    - destruct (DSUBb_spec d 0 b Hd ltac:(unfold is_digit; lia) Hb) as (c & b' & -> & ? & ? & E). exists c, b'.
      split; [done|]. split; [done|]. split; [done|]. lia.
    - destruct (DSUB_spec d 1 Hd ltac:(unfold is_digit; lia)) as (c & b' & -> & ? & ? & E). by exists c, b'. }
  exists (bnot_digit c), (Some b'). split; [done|]. split; [by apply bnot_digit_digit|]. split; [done|].
  intros x. rewrite bnot_digit_eq by done. change (bval (Some b')) with b'. cbn [val]. lia.
Qed.

Lemma neg_rest_spec x : ∀ b, digits x → 0 ≤ bval b ≤ 1 →
  digits (neg_rest x b) ∧ length (neg_rest x b) = length x ∧
  ∃ b', 0 ≤ bval b' ≤ 1 ∧ num true x b = val (neg_rest x b) + base_pow x * num true [] b'.
Proof.
  induction x as [|d x IH]; intros b Hx Hb; cbn [neg_rest].
  - split; [constructor|]. split; [done|]. exists b. split; [done|]. change (base_pow []) with 1. cbn [val]. lia.
  - apply Forall_cons_iff in Hx as [Hd Hx]. destruct (operand_spec true d b Hd Hb) as (u & b1 & -> & Hu & Hb1 & E).
    destruct (IH b1 Hx Hb1) as (D & L & b2 & Hb2 & V). split; [by constructor|]. split; [cbn; lia|].
    exists b2. split; [done|]. rewrite E, V, base_pow_cons. cbn [val]. ring.
Qed.

(** ** The loop *)
Section Op.
Context (op : Z → Z → Z) (f : bool → bool → bool).
Hypothesis op_spec : ∀ a b n, 0 ≤ n → Z.testbit (op a b) n = f (Z.testbit a n) (Z.testbit b n).
Hypothesis f_false : f false false = false.

Lemma testbit_high u n : is_digit u → D_EXP ≤ n → Z.testbit u n = false.
Proof.
  intros Hu Hn. pose proof D_EXP_ge. rewrite <- (dig_small u) by done. apply Z.mod_pow2_bits_high. lia.
Qed.

Lemma testbit_split u U n : is_digit u → 0 ≤ n →
  Z.testbit (u + D_BASE * U) n = if n <? D_EXP then Z.testbit u n else Z.testbit U (n - D_EXP).
Proof.
  intros Hu Hn. pose proof D_EXP_ge. unfold is_digit, D_BASE in Hu.
  replace (u + D_BASE * U) with (Z.lor (Z.shiftl U D_EXP) u) by (rewrite lor_shiftl_add by lia; unfold D_BASE; lia).
  rewrite Z.lor_spec. destruct (Z.ltb_spec n D_EXP); [by rewrite Z.shiftl_spec_low|].
  rewrite Z.shiftl_spec by lia. rewrite (testbit_high u) by done. by rewrite orb_false_r.
Qed.

Lemma op_digit u v : is_digit u → is_digit v → is_digit (op u v).
Proof.
  intros Hu Hv. pose proof D_EXP_ge.
  assert (op u v = dig (op u v)) as ->; [|apply dig_digit]. unfold dig, D_BASE. rewrite <- Z.land_ones by lia.
  apply Z.bits_inj'. intros n Hn. rewrite Z.land_spec, op_spec by done. destruct (Z.ltb_spec n D_EXP).
  - by rewrite Z.ones_spec_low, andb_true_r by lia.
  - rewrite Z.ones_spec_high, andb_false_r, !testbit_high by done || lia. done.
Qed.

Lemma op_split u U v V : is_digit u → is_digit v → op (u + D_BASE * U) (v + D_BASE * V) = op u v + D_BASE * op U V.
Proof.
  intros Hu Hv. pose proof (op_digit u v Hu Hv). apply Z.bits_inj'. intros n Hn.
  rewrite op_spec, !testbit_split by done. destruct (Z.ltb_spec n D_EXP); rewrite op_spec by lia; done.
Qed.

Lemma bit_loop_spec xs ys y : ∀ x bx by_, digits x → digits y → (length y ≤ length x)%nat →
  0 ≤ bval bx ≤ 1 → 0 ≤ bval by_ ≤ 1 →
  ∃ r bx' by' us vs, bit_loop op xs ys x y bx by_ = Some (r, drop (length y) x, bx') ∧ digits r ∧ length r = length y ∧
    0 ≤ bval bx' ≤ 1 ∧ 0 ≤ bval by' ≤ 1 ∧
    digits us ∧ length us = length y ∧ num xs x bx = val us + base_pow y * num xs (drop (length y) x) bx' ∧
    digits vs ∧ length vs = length y ∧ num ys y by_ = val vs + base_pow y * num ys [] by' ∧
    op (num xs x bx) (num ys y by_) = val r + base_pow y * op (num xs (drop (length y) x) bx') (num ys [] by').
Proof.
  induction y as [|yd y IH]; intros x bx by_ Hx Hy Hl Hbx Hby.
  - exists [], bx, by_, [], []. change (base_pow []) with 1. cbn [length val]. rewrite drop_0.
    split; [by destruct x|]. repeat split; try constructor; try done; lia.
  - destruct x as [|xd x]; [cbn in Hl; lia|]. apply Forall_cons_iff in Hx as [Hxd Hx]. apply Forall_cons_iff in Hy as [Hyd Hy].
    cbn [bit_loop]. destruct (operand_spec xs xd bx Hxd Hbx) as (u & bx1 & -> & Hu & Hbx1 & Eu).
    destruct (operand_spec ys yd by_ Hyd Hby) as (v & by1 & -> & Hv & Hby1 & Ev).
    destruct (IH x bx1 by1 Hx Hy ltac:(cbn in Hl; lia) Hbx1 Hby1)
      as (r & bx' & by' & us & vs & -> & D & L & Hbx' & Hby' & Du & Lu & Vu & Dv & Lv & Vv & Vo).
    exists (op u v :: r), bx', by', (u :: us), (v :: vs). cbn [mbind option_bind length drop]. rewrite base_pow_cons.
    split; [done|]. split; [constructor; [by apply op_digit|done]|]. split; [cbn; lia|]. split; [done|]. split; [done|].
    split; [by constructor|]. split; [lia|]. split; [rewrite Eu, Vu; cbn [val]; ring|].
    split; [by constructor|]. split; [lia|]. split; [rewrite Ev, Vv; cbn [val]; ring|].
    rewrite Eu, Ev, op_split, Vo by done. cbn [val]. ring.
Qed.

(** Starting with no borrow pending; [b] is the borrow of [x] behind the digits of [y]. *)
Lemma bit_digits_spec (xs ys : bool) x y : digits x → digits y → y ≠ [] → 0 < val y → (length y ≤ length x)%nat →
  ∃ r b, bit_digits op xs ys x y = Some (r, drop (length y) x, b) ∧ digits r ∧ length r = length y ∧ 0 ≤ bval b ≤ 1 ∧
    (xs = true → bval b = if val (take (length y) x) =? 0 then 1 else 0) ∧
    op (sval xs x) (sval ys y) =
      val r + base_pow y * op (num xs (drop (length y) x) b) (if ys then -1 else 0).
Proof.
  intros Hx Hy Ny Py Hl. pose proof D_BASE_ge.
  destruct (bit_loop_spec xs ys y x None None Hx Hy Hl) as
    (r & b & by' & us & vs & E & D & L & Hb & Hby' & Du & Lu & Vu & Dv & Lv & Vv & Vo); [cbn; lia..|].
  exists r, b. split; [destruct y; [done|exact E]|]. split; [done|]. split; [done|]. split; [done|].
  pose proof (val_range _ Du) as Ru. pose proof (val_range _ Dv) as Rv. pose proof (val_range _ Hy) as Ry.
  rewrite (base_pow_length us y Lu) in Ru. rewrite (base_pow_length vs y Lv) in Rv. split.
  - intros ->. unfold num in Vu. change (bval None) with 1 in Vu.
    assert (val x = val (take (length y) x) + base_pow y * val (drop (length y) x)) as Ex.
    { rewrite <- (take_drop (length y) x) at 1. rewrite val_app. do 2 f_equal. apply base_pow_length. rewrite length_take. lia. }
    assert (0 ≤ val (take (length y) x) < base_pow y) as Rl.
    { rewrite <- (base_pow_length (take (length y) x) y) by (rewrite length_take; lia). apply val_range. by apply Forall_take. }
    assert (- val (take (length y) x) = val us + base_pow y * (bval b - 1)) by nia.
    destruct (Z.eqb_spec (val (take (length y) x)) 0); nia.
  - replace (sval xs x) with (num xs x None) by (unfold sval, num; destruct xs; cbn; lia).
    replace (sval ys y) with (num ys y None) by (unfold sval, num; destruct ys; cbn; lia). rewrite Vo. do 3 f_equal.
    unfold num in *. destruct ys; [|done]. change (bval None) with 1 in *. cbn [val] in *. assert (bval by' = 0) by nia. unfold bval in *. lia.
Qed.

End Op.

(** ** The bit operations *)

(** The borrow of [x] behind the digits of [y]. *)
Definition lost (x y : list Z) : Z := if val (take (length y) x) =? 0 then 1 else 0.

(** The two's complement number of digits in two parts. *)
Lemma tc_app sign r rest : tc sign (r ++ rest) = val r + base_pow r * tc sign rest.
Proof.
  unfold tc. rewrite val_app. replace (base_pow (r ++ rest)) with (base_pow r * base_pow rest).
  2: { unfold base_pow. rewrite length_app, Nat2Z.inj_add, Z.pow_add_r by lia. done. }
  destruct sign; ring.
Qed.

Lemma tc_bnot x : digits x → tc true (map bnot_digit x) = - val x - 1.
Proof.
  intros Hx. unfold tc. rewrite val_map_bnot, (base_pow_length (map bnot_digit x) x) by (done || apply length_map). lia.
Qed.

Lemma tc_neg_rest x b : digits x → 0 ≤ bval b ≤ 1 → num true x b < 0 → tc true (neg_rest x b) = num true x b.
Proof.
  intros Hx Hb Hn. destruct (neg_rest_spec x b Hx Hb) as (D & L & b' & Hb' & V). pose proof (val_range _ D) as R.
  unfold tc. rewrite (base_pow_length _ x L) in *. unfold num in V at 2. cbn [val] in V.
  assert (bval b' = 0) by nia. nia.
Qed.

Lemma bits_result op r rest y sign e : digits r → r ≠ [] → digits rest → length r = length y →
  op = val r + base_pow y * (tc sign rest + e) →
  ∃ res, I_btrail (r ++ rest) sign = Some res ∧ digits res ∧ stripped res ∧ sval sign res = op - base_pow y * e.
Proof.
  intros Dr Nr Dt L E. destruct (I_btrail_spec (r ++ rest) sign) as (res & -> & D & V & S).
  - by apply Forall_app.
  - by destruct r.
  - exists res. split; [done|]. split; [done|]. split; [done|]. rewrite V, tc_app, (base_pow_length r y L). lia.
Qed.

Section Results.
Context (x y : list Z) (xs ys : bool).
Hypotheses (Hx : digits x) (Hy : digits y) (Ny : y ≠ []) (Px : 0 < val x) (Py : 0 < val y) (Hl : (length y ≤ length x)%nat).

(** What is left of a number that is not zero, behind its lowest digits, is negative when the number is. *)
Lemma num_rest_neg b : bval b = lost x y → num true (drop (length y) x) b < 0.
Proof.
  intros Hb. unfold num, lost in *. pose proof (val_range (drop (length y) x) (Forall_drop _ _ _ Hx)).
  pose proof (take_drop (length y) x) as Ex. apply (f_equal val) in Ex. rewrite val_app in Ex.
  destruct (Z.eqb_spec (val (take (length y) x)) 0); [|lia]. pose proof (base_pow_pos (take (length y) x)). nia.
Qed.

Ltac run_bits op f :=
  destruct (bit_digits_spec op f ltac:(intros; by rewrite ?Z.land_spec, ?Z.lor_spec, ?Z.lxor_spec) eq_refl xs ys x y)
    as (r & b & E & D & L & Hb & Hlost & V); [done..|]; rewrite E; cbn [mbind option_bind];
  assert (r ≠ []) by (intros ->; destruct y; done);
  pose proof (Forall_drop is_digit (length y) x Hx) as Dx'.

Lemma I_band_spec : ∃ r, I_band x xs y ys = Some r ∧ digits r ∧ stripped r ∧
  sval (xs && ys) r = Z.land (sval xs x) (sval ys y) - base_pow y * (if xs && ys then lost x y else 0).
Proof.
  unfold I_band. run_bits Z.land andb.
  destruct xs, ys; cbn [andb]; apply bits_result; try done; try (by apply map_bnot_digits); try (by apply Forall_nil); try rewrite V.
  - rewrite tc_bnot, Z.land_m1_r by done. specialize (Hlost eq_refl). unfold num, lost. rewrite Hlost. lia.
  - rewrite Z.land_0_r. cbn. lia.
  - rewrite Z.land_m1_r. unfold num, tc. lia.
  - rewrite Z.land_0_r. cbn. lia.
Qed.

Lemma I_bor_spec : ∃ r, I_bor x xs y ys = Some r ∧ digits r ∧ stripped r ∧
  sval (xs || ys) r = Z.lor (sval xs x) (sval ys y).
Proof.
  unfold I_bor. run_bits Z.lor orb.
  assert (∀ v : Z, v = v - base_pow y * 0) as Ez by lia.
  destruct xs, ys; cbn [orb]; rewrite (Ez (Z.lor _ _)); apply bits_result; try done; try (by apply Forall_nil); try rewrite V.
  - rewrite Z.lor_m1_r. change (tc true []) with (-1). lia.
  - by destruct (neg_rest_spec (drop (length y) x) b Dx' Hb).
  - rewrite Z.lor_0_r, tc_neg_rest; [lia|done|done|]. apply num_rest_neg. by apply Hlost.
  - rewrite Z.lor_m1_r. change (tc true []) with (-1). lia.
Qed.

Lemma I_bxor_spec : ∃ r, I_bxor x xs y ys = Some r ∧ digits r ∧ stripped r ∧
  sval (xorb xs ys) r = Z.lxor (sval xs x) (sval ys y) -
    base_pow y * (if xs then if ys then - lost x y else lost x y else 0).
Proof.
  unfold I_bxor. run_bits Z.lxor xorb.
  destruct xs, ys; cbn [xorb]; apply bits_result; try done; try (by apply map_bnot_digits); try (by apply Forall_nil); try rewrite V.
  - rewrite Z.lxor_m1_r. specialize (Hlost eq_refl). unfold num, lost, tc, Z.lnot. rewrite Hlost. lia.
  - rewrite tc_bnot, Z.lxor_0_r by done. specialize (Hlost eq_refl). unfold num, lost. rewrite Hlost. lia.
  - rewrite tc_bnot, Z.lxor_m1_r by done. unfold num, Z.lnot. lia.
Qed.

End Results.

End Bits.

(** * Values of [I_bnot] and [I_lshift] of [BigBits.v]. *)

Section Shift.
Context {dw : DigitWidth}.

Lemma D_BASE_split sw : 0 ≤ sw ≤ D_EXP → D_BASE = 2 ^ (D_EXP - sw) * 2 ^ sw.
Proof. intros. unfold D_BASE. rewrite <- Z.pow_add_r by lia. f_equal. lia. Qed.

(** The bits that stay in a digit shifted left. *)
Lemma dig_shiftl_bits d sw : 0 ≤ sw ≤ D_EXP → dig (Z.shiftl d sw) = Z.shiftl (d mod 2 ^ (D_EXP - sw)) sw.
Proof.
  intros Hs. assert (0 < 2 ^ (D_EXP - sw)) by (apply Z.pow_pos_nonneg; lia). assert (0 < 2 ^ sw) by (apply Z.pow_pos_nonneg; lia).
  unfold dig. rewrite !Z.shiftl_mul_pow2, (D_BASE_split sw) by lia. by rewrite Z.mul_mod_distr_r by lia.
Qed.

Lemma shl_digits_spec sw x : ∀ a1, 0 < sw < D_EXP → digits x → 0 ≤ a1 < 2 ^ sw →
  digits (shl_digits sw x a1) ∧ val (shl_digits sw x a1) = val x * 2 ^ sw + a1 ∧
  (length (shl_digits sw x a1) = length x ∨ length (shl_digits sw x a1) = S (length x) ∧ norm (shl_digits sw x a1)).
Proof.
  induction x as [|d x IH]; intros a1 Hs Hx Ha; pose proof (D_BASE_split sw ltac:(lia)) as EB;
    (assert (0 < 2 ^ (D_EXP - sw)) by (apply Z.pow_pos_nonneg; lia)); (assert (2 ^ sw ≤ D_BASE) by (rewrite EB; nia));
    cbn [shl_digits].
  - destruct (Z.eqb_spec a1 0); [split; [constructor|]; split; [cbn [val]; lia|by left]|].
    split; [constructor; [unfold is_digit; lia|constructor]|]. split; [cbn [val]; lia|right]. split; [done|]. by intros [= ->].
  - apply Forall_cons_iff in Hx as [Hd Hx]. unfold is_digit in Hd.
    rewrite dig_shiftl_bits, lor_shiftl_add, Z.shiftr_div_pow2 by lia.
    assert (2 ^ (D_EXP - sw) ≠ 0) as Hnz by lia.
    pose proof (Z.div_mod d _ Hnz) as Ed. assert (0 ≤ d mod 2 ^ (D_EXP - sw) < 2 ^ (D_EXP - sw)) by (apply Z.mod_pos_bound; lia).
    destruct (IH (d / 2 ^ (D_EXP - sw)) Hs Hx) as (D & V & L).
    { split; [apply Z.div_pos; lia|]. apply Z.div_lt_upper_bound; lia. }
    split; [constructor; [unfold is_digit; nia|done]|]. cbn [val length]. split; [rewrite V; nia|].
    destruct L as [L|[L N]]; [left; lia|right]. split; [lia|]. unfold norm in *. rewrite last_cons_ne; [done|].
    intros E0. by rewrite E0 in L.
Qed.

Lemma shr_digits_spec sw x : 0 < sw < D_EXP → digits x →
  ∃ r l, shr_digits sw x = (r, l * 2 ^ (D_EXP - sw)) ∧ digits r ∧ length r = length x ∧ 0 ≤ l < 2 ^ sw ∧
    val x = 2 ^ sw * val r + l.
Proof.
  intros Hs. pose proof (D_BASE_split sw ltac:(lia)) as EB. assert (0 < 2 ^ (D_EXP - sw)) by (apply Z.pow_pos_nonneg; lia).
  assert (0 < 2 ^ sw) by (apply Z.pow_pos_nonneg; lia).
  induction 1 as [|d x Hd Hx IH]; cbn [shr_digits].
  - exists [], 0. split; [done|]. split; [constructor|]. split; [done|]. split; [lia|]. cbn [val]. lia.
  - destruct IH as (r & l & -> & D & L & Hl & V). unfold is_digit in Hd.
    rewrite <- (Z.shiftl_mul_pow2 l) by lia. rewrite dig_shiftl_bits by lia. replace (D_EXP - (D_EXP - sw)) with sw by lia.
    rewrite Z.shiftr_div_pow2 by lia.
    assert (2 ^ sw ≠ 0) as Hnz by lia.
    pose proof (Z.div_mod d _ Hnz) as Ed. assert (0 ≤ d mod 2 ^ sw < 2 ^ sw) by (apply Z.mod_pos_bound; lia).
    assert (0 ≤ d / 2 ^ sw < 2 ^ (D_EXP - sw)) by (split; [apply Z.div_pos; lia|apply Z.div_lt_upper_bound; lia]).
    rewrite lor_shiftl_add' by lia. rewrite (Z.shiftl_mul_pow2 (d mod _)) by lia.
    eexists _, (d mod 2 ^ sw). split; [reflexivity|]. split; [constructor; [unfold is_digit; nia|done]|].
    split; [cbn; lia|]. split; [done|]. cbn [val]. rewrite V. nia.
Qed.

(** Shifting a magnitude: the quotient, and one more for a negative number with bits lost. *)
Lemma shift_floor X ay v rr : 0 ≤ ay → X = 2 ^ ay * v + rr → 0 ≤ rr < 2 ^ ay →
  Z.shiftl X (- ay) = v ∧ Z.shiftl (- X) (- ay) = - (v + if rr =? 0 then 0 else 1).
Proof.
  intros Hay -> Hr. rewrite !Z.shiftl_opp_r, !Z.shiftr_div_pow2 by lia. split; symmetry.
  - apply (Z.div_unique_pos _ _ _ rr); lia.
  - destruct (Z.eqb_spec rr 0); [apply (Z.div_unique_pos _ _ _ 0)|apply (Z.div_unique_pos _ _ _ (2 ^ ay - rr))]; lia.
Qed.

Lemma existsb_val x : digits x → existsb (λ z, negb (z =? 0)) x = negb (val x =? 0).
Proof.
  pose proof D_BASE_ge. induction 1 as [|d x Hd Hx IH]; [done|]. cbn [existsb val]. rewrite IH.
  pose proof (val_range x Hx). unfold is_digit in Hd.
  destruct (Z.eqb_spec d 0), (Z.eqb_spec (val x) 0), (Z.eqb_spec (d + D_BASE * val x) 0); cbn; try done; nia.
Qed.

(** ** [I_lshift] *)

(** The shift count in digits and bits. *)
Lemma pow_digits n sw : 0 ≤ sw → 2 ^ (Z.of_nat n * D_EXP + sw) = base_pow (replicate n 0) * 2 ^ sw.
Proof.
  intros Hs. pose proof D_EXP_ge. unfold base_pow, D_BASE. rewrite length_replicate, Z.pow_add_r by lia. f_equal.
  rewrite <- Z.pow_mul_r by lia. f_equal. lia.
Qed.

Lemma norm_app_zeros n x : norm x → x ≠ [] → norm (replicate n 0 ++ x).
Proof. unfold norm. rewrite last_app. intros Hn Hne. destruct (list.last x) eqn:E; [done|]. apply last_None in E. done. Qed.

Lemma norm_ge x r : digits x → digits r → x ≠ [] → norm x → val x ≤ val r → length r = length x → norm r.
Proof.
  intros Dx Dr Nx Hn Hv Hl. pose proof D_BASE_ge. apply norm_val; [done|by intros ->; destruct x|].
  apply norm_val in Hn; [|done..]. rewrite (base_pow_length r x Hl). nia.
Qed.

Lemma shl_spec n sw x : 0 ≤ sw < D_EXP → digits x → x ≠ [] → norm x →
  let r := replicate n 0 ++ (if negb (sw =? 0) then shl_digits sw x 0 else x) in
  digits r ∧ r ≠ [] ∧ norm r ∧ val r = val x * 2 ^ (Z.of_nat n * D_EXP + sw).
Proof.
  intros Hs Dx Nx Hn. pose proof D_BASE_ge. assert (digits (replicate n 0)) as Dz.
  { apply Forall_replicate. unfold is_digit. lia. }
  rewrite pow_digits by lia. cbv zeta. rewrite val_app, val_zeros. destruct (Z.eqb_spec sw 0) as [->|]; cbn [negb].
  - split; [by apply Forall_app|]. split; [by destruct n, x|]. split; [by apply norm_app_zeros|]. change (2 ^ 0) with 1. lia.
  - assert (0 < 2 ^ sw) by (apply Z.pow_pos_nonneg; lia).
    destruct (shl_digits_spec sw x 0 ltac:(lia) Dx ltac:(lia)) as (D & V & L). pose proof (val_range x Dx).
    assert (shl_digits sw x 0 ≠ []) as Nr by (intros E; rewrite E in L; destruct x; cbn in L; [done|lia]).
    assert (norm (shl_digits sw x 0)) as N.
    { destruct L as [L|[_ L]]; [|done]. apply (norm_ge x); [done..|nia|done]. }
    split; [by apply Forall_app|]. split; [destruct n; [done|done]|]. split; [by apply norm_app_zeros|]. rewrite V. ring.
Qed.

(** The digits of a right shift before rounding: at most one leading zero. *)
Lemma shr_spec n sw x : 0 ≤ sw < D_EXP → digits x → norm x → (n < length x)%nat →
  let '(r, a0) := if negb (sw =? 0) then shr_digits sw (drop n x) else (drop n x, 0) in
  digits r ∧ length r = (length x - n)%nat ∧
  ∃ rr, val x = 2 ^ (Z.of_nat n * D_EXP + sw) * val r + rr ∧ 0 ≤ rr < 2 ^ (Z.of_nat n * D_EXP + sw) ∧
    existsb (λ z, negb (z =? 0)) (take n x) || negb (a0 =? 0) = negb (rr =? 0) ∧
    (list.last r = Some 0 → (1 < length r)%nat → norm (removelast r)).
Proof.
  intros Hs Dx Hn Hl. pose proof D_BASE_ge. pose proof D_EXP_ge.
  assert (digits (take n x)) as Dlo by by apply Forall_take. assert (digits (drop n x)) as Dhi by by apply Forall_drop.
  rewrite existsb_val by done. pose proof (val_range _ Dlo) as Rlo.
  assert (base_pow (take n x) = base_pow (replicate n 0)) as Ep.
  { apply base_pow_length. rewrite length_take, length_replicate. lia. }
  rewrite Ep in Rlo. rewrite pow_digits by lia. set (P := base_pow (replicate n 0)) in *.
  assert (val x = val (take n x) + P * val (drop n x)) as Ex.
  { rewrite <- (take_drop n x) at 1. by rewrite val_app, Ep. }
  assert (norm (drop n x)) as Nhi.
  { unfold norm in *. rewrite <- (take_drop n x), last_app in Hn. destruct (list.last (drop n x)) eqn:E; done. }
  assert (drop n x ≠ []) as Hne by (intros E; apply (f_equal length) in E; rewrite length_drop in E; cbn in E; lia).
  destruct (Z.eqb_spec sw 0) as [->|]; cbn [negb].
  - change (2 ^ 0) with 1. split; [done|]. split; [apply length_drop|]. exists (val (take n x)). split; [lia|]. split; [lia|].
    split; [by rewrite orb_false_r|done].
  - destruct (shr_digits_spec sw (drop n x) ltac:(lia) Dhi) as (r & l & -> & D & L & Hl' & V).
    split; [done|]. split; [by rewrite L, length_drop|]. exists (val (take n x) + P * l).
    assert (0 < 2 ^ sw) by (apply Z.pow_pos_nonneg; lia). assert (0 < 2 ^ (D_EXP - sw)) by (apply Z.pow_pos_nonneg; lia).
    split; [rewrite Ex, V; ring|]. split; [nia|]. split.
    + destruct (Z.eqb_spec (val (take n x)) 0), (Z.eqb_spec (l * 2 ^ (D_EXP - sw)) 0), (Z.eqb_spec (val (take n x) + P * l) 0);
        cbn; try done; nia.
    + intros Hlast Hlen. apply last_Some in Hlast as [l0 ->]. rewrite removelast_last. rewrite length_app in Hlen, L. cbn in Hlen, L.
      apply Forall_app in D as [D _]. rewrite val_app in V. cbn [val] in V.
      apply norm_val; [done|by intros ->; cbn in Hlen; lia|]. apply norm_val in Nhi; [|done..].
      assert (base_pow (drop n x) = D_BASE * base_pow l0) as E1.
      { unfold base_pow. rewrite <- Z.pow_succ_r by lia. f_equal. lia. }
      rewrite E1 in Nhi. pose proof (D_BASE_split sw ltac:(lia)) as EB. apply Z.mul_le_mono_pos_l in Nhi; [|lia].
      pose proof (val_range l0 D). rewrite V in Nhi.
      assert (2 * 2 ^ sw ≤ D_BASE) as EB2.
      { rewrite EB. replace (D_EXP - sw) with (D_EXP - sw - 1 + 1) by lia. rewrite Z.pow_add_r by lia.
        assert (0 < 2 ^ (D_EXP - sw - 1)) by (apply Z.pow_pos_nonneg; lia). nia. }
      assert (base_pow l0 < 2 ^ sw * (val l0 + 1)) as Hlt by lia.
      assert (D_BASE ≤ base_pow l0).
      { destruct l0 as [|e l0]; [cbn in Hlen; lia|]. rewrite base_pow_cons. pose proof (base_pow_pos l0). nia. }
      assert (1 ≤ val l0) by nia. nia.
Qed.

Lemma drop_zero_val r : list.last r = Some 0 → val (removelast r) = val r.
Proof. intros E. apply last_Some in E as [l ->]. rewrite removelast_last, val_app. cbn. lia. Qed.

Lemma digits_removelast r : digits r → digits (removelast r).
Proof. intros D. rewrite removelast_firstn_len. by apply Forall_take. Qed.

(** The digits of a shifted magnitude, rounded up when [up]. *)
Lemma round_spec r (up : bool) : digits r → r ≠ [] → norm r →
  let r' := if up then D_add r 1 else r in
  digits r' ∧ stripped r' ∧ val r' = val r + (if up then 1 else 0).
Proof.
  intros D N Hn. pose proof D_BASE_ge. destruct up; cbv zeta.
  - pose proof (add_carry_spec r 1 D ltac:(unfold is_digit; lia) ltac:(done)) as S. pose proof S as (S1 & S2 & S3).
    split; [done|]. split; [right|done]. split; [|apply (sum_of_norm _ _ _ S); [done..|lia]].
    unfold D_add. intros E. rewrite E in S3. destruct r; [done|]. cbn in S3. destruct S3; lia.
  - split; [done|]. split; [by right|lia].
Qed.

(** The single digit that stands for a shift of everything. *)
Lemma one_digit_ok (b : bool) : digits [if b then 1 else 0] ∧ stripped [if b then 1 else 0].
Proof.
  pose proof D_BASE_ge. split; [repeat constructor; destruct b; lia|]. destruct b; [right; done|by left].
Qed.

(** The end of a right shift: the leading zero is dropped and the result rounded. *)
Lemma shr_finish x r y rr (sign : bool) :
  y ≤ 0 → 0 < val x → digits r → r ≠ [] → val x = 2 ^ (- y) * val r + rr → 0 ≤ rr < 2 ^ (- y) →
  (list.last r = Some 0 → (1 < length r)%nat → norm (removelast r)) →
  ∃ r0, match list.last r with
        | Some 0 => if (length r =? 1)%nat then Some [if sign then 1 else 0]
                    else if sign && negb (rr =? 0) then Some (D_add (removelast r) 1) else Some (removelast r)
        | _ => if sign && negb (rr =? 0) then Some (D_add r 1) else Some r
        end = Some r0 ∧ digits r0 ∧ stripped r0 ∧ sval sign r0 = Z.shiftl (sval sign x) y.
Proof.
  intros Hy Px D Nr V Rr Htop. pose proof D_BASE_ge.
  destruct (shift_floor (val x) (- y) (val r) rr ltac:(lia) V Rr) as [S1 S2]. rewrite Z.opp_involutive in S1, S2.
  assert (∀ r', digits r' → r' ≠ [] → norm r' → val r' = val r →
    ∃ r0, (if sign && negb (rr =? 0) then Some (D_add r' 1) else Some r') = Some r0 ∧ digits r0 ∧ stripped r0 ∧
      sval sign r0 = Z.shiftl (sval sign x) y) as Fin.
  { intros r' D' N' Hn' V'. destruct (round_spec r' (sign && negb (rr =? 0)) D' N' Hn') as (D1 & T1 & V1).
    exists (if sign && negb (rr =? 0) then D_add r' 1 else r'). split; [by destruct (_ && _)|]. split; [done|]. split; [done|].
    unfold sval. rewrite V1, V'. destruct sign; [rewrite S2; destruct (Z.eqb_spec rr 0); cbn; lia|rewrite S1; cbn; lia]. }
  destruct (decide (list.last r = Some 0)) as [Hz|Hnz].
  - rewrite Hz. destruct (Nat.eqb_spec (length r) 1) as [E1|].
    + eexists. split; [reflexivity|]. split; [apply one_digit_ok|]. split; [apply one_digit_ok|].
      destruct r as [|r0 [|]]; try done. cbn in Hz. injection Hz as ->. cbn [val] in *. unfold sval.
      destruct sign; [rewrite S2; destruct (Z.eqb_spec rr 0); [lia|]; cbn; lia|rewrite S1; cbn; lia].
    + apply Fin; [by apply digits_removelast|by destruct r as [|? [|]]| |by apply drop_zero_val].
      apply Htop; [done|]. destruct r as [|? [|]]; [done|done|]. cbn [length]. lia.
  - destruct (Fin r D Nr Hnz eq_refl) as (r0 & E0 & Hr0). exists r0. split; [|done]. rewrite <- E0.
    destruct (list.last r) as [[]|]; try congruence; done.
Qed.

(** What a right shift by [- y] bits comes to when the number of digits is cut to an [int] that is not negative. *)
Definition right_count (y : Z) : Z := int32 (- y / D_EXP) * D_EXP + - y mod D_EXP.

Lemma right_count_exact y : y < 0 → - y / D_EXP ≤ INT_MAX → 0 ≤ int32 (- y / D_EXP) ∧ right_count y = - y.
Proof.
  intros Hy Hmax. pose proof D_EXP_ge. assert (0 ≤ - y / D_EXP) by (apply Z.div_pos; lia). unfold right_count. rewrite int32_small by lia. split; [done|].
  rewrite Z.mul_comm. symmetry. apply Z.div_mod. lia.
Qed.

(** The rest of a right shift by at least as many bits as the number has. *)
Lemma shift_out x y sign : digits x → 0 < val x → 0 ≤ y → val x < 2 ^ y → sval sign [if sign then 1 else 0] = Z.shiftl (sval sign x) (- y).
Proof.
  intros Dx Px Hy Hlt. destruct (shift_floor (val x) y 0 (val x)) as [S1 S2]; [lia..|]. unfold sval.
  destruct sign; [rewrite S2; destruct (Z.eqb_spec (val x) 0); [lia|]; cbn; lia|rewrite S1; cbn; lia].
Qed.

(** The count is so large that the number of digits becomes negative: the comparison takes it for a huge one. *)
Lemma I_lshift_far x y sign : y < 0 → int32 (- y / D_EXP) < 0 → digits x → x ≠ [] → norm x → zlen x ≤ INT_MAX →
  ∃ r, I_lshift x y sign = Some r ∧ digits r ∧ stripped r ∧ sval sign r = Z.shiftl (sval sign x) y.
Proof.
  intros Hy Hneg Dx Nx Hn Hl. pose proof D_BASE_ge. pose proof D_EXP_ge. unfold I_lshift.
  destruct (Z.eqb_spec y 0) as [|_]; [lia|]. rewrite bool_decide_eq_false_2 by (intros ->; by apply Hn).
  replace (y <? 0) with true by lia. replace (y >? 0) with false by lia. pose proof (int32_range (- y / D_EXP)) as Hr.
  assert (INT_MAX < - y / D_EXP) as Hbig.
  { apply Z.nle_gt. intros Hle. by destruct (right_count_exact y Hy Hle) as [?%Z.le_ngt _]. }
  assert (4294967296 ≤ D_BASE) as HB by (unfold D_BASE, D_EXP; by destruct H_EXP_cases as [-> | ->]).
  assert (dig (int32 (- y / D_EXP)) = int32 (- y / D_EXP) + D_BASE) as ->.
  { unfold dig. symmetry. apply Z.mod_unique with (-1); [left; unfold INT_MAX in *; lia|lia]. }
  replace (zlen x <=? _) with true by (unfold INT_MAX in *; lia).
  eexists. split; [reflexivity|]. split; [apply one_digit_ok|]. split; [apply one_digit_ok|].
  pose proof (val_range x Dx) as Rx. apply norm_val in Hn as Hnv; [|done..]. pose proof (base_pow_pos x).
  replace (Z.shiftl (sval sign x) y) with (Z.shiftl (sval sign x) (- - y)) by (f_equal; lia). apply shift_out; [done|nia|lia|].
  apply Z.lt_le_trans with (base_pow x); [apply Rx|]. unfold base_pow, D_BASE. rewrite <- Z.pow_mul_r by lia. apply Z.pow_le_mono_r; [lia|].
  assert (D_EXP * (- y / D_EXP) ≤ - y) by (apply Z.mul_div_le; lia). nia.
Qed.

Lemma I_lshift_right x y sign : y < 0 → 0 ≤ int32 (- y / D_EXP) → digits x → x ≠ [] → norm x →
  ∃ r, I_lshift x y sign = Some r ∧ digits r ∧ stripped r ∧ sval sign r = Z.shiftl (sval sign x) (- right_count y).
Proof.
  intros Hy Hbw Dx Nx Hn. pose proof D_BASE_ge. pose proof D_EXP_ge. unfold I_lshift.
  destruct (Z.eqb_spec y 0) as [|_]; [lia|]. rewrite bool_decide_eq_false_2 by (intros ->; by apply Hn).
  replace (y <? 0) with true by lia. replace (y >? 0) with false by lia. pose proof (int32_range (- y / D_EXP)) as Hr.
  assert (4294967296 ≤ D_BASE) as HB by (unfold D_BASE, D_EXP; by destruct H_EXP_cases as [-> | ->]).
  unfold dig. rewrite (Z.mod_small (int32 _)) by (unfold INT_MAX in *; lia). unfold right_count.
  set (bw := int32 (- y / D_EXP)) in *. set (n := Z.to_nat bw). set (sw := - y mod D_EXP).
  assert (0 ≤ sw < D_EXP) as Hsw by (apply Z.mod_pos_bound; lia).
  set (c := bw * D_EXP + sw). assert (Z.of_nat n * D_EXP + sw = c) as Ey by (unfold n; by rewrite Z2Nat.id).
  assert (0 ≤ c) as Hc by nia.
  pose proof (val_range x Dx) as Rx. apply norm_val in Hn as Hnv; [|done..]. pose proof (base_pow_pos x).
  assert (0 < val x) as Px by nia.
  destruct (Z.leb_spec (zlen x) bw) as [Hle|Hgt].
  - eexists. split; [reflexivity|]. split; [apply one_digit_ok|]. split; [apply one_digit_ok|].
    apply shift_out; [done..|].
    { rewrite <- Ey, pow_digits by lia. assert (0 < 2 ^ sw) by (apply Z.pow_pos_nonneg; lia).
      assert (base_pow x ≤ base_pow (replicate n 0)); [|nia].
      unfold base_pow. rewrite length_replicate. apply Z.pow_le_mono_r; lia. }
  - pose proof (shr_spec n sw x Hsw Dx Hn ltac:(lia)) as Hshr. destruct (if negb (sw =? 0) then _ else _) as [r a0].
    destruct Hshr as (D & L & rr & V & Rr & Hup & Htop). rewrite Ey in V, Rr.
    rewrite <- andb_orb_distrib_r, Hup. apply shr_finish; rewrite ?Z.opp_involutive; try done; [lia|]. intros ->. cbn in L. lia.
Qed.

Lemma I_lshift_spec x y sign : Z.abs y / D_EXP ≤ INT_MAX → digits x → x ≠ [] → norm x →
  ∃ r, I_lshift x y sign = Some r ∧ digits r ∧ stripped r ∧ sval sign r = Z.shiftl (sval sign x) y.
Proof.
  intros Hmax Dx Nx Hn. pose proof D_EXP_ge. destruct (Z.lt_trichotomy y 0) as [Hy|[->|Hy]].
  - rewrite Z.abs_neq in Hmax by lia. destruct (right_count_exact y Hy Hmax) as [Hbw Hc]. destruct (I_lshift_right x y sign Hy Hbw Dx Nx Hn) as (r & Hr).
    rewrite Hc, Z.opp_involutive in Hr. by exists r.
  - exists x. split; [done|]. split; [done|]. split; [by right|done].
  - unfold I_lshift. destruct (Z.eqb_spec y 0) as [|_]; [lia|]. rewrite bool_decide_eq_false_2 by (intros ->; by apply Hn).
    replace (y <? 0) with false by lia. replace (y >? 0) with true by lia. rewrite Z.abs_eq in Hmax by lia.
    assert (0 ≤ y / D_EXP) by (apply Z.div_pos; lia). rewrite int32_small by lia. replace (y / D_EXP <? 0) with false by lia.
    assert (0 ≤ y mod D_EXP < D_EXP) as Hsw by (apply Z.mod_pos_bound; lia).
    destruct (shl_spec (Z.to_nat (y / D_EXP)) (y mod D_EXP) x Hsw Dx Nx Hn) as (D & N & Hn' & V).
    eexists. split; [reflexivity|]. split; [done|]. split; [by right|].
    rewrite Z2Nat.id, (Z.mul_comm (y / _)), <- Z.div_mod in V by lia. unfold sval. rewrite V, Z.shiftl_mul_pow2 by lia.
    destruct sign; lia.
Qed.

(** [I_bnot], called with the sign of the result. *)
Lemma I_bnot_spec x (xs : bool) : digits x → x ≠ [] → norm x →
  ∃ r, I_bnot x (negb xs) = Some r ∧ digits r ∧ stripped r ∧ sval (negb xs) r = Z.lnot (sval xs x).
Proof.
  intros D N Hn. pose proof D_BASE_ge. unfold I_bnot, Z.lnot. destruct xs; cbn [negb sval].
  - pose proof (sub_borrow_spec x 1 D ltac:(unfold is_digit; lia) ltac:(done)) as S.
    apply norm_val in Hn; [|done..]. pose proof (base_pow_pos x). pose proof (val_range x D). assert (1 ≤ val x) by nia.
    apply diff_of_nonneg in S; [|lia|destruct x; cbn; [done|lia]]. destruct S as (S1 & S2 & S3 & S4).
    exists (strip (sub_borrow x 1)). split; [by destruct x|]. split; [done|]. split; [done|]. lia.
  - destruct (round_spec x true D N Hn) as (D1 & S1 & V1). eexists. split; [reflexivity|]. split; [done|]. split; [done|]. lia.
Qed.

End Shift.
