(* ===== verification/BigDiv.v ===== *)
(** Division by a digit in [erts/emulator/beam/big.c]: the macros [D2PF], [DDIVREM], [DDIV] and [DREM] for machines
    without a double-width type and those for machines with one, [D_div] and [D_rem]; and their values. *)

From Stdlib Require Import ZArith ZifyBool.
From stdpp Require Import base list numbers option.
From S2P Require Import Prelude Big BigSpec BigBits BigBitsSpec.
Local Open Scope Z_scope.

Section Div.
Context {dw : DigitWidth}.

(** [if (__x <= limit) { __s += n; __x <<= n; }] for the shrinking steps [n]; the limits are [2^(D_EXP-n) - 1]. *)
Fixpoint d2pf_steps (ns : list Z) (x s : Z) : Z :=
  match ns with
  | [] => s
  | n :: ns' => if x <=? 2 ^ (D_EXP - n) - 1 then d2pf_steps ns' (dig (Z.shiftl x n)) (s + n) else d2pf_steps ns' x s
  end.

(** The number of leading zero bits, for the two digit sizes. *)
Definition D2PF (a : Z) : Z := d2pf_steps (if D_EXP =? 64 then [32; 16; 8; 4; 2; 1] else [16; 8; 4; 2; 1]) a 0.

(** [while (q >= 1<<H_EXP || q*vn0 > (rh<<H_EXP)+un) { q--; rh += vn1; if (rh >= 1<<H_EXP) break; }]: [q] at the end.
    [None] is lack of fuel. *)
Fixpoint ddiv_adjust (fuel : nat) (vn1 vn0 un q rh : Z) : option Z :=
  match fuel with
  | O => None
  | S fuel' =>
      if (q >=? dig (Z.shiftl 1 H_EXP)) || (dig (q * vn0) >? dig (dig (Z.shiftl rh H_EXP) + un)) then
        let q := dig (q - 1) in
        let rh := dig (rh + vn1) in
        if rh >=? dig (Z.shiftl 1 H_EXP) then Some q else ddiv_adjust fuel' vn1 vn0 un q rh
      else Some q
  end.

(** One half digit of the quotient: [q = un/vn1; rh = un - q*vn1; while ...]. *)
Definition ddiv_half (vn1 vn0 un32 un : Z) : option Z :=
  let q := un32 / vn1 in
  let rh := dig (un32 - dig (q * vn1)) in
  ddiv_adjust 3 vn1 vn0 un q rh.

(** The quotient and the remainder of [a1*B + a0] by [b].  When the top bit of [b] is set, [s] is 0 and the C code shifts [a0] right by the width of a
    digit, which is undefined there; here the value is 0, and any other one would be masked away. *)
Definition DDIVREM (a1 a0 b : Z) : option (Z * Z) :=
  let s := D2PF b in
  let b := dig (Z.shiftl b s) in
  let vn1 := half (Z.shiftr b H_EXP) in
  let vn0 := half (Z.land b LO_MASK) in
  let un32 := Z.lor (dig (Z.shiftl a1 s)) (Z.land (Z.shiftr a0 (D_EXP - s)) (dig (Z.shiftr (- s) (D_EXP - 1)))) in
  let un10 := dig (Z.shiftl a0 s) in
  let un1 := half (Z.shiftr un10 H_EXP) in
  let un0 := half (Z.land un10 LO_MASK) in
  q1 ← ddiv_half vn1 vn0 un32 un1;
  let un21 := dig (dig (dig (Z.shiftl un32 H_EXP) + un1) - dig (q1 * b)) in
  q0 ← ddiv_half vn1 vn0 un21 un0;
  let r := Z.shiftr (dig (dig (dig (Z.shiftl un21 H_EXP) + un0) - dig (q0 * b))) s in
  Some (dig (dig (Z.shiftl q1 H_EXP) + q0), r).

Definition DDIV (a1 a0 b : Z) : option Z := '(q, _) ← DDIVREM a1 a0 b; Some q.
Definition DREM (a1 a0 b : Z) : option Z := '(_, r) ← DDIVREM (a1 mod b) a0 b; Some r.

(** The same with [ErtsDoubleDigit]. *)
Definition DDIGIT (a1 a0 : Z) : Z := ddig (ddig (Z.shiftl a1 D_EXP) + a0).
Definition DDIV_double (a1 a0 b : Z) : Z := dig (DDIGIT a1 a0 / b).
Definition DREM_double (a1 a0 b : Z) : Z := dig (DDIGIT a1 a0 mod b).

(** The [do ... while (xp >= x)] loop of [D_div]: [xs] are the digits of [x] not yet read, highest first; [qs] the
    quotient digits stored, lowest first.  The result is the quotient and the last [a1]. *)
Fixpoint div_loop (fuel : nat) (d a1 : Z) (xs qs : list Z) : option (list Z * Z) :=
  match fuel with
  | O => None
  | S fuel' =>
      '(a1, a0, xs') ← (if d >? a1 then match xs with [] => None | a0 :: xs' => Some (a1, a0, xs') end
                        else Some (0, a1, xs));
      q0 ← DDIV a1 a0 d;
      let '(b1, b0) := DMUL d q0 in
      let '(a1, b) := DSUB a0 b0 in
      match xs' with [] => Some (q0 :: qs, a1) | _ => div_loop fuel' d a1 xs' (q0 :: qs) end
  end.

(** The quotient and the remainder digit. *)
Definition D_div (x : list Z) (d : Z) : option (list Z * Z) :=
  match reverse x with
  | [] => None
  | a1 :: xs =>
      if (d >? a1) && bool_decide (xs = []) then Some ([0], a1)
      else div_loop (S (length xs)) d a1 xs []
  end.

(** From the highest digit down; the two branches on [rem] make the same call. *)
Fixpoint rem_loop (d rem : Z) (xs : list Z) : option Z :=
  match xs with
  | [] => Some rem
  | x :: xs' => rem ← (if negb (rem =? 0) then DREM rem x d else DREM 0 x d); rem_loop d rem xs'
  end.

Definition D_rem (x : list Z) (d : Z) : option Z :=
  match x with [] => None | _ => rem_loop d 0 (reverse x) end.

(** ** Leading zeros *)
Fixpoint halving (w : Z) (ns : list Z) : Prop :=
  match ns with [] => w = 1 | n :: ns' => w = 2 * n ∧ 0 < n ∧ halving n ns' end.

Lemma d2pf_steps_spec ns : ∀ w x s, halving w ns → 0 < w ≤ D_EXP → 2 ^ (D_EXP - w) ≤ x < D_BASE →
  ∃ k, d2pf_steps ns x s = s + k ∧ 0 ≤ k < w ∧ 2 ^ (D_EXP - 1) ≤ x * 2 ^ k < D_BASE.
Proof.
  induction ns as [|n ns IH]; intros w x s Hh Hw Hx; cbn [d2pf_steps halving] in *.
  - subst w. exists 0. change (2 ^ 0) with 1. lia.
  - destruct Hh as (-> & Hn & Hh). assert (0 ≤ n ≤ D_EXP) as Hn' by lia.
    pose proof (D_BASE_split n Hn') as EB. assert (0 < 2 ^ n) by (apply Z.pow_pos_nonneg; lia).
    destruct (Z.leb_spec x (2 ^ (D_EXP - n) - 1)).
    + assert (0 < 2 ^ (D_EXP - 2 * n)) by (apply Z.pow_pos_nonneg; lia).
      assert (0 ≤ x * 2 ^ n < D_BASE) by (rewrite EB; split; [nia|apply Z.mul_lt_mono_pos_r; lia]).
      rewrite Z.shiftl_mul_pow2 by lia. rewrite dig_small by done.
      destruct (IH n (x * 2 ^ n) (s + n) Hh ltac:(lia)) as (k & -> & Hk & Hv).
      { split; [|lia]. replace (D_EXP - n) with (D_EXP - 2 * n + n) by lia. rewrite Z.pow_add_r by lia. nia. }
      exists (n + k). split; [lia|]. split; [lia|]. rewrite Z.pow_add_r by lia. lia.
    + destruct (IH n x s Hh ltac:(lia) ltac:(lia)) as (k & -> & Hk & Hv). exists k. split; [done|]. split; [lia|done].
Qed.

Lemma D2PF_spec a : is_digit a → 0 < a → 0 ≤ D2PF a < D_EXP ∧ 2 ^ (D_EXP - 1) ≤ a * 2 ^ D2PF a < D_BASE.
Proof.
  intros Ha Hp. unfold D2PF. assert (∃ ns, (if D_EXP =? 64 then [32; 16; 8; 4; 2; 1] else [16; 8; 4; 2; 1]) = ns ∧ halving D_EXP ns)
    as (ns & -> & Hh).
  { eexists. split; [reflexivity|]. unfold D_EXP. destruct H_EXP_cases as [E|E]; rewrite E; repeat split; reflexivity. }
  pose proof D_EXP_ge. destruct (d2pf_steps_spec ns D_EXP a 0 Hh) as (k & -> & Hk & Hv); [lia| |].
  - replace (D_EXP - D_EXP) with 0 by lia. unfold is_digit in Ha. change (2 ^ 0) with 1. lia.
  - rewrite Z.add_0_l. done.
Qed.

(** ** One half digit of the quotient *)
Lemma beta_dig : dig (Z.shiftl 1 H_EXP) = 2 ^ H_EXP.
Proof.
  pose proof H_base_ge. pose proof D_BASE_square. pose proof H_EXP_pos. rewrite Z.shiftl_1_l. apply dig_small. unfold is_digit. nia.
Qed.

Section Half.
Context (vn1 vn0 u un : Z).
Abbreviation β := (2 ^ H_EXP).
Hypotheses (Hv1 : β ≤ 2 * vn1) (Hv1' : vn1 < β) (Hv0 : 0 ≤ vn0 < β) (Hu : 0 ≤ u < vn1 * β + vn0) (Hun : 0 ≤ un < β).

Let qt : Z := (u * β + un) / (vn1 * β + vn0).

Lemma qt_spec q : q ≤ qt ↔ q * (vn1 * β + vn0) ≤ u * β + un.
Proof.
  pose proof H_base_ge. unfold qt. split; intros Hq.
  - transitivity (qt * (vn1 * β + vn0)); [unfold qt; apply Z.mul_le_mono_nonneg_r; [nia|done]|].
    unfold qt. rewrite Z.mul_comm. apply Z.mul_div_le. nia.
  - apply Z.div_le_lower_bound; [nia|]. lia.
Qed.

(** After [i] iterations; there are at most two, since [rh] grows by at least [β/2] each time. *)
Lemma ddiv_adjust_spec fuel : ∀ i q rh, Z.of_nat fuel = 3 - i → 0 ≤ i → i * vn1 ≤ rh < β → q + i ≤ β + 1 → u = q * vn1 + rh →
  qt ≤ q → ddiv_adjust fuel vn1 vn0 un q rh = Some qt.
Proof.
  pose proof H_base_ge. pose proof D_BASE_square. pose proof H_EXP_pos.
  induction fuel as [|fuel IH]; intros i q rh Hf Hi Hrh Hq Hdec Hge; [exfalso; nia|].
  assert (i ≤ 1) as Hi1 by nia. cbn [ddiv_adjust]. rewrite beta_dig.
  assert (0 ≤ qt) by (apply Z.div_pos; nia).
  assert (0 ≤ i * vn1) by (apply Z.mul_nonneg_nonneg; lia).
  assert (rh * β ≤ (β - 1) * β) by (apply Z.mul_le_mono_nonneg_r; lia).
  assert (0 ≤ rh * β) by (apply Z.mul_nonneg_nonneg; lia).
  rewrite (Z.shiftl_mul_pow2 rh) by lia. rewrite (dig_small (rh * β)) by (unfold is_digit; lia).
  rewrite (dig_small (rh * β + un)) by (unfold is_digit; lia).
  destruct ((q >=? β) || (dig (q * vn0) >? rh * β + un)) eqn:Ec.
  - assert (qt < q) as Hlt.
    { apply Z.lt_nge. intros Hle. apply qt_spec in Hle. destruct (Z.geb_spec q β) as [Hb|Hb].
      - assert (β * (vn1 * β + vn0) ≤ q * (vn1 * β + vn0)) by (apply Z.mul_le_mono_nonneg_r; nia). nia.
      - cbn [orb] in Ec. rewrite dig_small in Ec by (unfold is_digit; nia). nia. }
    rewrite (dig_small (q - 1)) by (unfold is_digit; nia). rewrite (dig_small (rh + vn1)) by (unfold is_digit; nia).
    destruct (Z.geb_spec (rh + vn1) β) as [Hb|Hb].
    + f_equal. apply Z.le_antisymm; [|lia]. apply qt_spec. assert ((q - 1) * vn0 ≤ β * β) by nia. nia.
    + apply (IH (i + 1)); lia.
  - f_equal. apply Z.le_antisymm; [|done]. apply qt_spec. apply orb_false_iff in Ec as [Ec1 Ec2].
    rewrite dig_small in Ec2 by (unfold is_digit; nia). nia.
Qed.

Lemma ddiv_half_spec : ddiv_half vn1 vn0 u un = Some qt ∧ 0 ≤ qt < β.
Proof.
  pose proof H_base_ge. pose proof D_BASE_square. unfold ddiv_half.
  pose proof (Z.div_mod u vn1 ltac:(lia)) as Ed. pose proof (Z.mod_pos_bound u vn1 ltac:(lia)) as Rm.
  assert (0 ≤ u / vn1) by (apply Z.div_pos; lia). set (q := u / vn1) in *.
  rewrite (dig_small (q * vn1)) by (unfold is_digit; nia). rewrite dig_small by (unfold is_digit; nia). split.
  - apply (ddiv_adjust_spec 3 0); [done|lia|lia| |lia|].
    + assert (q < β + 2); [|lia]. apply Z.div_lt_upper_bound; nia.
    + apply Z.div_le_lower_bound; [lia|]. assert (qt * vn1 < u + 1); [|lia].
      assert (qt * (vn1 * β + vn0) ≤ u * β + un) as Hqt by (by apply qt_spec).
      assert (0 ≤ qt) by (apply Z.div_pos; nia). nia.
  - split; [apply Z.div_pos; nia|]. apply Z.div_lt_upper_bound; nia.
Qed.

End Half.

(** ** Two digits by one *)
Lemma dig_add_l x y : dig (dig x + y) = dig (x + y).
Proof. unfold dig. apply Zplus_mod_idemp_l. Qed.
Lemma dig_sub_r x y : dig (x - dig y) = dig (x - y).
Proof. unfold dig. apply Zminus_mod_idemp_r. Qed.
Lemma dig_sub_l x y : dig (dig x - y) = dig (x - y).
Proof. unfold dig. apply Zminus_mod_idemp_l. Qed.

(** The dividend shifted by [s]: its two digits. *)
Lemma ddiv_numerator a1 a0 b s : is_digit a1 → is_digit a0 → a1 < b → 0 ≤ s < D_EXP → b * 2 ^ s < D_BASE →
  let un32 := Z.lor (dig (Z.shiftl a1 s)) (Z.land (Z.shiftr a0 (D_EXP - s)) (dig (Z.shiftr (- s) (D_EXP - 1)))) in
  let un10 := dig (Z.shiftl a0 s) in
  is_digit un10 ∧ 0 ≤ un32 < b * 2 ^ s ∧ un32 * D_BASE + un10 = (a1 * D_BASE + a0) * 2 ^ s.
Proof.
  intros H1 H0 Hb Hs HB. pose proof D_BASE_ge. pose proof D_EXP_ge. unfold is_digit in H1, H0.
  assert (0 < 2 ^ s) by (apply Z.pow_pos_nonneg; lia). assert (0 < 2 ^ (D_EXP - s)) by (apply Z.pow_pos_nonneg; lia).
  assert (0 ≤ s ≤ D_EXP) as Hs' by lia. pose proof (D_BASE_split s Hs') as EB.
  assert (a1 * 2 ^ s < D_BASE) by nia. rewrite (Z.shiftl_mul_pow2 a1), (dig_small (a1 * _)) by (lia || (unfold is_digit; nia)).
  rewrite <- (Z.shiftl_mul_pow2 a1) by lia. rewrite (Z.shiftr_div_pow2 a0) by lia. rewrite dig_shiftl_bits by lia.
  assert (2 ^ (D_EXP - s) ≠ 0) as Hnz by lia. pose proof (Z.div_mod a0 _ Hnz) as Ed.
  assert (0 ≤ a0 mod 2 ^ (D_EXP - s) < 2 ^ (D_EXP - s)) by (apply Z.mod_pos_bound; lia).
  assert (0 ≤ a0 / 2 ^ (D_EXP - s) < 2 ^ s) by (split; [apply Z.div_pos; lia|apply Z.div_lt_upper_bound; lia]).
  assert (Z.land (a0 / 2 ^ (D_EXP - s)) (dig (Z.shiftr (- s) (D_EXP - 1))) = a0 / 2 ^ (D_EXP - s)) as ->.
  { destruct (decide (s = 0)) as [->|].
    - rewrite Z.shiftr_0_l, Z.land_0_r. change (2 ^ 0) with 1 in *. lia.
    - replace (Z.shiftr (- s) (D_EXP - 1)) with (-1).
      + replace (dig (-1)) with (Z.ones D_EXP).
        * rewrite Z.land_ones by lia. apply Z.mod_small. fold D_BASE. nia.
        * rewrite Z.ones_equiv. unfold dig, D_BASE. apply (Z.mod_unique_pos _ _ (-1)); fold D_BASE; lia.
      + rewrite Z.shiftr_div_pow2 by lia. apply (Z.div_unique_pos _ _ _ (2 ^ (D_EXP - 1) - s)); [|lia].
        assert (D_EXP - 1 < 2 ^ (D_EXP - 1)) by (apply Z.pow_gt_lin_r; lia). lia. }
  cbv zeta. rewrite lor_shiftl_add by lia. rewrite Z.shiftl_mul_pow2 by lia.
  split; [unfold is_digit; nia|]. split; [|nia]. split; [nia|]. assert ((a1 + 1) * 2 ^ s ≤ b * 2 ^ s) by nia. lia.
Qed.

(** A half digit of the quotient and what is left. *)
Lemma ddiv_step v u un : 2 ^ (D_EXP - 1) ≤ v < D_BASE → 0 ≤ u < v → 0 ≤ un < 2 ^ H_EXP →
  ∃ q, ddiv_half (half (Z.shiftr v H_EXP)) (half (Z.land v LO_MASK)) u un = Some q ∧ 0 ≤ q < 2 ^ H_EXP ∧
    let u' := dig (dig (dig (Z.shiftl u H_EXP) + un) - dig (q * v)) in 0 ≤ u' < v ∧ u * 2 ^ H_EXP + un = q * v + u'.
Proof.
  intros Hv Hu Hun. pose proof H_base_ge. pose proof D_BASE_square as HB. pose proof H_EXP_pos.
  set (β := 2 ^ H_EXP) in *.
  assert (2 * 2 ^ (D_EXP - 1) = D_BASE) as E2.
  { unfold D_BASE. replace D_EXP with (D_EXP - 1 + 1) at 2 by lia. rewrite Z.pow_add_r by (unfold D_EXP; lia). lia. }
  assert (half (Z.land v LO_MASK) = v mod β) as ->.
  { rewrite land_LO_MASK. fold β. apply Z.mod_small. apply Z.mod_pos_bound. lia. }
  assert (0 < 2 ^ (D_EXP - 1)) by (apply Z.pow_pos_nonneg; unfold D_EXP; lia).
  assert (is_digit v) as Dv by (unfold is_digit; lia). pose proof (half_split v Dv) as Es. fold β in Es. unfold half in Es at 1. fold β in Es.
  pose proof (half_range (Z.shiftr v H_EXP)) as R1. fold β in R1. pose proof (Z.mod_pos_bound v β ltac:(lia)) as R0.
  set (vn1 := half (Z.shiftr v H_EXP)) in *. set (vn0 := v mod β) in *.
  assert (β = 2 * 2 ^ (H_EXP - 1)) as Eβ by (rewrite <- Z.pow_succ_r by lia; unfold β; f_equal; lia).
  assert (β ≤ 2 * vn1).
  { assert (β * 2 ^ (H_EXP - 1) < β * (vn1 + 1)) as Hlt by nia. apply Z.mul_lt_mono_pos_l in Hlt; lia. }
  destruct (ddiv_half_spec vn1 vn0 u un) as [E R]; [done|lia|done|fold β; lia|done|]. fold β in E, R.
  replace (vn1 * β + vn0) with v in E, R by lia. eexists. split; [exact E|]. split; [done|].
  rewrite Z.shiftl_mul_pow2 by lia. fold β. rewrite dig_sub_r, dig_add_l, dig_sub_l.
  set (N := u * β + un) in *. pose proof (Z.div_mod N v ltac:(lia)) as Ed. pose proof (Z.mod_pos_bound N v ltac:(lia)) as Rm.
  replace (N - N / v * v) with (N mod v) by lia. cbv zeta. rewrite dig_small by (unfold is_digit; lia). lia.
Qed.

Lemma DDIVREM_spec a1 a0 b : is_digit a1 → is_digit a0 → is_digit b → a1 < b →
  DDIVREM a1 a0 b = Some ((a1 * D_BASE + a0) / b, (a1 * D_BASE + a0) mod b).
Proof.
  intros H1 H0 Hb Hlt. unfold is_digit in H1. pose proof H_base_ge. pose proof D_BASE_square as HB. pose proof H_EXP_pos.
  destruct (D2PF_spec b Hb ltac:(lia)) as [Hs Hbs]. unfold DDIVREM. cbv zeta. set (s := D2PF b) in *.
  assert (0 < 2 ^ s) by (apply Z.pow_pos_nonneg; lia).
  rewrite (Z.shiftl_mul_pow2 b), (dig_small (b * _)) by (lia || (unfold is_digit; lia)). set (v := b * 2 ^ s) in *.
  assert (v < D_BASE) as Hv by lia. destruct (ddiv_numerator a1 a0 b s H1 H0 Hlt Hs Hv) as (D10 & R32 & EN). fold v in R32.
  set (un32 := Z.lor _ _) in *. set (un10 := dig (Z.shiftl a0 s)) in *. clearbody un32 un10.
  pose proof (half_split un10 D10) as E10.
  replace (half (Z.land un10 LO_MASK)) with (half un10).
  2: { rewrite land_LO_MASK. unfold half. by rewrite Z.mod_mod by lia. }
  pose proof (half_range (Z.shiftr un10 H_EXP)) as R1. pose proof (half_range un10) as R0.
  set (un1 := half (Z.shiftr un10 H_EXP)) in *. set (un0 := half un10) in *. clearbody un1 un0.
  destruct (ddiv_step v un32 un1 Hbs R32 R1) as (q1 & -> & Rq1 & R21 & E1). cbn [mbind option_bind].
  set (un21 := dig (_ - _)) in *. clearbody un21.
  destruct (ddiv_step v un21 un0 Hbs R21 R0) as (q0 & -> & Rq0 & Rr & E0). cbn [mbind option_bind].
  set (rr := dig (dig (dig (Z.shiftl un21 _) + _) - _)) in *. clearbody rr.
  set (β := 2 ^ H_EXP) in *. assert (0 ≤ q1 * β) by (apply Z.mul_nonneg_nonneg; lia).
  assert (q1 * β ≤ (β - 1) * β) by (apply Z.mul_le_mono_nonneg_r; lia).
  rewrite (Z.shiftl_mul_pow2 q1) by lia. fold β. rewrite (dig_small (q1 * β)), dig_small by (unfold is_digit; lia).
  rewrite Z.shiftr_div_pow2 by lia. set (A := a1 * D_BASE + a0) in *. set (q := q1 * β + q0) in *.
  assert (A * 2 ^ s = q * v + rr) as EA.
  { rewrite <- EN, E10, HB. unfold q. nia. }
  assert (rr = (A - q * b) * 2 ^ s) as Er by (unfold v in EA; nia).
  assert (0 ≤ A - q * b < b) by (unfold v in Rr; nia).
  rewrite Er, Z.div_mul by lia. do 2 f_equal; [apply (Z.div_unique_pos _ _ _ (A - q * b))|apply (Z.mod_unique_pos _ _ q)]; lia.
Qed.

Lemma DDIV_spec a1 a0 b : is_digit a1 → is_digit a0 → is_digit b → a1 < b →
  DDIV a1 a0 b = Some ((a1 * D_BASE + a0) / b).
Proof. intros. unfold DDIV. by rewrite DDIVREM_spec. Qed.

Lemma DREM_spec a1 a0 b : is_digit a1 → is_digit a0 → is_digit b → 0 < b →
  DREM a1 a0 b = Some ((a1 * D_BASE + a0) mod b).
Proof.
  intros H1 H0 Hb Hp. unfold DREM. pose proof (Z.mod_pos_bound a1 b Hp). unfold is_digit in Hb.
  rewrite DDIVREM_spec by (done || (unfold is_digit in *; lia)). cbn [mbind option_bind]. f_equal.
  rewrite <- Zplus_mod_idemp_l, <- (Zplus_mod_idemp_l (a1 * _)). do 2 f_equal. by rewrite Zmult_mod_idemp_l.
Qed.

(** The quotient digit of one iteration and the remainder it leaves in [a1]. *)
Lemma div_step d a1 a0 : is_digit a1 → is_digit a0 → is_digit d → a1 < d →
  ∃ q0 r b1 b0 b, DDIV a1 a0 d = Some q0 ∧ DMUL d q0 = (b1, b0) ∧ DSUB a0 b0 = (r, b) ∧ is_digit q0 ∧ 0 ≤ r < d ∧
    a1 * D_BASE + a0 = q0 * d + r.
Proof.
  intros H1 H0 Hd Hlt. pose proof D_BASE_ge. unfold is_digit in *. rewrite DDIV_spec by done.
  set (N := a1 * D_BASE + a0). pose proof (Z.div_mod N d ltac:(lia)) as Ed. pose proof (Z.mod_pos_bound N d ltac:(lia)) as Rm.
  assert (0 ≤ N / d < D_BASE) as Rq by (split; [apply Z.div_pos; nia|apply Z.div_lt_upper_bound; nia]).
  destruct (DMULc_spec d (N / d) 0) as (b1 & b0 & E & Hb1 & Hb0 & Eb); [done|done|unfold is_digit; lia|].
  exists (N / d), (N mod d), b1, b0, (b2d (dig (a0 - b0) >? a0)). split; [done|]. split; [exact E|].
  split; [|split; [done|split; [done|lia]]]. unfold DSUB.
  assert (dig (a0 - b0) = N mod d) as ->; [|done].
  unfold dig. symmetry. apply (Z.mod_unique_pos _ _ (b1 - a1)); [lia|]. unfold N in *. lia.
Qed.

Lemma div_loop_spec d xs : ∀ fuel a1 qs, is_digit d → digits xs → xs ≠ [] → 0 ≤ a1 < d → (length xs ≤ fuel)%nat →
  ∃ ns r, div_loop fuel d a1 xs qs = Some (ns ++ qs, r) ∧ digits ns ∧ length ns = length xs ∧ 0 ≤ r < d ∧
    a1 * base_pow xs + val (reverse xs) = val ns * d + r ∧ (0 < a1 → list.last ns ≠ Some 0).
Proof.
  pose proof D_BASE_ge. induction xs as [|a0 xs IH]; intros fuel a1 qs Hd Hx Hne Ha Hf; [done|].
  destruct fuel as [|fuel]; [cbn in Hf; lia|]. apply Forall_cons_iff in Hx as [H0 Hx]. cbn [div_loop].
  replace (d >? a1) with true by lia. cbn [mbind option_bind]. unfold is_digit in Hd.
  destruct (div_step d a1 a0) as (q0 & r & b1 & b0 & b & -> & E1 & E2 & Hq & Hr & Eq); [unfold is_digit; lia|done|done|lia|].
  cbn [mbind option_bind]. rewrite E1, E2. rewrite reverse_cons, val_app, base_pow_cons. cbn [val].
  rewrite (base_pow_length (reverse xs) xs) by apply length_reverse.
  assert (0 < a1 → q0 ≠ 0) as Hq0 by (unfold is_digit in H0; intros ? ->; nia).
  destruct xs as [|a0' xs].
  - exists [q0], r. split; [done|]. split; [by constructor; [|constructor]|]. split; [done|]. split; [done|].
    change (base_pow []) with 1. cbn [val reverse rev_append]. split; [|intros Ha' [= ->]; by apply Hq0].
    change (reverse []) with (@nil Z). cbn [val]. lia.
  - destruct (IH fuel r (q0 :: qs) Hd Hx ltac:(done) Hr ltac:(cbn in *; lia)) as (ns & r' & -> & D & L & Hr' & V & _).
    exists (ns ++ [q0]), r'. split; [by rewrite <- app_assoc|]. split; [apply Forall_app; split; [done|by constructor; [|constructor]]|].
    split; [rewrite length_app; cbn in *; lia|]. split; [done|]. rewrite val_app, (base_pow_length ns _ L). cbn [val].
    split; [nia|]. rewrite last_snoc. intros Ha' [= ->]. by apply Hq0.
Qed.

Lemma D_div_spec x d : digits x → x ≠ [] → norm x → is_digit d → 0 < d →
  ∃ q r, D_div x d = Some (q, r) ∧ digits q ∧ stripped q ∧ val q = val x / d ∧ r = val x mod d.
Proof.
  intros Hx Hne Hn Hd Hp. pose proof D_BASE_ge. unfold is_digit in Hd.
  assert (∀ q r, 0 ≤ r < d → val x = q * d + r → q = val x / d ∧ r = val x mod d) as Fin.
  { intros q r Hr E. split; [apply (Z.div_unique_pos _ _ _ r)|apply (Z.mod_unique_pos _ _ q)]; lia. }
  unfold D_div. destruct x as [|a1 xs _] using rev_ind; [done|]. rewrite reverse_snoc. apply Forall_app in Hx as [Hxs Ha].
  apply Forall_cons_iff in Ha as [Ha _]. unfold norm in Hn. rewrite last_snoc in Hn.
  rewrite val_app in Fin |- *. cbn [val] in Fin |- *. unfold is_digit in Ha.
  assert (a1 ≠ 0) by congruence.
  assert (digits (reverse xs)) as Dr by (unfold digits in *; by apply Forall_reverse).
  assert (base_pow (reverse xs) = base_pow xs) as Ep by (apply base_pow_length, length_reverse).
  destruct (decide (reverse xs = [])) as [Er|Er].
  - assert (xs = []) as -> by (destruct xs using rev_ind; [done|rewrite reverse_snoc in Er; done]).
    change (base_pow []) with 1 in *. cbn [val] in *. rewrite Er, bool_decide_eq_true_2, andb_true_r by done.
    destruct (Z.gtb_spec d a1).
    + exists [0], a1. split; [done|]. split; [repeat constructor; lia|]. split; [by left|].
      destruct (Fin 0 a1); [lia..|]. cbn [val]. split; [lia|done].
    + cbn [length div_loop]. replace (d >? a1) with false by lia. cbn [mbind option_bind].
      destruct (div_step d 0 a1) as (q0 & r & b1 & b0 & b & -> & E1 & E2 & Hq & Hr & Eq); [unfold is_digit; lia..|].
      cbn [mbind option_bind]. rewrite E1, E2. exists [q0], r. split; [done|]. split; [by constructor; [|constructor]|].
      split; [right; split; [done|]; intros [= ->]; lia|]. destruct (Fin q0 r); [lia..|]. cbn [val]. split; [lia|done].
  - rewrite bool_decide_eq_false_2, andb_false_r by done.
    destruct (Z.ltb_spec a1 d).
    + destruct (div_loop_spec d (reverse xs) (S (length (reverse xs))) a1 []) as (ns & r & -> & D & L & Hr & V & T); [done || lia..|].
      rewrite app_nil_r. rewrite Ep, reverse_involutive in V. exists ns, r. split; [done|]. split; [done|].
      split; [right; split; [intros ->; by destruct (reverse xs)|apply T; lia]|]. apply Fin; [done|lia].
    + cbn [div_loop]. replace (d >? a1) with false by lia. cbn [mbind option_bind].
      destruct (div_step d 0 a1) as (q0 & r1 & b1 & b0 & b & -> & E1 & E2 & Hq & Hr1 & Eq); [unfold is_digit; lia..|].
      cbn [mbind option_bind]. rewrite E1, E2.
      destruct (div_loop_spec d (reverse xs) (length (reverse xs)) r1 [q0]) as (ns & r & E & D & L & Hr & V & T); [done || lia..|].
      rewrite Ep, reverse_involutive in V. destruct (reverse xs) as [|a0 xs'] eqn:Exs; [done|]. rewrite E.
      exists (ns ++ [q0]), r. split; [done|]. split; [apply Forall_app; split; [done|by constructor; [|constructor]]|].
      assert (q0 ≠ 0) by (intros ->; lia).
      split; [right; split; [by destruct ns|unfold norm; rewrite last_snoc; congruence]|].
      rewrite val_app. cbn [val]. rewrite (base_pow_length ns _ L), Ep. apply Fin; [done|nia].
Qed.

Lemma rem_loop_spec d xs : ∀ rem, digits xs → is_digit d → 0 < d → 0 ≤ rem < d →
  rem_loop d rem xs = Some ((rem * base_pow xs + val (reverse xs)) mod d).
Proof.
  pose proof D_BASE_ge. induction xs as [|a xs IH]; intros rem Hx Hd Hp Hr; cbn [rem_loop]; unfold is_digit in Hd.
  - change (base_pow []) with 1. change (reverse []) with (@nil Z). cbn [val]. f_equal. rewrite Z.mod_small; lia.
  - apply Forall_cons_iff in Hx as [Ha Hx].
    assert ((if negb (rem =? 0) then DREM rem a d else DREM 0 a d) = Some ((rem * D_BASE + a) mod d)) as ->.
    { destruct (Z.eqb_spec rem 0) as [->|]; cbn [negb]; apply DREM_spec; done || (unfold is_digit; lia). }
    cbn [mbind option_bind]. rewrite IH by (done || (apply Z.mod_pos_bound; lia)). f_equal.
    rewrite reverse_cons, val_app, base_pow_cons, (base_pow_length (reverse xs) xs) by apply length_reverse. cbn [val].
    rewrite <- Zplus_mod_idemp_l, Zmult_mod_idemp_l, Zplus_mod_idemp_l. f_equal. ring.
Qed.

Lemma D_rem_spec x d : digits x → x ≠ [] → is_digit d → 0 < d → D_rem x d = Some (val x mod d).
Proof.
  intros Hx Hne Hd Hp. unfold D_rem. destruct x as [|a x]; [done|]. rewrite rem_loop_spec; [|by apply Forall_reverse|done|done|lia].
  rewrite reverse_involutive. do 2 f_equal.
Qed.

(** The macros for a double-width type compute the same. *)
Lemma DDIV_double_spec a1 a0 b : is_digit a1 → is_digit a0 → is_digit b → a1 < b →
  Some (DDIV_double a1 a0 b) = DDIV a1 a0 b ∧ Some (DREM_double a1 a0 b) = DREM a1 a0 b.
Proof.
  intros H1 H0 Hb Hlt. pose proof D_EXP_ge. unfold is_digit in *. rewrite DDIV_spec, DREM_spec by (done || lia).
  unfold DDIV_double, DREM_double, DDIGIT, ddig. rewrite Z.shiftl_mul_pow2 by lia. fold D_BASE.
  rewrite (Z.mod_small (a1 * D_BASE)) by nia. rewrite (Z.mod_small (_ + a0)) by nia.
  split; f_equal; apply dig_small; unfold is_digit.
  - split; [apply Z.div_pos; nia|apply Z.div_lt_upper_bound; nia].
  - pose proof (Z.mod_pos_bound (a1 * D_BASE + a0) b ltac:(lia)). lia.
Qed.

End Div.
