(* ===== verification/BigTerm.v ===== *)
(** Integer terms: the functions of [erts/emulator/beam/big.c] on tagged terms, on top of the digit vectors.

    An integer term is a small (an immediate) or a pointer to a bignum (a header with sign and size, and digits); [NIL]
    is how the functions report a result that is too big.  The functions are called with bignums; other arguments
    are undefined ([None]), as [big_val] is. *)

From Stdlib Require Import ZArith ZifyBool.
From stdpp Require Import base list numbers option.
From S2P Require Import Prelude Big BigSpec BigBits BigBitsSpec BigDiv.
Local Open Scope Z_scope.

Section Terms.
Context {dw : DigitWidth}.

(** 60 and 28 for the two word sizes. *)
Definition SMALL_BITS : Z := D_EXP - 4.
Definition MAX_SMALL : Z := 2 ^ (SMALL_BITS - 1) - 1.
Definition MIN_SMALL : Z := - 2 ^ (SMALL_BITS - 1).
Definition BIG_ARITY_MAX : Z := Z.shiftl 1 19 - 1.
Definition BIG_NEED_SIZE (n : Z) : Z := n + 1.

Inductive int_term : Type :=
| Small (z : Z)
| Bignum (sign : bool) (ds : list Z)
| NIL.

(** Conversion to [Sint]. *)
Definition Sint (z : Z) : Z := wrap_s D_EXP z.

Definition IS_USMALL (sgn : bool) (x : Z) : bool := if sgn then x <=? MAX_SMALL + 1 else x <=? MAX_SMALL.

Definition big_norm (x : list Z) (sign : bool) : int_term :=
  match x with
  | [y] =>
      if (D_EXP <? SMALL_BITS) || IS_USMALL sign y then Small (if sign then - Sint y else Sint y)
      else if BIG_NEED_SIZE 1 - 1 >? BIG_ARITY_MAX then NIL else Bignum sign [y]
  | _ => if BIG_NEED_SIZE (zlen x) - 1 >? BIG_ARITY_MAX then NIL else Bignum sign x
  end.

Definition uint_to_big (x : Z) : int_term := Bignum false [x].

Definition erts_make_integer (x : Z) : int_term := if IS_USMALL false x then Small x else uint_to_big x.

Definition small_to_big (x : Z) : int_term := if x >=? 0 then Bignum false [dig x] else Bignum true [dig (Sint (- x))].

Definition big_comp (x y : int_term) : option Z :=
  match x, y with
  | Bignum xs xd, Bignum ys yd =>
      if eqb xs ys then c ← I_comp xd yd; Some (if xs then - c else c)
      else Some (if xs then -1 else 1)
  | _, _ => None
  end.

Definition big_ucomp (x y : int_term) : option Z :=
  match x, y with Bignum _ xd, Bignum _ yd => I_comp xd yd | _, _ => None end.

Definition B_plus_minus (x : list Z) (xsgn : bool) (y : list Z) (ysgn : bool) : option int_term :=
  if eqb xsgn ysgn then
    if (length y <? length x)%nat then r ← I_add x y; Some (big_norm r xsgn)
    else r ← I_add y x; Some (big_norm r xsgn)
  else
    comp ← I_comp x y;
    if comp =? 0 then Some (Small 0)
    else if comp >? 0 then r ← I_sub x y; Some (big_norm r xsgn)
    else r ← I_sub y x; Some (big_norm r ysgn).

Definition big_plus (x y : int_term) : option int_term :=
  match x, y with Bignum xs xd, Bignum ys yd => B_plus_minus xd xs yd ys | _, _ => None end.

Definition big_minus (x y : int_term) : option int_term :=
  match x, y with Bignum xs xd, Bignum ys yd => B_plus_minus xd xs yd (negb ys) | _, _ => None end.

(** [y] is an unsigned number. *)
Definition big_plus_small (x : int_term) (y : Z) : option int_term :=
  match x with
  | Bignum true xd => r ← D_sub xd y; Some (big_norm r true)
  | Bignum false xd => Some (big_norm (D_add xd y) false)
  | _ => None
  end.

Definition big_minus_small (x : int_term) (y : Z) : option int_term :=
  match x with
  | Bignum true xd => Some (big_norm (D_add xd y) true)
  | Bignum false xd => r ← D_sub xd y; Some (big_norm r false)
  | _ => None
  end.

Definition small_times (x y : Z) : int_term :=
  let sign := negb (eqb (x <? 0) (y <? 0)) in
  let xu := dig (if x >? 0 then x else Sint (- x)) in
  let yu := dig (if y >? 0 then y else Sint (- y)) in
  let '(d1, d0) := DMULc xu yu 0 in
  if (d1 =? 0) && ((D_EXP <? SMALL_BITS) || IS_USMALL sign d0) then Small (if sign then - Sint d0 else Sint d0)
  else Bignum sign (if negb (d1 =? 0) then [d0; d1] else [d0]).

(** [same]: the two terms are the same pointer. *)
Definition big_times (same : bool) (x y : int_term) : option int_term :=
  match x, y with
  | Bignum xs xd, Bignum ys yd =>
      let sign := negb (eqb xs ys) in
      match xd, yd with
      | _, [yd0] => Some (big_norm (D_mul xd yd0) sign)
      | [xd0], _ => Some (big_norm (D_mul yd xd0) sign)
      | _, _ =>
          r ← (if same then I_sqr xd (replicate (length xd + 1) 0)
               else if (length yd <=? length xd)%nat then I_mul xd yd (replicate (length xd) 0)
               else I_mul yd xd (replicate (length yd) 0));
          Some (big_norm r sign)
      end
  | _, _ => None
  end.

Definition big_times_small (x : int_term) (y : Z) : option int_term :=
  match x with Bignum xs xd => Some (big_norm (D_mul xd y) xs) | _ => None end.

Definition big_neg (x : int_term) : option int_term :=
  match x with Bignum xs xd => Some (big_norm xd (negb xs)) | _ => None end.

(** The common shape of [big_band], [big_bor] and [big_bxor]: the longer operand first. *)
Definition big_bits (op : list Z → bool → list Z → bool → option (list Z)) (sign : bool) (xs : bool) (xd : list Z)
    (ys : bool) (yd : list Z) : option int_term :=
  r ← (if (length yd <=? length xd)%nat then op xd xs yd ys else op yd ys xd xs); Some (big_norm r sign).

Definition big_band (x y : int_term) : option int_term :=
  match x, y with Bignum xs xd, Bignum ys yd => big_bits I_band (xs && ys) xs xd ys yd | _, _ => None end.
Definition big_bor (x y : int_term) : option int_term :=
  match x, y with Bignum xs xd, Bignum ys yd => big_bits I_bor (xs || ys) xs xd ys yd | _, _ => None end.
Definition big_bxor (x y : int_term) : option int_term :=
  match x, y with Bignum xs xd, Bignum ys yd => big_bits I_bxor (xorb xs ys) xs xd ys yd | _, _ => None end.

Definition big_bnot (x : int_term) : option int_term :=
  match x with
  | Bignum xs xd => let sign := negb xs in r ← I_bnot xd sign; Some (big_norm r sign)
  | _ => None
  end.

Definition big_lshift (x : int_term) (y : Z) : option int_term :=
  match x with Bignum xs xd => r ← I_lshift xd y xs; Some (big_norm r xs) | _ => None end.

(** ** Conversions *)

(** [sizeof(ErtsDigit)]. *)
Definition D_SIZE : nat := Z.to_nat (D_EXP / 8).

Fixpoint count_bytes (fuel : nat) (d : Z) : option Z :=
  match fuel with
  | O => if d =? 0 then Some 0 else None
  | S fuel' => if d =? 0 then Some 0 else n ← count_bytes fuel' (Z.shiftr d 8); Some (n + 1)
  end.

Definition big_bytes (x : int_term) : option Z :=
  match x with
  | Bignum _ xd => d ← list.last xd; n ← count_bytes D_SIZE d; Some ((zlen xd - 1) * Z.of_nat D_SIZE + n)
  | _ => None
  end.

(** [for(i = 0; i < sizeof(ErtsDigit); ++i) { p[i] = d & 0xff; d >>= 8; }] *)
Fixpoint digit_to_bytes (n : nat) (d : Z) : list Z :=
  match n with O => [] | S n' => Z.land d 255 :: digit_to_bytes n' (Z.shiftr d 8) end.

(** [do { *p++ = d & 0xff; d >>= 8; } while (d != 0)] *)
Fixpoint last_to_bytes (fuel : nat) (d : Z) : option (list Z) :=
  match fuel with
  | O => None
  | S fuel' =>
      let d' := Z.shiftr d 8 in
      if d' =? 0 then Some [Z.land d 255] else bs ← last_to_bytes fuel' d'; Some (Z.land d 255 :: bs)
  end.

Fixpoint digits_to_bytes (ds : list Z) : option (list Z) :=
  match ds with
  | [] => None
  | [d] => last_to_bytes D_SIZE d
  | d :: ds' => bs ← digits_to_bytes ds'; Some (digit_to_bytes D_SIZE d ++ bs)
  end.

Definition big_to_bytes (x : int_term) : option (list Z) :=
  match x with Bignum _ xd => digits_to_bytes xd | _ => None end.

(** [for(i = n; --i >= 0;) d = (d << 8) | xp[i]] on the [n] bytes [bs]. *)
Definition digit_of_bytes (bs : list Z) : Z := foldr (λ b d, Z.lor (dig (Z.shiftl d 8)) b) 0 bs.

Fixpoint digits_of_bytes (fuel : nat) (bs : list Z) : option (list Z) :=
  match fuel with
  | O => None
  | S fuel' =>
      if (D_SIZE <=? length bs)%nat then
        ds ← digits_of_bytes fuel' (drop D_SIZE bs); Some (digit_of_bytes (take D_SIZE bs) :: ds)
      else Some (match bs with [] => [] | _ => [digit_of_bytes bs] end)
  end.

Definition bytes_to_big (xp : list Z) (xsgn : bool) : option int_term :=
  ds ← digits_of_bytes (S (length xp)) xp; Some (big_norm ds xsgn).

Inductive conv := Value (z : Z) | BADARG | SYSTEM_LIMIT.

(** The digits put together at the positions [n], [n + D_EXP], ... of a [Uint]. *)
Fixpoint join_digits (ds : list Z) (n uval : Z) : Z :=
  match ds with [] => uval | d :: ds' => join_digits ds' (n + D_EXP) (Z.lor uval (dig (Z.shiftl d n))) end.

Definition term_to_Uint (t : int_term) : conv :=
  match t with
  | Small i => if i <? 0 then BADARG else Value (dig i)
  | Bignum sgn xd =>
      if sgn then BADARG
      else if zlen xd * D_EXP >? D_EXP then SYSTEM_LIMIT
      else Value (join_digits xd 0 0)
  | NIL => BADARG
  end.

Definition term_to_Sint (t : int_term) : option Z :=
  match t with
  | Small i => Some i
  | Bignum sgn xd =>
      if zlen xd * D_EXP >? D_EXP then None
      else
        let uval := join_digits xd 0 0 in
        if sgn then let uval := dig (- uval) in if Sint uval >? 0 then None else Some (Sint uval)
        else if Sint uval <? 0 then None else Some (Sint uval)
  | NIL => None
  end.

(** Expects the big to fit. *)
Definition big_to_uint32 (b : int_term) : Z :=
  match term_to_Uint b with Value u => wrap_u 32 u | _ => 0 end.

(** The compilation for [sizeof(Uint) > 4], or for 32-bit digits. *)
Definition term_equals_2pow32 (x : int_term) : bool :=
  if D_EXP / 8 >? 4 then
    match term_to_Uint x with
    | Value u => (Z.land u 4294967295 =? 0) && (Z.shiftr (Z.shiftr u 16) 16 =? 1)
    | _ => false
    end
  else match x with Bignum _ [d0; d1] => (d0 =? 0) && (d1 =? 1) | _ => false end.

(** ** Decimal output *)
Definition D_DECIMAL_EXP : nat := 9.
Definition D_DECIMAL_BASE : Z := 1000000000.

(** [while(rem) { write((rem % 10) + '0'); rem /= 10; }]: the characters in the order of the calls. *)
Fixpoint write_digits (fuel : nat) (rem : Z) : option (list Z) :=
  if rem =? 0 then Some []
  else match fuel with
       | O => None
       | S fuel' => cs ← write_digits fuel' (rem / 10); Some (rem mod 10 + 48 :: cs)
       end.

(** [while(i--) { write((rem % 10) + '0'); rem /= 10; }] *)
Fixpoint write_padded (i : nat) (rem : Z) : list Z :=
  match i with O => [] | S i' => rem mod 10 + 48 :: write_padded i' (rem / 10) end.

(** The [while(1)] loop. *)
Fixpoint write_loop (fuel : nat) (tmp : list Z) : option (list Z) :=
  match fuel with
  | O => None
  | S fuel' =>
      '(tmp, rem) ← D_div tmp D_DECIMAL_BASE;
      if bool_decide (tmp = [0]) then write_digits D_DECIMAL_EXP rem
      else cs ← write_loop fuel' tmp; Some (write_padded D_DECIMAL_EXP rem ++ cs)
  end.

Definition write_big (x : int_term) : option (list Z) :=
  match x with
  | Bignum sign dx =>
      cs ← (match dx with
            | [d] => if d <? D_DECIMAL_BASE
                     then if d =? 0 then Some [48] else write_digits D_DECIMAL_EXP d
                     else write_loop (Z.to_nat (zlen dx * D_EXP)) dx
            | _ => write_loop (Z.to_nat (zlen dx * D_EXP)) dx
            end);
      Some (cs ++ (if sign then [45] else []))
  | _ => None
  end.

(** [write_list] conses the characters: the first one written is the last one read. *)
Definition erts_big_to_list (x : int_term) : option (list Z) := reverse <$> write_big x.

(** [write_string]: the characters are stored downwards from the offset [p] of the buffer. *)
Fixpoint write_string (cs : list Z) (buf : list Z) (p : Z) : option (list Z * Z) :=
  match cs with [] => Some (buf, p) | c :: cs' => buf ← store buf (p - 1) c; write_string cs' buf (p - 1) end.

(** The buffer and the offset of the string in it. *)
Definition erts_big_to_string (x : int_term) (buf : list Z) : option (list Z * Z) :=
  let big_str := zlen buf - 1 in
  buf ← store buf big_str 0;
  cs ← write_big x;
  write_string cs buf big_str.

Fixpoint lg_loop (fuel : nat) (d : Z) : option Z :=
  match fuel with
  | O => if d =? 0 then Some 0 else None
  | S fuel' => if d =? 0 then Some 0 else n ← lg_loop fuel' (Z.shiftr d 1); Some (n + 1)
  end.

Definition I_lg (x : list Z) : option Z :=
  d ← list.last x; n ← lg_loop (Z.to_nat D_EXP) d; Some (int32 ((zlen x - 1) * D_EXP + n - 1)).

Definition big_decimal_estimate (x : int_term) : option Z :=
  match x with
  | Bignum sign xd =>
      lg ← I_lg xd;
      let lg10 := int32 (int32 (int32 (lg + 1) * 28) `quot` 93 + 1) in
      let lg10 := if sign then lg10 + 1 else lg10 in
      Some (lg10 + 1)
  | _ => None
  end.

End Terms.
