(* ===== verification/BigTermSpec.v ===== *)
(** Values of the integer terms of [BigTerm.v]: each function computes the integer operation it is named after. *)

From Stdlib Require Import ZArith ZifyBool.
From stdpp Require Import base list numbers option.
From S2P Require Import Prelude Big BigSpec BigBits BigBitsSpec BigDiv BigTerm.
Local Open Scope Z_scope.

Section Terms.
Context {dw : DigitWidth}.

(** The vector of a bignum: digits without leading zero, not more than a header can count. *)
Definition big_digits_ok (ds : list Z) : Prop := digits ds ∧ ds ≠ [] ∧ norm ds ∧ zlen ds ≤ BIG_ARITY_MAX.

Definition in_small (z : Z) : Prop := MIN_SMALL ≤ z ≤ MAX_SMALL.

(** [t] is the term for the integer [z]; there is only one. *)
Definition represents (t : int_term) (z : Z) : Prop :=
  match t with
  | Small v => v = z ∧ in_small z
  | Bignum sign ds => big_digits_ok ds ∧ sval sign ds = z ∧ ¬ in_small z
  | NIL => False
  end.

(** The term for [z], or the report that it does not fit in a bignum. *)
Definition result (t : int_term) (z : Z) : Prop :=
  represents t z ∨ t = NIL ∧ D_BASE ^ BIG_ARITY_MAX ≤ Z.abs z.

Definition is_bignum (t : int_term) (z : Z) : Prop :=
  match t with Bignum sign ds => big_digits_ok ds ∧ sval sign ds = z | _ => False end.

Lemma represents_big sign ds z : represents (Bignum sign ds) z → is_bignum (Bignum sign ds) z.
Proof. intros (H1 & H2 & _). done. Qed.

(** ** Sizes *)
Lemma small_facts : 0 < MAX_SMALL ∧ MIN_SMALL = - (MAX_SMALL + 1) ∧ 2 * (MAX_SMALL + 1) < 2 ^ (D_EXP - 1) ∧ 2 * 2 ^ (D_EXP - 1) = D_BASE.
Proof.
  pose proof D_EXP_ge. unfold MAX_SMALL, MIN_SMALL, SMALL_BITS, D_BASE.
  assert (2 ^ (D_EXP - 4 - 1) = 2 ^ (D_EXP - 6) * 2 ^ 1) as -> by (rewrite <- Z.pow_add_r by lia; f_equal; lia).
  assert (2 ^ (D_EXP - 1) = 2 ^ (D_EXP - 6) * 2 ^ 5) as -> by (rewrite <- Z.pow_add_r by lia; f_equal; lia).
  assert (2 ^ D_EXP = 2 ^ (D_EXP - 6) * 2 ^ 6) as -> by (rewrite <- Z.pow_add_r by lia; f_equal; lia).
  assert (1 < 2 ^ (D_EXP - 6)) by (apply Z.pow_gt_1; lia). lia.
Qed.

Lemma Sint_small z : - 2 ^ (D_EXP - 1) ≤ z < 2 ^ (D_EXP - 1) → Sint z = z.
Proof. pose proof D_EXP_ge. intros. apply wrap_s_small; lia. Qed.

Lemma val_pos ds : digits ds → ds ≠ [] → norm ds → 0 < val ds.
Proof.
  intros D N Hn. pose proof D_BASE_ge. pose proof (base_pow_pos ds). pose proof (val_range ds D). apply norm_val in Hn; [|done..]. nia.
Qed.

Lemma big_arity_max_eq : BIG_ARITY_MAX = 524287.
Proof. done. Qed.

Lemma arity_ok (n : Z) : (BIG_NEED_SIZE n - 1 >? BIG_ARITY_MAX) = (n >? BIG_ARITY_MAX).
Proof. unfold BIG_NEED_SIZE. f_equal. lia. Qed.

(** ** Normalisation *)
Lemma norm_not_small sign ds : digits ds → (2 ≤ length ds)%nat → norm ds → ¬ in_small (sval sign ds).
Proof.
  intros D L Hn. destruct small_facts as (H1 & H2 & H3 & H4). pose proof D_BASE_ge.
  apply norm_val in Hn; [|done|by intros ->; cbn in L; lia]. unfold in_small, sval.
  assert (D_BASE * D_BASE ≤ base_pow ds).
  { destruct ds as [|a [|b ds]]; cbn in L; try lia. rewrite !base_pow_cons. pose proof (base_pow_pos ds). nia. }
  assert (D_BASE ≤ val ds) by nia. destruct sign; lia.
Qed.

Lemma big_norm_spec ds sign : digits ds → stripped ds → result (big_norm ds sign) (sval sign ds).
Proof.
  intros D S. destruct small_facts as (H1 & H2 & H3 & H4). pose proof D_BASE_ge. pose proof D_EXP_ge.
  assert (ds ≠ []) as Nd by (by destruct S as [->|[? _]]). unfold big_norm. rewrite !arity_ok.
  destruct ds as [|y [|y' ds]]; [done| |].
  - apply Forall_cons_iff in D as [Dy _]. unfold is_digit in Dy.
    replace (D_EXP <? SMALL_BITS) with false by (unfold SMALL_BITS; lia). cbn [orb].
    destruct (IS_USMALL sign y) eqn:E; unfold IS_USMALL in E.
    + left. cbn [represents]. rewrite Sint_small by (destruct sign; lia). unfold sval, in_small. cbn [val].
      destruct sign; lia.
    + change (1 >? BIG_ARITY_MAX) with false. left. cbn [represents]. unfold big_digits_ok, sval, in_small. cbn [val].
      split; [|destruct sign; lia]. split; [by constructor; [|constructor]|]. split; [done|].
      split; [intros [= ->]; destruct sign; lia|]. rewrite big_arity_max_eq. cbn. lia.
  - assert (norm (y :: y' :: ds)) as Hn by (destruct S as [?|[_ ?]]; done).
    destruct (Z.gtb_spec (zlen (y :: y' :: ds)) BIG_ARITY_MAX) as [Hgt|Hle].
    + right. split; [done|]. apply norm_val in Hn; [|done..].
      assert (D_BASE ^ BIG_ARITY_MAX ≤ val (y :: y' :: ds)) as Hv.
      { apply (Z.mul_le_mono_pos_l _ _ D_BASE); [lia|]. etransitivity; [|exact Hn]. unfold base_pow.
        rewrite <- Z.pow_succ_r by (rewrite big_arity_max_eq; lia). apply Z.pow_le_mono_r; lia. }
      assert (0 ≤ D_BASE ^ BIG_ARITY_MAX) by (apply Z.pow_nonneg; lia). unfold sval. destruct sign; lia.
    + left. cbn [represents]. split; [done|]. split; [done|]. apply norm_not_small; [done|cbn; lia|done].
Qed.

(** Terms are canonical. *)
Lemma val_inj x : ∀ y, digits x → digits y → norm x → norm y → val x = val y → x = y.
Proof.
  pose proof D_BASE_ge. induction x as [|d x IH]; intros [|e y] Dx Dy Nx Ny E; [done| | |].
  - pose proof (val_pos (e :: y) Dy ltac:(done) Ny). cbn [val] in *. lia.
  - pose proof (val_pos (d :: x) Dx ltac:(done) Nx). cbn [val] in *. lia.
  - apply Forall_cons_iff in Dx as [Hd Dx]. apply Forall_cons_iff in Dy as [He Dy]. cbn [val] in E.
    destruct (two_digits_inj (val x) d (val y) e Hd He) as [Ev ->]; [lia|]. f_equal. apply IH; [done|done| | |done].
    + destruct x; [done|]. unfold norm in *. by rewrite last_cons_ne in Nx.
    + destruct y; [done|]. unfold norm in *. by rewrite last_cons_ne in Ny.
Qed.

Lemma represents_unique t t' z : represents t z → represents t' z → t = t'.
Proof.
  destruct t as [v|s ds|], t' as [v'|s' ds'|]; cbn [represents]; try tauto; [by intros [-> _] [-> _]|].
  intros ((D & N & Hn & _) & E & _) ((D' & N' & Hn' & _) & E' & _). pose proof (val_pos ds D N Hn). pose proof (val_pos ds' D' N' Hn').
  unfold sval in *. assert (s = s') as -> by (destruct s, s'; done || lia). f_equal. apply val_inj; [done..|]. destruct s'; lia.
Qed.

(** ** Addition and comparison *)
Lemma norm_add a b s : digits a → digits b → a ≠ [] → b ≠ [] → norm a → (length b ≤ length a)%nat →
  ∃ t, (r ← I_add a b; Some (big_norm r s)) = Some t ∧ result t (sval s a + sval s b).
Proof.
  intros Da Db Na Nb Ha Hl. pose proof D_BASE_ge.
  destruct (add_digits_spec b a 0 Da Db Hl ltac:(lia)) as (r & E & S). rewrite Z.add_0_r in S. pose proof (val_range b Db).
  assert (norm r) by (apply (sum_of_norm _ _ _ S); [done..|lia]). destruct S as (D & V & L).
  unfold I_add. rewrite E. destruct b as [|b0 b]; [done|]. eexists. split; [reflexivity|].
  replace (sval s a + sval s (b0 :: b)) with (sval s r) by (unfold sval; destruct s; lia). apply big_norm_spec; [done|right].
  split; [|done]. intros ->. destruct a; [done|]. cbn in L. destruct L; lia.
Qed.

Lemma length_le_val a b : digits a → digits b → b ≠ [] → norm b → val b ≤ val a → (length b ≤ length a)%nat.
Proof.
  intros Da Db Nb Hb Hv. destruct (Nat.le_gt_cases (length b) (length a)) as [|Hl]; [done|exfalso]. pose proof D_BASE_ge.
  apply norm_val in Hb; [|done..]. pose proof (val_range a Da). assert (D_BASE * base_pow a ≤ base_pow b); [|nia].
  unfold base_pow. rewrite <- Z.pow_succ_r by lia. apply Z.pow_le_mono_r; lia.
Qed.

Lemma norm_sub a b s : digits a → digits b → a ≠ [] → b ≠ [] → norm b → val b ≤ val a →
  ∃ t, (r ← I_sub a b; Some (big_norm r s)) = Some t ∧ result t (sval s a - sval s b).
Proof.
  intros Da Db Na Nb Hb Hv. destruct (sub_digits_spec b a 0 Da Db) as (r & E & D); [by apply length_le_val|lia|].
  rewrite Z.sub_0_r in D. apply diff_of_nonneg in D; [|lia|destruct a; cbn; [done|lia]]. destruct D as (D & V & S & _).
  unfold I_sub. rewrite E. destruct b as [|b0 b]; [done|]. eexists. split; [reflexivity|].
  replace (sval s a - sval s (b0 :: b)) with (sval s (strip r)) by (unfold sval; destruct s; lia). by apply big_norm_spec.
Qed.

Lemma B_plus_minus_spec x xs y ys : big_digits_ok x → big_digits_ok y →
  ∃ t, B_plus_minus x xs y ys = Some t ∧ result t (sval xs x + sval ys y).
Proof.
  intros (Dx & Nx & Hx & _) (Dy & Ny & Hy & _). destruct small_facts as (S1 & S2 & S3 & S4).
  unfold B_plus_minus. destruct (eqb xs ys) eqn:Es.
  - apply eqb_prop in Es as ->. destruct (Nat.ltb_spec (length y) (length x)).
    + apply norm_add; try done. lia.
    + rewrite Z.add_comm. by apply norm_add.
  - assert (ys = negb xs) as -> by (by destruct xs, ys). rewrite I_comp_sgn by done. cbn [mbind option_bind].
    destruct (Z.lt_trichotomy (val x) (val y)) as [Hlt|[Heq|Hgt]].
    + rewrite Z.sgn_neg by lia. destruct (norm_sub y x (negb xs)) as (t & E & R); [done..|lia|]. exists t. split; [exact E|].
      replace (sval xs x + sval (negb xs) y) with (sval (negb xs) y - sval (negb xs) x) by (unfold sval; destruct xs; cbn; lia). done.
    + rewrite Heq, Z.sub_diag. exists (Small 0). split; [done|left]. cbn [represents]. unfold in_small, sval. destruct xs; cbn [negb]; lia.
    + rewrite Z.sgn_pos by lia. destruct (norm_sub x y xs) as (t & E & R); [done..|lia|]. exists t. split; [exact E|].
      replace (sval xs x + sval (negb xs) y) with (sval xs x - sval xs y) by (unfold sval; destruct xs; cbn; lia). done.
Qed.

Lemma big_comp_spec x y X Y : is_bignum x X → is_bignum y Y → big_comp x y = Some (Z.sgn (X - Y)).
Proof.
  destruct x as [|xs xd|], y as [|ys yd|]; try done. intros ((Dx & Nx & Hx & _) & <-) ((Dy & Ny & Hy & _) & <-). cbn [big_comp].
  pose proof (val_pos xd Dx Nx Hx). pose proof (val_pos yd Dy Ny Hy). unfold sval.
  destruct xs, ys; cbn [eqb]; rewrite ?I_comp_sgn by done; cbn [mbind option_bind]; f_equal.
  - rewrite <- Z.sgn_opp. f_equal. lia.
  - symmetry. apply Z.sgn_neg. lia.
  - symmetry. apply Z.sgn_pos. lia.
Qed.

(** ** Small operands *)
Lemma norm_D_add x (y : Z) s : digits x → x ≠ [] → norm x → is_digit y → result (big_norm (D_add x y) s) (sval s x + (if s then - y else y)).
Proof.
  intros Dx Nx Hx Hy. pose proof (add_carry_spec x y Dx Hy ltac:(done)) as S. unfold is_digit in Hy.
  assert (norm (add_carry x y)) by (apply (sum_of_norm _ _ _ S); [done..|lia]). destruct S as (D & V & L).
  replace (sval s x + (if s then - y else y)) with (sval s (D_add x y)) by (unfold sval, D_add; destruct s; lia).
  apply big_norm_spec; [done|right]. split; [|done]. unfold D_add. intros E. rewrite E in L. destruct x; [done|]. cbn in L. destruct L; lia.
Qed.

Lemma norm_D_sub x (y : Z) s : digits x → x ≠ [] → is_digit y → y ≤ val x →
  ∃ t, (r ← D_sub x y; Some (big_norm r s)) = Some t ∧ result t (sval s x - (if s then - y else y)).
Proof.
  intros Dx Nx Hy Hle. pose proof (sub_borrow_spec x y Dx Hy ltac:(done)) as S.
  apply diff_of_nonneg in S; [|lia|destruct x; cbn; [done|lia]]. destruct S as (D & V & S & _).
  unfold D_sub. destruct x as [|d x]; [done|]. eexists. split; [reflexivity|].
  replace (sval s (d :: x) - (if s then - y else y)) with (sval s (strip (sub_borrow (d :: x) y))) by (unfold sval; destruct s; lia).
  by apply big_norm_spec.
Qed.

Lemma big_plus_minus_small_spec x X y : is_bignum x X → is_digit y → y ≤ Z.abs X →
  (∃ t, big_plus_small x y = Some t ∧ result t (X + y)) ∧ (∃ t, big_minus_small x y = Some t ∧ result t (X - y)).
Proof.
  destruct x as [|xs xd|]; try done. intros ((Dx & Nx & Hx & _) & <-) Hy Hle. pose proof (val_pos xd Dx Nx Hx).
  assert (y ≤ val xd) as Hle' by (unfold sval in Hle; destruct xs; lia). cbn [big_plus_small big_minus_small]. destruct xs.
  - destruct (norm_D_sub xd y true Dx Nx Hy Hle') as (t & E & R). pose proof (norm_D_add xd y true Dx Nx Hx Hy) as R'.
    split; [exists t; split; [exact E|]; by rewrite Z.sub_opp_r in R|eexists; split; [reflexivity|]; exact R'].
  - destruct (norm_D_sub xd y false Dx Nx Hy Hle') as (t & E & R). pose proof (norm_D_add xd y false Dx Nx Hx Hy) as R'.
    split; [by eexists|by exists t].
Qed.

(** ** Multiplication *)
Lemma norm_D_mul x d s s' : digits x → x ≠ [] → norm x → is_digit d → 0 < d →
  result (big_norm (D_mul x d) (negb (eqb s s'))) (sval s x * (if s' then - d else d)).
Proof.
  intros Dx Nx Hx Hd Hp. pose proof D_BASE_ge. destruct (D_mul_spec x d Hd Dx) as (D & V & L). pose proof (val_pos x Dx Nx Hx).
  replace (sval s x * (if s' then - d else d)) with (sval (negb (eqb s s')) (D_mul x d)) by (unfold sval; destruct s, s'; cbn [eqb negb]; lia).
  apply big_norm_spec; [done|right]. split; [intros E; rewrite E in V; cbn in V; nia|].
  unfold D_mul in *. destruct (Z.eqb_spec d 0); [lia|]. destruct (Z.eqb_spec d 1); [done|].
  destruct (dmul_digits_spec d x 0 Hd Dx) as (_ & _ & [L'|[_ L']]); [unfold is_digit; lia|lia| |done].
  apply (norm_ge x); [done..|nia|done].
Qed.

Lemma norm_product r x y : digits r → digits x → digits y → x ≠ [] → y ≠ [] → norm x → norm y →
  length r = (length x + length y)%nat → val r = val x * val y → norm (drop_top_zero r).
Proof.
  intros Dr Dx Dy Nx Ny Hx Hy L V. pose proof D_BASE_ge. destruct (drop_top_zero_spec r Dr) as (D' & V' & L').
  destruct (decide (list.last r = Some 0)) as [Hz|Hz].
  - apply norm_val; [done|intros E; rewrite E in L'; destruct x, y; cbn in *; try done; lia|].
    apply norm_val in Hx; [|done..]. apply norm_val in Hy; [|done..]. rewrite V', V.
    assert (D_BASE * base_pow (drop_top_zero r) = base_pow x * base_pow y) as Ep.
    { unfold base_pow. rewrite <- Z.pow_succ_r, <- Z.pow_add_r by lia. f_equal.
      unfold drop_top_zero. rewrite Hz, removelast_firstn_len, length_take. destruct r; [done|cbn in *; lia]. }
    apply (Z.mul_le_mono_pos_l _ _ D_BASE); [lia|]. rewrite Ep. pose proof (base_pow_pos x). pose proof (base_pow_pos y).
    transitivity ((D_BASE * val x) * (D_BASE * val y)); [apply Z.mul_le_mono_nonneg; lia|nia].
  - unfold drop_top_zero, norm. destruct (list.last r) as [[]|] eqn:E; congruence.
Qed.

Lemma norm_mul x y s s' : digits x → digits y → x ≠ [] → y ≠ [] → norm x → norm y → (length y ≤ length x)%nat →
  ∃ t, (r ← I_mul x y (replicate (length x) 0); Some (big_norm r (negb (eqb s s')))) = Some t ∧ result t (sval s x * sval s' y).
Proof.
  intros Dx Dy Nx Ny Hx Hy Hl. pose proof D_BASE_ge.
  assert (take (length y) (replicate (length x) 0) = replicate (length y) 0) as Et by (rewrite take_replicate; f_equal; lia).
  assert (digits (replicate (length y) 0)) as Dz by (apply Forall_replicate; unfold is_digit; lia).
  destruct (mul_rows_spec x y (replicate (length y) 0) Nx Dx Dy Dz) as (r & E & D & L & V); [apply length_replicate|].
  rewrite val_zeros, Z.add_0_r in V. destruct (drop_top_zero_spec r D) as (D' & V' & L').
  unfold I_mul. rewrite Et, E. destruct x as [|d x]; [done|]. eexists. split; [reflexivity|].
  replace (sval s (d :: x) * sval s' y) with (sval (negb (eqb s s')) (drop_top_zero r)) by (unfold sval; destruct s, s'; cbn [eqb negb]; lia).
  apply big_norm_spec; [done|right]. split; [|by apply (norm_product r (d :: x) y)].
  intros E0. rewrite E0 in L'. destruct y; cbn in *; [done|lia].
Qed.

Lemma norm_sqr x s : digits x → x ≠ [] → norm x →
  ∃ t, (r ← I_sqr x (replicate (length x + 1) 0); Some (big_norm r (negb (eqb s s)))) = Some t ∧ result t (sval s x * sval s x).
Proof.
  intros Dx Nx Hx. pose proof D_BASE_ge.
  assert (take (length x + 1) (replicate (length x + 1) 0) = replicate (length x + 1) 0) as Et by (by rewrite take_replicate, Nat.min_id).
  assert (digits (replicate (length x + 1) 0)) as Dz by (apply Forall_replicate; unfold is_digit; lia).
  pose proof (val_range x Dx).
  destruct (sqr_rows_spec x (replicate (length x + 1) 0) Nx Dx Dz) as (r & E & D & L & V);
    [rewrite length_replicate; lia|rewrite val_zeros; nia|].
  rewrite val_zeros, Z.add_0_l in V. destruct (drop_top_zero_spec r D) as (D' & V' & L').
  unfold I_sqr. rewrite Et, E. destruct x as [|d x]; [done|]. eexists. split; [reflexivity|].
  replace (sval s (d :: x) * sval s (d :: x)) with (sval (negb (eqb s s)) (drop_top_zero r)) by (unfold sval; destruct s; cbn [eqb negb]; lia).
  apply big_norm_spec; [done|right]. split; [|apply (norm_product r (d :: x) (d :: x)); try done; lia].
  intros E0. rewrite E0 in L'. cbn in *. lia.
Qed.

Lemma big_times_spec (same : bool) x y X Y : is_bignum x X → is_bignum y Y → (same = true → x = y) →
  ∃ t, big_times same x y = Some t ∧ result t (X * Y).
Proof.
  destruct x as [|xs xd|], y as [|ys yd|]; try done. intros ((Dx & Nx & Hx & _) & <-) ((Dy & Ny & Hy & _) & <-) Hsame.
  pose proof (val_pos xd Dx Nx Hx) as Px. pose proof (val_pos yd Dy Ny Hy) as Py. cbn [big_times].
  assert (∀ d ds, digits (d :: ds) → is_digit d) as Hhd by (intros d ds Hd; by apply Forall_cons_iff in Hd as [? _]).
  destruct yd as [|y0 [|y1 yd]]; [done| |destruct xd as [|x0 [|x1 xd]]; [done| |]].
  - cbn [val] in Py. replace (sval ys [y0]) with (if ys then - y0 else y0) by (unfold sval; destruct ys; cbn [val]; lia).
    eexists. split; [destruct xd as [|? [|]]; reflexivity|]. apply norm_D_mul; [done..|by eapply Hhd|lia].
  - cbn [val] in Px. replace (sval xs [x0]) with (if xs then - x0 else x0) by (unfold sval; destruct xs; cbn [val]; lia).
    eexists. split; [reflexivity|]. rewrite Z.mul_comm. replace (negb (eqb xs ys)) with (negb (eqb ys xs)) by (by destruct xs, ys).
    apply norm_D_mul; [done..|by eapply Hhd|lia].
  - set (x := x0 :: x1 :: xd) in *. set (y := y0 :: y1 :: yd) in *. destruct same.
    + specialize (Hsame eq_refl). clearbody x y. injection Hsame as -> ->. by apply norm_sqr.
    + destruct (Nat.leb_spec (length y) (length x)); [by apply norm_mul|].
      rewrite Z.mul_comm. replace (negb (eqb xs ys)) with (negb (eqb ys xs)) by (by destruct xs, ys). apply norm_mul; try done. lia.
Qed.

End Terms.

(** * Integer terms, continued: products of smalls, bit operations, shifts, and the conversions to machine integers, bytes and
    decimal numerals. *)

Section Conv.
Context {dw : DigitWidth}.

(** ** Products of smalls *)
Lemma small_abs x : in_small x → dig (if x >? 0 then x else Sint (- x)) = Z.abs x ∧ is_digit (Z.abs x).
Proof.
  intros Hx. destruct small_facts as (H1 & H2 & H3 & H4). unfold in_small in Hx.
  assert (is_digit (Z.abs x)) as D by (unfold is_digit; lia). split; [|done].
  assert ((if x >? 0 then x else Sint (- x)) = Z.abs x) as -> by (destruct (Z.gtb_spec x 0); [lia|rewrite Sint_small; lia]).
  by apply dig_small.
Qed.

Lemma small_times_spec x y : in_small x → in_small y → represents (small_times x y) (x * y).
Proof.
  intros Hx Hy. destruct small_facts as (H1 & H2 & H3 & H4). unfold small_times.
  destruct (small_abs x Hx) as [-> Dx]. destruct (small_abs y Hy) as [-> Dy].
  set (sign := negb (eqb (x <? 0) (y <? 0))).
  assert (x * y = if sign then - (Z.abs x * Z.abs y) else Z.abs x * Z.abs y) as ->.
  { unfold sign. destruct (Z.ltb_spec x 0), (Z.ltb_spec y 0); cbn [eqb negb]; nia. }
  destruct (DMULc_spec (Z.abs x) (Z.abs y) 0 Dx Dy) as (d1 & d0 & -> & Hd1 & Hd0 & E); [unfold is_digit; lia|].
  rewrite Z.add_0_r in E. rewrite <- E. unfold is_digit in Hd1, Hd0.
  replace (D_EXP <? SMALL_BITS) with false by (unfold SMALL_BITS; lia). cbn [orb].
  destruct (Z.eqb_spec d1 0) as [->|Hnz]; cbn [andb negb].
  - destruct (IS_USMALL sign d0) eqn:Eu; unfold IS_USMALL in Eu; cbn [represents].
    + rewrite Sint_small by (destruct sign; lia). unfold in_small. destruct sign; lia.
    + unfold big_digits_ok, sval, in_small. cbn [val]. split; [|destruct sign; lia].
      split; [by constructor; [|constructor]|]. split; [done|]. split; [intros [= ->]; destruct sign; lia|rewrite big_arity_max_eq; cbn; lia].
  - cbn [represents]. unfold big_digits_ok, sval, in_small. cbn [val]. split; [|destruct sign; nia].
    split; [by repeat (constructor; [done|])|]. split; [done|]. split; [by intros [= ->]|rewrite big_arity_max_eq; cbn; lia].
Qed.

(** ** Bit operations *)

(** What is lost when the borrow of the longer operand is not carried behind the shorter one. *)
Definition lost_borrow (xd yd : list Z) : Z :=
  if (length yd <=? length xd)%nat then base_pow yd * lost xd yd else base_pow xd * lost yd xd.

Definition longer_sign (xs : bool) (xd : list Z) (ys : bool) (yd : list Z) : bool :=
  if (length yd <=? length xd)%nat then xs else ys.

Lemma norm_bits (r : option (list Z)) sign v : (∃ d, r = Some d ∧ digits d ∧ stripped d ∧ sval sign d = v) →
  ∃ t, (d ← r; Some (big_norm d sign)) = Some t ∧ result t v.
Proof. intros (d & -> & D & S & <-). eexists. split; [reflexivity|]. by apply big_norm_spec. Qed.

Section BitOps.
Context (xs ys : bool) (xd yd : list Z).
Hypotheses (Hx : big_digits_ok xd) (Hy : big_digits_ok yd).
Let X := sval xs xd.
Let Y := sval ys yd.

Ltac both_orders :=
  destruct Hx as (Dx & Nx & Rx & _), Hy as (Dy & Ny & Ry & _);
  pose proof (val_pos xd Dx Nx Rx); pose proof (val_pos yd Dy Ny Ry);
  unfold big_bits, lost_borrow, longer_sign, X, Y; destruct (Nat.leb_spec (length yd) (length xd)); apply norm_bits.

Lemma big_band_spec : ∃ t, big_band (Bignum xs xd) (Bignum ys yd) = Some t ∧
  result t (Z.land X Y - (if xs && ys then lost_borrow xd yd else 0)).
Proof.
  cbn [big_band]. both_orders.
  - destruct (I_band_spec xd yd xs ys) as (r & E & D & S & V); [done..|]. exists r. split; [done|]. split; [done|]. split; [done|].
    rewrite V. destruct (xs && ys); lia.
  - destruct (I_band_spec yd xd ys xs) as (r & E & D & S & V); [done..|lia|]. exists r. split; [done|]. split; [done|]. split; [done|].
    rewrite (andb_comm xs ys), Z.land_comm, V. destruct (ys && xs); lia.
Qed.

Lemma big_bor_spec : ∃ t, big_bor (Bignum xs xd) (Bignum ys yd) = Some t ∧ result t (Z.lor X Y).
Proof.
  cbn [big_bor]. both_orders.
  - by apply I_bor_spec.
  - rewrite (orb_comm xs ys), Z.lor_comm. apply I_bor_spec; try done. lia.
Qed.

Lemma big_bxor_spec : ∃ t, big_bxor (Bignum xs xd) (Bignum ys yd) = Some t ∧
  result t (Z.lxor X Y - (if longer_sign xs xd ys yd then if xs && ys then - lost_borrow xd yd else lost_borrow xd yd else 0)).
Proof.
  cbn [big_bxor]. both_orders.
  - destruct (I_bxor_spec xd yd xs ys) as (r & E & D & S & V); [done..|]. exists r. split; [done|]. split; [done|]. split; [done|].
    rewrite V. destruct xs, ys; cbn [andb]; lia.
  - destruct (I_bxor_spec yd xd ys xs) as (r & E & D & S & V); [done..|lia|]. exists r. split; [done|]. split; [done|]. split; [done|].
    rewrite (xorb_comm xs ys), Z.lxor_comm, V. destruct xs, ys; cbn [andb]; lia.
Qed.

End BitOps.

(** No borrow is lost unless the digits of the longer operand below the size of the shorter are all zero. *)
Lemma no_lost_borrow xd yd : big_digits_ok xd → big_digits_ok yd →
  val (take (length yd) xd) ≠ 0 → val (take (length xd) yd) ≠ 0 → lost_borrow xd yd = 0.
Proof.
  intros _ _ H1 H2. unfold lost_borrow, lost. rewrite (proj2 (Z.eqb_neq _ _) H1), (proj2 (Z.eqb_neq _ _) H2).
  destruct (length yd <=? length xd)%nat; lia.
Qed.

Lemma big_bnot_neg_spec x X : is_bignum x X →
  (∃ t, big_bnot x = Some t ∧ result t (Z.lnot X)) ∧ (∃ t, big_neg x = Some t ∧ result t (- X)).
Proof.
  destruct x as [|xs xd|]; try done. intros ((Dx & Nx & Rx & _) & <-). cbn [big_bnot big_neg]. split.
  - cbv zeta. apply norm_bits. by apply I_bnot_spec.
  - eexists. split; [reflexivity|]. replace (- sval xs xd) with (sval (negb xs) xd) by (unfold sval; destruct xs; cbn; lia).
    apply big_norm_spec; [done|by right].
Qed.

Lemma big_lshift_spec x X y : is_bignum x X → Z.abs y / D_EXP ≤ INT_MAX →
  ∃ t, big_lshift x y = Some t ∧ result t (Z.shiftl X y).
Proof.
  destruct x as [|xs xd|]; try done. intros ((Dx & Nx & Rx & _) & <-) Hy. cbn [big_lshift]. apply norm_bits.
  by apply I_lshift_spec.
Qed.

Lemma big_rshift_spec x X y : is_bignum x X → y < 0 →
  ∃ t, big_lshift x y = Some t ∧ result t (Z.shiftl X (if int32 (- y / D_EXP) <? 0 then y else - right_count y)).
Proof.
  destruct x as [|xs xd|]; try done. intros ((Dx & Nx & Rx & Hl) & <-) Hy. cbn [big_lshift]. apply norm_bits.
  destruct (Z.ltb_spec (int32 (- y / D_EXP)) 0); [|by apply I_lshift_right]. apply I_lshift_far; try done. rewrite big_arity_max_eq in Hl. unfold INT_MAX. lia.
Qed.

(** ** Machine integers *)
Lemma term_to_Uint_spec t z : represents t z →
  term_to_Uint t = if z <? 0 then BADARG else if z <? D_BASE then Value z else SYSTEM_LIMIT.
Proof.
  destruct small_facts as (H1 & H2 & H3 & H4). pose proof D_EXP_ge. pose proof D_BASE_ge.
  destruct t as [v|s ds|]; cbn [represents term_to_Uint]; [|intros ((D & N & Hn & _) & <- & Hns)|done].
  - intros [-> Hs]. unfold in_small in Hs. destruct (Z.ltb_spec z 0); [done|]. replace (z <? D_BASE) with true by lia.
    rewrite dig_small; [done|unfold is_digit; lia].
  - pose proof (val_pos ds D N Hn). pose proof (val_range ds D). unfold sval. destruct s; [by replace (- val ds <? 0) with true by lia|].
    replace (val ds <? 0) with false by lia. destruct ds as [|d [|d' ds]]; [done| |].
    + cbn [length val join_digits] in *. replace (Z.of_nat 1 * D_EXP >? D_EXP) with false by lia.
      apply Forall_cons_iff in D as [Hd _]. unfold is_digit in Hd. replace (d + D_BASE * 0) with d by lia.
      replace (d <? D_BASE) with true by lia. by rewrite Z.shiftl_0_r, dig_small, Z.lor_0_l.
    + replace (zlen (d :: d' :: ds) * D_EXP >? D_EXP) with true by (cbn [length]; nia).
      apply norm_val in Hn; [|done..]. rewrite !base_pow_cons in Hn. pose proof (base_pow_pos ds).
      replace (val (d :: d' :: ds) <? D_BASE) with false; [done|]. symmetry. apply Z.ltb_ge. nia.
Qed.

Lemma Sint_high u : 2 ^ (D_EXP - 1) ≤ u < D_BASE → Sint u = u - D_BASE.
Proof.
  destruct small_facts as (_ & _ & _ & H4). intros Hu. unfold Sint, wrap_s. fold D_BASE.
  replace ((u + 2 ^ (D_EXP - 1)) mod D_BASE) with (u + 2 ^ (D_EXP - 1) - D_BASE); [lia|].
  apply (Z.mod_unique_pos _ _ 1); lia.
Qed.

Lemma term_to_Sint_spec t z : represents t z →
  term_to_Sint t = if (- 2 ^ (D_EXP - 1) <=? z) && (z <? 2 ^ (D_EXP - 1)) then Some z else None.
Proof.
  destruct small_facts as (H1 & H2 & H3 & H4). pose proof D_EXP_ge. pose proof D_BASE_ge.
  destruct t as [v|s ds|]; cbn [represents term_to_Sint]; [|intros ((D & N & Hn & _) & <- & Hns)|done].
  - intros [-> Hs]. unfold in_small in Hs. destruct (Z.leb_spec (- 2 ^ (D_EXP - 1)) z), (Z.ltb_spec z (2 ^ (D_EXP - 1))); done || lia.
  - pose proof (val_pos ds D N Hn). unfold sval. destruct ds as [|d [|d' ds]]; [done| |].
    + cbn [length val join_digits] in *. replace (Z.of_nat 1 * D_EXP >? D_EXP) with false by lia.
      apply Forall_cons_iff in D as [Hd _]. unfold is_digit in Hd. replace (d + D_BASE * 0) with d in * by lia.
      rewrite Z.shiftl_0_r, (dig_small d), Z.lor_0_l by done. destruct s.
      * assert (dig (- d) = D_BASE - d) as -> by (symmetry; apply (Z.mod_unique_pos _ _ (-1)); lia).
        destruct (Z.leb_spec (- 2 ^ (D_EXP - 1)) (- d)); cbn [andb].
        -- replace (- d <? 2 ^ (D_EXP - 1)) with true by lia. rewrite Sint_high by lia.
           replace (D_BASE - d - D_BASE >? 0) with false by lia. f_equal. lia.
        -- rewrite Sint_small by lia. by replace (D_BASE - d >? 0) with true by lia.
      * replace (- 2 ^ (D_EXP - 1) <=? d) with true by lia. cbn [andb]. destruct (Z.ltb_spec d (2 ^ (D_EXP - 1))).
        -- rewrite Sint_small by lia. by replace (d <? 0) with false by lia.
        -- rewrite Sint_high by lia. by replace (d - D_BASE <? 0) with true by lia.
    + replace (zlen (d :: d' :: ds) * D_EXP >? D_EXP) with true by (cbn [length]; nia).
      apply norm_val in Hn; [|done..]. rewrite !base_pow_cons in Hn. pose proof (base_pow_pos ds).
      assert (D_BASE ≤ val (d :: d' :: ds)) as Hge by nia.
      destruct (Z.leb_spec (- 2 ^ (D_EXP - 1)) (if s then - val (d :: d' :: ds) else val (d :: d' :: ds)));
        destruct (Z.ltb_spec (if s then - val (d :: d' :: ds) else val (d :: d' :: ds)) (2 ^ (D_EXP - 1))); try done.
      destruct s; lia.
Qed.

Lemma big_to_uint32_spec t z : represents t z → 0 ≤ z < 2 ^ 32 → big_to_uint32 t = z.
Proof.
  intros Ht Hz. unfold big_to_uint32. rewrite (term_to_Uint_spec t z Ht). replace (z <? 0) with false by lia.
  assert (2 ^ 32 ≤ D_BASE) by (unfold D_BASE, D_EXP; destruct H_EXP_cases as [-> | ->]; by vm_compute).
  replace (z <? D_BASE) with true by lia. by apply wrap_u_small.
Qed.

(** With 64-bit words the test is exact; with 32-bit words the sign is not looked at. *)
Lemma term_equals_2pow32_spec t z : represents t z →
  term_equals_2pow32 t = if D_EXP =? 64 then z =? 2 ^ 32 else Z.abs z =? 2 ^ 32.
Proof.
  intros Ht. unfold term_equals_2pow32. assert (D_EXP = 64 ∨ D_EXP = 32) as [HE|HE] by (unfold D_EXP; destruct H_EXP_cases; lia); rewrite HE.
  - change (64 / 8 >? 4) with true. change (64 =? 64) with true. cbv iota. rewrite (term_to_Uint_spec t z Ht).
    assert (D_BASE = 2 ^ 64) as -> by (unfold D_BASE; by rewrite HE).
    destruct (Z.ltb_spec z 0); [lia|]. destruct (Z.ltb_spec z (2 ^ 64)); [|lia].
    change 4294967295 with (Z.ones 32). rewrite Z.land_ones, Z.shiftr_shiftr, Z.shiftr_div_pow2 by lia. change (2 ^ (16 + 16)) with (2 ^ 32).
    pose proof (Z.div_mod z (2 ^ 32)). pose proof (Z.mod_pos_bound z (2 ^ 32)). lia.
  - change (32 / 8 >? 4) with false. change (32 =? 64) with false. cbv iota.
    assert (D_BASE = 2 ^ 32) as HB by (unfold D_BASE; by rewrite HE). destruct small_facts as (H1 & H2 & H3 & H4). rewrite HB, HE in *.
    destruct t as [v|s ds|]; cbn [represents] in Ht; [| |done].
    + unfold in_small in Ht. lia.
    + destruct Ht as ((D & N & Hn & _) & <- & _). replace (Z.abs (sval s ds)) with (val ds)
        by (pose proof (val_pos ds D N Hn); unfold sval; destruct s; lia).
      apply norm_val in Hn; [|done..]. unfold digits, is_digit in D. rewrite HB in *.
      destruct ds as [|d0 [|d1 [|d2 ds]]]; [done| | |]; repeat (apply Forall_cons_iff in D as [? D]).
      * cbn [val]. lia.
      * cbn [val]. rewrite HB. lia.
      * rewrite !base_pow_cons, HB in Hn. pose proof (base_pow_pos ds).
        symmetry. apply Z.eqb_neq. nia.
Qed.

End Conv.
