(* ===== verification/BigOutSpec.v ===== *)
(** Integer terms as bytes and as decimal numerals: lemmas on [big_bytes], [big_to_bytes], [bytes_to_big], [write_big],
    [erts_big_to_string] and [big_decimal_estimate] of [BigTerm.v]. *)

From Stdlib Require Import ZArith ZifyBool.
From stdpp Require Import base list numbers option.
From S2P Require Import Prelude Big BigSpec BigBits BigBitsSpec BigDiv BigTerm BigTermSpec.
Local Open Scope Z_scope.

(** ** Positional notation, least significant digit first *)
Section Positional.
Context (b : Z) (Hb : 2 ≤ b).

Fixpoint pval (ds : list Z) : Z := match ds with [] => 0 | d :: ds' => d + b * pval ds' end.

Definition pdigits (ds : list Z) : Prop := Forall (λ d, 0 ≤ d < b) ds.

Lemma pval_app x y : pval (x ++ y) = pval x + b ^ zlen x * pval y.
Proof.
  induction x as [|d x IH]; cbn [pval app length]; [lia|]. rewrite IH, Nat2Z.inj_succ, Z.pow_succ_r by lia. ring.
Qed.

Lemma pval_range ds : pdigits ds → 0 ≤ pval ds < b ^ zlen ds.
Proof.
  induction 1 as [|d ds Hd _ IH]; cbn [pval length]; [lia|]. rewrite Nat2Z.inj_succ, Z.pow_succ_r by lia. nia.
Qed.

(** Without leading zero the value bounds the number of digits. *)
Lemma pval_lower ds : pdigits ds → ds ≠ [] → list.last ds ≠ Some 0 → b ^ (zlen ds - 1) ≤ pval ds.
Proof.
  intros D N L. destruct ds as [|d ds _] using rev_ind; [done|]. rewrite last_snoc in L.
  apply Forall_app in D as [D Hd]. apply Forall_cons_iff in Hd as [Hd _]. rewrite pval_app, length_app.
  replace (Z.of_nat (length ds + length [d]) - 1) with (zlen ds) by (cbn [length]; lia). cbn [pval].
  pose proof (pval_range ds D). assert (d ≠ 0) by congruence. assert (0 < b ^ zlen ds) by (apply Z.pow_pos_nonneg; lia). nia.
Qed.

Lemma pval_pos ds : pdigits ds → ds ≠ [] → list.last ds ≠ Some 0 → 0 < pval ds.
Proof.
  intros D N L. pose proof (pval_lower ds D N L). assert (0 < b ^ (zlen ds - 1)); [|lia].
  apply Z.pow_pos_nonneg; [lia|]. destruct ds; [done|cbn [length]; lia].
Qed.

Lemma pval_div_mod z : z mod b + b * (z / b) = z.
Proof. pose proof (Z.div_mod z b). lia. Qed.

End Positional.

(** A number without leading zero has no leading zero with one more digit below. *)
Lemma last_cons_nonzero (d z : Z) ds : ds ≠ [] → list.last ds ≠ Some z → list.last (d :: ds) ≠ Some z.
Proof. by destruct ds. Qed.

Section Out.
Context {dw : DigitWidth}.

(** ** Bytes *)
Notation bval := (pval 256).
Notation bytes := (pdigits 256).

Lemma D_SIZE_spec : D_BASE = 256 ^ Z.of_nat D_SIZE ∧ (0 < D_SIZE)%nat.
Proof. unfold D_BASE, D_SIZE, D_EXP. destruct H_EXP_cases as [-> | ->]; (split; [reflexivity|vm_compute; lia]). Qed.

Lemma shiftr_8 d : Z.shiftr d 8 = d / 256.
Proof. rewrite Z.shiftr_div_pow2 by lia. done. Qed.

Lemma pow_S (b : Z) n : b ^ Z.of_nat (S n) = b * b ^ Z.of_nat n.
Proof. by rewrite Nat2Z.inj_succ, Z.pow_succ_r by lia. Qed.

Lemma digit_to_bytes_spec n : ∀ d, 0 ≤ d < 256 ^ Z.of_nat n →
  bytes (digit_to_bytes n d) ∧ length (digit_to_bytes n d) = n ∧ bval (digit_to_bytes n d) = d.
Proof.
  induction n as [|n IH]; intros d Hd; cbn [digit_to_bytes length pval]; [split; [constructor|cbn in *; lia]|].
  rewrite pow_S in Hd. rewrite land_255, shiftr_8. destruct (IH (d / 256)) as (B & -> & ->).
  { split; [apply Z.div_pos; lia|apply Z.div_lt_upper_bound; lia]. }
  pose proof (Z.mod_pos_bound d 256). split; [constructor; [lia|done]|]. split; [done|]. by apply pval_div_mod.
Qed.

(** The bytes of the last digit, and how many there are. *)
Lemma last_to_bytes_spec n : ∀ d, 0 < d < 256 ^ Z.of_nat n → ∃ bs, last_to_bytes n d = Some bs ∧ count_bytes n d = Some (zlen bs) ∧
  bytes bs ∧ bs ≠ [] ∧ list.last bs ≠ Some 0 ∧ bval bs = d.
Proof.
  induction n as [|n IH]; intros d Hd; [cbn in Hd; lia|]. rewrite pow_S in Hd. cbn [last_to_bytes count_bytes].
  rewrite land_255, shiftr_8. replace (d =? 0) with false by lia. pose proof (Z.mod_pos_bound d 256). pose proof (pval_div_mod 256 ltac:(lia) d).
  destruct (Z.eqb_spec (d / 256) 0) as [E0|E0].
  - exists [d mod 256]. rewrite E0 in *. split; [done|]. split; [by destruct n|]. split; [by constructor; [lia|constructor]|].
    split; [done|]. cbn [list.last pval]. split; [intros [= ?]; lia|lia].
  - assert (0 ≤ d / 256) by (apply Z.div_pos; lia). assert (d / 256 < 256 ^ Z.of_nat n) by (apply Z.div_lt_upper_bound; lia).
    destruct (IH (d / 256) ltac:(lia)) as (bs & -> & -> & B & N & L & V). eexists. split; [reflexivity|].
    split; [cbn [mbind option_bind length]; f_equal; lia|]. split; [by constructor; [lia|]|]. split; [done|].
    split; [by apply last_cons_nonzero|]. cbn [pval]. lia.
Qed.

Lemma digits_to_bytes_spec ds : digits ds → ds ≠ [] → norm ds → ∃ bs n, digits_to_bytes ds = Some bs ∧
  (d ← list.last ds; count_bytes D_SIZE d) = Some n ∧ zlen bs = (zlen ds - 1) * Z.of_nat D_SIZE + n ∧
  bytes bs ∧ bs ≠ [] ∧ list.last bs ≠ Some 0 ∧ bval bs = val ds.
Proof.
  destruct D_SIZE_spec as [EB HS]. induction ds as [|d ds IH]; intros D N Hn; [done|]. apply Forall_cons_iff in D as [Hd D].
  unfold is_digit in Hd. destruct ds as [|d' ds].
  - destruct (last_to_bytes_spec D_SIZE d) as (bs & E & C & B & N' & L & V); [unfold norm in Hn; cbn in Hn; assert (d ≠ 0) by congruence; lia|].
    exists bs, (zlen bs). cbn [digits_to_bytes list.last mbind option_bind length val]. repeat (split; [done || lia|]). lia.
  - destruct IH as (bs & n & E & C & L & B & N' & T & V); [done..|]. destruct (digit_to_bytes_spec D_SIZE d) as (B' & L' & V'); [lia|].
    exists (digit_to_bytes D_SIZE d ++ bs), n. cbn [digits_to_bytes] in *. rewrite E. split; [done|]. split; [exact C|].
    split; [rewrite length_app, L'; cbn [length] in *; lia|]. split; [by apply Forall_app|]. split; [by intros [_ ?]%app_eq_nil|].
    split; [rewrite last_app; destruct (list.last bs) eqn:Eb; [done|apply last_None in Eb; done]|].
    rewrite pval_app by lia. rewrite L', V', V, <- EB. done.
Qed.

(** Back: the bytes of a digit, then of the vector. *)
Lemma digit_of_bytes_spec bs : bytes bs → (length bs ≤ D_SIZE)%nat → digit_of_bytes bs = bval bs ∧ is_digit (bval bs).
Proof.
  destruct D_SIZE_spec as [EB HS]. intros B. induction B as [|x bs Hx B IH]; intros L; cbn [digit_of_bytes foldr pval].
  { pose proof D_BASE_ge. split; [done|unfold is_digit; lia]. }
  cbn [length] in L. destruct IH as [E _]; [lia|]. fold (digit_of_bytes bs). rewrite E. pose proof (pval_range 256 ltac:(lia) bs B) as R.
  assert (256 * bval bs + 256 ≤ D_BASE).
  { rewrite EB. replace D_SIZE with (S (D_SIZE - 1)) by lia. rewrite pow_S.
    assert (256 ^ zlen bs ≤ 256 ^ Z.of_nat (D_SIZE - 1)) by (apply Z.pow_le_mono_r; lia). lia. }
  assert (is_digit (Z.shiftl (bval bs) 8)) by (rewrite Z.shiftl_mul_pow2 by lia; unfold is_digit; lia).
  rewrite dig_small, lor_shiftl_add by (done || lia). split; [lia|unfold is_digit; lia].
Qed.

Lemma digits_of_bytes_spec fuel : ∀ bs, bytes bs → (length bs < fuel)%nat → (bs = [] ∨ list.last bs ≠ Some 0) →
  ∃ ds, digits_of_bytes fuel bs = Some ds ∧ digits ds ∧ norm ds ∧ val ds = bval bs.
Proof.
  destruct D_SIZE_spec as [EB HS]. induction fuel as [|fuel IH]; intros bs B L T; [lia|]. cbn [digits_of_bytes].
  destruct (Nat.leb_spec D_SIZE (length bs)) as [Hge|Hlt].
  - destruct (digit_of_bytes_spec (take D_SIZE bs)) as [E D]; [by apply Forall_take|rewrite length_take; lia|].
    destruct (IH (drop D_SIZE bs)) as (ds & -> & D' & N & V).
    { by apply Forall_drop. } { rewrite length_drop. lia. }
    { destruct (drop D_SIZE bs) as [|x rest] eqn:Ed; [by left|right]. destruct T as [->|T]; [by rewrite drop_nil in Ed|].
      rewrite <- (take_drop D_SIZE bs), Ed, last_app_cons in T. done. }
    eexists. split; [reflexivity|]. rewrite E. split; [by constructor|]. cbn [val].
    assert (bval bs = bval (take D_SIZE bs) + D_BASE * val ds) as EV.
    { rewrite V, EB. rewrite <- (take_drop D_SIZE bs) at 1. rewrite pval_app by lia. rewrite length_take. do 4 f_equal. lia. }
    split; [|lia]. destruct ds as [|d ds]; [|by apply last_cons_nonzero].
    unfold norm. cbn [list.last val] in *. intros [= E0]. destruct bs as [|x bs]; [cbn in Hge; lia|].
    destruct T as [?|T]; [done|]. pose proof (pval_pos 256 ltac:(lia) (x :: bs) B ltac:(done) T) as Hpos. cbn [pval] in *. lia.
  - destruct bs as [|x bs]; [by eexists; split; [reflexivity|]; split; [constructor|]|].
    destruct (digit_of_bytes_spec (x :: bs) B ltac:(lia)) as [E D]. eexists. split; [reflexivity|]. rewrite E.
    split; [by constructor; [|constructor]|]. split; [|cbn [val]; lia]. unfold norm. cbn [list.last]. intros [= E0].
    destruct T as [?|T]; [done|]. pose proof (pval_pos 256 ltac:(lia) (x :: bs) B ltac:(done) T) as Hpos. cbn [pval] in *. lia.
Qed.

Lemma bytes_to_big_spec bs sign : bytes bs → bs ≠ [] → list.last bs ≠ Some 0 →
  ∃ t, bytes_to_big bs sign = Some t ∧ result t (if sign then - bval bs else bval bs).
Proof.
  intros B N T. destruct (digits_of_bytes_spec (S (length bs)) bs B) as (ds & E & D & Hn & V); [lia|by right|].
  unfold bytes_to_big. rewrite E. eexists. split; [reflexivity|]. rewrite <- V. apply (big_norm_spec ds sign D). right. split; [|done].
  intros ->. pose proof (pval_pos 256 ltac:(lia) bs B N T). cbn [val] in V. lia.
Qed.

Lemma big_to_bytes_spec x X : is_bignum x X → ∃ bs, big_to_bytes x = Some bs ∧ big_bytes x = Some (zlen bs) ∧
  bytes bs ∧ bs ≠ [] ∧ list.last bs ≠ Some 0 ∧ bval bs = Z.abs X.
Proof.
  destruct x as [|s ds|]; try done. intros ((D & N & Hn & _) & <-). pose proof (val_pos ds D N Hn).
  destruct (digits_to_bytes_spec ds D N Hn) as (bs & n & E & C & L & B & N' & T & V). exists bs. cbn [big_to_bytes big_bytes].
  split; [done|]. split; [|by repeat (split; [done|]); unfold sval; destruct s; lia].
  destruct (list.last ds) as [d|]; [|done]. cbn [mbind option_bind] in *. rewrite C. cbn. f_equal. lia.
Qed.

(** ** Decimal output *)
Notation dval cs := (pval 10 ((λ c, c - 48) <$> cs)).
Notation dchars cs := (pdigits 10 ((λ c, c - 48) <$> cs)).

(** The characters of [v] in the order they are written, lowest first. *)
Definition written (cs : list Z) (v : Z) : Prop := dchars cs ∧ cs ≠ [] ∧ list.last cs ≠ Some 48 ∧ dval cs = v.

Lemma dval_app x y : dval (x ++ y) = dval x + 10 ^ zlen x * dval y.
Proof. rewrite fmap_app, pval_app, length_fmap by lia. done. Qed.

Lemma dchars_cons_mod rem cs : dchars cs → dchars (rem mod 10 + 48 :: cs).
Proof. pose proof (Z.mod_pos_bound rem 10). constructor; [lia|done]. Qed.

Lemma write_padded_spec i : ∀ rem, 0 ≤ rem < 10 ^ Z.of_nat i →
  dchars (write_padded i rem) ∧ length (write_padded i rem) = i ∧ dval (write_padded i rem) = rem.
Proof.
  induction i as [|i IH]; intros rem Hr; cbn [write_padded]; [split; [constructor|cbn in *; lia]|].
  rewrite pow_S in Hr. destruct (IH (rem / 10)) as (C & L & V); [split; [apply Z.div_pos; lia|apply Z.div_lt_upper_bound; lia]|].
  split; [by apply dchars_cons_mod|]. cbn [length fmap list_fmap pval]. split; [lia|]. rewrite V. pose proof (pval_div_mod 10 ltac:(lia) rem). lia.
Qed.

Lemma write_digits_spec fuel : ∀ rem, 0 < rem < 10 ^ Z.of_nat fuel → ∃ cs, write_digits fuel rem = Some cs ∧ written cs rem.
Proof.
  induction fuel as [|fuel IH]; intros rem Hr; [cbn in Hr; lia|]. rewrite pow_S in Hr. cbn [write_digits].
  replace (rem =? 0) with false by lia. pose proof (pval_div_mod 10 ltac:(lia) rem). unfold written.
  destruct (Z.eqb_spec (rem / 10) 0) as [E0|E0].
  - rewrite E0 in *. exists [rem mod 10 + 48]. split; [by destruct fuel|]. split; [apply dchars_cons_mod; constructor|]. split; [done|].
    cbn [list.last fmap list_fmap pval]. split; [intros [= ?]; lia|lia].
  - assert (0 ≤ rem / 10) by (apply Z.div_pos; lia). assert (rem / 10 < 10 ^ Z.of_nat fuel) by (apply Z.div_lt_upper_bound; lia).
    destruct (IH (rem / 10) ltac:(lia)) as (cs & -> & C & N & T & V). eexists. split; [reflexivity|].
    split; [by apply dchars_cons_mod|]. split; [done|]. split; [by apply last_cons_nonzero|]. cbn [fmap list_fmap pval]. lia.
Qed.

Lemma decimal_base_digit : is_digit D_DECIMAL_BASE ∧ D_DECIMAL_BASE = 10 ^ Z.of_nat D_DECIMAL_EXP.
Proof. split; [|done]. unfold is_digit, D_BASE, D_EXP, D_DECIMAL_BASE. destruct H_EXP_cases as [-> | ->]; by vm_compute. Qed.

Lemma write_loop_spec fuel : ∀ tmp, digits tmp → tmp ≠ [] → norm tmp → val tmp < 2 ^ Z.of_nat fuel →
  ∃ cs, write_loop fuel tmp = Some cs ∧ written cs (val tmp).
Proof.
  destruct decimal_base_digit as [HD HE]. assert (D_DECIMAL_BASE = 1000000000) as HB by done.
  induction fuel as [|fuel IH]; intros tmp D N Hn Hv; pose proof (val_pos tmp D N Hn); [cbn in Hv; lia|]. rewrite pow_S in Hv. cbn [write_loop].
  destruct (D_div_spec tmp D_DECIMAL_BASE D N Hn HD ltac:(lia)) as (q & r & -> & Dq & Sq & Eq & Er). cbn [mbind option_bind].
  pose proof (Z.div_mod (val tmp) D_DECIMAL_BASE ltac:(lia)) as Edm. rewrite <- Eq, <- Er in Edm.
  assert (0 ≤ r < D_DECIMAL_BASE) by (rewrite Er; apply Z.mod_pos_bound; lia).
  case_bool_decide as Hq.
  - rewrite Hq in Edm. cbn [val] in Edm. replace (val tmp) with r by lia. apply write_digits_spec. lia.
  - assert (q ≠ [] ∧ norm q) as [Nq Nrq] by (destruct Sq as [?|?]; done).
    destruct (IH q Dq Nq Nrq) as (cs & -> & C & Nc & T & V); [lia|]. eexists. split; [reflexivity|].
    destruct (write_padded_spec D_DECIMAL_EXP r) as (C' & L' & V'); [lia|].
    split; [unfold pdigits in *; rewrite fmap_app; by apply Forall_app|]. split; [by intros [_ ?]%app_eq_nil|].
    split; [rewrite last_app; destruct (list.last cs) eqn:El; [done|by apply last_None in El]|].
    rewrite dval_app, V', L', V. lia.
Qed.

Lemma val_lt_pow ds : digits ds → val ds < 2 ^ Z.of_nat (Z.to_nat (zlen ds * D_EXP)).
Proof.
  intros D. pose proof D_EXP_ge. pose proof (val_range ds D) as R. unfold base_pow, D_BASE in R. rewrite <- Z.pow_mul_r in R by lia.
  rewrite Z2Nat.id by lia. rewrite (Z.mul_comm (zlen ds)). lia.
Qed.

Lemma write_big_spec x X : is_bignum x X → ∃ cs, write_big x = Some (cs ++ (if X <? 0 then [45] else [])) ∧ written cs (Z.abs X).
Proof.
  destruct x as [|s ds|]; try done. intros ((D & N & Hn & _) & <-). pose proof (val_pos ds D N Hn). cbn [write_big].
  replace (sval s ds <? 0) with s by (unfold sval; destruct s; lia). replace (Z.abs (sval s ds)) with (val ds) by (unfold sval; destruct s; lia).
  destruct (write_loop_spec (Z.to_nat (zlen ds * D_EXP)) ds D N Hn (val_lt_pow ds D)) as (cs & E & W).
  destruct ds as [|d [|d' ds]]; [done| |by rewrite E; exists cs].
  destruct (Z.ltb_spec d D_DECIMAL_BASE) as [Hlt|]; [|by rewrite E; exists cs]. cbn [val] in *. replace (d + D_BASE * 0) with d in * by lia.
  replace (d =? 0) with false by lia. destruct (write_digits_spec D_DECIMAL_EXP d) as (cs' & -> & W'); [destruct decimal_base_digit; lia|].
  by exists cs'.
Qed.

(** The numeral in reading order. *)
Definition decimal (ds : list Z) (v : Z) : Prop :=
  Forall (λ c, 48 ≤ c ≤ 57) ds ∧ ds ≠ [] ∧ head ds ≠ Some 48 ∧ foldl (λ n c, 10 * n + (c - 48)) 0 ds = v.

Lemma written_decimal cs v : written cs v → decimal (reverse cs) v.
Proof.
  intros (C & N & T & <-). split; [|split; [|split]].
  - apply Forall_reverse. unfold pdigits in C. rewrite Forall_fmap in C. eapply Forall_impl; [|exact C]. cbn. lia.
  - intros E. apply N. by rewrite <- (reverse_involutive cs), E.
  - by rewrite head_reverse.
  - clear. induction cs as [|c cs IH]; [done|]. rewrite reverse_cons, foldl_app. cbn [foldl fmap list_fmap pval]. rewrite IH. lia.
Qed.

(** ** The buffer of [erts_big_to_string] *)
Lemma lg_loop_spec n : ∀ d, 0 ≤ d < 2 ^ Z.of_nat n → ∃ k, lg_loop n d = Some k ∧ 0 ≤ k ≤ Z.of_nat n ∧ d < 2 ^ k.
Proof.
  induction n as [|n IH]; intros d Hd; cbn [lg_loop].
  { cbn in Hd. assert (d = 0) as -> by lia. by exists 0. }
  destruct (Z.eqb_spec d 0) as [->|]; [exists 0; split; [done|]; cbn; lia|]. rewrite Z.shiftr_div_pow2 by lia. change (2 ^ 1) with 2.
  rewrite pow_S in Hd. destruct (IH (d / 2)) as (k & -> & Hk & Hlt); [split; [apply Z.div_pos; lia|apply Z.div_lt_upper_bound; lia]|].
  exists (k + 1). split; [done|]. split; [lia|]. rewrite Z.pow_add_r by lia. pose proof (pval_div_mod 2 ltac:(lia) d).
  pose proof (Z.mod_pos_bound d 2). lia.
Qed.

Lemma I_lg_spec ds : digits ds → ds ≠ [] → norm ds → zlen ds ≤ BIG_ARITY_MAX →
  ∃ lg, I_lg ds = Some lg ∧ 0 ≤ lg + 1 ≤ BIG_ARITY_MAX * 64 ∧ val ds < 2 ^ (lg + 1).
Proof.
  intros D N Hn Hl. rewrite big_arity_max_eq in *. pose proof D_EXP_ge. assert (D_EXP ≤ 64) by (unfold D_EXP; destruct H_EXP_cases; lia).
  destruct ds as [|d ds _] using rev_ind; [done|]. apply Forall_app in D as [D Hd]. apply Forall_cons_iff in Hd as [Hd _].
  unfold is_digit, D_BASE in Hd. destruct (lg_loop_spec (Z.to_nat D_EXP) d) as (k & E & Hk & Hlt); [rewrite Z2Nat.id by lia; lia|].
  rewrite length_app in Hl. cbn [length] in Hl. unfold I_lg. rewrite last_snoc. cbn [mbind option_bind]. rewrite E. cbn [mbind option_bind].
  rewrite length_app. cbn [length]. replace (Z.of_nat (length ds + 1) - 1) with (zlen ds) by lia.
  rewrite int32_small by (unfold INT_MAX; nia). eexists. split; [reflexivity|]. split; [nia|]. rewrite val_app. cbn [val].
  replace (zlen ds * D_EXP + k - 1 + 1) with (D_EXP * zlen ds + k) by lia. rewrite Z.pow_add_r, Z.pow_mul_r by lia.
  fold D_BASE. fold (base_pow ds). pose proof (val_range ds D). nia.
Qed.

(** [28/93] is more than the logarithm of 2. *)
Lemma decimal_length m n v : 0 ≤ m → 0 ≤ n → 10 ^ m ≤ v → v < 2 ^ n → m ≤ n * 28 / 93.
Proof.
  intros Hm Hn H10 H2. destruct (Z.le_gt_cases m (n * 28 / 93)) as [|Hgt]; [done|exfalso].
  assert (n * 28 < 93 * m) as Hlt by (pose proof (Z.div_mod (n * 28) 93); pose proof (Z.mod_pos_bound (n * 28) 93); lia).
  assert (10 ^ (28 * m) ≤ 2 ^ (28 * n)).
  { rewrite (Z.mul_comm 28 m), (Z.mul_comm 28 n), !Z.pow_mul_r by lia. apply Z.pow_le_mono_l. assert (0 < 10 ^ m) by (apply Z.pow_pos_nonneg; lia). lia. }
  assert (2 ^ (28 * n) < 2 ^ (93 * m)) by (apply Z.pow_lt_mono_r; lia).
  assert (2 ^ (93 * m) ≤ 10 ^ (28 * m)); [|lia]. rewrite !Z.pow_mul_r by lia. apply Z.pow_le_mono_l. by vm_compute.
Qed.

Lemma big_decimal_estimate_spec x X cs : is_bignum x X → written cs (Z.abs X) →
  ∃ n, big_decimal_estimate x = Some n ∧ zlen cs + (if X <? 0 then 1 else 0) + 1 ≤ n.
Proof.
  destruct x as [|s ds|]; try done. intros ((D & N & Hn & Hl) & <-) (C & Nc & T & V). pose proof (val_pos ds D N Hn). cbn [big_decimal_estimate].
  destruct (I_lg_spec ds D N Hn Hl) as (lg & -> & Hlg & Hv). cbn [mbind option_bind]. rewrite big_arity_max_eq in Hlg.
  replace (sval s ds <? 0) with s by (unfold sval; destruct s; lia). replace (Z.abs (sval s ds)) with (val ds) in V by (unfold sval; destruct s; lia).
  assert (zlen cs - 1 ≤ (lg + 1) * 28 / 93) as Hlen.
  { assert (cs ≠ []) by done. assert (0 < zlen cs) by (destruct cs; [done|cbn [length]; lia]). apply (decimal_length _ _ (val ds)); [lia|lia| |done].
    rewrite <- V. rewrite <- (length_fmap (λ c, c - 48) cs). apply pval_lower; [lia|done|by destruct cs|].
    rewrite fmap_last. intros [c [Ec E0]]%fmap_Some. apply T. rewrite Ec. f_equal. lia. }
  assert (0 ≤ (lg + 1) * 28 / 93 ≤ (lg + 1) * 28) as Hq by (split; [apply Z.div_pos; lia|apply Z.div_le_upper_bound; lia]).
  rewrite (int32_small (lg + 1)) by (unfold INT_MAX; lia). rewrite (int32_small ((lg + 1) * 28)) by (unfold INT_MAX; lia).
  rewrite Z.quot_div_nonneg by lia. rewrite int32_small by (unfold INT_MAX; lia). eexists. split; [reflexivity|]. destruct s; lia.
Qed.

(** The string ends up in front of the NUL, and nothing is stored before the buffer. *)
Lemma write_string_spec cs : ∀ pre old post, length old = length cs →
  write_string cs (pre ++ old ++ post) (zlen pre + zlen cs) = Some (pre ++ reverse cs ++ post, zlen pre).
Proof.
  induction cs as [|c cs IH]; intros pre old post L.
  - destruct old; [|done]. cbn [write_string length]. by rewrite Z.add_0_r.
  - destruct old as [|o old _] using rev_ind; [done|]. rewrite length_app in L. cbn [length] in L. cbn [write_string].
    replace (zlen pre + zlen (c :: cs) - 1) with (zlen (pre ++ old)) by (rewrite length_app; cbn [length]; lia).
    replace (pre ++ (old ++ [o]) ++ post) with ((pre ++ old) ++ o :: post) by (by rewrite <- !app_assoc).
    rewrite store_app. cbn [mbind option_bind]. rewrite length_app, Nat2Z.inj_add, <- app_assoc.
    replace (zlen old) with (zlen cs) by lia. rewrite (IH pre old (c :: post)) by lia. by rewrite reverse_cons, <- app_assoc.
Qed.

Lemma erts_big_to_string_spec x cs buf : write_big x = Some cs → zlen cs + 1 ≤ zlen buf →
  erts_big_to_string x buf = Some (take (length buf - length cs - 1) buf ++ reverse cs ++ [0], zlen buf - zlen cs - 1).
Proof.
  intros E L. unfold erts_big_to_string. rewrite E.
  destruct buf as [|o buf _] using rev_ind; [cbn in L; lia|]. rewrite length_app in *. cbn [length] in *.
  replace (Z.of_nat (length buf + 1) - 1) with (zlen buf) by lia. rewrite store_app. cbn [mbind option_bind].
  replace (length buf + 1 - length cs - 1)%nat with (length buf - length cs)%nat by lia. rewrite take_app_le by lia.
  rewrite <- (take_drop (length buf - length cs) buf) at 1. rewrite <- app_assoc.
  assert (zlen buf = zlen (take (length buf - length cs) buf) + zlen cs) as -> by (rewrite length_take; lia).
  rewrite write_string_spec by (rewrite length_drop; lia). do 2 f_equal. rewrite length_take. lia.
Qed.

End Out.
