(* ===== verification/BigTheorems.v ===== *)
(** Properties of the integer arithmetic of [big.c]: the functions on integer terms, and the digit macros and digit
    divisions below them. *)

From Stdlib Require Import ZArith ZifyBool.
From stdpp Require Import base list numbers option.
From S2P Require Import Prelude Big BigSpec BigBits BigBitsSpec BigDiv BigTerm BigTermSpec BigOutSpec.
Local Open Scope Z_scope.

Section Properties.
Context {dw : DigitWidth}.

(** [f] returns the term for [z], or reports that [z] is too big for a bignum. *)
Definition computes (f : option int_term) (z : Z) : Prop := ∃ t, f = Some t ∧ result t z.

(** [big_plus], [big_minus] and their variants with an unsigned digit not larger than the bignum return the canonical term
    for the exact sum and difference (a small when it fits, otherwise a bignum without leading zero digits, [NIL] when
    it has too many digits); [big_comp] is the sign of the difference. *)
Lemma big_plus_minus_correct (x y : int_term) (X Y u : Z) :
  is_bignum x X → is_bignum y Y → is_digit u → u ≤ Z.abs X →
  computes (big_plus x y) (X + Y) ∧ computes (big_minus x y) (X - Y) ∧
  computes (big_plus_small x u) (X + u) ∧ computes (big_minus_small x u) (X - u) ∧ big_comp x y = Some (Z.sgn (X - Y)).
Proof.
  intros Hx Hy Hu Hux. destruct (big_plus_minus_small_spec x X u Hx Hu Hux) as [Hp Hm]. pose proof (big_comp_spec x y X Y Hx Hy) as Hc.
  destruct x as [|xs xd|], y as [|ys yd|]; try done. destruct Hx as [Dx <-], Hy as [Dy <-].
  split; [by apply B_plus_minus_spec|]. split; [|done].
  replace (sval xs xd - sval ys yd) with (sval xs xd + sval (negb ys) yd) by (unfold sval; destruct ys; cbn [negb]; lia).
  by apply B_plus_minus_spec.
Qed.

(** Products are exact: [big_times] by schoolbook multiplication, by the squaring algorithm when the operands are the same
    term, and by a single digit; [big_times_small] for any digit; [small_times] for any two smalls. *)
Lemma big_times_correct (same : bool) (x y : int_term) (X Y u a b : Z) :
  is_bignum x X → is_bignum y Y → (same = true → x = y) → is_digit u → in_small a → in_small b →
  computes (big_times same x y) (X * Y) ∧ computes (big_times_small x u) (X * u) ∧ represents (small_times a b) (a * b).
Proof.
  intros Hx Hy Hs Hu Ha Hb. split; [by eapply big_times_spec|]. split; [|by apply small_times_spec].
  destruct x as [|xs xd|]; try done. destruct Hx as [(Dx & Nx & Hn & _) <-]. eexists. split; [reflexivity|].
  destruct (decide (u = 0)) as [->|Hu0].
  - rewrite Z.mul_0_r. pose proof D_BASE_ge. change (D_mul xd 0) with [0]. replace 0 with (sval xs [0]) at 2 by (unfold sval; destruct xs; cbn [val]; lia).
    apply big_norm_spec; [repeat constructor; lia|by left].
  - replace xs with (negb (eqb xs false)) at 1 by (by destruct xs). apply (norm_D_mul xd u xs false); [done..|unfold is_digit in Hu; lia].
Qed.

(** C26: [big_plus], [big_minus] and their variants with an unsigned digit not larger than the bignum return the canonical
    term for the exact sum and difference (a small when it fits, otherwise a bignum without leading zero digits, [NIL]
    when it has too many digits); [big_comp] is the sign of the difference.  Products are exact: [big_times] by schoolbook
    multiplication, by the squaring algorithm when the operands are the same term, and by a single digit;
    [big_times_small] for any digit; [small_times] for any two smalls. *)
Theorem big_arithmetic_correct :
  (∀ (x y : int_term) (X Y u : Z), is_bignum x X → is_bignum y Y → is_digit u → u ≤ Z.abs X →
  computes (big_plus x y) (X + Y) ∧ computes (big_minus x y) (X - Y) ∧
  computes (big_plus_small x u) (X + u) ∧ computes (big_minus_small x u) (X - u) ∧ big_comp x y = Some (Z.sgn (X - Y))) ∧
  (∀ (same : bool) (x y : int_term) (X Y u a b : Z), is_bignum x X → is_bignum y Y → (same = true → x = y) → is_digit u → in_small a → in_small b →
  computes (big_times same x y) (X * Y) ∧ computes (big_times_small x u) (X * u) ∧ represents (small_times a b) (a * b)).
Proof. split; [exact big_plus_minus_correct|exact big_times_correct]. Qed.

(** [big_bor] is the two's complement OR, [big_bnot] and [big_neg] are exact.  [big_band] and [big_bxor] are exact
    unless a borrow is lost: when both operands (for XOR: the longer one) are negative and the digits of the longer below the
    size of the shorter are all zero, the result of AND is too small by [B^n], [n] the size of the shorter operand, and that
    of XOR is too large or too small by it. *)
Lemma big_bit_operations (xs ys : bool) (xd yd : list Z) :
  big_digits_ok xd → big_digits_ok yd →
  let x := Bignum xs xd in let y := Bignum ys yd in let X := sval xs xd in let Y := sval ys yd in
  let lost := lost_borrow xd yd in
  computes (big_bor x y) (Z.lor X Y) ∧ computes (big_bnot x) (Z.lnot X) ∧ computes (big_neg x) (- X) ∧
  computes (big_band x y) (Z.land X Y - (if xs && ys then lost else 0)) ∧
  computes (big_bxor x y) (Z.lxor X Y - (if longer_sign xs xd ys yd then if xs && ys then - lost else lost else 0)) ∧
  (lost ≠ 0 → val (take (length yd) xd) = 0 ∨ val (take (length xd) yd) = 0).
Proof.
  intros Hx Hy x y X Y lost. destruct (big_bnot_neg_spec x X) as [Hn Hm]; [by split|].
  split; [by apply big_bor_spec|]. split; [done|]. split; [done|]. split; [by apply big_band_spec|]. split; [by apply big_bxor_spec|].
  intros Hl. destruct (decide (val (take (length yd) xd) = 0)); [by left|]. destruct (decide (val (take (length xd) yd) = 0)); [by right|].
  destruct Hl. by apply no_lost_borrow.
Qed.

(** [big_lshift] is the arithmetic shift, left or (for a negative count) right, rounding down for negative numbers. *)
Lemma big_lshift_correct (x : int_term) (X y : Z) :
  is_bignum x X → Z.abs y / D_EXP ≤ INT_MAX → computes (big_lshift x y) (Z.shiftl X y).
Proof. apply big_lshift_spec. Qed.

(** A right shift of more digits than an [int] holds: the number of digits is cut to 32 bits; with 64-bit digits a shift by [MIN_SMALL], which stands
    for every count that is a bignum, does not shift at all. *)
Lemma big_rshift_cut (x : int_term) (X y : Z) :
  is_bignum x X → (y < 0 → computes (big_lshift x y) (Z.shiftl X (if int32 (- y / D_EXP) <? 0 then y else - right_count y))) ∧
  (D_EXP = 64 → computes (big_lshift x MIN_SMALL) X).
Proof.
  intros Hx. split; [intros Hy; by apply big_rshift_spec|]. intros E. assert (H_EXP = 32) as EH by (unfold D_EXP in E; lia).
  destruct (big_rshift_spec x X MIN_SMALL Hx) as (t & Et & Hr); [unfold MIN_SMALL, SMALL_BITS, D_EXP; rewrite EH; done|].
  assert (MIN_SMALL = - 576460752303423488) as Em by (unfold MIN_SMALL, SMALL_BITS, D_EXP; by rewrite EH).
  exists t. split; [done|]. unfold right_count in Hr. rewrite Em, E in Hr. exact Hr.
Qed.

(** C27: [big_bor] is the two's complement OR, [big_bnot] and [big_neg] are exact.  [big_band] and [big_bxor] are exact
    unless a borrow is lost: when both operands (for XOR: the longer one) are negative and the digits of the longer below
    the size of the shorter are all zero, the result of AND is too small by [B^n], [n] the size of the shorter operand,
    and that of XOR is too large or too small by it.  [big_lshift] is the arithmetic shift, left or (for a negative count)
    right, rounding down for negative numbers, for counts of at most [INT_MAX] whole digits.  For a right shift by more the number of digits is
    cut to an [int]: if that is negative the result is still right, otherwise the number is shifted by what is left of the
    count; so with 64-bit digits a shift by [MIN_SMALL], which the emulator uses for [bsr] by a bignum, returns the number unchanged. *)
Theorem big_bits_and_shifts :
  (∀ (xs ys : bool) (xd yd : list Z), big_digits_ok xd → big_digits_ok yd →
  let x := Bignum xs xd in let y := Bignum ys yd in let X := sval xs xd in let Y := sval ys yd in
  let lost := lost_borrow xd yd in
  computes (big_bor x y) (Z.lor X Y) ∧ computes (big_bnot x) (Z.lnot X) ∧ computes (big_neg x) (- X) ∧
  computes (big_band x y) (Z.land X Y - (if xs && ys then lost else 0)) ∧
  computes (big_bxor x y) (Z.lxor X Y - (if longer_sign xs xd ys yd then if xs && ys then - lost else lost else 0)) ∧
  (lost ≠ 0 → val (take (length yd) xd) = 0 ∨ val (take (length xd) yd) = 0)) ∧
  (∀ (x : int_term) (X y : Z), is_bignum x X → Z.abs y / D_EXP ≤ INT_MAX → computes (big_lshift x y) (Z.shiftl X y)) ∧
  (∀ (x : int_term) (X y : Z), is_bignum x X →
     (y < 0 → computes (big_lshift x y) (Z.shiftl X (if int32 (- y / D_EXP) <? 0 then y else - right_count y))) ∧
     (D_EXP = 64 → computes (big_lshift x MIN_SMALL) X)).
Proof. split; [exact big_bit_operations|split; [exact big_lshift_correct|exact big_rshift_cut]]. Qed.

(** The digit macros are exact and agree with those for a double-width type: [DMULc] made of half-digit
    products yields the two digits of [a*b + d1]; [DDIVREM], which estimates and corrects two half-digit quotients, yields
    quotient and remainder of [a1*B + a0] by [b], for all [a1 < b]; [DREM] for all [a1]. *)
Lemma digit_macros_exact (a b d1 a1 a0 : Z) :
  is_digit a → is_digit b → is_digit d1 → is_digit a1 → is_digit a0 → 0 < b →
  DMULc a b d1 = ((a * b + d1) / D_BASE, (a * b + d1) mod D_BASE) ∧ DMULc a b d1 = DMULc_double a b d1 ∧
  DREM a1 a0 b = Some ((a1 * D_BASE + a0) mod b) ∧
  (a1 < b → DDIVREM a1 a0 b = Some ((a1 * D_BASE + a0) / b, (a1 * D_BASE + a0) mod b) ∧
    Some (DDIV_double a1 a0 b) = DDIV a1 a0 b ∧ Some (DREM_double a1 a0 b) = DREM a1 a0 b).
Proof.
  intros Ha Hb Hd H1 H0 Hp. destruct (DMULc_value a b d1 Ha Hb Hd) as [E1 E2]. split; [done|]. split; [done|].
  split; [by apply DREM_spec|]. intros Hlt. split; [by apply DDIVREM_spec|by apply DDIV_double_spec].
Qed.

(** [D_div] stores the quotient of a vector by a digit without leading zeros and returns the remainder, which is also what
    [D_rem] returns.  The steps of long division: [D_mulsub] returns size 0 exactly when [x < d*y], the borrow its
    callers test for, and otherwise stores the exact [x - d*y] without leading zeros; [Z_sub] stores the negation modulo [B^yl]. *)
Lemma digit_division_correct (d : Z) (x y : list Z) :
  is_digit d → 0 < d → digits x → norm x → digits y → y ≠ [] → length x = length y ∨ length x = S (length y) →
  (∃ q, D_div x d = Some (q, val x mod d) ∧ digits q ∧ stripped q ∧ val q = val x / d) ∧
  D_rem x d = Some (val x mod d) ∧
  (∃ r, D_mulsub x d y = Some r ∧ mulsub_result (val x - d * val y) r) ∧
  (∃ r, Z_sub y = Some r ∧ digits r ∧ val r = (- val y) mod base_pow y ∧ stripped r ∧ (length r ≤ length y)%nat).
Proof.
  intros Hd Hp Hx Hn Hy Ny Hl. assert (x ≠ []) as Nx by (intros ->; destruct y; [done|cbn in Hl; lia]). split.
  - destruct (D_div_spec x d Hx Nx Hn Hd Hp) as (q & r & E & D & S & V & ->). by exists q.
  - split; [by apply D_rem_spec|]. split; [by apply D_mulsub_spec|by apply Z_sub_spec].
Qed.

(** C28: The digit macros are exact and agree with those for a double-width type: [DMULc] made of half-digit products yields the two
    digits of [a*b + d1]; [DDIVREM], which estimates and corrects two half-digit quotients, yields quotient and remainder of
    [a1*B + a0] by [b], for all [a1 < b]; [DREM] for all [a1].  [D_div] stores the quotient of a vector by a digit without
    leading zeros and returns the remainder, which is also what [D_rem] returns; [D_mulsub] returns size 0 exactly when
    [x < d*y] and otherwise stores the exact [x - d*y] without leading zeros; [Z_sub] stores the negation modulo [B^yl]. *)
Theorem digit_arithmetic_exact :
  (∀ (a b d1 a1 a0 : Z), is_digit a → is_digit b → is_digit d1 → is_digit a1 → is_digit a0 → 0 < b →
  DMULc a b d1 = ((a * b + d1) / D_BASE, (a * b + d1) mod D_BASE) ∧ DMULc a b d1 = DMULc_double a b d1 ∧
  DREM a1 a0 b = Some ((a1 * D_BASE + a0) mod b) ∧
  (a1 < b → DDIVREM a1 a0 b = Some ((a1 * D_BASE + a0) / b, (a1 * D_BASE + a0) mod b) ∧
    Some (DDIV_double a1 a0 b) = DDIV a1 a0 b ∧ Some (DREM_double a1 a0 b) = DREM a1 a0 b)) ∧
  (∀ (d : Z) (x y : list Z), is_digit d → 0 < d → digits x → norm x → digits y → y ≠ [] → length x = length y ∨ length x = S (length y) →
  (∃ q, D_div x d = Some (q, val x mod d) ∧ digits q ∧ stripped q ∧ val q = val x / d) ∧
  D_rem x d = Some (val x mod d) ∧
  (∃ r, D_mulsub x d y = Some r ∧ mulsub_result (val x - d * val y) r) ∧
  (∃ r, Z_sub y = Some r ∧ digits r ∧ val r = (- val y) mod base_pow y ∧ stripped r ∧ (length r ≤ length y)%nat)).
Proof. split; [exact digit_macros_exact|exact digit_division_correct]. Qed.

(** Bytes round trip: [big_to_bytes] writes the bytes of the magnitude, lowest first and without leading zero byte, as
    many as [big_bytes] announced, and [bytes_to_big] makes the same term of them. *)
Lemma big_bytes_roundtrip (x : int_term) (X : Z) :
  is_bignum x X → represents x X →
  ∃ bs, big_to_bytes x = Some bs ∧ big_bytes x = Some (zlen bs) ∧ Forall is_byte bs ∧ list.last bs ≠ Some 0 ∧
    pval 256 bs = Z.abs X ∧ bytes_to_big bs (X <? 0) = Some x.
Proof.
  intros Hb Hx. destruct (big_to_bytes_spec x X Hb) as (bs & E & L & B & N & T & V). exists bs. repeat (split; [done|]).
  destruct (bytes_to_big_spec bs (X <? 0) B N T) as (t & -> & R). rewrite V in R. f_equal.
  replace (if X <? 0 then - Z.abs X else Z.abs X) with X in R by (destruct (Z.ltb_spec X 0); lia). destruct R as [R|[-> R]]; [by eapply represents_unique|].
  exfalso. destruct x as [|s ds|]; try done. destruct Hb as ((D & _ & _ & Hl) & <-). pose proof (val_range ds D) as Hv.
  assert (base_pow ds ≤ D_BASE ^ BIG_ARITY_MAX) by (pose proof D_BASE_ge; apply Z.pow_le_mono_r; lia). unfold sval in R. destruct s; lia.
Qed.

(** [term_to_Uint] and [term_to_Sint] succeed exactly on the integers of the type, with the value, and [term_to_Uint] tells
    negative from too big; [big_to_uint32] returns what fits; [term_equals_2pow32] is exact with 64-bit words and
    ignores the sign with 32-bit words. *)
Lemma term_to_int_exact (t : int_term) (z : Z) :
  represents t z →
  term_to_Uint t = (if z <? 0 then BADARG else if z <? D_BASE then Value z else SYSTEM_LIMIT) ∧
  term_to_Sint t = (if (- 2 ^ (D_EXP - 1) <=? z) && (z <? 2 ^ (D_EXP - 1)) then Some z else None) ∧
  (0 ≤ z < 2 ^ 32 → big_to_uint32 t = z) ∧
  term_equals_2pow32 t = (if D_EXP =? 64 then z =? 2 ^ 32 else Z.abs z =? 2 ^ 32).
Proof.
  intros Ht. split; [by apply term_to_Uint_spec|]. split; [by apply term_to_Sint_spec|].
  split; [by apply big_to_uint32_spec|by apply term_equals_2pow32_spec].
Qed.

(** Bytes round trip: [big_to_bytes] writes the bytes of the magnitude, lowest first and without leading zero byte, as many as
    [big_bytes] announced, and [bytes_to_big] makes the same term of them.  [term_to_Uint] and [term_to_Sint] succeed exactly
    on the integers of the type, with the value, and [term_to_Uint] tells negative from too big; [big_to_uint32] returns
    what fits; [term_equals_2pow32] is exact with 64-bit words and ignores the sign with 32-bit words. *)
Lemma big_conversions_exact :
  (∀ (x : int_term) (X : Z), is_bignum x X → represents x X →
  ∃ bs, big_to_bytes x = Some bs ∧ big_bytes x = Some (zlen bs) ∧ Forall is_byte bs ∧ list.last bs ≠ Some 0 ∧
    pval 256 bs = Z.abs X ∧ bytes_to_big bs (X <? 0) = Some x) ∧
  (∀ (t : int_term) (z : Z), represents t z →
  term_to_Uint t = (if z <? 0 then BADARG else if z <? D_BASE then Value z else SYSTEM_LIMIT) ∧
  term_to_Sint t = (if (- 2 ^ (D_EXP - 1) <=? z) && (z <? 2 ^ (D_EXP - 1)) then Some z else None) ∧
  (0 ≤ z < 2 ^ 32 → big_to_uint32 t = z) ∧
  term_equals_2pow32 t = (if D_EXP =? 64 then z =? 2 ^ 32 else Z.abs z =? 2 ^ 32)).
Proof. split; [exact big_bytes_roundtrip|exact term_to_int_exact]. Qed.

(** Decimal output: [erts_big_to_list] is the numeral of the integer, without leading zeros and with its sign; in a
    buffer of at least [big_decimal_estimate] characters [erts_big_to_string] stores the same characters and a NUL at the
    end of the buffer, and nothing before them. *)
Lemma big_decimal_correct (x : int_term) (X : Z) :
  is_bignum x X →
  ∃ ds n, let text := (if X <? 0 then [45] else []) ++ ds in
    decimal ds (Z.abs X) ∧ erts_big_to_list x = Some text ∧ big_decimal_estimate x = Some n ∧
    ∀ buf, n ≤ zlen buf → ∃ k, erts_big_to_string x buf = Some (take k buf ++ text ++ [0], Z.of_nat k) ∧
      (k + length text + 1 = length buf)%nat.
Proof.
  intros Hx. destruct (write_big_spec x X Hx) as (cs & E & W). destruct (big_decimal_estimate_spec x X cs Hx W) as (n & En & Hn).
  exists (reverse cs), n. cbv zeta.
  assert (reverse (cs ++ (if X <? 0 then [45] else [])) = (if X <? 0 then [45] else []) ++ reverse cs) as Er
    by (rewrite reverse_app; by destruct (X <? 0)).
  split; [by apply written_decimal|]. split; [unfold erts_big_to_list; rewrite E; cbn; by rewrite Er|]. split; [done|].
  intros buf Hb. rewrite <- Er. set (out := cs ++ _) in *.
  assert (zlen out + 1 ≤ zlen buf) as Hl by (unfold out; rewrite length_app; destruct (X <? 0); cbn [length]; lia).
  exists (length buf - length out - 1)%nat. rewrite (erts_big_to_string_spec x out buf E Hl). rewrite length_reverse.
  split; [do 2 f_equal; lia|lia].
Qed.

(** C29: Bytes round trip: [big_to_bytes] writes the bytes of the magnitude, lowest first and without leading zero byte, as
    many as [big_bytes] announced, and [bytes_to_big] makes the same term of them.  [term_to_Uint] and [term_to_Sint]
    succeed exactly on the integers of the type, with the value, and [term_to_Uint] tells negative from too big;
    [big_to_uint32] returns what fits; [term_equals_2pow32] is exact with 64-bit words and ignores the sign with 32-bit
    words.  Decimal output: [erts_big_to_list] is the numeral of the integer, without leading zeros and with its sign; in
    a buffer of at least [big_decimal_estimate] characters [erts_big_to_string] stores the same characters and a NUL at
    the end of the buffer, and nothing before them. *)
Theorem big_conversions_correct :
  ((∀ (x : int_term) (X : Z), is_bignum x X → represents x X →
  ∃ bs, big_to_bytes x = Some bs ∧ big_bytes x = Some (zlen bs) ∧ Forall is_byte bs ∧ list.last bs ≠ Some 0 ∧
    pval 256 bs = Z.abs X ∧ bytes_to_big bs (X <? 0) = Some x) ∧
  (∀ (t : int_term) (z : Z), represents t z →
  term_to_Uint t = (if z <? 0 then BADARG else if z <? D_BASE then Value z else SYSTEM_LIMIT) ∧
  term_to_Sint t = (if (- 2 ^ (D_EXP - 1) <=? z) && (z <? 2 ^ (D_EXP - 1)) then Some z else None) ∧
  (0 ≤ z < 2 ^ 32 → big_to_uint32 t = z) ∧
  term_equals_2pow32 t = (if D_EXP =? 64 then z =? 2 ^ 32 else Z.abs z =? 2 ^ 32))) ∧
  (∀ (x : int_term) (X : Z), is_bignum x X →
  ∃ ds n, let text := (if X <? 0 then [45] else []) ++ ds in
    decimal ds (Z.abs X) ∧ erts_big_to_list x = Some text ∧ big_decimal_estimate x = Some n ∧
    ∀ buf, n ≤ zlen buf → ∃ k, erts_big_to_string x buf = Some (take k buf ++ text ++ [0], Z.of_nat k) ∧
      (k + length text + 1 = length buf)%nat).
Proof. split; [exact big_conversions_exact|exact big_decimal_correct]. Qed.

End Properties.

(** ** Instances on 64-bit digits *)
Module Instances.

#[local] Instance dw64 : DigitWidth := {| H_EXP := 32; H_EXP_cases := or_intror eq_refl |}.
Definition top : Z := 18446744073709551615.
(** 2^64 + 7 and -(2^128). *)
Definition x1 : int_term := Bignum false [7; 1].
Definition x2 : int_term := Bignum true [0; 0; 1].

Lemma ok1 : big_digits_ok [7; 1].
Proof. split; [repeat constructor; vm_compute; congruence|]. split; [done|]. split; [by vm_compute|by vm_compute]. Qed.
Lemma ok2 : big_digits_ok [0; 0; 1].
Proof. split; [repeat constructor; vm_compute; congruence|]. split; [done|]. split; [by vm_compute|by vm_compute]. Qed.
Lemma ok3 : big_digits_ok [9223372036854775808].
Proof. split; [repeat constructor; vm_compute; congruence|]. split; [done|]. split; [by vm_compute|by vm_compute]. Qed.

Lemma big_arithmetic_correct_witness :
  (computes (big_plus x1 x2) (18446744073709551623 + - 2 ^ 128) ∧ computes (big_minus x1 x2) (18446744073709551623 - - 2 ^ 128) ∧
  computes (big_plus_small x1 5) (18446744073709551623 + 5) ∧ computes (big_minus_small x1 5) (18446744073709551623 - 5) ∧
  big_comp x1 x2 = Some 1) ∧
  (computes (big_times true x2 x2) (- 2 ^ 128 * - 2 ^ 128) ∧ computes (big_times_small x2 0) (- 2 ^ 128 * 0) ∧
  represents (small_times 5 (-7)) (5 * -7)).
Proof.
  split.
  - refine (proj1 big_arithmetic_correct x1 x2 18446744073709551623 (- 2 ^ 128) 5 (conj ok1 eq_refl) (conj ok2 eq_refl) _ _);
      [split; vm_compute; congruence|vm_compute; congruence].
  - refine (proj2 big_arithmetic_correct true x2 x2 (- 2 ^ 128) (- 2 ^ 128) 0 5 (-7) (conj ok2 eq_refl) (conj ok2 eq_refl) (λ _, eq_refl) _ _ _);
      split; vm_compute; congruence.
Defined.

(** AND of -(2^128) and -(2^63): the borrow is lost. *)
Lemma big_bits_and_shifts_witness :
  (big_band x2 (Bignum true [9223372036854775808]) = Some (Bignum true [0; 1; 1]) ∧
  computes (big_band x2 (Bignum true [9223372036854775808])) (Z.land (- 2 ^ 128) (- 2 ^ 63) - 2 ^ 64)) ∧
  (computes (big_lshift x2 (-3)) (Z.shiftl (- 2 ^ 128) (-3))) ∧ computes (big_lshift x2 (- 2 ^ 59)) (- 2 ^ 128).
Proof.
  split; [|split].
  - split; [vm_compute; reflexivity|].
    exact (proj1 (proj2 (proj2 (proj2 ((proj1 big_bits_and_shifts) true true [0; 0; 1] [9223372036854775808] ok2 ok3))))).
  - refine (proj1 (proj2 big_bits_and_shifts) x2 (- 2 ^ 128) (-3) (conj ok2 eq_refl) _). vm_compute. congruence.
  - exact (proj2 (proj2 (proj2 big_bits_and_shifts) x2 (- 2 ^ 128) 0 (conj ok2 eq_refl)) eq_refl).
Defined.

Lemma digit_arithmetic_exact_witness :
  (DMULc top top top = ((top * top + top) / D_BASE, (top * top + top) mod D_BASE) ∧ DMULc top top top = DMULc_double top top top ∧
  DREM 5 7 top = Some ((5 * D_BASE + 7) mod top) ∧
  (5 < top → DDIVREM 5 7 top = Some ((5 * D_BASE + 7) / top, (5 * D_BASE + 7) mod top) ∧
    Some (DDIV_double 5 7 top) = DDIV 5 7 top ∧ Some (DREM_double 5 7 top) = DREM 5 7 top)) ∧
  ((∃ q, D_div [1; 2; 3] 10 = Some (q, val [1; 2; 3] mod 10) ∧ digits q ∧ stripped q ∧ val q = val [1; 2; 3] / 10) ∧
  D_rem [1; 2; 3] 10 = Some (val [1; 2; 3] mod 10) ∧
  (∃ r, D_mulsub [1; 2; 3] 10 [5; 2] = Some r ∧ mulsub_result (val [1; 2; 3] - 10 * val [5; 2]) r) ∧
  (∃ r, Z_sub [5; 2] = Some r ∧ digits r ∧ val r = (- val [5; 2]) mod base_pow [5; 2] ∧ stripped r ∧ (length r ≤ 2)%nat)).
Proof.
  split.
  - refine (proj1 digit_arithmetic_exact top top top 5 7 _ _ _ _ _ _); try (split; vm_compute; congruence).
  - refine (proj2 digit_arithmetic_exact 10 [1; 2; 3] [5; 2] _ _ _ _ _ _ _); try done; try (right; reflexivity).
    all: repeat constructor; vm_compute; congruence.
Defined.

Lemma big_conversions_correct_witness :
  ((∃ bs, big_to_bytes x2 = Some bs ∧ big_bytes x2 = Some (zlen bs) ∧ Forall is_byte bs ∧ list.last bs ≠ Some 0 ∧
    pval 256 bs = 2 ^ 128 ∧ bytes_to_big bs true = Some x2) ∧
  (term_to_Uint x2 = BADARG ∧ term_to_Sint x2 = None ∧ (0 ≤ - 2 ^ 128 < 2 ^ 32 → big_to_uint32 x2 = - 2 ^ 128) ∧
  term_equals_2pow32 x2 = false)) ∧
  (∃ ds n, let text := [45] ++ ds in
    decimal ds (2 ^ 128) ∧ erts_big_to_list x2 = Some text ∧ big_decimal_estimate x2 = Some n ∧
    ∀ buf, n ≤ zlen buf → ∃ k, erts_big_to_string x2 buf = Some (take k buf ++ text ++ [0], Z.of_nat k) ∧
      (k + length text + 1 = length buf)%nat).
Proof.
  split.
  - split.
    + refine (proj1 (proj1 big_conversions_correct) x2 (- 2 ^ 128) (conj ok2 eq_refl) (conj ok2 (conj eq_refl _))). intros [H _]. by vm_compute in H.
    + refine (proj2 (proj1 big_conversions_correct) x2 (- 2 ^ 128) (conj ok2 (conj eq_refl _))). intros [H _]. by vm_compute in H.
  - exact (proj2 big_conversions_correct x2 (- 2 ^ 128) (conj ok2 eq_refl)).
Defined.

End Instances.
