(* ===== verification/Timer.v ===== *)
(** The timing wheel: [erts/emulator/beam/time.c] in the configuration without a timer thread, with the tick counter
    [do_time] of [global.h] and [do_erts_deliver_time] of [erl_time_sup.c].

    The [ErlTimer] structures belong to the callers: [cells] is the memory that holds them, indexed by address.  A slot of the wheel
    is the list of the addresses chained by [next].  The callbacks that a function calls are part of its result, as
    (function, argument) pairs in the order of the calls; they are called without the lock, so what they do comes after.
    [None]: a pointer that does not point to a timer, or an index outside of the wheel. *)

From Stdlib Require Import ZArith ZifyBool.
From stdpp Require Import base list numbers option gmap.
From S2P Require Import Prelude.
Local Open Scope Z_scope.

(** Compile-time constants, and [itime], which is set once by [init_time]: the clock resolution in ms. *)
Class TimerConfig := {
  TIW_SIZE : Z;
  UINT_BITS : Z;
  itime : Z;
  TIW_SIZE_cases : TIW_SIZE = 8192 ∨ TIW_SIZE = 65536;
  UINT_BITS_cases : UINT_BITS = 32 ∨ UINT_BITS = 64;
  itime_range : 0 < itime ≤ 1000 }.

Section Wheel.
Context {tc : TimerConfig}.

Definition Uint (z : Z) : Z := wrap_u UINT_BITS z.
Definition Uint64 (z : Z) : Z := wrap_u 64 z.

(** A callback: the function, NULL for none, and its argument. *)
Definition call : Type := Z * Z.

Record ErlTimer := Timer {
  slot : Z;
  count : Z;
  active : bool;
  timeout : Z;
  cancel : option Z;
  arg : Z }.

Record wheel := Wheel {
  tiw : list (list Z);
  tiw_pos : Z;
  tiw_nto : Z;
  cells : gmap Z ErlTimer;
  do_time : Z }.

Definition init_time (cells : gmap Z ErlTimer) : wheel := Wheel (replicate (Z.to_nat TIW_SIZE) []) 0 0 cells 0.

(** ** The tick counter *)
Definition do_time_add (w : wheel) (elapsed : Z) : wheel := Wheel (tiw w) (tiw_pos w) (tiw_nto w) (cells w) (do_time w + elapsed).
Definition do_time_read_and_reset (w : wheel) : Z * wheel :=
  (do_time w, Wheel (tiw w) (tiw_pos w) (tiw_nto w) (cells w) 0).

(** A [SysTimeval], in seconds and microseconds. *)
Definition timeval : Type := Z * Z.

(** [last_delivered] and the wheel, after the ticks between [last_delivered] and the current time were delivered. *)
Definition do_erts_deliver_time (current last_delivered : timeval) (w : wheel) : timeval * wheel :=
  let cur_time := (current.1, 1000 * (current.2 `quot` 1000)) in
  let elapsed := (1000 * (cur_time.1 - last_delivered.1) + (cur_time.2 - last_delivered.2) `quot` 1000) `quot` itime in
  if elapsed >? 0 then (cur_time, do_time_add w elapsed) else (last_delivered, w).

(** ** The next timeout *)

(** The chain of one slot: the end of the loop with [nto] and [min], or the return when a timer has count 0. *)
Fixpoint next_in_slot (cs : gmap Z ErlTimer) (chain : list Z) (tm nto min : Z) : option (Z * Z + unit) :=
  match chain with
  | [] => Some (inl (nto, min))
  | p :: chain' =>
      t ← cs !! p;
      if count t =? 0 then Some (inr tt)
      else
        let d := Uint (tm + Uint (count t * TIW_SIZE)) in
        next_in_slot cs chain' tm (nto + 1) (if d <? min then wrap_u 32 d else min)
  end.

(** The [do ... while] loop over the slots: the time [tm] at which a timer with count 0 was found, or [min]. *)
Fixpoint next_loop (fuel : nat) (w : wheel) (i tm nto min : Z) : option Z :=
  match fuel with
  | O => None
  | S fuel' =>
      chain ← tiw w !! Z.to_nat i;
      r ← next_in_slot (cells w) chain tm nto min;
      match r with
      | inr _ => Some tm
      | inl (nto, min) =>
          if nto =? tiw_nto w then Some min
          else
            let i := (i + 1) mod TIW_SIZE in
            if i =? tiw_pos w then Some min else next_loop fuel' w i (tm + 1) nto min
      end
  end.

Definition next_time_internal (w : wheel) : option Z :=
  if tiw_nto w =? 0 then Some (-1)
  else
    t ← next_loop (Z.to_nat TIW_SIZE) w (tiw_pos w) 0 0 (wrap_u 32 (-1));
    let dt := do_time w in
    Some (int32 (if t >=? dt then t - dt else 0)).

Definition next_time (w : wheel) : option Z := next_time_internal w.

(** ** Time passes *)

(** The inner loop: the chain that stays, the timers that time out, and the changed cells. *)
Fixpoint bump_slot (cs : gmap Z ErlTimer) (chain : list Z) (cnt nto : Z) : option (list Z * list Z * gmap Z ErlTimer * Z) :=
  match chain with
  | [] => Some ([], [], cs, nto)
  | p :: chain' =>
      t ← cs !! p;
      if count t <? cnt then
        let t' := Timer (slot t) (count t) false (timeout t) (cancel t) (arg t) in
        '(kept, out, cs, nto) ← bump_slot (<[p := t']> cs) chain' cnt (Uint (nto - 1)); Some (kept, p :: out, cs, nto)
      else
        let t' := Timer (slot t) (Uint (count t - cnt)) (active t) (timeout t) (cancel t) (arg t) in
        '(kept, out, cs, nto) ← bump_slot (<[p := t']> cs) chain' cnt nto; Some (p :: kept, out, cs, nto)
  end.

(** [while (dtime > 0)]: the wheel and the timeout queue. *)
Fixpoint bump_loop (dtime : nat) (w : wheel) (cnt keep_pos : Z) (queue : list Z) : option (wheel * list Z) :=
  match dtime with
  | O => Some (w, queue)
  | S dtime' =>
      let cnt := if tiw_pos w =? keep_pos then Uint (cnt - 1) else cnt in
      chain ← tiw w !! Z.to_nat (tiw_pos w);
      '(kept, out, cs, nto) ← bump_slot (cells w) chain cnt (tiw_nto w);
      let w := Wheel (<[Z.to_nat (tiw_pos w) := kept]> (tiw w)) ((tiw_pos w + 1) mod TIW_SIZE) nto cs (do_time w) in
      bump_loop dtime' w cnt keep_pos (queue ++ out)
  end.

(** The callbacks of the timeout queue; [p->slot] is reset before each. *)
Fixpoint run_timeouts (cs : gmap Z ErlTimer) (queue : list Z) : option (gmap Z ErlTimer * list call) :=
  match queue with
  | [] => Some (cs, [])
  | p :: queue' =>
      t ← cs !! p;
      let cs := <[p := Timer 0 (count t) (active t) (timeout t) (cancel t) (arg t)]> cs in
      '(cs, calls) ← run_timeouts cs queue'; Some (cs, (timeout t, arg t) :: calls)
  end.

(** Also the queue, for reference. *)
Definition bump_timer_internal (w : wheel) (dt : Z) : option (wheel * list Z * list call) :=
  let dtime := Uint dt in
  if tiw_nto w =? 0 then Some (w, [], [])
  else
    let cnt := Uint (dtime / TIW_SIZE + 1) in
    let keep_pos := Uint (tiw_pos w + dtime) mod TIW_SIZE in
    let dtime := if dtime >? TIW_SIZE then TIW_SIZE else dtime in
    '(w, queue) ← bump_loop (Z.to_nat dtime) w cnt keep_pos [];
    '(cs, calls) ← run_timeouts (cells w) queue;
    Some (Wheel (tiw w) keep_pos (tiw_nto w) cs (do_time w), queue, calls).

Definition bump_timer (w : wheel) (dt : Z) : option (wheel * list Z * list call) := bump_timer_internal w dt.

(** ** Timers *)
Definition insert_timer (w : wheel) (p : Z) (t : ErlTimer) (tmo : Z) : option wheel :=
  let ticks := Uint (Uint (tmo + itime) - 1) / itime in
  let ticks := Uint64 (ticks + do_time w) in
  let tm := Uint64 (ticks + tiw_pos w) mod TIW_SIZE in
  let t := Timer tm (Uint (ticks / TIW_SIZE)) (active t) (timeout t) (cancel t) (arg t) in
  chain ← tiw w !! Z.to_nat tm;
  Some (Wheel (<[Z.to_nat tm := p :: chain]> (tiw w)) (tiw_pos w) (Uint (tiw_nto w + 1)) (<[p := t]> (cells w)) (do_time w)).

(** After [erts_deliver_time], which changes [do_time]. *)
Definition erl_set_timer (w : wheel) (p : Z) (tmofn : Z) (cancelfn : option Z) (a : Z) (t : Z) : option wheel :=
  c ← cells w !! p;
  if active c then Some w
  else insert_timer w p (Timer (slot c) (count c) true tmofn cancelfn a) t.

(** The search in the chain: the chain without [p], if it is there. *)
Fixpoint unchain (p : Z) (chain : list Z) : option (list Z) :=
  match chain with
  | [] => None
  | q :: chain' => if q =? p then Some chain' else (q ::.) <$> unchain p chain'
  end.

Definition erl_cancel_timer (w : wheel) (p : Z) : option (wheel * list call) :=
  c ← cells w !! p;
  if negb (active c) then Some (w, [])
  else
    chain ← tiw w !! Z.to_nat (slot c);
    match unchain p chain with
    | None => Some (w, [])
    | Some chain' =>
        Some (Wheel (<[Z.to_nat (slot c) := chain']> (tiw w)) (tiw_pos w) (Uint (tiw_nto w - 1))
                (<[p := Timer 0 0 false (timeout c) (cancel c) (arg c)]> (cells w)) (do_time w),
              match cancel c with Some f => [(f, arg c)] | None => [] end)
    end.

Definition time_left (w : wheel) (p : Z) : option Z :=
  c ← cells w !! p;
  if negb (active c) then Some 0
  else
    let left := if slot c <? tiw_pos w then Uint (Uint (Uint ((count c + 1) * TIW_SIZE) + slot c) - tiw_pos w)
                else Uint (Uint (Uint (count c * TIW_SIZE) + slot c) - tiw_pos w) in
    let dt := do_time w in
    let left := if left <? dt then 0 else Uint (left - dt) in
    Some (Uint (left * itime)).

End Wheel.
