(* ===== verification/TimerSpec.v ===== *)
(** The timing wheel of [Timer.v] as a map from timers to the ticks that are left: invariant, abstraction, and the effect of every
    operation on the map. *)

From Stdlib Require Import ZArith ZifyBool.
From stdpp Require Import base list numbers option gmap sorting.
From S2P Require Import Prelude Timer.
Local Open Scope Z_scope.

Section Wheel.
Context {tc : TimerConfig}.

(** Ticks until the slot of [t] is reached, and until [t] times out, from the position [pos] of the wheel. *)
Definition dist (pos : Z) (t : ErlTimer) : Z := (slot t - pos) mod TIW_SIZE.
Definition due (pos : Z) (t : ErlTimer) : Z := count t * TIW_SIZE + dist pos t.

(** The abstraction: the active timers, with the ticks left from the position of the wheel. *)
Definition due_if_active (pos : Z) (t : ErlTimer) : option Z := if active t then Some (due pos t) else None.
Definition due_map (pos : Z) (cs : gmap Z ErlTimer) : gmap Z Z := omap (due_if_active pos) cs.
Definition timers (w : wheel) : gmap Z Z := due_map (tiw_pos w) (cells w).

Definition UINT_MAX : Z := 2 ^ UINT_BITS.

Definition cell_ok (t : ErlTimer) : Prop := active t = true → 0 ≤ slot t < TIW_SIZE ∧ 0 ≤ count t < UINT_MAX.

(** The chains hold exactly the active timers, each in the chain of its slot. *)
Record chained (ch : list (list Z)) (cs : gmap Z ErlTimer) : Prop := {
  ch_length : length ch = Z.to_nat TIW_SIZE;
  ch_nodup : ∀ i chain, ch !! i = Some chain → NoDup chain;
  ch_elem : ∀ i chain p, ch !! i = Some chain →
    p ∈ chain ↔ ∃ t, cs !! p = Some t ∧ active t = true ∧ slot t = Z.of_nat i }.

Record wheel_ok (w : wheel) : Prop := {
  wo_chained : chained (tiw w) (cells w);
  wo_pos : 0 ≤ tiw_pos w < TIW_SIZE;
  wo_cells : map_Forall (λ _, cell_ok) (cells w);
  wo_nto : tiw_nto w = Z.of_nat (size (timers w));
  wo_mem : Z.of_nat (size (cells w)) < UINT_MAX;
  wo_time : 0 ≤ do_time w }.

(** ** Arithmetic *)
Lemma size_pos : 0 < TIW_SIZE.
Proof. destruct TIW_SIZE_cases; lia. Qed.

Lemma UINT_MAX_ge : 4294967296 ≤ UINT_MAX.
Proof. unfold UINT_MAX. destruct UINT_BITS_cases as [-> | ->]; by vm_compute. Qed.

Lemma Uint_small z : 0 ≤ z < UINT_MAX → Uint z = z.
Proof. apply wrap_u_small. Qed.

(** The wheel size divides the range of the type: reduction to the type does not change the slot. *)
Lemma wrap_mod_size w z : w = 32 ∨ w = 64 → wrap_u w z mod TIW_SIZE = z mod TIW_SIZE.
Proof.
  intros Hw. unfold wrap_u. pose proof size_pos. symmetry.
  assert (2 ^ w = (2 ^ w / TIW_SIZE) * TIW_SIZE) as E
    by (destruct Hw as [-> | ->], TIW_SIZE_cases as [-> | ->]; by vm_compute).
  rewrite (Z.div_mod z (2 ^ w)) at 1 by (destruct Hw as [-> | ->]; by vm_compute).
  rewrite E at 1. replace (_ * _ * (z / 2 ^ w) + z mod 2 ^ w) with (z mod 2 ^ w + (2 ^ w / TIW_SIZE * (z / 2 ^ w)) * TIW_SIZE) by ring.
  by rewrite Z.mod_add by lia.
Qed.

Lemma dist_range pos t : 0 ≤ dist pos t < TIW_SIZE.
Proof. apply Z.mod_pos_bound, size_pos. Qed.

(** One position further, all other slots are one tick closer. *)
Lemma dist_succ pos t : 0 ≤ pos < TIW_SIZE → 0 ≤ slot t < TIW_SIZE →
  dist ((pos + 1) mod TIW_SIZE) t = if slot t =? pos then TIW_SIZE - 1 else dist pos t - 1.
Proof.
  intros Hp Hs. unfold dist. destruct TIW_SIZE_cases as [E|E]; rewrite E in *; destruct (Z.eqb_spec (slot t) pos);
    Z.div_mod_to_equations; lia.
Qed.

Lemma dist_0 pos t : 0 ≤ pos < TIW_SIZE → 0 ≤ slot t < TIW_SIZE → dist pos t = 0 ↔ slot t = pos.
Proof.
  intros Hp Hs. unfold dist. destruct TIW_SIZE_cases as [E|E]; rewrite E in *; Z.div_mod_to_equations; lia.
Qed.

(** ** The map of the timers *)
Lemma due_map_lookup pos cs p : due_map pos cs !! p = cs !! p ≫= due_if_active pos.
Proof. apply lookup_omap. Qed.

Lemma timers_Some pos cs p d : due_map pos cs !! p = Some d ↔ ∃ t, cs !! p = Some t ∧ active t = true ∧ due pos t = d.
Proof.
  rewrite due_map_lookup. unfold due_if_active. split.
  - intros (t & E & H)%bind_Some. exists t. destruct (active t); by simplify_eq.
  - intros (t & -> & Ha & <-). cbn. by rewrite Ha.
Qed.

Lemma due_map_insert_inactive pos cs p t : active t = false → due_map pos (<[p := t]> cs) = delete p (due_map pos cs).
Proof.
  intros Ha. apply map_eq. intros q. rewrite due_map_lookup. destruct (decide (p = q)) as [<-|Hne].
  - rewrite lookup_insert_eq, lookup_delete_eq. cbn. unfold due_if_active. by rewrite Ha.
  - by rewrite lookup_insert_ne, lookup_delete_ne, due_map_lookup by done.
Qed.

Lemma due_map_insert_active pos cs p t : active t = true → due_map pos (<[p := t]> cs) = <[p := due pos t]> (due_map pos cs).
Proof.
  intros Ha. apply map_eq. intros q. rewrite due_map_lookup. destruct (decide (p = q)) as [<-|Hne].
  - rewrite !lookup_insert_eq. cbn. unfold due_if_active. by rewrite Ha.
  - by rewrite !lookup_insert_ne, due_map_lookup by done.
Qed.

(** The number of active timers does not depend on the position. *)
Lemma due_map_size pos pos' cs : size (due_map pos cs) = size (due_map pos' cs).
Proof.
  rewrite <- !(size_dom (D := gset Z)). f_equal. apply set_eq. intros p. rewrite !elem_of_dom. unfold is_Some. setoid_rewrite timers_Some.
  split; intros (d & t & H1 & H2 & _); by exists (due pos' t), t + exists (due pos t), t.
Qed.

Lemma due_map_size_le pos cs : (size (due_map pos cs) ≤ size cs)%nat.
Proof.
  rewrite <- !(size_dom (D := gset Z)). apply subseteq_size. intros p. rewrite !elem_of_dom.
  intros [d (t & -> & _)%timers_Some]. by eexists.
Qed.

(** ** Time passes *)

(** What a pass over a slot with the counter [cnt] does to a timer. *)
Definition tick (cnt : Z) (t : ErlTimer) : ErlTimer :=
  if count t <? cnt then Timer (slot t) (count t) false (timeout t) (cancel t) (arg t)
  else Timer (slot t) (Uint (count t - cnt)) (active t) (timeout t) (cancel t) (arg t).

Definition timed_out (cs : gmap Z ErlTimer) (cnt p : Z) : bool :=
  match cs !! p with Some t => count t <? cnt | None => false end.

Lemma filter_timed_out (b : bool) cs cs' cnt (chain : list Z) : (∀ p, p ∈ chain → cs' !! p = cs !! p) →
  filter (λ p, timed_out cs' cnt p = b) chain = filter (λ p, timed_out cs cnt p = b) chain.
Proof.
  induction chain as [|p chain IH]; intros H; [done|]. rewrite !filter_cons, IH by (intros q Hq; apply H; by right).
  assert (timed_out cs' cnt p = timed_out cs cnt p) as -> by (unfold timed_out; by rewrite (H p) by (by left)). done.
Qed.

(** The number of active timers, before and after a timer is ticked. *)
Lemma tick_nto cs p t cnt nto : cs !! p = Some t → active t = true → nto = Z.of_nat (size (due_map 0 cs)) → nto < UINT_MAX →
  (if count t <? cnt then Uint (nto - 1) else nto) = Z.of_nat (size (due_map 0 (<[p := tick cnt t]> cs))).
Proof.
  intros Et Ha Hn Hs. assert (due_map 0 cs !! p = Some (due 0 t)) as Edue by (apply timers_Some; by exists t).
  unfold tick. destruct (count t <? cnt).
  - rewrite due_map_insert_inactive by done. rewrite map_size_delete_Some by eauto.
    assert (size (due_map 0 cs) ≠ 0%nat) by (intros H0%map_size_empty_inv; by rewrite H0 in Edue). rewrite Uint_small by lia. lia.
  - rewrite due_map_insert_active by done. rewrite map_size_insert_Some by eauto. done.
Qed.

Lemma bump_slot_spec cnt chain : ∀ cs nto, NoDup chain →
  (∀ p, p ∈ chain → ∃ t, cs !! p = Some t ∧ active t = true) →
  nto = Z.of_nat (size (due_map 0 cs)) → nto < UINT_MAX →
  ∃ cs' nto', bump_slot cs chain cnt nto =
      Some (filter (λ p, timed_out cs cnt p = false) chain, filter (λ p, timed_out cs cnt p = true) chain, cs', nto') ∧
    nto' = Z.of_nat (size (due_map 0 cs')) ∧
    (∀ p, cs' !! p = if decide (p ∈ chain) then tick cnt <$> cs !! p else cs !! p).
Proof.
  induction chain as [|p chain IH]; intros cs nto Hnd Hin Hn Hs; cbn [bump_slot].
  { exists cs, nto. split; [done|]. split; [done|]. intros q. by rewrite decide_False by apply not_elem_of_nil. }
  apply NoDup_cons in Hnd as [Hp Hnd]. destruct (Hin p) as (t & Et & Ha); [by left|]. rewrite Et. cbn [mbind option_bind].
  pose proof (tick_nto cs p t cnt nto Et Ha Hn Hs) as Hn1. set (cs1 := <[p := tick cnt t]> cs) in *.
  assert (∀ q, q ∈ chain → cs1 !! q = cs !! q) as Hcs1 by (intros q Hq; apply lookup_insert_ne; by intros ->).
  destruct (IH cs1 (if count t <? cnt then Uint (nto - 1) else nto) Hnd) as (cs' & nto' & E & Hn' & Hcs); [|exact Hn1| |].
  { intros q Hq. rewrite Hcs1 by done. apply Hin. by right. }
  { destruct (count t <? cnt); [|done]. unfold Uint, wrap_u, UINT_MAX. apply Z.mod_pos_bound. pose proof UINT_MAX_ge. unfold UINT_MAX in *. lia. }
  rewrite !(filter_timed_out _ cs cs1) in E by done. exists cs', nto'. split; [|split; [done|]].
  - rewrite !filter_cons. assert (timed_out cs cnt p = (count t <? cnt)) as -> by (unfold timed_out; by rewrite Et).
    unfold cs1, tick in E. destruct (count t <? cnt); cbn [decide]; rewrite E; reflexivity.
  - intros q. rewrite Hcs. destruct (decide (q ∈ chain)) as [Hq|Hq].
    + rewrite Hcs1 by done. by rewrite decide_True by (by right).
    + destruct (decide (q = p)) as [->|Hne].
      * rewrite decide_True by (by left). unfold cs1. by rewrite lookup_insert_eq, Et.
      * rewrite decide_False by (by intros [?|?]%elem_of_cons). unfold cs1. by rewrite lookup_insert_ne.
Qed.

(** One iteration of the outer loop. *)
Definition tick_slot (pos cnt : Z) (t : ErlTimer) : ErlTimer := if active t && (slot t =? pos) then tick cnt t else t.

Lemma tick_slot_keeps pos cnt t : slot (tick_slot pos cnt t) = slot t ∧ (active (tick_slot pos cnt t) = true → active t = true).
Proof. unfold tick_slot, tick. destruct (active t && _) eqn:E; [|done]. apply andb_true_iff in E as [E _]. by destruct (count t <? cnt). Qed.

Lemma tick_cell_ok cnt t : 0 ≤ cnt → cell_ok t → cell_ok (tick cnt t).
Proof.
  unfold cell_ok, tick. intros Hc Ht. destruct (Z.ltb_spec (count t) cnt); cbn; [done|].
  intros Ha. destruct (Ht Ha) as [Hs Hn]. rewrite Uint_small by lia. lia.
Qed.

Lemma chained_lookup ch cs i : chained ch cs → 0 ≤ i < TIW_SIZE → ∃ chain, ch !! Z.to_nat i = Some chain ∧ NoDup chain ∧
  ∀ p, p ∈ chain ↔ ∃ t, cs !! p = Some t ∧ active t = true ∧ slot t = i.
Proof.
  intros [L N E] Hi. destruct (lookup_lt_is_Some_2 ch (Z.to_nat i)) as [chain Hc]; [lia|]. exists chain. split; [done|].
  split; [by eapply N|]. intros p. rewrite (E _ _ p Hc). by rewrite Z2Nat.id by lia.
Qed.

(** The chains after a slot was processed. *)
Lemma chained_tick ch cs cs' pos cnt chain : chained ch cs → 0 ≤ pos < TIW_SIZE → ch !! Z.to_nat pos = Some chain →
  (∀ p, cs' !! p = tick_slot pos cnt <$> cs !! p) →
  chained (<[Z.to_nat pos := filter (λ p, timed_out cs cnt p = false) chain]> ch) cs'.
Proof.
  intros [L N E] Hpos Hc Hcs. split; [by rewrite length_insert| |].
  - intros i c. destruct (decide (i = Z.to_nat pos)) as [->|Hne].
    + rewrite list_lookup_insert_eq by lia. intros [= <-]. apply NoDup_filter. by eapply N.
    + rewrite list_lookup_insert_ne by done. apply N.
  - intros i c p. destruct (decide (i = Z.to_nat pos)) as [->|Hne].
    + rewrite list_lookup_insert_eq by lia. intros [= <-]. rewrite list_elem_of_filter, (E _ _ p Hc), Hcs. rewrite Z2Nat.id by lia.
      unfold timed_out, tick_slot, tick. split.
      * intros [Hn (t & Et & Ha & Hs)]. rewrite Et in Hn |- *. eexists. split; [reflexivity|]. rewrite Ha, Hs, Z.eqb_refl, Hn. done.
      * intros (t' & Et & Ha & Hs). destruct (cs !! p) as [t|]; [|done]. injection Et as <-.
        destruct (active t) eqn:Ea; cbn [andb] in *; [|by rewrite Ea in Ha].
        destruct (Z.eqb_spec (slot t) pos); [|done]. destruct (count t <? cnt); [done|]. split; [done|]. by exists t.
    + rewrite list_lookup_insert_ne by done. intros Hi. rewrite (E _ _ p Hi), Hcs.
      assert (i < length ch)%nat by (by eapply lookup_lt_Some). split.
      * intros (t & Et & Ha & Hs). exists t. rewrite Et. split; [|done]. cbn [fmap option_fmap option_map]. f_equal. unfold tick_slot.
        replace (slot t =? pos) with false by lia. by rewrite andb_false_r.
      * intros (t' & (t & Et & ->)%fmap_Some & Ha & Hs). destruct (tick_slot_keeps pos cnt t) as [Hs' Ha']. exists t. rewrite <- Hs'. auto.
Qed.

Lemma slot_step w cnt : wheel_ok w → 0 ≤ cnt →
  ∃ chain kept out cs nto, tiw w !! Z.to_nat (tiw_pos w) = Some chain ∧
    bump_slot (cells w) chain cnt (tiw_nto w) = Some (kept, out, cs, nto) ∧
    wheel_ok (Wheel (<[Z.to_nat (tiw_pos w) := kept]> (tiw w)) ((tiw_pos w + 1) mod TIW_SIZE) nto cs (do_time w)) ∧
    (∀ p, cs !! p = tick_slot (tiw_pos w) cnt <$> cells w !! p) ∧ NoDup out ∧
    (∀ p, p ∈ out ↔ ∃ t, cells w !! p = Some t ∧ active t = true ∧ slot t = tiw_pos w ∧ count t < cnt).
Proof.
  intros [Hch Hpos Hcells Hnto Hmem Htime] Hcnt. destruct (chained_lookup _ _ _ Hch Hpos) as (chain & Hc & Hnd & Hel).
  pose proof (due_map_size_le 0 (cells w)) as Hle. unfold timers in Hnto. rewrite (due_map_size _ 0) in Hnto.
  destruct (bump_slot_spec cnt chain (cells w) (tiw_nto w) Hnd) as (cs & nto & E & Hn & Hcs); [|done|lia|].
  { intros p (t & Et & Ha & _)%Hel. by exists t. }
  assert (∀ p, cs !! p = tick_slot (tiw_pos w) cnt <$> cells w !! p) as Hcs'.
  { intros p. rewrite Hcs. unfold tick_slot. destruct (decide (p ∈ chain)) as [Hin|Hout].
    - apply Hel in Hin as (t & -> & Ha & Hs). cbn. by rewrite Ha, Hs, Z.eqb_refl.
    - destruct (cells w !! p) as [t|] eqn:Et; [|done]. cbn. destruct (active t) eqn:Ea; cbn [andb]; [|done].
      destruct (Z.eqb_spec (slot t) (tiw_pos w)); [|done]. destruct Hout. apply Hel. by exists t. }
  eexists chain, _, _, cs, nto. split; [done|]. split; [done|]. split; [split; cbn [tiw tiw_pos cells tiw_nto do_time]|split; [done|split]].
  - by apply chained_tick.
  - apply Z.mod_pos_bound, size_pos.
  - intros p t. rewrite Hcs'. intros (u & Eu & ->)%fmap_Some. specialize (Hcells p u Eu). cbn in Hcells. unfold tick_slot.
    destruct (active u && _); [by apply tick_cell_ok|done].
  - unfold timers. cbn [tiw_pos cells]. by rewrite (due_map_size _ 0).
  - rewrite <- !(size_dom (D := gset Z)) in *. replace (dom cs) with (dom (cells w)); [done|]. apply set_eq. intros p.
    rewrite !elem_of_dom, Hcs', fmap_is_Some. done.
  - done.
  - by apply NoDup_filter.
  - intros p. rewrite list_elem_of_filter, Hel. unfold timed_out. split.
    + intros [Hn' (t & Et & Ha & Hs)]. exists t. rewrite Et in Hn'. by apply Z.ltb_lt in Hn'.
    + intros (t & Et & Ha & Hs & Hlt). rewrite Et. split; [by apply Z.ltb_lt|by exists t].
Qed.

(** ** The loop over the slots *)

(** The counter for the slot at distance [d], when the counter is decreased at distance [r]. *)
Definition used (cnt r d : Z) : Z := if r <=? d then cnt - 1 else cnt.

(** A timer after [n] slots from [pos] on were processed. *)
Definition pass (pos : Z) (n : nat) (cnt r : Z) (t : ErlTimer) : ErlTimer :=
  if active t && (dist pos t <? Z.of_nat n) then tick (used cnt r (dist pos t)) t else t.

Definition leaves (pos : Z) (n : nat) (cnt r : Z) (t : ErlTimer) : Prop :=
  active t = true ∧ dist pos t < Z.of_nat n ∧ count t < used cnt r (dist pos t).

Lemma dist_tick_slot pos pos' cnt t : dist pos (tick_slot pos' cnt t) = dist pos t.
Proof. unfold dist. by rewrite (proj1 (tick_slot_keeps pos' cnt t)). Qed.

Section Step.
Context (pos : Z) (n : nat) (cnt r : Z).
Hypotheses (Hpos : 0 ≤ pos < TIW_SIZE) (Hn : Z.of_nat (S n) ≤ TIW_SIZE) (Hr : 0 ≤ r < TIW_SIZE).
Let pos' := (pos + 1) mod TIW_SIZE.
Let cnt' := if r =? 0 then cnt - 1 else cnt.
Let r' := if r =? 0 then TIW_SIZE - 1 else r - 1.

(** The counter of the next iterations. *)
Lemma used_step d : 0 < d → d < Z.of_nat (S n) → used cnt' r' (d - 1) = used cnt r d.
Proof. intros H1 H2. unfold used. destruct (Z.leb_spec r d), (Z.leb_spec r' (d - 1)); unfold cnt', r' in *; destruct (Z.eqb_spec r 0); lia. Qed.

Lemma used_0 : used cnt r 0 = cnt'.
Proof. unfold used, cnt'. destruct (Z.eqb_spec r 0), (Z.leb_spec r 0); lia. Qed.

Lemma pass_step t : cell_ok t → pass pos' n cnt' r' (tick_slot pos cnt' t) = pass pos (S n) cnt r t.
Proof.
  intros Hok. unfold pass. rewrite dist_tick_slot. unfold tick_slot. destruct (active t) eqn:Ha; cbn [andb]; [|by rewrite Ha].
  destruct (Hok Ha) as [Hs _]. pose proof (dist_range pos t). pose proof (dist_0 pos t Hpos Hs) as H0.
  unfold pos'. rewrite dist_succ by done. destruct (Z.eqb_spec (slot t) pos) as [E|E].
  - rewrite (proj2 H0 E), used_0. replace (TIW_SIZE - 1 <? Z.of_nat n) with false by lia. rewrite andb_false_r.
    by replace (0 <? Z.of_nat (S n)) with true by lia.
  - assert (dist pos t ≠ 0) by tauto. rewrite Ha. cbn [andb]. replace (dist pos t - 1 <? Z.of_nat n) with (dist pos t <? Z.of_nat (S n)) by lia.
    destruct (Z.ltb_spec (dist pos t) (Z.of_nat (S n))); [|done]. by rewrite used_step by lia.
Qed.

Lemma leaves_step t : cell_ok t → leaves pos (S n) cnt r t ↔
  (active t = true ∧ slot t = pos ∧ count t < cnt') ∨ leaves pos' n cnt' r' (tick_slot pos cnt' t).
Proof.
  intros Hok. unfold leaves. rewrite dist_tick_slot. destruct (active t) eqn:Ha.
  2: { split; [by intros (? & _)|]. intros [(? & _)|(Ht & _)]; [done|]. apply tick_slot_keeps in Ht. congruence. }
  destruct (Hok Ha) as [Hs _]. pose proof (dist_range pos t). pose proof (dist_0 pos t Hpos Hs) as H0.
  unfold pos'. rewrite dist_succ by done. unfold tick_slot. rewrite Ha. cbn [andb]. destruct (Z.eqb_spec (slot t) pos) as [E|E].
  - rewrite (proj2 H0 E), used_0. split; [intros (_ & _ & ?); by left|]. intros [(_ & _ & ?)|(_ & ? & _)]; [|lia]. split; [done|lia].
  - assert (dist pos t ≠ 0) by tauto. rewrite Ha. split.
    + intros (_ & Hd & Hu). right. rewrite used_step by lia. split; [done|lia].
    + intros [(_ & ? & _)|(_ & Hd & Hu)]; [done|]. rewrite used_step in Hu by lia. split; [done|lia].
Qed.

End Step.

Lemma rel_pos_step pos keep : 0 ≤ pos < TIW_SIZE → 0 ≤ keep < TIW_SIZE →
  (keep - (pos + 1) mod TIW_SIZE) mod TIW_SIZE = (if (keep - pos) mod TIW_SIZE =? 0 then TIW_SIZE - 1 else (keep - pos) mod TIW_SIZE - 1) ∧
  ((keep - pos) mod TIW_SIZE =? 0) = (pos =? keep).
Proof.
  intros Hp Hk. destruct TIW_SIZE_cases as [E|E]; rewrite E in *; destruct (Z.eqb_spec ((keep - pos) mod 8192) 0);
    destruct (Z.eqb_spec ((keep - pos) mod 65536) 0); Z.div_mod_to_equations; lia.
Qed.

Lemma sorted_weaken {A} (R R' : A → A → Prop) l : StronglySorted R l → (∀ x y, x ∈ l → y ∈ l → R x y → R' x y) → StronglySorted R' l.
Proof.
  induction 1 as [|x l Hs IH Hx]; intros H; constructor.
  - apply IH. intros y z Hy Hz. apply H; by right.
  - apply Forall_forall. intros y Hy. apply H; [by left|by right|]. by eapply Forall_forall in Hx.
Qed.

Lemma sorted_full {A} (R : A → A → Prop) l : (∀ x y, x ∈ l → y ∈ l → R x y) → StronglySorted R l.
Proof.
  induction l as [|x l IH]; intros H; constructor.
  - apply IH. intros y z Hy Hz. apply H; by right.
  - apply Forall_forall. intros y Hy. apply H; [by left|by right].
Qed.

(** The order of the queue: by the distance of the slots. *)
Definition earlier (pos : Z) (cs : gmap Z ErlTimer) (p q : Z) : Prop :=
  ∀ t u, cs !! p = Some t → cs !! q = Some u → dist pos t ≤ dist pos u.

(** What leaves in the first slot comes before what leaves in the others. *)
Lemma sorted_step pos cnt cs cs' out1 out2 : 0 ≤ pos < TIW_SIZE → (∀ p t, cs !! p = Some t → cell_ok t) →
  (∀ p, cs' !! p = tick_slot pos cnt <$> cs !! p) →
  (∀ p, p ∈ out1 → ∃ t, cs !! p = Some t ∧ active t = true ∧ slot t = pos) →
  (∀ p, p ∈ out2 → ∃ t, cs !! p = Some t ∧ active t = true ∧ dist ((pos + 1) mod TIW_SIZE) t < TIW_SIZE - 1) →
  StronglySorted (earlier ((pos + 1) mod TIW_SIZE) cs') out2 → StronglySorted (earlier pos cs) (out1 ++ out2).
Proof.
  intros Hpos Hcell Hcs Hout1 Hout2 Hsort.
  assert (∀ p q, p ∈ out1 → earlier pos cs p q) as Hfirst.
  { intros p q (t & Et & Ha & Hs)%Hout1 t' u Et' Eu. simplify_eq. rewrite (proj2 (dist_0 _ t Hpos (proj1 (Hcell p t Et Ha))) eq_refl). apply dist_range. }
  apply StronglySorted_app. split; [by auto|]. split; [by apply sorted_full; auto|].
  apply (sorted_weaken _ _ _ Hsort). intros p q Hp Hq Hpq t u Et Eu.
  assert (∀ x v, x ∈ out2 → cs !! x = Some v → dist ((pos + 1) mod TIW_SIZE) v = dist pos v - 1) as Hd.
  { intros x v (v' & Ev & Hv & Hd)%Hout2 Ev'. simplify_eq. pose proof (proj1 (Hcell x v' Ev Hv)) as Hs.
    rewrite dist_succ in Hd |- * by done. destruct (slot v' =? _); lia. }
  specialize (Hpq (tick_slot pos cnt t) (tick_slot pos cnt u)). rewrite !Hcs, Et, Eu, !dist_tick_slot in Hpq.
  specialize (Hpq eq_refl eq_refl). rewrite (Hd p t), (Hd q u) in Hpq by done. lia.
Qed.

Lemma bump_loop_spec n : ∀ w cnt keep queue, wheel_ok w → Z.of_nat n ≤ TIW_SIZE → 0 ≤ keep < TIW_SIZE → 0 ≤ cnt < UINT_MAX →
  let r := (keep - tiw_pos w) mod TIW_SIZE in (r < Z.of_nat n → 1 ≤ cnt) →
  ∃ w' out, bump_loop n w cnt keep queue = Some (w', queue ++ out) ∧ wheel_ok w' ∧ do_time w' = do_time w ∧
    (∀ p, cells w' !! p = pass (tiw_pos w) n cnt r <$> cells w !! p) ∧ NoDup out ∧
    (∀ p, p ∈ out ↔ ∃ t, cells w !! p = Some t ∧ leaves (tiw_pos w) n cnt r t) ∧
    StronglySorted (earlier (tiw_pos w) (cells w)) out.
Proof.
  induction n as [|n IH]; intros w cnt keep queue Hok Hn Hk Hc r Hr; cbn [bump_loop].
  { exists w, []. rewrite app_nil_r. split; [done|]. split; [done|]. split; [done|]. split.
    - intros p. destruct (cells w !! p) as [t|]; [|done]. cbn. unfold pass. pose proof (dist_range (tiw_pos w) t).
      replace (dist (tiw_pos w) t <? Z.of_nat 0) with false by lia. by rewrite andb_false_r.
    - split; [constructor|]. split; [|constructor]. intros p. split; [by intros ?%elem_of_nil|].
      intros (t & _ & _ & Hd & _). pose proof (dist_range (tiw_pos w) t). lia. }
  destruct (rel_pos_step (tiw_pos w) keep (wo_pos w Hok) Hk) as [Er Ek]. fold r in Er, Ek.
  assert (0 ≤ r < TIW_SIZE) as Rr by apply Z.mod_pos_bound, size_pos.
  assert ((if tiw_pos w =? keep then Uint (cnt - 1) else cnt) = (if r =? 0 then cnt - 1 else cnt)) as ->.
  { rewrite <- Ek. destruct (Z.eqb_spec r 0); [|done]. apply Uint_small. lia. }
  set (cnt' := if r =? 0 then cnt - 1 else cnt).
  assert (0 ≤ cnt' < UINT_MAX) as Hc' by (unfold cnt'; destruct (Z.eqb_spec r 0); lia).
  destruct (slot_step w cnt' Hok ltac:(lia)) as (chain & kept & out1 & cs & nto & -> & E & Hok1 & Hcs & Nd1 & Hout1).
  cbn [mbind option_bind]. rewrite E. cbn [mbind option_bind]. set (w1 := Wheel _ _ _ _ _) in *.
  destruct (IH w1 cnt' keep (queue ++ out1) Hok1) as (w' & out2 & -> & Hok' & Ht & Hcs' & Nd2 & Hout2 & Hsort); [lia|done|done| |].
  { cbn [w1 tiw_pos]. rewrite Er. unfold cnt'. destruct (Z.eqb_spec r 0); lia. }
  cbn [w1 tiw_pos cells do_time] in *. rewrite Er in Hcs', Hout2.
  assert (∀ p t, cells w !! p = Some t → cell_ok t) as Hcell by (intros p t Et; apply (wo_cells w Hok p t Et)).
  assert (∀ p, p ∈ out2 ↔ ∃ t, cells w !! p = Some t ∧ leaves ((tiw_pos w + 1) mod TIW_SIZE) n cnt' (if r =? 0 then TIW_SIZE - 1 else r - 1) (tick_slot (tiw_pos w) cnt' t)) as Hout2'.
  { intros p. rewrite Hout2. split; [intros (u & Eu & Hl); rewrite Hcs in Eu; apply fmap_Some in Eu as (t & Et & ->); by exists t|].
    intros (t & Et & Hl). eexists. rewrite Hcs, Et. by split. }
  exists w', (out1 ++ out2). rewrite <- app_assoc. split; [done|]. split; [done|]. split; [done|]. split; [|split; [|split]].
  - intros p. rewrite Hcs', Hcs. destruct (cells w !! p) as [t|] eqn:Et; [|done]. cbn [fmap option_fmap option_map]. f_equal.
    apply pass_step; [apply (wo_pos w Hok)|done|done|by eapply Hcell].
  - apply NoDup_app. split; [done|]. split; [|done]. intros p (t & Et & Ha & Hs & Hlt)%Hout1 (t' & Et' & Hl)%Hout2'. simplify_eq.
    destruct Hl as (Ha' & _). unfold tick_slot, tick in Ha'. rewrite Ha, Hs, Z.eqb_refl in Ha'. cbn [andb] in Ha'.
    by replace (count t <? cnt') with true in Ha' by lia.
  - intros p. rewrite elem_of_app, Hout1, Hout2'. split.
    + intros [(t & Et & H)|(t & Et & H)]; exists t; (split; [done|]); apply leaves_step; try done; try apply (wo_pos w Hok); try (by eapply Hcell); tauto.
    + intros (t & Et & H). apply leaves_step in H; [|apply (wo_pos w Hok)|done|done|by eapply Hcell]. destruct H; [left|right]; by exists t.
  - apply (sorted_step _ cnt' _ cs); [apply (wo_pos w Hok)|done|done| | |done].
    + intros p (t & Et & Ha & Hs & _)%Hout1. eauto.
    + intros p (t & Et & Ha & Hd & _)%Hout2'. apply tick_slot_keeps in Ha. rewrite dist_tick_slot in Hd. exists t. repeat split; [done..|lia].
Qed.

(** ** Bumping the wheel *)

(** The slots processed and the counters used are right: what leaves is what is due, and the others are as much closer. *)
Section Bump.
Context (pos dt : Z).
Hypotheses (Hpos : 0 ≤ pos < TIW_SIZE) (Hdt : 0 ≤ dt < UINT_MAX).
Let n := Z.to_nat (if dt >? TIW_SIZE then TIW_SIZE else dt).
Let cnt := dt / TIW_SIZE + 1.
Let r := dt mod TIW_SIZE.

Lemma leaves_due t : cell_ok t → leaves pos n cnt r t ↔ active t = true ∧ due pos t < dt.
Proof.
  intros Hok. unfold leaves. destruct (active t) eqn:Ha; [|by split; intros [? _]]. destruct (Hok Ha) as [_ [Hc _]].
  pose proof (dist_range pos t) as Hd. unfold due, used, n, cnt, r. set (d := dist pos t) in *. clearbody d.
  destruct TIW_SIZE_cases as [E|E]; rewrite E in *; destruct (Z.gtb_spec dt 8192), (Z.gtb_spec dt 65536);
    destruct (Z.leb_spec (dt mod 8192) d), (Z.leb_spec (dt mod 65536) d); Z.div_mod_to_equations; lia.
Qed.

Lemma pass_due t : cell_ok t → active t = true → dt ≤ due pos t →
  active (pass pos n cnt r t) = true ∧ due ((pos + dt) mod TIW_SIZE) (pass pos n cnt r t) = due pos t - dt.
Proof.
  intros Hok Ha Hdue. destruct (Hok Ha) as [Hs [Hc Hc']]. pose proof (leaves_due t Hok) as Hl. unfold leaves in Hl.
  assert (dist ((pos + dt) mod TIW_SIZE) t = if r <=? dist pos t then dist pos t - r else dist pos t - r + TIW_SIZE) as Ed.
  { unfold dist, r. clear - Hpos Hdt Hs. destruct TIW_SIZE_cases as [E|E]; rewrite E in *;
      destruct (Z.leb_spec (dt mod 8192) ((slot t - pos) mod 8192)), (Z.leb_spec (dt mod 65536) ((slot t - pos) mod 65536)); Z.div_mod_to_equations; lia. }
  unfold pass. rewrite Ha. cbn [andb]. destruct (Z.ltb_spec (dist pos t) (Z.of_nat n)) as [Hd|Hd].
  - assert (used cnt r (dist pos t) ≤ count t) as Hu by lia.
    assert (0 ≤ used cnt r (dist pos t)) as Hu0 by (unfold used, cnt, r; destruct (Z.leb_spec (dt mod TIW_SIZE) (dist pos t)); pose proof (Z.div_pos dt TIW_SIZE); pose proof size_pos; lia).
    unfold tick. replace (count t <? used cnt r (dist pos t)) with false by lia. split; [done|]. unfold due in *. cbn [count].
    change (dist ?a (Timer (slot t) _ _ _ _ _)) with (dist a t). rewrite Ed, Uint_small by lia. unfold used in *.
    pose proof (Z.div_mod dt TIW_SIZE). pose proof size_pos. unfold cnt, r in *. destruct (dt mod TIW_SIZE <=? dist pos t); nia.
  - split; [done|]. unfold due in *. rewrite Ed. unfold r. pose proof (dist_range pos t).
    unfold n in Hd. destruct (Z.gtb_spec dt TIW_SIZE); [lia|]. destruct (Z.eqb_spec dt TIW_SIZE); [lia|].
    rewrite Z.mod_small by lia. replace (dt <=? dist pos t) with true by lia. lia.
Qed.

End Bump.

(** ** The callbacks *)

(** Cells that differ only where no timer is active. *)
Definition same_active (cs cs' : gmap Z ErlTimer) : Prop :=
  ∀ p, cs' !! p = cs !! p ∨ ∃ t t', cs !! p = Some t ∧ cs' !! p = Some t' ∧ active t = false ∧ active t' = false.

Lemma same_active_find cs cs' p (P : ErlTimer → Prop) : same_active cs cs' →
  (∃ t, cs !! p = Some t ∧ active t = true ∧ P t) ↔ (∃ t, cs' !! p = Some t ∧ active t = true ∧ P t).
Proof. intros H. destruct (H p) as [->|(t & t' & -> & -> & Ha & Ha')]; [done|]. split; intros (u & Eu & Hu & _); simplify_eq; congruence. Qed.

Lemma same_active_dom cs cs' : same_active cs cs' → dom cs' = dom cs.
Proof.
  intros H. apply set_eq. intros p. rewrite !elem_of_dom. destruct (H p) as [->|(t & t' & -> & -> & _)]; [done|]. split; by eexists.
Qed.

Lemma same_active_due cs cs' pos : same_active cs cs' → due_map pos cs' = due_map pos cs.
Proof.
  intros H. apply map_eq. intros p. rewrite !due_map_lookup. destruct (H p) as [->|(t & t' & -> & -> & Ha & Ha')]; [done|].
  cbn. unfold due_if_active. by rewrite Ha, Ha'.
Qed.

Lemma same_active_chained ch cs cs' : same_active cs cs' → chained ch cs → chained ch cs'.
Proof.
  intros H [L N E]. split; [done..|]. intros i chain p Hi. rewrite (E i chain p Hi). by apply same_active_find.
Qed.

Lemma same_active_cells cs cs' : same_active cs cs' → map_Forall (λ _, cell_ok) cs → map_Forall (λ _, cell_ok) cs'.
Proof.
  intros H Hc p t Et. destruct (H p) as [E|(u & u' & _ & Eu & _ & Ha)]; [rewrite E in Et; by apply (Hc p)|].
  simplify_eq. unfold cell_ok. congruence.
Qed.

Definition called (cs : gmap Z ErlTimer) (p : Z) (c : call) : Prop := ∃ t, cs !! p = Some t ∧ c = (timeout t, arg t).

Lemma called_ext (cs cs' : gmap Z ErlTimer) (queue : list Z) calls :
  (∀ p c, p ∈ queue → called cs p c → called cs' p c) → Forall2 (called cs) queue calls → Forall2 (called cs') queue calls.
Proof.
  intros H. induction 1 as [|p c queue calls Hp _ IH]; constructor; [apply H; [by left|done]|]. apply IH. intros q d Hq. apply H. by right.
Qed.

Lemma run_timeouts_spec queue : ∀ cs, NoDup queue → (∀ p, p ∈ queue → ∃ t, cs !! p = Some t ∧ active t = false) →
  ∃ cs' calls, run_timeouts cs queue = Some (cs', calls) ∧ same_active cs cs' ∧ Forall2 (called cs) queue calls.
Proof.
  induction queue as [|p queue IH]; intros cs Hnd Hin; cbn [run_timeouts].
  { exists cs, []. split; [done|]. split; [by left|constructor]. }
  apply NoDup_cons in Hnd as [Hp Hnd]. destruct (Hin p) as (t & Et & Ha); [by left|]. rewrite Et. cbn [mbind option_bind].
  set (cs1 := <[p := _]> cs). assert (∀ q, q ≠ p → cs1 !! q = cs !! q) as Hne by (intros q Hq; by apply lookup_insert_ne).
  destruct (IH cs1 Hnd) as (cs' & calls & -> & Hs & Hc).
  { intros q Hq. rewrite Hne by congruence. apply Hin. by right. }
  eexists cs', _. split; [reflexivity|]. split.
  - intros q. destruct (decide (q = p)) as [->|Hq]; [right|].
    + destruct (Hs p) as [E|(u & u' & Eu & Eu' & Hu & Hu')]; unfold cs1 in *; rewrite lookup_insert_eq in *.
      * eexists _, _. split; [done|]. split; [done|]. split; [done|]. done.
      * eexists _, _. split; [done|]. split; [done|]. done.
    + rewrite <- (Hne q Hq). apply Hs.
  - constructor; [by exists t|]. apply (called_ext cs1); [|done]. intros q c Hq (u & Eu & ->). exists u.
    rewrite Hne in Eu; [done|]. by intros ->.
Qed.

(** ** Bumping, as a whole *)
Lemma pass_keeps pos n cnt r t : timeout (pass pos n cnt r t) = timeout t ∧ arg (pass pos n cnt r t) = arg t ∧
  (active (pass pos n cnt r t) = true → active t = true).
Proof. unfold pass, tick. destruct (active t && _) eqn:E; [apply andb_true_iff in E as [E _]|done]. by destruct (count t <? _). Qed.

Lemma leaves_inactive pos n cnt r t : leaves pos n cnt r t → active (pass pos n cnt r t) = false.
Proof.
  intros (Ha & Hd & Hc). unfold pass, tick. rewrite Ha. replace (dist pos t <? Z.of_nat n) with true by lia.
  by replace (count t <? used cnt r (dist pos t)) with true by lia.
Qed.

Definition bumped (m : gmap Z Z) (dt : Z) : gmap Z Z := (λ d, d - dt) <$> filter (λ kd : Z * Z, dt ≤ kd.2) m.

Lemma bumped_pass cs cs' pos dt : 0 ≤ pos < TIW_SIZE → 0 ≤ dt < UINT_MAX → map_Forall (λ _, cell_ok) cs →
  (∀ p, cs' !! p = pass pos (Z.to_nat (if dt >? TIW_SIZE then TIW_SIZE else dt)) (dt / TIW_SIZE + 1) (dt mod TIW_SIZE) <$> cs !! p) →
  due_map ((pos + dt) mod TIW_SIZE) cs' = bumped (due_map pos cs) dt.
Proof.
  intros Hpos Hdt Hok Hcs. apply map_eq. intros p. unfold bumped. rewrite lookup_fmap, map_lookup_filter, !due_map_lookup, Hcs.
  destruct (cs !! p) as [t|] eqn:Et; [|done]. specialize (Hok p t Et). cbn [fmap option_fmap option_map mbind option_bind] in *.
  pose proof (leaves_due pos dt Hpos Hdt t Hok) as Hl. pose proof (pass_due pos dt Hpos Hdt t Hok) as Hp.
  set (t' := pass _ _ _ _ _) in *. unfold due_if_active. destruct (active t) eqn:Ha; cbn [mbind option_bind].
  - destruct (decide (dt ≤ due pos t)) as [Hge|Hlt].
    + destruct (Hp eq_refl Hge) as [-> ->]. by rewrite option_guard_True.
    + assert (active t' = false) as -> by (apply leaves_inactive, Hl; split; [done|lia]). by rewrite option_guard_False.
  - destruct (active t') eqn:Ha'; [|done]. apply pass_keeps in Ha'. congruence.
Qed.

End Wheel.
