(* ===== verification/TimerOps.v ===== *)
(** The operations of the timing wheel on the map of the timers. *)

From Stdlib Require Import ZArith ZifyBool.
From stdpp Require Import base list numbers option gmap sorting.
From S2P Require Import Prelude Timer TimerSpec.
Local Open Scope Z_scope.

Section Wheel.
Context {tc : TimerConfig}.

Lemma no_timers w : wheel_ok w → (tiw_nto w =? 0) = true ↔ timers w = ∅.
Proof. intros Hok. rewrite Z.eqb_eq, (wo_nto w Hok). rewrite <- map_size_empty_iff. lia. Qed.

(** ** [bump_timer] *)
Definition due_order (m : gmap Z Z) (p q : Z) : Prop := ∀ d e, m !! p = Some d → m !! q = Some e → d ≤ e.

Lemma due_order_dist w dt queue : wheel_ok w → dt ≤ TIW_SIZE → (∀ p, p ∈ queue → ∃ d, timers w !! p = Some d ∧ d < dt) →
  StronglySorted (earlier (tiw_pos w) (cells w)) queue → StronglySorted (due_order (timers w)) queue.
Proof.
  intros Hok Hdt Hq Hs. apply (sorted_weaken _ _ _ Hs). intros p q Hp Hq' He d e (t & Et & Ha & <-)%timers_Some (u & Eu & Hu & <-)%timers_Some.
  specialize (He t u Et Eu). pose proof size_pos.
  assert (∀ x v, x ∈ queue → cells w !! x = Some v → active v = true → due (tiw_pos w) v = dist (tiw_pos w) v) as Hcount.
  { intros x v (d & (v' & Ev & Hv & Ed)%timers_Some & Hd)%Hq Ev' _. assert (v' = v) as -> by congruence. subst d. destruct (wo_cells w Hok x v Ev Hv) as [_ [Hc _]].
    unfold due in *. pose proof (dist_range (tiw_pos w) v). assert (count v = 0) as -> by nia. lia. }
  rewrite (Hcount p t), (Hcount q u) by done. done.
Qed.

Lemma bump_timer_spec w dt : wheel_ok w → 0 ≤ dt < UINT_MAX →
  ∃ w' queue calls, bump_timer w dt = Some (w', queue, calls) ∧ wheel_ok w' ∧ do_time w' = do_time w ∧
    dom (cells w') = dom (cells w) ∧ timers w' = bumped (timers w) dt ∧ NoDup queue ∧
    (∀ p, p ∈ queue ↔ ∃ d, timers w !! p = Some d ∧ d < dt) ∧ Forall2 (called (cells w)) queue calls ∧
    (dt ≤ TIW_SIZE → StronglySorted (due_order (timers w)) queue).
Proof.
  intros Hok Hdt. pose proof size_pos as HS. unfold bump_timer, bump_timer_internal. rewrite (Uint_small dt) by done.
  destruct (tiw_nto w =? 0) eqn:E0.
  { pose proof (proj1 (no_timers w Hok) E0) as Em. exists w, [], []. split; [done|]. split; [done|]. split; [done|]. split; [done|].
    split; [unfold bumped; by rewrite Em, map_filter_empty, fmap_empty|]. split; [constructor|].
    split; [intros p; rewrite Em; split; [by intros ?%elem_of_nil|by intros (d & ? & _)]|]. split; [constructor|]. intros _. constructor. }
  clear E0. pose proof Hok as [Hch Hpos Hcells Hnto Hmem Htime].
  assert (0 ≤ dt / TIW_SIZE ≤ dt) as Hq by (split; [apply Z.div_pos; lia|apply Z.div_le_upper_bound; nia]).
  assert (dt / TIW_SIZE + 1 < UINT_MAX) as Hq1.
  { pose proof UINT_MAX_ge. assert (dt / TIW_SIZE < UINT_MAX - 1); [|lia]. apply Z.div_lt_upper_bound; [lia|]. destruct TIW_SIZE_cases; lia. }
  rewrite (Uint_small (_ + 1)) by lia. unfold Uint at 1 2. rewrite wrap_mod_size by apply UINT_BITS_cases.
  assert (((tiw_pos w + dt) mod TIW_SIZE - tiw_pos w) mod TIW_SIZE = dt mod TIW_SIZE) as Er.
  { rewrite Zminus_mod_idemp_l. f_equal. lia. }
  set (n := Z.to_nat _). assert (Z.of_nat n ≤ TIW_SIZE) as Hn by (unfold n; destruct (Z.gtb_spec dt TIW_SIZE); lia).
  destruct (bump_loop_spec n w (dt / TIW_SIZE + 1) ((tiw_pos w + dt) mod TIW_SIZE) [] Hok Hn) as (w1 & queue & -> & Hok1 & Ht1 & Hcs1 & Hnd & Hout & Hsort);
    [by apply Z.mod_pos_bound|lia|lia|]. rewrite Er in Hcs1, Hout. cbn [mbind option_bind app].
  assert (∀ p, p ∈ queue ↔ ∃ d, timers w !! p = Some d ∧ d < dt) as Hqueue.
  { intros p. rewrite Hout. unfold timers. split.
    - intros (t & Et & Hl). apply leaves_due in Hl as [Ha Hd]; [|done..|by apply (Hcells p)]. eexists. split; [apply timers_Some; by exists t|done].
    - intros (d & (t & Et & Ha & <-)%timers_Some & Hd). exists t. split; [done|]. apply leaves_due; [done..|by apply (Hcells p)|done]. }
  destruct (run_timeouts_spec queue (cells w1) Hnd) as (cs & calls & -> & Hsame & Hcalls).
  { intros p (t & Et & Hl)%Hout. eexists. rewrite Hcs1, Et. split; [done|]. by apply leaves_inactive. }
  eexists _, queue, calls. split; [reflexivity|]. cbn [mbind option_bind do_time cells].
  assert (dom (cells w1) = dom (cells w)) as Hdom by (apply set_eq; intros p; by rewrite !elem_of_dom, Hcs1, fmap_is_Some).
  pose proof (same_active_dom _ _ Hsame) as Hdom'.
  split; [split; cbn [tiw tiw_pos cells tiw_nto do_time]|].
  - by apply (same_active_chained _ (cells w1)), (wo_chained w1).
  - by apply Z.mod_pos_bound.
  - by apply (same_active_cells (cells w1)), (wo_cells w1).
  - unfold timers. cbn [tiw_pos cells]. rewrite (same_active_due (cells w1)) by done. rewrite (due_map_size _ (tiw_pos w1)). by apply (wo_nto w1).
  - rewrite <- (size_dom (D := gset Z)) in *. rewrite Hdom', Hdom. done.
  - lia.
  - split; [done|]. split; [congruence|]. split.
    { unfold timers. cbn [tiw_pos cells]. rewrite (same_active_due (cells w1)) by done. by apply bumped_pass. }
    split; [done|]. split; [done|]. split; [|intros Hle; eapply due_order_dist; try done; by intros p ?%Hqueue].
    apply (called_ext (cells w1)); [|done]. intros p c _ (t & Et & ->). rewrite Hcs1 in Et. apply fmap_Some in Et as (u & Eu & ->).
    destruct (pass_keeps (tiw_pos w) n (dt / TIW_SIZE + 1) (dt mod TIW_SIZE) u) as (-> & -> & _). by exists u.
Qed.

(** ** Setting and cancelling *)

(** Chains and cells with the timer [p] added to or removed from a slot. *)
Lemma chained_change ch cs p t' i (chain chain' : list Z) : chained ch cs → 0 ≤ i < TIW_SIZE → ch !! Z.to_nat i = Some chain → NoDup chain' →
  (∀ q, q ≠ p → q ∈ chain' ↔ q ∈ chain) → (p ∈ chain' ↔ active t' = true) → (active t' = true → slot t' = i) →
  (∀ t, cs !! p = Some t → active t = true → slot t = i) →
  chained (<[Z.to_nat i := chain']> ch) (<[p := t']> cs).
Proof.
  intros [L N E] Hi Hc Hnd Hother Hp Hslot Hold. split; [by rewrite length_insert| |].
  - intros j c. destruct (decide (j = Z.to_nat i)) as [->|Hne]; [|rewrite list_lookup_insert_ne by done; apply N].
    rewrite list_lookup_insert_eq by lia. by intros [= <-].
  - intros j c q Hj. destruct (decide (q = p)) as [->|Hq].
    + rewrite lookup_insert_eq. destruct (decide (j = Z.to_nat i)) as [->|Hne].
      * rewrite list_lookup_insert_eq in Hj by lia. injection Hj as <-. rewrite Hp. split.
        -- intros Ha. exists t'. split; [done|]. split; [done|]. rewrite Hslot by done. lia.
        -- by intros (t & [= <-] & Ha & _).
      * rewrite list_lookup_insert_ne in Hj by done. rewrite (E j c p Hj). split.
        -- intros (t & Et & Ha & Hs). specialize (Hold t Et Ha). lia.
        -- intros (t & [= <-] & Ha & Hs). specialize (Hslot Ha). lia.
    + rewrite lookup_insert_ne by done. destruct (decide (j = Z.to_nat i)) as [->|Hne].
      * rewrite list_lookup_insert_eq in Hj by lia. injection Hj as <-. rewrite Hother by done. by apply E.
      * rewrite list_lookup_insert_ne in Hj by done. by apply E.
Qed.

(** The ticks of a timeout in ms, rounded up. *)
Definition ticks_of (tmo : Z) : Z := (tmo + itime - 1) / itime.

Definition fits (w : wheel) (tmo : Z) : Prop :=
  0 ≤ tmo ∧ tmo + itime - 1 < UINT_MAX ∧ do_time w < UINT_MAX ∧ ticks_of tmo + do_time w < 2 ^ 64.

Lemma insert_ticks w tmo : wheel_ok w → fits w tmo →
  Uint64 (Uint (Uint (tmo + itime) - 1) / itime + do_time w) = ticks_of tmo + do_time w ∧ 0 ≤ ticks_of tmo + do_time w ∧
  (ticks_of tmo + do_time w) / TIW_SIZE < UINT_MAX.
Proof.
  intros Hok (H0 & H1 & H2 & H3). pose proof itime_range. pose proof (wo_time w Hok). pose proof size_pos. pose proof UINT_MAX_ge.
  assert (Uint (Uint (tmo + itime) - 1) = tmo + itime - 1) as ->.
  { unfold Uint, wrap_u. rewrite Zminus_mod_idemp_l. apply Z.mod_small. unfold UINT_MAX in *. lia. }
  fold (ticks_of tmo). assert (0 ≤ ticks_of tmo) by (apply Z.div_pos; lia).
  assert (ticks_of tmo ≤ tmo + itime - 1) by (apply Z.div_le_upper_bound; nia).
  split; [apply wrap_u_small; lia|]. split; [lia|]. apply Z.div_lt_upper_bound; [lia|]. destruct TIW_SIZE_cases; lia.
Qed.

Lemma erl_set_timer_spec w p f c a tmo : wheel_ok w → p ∈ dom (cells w) → fits w tmo →
  ∃ w', erl_set_timer w p f c a tmo = Some w' ∧ wheel_ok w' ∧ do_time w' = do_time w ∧ dom (cells w') = dom (cells w) ∧
    timers w' = (if decide (is_Some (timers w !! p)) then timers w else <[p := ticks_of tmo + do_time w]> (timers w)).
Proof.
  intros Hok [t Et]%elem_of_dom Hfit. pose proof size_pos as HS. unfold erl_set_timer. rewrite Et. cbn [mbind option_bind].
  destruct (active t) eqn:Ha.
  { exists w. repeat (split; [done|]). rewrite decide_True; [done|]. eexists. apply timers_Some. by exists t. }
  assert (timers w !! p = None) as Hnone.
  { apply eq_None_not_Some. intros [d (u & Eu & Hu & _)%timers_Some]. congruence. }
  rewrite decide_False by (rewrite Hnone; by intros [? ?]). unfold insert_timer. cbn [active timeout cancel arg].
  destruct (insert_ticks w tmo Hok Hfit) as (-> & Hk & Hcount). set (k := ticks_of tmo + do_time w) in *.
  pose proof Hok as [Hch Hpos Hcells Hnto Hmem Htime]. unfold Uint64. rewrite wrap_mod_size by (by right).
  set (i := (k + tiw_pos w) mod TIW_SIZE). assert (0 ≤ i < TIW_SIZE) as Hi by by apply Z.mod_pos_bound.
  assert (0 ≤ k / TIW_SIZE) as Hq by (apply Z.div_pos; lia). rewrite (Uint_small (k / TIW_SIZE)) by lia.
  destruct (chained_lookup _ _ i Hch Hi) as (chain & Hc & Hnd & Hel). rewrite Hc. cbn [mbind option_bind].
  assert (p ∉ chain) as Hp by (intros (u & Eu & Hu & _)%Hel; congruence).
  assert (due (tiw_pos w) (Timer i (k / TIW_SIZE) true f c a) = k) as Hdue.
  { unfold due, dist. cbn [slot count]. unfold i. rewrite Zminus_mod_idemp_l. replace (k + tiw_pos w - tiw_pos w) with k by lia.
    pose proof (Z.div_mod k TIW_SIZE). lia. }
  assert (size (<[p := k]> (timers w)) = S (size (timers w))) as Hsz by (by apply map_size_insert_None).
  assert (S (size (timers w)) ≤ size (cells w))%nat as Hle.
  { rewrite <- Hsz. rewrite <- !(size_dom (D := gset Z)). apply subseteq_size. intros q. rewrite dom_insert, elem_of_union, elem_of_singleton, !elem_of_dom.
    intros [->|[d (u & Eu & _)%timers_Some]]; by eexists. }
  eexists. split; [reflexivity|]. cbn [do_time cells]. split; [split; cbn [tiw tiw_pos cells tiw_nto do_time]|].
  - apply (chained_change _ _ _ _ _ chain); try done.
    + by apply NoDup_cons.
    + intros q Hq'. rewrite elem_of_cons. tauto.
    + rewrite elem_of_cons. cbn. tauto.
    + intros u Eu Hu. congruence.
  - done.
  - apply map_Forall_insert_2; [|done]. unfold cell_ok. cbn. lia.
  - unfold timers. cbn [tiw_pos cells]. rewrite due_map_insert_active, Hdue by done. fold (timers w). rewrite Hsz. rewrite Uint_small by lia. lia.
  - rewrite map_size_insert_Some by eauto. done.
  - done.
  - split; [done|]. split; [rewrite dom_insert_lookup_L by eauto; done|]. unfold timers. cbn [tiw_pos cells].
    by rewrite due_map_insert_active, Hdue by done.
Qed.

Lemma unchain_spec p chain : NoDup chain → p ∈ chain → ∃ chain', unchain p chain = Some chain' ∧ NoDup chain' ∧ (p ∉ chain') ∧
  (∀ q, q ≠ p → q ∈ chain' ↔ q ∈ chain).
Proof.
  induction chain as [|x chain IH]; intros Hnd Hp; [by apply elem_of_nil in Hp|]. apply NoDup_cons in Hnd as [Hx Hnd]. cbn [unchain].
  destruct (Z.eqb_spec x p) as [->|Hne].
  - exists chain. split; [done|]. split; [done|]. split; [done|]. intros q Hq. rewrite elem_of_cons. tauto.
  - apply elem_of_cons in Hp as [->|Hp]; [done|]. destruct (IH Hnd Hp) as (chain' & -> & Hnd' & Hp' & Hother).
    assert (x ∉ chain') by (by rewrite Hother).
    exists (x :: chain'). split; [done|]. split; [by apply NoDup_cons|]. split; [apply not_elem_of_cons; by split; [intros ->|]|].
    intros q Hq. rewrite !elem_of_cons, Hother by done. done.
Qed.

Lemma erl_cancel_timer_spec w p t : wheel_ok w → cells w !! p = Some t →
  ∃ w' calls, erl_cancel_timer w p = Some (w', calls) ∧ wheel_ok w' ∧ do_time w' = do_time w ∧ dom (cells w') = dom (cells w) ∧
    timers w' = delete p (timers w) ∧
    calls = (if active t then match cancel t with Some f => [(f, arg t)] | None => [] end else []).
Proof.
  intros Hok Et. unfold erl_cancel_timer. rewrite Et. cbn [mbind option_bind]. destruct (active t) eqn:Ha; cbn [negb].
  2: { exists w, []. repeat (split; [done|]). split; [|done]. symmetry. apply delete_id, eq_None_not_Some.
       intros [d (u & Eu & Hu & _)%timers_Some]. congruence. }
  pose proof Hok as [Hch Hpos Hcells Hnto Hmem Htime]. destruct (Hcells p t Et Ha) as [Hs _].
  destruct (chained_lookup _ _ _ Hch Hs) as (chain & Hc & Hnd & Hel). rewrite Hc. cbn [mbind option_bind].
  destruct (unchain_spec p chain Hnd) as (chain' & -> & Hnd' & Hp' & Hother); [apply Hel; by exists t|].
  assert (timers w !! p = Some (due (tiw_pos w) t)) as Ep by (apply timers_Some; by exists t).
  assert (size (timers w) ≠ 0%nat) as Hsz by (intros H0%map_size_empty_inv; by rewrite H0 in Ep).
  pose proof (due_map_size_le (tiw_pos w) (cells w)) as Hle. fold (timers w) in Hle.
  eexists _, _. split; [reflexivity|]. cbn [do_time cells]. split; [split; cbn [tiw tiw_pos cells tiw_nto do_time]|].
  - apply (chained_change _ _ _ _ _ chain); try done. intros u Eu Hu. by simplify_eq.
  - done.
  - apply map_Forall_insert_2; [|done]. unfold cell_ok. done.
  - unfold timers. cbn [tiw_pos cells]. rewrite due_map_insert_inactive by done. fold (timers w). rewrite map_size_delete_Some by eauto.
    rewrite Uint_small by lia. lia.
  - rewrite map_size_insert_Some by eauto. done.
  - done.
  - split; [done|]. split; [rewrite dom_insert_lookup_L by eauto; done|]. split; [|done]. unfold timers. cbn [tiw_pos cells].
    by rewrite due_map_insert_inactive by done.
Qed.

Lemma time_left_spec w p d : wheel_ok w → timers w !! p = Some d → d < UINT_MAX →
  time_left w p = Some (Uint (Z.max (d - do_time w) 0 * itime)).
Proof.
  intros Hok (t & Et & Ha & <-)%timers_Some Hd. unfold time_left. rewrite Et. cbn [mbind option_bind]. rewrite Ha. cbn [negb].
  pose proof Hok as [Hch Hpos Hcells Hnto Hmem Htime]. destruct (Hcells p t Et Ha) as [Hs [Hc _]]. pose proof (dist_range (tiw_pos w) t).
  pose proof size_pos. f_equal.
  assert ((if slot t <? tiw_pos w then Uint (Uint (Uint ((count t + 1) * TIW_SIZE) + slot t) - tiw_pos w)
    else Uint (Uint (Uint (count t * TIW_SIZE) + slot t) - tiw_pos w)) = due (tiw_pos w) t) as ->.
  { rewrite <- (Uint_small (due (tiw_pos w) t)) by (unfold due in *; nia). unfold Uint, wrap_u.
    unfold due, dist. destruct (Z.ltb_spec (slot t) (tiw_pos w)); rewrite Zminus_mod_idemp_l, <- Z.add_sub_assoc, Zplus_mod_idemp_l; f_equal.
    - replace ((slot t - tiw_pos w) mod TIW_SIZE) with (slot t - tiw_pos w + TIW_SIZE); [ring|]. apply (Z.mod_unique_pos _ _ (-1)); lia.
    - rewrite Z.mod_small by lia. ring. }
  unfold due in *. destruct (Z.ltb_spec (count t * TIW_SIZE + dist (tiw_pos w) t) (do_time w)).
  - rewrite Z.max_r by lia. done.
  - rewrite Z.max_l by lia. rewrite (Uint_small (_ - do_time w)) by nia. done.
Qed.

(** ** [next_time] *)
Definition UINT_CAP : Z := 4294967295.

(** [min] is the smallest due time of the timers in [l], but not more than the largest [unsigned int]. *)
Definition min_due (w : wheel) (l : list Z) (min : Z) : Prop :=
  min ≤ UINT_CAP ∧ (∀ p d, p ∈ l → timers w !! p = Some d → min ≤ d) ∧
  (min = UINT_CAP ∨ ∃ p, p ∈ l ∧ timers w !! p = Some min).

Lemma min_due_cons w l min p d : min_due w l min → timers w !! p = Some d → 0 ≤ d →
  min_due w (l ++ [p]) (if d <? min then wrap_u 32 d else min).
Proof.
  intros (Hcap & Hle & Hin) Ep Hd. unfold min_due.
  assert (∀ q e, q ∈ l ++ [p] → timers w !! q = Some e → Z.min d min ≤ e) as Hmin.
  { intros q e. rewrite elem_of_app, list_elem_of_singleton. intros [Hq| ->] Ee; [specialize (Hle q e Hq Ee); lia|]. assert (e = d) as -> by congruence. lia. }
  destruct (Z.ltb_spec d min).
  - rewrite wrap_u_small by (unfold UINT_CAP in *; lia). split; [lia|]. split; [intros q e Hq Ee; specialize (Hmin q e Hq Ee); lia|].
    right. exists p. rewrite elem_of_app, list_elem_of_singleton. tauto.
  - split; [done|]. split; [intros q e Hq Ee; specialize (Hmin q e Hq Ee); lia|]. destruct Hin as [?|(q & Hq & Eq)]; [by left|right].
    exists q. rewrite elem_of_app. tauto.
Qed.

(** A slot at distance [tm]: a timer that is due then is found, or all are seen. *)
Lemma next_in_slot_spec w tm chain : ∀ l nto min, wheel_ok w → (∀ p d, timers w !! p = Some d → d < UINT_MAX) →
  (∀ p, p ∈ chain → ∃ t, cells w !! p = Some t ∧ active t = true ∧ dist (tiw_pos w) t = tm) →
  nto = zlen l → min_due w l min →
  (next_in_slot (cells w) chain tm nto min = Some (inr tt) ∧ ∃ p, timers w !! p = Some tm) ∨
  (∃ min', next_in_slot (cells w) chain tm nto min = Some (inl (zlen (l ++ chain), min')) ∧ min_due w (l ++ chain) min' ∧
    ∀ p d, p ∈ chain → timers w !! p = Some d → TIW_SIZE ≤ d).
Proof.
  induction chain as [|p chain IH]; intros l nto min Hok Hfit Hin Hn Hmin; cbn [next_in_slot].
  { right. exists min. rewrite app_nil_r, Hn. split; [done|]. split; [done|]. by intros p d ?%elem_of_nil. }
  destruct (Hin p) as (t & Et & Ha & Hd); [by left|]. rewrite Et. cbn [mbind option_bind].
  assert (timers w !! p = Some (due (tiw_pos w) t)) as Ep by (apply timers_Some; by exists t).
  destruct (wo_cells w Hok p t Et Ha) as [Hs [Hc _]]. pose proof (dist_range (tiw_pos w) t) as Rd. pose proof size_pos.
  destruct (Z.eqb_spec (count t) 0) as [E0|E0].
  { left. split; [done|]. exists p. rewrite Ep. unfold due. rewrite E0, Hd. f_equal. }
  assert (Uint (tm + Uint (count t * TIW_SIZE)) = due (tiw_pos w) t) as ->.
  { specialize (Hfit p _ Ep). unfold due in *. rewrite Hd in *. rewrite (Uint_small (count t * _)) by nia. rewrite Uint_small by nia. lia. }
  pose proof (min_due_cons w l min p _ Hmin Ep ltac:(unfold due; nia)) as Hmin1. set (min1 := if _ <? _ then _ else _) in *.
  destruct (IH (l ++ [p]) (nto + 1) min1 Hok Hfit) as [[E He]|(min' & E & Hmin' & Hge)]; [| |done| |].
  - intros q Hq. apply Hin. by right.
  - rewrite length_app. cbn. lia.
  - left. by split.
  - right. exists min'. rewrite <- app_assoc in *. split; [done|]. split; [done|]. intros q d [->|Hq]%elem_of_cons Eq; [|by eapply Hge].
    rewrite Ep in Eq. injection Eq as <-. unfold due. nia.
Qed.

(** All timers are in a list of distinct timers as long as the map. *)
Lemma all_seen (m : gmap Z Z) (l : list Z) : NoDup l → (∀ p, p ∈ l → is_Some (m !! p)) → length l = size m → ∀ p, is_Some (m !! p) → p ∈ l.
Proof.
  intros Hnd Hin Hlen p Hp. assert (list_to_set l = dom m) as E.
  { apply set_subseteq_size_eq; [intros q; rewrite elem_of_list_to_set, elem_of_dom; apply Hin|]. rewrite size_list_to_set, size_dom by done. lia. }
  rewrite <- elem_of_dom, <- E, elem_of_list_to_set in Hp. done.
Qed.

(** The result: the smallest due time of all timers, or the cap. *)
Definition first_due (m : gmap Z Z) (min : Z) : Prop :=
  min ≤ UINT_CAP ∧ (∀ p d, m !! p = Some d → min ≤ d) ∧ (min = UINT_CAP ∨ ∃ p, m !! p = Some min).

Lemma next_loop_spec fuel : ∀ w tm l min, wheel_ok w → (∀ p d, timers w !! p = Some d → d < UINT_MAX) →
  0 ≤ tm → Z.of_nat fuel = TIW_SIZE - tm → (0 < fuel)%nat → NoDup l → min_due w l min →
  (∀ p, p ∈ l ↔ ∃ t, cells w !! p = Some t ∧ active t = true ∧ dist (tiw_pos w) t < tm) →
  (∀ p d, p ∈ l → timers w !! p = Some d → TIW_SIZE ≤ d) →
  ∃ m, next_loop fuel w ((tiw_pos w + tm) mod TIW_SIZE) tm (zlen l) min = Some m ∧ first_due (timers w) m.
Proof.
  induction fuel as [|fuel IH]; intros w tm l min Hok Hfit Htm Hf Hpos Hnd Hmin Hl Hge; [lia|]. clear Hpos. cbn [next_loop].
  pose proof Hok as [Hch Hpos Hcells Hnto Hmem Htime]. pose proof size_pos as HS.
  assert (0 ≤ (tiw_pos w + tm) mod TIW_SIZE < TIW_SIZE) as Hi by by apply Z.mod_pos_bound.
  destruct (chained_lookup _ _ _ Hch Hi) as (chain & -> & Hndc & Hel). cbn [mbind option_bind].
  assert (∀ p, p ∈ chain ↔ ∃ t, cells w !! p = Some t ∧ active t = true ∧ dist (tiw_pos w) t = tm) as Hel'.
  { intros p. rewrite Hel. split; intros (t & Et & Ha & Hs); exists t; (split; [done|split; [done|]]); destruct (Hcells p t Et Ha) as [Rs _];
      revert Hs; unfold dist; clear - Rs Hpos Htm Hf; destruct TIW_SIZE_cases as [E|E]; rewrite E in *; Z.div_mod_to_equations; lia. }
  destruct (next_in_slot_spec w tm chain l (zlen l) min Hok Hfit) as [[-> [p Ep]]|(min' & -> & Hmin' & Hge')]; [by intros p ?%Hel'|done|done| |].
  { exists tm. split; [done|]. split; [destruct TIW_SIZE_cases; unfold UINT_CAP; lia|]. split; [|right; by exists p].
    intros q d Eq. destruct (timers_Some (tiw_pos w) (cells w) q d) as [(t & Et & Ha & <-) _]; [done|].
    destruct (Z.lt_ge_cases (dist (tiw_pos w) t) tm); [|unfold due; destruct (Hcells q t Et Ha) as [_ [Hc _]]; nia].
    assert (TIW_SIZE ≤ due (tiw_pos w) t); [|lia]. apply (Hge q); [apply Hl; by exists t|done]. }
  cbn [mbind option_bind].
  assert (NoDup (l ++ chain)) as Hnd'.
  { apply NoDup_app. split; [done|]. split; [|done]. intros p (t & Et & _ & Hd)%Hl (u & Eu & _ & Hd')%Hel'. simplify_eq. lia. }
  assert (∀ p, p ∈ l ++ chain ↔ ∃ t, cells w !! p = Some t ∧ active t = true ∧ dist (tiw_pos w) t < tm + 1) as Hl'.
  { intros p. rewrite elem_of_app, Hl, Hel'. split; [intros [(t & ? & ? & ?)|(t & ? & ? & ?)]; exists t; (split; [done|split; [done|lia]])|].
    intros (t & Et & Ha & Hd). destruct (decide (dist (tiw_pos w) t = tm)); [right|left]; exists t; (split; [done|split; [done|lia]]). }
  assert ((∀ p, is_Some (timers w !! p) → p ∈ l ++ chain) → ∃ m, Some min' = Some m ∧ first_due (timers w) m) as Hdone.
  { intros Hall. exists min'. split; [done|]. destruct Hmin' as (H1 & H2 & H3). split; [done|]. split.
    - intros p d Ep. apply (H2 p d); [apply Hall; by eexists|done].
    - destruct H3 as [?|(p & _ & Ep)]; [by left|right; by exists p]. }
  destruct (Z.eqb_spec (zlen (l ++ chain)) (tiw_nto w)) as [Eall|_].
  { apply Hdone, all_seen; [done| |lia]. intros p (t & Et & Ha & _)%Hl'. eexists. apply timers_Some. by exists t. }
  assert (((tiw_pos w + tm) mod TIW_SIZE + 1) mod TIW_SIZE = (tiw_pos w + (tm + 1)) mod TIW_SIZE) as ->.
  { rewrite Zplus_mod_idemp_l. f_equal. lia. }
  destruct (Z.eqb_spec ((tiw_pos w + (tm + 1)) mod TIW_SIZE) (tiw_pos w)) as [Eend|Hne].
  - apply Hdone. intros p [d (t & Et & Ha & _)%timers_Some]. apply Hl'. exists t. split; [done|]. split; [done|].
    assert (tm + 1 = TIW_SIZE); [|pose proof (dist_range (tiw_pos w) t); lia].
    clear - Eend Hpos Htm Hf. destruct TIW_SIZE_cases as [E|E]; rewrite E in *; Z.div_mod_to_equations; lia.
  - apply IH; try done; try lia.
    + assert (tm + 1 ≠ TIW_SIZE); [|lia]. intros E. apply Hne. rewrite E. rewrite <- (Z.mod_small (tiw_pos w) TIW_SIZE) at 2 by done.
      rewrite <- (Z.mod_add (tiw_pos w) 1) by lia. f_equal. lia.
    + intros p d [Hp|Hp]%elem_of_app; [by apply Hge|by apply Hge'].
Qed.

Lemma next_time_spec w : wheel_ok w → (∀ p d, timers w !! p = Some d → d < UINT_MAX) →
  if decide (timers w = ∅) then next_time w = Some (-1)
  else ∃ m, first_due (timers w) m ∧ next_time w = Some (int32 (Z.max (m - do_time w) 0)).
Proof.
  intros Hok Hfit. pose proof size_pos. unfold next_time, next_time_internal. pose proof (no_timers w Hok) as H0.
  destruct (decide (timers w = ∅)) as [E|E]; [by rewrite (proj2 H0 E)|].
  destruct (tiw_nto w =? 0); [destruct E; by apply H0|]. clear H0.
  destruct (next_loop_spec (Z.to_nat TIW_SIZE) w 0 [] (wrap_u 32 (-1)) Hok Hfit) as (m & Em & Hm); try done; try lia.
  - constructor.
  - split; [done|]. split; [by intros p d ?%elem_of_nil|by left].
  - intros p. split; [by intros ?%elem_of_nil|]. intros (t & _ & _ & Hd). pose proof (dist_range (tiw_pos w) t). lia.
  - by intros p d ?%elem_of_nil.
  - rewrite Z.add_0_r, Z.mod_small in Em by apply (wo_pos w Hok). cbn [length] in Em. change (Z.of_nat 0) with 0 in Em. rewrite Em.
    exists m. split; [done|]. cbn. do 2 f_equal. destruct (Z.geb_spec m (do_time w)); lia.
Qed.

End Wheel.
