(* ===== verification/TimerTheorems.v ===== *)
(** Properties of the timing wheel: every schedule of the schedulers' calls refines a clock with deadlines. *)

From Stdlib Require Import ZArith ZifyBool.
From stdpp Require Import base list numbers option gmap sorting.
From S2P Require Import Prelude Timer TimerSpec TimerOps.
Local Open Scope Z_scope.

Section Properties.
Context {tc : TimerConfig}.

(** ** The calls of the schedulers

    A scheduler reads and resets [do_time], then calls [bump_timer] when the number of ticks is not 0.  The two are not
    one atomic action: with several schedulers, other calls come in between.  [inflight] are the ticks that were read and not yet
    given to [bump_timer]. *)
Inductive event :=
| Deliver (elapsed : Z)
| ReadReset
| Bump (i : nat)
| SetTimer (p f : Z) (c : option Z) (a t : Z)
| CancelTimer (p : Z).

Record sys := Sys { sys_wheel : wheel; inflight : list Z }.

(** Also the timers that timed out, and the callbacks called. *)
Definition sys_step (s : sys) (e : event) : option (sys * list Z * list call) :=
  match e with
  | Deliver elapsed => Some (Sys (do_time_add (sys_wheel s) elapsed) (inflight s), [], [])
  | ReadReset => let '(dt, w) := do_time_read_and_reset (sys_wheel s) in Some (Sys w (inflight s ++ [dt]), [], [])
  | Bump i =>
      dt ← inflight s !! i;
      '(w, queue, calls) ← (if negb (dt =? 0) then bump_timer (sys_wheel s) dt else Some (sys_wheel s, [], []));
      Some (Sys w (delete i (inflight s)), queue, calls)
  | SetTimer p f c a t => w ← erl_set_timer (sys_wheel s) p f c a t; Some (Sys w (inflight s), [], [])
  | CancelTimer p => '(w, calls) ← erl_cancel_timer (sys_wheel s) p; Some (Sys w (inflight s), [], calls)
  end.

(** The timers that time out in each step. *)
Fixpoint sys_run (s : sys) (es : list event) : option (sys * list (list Z)) :=
  match es with
  | [] => Some (s, [])
  | e :: es' => '(s', fired, _) ← sys_step s e; '(s'', rest) ← sys_run s' es'; Some (s'', fired :: rest)
  end.

(** ** The specification: a clock and deadlines

    [now] is the time delivered so far, in ticks, [base] the time up to which timers were run, [taken] the ticks in flight.  A
    timer that is set gets its deadline [t] ms from now, less the ticks in flight.  It times out when [base] has passed the
    deadline. *)
Record clock := Clock { now : Z; taken : list Z; base : Z; deadlines : gmap Z Z }.

Definition sum (l : list Z) : Z := foldr Z.add 0 l.

Definition clock_step (k : clock) (e : event) : clock * gset Z :=
  match e with
  | Deliver elapsed => (Clock (now k + elapsed) (taken k) (base k) (deadlines k), ∅)
  | ReadReset => (Clock (now k) (taken k ++ [now k - base k - sum (taken k)]) (base k) (deadlines k), ∅)
  | Bump i =>
      let base' := base k + default 0 (taken k !! i) in
      (Clock (now k) (delete i (taken k)) base' (filter (λ pd : Z * Z, base' ≤ pd.2) (deadlines k)),
        dom (filter (λ pd : Z * Z, pd.2 < base') (deadlines k)))
  | SetTimer p _ _ _ t =>
      (if decide (is_Some (deadlines k !! p)) then k
       else Clock (now k) (taken k) (base k) (<[p := now k + ticks_of t - sum (taken k)]> (deadlines k)), ∅)
  | CancelTimer p => (Clock (now k) (taken k) (base k) (delete p (deadlines k)), ∅)
  end.

Fixpoint clock_run (k : clock) (es : list event) : clock * list (gset Z) :=
  match es with
  | [] => (k, [])
  | e :: es' => let (k', X) := clock_step k e in let (k'', Xs) := clock_run k' es' in (k'', X :: Xs)
  end.

Definition sim (s : sys) (k : clock) : Prop :=
  wheel_ok (sys_wheel s) ∧ Forall (λ dt, 0 ≤ dt < UINT_MAX) (inflight s) ∧ taken k = inflight s ∧
  do_time (sys_wheel s) = now k - base k - sum (taken k) ∧ deadlines k = (λ d, base k + d) <$> timers (sys_wheel s).

Definition same_timers (fired : list Z) (X : gset Z) : Prop := NoDup fired ∧ ∀ p, p ∈ fired ↔ p ∈ X.

(** What the code relies on: time does not run backwards, counters do not overflow, pointers are valid. *)
Definition admissible (s : sys) (e : event) : Prop :=
  match e with
  | Deliver elapsed => 0 ≤ elapsed
  | ReadReset => do_time (sys_wheel s) < UINT_MAX
  | Bump i => is_Some (inflight s !! i)
  | SetTimer p _ _ _ t => p ∈ dom (cells (sys_wheel s)) ∧ fits (sys_wheel s) t
  | CancelTimer p => p ∈ dom (cells (sys_wheel s))
  end.

Lemma sum_delete (l : list Z) i x : l !! i = Some x → sum (delete i l) = sum l - x.
Proof.
  revert i. induction l as [|y l IH]; intros [|i] H; [done|done| |].
  - injection H as ->. cbn. lia.
  - specialize (IH i H). unfold sum in *. cbn [foldr]. change (delete (S i) (y :: l)) with (y :: delete i l). cbn [foldr]. lia.
Qed.

Lemma sum_app l l' : sum (l ++ l') = sum l + sum l'.
Proof. induction l as [|x l IH]; unfold sum in *; cbn [foldr app]; lia. Qed.

(** The deadlines after the wheel was bumped. *)
Lemma bumped_deadlines (m : gmap Z Z) b dt :
  (λ d, b + dt + d) <$> bumped m dt = filter (λ pd : Z * Z, b + dt ≤ pd.2) ((λ d, b + d) <$> m).
Proof.
  apply map_eq. intros p. unfold bumped. rewrite !lookup_fmap, !map_lookup_filter, !lookup_fmap.
  destruct (m !! p) as [d|]; [|done]. cbn. destruct (decide (dt ≤ d)).
  - rewrite !option_guard_True by (cbn; lia). cbn. f_equal. lia.
  - by rewrite !option_guard_False by (cbn; lia).
Qed.

Lemma timers_nonneg w p d : wheel_ok w → timers w !! p = Some d → 0 ≤ d.
Proof.
  intros Hok (t & Et & Ha & <-)%timers_Some. destruct (wo_cells _ Hok p t Et Ha) as [_ [Hc _]].
  pose proof (dist_range (tiw_pos w) t). pose proof size_pos. unfold due. nia.
Qed.

Lemma bumped_0 w : wheel_ok w → bumped (timers w) 0 = timers w.
Proof.
  intros Hok. apply map_eq. intros p. unfold bumped. rewrite lookup_fmap, map_lookup_filter.
  destruct (timers w !! p) as [d|] eqn:Ep; [|done]. pose proof (timers_nonneg w p d Hok Ep). cbn.
  rewrite option_guard_True by done. cbn. f_equal. lia.
Qed.

(** [if (dt) bump_timer(dt)] *)
Lemma bump_if_spec w dt : wheel_ok w → 0 ≤ dt < UINT_MAX →
  ∃ w' queue calls, (if negb (dt =? 0) then bump_timer w dt else Some (w, [], [])) = Some (w', queue, calls) ∧ wheel_ok w' ∧
    do_time w' = do_time w ∧ timers w' = bumped (timers w) dt ∧ NoDup queue ∧ (∀ p, p ∈ queue ↔ ∃ d, timers w !! p = Some d ∧ d < dt).
Proof.
  intros Hok Hdt. destruct (Z.eqb_spec dt 0) as [->|Hne]; cbn [negb].
  - exists w, [], []. split; [done|]. split; [done|]. split; [done|]. split; [by rewrite bumped_0|]. split; [constructor|].
    intros p. split; [by intros ?%elem_of_nil|]. intros (d & Ep & Hd). pose proof (timers_nonneg w p d Hok Ep). lia.
  - destruct (bump_timer_spec w dt Hok Hdt) as (w' & queue & calls & E & Hok' & Ht' & _ & Hm & Hnd & Hq & _). by exists w', queue, calls.
Qed.

Lemma pass_iff (m : gmap Z Z) b dt p :
  (∃ d, m !! p = Some d ∧ d < dt) ↔ p ∈ dom (filter (λ pd : Z * Z, pd.2 < b + dt) ((λ d, b + d) <$> m)).
Proof.
  rewrite elem_of_dom. unfold is_Some. setoid_rewrite map_lookup_filter_Some. setoid_rewrite lookup_fmap. split.
  - intros (d & -> & Hd). eexists. split; [reflexivity|cbn; lia].
  - intros (d & (d' & -> & ->)%fmap_Some & Hd). eexists. split; [reflexivity|cbn in Hd; lia].
Qed.

Lemma sys_step_sim s k e : sim s k → admissible s e →
  ∃ s' fired calls, sys_step s e = Some (s', fired, calls) ∧ sim s' (clock_step k e).1 ∧ same_timers fired (clock_step k e).2.
Proof.
  intros (Hok & Hin & Htk & Ht & Hdl) Hadm. pose proof (wo_time _ Hok) as Ht0.
  assert (same_timers [] ∅) as Hnil by (split; [constructor|intros p; by rewrite elem_of_nil, elem_of_empty]).
  destruct e as [elapsed| |i|p f c a t|p]; cbn [sys_step admissible clock_step fst snd] in *.
  - eexists _, [], []. split; [done|]. split; [|done]. destruct Hok. split; [split; try done; cbn; lia|].
    split; [done|]. split; [done|]. split; [cbn [sys_wheel do_time do_time_add now base taken]; lia|done].
  - eexists _, [], []. split; [done|]. split; [|done]. destruct Hok. split; [split; try done; cbn; lia|].
    cbn [inflight sys_wheel do_time now taken base deadlines]. split; [apply Forall_app; split; [done|by repeat constructor]|].
    split; [by rewrite Ht, Htk|]. split; [rewrite sum_app; unfold sum; cbn [foldr]; lia|done].
  - destruct Hadm as [dt Hi]. rewrite Hi, Htk, Hi. cbn [mbind option_bind from_option id].
    assert (0 ≤ dt < UINT_MAX) as Hdt by exact (Forall_lookup_1 _ _ _ _ Hin Hi).
    destruct (bump_if_spec (sys_wheel s) dt Hok Hdt) as (w' & queue & calls & -> & Hok' & Ht' & Hm & Hnd & Hq).
    eexists _, queue, calls. split; [done|]. split; [|split; [done|intros p; by rewrite Hq, Hdl, <- pass_iff]].
    split; [done|]. split; [by apply Forall_delete|]. cbn [inflight sys_wheel now taken base deadlines]. split; [done|].
    split; [rewrite (sum_delete _ _ dt), Ht', Ht, Htk by done; lia|]. by rewrite Hm, bumped_deadlines, Hdl.
  - destruct Hadm as [Hp Hfit]. destruct (erl_set_timer_spec (sys_wheel s) p f c a t Hok Hp Hfit) as (w' & -> & Hok' & Ht' & _ & Hm).
    eexists _, [], []. split; [done|]. split; [|done].
    assert (is_Some (deadlines k !! p) ↔ is_Some (timers (sys_wheel s) !! p)) as Hsome by (by rewrite Hdl, lookup_fmap, fmap_is_Some).
    destruct (decide (is_Some (deadlines k !! p))) as [Hs|Hs].
    + rewrite decide_True in Hm by tauto. split; [done|]. split; [done|]. split; [done|]. cbn. by rewrite Ht', Hm.
    + rewrite decide_False in Hm by tauto. split; [done|]. split; [done|]. split; [done|]. cbn [inflight sys_wheel now taken base deadlines].
      split; [lia|]. rewrite Hm, fmap_insert, Hdl. f_equal. lia.
  - apply elem_of_dom in Hadm as [t Et]. destruct (erl_cancel_timer_spec (sys_wheel s) p t Hok Et) as (w' & calls & -> & Hok' & Ht' & _ & Hm & _).
    eexists _, [], calls. split; [done|]. split; [|done]. split; [done|]. split; [done|]. split; [done|].
    cbn [inflight sys_wheel now taken base deadlines]. split; [lia|]. by rewrite Hm, fmap_delete, Hdl.
Qed.

(** Every event is admissible in the state it finds. *)
Fixpoint admissible_run (s : sys) (es : list event) : Prop :=
  match es with
  | [] => True
  | e :: es' => admissible s e ∧ match sys_step s e with Some (s', _, _) => admissible_run s' es' | None => False end
  end.

Lemma sys_run_sim es : ∀ s k, sim s k → admissible_run s es →
  ∃ s' outs, sys_run s es = Some (s', outs) ∧ sim s' (clock_run k es).1 ∧ Forall2 same_timers outs (clock_run k es).2.
Proof.
  induction es as [|e es IH]; intros s k Hs Hadm; cbn [sys_run clock_run admissible_run] in *.
  { exists s, []. split; [done|]. split; [done|constructor]. }
  destruct Hadm as [Ha Hrest]. destruct (sys_step_sim s k e Hs Ha) as (s1 & fired & calls & E & Hs1 & Hf). rewrite E in Hrest |- *.
  cbn [mbind option_bind]. destruct (clock_step k e) as [k1 X]. destruct (IH s1 k1 Hs1 Hrest) as (s' & outs & -> & Hs' & Hfs).
  cbn [mbind option_bind]. destruct (clock_run k1 es) as [k' Xs]. exists s', (fired :: outs). split; [done|]. split; [done|]. by constructor.
Qed.

(** An event that neither sets nor cancels [p]. *)
Definition leaves_alone (p : Z) (e : event) : Prop :=
  match e with SetTimer q _ _ _ _ | CancelTimer q => q ≠ p | _ => True end.

Lemma base_mono es : ∀ s k, sim s k → admissible_run s es → base k ≤ base (clock_run k es).1.
Proof.
  induction es as [|e es IH]; intros s k Hs Hadm; cbn [clock_run admissible_run] in *; [cbn; lia|].
  destruct Hadm as [Ha Hrest]. destruct (sys_step_sim s k e Hs Ha) as (s1 & fired & calls & E & Hs1 & _). rewrite E in Hrest.
  assert (base k ≤ base (clock_step k e).1) as Hb.
  { destruct Hs as (_ & Hin & Htk & _). destruct e as [| |i|p f c a t|]; cbn; try lia.
    - rewrite Htk. destruct (inflight s !! i) as [dt|] eqn:Ei; cbn; [|lia]. apply (Forall_lookup_1 _ _ _ _ Hin) in Ei. lia.
    - destruct (decide _); cbn; lia. }
  destruct (clock_step k e) as [k1 X]. specialize (IH s1 k1 Hs1 Hrest). destruct (clock_run k1 es). cbn in *. lia.
Qed.

Lemma step_none k e p : leaves_alone p e → deadlines k !! p = None → deadlines (clock_step k e).1 !! p = None ∧ p ∉ (clock_step k e).2.
Proof.
  intros Ha Hn. destruct e as [| |i|q f c a t|q]; cbn in *; try (split; [done|set_solver]).
  - rewrite map_lookup_filter_None, not_elem_of_dom, map_lookup_filter_None. by split; left.
  - split; [|set_solver]. destruct (decide _); [done|]. cbn. by rewrite lookup_insert_ne.
  - split; [|set_solver]. by rewrite lookup_delete_ne.
Qed.

Lemma step_some k e p D : leaves_alone p e → deadlines k !! p = Some D → base k ≤ D →
  (base (clock_step k e).1 ≤ D ∧ deadlines (clock_step k e).1 !! p = Some D ∧ p ∉ (clock_step k e).2) ∨
  (D < base (clock_step k e).1 ∧ deadlines (clock_step k e).1 !! p = None ∧ p ∈ (clock_step k e).2).
Proof.
  intros Ha Hp Hb. destruct e as [| |i|q f c a t|q]; cbn in *; try (left; split; [done|split; [done|set_solver]]).
  - set (b := base k + _). destruct (Z.le_gt_cases b D); [left|right]; (split; [done|]).
    + rewrite map_lookup_filter_Some, not_elem_of_dom, map_lookup_filter_None. split; [done|]. right. intros d Ed. cbn.
      assert (d = D) as -> by congruence. lia.
    + rewrite map_lookup_filter_None, elem_of_dom. split; [right; intros d Ed; cbn; assert (d = D) as -> by congruence; lia|].
      exists D. by rewrite map_lookup_filter_Some.
  - left. destruct (decide _); cbn; (split; [done|split; [|set_solver]]); [done|]. by rewrite lookup_insert_ne.
  - left. split; [done|]. split; [by rewrite lookup_delete_ne|set_solver].
Qed.

Lemma run_none es p : ∀ k, Forall (leaves_alone p) es → deadlines k !! p = None →
  deadlines (clock_run k es).1 !! p = None ∧ Forall (λ X, p ∉ X) (clock_run k es).2.
Proof.
  induction es as [|e es IH]; intros k Ha Hn; cbn [clock_run]; [by split|]. apply Forall_cons in Ha as [He Ha].
  destruct (step_none k e p He Hn) as [Hn1 HX]. destruct (clock_step k e) as [k1 X]. destruct (IH k1 Ha Hn1) as [Hn' HXs].
  destruct (clock_run k1 es). cbn in *. by split; [|constructor].
Qed.

(** A timer is in no set of a run while its deadline has not passed, and then in exactly one. *)
Definition fires_once (p : Z) (Xs : list (gset Z)) : Prop :=
  ∃ Xs1 X Xs2, Xs = Xs1 ++ X :: Xs2 ∧ p ∈ X ∧ Forall (λ Y, p ∉ Y) Xs1 ∧ Forall (λ Y, p ∉ Y) Xs2.

Lemma deadline_passes es p D : ∀ s k, sim s k → admissible_run s es → Forall (leaves_alone p) es → deadlines k !! p = Some D →
  base k ≤ D →
  if base (clock_run k es).1 <=? D
  then deadlines (clock_run k es).1 !! p = Some D ∧ Forall (λ X, p ∉ X) (clock_run k es).2
  else deadlines (clock_run k es).1 !! p = None ∧ fires_once p (clock_run k es).2.
Proof.
  induction es as [|e es IH]; intros s k Hs Hadm Hal Hp Hb; cbn [clock_run].
  { cbn. replace (base k <=? D) with true by lia. by split. }
  cbn [admissible_run] in Hadm. destruct Hadm as [Ha Hrest]. apply Forall_cons in Hal as [He Hal].
  destruct (sys_step_sim s k e Hs Ha) as (s1 & fired & calls & E & Hs1 & _). rewrite E in Hrest.
  pose proof (step_some k e p D He Hp Hb) as Hstep. destruct (clock_step k e) as [k1 X]. cbn [fst snd] in *.
  destruct Hstep as [(Hb1 & Hp1 & HX)|(Hb1 & Hp1 & HX)].
  - specialize (IH s1 k1 Hs1 Hrest Hal Hp1 Hb1). destruct (clock_run k1 es) as [k' Xs]. cbn [fst snd] in *. destruct (base k' <=? D).
    + destruct IH as [? ?]. split; [done|by constructor].
    + destruct IH as [? (Xs1 & Y & Xs2 & -> & HY & H1 & H2)]. split; [done|]. exists (X :: Xs1), Y, Xs2. split; [done|]. split; [done|].
      split; [by constructor|done].
  - pose proof (base_mono es s1 k1 Hs1 Hrest) as Hmono. destruct (run_none es p k1 Hal Hp1) as [Hn HXs].
    destruct (clock_run k1 es) as [k' Xs]. cbn [fst snd] in *. replace (base k' <=? D) with false by lia. split; [done|].
    exists [], X, Xs. split; [done|]. split; [done|]. split; [constructor|done].
Qed.

Lemma silent_run p outs Xs : Forall2 same_timers outs Xs → Forall (λ X, p ∉ X) Xs → p ∉ concat outs.
Proof.
  induction 1 as [|out X outs Xs [_ HX] _ IH]; intros HXs; cbn [concat]; [apply not_elem_of_nil|].
  apply Forall_cons in HXs as [Hp HXs]. rewrite elem_of_app, HX. intros [?|?]; [done|]. by apply IH.
Qed.

Lemma once_run p outs Xs : Forall2 same_timers outs Xs → fires_once p Xs → ∃ l1 l2, concat outs = l1 ++ p :: l2 ∧ p ∉ l1 ++ l2.
Proof.
  intros HF (Xs1 & X & Xs2 & -> & Hp & H1 & H2). apply Forall2_app_inv_r in HF as (outs1 & rest & HF1 & HF2 & ->).
  apply Forall2_cons_inv_r in HF2 as (out & outs2 & [Hnd HX] & HF2 & ->). apply HX in Hp.
  apply list_elem_of_split in Hp as (a & b & ->). pose proof (silent_run p _ _ HF1 H1) as N1. pose proof (silent_run p _ _ HF2 H2) as N2.
  apply NoDup_app in Hnd as (Ha & Hdis & Hb). apply NoDup_cons in Hb as [Hb _].
  exists (concat outs1 ++ a), (b ++ concat outs2). rewrite concat_app. cbn [concat]. split; [by rewrite <- !app_assoc|].
  rewrite !elem_of_app. intros [[?|?]|[?|?]]; try done. apply (Hdis p); [done|by left].
Qed.

Lemma sum_nonneg l : Forall (λ dt, 0 ≤ dt < UINT_MAX) l → 0 ≤ sum l.
Proof. induction 1; unfold sum in *; cbn [foldr]; lia. Qed.

Lemma sim_base s k : sim s k → base k ≤ now k.
Proof. intros (Hok & Hin & Htk & Ht & _). pose proof (wo_time _ Hok). apply sum_nonneg in Hin. rewrite <- Htk in Hin. lia. Qed.

(** C11: Refinement of the clock: from a wheel whose timers are the deadlines of a clock, any sequence of calls of [do_time_add],
    [do_time_read_and_reset], [bump_timer], [erl_set_timer] and [erl_cancel_timer], also interleaved by several schedulers,
    runs, keeps the wheel well formed with the deadlines of the clock, and in each step exactly those timers time
    out, each once, whose deadline has passed. *)
Theorem timer_wheel_refines_clock (s : sys) (k : clock) (es : list event) :
  sim s k → admissible_run s es →
  ∃ s' outs, sys_run s es = Some (s', outs) ∧ sim s' (clock_run k es).1 ∧ Forall2 same_timers outs (clock_run k es).2.
Proof. apply sys_run_sim. Qed.

(** C12: No timer is early or lost: a timer that is set (with no ticks in flight) [t] ms from now and then neither set nor
    cancelled stays active and silent as long as the wheel has not been bumped past [t] ms from now (and so for all
    [t] ms), and times out exactly once when it has. *)
Theorem timer_fires_when_due (s : sys) (k : clock) (p f : Z) (c : option Z) (a t : Z) (es : list event) :
  sim s k → inflight s = [] → timers (sys_wheel s) !! p = None → admissible_run s (SetTimer p f c a t :: es) →
  Forall (leaves_alone p) es →
  ∃ s' outs, sys_run s (SetTimer p f c a t :: es) = Some (s', outs) ∧
    let k' := (clock_run k (SetTimer p f c a t :: es)).1 in
    base k' ≤ now k' ∧
    if base k' <=? now k + ticks_of t
    then timers (sys_wheel s') !! p = Some (now k + ticks_of t - base k') ∧ p ∉ concat outs
    else timers (sys_wheel s') !! p = None ∧ ∃ l1 l2, concat outs = l1 ++ p :: l2 ∧ p ∉ l1 ++ l2.
Proof.
  intros Hs Hin Hp Hadm Hal. destruct (sys_run_sim _ s k Hs Hadm) as (s' & outs & E & Hs' & HF). exists s', outs. split; [done|].
  cbv zeta. split; [by eapply sim_base|].
  pose proof Hs as (Hok & _ & Htk & Ht & Hdl). rewrite Htk, Hin in Ht. cbn [sum foldr] in Ht. pose proof (wo_time _ Hok).
  assert (deadlines k !! p = None) as Hnone by (by rewrite Hdl, lookup_fmap, Hp).
  cbn [admissible_run] in Hadm. destruct Hadm as [Ha Hrest].
  destruct (sys_step_sim s k _ Hs Ha) as (s1 & fired & calls & E1 & Hs1 & _). rewrite E1 in Hrest.
  assert (0 ≤ ticks_of t) as Hk by (destruct Ha as [_ (? & _)]; pose proof itime_range; apply Z.div_pos; lia).
  cbn [clock_run clock_step] in *. rewrite decide_False in * by (rewrite Hnone; by intros [? ?]).
  rewrite Htk, Hin in *. cbn [sum foldr] in *. rewrite Z.sub_0_r in *. cbn [fst snd] in *.
  pose proof (deadline_passes es p (now k + ticks_of t) s1 _ Hs1 Hrest Hal) as Hd. cbn [deadlines base] in Hd.
  specialize (Hd (lookup_insert_eq _ _ _) ltac:(lia)). destruct (clock_run _ es) as [k' Xs]. cbn [fst snd] in *.
  destruct Hs' as (_ & _ & _ & _ & Hdl'). rewrite Hdl', lookup_fmap in Hd. apply Forall2_cons_inv_r in HF as (out0 & outs' & [_ H0] & HF & ->).
  assert (out0 = []) as -> by (destruct out0 as [|x]; [done|]; exfalso; apply (not_elem_of_empty (C := gset Z) x), H0; by left). cbn [concat app].
  destruct (base k' <=? now k + ticks_of t).
  - destruct Hd as [(d & -> & Ed)%fmap_Some HXs]. split; [f_equal; lia|by eapply silent_run].
  - destruct Hd as [Hd Hf]. apply fmap_None in Hd. split; [done|by eapply once_run].
Qed.

#[export] Instance admissible_dec s e : Decision (admissible s e).
Proof. destruct e; cbn [admissible]; unfold fits; apply _. Defined.

#[export] Instance admissible_run_dec es : ∀ s, Decision (admissible_run s es).
Proof.
  induction es as [|e es IH]; intros s; cbn [admissible_run]; [apply _|].
  destruct (sys_step s e) as [[[s' ?] ?]|]; apply _.
Defined.

(** [bump_timer] calls the timeout function of exactly the timers that are due, each once with its argument, and when
    at most one turn of the wheel has passed, in the order of their due times.  [erl_cancel_timer] calls the cancel function of
    an active timer, if it has one, and no other; after that the timer is not active. *)
Lemma timer_callbacks (w : wheel) (dt p : Z) (t : ErlTimer) :
  wheel_ok w → 0 ≤ dt < UINT_MAX → cells w !! p = Some t →
  (∃ w' queue calls, bump_timer w dt = Some (w', queue, calls) ∧ NoDup queue ∧
    (∀ q, q ∈ queue ↔ ∃ d, timers w !! q = Some d ∧ d < dt) ∧ Forall2 (called (cells w)) queue calls ∧
    (dt ≤ TIW_SIZE → StronglySorted (due_order (timers w)) queue)) ∧
  (∃ w', erl_cancel_timer w p = Some (w', if active t then match cancel t with Some f => [(f, arg t)] | None => [] end else []) ∧
    timers w' = delete p (timers w)).
Proof.
  intros Hok Hdt Et. split.
  - destruct (bump_timer_spec w dt Hok Hdt) as (w' & queue & calls & E & _ & _ & _ & _ & Hnd & Hq & Hc & Hs). by exists w', queue, calls.
  - destruct (erl_cancel_timer_spec w p t Hok Et) as (w' & calls & E & _ & _ & _ & Hm & ->). by exists w'.
Qed.

(** [next_time] is -1 without timers, else the ticks from now to the first timeout, at most 2^32 - 1 and 0 when overdue,
    converted to [int]; [time_left] is the time to the timeout of an active timer in ms and 0 for others. *)
Lemma timer_queries (w : wheel) (p : Z) :
  wheel_ok w → (∀ q d, timers w !! q = Some d → d < UINT_MAX) → p ∈ dom (cells w) →
  (if decide (timers w = ∅) then next_time w = Some (-1)
   else ∃ m, first_due (timers w) m ∧ next_time w = Some (int32 (Z.max (m - do_time w) 0))) ∧
  time_left w p = Some (match timers w !! p with Some d => Uint (Z.max (d - do_time w) 0 * itime) | None => 0 end).
Proof.
  intros Hok Hfit [t Et]%elem_of_dom. split; [by apply next_time_spec|].
  destruct (timers w !! p) as [d|] eqn:Ep; [by eapply time_left_spec; eauto|]. unfold time_left. rewrite Et. cbn.
  destruct (active t) eqn:Ha; [|done]. unfold timers in Ep.
  rewrite (proj2 (timers_Some (tiw_pos w) (cells w) p _) (ex_intro _ t (conj Et (conj Ha eq_refl)))) in Ep. done.
Qed.

(** [bump_timer] calls the timeout function of exactly the timers that are due, each once with its argument, and when at most one
    turn of the wheel has passed, in the order of their due times.  [erl_cancel_timer] calls the cancel function of an active timer,
    if it has one, and no other; after that the timer is not active.  [next_time] is -1 without timers, else the ticks
    from now to the first timeout, at most 2^32 - 1 and 0 when overdue, converted to [int]; [time_left] is the time to the timeout
    of an active timer in ms and 0 for others. *)
Lemma timer_callbacks_queries :
  (∀ (w : wheel) (dt p : Z) (t : ErlTimer), wheel_ok w → 0 ≤ dt < UINT_MAX → cells w !! p = Some t →
  (∃ w' queue calls, bump_timer w dt = Some (w', queue, calls) ∧ NoDup queue ∧
    (∀ q, q ∈ queue ↔ ∃ d, timers w !! q = Some d ∧ d < dt) ∧ Forall2 (called (cells w)) queue calls ∧
    (dt ≤ TIW_SIZE → StronglySorted (due_order (timers w)) queue)) ∧
  (∃ w', erl_cancel_timer w p = Some (w', if active t then match cancel t with Some f => [(f, arg t)] | None => [] end else []) ∧
    timers w' = delete p (timers w))) ∧
  (∀ (w : wheel) (p : Z), wheel_ok w → (∀ q d, timers w !! q = Some d → d < UINT_MAX) → p ∈ dom (cells w) →
  (if decide (timers w = ∅) then next_time w = Some (-1)
   else ∃ m, first_due (timers w) m ∧ next_time w = Some (int32 (Z.max (m - do_time w) 0))) ∧
  time_left w p = Some (match timers w !! p with Some d => Uint (Z.max (d - do_time w) 0 * itime) | None => 0 end)).
Proof. split; [exact timer_callbacks|exact timer_queries]. Qed.

(** A time in ms. *)
Definition ms (tv : timeval) : Z := 1000 * tv.1 + tv.2 / 1000.
Definition ms_resolution (tv : timeval) : Prop := 0 ≤ tv.2 < 1000000 ∧ tv.2 mod 1000 = 0.

(** Delivering time: time that jumps backwards is ignored; otherwise the whole ticks since the last delivery are
    added.  With a resolution of 1 ms nothing is lost: the ticks added are the ms between the two values of [last_delivered]. *)
Lemma deliver_time_exact (cur last : timeval) (w : wheel) :
  0 ≤ cur.2 < 1000000 → ms_resolution last →
  let '(last', w') := do_erts_deliver_time cur last w in
  ms_resolution last' ∧ do_time w' = do_time w + Z.max 0 ((ms cur - ms last) / itime) ∧
  (itime = 1 → do_time w' - do_time w = ms last' - ms last) ∧ timers w' = timers w.
Proof.
  intros Hc [Hl Hm]. pose proof itime_range. unfold do_erts_deliver_time. cbn [fst snd].
  assert (cur.2 `quot` 1000 = cur.2 / 1000) as -> by (apply Z.quot_div_nonneg; lia).
  assert ((1000 * (cur.2 / 1000) - last.2) `quot` 1000 = cur.2 / 1000 - last.2 / 1000) as ->.
  { replace (1000 * (cur.2 / 1000) - last.2) with ((cur.2 / 1000 - last.2 / 1000) * 1000) by (pose proof (Z.div_mod last.2 1000); lia).
    by rewrite Z.quot_mul by lia. }
  replace (1000 * (cur.1 - last.1) + (cur.2 / 1000 - last.2 / 1000)) with (ms cur - ms last) by (unfold ms; lia).
  set (D := ms cur - ms last).
  assert ((D `quot` itime >? 0) = true ↔ 0 < D / itime) as Hpos.
  { rewrite Z.gtb_lt. destruct (Z.le_gt_cases 0 D); [by rewrite Z.quot_div_nonneg by lia|].
    assert (D `quot` itime ≤ 0) by (replace D with (- (- D)) by lia; rewrite Z.quot_opp_l by lia; pose proof (Z.quot_pos (- D) itime); lia).
    pose proof (Z.div_lt_upper_bound D itime 0). lia. }
  destruct (D `quot` itime >? 0) eqn:E.
  - pose proof (proj1 Hpos eq_refl). assert (0 ≤ D) by (destruct (Z.le_gt_cases 0 D); [done|]; pose proof (Z.div_lt_upper_bound D itime 0); lia).
    rewrite Z.quot_div_nonneg by lia. cbn [do_time_add do_time timers]. split; [|split; [lia|split; [|done]]].
    + unfold ms_resolution. cbn [snd]. rewrite Z.mul_comm, Z_mod_mult. assert (0 ≤ cur.2 / 1000 < 1000) by (split; [apply Z.div_pos; lia|apply Z.div_lt_upper_bound; lia]). lia.
    + intros ->. rewrite Z.div_1_r. unfold D, ms. cbn [fst snd]. rewrite (Z.mul_comm 1000 (cur.2 / 1000)), Z.div_mul by lia. lia.
  - split; [done|]. assert (¬ 0 < D / itime) by (by intros H'%Hpos).
    split; [lia|]. split; [lia|done].
Qed.

(** C37: [bump_timer] calls the timeout function of exactly the timers that are due, each once with its argument, and when
    at most one turn of the wheel has passed, in the order of their due times.  [erl_cancel_timer] calls the cancel
    function of an active timer, if it has one, and no other; after that the timer is not active.  [next_time] is -1
    without timers, else the ticks from now to the first timeout, at most 2^32 - 1 and 0 when overdue, converted to [int]
    (negative from 2^31 ticks on, and -1 again at 2^32 - 1); [time_left] is the time to the timeout of an active timer in ms and 0 for others.  Delivering time: time
    that jumps backwards is ignored; otherwise the whole ticks since the last delivery are added.  With a resolution of 1
    ms nothing is lost: the ticks added are the ms between the two values of [last_delivered]. *)
Theorem timer_callbacks_clock :
  ((∀ (w : wheel) (dt p : Z) (t : ErlTimer), wheel_ok w → 0 ≤ dt < UINT_MAX → cells w !! p = Some t →
  (∃ w' queue calls, bump_timer w dt = Some (w', queue, calls) ∧ NoDup queue ∧
    (∀ q, q ∈ queue ↔ ∃ d, timers w !! q = Some d ∧ d < dt) ∧ Forall2 (called (cells w)) queue calls ∧
    (dt ≤ TIW_SIZE → StronglySorted (due_order (timers w)) queue)) ∧
  (∃ w', erl_cancel_timer w p = Some (w', if active t then match cancel t with Some f => [(f, arg t)] | None => [] end else []) ∧
    timers w' = delete p (timers w))) ∧
  (∀ (w : wheel) (p : Z), wheel_ok w → (∀ q d, timers w !! q = Some d → d < UINT_MAX) → p ∈ dom (cells w) →
  (if decide (timers w = ∅) then next_time w = Some (-1)
   else ∃ m, first_due (timers w) m ∧ next_time w = Some (int32 (Z.max (m - do_time w) 0))) ∧
  time_left w p = Some (match timers w !! p with Some d => Uint (Z.max (d - do_time w) 0 * itime) | None => 0 end))) ∧
  (∀ (cur last : timeval) (w : wheel), 0 ≤ cur.2 < 1000000 → ms_resolution last →
  let '(last', w') := do_erts_deliver_time cur last w in
  ms_resolution last' ∧ do_time w' = do_time w + Z.max 0 ((ms cur - ms last) / itime) ∧
  (itime = 1 → do_time w' - do_time w = ms last' - ms last) ∧ timers w' = timers w).
Proof. split; [exact timer_callbacks_queries|exact deliver_time_exact]. Qed.

End Properties.

(** * Instances: a wheel of 8192 slots with 64-bit words *)
Module Instances.

Lemma itime_1 : 0 < 1 ≤ 1000.
Proof. lia. Qed.

#[export] Instance tc64 : TimerConfig :=
  {| TIW_SIZE := 8192; UINT_BITS := 64; itime := 1; TIW_SIZE_cases := or_introl eq_refl; UINT_BITS_cases := or_intror eq_refl;
     itime_range := itime_1 |}.

Definition idle : ErlTimer := Timer 0 0 false 0 None 0.
Definition w0 : wheel := init_time {[7 := idle; 9 := idle]}.
Definition s0 : sys := Sys w0 [].
Definition k0 : clock := Clock 0 [] 0 ∅.

Lemma w0_ok : wheel_ok w0.
Proof.
  split; cbn [w0 init_time tiw tiw_pos cells tiw_nto do_time]; try (cbn; lia).
  - split; [apply length_replicate|..].
    + intros i chain H. apply lookup_replicate in H as [-> _]. constructor.
    + intros i chain p H. apply lookup_replicate in H as [-> _]. split; [by intros ?%elem_of_nil|].
      intros (t & Et & Ha & _). exfalso. revert Et. rewrite lookup_insert_Some, lookup_singleton_Some. intros [[_ <-]|[_ [_ <-]]]; done.
  - intros p t. rewrite lookup_insert_Some, lookup_singleton_Some. intros [[_ <-]|[_ [_ <-]]]; done.
  - reflexivity.
  - reflexivity.
Qed.

Lemma sim0 : sim s0 k0.
Proof. split; [exact w0_ok|]. split; [constructor|]. split; [done|]. split; [reflexivity|]. by apply (map_eq (M := gmap Z)). Qed.

(** Timer 7 is set to 20 ms, timer 9 to 3 ms while 2 ticks are in flight. *)
Definition es : list event :=
  [SetTimer 7 70 None 71 20; Deliver 2; ReadReset; SetTimer 9 90 None 91 3; Bump 0; Deliver 30; ReadReset; Bump 0; CancelTimer 9].

Lemma timer_wheel_refines_clock_witness :
  ∃ s' outs, sys_run s0 es = Some (s', outs) ∧ sim s' (clock_run k0 es).1 ∧ Forall2 same_timers outs (clock_run k0 es).2.
Proof. refine (timer_wheel_refines_clock s0 k0 es sim0 _). apply (bool_decide_unpack _). vm_compute. exact I. Defined.

Lemma timer_fires_when_due_witness :
  ∃ s' outs, sys_run s0 [SetTimer 7 70 None 71 5; Deliver 6; ReadReset; Bump 0] = Some (s', outs) ∧
    let k' := (clock_run k0 [SetTimer 7 70 None 71 5; Deliver 6; ReadReset; Bump 0]).1 in
    base k' ≤ now k' ∧
    if base k' <=? 0 + ticks_of 5
    then timers (sys_wheel s') !! 7 = Some (0 + ticks_of 5 - base k') ∧ 7 ∉ concat outs
    else timers (sys_wheel s') !! 7 = None ∧ ∃ l1 l2, concat outs = l1 ++ 7 :: l2 ∧ 7 ∉ l1 ++ l2.
Proof.
  refine (timer_fires_when_due s0 k0 7 70 None 71 5 [Deliver 6; ReadReset; Bump 0] sim0 eq_refl eq_refl _ _).
  - apply (bool_decide_unpack _). vm_compute. exact I.
  - repeat constructor.
Defined.

Lemma timer_callbacks_clock_witness :
  (((∃ w' queue calls, bump_timer w0 5 = Some (w', queue, calls) ∧ NoDup queue ∧
    (∀ q, q ∈ queue ↔ ∃ d, timers w0 !! q = Some d ∧ d < 5) ∧ Forall2 (called (cells w0)) queue calls ∧
    (5 ≤ TIW_SIZE → StronglySorted (due_order (timers w0)) queue)) ∧
  (∃ w', erl_cancel_timer w0 7 = Some (w', []) ∧ timers w' = delete 7 (timers w0))) ∧
  ((if decide (timers w0 = ∅) then next_time w0 = Some (-1)
   else ∃ m, first_due (timers w0) m ∧ next_time w0 = Some (int32 (Z.max (m - do_time w0) 0))) ∧
  time_left w0 7 = Some (match timers w0 !! 7 with Some d => Uint (Z.max (d - do_time w0) 0 * itime) | None => 0 end))) ∧
  (let '(last', w') := do_erts_deliver_time (10, 5999) (9, 998000) w0 in
  ms_resolution last' ∧ do_time w' = do_time w0 + Z.max 0 ((ms (10, 5999) - ms (9, 998000)) / itime) ∧
  (itime = 1 → do_time w' - do_time w0 = ms last' - ms (9, 998000)) ∧ timers w' = timers w0).
Proof.
  split.
  - split.
    + refine (proj1 (proj1 timer_callbacks_clock) w0 5 7 idle w0_ok _ eq_refl). split; [lia|reflexivity].
    + refine (proj2 (proj1 timer_callbacks_clock) w0 7 w0_ok _ _).
      * intros q d Hq. replace (timers w0) with (∅ : gmap Z Z) in Hq by reflexivity. by rewrite lookup_empty in Hq.
      * apply elem_of_dom. by eexists.
  - refine (proj2 timer_callbacks_clock (10, 5999) (9, 998000) w0 _ _); [cbn; lia|split; [cbn; lia|reflexivity]].
Defined.

End Instances.
