(* ===== verification/Rbt.v ===== *)
(** The red-black trees of [erts/emulator/beam/erl_bestfit_alloc.c].

    A tree of [RBTree_t] nodes linked by [left], [right] and [parent] pointers is an inductive tree; a pointer to a node, from which
    the code walks up by [parent], is the subtree at the node with the path to it, innermost frame first.  The flag [RED_FLG]
    is the colour of a node.  The elements are the blocks, or lists of blocks of equal size. *)

From stdpp Require Import base list option.
From S2P Require Import Prelude.

Inductive color := Red | Black.
#[export] Instance color_eq_dec : EqDecision color.
Proof. solve_decision. Defined.

Section Tree.
Context {A : Type}.

Inductive tree :=
| Leaf
| Node (c : color) (left : tree) (x : A) (right : tree).

(** A parent: the node is its left child, or its right child. *)
Inductive frame :=
| FL (c : color) (x : A) (right : tree)
| FR (c : color) (left : tree) (x : A).

Definition plug (f : frame) (t : tree) : tree :=
  match f with FL c x r => Node c t x r | FR c l x => Node c l x t end.

(** The tree from its root. *)
Fixpoint zip (path : list frame) (t : tree) : tree :=
  match path with [] => t | f :: path' => zip path' (plug f t) end.

Definition IS_RED (t : tree) : bool := match t with Node Red _ _ _ => true | _ => false end.
Definition IS_BLACK (t : tree) : bool := negb (IS_RED t).
Definition set_color (c : color) (t : tree) : tree := match t with Leaf => Leaf | Node _ l x r => Node c l x r end.
Definition SET_RED (t : tree) : tree := set_color Red t.
Definition SET_BLACK (t : tree) : tree := set_color Black t.
Definition frame_color (f : frame) : color := match f with FL c _ _ | FR c _ _ => c end.

(** The nodes keep their colours.  [None]: the child that becomes the parent is NULL. *)
Definition left_rotate (x : tree) : option tree :=
  match x with Node cx l ex (Node cy yl ey yr) => Some (Node cy (Node cx l ex yl) ey yr) | _ => None end.
Definition right_rotate (x : tree) : option tree :=
  match x with Node cx (Node cy yl ey yr) ex r => Some (Node cy yl ey (Node cx yr ex r)) | _ => None end.

(** ** Insertion *)

(** The loop; [x] and its parent are red.  The result is the tree from the root.  [None]: there is no parent or no
    grandparent. *)
Fixpoint insert_fixup_loop (path : list frame) (x : tree) : option tree :=
  match path with
  | fp :: FL _ g y :: rest =>
      if IS_RED y then
        (* the parent and the uncle become black, the grandparent red; x is the grandparent *)
        let x := Node Red (SET_BLACK (plug fp x)) g (SET_BLACK y) in
        match rest with
        | f :: _ => if bool_decide (frame_color f = Red) then insert_fixup_loop rest x else Some (zip rest x)
        | [] => Some x
        end
      else
        p ← (match fp with FR _ _ _ => left_rotate (plug fp x) | FL _ _ _ => Some (plug fp x) end);
        t ← right_rotate (Node Red (SET_BLACK p) g y); Some (zip rest t)
  | fp :: FR _ y g :: rest =>
      if IS_RED y then
        let x := Node Red (SET_BLACK y) g (SET_BLACK (plug fp x)) in
        match rest with
        | f :: _ => if bool_decide (frame_color f = Red) then insert_fixup_loop rest x else Some (zip rest x)
        | [] => Some x
        end
      else
        p ← (match fp with FL _ _ _ => right_rotate (plug fp x) | FR _ _ _ => Some (plug fp x) end);
        t ← left_rotate (Node Red y g (SET_BLACK p)); Some (zip rest t)
  | _ => None
  end.

Definition tree_insert_fixup (path : list frame) (x : tree) : option tree :=
  t ← insert_fixup_loop path x; Some (SET_BLACK t).

(** The end of [aobf_link_free_block] and [bf_link_free_block]: [blk] is the new node at the end of the path. *)
Definition link_node (path : list frame) (blk : A) : option tree :=
  match path with
  | [] => Some (Node Black Leaf blk Leaf)
  | f :: _ =>
      let x := Node Red Leaf blk Leaf in
      if bool_decide (frame_color f = Red) then tree_insert_fixup path x else Some (zip path x)
  end.

(** ** Deletion *)

(** One round of the loop, when [x] is the left child of [p] and the sibling [y] is black; [up] is where the parent is now.  The
    result is the new [x] with its place, or the tree at the place of the parent when the loop is left. *)
Definition left_black_sibling (cp : color) (p : A) (y x : tree) (up : list frame) : option (list frame * tree + list frame * tree) :=
  match y with
  | Leaf => None
  | Node _ yl ey yr =>
      if IS_BLACK yl && IS_BLACK yr then Some (inl (up, Node cp x p (SET_RED y)))
      else
        y ← (if IS_BLACK yr then right_rotate (Node Red (SET_BLACK yl) ey yr) else Some y);
        match y with
        | Leaf => None
        | Node cy yl ey yr =>
            let '(cp, cy) := match cp with Red => (Black, Red) | Black => (Black, cy) end in
            t ← left_rotate (Node cp x p (Node cy yl ey (SET_BLACK yr))); Some (inr (up, t))
        end
  end.

(** A red sibling becomes black and the parent of [p], which becomes red, first. *)
Definition delete_left (cp : color) (p : A) (y x : tree) : option (list frame * tree + list frame * tree) :=
  if IS_RED y then
    t ← left_rotate (Node Red x p (SET_BLACK y));
    match t with
    | Node cy (Node cp _ _ y) ey yr => left_black_sibling cp p y x [FL cy ey yr]
    | _ => None
    end
  else left_black_sibling cp p y x [].

Definition right_black_sibling (cp : color) (p : A) (y x : tree) (up : list frame) : option (list frame * tree + list frame * tree) :=
  match y with
  | Leaf => None
  | Node _ yl ey yr =>
      if IS_BLACK yr && IS_BLACK yl then Some (inl (up, Node cp (SET_RED y) p x))
      else
        y ← (if IS_BLACK yl then left_rotate (Node Red yl ey (SET_BLACK yr)) else Some y);
        match y with
        | Leaf => None
        | Node cy yl ey yr =>
            let '(cp, cy) := match cp with Red => (Black, Red) | Black => (Black, cy) end in
            t ← right_rotate (Node cp (Node cy (SET_BLACK yl) ey yr) p x); Some (inr (up, t))
        end
  end.

Definition delete_right (cp : color) (p : A) (y x : tree) : option (list frame * tree + list frame * tree) :=
  if IS_RED y then
    t ← right_rotate (Node Red (SET_BLACK y) p x);
    match t with
    | Node cy yl ey (Node cp y _ _) => right_black_sibling cp p y x [FR cy yl ey]
    | _ => None
    end
  else right_black_sibling cp p y x [].

(** [while (IS_BLACK(x) && x->parent)], then [SET_BLACK(x)]; a missing [x] ([null_x]) is black. *)
Fixpoint delete_fixup (fuel : nat) (path : list frame) (x : tree) : option tree :=
  match fuel with
  | O => None
  | S fuel' =>
      match path with
      | f :: rest =>
          if IS_RED x then Some (zip path (SET_BLACK x))
          else
            r ← (match f with FL cp p y => delete_left cp p y x | FR cp y p => delete_right cp p y x end);
            match r with
            | inl (up, x) => delete_fixup fuel' (up ++ rest) x
            | inr (up, t) => Some (SET_BLACK (zip (up ++ rest) t))
            end
      | [] => Some (SET_BLACK x)
      end
  end.

(** [for(y = z->right; y->left; y = y->left)]: the frames below [z->right], and [y]. *)
Fixpoint leftmost (t : tree) (path : list frame) : list frame * tree :=
  match t with
  | Node c (Node _ _ _ _ as l) x r => leftmost l (FL c x r :: path)
  | _ => (path, t)
  end.

(** Splices out [y], whose place is [path]. *)
Definition splice (path : list frame) (y : tree) : option tree :=
  match y with
  | Leaf => None
  | Node cy yl _ yr =>
      let x := match yl with Leaf => yr | _ => yl end in
      match cy with
      | Black => delete_fixup (S (length path)) path x
      | Red => Some (zip path x)
      end
  end.

(** [tree_delete]: [z] is the subtree at the node to delete. *)
Definition tree_delete (path : list frame) (z : tree) : option tree :=
  match z with
  | Leaf => None
  | Node cz l ez r =>
      match l, r with
      | Leaf, _ | _, Leaf => splice path z
      | _, _ =>
          let '(below, y) := leftmost r [] in
          match y with
          | Leaf => None
          | Node _ _ ey _ => splice (below ++ FR cz l ey :: path) y    (* replace(z, y) *)
          end
      end
  end.

(** The position of a node, from a property that only it has. *)
Fixpoint locate (f : A → bool) (t : tree) (path : list frame) : option (list frame * tree) :=
  match t with
  | Leaf => None
  | Node c l x r =>
      if f x then Some (path, t)
      else match locate f l (FL c x r :: path) with Some z => Some z | None => locate f r (FR c l x :: path) end
  end.

Fixpoint elems (t : tree) : list A := match t with Leaf => [] | Node _ l x r => elems l ++ x :: elems r end.

End Tree.
Arguments tree : clear implicits.
Arguments frame : clear implicits.
