(* ===== verification/RbtSpec.v ===== *)
(** Red-black trees: the operations of [Rbt.v] keep the colour invariant, and change the sequence of the elements as they should. *)

From Stdlib Require Import Lia.
From stdpp Require Import base list option.
From S2P Require Import Prelude Rbt.

Create HintDb rbt.

Section Tree.
Context {A : Type}.
Implicit Types (t : tree A) (path : list (frame A)).

(** ** The invariant *)

(** [rb t c n]: the root of [t] has colour [c]; no red node has a red child; all paths to leaves have [n] black nodes. *)
Inductive rb : tree A → color → nat → Prop :=
| rb_leaf : rb Leaf Black 0
| rb_red l x r n : rb l Black n → rb r Black n → rb (Node Red l x r) Red n
| rb_black l x r cl cr n : rb l cl n → rb r cr n → rb (Node Black l x r) Black (S n).

(** A red-black tree: its root is black. *)
Definition rb_tree (t : tree A) : Prop := ∃ n, rb t Black n.

(** [ctx path c n]: a tree with [rb t c n] at the end of the path makes the whole a red-black tree. *)
Inductive ctx : list (frame A) → color → nat → Prop :=
| ctx_nil n : ctx [] Black n
| ctx_red_l x r n path : rb r Black n → ctx path Red n → ctx (FL Red x r :: path) Black n
| ctx_red_r l x n path : rb l Black n → ctx path Red n → ctx (FR Red l x :: path) Black n
| ctx_black_l x r cr c n path : rb r cr n → ctx path Black (S n) → ctx (FL Black x r :: path) c n
| ctx_black_r l x cl c n path : rb l cl n → ctx path Black (S n) → ctx (FR Black l x :: path) c n.

#[local] Hint Constructors rb ctx : rbt.

Lemma zip_rb path : ∀ c n t, ctx path c n → rb t c n → rb_tree (zip path t).
Proof.
  induction path as [|f path IH]; intros c n t Hc Ht; [inversion Hc; subst; by exists n|].
  inversion Hc; subst; cbn [zip plug]; (eapply IH; [eassumption|]); eauto with rbt.
Qed.

(** Where red is allowed, black is. *)
Lemma ctx_black path n : ctx path Red n → ctx path Black n.
Proof. inversion 1; subst; eauto with rbt. Qed.

Lemma ctx_any path c n : ctx path Red n → ctx path c n.
Proof. destruct c; [done|apply ctx_black]. Qed.

(** Conversely, a position in a red-black tree. *)
Lemma unzip_rb path : ∀ t, rb_tree (zip path t) → ∃ c n, ctx path c n ∧ rb t c n.
Proof.
  induction path as [|f path IH]; intros t Ht; cbn [zip] in Ht; [destruct Ht as [n Ht]; exists Black, n; eauto with rbt|].
  destruct (IH _ Ht) as (c & n & Hc & Hp). destruct f as [cf x r|cf l x]; inversion Hp; subst; eexists _, _; eauto with rbt.
Qed.

Lemma rb_black_set t c n : rb t c n → ∃ m, rb (SET_BLACK t) Black m.
Proof. destruct 1; cbn; eauto with rbt. Qed.

Lemma rb_red_black t n : rb t Red n → rb (SET_BLACK t) Black (S n).
Proof. inversion 1; subst; cbn; eauto with rbt. Qed.

Lemma rb_is_red t c n : rb t c n → IS_RED t = bool_decide (c = Red).
Proof. by destruct 1. Qed.

Lemma rb_tree_black t : rb_tree t → SET_BLACK t = t.
Proof. intros [n H]. by inversion H. Qed.

(** ** Elements *)
Fixpoint before (path : list (frame A)) : list A :=
  match path with [] => [] | FL _ _ _ :: path' => before path' | FR _ l x :: path' => before path' ++ elems l ++ [x] end.
Fixpoint after (path : list (frame A)) : list A :=
  match path with [] => [] | FL _ x r :: path' => x :: elems r ++ after path' | FR _ _ _ :: path' => after path' end.

Lemma elems_zip path : ∀ t, elems (zip path t) = before path ++ elems t ++ after path.
Proof.
  induction path as [|[c x r|c l x] path IH]; intros t; cbn [zip plug before after]; [by rewrite app_nil_r|..]; rewrite IH; cbn [elems];
    by simplify_list_eq.
Qed.

Lemma elems_set_color c t : elems (set_color c t) = elems t.
Proof. by destruct t. Qed.

Lemma left_rotate_elems t t' : left_rotate t = Some t' → elems t' = elems t.
Proof. destruct t as [|? ? ? []]; cbn; intros; simplify_eq. cbn. by simplify_list_eq. Qed.

Lemma right_rotate_elems t t' : right_rotate t = Some t' → elems t' = elems t.
Proof. destruct t as [|? [] ? ?]; cbn; intros; simplify_eq. cbn. by simplify_list_eq. Qed.

(** ** Insertion *)

(** The red node [x] at the end of the path, when it cannot be next to a red parent. *)
Definition done_or_red (path : list (frame A)) : Prop :=
  match path with f :: _ => frame_color f = Red | [] => False end.

(** What the loop returns. *)
Definition fixed (o : option (tree A)) (l : list A) : Prop := ∃ t c m, o = Some t ∧ rb t c m ∧ elems t = l.

Lemma fixed_zip path t c n : ctx path c n → rb t c n → fixed (Some (zip path t)) (before path ++ elems t ++ after path).
Proof. intros Hc Ht. destruct (zip_rb path c n t Hc Ht) as [m Hm]. eexists _, _, m. split; [done|]. split; [done|]. apply elems_zip. Qed.

(** The red pair has moved up to [x]: the next round, or the end of the loop. *)
Lemma fixup_next path x n l : ctx path Black n → rb x Red n → l = before path ++ elems x ++ after path →
  (done_or_red path → fixed (insert_fixup_loop path x) (before path ++ elems x ++ after path)) →
  fixed (match path with f :: _ => if bool_decide (frame_color f = Red) then insert_fixup_loop path x else Some (zip path x) | [] => Some x end) l.
Proof.
  intros Hc Hx -> Hrec. destruct path as [|f path].
  - eexists _, _, _. split; [done|]. split; [done|]. cbn. by rewrite app_nil_r.
  - case_bool_decide as Hf; [by apply Hrec|]. apply (fixed_zip _ _ Red n); [|done]. inversion Hc; subst; done || eauto with rbt.
Qed.

(** The uncle is red: [x] is now the grandparent, with red colour. *)
Ltac recolored Hrec :=
  match goal with H : bool_decide (?c = Red) = true |- _ => destruct c; [|discriminate H] end;
  eapply fixup_next; [eassumption|eauto using rb_red_black with rbt| |];
  [cbn [before after elems SET_BLACK set_color]; unfold SET_BLACK; rewrite elems_set_color; by simplify_list_eq
  |intros ?; eapply Hrec; cbn [length]; [lia|eassumption|eauto using rb_red_black with rbt|done]].

(** The uncle is black: the pair is rotated to [t]. *)
Ltac rotated t :=
  match goal with H : bool_decide (?c = Red) = false |- _ =>
    destruct c; [discriminate H|] end;
  cbn [left_rotate right_rotate SET_BLACK set_color mbind option_bind];
  lazymatch goal with |- fixed (Some (zip ?path2 _)) ?l =>
    replace l with (before path2 ++ elems t ++ after path2) by (cbn [before after elems]; by simplify_list_eq);
    eapply fixed_zip; [eassumption|]; eauto with rbt end.

Lemma insert_fixup_loop_rb k : ∀ path x n, (length path ≤ k)%nat → ctx path Black n → rb x Red n → done_or_red path →
  fixed (insert_fixup_loop path x) (before path ++ elems x ++ after path).
Proof.
  induction k as [|k IH]; intros path x n Hk Hc Hx Hred; [destruct path; cbn in Hk; [done|lia]|].
  assert (∀ path' x', (length path' < length path)%nat → ∀ n', ctx path' Black n' → rb x' Red n' → done_or_red path' →
    fixed (insert_fixup_loop path' x') (before path' ++ elems x' ++ after path')) as Hrec by (intros; eapply IH; eauto; lia).
  inversion Hx as [|xl ex xr ? Hxl Hxr|]; subst.
  inversion Hc as [|p r ? path1 Hr Hc1|l p ? path1 Hl Hc1|?|?]; subst; try done;
    inversion Hc1 as [| | |g y cy ? ? path2 Hy Hc2|y g cy ? ? path2 Hy Hc2]; subst; cbn [insert_fixup_loop plug SET_BLACK set_color];
    destruct (IS_RED y) eqn:Ey; rewrite (rb_is_red _ _ _ Hy) in Ey.
  - recolored Hrec.
  - rotated (Node Black (Node Red xl ex xr) p (Node Red r g y)).
  - recolored Hrec.
  - rotated (Node Black (Node Red y g xl) ex (Node Red xr p r)).
  - recolored Hrec.
  - rotated (Node Black (Node Red l p xl) ex (Node Red xr g y)).
  - recolored Hrec.
  - rotated (Node Black (Node Red y g l) p (Node Red xl ex xr)).
Qed.

Lemma link_node_rb path blk : ctx path Black 0 →
  ∃ t, link_node path blk = Some t ∧ rb_tree t ∧ elems t = before path ++ blk :: after path.
Proof.
  intros Hc. assert (rb (Node Red Leaf blk Leaf) Red 0) as Hx by eauto with rbt. destruct path as [|f path].
  { eexists. split; [done|]. split; [exists 1%nat; eauto with rbt|done]. }
  unfold link_node. case_bool_decide as Hf.
  - destruct (insert_fixup_loop_rb _ _ _ 0 (le_n _) Hc Hx Hf) as (t & c & m & E & Ht & El). unfold tree_insert_fixup. rewrite E.
    eexists. split; [reflexivity|]. split; [by eapply rb_black_set|]. unfold SET_BLACK. by rewrite elems_set_color, El.
  - destruct (fixed_zip (f :: path) (Node Red Leaf blk Leaf) Red 0) as (t & c & m & E & Ht & El); [inversion Hc; subst; done || eauto with rbt|done|].
    injection E as <-. eexists. split; [reflexivity|]. split; [|by rewrite elems_zip].
    eapply (zip_rb _ Red 0); [inversion Hc; subst; done || eauto with rbt|done].
Qed.

(** ** Deletion *)

(** The sequence of the whole tree with [t] at the end of the path. *)
Definition whole (path : list (frame A)) (t : tree A) : list A := before path ++ elems t ++ after path.

(** What one round of the loop promises when one black node is missing below the parent: the missing node has moved up to a black
    node, or to a red one that becomes black, or it has been made up for. *)
Definition round_ok (rest : list (frame A)) (n : nat) (l : list A) (r : list (frame A) * tree A + list (frame A) * tree A) : Prop :=
  match r with
  | inl (up, x) => whole (up ++ rest) x = l ∧
      ((up = [] ∧ rb x Black (S n) ∧ ctx rest Black (S (S n))) ∨
       (IS_RED x = true ∧ rb (SET_BLACK x) Black (S n) ∧ ctx (up ++ rest) Black (S n)))
  | inr (up, t) => whole (up ++ rest) t = l ∧ ∃ c m, ctx (up ++ rest) c m ∧ rb t c m
  end.

Ltac whole_eq := unfold whole; cbn [before after elems app plug set_color]; unfold SET_BLACK, SET_RED; rewrite ?elems_set_color; by simplify_list_eq.

(** The context of the parent: red, or black with [x] directly below it. *)
Definition parent_ok (cp : color) (up rest : list (frame A)) (n : nat) : Prop :=
  match cp with Red => ctx (up ++ rest) Red (S n) | Black => up = [] ∧ ctx rest Black (S (S n)) end.

Lemma left_black_sibling_ok cp p y x up rest n : rb y Black (S n) → rb x Black n → parent_ok cp up rest n →
  ∃ r, left_black_sibling cp p y x up = Some r ∧ round_ok rest n (whole (FL cp p y :: up ++ rest) x) r.
Proof.
  intros Hy Hx Hcp. inversion Hy as [| |yl ey yr c1 c2 ? Hl Hr]; subst. cbn [left_black_sibling]. unfold IS_BLACK.
  rewrite (rb_is_red _ _ _ Hl), (rb_is_red _ _ _ Hr). unfold round_ok, parent_ok in *.
  destruct c2; [|destruct c1]; cbn.
  - inversion Hr as [|b1 b b2 ? Hb1 Hb2|]; subst. rewrite andb_false_r. destruct cp; cbn.
    + eexists. split; [reflexivity|]. split; [whole_eq|]. exists Red, (S n). eauto with rbt.
    + destruct Hcp as [-> Hcp]. eexists. split; [reflexivity|]. split; [whole_eq|]. exists Black, (S (S n)). eauto with rbt.
  - inversion Hl as [|a1 a a2 ? Ha1 Ha2|]; subst. destruct cp; cbn.
    + eexists. split; [reflexivity|]. split; [whole_eq|]. exists Red, (S n). eauto 6 with rbt.
    + destruct Hcp as [-> Hcp]. eexists. split; [reflexivity|]. split; [whole_eq|]. exists Black, (S (S n)). eauto 6 with rbt.
  - eexists. split; [reflexivity|]. split; [whole_eq|]. destruct cp.
    + right. split; [done|]. split; [cbn; eauto with rbt|by apply ctx_black].
    + left. destruct Hcp as [-> Hcp]. split; [done|]. split; [eauto with rbt|done].
Qed.

Lemma right_black_sibling_ok cp p y x up rest n : rb y Black (S n) → rb x Black n → parent_ok cp up rest n →
  ∃ r, right_black_sibling cp p y x up = Some r ∧ round_ok rest n (whole (FR cp y p :: up ++ rest) x) r.
Proof.
  intros Hy Hx Hcp. inversion Hy as [| |yl ey yr c1 c2 ? Hl Hr]; subst. cbn [right_black_sibling]. unfold IS_BLACK.
  rewrite (rb_is_red _ _ _ Hl), (rb_is_red _ _ _ Hr). unfold round_ok, parent_ok in *.
  destruct c1; [|destruct c2]; cbn.
  - inversion Hl as [|a1 a a2 ? Ha1 Ha2|]; subst. rewrite andb_false_r. destruct cp; cbn.
    + eexists. split; [reflexivity|]. split; [whole_eq|]. exists Red, (S n). eauto with rbt.
    + destruct Hcp as [-> Hcp]. eexists. split; [reflexivity|]. split; [whole_eq|]. exists Black, (S (S n)). eauto with rbt.
  - inversion Hr as [|b1 b b2 ? Hb1 Hb2|]; subst. destruct cp; cbn.
    + eexists. split; [reflexivity|]. split; [whole_eq|]. exists Red, (S n). eauto 6 with rbt.
    + destruct Hcp as [-> Hcp]. eexists. split; [reflexivity|]. split; [whole_eq|]. exists Black, (S (S n)). eauto 6 with rbt.
  - eexists. split; [reflexivity|]. split; [whole_eq|]. destruct cp.
    + right. split; [done|]. split; [cbn; eauto with rbt|by apply ctx_black].
    + left. destruct Hcp as [-> Hcp]. split; [done|]. split; [eauto with rbt|done].
Qed.

(** One round, whatever the sibling. *)
Definition delete_round (f : frame A) (x : tree A) : option (list (frame A) * tree A + list (frame A) * tree A) :=
  match f with FL cp p y => delete_left cp p y x | FR cp y p => delete_right cp p y x end.

Lemma delete_round_ok f x rest n : ctx (f :: rest) Black (S n) → rb x Black n →
  ∃ r, delete_round f x = Some r ∧ round_ok rest n (whole (f :: rest) x) r.
Proof.
  intros Hc Hx. inversion Hc as [|p y ? ? Hy Hc'|y p ? ? Hy Hc'|p y cy ? ? ? Hy Hc'|y p cy ? ? ? Hy Hc']; subst; cbn [delete_round];
    unfold delete_left, delete_right; rewrite (rb_is_red _ _ _ Hy).
  - by apply (left_black_sibling_ok Red p y x [] rest n).
  - by apply (right_black_sibling_ok Red p y x [] rest n).
  - destruct cy; [|by apply (left_black_sibling_ok Black p y x [] rest n)].
    inversion Hy as [|yl ey yr ? Hl Hr|]; subst. cbn -[whole round_ok].
    destruct (left_black_sibling_ok Red p yl x [FL Black ey yr] rest n Hl Hx) as (r & E & H); [cbn; eauto with rbt|].
    exists r. split; [done|]. assert (whole (FL Black p (Node Red yl ey yr) :: rest) x = whole (FL Red p yl :: FL Black ey yr :: rest) x) as -> by whole_eq. done.
  - destruct cy; [|by apply (right_black_sibling_ok Black p y x [] rest n)].
    inversion Hy as [|yl ey yr ? Hl Hr|]; subst. cbn -[whole round_ok].
    destruct (right_black_sibling_ok Red p yr x [FR Black yl ey] rest n Hr Hx) as (r & E & H); [cbn; eauto with rbt|].
    exists r. split; [done|]. assert (whole (FR Black (Node Red yl ey yr) p :: rest) x = whole (FR Red yr p :: FR Black yl ey :: rest) x) as -> by whole_eq. done.
Qed.

Lemma whole_black path x : whole path (SET_BLACK x) = whole path x.
Proof. unfold whole, SET_BLACK. by rewrite elems_set_color. Qed.

(** The fuel is enough: every round but the last moves [x] up. *)
Lemma delete_fixup_ok fuel : ∀ path x c n, (length path < fuel)%nat → ctx path Black (S n) → rb x c n →
  ∃ t, delete_fixup fuel path x = Some t ∧ rb_tree t ∧ elems t = whole path x.
Proof.
  induction fuel as [|fuel IH]; intros path x c n Hf Hc Hx; [lia|]. cbn [delete_fixup]. destruct path as [|f rest].
  { eexists. split; [done|]. split; [by eapply rb_black_set|]. unfold whole, SET_BLACK. cbn. by rewrite elems_set_color, app_nil_r. }
  rewrite (rb_is_red _ _ _ Hx). destruct c; cbn [bool_decide].
  - eexists. split; [done|]. split; [by eapply zip_rb; [|apply rb_red_black]|]. rewrite elems_zip. apply (whole_black (f :: rest)).
  - cbn -[whole]. fold (delete_round f x). destruct (delete_round_ok f x rest n Hc Hx) as (r & -> & Hr). cbn [mbind option_bind].
    destruct r as [[up x']|[up t]]; destruct Hr as [<- Hr].
    + destruct Hr as [(-> & Hx' & Hc')|(Hred & Hx' & Hc')].
      * apply (IH rest x' Black (S n)); [cbn in Hf; lia|done..].
      * destruct fuel as [|fuel]; [cbn in Hf; lia|]. cbn [delete_fixup]. destruct (up ++ rest) as [|g rest'] eqn:Ep.
        -- eexists. split; [done|]. split; [by eexists|]. unfold whole, SET_BLACK. cbn. by rewrite elems_set_color, app_nil_r.
        -- rewrite Hred. eexists. split; [done|]. split; [by eapply zip_rb|]. rewrite elems_zip. apply (whole_black (g :: rest')).
    + destruct Hr as (c' & m & Hc' & Ht). destruct (zip_rb _ _ _ _ Hc' Ht) as [k Hk]. eexists. split; [done|].
      split; [by eapply rb_black_set|]. unfold SET_BLACK. rewrite elems_set_color. apply elems_zip.
Qed.

Lemma rb_0_black t : rb t Black 0 → t = Leaf.
Proof. by inversion 1. Qed.

(** Splicing out a node with at most one child. *)
Lemma splice_ok path c n cy yl ey yr : ctx path c n → rb (Node cy yl ey yr) c n → yl = Leaf ∨ yr = Leaf →
  ∃ t, splice path (Node cy yl ey yr) = Some t ∧ rb_tree t ∧ elems t = before path ++ elems yl ++ elems yr ++ after path.
Proof.
  intros Hc Hy Hone. cbn [splice]. set (x := match yl with Leaf => yr | _ => yl end).
  assert (before path ++ elems yl ++ elems yr ++ after path = whole path x) as ->.
  { unfold whole, x. destruct Hone as [-> | -> ]; [done|]. destruct yl; [done|]. cbn [elems]. by simplify_list_eq. }
  inversion Hy as [|? ? ? ? Hl Hr|? ? ? cl cr m Hl Hr]; subst.
  - assert (n = 0%nat) as -> by (destruct Hone as [-> | -> ]; [by inversion Hl|by inversion Hr]).
    apply rb_0_black in Hl as ->. apply rb_0_black in Hr as ->. eexists. split; [done|].
    split; [eapply zip_rb; [by apply ctx_black|eauto with rbt]|apply elems_zip].
  - assert (m = 0%nat ∧ ∃ cx, rb x cx 0) as [-> [cx Hx]].
    { unfold x. destruct Hone as [-> | -> ]; [inversion Hl; subst; eauto|inversion Hr; subst]. split; [done|]. destruct yl; eauto. }
    eapply delete_fixup_ok; [lia|eassumption..].
Qed.

Lemma zip_app path1 : ∀ path2 t, zip (path1 ++ path2) t = zip path2 (zip path1 t).
Proof. induction path1 as [|f path1 IH]; intros path2 t; [done|]. apply IH. Qed.

Lemma before_app path1 path2 : before (path1 ++ path2) = before path2 ++ before path1.
Proof. induction path1 as [|[] path1 IH]; cbn; [by rewrite app_nil_r|done|]. rewrite IH. by simplify_list_eq. Qed.

Lemma after_app path1 path2 : after (path1 ++ path2) = after path1 ++ after path2.
Proof. induction path1 as [|[] path1 IH]; cbn; [done| |done]. rewrite IH. by simplify_list_eq. Qed.

Lemma leftmost_spec t : ∀ path, t ≠ Leaf → ∃ below c ey yr, leftmost t path = (below ++ path, Node c Leaf ey yr) ∧
  zip below (Node c Leaf ey yr) = t ∧ before below = [].
Proof.
  induction t as [|c l IHl x r _]; intros path Hne; [done|]. destruct l as [|c' l1 x' l2].
  - exists [], c, x, r. done.
  - destruct (IHl (FL c x r :: path)) as (below & d & ey & yr & E & Hz & Hb); [done|]. exists (below ++ [FL c x r]), d, ey, yr.
    split; [cbn [leftmost] in *; by rewrite E, <- app_assoc|]. split.
    + by rewrite zip_app, Hz.
    + by rewrite before_app, Hb.
Qed.

(** The colours decide whether a tree fits at the end of a path, not the elements. *)
Lemma ctx_same_shape below path1 path2 : (∀ c n, ctx path1 c n → ctx path2 c n) → ∀ c n, ctx (below ++ path1) c n → ctx (below ++ path2) c n.
Proof. intros H. induction below as [|f below IH]; intros c n Hc; [by apply H|]. inversion Hc; subst; eauto with rbt. Qed.

Lemma leaf_or (l r : tree A) : (l = Leaf ∨ r = Leaf) ∨ (l ≠ Leaf ∧ r ≠ Leaf).
Proof. destruct l, r; auto. Qed.

Theorem tree_delete_ok path cz l ez r : rb_tree (zip path (Node cz l ez r)) →
  ∃ t, tree_delete path (Node cz l ez r) = Some t ∧ rb_tree t ∧ elems t = before path ++ elems l ++ elems r ++ after path.
Proof.
  intros Ht. destruct (leaf_or l r) as [Hone|[Hl Hr]].
  { destruct (unzip_rb _ _ Ht) as (c & n & Hc & Hz). destruct (splice_ok _ _ _ _ _ _ _ Hc Hz Hone) as (t & E & H).
    exists t. split; [|done]. cbn [tree_delete]. destruct l; [done|]. destruct Hone as [? | -> ]; done. }
  destruct (leftmost_spec r [] Hr) as (below & cy & ey & yr & E & Hz & Hb). rewrite app_nil_r in E.
  assert (rb_tree (zip (below ++ FR cz l ez :: path) (Node cy Leaf ey yr))) as Hy by (rewrite zip_app; cbn; by rewrite Hz).
  destruct (unzip_rb _ _ Hy) as (c & n & Hc & Hy').
  destruct (splice_ok (below ++ FR cz l ey :: path) c n cy Leaf ey yr) as (t & Es & Hrb & He); [|done|by left|].
  { eapply ctx_same_shape, Hc. intros c' n' Hf. inversion Hf; subst; eauto with rbt. }
  exists t. split; [|split; [done|]].
  - cbn [tree_delete]. destruct l; [done|]. destruct r; [done|]. by rewrite E.
  - rewrite He, before_app, after_app, Hb, <- Hz, elems_zip, Hb. cbn. by simplify_list_eq.
Qed.

(** ** Finding a node *)
Lemma locate_some f t : ∀ path path' z, locate f t path = Some (path', z) →
  ∃ below c l x r, path' = below ++ path ∧ z = Node c l x r ∧ f x = true ∧ zip below z = t.
Proof.
  induction t as [|c l IHl x r IHr]; intros path path' z; cbn; [done|]. destruct (f x) eqn:Ex.
  { intros [= <- <-]. by exists [], c, l, x, r. }
  destruct (locate f l _) as [[path1 z1]|] eqn:El; [intros [= <- <-]; apply IHl in El as H|intros Er; apply IHr in Er as H];
    destruct H as (below & c' & l' & x' & r' & -> & -> & Hf & Hz); eexists (below ++ [_]), c', l', x', r';
    rewrite <- app_assoc, zip_app, Hz; done.
Qed.

Lemma locate_none f t : ∀ path, locate f t path = None → ∀ x, x ∈ elems t → f x = false.
Proof.
  induction t as [|c l IHl x r IHr]; intros path; cbn; [by intros _ x ?%elem_of_nil|]. destruct (f x) eqn:Ex; [done|].
  destruct (locate f l _) eqn:El; [done|]. intros Er y [Hy|[->|Hy]%elem_of_cons]%elem_of_app; eauto.
Qed.

Lemma locate_spec f t y : y ∈ elems t → f y = true →
  ∃ path c l x r, locate f t [] = Some (path, Node c l x r) ∧ f x = true ∧ zip path (Node c l x r) = t.
Proof.
  intros Hy Hf. destruct (locate f t []) as [[path z]|] eqn:E.
  - destruct (locate_some _ _ _ _ _ E) as (below & c & l & x & r & -> & -> & Hfx & Hz). rewrite app_nil_r. by eexists _, c, l, x, r.
  - by rewrite (locate_none _ _ _ E y Hy) in Hf.
Qed.

End Tree.
