(* ===== verification/FreeBlocks.v ===== *)
(** The interface between [erl_alloc_util.c] and an allocation strategy: the callbacks [get_free_block], [link_free_block] and
    [unlink_free_block] of [Allctr_t] ([erl_alloc_util.h]), and what the strategies promise about them.

    What a strategy keeps is, for its client, a finite map from the addresses of the free blocks to their sizes. *)

From Stdlib Require Import Lia Sorting.Sorted.
From stdpp Require Import base numbers list option gmap sorting.
From S2P Require Import Prelude.
Open Scope Z_scope.

(** A free block: its address and the size in its header, which does not change while the block is linked. *)
Record Block_t := Block { blk_addr : Z; BLK_SZ : Z }.
#[export] Instance Block_eq_dec : EqDecision Block_t.
Proof. solve_decision. Defined.

(** A block that the caller already has: [cand_blk] and [cand_size]. *)
Definition candidate := option (Z * Z).

(** The callbacks.  [None]: the code follows a NULL pointer. *)
Class FreeBlockOps (S : Type) := {
  fb_init : S;
  get_free_block : S → Z → candidate → option (option Block_t * S);
  link_free_block : S → Block_t → option S;
  unlink_free_block : S → Z → option S }.

(** What the caller can rely on. *)
Class FreeBlockLaws (S : Type) `{FreeBlockOps S} := {
  fb_ok : S → Prop;
  fb_map : S → gmap Z Z;
  fb_init_ok : fb_ok fb_init ∧ fb_map fb_init = ∅;
  fb_link_ok s b : fb_ok s → fb_map s !! blk_addr b = None →
    ∃ s', link_free_block s b = Some s' ∧ fb_ok s' ∧ fb_map s' = <[blk_addr b := BLK_SZ b]> (fb_map s);
  fb_unlink_ok s a : fb_ok s → is_Some (fb_map s !! a) →
    ∃ s', unlink_free_block s a = Some s' ∧ fb_ok s' ∧ fb_map s' = delete a (fb_map s);
  fb_get_ok s size cand : fb_ok s →
    ∃ r s', get_free_block s size cand = Some (r, s') ∧ fb_ok s' ∧
      match r with
      | Some b => fb_map s !! blk_addr b = Some (BLK_SZ b) ∧ size ≤ BLK_SZ b ∧ fb_map s' = delete (blk_addr b) (fb_map s)
      | None => s' = s ∧ (cand = None → map_Forall (λ _ sz, sz < size) (fb_map s))
      end }.

(** ** Lists of blocks as maps *)
Definition blk_pair (b : Block_t) : Z * Z := (blk_addr b, BLK_SZ b).
Definition blk_map (l : list Block_t) : gmap Z Z := list_to_map (blk_pair <$> l).
Definition distinct (l : list Block_t) : Prop := NoDup (blk_addr <$> l).

Lemma fst_blk_pair l : (blk_pair <$> l).*1 = blk_addr <$> l.
Proof. by rewrite <- list_fmap_compose. Qed.

Lemma distinct_perm l1 l2 : l1 ≡ₚ l2 → distinct l1 → distinct l2.
Proof. unfold distinct. by intros ->. Qed.

Lemma distinct_cons b l : distinct (b :: l) ↔ blk_map l !! blk_addr b = None ∧ distinct l.
Proof. unfold distinct, blk_map. rewrite fmap_cons, NoDup_cons, <- not_elem_of_list_to_map, fst_blk_pair. done. Qed.

Lemma blk_map_perm l1 l2 : l1 ≡ₚ l2 → distinct l1 → blk_map l1 = blk_map l2.
Proof. intros Hp Hd. apply list_to_map_proper; [by rewrite fst_blk_pair|by rewrite Hp]. Qed.

Lemma blk_map_cons b l : blk_map (b :: l) = <[blk_addr b := BLK_SZ b]> (blk_map l).
Proof. done. Qed.

Lemma blk_map_lookup l a sz : distinct l → blk_map l !! a = Some sz ↔ Block a sz ∈ l.
Proof.
  intros Hd. unfold blk_map. rewrite <- elem_of_list_to_map by by rewrite fst_blk_pair.
  rewrite list_elem_of_fmap. split; [intros ([a' sz'] & [= <- <-] & ?); done|intros ?; by exists (Block a sz)].
Qed.

Lemma blk_map_elem l b : distinct l → b ∈ l → blk_map l !! blk_addr b = Some (BLK_SZ b).
Proof. intros Hd Hb. apply blk_map_lookup; [done|]. by destruct b. Qed.

(** Adding and removing a block, up to the order of the list. *)
Lemma blk_map_add l l' b : distinct l → blk_map l !! blk_addr b = None → l' ≡ₚ b :: l →
  distinct l' ∧ blk_map l' = <[blk_addr b := BLK_SZ b]> (blk_map l).
Proof.
  intros Hd Hb Hp. assert (distinct (b :: l)) as Hd' by by apply distinct_cons. split; [by eapply distinct_perm|].
  by rewrite <- (blk_map_perm _ _ (symmetry Hp) Hd').
Qed.

Lemma blk_map_del l l' b : distinct l → l ≡ₚ b :: l' → distinct l' ∧ blk_map l' = delete (blk_addr b) (blk_map l).
Proof.
  intros Hd Hp. pose proof (distinct_perm _ _ Hp Hd) as [Hb Hd']%distinct_cons. split; [done|].
  rewrite (blk_map_perm _ _ Hp Hd), blk_map_cons. by rewrite delete_insert_id.
Qed.

(** ** Sorted sequences with one element more or less *)
Section Sorted.
Context {A : Type} (R : relation A).

Lemma sorted_add l1 l2 x : StronglySorted R (l1 ++ l2) → Forall (λ y, R y x) l1 → Forall (R x) l2 → StronglySorted R (l1 ++ x :: l2).
Proof.
  rewrite !StronglySorted_app, StronglySorted_cons, !Forall_forall. intros (H & H1 & H2) Hl Hr.
  split; [|done]. intros y z Hy [->|Hz]%elem_of_cons; eauto.
Qed.

Lemma sorted_del l1 l2 x : StronglySorted R (l1 ++ x :: l2) → StronglySorted R (l1 ++ l2).
Proof. rewrite !StronglySorted_app, StronglySorted_cons. intros (H & H1 & _ & H2). split; [|done]. intros; apply H; [done|by right]. Qed.

Lemma sorted_mid l1 l2 x : StronglySorted R (l1 ++ x :: l2) → Forall (λ y, R y x) l1 ∧ Forall (R x) l2.
Proof.
  rewrite StronglySorted_app, StronglySorted_cons. intros (H & _ & Hr & _). split; [|done]. apply Forall_forall.
  intros y Hy. apply H; [done|]. apply elem_of_cons. by left.
Qed.

Lemma sorted_l l1 l2 x : StronglySorted R (l1 ++ x :: l2) → StronglySorted R l1.
Proof. by intros (_ & H & _)%StronglySorted_app. Qed.

Lemma sorted_r l1 l2 x : StronglySorted R (l1 ++ x :: l2) → StronglySorted R l2.
Proof. by intros (_ & _ & [_ H]%StronglySorted_cons)%StronglySorted_app. Qed.
End Sorted.
