(* ===== verification/BestFit.v ===== *)
(** The allocation strategies of [erts/emulator/beam/erl_bestfit_alloc.c]: address order best fit ([aobf_*]) and best fit ([bf_*]).

    A free block is its address and the size in its header; [erl_alloc_util.c] does not change the size of a block while the block
    is linked.  The state of the allocator is the tree at [root].  A node of the best fit tree carries the list of the blocks of its
    size: the tree node itself and what is reached from it by [LIST_NEXT]; [IS_TREE_NODE] holds of the first of them only.

    [None] as the result of an operation: the code would follow a NULL pointer, or read a block that is not linked. *)

From stdpp Require Import base numbers list option.
From S2P Require Import Prelude Rbt FreeBlocks.
Open Scope Z_scope.

(** ** Address order best fit *)
Module Aobf.

(** The descent of [aobf_link_free_block]: the path to the NULL pointer where the block goes. *)
Fixpoint aobf_descend (blk : Block_t) (x : tree Block_t) (path : list (frame Block_t)) : list (frame Block_t) :=
  match x with
  | Leaf => path
  | Node c l b r =>
      let size := BLK_SZ b in
      if (BLK_SZ blk <? size) || ((BLK_SZ blk =? size) && (blk_addr blk <? blk_addr b))
      then aobf_descend blk l (FL c b r :: path)
      else aobf_descend blk r (FR c l b :: path)
  end.

Definition aobf_link_free_block (root : tree Block_t) (blk : Block_t) : option (tree Block_t) := link_node (aobf_descend blk root []) blk.

(** [tree_delete] on the node at the address. *)
Definition aobf_unlink_free_block (root : tree Block_t) (blk : Z) : option (tree Block_t) :=
  '(path, z) ← locate (λ b, blk_addr b =? blk) root []; tree_delete path z.

(** [while (x)]. *)
Fixpoint aobf_search (size : Z) (x : tree Block_t) (blk : option Block_t) : option Block_t :=
  match x with
  | Leaf => blk
  | Node _ l b r => if BLK_SZ b <? size then aobf_search size r blk else aobf_search size l (Some b)
  end.

Definition aobf_get_free_block (root : tree Block_t) (size : Z) (cand : candidate) : option (option Block_t * tree Block_t) :=
  match aobf_search size root None with
  | None => Some (None, root)
  | Some blk =>
      let better := match cand with
        | Some (cand_blk, cand_size) => (cand_size <? BLK_SZ blk) || ((cand_size =? BLK_SZ blk) && (cand_blk <? blk_addr blk))
        | None => false
        end in
      if better then Some (None, root)
      else root ← aobf_unlink_free_block root (blk_addr blk); Some (Some blk, root)
  end.

End Aobf.

(** ** Best fit *)
Module Bf.

(** A tree node and the blocks that follow it by [LIST_NEXT]. *)
Record bf_node := BfNode { node : Block_t; LIST_NEXT : list Block_t }.

(** The descent of [bf_link_free_block]: to a node of the same size, or to a NULL pointer. *)
Fixpoint bf_descend (blk_sz : Z) (x : tree bf_node) (path : list (frame bf_node)) : list (frame bf_node) * tree bf_node :=
  match x with
  | Leaf => (path, Leaf)
  | Node c l b r =>
      let size := BLK_SZ (node b) in
      if blk_sz =? size then (path, x)
      else if blk_sz <? size then bf_descend blk_sz l (FL c b r :: path)
      else bf_descend blk_sz r (FR c l b :: path)
  end.

Definition bf_link_free_block (root : tree bf_node) (blk : Block_t) : option (tree bf_node) :=
  match bf_descend (BLK_SZ blk) root [] with
  | (path, Node c l x r) => Some (zip path (Node c l (BfNode (node x) (blk :: LIST_NEXT x)) r))
  | (path, Leaf) => link_node path (BfNode blk [])
  end.

(** The block is the node or on its list. *)
Definition holds (blk : Z) (b : bf_node) : bool :=
  (blk_addr (node b) =? blk) || existsb (λ e, blk_addr e =? blk) (LIST_NEXT b).

(** [LIST_NEXT(LIST_PREV(x)) = LIST_NEXT(x)]. *)
Fixpoint bf_unchain (blk : Z) (l : list Block_t) : list Block_t :=
  match l with [] => [] | e :: l' => if blk_addr e =? blk then l' else e :: bf_unchain blk l' end.

Definition bf_unlink_free_block (root : tree bf_node) (blk : Z) : option (tree bf_node) :=
  '(path, z) ← locate (holds blk) root [];
  match z with
  | Leaf => None
  | Node c l x r =>
      if negb (blk_addr (node x) =? blk) then Some (zip path (Node c l (BfNode (node x) (bf_unchain blk (LIST_NEXT x))) r))
      else match LIST_NEXT x with
           | next :: rest => Some (zip path (Node c l (BfNode next rest) r))    (* replace(&bfallctr->root, x, LIST_NEXT(x)) *)
           | [] => tree_delete path z
           end
  end.

(** [while (x)], left at a perfect fit. *)
Fixpoint bf_search (size : Z) (x : tree bf_node) (blk : option bf_node) : option bf_node :=
  match x with
  | Leaf => blk
  | Node _ l b r =>
      if BLK_SZ (node b) <? size then bf_search size r blk
      else if BLK_SZ (node b) =? size then Some b
      else bf_search size l (Some b)
  end.

Definition bf_get_free_block (root : tree bf_node) (size : Z) (cand : candidate) : option (option Block_t * tree bf_node) :=
  match bf_search size root None with
  | None => Some (None, root)
  | Some b =>
      let better := match cand with Some (_, cand_size) => cand_size <=? BLK_SZ (node b) | None => false end in
      if better then Some (None, root)
      else
        let blk := match LIST_NEXT b with next :: _ => next | [] => node b end in
        root ← bf_unlink_free_block root (blk_addr blk); Some (Some blk, root)
  end.

End Bf.
