(* ===== verification/BestFitSpec.v ===== *)
(** The two strategies: their invariants, and what each operation does to the blocks. *)

From Stdlib Require Import Lia Sorting.Sorted.
From stdpp Require Import base numbers list option gmap sorting.
From S2P Require Import Prelude Rbt RbtSpec FreeBlocks BestFit.
Open Scope Z_scope.

(** The tree at a position of a red-black tree with one node exchanged. *)
Lemma zip_other_element {A} path c (l : tree A) x x' r : rb_tree (zip path (Node c l x r)) → rb_tree (zip path (Node c l x' r)).
Proof.
  intros (c' & n & Hc & Hn)%unzip_rb. eapply zip_rb; [done|]. inversion Hn; subst; econstructor; eassumption.
Qed.

(** A NULL pointer of a red-black tree. *)
Lemma unzip_leaf {A} (path : list (frame A)) : rb_tree (zip path Leaf) → ctx path Black 0.
Proof. intros (c & n & Hc & Hl)%unzip_rb. by inversion Hl; subst. Qed.

(** The first element with a property. *)
Definition first {A} (f : A → bool) (l : list A) : option A := head (filter (λ x, f x = true) l).

Lemma first_app {A} (f : A → bool) l1 l2 : first f (l1 ++ l2) = match first f l1 with Some x => Some x | None => first f l2 end.
Proof. unfold first. rewrite filter_app. by destruct (filter _ l1). Qed.

Lemma first_cons {A} (f : A → bool) x l : first f (x :: l) = if f x then Some x else first f l.
Proof. unfold first. rewrite filter_cons. destruct (f x); by case_decide. Qed.

Lemma first_none {A} (f : A → bool) l : Forall (λ x, f x = false) l → first f l = None.
Proof. induction 1 as [|x l Hx _ IH]; [done|]. by rewrite first_cons, Hx. Qed.

Lemma first_none_inv {A} (f : A → bool) l : first f l = None → Forall (λ x, f x = false) l.
Proof. induction l as [|x l IH]; [done|]. rewrite first_cons. destruct (f x) eqn:E; [done|]. eauto. Qed.

(** In a sorted sequence it is below all others that have the property. *)
Lemma first_some {A} (R : relation A) (f : A → bool) l x : StronglySorted R l → first f l = Some x →
  x ∈ l ∧ f x = true ∧ ∀ y, y ∈ l → f y = true → y = x ∨ R x y.
Proof.
  induction 1 as [|z l Hs IH Hz]; [done|]. rewrite first_cons. destruct (f z) eqn:E.
  - intros [= <-]. split; [by left|]. split; [done|]. intros y [->|Hy]%elem_of_cons _; [by left|]. right. rewrite Forall_forall in Hz. auto.
  - intros (Hx & Hf & Hy)%IH. split; [by right|]. split; [done|]. intros y [->|Hy']%elem_of_cons Hfy; [by rewrite E in Hfy|auto].
Qed.

(** ** Address order best fit *)
Module AobfSpec.
Import Aobf.

(** The order of the tree: by size, then by address. *)
Definition lt_blk (b1 b2 : Block_t) : Prop := BLK_SZ b1 < BLK_SZ b2 ∨ (BLK_SZ b1 = BLK_SZ b2 ∧ blk_addr b1 < blk_addr b2).

Definition inv (root : tree Block_t) : Prop := rb_tree root ∧ StronglySorted lt_blk (elems root) ∧ distinct (elems root).

Definition blocks (root : tree Block_t) : gmap Z Z := blk_map (elems root).

Lemma aobf_descend_spec blk t : ∀ path, StronglySorted lt_blk (elems t) → blk_addr blk ∉ blk_addr <$> elems t →
  ∃ below, aobf_descend blk t path = below ++ path ∧ zip below Leaf = t ∧
    Forall (λ b, lt_blk b blk) (before below) ∧ Forall (lt_blk blk) (after below).
Proof.
  induction t as [|c l IHl b r IHr]; intros path Hs Hn; cbn [aobf_descend elems] in *; [by exists []|].
  assert (blk_addr blk ≠ blk_addr b) by set_solver. pose proof (sorted_mid _ _ _ _ Hs) as [Hsl Hsr]. case_match eqn:E.
  - destruct (IHl (FL c b r :: path)) as (below & -> & Hz & Hb & Ha); [by eapply sorted_l|set_solver|].
    exists (below ++ [FL c b r]). rewrite <- app_assoc, zip_app, Hz, before_app, after_app. cbn. rewrite !app_nil_r.
    assert (lt_blk blk b) by (unfold lt_blk; lia). split; [done|]. split; [done|]. split; [done|].
    rewrite Forall_app, Forall_cons. split; [done|]. split; [done|]. eapply Forall_impl; [exact Hsr|]. unfold lt_blk in *. lia.
  - destruct (IHr (FR c l b :: path)) as (below & -> & Hz & Hb & Ha); [by eapply sorted_r|set_solver|].
    exists (below ++ [FR c l b]). rewrite <- app_assoc, zip_app, Hz, before_app, after_app. cbn. rewrite !app_nil_r.
    assert (lt_blk b blk) by (unfold lt_blk; lia). split; [done|]. split; [done|]. split; [|done].
    rewrite !Forall_app, Forall_singleton. split; [split|]; [|done|done]. eapply Forall_impl; [exact Hsl|]. unfold lt_blk in *. lia.
Qed.

Lemma aobf_link_spec root blk : inv root → blocks root !! blk_addr blk = None →
  ∃ root', aobf_link_free_block root blk = Some root' ∧ inv root' ∧ blocks root' = <[blk_addr blk := BLK_SZ blk]> (blocks root).
Proof.
  intros (Hrb & Hs & Hd) Hn. pose proof Hn as Ha. unfold blocks, blk_map in Ha. rewrite <- not_elem_of_list_to_map, fst_blk_pair in Ha.
  destruct (aobf_descend_spec blk root [] Hs Ha) as (path & E & Hz & Hb & Haf). unfold aobf_link_free_block. rewrite E, app_nil_r.
  assert (elems root = before path ++ after path) as El by by rewrite <- Hz, elems_zip. rewrite <- Hz in Hrb.
  destruct (link_node_rb path blk (unzip_leaf _ Hrb)) as (root' & -> & Hrb' & El'). exists root'. split; [done|].
  destruct (blk_map_add (elems root) (elems root') blk) as [Hd' Hm]; [done|done|rewrite El, El'; symmetry; apply Permutation_middle|].
  split; [split; [done|split; [|done]]|done]. rewrite El'. rewrite El in Hs. by apply sorted_add.
Qed.

Lemma aobf_unlink_spec root a : inv root → is_Some (blocks root !! a) →
  ∃ root', aobf_unlink_free_block root a = Some root' ∧ inv root' ∧ blocks root' = delete a (blocks root).
Proof.
  intros (Hrb & Hs & Hd) [sz Hsz]. apply blk_map_lookup in Hsz; [|done]. unfold aobf_unlink_free_block.
  destruct (locate_spec (λ b, blk_addr b =? a) root _ Hsz) as (path & c & l & x & r & -> & Hx%Z.eqb_eq & Hz).
  { apply Z.eqb_refl. }
  cbn [mbind option_bind]. rewrite <- Hz in Hrb. destruct (tree_delete_ok _ _ _ _ _ Hrb) as (root' & -> & Hrb' & El').
  assert (elems root = (before path ++ elems l) ++ x :: elems r ++ after path) as El by (rewrite <- Hz, elems_zip; cbn; by simplify_list_eq).
  rewrite app_assoc in El'. exists root'. split; [done|].
  destruct (blk_map_del (elems root) (elems root') x) as [Hd' Hm]; [done|rewrite El, El'; symmetry; apply Permutation_middle|].
  split; [split; [done|split; [|done]]|by rewrite <- Hx]. rewrite El'. rewrite El in Hs. by eapply sorted_del.
Qed.

(** The aobf_search finds the first block of the order that is large enough. *)
Definition fits (size : Z) (b : Block_t) : bool := size <=? BLK_SZ b.

Lemma aobf_search_spec size t : ∀ blk, StronglySorted lt_blk (elems t) →
  aobf_search size t blk = match first (fits size) (elems t) with Some b => Some b | None => blk end.
Proof.
  induction t as [|c l IHl b r IHr]; intros blk Hs; cbn [aobf_search elems] in *; [done|].
  rewrite first_app, first_cons. unfold fits at 2. pose proof (sorted_mid _ _ _ _ Hs) as [Hsl Hsr]. destruct (Z.ltb_spec (BLK_SZ b) size).
  - rewrite first_none; [|eapply Forall_impl; [exact Hsl|]; unfold lt_blk, fits; lia].
    destruct (Z.leb_spec size (BLK_SZ b)); [lia|]. apply IHr. by eapply sorted_r.
  - destruct (Z.leb_spec size (BLK_SZ b)); [|lia]. rewrite IHl by by eapply sorted_l. by destruct (first _ _).
Qed.

Definition get_post (root : tree Block_t) (size : Z) (cand : candidate) (r : option Block_t) (root' : tree Block_t) : Prop :=
  match r with
  | Some b =>
      blocks root !! blk_addr b = Some (BLK_SZ b) ∧ size ≤ BLK_SZ b ∧
      (∀ a sz, blocks root !! a = Some sz → size ≤ sz → Block a sz = b ∨ lt_blk b (Block a sz)) ∧
      (∀ a sz, cand = Some (a, sz) → ¬ lt_blk (Block a sz) b) ∧
      blocks root' = delete (blk_addr b) (blocks root)
  | None =>
      root' = root ∧ ∀ a sz, blocks root !! a = Some sz → size ≤ sz → ∃ ca csz, cand = Some (ca, csz) ∧ lt_blk (Block ca csz) (Block a sz)
  end.

Lemma aobf_get_spec root size cand : inv root →
  ∃ r root', aobf_get_free_block root size cand = Some (r, root') ∧ inv root' ∧ get_post root size cand r root'.
Proof.
  intros Hinv. pose proof Hinv as (Hrb & Hs & Hd). unfold aobf_get_free_block. rewrite aobf_search_spec by done.
  destruct (first (fits size) (elems root)) as [b|] eqn:E.
  2:{ eexists _, _. split; [done|]. split; [done|]. split; [done|]. intros a sz Ha%blk_map_lookup Hsz; [|done].
      pose proof (proj1 (Forall_forall _ _) (first_none_inv _ _ E) _ Ha) as Hf. unfold fits in Hf. cbn in Hf. lia. }
  destruct (first_some _ _ _ _ Hs E) as (Hb & Hfit & Hbest). unfold fits in Hfit.
  assert (∀ a sz, blocks root !! a = Some sz → size ≤ sz → Block a sz = b ∨ lt_blk b (Block a sz)) as Hall.
  { intros a sz Ha%blk_map_lookup Hsz; [|done]. apply Hbest; [done|]. unfold fits. cbn. lia. }
  case_match eqn:Hc.
  - destruct cand as [[ca csz]|]; [|done]. eexists _, _. split; [done|]. split; [done|]. split; [done|]. intros a sz Ha Hsz.
    exists ca, csz. split; [done|]. specialize (Hall a sz Ha Hsz) as [<-|Hlt]; unfold lt_blk in *; cbn in *; lia.
  - destruct (aobf_unlink_spec root (blk_addr b) Hinv) as (root' & -> & Hinv' & Hm); [eexists; by apply blk_map_elem|].
    eexists _, _. split; [done|]. split; [done|]. split; [by apply blk_map_elem|]. split; [lia|]. split; [done|]. split; [|done].
    intros ca csz ->. unfold lt_blk. cbn. lia.
Qed.

End AobfSpec.

(** ** Best fit *)
Module BfSpec.
Import Bf.

Definition chain (b : bf_node) : list Block_t := node b :: LIST_NEXT b.
Definition all_blocks (root : tree bf_node) : list Block_t := elems root ≫= chain.
Definition blocks (root : tree bf_node) : gmap Z Z := blk_map (all_blocks root).

Definition lt_node (b1 b2 : bf_node) : Prop := BLK_SZ (node b1) < BLK_SZ (node b2).
Definition same_size (b : bf_node) : Prop := Forall (λ e, BLK_SZ e = BLK_SZ (node b)) (LIST_NEXT b).

Definition inv (root : tree bf_node) : Prop :=
  rb_tree root ∧ StronglySorted lt_node (elems root) ∧ Forall same_size (elems root) ∧ distinct (all_blocks root).

(** The descent ends at the node of the size, or at the place for one. *)
Lemma bf_descend_spec blk_sz t : ∀ path, StronglySorted lt_node (elems t) →
  ∃ below z, bf_descend blk_sz t path = (below ++ path, z) ∧ zip below z = t ∧
    match z with
    | Node _ _ x _ => BLK_SZ (node x) = blk_sz
    | Leaf => Forall (λ b, BLK_SZ (node b) < blk_sz) (before below) ∧ Forall (λ b, blk_sz < BLK_SZ (node b)) (after below)
    end.
Proof.
  induction t as [|c l IHl b r IHr]; intros path Hs; cbn [bf_descend elems] in *; [by exists [], Leaf|].
  pose proof (sorted_mid _ _ _ _ Hs) as [Hsl Hsr]. destruct (Z.eqb_spec blk_sz (BLK_SZ (node b))) as [->|Hne]; [by exists [], (Node c l b r)|].
  destruct (Z.ltb_spec blk_sz (BLK_SZ (node b))).
  - destruct (IHl (FL c b r :: path)) as (below & z & -> & Hz & Hp); [by eapply sorted_l|].
    exists (below ++ [FL c b r]), z. rewrite <- app_assoc, zip_app, Hz, before_app, after_app. split; [done|]. split; [done|].
    destruct z; [|done]. destruct Hp as [Hb Ha]. cbn. rewrite app_nil_r. split; [done|].
    rewrite Forall_app, Forall_cons. split; [done|]. split; [done|]. eapply Forall_impl; [exact Hsr|]. unfold lt_node. lia.
  - destruct (IHr (FR c l b :: path)) as (below & z & -> & Hz & Hp); [by eapply sorted_r|].
    exists (below ++ [FR c l b]), z. rewrite <- app_assoc, zip_app, Hz, before_app, after_app. split; [done|]. split; [done|].
    destruct z; [|done]. destruct Hp as [Hb Ha]. cbn. rewrite app_nil_r. split; [|done].
    rewrite !Forall_app, Forall_singleton. split; [split|]; [|lia|done]. eapply Forall_impl; [exact Hsl|]. unfold lt_node. lia.
Qed.

(** The tree with the list of one node exchanged for another of the same size. *)
Lemma exchange path c l x x' r : rb_tree (zip path (Node c l x r)) → BLK_SZ (node x') = BLK_SZ (node x) → same_size x' →
  StronglySorted lt_node (elems (zip path (Node c l x r))) → Forall same_size (elems (zip path (Node c l x r))) →
  let root' := zip path (Node c l x' r) in
  rb_tree root' ∧ StronglySorted lt_node (elems root') ∧ Forall same_size (elems root') ∧
  ∃ rest, all_blocks (zip path (Node c l x r)) ≡ₚ chain x ++ rest ∧ all_blocks root' ≡ₚ chain x' ++ rest.
Proof.
  intros Hrb Hsz Hsame Hs Hf. cbn zeta. split; [by eapply zip_other_element|]. unfold all_blocks.
  assert (∀ y, elems (zip path (Node c l y r)) = (before path ++ elems l) ++ y :: elems r ++ after path) as El.
  { intros y. rewrite elems_zip. cbn. by simplify_list_eq. }
  rewrite El in *. split; [|split].
  - pose proof (sorted_mid _ _ _ _ Hs) as [H1 H2]. apply sorted_add; [by eapply sorted_del|..].
    + eapply Forall_impl; [exact H1|]. unfold lt_node. lia.
    + eapply Forall_impl; [exact H2|]. unfold lt_node. lia.
  - rewrite !Forall_app, Forall_cons in Hf |- *. rewrite Forall_app in Hf |- *. naive_solver.
  - exists (((before path ++ elems l) ++ (elems r ++ after path)) ≫= chain).
    rewrite !El, !(bind_app _ (before path ++ elems l)), !bind_cons. split; apply Permutation_app_swap_app.
Qed.

Lemma bf_link_spec root blk : inv root → blocks root !! blk_addr blk = None →
  ∃ root', bf_link_free_block root blk = Some root' ∧ inv root' ∧ blocks root' = <[blk_addr blk := BLK_SZ blk]> (blocks root).
Proof.
  intros (Hrb & Hs & Hf & Hd) Hn. unfold bf_link_free_block.
  destruct (bf_descend_spec (BLK_SZ blk) root [] Hs) as (path & z & -> & Hz & Hp). rewrite app_nil_r. rewrite <- Hz in Hrb, Hs, Hf.
  destruct z as [|c l x r].
  - assert (elems root = before path ++ after path) as El by by rewrite <- Hz, elems_zip.
    destruct (link_node_rb path (BfNode blk []) (unzip_leaf _ Hrb)) as (root' & -> & Hrb' & El'). exists root'. split; [done|].
    rewrite Hz, El in Hs, Hf.
    destruct (blk_map_add (all_blocks root) (all_blocks root') blk) as [Hd' Hm]; [done|done| |].
    { unfold all_blocks. rewrite El, El', !bind_app, bind_cons. cbn. symmetry. apply Permutation_middle. }
    split; [|done]. split; [done|]. rewrite El'. destruct Hp as [H1 H2]. split; [by apply sorted_add|]. split; [|done].
    rewrite Forall_app in Hf. rewrite Forall_app, Forall_cons. split; [apply Hf|]. split; [apply Forall_nil_2|apply Hf].
  - eexists. split; [done|].
    assert (Forall same_size (elems (zip path (Node c l x r))) → same_size x) as Hx.
    { rewrite elems_zip. cbn. rewrite !Forall_app, Forall_cons. naive_solver. }
    destruct (exchange path c l x (BfNode (node x) (blk :: LIST_NEXT x)) r) as (Hrb' & Hs' & Hf' & rest & P1 & P2); try done.
    { unfold same_size. cbn. rewrite Forall_cons. split; [done|]. by apply Hx. }
    rewrite Hz in P1.
    destruct (blk_map_add (all_blocks root) (all_blocks (zip path (Node c l (BfNode (node x) (blk :: LIST_NEXT x)) r))) blk) as [Hd' Hm]; [done|done| |].
    { rewrite P1, P2. cbn. constructor. }
    split; [|done]. done.
Qed.

Lemma holds_spec a b : holds a b = true ↔ ∃ e, e ∈ chain b ∧ blk_addr e = a.
Proof.
  unfold holds, chain. rewrite orb_true_iff, existsb_exists. setoid_rewrite <- list_elem_of_In. setoid_rewrite elem_of_cons.
  setoid_rewrite Z.eqb_eq. naive_solver.
Qed.

Lemma bf_unchain_spec a l : existsb (λ e, blk_addr e =? a) l = true → ∃ e, blk_addr e = a ∧ l ≡ₚ e :: bf_unchain a l.
Proof.
  induction l as [|e l IH]; [done|]. cbn. destruct (Z.eqb_spec (blk_addr e) a) as [He|He]; [by exists e|].
  intros (e' & He' & Hp)%IH. exists e'. split; [done|]. rewrite Hp at 1. constructor.
Qed.

Lemma same_size_at path c l x r : Forall same_size (elems (zip path (Node c l x r))) → same_size x.
Proof. rewrite elems_zip. cbn. rewrite !Forall_app, Forall_cons. naive_solver. Qed.

(** The blocks without the one at [a]. *)
Definition unlinked (root : tree bf_node) (a : Z) (root' : tree bf_node) : Prop :=
  rb_tree root' ∧ StronglySorted lt_node (elems root') ∧ Forall same_size (elems root') ∧
  ∃ e, blk_addr e = a ∧ all_blocks root ≡ₚ e :: all_blocks root'.

Lemma unlink_exchange path c l x x' r e : rb_tree (zip path (Node c l x r)) → BLK_SZ (node x') = BLK_SZ (node x) → same_size x' →
  StronglySorted lt_node (elems (zip path (Node c l x r))) → Forall same_size (elems (zip path (Node c l x r))) →
  chain x ≡ₚ e :: chain x' → unlinked (zip path (Node c l x r)) (blk_addr e) (zip path (Node c l x' r)).
Proof.
  intros Hrb Hsz Hx' Hs Hf He. destruct (exchange path c l x x' r) as (? & ? & ? & rest & P1 & P2); try done.
  repeat split; try done. exists e. split; [done|]. by rewrite P1, P2, He.
Qed.

Lemma unlink_delete path c l x r root' : tree_delete path (Node c l x r) = Some root' → LIST_NEXT x = [] → rb_tree (zip path (Node c l x r)) →
  StronglySorted lt_node (elems (zip path (Node c l x r))) → Forall same_size (elems (zip path (Node c l x r))) →
  unlinked (zip path (Node c l x r)) (blk_addr (node x)) root'.
Proof.
  intros E Hx Hrb Hs Hf. destruct (tree_delete_ok _ _ _ _ _ Hrb) as (root1 & E1 & Hrb' & El'). rewrite E in E1. injection E1 as <-.
  assert (elems (zip path (Node c l x r)) = (before path ++ elems l) ++ x :: elems r ++ after path) as El by (rewrite elems_zip; cbn; by simplify_list_eq).
  rewrite app_assoc in El'. rewrite El in Hs, Hf. unfold unlinked, all_blocks. rewrite El, El'. split; [done|]. split; [by eapply sorted_del|].
  split; [rewrite Forall_app, Forall_cons in Hf; rewrite Forall_app; naive_solver|]. exists (node x). split; [done|].
  rewrite !(bind_app _ (before path ++ elems l)), bind_cons. unfold chain at 2. rewrite Hx. cbn. symmetry. apply Permutation_middle.
Qed.

Lemma unlink_cases root a : inv root → is_Some (blocks root !! a) → ∃ root', bf_unlink_free_block root a = Some root' ∧ unlinked root a root'.
Proof.
  intros (Hrb & Hs & Hf & Hd) [sz Hsz]. apply blk_map_lookup in Hsz; [|done]. apply list_elem_of_bind in Hsz as (b & Hb & Hin).
  destruct (locate_spec (holds a) root b Hin) as (path & c & l & x & r & E & Hx & <-); [apply holds_spec; eauto|].
  unfold bf_unlink_free_block. rewrite E. cbn [mbind option_bind]. pose proof (same_size_at _ _ _ _ _ Hf) as Hsame. unfold same_size in Hsame.
  destruct (Z.eqb_spec (blk_addr (node x)) a) as [<-|Hne]; cbn [negb].
  - destruct (LIST_NEXT x) as [|next rest] eqn:Enext.
    + destruct (tree_delete_ok _ _ _ _ _ Hrb) as (root' & Ed & _). exists root'. split; [done|]. by apply unlink_delete.
    + eexists. split; [done|]. apply Forall_cons in Hsame as [Hn Hrest]. eapply unlink_exchange; try done.
      * unfold same_size. cbn. eapply Forall_impl; [exact Hrest|]. cbn. lia.
      * unfold chain. rewrite Enext. done.
  - eexists. split; [done|]. unfold holds in Hx. apply orb_true_iff in Hx as [?|Hx]; [lia|].
    destruct (bf_unchain_spec _ _ Hx) as (e & <- & Hp). eapply unlink_exchange; try done.
    + unfold same_size. cbn. rewrite Hp in Hsame. by apply Forall_cons in Hsame as [_ ?].
    + unfold chain. cbn. rewrite Hp at 1. constructor.
Qed.

Lemma bf_unlink_spec root a : inv root → is_Some (blocks root !! a) →
  ∃ root', bf_unlink_free_block root a = Some root' ∧ inv root' ∧ blocks root' = delete a (blocks root).
Proof.
  intros Hinv Ha. destruct (unlink_cases root a Hinv Ha) as (root' & -> & Hrb & Hs & Hf & e & <- & Hp). exists root'. split; [done|].
  destruct Hinv as (_ & _ & _ & Hd). by destruct (blk_map_del _ _ _ Hd Hp).
Qed.

Definition fits (size : Z) (b : bf_node) : bool := size <=? BLK_SZ (node b).

Lemma bf_search_spec size t : ∀ blk, StronglySorted lt_node (elems t) →
  bf_search size t blk = match first (fits size) (elems t) with Some b => Some b | None => blk end.
Proof.
  induction t as [|c l IHl b r IHr]; intros blk Hs; cbn [bf_search elems] in *; [done|].
  rewrite first_app, first_cons. unfold fits at 2. pose proof (sorted_mid _ _ _ _ Hs) as [Hsl Hsr]. destruct (Z.ltb_spec (BLK_SZ (node b)) size).
  - rewrite first_none; [|eapply Forall_impl; [exact Hsl|]; unfold lt_node, fits; lia].
    destruct (Z.leb_spec size (BLK_SZ (node b))); [lia|]. apply IHr. by eapply sorted_r.
  - destruct (Z.leb_spec size (BLK_SZ (node b))); [|lia]. destruct (Z.eqb_spec (BLK_SZ (node b)) size).
    + rewrite first_none; [done|]. eapply Forall_impl; [exact Hsl|]; unfold lt_node, fits; lia.
    + rewrite IHl by by eapply sorted_l. by destruct (first _ _).
Qed.

Definition get_post (root : tree bf_node) (size : Z) (cand : candidate) (r : option Block_t) (root' : tree bf_node) : Prop :=
  match r with
  | Some b =>
      blocks root !! blk_addr b = Some (BLK_SZ b) ∧ size ≤ BLK_SZ b ∧
      (∀ a sz, blocks root !! a = Some sz → size ≤ sz → BLK_SZ b ≤ sz) ∧
      (∀ a sz, cand = Some (a, sz) → BLK_SZ b < sz) ∧
      blocks root' = delete (blk_addr b) (blocks root)
  | None => root' = root ∧ ∀ a sz, blocks root !! a = Some sz → size ≤ sz → ∃ ca csz, cand = Some (ca, csz) ∧ csz ≤ sz
  end.

(** The size of a block is the size of its node. *)
Lemma block_node root a sz : inv root → blocks root !! a = Some sz → ∃ b, b ∈ elems root ∧ BLK_SZ (node b) = sz.
Proof.
  intros (_ & _ & Hf & Hd) (b & Hb & Hin)%blk_map_lookup%list_elem_of_bind; [|done]. exists b. split; [done|].
  rewrite Forall_forall in Hf. specialize (Hf b Hin). unfold same_size in Hf. rewrite Forall_forall in Hf.
  apply elem_of_cons in Hb as [<-|Hb]; [done|]. by rewrite <- (Hf _ Hb).
Qed.

Lemma bf_get_spec root size cand : inv root →
  ∃ r root', bf_get_free_block root size cand = Some (r, root') ∧ inv root' ∧ get_post root size cand r root'.
Proof.
  intros Hinv. pose proof Hinv as (Hrb & Hs & Hf & Hd). unfold bf_get_free_block. rewrite bf_search_spec by done.
  destruct (first (fits size) (elems root)) as [b|] eqn:E.
  2:{ eexists _, _. split; [done|]. split; [done|]. split; [done|]. intros a sz (b & Hb & <-)%block_node Hsz; [|done].
      pose proof (proj1 (Forall_forall _ _) (first_none_inv _ _ E) _ Hb) as Hfit. unfold fits in Hfit. lia. }
  destruct (first_some _ _ _ _ Hs E) as (Hb & Hfit & Hbest). unfold fits in Hfit.
  assert (∀ a sz, blocks root !! a = Some sz → size ≤ sz → BLK_SZ (node b) ≤ sz) as Hall.
  { intros a sz (b' & Hb' & <-)%block_node Hsz; [|done]. destruct (Hbest b' Hb') as [->|]; unfold fits, lt_node in *; lia. }
  case_match eqn:Hc.
  - destruct cand as [[ca csz]|]; [|done]. eexists _, _. split; [done|]. split; [done|]. split; [done|]. intros a sz Ha Hsz.
    exists ca, csz. split; [done|]. specialize (Hall a sz Ha Hsz). lia.
  - set (blk := match LIST_NEXT b with next :: _ => next | [] => node b end).
    assert (blk ∈ all_blocks root ∧ BLK_SZ blk = BLK_SZ (node b)) as [Hblk Hsz].
    { rewrite Forall_forall in Hf. specialize (Hf b Hb). unfold same_size in Hf. split.
      - apply list_elem_of_bind. exists b. split; [|done]. unfold blk, chain. destruct (LIST_NEXT b); [by left|right; by left].
      - unfold blk. destruct (LIST_NEXT b); [done|]. by apply Forall_cons in Hf as [? _]. }
    pose proof (blk_map_elem _ _ Hd Hblk) as Hm.
    destruct (bf_unlink_spec root (blk_addr blk) Hinv) as (root' & -> & Hinv' & Hm'); [by eexists|].
    eexists _, _. split; [done|]. split; [done|]. split; [done|]. rewrite Hsz. split; [lia|]. split; [done|]. split; [|done].
    intros ca csz ->. lia.
Qed.

End BfSpec.

(** ** Both strategies keep the promises of the interface *)
#[export] Instance aobf_ops : FreeBlockOps (tree Block_t) := {
  fb_init := Leaf; get_free_block := Aobf.aobf_get_free_block;
  link_free_block := Aobf.aobf_link_free_block; unlink_free_block := Aobf.aobf_unlink_free_block }.

#[export] Program Instance aobf_laws : FreeBlockLaws (tree Block_t) := {
  fb_ok := AobfSpec.inv; fb_map := AobfSpec.blocks;
  fb_link_ok := AobfSpec.aobf_link_spec; fb_unlink_ok := AobfSpec.aobf_unlink_spec }.
Next Obligation. split; [|done]. split; [eexists; constructor|]. split; constructor. Qed.
Next Obligation.
  intros s size cand Hs. destruct (AobfSpec.aobf_get_spec s size cand Hs) as (r & s' & E & Hs' & Hp). exists r, s'. split; [done|]. split; [done|].
  destruct r as [b|]; cbn in Hp; [naive_solver|]. destruct Hp as [-> Hp]. split; [done|]. intros -> a sz Ha.
  destruct (decide (sz < size)); [done|]. destruct (Hp a sz Ha) as (? & ? & ? & _); [lia|done].
Qed.

#[export] Instance bf_ops : FreeBlockOps (tree Bf.bf_node) := {
  fb_init := Leaf; get_free_block := Bf.bf_get_free_block;
  link_free_block := Bf.bf_link_free_block; unlink_free_block := Bf.bf_unlink_free_block }.

#[export] Program Instance bf_laws : FreeBlockLaws (tree Bf.bf_node) := {
  fb_ok := BfSpec.inv; fb_map := BfSpec.blocks;
  fb_link_ok := BfSpec.bf_link_spec; fb_unlink_ok := BfSpec.bf_unlink_spec }.
Next Obligation. split; [|done]. split; [eexists; constructor|]. split; [constructor|]. split; constructor. Qed.
Next Obligation.
  intros s size cand Hs. destruct (BfSpec.bf_get_spec s size cand Hs) as (r & s' & E & Hs' & Hp). exists r, s'. split; [done|]. split; [done|].
  destruct r as [b|]; cbn in Hp; [naive_solver|]. destruct Hp as [-> Hp]. split; [done|]. intros -> a sz Ha.
  destruct (decide (sz < size)); [done|]. destruct (Hp a sz Ha) as (? & ? & ? & _); [lia|done].
Qed.
