(* ===== verification/AllocMem.v ===== *)
(** The memory of the allocators: bytes by address, with the words ([Uint]) that the code reads and writes in it.

    An address that is not in the map is not mapped: reading or writing there is an error ([None]), as is a [memcpy] whose source and
    destination overlap.  Words are stored with the low byte first; the code never looks at the bytes of a word. *)

From Stdlib Require Import Lia ZArith.
From stdpp Require Import base numbers list option gmap.
From S2P Require Import Prelude.
Open Scope Z_scope.

Abbreviation memory := (gmap Z Z).

Definition mapped (m : memory) (a n : Z) : bool := forallb (λ i, bool_decide (is_Some (m !! (a + i)))) (seqZ 0 n).

(** [n] bytes from [a]. *)
Definition mem_bytes (m : memory) (a n : Z) : option (list Z) := mapM (λ i, m !! (a + i)) (seqZ 0 n).
Fixpoint put_bytes (m : memory) (a : Z) (l : list Z) : memory :=
  match l with [] => m | v :: l' => <[a := v]> (put_bytes m (a + 1) l') end.

Definition overlap (a b n : Z) : bool := (a <? b + n) && (b <? a + n).
Definition sys_memmove (m : memory) (dst src n : Z) : option memory :=
  bs ← mem_bytes m src n; if mapped m dst n then Some (put_bytes m dst bs) else None.
Definition sys_memcpy (m : memory) (dst src n : Z) : option memory :=
  if overlap dst src n then None else sys_memmove m dst src n.

(** Words of [k] bytes. *)
Fixpoint word_bytes (k : nat) (w : Z) : list Z := match k with O => [] | S k' => w mod 256 :: word_bytes k' (w / 256) end.
Definition bytes_word (l : list Z) : Z := foldr (λ b v, b + 256 * v) 0 l.

Definition load_word (k : nat) (m : memory) (a : Z) : option Z := bytes_word <$> mem_bytes m a (Z.of_nat k).
Definition put_word (k : nat) (m : memory) (a w : Z) : memory := put_bytes m a (word_bytes k w).
Definition store_word (k : nat) (m : memory) (a w : Z) : option memory :=
  if mapped m a (Z.of_nat k) then Some (put_word k m a w) else None.

(** ** Lemmas *)
Lemma mapped_spec m a n : mapped m a n = true ↔ ∀ x, a ≤ x < a + n → is_Some (m !! x).
Proof.
  unfold mapped. rewrite forallb_forall. split.
  - intros H x Hx. specialize (H (x - a)). rewrite <- list_elem_of_In, elem_of_seqZ, bool_decide_eq_true in H.
    replace (a + (x - a)) with x in H by lia. apply H. lia.
  - intros H i Hi. apply list_elem_of_In, elem_of_seqZ in Hi. apply bool_decide_eq_true, H. lia.
Qed.

Lemma put_bytes_lookup l : ∀ m a x,
  put_bytes m a l !! x = if bool_decide (a ≤ x < a + zlen l) then l !! Z.to_nat (x - a) else m !! x.
Proof.
  induction l as [|v l IH]; intros m a x; cbn [put_bytes]; [case_bool_decide; [cbn in *; lia|done]|].
  destruct (decide (x = a)) as [->|Hne].
  - rewrite lookup_insert_eq, bool_decide_eq_true_2 by (cbn; lia). by rewrite Z.sub_diag.
  - rewrite lookup_insert_ne, IH by done. case_bool_decide as H1; case_bool_decide as H2; cbn [length] in *; try lia; [|done].
    replace (Z.to_nat (x - a)) with (S (Z.to_nat (x - (a + 1)))) by lia. done.
Qed.

Lemma mem_bytes_spec m a n l : 0 ≤ n → mem_bytes m a n = Some l ↔ zlen l = n ∧ ∀ i, 0 ≤ i < n → m !! (a + i) = l !! Z.to_nat i.
Proof.
  intros Hn. unfold mem_bytes. rewrite mapM_Some, Forall2_same_length_lookup, length_seqZ. split.
  - intros [Hl H]. split; [lia|]. intros i Hi. destruct (lookup_lt_is_Some_2 l (Z.to_nat i)) as [v Hv]; [lia|]. rewrite Hv.
    apply (H (Z.to_nat i) i v); [apply lookup_seqZ; lia|done].
  - intros [Hl H]. split; [lia|]. intros i x y Hx Hy. apply lookup_seqZ in Hx as [-> Hi]. rewrite H by lia.
    by replace (Z.to_nat (0 + Z.of_nat i)) with i by lia.
Qed.

Lemma mem_bytes_ext m m' a n : (∀ x, a ≤ x < a + n → m' !! x = m !! x) → mem_bytes m' a n = mem_bytes m a n.
Proof.
  intros H. unfold mem_bytes. assert (Forall (λ i, 0 ≤ i < n) (seqZ 0 n)) as Hs.
  { apply Forall_forall. intros i Hi%elem_of_seqZ. lia. }
  induction Hs as [|i l Hi _ IH]; cbn; [done|]. by rewrite IH, H by lia.
Qed.

Lemma mem_bytes_mapped m a n : mapped m a n = true → ∃ l, mem_bytes m a n = Some l.
Proof.
  intros H. unfold mem_bytes. apply mapM_is_Some. apply Forall_forall. intros i Hi%elem_of_seqZ. apply (proj1 (mapped_spec _ _ _) H). lia.
Qed.

Lemma mapped_put m a l x n : mapped m x n = true → mapped (put_bytes m a l) x n = true.
Proof.
  rewrite !mapped_spec. intros H y Hy. rewrite put_bytes_lookup. case_bool_decide; [|by apply H]. apply lookup_lt_is_Some_2. lia.
Qed.

Lemma length_word_bytes k : ∀ w, length (word_bytes k w) = k.
Proof. induction k as [|k IH]; intros w; cbn; [done|]. by rewrite IH. Qed.

Lemma bytes_word_bytes k : ∀ w, 0 ≤ w < 256 ^ Z.of_nat k → bytes_word (word_bytes k w) = w.
Proof.
  induction k as [|k IH]; intros w Hw; [cbn in *; lia|]. cbn [word_bytes bytes_word foldr]. fold (bytes_word (word_bytes k (w / 256))).
  rewrite Nat2Z.inj_succ, Z.pow_succ_r in Hw by lia. rewrite IH by (split; [apply Z.div_pos|apply Z.div_lt_upper_bound]; lia).
  pose proof (Z.div_mod w 256). lia.
Qed.

Section Words.
Context (k : nat).

Lemma put_word_lookup m a w x : x < a ∨ a + Z.of_nat k ≤ x → put_word k m a w !! x = m !! x.
Proof. intros H. unfold put_word. rewrite put_bytes_lookup, bool_decide_eq_false_2; [done|]. rewrite length_word_bytes. lia. Qed.

Lemma load_put_word m a w : 0 ≤ w < 256 ^ Z.of_nat k → load_word k (put_word k m a w) a = Some w.
Proof.
  intros Hw. unfold load_word, put_word. assert (mem_bytes (put_bytes m a (word_bytes k w)) a (Z.of_nat k) = Some (word_bytes k w)) as ->.
  { apply mem_bytes_spec; [lia|]. rewrite length_word_bytes. split; [done|]. intros i Hi.
    rewrite put_bytes_lookup, bool_decide_eq_true_2 by (rewrite length_word_bytes; lia). f_equal. lia. }
  cbn. by rewrite bytes_word_bytes.
Qed.

Lemma load_word_ext m m' a : (∀ x, a ≤ x < a + Z.of_nat k → m' !! x = m !! x) → load_word k m' a = load_word k m a.
Proof. intros H. unfold load_word. by rewrite (mem_bytes_ext m m'). Qed.

Lemma load_put_word_ne m a b w : b + Z.of_nat k ≤ a ∨ a + Z.of_nat k ≤ b → load_word k (put_word k m a w) b = load_word k m b.
Proof. intros H. apply load_word_ext. intros x Hx. apply put_word_lookup. lia. Qed.

Lemma store_word_ok m a w : mapped m a (Z.of_nat k) = true → store_word k m a w = Some (put_word k m a w).
Proof. intros H. unfold store_word. by rewrite H. Qed.

Lemma load_word_mapped m a w : load_word k m a = Some w → mapped m a (Z.of_nat k) = true.
Proof.
  unfold load_word. intros (l & (Hl & H)%mem_bytes_spec & _)%fmap_Some; [|lia]. apply mapped_spec. intros x Hx.
  specialize (H (x - a)). replace (a + (x - a)) with x in H by lia. rewrite H by lia. apply lookup_lt_is_Some_2. lia.
Qed.
End Words.
