(* ===== verification/AllocUtil.v ===== *)
(** Multiblock carriers: [erts/emulator/beam/erl_alloc_util.c], the functions [mbc_alloc], [mbc_free] and [mbc_realloc] with the
    block headers and footers, over any allocation strategy (the callbacks of [FreeBlocks.v]).

    The state is the memory, what the strategy keeps of the free blocks, the list of the multiblock carriers, the main carrier and the
    statistics of the blocks.  An operation is a function of the state that fails ([None]) when the code would touch memory
    that is not mapped, or copy between overlapping places with [memcpy].  The links of a strategy that live in the free blocks are
    the state of the strategy.  What [alcu_mseg_alloc] and [alcu_sys_alloc] answer to the request of a new carrier is an argument:
    the address and the contents of the memory, or nothing. *)

From Stdlib Require Import Lia ZArith.
From stdpp Require Import base numbers list option gmap.
From S2P Require Import Prelude FreeBlocks AllocMem.
Open Scope Z_scope.

(** [sizeof(Uint)], and the fields of [Allctr_t] that are set once by [erts_alcu_start]. *)
Class AllocConfig := {
  UINT_SZ : nat;
  min_block_size : Z;
  mbc_header_size : Z;
  sbc_header_size : Z;
  mbc_move_threshold : Z;
  UINT_SZ_cases : UINT_SZ = 4%nat ∨ UINT_SZ = 8%nat;
  min_block_size_ok : (8 | min_block_size) ∧ 2 * Z.of_nat UINT_SZ ≤ min_block_size;    (* UNIT_CEILING(... + sizeof(Uint)) *)
  min_block_size_max : min_block_size < 256 ^ Z.of_nat UINT_SZ;
  mbc_header_size_ok : 4 * Z.of_nat UINT_SZ ≤ mbc_header_size;                         (* a Carrier_t and a footer *)
  sbc_header_size_ok : 4 * Z.of_nat UINT_SZ ≤ sbc_header_size }.

Record StatValues := Stat { no : Z; size : Z }.

Record Allctr (S : Type) := Alc {
  mem : memory;
  fbs : S;
  mbc_list : list Z;
  sbc_list : list Z;
  main_carrier : option Z;
  blocks_curr : StatValues;
  blocks_max : StatValues }.
Arguments Alc {_}. Arguments mem {_}. Arguments fbs {_}. Arguments mbc_list {_}. Arguments sbc_list {_}. Arguments main_carrier {_}.
Arguments blocks_curr {_}. Arguments blocks_max {_}.

Section Util.
Context {ac : AllocConfig} {S : Type} {ops : FreeBlockOps S}.

Definition W : Z := Z.of_nat UINT_SZ.
Definition Uint (z : Z) : Z := wrap_u (8 * W) z.

(** ** The state monad *)
Definition M (A : Type) : Type := Allctr S → option (A * Allctr S).
#[global] Instance M_ret : MRet M := λ A x s, Some (x, s).
#[global] Instance M_bind : MBind M := λ A B f c s, '(x, s') ← c s; f x s'.

Definition when (b : bool) (c : M unit) : M unit := if b then c else mret tt.

Definition set_mem (m : memory) (s : Allctr S) : Allctr S :=
  Alc m (fbs s) (mbc_list s) (sbc_list s) (main_carrier s) (blocks_curr s) (blocks_max s).
Definition set_fbs (f : S) (s : Allctr S) : Allctr S :=
  Alc (mem s) f (mbc_list s) (sbc_list s) (main_carrier s) (blocks_curr s) (blocks_max s).
Definition set_mbc_list (l : list Z) (s : Allctr S) : Allctr S :=
  Alc (mem s) (fbs s) l (sbc_list s) (main_carrier s) (blocks_curr s) (blocks_max s).
Definition set_sbc_list (l : list Z) (s : Allctr S) : Allctr S :=
  Alc (mem s) (fbs s) (mbc_list s) l (main_carrier s) (blocks_curr s) (blocks_max s).
Definition set_main (c : option Z) (s : Allctr S) : Allctr S :=
  Alc (mem s) (fbs s) (mbc_list s) (sbc_list s) c (blocks_curr s) (blocks_max s).
Definition set_blocks (c m : StatValues) (s : Allctr S) : Allctr S :=
  Alc (mem s) (fbs s) (mbc_list s) (sbc_list s) (main_carrier s) c m.

Definition modify (f : Allctr S → Allctr S) : M unit := λ s, Some (tt, f s).
Definition gets {A} (f : Allctr S → A) : M A := λ s, Some (f s, s).
Definition rd (a : Z) : M Z := λ s, w ← load_word UINT_SZ (mem s) a; Some (w, s).
Definition wr (a w : Z) : M unit := λ s, m ← store_word UINT_SZ (mem s) a w; Some (tt, set_mem m s).
Definition memcpy (dst src n : Z) : M unit := λ s, m ← sys_memcpy (mem s) dst src n; Some (tt, set_mem m s).
Definition memmove (dst src n : Z) : M unit := λ s, m ← sys_memmove (mem s) dst src n; Some (tt, set_mem m s).

(** ** Blocks *)
Definition SZ_MASK : Z := Uint (Z.shiftl (Uint (-1)) 3).
Definition FLG_MASK : Z := 7.
Definition ABLK_HDR_SZ : Z := W.
Definition UNIT_FLOOR (x : Z) : Z := Z.land x (Uint (-8)).
Definition UNIT_CEILING (x : Z) : Z := UNIT_FLOOR (Uint (x + 7)).
Definition UMEMSZ2BLKSZ (sz : Z) : Z :=
  if Uint (ABLK_HDR_SZ + sz) <=? min_block_size then min_block_size else UNIT_CEILING (Uint (ABLK_HDR_SZ + sz)).
Definition UMEM2BLK (p : Z) : Z := p - ABLK_HDR_SZ.
Definition BLK2UMEM (b : Z) : Z := b + ABLK_HDR_SZ.

Definition THIS_FREE_BLK_HDR_FLG : Z := 1.
Definition PREV_FREE_BLK_HDR_FLG : Z := 2.
Definition LAST_BLK_HDR_FLG : Z := 4.
Definition SBC_BLK_FTR_FLG : Z := 1.

Definition BLK_SZ (b : Z) : M Z := w ← rd b; mret (Z.land w SZ_MASK).
Definition PREV_BLK_SZ (b : Z) : M Z := w ← rd (b - W); mret (Z.land w SZ_MASK).
Definition SET_BLK_SZ_FTR (b sz : Z) : M unit := wr (b + sz - W) sz.
Definition SET_BLK_SZ (b sz : Z) : M unit := w ← rd b; wr b (Z.lor (Z.land w FLG_MASK) sz).
Definition SET_FLG (flg b : Z) : M unit := w ← rd b; wr b (Z.lor w flg).
Definition CLEAR_FLG (flg b : Z) : M unit := w ← rd b; wr b (Z.ldiff w flg).
Definition SET_BLK_FREE := SET_FLG THIS_FREE_BLK_HDR_FLG.
Definition SET_BLK_ALLOCED := CLEAR_FLG THIS_FREE_BLK_HDR_FLG.
Definition SET_PREV_BLK_FREE := SET_FLG PREV_FREE_BLK_HDR_FLG.
Definition SET_PREV_BLK_ALLOCED := CLEAR_FLG PREV_FREE_BLK_HDR_FLG.
Definition SET_LAST_BLK := SET_FLG LAST_BLK_HDR_FLG.
Definition SET_NOT_LAST_BLK := CLEAR_FLG LAST_BLK_HDR_FLG.
Definition SET_BLK_HDR (b sz f : Z) : M unit := wr b (Z.lor sz f).
Definition TEST_FLG (flg b : Z) : M bool := w ← rd b; mret (negb (Z.land w flg =? 0)).
Definition IS_PREV_BLK_FREE := TEST_FLG PREV_FREE_BLK_HDR_FLG.
Definition IS_FREE_BLK := TEST_FLG THIS_FREE_BLK_HDR_FLG.
Definition IS_LAST_BLK := TEST_FLG LAST_BLK_HDR_FLG.
Definition GET_BLK_HDR_FLGS (b : Z) : M Z := w ← rd b; mret (Z.land w FLG_MASK).
Definition GET_LAST_BLK_HDR_FLG (b : Z) : M Z := w ← rd b; mret (Z.land w LAST_BLK_HDR_FLG).

Definition IS_FIRST_BLK (b : Z) : M bool :=
  f ← IS_PREV_BLK_FREE b; if (f : bool) then sz ← PREV_BLK_SZ b; mret (sz =? 0) else mret false.
Definition IS_SBC_BLK (b : Z) : M bool :=
  f ← IS_PREV_BLK_FREE b; if (f : bool) then w ← rd (b - W); mret (negb (Z.land w SBC_BLK_FTR_FLG =? 0)) else mret false.
Definition NXT_BLK (b : Z) : M Z := sz ← BLK_SZ b; mret (b + sz).
Definition PREV_BLK (b : Z) : M Z := sz ← PREV_BLK_SZ b; mret (b - sz).

(** ** The callbacks *)
Definition with_fbs {A} (f : S → option (A * S)) : M A :=
  λ s, match f (fbs s) with Some (x, fb) => Some (x, set_fbs fb s) | None => None end.
Definition call_get_free_block (sz : Z) (cand : candidate) : M (option Z) :=
  r ← with_fbs (λ fb, get_free_block fb sz cand); mret (option_map blk_addr r).
Definition call_link_free_block (b : Z) : M unit :=
  sz ← BLK_SZ b; with_fbs (λ fb, option_map (pair tt) (link_free_block fb (Block b sz))).
Definition call_unlink_free_block (b : Z) : M unit := with_fbs (λ fb, option_map (pair tt) (unlink_free_block fb b)).

(** ** Statistics *)
Definition STAT_MBC_BLK_ALLOC (bsz : Z) : M unit := modify (λ s,
  let n := Uint (no (blocks_curr s) + 1) in
  let z := Uint (size (blocks_curr s) + bsz) in
  set_blocks (Stat n z) (Stat (Z.max n (no (blocks_max s))) (Z.max z (size (blocks_max s)))) s).
Definition STAT_MBC_BLK_FREE (bsz : Z) : M unit := modify (λ s,
  set_blocks (Stat (Uint (no (blocks_curr s) - 1)) (Uint (size (blocks_curr s) - bsz))) (blocks_max s) s).

(** ** Carriers *)

(** The answer of [alcu_mseg_alloc] or [alcu_sys_alloc]. *)
Definition answer : Type := option (Z * list Z).

Definition MSEG_CARRIER_HDR_FLAG : Z := 1.
Definition SBC_CARRIER_HDR_FLAG : Z := 2.
Definition map_region (crr : Z) (bytes : list Z) : M unit := modify (λ s, set_mem (put_bytes (mem s) crr bytes) s).
Definition unmap_region (crr sz : Z) : M unit :=
  modify (λ s, set_mem (filter (λ p, ¬ (crr ≤ p.1 < crr + sz)) (mem s)) s).

(** [create_carrier] with [CFLG_MBC], from the answer on; [mseg] tells which of the two answered. *)
Definition create_mbc (mseg : bool) (a : answer) : M (option Z) :=
  match a with
  | None => mret None
  | Some (crr, bytes) =>
      let crr_sz := zlen bytes in
      map_region crr bytes;;
      wr crr (Z.lor crr_sz (if mseg then MSEG_CARRIER_HDR_FLAG else 0));;
      let blk := crr + mbc_header_size in
      let blk_sz := UNIT_FLOOR (Uint (crr_sz - mbc_header_size)) in
      wr (blk - W) 0;;
      SET_BLK_HDR blk blk_sz (Z.lor (Z.lor THIS_FREE_BLK_HDR_FLG PREV_FREE_BLK_HDR_FLG) LAST_BLK_HDR_FLG);;
      modify (λ s, set_mbc_list (mbc_list s ++ [crr]) s);;
      mret (Some blk)
  end.

(** [create_carrier] with [CFLG_SBC|CFLG_FORCE_SIZE|CFLG_FORCE_SYS_ALLOC]. *)
Definition create_sbc (umem_sz : Z) (a : answer) : M (option Z) :=
  match a with
  | None => mret None
  | Some (crr, bytes) =>
      let blk_sz := UMEMSZ2BLKSZ umem_sz in
      map_region crr bytes;;
      wr crr (Z.lor (zlen bytes) SBC_CARRIER_HDR_FLAG);;
      let blk := crr + sbc_header_size in
      wr (blk - W) SBC_BLK_FTR_FLG;;
      SET_BLK_HDR blk blk_sz (Z.lor PREV_FREE_BLK_HDR_FLG LAST_BLK_HDR_FLG);;
      modify (λ s, set_sbc_list (sbc_list s ++ [crr]) s);;
      mret (Some blk)
  end.

(** [destroy_carrier] of a multiblock carrier. *)
Definition destroy_mbc (blk : Z) : M unit :=
  let crr := blk - mbc_header_size in
  chdr ← rd crr;
  modify (λ s, set_mbc_list (filter (λ c, c ≠ crr) (mbc_list s)) s);;
  unmap_region crr (Z.land chdr SZ_MASK).

(** The main carrier, created by [erts_alcu_start] ([CFLG_MAIN_CARRIER]); the allocator is not started without it. *)
Definition start_main_carrier (a : answer) : M bool :=
  blk ← create_mbc false a;
  match blk with
  | None => mret false
  | Some blk => modify (set_main (Some (blk - mbc_header_size)));; call_link_free_block blk;; mret true
  end.

(** ** Allocation *)
Definition mbc_alloc_block (sz : Z) (mseg : bool) (mbc sbc : answer) : M (option Z * Z) :=
  let blk_sz := UMEMSZ2BLKSZ sz in
  blk ← call_get_free_block blk_sz None;
  match blk with
  | Some _ => mret (blk, blk_sz)
  | None =>
      blk ← create_mbc mseg mbc;
      match blk with
      | Some _ => mret (blk, blk_sz)
      | None => blk ← create_sbc sz sbc; mret (blk, blk_sz)
      end
  end.

Definition mbc_alloc_finalize (blk org_blk_sz flags want_blk_sz : Z) (valid_blk_info : bool) : M unit :=
  let prev_free_flg := Z.land flags PREV_FREE_BLK_HDR_FLG in
  let last := negb (Z.land flags LAST_BLK_HDR_FLG =? 0) in
  if Uint (org_blk_sz - min_block_size) >=? want_blk_sz then
    let blk_sz := want_blk_sz in
    let nxt_blk_sz := Uint (org_blk_sz - blk_sz) in
    SET_BLK_HDR blk blk_sz prev_free_flg;;
    nxt_blk ← NXT_BLK blk;
    SET_BLK_HDR nxt_blk nxt_blk_sz (Z.lor THIS_FREE_BLK_HDR_FLG (Z.land flags LAST_BLK_HDR_FLG));;
    when (negb last) (
      SET_BLK_SZ_FTR nxt_blk nxt_blk_sz;;
      when (negb valid_blk_info) (nxt_nxt_blk ← NXT_BLK nxt_blk; SET_PREV_BLK_FREE nxt_nxt_blk));;
    call_link_free_block nxt_blk;;
    STAT_MBC_BLK_ALLOC blk_sz
  else
    let blk_sz := org_blk_sz in
    (if last then
       if valid_blk_info then SET_BLK_ALLOCED blk else SET_BLK_HDR blk blk_sz (Z.lor LAST_BLK_HDR_FLG prev_free_flg)
     else
       (if valid_blk_info then SET_BLK_ALLOCED blk else SET_BLK_HDR blk blk_sz prev_free_flg);;
       nxt_blk ← NXT_BLK blk;
       SET_PREV_BLK_ALLOCED nxt_blk);;
    STAT_MBC_BLK_ALLOC blk_sz.

Definition finalize_block (blk want_blk_sz : Z) : M unit :=
  sz ← BLK_SZ blk; flags ← GET_BLK_HDR_FLGS blk; mbc_alloc_finalize blk sz flags want_blk_sz true.

Definition mbc_alloc (sz : Z) (mseg : bool) (mbc sbc : answer) : M (option Z) :=
  '(blk, blk_sz) ← mbc_alloc_block sz mseg mbc sbc;
  match blk with
  | None => mret None
  | Some blk =>
      is_sbc ← IS_SBC_BLK blk;
      when (negb is_sbc) (finalize_block blk blk_sz);;
      mret (Some (BLK2UMEM blk))
  end.

(** ** Freeing *)
(** "Coalesce with previous block...": the block, its size and whether it is the first one. *)
Definition coalesce_prev (blk blk_sz : Z) (is_first_blk : bool) : M (Z * Z * bool) :=
  prev_free ← IS_PREV_BLK_FREE blk;
  if negb is_first_blk && (prev_free : bool) then
    blk ← PREV_BLK blk;
    call_unlink_free_block blk;;
    sz ← BLK_SZ blk;
    let blk_sz := Uint (blk_sz + sz) in
    is_first_blk ← IS_FIRST_BLK blk;
    SET_BLK_SZ blk blk_sz;;
    mret (blk, blk_sz, is_first_blk)
  else
    SET_BLK_FREE blk;;
    mret (blk, blk_sz, is_first_blk).

(** "Coalesce with next block...": whether the block is the last one now. *)
Definition coalesce_next (blk blk_sz : Z) (is_last_blk : bool) : M bool :=
  if is_last_blk then SET_LAST_BLK blk;; mret is_last_blk
  else
    nxt_blk ← NXT_BLK blk;
    nxt_free ← IS_FREE_BLK nxt_blk;
    if (nxt_free : bool) then
      call_unlink_free_block nxt_blk;;
      sz ← BLK_SZ nxt_blk;
      let blk_sz := Uint (blk_sz + sz) in
      SET_BLK_SZ blk blk_sz;;
      is_last_blk ← IS_LAST_BLK nxt_blk;
      (if (is_last_blk : bool) then SET_LAST_BLK blk
       else SET_NOT_LAST_BLK blk;; SET_BLK_SZ_FTR blk blk_sz);;
      mret is_last_blk
    else
      SET_PREV_BLK_FREE nxt_blk;;
      SET_NOT_LAST_BLK blk;;
      SET_BLK_SZ_FTR blk blk_sz;;
      mret is_last_blk.

Definition mbc_free (p : Z) : M unit :=
  let blk := UMEM2BLK p in
  blk_sz ← BLK_SZ blk;
  STAT_MBC_BLK_FREE blk_sz;;
  is_first_blk ← IS_FIRST_BLK blk;
  is_last_blk ← IS_LAST_BLK blk;
  '(blk, blk_sz, is_first_blk) ← coalesce_prev blk blk_sz is_first_blk;
  is_last_blk ← coalesce_next blk blk_sz is_last_blk;
  main ← gets main_carrier;
  if is_first_blk && is_last_blk && bool_decide (main ≠ Some (blk - mbc_header_size)) then destroy_mbc blk else call_link_free_block blk.

(** ** Reallocation *)

(** "Shrink at current location". *)
Definition shrink_here (p blk old_blk_sz blk_sz : Z) (is_last_blk : bool) : M (option Z) :=
  let nxt_blk_sz := Uint (old_blk_sz - blk_sz) in
  keep ← (if is_last_blk then mret true else nxt_blk ← NXT_BLK blk; f ← IS_FREE_BLK nxt_blk; mret (negb f));
  if (keep : bool) && (nxt_blk_sz <? min_block_size) then mret (Some p)
  else
    SET_BLK_SZ blk blk_sz;;
    SET_NOT_LAST_BLK blk;;
    nxt_blk ← NXT_BLK blk;
    SET_BLK_HDR nxt_blk nxt_blk_sz THIS_FREE_BLK_HDR_FLG;;
    STAT_MBC_BLK_FREE old_blk_sz;;
    STAT_MBC_BLK_ALLOC blk_sz;;
    (if is_last_blk then SET_LAST_BLK nxt_blk
     else
       nxt_nxt_blk ← NXT_BLK nxt_blk;
       f ← IS_FREE_BLK nxt_nxt_blk;
       if (f : bool) then
         (* Coalesce with next free block... *)
         sz ← BLK_SZ nxt_nxt_blk;
         let nxt_blk_sz := Uint (nxt_blk_sz + sz) in
         call_unlink_free_block nxt_nxt_blk;;
         SET_BLK_SZ nxt_blk nxt_blk_sz;;
         is_last_blk ← IS_LAST_BLK nxt_nxt_blk;
         if (is_last_blk : bool) then SET_LAST_BLK nxt_blk else SET_BLK_SZ_FTR nxt_blk nxt_blk_sz
       else
         SET_BLK_SZ_FTR nxt_blk nxt_blk_sz;;
         SET_PREV_BLK_FREE nxt_nxt_blk);;
    call_link_free_block nxt_blk;;
    mret (Some p).

(** "Grow into next block". *)
Definition grow_into_next (p blk old_blk_sz blk_sz nxt_blk nxt_blk_sz : Z) : M (option Z) :=
  call_unlink_free_block nxt_blk;;
  let nxt_blk_sz := Uint (nxt_blk_sz - (blk_sz - old_blk_sz)) in
  is_last_blk ← IS_LAST_BLK nxt_blk;
  blk_sz ←
    (if nxt_blk_sz <? min_block_size then
       let blk_sz := Uint (blk_sz + nxt_blk_sz) in
       SET_BLK_SZ blk blk_sz;;
       (if (is_last_blk : bool) then SET_LAST_BLK blk else nxt_blk ← NXT_BLK blk; SET_PREV_BLK_ALLOCED nxt_blk);;
       mret blk_sz
     else
       SET_BLK_SZ blk blk_sz;;
       nxt_blk ← NXT_BLK blk;
       SET_BLK_HDR nxt_blk nxt_blk_sz THIS_FREE_BLK_HDR_FLG;;
       (if (is_last_blk : bool) then SET_LAST_BLK nxt_blk else SET_BLK_SZ_FTR nxt_blk nxt_blk_sz);;
       call_link_free_block nxt_blk;;
       mret blk_sz);
  STAT_MBC_BLK_FREE old_blk_sz;;
  STAT_MBC_BLK_ALLOC blk_sz;;
  mret (Some p).

(** The block and what follows it, when that is free. *)
Definition add_next_free (blk sz : Z) (is_last_blk : bool) : M Z :=
  if is_last_blk then mret sz
  else nxt_blk ← NXT_BLK blk; f ← IS_FREE_BLK nxt_blk; if (f : bool) then nsz ← BLK_SZ nxt_blk; mret (Uint (sz + nsz)) else mret sz.

(** There is a free block before the block. *)
Definition prev_is_free (blk : Z) : M bool :=
  f ← IS_PREV_BLK_FREE blk; if (f : bool) then first ← IS_FIRST_BLK blk; mret (negb first) else mret false.

(** [move_into_new_blk:] *)
Definition move_into_new_blk (p blk sz blk_sz old_blk_sz : Z) (is_last_blk : bool) (new_blk : option Z) (cand_blk : Z) : M (option Z) :=
  match new_blk with
  | Some new_blk =>
      finalize_block new_blk blk_sz;;
      let new_p := BLK2UMEM new_blk in
      memcpy new_p p (Z.min sz (old_blk_sz - ABLK_HDR_SZ));;
      mbc_free p;;
      mret (Some new_p)
  | None =>
      prev_blk_sz ← PREV_BLK_SZ blk;
      let new_blk := cand_blk in
      let new_blk_sz := Uint (prev_blk_sz + old_blk_sz) in
      new_blk_flgs ← GET_BLK_HDR_FLGS new_blk;
      call_unlink_free_block new_blk;;
      '(new_blk_flgs, new_blk_sz) ←
        (if is_last_blk then mret (Z.lor new_blk_flgs LAST_BLK_HDR_FLG, new_blk_sz)
         else
           nxt_blk ← NXT_BLK blk;
           f ← IS_FREE_BLK nxt_blk;
           if (f : bool) then
             l ← GET_LAST_BLK_HDR_FLG nxt_blk;
             nsz ← BLK_SZ nxt_blk;
             call_unlink_free_block nxt_blk;;
             mret (Z.lor new_blk_flgs l, Uint (new_blk_sz + nsz))
           else mret (new_blk_flgs, new_blk_sz));
      let new_p := BLK2UMEM new_blk in
      let blk_cpy_sz := Z.min blk_sz old_blk_sz in
      (if prev_blk_sz >=? blk_cpy_sz then memcpy new_p p (blk_cpy_sz - ABLK_HDR_SZ) else memmove new_p p (blk_cpy_sz - ABLK_HDR_SZ));;
      mbc_alloc_finalize new_blk new_blk_sz new_blk_flgs blk_sz false;;
      STAT_MBC_BLK_FREE old_blk_sz;;
      mret (Some new_p)
  end.

(** [fail_move] is [flgs & ERTS_ALCU_FLG_FAIL_REALLOC_MOVE]. *)
Definition mbc_realloc (p sz : Z) (fail_move mseg : bool) (mbc sbc : answer) : M (option Z) :=
  let blk := UMEM2BLK p in
  old_blk_sz ← BLK_SZ blk;
  let blk_sz := UMEMSZ2BLKSZ sz in
  is_last_blk ← IS_LAST_BLK blk;
  if old_blk_sz =? blk_sz then mret (Some p)
  else if blk_sz <? old_blk_sz then
    let diff := Uint (old_blk_sz - blk_sz) in
    let '(old_blk_sz_val, diff_sz_val) :=
      if diff >=? Uint (-1) / 100 then (Z.shiftr old_blk_sz 7, Z.shiftr diff 7) else (old_blk_sz, diff) in
    if Uint (100 * diff_sz_val) >? Uint (mbc_move_threshold * old_blk_sz_val) then
      if fail_move then mret None
      else
        prev ← prev_is_free blk;
        '(cand_blk, cand_blk_sz) ←
          (if (prev : bool) then b ← PREV_BLK blk; psz ← PREV_BLK_SZ blk; mret (b, Uint (old_blk_sz + psz)) else mret (blk, old_blk_sz));
        cand_blk_sz ← add_next_free blk cand_blk_sz is_last_blk;
        new_blk ← call_get_free_block blk_sz (Some (cand_blk, cand_blk_sz));
        if bool_decide (new_blk ≠ None ∨ cand_blk ≠ blk)
        then move_into_new_blk p blk sz blk_sz old_blk_sz is_last_blk new_blk cand_blk
        else shrink_here p blk old_blk_sz blk_sz is_last_blk
    else shrink_here p blk old_blk_sz blk_sz is_last_blk
  else
    (* Need larger block... *)
    nxt ←
      (if (is_last_blk : bool) then mret None
       else
         nxt_blk ← NXT_BLK blk;
         nxt_blk_sz ← BLK_SZ nxt_blk;
         f ← IS_FREE_BLK nxt_blk;
         mret (if (f : bool) && (blk_sz <=? Uint (old_blk_sz + nxt_blk_sz)) then Some (nxt_blk, nxt_blk_sz) else None));
    match nxt with
    | Some (nxt_blk, nxt_blk_sz) => grow_into_next p blk old_blk_sz blk_sz nxt_blk nxt_blk_sz
    | None =>
        if fail_move then mret None
        else
          (* Need to grow in another block *)
          prev ← prev_is_free blk;
          '(cand, cand_blk_sz) ←
            (if (prev : bool) then
               b ← PREV_BLK blk;
               psz ← PREV_BLK_SZ blk;
               csz ← add_next_free blk (Uint (old_blk_sz + psz)) is_last_blk;
               mret (Some b, csz)
             else mret (None, 0));
          match (if cand_blk_sz <? blk_sz then None else cand) with
          | None =>
              new_p ← mbc_alloc sz mseg mbc sbc;
              match new_p with
              | None => mret None
              | Some new_p =>
                  memcpy new_p p (Z.min sz (old_blk_sz - ABLK_HDR_SZ));;
                  mbc_free p;;
                  mret (Some new_p)
              end
          | Some cand_blk =>
              new_blk ← call_get_free_block blk_sz (Some (cand_blk, cand_blk_sz));
              move_into_new_blk p blk sz blk_sz old_blk_sz is_last_blk new_blk cand_blk
          end
    end.

End Util.
