(* ===== verification/AllocHdr.v ===== *)
(** Block headers as sizes and flags, and weakest preconditions for the macros that read and write them. *)

From Stdlib Require Import Lia ZArith.
From stdpp Require Import base numbers list option gmap.
From S2P Require Import Prelude FreeBlocks AllocMem AllocUtil.
Open Scope Z_scope.

Create HintDb alloc.

(** ** Words of a multiple of eight and three flags *)
Section Flags.
Implicit Types (q r c : Z).

Lemma eight_lor q r : 0 ≤ r < 8 → 8 * q + r = Z.lor (Z.shiftl q 3) r.
Proof. intros Hr. rewrite lor_shiftl_add by (change (2 ^ 3) with 8; lia). change (2 ^ 3) with 8. lia. Qed.

Lemma high_low_land q c : 0 ≤ c < 8 → Z.land (Z.shiftl q 3) c = 0.
Proof.
  intros Hc. apply Z.bits_inj'. intros n Hn. rewrite Z.land_spec, Z.bits_0. destruct (Z.ltb_spec n 3).
  - by rewrite Z.shiftl_spec_low.
  - assert (Z.testbit c n = false) as ->; [|by rewrite andb_false_r]. destruct (decide (c = 0)) as [->|]; [apply Z.bits_0|].
    apply Z.bits_above_log2; [lia|]. assert (Z.log2 c < 3); [|lia]. apply Z.log2_lt_pow2; [lia|]. change (2 ^ 3) with 8. lia.
Qed.

Lemma land_flags q r c : 0 ≤ r < 8 → 0 ≤ c < 8 → Z.land (8 * q + r) c = Z.land r c.
Proof. intros. by rewrite eight_lor, Z.land_lor_distr_l, high_low_land, Z.lor_0_l. Qed.

Lemma small_cases r : 0 ≤ r < 8 → r ∈ [0; 1; 2; 3; 4; 5; 6; 7].
Proof. intros H. rewrite !elem_of_cons. lia. Qed.

Lemma small_lor r c : 0 ≤ r < 8 → 0 ≤ c < 8 → 0 ≤ Z.lor r c < 8 ∧ 0 ≤ Z.ldiff r c < 8.
Proof.
  intros Hr%small_cases Hc%small_cases. rewrite !elem_of_cons, elem_of_nil in Hr, Hc. destruct_or!; subst; vm_compute; repeat split; congruence.
Qed.

Lemma lor_flags q r c : 0 ≤ r < 8 → 0 ≤ c < 8 → Z.lor (8 * q + r) c = 8 * q + Z.lor r c.
Proof. intros. rewrite !eight_lor by (done || by apply small_lor). by rewrite Z.lor_assoc. Qed.

Lemma ldiff_flags q r c : 0 ≤ r < 8 → 0 ≤ c < 8 → Z.ldiff (8 * q + r) c = 8 * q + Z.ldiff r c.
Proof.
  intros. rewrite !eight_lor by (done || by apply small_lor). apply Z.bits_inj'. intros n Hn. rewrite Z.ldiff_spec, !Z.lor_spec, Z.ldiff_spec.
  assert (Z.testbit (Z.land (Z.shiftl q 3) c) n = false) as E by (rewrite high_low_land by done; apply Z.bits_0).
  rewrite Z.land_spec in E. destruct (Z.testbit (Z.shiftl q 3) n), (Z.testbit r n), (Z.testbit c n); done.
Qed.
End Flags.

Definition b2z (b : bool) : Z := if b then 1 else 0.

(** The flags of a header: this block is free, the block before it is, it is the last of the carrier. *)
Definition flags (f pf l : bool) : Z := b2z f + 2 * b2z pf + 4 * b2z l.
Definition hdr (sz : Z) (f pf l : bool) : Z := sz + flags f pf l.

Lemma flags_range f pf l : 0 ≤ flags f pf l < 8.
Proof. destruct f, pf, l; done. Qed.
#[export] Hint Resolve flags_range : alloc.

Section Spec.
Context {ac : AllocConfig} {S : Type} {ops : FreeBlockOps S}.
Implicit Types (s : Allctr S) (m : memory).

(** The end of the address space. *)
Definition LIMIT : Z := 256 ^ Z.of_nat UINT_SZ.

Lemma W_cases : W = 4 ∨ W = 8.
Proof. unfold W. destruct UINT_SZ_cases as [-> | ->]; lia. Qed.

Lemma LIMIT_pow : LIMIT = 2 ^ (8 * W).
Proof. unfold LIMIT, W. change 256 with (2 ^ 8). rewrite <- Z.pow_mul_r by lia. done. Qed.

Lemma LIMIT_8 : ∃ k, LIMIT = 8 * k ∧ 4096 ≤ LIMIT.
Proof. rewrite LIMIT_pow. destruct W_cases as [-> | ->]; [exists (2 ^ 29)|exists (2 ^ 61)]; done. Qed.

Lemma Uint_word z : 0 ≤ z < LIMIT → Uint z = z.
Proof. intros H. apply wrap_u_small. by rewrite <- LIMIT_pow. Qed.

(** A size that a header can hold. *)
Definition is_size (sz : Z) : Prop := (8 | sz) ∧ 0 ≤ sz < LIMIT.

Lemma is_size_hdr sz f pf l : is_size sz → 0 ≤ hdr sz f pf l < LIMIT.
Proof.
  intros [[q ->] H]. destruct LIMIT_8 as (k & E & _). pose proof (flags_range f pf l). unfold hdr. lia.
Qed.

Lemma is_size_add sz1 sz2 : is_size sz1 → is_size sz2 → sz1 + sz2 < LIMIT → is_size (sz1 + sz2).
Proof. intros [H1 ?] [H2 ?] ?. split; [by apply Z.divide_add_r|lia]. Qed.

Lemma is_size_sub sz1 sz2 : is_size sz1 → is_size sz2 → sz2 ≤ sz1 → is_size (sz1 - sz2).
Proof. intros [H1 ?] [H2 ?] ?. split; [by apply Z.divide_sub_r|lia]. Qed.

(** What the macros compute. *)
Lemma hdr_size sz f pf l : is_size sz → Z.land (hdr sz f pf l) SZ_MASK = sz.
Proof.
  intros Hsz. pose proof (is_size_hdr sz f pf l Hsz) as Hr. destruct Hsz as [[q ->] Hsz]. unfold hdr in *. pose proof (flags_range f pf l) as Hf.
  rewrite (Z.mul_comm q 8) in *. unfold SZ_MASK, Uint, wrap_u. rewrite LIMIT_pow in *. assert (3 ≤ 8 * W) as HW by (destruct W_cases; lia).
  generalize dependent (8 * W). intros n Hr Hsz Hn.
  replace (Z.shiftl ((-1) mod 2 ^ n) 3 mod 2 ^ n) with (Z.shiftl (Z.ones (n - 3)) 3).
  2:{ rewrite !Z.shiftl_mul_pow2, Z.ones_equiv by lia. unfold Z.pred. assert (2 ^ n = 2 ^ 3 * 2 ^ (n - 3)) as E.
      { rewrite <- Z.pow_add_r by lia. f_equal. lia. }
      pose proof (Z.pow_pos_nonneg 2 (n - 3) ltac:(lia) ltac:(lia)). change (2 ^ 3) with 8 in *.
      replace (-1 mod 2 ^ n) with (2 ^ n - 1); [|apply Z.mod_unique with (-1); lia].
      apply Z.mod_unique with 7; lia. }
  rewrite eight_lor by done. apply Z.bits_inj'. intros i Hi. rewrite Z.land_spec, Z.lor_spec. destruct (Z.ltb_spec i 3).
  - replace (8 * q) with (Z.shiftl q 3) by (rewrite Z.shiftl_mul_pow2 by lia; change (2 ^ 3) with 8; lia).
    rewrite !Z.shiftl_spec_low by lia. by rewrite andb_false_r.
  - assert (Z.testbit (flags f pf l) i = false) as ->.
    { destruct (decide (flags f pf l = 0)) as [->|]; [apply Z.bits_0|]. apply Z.bits_above_log2; [lia|].
      assert (Z.log2 (flags f pf l) < 3); [|lia]. apply Z.log2_lt_pow2; [lia|]. change (2 ^ 3) with 8. lia. }
    rewrite orb_false_r. replace (8 * q) with (Z.shiftl q 3) by (rewrite Z.shiftl_mul_pow2 by lia; change (2 ^ 3) with 8; lia).
    rewrite !Z.shiftl_spec by lia. destruct (Z.ltb_spec i n).
    + rewrite Z.ones_spec_low by lia. by rewrite andb_true_r.
    + assert (Z.testbit q (i - 3) = false) as ->; [|done]. destruct (decide (q = 0)) as [->|]; [apply Z.bits_0|].
      apply Z.bits_above_log2; [lia|]. assert (Z.log2 q < n - 3); [|lia]. apply Z.log2_lt_pow2; [lia|].
      assert (2 ^ n = 2 ^ 3 * 2 ^ (n - 3)) as E by (rewrite <- Z.pow_add_r by lia; f_equal; lia). change (2 ^ 3) with 8 in *. lia.
Qed.

Lemma hdr_flag sz f pf l c : is_size sz → 0 ≤ c < 8 → Z.land (hdr sz f pf l) c = Z.land (flags f pf l) c.
Proof. intros [[q ->] _] Hc. unfold hdr. rewrite (Z.mul_comm q 8). apply land_flags; auto with alloc. Qed.

Lemma hdr_set sz f pf l c : is_size sz → 0 ≤ c < 8 → Z.lor (hdr sz f pf l) c = sz + Z.lor (flags f pf l) c.
Proof. intros [[q ->] _] Hc. unfold hdr. rewrite (Z.mul_comm q 8). apply lor_flags; auto with alloc. Qed.

Lemma hdr_clear sz f pf l c : is_size sz → 0 ≤ c < 8 → Z.ldiff (hdr sz f pf l) c = sz + Z.ldiff (flags f pf l) c.
Proof. intros [[q ->] _] Hc. unfold hdr. rewrite (Z.mul_comm q 8). apply ldiff_flags; auto with alloc. Qed.

Lemma hdr_make sz c : is_size sz → 0 ≤ c < 8 → Z.lor sz c = sz + c.
Proof. intros [[q ->] _] Hc. rewrite (Z.mul_comm q 8). pose proof (lor_flags q 0 c ltac:(lia) Hc) as E. by rewrite Z.add_0_r, Z.lor_0_l in E. Qed.

Lemma hdr_resize sz sz' f pf l : is_size sz → is_size sz' → Z.lor (Z.land (hdr sz f pf l) FLG_MASK) sz' = hdr sz' f pf l.
Proof.
  intros H H'. rewrite hdr_flag by (done || unfold FLG_MASK; lia). rewrite Z.lor_comm, hdr_make; [|done|destruct f, pf, l; vm_compute; split; congruence].
  unfold hdr. f_equal. by destruct f, pf, l.
Qed.
(** ** Weakest preconditions *)
Definition wp {A} (c : M A) (s : Allctr S) (Q : A → Allctr S → Prop) : Prop := ∃ x s', c s = Some (x, s') ∧ Q x s'.

Lemma wp_ret {A} (x : A) s (Q : A → Allctr S → Prop) : Q x s → wp (mret x) s Q.
Proof. intros H. by exists x, s. Qed.

Lemma wp_bind {A B} (c : M A) (f : A → M B) s Q : wp c s (λ x s', wp (f x) s' Q) → wp (c ≫= f) s Q.
Proof. intros (x & s' & E & y & s'' & E' & H). exists y, s''. split; [|done]. unfold mbind, M_bind. rewrite E. exact E'. Qed.

Lemma wp_bind_inv {A B} (c : M A) (f : A → M B) s Q : wp (c ≫= f) s Q → wp c s (λ x s', wp (f x) s' Q).
Proof.
  intros (y & s'' & E & H). unfold mbind, M_bind in E. destruct (c s) as [[x s']|] eqn:Ec; [|done]. exists x, s'. split; [done|]. by exists y, s''.
Qed.

(** A result that is returned at the end. *)
Lemma wp_then_ret {A B C} (c : M A) (d : M B) (x : C) s (P : Allctr S → Prop) Q :
  wp (c;; d) s (λ _, P) → (∀ s', P s' → Q x s') → wp (c;; d;; mret x) s Q.
Proof.
  intros H HQ. apply wp_bind_inv in H. apply wp_bind. destruct H as (y & s1 & E & H). exists y, s1. split; [done|]. apply wp_bind.
  destruct H as (z & s2 & E2 & H). exists z, s2. split; [done|]. apply wp_ret. by apply HQ.
Qed.

Lemma wp_mono {A} (c : M A) s (Q Q' : A → Allctr S → Prop) : wp c s Q → (∀ x s', Q x s' → Q' x s') → wp c s Q'.
Proof. intros (x & s' & E & H) HQ. exists x, s'. auto. Qed.

Lemma wp_gets {A} (f : Allctr S → A) s (Q : A → Allctr S → Prop) : Q (f s) s → wp (gets f) s Q.
Proof. intros H. by exists (f s), s. Qed.

Lemma wp_modify f s (Q : unit → Allctr S → Prop) : Q tt (f s) → wp (modify f) s Q.
Proof. intros H. by exists tt, (f s). Qed.

Lemma wp_with_fbs {A} (f : S → option (A * S)) s x fb (Q : A → Allctr S → Prop) : f (fbs s) = Some (x, fb) → Q x (set_fbs fb s) → wp (with_fbs f) s Q.
Proof. intros E H. exists x, (set_fbs fb s). unfold with_fbs. by rewrite E. Qed.

Lemma wp_rd a w s (Q : Z → Allctr S → Prop) : load_word UINT_SZ (mem s) a = Some w → Q w s → wp (rd a) s Q.
Proof. intros E H. exists w, s. unfold rd. by rewrite E. Qed.

Lemma wp_wr a w s (Q : unit → Allctr S → Prop) : mapped (mem s) a W = true → Q tt (set_mem (put_word UINT_SZ (mem s) a w) s) → wp (wr a w) s Q.
Proof. intros E H. eexists tt, _. split; [|exact H]. unfold wr. by rewrite store_word_ok. Qed.

(** The header of the block at [a]. *)
Definition bh (m : memory) (a sz : Z) (f pf l : bool) : Prop := load_word UINT_SZ m a = Some (hdr sz f pf l).

Lemma bh_mapped m a sz f pf l : bh m a sz f pf l → mapped m a W = true.
Proof. apply load_word_mapped. Qed.

Section Macros.
Context (s : Allctr S) (a sz : Z) (f pf l : bool) (Hb : bh (mem s) a sz f pf l) (Hsz : is_size sz).

Lemma wp_BLK_SZ Q : Q sz s → wp (BLK_SZ a) s Q.
Proof. intros H. eapply wp_bind, wp_rd; [done|]. rewrite hdr_size by done. by apply wp_ret. Qed.

Lemma wp_NXT_BLK Q : Q (a + sz) s → wp (NXT_BLK a) s Q.
Proof. intros H. apply wp_bind, wp_BLK_SZ. by apply wp_ret. Qed.

Lemma wp_TEST_FLG c (b : bool) Q : 0 ≤ c < 8 → negb (Z.land (flags f pf l) c =? 0) = b → Q b s → wp (TEST_FLG c a) s Q.
Proof. intros Hc <- H. eapply wp_bind, wp_rd; [done|]. rewrite hdr_flag by done. by apply wp_ret. Qed.

Lemma wp_IS_FREE_BLK Q : Q f s → wp (IS_FREE_BLK a) s Q.
Proof. apply wp_TEST_FLG; [unfold THIS_FREE_BLK_HDR_FLG; lia|]. by destruct f, pf, l. Qed.

Lemma wp_IS_PREV_BLK_FREE Q : Q pf s → wp (IS_PREV_BLK_FREE a) s Q.
Proof. apply wp_TEST_FLG; [unfold PREV_FREE_BLK_HDR_FLG; lia|]. by destruct f, pf, l. Qed.

Lemma wp_IS_LAST_BLK Q : Q l s → wp (IS_LAST_BLK a) s Q.
Proof. apply wp_TEST_FLG; [unfold LAST_BLK_HDR_FLG; lia|]. by destruct f, pf, l. Qed.

Lemma wp_GET_BLK_HDR_FLGS Q : Q (flags f pf l) s → wp (GET_BLK_HDR_FLGS a) s Q.
Proof.
  intros H. eapply wp_bind, wp_rd; [done|]. rewrite hdr_flag by (done || unfold FLG_MASK; lia).
  apply wp_ret. by replace (Z.land (flags f pf l) FLG_MASK) with (flags f pf l) by by destruct f, pf, l.
Qed.

Lemma wp_GET_LAST_BLK_HDR_FLG Q : Q (4 * b2z l) s → wp (GET_LAST_BLK_HDR_FLG a) s Q.
Proof.
  intros H. eapply wp_bind, wp_rd; [done|]. rewrite hdr_flag by (done || unfold LAST_BLK_HDR_FLG; lia).
  apply wp_ret. by replace (Z.land (flags f pf l) LAST_BLK_HDR_FLG) with (4 * b2z l) by by destruct f, pf, l.
Qed.

(** Writes. *)
Definition set_hdr (sz : Z) (f pf l : bool) : Allctr S := set_mem (put_word UINT_SZ (mem s) a (hdr sz f pf l)) s.

Lemma wp_SET_BLK_SZ sz' Q : is_size sz' → Q tt (set_hdr sz' f pf l) → wp (SET_BLK_SZ a sz') s Q.
Proof. intros Hsz' H. eapply wp_bind, wp_rd; [done|]. apply wp_wr; [by eapply bh_mapped|]. by rewrite hdr_resize. Qed.

Lemma wp_SET_FLG c f' pf' l' Q : 0 ≤ c < 8 → Z.lor (flags f pf l) c = flags f' pf' l' → Q tt (set_hdr sz f' pf' l') → wp (SET_FLG c a) s Q.
Proof. intros Hc E H. eapply wp_bind, wp_rd; [done|]. apply wp_wr; [by eapply bh_mapped|]. by rewrite hdr_set, E. Qed.

Lemma wp_CLEAR_FLG c f' pf' l' Q : 0 ≤ c < 8 → Z.ldiff (flags f pf l) c = flags f' pf' l' → Q tt (set_hdr sz f' pf' l') → wp (CLEAR_FLG c a) s Q.
Proof. intros Hc E H. eapply wp_bind, wp_rd; [done|]. apply wp_wr; [by eapply bh_mapped|]. by rewrite hdr_clear, E. Qed.

Lemma wp_SET_BLK_FREE Q : Q tt (set_hdr sz true pf l) → wp (SET_BLK_FREE a) s Q.
Proof. apply wp_SET_FLG; [unfold THIS_FREE_BLK_HDR_FLG; lia|]. by destruct f, pf, l. Qed.
Lemma wp_SET_BLK_ALLOCED Q : Q tt (set_hdr sz false pf l) → wp (SET_BLK_ALLOCED a) s Q.
Proof. apply wp_CLEAR_FLG; [unfold THIS_FREE_BLK_HDR_FLG; lia|]. by destruct f, pf, l. Qed.
Lemma wp_SET_PREV_BLK_FREE Q : Q tt (set_hdr sz f true l) → wp (SET_PREV_BLK_FREE a) s Q.
Proof. apply wp_SET_FLG; [unfold PREV_FREE_BLK_HDR_FLG; lia|]. by destruct f, pf, l. Qed.
Lemma wp_SET_PREV_BLK_ALLOCED Q : Q tt (set_hdr sz f false l) → wp (SET_PREV_BLK_ALLOCED a) s Q.
Proof. apply wp_CLEAR_FLG; [unfold PREV_FREE_BLK_HDR_FLG; lia|]. by destruct f, pf, l. Qed.
Lemma wp_SET_LAST_BLK Q : Q tt (set_hdr sz f pf true) → wp (SET_LAST_BLK a) s Q.
Proof. apply wp_SET_FLG; [unfold LAST_BLK_HDR_FLG; lia|]. by destruct f, pf, l. Qed.
Lemma wp_SET_NOT_LAST_BLK Q : Q tt (set_hdr sz f pf false) → wp (SET_NOT_LAST_BLK a) s Q.
Proof. apply wp_CLEAR_FLG; [unfold LAST_BLK_HDR_FLG; lia|]. by destruct f, pf, l. Qed.
End Macros.

(** The word before a block: the size of a free block before it. *)
Lemma hdr_bare sz : hdr sz false false false = sz.
Proof. unfold hdr, flags, b2z. lia. Qed.

Lemma wp_PREV_BLK_SZ s a psz Q : load_word UINT_SZ (mem s) (a - W) = Some psz → is_size psz → Q psz s → wp (PREV_BLK_SZ a) s Q.
Proof. intros E Hsz H. eapply wp_bind, wp_rd; [done|]. rewrite <- (hdr_bare psz), hdr_size by done. by apply wp_ret. Qed.

Lemma wp_PREV_BLK s a psz Q : load_word UINT_SZ (mem s) (a - W) = Some psz → is_size psz → Q (a - psz) s → wp (PREV_BLK a) s Q.
Proof. intros E Hsz H. eapply wp_bind, wp_PREV_BLK_SZ; [done|done|]. by apply wp_ret. Qed.

Lemma wp_IS_FIRST_BLK s a sz f pf l (first : bool) Q : bh (mem s) a sz f pf l → is_size sz →
  (pf = true → ∃ psz, load_word UINT_SZ (mem s) (a - W) = Some psz ∧ is_size psz ∧ (psz =? 0) = first) → (pf = false → first = false) →
  Q first s → wp (IS_FIRST_BLK a) s Q.
Proof.
  intros Hb Hsz Ht Hf H. eapply wp_bind, wp_IS_PREV_BLK_FREE; [done..|]. destruct pf.
  - destruct Ht as (psz & E & Hp & <-); [done|]. eapply wp_bind, wp_PREV_BLK_SZ; [done..|]. by apply wp_ret.
  - rewrite Hf in H by done. by apply wp_ret.
Qed.

Lemma wp_SET_BLK_HDR s a sz c f pf l Q : mapped (mem s) a W = true → is_size sz → c = flags f pf l →
  Q tt (set_hdr s a sz f pf l) → wp (SET_BLK_HDR a sz c) s Q.
Proof. intros Hm Hsz -> H. apply wp_wr; [done|]. rewrite hdr_make by auto with alloc. exact H. Qed.

Lemma wp_SET_BLK_SZ_FTR s a sz Q : mapped (mem s) (a + sz - W) W = true →
  Q tt (set_mem (put_word UINT_SZ (mem s) (a + sz - W) sz) s) → wp (SET_BLK_SZ_FTR a sz) s Q.
Proof. apply wp_wr. Qed.

(** The callbacks. *)
Context {laws : FreeBlockLaws S}.

Lemma wp_unlink s a sz Q : fb_ok (fbs s) → fb_map (fbs s) !! a = Some sz →
  (∀ fb, fb_ok fb → fb_map fb = delete a (fb_map (fbs s)) → Q tt (set_fbs fb s)) → wp (call_unlink_free_block a) s Q.
Proof.
  intros Hok Ha H. destruct (fb_unlink_ok (fbs s) a Hok) as (fb & E & Hfb & Hm); [by eexists|].
  eapply wp_with_fbs; [by rewrite E|]. by apply H.
Qed.

Lemma wp_link s a sz f pf l Q : bh (mem s) a sz f pf l → is_size sz → fb_ok (fbs s) → fb_map (fbs s) !! a = None →
  (∀ fb, fb_ok fb → fb_map fb = <[a := sz]> (fb_map (fbs s)) → Q tt (set_fbs fb s)) → wp (call_link_free_block a) s Q.
Proof.
  intros Hb Hsz Hok Ha H. apply wp_bind. eapply wp_BLK_SZ; [done..|]. destruct (fb_link_ok (fbs s) (Block a sz) Hok) as (fb & E & Hfb & Hm); [done|].
  eapply wp_with_fbs; [by rewrite E|]. by apply H.
Qed.

Lemma wp_get s sz cand Q : fb_ok (fbs s) →
  (∀ fb a asz, fb_ok fb → fb_map (fbs s) !! a = Some asz → sz ≤ asz → fb_map fb = delete a (fb_map (fbs s)) → Q (Some a) (set_fbs fb s)) →
  Q None s → wp (call_get_free_block sz cand) s Q.
Proof.
  intros Hok Hs Hn. apply wp_bind. destruct (fb_get_ok (fbs s) sz cand Hok) as (r & fb & E & Hfb & Hr). eapply wp_with_fbs; [exact E|].
  apply wp_ret. destruct r as [[a asz]|]; cbn; [destruct Hr as (? & ? & ?); by eapply Hs|]. destruct Hr as [-> _]. destruct s. exact Hn.
Qed.

End Spec.
