(* ===== verification/AllocCarrier.v ===== *)
(** Multiblock carriers: the invariant that ties the headers and footers in memory to a sequence of blocks. *)

From Stdlib Require Import Lia ZArith Sorting.Sorted.
From stdpp Require Import base numbers list option gmap sorting.
From S2P Require Import Prelude FreeBlocks AllocMem AllocUtil AllocHdr.
Open Scope Z_scope.

(** ** Sequences of blocks: sizes, and which are free *)
Abbreviation blocks := (list (Z * bool)).

Fixpoint total (bs : blocks) : Z := match bs with [] => 0 | (sz, _) :: bs' => sz + total bs' end.
Definition is_nil {A} (l : list A) : bool := match l with [] => true | _ => false end.

(** Whether the last block is free; [pf] for the block before an empty sequence. *)
Fixpoint last_free (pf : bool) (bs : blocks) : bool := match bs with [] => pf | (_, f) :: bs' => last_free f bs' end.

(** No free block follows a free one. *)
Fixpoint coalesced (pf : bool) (bs : blocks) : Prop :=
  match bs with [] => True | (_, f) :: bs' => pf && f = false ∧ coalesced f bs' end.

(** The free and the allocated blocks with their addresses. *)
Fixpoint select (free : bool) (a : Z) (bs : blocks) : list Block_t :=
  match bs with [] => [] | (sz, f) :: bs' => (if eqb f free then [Block a sz] else []) ++ select free (a + sz) bs' end.
Abbreviation frees := (select true).
Abbreviation allocs := (select false).

Lemma total_app b1 b2 : total (b1 ++ b2) = total b1 + total b2.
Proof. induction b1 as [|[sz f] b1 IH]; cbn; lia. Qed.

Lemma last_free_app pf b1 b2 : last_free pf (b1 ++ b2) = last_free (last_free pf b1) b2.
Proof. revert pf. induction b1 as [|[sz f] b1 IH]; intros pf; cbn; [done|]. apply IH. Qed.

Lemma last_free_cons pf pf' b bs : last_free pf (b :: bs) = last_free pf' (b :: bs).
Proof. by destruct b. Qed.

Lemma coalesced_app pf b1 b2 : coalesced pf (b1 ++ b2) ↔ coalesced pf b1 ∧ coalesced (last_free pf b1) b2.
Proof. revert pf. induction b1 as [|[sz f] b1 IH]; intros pf; cbn; [tauto|]. rewrite IH. tauto. Qed.

Lemma select_app free b1 : ∀ a b2, select free a (b1 ++ b2) = select free a b1 ++ select free (a + total b1) b2.
Proof.
  induction b1 as [|[sz f] b1 IH]; intros a b2; cbn; [by rewrite Z.add_0_r|]. rewrite IH, app_assoc. do 2 f_equal. lia.
Qed.

Lemma is_nil_app {A} (l1 l2 : list A) : is_nil (l1 ++ l2) = is_nil l1 && is_nil l2.
Proof. by destruct l1. Qed.

Section Carrier.
Context {ac : AllocConfig}.
Implicit Types (m : memory) (bs : blocks).

Definition wf_size (sz : Z) : Prop := is_size sz ∧ min_block_size ≤ sz.

Lemma min_size : 2 * W ≤ min_block_size.
Proof. apply min_block_size_ok. Qed.

Lemma wf_size_pos sz : wf_size sz → 2 * W ≤ sz ∧ 0 < sz ∧ sz < LIMIT.
Proof. intros [[_ H] H']. pose proof min_size. pose proof W_cases. lia. Qed.

(** The blocks [bs] lie at [a] in memory; [pf]: the previous block is free, or there is none; [e]: the carrier ends with them. *)
Fixpoint seg (m : memory) (a : Z) (pf : bool) (bs : blocks) (e : bool) : Prop :=
  match bs with
  | [] => True
  | (sz, f) :: bs' =>
      wf_size sz ∧ bh m a sz f pf (e && is_nil bs') ∧
      (f = true → e && is_nil bs' = false → load_word UINT_SZ m (a + sz - W) = Some sz) ∧
      seg m (a + sz) f bs' e
  end.

Lemma seg_total m a pf bs e : seg m a pf bs e → 0 ≤ total bs.
Proof. revert a pf. induction bs as [|[sz f] bs IH]; intros a pf H; cbn in *; [lia|]. destruct H as (H & _ & _ & H'). apply IH in H'. apply wf_size_pos in H. lia. Qed.

Lemma seg_app m e b2 b1 : ∀ a pf, seg m a pf (b1 ++ b2) e ↔ seg m a pf b1 (e && is_nil b2) ∧ seg m (a + total b1) (last_free pf b1) b2 e.
Proof.
  induction b1 as [|[sz f] b1 IH]; intros a pf; cbn [seg app total last_free]; [rewrite Z.add_0_r; tauto|].
  rewrite IH, is_nil_app. replace (a + sz + total b1) with (a + (sz + total b1)) by lia.
  replace (e && is_nil b2 && is_nil b1) with (e && (is_nil b1 && is_nil b2)) by (by destruct e, (is_nil b1), (is_nil b2)). tauto.
Qed.

(** Only what lies in the blocks matters. *)
Lemma seg_ext m m' bs e : ∀ a pf, (∀ x, a ≤ x < a + total bs → m' !! x = m !! x) → seg m a pf bs e → seg m' a pf bs e.
Proof.
  induction bs as [|[sz f] bs IH]; intros a pf Hx Hs; cbn [seg total] in *; [done|]. destruct Hs as (Hsz & Hb & Hf & Hs).
  pose proof (seg_total _ _ _ _ _ Hs). pose proof (wf_size_pos _ Hsz). pose proof W_cases. split; [done|]. split; [|split].
  - unfold bh. rewrite (load_word_ext _ m m'); [done|]. intros x ?. apply Hx. fold W in *. lia.
  - intros ? ?. rewrite (load_word_ext _ m m'); [by apply Hf|]. intros x ?. apply Hx. fold W in *. lia.
  - apply IH; [|done]. intros x ?. apply Hx. lia.
Qed.

(** The flag of the previous block, at the beginning of the sequence. *)
Lemma seg_head m m' a pf pf' bs e : seg m a pf bs e →
  match bs with [] => True | (sz, f) :: bs' => bh m' a sz f pf' (e && is_nil bs') end →
  (∀ x, a + W ≤ x < a + total bs → m' !! x = m !! x) → seg m' a pf' bs e.
Proof.
  destruct bs as [|[sz f] bs]; [done|]. cbn [seg total]. intros (Hsz & _ & Hf & Hs) Hb Hx. pose proof (wf_size_pos _ Hsz).
  pose proof (seg_total _ _ _ _ _ Hs). split; [done|]. split; [done|]. split.
  - intros ? ?. rewrite (load_word_ext _ m m'); [by apply Hf|]. intros x ?. apply Hx. fold W in *. lia.
  - eapply seg_ext; [|done]. intros x ?. apply Hx. pose proof W_cases. lia.
Qed.

(** ** Carriers *)
Record carrier := Carrier { c_blk : Z; c_sz : Z; c_bs : blocks }.
Definition c_lo (c : carrier) : Z := c_blk c - mbc_header_size.
Definition c_hi (c : carrier) : Z := c_lo c + c_sz c.

Definition carrier_ok (m : memory) (c : carrier) : Prop :=
  0 ≤ c_lo c ∧ c_hi c ≤ LIMIT ∧ c_blk c + total (c_bs c) ≤ c_hi c ∧ c_bs c ≠ [] ∧
  seg m (c_blk c) true (c_bs c) true ∧ coalesced false (c_bs c) ∧
  load_word UINT_SZ m (c_blk c - W) = Some 0 ∧
  (∃ chdr, load_word UINT_SZ m (c_lo c) = Some chdr ∧ Z.land chdr SZ_MASK = c_sz c) ∧
  mapped m (c_lo c) (c_sz c) = true.

(** [m'] differs from [m] only between [lo] and [hi]; nothing is unmapped. *)
Definition only (m m' : memory) (lo hi : Z) : Prop :=
  (∀ x, x < lo ∨ hi ≤ x → m' !! x = m !! x) ∧ ∀ x, is_Some (m !! x) → is_Some (m' !! x).

Lemma only_refl m lo hi : only m m lo hi.
Proof. done. Qed.

Lemma only_put m m' lo hi a w : only m m' lo hi → lo ≤ a → a + W ≤ hi → only m (put_word UINT_SZ m' a w) lo hi.
Proof.
  intros [H1 H2] Hlo Hhi. split; intros x Hx.
  - rewrite put_word_lookup by (fold W; lia). by apply H1.
  - apply H2 in Hx. unfold put_word. rewrite put_bytes_lookup. case_bool_decide; [|done]. apply lookup_lt_is_Some_2. lia.
Qed.

Lemma only_mono m m' lo hi lo' hi' : only m m' lo hi → lo' ≤ lo → hi ≤ hi' → only m m' lo' hi'.
Proof. intros [H1 H2] ? ?. split; [|done]. intros x Hx. apply H1. lia. Qed.

Lemma only_mapped m m' lo hi a n : only m m' lo hi → mapped m a n = true → mapped m' a n = true.
Proof. intros [_ H]. rewrite !mapped_spec. auto. Qed.

Lemma only_trans m m' m'' lo hi : only m m' lo hi → only m' m'' lo hi → only m m'' lo hi.
Proof. intros [H1 H2] [H3 H4]. split; [|auto]. intros x Hx. by rewrite H3, H1. Qed.

Lemma only_load m m' lo hi a : only m m' lo hi → a + W ≤ lo ∨ hi ≤ a → load_word UINT_SZ m' a = load_word UINT_SZ m a.
Proof. intros [H _] Ha. apply load_word_ext. intros x Hx. apply H. fold W in *. lia. Qed.

Lemma carrier_blk c m : carrier_ok m c → c_lo c + 4 * W ≤ c_blk c ∧ c_blk c + 2 * W ≤ c_hi c.
Proof.
  intros (_ & _ & Hin & Hne & Hs & _). pose proof mbc_header_size_ok as Hh. fold W in Hh. unfold c_lo. split; [lia|].
  destruct (c_bs c) as [|[sz f] bs]; [done|]. cbn in *. destruct Hs as (?%wf_size_pos & _ & _ & ?%seg_total). lia.
Qed.

(** Only what lies in the carrier matters. *)
Lemma carrier_agree m m' c : (∀ x, c_lo c ≤ x < c_hi c → m' !! x = m !! x) → carrier_ok m c → carrier_ok m' c.
Proof.
  intros Hx Hok. pose proof (carrier_blk _ _ Hok) as [Hb1 Hb2]. destruct Hok as (H1 & H2 & H3 & Hne & Hs & Hc & H0 & (chdr & Hch & Hcs) & Hm).
  pose proof (seg_total _ _ _ _ _ Hs). pose proof W_cases. repeat split; try done.
  - eapply seg_ext; [|done]. intros x ?. apply Hx. lia.
  - rewrite (load_word_ext _ m m'); [done|]. intros x ?. apply Hx. fold W in *. lia.
  - exists chdr. split; [|done]. rewrite (load_word_ext _ m m'); [done|]. intros x ?. apply Hx. fold W in *. lia.
  - rewrite mapped_spec in *. intros x ?. unfold c_hi in *. rewrite Hx by lia. by apply Hm.
Qed.

Lemma carrier_ext m m' lo hi c : only m m' lo hi → hi ≤ c_lo c ∨ c_hi c ≤ lo → carrier_ok m c → carrier_ok m' c.
Proof. intros [Ho _] Hd. apply carrier_agree. intros x Hx. apply Ho. lia. Qed.

(** How much of the block behind a sequence is touched: its header. *)
Definition hdr_of (bs : blocks) : Z := if is_nil bs then 0 else W.

(** Blocks in the middle of a carrier are exchanged for others of the same total size. *)
Lemma carrier_update m m' k csz pre mid new post :
  carrier_ok m (Carrier k csz (pre ++ mid ++ post)) → mid ≠ [] → new ≠ [] → total new = total mid →
  only m m' (k + total pre) (k + total pre + total mid + hdr_of post) →
  seg m' (k + total pre) (last_free true pre) new (is_nil post) →
  match post with [] => True | (sz, f) :: post' => bh m' (k + total pre + total mid) sz f (last_free false new) (is_nil post') end →
  coalesced (last_free false pre) (new ++ post) → carrier_ok m' (Carrier k csz (pre ++ new ++ post)).
Proof.
  intros (H1 & H2 & H3 & Hne & Hs & Hc & H0 & (chdr & Hch & Hcs) & Hm) Hmid Hnew Htot Ho Hseg Hpost Hco. cbn [c_blk c_sz c_bs] in *.
  rewrite !total_app in *. apply seg_app in Hs as [Hpre Hs]. apply seg_app in Hs as [Hmids Hposts].
  pose proof (seg_total _ _ _ _ _ Hpre). pose proof (seg_total _ _ _ _ _ Hmids). pose proof (seg_total _ _ _ _ _ Hposts).
  pose proof mbc_header_size_ok as Hh. fold W in Hh. pose proof W_cases. unfold c_hi, c_lo in *; cbn [c_blk c_sz c_bs] in *.
  assert (is_nil (mid ++ post) = false ∧ is_nil (new ++ post) = false) as [En1 En2] by (destruct mid, new; done).
  repeat split; unfold c_hi, c_lo; cbn [c_blk c_sz c_bs]; rewrite ?total_app; try done; try lia.
  - destruct pre; [destruct new; done|done].
  - apply seg_app. split.
    + rewrite En2. rewrite En1 in Hpre. eapply seg_ext; [|done]. intros x Hx. apply Ho. lia.
    + apply seg_app. split; [done|]. rewrite Htot. destruct new as [|b new]; [done|]. rewrite (last_free_cons _ false). eapply seg_head; [done| |].
      * by destruct post as [|[sz f] post].
      * intros x Hx. apply Ho. unfold hdr_of. destruct post; cbn in *; lia.
  - apply coalesced_app in Hc as [Hc _]. apply coalesced_app. done.
  - rewrite (only_load m m' _ _ _ Ho); [done|lia].
  - exists chdr. split; [|done]. rewrite (only_load m m' _ _ _ Ho); [done|lia].
  - by eapply only_mapped.
Qed.
End Carrier.

(** * The invariant of an allocator: its carriers, and what the strategy and the statistics know of their blocks. *)

Section Heap.
Context {ac : AllocConfig} {S : Type} {ops : FreeBlockOps S} {laws : FreeBlockLaws S}.
Implicit Types (s : Allctr S) (L : list carrier).

(** ** The strategy *)
Definition fb_view (fb : S) (l : list Block_t) : Prop := fb_ok fb ∧ distinct l ∧ fb_map fb = blk_map l.

Lemma fb_view_perm fb l l' : l ≡ₚ l' → fb_view fb l → fb_view fb l'.
Proof. intros Hp (H1 & H2 & H3). split; [done|]. split; [by eapply distinct_perm|]. rewrite H3. by apply blk_map_perm. Qed.

#[global] Instance fb_view_proper fb : Proper ((≡ₚ) ==> iff) (fb_view fb).
Proof. intros l l' Hp. split; apply fb_view_perm; [done|by symmetry]. Qed.

Lemma wp_unlink_view s a sz l Q : fb_view (fbs s) (Block a sz :: l) → (∀ fb, fb_view fb l → Q tt (set_fbs fb s)) →
  wp (call_unlink_free_block a) s Q.
Proof.
  intros (H1 & H2 & H3) HQ. eapply (wp_unlink s a sz); [done|rewrite H3; apply (blk_map_elem _ (Block a sz)); [done|by left]|].
  intros fb Hfb Hm. apply HQ. destruct (blk_map_del (Block a sz :: l) l (Block a sz) H2 (Permutation_refl _)) as [Hd Hm'].
  split; [done|]. split; [done|]. by rewrite Hm, H3, Hm'.
Qed.

Lemma wp_link_view s a sz f pf e l Q : bh (mem s) a sz f pf e → is_size sz → fb_view (fbs s) l → Forall (λ b, blk_addr b ≠ a) l →
  (∀ fb, fb_view fb (Block a sz :: l) → Q tt (set_fbs fb s)) → wp (call_link_free_block a) s Q.
Proof.
  intros Hb Hsz (H1 & H2 & H3) Ha HQ. assert (blk_map l !! a = None) as Hn.
  { destruct (blk_map l !! a) as [z|] eqn:E; [|done]. apply blk_map_lookup in E; [|done]. rewrite Forall_forall in Ha. by apply Ha in E. }
  eapply wp_link; [done|done|done|by rewrite H3|]. intros fb Hfb Hm. apply HQ. split; [done|].
  destruct (blk_map_add l (Block a sz :: l) (Block a sz) H2 Hn (Permutation_refl _)) as [Hd Hm']. split; [done|]. by rewrite Hm, H3, Hm'.
Qed.

Lemma wp_get_view s sz cand l Q : fb_view (fbs s) l →
  (∀ fb b l', l ≡ₚ b :: l' → sz ≤ FreeBlocks.BLK_SZ b → fb_view fb l' → Q (Some (blk_addr b)) (set_fbs fb s)) → Q None s →
  wp (call_get_free_block sz cand) s Q.
Proof.
  intros (H1 & H2 & H3) HQ Hn. apply wp_get; [done| |done]. intros fb a asz Hfb Ha Hsz Hm. rewrite H3 in Ha.
  apply blk_map_lookup in Ha; [|done]. apply elem_of_Permutation in Ha as [l' Hl']. destruct (blk_map_del l l' _ H2 Hl') as [Hd Hm'].
  apply (HQ fb (Block a asz) l'); [done|done|]. split; [done|]. split; [done|]. by rewrite Hm, H3, Hm'.
Qed.

(** ** Statistics *)
Definition stat_of (l : list Block_t) : StatValues := Stat (Uint (zlen l)) (Uint (foldr (λ b z, FreeBlocks.BLK_SZ b + z) 0 l)).

#[global] Instance stat_of_proper : Proper ((≡ₚ) ==> (=)) stat_of.
Proof.
  intros l l' Hp. unfold stat_of. f_equal; [by rewrite Hp|]. f_equal.
  induction Hp as [|b l l' _ IH|b c l|]; cbn; [done|by rewrite IH|lia|congruence].
Qed.

Lemma Uint_add a b : Uint (Uint a + b) = Uint (a + b).
Proof. unfold Uint, wrap_u. by rewrite Zplus_mod_idemp_l. Qed.

Lemma Uint_sub a b : Uint (Uint a - b) = Uint (a - b).
Proof. unfold Uint, wrap_u. by rewrite Zminus_mod_idemp_l. Qed.

Lemma wp_stat_alloc s b l sz Q : blocks_curr s = stat_of l → sz = FreeBlocks.BLK_SZ b →
  (∀ mx, Q tt (set_blocks (stat_of (b :: l)) mx s)) → wp (STAT_MBC_BLK_ALLOC sz) s Q.
Proof.
  intros Hs -> HQ. apply wp_modify. rewrite Hs. cbn. rewrite !Uint_add.
  replace (stat_of (b :: l)) with (Stat (Uint (zlen l + 1)) (Uint (foldr (λ b z, FreeBlocks.BLK_SZ b + z) 0 l + FreeBlocks.BLK_SZ b))) in HQ; [apply HQ|].
  unfold stat_of. cbn [length foldr]. f_equal; f_equal; lia.
Qed.

Lemma wp_stat_free s b l sz Q : blocks_curr s = stat_of (b :: l) → sz = FreeBlocks.BLK_SZ b →
  Q tt (set_blocks (stat_of l) (blocks_max s) s) → wp (STAT_MBC_BLK_FREE sz) s Q.
Proof.
  intros Hs -> HQ. apply wp_modify. rewrite Hs. cbn. rewrite !Uint_sub.
  replace (stat_of l) with (Stat (Uint (Z.of_nat (Datatypes.S (length l)) - 1)) (Uint (FreeBlocks.BLK_SZ b + foldr (λ b z, FreeBlocks.BLK_SZ b + z) 0 l - FreeBlocks.BLK_SZ b))) in HQ; [apply HQ|].
  unfold stat_of. f_equal; f_equal; lia.
Qed.

(** ** The heap *)
Definition apart (c c' : carrier) : Prop := c_hi c ≤ c_lo c' ∨ c_hi c' ≤ c_lo c.
Definition heap_sel (free : bool) (L : list carrier) : list Block_t := L ≫= λ c, select free (c_blk c) (c_bs c).
Abbreviation heap_frees := (heap_sel true).
Abbreviation heap_allocs := (heap_sel false).

Definition heap_ok (s : Allctr S) (L : list carrier) : Prop :=
  Forall (carrier_ok (mem s)) L ∧ StronglySorted apart L ∧ fb_view (fbs s) (heap_frees L) ∧
  mbc_list s = c_lo <$> L ∧ blocks_curr s = stat_of (heap_allocs L).

(** The user's part of a block is the same in both memories. *)
Definition user_same (m m' : memory) (b : Block_t) : Prop :=
  ∀ x, blk_addr b + W ≤ x < blk_addr b + FreeBlocks.BLK_SZ b → m' !! x = m !! x.

(** ** Blocks in the middle of a carrier *)
Section Around.
Context (L1 L2 : list carrier) (k csz : Z) (pre post : blocks).

Definition at_mid (mid : blocks) : list carrier := L1 ++ Carrier k csz (pre ++ mid ++ post) :: L2.

(** All blocks but those in the middle, whose total size is [t]. *)
Definition around (free : bool) (t : Z) : list Block_t :=
  heap_sel free L1 ++ select free k pre ++ select free (k + total pre + t) post ++ heap_sel free L2.

Lemma heap_around free mid : heap_sel free (at_mid mid) ≡ₚ select free (k + total pre) mid ++ around free (total mid).
Proof.
  unfold at_mid, around, heap_sel. rewrite bind_app, bind_cons. cbn [c_blk c_bs]. rewrite !select_app, <- !app_assoc.
  rewrite (Permutation_app_swap_app (select free k pre) (select free (k + total pre) mid)). apply Permutation_app_swap_app.
Qed.
End Around.

Lemma select_range free bs : ∀ m a pf e b, seg m a pf bs e → b ∈ select free a bs →
  a ≤ blk_addr b ∧ blk_addr b + FreeBlocks.BLK_SZ b ≤ a + total bs ∧ wf_size (FreeBlocks.BLK_SZ b) ∧ (blk_addr b = a ∨ a + W ≤ blk_addr b).
Proof.
  induction bs as [|[sz f] bs IH]; intros m a pf e b Hs Hb; cbn in *; [by apply elem_of_nil in Hb|].
  destruct Hs as (Hsz & _ & _ & Hs). pose proof (seg_total _ _ _ _ _ Hs). pose proof (wf_size_pos _ Hsz). apply elem_of_app in Hb as [Hb|Hb].
  - destruct (eqb f free); [|by apply elem_of_nil in Hb]. apply list_elem_of_singleton in Hb as ->. cbn. split; [lia|]. split; [lia|]. auto.
  - destruct (IH _ _ _ _ _ Hs Hb) as (? & ? & ? & ?). pose proof W_cases. split; [lia|]. split; [lia|]. split; [done|]. lia.
Qed.

Lemma heap_sel_range free L m b : Forall (carrier_ok m) L → b ∈ heap_sel free L →
  ∃ c, c ∈ L ∧ c_lo c ≤ blk_addr b ∧ blk_addr b + FreeBlocks.BLK_SZ b ≤ c_hi c ∧ wf_size (FreeBlocks.BLK_SZ b).
Proof.
  intros Hok (c & Hb & Hc)%list_elem_of_bind. rewrite Forall_forall in Hok. destruct (Hok c Hc) as (? & ? & ? & _ & Hs & _).
  destruct (select_range _ _ _ _ _ _ _ Hs Hb) as (? & ? & ? & _). exists c. pose proof mbc_header_size_ok. pose proof W_cases. unfold c_lo in *. fold W in *.
  split; [done|]. split; [lia|]. split; [lia|done].
Qed.

Lemma around_user L1 L2 k csz pre mid post s free b : heap_ok s (at_mid L1 L2 k csz pre post mid) → b ∈ around L1 L2 k pre post free (total mid) →
  (blk_addr b + FreeBlocks.BLK_SZ b ≤ k + total pre ∨ k + total pre + total mid ≤ blk_addr b) ∧
  ∀ x, blk_addr b + W ≤ x < blk_addr b + FreeBlocks.BLK_SZ b → x < k + total pre ∨ k + total pre + total mid + hdr_of post ≤ x.
Proof.
  intros (Hok & Hap & _) Hb. unfold at_mid in *. apply Forall_app in Hok as [Hok1 [Hc Hok2]%Forall_cons].
  destruct (sorted_mid _ _ _ _ Hap) as [Ha1 Ha2]. destruct Hc as (? & ? & Hin & _ & Hs & _). unfold c_hi, c_lo in Hin. cbn [c_blk c_sz c_bs] in *.
  rewrite !total_app in *. apply seg_app in Hs as [Hpre Hs]. apply seg_app in Hs as [Hmid Hpost].
  pose proof (seg_total _ _ _ _ _ Hpre). pose proof (seg_total _ _ _ _ _ Hmid). pose proof (seg_total _ _ _ _ _ Hpost).
  pose proof mbc_header_size_ok as Hh. fold W in Hh. pose proof W_cases.
  assert (hdr_of post ≤ total post) as Hhp.
  { unfold hdr_of. destruct post as [|[sz f] post]; cbn in *; [lia|]. destruct Hpost as (?%wf_size_pos & _ & _ & Hpost).
    apply seg_total in Hpost. lia. }
  assert (∀ L, Forall (carrier_ok (mem s)) L → Forall (λ c, apart c (Carrier k csz (pre ++ mid ++ post)) ∨ apart (Carrier k csz (pre ++ mid ++ post)) c) L →
    b ∈ heap_sel free L → blk_addr b + FreeBlocks.BLK_SZ b ≤ k - mbc_header_size ∨ k - mbc_header_size + csz ≤ blk_addr b) as Hother.
  { intros L HL Hapart Hin'. destruct (heap_sel_range _ _ _ _ HL Hin') as (c & Hc & ? & ? & _). rewrite Forall_forall in Hapart.
    specialize (Hapart c Hc). unfold apart, c_hi, c_lo in *. cbn [c_blk c_sz] in *. lia. }
  assert (blk_addr b + FreeBlocks.BLK_SZ b ≤ k + total pre ∨
    (k + total pre + total mid ≤ blk_addr b ∧ (blk_addr b = k + total pre + total mid ∨ k + total pre + total mid + hdr_of post ≤ blk_addr b))) as Hcase.
  { unfold around in Hb. rewrite !elem_of_app in Hb. destruct Hb as [Hb|[Hb|[Hb|Hb]]].
    - specialize (Hother L1 Hok1 ltac:(eapply Forall_impl; [exact Ha1|]; auto) Hb). lia.
    - destruct (select_range _ _ _ _ _ _ _ Hpre Hb) as (? & ? & _). lia.
    - destruct (select_range _ _ _ _ _ _ _ Hpost Hb) as (? & ? & _ & ?). unfold hdr_of. destruct (is_nil post); lia.
    - specialize (Hother L2 Hok2 ltac:(eapply Forall_impl; [exact Ha2|]; auto) Hb). lia. }
  split; [lia|]. intros x Hx. unfold hdr_of in *. destruct (is_nil post); lia.
Qed.

Lemma around_data L1 L2 k csz pre mid post s m' free : heap_ok s (at_mid L1 L2 k csz pre post mid) →
  only (mem s) m' (k + total pre) (k + total pre + total mid + hdr_of post) → Forall (user_same (mem s) m') (around L1 L2 k pre post free (total mid)).
Proof.
  intros Hok Ho. apply Forall_forall. intros b Hb x Hx. apply Ho. destruct (around_user _ _ _ _ _ _ _ _ _ _ Hok Hb) as [_ H]. by apply H.
Qed.

(** No other block has an address in the middle. *)
Lemma around_addr L1 L2 k csz pre mid post s free a : heap_ok s (at_mid L1 L2 k csz pre post mid) →
  k + total pre ≤ a < k + total pre + total mid → Forall (λ b, blk_addr b ≠ a) (around L1 L2 k pre post free (total mid)).
Proof.
  intros Hok Ha. apply Forall_forall. intros b Hb. destruct (around_user _ _ _ _ _ _ _ _ _ _ Hok Hb) as [H _].
  assert (wf_size (FreeBlocks.BLK_SZ b)) as Hsz%wf_size_pos; [|lia].
  assert (b ∈ heap_sel free (at_mid L1 L2 k csz pre post mid)) as Hb' by (rewrite heap_around, elem_of_app; by right).
  destruct Hok as (Hok & _). by destruct (heap_sel_range _ _ _ _ Hok Hb') as (? & _ & _ & _ & ?).
Qed.

(** The heap after an exchange in the middle of a carrier. *)
Lemma heap_update L1 L2 k csz pre mid new post s s' :
  heap_ok s (at_mid L1 L2 k csz pre post mid) → carrier_ok (mem s') (Carrier k csz (pre ++ new ++ post)) → total new = total mid →
  only (mem s) (mem s') (k + total pre) (k + total pre + total mid + hdr_of post) →
  fb_view (fbs s') (select true (k + total pre) new ++ around L1 L2 k pre post true (total mid)) →
  mbc_list s' = mbc_list s → blocks_curr s' = stat_of (select false (k + total pre) new ++ around L1 L2 k pre post false (total mid)) →
  heap_ok s' (at_mid L1 L2 k csz pre post new).
Proof.
  intros Hok Hc Htot Ho Hfb Hl Hst. pose proof Hok as (Hoks & Hap & _ & Hml & _). unfold at_mid in *.
  apply Forall_app in Hoks as [Hok1 [Hcm Hok2]%Forall_cons]. destruct (sorted_mid _ _ _ _ Hap) as [Ha1 Ha2].
  assert (hdr_of post ≤ total post ∧ 0 ≤ total pre) as [Hhp Hpre0].
  { destruct Hcm as (_ & _ & _ & _ & Hs & _). cbn in Hs. apply seg_app in Hs as [Hs1 Hs]. apply seg_app in Hs as [_ Hs]. split; [|by eapply seg_total].
    unfold hdr_of. destruct post as [|[sz f] post]; cbn in *; [lia|]. destruct Hs as (?%wf_size_pos & _ & _ & Hs).
    apply seg_total in Hs. pose proof W_cases. lia. }
  destruct Hcm as (Hlo & Hhi & Hin & _). unfold c_hi, c_lo in *. cbn [c_blk c_sz c_bs] in *. rewrite !total_app in Hin.
  pose proof mbc_header_size_ok as Hh. fold W in Hh. pose proof W_cases.
  split; [|split; [|split; [|split]]].
  - apply Forall_app. split; [|apply Forall_cons; split; [done|]].
    + apply Forall_forall. intros c Hc'. rewrite Forall_forall in Hok1, Ha1. eapply carrier_ext; [done| |by apply Hok1].
      specialize (Ha1 c Hc'). unfold apart, c_hi, c_lo in *. cbn [c_blk c_sz] in *. lia.
    + apply Forall_forall. intros c Hc'. rewrite Forall_forall in Hok2, Ha2. eapply carrier_ext; [done| |by apply Hok2].
      specialize (Ha2 c Hc'). unfold apart, c_hi, c_lo in *. cbn [c_blk c_sz] in *. lia.
  - apply sorted_add; [by eapply sorted_del|exact Ha1|exact Ha2].
  - fold (at_mid L1 L2 k csz pre post new). by rewrite heap_around, Htot.
  - rewrite Hl, Hml, !fmap_app, !fmap_cons. done.
  - fold (at_mid L1 L2 k csz pre post new). by rewrite heap_around, Htot.
Qed.

End Heap.

Abbreviation heap_frees := (heap_sel true).
Abbreviation heap_allocs := (heap_sel false).
