(* ===== verification/AllocFree.v ===== *)
(** [mbc_free]: the block and its free neighbours become one free block, or the carrier is given back. *)

From Stdlib Require Import Lia ZArith Sorting.Sorted.
From stdpp Require Import base numbers list option gmap sorting.
From S2P Require Import Prelude FreeBlocks AllocMem AllocUtil AllocHdr AllocCarrier.
Open Scope Z_scope.

(** Loads behind a chain of [put_word]s at other places. *)
Ltac mem_load := repeat first
  [ rewrite load_put_word_ne by (fold W; lia)
  | rewrite load_put_word by (auto using is_size_hdr; fold LIMIT; lia) ].

Section Free.
Context {ac : AllocConfig} {S : Type} {ops : FreeBlockOps S} {laws : FreeBlockLaws S}.
Implicit Types (s : Allctr S) (L : list carrier) (pre post mid : blocks).

Lemma select_split free bs : ∀ a b, b ∈ select free a bs →
  ∃ pre post, bs = pre ++ (FreeBlocks.BLK_SZ b, free) :: post ∧ blk_addr b = a + total pre.
Proof.
  induction bs as [|[sz f] bs IH]; intros a b Hb; cbn in Hb; [by apply elem_of_nil in Hb|]. apply elem_of_app in Hb as [Hb|Hb].
  - destruct (eqb f free) eqn:E; [|by apply elem_of_nil in Hb]. apply eqb_prop in E as <-. apply list_elem_of_singleton in Hb as ->.
    exists [], bs. cbn. split; [done|lia].
  - destruct (IH _ _ Hb) as (pre & post & -> & Ha). exists ((sz, f) :: pre), post. cbn. split; [done|lia].
Qed.

Lemma heap_split free L b : b ∈ heap_sel free L →
  ∃ L1 L2 k csz pre post, L = at_mid L1 L2 k csz pre post [(FreeBlocks.BLK_SZ b, free)] ∧ blk_addr b = k + total pre.
Proof.
  intros (c & Hb & Hc)%list_elem_of_bind. apply list_elem_of_split in Hc as (L1 & L2 & ->). destruct c as [k csz bs]. cbn in Hb.
  destruct (select_split _ _ _ _ Hb) as (pre & post & -> & Ha). by exists L1, L2, k, csz, pre, post.
Qed.

Lemma perm_pre (l1 p r : list Block_t) b : l1 ++ (p ++ [b]) ++ r ≡ₚ b :: l1 ++ p ++ r.
Proof. rewrite <- (app_assoc p), app_assoc, (app_assoc l1 p). symmetry. apply Permutation_middle. Qed.

Lemma perm_post (l1 p r : list Block_t) b : l1 ++ p ++ b :: r ≡ₚ b :: l1 ++ p ++ r.
Proof. rewrite !app_assoc. symmetry. apply Permutation_middle. Qed.

(** ** Facts about a position in a carrier *)
Section Position.
Context (m : memory) (k csz : Z) (pre mid post : blocks) (Hc : carrier_ok m (Carrier k csz (pre ++ mid ++ post))).

Lemma pos_segs : seg m k true pre (is_nil (mid ++ post)) ∧ seg m (k + total pre) (last_free true pre) mid (is_nil post) ∧
  seg m (k + total pre + total mid) (last_free (last_free true pre) mid) post true.
Proof. destruct Hc as (_ & _ & _ & _ & Hs & _). cbn in Hs. apply seg_app in Hs as [H1 Hs]. apply seg_app in Hs as [H2 H3]. done. Qed.

Lemma pos_range : 0 ≤ total pre ∧ 0 ≤ total mid ∧ 0 ≤ total post ∧ 4 * W ≤ mbc_header_size ≤ k ∧ k + total pre + total mid + total post ≤ LIMIT.
Proof.
  destruct pos_segs as (H1 & H2 & H3). apply seg_total in H1, H2, H3. destruct Hc as (Hlo & Hhi & Hin & _).
  unfold c_hi, c_lo in *. cbn [c_blk c_sz c_bs] in *. rewrite !total_app in Hin. pose proof mbc_header_size_ok as Hh. fold W in Hh. lia.
Qed.

Lemma pos_mapped a n : k ≤ a → a + n ≤ k + total pre + total mid + total post → mapped m a n = true.
Proof.
  intros H1 H2. pose proof pos_range. destruct Hc as (Hlo & Hhi & Hin & _ & _ & _ & _ & _ & Hm). unfold c_hi, c_lo in *. cbn [c_blk c_sz c_bs] in *.
  rewrite !total_app in Hin. rewrite mapped_spec in Hm. apply mapped_spec. intros x Hx. apply Hm. pose proof W_cases. lia.
Qed.

Lemma pos_coalesced : coalesced (last_free false pre) (mid ++ post).
Proof. destruct Hc as (_ & _ & _ & _ & _ & H & _). cbn in H. by apply coalesced_app in H as [_ H]. Qed.

Lemma hdr_of_le : hdr_of post ≤ total post.
Proof.
  destruct pos_segs as (_ & _ & Hs). unfold hdr_of. destruct post as [|[sz f] post']; cbn in *; [lia|]. destruct Hs as (?%wf_size_pos & _ & _ & Hs).
  apply seg_total in Hs. pose proof W_cases. lia.
Qed.
End Position.

(** The footer of a free block that is not the last one. *)
Lemma free_footer m a pf pre psz e : seg m a pf (pre ++ [(psz, true)]) e → e = false →
  load_word UINT_SZ m (a + total pre + psz - W) = Some psz ∧ wf_size psz.
Proof. intros Hs ->. apply seg_app in Hs as [_ (Hsz & _ & Hf & _)]. split; [by apply Hf|done]. Qed.

Lemma is_size_0 : is_size 0.
Proof. destruct LIMIT_8 as (x & ? & ?). split; [by exists 0|lia]. Qed.

Lemma wp_first s k csz pre sz f rest Q : carrier_ok (mem s) (Carrier k csz (pre ++ (sz, f) :: rest)) →
  Q (is_nil pre) s → wp (IS_FIRST_BLK (k + total pre)) s Q.
Proof.
  intros Hc HQ. pose proof (pos_segs (mem s) k csz pre [(sz, f)] rest Hc) as (Hpre & (Hsz & Hb & _) & _).
  eapply wp_IS_FIRST_BLK; [exact Hb|apply Hsz| | |exact HQ].
  - destruct pre as [|b pre _] using rev_ind.
    + intros _. exists 0. destruct Hc as (_ & _ & _ & _ & _ & _ & H0 & _). cbn in *. rewrite Z.add_0_r. split; [done|]. split; [apply is_size_0|done].
    + rewrite last_free_app. destruct b as [psz pf]. cbn [last_free]. intros ->. exists psz.
      destruct (free_footer _ _ _ _ _ _ Hpre eq_refl) as [Hl Hp]. rewrite total_app. cbn [total]. rewrite Z.add_0_r, Z.add_assoc. split; [done|].
      split; [apply Hp|]. apply wf_size_pos in Hp. rewrite is_nil_app, andb_false_r. lia.
  - destruct pre as [|b pre _] using rev_ind; [done|]. intros _. by rewrite is_nil_app, andb_false_r.
Qed.

(** ** The block before *)
Definition prev_post (s s1 : Allctr S) L1 L2 k pre post (sz : Z) (r : Z * Z * bool) (s2 : Allctr S) : Prop :=
  ∃ pre1 mid1 l1 m2 fb2, s2 = set_fbs fb2 (set_mem m2 s1) ∧ pre ++ [(sz, false)] = pre1 ++ mid1 ∧ mid1 ≠ [] ∧
    r = (k + total pre1, total mid1, is_nil pre1) ∧
    select false (k + total pre1) mid1 = [Block (k + total pre) sz] ∧ last_free false pre1 = false ∧
    bh m2 (k + total pre1) (total mid1) true (last_free true pre1) l1 ∧ wf_size (total mid1) ∧
    only (mem s) m2 (k + total pre1) (k + total pre1 + W) ∧ fb_view fb2 (around L1 L2 k pre1 post true (total mid1)).

Lemma coalesce_prev_spec s s1 L1 L2 k csz pre post sz : heap_ok s (at_mid L1 L2 k csz pre post [(sz, false)]) →
  mem s1 = mem s → fbs s1 = fbs s → wp (coalesce_prev (k + total pre) sz (is_nil pre)) s1 (prev_post s s1 L1 L2 k pre post sz).
Proof.
  intros Hok Em Ef. pose proof Hok as (Hoks & _ & Hfb & _). unfold at_mid in Hoks. apply Forall_app in Hoks as [_ [Hc _]%Forall_cons].
  pose proof (pos_segs _ _ _ _ _ _ Hc) as (Hpre & (Hsz & Hb & _) & _). cbn [total] in *. rewrite <- Em in Hb. pose proof (wf_size_pos _ Hsz).
  pose proof (pos_range _ _ _ _ _ _ Hc) as (? & _ & ? & ? & ?). cbn [total] in *. pose proof W_cases. unfold coalesce_prev. rewrite heap_around in Hfb. cbn in Hfb.
  eapply wp_bind, wp_IS_PREV_BLK_FREE; [exact Hb|apply Hsz|].
  assert ((∃ pre0 psz, pre = pre0 ++ [(psz, true)]) ∨ (negb (is_nil pre) && last_free true pre = false ∧ last_free false pre = false)) as Hcase.
  { destruct pre as [|b pre0 _] using rev_ind; [by right|]. destruct b as [psz [|]]; [left; eauto|]. rewrite !last_free_app. cbn.
    rewrite andb_false_r. by right. }
  destruct Hcase as [(pre0 & psz & ->)|[-> Hlf]].
  - rewrite is_nil_app, andb_false_r, last_free_app. cbn [negb andb last_free]. destruct (free_footer _ _ _ _ _ _ Hpre eq_refl) as [Hft Hpsz].
    rewrite <- Em in Hft. pose proof (wf_size_pos _ Hpsz). rewrite total_app in *. cbn [total] in *. rewrite Z.add_0_r in *.
    apply seg_app in Hpre as [Hpre0 (_ & Hpb & _)]. rewrite <- Em in Hpb. pose proof (seg_total _ _ _ _ _ Hpre0).
    eapply wp_bind, wp_PREV_BLK; [by rewrite Z.add_assoc|apply Hpsz|]. replace (k + (total pre0 + psz) - psz) with (k + total pre0) by lia.
    apply wp_bind. eapply wp_unlink_view with (sz := psz).
    { rewrite Ef. eapply fb_view_perm; [|exact Hfb]. unfold around. rewrite select_app. cbn [select eqb]. apply perm_pre. }
    intros fb Hfb'. eapply wp_bind, wp_BLK_SZ; [exact Hpb|apply Hpsz|]. cbv zeta. rewrite Uint_word by lia. apply wp_bind.
    eapply (wp_first _ k csz pre0 psz true ((sz, false) :: post)); [cbn; rewrite Em; by rewrite <- app_assoc in Hc|].
    assert (is_size (sz + psz)) as Hnew by (apply is_size_add; [apply Hsz|apply Hpsz|lia]).
    apply wp_bind. eapply wp_SET_BLK_SZ; [exact Hpb|apply Hpsz|done|]. apply wp_ret.
    eexists pre0, [(psz, true); (sz, false)], _, _, fb. cbn [total]. replace (psz + (sz + 0)) with (sz + psz) by lia.
    split; [by destruct s1|]. split; [by rewrite <- app_assoc|]. split; [done|]. split; [done|]. split; [cbn [select eqb app]; rewrite total_app; cbn [total]; by rewrite Z.add_0_r, Z.add_assoc|].
    split. { destruct Hc as (_ & _ & _ & _ & _ & Hco & _). cbn in Hco. rewrite <- !app_assoc in Hco. apply coalesced_app in Hco as [_ [Hco _]]. by rewrite andb_true_r in Hco. }
    split; [unfold bh; apply load_put_word; fold LIMIT; by apply is_size_hdr|]. split; [split; [done|destruct Hsz; lia]|].
    split; [rewrite <- Em; apply only_put; [apply only_refl|lia..]|].
    unfold around. replace (k + total pre0 + (sz + psz)) with (k + total (pre0 ++ [(psz, true)]) + sz); [done|].
    rewrite total_app. cbn [total]. lia.
  - apply wp_bind. eapply wp_SET_BLK_FREE; [exact Hb|apply Hsz|]. apply wp_ret. 
    eexists pre, [(sz, false)], _, (put_word UINT_SZ (mem s1) (k + total pre) (hdr sz true _ _)), (fbs s1). cbn [total]. rewrite Z.add_0_r.
    split; [by destruct s1|]. split; [done|]. split; [done|]. split; [done|]. split; [done|]. split; [done|].
    split; [unfold bh; apply load_put_word; fold LIMIT; apply is_size_hdr, Hsz|]. split; [done|].
    split; [rewrite <- Em; apply only_put; [apply only_refl|lia..]|]. rewrite Ef. unfold around in *. by rewrite Z.add_0_r in Hfb.
Qed.

(** ** The block behind *)
Definition next_post (s s2 : Allctr S) L1 L2 k pre mid post (e : bool) (s3 : Allctr S) : Prop :=
  ∃ ext post2 m3 fb3, s3 = set_fbs fb3 (set_mem m3 s2) ∧ post = ext ++ post2 ∧ select false (k + total pre + total mid) ext = [] ∧ e = is_nil post2 ∧
    seg m3 (k + total pre) (last_free true pre) [(total mid + total ext, true)] e ∧
    match post2 with [] => True | (sz, f) :: post' => bh m3 (k + total pre + (total mid + total ext)) sz f true (is_nil post') end ∧
    only (mem s) m3 (k + total pre) (k + total pre + (total mid + total ext) + hdr_of post2) ∧
    fb_view fb3 (around L1 L2 k pre post2 true (total mid + total ext)) ∧ coalesced true post2.

Section Next.
Context (s s2 : Allctr S) (L1 L2 : list carrier) (k csz : Z) (pre mid post : blocks) (l1 : bool).
Context (Hc : carrier_ok (mem s) (Carrier k csz (pre ++ mid ++ post))) (Hne : mid ≠ []).
Context (Hb : bh (mem s2) (k + total pre) (total mid) true (last_free true pre) l1) (Hsz : wf_size (total mid)).
Context (Ho : only (mem s) (mem s2) (k + total pre) (k + total pre + W)).
Context (Hfb : fb_view (fbs s2) (around L1 L2 k pre post true (total mid))).

Lemma coalesce_next_last : post = [] → wp (coalesce_next (k + total pre) (total mid) true) s2 (next_post s s2 L1 L2 k pre mid post).
Proof using All.
  intros ->. unfold coalesce_next. apply wp_bind. eapply wp_SET_LAST_BLK; [exact Hb|apply Hsz|]. apply wp_ret.
  pose proof (wf_size_pos _ Hsz). pose proof W_cases.
  exists [], [], (put_word UINT_SZ (mem s2) (k + total pre) (hdr (total mid) true (last_free true pre) true)), (fbs s2). cbn [total app]. rewrite Z.add_0_r.
  split; [by destruct s2|]. split; [done|]. split; [done|]. split; [done|]. split; [|split; [done|split; [|split; [done|done]]]].
  - cbn. split; [done|]. split; [|done]. unfold bh. apply load_put_word. fold LIMIT. apply is_size_hdr, Hsz.
  - unfold hdr_of; cbn [is_nil]. apply only_put; [eapply only_mono; [exact Ho|lia|lia]|lia|lia].
Qed.

(** The header of the next block is as it was. *)
Lemma next_header nsz f post' : post = (nsz, f) :: post' →
  wf_size nsz ∧ bh (mem s2) (k + total pre + total mid) nsz f (last_free false mid) (is_nil post').
Proof using All.
  intros E. destruct (pos_segs _ _ _ _ _ _ Hc) as (_ & _ & Hs). rewrite E in Hs. destruct Hs as (Hn & Hbn & _). split; [done|].
  unfold bh in *. rewrite (only_load _ _ _ _ _ Ho); [|pose proof (wf_size_pos _ Hsz); lia]. destruct mid as [|b mid']; [done|]. by rewrite (last_free_cons _ false) in Hbn.
Qed.

Lemma coalesce_next_free nsz post' : post = (nsz, true) :: post' →
  wp (coalesce_next (k + total pre) (total mid) false) s2 (next_post s s2 L1 L2 k pre mid post).
Proof using All.
  intros E. destruct (next_header _ _ _ E) as [Hnsz Hbn]. pose proof (wf_size_pos _ Hsz). pose proof (wf_size_pos _ Hnsz). pose proof W_cases.
  pose proof (pos_range _ _ _ _ _ _ Hc) as (? & _ & Hpost0 & ? & ?). rewrite E in *. cbn [total] in *.
  destruct (pos_segs _ _ _ _ _ _ Hc) as (_ & _ & (_ & _ & _ & Hs')). pose proof (seg_total _ _ _ _ _ Hs').
  assert (coalesced true post') as Hco by by (pose proof (pos_coalesced _ _ _ _ _ _ Hc) as [_ [_ ?]]%coalesced_app).
  assert (is_size (total mid + nsz)) as Hnew by (apply is_size_add; [apply Hsz|apply Hnsz|lia]).
  unfold coalesce_next. eapply wp_bind, wp_NXT_BLK; [exact Hb|apply Hsz|]. eapply wp_bind, wp_IS_FREE_BLK; [exact Hbn|apply Hnsz|].
  apply wp_bind. eapply wp_unlink_view with (sz := nsz); [eapply fb_view_perm; [|exact Hfb]; unfold around; cbn [select eqb app]; apply perm_post|].
  intros fb Hfb'. eapply wp_bind, wp_BLK_SZ; [exact Hbn|apply Hnsz|]. cbv zeta. rewrite Uint_word by lia.
  apply wp_bind. eapply wp_SET_BLK_SZ; [exact Hb|apply Hsz|done|].
  set (m3 := put_word UINT_SZ (mem s2) (k + total pre) (hdr (total mid + nsz) true (last_free true pre) l1)).
  apply wp_bind. eapply (wp_IS_LAST_BLK _ _ nsz); [unfold bh, m3; cbn; rewrite load_put_word_ne by (fold W; lia); exact Hbn|apply Hnsz|].
  assert (bh m3 (k + total pre) (total mid + nsz) true (last_free true pre) l1) as Hb3 by (unfold bh, m3; apply load_put_word; fold LIMIT; by apply is_size_hdr).
  assert (only (mem s) m3 (k + total pre) (k + total pre + W)) as Ho3 by (apply only_put; [done|lia..]).
  assert (fb_view fb (around L1 L2 k pre post' true (total mid + nsz))) as Hfb3.
  { unfold around. by replace (k + total pre + (total mid + nsz)) with (k + total pre + total mid + nsz) by lia. }
  destruct post' as [|[sz0 f0] post'']; cbn [is_nil].
  - apply wp_bind. eapply wp_SET_LAST_BLK; [exact Hb3|done|]. apply wp_ret.
    exists [(nsz, true)], [], (put_word UINT_SZ m3 (k + total pre) (hdr (total mid + nsz) true (last_free true pre) true)), fb. cbn [total app]. rewrite Z.add_0_r.
    split; [by destruct s2|]. split; [done|]. split; [done|]. split; [done|]. split; [|split; [done|split; [|done]]].
    + cbn. split; [split; [done|destruct Hsz; lia]|]. split; [|done]. unfold bh. apply load_put_word. fold LIMIT. by apply is_size_hdr.
    + unfold hdr_of; cbn [is_nil]. apply only_put; [eapply only_mono; [exact Ho3|lia|lia]|lia|lia].
  - apply wp_bind, wp_bind. eapply wp_SET_NOT_LAST_BLK; [exact Hb3|done|]. apply wp_SET_BLK_SZ_FTR.
    { cbn. apply mapped_put. unfold m3. apply mapped_put. eapply only_mapped; [exact Ho|].
      eapply (pos_mapped _ _ _ _ _ _ Hc); cbn [total] in *; lia. }
    apply wp_ret. set (m4 := put_word UINT_SZ m3 (k + total pre) (hdr (total mid + nsz) true (last_free true pre) false)).
    exists [(nsz, true)], ((sz0, f0) :: post''), (put_word UINT_SZ m4 (k + total pre + (total mid + nsz) - W) (total mid + nsz)), fb. cbn [total app]. rewrite Z.add_0_r.
    split; [by destruct s2|]. split; [done|]. split; [done|]. split; [done|]. destruct Hs' as (_ & Hb0 & _ & Hs''). split; [|split; [|split; [|done]]].
    + cbn. split; [split; [done|destruct Hsz; lia]|]. split; [|split; [|done]].
      * unfold bh, m4. rewrite load_put_word_ne by (fold W; lia). apply load_put_word. fold LIMIT. by apply is_size_hdr.
      * intros _ _. apply load_put_word. fold LIMIT. destruct Hnew; lia.
    + unfold bh, m4, m3 in *. rewrite !load_put_word_ne by (fold W; lia). rewrite (only_load _ _ _ _ _ Ho) by lia.
      replace (k + total pre + (total mid + nsz)) with (k + total pre + total mid + nsz) by lia. exact Hb0.
    + unfold hdr_of; cbn [is_nil]. apply only_put; [apply only_put; [eapply only_mono; [exact Ho3|lia|lia]|lia|lia]|lia|lia].
Qed.

Lemma coalesce_next_alloced nsz post' : post = (nsz, false) :: post' →
  wp (coalesce_next (k + total pre) (total mid) false) s2 (next_post s s2 L1 L2 k pre mid post).
Proof using All.
  intros E. destruct (next_header _ _ _ E) as [Hnsz Hbn]. pose proof (wf_size_pos _ Hsz). pose proof (wf_size_pos _ Hnsz). pose proof W_cases.
  pose proof (pos_range _ _ _ _ _ _ Hc) as (? & _ & Hpost0 & ? & ?). rewrite E in *. cbn [total] in *.
  destruct (pos_segs _ _ _ _ _ _ Hc) as (_ & _ & (_ & _ & _ & Hs')). pose proof (seg_total _ _ _ _ _ Hs').
  assert (coalesced true ((nsz, false) :: post')) as Hco.
  { pose proof (pos_coalesced _ _ _ _ _ _ Hc) as [_ [_ ?]]%coalesced_app. done. }
  unfold coalesce_next. eapply wp_bind, wp_NXT_BLK; [exact Hb|apply Hsz|]. eapply wp_bind, wp_IS_FREE_BLK; [exact Hbn|apply Hnsz|].
  apply wp_bind. eapply wp_SET_PREV_BLK_FREE; [exact Hbn|apply Hnsz|].
  set (m3 := put_word UINT_SZ (mem s2) (k + total pre + total mid) (hdr nsz false true (is_nil post'))).
  apply wp_bind. eapply (wp_SET_NOT_LAST_BLK _ _ (total mid)); [unfold bh, m3; cbn; rewrite load_put_word_ne by (fold W; lia); exact Hb|apply Hsz|].
  apply wp_bind, wp_SET_BLK_SZ_FTR.
  { cbn. apply mapped_put. unfold m3. apply mapped_put. eapply only_mapped; [exact Ho|]. eapply (pos_mapped _ _ _ _ _ _ Hc); cbn [total]; lia. }
  apply wp_ret. cbn. fold m3. set (m4 := put_word UINT_SZ m3 (k + total pre) (hdr (total mid) true (last_free true pre) false)).
  exists [], ((nsz, false) :: post'), (put_word UINT_SZ m4 (k + total pre + total mid - W) (total mid)), (fbs s2). cbn [total app]. rewrite Z.add_0_r.
  split; [by destruct s2|]. split; [done|]. split; [done|]. split; [done|]. split; [|split; [|split; [|done]]].
  - cbn. split; [done|]. split; [|split; [|done]].
    + unfold bh, m4. rewrite load_put_word_ne by (fold W; lia). apply load_put_word. fold LIMIT. apply is_size_hdr, Hsz.
    + intros _ _. apply load_put_word. fold LIMIT. lia.
  - unfold bh, m4, m3 in *. rewrite !(load_put_word_ne _ _ _ (k + total pre + total mid)) by (fold W; lia). apply load_put_word. fold LIMIT. apply is_size_hdr, Hnsz.
  - unfold hdr_of; cbn [is_nil]. unfold m4, m3. repeat apply only_put; try lia. eapply only_mono; [exact Ho|lia|lia].
Qed.

Lemma coalesce_next_spec : wp (coalesce_next (k + total pre) (total mid) (is_nil post)) s2 (next_post s s2 L1 L2 k pre mid post).
Proof using All.
  pose proof coalesce_next_last as H1. pose proof coalesce_next_free as H2. pose proof coalesce_next_alloced as H3. clear Hc Hfb.
  destruct post as [|[nsz [|]] post']; [by apply H1|by eapply H2|by eapply H3].
Qed.
End Next.

(** ** The whole function *)

(** An address that belongs to no carrier. *)
Definition outside (L : list carrier) (x : Z) : Prop := Forall (λ c, x < c_lo c ∨ c_hi c ≤ x) L.

(** Where the block [b] goes: [mid] is the block with the free blocks beside it, in a carrier with [pre] in front and [post] behind.  It becomes one free
    block, and no other block changes; when it is all of a carrier, and not the main carrier, the memory of the carrier is given back. *)
Definition freed_into (s : Allctr S) (L : list carrier) (b : Block_t) (s' : Allctr S) (L' : list carrier) : Prop :=
  ∃ L1 L2 k csz pre mid post, L = at_mid L1 L2 k csz pre post mid ∧ select false (k + total pre) mid = [b] ∧
    if is_nil pre && is_nil post && bool_decide (main_carrier s ≠ Some (k - mbc_header_size))
    then L' = L1 ++ L2 ∧ ∀ x, c_lo (Carrier k csz mid) ≤ x < c_hi (Carrier k csz mid) → mem s' !! x = None
    else L' = at_mid L1 L2 k csz pre post [(total mid, true)].

(** What a freed block leaves. *)
Definition free_post (s : Allctr S) (L : list carrier) (b : Block_t) (s' : Allctr S) : Prop :=
  ∃ L', heap_ok s' L' ∧ heap_allocs L ≡ₚ b :: heap_allocs L' ∧ Forall (user_same (mem s) (mem s')) (heap_allocs L') ∧
    (∀ x, outside L x → mem s' !! x = mem s !! x ∧ outside L' x) ∧ main_carrier s' = main_carrier s ∧ sbc_list s' = sbc_list s ∧
    freed_into s L b s' L'.

Lemma outside_only m m' L1 L2 k csz pre post mid x : carrier_ok m (Carrier k csz (pre ++ mid ++ post)) →
  only m m' (k + total pre) (k + total pre + total mid + hdr_of post) →
  outside (at_mid L1 L2 k csz pre post mid) x → m' !! x = m !! x.
Proof.
  intros Hc Ho Hx. unfold outside, at_mid in Hx. apply Forall_app in Hx as [_ [Hx _]%Forall_cons]. apply Ho.
  pose proof (hdr_of_le _ _ _ _ _ _ Hc). pose proof (pos_range _ _ _ _ _ _ Hc). destruct Hc as (_ & _ & Hin & _). unfold c_hi, c_lo in *. cbn [c_blk c_sz c_bs] in *.
  rewrite !total_app in Hin. pose proof W_cases. lia.
Qed.

Lemma at_mid_ok s L1 L2 k csz pre post mid : heap_ok s (at_mid L1 L2 k csz pre post mid) → carrier_ok (mem s) (Carrier k csz (pre ++ mid ++ post)).
Proof. intros (H & _). unfold at_mid in H. by apply Forall_app in H as [_ [? _]%Forall_cons]. Qed.

(** The other carriers when one goes. *)
Lemma unmap_other s L1 c L2 m : Forall (carrier_ok (mem s)) (L1 ++ c :: L2) → StronglySorted apart (L1 ++ c :: L2) →
  (∀ x, x < c_lo c ∨ c_hi c ≤ x → m !! x = mem s !! x) → Forall (carrier_ok m) (L1 ++ L2) ∧ Forall (λ c', c_lo c' ≠ c_lo c) (L1 ++ L2).
Proof.
  intros Hok Hap Hm. destruct (sorted_mid _ _ _ _ Hap) as [Ha1 Ha2]. apply Forall_app in Hok as [Hok1 [Hc Hok2]%Forall_cons].
  pose proof (carrier_blk _ _ Hc). pose proof W_cases.
  assert (∀ c', carrier_ok (mem s) c' → apart c' c ∨ apart c c' → carrier_ok m c' ∧ c_lo c' ≠ c_lo c) as H'.
  { intros c' Hc' Hap'. pose proof (carrier_blk _ _ Hc'). unfold apart in Hap'. split; [|lia]. eapply carrier_agree; [|done]. intros x Hx. apply Hm. lia. }
  rewrite Forall_forall in Hok1, Hok2, Ha1, Ha2.
  split; apply Forall_forall; intros c' [Hc'|Hc']%elem_of_app; apply H'; auto.
Qed.

Lemma filter_keep (l : list carrier) z : Forall (λ c', c_lo c' ≠ z) l → filter (λ x, x ≠ z) (c_lo <$> l) = c_lo <$> l.
Proof. induction 1 as [|c' l Hc _ IH]; [done|]. by rewrite fmap_cons, filter_cons_True, IH. Qed.

Lemma destroy_spec s s3 L1 L2 k csz mid b : heap_ok s (at_mid L1 L2 k csz [] [] mid) → only (mem s) (mem s3) k (k + total mid) →
  mbc_list s3 = mbc_list s → main_carrier s3 = main_carrier s → sbc_list s3 = sbc_list s → select false k mid = [b] → main_carrier s ≠ Some (k - mbc_header_size) →
  fb_view (fbs s3) (around L1 L2 k [] [] true (total mid)) → blocks_curr s3 = stat_of (around L1 L2 k [] [] false (total mid)) →
  wp (destroy_mbc k) s3 (λ _, free_post s (at_mid L1 L2 k csz [] [] mid) b).
Proof.
  intros Hok Ho El Em Es Hsel Hmain Hfb Hst. pose proof (at_mid_ok _ _ _ _ _ _ _ _ Hok) as Hc. set (c := Carrier k csz ([] ++ mid ++ [])) in *.
  pose proof Hc as (_ & _ & Hin & _ & _ & _ & _ & (chdr & Hch & Hcsz) & _). pose proof (carrier_blk _ _ Hc) as Hblk. pose proof W_cases. change (c_blk c) with k in *.
  assert (total (c_bs c) = total mid) as Et by (cbn; rewrite app_nil_r; done). unfold destroy_mbc. cbv zeta. change (k - mbc_header_size) with (c_lo c).
  eapply wp_bind, wp_rd; [rewrite (only_load _ _ _ _ _ Ho); [exact Hch|lia]|]. rewrite Hcsz. apply wp_bind, wp_modify, wp_modify.
  set (s' := set_mem _ _). pose proof Hok as (Hoks & Hap & _ & Hml & _). unfold at_mid in Hoks, Hap. fold c in Hoks, Hap.
  assert (∀ x, x < c_lo c ∨ c_hi c ≤ x → mem s' !! x = mem s !! x) as Hm.
  { intros x Hx. unfold c_hi in *. change (mem s') with (filter (λ p, ¬ (c_lo c ≤ p.1 < c_lo c + c_sz c)) (mem s3)). rewrite map_lookup_filter. destruct Ho as [Ho _].
    destruct (mem s3 !! x) as [v|] eqn:E; cbn [mbind option_bind fst]; [rewrite option_guard_True by lia; cbn [mbind option_bind]|]; rewrite <- E; apply Ho; lia. }
  destruct (unmap_other s L1 c L2 (mem s') Hoks Hap Hm) as [Hoks' Hlo].
  assert (∀ free, around L1 L2 k [] [] free (total mid) = heap_sel free (L1 ++ L2)) as Ear by (intros free; unfold around, heap_sel; by rewrite bind_app).
  rewrite !Ear in *. exists (L1 ++ L2). split; [|split; [|split; [|split; [|split; [done|split; [done|]]]]]].
  - split; [done|]. split; [by eapply sorted_del|]. split; [done|]. split; [|done].
    cbn. rewrite El, Hml. unfold at_mid. rewrite !fmap_app, fmap_cons, filter_app, filter_cons_False by (unfold c_lo; cbn; lia).
    apply Forall_app in Hlo as [Hlo1 Hlo2]. by rewrite !filter_keep.
  - rewrite heap_around. cbn [total]. rewrite Z.add_0_r, Hsel, Ear. done.
  - apply Forall_forall. intros b' Hb' x Hx. apply Hm. destruct (heap_sel_range _ _ _ _ Hoks' Hb') as (c' & Hc' & ? & ? & _).
    destruct (sorted_mid _ _ _ _ Hap) as [Ha1 Ha2]. rewrite Forall_forall in Ha1, Ha2.
    assert (apart c' c ∨ apart c c') as Hapart by (apply elem_of_app in Hc' as [Hc'|Hc']; auto). unfold apart in Hapart. lia.
  - intros x Hx. unfold outside, at_mid in Hx. fold c in Hx. apply Forall_app in Hx as [Hx1 [Hxc Hx2]%Forall_cons].
    split; [by apply Hm|]. by apply Forall_app.
  - exists L1, L2, k, csz, [], mid, []. split; [done|]. cbn [total is_nil andb]. rewrite Z.add_0_r. split; [done|]. rewrite bool_decide_true by done. split; [done|].
    intros x Hx. change (mem s') with (filter (λ p, ¬ (c_lo c ≤ p.1 < c_lo c + c_sz c)) (mem s3)). rewrite map_lookup_filter.
    destruct (mem s3 !! x); [|done]. cbn [mbind option_bind fst]. rewrite option_guard_False; [done|]. intros Hn. apply Hn. exact Hx.
Qed.

(** The free block is linked. *)
Lemma free_link_spec s s3 L1 L2 k csz pre mid post b e : heap_ok s (at_mid L1 L2 k csz pre post mid) → mid ≠ [] →
  select false (k + total pre) mid = [b] → last_free false pre = false → e = is_nil post →
  seg (mem s3) (k + total pre) (last_free true pre) [(total mid, true)] e →
  match post with [] => True | (sz, f) :: post' => bh (mem s3) (k + total pre + total mid) sz f true (is_nil post') end →
  only (mem s) (mem s3) (k + total pre) (k + total pre + total mid + hdr_of post) → coalesced true post →
  mbc_list s3 = mbc_list s → main_carrier s3 = main_carrier s → sbc_list s3 = sbc_list s →
  is_nil pre && is_nil post && bool_decide (main_carrier s ≠ Some (k - mbc_header_size)) = false →
  fb_view (fbs s3) (around L1 L2 k pre post true (total mid)) → blocks_curr s3 = stat_of (around L1 L2 k pre post false (total mid)) →
  wp (call_link_free_block (k + total pre)) s3 (λ _, free_post s (at_mid L1 L2 k csz pre post mid) b).
Proof.
  intros Hok Hne Hsel Hlf -> Hseg Hpost Ho Hco El Em Es Hend Hfb Hst. pose proof (at_mid_ok _ _ _ _ _ _ _ _ Hok) as Hc.
  pose proof Hseg as (Hsz & Hb & _). pose proof (wf_size_pos _ Hsz). eapply wp_link_view; [exact Hb|apply Hsz|exact Hfb|eapply around_addr; [done|lia]|].
  intros fb Hfb'. exists (at_mid L1 L2 k csz pre post [(total mid, true)]). split; [|split; [|split; [|split; [|split; [done|split; [done|]]]]]].
  - eapply (heap_update L1 L2 k csz pre mid [(total mid, true)] post s); [done| |cbn; lia|done|exact Hfb'|done|done].
    eapply carrier_update; [exact Hc|done|done|cbn; lia|done|exact Hseg|done|]. cbn. rewrite Hlf. done.
  - rewrite !heap_around, Hsel. cbn [select eqb app total]. by rewrite Z.add_0_r.
  - rewrite heap_around. cbn [select eqb app total]. rewrite Z.add_0_r. by eapply around_data.
  - intros x Hx. split; [by eapply outside_only|]. unfold outside, at_mid in *. rewrite Forall_app, Forall_cons in Hx |- *. exact Hx.
  - exists L1, L2, k, csz, pre, mid, post. split; [done|]. split; [done|]. by rewrite Hend.
Qed.

Lemma mbc_free_spec s L p sz : heap_ok s L → Block (p - W) sz ∈ heap_allocs L → wp (mbc_free p) s (λ _, free_post s L (Block (p - W) sz)).
Proof.
  intros Hok Hb. destruct (heap_split _ _ _ Hb) as (L1 & L2 & k & csz & pre & post & -> & Ha). cbn [blk_addr FreeBlocks.BLK_SZ] in *.
  pose proof (at_mid_ok _ _ _ _ _ _ _ _ Hok) as Hc. destruct (pos_segs _ _ _ _ _ _ Hc) as (_ & (Hsz & Hbh & _) & _). cbn [is_nil] in Hbh; rewrite andb_true_r in Hbh.
  pose proof Hok as (_ & _ & _ & Hml & Hst). rewrite heap_around in Hst. cbn [select eqb app] in Hst.
  unfold mbc_free, UMEM2BLK, ABLK_HDR_SZ. rewrite Ha. cbv zeta. eapply wp_bind, wp_BLK_SZ; [exact Hbh|apply Hsz|].
  apply wp_bind. eapply wp_stat_free; [exact Hst|done|]. set (s1 := set_blocks _ _ _).
  apply wp_bind. apply (wp_first s1 k csz pre sz false post); [done|]. eapply wp_bind, wp_IS_LAST_BLK; [exact Hbh|apply Hsz|].
  apply wp_bind. eapply wp_mono; [by apply (coalesce_prev_spec s s1 L1 L2 k csz pre post sz)|].
  intros [[b bsz] first] s2 (pre1 & mid1 & l1 & m2 & fb2 & -> & Epre & Hne & [= -> -> ->] & Hsel & Hlf & Hb2 & Hsz2 & Ho2 & Hfb2).
  assert (pre ++ [(sz, false)] ++ post = pre1 ++ mid1 ++ post) as Eall by (by rewrite !app_assoc, Epre).
  assert (at_mid L1 L2 k csz pre post [(sz, false)] = at_mid L1 L2 k csz pre1 post mid1) as EL by (unfold at_mid; by rewrite Eall).
  rewrite EL in *. rewrite Eall in Hc.
  apply wp_bind. eapply wp_mono; [by eapply (coalesce_next_spec s _ L1 L2 k csz pre1 mid1 post)|].
  intros e s3 (ext & post2 & m3 & fb3 & -> & -> & Hext & -> & Hseg & Hpost & Ho3 & Hfb3 & Hco). apply wp_bind, wp_gets.
  assert (at_mid L1 L2 k csz pre1 (ext ++ post2) mid1 = at_mid L1 L2 k csz pre1 post2 (mid1 ++ ext)) as EL2 by (unfold at_mid; by rewrite !app_assoc).
  rewrite EL2 in *. rewrite <- total_app in Hseg, Hpost, Ho3, Hfb3.
  assert (select false (k + total pre1) (mid1 ++ ext) = [Block (k + total pre) sz]) as Hsel' by (by rewrite select_app, Hsel, Hext).
  assert (blocks_curr s1 = stat_of (around L1 L2 k pre1 post2 false (total (mid1 ++ ext)))) as Est.
  { apply stat_of_proper, (Permutation_cons_inv (a := Block (k + total pre) sz)).
    transitivity (heap_sel false (at_mid L1 L2 k csz pre1 post2 (mid1 ++ ext))); [|by rewrite heap_around, Hsel'].
    by rewrite <- EL, heap_around. }
  assert (mid1 ++ ext ≠ []) by (by destruct mid1).
  destruct (is_nil pre1 && is_nil post2 && bool_decide _) eqn:Ed.
  - destruct pre1; [|done]. destruct post2; [|done]. cbn [total] in *. rewrite Z.add_0_r in Hsel', Ho3 |- *. unfold hdr_of in Ho3. cbn [is_nil] in Ho3. rewrite Z.add_0_r in Ho3.
    eapply (destroy_spec s); [exact Hok|exact Ho3|done|done|done|exact Hsel'| |exact Hfb3|exact Est]. cbn [is_nil andb] in Ed. apply bool_decide_eq_true in Ed. revert Ed. cbn. by rewrite Z.add_0_r.
  - eapply free_link_spec; try done. destruct pre1; [|done]. cbn [total] in Ed. by rewrite Z.add_0_r in Ed.
Qed.

End Free.
