(* ===== verification/AllocAlloc.v ===== *)
(** [mbc_alloc]: a free block is found or a carrier created for it, and what is not needed of it is given back. *)

From Stdlib Require Import Lia ZArith Sorting.Sorted.
From stdpp Require Import base numbers list option gmap sorting.
From S2P Require Import Prelude FreeBlocks AllocMem AllocUtil AllocHdr AllocCarrier AllocFree.
Open Scope Z_scope.

Lemma flag_last f pf l : negb (Z.land (flags f pf l) LAST_BLK_HDR_FLG =? 0) = l.
Proof. by destruct f, pf, l. Qed.
Lemma flag_prev f pf l : Z.land (flags f pf l) PREV_FREE_BLK_HDR_FLG = flags false pf false.
Proof. by destruct f, pf, l. Qed.
Lemma flag_rest f pf l : Z.lor THIS_FREE_BLK_HDR_FLG (Z.land (flags f pf l) LAST_BLK_HDR_FLG) = flags true false l.
Proof. by destruct f, pf, l. Qed.
Lemma flag_whole pf : Z.lor LAST_BLK_HDR_FLG (flags false pf false) = flags false pf true.
Proof. by destruct pf. Qed.

Lemma coalesced_weaken pf bs : coalesced true bs → coalesced pf bs.
Proof. destruct bs as [|[sz f] bs]; [done|]. cbn. intros [-> ?]. by rewrite andb_false_r. Qed.

Section Alloc.
Context {ac : AllocConfig} {S : Type} {ops : FreeBlockOps S} {laws : FreeBlockLaws S}.
Implicit Types (s : Allctr S) (L : list carrier) (pre post mid : blocks).

(** The block at [A] is allocated: [new] takes the place of the blocks in the middle. *)
Definition finalized (s s1 : Allctr S) L1 L2 k csz pre mid post (want : Z) (st : list Block_t) (s2 : Allctr S) : Prop :=
  ∃ new sz' m2 fb2 mx, s2 = set_blocks (stat_of (Block (k + total pre) sz' :: st)) mx (set_fbs fb2 (set_mem m2 s1)) ∧
    total new = total mid ∧ select false (k + total pre) new = [Block (k + total pre) sz'] ∧ want ≤ sz' ∧
    carrier_ok m2 (Carrier k csz (pre ++ new ++ post)) ∧
    only (mem s) m2 (k + total pre) (k + total pre + total mid + hdr_of post) ∧
    (∀ x, x < k + total pre ∨ k + total pre + W ≤ x < k + total pre + want ∨ k + total pre + total mid + hdr_of post ≤ x → m2 !! x = mem s1 !! x) ∧
    fb_view fb2 (select true (k + total pre) new ++ around L1 L2 k pre post true (total mid)).

Section Finalize.
Context (s s1 : Allctr S) (L1 L2 : list carrier) (k csz : Z) (pre mid post : blocks) (want : Z) (st : list Block_t) (f ff valid : bool).
Context (Hok : heap_ok s (at_mid L1 L2 k csz pre post mid)) (Hne : mid ≠ []) (Horg : wf_size (total mid)) (Hwant : wf_size want).
Context (Hle : want ≤ total mid) (Hlf : last_free false pre = false) (Hco : coalesced true post).
Context (Ho : only (mem s) (mem s1) (k + total pre) (k + total pre + total mid)).
Context (Hfb : fb_view (fbs s1) (around L1 L2 k pre post true (total mid))) (Hst : blocks_curr s1 = stat_of st).
Context (Hvalid : valid = true → bh (mem s1) (k + total pre) (total mid) f (last_free true pre) (is_nil post) ∧ last_free false mid = true).

#[local] Abbreviation A := (k + total pre).
#[local] Abbreviation org := (total mid).

Lemma fin_next sz0 f0 post' : post = (sz0, f0) :: post' → wf_size sz0 ∧ bh (mem s1) (A + org) sz0 f0 (last_free false mid) (is_nil post').
Proof using All.
  intros E. pose proof (at_mid_ok _ _ _ _ _ _ _ _ Hok) as Hc. destruct (pos_segs _ _ _ _ _ _ Hc) as (_ & _ & Hs). rewrite E in Hs.
  destruct Hs as (Hsz & Hb & _). split; [done|]. unfold bh in *. rewrite (only_load _ _ _ _ _ Ho) by lia.
  destruct mid as [|b mid']; [done|]. by rewrite (last_free_cons _ false) in Hb.
Qed.

Lemma fin_mapped a n : k ≤ a → a + n ≤ A + org + total post → mapped (mem s1) a n = true.
Proof using All.
  intros. eapply only_mapped; [exact Ho|]. eapply pos_mapped; [by eapply at_mid_ok|lia|lia].
Qed.

(** What is left is large enough for a block. *)
Lemma finalize_shrink : min_block_size ≤ org - want →
  wp (mbc_alloc_finalize A org (flags ff (last_free true pre) (is_nil post)) want valid) s1 (λ _, finalized s s1 L1 L2 k csz pre mid post want st).
Proof using All.
  intros Hrest. pose proof fin_next as Hfn. pose proof fin_mapped as Hfm. pose proof (at_mid_ok _ _ _ _ _ _ _ _ Hok) as Hc. pose proof (pos_range _ _ _ _ _ _ Hc) as (? & ? & ? & ? & ?).
  pose proof (wf_size_pos _ Horg). pose proof (wf_size_pos _ Hwant). pose proof W_cases. pose proof (hdr_of_le _ _ _ _ _ _ Hc) as Hhp.
  assert (wf_size (org - want)) as Hsz by (split; [apply is_size_sub; [apply Horg|apply Hwant|lia]|lia]). pose proof (wf_size_pos _ Hsz).
  unfold mbc_alloc_finalize. rewrite flag_last, flag_prev, flag_rest. cbv zeta. pose proof min_size. rewrite !Uint_word by lia. replace (_ >=? _) with true by lia.
  apply wp_bind. eapply wp_SET_BLK_HDR; [apply Hfm; lia|apply Hwant|done|].
  set (m2 := put_word UINT_SZ (mem s1) A (hdr want false (last_free true pre) false)).
  assert (bh m2 A want false (last_free true pre) false) as Hb2 by (apply load_put_word; fold LIMIT; apply is_size_hdr, Hwant).
  apply wp_bind. eapply wp_NXT_BLK; [exact Hb2|apply Hwant|].
  apply wp_bind. eapply wp_SET_BLK_HDR; [apply mapped_put, Hfm; lia|apply Hsz|done|].
  set (m3 := put_word UINT_SZ m2 (A + want) (hdr (org - want) true false (is_nil post))).
  assert (bh m3 A want false (last_free true pre) false) as Hb3 by (unfold bh, m3; by rewrite load_put_word_ne by (fold W; lia)).
  assert (bh m3 (A + want) (org - want) true false (is_nil post)) as Hb3' by (apply load_put_word; fold LIMIT; apply is_size_hdr, Hsz).
  (* the footer, and the flag of the block behind *)
  set (Q := λ (_ : unit) (s' : Allctr S), ∃ m4, s' = set_mem m4 s1 ∧ bh m4 A want false (last_free true pre) false ∧ bh m4 (A + want) (org - want) true false (is_nil post) ∧
    (is_nil post = false → load_word UINT_SZ m4 (A + org - W) = Some (org - want)) ∧
    match post with [] => True | (sz0, f0) :: post' => bh m4 (A + org) sz0 f0 true (is_nil post') end ∧
    only m3 m4 (A + org - W) (A + org + hdr_of post)).
  apply wp_bind. apply (wp_mono _ _ Q).
  { destruct post as [|[sz0 f0] post']; cbn [is_nil negb when].
    - apply wp_ret. exists m3. repeat split; done.
    - destruct (Hfn _ _ _ eq_refl) as [Hsz0 Hb0]. pose proof (wf_size_pos _ Hsz0).
      apply wp_bind, wp_SET_BLK_SZ_FTR; [apply mapped_put, mapped_put, Hfm; lia|]. replace (A + want + (org - want) - W) with (A + org - W) by lia.
      set (m4 := put_word UINT_SZ m3 (A + org - W) (org - want)).
      assert (bh m4 A want false (last_free true pre) false) as Hb4 by (unfold bh, m4; by rewrite load_put_word_ne by (fold W; lia)).
      assert (bh m4 (A + want) (org - want) true false false) as Hb4' by (unfold bh, m4; rewrite load_put_word_ne by (fold W; lia); exact Hb3').
      assert (bh m4 (A + org) sz0 f0 (last_free false mid) (is_nil post')) as Hb0'.
      { unfold bh, m4, m3, m2. rewrite !load_put_word_ne by (fold W; lia). exact Hb0. }
      assert (load_word UINT_SZ m4 (A + org - W) = Some (org - want)) as Hft by (apply load_put_word; fold LIMIT; lia).
      unfold Q, hdr_of. cbn [is_nil]. destruct valid; cbn [negb when].
      + apply wp_ret. exists m4. destruct (Hvalid eq_refl) as [_ Hlm]. rewrite Hlm in Hb0'. split; [done|]. split; [done|]. split; [done|]. split; [done|]. split; [done|].
        apply only_put; [apply only_refl|lia|lia].
      + apply wp_bind. eapply wp_NXT_BLK; [exact Hb4'|apply Hsz|]. replace (A + want + (org - want)) with (A + org) by lia.
        eapply wp_SET_PREV_BLK_FREE; [exact Hb0'|apply Hsz0|]. exists (put_word UINT_SZ m4 (A + org) (hdr sz0 f0 true (is_nil post'))).
        split; [done|]. split; [unfold bh; by rewrite load_put_word_ne by (fold W; lia)|]. split; [unfold bh; by rewrite load_put_word_ne by (fold W; lia)|].
        split; [intros _; by rewrite load_put_word_ne by (fold W; lia)|]. split; [apply load_put_word; fold LIMIT; apply is_size_hdr, Hsz0|].
        apply only_put; [apply only_put; [apply only_refl|lia|lia]|lia|lia]. }
  intros _ s' (m4 & -> & Hb4 & Hb4' & Hft & Hnext & Ho4). apply wp_bind. eapply wp_link_view; [exact Hb4'|apply Hsz|exact Hfb|eapply around_addr; [done|lia]|].
  intros fb2 Hfb2. eapply (wp_stat_alloc _ (Block A want) st); [done|done|]. intros mx.
  exists [(want, false); (org - want, true)], want, m4, fb2, mx. cbn [total select eqb last_free].
  assert (only (mem s) m4 A (A + org + hdr_of post)) as Hall.
  { eapply (only_trans _ m3); [|eapply only_mono; [exact Ho4|lia|lia]]. unfold m3, m2. unfold hdr_of in *.
    apply only_put; [apply only_put; [eapply only_mono; [exact Ho|lia|]|lia|]|lia|]; destruct (is_nil post); lia. }
  split; [done|]. split; [lia|]. split; [done|]. split; [lia|]. split; [|split; [done|split; [|done]]].
  - eapply carrier_update; [exact Hc|done|done|cbn; lia|exact Hall| |cbn; by destruct post as [|[] ]|].
    + cbn. rewrite andb_false_r, andb_true_r. split; [done|]. split; [done|]. split; [done|]. split; [done|]. split; [done|]. split; [|done].
      intros _ Hp. replace (A + want + (org - want) - W) with (A + org - W) by lia. by apply Hft.
    + cbn. by rewrite andb_false_r.
  - intros x Hx. destruct Ho4 as [Ho4 _]. rewrite Ho4 by (unfold hdr_of in *; destruct (is_nil post); lia). unfold m3, m2.
    rewrite !put_word_lookup by (unfold hdr_of in *; destruct (is_nil post); fold W; lia). done.
Qed.

(** What is left stays with the block. *)
Lemma finalize_whole : org - want < min_block_size →
  wp (mbc_alloc_finalize A org (flags ff (last_free true pre) (is_nil post)) want valid) s1 (λ _, finalized s s1 L1 L2 k csz pre mid post want st).
Proof using All.
  intros Hrest. pose proof fin_next as Hfn. pose proof fin_mapped as Hfm. pose proof (at_mid_ok _ _ _ _ _ _ _ _ Hok) as Hc.
  pose proof (pos_range _ _ _ _ _ _ Hc) as (? & ? & ? & ? & ?).
  pose proof (wf_size_pos _ Horg). pose proof (wf_size_pos _ Hwant). pose proof W_cases. pose proof (hdr_of_le _ _ _ _ _ _ Hc) as Hhp. pose proof min_size.
  unfold mbc_alloc_finalize. rewrite flag_last, flag_prev, flag_rest, flag_whole. cbv zeta. destruct Horg as [Hszorg Hmin]. rewrite Uint_word by lia.
  replace (_ >=? _) with false by lia.
  set (hd := λ l, put_word UINT_SZ (mem s1) A (hdr org false (last_free true pre) l)).
  assert (∀ l, bh (hd l) A org false (last_free true pre) l) as Hhd by (intros l; apply load_put_word; fold LIMIT; by apply is_size_hdr).
  set (Q := λ (_ : unit) (s' : Allctr S), ∃ m2, s' = set_mem m2 s1 ∧ bh m2 A org false (last_free true pre) (is_nil post) ∧
    match post with [] => True | (sz0, f0) :: post' => bh m2 (A + org) sz0 f0 false (is_nil post') end ∧
    (∀ x, x < A ∨ A + W ≤ x < A + org ∨ A + org + hdr_of post ≤ x → m2 !! x = mem s1 !! x) ∧ (∀ x, is_Some (mem s1 !! x) → is_Some (m2 !! x))).
  assert (∀ l Q', is_nil post = l → Q' tt (set_mem (hd l) s1) →
    wp (if valid then SET_BLK_ALLOCED A else SET_BLK_HDR A org (flags false (last_free true pre) l)) s1 Q') as Hset.
  { intros l Q' <- HQ'. destruct valid; [|eapply wp_SET_BLK_HDR; [apply Hfm; lia|done|done|done]].
    destruct (Hvalid eq_refl) as [Hb _]. by eapply wp_SET_BLK_ALLOCED. }
  apply wp_bind. apply (wp_mono _ _ Q).
  { destruct post as [|[sz0 f0] post'] eqn:E; cbn [is_nil].
    - apply Hset; [done|]. exists (hd true). split; [done|]. split; [done|]. split; [done|]. unfold hdr_of; cbn [is_nil]. split.
      + intros x Hx. apply put_word_lookup. fold W. lia.
      + intros x Hx. by apply (only_put (mem s1) _ A (A + W) A _ (only_refl _ _ _)); [lia|lia|].
    - destruct (Hfn _ _ _ eq_refl) as [Hsz0 Hb0]. pose proof (wf_size_pos _ Hsz0). apply wp_bind, Hset; [done|].
      apply wp_bind. eapply wp_NXT_BLK; [apply Hhd|done|].
      eapply (wp_SET_PREV_BLK_ALLOCED _ _ sz0); [unfold bh, hd; cbn; rewrite load_put_word_ne by (fold W; lia); exact Hb0|apply Hsz0|].
      exists (put_word UINT_SZ (hd false) (A + org) (hdr sz0 f0 false (is_nil post'))). split; [done|].
      split; [unfold bh; rewrite load_put_word_ne by (fold W; lia); apply Hhd|]. split; [apply load_put_word; fold LIMIT; apply is_size_hdr, Hsz0|].
      unfold hdr_of; cbn [is_nil]. split.
      + intros x Hx. unfold hd. by rewrite !put_word_lookup by (fold W; lia).
      + assert (only (mem s1) (put_word UINT_SZ (hd false) (A + org) (hdr sz0 f0 false (is_nil post'))) A (A + org + W)) as [_ Hall]; [|done].
        apply only_put; [apply only_put; [apply only_refl|lia|lia]|lia|lia]. }
  intros _ s' (m2 & -> & Hb2 & Hnext & Hx & Hmp). eapply (wp_stat_alloc _ (Block A org) st); [done|done|]. intros mx.
  exists [(org, false)], org, m2, (fbs s1), mx. cbn [total select eqb last_free].
  assert (only (mem s) m2 A (A + org + hdr_of post)) as Hall.
  { unfold hdr_of in *. destruct Ho as [Ho1 Ho2]. split; [|by auto]. intros x ?. rewrite Hx by (destruct (is_nil post); lia). apply Ho1. destruct (is_nil post); lia. }
  split; [by destruct s1|]. split; [lia|]. split; [done|]. split; [lia|]. split; [|split; [done|split; [|done]]].
  - eapply carrier_update; [exact Hc|done|done|cbn; lia|exact Hall| |cbn; by destruct post as [|[] ]|].
    + cbn. rewrite andb_true_r. split; [done|]. split; [done|]. done.
    + cbn. rewrite andb_false_r. split; [done|]. by apply coalesced_weaken.
  - intros x ?. apply Hx. lia.
Qed.

Lemma finalize_spec :
  wp (mbc_alloc_finalize A org (flags ff (last_free true pre) (is_nil post)) want valid) s1 (λ _, finalized s s1 L1 L2 k csz pre mid post want st).
Proof using All.
  destruct (decide (min_block_size ≤ org - want)); [by apply finalize_shrink|apply finalize_whole; lia].
Qed.
End Finalize.

(** ** Sizes *)
Lemma SZ_MASK_unit : SZ_MASK = Uint (-8).
Proof. unfold SZ_MASK, Uint, W. destruct UINT_SZ_cases as [-> | ->]; reflexivity. Qed.

Lemma unit_floor y : 0 ≤ y < LIMIT → UNIT_FLOOR y = 8 * (y / 8).
Proof.
  intros Hy. unfold UNIT_FLOOR. rewrite <- SZ_MASK_unit. pose proof (Z.div_mod y 8 ltac:(lia)) as E. pose proof (Z.mod_pos_bound y 8 ltac:(lia)) as Hr.
  assert (∃ f pf l, y mod 8 = flags f pf l) as (f & pf & l & Ef).
  { pose proof (small_cases _ Hr) as Hc. rewrite !elem_of_cons, elem_of_nil in Hc. unfold flags, b2z.
    destruct_or!; [exists false, false, false|exists true, false, false|exists false, true, false|exists true, true, false
      |exists false, false, true|exists true, false, true|exists false, true, true|exists true, true, true]; lia. }
  rewrite E at 1. rewrite Ef. apply (hdr_size (8 * (y / 8))). split; [by exists (y / 8); lia|]. lia.
Qed.

(** The size of a block for [sz] bytes. *)
Lemma blksz_spec sz : 0 ≤ sz → sz + W + 8 ≤ LIMIT → wf_size (UMEMSZ2BLKSZ sz) ∧ sz + W ≤ UMEMSZ2BLKSZ sz.
Proof.
  intros H0 H1. pose proof min_block_size_max as Hm. fold LIMIT in Hm. pose proof W_cases. pose proof min_size. pose proof min_block_size_ok as [Hd _]. unfold UMEMSZ2BLKSZ, ABLK_HDR_SZ. rewrite Uint_word by lia.
  destruct (Z.leb_spec (W + sz) min_block_size).
  - split; [split; [split; [done|lia]|lia]|lia].
  - unfold UNIT_CEILING. rewrite Uint_word, unit_floor by lia. pose proof (Z.div_mod (W + sz + 7) 8 ltac:(lia)). pose proof (Z.mod_pos_bound (W + sz + 7) 8 ltac:(lia)).
    destruct Hd as [q Hq]. split; [split; [split; [exists ((W + sz + 7) / 8); lia|lia]|lia]|lia].
Qed.

(** ** The block that was found *)

(** [s1]: the allocator after the free block at [A] was taken from the strategy; [sv] is as [s1], with the block still linked. *)
Definition taken (sv s1 : Allctr S) L1 L2 k csz pre post (org : Z) : Prop :=
  heap_ok sv (at_mid L1 L2 k csz pre post [(org, true)]) ∧ (∃ fb, sv = set_fbs fb s1) ∧ fb_view (fbs s1) (around L1 L2 k pre post true org).

(** What allocation of a block of at least [want] bytes at [A] promises. *)
Definition alloc_post (s : Allctr S) (L : list carrier) (a want : Z) (s' : Allctr S) : Prop :=
  ∃ L' sz, heap_ok s' L' ∧ heap_allocs L' ≡ₚ Block a sz :: heap_allocs L ∧ want ≤ sz ∧
    Forall (user_same (mem s) (mem s')) (heap_allocs L) ∧ (∀ x, is_Some (mem s !! x) → outside L x → mem s' !! x = mem s !! x ∧ outside L' x) ∧
    main_carrier s' = main_carrier s ∧ sbc_list s' = sbc_list s.

Lemma taken_facts sv s1 L1 L2 k csz pre post org : taken sv s1 L1 L2 k csz pre post org →
  wf_size org ∧ bh (mem s1) (k + total pre) org true (last_free true pre) (is_nil post) ∧ last_free false pre = false ∧ coalesced true post ∧
  load_word UINT_SZ (mem s1) (k - W) = Some 0 ∧ (last_free true pre = true → pre = []).
Proof.
  intros (Hok & (fb & ->) & Hfb). pose proof (at_mid_ok _ _ _ _ _ _ _ _ Hok) as Hc. destruct (pos_segs _ _ _ _ _ _ Hc) as (_ & (Hsz & Hb & _) & _).
  pose proof (pos_coalesced _ _ _ _ _ _ Hc) as [Hlf Hco]. cbn [is_nil] in Hb. rewrite andb_true_r in Hb, Hlf. destruct Hc as (_ & _ & _ & _ & _ & _ & H0 & _).
  split; [done|]. split; [done|]. split; [done|]. split; [done|]. split; [done|]. intros Hp. destruct pre as [|b pre']; [done|]. by rewrite (last_free_cons _ false), Hlf in Hp.
Qed.

Lemma taken_not_sbc sv s1 L1 L2 k csz pre post org Q : taken sv s1 L1 L2 k csz pre post org → Q false s1 → wp (IS_SBC_BLK (k + total pre)) s1 Q.
Proof.
  intros (Hsz & Hb & _ & _ & H0 & Hp)%taken_facts HQ. eapply wp_bind, wp_IS_PREV_BLK_FREE; [exact Hb|apply Hsz|].
  destruct (last_free true pre) eqn:E; [|by apply wp_ret]. rewrite (Hp eq_refl) in *. cbn [total] in *. rewrite Z.add_0_r in *.
  eapply wp_bind, wp_rd; [exact H0|]. by apply wp_ret.
Qed.

Lemma finalize_block_spec sv s1 L1 L2 k csz pre post org want : taken sv s1 L1 L2 k csz pre post org → wf_size want → want ≤ org →
  wp (finalize_block (k + total pre) want) s1 (λ _, alloc_post sv (at_mid L1 L2 k csz pre post [(org, true)]) (k + total pre) want).
Proof.
  intros Ht Hwant Hle. destruct (taken_facts _ _ _ _ _ _ _ _ _ Ht) as (Hsz & Hb & Hlf & Hco & _). destruct Ht as (Hok & (fb & ->) & Hfb).
  pose proof (at_mid_ok _ _ _ _ _ _ _ _ Hok) as Hc. unfold finalize_block.
  eapply wp_bind, wp_BLK_SZ; [exact Hb|apply Hsz|]. eapply wp_bind, wp_GET_BLK_HDR_FLGS; [exact Hb|apply Hsz|].
  pose proof Hok as (_ & _ & _ & Hml & Hst). rewrite heap_around in Hst. cbn [select eqb app total] in Hst.
  assert (total [(org, true)] = org) as Et by (cbn; lia). rewrite <- Et at 1.
  eapply wp_mono; [eapply (finalize_spec (set_fbs fb s1) s1 L1 L2 k csz pre [(org, true)] post want _ true true true); try done;
    rewrite ?Et; done|].
  intros _ s2 (new & sz' & m2 & fb2 & mx & -> & Htot & Hsel & Hsz' & Hc2 & Ho & Hx & Hfb2). rewrite Et in *.
  exists (at_mid L1 L2 k csz pre post new), sz'. rewrite Z.add_0_r in Hst. split; [|split; [|split; [done|split; [|split; [|done]]]]].
  - eapply (heap_update L1 L2 k csz pre [(org, true)] new post (set_fbs fb s1)); rewrite ?Et; try done. cbn [blocks_curr set_blocks]. rewrite Hsel, Z.add_0_r. done.
  - rewrite !heap_around, Hsel, Htot. cbn [select eqb app total]. by rewrite Z.add_0_r.
  - rewrite heap_around. cbn [select eqb app]. eapply around_data; [exact Hok|]. by rewrite Et.
  - intros x _ Hout. split; [eapply outside_only; [exact Hc|rewrite Et; exact Ho|exact Hout]|]. unfold outside, at_mid in *. rewrite Forall_app, Forall_cons in Hout |- *. exact Hout.
Qed.

(** ** New carriers *)

(** What the memory that the system gives is like: at least as large as asked for, in whole units, and not in use. *)
Definition region_ok (m : memory) (need : Z) (a : answer) : Prop :=
  match a with
  | None => True
  | Some (crr, bytes) => 0 < crr ∧ crr + zlen bytes ≤ LIMIT ∧ (8 | zlen bytes) ∧ need ≤ zlen bytes ∧ ∀ x, crr ≤ x < crr + zlen bytes → m !! x = None
  end.

(** The memory in use stays as it is, [m'] has the region too. *)
Definition extends (m m' : memory) (lo hi : Z) : Prop :=
  (∀ x, x < lo ∨ hi ≤ x → m' !! x = m !! x) ∧ ∀ x, lo ≤ x < hi → is_Some (m' !! x).

Lemma extends_region m crr bytes : extends m (put_bytes m crr bytes) crr (crr + zlen bytes).
Proof.
  split; intros x Hx; rewrite put_bytes_lookup; [by rewrite bool_decide_eq_false_2 by lia|]. rewrite bool_decide_eq_true_2 by lia. apply lookup_lt_is_Some_2. lia.
Qed.

Lemma extends_put m m' lo hi a w : extends m m' lo hi → lo ≤ a → a + W ≤ hi → extends m (put_word UINT_SZ m' a w) lo hi.
Proof.
  intros [H1 H2] ? ?. split; intros x Hx.
  - rewrite put_word_lookup by (fold W; lia). by apply H1.
  - unfold put_word. rewrite put_bytes_lookup. case_bool_decide; [|by apply H2]. apply lookup_lt_is_Some_2. lia.
Qed.

Lemma extends_mapped m m' lo hi a n : extends m m' lo hi → lo ≤ a → a + n ≤ hi → mapped m' a n = true.
Proof. intros [_ H] ? ?. apply mapped_spec. intros x ?. apply H. lia. Qed.

(** A carrier lies outside of a region that was not mapped. *)
Lemma fresh_apart m c lo hi : carrier_ok m c → (∀ x, lo ≤ x < hi → m !! x = None) → lo < hi → c_hi c ≤ lo ∨ hi ≤ c_lo c.
Proof.
  intros Hc Hf Hlt. pose proof (carrier_blk _ _ Hc). pose proof W_cases. destruct Hc as (_ & _ & _ & _ & _ & _ & _ & _ & Hm). rewrite mapped_spec in Hm.
  destruct (decide (c_hi c ≤ lo ∨ hi ≤ c_lo c)) as [|Hno]; [done|]. exfalso.
  destruct (Hm (Z.max lo (c_lo c))) as [v Hv]; [unfold c_hi in *; lia|]. rewrite Hf in Hv by lia. done.
Qed.

Lemma carriers_extend m m' L lo hi : Forall (carrier_ok m) L → extends m m' lo hi → (∀ x, lo ≤ x < hi → m !! x = None) → lo < hi →
  Forall (carrier_ok m') L ∧ Forall (λ c, c_hi c ≤ lo ∨ hi ≤ c_lo c) L.
Proof.
  intros HL [He _] Hf Hlt. rewrite Forall_forall in HL. split; apply Forall_forall; intros c Hc; pose proof (fresh_apart _ _ _ _ (HL c Hc) Hf Hlt); [|done].
  eapply carrier_agree; [|by apply HL]. intros x Hx. apply He. lia.
Qed.

(** The allocated blocks keep their contents. *)
Lemma allocs_extend m m' L lo hi free : Forall (carrier_ok m) L → extends m m' lo hi → (∀ x, lo ≤ x < hi → m !! x = None) → lo < hi →
  Forall (user_same m m') (heap_sel free L) ∧ Forall (λ b, blk_addr b < lo ∨ hi ≤ blk_addr b) (heap_sel free L).
Proof.
  intros HL He Hf Hlt. destruct (carriers_extend _ _ _ _ _ HL He Hf Hlt) as [_ Hap]. rewrite Forall_forall in Hap.
  assert (∀ b, b ∈ heap_sel free L → blk_addr b + FreeBlocks.BLK_SZ b ≤ lo ∨ hi ≤ blk_addr b) as Hb.
  { intros b Hb. destruct (heap_sel_range _ _ _ _ HL Hb) as (c & Hc & ? & ? & _). specialize (Hap c Hc). lia. }
  split; apply Forall_forall; intros b Hin.
  - intros x Hx. apply He. pose proof W_cases. specialize (Hb b Hin). lia.
  - specialize (Hb b Hin). destruct (heap_sel_range _ _ _ _ HL Hin) as (c & _ & _ & _ & ?%wf_size_pos). lia.
Qed.

Lemma create_mbc_spec s L mseg crr bytes need : heap_ok s L → region_ok (mem s) (mbc_header_size + need) (Some (crr, bytes)) → wf_size need →
  wp (create_mbc mseg (Some (crr, bytes))) s (λ r s1, r = Some (crr + mbc_header_size) ∧
    ∃ sv org, taken sv s1 L [] (crr + mbc_header_size) (zlen bytes) [] [] org ∧ need ≤ org ∧ extends (mem s) (mem s1) crr (crr + zlen bytes) ∧
      main_carrier s1 = main_carrier s ∧ sbc_list s1 = sbc_list s).
Proof.
  intros (HL & Hap & (Hf1 & Hf2 & Hf3) & Hml & Hst) (Hcrr & Hlim & [cq Hcq] & Hneed & Hfresh) Hn. pose proof (wf_size_pos _ Hn). pose proof W_cases.
  pose proof mbc_header_size_ok as Hh. fold W in Hh. set (blk := crr + mbc_header_size). set (csz := zlen bytes) in *.
  assert (0 ≤ csz - mbc_header_size < LIMIT) as Hr by lia. set (org := 8 * ((csz - mbc_header_size) / 8)).
  assert (need ≤ org ∧ org ≤ csz - mbc_header_size) as [Hno Hor].
  { pose proof (Z.div_mod (csz - mbc_header_size) 8 ltac:(lia)). pose proof (Z.mod_pos_bound (csz - mbc_header_size) 8 ltac:(lia)).
    destruct Hn as [[[q Hq] _] _]. unfold org. lia. }
  assert (wf_size org) as Horg by (split; [split; [by exists ((csz - mbc_header_size) / 8); unfold org; lia|lia]|destruct Hn; lia]).
  assert (is_size csz) as Hcsz by (split; [by exists cq|lia]).
  unfold create_mbc. cbv zeta. fold csz blk. rewrite Uint_word, unit_floor by lia. fold org.
  pose proof (extends_region (mem s) crr bytes) as E1. fold csz in E1. apply wp_bind, wp_modify. set (s1 := set_mem _ s).
  apply wp_bind, wp_wr; [eapply extends_mapped; [exact E1|lia|lia]|]. set (m2 := put_word UINT_SZ _ crr _).
  assert (extends (mem s) m2 crr (crr + csz)) as E2 by (apply extends_put; [done|lia|lia]).
  apply wp_bind, wp_wr; [eapply extends_mapped; [exact E2|lia|lia]|]. set (m3 := put_word UINT_SZ m2 (blk - W) 0).
  assert (extends (mem s) m3 crr (crr + csz)) as E3 by (apply extends_put; [done|lia|lia]).
  apply wp_bind. eapply (wp_SET_BLK_HDR _ blk org _ true true true); [eapply extends_mapped; [exact E3|lia|lia]|apply Horg|done|].
  set (m4 := put_word UINT_SZ m3 blk (hdr org true true true)).
  assert (extends (mem s) m4 crr (crr + csz)) as E4 by (apply extends_put; [done|lia|lia]).
  apply wp_bind, wp_modify, wp_ret. split; [done|]. destruct (carriers_extend _ _ _ _ _ HL E4 Hfresh ltac:(lia)) as [HL4 Hap4].
  destruct (allocs_extend _ _ _ _ _ true HL E4 Hfresh ltac:(lia)) as [_ Hadr].
  assert (blk_map (heap_frees L) !! blk = None) as Hnone.
  { destruct (blk_map (heap_frees L) !! blk) as [z|] eqn:Ez; [|done]. apply blk_map_lookup in Ez; [|done]. rewrite Forall_forall in Hadr.
    specialize (Hadr _ Ez). cbn in Hadr. lia. }
  destruct (fb_link_ok (fbs s) (Block blk org) Hf1) as (fb & _ & Hfb1 & Hfb2); [by rewrite Hf3|].
  destruct (blk_map_add (heap_frees L) (Block blk org :: heap_frees L) (Block blk org) Hf2 Hnone (Permutation_refl _)) as [Hd Hm].
  set (s' := set_mbc_list _ _). exists (set_fbs fb s'), org. split; [|split; [done|split; [done|done]]]. split; [|split; [by exists fb|]].
  - set (c := Carrier blk csz ([] ++ [(org, true)] ++ [])). assert (c_lo c = crr) as Elo by (unfold c_lo; cbn; lia).
    assert (carrier_ok m4 c) as Hc.
    { assert (seg m4 blk true [(org, true)] true) as Hseg.
      { cbn. split; [done|]. split; [|done]. apply load_put_word. fold LIMIT. apply is_size_hdr, Horg. }
      unfold carrier_ok, c_hi. rewrite Elo. cbn [c_blk c_sz c_bs c total app].
      split; [lia|]. split; [lia|]. split; [lia|]. split; [done|]. split; [exact Hseg|]. split; [done|]. split; [|split].
      - unfold m4. rewrite load_put_word_ne by (fold W; lia). apply load_put_word. fold LIMIT. lia.
      - exists (hdr csz mseg false false). split; [|by apply hdr_size]. unfold m4, m3. rewrite !load_put_word_ne by (fold W; lia).
        unfold m2. replace (Z.lor csz _) with (hdr csz mseg false false); [apply load_put_word; fold LIMIT; by apply is_size_hdr|].
        destruct mseg; [rewrite hdr_make by (done || unfold MSEG_CARRIER_HDR_FLAG; lia); done|by rewrite Z.lor_0_r, hdr_bare].
      - eapply extends_mapped; [exact E4|lia|lia]. }
    split; [|split; [|split; [|split]]].
    + apply Forall_app. split; [done|]. by apply Forall_cons.
    + apply sorted_add; [by rewrite app_nil_r| |done]. eapply Forall_impl; [exact Hap4|]. intros c' Hc'. fold c. unfold apart, c_hi in *. rewrite Elo. change (c_sz c) with csz. lia.
    + cbn [fbs set_fbs]. apply (fb_view_perm _ (Block blk org :: heap_frees L)); [|split; [done|split; [done|by rewrite Hfb2, Hm, Hf3]]].
      rewrite heap_around. unfold around. cbn [select eqb app total]. by rewrite Z.add_0_r, app_nil_r.
    + cbn. unfold at_mid. rewrite Hml, fmap_app. cbn. do 2 f_equal. unfold c_lo. cbn. lia.
    + cbn. rewrite Hst. apply stat_of_proper. rewrite heap_around. unfold around. cbn. by rewrite app_nil_r.
  - unfold around. cbn. rewrite app_nil_r. done.
Qed.

(** A block in a carrier of its own. *)
Definition sbc_post (s : Allctr S) (L : list carrier) (sz : Z) (sbc : answer) (p : Z) (s' : Allctr S) : Prop :=
  ∃ crr bytes, sbc = Some (crr, bytes) ∧ p = crr + sbc_header_size + W ∧ heap_ok s' L ∧ extends (mem s) (mem s') crr (crr + zlen bytes) ∧
    bh (mem s') (p - W) (UMEMSZ2BLKSZ sz) false true true ∧ load_word UINT_SZ (mem s') (p - 2 * W) = Some SBC_BLK_FTR_FLG ∧
    main_carrier s' = main_carrier s ∧ sbc_list s' = sbc_list s ++ [crr].

Lemma heap_extend s s' L lo hi : heap_ok s L → extends (mem s) (mem s') lo hi → (∀ x, lo ≤ x < hi → mem s !! x = None) → lo < hi →
  fbs s' = fbs s → mbc_list s' = mbc_list s → blocks_curr s' = blocks_curr s → heap_ok s' L.
Proof.
  intros (HL & Hap & Hfb & Hml & Hst) He Hf Hlt Ef El Eb. destruct (carriers_extend _ _ _ _ _ HL He Hf Hlt) as [HL' _].
  split; [done|]. split; [done|]. rewrite Ef, El, Eb. done.
Qed.

Lemma create_sbc_spec s L sz crr bytes : heap_ok s L → region_ok (mem s) (sbc_header_size + UMEMSZ2BLKSZ sz) (Some (crr, bytes)) → wf_size (UMEMSZ2BLKSZ sz) →
  wp (create_sbc sz (Some (crr, bytes))) s (λ r s', r = Some (crr + sbc_header_size) ∧ sbc_post s L sz (Some (crr, bytes)) (crr + sbc_header_size + W) s').
Proof.
  intros Hok (Hcrr & Hlim & _ & Hneed & Hfresh) Hsz. pose proof (wf_size_pos _ Hsz). pose proof W_cases. pose proof sbc_header_size_ok as Hh. fold W in Hh.
  unfold create_sbc. cbv zeta. set (blk := crr + sbc_header_size). set (csz := zlen bytes) in *.
  pose proof (extends_region (mem s) crr bytes) as E1. fold csz in E1. apply wp_bind, wp_modify. set (s1 := set_mem _ s).
  apply wp_bind, wp_wr; [eapply extends_mapped; [exact E1|lia|lia]|]. set (m2 := put_word UINT_SZ _ crr _).
  assert (extends (mem s) m2 crr (crr + csz)) as E2 by (apply extends_put; [done|lia|lia]).
  apply wp_bind, wp_wr; [eapply extends_mapped; [exact E2|lia|lia]|]. set (m3 := put_word UINT_SZ m2 (blk - W) SBC_BLK_FTR_FLG).
  assert (extends (mem s) m3 crr (crr + csz)) as E3 by (apply extends_put; [done|lia|lia]).
  apply wp_bind. eapply (wp_SET_BLK_HDR _ blk _ _ false true true); [eapply extends_mapped; [exact E3|lia|lia]|apply Hsz|done|].
  set (m4 := put_word UINT_SZ m3 blk (hdr (UMEMSZ2BLKSZ sz) false true true)).
  assert (extends (mem s) m4 crr (crr + csz)) as E4 by (apply extends_put; [done|lia|lia]).
  apply wp_bind, wp_modify, wp_ret. split; [done|]. exists crr, bytes. fold csz blk. split; [done|]. split; [done|].
  split; [by eapply (heap_extend s); [done|exact E4|done|lia|..]|]. split; [exact E4|].
  replace (blk + W - W) with blk by lia. replace (blk + W - 2 * W) with (blk - W) by lia.
  split; [apply load_put_word; fold LIMIT; apply is_size_hdr, Hsz|]. split; [|done].
  change (load_word UINT_SZ m4 (blk - W) = Some SBC_BLK_FTR_FLG). unfold m4. rewrite load_put_word_ne by (fold W; lia). apply load_put_word. fold LIMIT.
  destruct LIMIT_8 as (? & ? & ?). unfold SBC_BLK_FTR_FLG. lia.
Qed.

(** ** The whole function *)
Definition mbc_alloc_post (s : Allctr S) (L : list carrier) (sz : Z) (sbc : answer) (r : option Z) (s' : Allctr S) : Prop :=
  match r with
  | None => s' = s
  | Some p => alloc_post s L (p - W) (UMEMSZ2BLKSZ sz) s' ∨ sbc_post s L sz sbc p s'
  end.

Lemma mbc_alloc_mbc sv s1 L1 L2 k csz pre post org want : taken sv s1 L1 L2 k csz pre post org → wf_size want → want ≤ org →
  wp (is_sbc ← IS_SBC_BLK (k + total pre); when (negb is_sbc) (finalize_block (k + total pre) want);; mret (Some (BLK2UMEM (k + total pre)))) s1
    (λ r s', r = Some (k + total pre + W) ∧ alloc_post sv (at_mid L1 L2 k csz pre post [(org, true)]) (k + total pre) want s').
Proof.
  intros Ht Hw Hle. apply wp_bind. eapply taken_not_sbc; [exact Ht|]. cbn [negb when]. apply wp_bind. eapply wp_mono; [by eapply finalize_block_spec|].
  intros u s' Hp. by apply wp_ret.
Qed.

Lemma mbc_alloc_spec s L sz mseg mbc sbc : heap_ok s L → wf_size (UMEMSZ2BLKSZ sz) → region_ok (mem s) (mbc_header_size + UMEMSZ2BLKSZ sz) mbc →
  region_ok (mem s) (sbc_header_size + UMEMSZ2BLKSZ sz) sbc → wp (mbc_alloc sz mseg mbc sbc) s (mbc_alloc_post s L sz sbc).
Proof.
  intros Hok Hsz Hmbc Hsbc. pose proof Hok as (HL & _ & Hfb & _). pose proof W_cases. unfold mbc_alloc, mbc_alloc_block. cbv zeta. apply wp_bind, wp_bind.
  eapply wp_get_view; [exact Hfb| |].
  - (* a free block *)
    intros fb b l' Hperm Hle Hfb'. apply wp_ret. assert (b ∈ heap_frees L) as Hb by (rewrite Hperm; by left).
    destruct (heap_split _ _ _ Hb) as (L1 & L2 & k & csz & pre & post & -> & Ha). rewrite Ha.
    eapply wp_mono; [eapply (mbc_alloc_mbc s (set_fbs fb s) L1 L2 k csz pre post (FreeBlocks.BLK_SZ b)); [|done|done]|].
    + split; [done|]. split; [exists (fbs s); by destruct s|]. cbn [fbs set_fbs]. eapply fb_view_perm; [|exact Hfb']. apply (Permutation_cons_inv (a := b)).
      rewrite <- Hperm, heap_around. cbn [select eqb app total]. rewrite Z.add_0_r, <- Ha. by destruct b.
    + intros r s' [-> Hp]. left. by replace (k + total pre + W - W) with (k + total pre) by lia.
  - destruct mbc as [[crr bytes]|].
    + (* a new carrier *)
      apply wp_bind. eapply wp_mono; [by eapply create_mbc_spec|]. intros r s1 (-> & sv & org & Ht & Hno & He & Emain & Esbc). apply wp_ret.
      pose proof Ht as (_ & (fb & ->) & _). pose proof Hmbc as (Hcrr & _ & _ & Hneed & Hfresh). pose proof (wf_size_pos _ Hsz). pose proof mbc_header_size_ok as Hh. fold W in Hh.
      pose proof (mbc_alloc_mbc (set_fbs fb s1) s1 L [] (crr + mbc_header_size) (zlen bytes) [] [] org (UMEMSZ2BLKSZ sz) Ht Hsz Hno) as Hm.
      cbn [total] in Hm. rewrite Z.add_0_r in Hm. eapply wp_mono; [exact Hm|]. intros r s' [-> (L' & sz' & Hok' & Hp & Hle & Hu & Hout & E1 & E2)].
      destruct (allocs_extend _ _ _ _ _ false HL He Hfresh ltac:(lia)) as [Hsame _].
      assert (heap_allocs (at_mid L [] (crr + mbc_header_size) (zlen bytes) [] [] [(org, true)]) ≡ₚ heap_allocs L) as Eal.
      { rewrite heap_around. unfold around. cbn. by rewrite app_nil_r. }
      rewrite Eal in Hp, Hu. left. exists L', sz'. replace (crr + mbc_header_size + W - W) with (crr + mbc_header_size) by lia.
      split; [done|]. split; [done|]. split; [done|]. split; [|split; [|by rewrite E1, E2]].
      * rewrite Forall_forall in Hsame, Hu |- *. intros b Hb x Hx. rewrite (Hu b Hb x Hx). by apply (Hsame b Hb).
      * intros x Hs Hx. assert (¬ (crr ≤ x < crr + zlen bytes)) as Hn by (intros Hr; rewrite Hfresh in Hs by done; by destruct Hs).
        destruct He as [He _]. assert (mem s1 !! x = mem s !! x) as Ex by (apply He; lia).
        destruct (Hout x) as [H1 H2]; [cbn; by rewrite Ex| |].
        -- unfold outside, at_mid. apply Forall_app. split; [done|]. apply Forall_cons. split; [|done]. unfold c_hi, c_lo. cbn. lia.
        -- split; [cbn in H1; congruence|done].
    + cbn [create_mbc]. apply wp_bind, wp_ret. destruct sbc as [[crr bytes]|].
      * apply wp_bind. eapply wp_mono; [by eapply create_sbc_spec|]. intros r s' [-> Hp]. apply wp_ret.
        pose proof Hp as (crr' & bytes' & [= <- <-] & _ & _ & _ & Hb & Hft & _).
        replace (crr + sbc_header_size + W - W) with (crr + sbc_header_size) in * by lia. replace (crr + sbc_header_size + W - 2 * W) with (crr + sbc_header_size - W) in * by lia.
        apply wp_bind. eapply wp_bind, wp_IS_PREV_BLK_FREE; [exact Hb|apply Hsz|]. eapply wp_bind, wp_rd; [exact Hft|]. apply wp_ret. cbn. apply wp_bind, wp_ret, wp_ret. by right.
      * apply wp_bind, wp_ret, wp_ret, wp_ret. done.
Qed.

End Alloc.
