(* ===== verification/AllocRealloc.v ===== *)
(** [mbc_realloc]: the block is shrunk or grown where it is, or moved; its contents are kept. *)

From Stdlib Require Import Lia ZArith Sorting.Sorted.
From stdpp Require Import base numbers list option gmap sorting.
From S2P Require Import Prelude FreeBlocks AllocMem AllocUtil AllocHdr AllocCarrier AllocFree AllocAlloc.
Open Scope Z_scope.

Section Realloc.
Context {ac : AllocConfig} {S : Type} {ops : FreeBlockOps S} {laws : FreeBlockLaws S}.
Implicit Types (s : Allctr S) (L : list carrier) (pre post mid : blocks).

(** The block at [a] has changed its size in place. *)
Definition resized (s : Allctr S) (L : list carrier) (a old want : Z) (s' : Allctr S) : Prop :=
  ∃ L' rest sz', heap_ok s' L' ∧ heap_allocs L ≡ₚ Block a old :: rest ∧ heap_allocs L' ≡ₚ Block a sz' :: rest ∧ want ≤ sz' ∧
    Forall (user_same (mem s) (mem s')) rest ∧ (∀ x, a + W ≤ x < a + Z.min want old → mem s' !! x = mem s !! x) ∧ sbc_list s' = sbc_list s.

(** The middle is an allocated block now, with a free one behind it or not. *)
Section Resize.
Context (s s' : Allctr S) (L1 L2 : list carrier) (k csz : Z) (pre mid post : blocks) (want old : Z).
Context (Hok : heap_ok s (at_mid L1 L2 k csz pre post mid)) (Hne : mid ≠ []) (Hwant : wf_size want) (Hold : old ≤ total mid).
Context (Hsel : select false (k + total pre) mid = [Block (k + total pre) old]).
Context (Ho : only (mem s) (mem s') (k + total pre) (k + total pre + total mid + hdr_of post)).
Context (Hl : mbc_list s' = mbc_list s) (Hsb : sbc_list s' = sbc_list s).
#[local] Abbreviation A := (k + total pre).
#[local] Abbreviation T := (total mid).

Lemma resized_split : wf_size (T - want) → coalesced true post →
  bh (mem s') A want false (last_free true pre) false → bh (mem s') (A + want) (T - want) true false (is_nil post) →
  (is_nil post = false → load_word UINT_SZ (mem s') (A + T - W) = Some (T - want)) →
  match post with [] => True | (sz0, f0) :: post' => bh (mem s') (A + T) sz0 f0 true (is_nil post') end →
  fb_view (fbs s') (Block (A + want) (T - want) :: around L1 L2 k pre post true T) →
  blocks_curr s' = stat_of (Block A want :: around L1 L2 k pre post false T) →
  (∀ x, A + W ≤ x < A + Z.min want old → mem s' !! x = mem s !! x) →
  resized s (at_mid L1 L2 k csz pre post mid) A old want s'.
Proof using All.
  intros Hsz Hco Hb1 Hb2 Hft Hnext Hfb Hst Hx. pose proof (at_mid_ok _ _ _ _ _ _ _ _ Hok) as Hc.
  assert (carrier_ok (mem s') (Carrier k csz (pre ++ [(want, false); (T - want, true)] ++ post))) as Hc'.
  { eapply carrier_update; [exact Hc|done|done|cbn; lia|exact Ho| |cbn; by destruct post as [|[] ]|].
    - cbn. rewrite andb_false_r, andb_true_r. split; [done|]. split; [done|]. split; [done|]. split; [done|]. split; [done|]. split; [|done].
      intros _ Hp. replace (A + want + (T - want) - W) with (A + T - W) by lia. by apply Hft.
    - cbn. by rewrite andb_false_r. }
  assert (total [(want, false); (T - want, true)] = T) as Et by (cbn; lia).
  exists (at_mid L1 L2 k csz pre post [(want, false); (T - want, true)]), (around L1 L2 k pre post false T), want.
  split; [|split; [|split; [|split; [lia|split; [by eapply around_data|split; done]]]]].
  - by eapply (heap_update L1 L2 k csz pre mid).
  - by rewrite heap_around, Hsel.
  - by rewrite heap_around, Et.
Qed.

Lemma resized_whole : want ≤ T → wf_size T → coalesced false post →
  bh (mem s') A T false (last_free true pre) (is_nil post) →
  match post with [] => True | (sz0, f0) :: post' => bh (mem s') (A + T) sz0 f0 false (is_nil post') end →
  fb_view (fbs s') (around L1 L2 k pre post true T) → blocks_curr s' = stat_of (Block A T :: around L1 L2 k pre post false T) →
  (∀ x, A + W ≤ x < A + Z.min want old → mem s' !! x = mem s !! x) →
  resized s (at_mid L1 L2 k csz pre post mid) A old want s'.
Proof using All.
  intros Hle Hsz Hco Hb Hnext Hfb Hst Hx. pose proof (at_mid_ok _ _ _ _ _ _ _ _ Hok) as Hc.
  assert (carrier_ok (mem s') (Carrier k csz (pre ++ [(T, false)] ++ post))) as Hc'.
  { eapply carrier_update; [exact Hc|done|done|cbn; lia|exact Ho| |cbn; by destruct post as [|[] ]|].
    - cbn. rewrite andb_true_r. done.
    - cbn. by rewrite andb_false_r. }
  assert (total [(T, false)] = T) as Et by (cbn; lia).
  exists (at_mid L1 L2 k csz pre post [(T, false)]), (around L1 L2 k pre post false T), T.
  split; [|split; [|split; [|split; [lia|split; [by eapply around_data|split; done]]]]].
  - by eapply (heap_update L1 L2 k csz pre mid).
  - by rewrite heap_around, Hsel.
  - by rewrite heap_around, Et.
Qed.
End Resize.

(** ** Shrinking *)
Lemma size_gap a b : is_size a → is_size b → b < a → 8 ≤ a - b.
Proof. intros [[p ->] _] [[q ->] _] H. lia. Qed.

Section Shrink.
Context (s : Allctr S) (L1 L2 : list carrier) (k csz : Z) (pre post : blocks) (old want p : Z).
Context (Hok : heap_ok s (at_mid L1 L2 k csz pre post [(old, false)])) (Hwant : wf_size want) (Hlt : want < old).
#[local] Abbreviation A := (k + total pre).

(** The facts about the block that the three cases share. *)
Lemma shrink_facts : wf_size old ∧ bh (mem s) A old false (last_free true pre) (is_nil post) ∧ coalesced false post ∧
  blocks_curr s = stat_of (Block A old :: around L1 L2 k pre post false old) ∧ fb_view (fbs s) (around L1 L2 k pre post true old) ∧
  select false A [(old, false)] = [Block A old] ∧ seg (mem s) (A + old) false post true ∧
  0 ≤ total pre ∧ 0 ≤ total post ∧ 4 * W ≤ mbc_header_size ≤ k ∧ A + old + total post ≤ LIMIT ∧ hdr_of post ≤ total post.
Proof using All.
  pose proof (at_mid_ok _ _ _ _ _ _ _ _ Hok) as Hc. destruct (pos_segs _ _ _ _ _ _ Hc) as (_ & (Hsz & Hb & _) & Hs). cbn [is_nil total] in Hb, Hs.
  rewrite andb_true_r in Hb. pose proof (pos_coalesced _ _ _ _ _ _ Hc) as [_ Hco]. pose proof (pos_range _ _ _ _ _ _ Hc) as (? & _ & ? & ? & ?). pose proof (hdr_of_le _ _ _ _ _ _ Hc).
  destruct Hok as (_ & _ & Hfb & _ & Hst). rewrite heap_around in Hfb, Hst. cbn [select eqb app total] in *. rewrite Z.add_0_r in *. done.
Qed.

Lemma shrink_mapped a n : k ≤ a → a + n ≤ A + old + total post → mapped (mem s) a n = true.
Proof using All.
  intros H1 H2. eapply (pos_mapped (mem s) k csz pre [(old, false)] post); [by eapply at_mid_ok|done|cbn; lia].
Qed.

Lemma shrink_keep : is_nil post || negb (match post with (_, f) :: _ => f | [] => false end) = true → old - want < min_block_size →
  wp (shrink_here p A old want (is_nil post)) s (λ r s', r = Some p ∧ resized s (at_mid L1 L2 k csz pre post [(old, false)]) A old want s').
Proof using All.
  intros Hpost Hmin. destruct shrink_facts as (Hsz & Hb & Hco & Hst & Hfb & Hsel & Hs & ? & ? & ? & ? & Hhp). pose proof (wf_size_pos _ Hsz). pose proof (wf_size_pos _ Hwant).
  unfold shrink_here. cbv zeta. rewrite Uint_word by lia. replace (old - want <? min_block_size) with true by lia.
  assert (resized s (at_mid L1 L2 k csz pre post [(old, false)]) A old want s) as Hres.
  { exists (at_mid L1 L2 k csz pre post [(old, false)]), (around L1 L2 k pre post false old), old. split; [done|].
    rewrite heap_around. cbn [select eqb app total]. rewrite Z.add_0_r. split; [done|]. split; [done|]. split; [lia|]. split; [apply Forall_forall; done|done]. }
  destruct post as [|[nsz nf] post'].
  - apply wp_bind, wp_ret. by apply wp_ret.
  - destruct Hs as (Hn & Hbn & _). destruct nf; [done|]. cbn [is_nil]. apply wp_bind. eapply wp_bind, wp_NXT_BLK; [exact Hb|apply Hsz|].
    eapply wp_bind, wp_IS_FREE_BLK; [exact Hbn|apply Hn|]. apply wp_ret. cbn. by apply wp_ret.
Qed.

(** The tail of [shrink_here], from the header of the rest on. *)
Definition shrink_tail (nxt_blk nxt_blk_sz : Z) (is_last_blk : bool) : M (S := S) unit :=
  (if is_last_blk then SET_LAST_BLK nxt_blk
   else
     nxt_nxt_blk ← NXT_BLK nxt_blk;
     f ← IS_FREE_BLK nxt_nxt_blk;
     if (f : bool) then
       sz ← BLK_SZ nxt_nxt_blk;
       let nxt_blk_sz := Uint (nxt_blk_sz + sz) in
       call_unlink_free_block nxt_nxt_blk;;
       SET_BLK_SZ nxt_blk nxt_blk_sz;;
       is_last_blk ← IS_LAST_BLK nxt_nxt_blk;
       if (is_last_blk : bool) then SET_LAST_BLK nxt_blk else SET_BLK_SZ_FTR nxt_blk nxt_blk_sz
     else
       SET_BLK_SZ_FTR nxt_blk nxt_blk_sz;;
       SET_PREV_BLK_FREE nxt_nxt_blk).

Section Tail.
Context (s3 : Allctr S) (m0 : memory).
Context (Hm3 : mem s3 = put_word UINT_SZ m0 (A + want) (hdr (old - want) true false false)) (Hb0 : bh m0 A want false (last_free true pre) false).
Context (Ho0 : only (mem s) m0 A (A + W)) (Hfb3 : fbs s3 = fbs s) (Hl3 : mbc_list s3 = mbc_list s) (Hs3 : sbc_list s3 = sbc_list s).
Context (Hst3 : blocks_curr s3 = stat_of (Block A want :: around L1 L2 k pre post false old)).

Definition shrunk (s' : Allctr S) : Prop := resized s (at_mid L1 L2 k csz pre post [(old, false)]) A old want s'.

Lemma tail_facts : 8 ≤ old - want ∧ is_size (old - want) ∧ bh (mem s3) (A + want) (old - want) true false false ∧ only (mem s) (mem s3) A (A + old) ∧
  bh (mem s3) A want false (last_free true pre) false ∧ (∀ x, A + W ≤ x < A + want → mem s3 !! x = mem s !! x) ∧
  (∀ a w, A + old ≤ a → load_word UINT_SZ (mem s) a = Some w → load_word UINT_SZ (mem s3) a = Some w).
Proof using All.
  destruct (shrink_facts) as (Hsz & _ & _ & _ & _ & _ & _ & ? & ? & ? & ? & _). pose proof (size_gap old want (proj1 Hsz) (proj1 Hwant) Hlt). pose proof W_cases.
  pose proof (wf_size_pos _ Hsz). pose proof (wf_size_pos _ Hwant). assert (is_size (old - want)) by (apply is_size_sub; [apply Hsz|apply Hwant|lia]).
  rewrite Hm3. split; [done|]. split; [done|]. split; [apply load_put_word; fold LIMIT; by apply is_size_hdr|].
  split; [apply only_put; [eapply only_mono; [exact Ho0|lia|lia]|lia|lia]|]. split; [unfold bh; by rewrite load_put_word_ne by (fold W; lia)|]. split.
  - intros x Hx. rewrite put_word_lookup by (fold W; lia). apply Ho0. lia.
  - intros a w Ha Hw. rewrite load_put_word_ne by (fold W; lia). rewrite (only_load _ _ _ _ _ Ho0) by lia. done.
Qed.

Lemma shrink_tail_last : post = [] → min_block_size ≤ old - want →
  wp (shrink_tail (A + want) (old - want) true;; call_link_free_block (A + want)) s3 (λ _, shrunk).
Proof using All.
  intros E Hmin. destruct tail_facts as (Hgap & Hrest & Hb3 & Ho3 & HbA & Hx3 & _). destruct shrink_facts as (Hsz & _ & _ & _ & Hfb & Hsel & _ & ? & ? & ? & ? & _).
  pose proof (wf_size_pos _ Hsz). pose proof (wf_size_pos _ Hwant). pose proof W_cases. cbn [shrink_tail].
  apply wp_bind. eapply wp_SET_LAST_BLK; [exact Hb3|done|]. set (m4 := put_word UINT_SZ (mem s3) (A + want) (hdr (old - want) true false true)).
  assert (bh m4 (A + want) (old - want) true false true) as Hb4 by (apply load_put_word; fold LIMIT; by apply is_size_hdr).
  eapply wp_link_view; [exact Hb4|done|cbn; rewrite Hfb3; exact Hfb|replace old with (total [(old, false)]) by (cbn; lia); eapply around_addr; [exact Hok|cbn; lia]|].
  intros fb Hfb'. eapply (resized_split s _ L1 L2 k csz pre [(old, false)] post); rewrite ?E in *; cbn [total is_nil] in *; rewrite ?Z.add_0_r in *; try done; try lia.
  - apply only_put; [eapply only_mono; [exact Ho3|lia|]|lia|]; unfold hdr_of; cbn [is_nil]; lia.
  - cbn. unfold bh. by rewrite load_put_word_ne by (fold W; lia).
  - intros x Hx. cbn. unfold m4. rewrite put_word_lookup by (fold W; lia). apply Hx3. lia.
Qed.

Lemma shrink_tail_alloced nsz post' : post = (nsz, false) :: post' → min_block_size ≤ old - want →
  wp (shrink_tail (A + want) (old - want) false;; call_link_free_block (A + want)) s3 (λ _, shrunk).
Proof using All.
  intros E Hmin. destruct tail_facts as (Hgap & Hrest & Hb3 & Ho3 & HbA & Hx3 & Hld). destruct shrink_facts as (Hsz & _ & Hco & _ & Hfb & Hsel & Hs & ? & ? & ? & ? & _).
  pose proof (wf_size_pos _ Hsz). pose proof (wf_size_pos _ Hwant). pose proof W_cases. pose proof min_size. pose proof shrink_mapped as Hmap. rewrite E in Hs, Hco. destruct Hs as (Hn & Hbn & _ & Hs').
  pose proof (wf_size_pos _ Hn). pose proof (seg_total _ _ _ _ _ Hs'). assert (total post = nsz + total post') as Etp by (by rewrite E). cbn [shrink_tail].
  apply Hld in Hbn; [|lia]. cbn [andb] in Hbn. apply wp_bind, wp_bind. eapply wp_NXT_BLK; [exact Hb3|done|]. replace (A + want + (old - want)) with (A + old) by lia.
  apply wp_bind. eapply wp_IS_FREE_BLK; [exact Hbn|apply Hn|]. apply wp_bind, wp_SET_BLK_SZ_FTR.
  { eapply only_mapped; [exact Ho3|]. apply Hmap; lia. }
  replace (A + want + (old - want) - W) with (A + old - W) by lia. set (m4 := put_word UINT_SZ (mem s3) (A + old - W) (old - want)).
  eapply (wp_SET_PREV_BLK_FREE _ _ nsz); [unfold bh; cbn; unfold m4; rewrite load_put_word_ne by (fold W; lia); exact Hbn|apply Hn|].
  set (m5 := put_word UINT_SZ m4 (A + old) (hdr nsz false true (is_nil post'))).
  assert (bh m5 (A + want) (old - want) true false false) as Hb5 by (unfold bh, m5, m4; by rewrite !load_put_word_ne by (fold W; lia)).
  eapply wp_link_view; [exact Hb5|done|cbn; rewrite Hfb3; exact Hfb|replace old with (total [(old, false)]) by (cbn; lia); eapply around_addr; [exact Hok|cbn; lia]|].
  intros fb Hfb'. eapply (resized_split s _ L1 L2 k csz pre [(old, false)] post); rewrite ?E in *; cbn [total is_nil] in *; rewrite ?Z.add_0_r in *; try done; try lia.
  - apply only_put; [apply only_put; [eapply only_mono; [exact Ho3|lia|]|lia|]|lia|]; unfold hdr_of; cbn [is_nil]; lia.
  - cbn. unfold bh, m5, m4. by rewrite !load_put_word_ne by (fold W; lia).
  - intros _. cbn. unfold m5, m4. rewrite load_put_word_ne by (fold W; lia). apply load_put_word. fold LIMIT. destruct Hrest; lia.
  - cbn. apply load_put_word. fold LIMIT. apply is_size_hdr, Hn.
  - intros x Hx. cbn. unfold m5, m4. rewrite !put_word_lookup by (fold W; lia). apply Hx3. lia.
Qed.

Lemma shrink_tail_free nsz post' : post = (nsz, true) :: post' →
  wp (shrink_tail (A + want) (old - want) false;; call_link_free_block (A + want)) s3 (λ _, shrunk).
Proof using All.
  intros E. destruct tail_facts as (Hgap & Hrest & Hb3 & Ho3 & HbA & Hx3 & Hld). destruct shrink_facts as (Hsz & _ & Hco & _ & Hfb & Hsel & Hs & ? & ? & ? & ? & _).
  pose proof (wf_size_pos _ Hsz). pose proof (wf_size_pos _ Hwant). pose proof W_cases. pose proof shrink_mapped as Hmap. pose proof (at_mid_ok _ _ _ _ _ _ _ _ Hok) as Hc.
  rewrite E in Hs, Hco. destruct Hs as (Hn & Hbn & _ & Hs'). destruct Hco as [_ Hco].
  pose proof (wf_size_pos _ Hn). pose proof (seg_total _ _ _ _ _ Hs'). assert (total post = nsz + total post') as Etp by (by rewrite E). cbn [shrink_tail].
  assert (at_mid L1 L2 k csz pre post [(old, false)] = at_mid L1 L2 k csz pre post' [(old, false); (nsz, true)]) as EL by (unfold at_mid; by rewrite E).
  assert (wf_size (old - want + nsz)) as Hnew by (split; [apply is_size_add; [done|apply Hn|lia]|destruct Hn; lia]).
  assert (around L1 L2 k pre post false old = around L1 L2 k pre post' false (old + nsz)) as Ear by (unfold around; rewrite E; cbn [select eqb app]; by rewrite (Z.add_assoc A old nsz)).
  assert (fb_view (fbs s3) (Block (A + old) nsz :: around L1 L2 k pre post' true (old + nsz))) as Hfb'.
  { rewrite Hfb3. eapply fb_view_perm; [|exact Hfb]. unfold around. rewrite E. cbn [select eqb app]. by rewrite perm_post, (Z.add_assoc A old nsz). }
  apply Hld in Hbn; [|lia]. cbn [andb] in Hbn. apply wp_bind, wp_bind. eapply wp_NXT_BLK; [exact Hb3|done|]. replace (A + want + (old - want)) with (A + old) by lia.
  apply wp_bind. eapply wp_IS_FREE_BLK; [exact Hbn|apply Hn|]. apply wp_bind. eapply wp_BLK_SZ; [exact Hbn|apply Hn|]. cbv zeta. rewrite Uint_word by lia.
  apply wp_bind. eapply wp_unlink_view; [exact Hfb'|]. intros fb1 Hfb1.
  apply wp_bind. eapply wp_SET_BLK_SZ; [exact Hb3|done|apply Hnew|]. set (m4 := put_word UINT_SZ (mem s3) (A + want) (hdr (old - want + nsz) true false false)).
  assert (bh m4 (A + want) (old - want + nsz) true false false) as Hb4 by (apply load_put_word; fold LIMIT; apply is_size_hdr, Hnew).
  apply wp_bind. eapply (wp_IS_LAST_BLK _ _ nsz); [unfold bh; cbn; rewrite load_put_word_ne by (fold W; lia); exact Hbn|apply Hn|].
  assert (∀ s' free, heap_ok s' (at_mid L1 L2 k csz pre post' [(old, false); (nsz, true)]) → Forall (λ b, blk_addr b ≠ A + want) (around L1 L2 k pre post' free (old + nsz))) as Hadr.
  { intros s' free Hok'. replace (old + nsz) with (total [(old, false); (nsz, true)]) by (cbn; lia). eapply around_addr; [exact Hok'|cbn; lia]. }
  unfold shrunk. rewrite EL in *. rewrite Ear in Hst3. clear EL Ear Etp Hfb' Hfb.
  destruct post' as [|[sz0 f0] post'']; cbn [is_nil] in *.
  - eapply wp_SET_LAST_BLK; [exact Hb4|apply Hnew|]. set (m5 := put_word UINT_SZ m4 (A + want) (hdr (old - want + nsz) true false true)).
    assert (bh m5 (A + want) (old - want + nsz) true false true) as Hb5 by (apply load_put_word; fold LIMIT; apply is_size_hdr, Hnew).
    eapply wp_link_view; [exact Hb5|apply Hnew|exact Hfb1|by eapply Hadr|]. intros fb Hfb.
    eapply (resized_split s _ L1 L2 k csz pre [(old, false); (nsz, true)] []); cbn [total is_nil last_free] in *; rewrite ?Z.add_0_r;
      rewrite ?(Z.add_sub_swap old nsz want); try done; try lia.
    + apply only_put; [apply only_put; [eapply only_mono; [exact Ho3|lia|]|lia|]|lia|]; unfold hdr_of; cbn [is_nil]; lia.
    + cbn. unfold bh, m5, m4. by rewrite !load_put_word_ne by (fold W; lia).
    + intros x Hx. cbn. unfold m5, m4. rewrite !put_word_lookup by (fold W; lia). apply Hx3. lia.
  - destruct Hs' as (Hn0 & Hb0' & _). cbn [andb] in Hb0'. replace (A + old + nsz) with (A + (old + nsz)) in Hb0' by lia. apply Hld in Hb0'; [|lia].
    pose proof (wf_size_pos _ Hn0). apply wp_SET_BLK_SZ_FTR.
    { cbn. apply mapped_put. eapply only_mapped; [exact Ho3|]. apply Hmap; rewrite ?E; cbn [total] in *; lia. }
    replace (A + want + (old - want + nsz) - W) with (A + (old + nsz) - W) by lia. set (m5 := put_word UINT_SZ m4 (A + (old + nsz) - W) (old - want + nsz)).
    assert (bh m5 (A + want) (old - want + nsz) true false false) as Hb5 by (unfold bh, m5; by rewrite load_put_word_ne by (fold W; lia)).
    eapply wp_link_view; [exact Hb5|apply Hnew|exact Hfb1|by eapply Hadr|]. intros fb Hfb.
    eapply (resized_split s _ L1 L2 k csz pre [(old, false); (nsz, true)] ((sz0, f0) :: post'')); cbn [total is_nil last_free] in *; rewrite ?Z.add_0_r;
      rewrite ?(Z.add_sub_swap old nsz want); try done; try lia.
    + apply only_put; [apply only_put; [eapply only_mono; [exact Ho3|lia|]|lia|]|lia|]; unfold hdr_of; cbn [is_nil]; lia.
    + cbn. unfold bh, m5, m4. by rewrite !load_put_word_ne by (fold W; lia).
    + intros _. cbn. apply load_put_word. fold LIMIT. destruct Hnew as [[_ ?] _]. lia.
    + cbn. unfold bh, m5, m4. rewrite !load_put_word_ne by (fold W; lia). exact Hb0'.
    + intros x Hx. cbn. unfold m5, m4. rewrite !put_word_lookup by (fold W; lia). apply Hx3. lia.
Qed.
End Tail.

(** The block is split, not kept as it is. *)
Lemma shrink_main : (∃ nsz post', post = (nsz, true) :: post') ∨ min_block_size ≤ old - want →
  wp (SET_BLK_SZ A want;; SET_NOT_LAST_BLK A;; nxt_blk ← NXT_BLK A; SET_BLK_HDR nxt_blk (old - want) THIS_FREE_BLK_HDR_FLG;;
      STAT_MBC_BLK_FREE old;; STAT_MBC_BLK_ALLOC want;;
      shrink_tail nxt_blk (old - want) (is_nil post);; call_link_free_block nxt_blk;; mret (Some p)) s (λ r s', r = Some p ∧ shrunk s').
Proof using All.
  intros Hcase. destruct shrink_facts as (Hsz & Hb & _ & Hst & _ & _ & _ & ? & ? & ? & ? & _). pose proof (wf_size_pos _ Hsz). pose proof (wf_size_pos _ Hwant). pose proof W_cases.
  pose proof (size_gap old want (proj1 Hsz) (proj1 Hwant) Hlt). pose proof shrink_mapped as Hmap.
  assert (is_size (old - want)) as Hrest by (apply is_size_sub; [apply Hsz|apply Hwant|lia]).
  apply wp_bind. eapply wp_SET_BLK_SZ; [exact Hb|apply Hsz|apply Hwant|]. set (m1 := put_word UINT_SZ (mem s) A (hdr want false (last_free true pre) (is_nil post))).
  assert (bh m1 A want false (last_free true pre) (is_nil post)) as Hb1 by (apply load_put_word; fold LIMIT; apply is_size_hdr, Hwant).
  apply wp_bind. eapply wp_SET_NOT_LAST_BLK; [exact Hb1|apply Hwant|]. set (m2 := put_word UINT_SZ m1 A (hdr want false (last_free true pre) false)).
  assert (bh m2 A want false (last_free true pre) false) as Hb2 by (apply load_put_word; fold LIMIT; apply is_size_hdr, Hwant).
  apply wp_bind. eapply wp_NXT_BLK; [exact Hb2|apply Hwant|].
  apply wp_bind. eapply (wp_SET_BLK_HDR _ _ _ _ true false false); [cbn; apply mapped_put, mapped_put, Hmap; lia|done|done|].
  apply wp_bind. eapply wp_stat_free; [exact Hst|done|]. apply wp_bind. eapply (wp_stat_alloc _ (Block A want)); [done|done|]. intros mx.
  assert (only (mem s) m2 A (A + W)) as Ho2 by (apply only_put; [apply only_put; [apply only_refl|lia|lia]|lia|lia]).
  eapply wp_then_ret; [|intros s' Hs'; split; [done|exact Hs']].
  destruct (is_nil post) eqn:En.
  - assert (post = []) as E by (by destruct post). destruct Hcase as [(? & ? & ?)|Hmin]; [congruence|]. by eapply (shrink_tail_last _ m2).
  - assert (∃ nsz f post', post = (nsz, f) :: post') as (nsz & f & post' & E) by (destruct post as [|[]]; [done|eauto]). destruct f.
    + by eapply (shrink_tail_free _ m2).
    + destruct Hcase as [(? & ? & ?)|Hmin]; [congruence|]. by eapply (shrink_tail_alloced _ m2).
Qed.

Lemma shrink_here_spec : wp (shrink_here p A old want (is_nil post)) s (λ r s', r = Some p ∧ shrunk s').
Proof using All.
  pose proof shrink_keep as Hkeep. pose proof shrink_main as Hmain. destruct shrink_facts as (Hsz & Hb & _ & _ & _ & _ & Hs & _). pose proof (wf_size_pos _ Hsz). pose proof (wf_size_pos _ Hwant).
  destruct (decide (min_block_size ≤ old - want)) as [Hmin|Hmin].
  - unfold shrink_here. cbv zeta. rewrite Uint_word by lia. replace (old - want <? min_block_size) with false by lia. apply wp_bind.
    eapply (wp_mono _ _ (λ _ s', s' = s)); [|intros keep s' ->; rewrite andb_false_r; apply Hmain; by right].
    destruct (is_nil post) eqn:En; [by apply wp_ret|]. assert (∃ nsz f post', post = (nsz, f) :: post') as (nsz & f & post' & E) by (destruct post as [|[]]; [done|eauto]).
    rewrite E in Hs. destruct Hs as (Hn & Hbn & _). eapply wp_bind, wp_NXT_BLK; [exact Hb|apply Hsz|]. eapply wp_bind, wp_IS_FREE_BLK; [exact Hbn|apply Hn|]. by apply wp_ret.
  - destruct (is_nil post || negb (match post with (_, f) :: _ => f | [] => false end)) eqn:Ek; [apply Hkeep; [done|lia]|].
    assert (∃ nsz post', post = (nsz, true) :: post') as (nsz & post' & E) by (destruct post as [|[? []]]; [done|eauto|done]).
    unfold shrink_here. cbv zeta. rewrite Uint_word by lia. rewrite E in Hs. destruct Hs as (Hn & Hbn & _).
    assert (is_nil post = false) as En by (by rewrite E). rewrite En in *. apply wp_bind. eapply wp_bind, wp_NXT_BLK; [exact Hb|apply Hsz|].
    eapply wp_bind, wp_IS_FREE_BLK; [exact Hbn|apply Hn|]. apply wp_ret. cbn [negb andb]. apply Hmain. left. eauto.
Qed.
End Shrink.

(** ** Growing into the next block *)
Section Grow.
Context (s : Allctr S) (L1 L2 : list carrier) (k csz : Z) (pre post : blocks) (old nsz want p : Z).
Context (Hok : heap_ok s (at_mid L1 L2 k csz pre post [(old, false); (nsz, true)])) (Hwant : wf_size want) (Hlt : old < want) (Hle : want ≤ old + nsz).
#[local] Abbreviation A := (k + total pre).
#[local] Abbreviation T := (old + nsz).

Definition grown (s' : Allctr S) : Prop := resized s (at_mid L1 L2 k csz pre post [(old, false); (nsz, true)]) A old want s'.

Lemma grow_facts : wf_size old ∧ wf_size nsz ∧ wf_size T ∧ bh (mem s) A old false (last_free true pre) false ∧ bh (mem s) (A + old) nsz true false (is_nil post) ∧
  coalesced true post ∧ blocks_curr s = stat_of (Block A old :: around L1 L2 k pre post false T) ∧
  fb_view (fbs s) (Block (A + old) nsz :: around L1 L2 k pre post true T) ∧ seg (mem s) (A + T) true post true ∧
  0 ≤ total pre ∧ 0 ≤ total post ∧ 4 * W ≤ mbc_header_size ≤ k ∧ A + T + total post ≤ LIMIT ∧ hdr_of post ≤ total post ∧
  (∀ a n, k ≤ a → a + n ≤ A + T + total post → mapped (mem s) a n = true).
Proof using All.
  pose proof (at_mid_ok _ _ _ _ _ _ _ _ Hok) as Hc. destruct (pos_segs _ _ _ _ _ _ Hc) as (_ & (Hsz & Hb & _ & Hn & Hbn & _) & Hs). cbn [is_nil total last_free] in Hb, Hbn, Hs.
  rewrite andb_false_r in Hb. rewrite andb_true_r in Hbn. pose proof (pos_coalesced _ _ _ _ _ _ Hc) as (_ & _ & Hco). pose proof (pos_range _ _ _ _ _ _ Hc) as (? & _ & ? & ? & ?).
  pose proof (hdr_of_le _ _ _ _ _ _ Hc). pose proof (wf_size_pos _ Hsz). pose proof (wf_size_pos _ Hn). pose proof W_cases. pose proof (pos_mapped _ _ _ _ _ _ Hc) as Hmap. cbn [total] in *.
  assert (wf_size T) as HT by (split; [apply is_size_add; [apply Hsz|apply Hn|lia]|destruct Hsz; lia]).
  destruct Hok as (_ & _ & Hfb & _ & Hst). rewrite heap_around in Hfb, Hst. cbn [select eqb app total] in *. rewrite Z.add_0_r in *.
  repeat (split; [done || lia|]). intros a n ? ?. apply Hmap; lia.
Qed.

Lemma grow_whole : T - want < min_block_size → wp (grow_into_next p A old want (A + old) nsz) s (λ r s', r = Some p ∧ grown s').
Proof using All.
  intros Hmin. destruct grow_facts as (Hsz & Hn & HT & Hb & Hbn & Hco & Hst & Hfb & Hs & ? & ? & ? & ? & Hhp & Hmap). pose proof (wf_size_pos _ Hsz). pose proof (wf_size_pos _ Hn).
  pose proof (wf_size_pos _ Hwant). pose proof (wf_size_pos _ HT). pose proof W_cases. unfold grow_into_next.
  apply wp_bind. eapply wp_unlink_view; [exact Hfb|]. intros fb Hfb'. cbv zeta. rewrite Uint_word by lia. replace (nsz - (want - old)) with (T - want) by lia.
  apply wp_bind. eapply wp_IS_LAST_BLK; [exact Hbn|apply Hn|]. replace (T - want <? min_block_size) with true by lia. rewrite Uint_word by lia. replace (want + (T - want)) with T by lia.
  apply wp_bind, wp_bind. eapply wp_SET_BLK_SZ; [exact Hb|apply Hsz|apply HT|]. set (m1 := put_word UINT_SZ (mem s) A (hdr T false (last_free true pre) false)).
  assert (bh m1 A T false (last_free true pre) false) as Hb1 by (apply load_put_word; fold LIMIT; apply is_size_hdr, HT).
  apply wp_bind. apply (wp_mono _ _ (λ _ s', ∃ m2, s' = set_mem m2 (set_fbs fb s) ∧ bh m2 A T false (last_free true pre) (is_nil post) ∧
    match post with [] => True | (sz0, f0) :: post' => bh m2 (A + T) sz0 f0 false (is_nil post') end ∧ only (mem s) m2 A (A + T + hdr_of post) ∧
    ∀ x, A + W ≤ x < A + T → m2 !! x = mem s !! x)).
  { unfold hdr_of in *. pose proof Hhp as Hhp'. destruct post as [|[sz0 f0] post']; cbn [is_nil] in *.
    - eapply wp_SET_LAST_BLK; [exact Hb1|apply HT|]. exists (put_word UINT_SZ m1 A (hdr T false (last_free true pre) true)). split; [done|].
      split; [apply load_put_word; fold LIMIT; apply is_size_hdr, HT|]. split; [done|]. split; [apply only_put; [apply only_put; [apply only_refl|lia|lia]|lia|lia]|].
      intros x Hx. unfold m1. by rewrite !put_word_lookup by (fold W; lia).
    - destruct Hs as (Hn0 & Hb0 & _). cbn [andb] in Hb0. apply wp_bind. eapply wp_NXT_BLK; [exact Hb1|apply HT|].
      eapply (wp_SET_PREV_BLK_ALLOCED _ _ sz0); [unfold bh; cbn; rewrite load_put_word_ne by (fold W; lia); exact Hb0|apply Hn0|].
      exists (put_word UINT_SZ m1 (A + T) (hdr sz0 f0 false (is_nil post'))). split; [done|].
      split; [unfold bh; by rewrite load_put_word_ne by (fold W; lia)|]. split; [apply load_put_word; fold LIMIT; apply is_size_hdr, Hn0|].
      split; [apply only_put; [apply only_put; [apply only_refl|lia|lia]|lia|lia]|]. intros x Hx. unfold m1. by rewrite !put_word_lookup by (fold W; lia). }
  intros u s' (m2 & -> & Hb2 & Hnext & Ho2 & Hx2). apply wp_ret, wp_bind. eapply wp_stat_free; [exact Hst|done|]. apply wp_bind. eapply (wp_stat_alloc _ (Block A T)); [done|done|]. intros mx.
  apply wp_ret. split; [done|]. unfold grown.
  assert (total [(old, false); (nsz, true)] = T) as Et by (cbn; lia). eapply (resized_whole s _ L1 L2 k csz pre [(old, false); (nsz, true)] post); rewrite ?Et; try done; try lia.
  - by apply coalesced_weaken.
  - intros x Hx. apply Hx2. lia.
Qed.

Lemma grow_split : min_block_size ≤ T - want → wp (grow_into_next p A old want (A + old) nsz) s (λ r s', r = Some p ∧ grown s').
Proof using All.
  intros Hmin. destruct grow_facts as (Hsz & Hn & HT & Hb & Hbn & Hco & Hst & Hfb & Hs & ? & ? & ? & ? & Hhp & Hmap). pose proof (wf_size_pos _ Hsz). pose proof (wf_size_pos _ Hn).
  pose proof (wf_size_pos _ Hwant). pose proof (wf_size_pos _ HT). pose proof W_cases. pose proof min_size. unfold grow_into_next.
  assert (wf_size (T - want)) as Hrest by (split; [apply is_size_sub; [apply HT|apply Hwant|lia]|lia]).
  assert (total [(old, false); (nsz, true)] = T) as Et by (cbn; lia).
  assert (Forall (λ b, blk_addr b ≠ A + want) (around L1 L2 k pre post true T)) as Hadr by (rewrite <- Et; eapply around_addr; [exact Hok|rewrite Et; lia]).
  apply wp_bind. eapply wp_unlink_view; [exact Hfb|]. intros fb Hfb'. cbv zeta. rewrite Uint_word by lia. replace (nsz - (want - old)) with (T - want) by lia.
  apply wp_bind. eapply wp_IS_LAST_BLK; [exact Hbn|apply Hn|]. replace (T - want <? min_block_size) with false by lia.
  apply wp_bind, wp_bind. eapply wp_SET_BLK_SZ; [exact Hb|apply Hsz|apply Hwant|]. set (m1 := put_word UINT_SZ (mem s) A (hdr want false (last_free true pre) false)).
  assert (bh m1 A want false (last_free true pre) false) as Hb1 by (apply load_put_word; fold LIMIT; apply is_size_hdr, Hwant).
  apply wp_bind. eapply wp_NXT_BLK; [exact Hb1|apply Hwant|]. apply wp_bind. eapply (wp_SET_BLK_HDR _ _ _ _ true false false); [cbn; apply mapped_put, Hmap; lia|apply Hrest|done|].
  set (m2 := put_word UINT_SZ m1 (A + want) (hdr (T - want) true false false)).
  assert (bh m2 (A + want) (T - want) true false false) as Hb2 by (apply load_put_word; fold LIMIT; apply is_size_hdr, Hrest).
  apply wp_bind. apply (wp_mono _ _ (λ _ s', ∃ m3, s' = set_mem m3 (set_fbs fb s) ∧ bh m3 A want false (last_free true pre) false ∧ bh m3 (A + want) (T - want) true false (is_nil post) ∧
    (is_nil post = false → load_word UINT_SZ m3 (A + T - W) = Some (T - want)) ∧ only (mem s) m3 A (A + T) ∧ ∀ x, A + W ≤ x < A + want → m3 !! x = mem s !! x)).
  { destruct (is_nil post).
    - eapply wp_SET_LAST_BLK; [exact Hb2|apply Hrest|]. exists (put_word UINT_SZ m2 (A + want) (hdr (T - want) true false true)). split; [done|].
      split; [unfold bh, m2; by rewrite !load_put_word_ne by (fold W; lia)|]. split; [apply load_put_word; fold LIMIT; apply is_size_hdr, Hrest|]. split; [done|].
      split; [unfold m2, m1; repeat apply only_put; try lia; apply only_refl|]. intros x Hx. unfold m2, m1. by rewrite !put_word_lookup by (fold W; lia).
    - apply wp_SET_BLK_SZ_FTR; [cbn; apply mapped_put, mapped_put, Hmap; lia|]. replace (A + want + (T - want) - W) with (A + T - W) by lia.
      exists (put_word UINT_SZ m2 (A + T - W) (T - want)). split; [done|].
      split; [unfold bh, m2; by rewrite !load_put_word_ne by (fold W; lia)|]. split; [unfold bh; by rewrite !load_put_word_ne by (fold W; lia)|].
      split; [intros _; apply load_put_word; fold LIMIT; lia|]. split; [unfold m2, m1; repeat apply only_put; try lia; apply only_refl|].
      intros x Hx. unfold m2, m1. by rewrite !put_word_lookup by (fold W; lia). }
  intros u s' (m3 & -> & Hb3 & Hb3' & Hft & Ho3 & Hx3). apply wp_bind. eapply wp_link_view; [exact Hb3'|apply Hrest|exact Hfb'|exact Hadr|]. intros fb2 Hfb2. apply wp_ret.
  apply wp_bind. eapply wp_stat_free; [exact Hst|done|]. apply wp_bind. eapply (wp_stat_alloc _ (Block A want)); [done|done|]. intros mx. apply wp_ret. split; [done|]. unfold grown.
  assert (0 ≤ hdr_of post) by (unfold hdr_of; destruct (is_nil post); lia).
  eapply (resized_split s _ L1 L2 k csz pre [(old, false); (nsz, true)] post); rewrite ?Et; try done; try lia.
  - eapply only_mono; [exact Ho3|lia|lia].
  - cbn [mem set_blocks set_fbs set_mem]. destruct post as [|[sz0 f0] post']; [done|]. destruct Hs as (_ & Hb0 & _). unfold bh in *. rewrite (only_load _ _ _ _ _ Ho3) by lia. exact Hb0.
  - intros x Hx. apply Hx3. lia.
Qed.
End Grow.

End Realloc.
