(* ===== verification/AllocMove.v ===== *)
(** [mbc_realloc]: moving a block, and the whole function. *)

From Stdlib Require Import Lia ZArith Sorting.Sorted.
From stdpp Require Import base numbers list option gmap sorting.
From S2P Require Import Prelude FreeBlocks AllocMem AllocUtil AllocHdr AllocCarrier AllocFree AllocAlloc AllocRealloc.
Open Scope Z_scope.

Section Move.
Context {ac : AllocConfig} {S : Type} {ops : FreeBlockOps S} {laws : FreeBlockLaws S}.
Implicit Types (s : Allctr S) (L : list carrier) (pre post mid : blocks).

(** ** Copying *)
Definition copied (m m' : memory) (dst src n : Z) : Prop := only m m' dst (dst + n) ∧ ∀ i, 0 ≤ i < n → m' !! (dst + i) = m !! (src + i).

Lemma wp_memmove s dst src n Q : 0 ≤ n → mapped (mem s) src n = true → mapped (mem s) dst n = true →
  (∀ m', copied (mem s) m' dst src n → Q tt (set_mem m' s)) → wp (memmove dst src n) s Q.
Proof.
  intros Hn Hs Hd HQ. destruct (mem_bytes_mapped _ _ _ Hs) as [l El]. pose proof El as (Hl & Hli)%mem_bytes_spec; [|done].
  exists tt, (set_mem (put_bytes (mem s) dst l) s). unfold memmove, sys_memmove. rewrite El. cbn. rewrite Hd. split; [done|]. apply HQ. split; [split|].
  - intros x Hx. rewrite put_bytes_lookup, bool_decide_eq_false_2 by lia. done.
  - intros x Hx. rewrite put_bytes_lookup. case_bool_decide; [apply lookup_lt_is_Some_2; lia|done].
  - intros i Hi. rewrite put_bytes_lookup, bool_decide_eq_true_2 by lia. rewrite Hli by done. f_equal. lia.
Qed.

Lemma wp_memcpy s dst src n Q : 0 ≤ n → mapped (mem s) src n = true → mapped (mem s) dst n = true → dst + n ≤ src ∨ src + n ≤ dst →
  (∀ m', copied (mem s) m' dst src n → Q tt (set_mem m' s)) → wp (memcpy dst src n) s Q.
Proof.
  intros Hn Hs Hd Hdis HQ. destruct (wp_memmove s dst src n Q Hn Hs Hd HQ) as (x & s' & E & H). exists x, s'. split; [|done].
  unfold memcpy, sys_memcpy. replace (overlap dst src n) with false; [exact E|]. unfold overlap. lia.
Qed.

(** ** Writing into an allocated block, or outside of the carriers *)
Lemma block_mapped s L free b : heap_ok s L → b ∈ heap_sel free L → mapped (mem s) (blk_addr b) (FreeBlocks.BLK_SZ b) = true.
Proof.
  intros (HL & _) Hb. destruct (heap_sel_range _ _ _ _ HL Hb) as (c & Hc & ? & ? & _). rewrite Forall_forall in HL. destruct (HL c Hc) as (_ & _ & _ & _ & _ & _ & _ & _ & Hm).
  rewrite mapped_spec in *. intros x Hx. apply Hm. unfold c_hi in *. lia.
Qed.

Lemma mapped_sub m a n b k : mapped m a n = true → a ≤ b → b + k ≤ a + n → mapped m b k = true.
Proof. rewrite !mapped_spec. intros H ? ? x ?. apply H. lia. Qed.

Lemma user_write s L b m' : heap_ok s L → b ∈ heap_allocs L → only (mem s) m' (blk_addr b + W) (blk_addr b + FreeBlocks.BLK_SZ b) →
  heap_ok (set_mem m' s) L ∧ ∀ rest, heap_allocs L ≡ₚ b :: rest → Forall (user_same (mem s) m') rest.
Proof.
  intros Hok Hb Ho. destruct (heap_split _ _ _ Hb) as (L1 & L2 & k & csz & pre & post & -> & Ha). rewrite Ha in Ho. set (sz := FreeBlocks.BLK_SZ b) in *.
  pose proof (at_mid_ok _ _ _ _ _ _ _ _ Hok) as Hc. destruct (pos_segs _ _ _ _ _ _ Hc) as (_ & (Hsz & Hbh & _) & Hs). pose proof (wf_size_pos _ Hsz). pose proof W_cases.
  assert (total [(sz, false)] = sz) as Et by (cbn; lia). assert (0 ≤ hdr_of post) by (unfold hdr_of; destruct (is_nil post); lia).
  assert (only (mem s) m' (k + total pre) (k + total pre + total [(sz, false)] + hdr_of post)) as Ho' by (eapply only_mono; [exact Ho|lia|lia]).
  pose proof Hok as (_ & _ & Hfb & _ & Hst). rewrite heap_around in Hfb, Hst. cbn [select eqb app] in Hfb, Hst. split.
  - eapply (heap_update L1 L2 k csz pre [(sz, false)]); [exact Hok| |done|exact Ho'|exact Hfb|done|exact Hst].
    eapply carrier_update; [exact Hc|done|done|done|exact Ho'| | |by eapply pos_coalesced].
    + cbn. split; [done|]. split; [|done]. unfold bh in *. rewrite (only_load _ _ _ _ _ Ho) by lia. exact Hbh.
    + destruct post as [|[sz0 f0] post']; [done|]. destruct Hs as (_ & Hb0 & _). unfold bh in *. rewrite (only_load _ _ _ _ _ Ho) by lia. exact Hb0.
  - intros rest Hp. rewrite heap_around in Hp. cbn [select eqb app] in Hp. assert (b = Block (k + total pre) sz) as Eb by (rewrite <- Ha; by destruct b).
    rewrite Eb in Hp. apply Permutation_cons_inv in Hp. rewrite <- Hp. eapply around_data; [exact Hok|exact Ho'].
Qed.

Lemma outside_write s L m' lo hi : heap_ok s L → Forall (λ c, c_hi c ≤ lo ∨ hi ≤ c_lo c) L → only (mem s) m' lo hi →
  heap_ok (set_mem m' s) L ∧ Forall (user_same (mem s) m') (heap_allocs L).
Proof.
  intros Hok Hap Ho. pose proof Hok as (HL & Hs & Hfb & Hml & Hst). split.
  - split; [|done]. rewrite Forall_forall in *. intros c Hc. eapply carrier_ext; [exact Ho| |by apply HL]. specialize (Hap c Hc). lia.
  - apply Forall_forall. intros b Hb x Hx. apply Ho. destruct (heap_sel_range _ _ _ _ HL Hb) as (c & Hc & ? & ? & _). rewrite Forall_forall in Hap. specialize (Hap c Hc).
    pose proof W_cases. lia.
Qed.

(** Two blocks do not overlap. *)
Lemma blocks_apart s L b1 b2 rest : heap_ok s L → heap_allocs L ≡ₚ b1 :: b2 :: rest →
  blk_addr b2 + FreeBlocks.BLK_SZ b2 ≤ blk_addr b1 ∨ blk_addr b1 + FreeBlocks.BLK_SZ b1 ≤ blk_addr b2.
Proof.
  intros Hok Hp. assert (b1 ∈ heap_allocs L) as Hb by (rewrite Hp; by left). destruct (heap_split _ _ _ Hb) as (L1 & L2 & k & csz & pre & post & -> & Ha).
  rewrite heap_around in Hp. cbn [select eqb app] in Hp. assert (b1 = Block (k + total pre) (FreeBlocks.BLK_SZ b1)) as Eb by (rewrite <- Ha; by destruct b1).
  rewrite <- Eb in Hp. apply Permutation_cons_inv in Hp. assert (b2 ∈ around L1 L2 k pre post false (total [(FreeBlocks.BLK_SZ b1, false)])) as Hb2 by (rewrite Hp; by left).
  destruct (around_user _ _ _ _ _ _ _ _ _ _ Hok Hb2) as [H _]. cbn [total] in H. lia.
Qed.

(** ** Copy and free *)
Lemma copy_free s L p old q n : heap_ok s L → Block (p - W) old ∈ heap_allocs L → 0 ≤ n ≤ old - W → mapped (mem s) q n = true → q + n ≤ p ∨ p + n ≤ q →
  (∀ m', only (mem s) m' q (q + n) → heap_ok (set_mem m' s) L) →
  wp (memcpy q p n;; mbc_free p;; mret (Some q)) s (λ r s', r = Some q ∧ ∃ m', copied (mem s) m' q p n ∧ free_post (set_mem m' s) L (Block (p - W) old) s').
Proof.
  intros Hok Hb Hn Hm Hdis Hw. pose proof W_cases. pose proof (block_mapped _ _ _ _ Hok Hb) as Hmb. cbn in Hmb. apply wp_bind, wp_memcpy; [lia|eapply mapped_sub; [exact Hmb|lia|lia]|done|done|].
  intros m' Hcp. apply wp_bind. eapply wp_mono; [apply (mbc_free_spec _ L p old); [apply Hw, Hcp|done]|]. intros u s' Hp. apply wp_ret. split; [done|]. by exists m'.
Qed.

(** ** The result *)
Definition realloc_post (s : Allctr S) (L : list carrier) (p old sz : Z) (sbc : answer) (r : option Z) (s' : Allctr S) : Prop :=
  match r with
  | None => s' = s
  | Some q => ∃ L' rest, heap_ok s' L' ∧ heap_allocs L ≡ₚ Block (p - W) old :: rest ∧
      ((∃ sz', heap_allocs L' ≡ₚ Block (q - W) sz' :: rest ∧ UMEMSZ2BLKSZ sz ≤ sz' ∧ sbc_list s' = sbc_list s) ∨
       (heap_allocs L' ≡ₚ rest ∧ ∃ crr bytes, sbc = Some (crr, bytes) ∧ q = crr + sbc_header_size + W ∧ sbc_list s' = sbc_list s ++ [crr])) ∧
      Forall (user_same (mem s) (mem s')) rest ∧ ∀ i, 0 ≤ i < Z.min sz (old - W) → mem s' !! (q + i) = mem s !! (p + i)
  end.

Lemma user_same_trans m1 m2 m3 l : Forall (user_same m1 m2) l → Forall (user_same m2 m3) l → Forall (user_same m1 m3) l.
Proof. rewrite !Forall_forall. intros H1 H2 b Hb x Hx. rewrite (H2 b Hb x Hx). by apply (H1 b Hb). Qed.

(** Into a block of a multiblock carrier. *)
Lemma move_mbc s L p old sz sbc q s2 : heap_ok s L → Block (p - W) old ∈ heap_allocs L → wf_size old → 0 ≤ sz → sz + W ≤ UMEMSZ2BLKSZ sz →
  alloc_post s L (q - W) (UMEMSZ2BLKSZ sz) s2 →
  wp (memcpy q p (Z.min sz (old - W));; mbc_free p;; mret (Some q)) s2 (realloc_post s L p old sz sbc).
Proof.
  intros Hok Hb Hold Hsz0 Hsz (L2 & sz2 & Hok2 & Hp2 & Hle & Hu2 & _ & _ & Esb). pose proof (wf_size_pos _ Hold). pose proof W_cases. set (n := Z.min sz (old - W)).
  apply elem_of_Permutation in Hb as Hrest. destruct Hrest as [rest Hrest]. rewrite Hrest in Hp2, Hu2. apply Forall_cons in Hu2 as [HuA Hurest].
  set (bq := Block (q - W) sz2) in *. assert (bq ∈ heap_allocs L2) as Hbq by (rewrite Hp2; by left).
  pose proof (block_mapped _ _ _ _ Hok2 Hbq) as Hmq. pose proof (blocks_apart _ _ _ _ _ Hok2 Hp2) as Hap. cbn in Hmq, Hap.
  assert (∀ m', only (mem s2) m' q (q + n) → only (mem s2) m' (blk_addr bq + W) (blk_addr bq + FreeBlocks.BLK_SZ bq)) as Hmono.
  { intros m' Ho. eapply only_mono; [exact Ho|cbn; lia|cbn; lia]. }
  eapply wp_mono.
  { apply (copy_free s2 L2 p old q n); [done|rewrite Hp2; right; by left|lia|eapply mapped_sub; [exact Hmq|lia|lia]|lia|].
    intros m' Ho. by apply (user_write _ _ bq), Hmono. }
  intros r s4 [-> (m3 & [Ho3 Hcp] & L4 & Hok4 & Hp4 & Hu4 & _ & _ & Es4 & _)]. destruct (user_write s2 L2 bq m3 Hok2 Hbq (Hmono _ Ho3)) as [_ Hu3]. specialize (Hu3 _ Hp2).
  apply Forall_cons in Hu3 as [_ Hu3]. assert (heap_allocs L4 ≡ₚ bq :: rest) as Hp4'.
  { apply (Permutation_cons_inv (a := Block (p - W) old)). rewrite <- Hp4, Hp2. constructor. }
  rewrite Hp4' in Hu4. apply Forall_cons in Hu4 as [Huq Hu4]. exists L4, rest. split; [done|]. split; [done|]. split; [left; exists sz2; split; [done|]; split; [done|]; by rewrite Es4|].
  split; [by eapply user_same_trans; [exact Hurest|eapply user_same_trans]|].
  intros i Hi. rewrite Huq by (cbn; lia). cbn. rewrite Hcp by done. apply HuA. cbn. lia.
Qed.

(** Into a carrier of its own. *)
Lemma move_sbc s L p old sz sbc q s2 : heap_ok s L → Block (p - W) old ∈ heap_allocs L → wf_size old → 0 ≤ sz → sz + W ≤ UMEMSZ2BLKSZ sz →
  region_ok (mem s) (sbc_header_size + UMEMSZ2BLKSZ sz) sbc → sbc_post s L sz sbc q s2 →
  wp (memcpy q p (Z.min sz (old - W));; mbc_free p;; mret (Some q)) s2 (realloc_post s L p old sz sbc).
Proof.
  intros Hok Hb Hold Hsz0 Hsz Hreg (crr & bytes & -> & -> & Hok2 & He & _ & _ & _ & Esbc). destruct Hreg as (Hcrr & _ & _ & Hneed & Hfresh).
  pose proof (wf_size_pos _ Hold). pose proof W_cases. pose proof sbc_header_size_ok as Hh. fold W in Hh. set (n := Z.min sz (old - W)). set (q := crr + sbc_header_size + W).
  pose proof Hok as (HL & _). destruct (carriers_extend _ _ _ _ _ HL He Hfresh ltac:(lia)) as [_ Hap]. destruct (allocs_extend _ _ _ _ _ false HL He Hfresh ltac:(lia)) as [Hu2 _].
  apply elem_of_Permutation in Hb as Hrest. destruct Hrest as [rest Hrest].
  assert (∀ m', only (mem s2) m' q (q + n) → heap_ok (set_mem m' s2) L ∧ Forall (user_same (mem s2) m') (heap_allocs L)) as Hw.
  { intros m' Ho. eapply (outside_write _ _ _ crr (crr + zlen bytes)); [done|done|]. eapply only_mono; [exact Ho|lia|lia]. }
  assert (crr + zlen bytes ≤ p - W ∨ p - W + old ≤ crr) as Hdis.
  { destruct (heap_sel_range _ _ _ _ HL Hb) as (c & Hc & ? & ? & _). rewrite Forall_forall in Hap. specialize (Hap c Hc). cbn in *. lia. }
  eapply wp_mono.
  { apply (copy_free s2 L p old q n); [done|done|lia| |lia|by intros m' Ho; apply Hw]. destruct He as [_ He]. apply mapped_spec. intros x Hx. apply He. lia. }
  intros r s4 [-> (m3 & [Ho3 Hcp] & L4 & Hok4 & Hp4 & Hu4 & Hout & _ & Es4 & _)]. destruct (Hw _ Ho3) as [_ Hu3]. rewrite Hrest in Hu2, Hu3, Hp4. apply Permutation_cons_inv in Hp4. rewrite <- Hp4 in Hu4.
  apply Forall_cons in Hu2 as [HuA Hu2]. apply Forall_cons in Hu3 as [_ Hu3]. exists L4, rest. split; [done|]. split; [done|]. split.
  { right. split; [done|]. exists crr, bytes. split; [done|]. split; [done|]. by rewrite Es4. }
  split; [by eapply user_same_trans; [exact Hu2|eapply user_same_trans]|].
  intros i Hi. destruct (Hout (q + i)) as [-> _]; [|cbn; rewrite Hcp by done; apply HuA; cbn; lia].
  unfold outside. eapply Forall_impl; [exact Hap|]. intros c Hc. cbn in Hc. lia.
Qed.

(** ** Into the free block before *)
Lemma seg_size m bs e : ∀ a pf, seg m a pf bs e → total bs < LIMIT → bs ≠ [] → wf_size (total bs).
Proof.
  induction bs as [|[sz f] bs IH]; intros a pf Hs Hlt Hne; [done|]. cbn [seg total] in *. destruct Hs as (Hsz & _ & _ & Hs). pose proof (wf_size_pos _ Hsz).
  pose proof (seg_total _ _ _ _ _ Hs). destruct bs as [|b bs]; [cbn; by rewrite Z.add_0_r|]. destruct (IH _ _ Hs ltac:(lia) ltac:(done)) as [H1 H2].
  destruct Hsz as [H3 H4]. split; [by apply is_size_add|]. lia.
Qed.

Lemma flags_last f pf l l' : Z.lor (flags f pf l) (4 * b2z l') = flags f pf (l || l').
Proof. by destruct f, pf, l, l'. Qed.

Section Back.
Context (s : Allctr S) (L1 L2 : list carrier) (k csz : Z) (pre : blocks) (psz old sz : Z) (sbc : answer).
#[local] Abbreviation A := (k + total pre).
#[local] Abbreviation want := (UMEMSZ2BLKSZ sz).
#[local] Abbreviation p := (A + psz + W).
Context (Hwant : wf_size want) (Hsz : sz + W ≤ want) (Hsz0 : 0 ≤ sz).

(** From the copy on: [mid] is the free block before, the block, and a free block behind it if there is one. *)
Lemma back_tail s1 mid post : heap_ok s (at_mid L1 L2 k csz pre post mid) → total mid < LIMIT → psz + old ≤ total mid → want ≤ total mid → wf_size psz → wf_size old →
  select false A mid = [Block (A + psz) old] → last_free false pre = false → coalesced true post → mem s1 = mem s → mbc_list s1 = mbc_list s → sbc_list s1 = sbc_list s → blocks_curr s1 = blocks_curr s →
  fb_view (fbs s1) (around L1 L2 k pre post true (total mid)) →
  wp ((if psz >=? Z.min want old then memcpy (BLK2UMEM A) p (Z.min want old - ABLK_HDR_SZ) else memmove (BLK2UMEM A) p (Z.min want old - ABLK_HDR_SZ));;
      mbc_alloc_finalize A (total mid) (flags true (last_free true pre) (is_nil post)) want false;; STAT_MBC_BLK_FREE old;; mret (Some (BLK2UMEM A))) s1
    (realloc_post s (at_mid L1 L2 k csz pre post mid) p old sz sbc).
Proof using All.
  intros Hok HT Hin Hle Hpsz Hold Hsel Hlf Hco Em El Esb Eb Hfb. pose proof (at_mid_ok _ _ _ _ _ _ _ _ Hok) as Hc. destruct (pos_segs _ _ _ _ _ _ Hc) as (_ & Hs & _).
  pose proof (pos_range _ _ _ _ _ _ Hc) as (? & ? & ? & ? & ?). pose proof (wf_size_pos _ Hpsz). pose proof (wf_size_pos _ Hold). pose proof (wf_size_pos _ Hwant). pose proof W_cases.
  assert (mid ≠ []) as Hne by (by destruct mid). assert (wf_size (total mid)) as Hwf by by eapply seg_size. unfold BLK2UMEM, ABLK_HDR_SZ. set (n := Z.min want old - W).
  assert (∀ a b, k ≤ a → a + b ≤ A + total mid → mapped (mem s1) a b = true) as Hmap by (intros; rewrite Em; eapply pos_mapped; [exact Hc|lia|lia]).
  apply wp_bind. apply (wp_mono _ _ (λ _ s', ∃ m', copied (mem s) m' (A + W) p n ∧ s' = set_mem m' s1)).
  { destruct (Z.geb_spec psz (Z.min want old)); [apply wp_memcpy; [lia|apply Hmap; lia|apply Hmap; lia|lia|]|apply wp_memmove; [lia|apply Hmap; lia|apply Hmap; lia|]];
      intros m' Hcp; exists m'; rewrite <- Em; done. }
  intros u s2 (m2 & [Ho2 Hcp] & ->). pose proof Hok as (_ & _ & _ & _ & Hst). rewrite heap_around, Hsel in Hst. cbn [app] in Hst.
  apply wp_bind. eapply wp_mono.
  { eapply (finalize_spec s (set_mem m2 s1) L1 L2 k csz pre mid post want (Block (A + psz) old :: around L1 L2 k pre post false (total mid)) true true false); try done.
    - eapply only_mono; [exact Ho2|lia|lia].
    - cbn. by rewrite Eb. }
  intros u' s3 (new & sz' & m3 & fb3 & mx & -> & Htot & Hsel' & Hle' & Hc3 & Ho3 & Hx3 & Hfb3).
  apply wp_bind. eapply (wp_stat_free _ (Block (A + psz) old) (Block A sz' :: around L1 L2 k pre post false (total mid))); [cbn; apply stat_of_proper; constructor|done|].
  apply wp_ret. exists (at_mid L1 L2 k csz pre post new), (around L1 L2 k pre post false (total mid)). replace (p - W) with (A + psz) by lia. replace (A + W - W) with A by lia.
  split; [|split; [by rewrite heap_around, Hsel|split; [left; exists sz'; by rewrite heap_around, Htot, Hsel'|split; [by eapply around_data|]]]].
  - eapply (heap_update L1 L2 k csz pre mid new post s); try done. cbn. by rewrite Hsel'.
  - intros i Hi. cbn. rewrite Hx3 by lia. cbn. apply Hcp. lia.
Qed.

(** The size of the free block behind. *)
Definition next_free_sz (bs : blocks) : Z := match bs with (nsz, true) :: _ => nsz | _ => 0 end.

Lemma move_back post : heap_ok s (at_mid L1 L2 k csz (pre ++ [(psz, true)]) post [(old, false)]) → want ≤ psz + old + next_free_sz post →
  wp (move_into_new_blk p (A + psz) sz want old (is_nil post) None A) s
    (realloc_post s (at_mid L1 L2 k csz (pre ++ [(psz, true)]) post [(old, false)]) p old sz sbc).
Proof using All.
  intros Hok Hle. pose proof (at_mid_ok _ _ _ _ _ _ _ _ Hok) as Hc. destruct (pos_segs _ _ _ _ _ _ Hc) as (Hpre & (Hold & Hb & _) & Hs).
  destruct (free_footer _ _ _ _ _ _ Hpre eq_refl) as [Hft Hpsz]. apply seg_app in Hpre as [Hpre0 (_ & Hpb & _)]. pose proof (seg_total _ _ _ _ _ Hpre0).
  pose proof (pos_range _ _ _ _ _ _ Hc) as (? & _ & ? & ? & ?). pose proof Hok as (_ & _ & Hfb & _). rewrite heap_around in Hfb. cbn [select eqb app] in Hfb.
  pose proof Hc as (_ & _ & _ & _ & _ & Hco & _). cbn [c_bs] in Hco. rewrite <- app_assoc in Hco. apply coalesced_app in Hco as [_ (Hlf & _ & Hco)]. rewrite andb_true_r in Hlf. cbn [coalesced app] in Hco.
  rewrite total_app in *. cbn [total is_nil app] in *. rewrite Z.add_0_r, ?andb_true_r in *.
  match type of Hs with seg _ ?a _ _ _ => replace a with (A + psz + old) in Hs by lia end. match type of Hb with bh _ ?a _ _ _ _ => replace a with (A + psz) in Hb by lia end.
  pose proof (wf_size_pos _ Hpsz). pose proof (wf_size_pos _ Hold). pose proof W_cases.
  unfold move_into_new_blk. apply wp_bind. eapply wp_PREV_BLK_SZ; [exact Hft|apply Hpsz|]. cbv zeta. rewrite Uint_word by lia.
  apply wp_bind. eapply wp_GET_BLK_HDR_FLGS; [exact Hpb|apply Hpsz|].
  apply wp_bind. eapply (wp_unlink_view _ _ psz); [eapply fb_view_perm; [|exact Hfb]; unfold around; rewrite select_app; cbn [select eqb]; apply perm_pre|]. intros fb Hfb1.
  rewrite total_app in Hfb1. cbn [total] in Hfb1. rewrite Z.add_0_r in Hfb1.
  apply wp_bind. destruct post as [|[nsz nf] post']; cbn [is_nil].
  - apply wp_ret. cbn [next_free_sz] in Hle. assert (total [(psz, true); (old, false)] = psz + old) as Et by (cbn; lia).
    assert (at_mid L1 L2 k csz (pre ++ [(psz, true)]) [] [(old, false)] = at_mid L1 L2 k csz pre [] [(psz, true); (old, false)]) as EL by (unfold at_mid; by rewrite <- app_assoc).
    rewrite EL in *. rewrite <- Et. change LAST_BLK_HDR_FLG with (4 * b2z true). rewrite flags_last, orb_true_r. apply (back_tail (set_fbs fb s) _ []); rewrite ?Et; try done; try lia.
  - destruct Hs as (Hn & Hbn & _ & Hs'). pose proof (wf_size_pos _ Hn). pose proof (seg_total _ _ _ _ _ Hs'). cbn [total] in *.
    apply wp_bind. eapply wp_NXT_BLK; [exact Hb|apply Hold|]. apply wp_bind. eapply wp_IS_FREE_BLK; [exact Hbn|apply Hn|]. destruct nf; cbn [next_free_sz] in Hle.
    + apply wp_bind. eapply wp_GET_LAST_BLK_HDR_FLG; [exact Hbn|apply Hn|]. apply wp_bind. eapply wp_BLK_SZ; [exact Hbn|apply Hn|].
      apply wp_bind. eapply (wp_unlink_view _ _ nsz).
      { eapply fb_view_perm; [|exact Hfb1]. cbn [select eqb app]. rewrite perm_post. replace (k + (total pre + psz) + old) with (A + psz + old) by lia. done. }
      intros fb2 Hfb2. apply wp_ret. rewrite flags_last, Uint_word by lia. cbn [orb andb].
      assert (total [(psz, true); (old, false); (nsz, true)] = psz + old + nsz) as Et by (cbn; lia).
      assert (at_mid L1 L2 k csz (pre ++ [(psz, true)]) ((nsz, true) :: post') [(old, false)] = at_mid L1 L2 k csz pre post' [(psz, true); (old, false); (nsz, true)]) as EL by (unfold at_mid; by rewrite <- app_assoc).
      rewrite EL in *. rewrite <- Et. destruct Hco as [_ Hco]. apply (back_tail (set_fbs fb2 (set_fbs fb s))); rewrite ?Et; try done; try lia.
      cbn [fbs set_fbs]. unfold around. by replace (k + total pre + (psz + old + nsz)) with (A + psz + old + nsz) by lia.
    + apply wp_ret. assert (total [(psz, true); (old, false)] = psz + old) as Et by (cbn; lia).
      assert (at_mid L1 L2 k csz (pre ++ [(psz, true)]) ((nsz, false) :: post') [(old, false)] = at_mid L1 L2 k csz pre ((nsz, false) :: post') [(psz, true); (old, false)]) as EL by (unfold at_mid; by rewrite <- app_assoc).
      rewrite EL in *. rewrite <- Et. apply (back_tail (set_fbs fb s) _ ((nsz, false) :: post')); rewrite ?Et; try done; try lia.
      cbn [fbs set_fbs]. unfold around. by replace (k + total pre + (psz + old)) with (k + (total pre + psz) + old) by lia.
Qed.

End Back.

(** ** The whole function *)

(** The free block before, if there is one. *)
Lemma prev_cases pre : (∃ pre0 psz, pre = pre0 ++ [(psz, true)]) ∨ (negb (is_nil pre) && last_free true pre = false).
Proof. destruct pre as [|[psz [|]] pre0 _] using rev_ind; [by right|left; eauto|]. right. rewrite last_free_app, is_nil_app. cbn. by rewrite andb_false_r. Qed.

Section Whole.
Context (s : Allctr S) (L1 L2 : list carrier) (k csz : Z) (pre post : blocks) (old sz : Z) (sbc : answer).
#[local] Abbreviation A := (k + total pre).
#[local] Abbreviation want := (UMEMSZ2BLKSZ sz).
#[local] Abbreviation p := (A + W).
#[local] Abbreviation L := (at_mid L1 L2 k csz pre post [(old, false)]).
Context (Hok : heap_ok s L) (Hwant : wf_size want) (Hsz : sz + W ≤ want) (Hsz0 : 0 ≤ sz) (Hsbc : region_ok (mem s) (sbc_header_size + want) sbc).

Lemma in_allocs : Block (p - W) old ∈ heap_allocs L.
Proof using All. replace (p - W) with A by lia. rewrite heap_around. by left. Qed.

Lemma resized_post s' : resized s L A old want s' → realloc_post s L p old sz sbc (Some p) s'.
Proof using All.
  intros (L' & rest & sz' & Hok' & Hp & Hp' & Hle & Hu & Hx & Esb). exists L', rest. replace (p - W) with A by lia. split; [done|]. split; [done|]. split; [left; by exists sz'|].
  split; [done|]. intros i Hi. apply Hx. lia.
Qed.

Lemma same_post : want ≤ old → realloc_post s L p old sz sbc (Some p) s.
Proof using All.
  intros Hle. apply resized_post. exists L, (around L1 L2 k pre post false (total [(old, false)])), old. split; [done|].
  rewrite heap_around. split; [done|]. split; [done|]. split; [done|]. split; [apply Forall_forall; done|done].
Qed.

Lemma block_facts : wf_size old ∧ bh (mem s) A old false (last_free true pre) (is_nil post) ∧ seg (mem s) (A + old) false post true ∧
  0 ≤ total pre ∧ 0 ≤ total post ∧ 4 * W ≤ k ∧ A + old + total post ≤ LIMIT.
Proof using All.
  pose proof (at_mid_ok _ _ _ _ _ _ _ _ Hok) as Hc. destruct (pos_segs _ _ _ _ _ _ Hc) as (_ & (Hold & Hb & _) & Hs). pose proof (pos_range _ _ _ _ _ _ Hc) as (? & _ & ? & ? & ?).
  cbn [is_nil total last_free] in *. rewrite andb_true_r, Z.add_0_r in *. repeat (split; [done || lia|]). lia.
Qed.

Lemma move_new fb b l' il cand : heap_frees L ≡ₚ b :: l' → want ≤ FreeBlocks.BLK_SZ b → fb_view fb l' →
  wp (move_into_new_blk p A sz want old il (Some (blk_addr b)) cand) (set_fbs fb s) (realloc_post s L p old sz sbc).
Proof using All.
  intros Hp Hle Hfb. destruct block_facts as [Hold _]. pose proof in_allocs as Hin. pose proof W_cases. assert (b ∈ heap_frees L) as Hb by (rewrite Hp; by left).
  destruct (heap_split _ _ _ Hb) as (M1 & M2 & k' & csz' & pre' & post' & EL & Ha). set (L0 := L) in *. clearbody L0. subst L0. rewrite Ha. cbn [move_into_new_blk].
  apply wp_bind. eapply wp_mono; [eapply (finalize_block_spec s (set_fbs fb s) M1 M2 k' csz' pre' post' (FreeBlocks.BLK_SZ b)); [|done|done]|].
  { split; [done|]. split; [exists (fbs s); by destruct s|]. cbn [fbs set_fbs]. eapply fb_view_perm; [|exact Hfb]. apply (Permutation_cons_inv (a := b)).
    rewrite <- Hp, heap_around. cbn [select eqb app total]. rewrite Z.add_0_r, <- Ha. by destruct b. }
  intros u s2 Hpost. cbv zeta. unfold BLK2UMEM, ABLK_HDR_SZ.
  apply (move_mbc s _ p old sz sbc (k' + total pre' + W) s2); try done. by replace (k' + total pre' + W - W) with (k' + total pre') by lia.
Qed.

Lemma wp_prev_is_free Q : Q (negb (is_nil pre) && last_free true pre) s → wp (prev_is_free A) s Q.
Proof using All.
  intros HQ. destruct block_facts as (Hold & Hb & _). pose proof (at_mid_ok _ _ _ _ _ _ _ _ Hok) as Hc. unfold prev_is_free.
  apply wp_bind. eapply wp_IS_PREV_BLK_FREE; [exact Hb|apply Hold|]. destruct (last_free true pre) eqn:E; [|rewrite andb_false_r in HQ; by apply wp_ret].
  rewrite andb_true_r in HQ. apply wp_bind. eapply (wp_first s k csz pre old false post); [exact Hc|]. by apply wp_ret.
Qed.

Lemma wp_add_next_free z Q : Q (Uint (z + next_free_sz post)) s → 0 ≤ z → z < LIMIT → wp (add_next_free A z (is_nil post)) s Q.
Proof using All.
  intros HQ Hz Hz'. destruct block_facts as (Hold & Hb & Hs & _). unfold add_next_free. destruct (is_nil post) eqn:En.
  - assert (next_free_sz post = 0) as E by (by destruct post). rewrite E, Z.add_0_r, Uint_word in HQ by lia. by apply wp_ret.
  - assert (∃ nsz f post', post = (nsz, f) :: post') as (nsz & f & post' & E) by (destruct post as [|[]]; [done|eauto]). rewrite E in Hs, HQ. destruct Hs as (Hn & Hbn & _).
    apply wp_bind. eapply wp_NXT_BLK; [exact Hb|apply Hold|]. apply wp_bind. eapply wp_IS_FREE_BLK; [exact Hbn|apply Hn|]. destruct f; cbn [next_free_sz] in HQ.
    + apply wp_bind. eapply wp_BLK_SZ; [exact Hbn|apply Hn|]. by apply wp_ret.
    + rewrite Z.add_0_r, Uint_word in HQ by lia. by apply wp_ret.
Qed.

(** The footer of the free block before. *)
Lemma prev_facts pre0 psz : pre = pre0 ++ [(psz, true)] → load_word UINT_SZ (mem s) (A - W) = Some psz ∧ wf_size psz ∧ A - psz = k + total pre0 ∧ 0 ≤ total pre0.
Proof using All.
  intros E. pose proof (at_mid_ok _ _ _ _ _ _ _ _ Hok) as Hc. destruct (pos_segs _ _ _ _ _ _ Hc) as (Hpre & _). rewrite E in Hpre. destruct (free_footer _ _ _ _ _ _ Hpre eq_refl) as [Hft Hpsz].
  apply seg_app in Hpre as [Hpre0 _]. apply seg_total in Hpre0. rewrite E, total_app. cbn [total]. rewrite Z.add_0_r, Z.add_assoc. repeat (split; [done || lia|]). done.
Qed.

Lemma move_prev pre0 psz : pre = pre0 ++ [(psz, true)] → want ≤ psz + old + next_free_sz post →
  wp (move_into_new_blk p A sz want old (is_nil post) None (k + total pre0)) s (realloc_post s L p old sz sbc).
Proof using All.
  intros E Hle. pose proof (move_back s L1 L2 k csz pre0 psz old sz sbc Hwant Hsz Hsz0 post) as H. rewrite <- E in H. specialize (H Hok Hle).
  destruct (prev_facts _ _ E) as (_ & _ & Ea & _). replace (k + total pre0 + psz) with A in H by lia. exact H.
Qed.

Lemma shrink_path (fail_move b : bool) : want < old →
  wp (if b then
        if fail_move then mret None
        else
          prev ← prev_is_free A;
          '(cand_blk, cand_blk_sz) ←
            (if (prev : bool) then b ← PREV_BLK A; psz ← PREV_BLK_SZ A; mret (b, Uint (old + psz)) else mret (A, old));
          cand_blk_sz ← add_next_free A cand_blk_sz (is_nil post);
          new_blk ← call_get_free_block want (Some (cand_blk, cand_blk_sz));
          if bool_decide (new_blk ≠ None ∨ cand_blk ≠ A)
          then move_into_new_blk p A sz want old (is_nil post) new_blk cand_blk
          else shrink_here p A old want (is_nil post)
      else shrink_here p A old want (is_nil post)) s (realloc_post s L p old sz sbc).
Proof using All.
  intros Hlt. destruct block_facts as (Hold & Hb & Hs & ? & ? & ? & ?). pose proof (wf_size_pos _ Hold). pose proof (wf_size_pos _ Hwant). pose proof W_cases.
  assert (wp (shrink_here p A old want (is_nil post)) s (realloc_post s L p old sz sbc)) as Hhere.
  { eapply wp_mono; [by eapply (shrink_here_spec s L1 L2 k csz pre post old want p)|]. intros r s' [-> Hres]. by apply resized_post. }
  destruct b; [|done]. destruct fail_move; [by apply wp_ret|]. pose proof Hok as (_ & _ & Hfb & _).
  apply wp_bind, wp_prev_is_free, wp_bind. destruct (prev_cases pre) as [(pre0 & psz & E)|Hno].
  - destruct (prev_facts _ _ E) as (Hft & Hpsz & Ea & ?). pose proof (wf_size_pos _ Hpsz). assert (negb (is_nil pre) && last_free true pre = true) as Et by (rewrite E, is_nil_app, last_free_app; cbn; by rewrite andb_false_r).
    rewrite Et. apply wp_bind. eapply wp_PREV_BLK; [exact Hft|apply Hpsz|]. apply wp_bind. eapply wp_PREV_BLK_SZ; [exact Hft|apply Hpsz|]. apply wp_ret. rewrite Ea.
    assert (Uint (old + psz) = old + psz) as EU by (apply Uint_word; lia). rewrite EU. apply wp_bind, wp_add_next_free; [|lia|lia].
    apply wp_bind. eapply wp_get_view; [exact Hfb| |].
    + intros fb b l' Hp Hle Hfb'. rewrite bool_decide_eq_true_2 by (by left). by eapply move_new.
    + rewrite bool_decide_eq_true_2 by (right; lia). eapply (move_prev _ _ E). unfold next_free_sz. destruct post as [|[nsz []] ?]; try lia. destruct Hs as (?%wf_size_pos & _). lia.
  - rewrite Hno. apply wp_ret, wp_bind, wp_add_next_free; [|lia|lia]. apply wp_bind. eapply wp_get_view; [exact Hfb| |].
    + intros fb b l' Hp Hle Hfb'. rewrite bool_decide_eq_true_2 by (by left). by eapply move_new.
    + rewrite bool_decide_eq_false_2 by (intros [Hn|Hn]; done). exact Hhere.
Qed.

Lemma alloc_path mseg mbc : region_ok (mem s) (mbc_header_size + want) mbc →
  wp (new_p ← mbc_alloc sz mseg mbc sbc;
      match new_p with
      | None => mret None
      | Some new_p => memcpy new_p p (Z.min sz (old - ABLK_HDR_SZ));; mbc_free p;; mret (Some new_p)
      end) s (realloc_post s L p old sz sbc).
Proof using All.
  intros Hmbc. destruct block_facts as [Hold _]. pose proof in_allocs as Hin. apply wp_bind. eapply wp_mono; [by eapply (mbc_alloc_spec s L)|].
  intros [q|] s' Hp; cbn in Hp; [|subst; by apply wp_ret]. destruct Hp as [Hp|Hp]; [by apply move_mbc|by apply move_sbc].
Qed.

Lemma grow_path_next nsz post' : post = (nsz, true) :: post' → old < want → want ≤ old + nsz →
  wp (grow_into_next p A old want (A + old) nsz) s (realloc_post s L p old sz sbc).
Proof using All.
  intros E Hlt Hle. assert (L = at_mid L1 L2 k csz pre post' [(old, false); (nsz, true)]) as EL by (unfold at_mid; by rewrite E). pose proof Hok as Hok'. rewrite EL in Hok'.
  apply (wp_mono _ _ (λ r s', r = Some p ∧ grown s L1 L2 k csz pre post' old nsz want s')).
  - destruct (decide (min_block_size ≤ old + nsz - want)); [by apply grow_split|apply grow_whole; done || lia].
  - intros r s' [-> Hg]. unfold grown in Hg. rewrite <- EL in Hg. by apply resized_post.
Qed.

Lemma grow_path_move mseg mbc : old < want → region_ok (mem s) (mbc_header_size + want) mbc →
  wp (prev ← prev_is_free A;
      '(cand, cand_blk_sz) ←
        (if (prev : bool) then
           b ← PREV_BLK A; psz ← PREV_BLK_SZ A; csz ← add_next_free A (Uint (old + psz)) (is_nil post); mret (Some b, csz)
         else mret (None, 0));
      match (if cand_blk_sz <? want then None else cand) with
      | None =>
          new_p ← mbc_alloc sz mseg mbc sbc;
          match new_p with
          | None => mret None
          | Some new_p => memcpy new_p p (Z.min sz (old - ABLK_HDR_SZ));; mbc_free p;; mret (Some new_p)
          end
      | Some cand_blk =>
          new_blk ← call_get_free_block want (Some (cand_blk, cand_blk_sz));
          move_into_new_blk p A sz want old (is_nil post) new_blk cand_blk
      end) s (realloc_post s L p old sz sbc).
Proof using All.
  intros Hlt Hmbc. destruct block_facts as (Hold & Hb & Hs & ? & ? & ? & ?). pose proof (wf_size_pos _ Hold). pose proof (wf_size_pos _ Hwant). pose proof W_cases.
  pose proof Hok as (_ & _ & Hfb & _). apply wp_bind, wp_prev_is_free, wp_bind. destruct (prev_cases pre) as [(pre0 & psz & E)|Hno].
  - destruct (prev_facts _ _ E) as (Hft & Hpsz & Ea & ?). pose proof (wf_size_pos _ Hpsz). assert (negb (is_nil pre) && last_free true pre = true) as Et by (rewrite E, is_nil_app, last_free_app; cbn; by rewrite andb_false_r).
    assert (0 ≤ next_free_sz post ≤ total post) as Hnf.
    { unfold next_free_sz. destruct post as [|[nsz []] post']; cbn [total] in *; try lia. destruct Hs as (?%wf_size_pos & _ & _ & ?%seg_total). lia. }
    rewrite Et. apply wp_bind. eapply wp_PREV_BLK; [exact Hft|apply Hpsz|]. apply wp_bind. eapply wp_PREV_BLK_SZ; [exact Hft|apply Hpsz|]. rewrite Ea.
    assert (Uint (old + psz) = old + psz) as EU by (apply Uint_word; lia). rewrite EU. apply wp_bind, wp_add_next_free; [|lia|lia].
    assert (Uint (old + psz + next_free_sz post) = old + psz + next_free_sz post) as EU2 by (apply Uint_word; lia). rewrite EU2. apply wp_ret.
    destruct (Z.ltb_spec (old + psz + next_free_sz post) want); [by apply alloc_path|]. apply wp_bind. eapply wp_get_view; [exact Hfb| |].
    + intros fb b l' Hp Hle Hfb'. by eapply move_new.
    + eapply (move_prev _ _ E). lia.
  - rewrite Hno. apply wp_ret. replace (0 <? want) with true by lia. by apply alloc_path.
Qed.
End Whole.

Lemma mbc_realloc_spec s L p old sz fail_move mseg mbc sbc : heap_ok s L → Block (p - W) old ∈ heap_allocs L → wf_size (UMEMSZ2BLKSZ sz) → sz + W ≤ UMEMSZ2BLKSZ sz → 0 ≤ sz →
  region_ok (mem s) (mbc_header_size + UMEMSZ2BLKSZ sz) mbc → region_ok (mem s) (sbc_header_size + UMEMSZ2BLKSZ sz) sbc →
  wp (mbc_realloc p sz fail_move mseg mbc sbc) s (realloc_post s L p old sz sbc).
Proof.
  intros Hok Hin Hwant Hsz Hsz0 Hmbc Hsbc. destruct (heap_split _ _ _ Hin) as (L1 & L2 & k & csz & pre & post & -> & Ha). cbn [blk_addr FreeBlocks.BLK_SZ] in *.
  assert (p = k + total pre + W) as -> by lia. pose proof W_cases. destruct (block_facts s L1 L2 k csz pre post old sz sbc Hok Hwant Hsz Hsz0 Hsbc) as (Hold & Hb & Hs & ? & ? & ? & ?).
  pose proof (wf_size_pos _ Hold). pose proof (wf_size_pos _ Hwant). set (want := UMEMSZ2BLKSZ sz) in *.
  unfold mbc_realloc, UMEM2BLK, ABLK_HDR_SZ. rewrite Ha. cbv zeta. apply wp_bind. eapply wp_BLK_SZ; [exact Hb|apply Hold|]. apply wp_bind. eapply wp_IS_LAST_BLK; [exact Hb|apply Hold|].
  fold want. destruct (Z.eqb_spec old want) as [E|Hne]; [apply wp_ret, same_post; try done; fold want; lia|].
  destruct (Z.ltb_spec want old) as [Hlt|Hge].
  { destruct (_ >=? _); apply shrink_path; done. }
  apply wp_bind. apply (wp_mono _ _ (λ r s', s' = s ∧ match r with
    | Some (nxt, nsz) => nxt = k + total pre + old ∧ want ≤ old + nsz ∧ ∃ post', post = (nsz, true) :: post' | None => True end)).
  { destruct post as [|[nsz f] post']; [by apply wp_ret|]. cbn [is_nil]. destruct Hs as (Hn & Hbn & _ & ?%seg_total). pose proof (wf_size_pos _ Hn). cbn [total] in *.
    apply wp_bind. eapply wp_NXT_BLK; [exact Hb|apply Hold|]. apply wp_bind. eapply wp_BLK_SZ; [exact Hbn|apply Hn|]. apply wp_bind. eapply wp_IS_FREE_BLK; [exact Hbn|apply Hn|].
    apply wp_ret. rewrite Uint_word by lia. split; [done|]. destruct f; [|done]. cbn [andb]. destruct (Z.leb_spec want (old + nsz)); [|done]. eauto. }
  intros [[nxt nsz]|] s' [-> Hn].
  - destruct Hn as (-> & Hle & post' & ->). by eapply grow_path_next; try done; fold want; lia.
  - destruct fail_move; [by apply wp_ret|]. apply grow_path_move; try done. fold want. lia.
Qed.

End Move.
