(* ===== verification/AllocReach.v ===== *)
(** The height of the trees of free blocks, and the states that an allocator can get to: the live memory of the client, what every operation keeps of it. *)

From Stdlib Require Import Lia ZArith Sorting.Sorted.
From stdpp Require Import base numbers list option gmap sorting.
From S2P Require Import Prelude Rbt RbtSpec FreeBlocks BestFit BestFitSpec AllocMem AllocUtil AllocHdr AllocCarrier AllocFree AllocAlloc AllocRealloc AllocMove.
Open Scope Z_scope.

(** ** The height of a red-black tree *)
Section Height.
Context {A : Type}.

Fixpoint height (t : tree A) : nat := match t with Leaf => 0 | Node _ l _ r => S (Nat.max (height l) (height r)) end.

Lemma rb_height (t : tree A) c n : rb t c n → (height t ≤ 2 * n + match c with Red => 1 | Black => 0 end)%nat.
Proof. induction 1 as [|l x r n _ IHl _ IHr|l x r cl cr n _ IHl _ IHr]; cbn [height]; [lia|lia|]. destruct cl, cr; lia. Qed.

Lemma rb_elems (t : tree A) c n : rb t c n → (2 ^ n ≤ S (length (elems t)))%nat.
Proof.
  induction 1 as [|l x r n _ IHl _ IHr|l x r cl cr n _ IHl _ IHr]; cbn [elems length]; [done|..]; rewrite length_app; cbn [length]; [lia|].
  rewrite Nat.pow_succ_r'. lia.
Qed.

Lemma rb_tree_height (t : tree A) : rb_tree t → (2 ^ height t ≤ S (length (elems t)) * S (length (elems t)))%nat.
Proof.
  intros [n H]. pose proof (rb_height _ _ _ H) as Hh. cbn in Hh. pose proof (rb_elems _ _ _ H). transitivity (2 ^ (2 * n))%nat; [apply Nat.pow_le_mono_r; lia|].
  replace (2 * n)%nat with (n + n)%nat by lia. rewrite Nat.pow_add_r. by apply Nat.mul_le_mono.
Qed.
End Height.

(** ** What the allocator can be asked, and where it can get *)
Section Allocator.
Context {ac : AllocConfig} {S : Type} {ops : FreeBlockOps S} {laws : FreeBlockLaws S}.
Implicit Types (s : Allctr S) (live : list (Z * Z)).

(** [erts_alcu_start]: everything is cleared. *)
Definition init_state : Allctr S := Alc ∅ fb_init [] [] None (Stat 0 0) (Stat 0 0).

(** A request for [sz] bytes, with the answers of the system to a request for a carrier. *)
Definition request_ok (s : Allctr S) (sz : Z) (mbc sbc : answer) : Prop :=
  0 ≤ sz ∧ sz + W + 8 ≤ LIMIT ∧ region_ok (mem s) (mbc_header_size + UMEMSZ2BLKSZ sz) mbc ∧ region_ok (mem s) (sbc_header_size + UMEMSZ2BLKSZ sz) sbc.

(** The live memory in multiblock carriers, a pointer and the size asked for, with what was returned now; memory in a carrier of
    its own is not followed. *)
Definition add_live (s s' : Allctr S) (r : option Z) (sz : Z) (live : list (Z * Z)) : list (Z * Z) :=
  match r with Some p => if decide (sbc_list s' = sbc_list s) then (p, sz) :: live else live | None => live end.

(** The states of the allocator: started with or without a main carrier, and whatever its client allocates, frees, reallocates and
    writes into the memory it has. *)
Inductive reach : Allctr S → list (Z * Z) → Prop :=
| reach_init : reach init_state []
| reach_main a s : region_ok ∅ (mbc_header_size + min_block_size) a → start_main_carrier a init_state = Some (true, s) → reach s []
| reach_alloc s live sz mseg mbc sbc r s' : reach s live → request_ok s sz mbc sbc → mbc_alloc sz mseg mbc sbc s = Some (r, s') →
    reach s' (add_live s s' r sz live)
| reach_free s live p n rest s' : reach s live → live ≡ₚ (p, n) :: rest → mbc_free p s = Some (tt, s') → reach s' rest
| reach_realloc s live p n rest sz fail_move mseg mbc sbc q s' : reach s live → live ≡ₚ (p, n) :: rest → request_ok s sz mbc sbc →
    mbc_realloc p sz fail_move mseg mbc sbc s = Some (Some q, s') → reach s' (add_live s s' (Some q) sz rest)
| reach_realloc_fails s live p n sz fail_move mseg mbc sbc s' : reach s live → (p, n) ∈ live → request_ok s sz mbc sbc →
    mbc_realloc p sz fail_move mseg mbc sbc s = Some (None, s') → reach s' live
| reach_write s live p n m : reach s live → (p, n) ∈ live → only (mem s) m p (p + n) → reach (set_mem m s) live.

(** The memory is the user's part of the block. *)
Definition in_block (x : Z * Z) (b : Block_t) : Prop := x.1 = blk_addr b + W ∧ 0 ≤ x.2 ∧ x.2 + W ≤ FreeBlocks.BLK_SZ b.

Definition sound (s : Allctr S) (live : list (Z * Z)) : Prop := ∃ L bs, heap_ok s L ∧ bs ≡ₚ heap_allocs L ∧ Forall2 in_block live bs.

Lemma request_size s sz mbc sbc : request_ok s sz mbc sbc → wf_size (UMEMSZ2BLKSZ sz) ∧ sz + W ≤ UMEMSZ2BLKSZ sz.
Proof. intros (? & ? & _). by apply blksz_spec. Qed.

Lemma init_ok : heap_ok init_state [].
Proof.
  destruct fb_init_ok as [H1 H2]. split; [done|]. split; [constructor|]. split; [split; [done|]; split; [apply NoDup_nil_2|done]|]. split; [done|].
  unfold stat_of. cbn. by rewrite Uint_word by (destruct LIMIT_8 as (? & ? & ?); lia).
Qed.

(** The state is determined. *)
Lemma wp_det {A} (c : M A) s (Q : A → Allctr S → Prop) x s' : wp c s Q → c s = Some (x, s') → Q x s'.
Proof. intros (y & s'' & E & H) E'. rewrite E in E'. by injection E' as <- <-. Qed.

(** The block of live memory, and the blocks of the rest. *)
Lemma sound_split s live p n rest : sound s live → live ≡ₚ (p, n) :: rest →
  ∃ L sz bs, heap_ok s L ∧ heap_allocs L ≡ₚ Block (p - W) sz :: bs ∧ 0 ≤ n ≤ sz - W ∧ Forall2 in_block rest bs.
Proof.
  intros (L & bs & Hok & Hp & Hf) Hl. destruct (Permutation_Forall2 Hl Hf) as (bs' & Hp' & (b & bs0 & (Ea & Hn & Hsz) & Hr & ->)%Forall2_cons_inv_l).
  cbn in *. exists L, (FreeBlocks.BLK_SZ b), bs0. split; [done|]. rewrite <- Hp, Hp'. split; [|split; [lia|done]].
  replace (p - W) with (blk_addr b) by lia. by destruct b.
Qed.

Lemma sound_in s live p n : sound s live → (p, n) ∈ live →
  ∃ rest L sz bs, live ≡ₚ (p, n) :: rest ∧ heap_ok s L ∧ heap_allocs L ≡ₚ Block (p - W) sz :: bs ∧ 0 ≤ n ≤ sz - W ∧ Forall2 in_block rest bs.
Proof.
  intros Hs [rest Hl]%elem_of_Permutation. destruct (sound_split _ _ _ _ _ Hs Hl) as (L & sz & bs & H). by exists rest, L, sz, bs.
Qed.

Lemma in_block_cons p n sz rest bs : 0 ≤ n → n + W ≤ sz → Forall2 in_block rest bs → Forall2 in_block ((p, n) :: rest) (Block (p - W) sz :: bs).
Proof. intros ? ? H. constructor; [|done]. split; [cbn; lia|done]. Qed.

Lemma start_spec a : region_ok ∅ (mbc_header_size + min_block_size) a → wp (start_main_carrier a) init_state (λ r s, r = true → sound s []).
Proof.
  intros Ha. unfold start_main_carrier. destruct a as [[crr bytes]|]; [|apply wp_bind, wp_ret, wp_ret; done].
  assert (wf_size min_block_size) as Hm.
  { pose proof min_block_size_ok as [? _]. pose proof min_size. pose proof W_cases. pose proof min_block_size_max as Hx. fold LIMIT in Hx. split; [split; [done|lia]|lia]. }
  apply wp_bind. eapply wp_mono; [by eapply create_mbc_spec; [apply init_ok|..]|]. intros r s1 (-> & sv & org & Ht & _).
  destruct (taken_facts _ _ _ _ _ _ _ _ _ Ht) as (Hsz & Hb & _). destruct Ht as (Hok & (fb & ->) & Hfb). cbn [total] in Hb. rewrite Z.add_0_r in Hb.
  apply wp_bind, wp_modify, wp_bind. eapply wp_link_view; [exact Hb|apply Hsz|exact Hfb|by apply Forall_nil_2|]. intros fb' Hfb'. apply wp_ret. intros _.
  set (L := at_mid [] [] (crr + mbc_header_size) (zlen bytes) [] [] [(org, true)]) in *. exists L, []. destruct Hok as (H1 & H2 & H3 & H4 & H5).
  split; [split; [done|split; [done|split; [|split; done]]]|].
  - cbn [fbs set_fbs]. eapply fb_view_perm; [|exact Hfb']. unfold L. rewrite heap_around. cbn [select eqb app total]. by rewrite !Z.add_0_r.
  - unfold L. rewrite heap_around. done.
Qed.

Lemma sbc_differs (l : list Z) c : l ++ [c] ≠ l.
Proof. intros E. apply (f_equal length) in E. rewrite length_app in E. cbn in E. lia. Qed.

Lemma alloc_sound s live sz mseg mbc sbc : sound s live → request_ok s sz mbc sbc →
  wp (mbc_alloc sz mseg mbc sbc) s (λ r s', sound s' (add_live s s' r sz live)).
Proof.
  intros (L & bs & Hok & Hp & Hf) Hr. destruct (request_size _ _ _ _ Hr) as [Hw Hw']. destruct Hr as (H0 & _ & Hmbc & Hsbc). eapply wp_mono; [by eapply (mbc_alloc_spec s L)|].
  intros [p|] s' Hpost; cbn in Hpost |- *; [|subst; by exists L, bs]. destruct Hpost as [Hpost|Hpost].
  - destruct Hpost as (L' & sz' & Hok' & Hal & Hle & _ & _ & _ & Es). rewrite decide_True by done. exists L', (Block (p - W) sz' :: bs).
    split; [done|]. split; [by rewrite Hal, Hp|]. apply in_block_cons; [done|lia|done].
  - destruct Hpost as (crr & bytes & _ & _ & Hok' & _ & _ & _ & _ & Es). rewrite decide_False by (rewrite Es; apply sbc_differs). by exists L, bs.
Qed.

Lemma free_sound s live p n rest : sound s live → live ≡ₚ (p, n) :: rest → wp (mbc_free p) s (λ _ s', sound s' rest).
Proof.
  intros Hs Hl. destruct (sound_split _ _ _ _ _ Hs Hl) as (L & sz & bs & Hok & Hal & _ & Hf).
  eapply wp_mono; [apply (mbc_free_spec s L p sz); [done|rewrite Hal; by left]|].
  intros u s' (L' & Hok' & Hal' & _). exists L', bs. split; [done|]. split; [|done]. apply (Permutation_cons_inv (a := Block (p - W) sz)). by rewrite <- Hal.
Qed.

Lemma realloc_sound s live p n rest sz fail_move mseg mbc sbc : sound s live → live ≡ₚ (p, n) :: rest → request_ok s sz mbc sbc →
  wp (mbc_realloc p sz fail_move mseg mbc sbc) s (λ r s', match r with Some q => sound s' (add_live s s' (Some q) sz rest) | None => s' = s end).
Proof.
  intros Hs Hl Hr. destruct (request_size _ _ _ _ Hr) as [Hw Hw']. destruct Hr as (H0 & _ & Hmbc & Hsbc).
  destruct (sound_split _ _ _ _ _ Hs Hl) as (L & old & bs & Hok & Hal & _ & Hf). eapply wp_mono; [apply (mbc_realloc_spec s L p old); [done|rewrite Hal; by left|done..]|].
  intros [q|] s' Hpost; [|done]. destruct Hpost as (L' & r & Hok' & Hal0 & Hcase & _).
  assert (bs ≡ₚ r) as Hbs by (apply (Permutation_cons_inv (a := Block (p - W) old)); by rewrite <- Hal, Hal0).
  cbn. destruct Hcase as [(sz' & Hal' & Hle & Es)|(Hal' & crr & bytes & _ & _ & Es)].
  - rewrite decide_True by done. exists L', (Block (q - W) sz' :: bs). split; [done|]. split; [by rewrite Hal', Hbs|]. apply in_block_cons; [done|lia|done].
  - rewrite decide_False by (rewrite Es; apply sbc_differs). exists L', bs. split; [done|]. split; [by rewrite Hal'|done].
Qed.

Lemma write_sound s live p n m : sound s live → (p, n) ∈ live → only (mem s) m p (p + n) → sound (set_mem m s) live.
Proof.
  intros Hs Hin Ho. destruct (sound_in _ _ _ _ Hs Hin) as (rest & L & sz & bs & Hl & Hok & Hal & Hn & Hf).
  assert (heap_ok (set_mem m s) L) as Hok'.
  { apply (user_write s L (Block (p - W) sz)); [done|rewrite Hal; by left|]. destruct Ho as [H1 H2]. split; [|done]. cbn. intros x Hx. apply H1. lia. }
  apply symmetry in Hl. assert (Forall2 in_block ((p, n) :: rest) (Block (p - W) sz :: bs)) as Hf' by (apply in_block_cons; [lia|lia|done]).
  destruct (Permutation_Forall2 Hl Hf') as (bs' & Hp & Hf''). exists L, bs'. split; [done|]. split; [by rewrite <- Hp|done].
Qed.

Lemma reach_sound s live : reach s live → sound s live.
Proof.
  induction 1 as [|a s Ha E|s live sz mseg mbc sbc r s' _ Hs Hr E|s live p n rest s' _ Hs Hp E
    |s live p n rest sz fm mseg mbc sbc q s' _ Hs Hp Hr E|s live p n sz fm mseg mbc sbc s' _ Hs Hp Hr E|s live p n m _ Hs Hp Ho].
  - exists [], []. split; [apply init_ok|done].
  - by apply (wp_det _ _ _ _ _ (start_spec a Ha) E).
  - by apply (wp_det _ _ _ _ _ (alloc_sound s live sz mseg mbc sbc Hs Hr) E).
  - by apply (wp_det _ _ _ _ _ (free_sound s live p n rest Hs Hp) E).
  - by apply (wp_det _ _ _ _ _ (realloc_sound s live p n rest sz fm mseg mbc sbc Hs Hp Hr) E).
  - apply elem_of_Permutation in Hp as [rest Hp]. pose proof (wp_det _ _ _ _ _ (realloc_sound s live p n rest sz fm mseg mbc sbc Hs Hp Hr) E) as H. cbn in H. by subst.
  - by apply (write_sound s live p n).
Qed.

(** A free block and an allocated one are apart. *)
Lemma free_apart s L b1 b2 : heap_ok s L → b1 ∈ heap_allocs L → b2 ∈ heap_frees L →
  blk_addr b2 + FreeBlocks.BLK_SZ b2 ≤ blk_addr b1 ∨ blk_addr b1 + FreeBlocks.BLK_SZ b1 ≤ blk_addr b2.
Proof.
  intros Hok Hb1 Hb2. destruct (heap_split _ _ _ Hb1) as (L1 & L2 & k & csz & pre & post & -> & Ha). rewrite heap_around in Hb2. cbn [select eqb app] in Hb2.
  destruct (around_user _ _ _ _ _ _ _ _ _ _ Hok Hb2) as [H _]. cbn [total] in H. lia.
Qed.

(** Live memory is apart, mapped, apart from the free blocks, and counted. *)
Lemma sound_apart s live i j p n q k : sound s live → i ≠ j → live !! i = Some (p, n) → live !! j = Some (q, k) → p + n ≤ q ∨ q + k ≤ p.
Proof.
  intros (L & bs & Hok & Hp & Hf) Hij Hi Hj. pose proof W_cases. destruct (Forall2_lookup_l _ _ _ _ _ Hf Hi) as (b1 & Hb1 & E1 & ? & ?). destruct (Forall2_lookup_l _ _ _ _ _ Hf Hj) as (b2 & Hb2 & E2 & ? & ?).
  pose proof (delete_Permutation _ _ _ Hb1) as P1. assert (b2 ∈ delete i bs) as [l P2]%elem_of_Permutation.
  { destruct (decide (j < i)%nat); [apply (list_elem_of_lookup_2 _ j); by rewrite list_lookup_delete_lt|].
    apply (list_elem_of_lookup_2 _ (pred j)). rewrite list_lookup_delete_ge by lia. by replace (Datatypes.S (pred j)) with j by lia. }
  rewrite P2 in P1. destruct (blocks_apart s L b1 b2 l Hok); [by rewrite <- Hp|..]; cbn in *; lia.
Qed.

Lemma sound_mapped s live p n : sound s live → (p, n) ∈ live →
  0 ≤ n ∧ mapped (mem s) p n = true ∧ ∀ a sz, fb_map (fbs s) !! a = Some sz → p + n ≤ a ∨ a + sz ≤ p - W.
Proof.
  intros Hs Hin. destruct (sound_in _ _ _ _ Hs Hin) as (rest & L & sz & bs & _ & Hok & Hal & Hn & _). pose proof W_cases.
  assert (Block (p - W) sz ∈ heap_allocs L) as Hb by (rewrite Hal; by left). split; [lia|]. split.
  - eapply mapped_sub; [by apply (block_mapped s L false)|cbn; lia..].
  - intros a fsz Ha. pose proof Hok as (_ & _ & (_ & Hd & Hm) & _). rewrite Hm in Ha. apply blk_map_lookup in Ha; [|done]. destruct (free_apart _ _ _ _ Hok Hb Ha); cbn in *; lia.
Qed.

Lemma sound_count s live : sound s live → no (blocks_curr s) = Uint (zlen live).
Proof.
  intros (L & bs & (_ & _ & _ & _ & ->) & Hp & Hf). unfold stat_of. cbn. unfold zlen. by rewrite <- Hp, (Forall2_length _ _ _ Hf).
Qed.

(** What is kept of the live memory. *)
Definition keeps (s s' : Allctr S) (live : list (Z * Z)) : Prop := ∀ p n x, (p, n) ∈ live → p ≤ x < p + n → mem s' !! x = mem s !! x.

Lemma keeps_blocks s s' live bs : Forall2 in_block live bs → Forall (user_same (mem s) (mem s')) bs → keeps s s' live.
Proof.
  intros Hf Hu p n x [i Hi]%list_elem_of_lookup Hx. destruct (Forall2_lookup_l _ _ _ _ _ Hf Hi) as (b & Hb & E & ? & ?). cbn in *.
  rewrite Forall_forall in Hu. apply (Hu b); [by eapply list_elem_of_lookup_2|lia].
Qed.

Lemma alloc_keeps s live sz mseg mbc sbc : sound s live → request_ok s sz mbc sbc → wp (mbc_alloc sz mseg mbc sbc) s (λ _ s', keeps s s' live).
Proof.
  intros (L & bs & Hok & Hp & Hf) Hr. destruct (request_size _ _ _ _ Hr) as [Hw Hw']. destruct Hr as (H0 & _ & Hmbc & Hsbc). eapply wp_mono; [by eapply (mbc_alloc_spec s L)|].
  intros [p|] s' Hpost; cbn in Hpost; [|by subst]. eapply keeps_blocks; [exact Hf|]. rewrite Hp. destruct Hpost as [(L' & sz' & _ & _ & _ & Hu & _)|Hpost]; [done|].
  destruct Hpost as (crr & bytes & -> & _ & _ & He & _). destruct Hsbc as (? & _ & _ & Hneed & Hfresh). pose proof sbc_header_size_ok. pose proof (wf_size_pos _ Hw).
  apply (allocs_extend _ _ _ _ _ _ (proj1 Hok) He Hfresh). lia.
Qed.

Lemma free_keeps s live p n rest : sound s live → live ≡ₚ (p, n) :: rest → wp (mbc_free p) s (λ _ s', keeps s s' rest).
Proof.
  intros Hs Hl. destruct (sound_split _ _ _ _ _ Hs Hl) as (L & sz & bs & Hok & Hal & _ & Hf).
  eapply wp_mono; [apply (mbc_free_spec s L p sz); [done|rewrite Hal; by left]|]. intros u s' (L' & _ & Hal' & Hu & _).
  eapply keeps_blocks; [exact Hf|]. rewrite Hal in Hal'. apply Permutation_cons_inv in Hal'. by rewrite Hal'.
Qed.

(** The first bytes are at the new place. *)
Definition moved (s s' : Allctr S) (p q n : Z) : Prop := ∀ i, 0 ≤ i < n → mem s' !! (q + i) = mem s !! (p + i).

Lemma realloc_keeps s live p n rest sz fail_move mseg mbc sbc : sound s live → live ≡ₚ (p, n) :: rest → request_ok s sz mbc sbc →
  wp (mbc_realloc p sz fail_move mseg mbc sbc) s (λ r s', match r with Some q => keeps s s' rest ∧ moved s s' p q (Z.min sz n) | None => s' = s end).
Proof.
  intros Hs Hl Hr. destruct (request_size _ _ _ _ Hr) as [Hw Hw']. destruct Hr as (H0 & _ & Hmbc & Hsbc).
  destruct (sound_split _ _ _ _ _ Hs Hl) as (L & old & bs & Hok & Hal & Hn & Hf). eapply wp_mono; [apply (mbc_realloc_spec s L p old); [done|rewrite Hal; by left|done..]|].
  intros [q|] s' Hpost; [|done]. destruct Hpost as (L' & r & _ & Hal0 & _ & Hu & Hc). rewrite Hal in Hal0. apply Permutation_cons_inv in Hal0.
  split; [eapply keeps_blocks; [exact Hf|by rewrite Hal0]|]. intros i Hi. apply Hc. lia.
Qed.

Lemma wp_both {A} (c : M A) s (P Q : A → Allctr S → Prop) : wp c s P → wp c s Q → ∃ x s', c s = Some (x, s') ∧ P x s' ∧ Q x s'.
Proof. intros (x & s' & E & H) HQ. exists x, s'. split; [done|]. split; [done|]. by apply (wp_det _ _ _ _ _ HQ E). Qed.

(** When nothing is returned. *)
Lemma bind_inv {A B} (c : M A) (f : A → M B) s y s2 : (c ≫= f) s = Some (y, s2) → ∃ x s1, c s = Some (x, s1) ∧ f x s1 = Some (y, s2).
Proof. unfold mbind, M_bind. destruct (c s) as [[x s1]|]; [|done]. intros E. by exists x, s1. Qed.

Lemma create_mbc_none mseg a s s' : create_mbc mseg a s = Some (None, s') → a = None.
Proof. destruct a as [[crr bytes]|]; [|done]. cbn [create_mbc]. intros H. repeat (apply bind_inv in H as (? & ? & _ & H)). done. Qed.

Lemma create_sbc_none sz a s s' : create_sbc sz a s = Some (None, s') → a = None.
Proof. destruct a as [[crr bytes]|]; [|done]. cbn [create_sbc]. intros H. repeat (apply bind_inv in H as (? & ? & _ & H)). done. Qed.

Lemma mbc_alloc_none s L sz mseg mbc sbc s' : heap_ok s L → mbc_alloc sz mseg mbc sbc s = Some (None, s') →
  mbc = None ∧ sbc = None ∧ Forall (λ b, FreeBlocks.BLK_SZ b < UMEMSZ2BLKSZ sz) (heap_frees L).
Proof.
  intros (_ & _ & (Hfb & Hd & Hm) & _) H. apply bind_inv in H as ([[blk|] bsz] & s1 & Eb & H).
  { apply bind_inv in H as (? & ? & _ & H). apply bind_inv in H as (? & ? & _ & H). done. }
  unfold mbc_alloc_block in Eb. cbv zeta in Eb. apply bind_inv in Eb as ([a|] & s2 & Eg & Eb); [done|].
  apply bind_inv in Eb as ([a|] & s3 & E1 & Eb); [done|]. apply bind_inv in Eb as ([a|] & s4 & E2 & Eb); [done|].
  split; [by eapply create_mbc_none|]. split; [by eapply create_sbc_none|]. apply bind_inv in Eg as ([b|] & s5 & Eg & E3); [done|].
  unfold with_fbs in Eg. destruct (fb_get_ok (fbs s) (UMEMSZ2BLKSZ sz) None Hfb) as (r & fb & E & _ & Hr). rewrite E in Eg. injection Eg as -> _.
  destruct Hr as [_ Hr]. specialize (Hr eq_refl). rewrite Hm in Hr. apply Forall_forall. intros b Hb. by apply (Hr (blk_addr b)), blk_map_elem.
Qed.

End Allocator.
