(* ===== verification/AllocTheorems.v ===== *)
(** The theorems about the memory allocators: the two strategies of [erl_bestfit_alloc.c], and the multiblock carriers of
    [erl_alloc_util.c] over any strategy that keeps the promises of [FreeBlocks.v]. *)

From Stdlib Require Import Lia ZArith Sorting.Sorted.
From stdpp Require Import base numbers list option gmap sorting.
From S2P Require Import Prelude Rbt RbtSpec FreeBlocks BestFit BestFitSpec AllocMem AllocUtil AllocHdr AllocCarrier AllocFree AllocAlloc AllocRealloc AllocMove AllocReach.
Open Scope Z_scope.

(** address order best fit.  On a tree that is red-black, ordered by size and address and without a block twice, linking a
    new block and unlinking a linked one succeed, leave such a tree, and change the set of blocks by exactly that block;
    [aobf_get_free_block] unlinks and returns the first block in the order that is large enough, unless there is none or the
    candidate comes before it, and then changes nothing. *)
Lemma aobf_best_fit root : AobfSpec.inv root →
  (∀ blk, AobfSpec.blocks root !! blk_addr blk = None →
    ∃ root', Aobf.aobf_link_free_block root blk = Some root' ∧ AobfSpec.inv root' ∧
      AobfSpec.blocks root' = <[blk_addr blk := FreeBlocks.BLK_SZ blk]> (AobfSpec.blocks root)) ∧
  (∀ a, is_Some (AobfSpec.blocks root !! a) →
    ∃ root', Aobf.aobf_unlink_free_block root a = Some root' ∧ AobfSpec.inv root' ∧ AobfSpec.blocks root' = delete a (AobfSpec.blocks root)) ∧
  (∀ size cand, ∃ r root', Aobf.aobf_get_free_block root size cand = Some (r, root') ∧ AobfSpec.inv root' ∧ AobfSpec.get_post root size cand r root').
Proof.
  intros Hinv. split; [|split]; intros *; [by apply AobfSpec.aobf_link_spec|by apply AobfSpec.aobf_unlink_spec|by apply AobfSpec.aobf_get_spec].
Qed.

(** best fit.  The same of the tree whose nodes carry the list of the other blocks of their size; the block that is returned has
    the smallest size that is large enough, and is returned only when it is smaller than the candidate. *)
Lemma bf_best_fit root : BfSpec.inv root →
  (∀ blk, BfSpec.blocks root !! blk_addr blk = None →
    ∃ root', Bf.bf_link_free_block root blk = Some root' ∧ BfSpec.inv root' ∧
      BfSpec.blocks root' = <[blk_addr blk := FreeBlocks.BLK_SZ blk]> (BfSpec.blocks root)) ∧
  (∀ a, is_Some (BfSpec.blocks root !! a) →
    ∃ root', Bf.bf_unlink_free_block root a = Some root' ∧ BfSpec.inv root' ∧ BfSpec.blocks root' = delete a (BfSpec.blocks root)) ∧
  (∀ size cand, ∃ r root', Bf.bf_get_free_block root size cand = Some (r, root') ∧ BfSpec.inv root' ∧ BfSpec.get_post root size cand r root').
Proof.
  intros Hinv. split; [|split]; intros *; [by apply BfSpec.bf_link_spec|by apply BfSpec.bf_unlink_spec|by apply BfSpec.bf_get_spec].
Qed.

(** address order best fit.  On a tree that is red-black, ordered by size and address and without a block twice,
    linking a new block and unlinking a linked one succeed, leave such a tree, and change the set of blocks by exactly
    that block; [aobf_get_free_block] unlinks and returns the first block in the order that is large enough, unless there
    is none or the candidate comes before it, and then changes nothing.  For best fit, the same of the tree whose nodes carry
    the list of the other blocks of their size; the block that is returned has the smallest size that is large enough, and
    is returned only when it is smaller than the candidate. *)
Lemma best_fit_strategies :
  (∀ root, AobfSpec.inv root →
  (∀ blk, AobfSpec.blocks root !! blk_addr blk = None →
    ∃ root', Aobf.aobf_link_free_block root blk = Some root' ∧ AobfSpec.inv root' ∧
      AobfSpec.blocks root' = <[blk_addr blk := FreeBlocks.BLK_SZ blk]> (AobfSpec.blocks root)) ∧
  (∀ a, is_Some (AobfSpec.blocks root !! a) →
    ∃ root', Aobf.aobf_unlink_free_block root a = Some root' ∧ AobfSpec.inv root' ∧ AobfSpec.blocks root' = delete a (AobfSpec.blocks root)) ∧
  (∀ size cand, ∃ r root', Aobf.aobf_get_free_block root size cand = Some (r, root') ∧ AobfSpec.inv root' ∧ AobfSpec.get_post root size cand r root')) ∧
  (∀ root, BfSpec.inv root →
  (∀ blk, BfSpec.blocks root !! blk_addr blk = None →
    ∃ root', Bf.bf_link_free_block root blk = Some root' ∧ BfSpec.inv root' ∧
      BfSpec.blocks root' = <[blk_addr blk := FreeBlocks.BLK_SZ blk]> (BfSpec.blocks root)) ∧
  (∀ a, is_Some (BfSpec.blocks root !! a) →
    ∃ root', Bf.bf_unlink_free_block root a = Some root' ∧ BfSpec.inv root' ∧ BfSpec.blocks root' = delete a (BfSpec.blocks root)) ∧
  (∀ size cand, ∃ r root', Bf.bf_get_free_block root size cand = Some (r, root') ∧ BfSpec.inv root' ∧ BfSpec.get_post root size cand r root')).
Proof. split; [exact aobf_best_fit|exact bf_best_fit]. Qed.

(** the trees stay shallow.  Whatever blocks are linked, unlinked and taken, the tree with [n] nodes has at most
    [2 log2 (n + 1)] levels, which bounds the loops of every operation. *)
Lemma best_fit_height :
  (∀ root, AobfSpec.inv root → (2 ^ height root ≤ (length (elems root) + 1) ^ 2)%nat) ∧
  (∀ root, BfSpec.inv root → (2 ^ height root ≤ (length (elems root) + 1) ^ 2)%nat).
Proof.
  split; intros root [Hrb _]; rewrite Nat.add_1_r, Nat.pow_2_r; by apply rb_tree_height.
Qed.

(** C13: address order best fit.  On a tree that is red-black, ordered by size and address and without a block twice,
    linking a new block and unlinking a linked one succeed, leave such a tree, and change the set of blocks by exactly
    that block; [aobf_get_free_block] unlinks and returns the first block in the order that is large enough, unless there
    is none or the candidate comes before it, and then changes nothing.  For best fit, the same of the tree whose nodes
    carry the list of the other blocks of their size; the block that is returned has the smallest size that is large
    enough, and is returned only when it is smaller than the candidate.  the trees stay shallow.  Whatever blocks are
    linked, unlinked and taken, the tree with [n] nodes has at most [2 log2 (n + 1)] levels, which bounds the loops of
    every operation. *)
Theorem best_fit_correct :
  ((∀ root, AobfSpec.inv root →
  (∀ blk, AobfSpec.blocks root !! blk_addr blk = None →
    ∃ root', Aobf.aobf_link_free_block root blk = Some root' ∧ AobfSpec.inv root' ∧
      AobfSpec.blocks root' = <[blk_addr blk := FreeBlocks.BLK_SZ blk]> (AobfSpec.blocks root)) ∧
  (∀ a, is_Some (AobfSpec.blocks root !! a) →
    ∃ root', Aobf.aobf_unlink_free_block root a = Some root' ∧ AobfSpec.inv root' ∧ AobfSpec.blocks root' = delete a (AobfSpec.blocks root)) ∧
  (∀ size cand, ∃ r root', Aobf.aobf_get_free_block root size cand = Some (r, root') ∧ AobfSpec.inv root' ∧ AobfSpec.get_post root size cand r root')) ∧
  (∀ root, BfSpec.inv root →
  (∀ blk, BfSpec.blocks root !! blk_addr blk = None →
    ∃ root', Bf.bf_link_free_block root blk = Some root' ∧ BfSpec.inv root' ∧
      BfSpec.blocks root' = <[blk_addr blk := FreeBlocks.BLK_SZ blk]> (BfSpec.blocks root)) ∧
  (∀ a, is_Some (BfSpec.blocks root !! a) →
    ∃ root', Bf.bf_unlink_free_block root a = Some root' ∧ BfSpec.inv root' ∧ BfSpec.blocks root' = delete a (BfSpec.blocks root)) ∧
  (∀ size cand, ∃ r root', Bf.bf_get_free_block root size cand = Some (r, root') ∧ BfSpec.inv root' ∧ BfSpec.get_post root size cand r root'))) ∧
  ((∀ root, AobfSpec.inv root → (2 ^ height root ≤ (length (elems root) + 1) ^ 2)%nat) ∧
  (∀ root, BfSpec.inv root → (2 ^ height root ≤ (length (elems root) + 1) ^ 2)%nat)).
Proof. split; [exact best_fit_strategies|exact best_fit_height]. Qed.

Section Mbc.
Context {ac : AllocConfig} {S : Type} {ops : FreeBlockOps S} {laws : FreeBlockLaws S}.

(** C3: [mbc_alloc].  It never touches memory that is not mapped.  The pointer it returns is the start of the user's part of a
    new allocated block of at least the size asked for: a free block that was split or used whole, the first block of a new
    carrier, or a carrier of its own; all headers, footers, flags, free blocks, carriers and statistics fit together again,
    and no byte of an allocated block has changed.  NULL is returned only when no free block is large enough and the system
    gives no memory, and then the state is as it was. *)
Theorem mbc_alloc_correct s L sz mseg mbc sbc : heap_ok s L → request_ok s sz mbc sbc →
  ∃ r s', mbc_alloc sz mseg mbc sbc s = Some (r, s') ∧ mbc_alloc_post s L sz sbc r s' ∧ sz + W ≤ UMEMSZ2BLKSZ sz ∧
    (r = None → mbc = None ∧ sbc = None ∧ Forall (λ b, FreeBlocks.BLK_SZ b < UMEMSZ2BLKSZ sz) (heap_frees L)).
Proof.
  intros Hok Hr. destruct (request_size _ _ _ _ Hr) as [Hw Hw']. destruct Hr as (H0 & _ & Hmbc & Hsbc).
  destruct (mbc_alloc_spec s L sz mseg mbc sbc Hok Hw Hmbc Hsbc) as (r & s' & E & Hp). exists r, s'. split; [done|]. split; [done|]. split; [done|].
  intros ->. by eapply mbc_alloc_none.
Qed.

(** C4: [mbc_free].  The block and the free blocks beside it become one free block of their total size in the same place (no two free blocks touch), and
    every other block and carrier is where it was; or, exactly when this is all of a carrier that is not the main carrier, the carrier leaves the
    list and its memory is unmapped.  Nothing of the other allocated blocks has changed, nothing outside of the carriers, and
    all headers, footers, flags, the free blocks of the strategy and the statistics fit together again. *)
Theorem mbc_free_correct s L p sz : heap_ok s L → Block (p - W) sz ∈ heap_allocs L →
  ∃ s', mbc_free p s = Some (tt, s') ∧ free_post s L (Block (p - W) sz) s'.
Proof. intros Hok Hb. destruct (mbc_free_spec s L p sz Hok Hb) as ([] & s' & E & Hp). by exists s'. Qed.

(** C5: [mbc_realloc], in place, into the free block behind, into the free block in front or into a new block or carrier, with the
    move that may fail or not: the block at the result is large enough, it holds the first bytes of the old one up to the smaller
    of the two sizes, the other allocated blocks have not changed and everything fits together again.  When NULL is returned
    the state is as it was. *)
Theorem mbc_realloc_correct s L p old sz fail_move mseg mbc sbc : heap_ok s L → Block (p - W) old ∈ heap_allocs L → request_ok s sz mbc sbc →
  ∃ r s', mbc_realloc p sz fail_move mseg mbc sbc s = Some (r, s') ∧ realloc_post s L p old sz sbc r s'.
Proof.
  intros Hok Hb Hr. destruct (request_size _ _ _ _ Hr) as [Hw Hw']. destruct Hr as (H0 & _ & Hmbc & Hsbc). by apply mbc_realloc_spec.
Qed.

(** C1: the allocator is safe.  In every state that it can get to, whatever its client allocates, frees, reallocates and writes into
    its memory, the live pieces of memory do not overlap, are mapped, are apart from the blocks that the strategy keeps, and
    are counted by the statistics; every further request is carried out without touching memory that is not mapped, leads to
    such a state again, and keeps the contents of the other live memory, [mbc_realloc] that of the memory it moves too. *)
Theorem allocator_safe (s : Allctr S) live : reach s live →
  (∀ i j p n q k, i ≠ j → live !! i = Some (p, n) → live !! j = Some (q, k) → p + n ≤ q ∨ q + k ≤ p) ∧
  (∀ p n, (p, n) ∈ live → 0 ≤ n ∧ mapped (mem s) p n = true ∧ ∀ a sz, fb_map (fbs s) !! a = Some sz → p + n ≤ a ∨ a + sz ≤ p - W) ∧
  no (blocks_curr s) = Uint (zlen live) ∧
  (∀ sz mseg mbc sbc, request_ok s sz mbc sbc →
    ∃ r s', mbc_alloc sz mseg mbc sbc s = Some (r, s') ∧ reach s' (add_live s s' r sz live) ∧ keeps s s' live) ∧
  (∀ p n rest, live ≡ₚ (p, n) :: rest → ∃ s', mbc_free p s = Some (tt, s') ∧ reach s' rest ∧ keeps s s' rest) ∧
  (∀ p n rest sz fail_move mseg mbc sbc, live ≡ₚ (p, n) :: rest → request_ok s sz mbc sbc →
    ∃ r s', mbc_realloc p sz fail_move mseg mbc sbc s = Some (r, s') ∧
      match r with Some q => reach s' (add_live s s' r sz rest) ∧ keeps s s' rest ∧ moved s s' p q (Z.min sz n) | None => s' = s end).
Proof.
  intros Hr. pose proof (reach_sound s live Hr) as Hs. split; [|split; [|split; [|split; [|split]]]].
  - intros i j p n q k. by apply (sound_apart s).
  - intros p n. by apply (sound_mapped s).
  - by apply sound_count.
  - intros sz mseg mbc sbc Hq. destruct (alloc_keeps s live sz mseg mbc sbc Hs Hq) as (r & s' & E & Hk). exists r, s'. eauto using reach_alloc.
  - intros p n rest Hl. destruct (free_keeps s live p n rest Hs Hl) as ([] & s' & E & Hk). exists s'. eauto using reach_free.
  - intros p n rest sz fm mseg mbc sbc Hl Hq. destruct (realloc_keeps s live p n rest sz fm mseg mbc sbc Hs Hl Hq) as ([q|] & s' & E & Hk); [exists (Some q), s'|by exists None, s'].
    split; [done|]. split; [by eapply reach_realloc|done].
Qed.

End Mbc.

(** * Instances: 64-bit words and address order best fit *)
Module Instances.

Lemma min_48 : (8 | 48) ∧ 2 * Z.of_nat 8 ≤ 48.
Proof. split; [exists 6; lia|lia]. Qed.

Lemma max_48 : 48 < 256 ^ Z.of_nat 8.
Proof. reflexivity. Qed.

Lemma header_32 : 4 * Z.of_nat 8 ≤ 32.
Proof. lia. Qed.

#[export] Instance ac64 : AllocConfig :=
  {| UINT_SZ := 8; min_block_size := 48; mbc_header_size := 32; sbc_header_size := 32; mbc_move_threshold := 80;
     UINT_SZ_cases := or_intror eq_refl; min_block_size_ok := min_48; min_block_size_max := max_48;
     mbc_header_size_ok := header_32; sbc_header_size_ok := header_32 |}.

(** A carrier of 128 bytes at 1000 with an allocated block of 48 bytes and a free one behind it. *)
Definition m1 : memory :=
  put_word 8 (put_word 8 (put_word 8 (put_bytes ∅ 1000 (replicate 128 0)) 1000 128) 1032 (48 + 2)) 1080 (48 + 1 + 4).
Definition s1 : Allctr (tree Block_t) := Alc m1 (Node Black Leaf (Block 1080 48) Leaf) [1000] [] None (Stat 1 48) (Stat 1 48).
Definition L1 : list carrier := [Carrier 1032 128 [(48, false); (48, true)]].

Lemma size_48 : wf_size 48.
Proof. split; [|cbn; lia]. split; [exists 6; lia|]. assert (LIMIT = 256 ^ 8) as -> by reflexivity. lia. Qed.

Lemma carrier_1 : carrier_ok m1 (Carrier 1032 128 [(48, false); (48, true)]).
Proof.
  split; [vm_compute; congruence|]. split; [vm_compute; congruence|]. split; [vm_compute; congruence|]. split; [done|].
  split; [|split; [done|split; [reflexivity|split; [exists 128; split; reflexivity|reflexivity]]]].
  cbn [seg c_bs c_blk]. split; [exact size_48|]. split; [reflexivity|]. split; [done|]. split; [exact size_48|]. split; [reflexivity|]. done.
Qed.

Lemma heap_1 : heap_ok s1 L1.
Proof.
  split; [|split; [|split; [|split; reflexivity]]].
  - constructor; [exact carrier_1|constructor].
  - repeat constructor.
  - split; [|split; [apply NoDup_singleton|reflexivity]].
    split; [exists 1%nat; repeat econstructor|]. split; [repeat constructor|]. apply NoDup_singleton.
Qed.

(** What the system gives to the first request. *)
Definition region : answer := Some (2000, replicate 256 0).

Lemma request_1 : request_ok (init_state : Allctr (tree Block_t)) 100 region None.
Proof.
  split; [lia|]. assert (LIMIT = 256 ^ 8) as EL by reflexivity. assert (W = 8) as EW by reflexivity. split; [rewrite EL, EW; lia|]. split; [|done].
  assert (mbc_header_size + UMEMSZ2BLKSZ 100 = 144) as -> by reflexivity. unfold region, region_ok. rewrite EL.
  assert (zlen (replicate 256 (0 : Z)) = 256) as -> by reflexivity.
  split; [lia|]. split; [lia|]. split; [exists 32; lia|]. split; [lia|]. intros x _. apply lookup_empty.
Qed.

Lemma request_2 (s : Allctr (tree Block_t)) sz : 0 ≤ sz ≤ 1000 → request_ok s sz None None.
Proof. intros H. split; [lia|]. split; [|done]. assert (LIMIT = 256 ^ 8) as -> by reflexivity. assert (W = 8) as -> by reflexivity. lia. Qed.

(** A tree of each strategy with two free blocks. *)
Definition aobf_root : tree Block_t := Node Black Leaf (Block 1000 64) (Node Red Leaf (Block 2000 64) Leaf).
Definition bf_root : tree Bf.bf_node := Node Black Leaf (Bf.BfNode (Block 1000 64) [Block 2000 64]) Leaf.

Lemma aobf_root_inv : AobfSpec.inv aobf_root.
Proof.
  split; [exists 1%nat; repeat econstructor|]. split; [|apply (bool_decide_unpack _); vm_compute; done].
  constructor; [repeat constructor|]. constructor; [|constructor]. right. cbn. lia.
Qed.

Lemma bf_root_inv : BfSpec.inv bf_root.
Proof.
  split; [exists 1%nat; repeat econstructor|]. split; [repeat constructor|]. split; [repeat constructor|]. apply (bool_decide_unpack _). vm_compute. done.
Qed.

Lemma best_fit_correct_witness :
  ((∃ r root', Aobf.aobf_get_free_block aobf_root 50 (Some (1500, 64)) = Some (r, root') ∧ AobfSpec.inv root' ∧
  AobfSpec.get_post aobf_root 50 (Some (1500, 64)) r root') ∧
  (∃ r root', Bf.bf_get_free_block bf_root 50 (Some (1500, 72)) = Some (r, root') ∧ BfSpec.inv root' ∧
  BfSpec.get_post bf_root 50 (Some (1500, 72)) r root')) ∧
  ((2 ^ height aobf_root ≤ (length (elems aobf_root) + 1) ^ 2)%nat).
Proof.
  split.
  - split.
    + apply (proj1 (proj1 best_fit_correct) aobf_root aobf_root_inv).
    + apply (proj2 (proj1 best_fit_correct) bf_root bf_root_inv).
  - exact (proj1 (proj2 best_fit_correct) aobf_root aobf_root_inv).
Defined.

Lemma mbc_alloc_correct_witness : ∃ r s', mbc_alloc 20 true None None s1 = Some (r, s') ∧ mbc_alloc_post s1 L1 20 None r s' ∧ 20 + W ≤ UMEMSZ2BLKSZ 20 ∧
  (r = None → (None : answer) = None ∧ (None : answer) = None ∧ Forall (λ b, FreeBlocks.BLK_SZ b < UMEMSZ2BLKSZ 20) (heap_frees L1)).
Proof. exact (mbc_alloc_correct s1 L1 20 true None None heap_1 (request_2 s1 20 ltac:(lia))). Defined.

Lemma in_1 : Block (1040 - W) 48 ∈ heap_allocs L1.
Proof. apply list_elem_of_here. Qed.

Lemma mbc_free_correct_witness : ∃ s', mbc_free 1040 s1 = Some (tt, s') ∧ free_post s1 L1 (Block (1040 - W) 48) s'.
Proof. exact (mbc_free_correct s1 L1 1040 48 heap_1 in_1). Defined.

(** Growing into the free block behind. *)
Lemma mbc_realloc_correct_witness : ∃ r s', mbc_realloc 1040 80 false true None None s1 = Some (r, s') ∧ realloc_post s1 L1 1040 48 80 None r s'.
Proof. exact (mbc_realloc_correct s1 L1 1040 48 80 false true None None heap_1 in_1 (request_2 s1 80 ltac:(lia))). Defined.

(** The first request makes a carrier; the state after it is one the theorem is about. *)
Lemma allocator_safe_witness : ∃ r (s' : Allctr (tree Block_t)), let live := add_live init_state s' r 100 [] in
  mbc_alloc 100 true region None init_state = Some (r, s') ∧ reach s' live ∧ no (blocks_curr s') = Uint (zlen live) ∧
  ∃ r2 s2, mbc_alloc 200 true None None s' = Some (r2, s2) ∧ reach s2 (add_live s' s2 r2 200 live) ∧ keeps s' s2 live.
Proof.
  destruct (allocator_safe (init_state : Allctr (tree Block_t)) [] reach_init) as (_ & _ & _ & Ha & _).
  destruct (Ha 100 true region None request_1) as (r & s' & E & Hr & _). exists r, s'. cbv zeta. split; [exact E|]. split; [exact Hr|].
  destruct (allocator_safe s' _ Hr) as (_ & _ & Hc & Ha' & _). split; [exact Hc|]. exact (Ha' 200 true None None (request_2 s' 200 ltac:(lia))).
Defined.

End Instances.
