(* ===== verification/LinearHash.v ===== *)
(** Linear hashing: the bucket of a hash value while the table grows and shrinks one bucket at a time.  Shared by the process dictionary
    and the hashed ETS tables. *)

From Stdlib Require Import ZArith ZifyBool.
From stdpp Require Import base numbers.
From S2P Require Import Prelude.
Local Open Scope Z_scope.

(** The bucket of a hash value in a table of [home + split] buckets, of which the first [split] are split. *)
Definition hash_ix (home split h : Z) : Z :=
  if h mod (home * 2) >=? home + split then h mod home else h mod (home * 2).

Section HashIx.
Implicit Types home split h : Z.

Lemma mod_double home h : 0 < home →
  (h mod (home * 2) = h mod home ∨ h mod (home * 2) = h mod home + home) ∧ 0 ≤ h mod home < home.
Proof.
  intros Hh. rewrite Z.rem_mul_r by lia. pose proof (Z.mod_pos_bound (h / home) 2 ltac:(lia)).
  split; [|by apply Z.mod_pos_bound]. assert ((h / home) mod 2 = 0 ∨ (h / home) mod 2 = 1) as [-> | ->]; lia.
Qed.

(** Cases of the indices of one hash value. *)
Ltac ix_cases home h :=
  unfold hash_ix; destruct (mod_double home h) as [[-> | ->] ?]; [lia|..];
  repeat match goal with |- context [?a >=? ?b] => destruct (Z.geb_spec a b) end; try lia.

Lemma hash_ix_range home split h : 0 < home → 0 ≤ split ≤ home → 0 ≤ hash_ix home split h < home + split.
Proof. intros. ix_cases home h. Qed.

(** Splitting bucket [split] moves keys of that bucket only, to the new last bucket. *)
Lemma hash_ix_split home split h : 0 < home → 0 ≤ split < home →
  hash_ix home (split + 1) h =
    if hash_ix home split h =? split then (if hash_ix home (split + 1) h =? split then split else split + home)
    else hash_ix home split h.
Proof.
  intros. ix_cases home h;
  repeat match goal with |- context [?a =? ?b] => destruct (Z.eqb_spec a b) end; lia.
Qed.

Lemma hash_ix_merge home split h : 0 < home → 0 ≤ split < home →
  hash_ix home split h =
    if bool_decide (hash_ix home (split + 1) h = split + home) then split else hash_ix home (split + 1) h.
Proof. intros. ix_cases home h; case_bool_decide; lia. Qed.

(** When all buckets are split, the table is one of twice the size with none split. *)
Lemma hash_ix_double home h : 0 < home → hash_ix (home * 2) 0 h = hash_ix home home h.
Proof.
  intros. unfold hash_ix. destruct (mod_double (home * 2) h) as [[-> | ->] ?]; [lia|..];
  repeat match goal with |- context [?a >=? ?b] => destruct (Z.geb_spec a b) end; lia.
Qed.

(** The two new places of the keys of the bucket that is split *)
Lemma hash_ix_grow home split h : 0 < home → 0 ≤ split < home →
  (hash_ix home split h = split → hash_ix home (split + 1) h = h mod (home * 2) ∧ (h mod (home * 2) = split ∨ h mod (home * 2) = split + home)) ∧
  (hash_ix home split h ≠ split → hash_ix home (split + 1) h = hash_ix home split h).
Proof. intros. ix_cases home h. Qed.

End HashIx.
