(* ===== verification/ProcDict.v ===== *)
(** The process dictionary: [erts/emulator/beam/erl_process_dict.c], a linear hash table of [{Key,Value}] tuples.

    A slot of the table holds [NIL], one tuple, or a list of tuples.  [p->dictionary] is an [option]: [NULL] is [None]
    and the C structure, with the array [data] behind it, is a [ProcDict].  A function that runs into undefined
    behaviour, or that stops the emulator because of a damaged dictionary, has the result [None]: an
    access outside of [data], a use of a dictionary pointer after its block was reallocated, a division by zero, a
    word taken with [HeapOnlyAlloc] that was not reserved, an overflow of a signed [int]. *)

From Stdlib Require Import ZArith ZifyBool.
From stdpp Require Import base list numbers option gmap.
From S2P Require Import Prelude.
Local Open Scope Z_scope.

(** Terms, up to the equality [EQ]; [MAKE_HASH] is the hash of small integers, atoms and other terms. *)
Class DictTerms (Eterm : Type) := { MAKE_HASH : Eterm → Z; am_undefined : Eterm; sizeof_Uint : Z }.

Definition MAX_HASH : Z := 1342177280.
Definition INITIAL_SIZE : Z := 10.

(** The table of [next_array_size] *)
Definition array_sizes : list Z :=
  [10; 20; 40; 80; 160; 320; 640; 1280; 2560; 5120; 10240; 20480; 40960; 81920; 163840; 327680; 655360; 1310720;
   2621440; 5242880; 10485760; 20971520; 41943040; 83886080; 167772160; 335544320; 671088640; 1342177280;
   2684354560].

(** The binary search [while (hi >= lo)]; each turn makes the interval shorter, so its length is enough fuel. *)
Fixpoint search_size (fuel : nat) (need hi lo cur : Z) : option Z :=
  match fuel with
  | O => None
  | S fuel' =>
      if hi >=? lo then
        c ← load array_sizes cur;
        c' ← load array_sizes (cur - 1);
        if (c >=? need) && (c' <? need) then Some c
        else
          let '(hi, lo) := if c >? need then (cur - 1, lo) else (hi, cur + 1) in
          search_size fuel' need hi lo ((hi + lo) `quot` 2)
      else Some need
  end.

(** Words of the heap that were reserved, and taking [n] of them. *)
Definition HeapOnlyAlloc (left n : Z) : option Z := if n <=? left then Some (left - n) else None.

(** A value computed in an [int]. *)
Definition as_int (z : Z) : option Z := if z <=? INT_MAX then Some z else None.

(** A [{Key,Value}] tuple *)
Abbreviation tuple Eterm := (Eterm * Eterm)%type.

Section ProcDict.
Context {Eterm : Type} `{EqDecision Eterm, DictTerms Eterm}.

(** [Lst] is a non-empty list of tuples; [Other] is any other term. *)
Inductive slot := Nil | Tup (t : tuple Eterm) | Lst (l : list (tuple Eterm)) | Other (t : Eterm).

#[export] Instance slot_eq_dec : EqDecision slot.
Proof. solve_decision. Defined.

Record ProcDict := PD {
  size : Z; used : Z; homeSize : Z; splitPosition : Z; numElements : Z; data : list slot }.

Implicit Types (pd : ProcDict) (id value : Eterm) (p : option ProcDict).

Definition set_split home split pd : ProcDict :=
  PD (size pd) (used pd) home split (numElements pd) (data pd).
Definition set_num num pd : ProcDict :=
  PD (size pd) (used pd) (homeSize pd) (splitPosition pd) num (data pd).
Definition set_data l pd : ProcDict :=
  PD (size pd) (used pd) (homeSize pd) (splitPosition pd) (numElements pd) l.

(** Conversion to [Uint] *)
Definition to_Uint (z : Z) : Z := wrap_u (8 * sizeof_Uint) z.

Definition mk_list (l : list (tuple Eterm)) : slot := match l with [] => Nil | _ => Lst l end.

(** The cells reached with [TCDR] from a term up to [NIL] *)
Definition list_cells (s : slot) : option (list (tuple Eterm)) :=
  match s with Nil => Some [] | Lst l => Some l | _ => None end.

Definition CONS (t : tuple Eterm) (s : slot) : option slot := l ← list_cells s; Some (Lst (t :: l)).

Definition HASH_RANGE pd : Z := uint32 (homeSize pd + splitPosition pd).

(** [data[ndx]] *)
Definition data_at pd (ndx : Z) : option slot := if 0 <=? ndx then data pd !! Z.to_nat ndx else None.

Definition ARRAY_GET pd (ndx : Z) : option slot := if size pd >? ndx then data_at pd ndx else Some Nil.

Definition next_array_size (need : Z) : option Z :=
  let hi := (29 * 4) / sizeof_Uint - 1 in
  search_size (Z.to_nat (hi + 1)) need hi 1 4.

(** Shortening the block with [PD_REALLOC] drops the end of [data]. *)
Definition array_shrink pd (need : Z) : option ProcDict :=
  siz ← next_array_size need;
  if siz >? size pd then Some pd
  else Some (PD siz (if siz <? used pd then siz else used pd) (homeSize pd) (splitPosition pd) (numElements pd)
                (take (Z.to_nat siz) (data pd))).

(** The part of [array_put] that makes the array large enough *)
Definition array_room p (ndx : Z) : option ProcDict :=
  match p with
  | None => siz ← next_array_size (uint32 (ndx + 1)); Some (PD siz 0 0 0 0 (replicate (Z.to_nat siz) Nil))
  | Some pd =>
      if ndx >=? size pd then
        nsize ← next_array_size (uint32 (ndx + 1));
        Some (PD nsize (used pd) (homeSize pd) (splitPosition pd) (numElements pd)
                 (take (Z.to_nat (size pd)) (data pd) ++ replicate (Z.to_nat (nsize - size pd)) Nil))
      else Some pd
  end.

Definition array_put p (ndx : Z) (term : slot) : option (slot * ProcDict) :=
  pd ← array_room p ndx;
  ret ← data_at pd ndx;
  let ndx1 := uint32 (ndx + 1) in
  Some (ret, PD (size pd) (if ndx1 >? used pd then ndx1 else used pd) (homeSize pd) (splitPosition pd)
                (numElements pd) (<[Z.to_nat ndx := term]> (data pd))).

Definition pd_hash_value pd (term : Eterm) : option Z :=
  let hash := MAKE_HASH term in
  if homeSize pd =? 0 then None
  else
    let high := hash mod uint32 (homeSize pd * 2) in
    Some (if high >=? HASH_RANGE pd then uint32 (hash mod homeSize pd) else uint32 high).

(** One turn of the loop of [shrink]: the last bucket is merged into the bucket it was split from.  The
    C code uses [pd] after the first [array_put], so that call must not reallocate. *)
Definition merge_slots (lo hi : slot) : option slot :=
  needed ← match hi, lo with Lst h, Lst _ => as_int (2 * zlen h) | _, _ => Some 4 end;
  match lo, hi with
  | Tup l, Tup h => _ ← HeapOnlyAlloc needed 4; tmp ← CONS h Nil; CONS l tmp
  | Tup l, _ => _ ← HeapOnlyAlloc needed 2; CONS l hi
  | _, Tup h => _ ← HeapOnlyAlloc needed 2; CONS h lo
  | _, _ =>
      left ← HeapOnlyAlloc needed needed;
      h ← list_cells hi;
      l ← list_cells lo;
      if 2 * zlen h <=? needed then Some (mk_list (foldl (λ lo t, t :: lo) l h)) else None
  end.

Definition shrink_step pd : option ProcDict :=
  let pd := if splitPosition pd =? 0 then set_split (homeSize pd / 2) (homeSize pd / 2) pd else pd in
  let pd := set_split (homeSize pd) (uint32 (splitPosition pd - 1)) pd in
  let hi_ix := uint32 (splitPosition pd + homeSize pd) in
  hi ← ARRAY_GET pd hi_ix;
  lo ← ARRAY_GET pd (splitPosition pd);
  pd' ← match hi with
        | Nil => Some pd
        | _ =>
            new ← match lo with Nil => Some hi | _ => merge_slots lo hi end;
            if splitPosition pd >=? size pd then None else '(_, pd') ← array_put (Some pd) (splitPosition pd) new; Some pd'
        end;
  '(_, pd'') ← array_put (Some pd') hi_ix Nil;
  Some pd''.

Fixpoint shrink_loop (steps : nat) pd : option ProcDict :=
  match steps with O => Some pd | S n => pd' ← shrink_step pd; shrink_loop n pd' end.

Definition shrink pd : option ProcDict :=
  let range := HASH_RANGE pd in
  let steps := uint32 (range * 3) / 10 in
  let steps := if uint32 (range - steps) <? INITIAL_SIZE then uint32 (range - INITIAL_SIZE) else steps in
  pd ← shrink_loop (Z.to_nat steps) pd;
  if HASH_RANGE pd <=? size pd / 4 then array_shrink pd (uint32 (HASH_RANGE pd * 3) / 2) else Some pd.

(** The heap words that splitting the next [steps] buckets needs *)
Fixpoint grow_needed (steps : nat) pd (pos home : Z) : option Z :=
  match steps with
  | O => Some 0
  | S n =>
      let '(home, pos) := if pos =? home then (uint32 (home * 2), 0) else (home, pos) in
      l ← ARRAY_GET pd pos;
      words ← match l with Tup _ => Some 0 | _ => cells ← list_cells l; Some (2 * zlen cells) end;
      needed ← grow_needed n pd (uint32 (pos + 1)) home;
      as_int (words + needed)
  end.

(** The loop that deals the cells of a bucket to [l1] (they stay) and [l2] (they move) *)
Fixpoint split_cells pd (pos : Z) (l l1 l2 : list (tuple Eterm)) : option (list (tuple Eterm) * list (tuple Eterm)) :=
  match l with
  | [] => Some (l1, l2)
  | t :: l' => h ← pd_hash_value pd t.1; if h =? pos then split_cells pd pos l' (t :: l1) l2 else split_cells pd pos l' l1 (t :: l2)
  end.

(** A list of one element is replaced by the element. *)
Definition collapse (l : list (tuple Eterm)) : slot := match l with [t] => Tup t | _ => mk_list l end.

Definition grow_step (left : Z) pd : option (Z * ProcDict) :=
  let pd := if splitPosition pd =? homeSize pd then set_split (uint32 (homeSize pd * 2)) 0 pd else pd in
  let pos := splitPosition pd in
  let pd := set_split (homeSize pd) (uint32 (splitPosition pd + 1)) pd in
  l ← ARRAY_GET pd pos;
  match l with
  | Tup t =>
      h ← pd_hash_value pd t.1;
      if h =? pos then Some (left, pd)
      else
        '(_, pd) ← array_put (Some pd) (uint32 (pos + homeSize pd)) l;
        '(_, pd) ← array_put (Some pd) pos Nil;
        Some (left, pd)
  | _ =>
      cells ← list_cells l;
      left ← HeapOnlyAlloc left (2 * zlen cells);
      '(l1, l2) ← split_cells pd pos cells [] [];
      '(_, pd) ← array_put (Some pd) pos (collapse l1);
      '(_, pd) ← array_put (Some pd) (uint32 (pos + homeSize pd)) (collapse l2);
      Some (left, pd)
  end.

Fixpoint grow_loop (steps : nat) (left : Z) pd : option ProcDict :=
  match steps with O => Some pd | S n => '(left', pd') ← grow_step left pd; grow_loop n left' pd' end.

Definition grow pd : option ProcDict :=
  let steps := homeSize pd / 5 in
  let steps := if steps =? 0 then 1 else steps in
  if MAX_HASH - steps <=? HASH_RANGE pd then Some pd
  else
    needed ← grow_needed (Z.to_nat steps) pd (splitPosition pd) (homeSize pd);
    grow_loop (Z.to_nat steps) needed pd.

(** The loop over the cells of a bucket in [pd_hash_erase].  [prev] points into the list, or ([live = false]) into the cell that
    was just unlinked: then an assignment to [*prev] does not change the list.  The results are the list, the
    last value found, and the number of matches. *)
Fixpoint erase_cells (l : list (tuple Eterm)) id (live : bool) (ret : Eterm) (n : Z) : list (tuple Eterm) * Eterm * Z :=
  match l with
  | [] => ([], ret, n)
  | t :: l' =>
      if bool_decide (t.1 = id) then
        let '(l'', ret', n') := erase_cells l' id (negb live) t.2 (n + 1) in
        (if live then l'' else t :: l'', ret', n')
      else let '(l'', ret', n') := erase_cells l' id true ret n in (t :: l'', ret', n')
  end.

Definition pd_hash_erase p id : option (Eterm * option ProcDict) :=
  match p with
  | None => Some (am_undefined, None)
  | Some pd =>
      hval ← pd_hash_value pd id;
      old ← ARRAY_GET pd hval;
      '(ret, pd) ←
        match old with
        | Tup t =>
            if bool_decide (t.1 = id) then
              '(_, pd) ← array_put (Some pd) hval Nil;
              Some (t.2, set_num (to_Uint (numElements pd - 1)) pd)
            else Some (am_undefined, pd)
        | Lst cells =>
            let '(cells', ret, n) := erase_cells cells id true am_undefined 0 in
            let pd := set_num (to_Uint (numElements pd - n)) (set_data (<[Z.to_nat hval := mk_list cells']> (data pd)) pd) in
            match cells' with
            | [] => None
            | [t] => '(_, pd) ← array_put (Some pd) hval (Tup t); Some (ret, pd)
            | _ => Some (ret, pd)
            end
        | Nil => Some (am_undefined, pd)
        | Other _ => None
        end;
      let range := HASH_RANGE pd in
      if (range >? INITIAL_SIZE) && (range / 2 >? numElements pd) then pd ← shrink pd; Some (ret, Some pd)
      else Some (ret, Some pd)
  end.

Definition pd_hash_erase_all p : option ProcDict := match p with Some _ => None | None => p end.

Definition erts_erase_dicts p : option ProcDict :=
  match p with Some _ => pd_hash_erase_all p | None => p end.

(** The loop [tmp != NIL && !EQ(tuple_val(TCAR(tmp))[1], id)]: number of cells passed, and the cell found *)
Fixpoint find_cell (l : list (tuple Eterm)) id (i : Z) : Z * option (tuple Eterm) :=
  match l with
  | [] => (i, None)
  | t :: l' => if bool_decide (t.1 = id) then (i, Some t) else find_cell l' id (i + 1)
  end.

Definition erts_pd_hash_get p id : option Eterm :=
  match p with
  | None => Some am_undefined
  | Some pd =>
      hval ← pd_hash_value pd id;
      tmp ← ARRAY_GET pd hval;
      match tmp with
      | Tup t => Some (if bool_decide (t.1 = id) then t.2 else am_undefined)
      | Lst l => Some (match (find_cell l id 0).2 with Some t => t.2 | None => am_undefined end)
      | Nil => Some am_undefined
      | Other _ => None
      end
  end.

(** [for (i = 0; i < num; ++i)] over the slots: [f] is applied to every tuple, in the order of the table, starting
    with [res]. *)
Fixpoint over_slots {A} (f : A → tuple Eterm → A) (n : nat) pd (i : Z) (res : A) : option A :=
  match n with
  | O => Some res
  | S n' =>
      s ← ARRAY_GET pd i;
      res ← match s with Tup t => Some (f res t) | Lst l => Some (foldl f res l) | Nil => Some res | Other _ => None end;
      over_slots f n' pd (i + 1) res
  end.

Definition pd_hash_get_keys p value : option (list Eterm) :=
  match p with
  | None => Some []
  | Some pd =>
      over_slots (λ res t, if bool_decide (t.2 = value) then t.1 :: res else res) (Z.to_nat (HASH_RANGE pd)) pd 0 []
  end.

(** The cells are taken from a block of [numElements * 2] words. *)
Definition pd_hash_get_all p : option (list (tuple Eterm)) :=
  match p with
  | None => Some []
  | Some pd =>
      res ← over_slots (λ res t, t :: res) (Z.to_nat (HASH_RANGE pd)) pd 0 [];
      _ ← HeapOnlyAlloc (to_Uint (numElements pd * 2)) (2 * zlen res);
      Some res
  end.

(** The same loop, on a temporary block of [sizeof(Eterm) * numElements * 2] bytes; an [Eterm] is as large as a
    [Uint], and the function [copy_object] is the identity on terms.  [PD_CHECK], which is nothing in a build without [DEBUG], is left out. *)
Definition erts_dictionary_copy p : option (list (tuple Eterm)) :=
  match p with
  | None => Some []
  | Some pd =>
      res ← over_slots (λ res t, t :: res) (Z.to_nat (HASH_RANGE pd)) pd 0 [];
      _ ← HeapOnlyAlloc (to_Uint (sizeof_Uint * numElements pd * 2)) (sizeof_Uint * (2 * zlen res));
      Some res
  end.

(** The callback of the dump gets the tuples in the order of the table. *)
Definition erts_deep_dictionary_dump p : option (list (tuple Eterm)) :=
  match p with
  | None => Some []
  | Some pd => over_slots (λ res t, res ++ [t]) (Z.to_nat (HASH_RANGE pd)) pd 0 []
  end.

(** The [sizeof] of the structure is an argument. *)
Definition erts_dicts_mem_size (sizeof_ProcDict : Z) p : Z :=
  match p with Some pd => sizeof_ProcDict + (size pd - 1) * sizeof_Uint | None => 0 end.

Definition finish_put pd : option (Eterm * option ProcDict) :=
  if HASH_RANGE pd <=? numElements pd then pd ← grow pd; Some (am_undefined, Some pd)
  else Some (am_undefined, Some pd).

Definition pd_hash_put p id value : option (Eterm * option ProcDict) :=
  pd ← match p with
       | Some pd => Some pd
       | None => '(_, pd) ← array_put None (INITIAL_SIZE - 1) Nil; Some (set_split INITIAL_SIZE (splitPosition pd) pd)
       end;
  hval ← pd_hash_value pd id;
  old ← ARRAY_GET pd hval;
  let tpl := (id, value) in
  match old with
  | Nil =>
      left ← HeapOnlyAlloc 3 3;
      '(_, pd) ← array_put (Some pd) hval (Tup tpl);
      finish_put (set_num (to_Uint (numElements pd + 1)) pd)
  | Tup t =>
      left ← HeapOnlyAlloc (3 + (2 + 2)) 3;
      if bool_decide (t.1 = id) then
        '(_, pd) ← array_put (Some pd) hval (Tup tpl); Some (t.2, Some pd)
      else
        left ← HeapOnlyAlloc left 4;
        tmp ← CONS t Nil;
        let pd := set_num (to_Uint (numElements pd + 1)) pd in
        tmp ← CONS tpl tmp;
        '(_, pd) ← array_put (Some pd) hval tmp;
        finish_put pd
  | Lst l =>
      let '(i, found) := find_cell l id 0 in
      match found with
      | None =>
          left ← HeapOnlyAlloc (3 + 2) 3;
          left ← HeapOnlyAlloc left 2;
          tmp ← CONS tpl old;
          '(_, pd) ← array_put (Some pd) hval tmp;
          finish_put (set_num (to_Uint (numElements pd + 1)) pd)
      | Some t =>
          needed ← as_int (3 + 2 * (i + 1));
          left ← HeapOnlyAlloc needed 3;
          left ← HeapOnlyAlloc left ((i + 1) * 2);
          let unchanged := drop (Z.to_nat i + 1) l in
          let nlist := foldl (λ nlist t, t :: nlist) unchanged (take (Z.to_nat i) l) in
          '(_, pd) ← array_put (Some pd) hval (Lst (tpl :: nlist));
          Some (t.2, Some pd)
      end
  | Other _ => None
  end.

(** The check of the debug build: [false] is a failed assertion, or the exit on an unexpected term. *)
Definition slot_count (s : slot) : option Z :=
  match s with Nil => Some 0 | Tup _ => Some 1 | Lst l => Some (zlen l) | Other _ => None end.

Fixpoint check_slots (n : nat) pd (i : Z) (num : Z) : option Z :=
  match n with
  | O => Some num
  | S n' => s ← data_at pd i; c ← slot_count s; check_slots n' pd (i + 1) (num + c)
  end.

Definition pd_check p : bool :=
  match p with
  | None => true
  | Some pd =>
      (size pd >=? used pd) && (HASH_RANGE pd <=? MAX_HASH) &&
      match check_slots (Z.to_nat (used pd)) pd 0 0 with
      | Some num => (num =? numElements pd) && (splitPosition pd <=? homeSize pd)
      | None => false
      end
  end.

(** * The built-in functions

    Each checks the dictionary before and after, in a debug build. *)
Definition checked {A} (p : option ProcDict) (r : option (A * option ProcDict)) : option (A * option ProcDict) :=
  if pd_check p then '(ret, p') ← r; (if pd_check p' then Some (ret, p') else None) else None.

Definition get_0 p : option (list (tuple Eterm) * option ProcDict) := checked p (ret ← pd_hash_get_all p; Some (ret, p)).
Definition get_1 p id : option (Eterm * option ProcDict) := checked p (ret ← erts_pd_hash_get p id; Some (ret, p)).
Definition get_keys_1 p value : option (list Eterm * option ProcDict) :=
  checked p (ret ← pd_hash_get_keys p value; Some (ret, p)).
Definition put_2 p id value : option (Eterm * option ProcDict) := checked p (pd_hash_put p id value).
Definition erase_0 p : option (list (tuple Eterm) * option ProcDict) :=
  checked p (ret ← pd_hash_get_all p; Some (ret, pd_hash_erase_all p)).
Definition erase_1 p id : option (Eterm * option ProcDict) := checked p (pd_hash_erase p id).

End ProcDict.
Arguments slot Eterm : clear implicits.
Arguments ProcDict Eterm : clear implicits.
