(* ===== verification/ProcDictSpec.v ===== *)
(** The invariant of the process dictionary ([ProcDict]) and the effect of its array and rehashing operations: where
    linear hashing puts a key, and that splitting and merging buckets keeps the entries. *)

From Stdlib Require Import ZArith ZifyBool.
From stdpp Require Import base list numbers option gmap.
From S2P Require Import Prelude LinearHash ProcDict.
Local Open Scope Z_scope.

Class DictTermLaws (Eterm : Type) `{DictTerms Eterm} := {
  make_hash_pos : ∀ t, 0 ≤ MAKE_HASH t;
  sizeof_Uint_ok : sizeof_Uint = 4 ∨ sizeof_Uint = 8 }.

(** * Linear hashing *)

Definition geo_ok (home split : Z) : Prop :=
  (∃ k, 0 ≤ k ∧ home = INITIAL_SIZE * 2 ^ k) ∧ 0 ≤ split ≤ home ∧ home + split ≤ MAX_HASH.

Section HashIx.
Implicit Types home split h : Z.

Lemma geo_pos home split : geo_ok home split → 10 ≤ home ≤ MAX_HASH ∧ 0 ≤ split ≤ home ∧ home + split ≤ MAX_HASH.
Proof.
  intros [(k & Hk & ->) ?]. unfold INITIAL_SIZE in *. pose proof (Z.pow_pos_nonneg 2 k). lia.
Qed.

Lemma geo_double home : geo_ok home home → geo_ok (home * 2) 0.
Proof.
  intros [(k & Hk & ->) [? ?]]. split; [|lia]. exists (k + 1). rewrite Z.pow_add_r by lia. lia.
Qed.

Lemma geo_halve home : geo_ok home 0 → INITIAL_SIZE < home → geo_ok (home / 2) (home / 2) ∧ home = home / 2 * 2.
Proof.
  intros [(k & Hk & ->) [? ?]] Hlt. unfold INITIAL_SIZE in *.
  destruct (decide (k = 0)) as [->|]; [cbn in Hlt; lia|].
  assert (10 * 2 ^ k / 2 = 10 * 2 ^ (k - 1)) as ->.
  { replace k with (k - 1 + 1) at 1 by lia. rewrite Z.pow_add_r by lia. rewrite Z.mul_assoc. apply Z.div_mul. lia. }
  assert (2 ^ k = 2 ^ (k - 1) * 2) as Hp by (replace k with (k - 1 + 1) at 1 by lia; rewrite Z.pow_add_r by lia; lia).
  split; [|lia]. split; [|lia]. exists (k - 1). unfold INITIAL_SIZE. split; lia.
Qed.

End HashIx.

(** * The sizes of the array *)

Lemma array_sizes_at i : 1 ≤ i ≤ 28 → ∃ c, load array_sizes (i - 1) = Some c ∧ load array_sizes i = Some (c * 2).
Proof.
  intros Hi. assert (∃ j : nat, (j < 28)%nat ∧ i = Z.of_nat j + 1) as (j & Hj & ->) by (exists (Z.to_nat (i - 1)); lia).
  do 28 (destruct j as [|j]; [eexists; split; reflexivity|]). lia.
Qed.

(** The search ends, and what it finds is enough and less than twice too large. *)
Lemma search_size_ok fuel need hi lo cur : 0 ≤ need → 1 ≤ lo → hi ≤ 28 → (hi < lo ∨ lo ≤ cur ≤ hi) →
  hi - lo + 2 ≤ Z.of_nat fuel → 1 ≤ Z.of_nat fuel →
  ∃ n, search_size fuel need hi lo cur = Some n ∧ need ≤ n ∧ (n = need ∨ n < 2 * need).
Proof.
  intros Hneed. revert hi lo cur. induction fuel as [|fuel IH]; intros hi lo cur Hlo Hhi Hcur Hf Hf1; [lia|].
  cbn [search_size]. destruct (Z.geb_spec hi lo) as [Hge|Hlt]; [|exists need; repeat split; lia].
  destruct (array_sizes_at cur) as (c & Hc & Hc2); [lia|]. rewrite Hc2, Hc. cbn.
  destruct (Z.geb_spec (c * 2) need), (Z.ltb_spec c need); cbn [andb].
  1: by exists (c * 2); repeat split; lia.
  all: destruct (Z.gtb_spec (c * 2) need); apply IH; try lia;
    rewrite Z.quot_div_nonneg by lia; Z.to_euclidean_division_equations; lia.
Qed.

(** * The invariant *)
Section Spec.
Context {Eterm : Type} `{Countable Eterm, !DictTerms Eterm, !DictTermLaws Eterm}.
Implicit Types (pd : ProcDict Eterm) (s : slot Eterm) (t : tuple Eterm) (l : list (tuple Eterm)) (i ndx : Z).

Lemma next_array_size_ok need : 0 ≤ need →
  ∃ n, next_array_size need = Some n ∧ need ≤ n ∧ (n = need ∨ n < 2 * need).
Proof. intros Hn. unfold next_array_size. destruct sizeof_Uint_ok as [-> | ->];
  [change (29 * 4 / 4 - 1) with 28 | change (29 * 4 / 8 - 1) with 13]; apply search_size_ok; lia. Qed.

Definition slot_entries s : list (tuple Eterm) :=
  match s with Nil => [] | Tup t => [t] | Lst l => l | Other _ => [] end.

Definition slot_ok s : Prop :=
  match s with Lst l => (2 ≤ length l)%nat | Other _ => False | _ => True end.

Definition slot_at pd i : slot Eterm := default Nil (data pd !! Z.to_nat i).

Definition entries pd : list (tuple Eterm) := data pd ≫= slot_entries.

Definition pd_ix pd (k : Eterm) : Z := hash_ix (homeSize pd) (splitPosition pd) (MAKE_HASH k).

(** The array: [used] is an upper bound of the slots in use. *)
Definition arr_ok pd : Prop :=
  size pd = zlen (data pd) ∧ 0 ≤ used pd ≤ size pd ∧ (∀ i, used pd ≤ i → slot_at pd i = Nil) ∧ Forall slot_ok (data pd).

(** The table: every entry is in the bucket of its key, keys are distinct, and entries are counted. *)
Definition table_ok pd : Prop :=
  geo_ok (homeSize pd) (splitPosition pd) ∧
  (∀ i t, 0 ≤ i → t ∈ slot_entries (slot_at pd i) → pd_ix pd t.1 = i) ∧
  NoDup (entries pd).*1 ∧ numElements pd = zlen (entries pd).

Definition pd_ok pd : Prop := arr_ok pd ∧ table_ok pd.

(** ** Slots *)

Lemma slot_at_ok pd i : arr_ok pd → slot_ok (slot_at pd i).
Proof.
  intros (_ & _ & _ & Hs). unfold slot_at. destruct (data pd !! Z.to_nat i) eqn:E; [|done].
  by eapply (Forall_lookup_1 _ _ _ _ Hs E).
Qed.

Lemma ARRAY_GET_eq pd i : arr_ok pd → 0 ≤ i → ARRAY_GET pd i = Some (slot_at pd i).
Proof.
  intros (Hsz & _) Hi. unfold ARRAY_GET, data_at, slot_at. destruct (Z.gtb_spec (size pd) i) as [Hlt|Hge].
  - rewrite (proj2 (Z.leb_le _ _)) by lia. destruct (lookup_lt_is_Some_2 (data pd) (Z.to_nat i)) as [s ->]; [lia|done].
  - by rewrite lookup_ge_None_2 by lia.
Qed.

Lemma slot_at_nonnil pd i : arr_ok pd → 0 ≤ i → slot_at pd i ≠ Nil → i < size pd.
Proof.
  intros (Hsz & _) Hi. unfold slot_at. destruct (data pd !! Z.to_nat i) eqn:E; [|done].
  intros _. apply lookup_lt_Some in E. lia.
Qed.

Lemma elem_of_entries pd t : t ∈ entries pd ↔ ∃ i, 0 ≤ i ∧ t ∈ slot_entries (slot_at pd i).
Proof.
  unfold entries, slot_at. rewrite list_elem_of_bind. split.
  - intros (s & Ht & Hs). apply list_elem_of_lookup in Hs as [n Hn]. exists (Z.of_nat n).
    rewrite Nat2Z.id, Hn. split; [lia|done].
  - intros (i & _ & Ht). destruct (data pd !! Z.to_nat i) as [s|] eqn:E; [|by apply elem_of_nil in Ht].
    exists s. split; [done|]. by eapply list_elem_of_lookup_2.
Qed.

Lemma slot_entries_collapse l : slot_entries (collapse l) = l ∧ slot_ok (collapse l).
Proof. destruct l as [|t1 [|t2 l]]; cbn; split; (done || lia). Qed.

(** Replacing one slot, and leaving the other entries where they are. *)
Lemma bind_insert (d : list (slot Eterm)) n s : (n < length d)%nat → ∃ R,
  d ≫= slot_entries ≡ₚ slot_entries (default Nil (d !! n)) ++ R ∧ <[n := s]> d ≫= slot_entries ≡ₚ slot_entries s ++ R.
Proof.
  intros Hn. destruct (lookup_lt_is_Some_2 _ _ Hn) as [old E]. rewrite E.
  exists ((take n d ≫= slot_entries) ++ (drop (S n) d ≫= slot_entries)). split.
  - rewrite <- (take_drop_middle _ _ _ E) at 1. rewrite bind_app, bind_cons. solve_Permutation.
  - rewrite insert_take_drop by done. rewrite bind_app, bind_cons. solve_Permutation.
Qed.

Lemma bind_nil_replicate n : replicate n Nil ≫= slot_entries = [].
Proof. induction n; [done|]. cbn. by rewrite IHn. Qed.

(** Past the last slot in use there are no entries. *)
Lemma drop_entries_nil pd n : 0 ≤ n → (∀ i, n ≤ i → slot_at pd i = Nil) → drop (Z.to_nat n) (data pd) ≫= slot_entries = [].
Proof.
  intros Hn Hnil. destruct (drop (Z.to_nat n) (data pd) ≫= slot_entries) as [|t r] eqn:E; [done|].
  assert (t ∈ drop (Z.to_nat n) (data pd) ≫= slot_entries) as Ht by (rewrite E; left).
  apply list_elem_of_bind in Ht as (s & Ht & Hin). apply list_elem_of_lookup in Hin as [j Hj]. rewrite lookup_drop in Hj.
  specialize (Hnil (Z.of_nat (Z.to_nat n + j)) ltac:(lia)). unfold slot_at in Hnil. rewrite Nat2Z.id, Hj in Hnil. cbn in Hnil.
  subst. by apply elem_of_nil in Ht.
Qed.

(** A slot of the invariant without entries is [NIL]. *)
Lemma slot_empty s : slot_ok s → slot_entries s = [] → s = Nil.
Proof. destruct s as [|t|l|t]; cbn; [done..|intros Hl ->; cbn in Hl; lia|done]. Qed.

Lemma beyond_range pd i : pd_ok pd → homeSize pd + splitPosition pd ≤ i → slot_at pd i = Nil.
Proof.
  intros [Ha (Hg & Hp & _)] Hi. destruct (geo_pos _ _ Hg) as (Hh & Hs & Hr).
  apply slot_empty; [by apply slot_at_ok|]. destruct (slot_entries (slot_at pd i)) as [|t r] eqn:E; [done|].
  assert (pd_ix pd t.1 = i) as Hix by (apply Hp; [lia|rewrite E; left]).
  pose proof (hash_ix_range (homeSize pd) (splitPosition pd) (MAKE_HASH t.1)). unfold pd_ix in Hix. lia.
Qed.

Lemma array_room_ok pd ndx : arr_ok pd → 0 ≤ ndx < MAX_HASH * 2 → ∃ pd',
  array_room (Some pd) ndx = Some pd' ∧ arr_ok pd' ∧ ndx < size pd' ∧ entries pd' = entries pd ∧
  (∀ i, 0 ≤ i → slot_at pd' i = slot_at pd i) ∧ 
  used pd' = used pd ∧ homeSize pd' = homeSize pd ∧ splitPosition pd' = splitPosition pd ∧ numElements pd' = numElements pd ∧
  size pd' ≤ Z.max (size pd) (2 * (ndx + 1)).
Proof.
  intros Ha Hn. pose proof Ha as (Hsz & Hu & Hnil & Hs). unfold array_room.
  destruct (Z.geb_spec ndx (size pd)) as [Hge|Hlt]; [|by exists pd; split_and!; (done || lia)].
  rewrite wrap_u_small by (unfold MAX_HASH in *; lia).
  destruct (next_array_size_ok (ndx + 1)) as (n & -> & Hle & Hn2); [lia|]. cbn.
  rewrite take_ge by lia.
  assert (∀ i, 0 ≤ i → default Nil ((data pd ++ replicate (Z.to_nat (n - size pd)) Nil) !! Z.to_nat i) = slot_at pd i) as Hsl.
  { intros i Hi. unfold slot_at. destruct (decide (i < size pd)).
    - by rewrite lookup_app_l by lia.
    - rewrite lookup_app_r, (lookup_ge_None_2 (data pd)) by lia.
      destruct (replicate _ _ !! _) eqn:E; [|done]. by apply lookup_replicate in E as [-> _]. }
  eexists. split; [done|]. repeat split; cbn; try done; try lia.
  - len_simpl. lia.
  - intros i Hi. unfold slot_at at 1. cbn. rewrite Hsl by lia. by apply Hnil.
  - apply Forall_app. split; [done|]. by apply Forall_replicate.
  - unfold entries. cbn. by rewrite bind_app, bind_nil_replicate, app_nil_r.
Qed.

Lemma array_put_ok pd ndx s : arr_ok pd → 0 ≤ ndx < MAX_HASH * 2 → slot_ok s → ∃ pd' R,
  array_put (Some pd) ndx s = Some (slot_at pd ndx, pd') ∧ arr_ok pd' ∧
  (homeSize pd' = homeSize pd ∧ splitPosition pd' = splitPosition pd ∧ numElements pd' = numElements pd) ∧
  (∀ i, 0 ≤ i → slot_at pd' i = if i =? ndx then s else slot_at pd i) ∧
  entries pd ≡ₚ slot_entries (slot_at pd ndx) ++ R ∧ entries pd' ≡ₚ slot_entries s ++ R ∧
  size pd' ≤ Z.max (size pd) (2 * (ndx + 1)).
Proof.
  intros Ha Hn Hs. unfold array_put.
  destruct (array_room_ok pd ndx) as (pd1 & -> & Ha1 & Hlt & He & Hsl & Hu & Hh & Hsp & Hnum & Hsize); [done..|]. cbn.
  destruct Ha1 as (Hsz & Hus & Hnil & Hok). rewrite wrap_u_small by (unfold MAX_HASH in *; lia).
  destruct (lookup_lt_is_Some_2 (data pd1) (Z.to_nat ndx)) as [old E]; [lia|].
  assert (slot_at pd ndx = old) as Hold by (rewrite <- Hsl by lia; unfold slot_at; by rewrite E).
  unfold data_at. rewrite (proj2 (Z.leb_le _ _)), E by lia. cbn.
  destruct (bind_insert (data pd1) (Z.to_nat ndx) s) as (R & HR1 & HR2); [lia|].
  rewrite E in HR1. cbn in HR1.
  assert (∀ i, 0 ≤ i → default Nil (<[Z.to_nat ndx := s]> (data pd1) !! Z.to_nat i) = if i =? ndx then s else slot_at pd i) as Hat.
  { intros i Hi. destruct (Z.eqb_spec i ndx) as [->|].
    - by rewrite list_lookup_insert_eq by lia.
    - rewrite list_lookup_insert_ne by lia. by apply Hsl. }
  eexists _, R. split; [by rewrite Hold|]. cbn. split; [|split; [done|split; [exact Hat|]]].
  - split; [by cbn; rewrite length_insert|]. cbn. split; [destruct (Z.gtb_spec (ndx + 1) (used pd1)); lia|].
    split; [|by apply Forall_insert]. intros i Hi. unfold slot_at. cbn.
    destruct (Z.gtb_spec (ndx + 1) (used pd1)); rewrite Hat by lia; destruct (Z.eqb_spec i ndx); try lia;
      rewrite <- Hsl by lia; apply Hnil; lia.
  - rewrite Hold, <- He. done.
Qed.

Lemma array_shrink_ok pd need : pd_ok pd → homeSize pd + splitPosition pd ≤ need → ∃ pd',
  array_shrink pd need = Some pd' ∧ pd_ok pd' ∧ entries pd' = entries pd ∧
  homeSize pd' = homeSize pd ∧ splitPosition pd' = splitPosition pd ∧ numElements pd' = numElements pd ∧ size pd' ≤ 2 * need.
Proof.
  intros Hok Hneed. pose proof Hok as ((Hsz & Hu & Hnil & Hs) & (Hg & Hp & Hk & Hnum)). unfold array_shrink.
  destruct (geo_pos _ _ Hg) as (? & ? & ?).
  destruct (next_array_size_ok need) as (n & -> & Hle & Hn2); [lia|]. cbn.
  destruct (Z.gtb_spec n (size pd)) as [|Hle2]; [exists pd; split_and!; (done || lia)|].
  eexists. split; [done|]. set (pd' := PD _ _ _ _ _ _).
  assert (∀ i, 0 ≤ i → slot_at pd' i = slot_at pd i) as Hsl.
  { intros i Hi. unfold slot_at at 1. cbn. destruct (decide (i < n)); [by rewrite lookup_take_lt by lia|].
    rewrite lookup_take_ge by lia. symmetry. apply beyond_range; [done|lia]. }
  assert (entries pd' = entries pd) as He.
  { unfold entries. cbn. rewrite <- (take_drop (Z.to_nat n) (data pd)) at 2. rewrite bind_app.
    rewrite drop_entries_nil, app_nil_r; [done|lia|]. intros i Hi. apply beyond_range; [done|lia]. }
  split; [|split_and!; (done || cbn; lia)]. split.
  - split; [cbn; rewrite length_take; lia|]. cbn. split; [destruct (Z.ltb_spec n (used pd)); lia|].
    split; [|by apply Forall_take]. intros i Hi. destruct (decide (0 ≤ i)).
    + rewrite Hsl by lia. destruct (Z.ltb_spec n (used pd)); [|apply Hnil; lia].
      rewrite <- Hsl by lia. unfold slot_at. cbn. by rewrite lookup_take_ge by lia.
    + destruct (Z.ltb_spec n (used pd)); lia.
  - split; [done|]. split; [|by rewrite He]. intros i t Hi. rewrite Hsl by lia. by apply Hp.
Qed.
End Spec.

(** * Rehashing of the process dictionary: [grow] and [shrink] of [ProcDict] keep the entries and the invariant, and
    stay within the heap words they reserve. *)

Section Rehash.
Context {Eterm : Type} `{Countable Eterm, !DictTerms Eterm, !DictTermLaws Eterm}.
Implicit Types (pd : ProcDict Eterm) (s : slot Eterm) (t : tuple Eterm) (l : list (tuple Eterm)) (i ndx : Z).

(** ** Moving entries *)

Lemma put2_ok pd a b sa sb : arr_ok pd → a ≠ b → 0 ≤ a < MAX_HASH * 2 → 0 ≤ b < MAX_HASH * 2 → slot_ok sa → slot_ok sb →
  slot_entries sa ++ slot_entries sb ≡ₚ slot_entries (slot_at pd a) ++ slot_entries (slot_at pd b) → ∃ pd1 pd2,
  array_put (Some pd) a sa = Some (slot_at pd a, pd1) ∧ array_put (Some pd1) b sb = Some (slot_at pd b, pd2) ∧ arr_ok pd2 ∧
  homeSize pd1 = homeSize pd ∧
  (homeSize pd2 = homeSize pd ∧ splitPosition pd2 = splitPosition pd ∧ numElements pd2 = numElements pd) ∧
  (∀ i, 0 ≤ i → slot_at pd2 i = if i =? b then sb else if i =? a then sa else slot_at pd i) ∧ entries pd2 ≡ₚ entries pd ∧
  size pd2 ≤ Z.max (size pd) (2 * (Z.max a b + 1)).
Proof.
  intros Ha Hab Hba Hbb Hsa Hsb HP.
  destruct (array_put_ok pd a sa) as (pd1 & R1 & E1 & Ha1 & (? & ? & ?) & Hat1 & HR1 & HR1' & Hz1); [done..|].
  destruct (array_put_ok pd1 b sb) as (pd2 & R2 & E2 & Ha2 & (? & ? & ?) & Hat2 & HR2 & HR2' & Hz2); [done..|].
  assert (slot_at pd1 b = slot_at pd b) as Hb by (rewrite Hat1 by lia; destruct (Z.eqb_spec b a); [lia|done]).
  exists pd1, pd2. split; [done|]. split; [by rewrite <- Hb|]. split; [done|]. split; [done|]. split; [split_and!; congruence|].
  split; [|split; [|lia]].
  - intros i Hi. rewrite Hat2, Hat1 by lia. done.
  - rewrite Hb in HR2. apply (Permutation_app_inv_l (slot_entries sa ++ slot_entries (slot_at pd b))).
    rewrite HR2', HR1. rewrite (Permutation_app_comm (slot_entries (slot_at pd a))).
    transitivity ((slot_entries sa ++ slot_entries sb) ++ (slot_entries (slot_at pd b) ++ R2)); [solve_Permutation|].
    rewrite HP, <- HR2, HR1'. solve_Permutation.
Qed.

Lemma table_ok_moved pd pd' : table_ok pd → geo_ok (homeSize pd') (splitPosition pd') → numElements pd' = numElements pd →
  entries pd' ≡ₚ entries pd → (∀ i t, 0 ≤ i → t ∈ slot_entries (slot_at pd' i) → pd_ix pd' t.1 = i) → table_ok pd'.
Proof.
  intros (_ & _ & Hk & Hn) Hg Hnum He Hp. split; [done|]. split; [done|]. split; [by rewrite He|]. rewrite Hnum, He. done.
Qed.

Lemma pd_hash_value_eq pd (k : Eterm) : geo_ok (homeSize pd) (splitPosition pd) → pd_hash_value pd k = Some (pd_ix pd k).
Proof.
  intros Hg. destruct (geo_pos _ _ Hg) as (Hh & Hs & Hr). unfold MAX_HASH in *.
  unfold pd_hash_value, pd_ix, hash_ix, HASH_RANGE. destruct (Z.eqb_spec (homeSize pd) 0); [lia|].
  rewrite (wrap_u_small 32 (homeSize pd * 2)), (wrap_u_small 32 (homeSize pd + _)) by lia.
  pose proof (Z.mod_pos_bound (MAKE_HASH k) (homeSize pd * 2)). pose proof (Z.mod_pos_bound (MAKE_HASH k) (homeSize pd)).
  rewrite !wrap_u_small by lia. done.
Qed.

(** ** Splitting one bucket *)

Lemma split_cells_ok pd pos l : geo_ok (homeSize pd) (splitPosition pd) → ∀ l1 l2,
  ∃ r1 r2, split_cells pd pos l l1 l2 = Some (r1, r2) ∧ r1 ++ r2 ≡ₚ l ++ l1 ++ l2 ∧
  (Forall (λ t, pd_ix pd t.1 = pos) l1 → Forall (λ t, pd_ix pd t.1 = pos) r1) ∧
  (Forall (λ t, pd_ix pd t.1 ≠ pos) l2 → Forall (λ t, pd_ix pd t.1 ≠ pos) r2).
Proof.
  intros Hg. induction l as [|t l IH]; intros l1 l2; cbn [split_cells]; [by exists l1, l2|].
  rewrite pd_hash_value_eq by done. cbn. destruct (Z.eqb_spec (pd_ix pd t.1) pos) as [Ht|Ht].
  - destruct (IH (t :: l1) l2) as (r1 & r2 & -> & HP & H1 & H2). exists r1, r2. split; [done|]. split; [|auto].
    rewrite HP. solve_Permutation.
  - destruct (IH l1 (t :: l2)) as (r1 & r2 & -> & HP & H1 & H2). exists r1, r2. split; [done|]. split; [|auto].
    rewrite HP. solve_Permutation.
Qed.

(** The words reserved for a slot *)
Definition words s : Z := match s with Tup _ => 0 | _ => 2 * zlen (slot_entries s) end.

(** After a split at [pos], given where the entries of the bucket went. *)
Lemma split_placed pd pd' s1 s2 : pd_ok pd → splitPosition pd < homeSize pd → homeSize pd + splitPosition pd < MAX_HASH →
  arr_ok pd' → homeSize pd' = homeSize pd → splitPosition pd' = splitPosition pd + 1 → numElements pd' = numElements pd →
  entries pd' ≡ₚ entries pd →
  (∀ i, 0 ≤ i → slot_at pd' i = if i =? splitPosition pd + homeSize pd then s2 else if i =? splitPosition pd then s1 else slot_at pd i) →
  slot_entries s1 ++ slot_entries s2 ≡ₚ slot_entries (slot_at pd (splitPosition pd)) →
  Forall (λ t, pd_ix pd' t.1 = splitPosition pd) (slot_entries s1) → Forall (λ t, pd_ix pd' t.1 ≠ splitPosition pd) (slot_entries s2) →
  pd_ok pd'.
Proof.
  intros [Ha Htab] Hlt Hmax Ha' Hh Hs Hnum He Hat HP H1 H2. split; [done|]. pose proof Htab as (Hg & Hp & _).
  destruct (geo_pos _ _ Hg) as (Hh0 & Hs0 & Hr). destruct Hg as (Hpow & _).
  apply (table_ok_moved pd); try done.
  { rewrite Hh, Hs. split; [done|]. lia. }
  assert (∀ i t, 0 ≤ i → t ∈ slot_entries (slot_at pd i) →
    pd_ix pd' t.1 = if i =? splitPosition pd then (if pd_ix pd' t.1 =? splitPosition pd then splitPosition pd else splitPosition pd + homeSize pd) else i) as Hix.
  { intros i t Hi Ht. pose proof (hash_ix_split (homeSize pd) (splitPosition pd) (MAKE_HASH t.1)) as HS. unfold pd_ix at 1 2.
    rewrite Hh, Hs. rewrite HS at 1 by lia. fold (pd_ix pd t.1). by rewrite (Hp i t Hi Ht). }
  intros i t Hi Ht. rewrite Hat in Ht by done.
  assert (∀ u, u ∈ slot_entries s1 ++ slot_entries s2 → u ∈ slot_entries (slot_at pd (splitPosition pd))) as Hin by (intros u Hu; by rewrite <- HP).
  destruct (Z.eqb_spec i (splitPosition pd + homeSize pd)) as [->|].
  - rewrite (Hix (splitPosition pd) t), Z.eqb_refl; [|lia|apply Hin, elem_of_app; by right]. rewrite Forall_forall in H2. specialize (H2 t Ht).
    destruct (Z.eqb_spec (pd_ix pd' t.1) (splitPosition pd)); [done|lia].
  - destruct (Z.eqb_spec i (splitPosition pd)) as [->|]; [by rewrite Forall_forall in H1; apply H1|].
    rewrite (Hix i t Hi Ht). destruct (Z.eqb_spec i (splitPosition pd)); [done|lia].
Qed.

(** What a split leaves, with bucket [pos] split in a table of home size [home]. *)
Definition split_done pd (pos home : Z) pd' : Prop :=
  pd_ok pd' ∧ entries pd' ≡ₚ entries pd ∧ homeSize pd' = home ∧ splitPosition pd' = pos + 1 ∧ numElements pd' = numElements pd ∧
  (∀ i, 0 ≤ i → i ≠ pos → i < home → slot_at pd' i = slot_at pd i) ∧ size pd' ≤ Z.max (size pd) (2 * (pos + home + 1)).

(** The two calls of [array_put] that deal a bucket to [s1] and [s2], in either order *)
Lemma split_put pd s1 s2 : pd_ok pd → splitPosition pd < homeSize pd → homeSize pd + splitPosition pd < MAX_HASH →
  let pos := splitPosition pd in let pd0 := set_split (homeSize pd) (pos + 1) pd in
  slot_ok s1 → slot_ok s2 → slot_entries s1 ++ slot_entries s2 ≡ₚ slot_entries (slot_at pd pos) →
  Forall (λ t, pd_ix pd0 t.1 = pos) (slot_entries s1) → Forall (λ t, pd_ix pd0 t.1 ≠ pos) (slot_entries s2) →
  (∃ r1 r2 pd1 pd2, array_put (Some pd0) pos s1 = Some (r1, pd1) ∧ homeSize pd1 = homeSize pd ∧
     array_put (Some pd1) (pos + homeSize pd) s2 = Some (r2, pd2) ∧ split_done pd pos (homeSize pd) pd2) ∧
  (∃ r1 r2 pd1 pd2, array_put (Some pd0) (pos + homeSize pd) s2 = Some (r2, pd1) ∧ homeSize pd1 = homeSize pd ∧
     array_put (Some pd1) pos s1 = Some (r1, pd2) ∧ split_done pd pos (homeSize pd) pd2).
Proof.
  intros Hok Hlt Hmax pos pd0 Hs1 Hs2 HP H1 H2. pose proof Hok as [Ha (Hg & _)].
  destruct (geo_pos _ _ Hg) as (Hh0 & Hs0 & Hr).
  assert (slot_at pd0 (pos + homeSize pd) = Nil) as Hnew by (apply (beyond_range pd); [done|unfold pos; lia]).
  assert (arr_ok pd0) as Ha0 by exact Ha.
  assert (∀ a b sa sb r1 pd1 pd2, homeSize pd1 = homeSize pd → arr_ok pd2 →
    (homeSize pd2 = homeSize pd0 ∧ splitPosition pd2 = splitPosition pd0 ∧ numElements pd2 = numElements pd0) →
    (∀ i, 0 ≤ i → slot_at pd2 i = if i =? pos + homeSize pd then s2 else if i =? pos then s1 else slot_at pd i) →
    entries pd2 ≡ₚ entries pd → size pd2 ≤ Z.max (size pd) (2 * (pos + homeSize pd + 1)) → array_put (Some pd0) a sa = Some (r1, pd1) → array_put (Some pd1) b sb = Some (slot_at pd0 b, pd2) →
    split_done pd pos (homeSize pd) pd2) as Hdone.
  { intros a b sa sb r1 pd1 pd2 _ Ha2 (Hh & Hs & Hn) Hat He Hz _ _. split; [|split_and!; try done].
    - eapply (split_placed pd pd2 s1 s2); try done; unfold pd_ix; by rewrite Hh, Hs.
    - intros i Hi Hne Hlt'. rewrite Hat by lia. destruct (Z.eqb_spec i (pos + homeSize pd)), (Z.eqb_spec i pos); (lia || done). }
  split.
  - destruct (put2_ok pd0 pos (pos + homeSize pd) s1 s2) as (pd1 & pd2 & E1 & E2 & Ha2 & Hh1 & Hf & Hat & He & Hz); try done; try (unfold pos in *; lia).
    { rewrite Hnew, app_nil_r. done. }
    eexists _, _, pd1, pd2. split_and!; [done..|]. eapply Hdone; try done. change (size pd0) with (size pd) in Hz. lia.
  - destruct (put2_ok pd0 (pos + homeSize pd) pos s2 s1) as (pd1 & pd2 & E1 & E2 & Ha2 & Hh1 & Hf & Hat & He & Hz); try done; try (unfold pos in *; lia).
    { rewrite Hnew. cbn [slot_entries app]. rewrite Permutation_app_comm. done. }
    eexists _, _, pd1, pd2. split_and!; [done..|]. eapply Hdone; try done; [|change (size pd0) with (size pd) in Hz; lia].
    intros i Hi. rewrite Hat by done. destruct (Z.eqb_spec i (pos + homeSize pd)), (Z.eqb_spec i pos); (lia || done).
Qed.

Lemma grow_step_split left pd : pd_ok pd → splitPosition pd < homeSize pd → homeSize pd + splitPosition pd < MAX_HASH →
  words (slot_at pd (splitPosition pd)) ≤ left → ∃ pd',
  grow_step left pd = Some (left - words (slot_at pd (splitPosition pd)), pd') ∧ split_done pd (splitPosition pd) (homeSize pd) pd'.
Proof.
  intros Hok Hlt Hmax Hw. pose proof Hok as [Ha Htab]. pose proof Htab as (Hg & Hp & _). destruct (geo_pos _ _ Hg) as (Hh0 & Hs0 & Hr).
  pose proof (split_put pd) as HSP. cbv zeta in HSP. unfold grow_step. destruct (Z.eqb_spec (splitPosition pd) (homeSize pd)); [lia|].
  rewrite wrap_u_small by (unfold MAX_HASH in *; lia).
  set (pos := splitPosition pd) in *. set (pd0 := set_split (homeSize pd) (pos + 1) pd) in *.
  assert (geo_ok (homeSize pd0) (splitPosition pd0)) as Hg0 by (destruct Hg as [? ?]; split; [done|cbn; lia]).
  rewrite (ARRAY_GET_eq pd0) by (done || lia). change (slot_at pd0 pos) with (slot_at pd pos). cbn [mbind option_bind].
  change (homeSize pd0) with (homeSize pd).
  rewrite (wrap_u_small 32 (pos + homeSize pd)) by (unfold MAX_HASH in *; lia).
  assert (∀ l, slot_entries (slot_at pd pos) = l → 2 * zlen l ≤ left → ∃ pd',
    (left ← HeapOnlyAlloc left (2 * zlen l); '(l1, l2) ← split_cells pd0 pos l [] [];
      '(_, pd) ← array_put (Some pd0) pos (collapse l1);
      '(_, pd) ← array_put (Some pd) (uint32 (pos + homeSize pd)) (collapse l2); Some (left, pd)) = Some (left - 2 * zlen l, pd') ∧
    split_done pd pos (homeSize pd) pd') as Hlist.
  { intros l Hl Hle. unfold HeapOnlyAlloc. rewrite (proj2 (Z.leb_le _ _)) by done. cbn [mbind option_bind].
    destruct (split_cells_ok pd0 pos l Hg0 [] []) as (r1 & r2 & -> & HP & H1 & H2). cbn [mbind option_bind].
    destruct (slot_entries_collapse r1) as [C1 C1'], (slot_entries_collapse r2) as [C2 C2'].
    destruct (HSP (collapse r1) (collapse r2)) as [(x1 & x2 & pd1 & pd2 & -> & Hh1 & E & Hd) _]; rewrite ?C1, ?C2; auto.
    { rewrite HP, !app_nil_r, Hl. done. }
    cbn [mbind option_bind]. rewrite Hh1, (wrap_u_small 32 (pos + homeSize pd)), E by (unfold MAX_HASH in *; lia). cbn. eauto. }
  destruct (slot_at pd pos) as [|t|l|] eqn:Es; [by apply Hlist| |by apply Hlist|by pose proof (slot_at_ok pd pos Ha) as Hf; rewrite Es in Hf].
  rewrite pd_hash_value_eq by done. cbn [mbind option_bind words]. rewrite Z.sub_0_r.
  destruct (Z.eqb_spec (pd_ix pd0 t.1) pos) as [Ht|Ht].
  - exists pd0. split; [done|]. split; [|split_and!; (done || cbn; lia)].
    apply (split_placed pd pd0 (Tup t) Nil); try done; rewrite ?Es; cbn; auto.
    intros i Hi. fold pos. destruct (Z.eqb_spec i (pos + homeSize pd)) as [->|].
    + apply (beyond_range pd); [done|unfold pos; lia].
    + destruct (Z.eqb_spec i pos) as [->|]; [exact Es|done].
    + fold pos. by rewrite Es.
  - destruct (HSP Nil (Tup t)) as [_ (x1 & x2 & pd1 & pd2 & -> & Hh1 & E & Hd)]; try (cbn; by auto).
    cbn [mbind option_bind].
    rewrite E. cbn. eauto.
Qed.

(** A table whose buckets are all split is renamed first. *)
Lemma grow_step_renamed left pd : splitPosition pd = homeSize pd → 0 < homeSize pd → homeSize pd * 2 < 2 ^ 32 →
  grow_step left pd = grow_step left (set_split (homeSize pd * 2) 0 pd).
Proof.
  intros Hs Hh Hm. unfold grow_step. cbn [splitPosition homeSize set_split]. rewrite Hs, Z.eqb_refl.
  destruct (Z.eqb_spec 0 (homeSize pd * 2)); [lia|]. by rewrite (wrap_u_small 32 (homeSize pd * 2)) by lia.
Qed.

Lemma renamed_ok pd : pd_ok pd → splitPosition pd = homeSize pd → pd_ok (set_split (homeSize pd * 2) 0 pd).
Proof.
  intros [Ha (Hg & Hp & Hrest)] Hs. split; [exact Ha|]. rewrite Hs in Hg. destruct (geo_pos _ _ Hg) as (? & _).
  split; [by apply geo_double|]. split; [|done]. intros i t Hi Ht. unfold pd_ix. cbn. rewrite hash_ix_double by lia.
  rewrite <- Hs at 2. by apply Hp.
Qed.

(** The words for the next [n] buckets, as a sum *)
Fixpoint words_sum (n : nat) pd (pos home : Z) : Z :=
  match n with
  | O => 0
  | S n' =>
      let '(home, pos) := if pos =? home then (home * 2, 0) else (home, pos) in
      words (slot_at pd pos) + words_sum n' pd (pos + 1) home
  end.

Lemma words_pos s : 0 ≤ words s ≤ 2 * zlen (slot_entries s).
Proof. destruct s; cbn; lia. Qed.

Lemma words_sum_pos n pd : ∀ pos home, 0 ≤ words_sum n pd pos home.
Proof.
  induction n as [|n IH]; intros pos home; cbn [words_sum]; [done|].
  destruct (pos =? home); pose proof (IH 1 (home * 2)); pose proof (IH (pos + 1) home);
    pose proof (words_pos (slot_at pd 0)); pose proof (words_pos (slot_at pd pos)); rewrite ?Z.add_0_l; lia.
Qed.

Lemma words_sum_ext n pd pd' : ∀ pos home, 0 ≤ pos ≤ home → 0 < home →
  (∀ i, (pos ≤ i < pos + Z.of_nat n ∧ i < home) ∨ (0 ≤ i < pos + Z.of_nat n - home) → slot_at pd' i = slot_at pd i) →
  words_sum n pd' pos home = words_sum n pd pos home.
Proof.
  induction n as [|n IH]; intros pos home Hp Hh Hat; cbn [words_sum]; [done|].
  destruct (Z.eqb_spec pos home) as [->|]; (rewrite Hat, IH; [done|lia|lia|intros i Hi; apply Hat|]); lia.
Qed.

(** Buckets in a row: no more words than twice the entries. *)
Lemma words_row n pd : ∀ pos home, 0 ≤ pos → pos + Z.of_nat n ≤ home →
  words_sum n pd pos home ≤ 2 * zlen (drop (Z.to_nat pos) (data pd) ≫= slot_entries).
Proof.
  induction n as [|n IH]; intros pos home Hp Hn; cbn [words_sum]; [lia|].
  destruct (Z.eqb_spec pos home); [lia|]. specialize (IH (pos + 1) home ltac:(lia) ltac:(lia)).
  replace (Z.to_nat (pos + 1)) with (S (Z.to_nat pos)) in IH by lia. unfold slot_at.
  destruct (data pd !! Z.to_nat pos) as [s|] eqn:E.
  - rewrite (drop_S _ _ _ E), bind_cons, length_app. cbn [default from_option id].
    pose proof (words_pos s). change (from_option id Nil (Some s)) with s. lia.
  - cbn. apply lookup_ge_None_1 in E. rewrite drop_ge in IH |- * by lia. done.
Qed.

Lemma drop_entries n pd : (length (drop n (data pd) ≫= slot_entries) ≤ length (entries pd))%nat.
Proof. unfold entries. rewrite <- (take_drop n (data pd)) at 2. rewrite bind_app, length_app. lia. Qed.

Lemma words_sum_bound n pd : ∀ pos home, 0 ≤ pos ≤ home → Z.of_nat n ≤ home →
  words_sum n pd pos home ≤ 4 * zlen (entries pd).
Proof.
  assert (∀ n pos home, 0 ≤ pos → pos + Z.of_nat n ≤ home → words_sum n pd pos home ≤ 2 * zlen (entries pd)) as Hrow.
  { intros m pos home ? ?. pose proof (words_row m pd pos home). pose proof (drop_entries (Z.to_nat pos) pd). lia. }
  assert (∀ n pos home, 0 ≤ pos ≤ home → Z.of_nat n ≤ home →
    words_sum n pd pos home ≤ 2 * zlen (drop (Z.to_nat pos) (data pd) ≫= slot_entries) + 2 * zlen (entries pd)) as Hall.
  { intros m. induction m as [|m IH]; intros pos home Hp Hm; cbn [words_sum]; [lia|].
    destruct (Z.eqb_spec pos home) as [->|].
    - pose proof (Hrow (S m) 0 (home * 2) ltac:(lia) ltac:(lia)) as Hr. cbn [words_sum] in Hr.
      destruct (Z.eqb_spec 0 (home * 2)); [lia|]. cbn [Z.add] in *. lia.
    - specialize (IH (pos + 1) home ltac:(lia) ltac:(lia)). replace (Z.to_nat (pos + 1)) with (S (Z.to_nat pos)) in IH by lia.
      unfold slot_at. destruct (data pd !! Z.to_nat pos) as [s|] eqn:E.
      + rewrite (drop_S _ _ _ E), bind_cons, length_app. pose proof (words_pos s).
        change (default Nil (Some s)) with s. lia.
      + cbn. apply lookup_ge_None_1 in E. rewrite drop_ge in IH |- * by lia. cbn in *. lia. }
  intros pos home Hp Hn. pose proof (Hall n pos home Hp Hn). pose proof (drop_entries (Z.to_nat pos) pd). lia.
Qed.

Lemma grow_needed_eq n pd : arr_ok pd → ∀ pos home, 0 ≤ pos ≤ home → 0 < home < 2 ^ 32 - 1 → Z.of_nat n ≤ home →
  (pos + Z.of_nat n ≤ home ∨ home * 2 < 2 ^ 32 - 1) →
  words_sum n pd pos home ≤ INT_MAX → grow_needed n pd pos home = Some (words_sum n pd pos home).
Proof.
  intros Ha. induction n as [|n IH]; intros pos home Hp Hh Hn Hw Hle; cbn [grow_needed words_sum] in *; [done|].
  assert (∀ pos home, 0 ≤ pos < home → words (slot_at pd pos) + words_sum n pd (pos + 1) home ≤ INT_MAX → 0 < home < 2 ^ 32 - 1 → Z.of_nat n ≤ home →
    (pos + 1 + Z.of_nat n ≤ home ∨ home * 2 < 2 ^ 32 - 1) →
    (l ← ARRAY_GET pd pos; words ← (match l with Tup _ => Some 0 | _ => cells ← list_cells l; Some (2 * zlen cells) end);
     needed ← grow_needed n pd (uint32 (pos + 1)) home; as_int (words + needed)) = Some (words (slot_at pd pos) + words_sum n pd (pos + 1) home)) as Hone.
  { intros i h Hi Hs Hh' Hn' Hw'. pose proof (words_pos (slot_at pd i)). rewrite ARRAY_GET_eq by (done || lia). cbn [mbind option_bind].
    rewrite (wrap_u_small 32 (i + 1)), IH by lia. pose proof (slot_at_ok pd i Ha) as Hsl. unfold as_int.
    destruct (slot_at pd i); try done; cbn [list_cells mbind option_bind words slot_entries] in *; by rewrite (proj2 (Z.leb_le _ _)) by done. }
  destruct (Z.eqb_spec pos home) as [->|].
  - rewrite (wrap_u_small 32 (home * 2)) by lia. apply Hone; lia.
  - apply Hone; lia.
Qed.

(** ** Growing *)

Definition grown pd (n : Z) pd' : Prop :=
  pd_ok pd' ∧ entries pd' ≡ₚ entries pd ∧ numElements pd' = numElements pd ∧
  homeSize pd' + splitPosition pd' = homeSize pd + splitPosition pd + n ∧
  size pd' ≤ Z.max (size pd) (2 * (homeSize pd + splitPosition pd + Z.max 0 n)).

Lemma grow_step_ok left n pd : pd_ok pd → homeSize pd + splitPosition pd < MAX_HASH → Z.of_nat n < homeSize pd →
  words_sum (S n) pd (splitPosition pd) (homeSize pd) ≤ left → ∃ left' pd',
  grow_step left pd = Some (left', pd') ∧ grown pd 1 pd' ∧ homeSize pd ≤ homeSize pd' ∧
  words_sum n pd' (splitPosition pd') (homeSize pd') ≤ left'.
Proof.
  intros Hok Hmax Hn Hw. pose proof (proj1 (proj2 Hok)) as Hg. destruct (geo_pos _ _ Hg) as (Hh & Hs & Hr).
  assert (∀ pd, pd_ok pd → homeSize pd + splitPosition pd < MAX_HASH → Z.of_nat n < homeSize pd → splitPosition pd < homeSize pd →
    words (slot_at pd (splitPosition pd)) + words_sum n pd (splitPosition pd + 1) (homeSize pd) ≤ left → ∃ left' pd',
    grow_step left pd = Some (left', pd') ∧ grown pd 1 pd' ∧ homeSize pd ≤ homeSize pd' ∧
    words_sum n pd' (splitPosition pd') (homeSize pd') ≤ left') as Hone.
  { clear - DictTermLaws0. intros pd Hok Hmax Hn Hlt Hw. destruct (geo_pos _ _ (proj1 (proj2 Hok))) as (Hh & Hs & Hr).
    pose proof (words_sum_pos n pd (splitPosition pd + 1) (homeSize pd)).
    destruct (grow_step_split left pd) as (pd' & -> & Hok' & He & Hh' & Hs' & Hn' & Hat & Hz); [done..|lia|].
    eexists _, pd'. split; [done|]. split; [split_and!; (done || lia)|]. split; [lia|]. rewrite Hh', Hs'.
    rewrite (words_sum_ext n pd pd'); [lia..|intros i Hi; apply Hat; lia]. }
  cbn [words_sum] in Hw. destruct (Z.eqb_spec (splitPosition pd) (homeSize pd)) as [He|Hne]; [|apply Hone; (done || lia)].
  rewrite grow_step_renamed by (unfold MAX_HASH in *; lia).
  destruct (Hone (set_split (homeSize pd * 2) 0 pd)) as (left' & pd' & Hst & (Hok' & Hent & Hnum & Hrng & Hz) & Hge & Hw'); try (cbn; lia).
  { by apply renamed_ok. }
  { rewrite (words_sum_ext n pd (set_split _ _ pd)) by (cbn; (done || lia)). exact Hw. }
  cbn in Hrng, Hge, Hnum, Hz. exists left', pd'. split; [done|]. split; [split_and!; (done || lia)|]. split; [lia|done].
Qed.

Lemma grow_loop_ok n pd : ∀ left, pd_ok pd → homeSize pd + splitPosition pd + Z.of_nat n ≤ MAX_HASH → Z.of_nat n ≤ homeSize pd →
  words_sum n pd (splitPosition pd) (homeSize pd) ≤ left → ∃ pd', grow_loop n left pd = Some pd' ∧ grown pd (Z.of_nat n) pd'.
Proof.
  revert pd. induction n as [|n IH]; intros pd left Hok Hmax Hn Hw; cbn [grow_loop].
  - exists pd. split; [done|]. split_and!; (done || lia).
  - destruct (grow_step_ok left n pd) as (left' & pd1 & -> & (Hok1 & He1 & Hn1 & Hr1 & Hz1) & Hge & Hw1); [done|lia..|]. cbn [mbind option_bind].
    destruct (IH pd1 left') as (pd2 & -> & Hok2 & He2 & Hn2 & Hr2 & Hz2); [done|lia..|].
    exists pd2. split; [done|]. split_and!; [done|by rewrite He2|congruence|lia|lia].
Qed.

Lemma grow_ok pd : pd_ok pd → zlen (entries pd) < 2 ^ 29 → ∃ pd',
  grow pd = Some pd' ∧
  grown pd (if MAX_HASH - homeSize pd / 5 <=? homeSize pd + splitPosition pd then 0 else homeSize pd / 5) pd'.
Proof.
  intros Hok Hlen. pose proof (proj1 (proj2 Hok)) as Hg. destruct (geo_pos _ _ Hg) as (Hh & Hs & Hr). unfold grow, HASH_RANGE.
  rewrite wrap_u_small by (unfold MAX_HASH in *; lia).
  assert (2 ≤ homeSize pd / 5 ≤ homeSize pd) by (Z.to_euclidean_division_equations; lia).
  destruct (Z.eqb_spec (homeSize pd / 5) 0); [lia|]. destruct (Z.leb_spec (MAX_HASH - homeSize pd / 5) (homeSize pd + splitPosition pd)).
  - exists pd. split; [done|]. split_and!; (done || lia).
  - pose proof (words_sum_bound (Z.to_nat (homeSize pd / 5)) pd (splitPosition pd) (homeSize pd)).
    rewrite grow_needed_eq by (try apply Hok; unfold MAX_HASH, INT_MAX in *; lia). cbn [mbind option_bind].
    destruct (grow_loop_ok (Z.to_nat (homeSize pd / 5)) pd (words_sum (Z.to_nat (homeSize pd / 5)) pd (splitPosition pd) (homeSize pd)))
      as (pd' & -> & Hok' & He & Hn & Hrng & Hz); [done|lia..|].
    exists pd'. split; [done|]. split_and!; (done || lia).
Qed.

(** ** Merging buckets *)

Lemma foldl_cons_rev l2 : ∀ l1, foldl (λ lo t, t :: lo) l1 l2 = rev l2 ++ l1.
Proof. induction l2 as [|t l2 IH]; intros l1; cbn; [done|]. by rewrite IH, <- app_assoc. Qed.

Lemma merge_slots_ok lo hi : slot_ok lo → slot_ok hi → lo ≠ Nil → hi ≠ Nil → zlen (slot_entries hi) < 2 ^ 29 → ∃ s,
  merge_slots lo hi = Some s ∧ slot_ok s ∧ slot_entries s ≡ₚ slot_entries lo ++ slot_entries hi.
Proof.
  intros Hlo Hhi Hl Hh Hlen. unfold merge_slots, HeapOnlyAlloc, CONS.
  destruct lo as [|l|l|], hi as [|h|h|]; try done; cbn [mbind option_bind slot_entries list_cells].
  - eexists. split; [reflexivity|]. cbn. split; [lia|done].
  - cbn in Hhi. eexists. split; [reflexivity|]. cbn. split; [lia|done].
  - cbn in Hlo. eexists. split; [reflexivity|]. cbn. split; [lia|]. by rewrite (Permutation_app_comm l).
  - cbn [slot_entries slot_ok] in *. unfold as_int. rewrite (proj2 (Z.leb_le (2 * _) INT_MAX)) by (unfold INT_MAX; lia). cbn [mbind option_bind].
    rewrite !Z.leb_refl. cbn [mbind option_bind]. rewrite foldl_cons_rev.
    eexists. split; [reflexivity|]. assert (2 ≤ length (rev h ++ l))%nat by (rewrite length_app; lia).
    destruct (rev h ++ l) as [|t r] eqn:E; [cbn in *; lia|]. cbn [mk_list slot_ok slot_entries]. split; [lia|]. rewrite <- E.
    rewrite (Permutation_app_comm l). by rewrite (Permutation_rev h) at 2.
Qed.

Lemma slot_entries_le pd i : (length (slot_entries (slot_at pd i)) ≤ length (entries pd))%nat.
Proof.
  unfold slot_at. destruct (data pd !! Z.to_nat i) as [s|] eqn:E; [|cbn; lia]. unfold entries. cbn.
  rewrite <- (take_drop_middle _ _ _ E) at 1. rewrite bind_app, bind_cons, !length_app. lia.
Qed.

(** What a merge leaves, when bucket [pos] has the entries of the last two halves. *)
Lemma merge_placed pd : let pos := splitPosition pd - 1 in ∀ pd' new, pd_ok pd → 0 < splitPosition pd →
  arr_ok pd' → homeSize pd' = homeSize pd → splitPosition pd' = pos → numElements pd' = numElements pd →
  slot_entries new ≡ₚ slot_entries (slot_at pd pos) ++ slot_entries (slot_at pd (pos + homeSize pd)) →
  (∀ i, 0 ≤ i → slot_at pd' i = if i =? pos + homeSize pd then Nil else if i =? pos then new else slot_at pd i) →
  entries pd' ≡ₚ entries pd → size pd' ≤ Z.max (size pd) (2 * (pos + homeSize pd + 1)) → grown pd (-1) pd'.
Proof.
  intros pos pd' new Hok Hpos Ha' Hh' Hs' Hn' Hnew Hat He Hz. pose proof Hok as [Ha Htab]. pose proof Htab as (Hg & Hp & _).
  destruct (geo_pos _ _ Hg) as (Hh & Hs & Hr). split; [|split_and!; (done || lia)]. split; [done|].
    apply (table_ok_moved pd); try done. { rewrite Hh', Hs'. split; [apply Hg|lia]. }
    intros i t Hi Ht. rewrite Hat in Ht by done. unfold pd_ix. rewrite Hh', Hs', hash_ix_merge by lia.
    replace (pos + 1) with (splitPosition pd) by lia. fold (pd_ix pd t.1).
    destruct (Z.eqb_spec i (pos + homeSize pd)); [by apply elem_of_nil in Ht|]. destruct (Z.eqb_spec i pos) as [->|].
    - rewrite Hnew in Ht. apply elem_of_app in Ht as [Ht|Ht]; apply Hp in Ht; try lia; rewrite Ht; case_bool_decide; lia.
    - apply Hp in Ht; [|done]. rewrite Ht. case_bool_decide; lia.
Qed.

Lemma shrink_step_merge pd : pd_ok pd → 0 < splitPosition pd → zlen (entries pd) < 2 ^ 29 → ∃ pd',
  shrink_step pd = Some pd' ∧ grown pd (-1) pd'.
Proof.
  intros Hok Hpos Hlen. pose proof Hok as [Ha Htab]. pose proof Htab as (Hg & Hp & _). destruct (geo_pos _ _ Hg) as (Hh & Hs & Hr).
  unfold shrink_step. destruct (Z.eqb_spec (splitPosition pd) 0); [lia|]. rewrite (wrap_u_small 32 (splitPosition pd - 1)) by (unfold MAX_HASH in *; lia).
  set (pos := splitPosition pd - 1). set (pd0 := set_split (homeSize pd) pos pd).
  assert (arr_ok pd0) as Ha0 by exact Ha. change (splitPosition pd0) with pos. change (homeSize pd0) with (homeSize pd).
  rewrite (wrap_u_small 32 (pos + homeSize pd)) by (unfold MAX_HASH in *; lia).
  rewrite !(ARRAY_GET_eq pd0) by (done || lia). cbn [mbind option_bind].
  pose proof (merge_placed pd) as Hdone. cbv zeta in Hdone. fold pos in Hdone.
  destruct (decide (slot_at pd0 (pos + homeSize pd) = Nil)) as [Ehi|Ehi].
  - rewrite Ehi. cbn [mbind option_bind].
    destruct (array_put_ok pd0 (pos + homeSize pd) Nil) as (pd' & R & -> & Ha' & (? & ? & ?) & Hat & HR & HR' & Hz); [done|unfold MAX_HASH in *; lia|done|].
    cbn [mbind option_bind]. exists pd'. split; [done|]. apply (Hdone pd' (slot_at pd pos)); try done.
    + change (slot_at pd) with (slot_at pd0). by rewrite Ehi, app_nil_r.
    + intros i Hi. rewrite Hat by done. destruct (Z.eqb_spec i (pos + homeSize pd)); [done|]. by destruct (Z.eqb_spec i pos) as [->|].
    + rewrite HR'. change (entries pd) with (entries pd0). by rewrite HR, Ehi.
  - assert (pos + homeSize pd < size pd0) by (apply slot_at_nonnil; (done || lia)).
    assert (∃ new, (match slot_at pd0 pos with Nil => Some (slot_at pd0 (pos + homeSize pd)) | _ => merge_slots (slot_at pd0 pos) (slot_at pd0 (pos + homeSize pd)) end)
      = Some new ∧ slot_ok new ∧ slot_entries new ≡ₚ slot_entries (slot_at pd0 pos) ++ slot_entries (slot_at pd0 (pos + homeSize pd))) as (new & Enew & Hnok & HP).
    { pose proof (slot_at_ok pd0 (pos + homeSize pd) Ha0). pose proof (slot_at_ok pd0 pos Ha0). pose proof (slot_entries_le pd (pos + homeSize pd)).
      destruct (decide (slot_at pd0 pos = Nil)) as [->|Hlo]; [by eexists|].
      destruct (merge_slots_ok (slot_at pd0 pos) (slot_at pd0 (pos + homeSize pd))) as (s & Es & ? & ?); try done.
      { change (slot_at pd0) with (slot_at pd). lia. }
      exists s. split; [|done]. destruct (slot_at pd0 pos); [done|exact Es..]. }
    destruct (put2_ok pd0 pos (pos + homeSize pd) new Nil) as (pd1 & pd2 & E1 & E2 & Ha2 & Hh1 & (? & ? & ?) & Hat & He & Hz); try done; try (unfold MAX_HASH in *; lia).
    { by rewrite app_nil_r. }
    exists pd2. split; [|apply (Hdone pd2 new); try done; change (size pd0) with (size pd) in Hz; lia].
    rewrite Enew. cbn [mbind option_bind]. destruct (Z.geb_spec pos (size pd0)); [lia|]. rewrite E1. cbn [mbind option_bind].
    destruct (slot_at pd0 (pos + homeSize pd)); [done|..]; cbn [mbind option_bind]; rewrite E2; done.
Qed.

Lemma shrink_step_ok pd : pd_ok pd → INITIAL_SIZE < homeSize pd + splitPosition pd → zlen (entries pd) < 2 ^ 29 → ∃ pd',
  shrink_step pd = Some pd' ∧ grown pd (-1) pd'.
Proof.
  intros Hok Hr Hlen. destruct (decide (splitPosition pd = 0)) as [E|].
  - destruct Hok as [Ha (Hg & Hp & Hrest)]. rewrite E in Hg, Hr. destruct (geo_halve _ Hg) as [Hg' He]; [lia|].
    destruct (geo_pos _ _ Hg') as (? & _).
    assert (shrink_step pd = shrink_step (set_split (homeSize pd / 2) (homeSize pd / 2) pd)) as ->.
    { unfold shrink_step. cbn [splitPosition homeSize set_split]. rewrite E, Z.eqb_refl. cbn [splitPosition homeSize set_split].
      destruct (Z.eqb_spec (homeSize pd / 2) 0); [lia|done]. }
    destruct (shrink_step_merge (set_split (homeSize pd / 2) (homeSize pd / 2) pd)) as (pd' & -> & Hok' & He' & Hn & Hrng & Hz); [|cbn; lia|done|].
    + split; [exact Ha|]. split; [done|]. split; [|done]. intros i t Hi Ht. unfold pd_ix. cbn.
      rewrite <- hash_ix_double by lia. rewrite <- He, <- E. by apply Hp.
    + cbn in Hrng, Hn, Hz. exists pd'. split; [done|]. split_and!; (done || lia).
  - apply shrink_step_merge; try done. destruct (geo_pos _ _ (proj1 (proj2 Hok))). lia.
Qed.

Lemma shrink_loop_ok n pd : pd_ok pd → INITIAL_SIZE + Z.of_nat n ≤ homeSize pd + splitPosition pd → zlen (entries pd) < 2 ^ 29 → ∃ pd',
  shrink_loop n pd = Some pd' ∧ grown pd (- Z.of_nat n) pd'.
Proof.
  revert pd. induction n as [|n IH]; intros pd Hok Hn Hlen; cbn [shrink_loop].
  - exists pd. split; [done|]. split_and!; (done || lia).
  - destruct (shrink_step_ok pd) as (pd1 & -> & Hok1 & He1 & Hn1 & Hr1 & Hz1); [done|lia|done|]. cbn [mbind option_bind].
    destruct (IH pd1) as (pd2 & -> & Hok2 & He2 & Hn2 & Hr2 & Hz2); [done|lia|by rewrite He1|].
    exists pd2. split; [done|]. split_and!; [done|by rewrite He2|congruence|lia|lia].
Qed.

Lemma shrink_ok pd : pd_ok pd → INITIAL_SIZE < homeSize pd + splitPosition pd → zlen (entries pd) < 2 ^ 29 → ∃ pd',
  shrink pd = Some pd' ∧ pd_ok pd' ∧ entries pd' ≡ₚ entries pd ∧ numElements pd' = numElements pd ∧
  homeSize pd' + splitPosition pd' = Z.max INITIAL_SIZE (homeSize pd + splitPosition pd - (homeSize pd + splitPosition pd) * 3 / 10) ∧
  size pd' < 4 * (homeSize pd' + splitPosition pd') + 4.
Proof.
  intros Hok Hr Hlen. pose proof (proj1 (proj2 Hok)) as Hg. destruct (geo_pos _ _ Hg) as (Hh & Hs & Hmax). unfold shrink, HASH_RANGE.
  set (range := homeSize pd + splitPosition pd) in *. rewrite (wrap_u_small 32 range) by (unfold MAX_HASH in *; lia).
  rewrite (wrap_u_small 32 (range * 3)) by (unfold MAX_HASH in *; lia).
  assert (3 ≤ range * 3 / 10 < range ∧ range * 3 / 10 * 10 ≤ range * 3) by (unfold INITIAL_SIZE in *; Z.to_euclidean_division_equations; lia).
  rewrite (wrap_u_small 32 (range - range * 3 / 10)), (wrap_u_small 32 (range - INITIAL_SIZE)) by (unfold MAX_HASH, INITIAL_SIZE in *; lia).
  set (steps := if _ <? _ then _ else _).
  assert (1 ≤ steps ≤ range - INITIAL_SIZE ∧ range - steps = Z.max INITIAL_SIZE (range - range * 3 / 10)) by (unfold steps; destruct (Z.ltb_spec (range - range * 3 / 10) INITIAL_SIZE); lia).
  destruct (shrink_loop_ok (Z.to_nat steps) pd) as (pd1 & -> & Hok1 & He1 & Hn1 & Hr1 & Hz1); [done|lia|done|]. cbn [mbind option_bind].
  destruct (geo_pos _ _ (proj1 (proj2 Hok1))) as (Hh1 & Hs1 & Hmax1). rewrite (wrap_u_small 32 (homeSize pd1 + _)) by (unfold MAX_HASH in *; lia).
  fold range in Hr1. destruct (Z.leb_spec (homeSize pd1 + splitPosition pd1) (size pd1 / 4)).
  - rewrite (wrap_u_small 32 (_ * 3)) by (unfold MAX_HASH in *; lia).
    destruct (array_shrink_ok pd1 ((homeSize pd1 + splitPosition pd1) * 3 / 2)) as (pd2 & -> & Hok2 & He2 & E1 & E2 & E3 & Hz2); [done|Z.to_euclidean_division_equations; lia|].
    exists pd2. split; [done|]. split; [done|]. rewrite He2, E1, E2, E3. split_and!; try done; try lia. Z.to_euclidean_division_equations; lia.
  - exists pd1. split_and!; try done; try lia. Z.to_euclidean_division_equations; lia.
Qed.
End Rehash.
