(* ===== verification/ProcDictOps.v ===== *)
(** The operations of the process dictionary ([ProcDict]) against a finite map: one lemma per built-in function. *)

From Stdlib Require Import ZArith ZifyBool.
From stdpp Require Import base list numbers option gmap.
From S2P Require Import Prelude LinearHash ProcDict ProcDictSpec.
Local Open Scope Z_scope.

Section Ops.
Context {Eterm : Type} `{Countable Eterm, !DictTerms Eterm, !DictTermLaws Eterm}.
Implicit Types (pd : ProcDict Eterm) (p : option (ProcDict Eterm)) (s : slot Eterm) (t : tuple Eterm) (l : list (tuple Eterm))
  (id value : Eterm).

(** The table is never less than half full, except for the first 10 buckets, and has more buckets than entries; the
    array has less than four slots per bucket, and three more. *)
Definition load_ok pd : Prop :=
  let range := homeSize pd + splitPosition pd in
  numElements pd < range ∧ (range ≤ INITIAL_SIZE ∨ range / 2 ≤ numElements pd) ∧ size pd < 4 * range + 4.

Definition dict_inv p : Prop := match p with None => True | Some pd => pd_ok pd ∧ load_ok pd end.

(** The finite map of a dictionary *)
Definition dict_map p : gmap Eterm Eterm := match p with None => ∅ | Some pd => list_to_map (entries pd) end.

Lemma map_of_perm (l l' : list (Eterm * Eterm)) : NoDup l.*1 → l' ≡ₚ l → list_to_map (M := gmap Eterm Eterm) l' = list_to_map l.
Proof. intros Hn HP. apply list_to_map_proper; [by rewrite HP|done]. Qed.

Lemma dict_size pd : pd_ok pd → numElements pd = Z.of_nat (base.size (dict_map (Some pd))).
Proof.
  intros [_ (_ & _ & Hk & ->)]. cbn. f_equal. rewrite <- length_map_to_list, map_to_list_to_map by done. done.
Qed.

(** ** Reading *)

Lemma bucket_lookup pd id value : pd_ok pd →
  dict_map (Some pd) !! id = Some value ↔ (id, value) ∈ slot_entries (slot_at pd (pd_ix pd id)).
Proof.
  intros [_ (Hg & Hp & Hk & _)]. cbn. rewrite <- elem_of_list_to_map by done. rewrite elem_of_entries. split.
  - intros (i & Hi & Ht). by rewrite ((Hp i _ Hi Ht) : pd_ix pd id = i).
  - intros Ht. eexists; split; [|exact Ht]. destruct (geo_pos _ _ Hg) as (? & ? & ?). apply hash_ix_range; lia.
Qed.

Lemma bucket_lookup_none pd id : pd_ok pd →
  dict_map (Some pd) !! id = None ↔ id ∉ (slot_entries (slot_at pd (pd_ix pd id))).*1.
Proof.
  intros Hok. rewrite eq_None_not_Some. apply not_iff_compat. rewrite list_elem_of_fmap. split.
  - intros [v Hv]. apply bucket_lookup in Hv; [|done]. by exists (id, v).
  - intros ([k v] & Hkv & Ht). cbn in Hkv. subst k. exists v. by apply bucket_lookup.
Qed.

Lemma find_cell_ok l id i :
  (∃ pre t post, l = pre ++ (t :: post) ∧ t.1 = id ∧ (id ∉ pre.*1) ∧ find_cell l id i = (i + zlen pre, Some t)) ∨
  ((id ∉ l.*1) ∧ (find_cell l id i).2 = None).
Proof.
  revert i. induction l as [|t l IH]; intros i; cbn [find_cell]; [right; split; [apply not_elem_of_nil|done]|].
  case_bool_decide as Ht; [left; exists [], t, l; cbn; rewrite Z.add_0_r; split_and!; try done; apply not_elem_of_nil|].
  destruct (IH (i + 1)) as [(pre & u & post & -> & Hu & Hpre & E)|[Hl E]].
  - left. exists (t :: pre), u, post. split; [done|]. split; [done|]. rewrite E. split; [|f_equal; cbn; lia].
    rewrite fmap_cons. apply not_elem_of_cons. split; [congruence|done].
  - right. rewrite fmap_cons. split; [|done]. apply not_elem_of_cons. split; [congruence|done].
Qed.

Lemma pd_ix_bound pd id : pd_ok pd → 0 ≤ pd_ix pd id < MAX_HASH * 2.
Proof.
  intros [_ (Hg & _)]. destruct (geo_pos _ _ Hg) as (? & ? & ?).
  pose proof (hash_ix_range (homeSize pd) (splitPosition pd) (MAKE_HASH id)). unfold pd_ix. lia.
Qed.

(** The slot that an operation on [id] looks at *)
Lemma bucket_get pd id : pd_ok pd →
  pd_hash_value pd id = Some (pd_ix pd id) ∧ ARRAY_GET pd (pd_ix pd id) = Some (slot_at pd (pd_ix pd id)) ∧ slot_ok (slot_at pd (pd_ix pd id)).
Proof.
  intros Hok. pose proof (pd_ix_bound pd id Hok). destruct Hok as [Ha (Hg & _)].
  split; [by apply pd_hash_value_eq|]. split; [apply ARRAY_GET_eq; [done|lia]|by apply slot_at_ok].
Qed.

Lemma get_ok p id : dict_inv p → erts_pd_hash_get p id = Some (default am_undefined (dict_map p !! id)).
Proof.
  destruct p as [pd|]; [|cbn; by rewrite lookup_empty]. intros [Hok _]. unfold erts_pd_hash_get.
  destruct (bucket_get pd id Hok) as (-> & Hget & Hs). cbn [mbind option_bind]. rewrite Hget. cbn [mbind option_bind].
  pose proof (bucket_lookup pd id) as HS. pose proof (bucket_lookup_none pd id Hok) as HN.
  destruct (slot_at pd (pd_ix pd id)) as [|t|l|] eqn:E; [..|done].
  - by rewrite (proj2 HN) by apply not_elem_of_nil.
  - case_bool_decide as Ht.
    + rewrite (proj2 (HS t.2 Hok)); [done|]. destruct t as [k v]. cbn in *. subst. by apply list_elem_of_singleton.
    + rewrite (proj2 HN); [done|]. cbn. rewrite list_elem_of_singleton. congruence.
  - destruct (find_cell_ok l id 0) as [(pre & t & post & -> & Ht & _ & ->)|[Hl ->]].
    + rewrite (proj2 (HS t.2 Hok)); [done|]. destruct t as [k v]. cbn in *. subst. apply elem_of_app. right. by left.
    + by rewrite (proj2 HN).
Qed.

(** The loops over all slots *)
Lemma over_slots_ok {A} (f : A → tuple Eterm → A) n pd : arr_ok pd → ∀ i res, 0 ≤ i →
  (∀ j, i + Z.of_nat n ≤ j → slot_at pd j = Nil) →
  over_slots f n pd i res = Some (foldl f res (drop (Z.to_nat i) (data pd) ≫= slot_entries)).
Proof.
  intros Ha. induction n as [|n IH]; intros i res Hi Hb; cbn [over_slots].
  - rewrite drop_entries_nil; [done..|]. intros j Hj. apply Hb. lia.
  - rewrite ARRAY_GET_eq by done. cbn [mbind option_bind]. pose proof (slot_at_ok pd i Ha) as Hs.
    assert ((match slot_at pd i with Tup t => Some (f res t) | Lst l => Some (foldl f res l) | Nil => Some res | Other _ => None end)
      = Some (foldl f res (slot_entries (slot_at pd i)))) as -> by (by destruct (slot_at pd i)).
    cbn [mbind option_bind]. rewrite IH by (try (intros j Hj; apply Hb); lia). f_equal. rewrite <- foldl_app. f_equal.
    replace (Z.to_nat (i + 1)) with (S (Z.to_nat i)) by lia. unfold slot_at. destruct (data pd !! Z.to_nat i) as [s|] eqn:E.
    + by rewrite (drop_S _ _ _ E), bind_cons.
    + apply lookup_ge_None_1 in E. rewrite !drop_ge by lia. done.
Qed.

Lemma all_slots {A} (f : A → tuple Eterm → A) pd res : pd_ok pd →
  over_slots f (Z.to_nat (HASH_RANGE pd)) pd 0 res = Some (foldl f res (entries pd)).
Proof.
  intros Hok. destruct (geo_pos _ _ (proj1 (proj2 Hok))) as (? & ? & ?). unfold HASH_RANGE. rewrite wrap_u_small by (unfold MAX_HASH in *; lia).
  apply over_slots_ok; [apply Hok|lia|]. intros j Hj. apply beyond_range; [done|lia].
Qed.

Definition few p : Prop := Z.of_nat (base.size (dict_map p)) < 2 ^ 29.

Lemma few_entries pd : pd_ok pd → few (Some pd) → zlen (entries pd) < 2 ^ 29 ∧ numElements pd = zlen (entries pd).
Proof. intros Hok Hf. unfold few in Hf. rewrite <- dict_size in Hf by done. destruct Hok as [_ (_ & _ & _ & Hn)]. lia. Qed.

Lemma to_Uint_small z : 0 ≤ z < 2 ^ 32 → to_Uint z = z.
Proof.
  intros Hz. unfold to_Uint. apply wrap_u_small. destruct sizeof_Uint_ok as [-> | ->]; [done|].
  change (2 ^ (8 * 8)) with (2 ^ 32 * 2 ^ 32). lia.
Qed.

Lemma foldl_snoc l : ∀ res, foldl (λ res t, res ++ [t]) res l = res ++ l.
Proof. induction l as [|t l IH]; intros res; cbn; [by rewrite app_nil_r|]. by rewrite IH, <- app_assoc. Qed.

Lemma entries_perm p : dict_inv p → (match p with None => [] | Some pd => entries pd end) ≡ₚ map_to_list (dict_map p).
Proof.
  destruct p as [pd|]; cbn; [|by rewrite map_to_list_empty]. intros [[_ (_ & _ & Hk & _)] _]. by rewrite map_to_list_to_map.
Qed.

(** All ways to list the dictionary give its entries once each; the words or bytes they allocate are enough. *)
Lemma listings_ok p : dict_inv p → few p → ∃ l1 l2 l3,
  pd_hash_get_all p = Some l1 ∧ erts_dictionary_copy p = Some l2 ∧ erts_deep_dictionary_dump p = Some l3 ∧
  l1 ≡ₚ map_to_list (dict_map p) ∧ l2 ≡ₚ map_to_list (dict_map p) ∧ l3 ≡ₚ map_to_list (dict_map p).
Proof.
  intros Hinv Hf. pose proof (entries_perm p Hinv) as HP. destruct p as [pd|]; [|by exists [], [], []].
  destruct Hinv as [Hok _]. destruct (few_entries pd Hok Hf) as [Hlt Hnum].
  unfold pd_hash_get_all, erts_dictionary_copy, erts_deep_dictionary_dump, HeapOnlyAlloc.
  rewrite !all_slots by done. cbn [mbind option_bind]. rewrite foldl_cons_rev, foldl_snoc, app_nil_r.
  rewrite to_Uint_small, length_rev, (proj2 (Z.leb_le (2 * _) (_ * 2))) by lia. cbn [mbind option_bind].
  assert (2 * zlen (entries pd) * sizeof_Uint ≤ to_Uint (sizeof_Uint * numElements pd * 2)) as Hsz.
  { unfold to_Uint, wrap_u. destruct sizeof_Uint_ok as [-> | ->].
    - change (2 ^ (8 * 4)) with 4294967296. rewrite Z.mod_small; lia.
    - change (2 ^ (8 * 8)) with 18446744073709551616. rewrite Z.mod_small; lia. }
  rewrite (proj2 (Z.leb_le (sizeof_Uint * _) _)) by lia. cbn [mbind option_bind].
  eexists _, _, _. split_and!; [done..| | |done]; by rewrite <- Permutation_rev.
Qed.

Lemma foldl_filter value l : ∀ res,
  foldl (λ res t, if bool_decide (t.2 = value) then t.1 :: res else res) res l ≡ₚ (filter (λ t, t.2 = value) l).*1 ++ res.
Proof.
  induction l as [|t l IH]; intros res; cbn [foldl]; [done|]. rewrite IH. rewrite filter_cons.
  case_bool_decide as Ht; [rewrite decide_True by done|by rewrite decide_False by done].
  cbn. by rewrite <- Permutation_middle.
Qed.

Lemma get_keys_ok p value : dict_inv p → ∃ keys, pd_hash_get_keys p value = Some keys ∧
  keys ≡ₚ (filter (λ t, t.2 = value) (map_to_list (dict_map p))).*1.
Proof.
  intros Hinv. pose proof (entries_perm p Hinv) as HP. destruct p as [pd|]; cbn [pd_hash_get_keys].
  - destruct Hinv as [Hok _]. rewrite all_slots by done. eexists. split; [done|]. by rewrite foldl_filter, app_nil_r, HP.
  - exists []. split; [done|]. by rewrite <- HP.
Qed.

(** ** Changing one bucket *)

(** The bucket of [id] gets the slot [s]: the entries [o] are replaced by [n]. *)
Lemma bucket_put pd id s o n rest : pd_ok pd → slot_ok s → slot_entries (slot_at pd (pd_ix pd id)) ≡ₚ o ++ rest →
  slot_entries s ≡ₚ n ++ rest → Forall (λ t, t.1 = id) n → ∃ pd' R,
  array_put (Some pd) (pd_ix pd id) s = Some (slot_at pd (pd_ix pd id), pd') ∧
  entries pd ≡ₚ o ++ R ∧ entries pd' ≡ₚ n ++ R ∧
  (homeSize pd' = homeSize pd ∧ splitPosition pd' = splitPosition pd ∧ numElements pd' = numElements pd) ∧
  size pd' ≤ Z.max (size pd) (2 * (homeSize pd + splitPosition pd)) ∧
  (∀ num, NoDup (n ++ R).*1 → num = zlen (n ++ R) → pd_ok (set_num num pd')).
Proof.
  intros Hok Hs Ho Hn Hid. pose proof (pd_ix_bound pd id Hok) as Hb. pose proof Hok as [Ha (Hg & Hp & Hk & Hnum)].
  destruct (geo_pos _ _ Hg) as (? & ? & ?). pose proof (hash_ix_range (homeSize pd) (splitPosition pd) (MAKE_HASH id)) as Hix. fold (pd_ix pd id) in Hix.
  destruct (array_put_ok pd (pd_ix pd id) s) as (pd' & R & E & Ha' & (Hh & Hsp & Hne) & Hat & HR & HR' & Hz); [done..|].
  exists pd', (rest ++ R). split; [done|]. split; [by rewrite app_assoc, <- Ho|]. split; [by rewrite app_assoc, <- Hn|].
  split; [done|]. split; [lia|]. intros num Hnd ->. split; [exact Ha'|].
  assert (entries (set_num (zlen (n ++ rest ++ R)) pd') ≡ₚ n ++ rest ++ R) as He by (unfold entries at 1; cbn; rewrite app_assoc, <- Hn; exact HR').
  split; [cbn; by rewrite Hh, Hsp|]. split; [|by rewrite He].
  intros i t Hi Ht. change (slot_at (set_num _ pd') i) with (slot_at pd' i) in Ht. rewrite Hat in Ht by done.
  unfold pd_ix. cbn. rewrite Hh, Hsp. fold (pd_ix pd t.1). destruct (Z.eqb_spec i (pd_ix pd id)) as [->|]; [|by apply Hp].
  rewrite Hn in Ht. apply elem_of_app in Ht as [Ht|Ht].
  - rewrite Forall_forall in Hid. by rewrite (Hid t Ht).
  - apply Hp; [lia|]. rewrite Ho. apply elem_of_app. by right.
Qed.

Lemma set_num_same pd : set_num (numElements pd) pd = pd.
Proof. by destruct pd. Qed.

Lemma nodup_head (id : Eterm) (v : Eterm) (R : list (tuple Eterm)) : NoDup ((id, v) :: R).*1 ↔ (id ∉ R.*1) ∧ NoDup R.*1.
Proof. rewrite fmap_cons. apply NoDup_cons. Qed.

(** A new key *)
Lemma bucket_add pd id value s : pd_ok pd → slot_ok s → slot_entries s ≡ₚ (id, value) :: slot_entries (slot_at pd (pd_ix pd id)) →
  id ∉ (slot_entries (slot_at pd (pd_ix pd id))).*1 → ∃ old pd',
  array_put (Some pd) (pd_ix pd id) s = Some (old, pd') ∧ numElements pd' = numElements pd ∧
  homeSize pd' = homeSize pd ∧ splitPosition pd' = splitPosition pd ∧
  size pd' ≤ Z.max (size pd) (2 * (homeSize pd + splitPosition pd)) ∧
  pd_ok (set_num (numElements pd + 1) pd') ∧
  dict_map (Some (set_num (numElements pd + 1) pd')) = <[id := value]> (dict_map (Some pd)).
Proof.
  intros Hok Hs He Hnew. pose proof Hok as [_ (_ & _ & Hk & Hnum)].
  destruct (bucket_put pd id s [] [(id, value)] (slot_entries (slot_at pd (pd_ix pd id)))) as (pd' & R & E & HR & HR' & (Hh & Hsp & Hn) & Hz & Hdone);
    [done..|by constructor|].
  cbn [app] in *. apply bucket_lookup_none in Hnew; [|done].
  assert (NoDup ((id, value) :: R).*1) as Hnd.
  { apply nodup_head. rewrite <- HR. split; [|done]. by apply not_elem_of_list_to_map_2 in Hnew. }
  eexists _, pd'. do 5 (split; [done|]). split.
  - apply Hdone; [done|]. cbn. rewrite Hnum, HR. lia.
  - cbn [dict_map]. change (entries (set_num _ pd')) with (entries pd'). rewrite (map_of_perm _ (entries pd') Hnd HR').
    cbn. f_equal. symmetry. apply map_of_perm; [|done]. exact (proj2 (proj1 (nodup_head _ _ _) Hnd)).
Qed.

(** A new value for a key *)
Lemma bucket_replace pd id v value s rest : pd_ok pd → slot_ok s → slot_entries (slot_at pd (pd_ix pd id)) ≡ₚ (id, v) :: rest →
  slot_entries s ≡ₚ (id, value) :: rest → ∃ old pd',
  array_put (Some pd) (pd_ix pd id) s = Some (old, pd') ∧ pd_ok pd' ∧ dict_map (Some pd) !! id = Some v ∧
  dict_map (Some pd') = <[id := value]> (dict_map (Some pd)) ∧
  numElements pd' = numElements pd ∧ homeSize pd' = homeSize pd ∧ splitPosition pd' = splitPosition pd ∧
  size pd' ≤ Z.max (size pd) (2 * (homeSize pd + splitPosition pd)).
Proof.
  intros Hok Hs Ho He. pose proof Hok as [_ (_ & _ & Hk & Hnum)].
  destruct (bucket_put pd id s [(id, v)] [(id, value)] rest) as (pd' & R & E & HR & HR' & (Hh & Hsp & Hn) & Hz & Hdone); [done..|by constructor|].
  cbn [app] in *. assert (NoDup ((id, v) :: R).*1) as Hnd by by rewrite <- HR.
  assert (NoDup ((id, value) :: R).*1) as Hnd' by exact Hnd.
  eexists _, pd'. split; [done|]. split.
  { rewrite <- (set_num_same pd'). apply Hdone; [done|]. rewrite Hn, Hnum, HR. done. }
  cbn [dict_map]. rewrite (map_of_perm _ (entries pd) Hnd HR), (map_of_perm _ (entries pd') Hnd' HR'). cbn.
  split; [by rewrite lookup_insert_eq|]. split; [by rewrite insert_insert_eq|done].
Qed.

(** A key removed *)
Lemma bucket_remove pd id v s rest : pd_ok pd → slot_ok s → slot_entries (slot_at pd (pd_ix pd id)) ≡ₚ (id, v) :: rest →
  slot_entries s ≡ₚ rest → ∃ old pd',
  array_put (Some pd) (pd_ix pd id) s = Some (old, pd') ∧ pd_ok (set_num (numElements pd - 1) pd') ∧
  dict_map (Some pd) !! id = Some v ∧ dict_map (Some (set_num (numElements pd - 1) pd')) = delete id (dict_map (Some pd)) ∧
  numElements pd' = numElements pd ∧ homeSize pd' = homeSize pd ∧ splitPosition pd' = splitPosition pd ∧
  size pd' ≤ Z.max (size pd) (2 * (homeSize pd + splitPosition pd)) ∧ 0 < numElements pd.
Proof.
  intros Hok Hs Ho He. pose proof Hok as [_ (_ & _ & Hk & Hnum)].
  destruct (bucket_put pd id s [(id, v)] [] rest) as (pd' & R & E & HR & HR' & (Hh & Hsp & Hn) & Hz & Hdone); [done..|].
  cbn [app] in *. assert (NoDup ((id, v) :: R).*1) as Hnd by by rewrite <- HR.
  pose proof (proj1 (nodup_head _ _ _) Hnd) as [Hnew Hnd'].
  assert (numElements pd = zlen R + 1) as Hlen by (rewrite Hnum, HR; cbn; lia).
  eexists _, pd'. split; [done|]. split; [apply Hdone; [done|lia]|].
  cbn [dict_map]. change (entries (set_num _ pd')) with (entries pd').
  rewrite (map_of_perm _ (entries pd) Hnd HR), (map_of_perm _ (entries pd') Hnd' HR'). cbn.
  split; [by rewrite lookup_insert_eq|]. split; [|split_and!; (done || lia)].
  rewrite delete_insert_id; [done|]. by apply not_elem_of_list_to_map_1.
Qed.

(** ** Put *)

Lemma same_map pd pd' : pd_ok pd → entries pd' ≡ₚ entries pd → dict_map (Some pd') = dict_map (Some pd).
Proof. intros [_ (_ & _ & Hk & _)] He. by apply map_of_perm. Qed.

Lemma HASH_RANGE_eq pd : pd_ok pd → HASH_RANGE pd = homeSize pd + splitPosition pd ∧ 10 ≤ homeSize pd ∧ 0 ≤ splitPosition pd ≤ homeSize pd.
Proof.
  intros [_ (Hg & _)]. destruct (geo_pos _ _ Hg) as (? & ? & ?). split; [|lia]. apply wrap_u_small. unfold MAX_HASH in *. lia.
Qed.

Lemma finish_put_ok pd : pd_ok pd → few (Some pd) →
  let range := homeSize pd + splitPosition pd in
  numElements pd ≤ range → (range ≤ INITIAL_SIZE ∨ range / 2 ≤ numElements pd) → size pd < 4 * range + 4 → ∃ pd',
  finish_put pd = Some (am_undefined, Some pd') ∧ dict_inv (Some pd') ∧ dict_map (Some pd') = dict_map (Some pd).
Proof.
  intros Hok Hf range Hn Hload Hz. destruct (few_entries pd Hok Hf) as [Hlt Hnum]. destruct (HASH_RANGE_eq pd Hok) as (HR & Hh & Hs).
  unfold finish_put. rewrite HR. fold range. destruct (Z.leb_spec range (numElements pd)).
  - destruct (grow_ok pd Hok Hlt) as (pd' & -> & Hok' & He & Hne & Hr & Hz'). cbn [mbind option_bind].
    exists pd'. split; [done|]. split; [|by apply same_map]. split; [done|]. unfold load_ok. fold range in Hr, Hz'.
    destruct (Z.leb_spec (MAX_HASH - homeSize pd / 5) range).
    + exfalso. unfold MAX_HASH in *. Z.to_euclidean_division_equations. lia.
    + rewrite Hr, Hne. unfold INITIAL_SIZE in *. split_and!; Z.to_euclidean_division_equations; lia.
  - exists pd. split; [done|]. split; [|done]. split; [done|]. split_and!; (done || lia).
Qed.

Lemma few_weaken pd id value (p : option (ProcDict Eterm)) : dict_map (Some pd) = <[id := value]> (dict_map p) →
  Z.of_nat (base.size (dict_map p)) < 2 ^ 29 - 1 → few (Some pd).
Proof.
  intros E Hlt. unfold few. rewrite E. rewrite map_size_insert. destruct (dict_map p !! id); cbn; lia.
Qed.

(** The new tuple in a bucket without the key *)
Lemma put_new pd id value s : pd_ok pd → load_ok pd → Z.of_nat (base.size (dict_map (Some pd))) < 2 ^ 29 - 1 → slot_ok s →
  slot_entries s ≡ₚ (id, value) :: slot_entries (slot_at pd (pd_ix pd id)) → id ∉ (slot_entries (slot_at pd (pd_ix pd id))).*1 → ∃ old pd1 pd2,
  array_put (Some pd) (pd_ix pd id) s = Some (old, pd1) ∧
  finish_put (set_num (to_Uint (numElements pd1 + 1)) pd1) = Some (default am_undefined (dict_map (Some pd) !! id), Some pd2) ∧
  array_put (Some (set_num (to_Uint (numElements pd + 1)) pd)) (pd_ix pd id) s = Some (old, set_num (to_Uint (numElements pd1 + 1)) pd1) ∧
  dict_inv (Some pd2) ∧ dict_map (Some pd2) = <[id := value]> (dict_map (Some pd)).
Proof.
  intros Hok Hload Hf Hs He Hnew. destruct (few_entries pd Hok) as [Hlt Hnum]; [unfold few; lia|].
  destruct (bucket_add pd id value s Hok Hs He Hnew) as (old & pd1 & E & Hn & Hh & Hsp & Hz & Hok1 & Hm).
  apply bucket_lookup_none in Hnew; [|done]. destruct (HASH_RANGE_eq pd Hok) as (_ & ? & ?).
  assert (to_Uint (numElements pd + 1) = numElements pd + 1) as Hu by (apply to_Uint_small; lia).
  destruct (finish_put_ok (set_num (numElements pd + 1) pd1)) as (pd2 & E2 & Hinv & Hm2); try done.
  - by eapply few_weaken.
  - destruct Hload as (? & _). cbn. rewrite Hh, Hsp. lia.
  - destruct Hload as (_ & ? & _). cbn. rewrite Hh, Hsp. lia.
  - destruct Hload as (_ & _ & ?). cbn. rewrite Hh, Hsp. lia.
  - exists old, pd1, pd2. rewrite Hn, Hu, E2, Hnew, Hm2. split; [done|]. split; [done|]. split; [|done].
    revert E. unfold array_put. cbn [array_room size set_num]. destruct pd as [sz us h sp nu d]. cbn [size set_num numElements data used homeSize splitPosition].
    destruct (_ >=? sz).
    + destruct (next_array_size _); cbn; [|done]. unfold data_at. cbn. destruct (if 0 <=? _ then _ else _); cbn; [|done]. intros [= <- <-]. done.
    + cbn. unfold data_at. cbn. destruct (if 0 <=? _ then _ else _); cbn; [|done]. intros [= <- <-]. done.
Qed.

(** The first [array_put] makes an empty table with ten buckets. *)
Lemma new_dict : ∃ pd, array_put None (INITIAL_SIZE - 1) Nil = Some (Nil, pd) ∧
  dict_inv (Some (set_split INITIAL_SIZE (splitPosition pd) pd)) ∧ dict_map (Some (set_split INITIAL_SIZE (splitPosition pd) pd)) = ∅.
Proof.
  eexists. split.
  { unfold array_put, array_room, next_array_size. destruct sizeof_Uint_ok as [-> | ->]; reflexivity. }
  set (pd := set_split _ _ _).
  assert (∀ i, slot_at pd i = Nil) as Hat.
  { intros i. unfold slot_at. destruct (data pd !! Z.to_nat i) as [s|] eqn:E; [|done].
    assert (Forall (eq Nil) (data pd)) as Hall by (cbn; repeat constructor). symmetry. by eapply (Forall_lookup_1 _ _ _ _ Hall E). }
  split; [|done]. split; [split|].
  - split; [done|]. split; [vm_compute; split; congruence|]. split; [intros; apply Hat|cbn; repeat constructor].
  - split; [split; [by exists 0|vm_compute; split_and!; congruence]|]. split; [|by split; [constructor|]].
    intros i t Hi. rewrite Hat. cbn. intros Ht. by apply elem_of_nil in Ht.
  - split; [done|]. split; [left|]; vm_compute; congruence.
Qed.

Lemma put_existing pd id value : pd_ok pd → load_ok pd → Z.of_nat (base.size (dict_map (Some pd))) < 2 ^ 29 - 1 → ∃ p',
  pd_hash_put (Some pd) id value = Some (default am_undefined (dict_map (Some pd) !! id), p') ∧ dict_inv p' ∧
  dict_map p' = <[id := value]> (dict_map (Some pd)).
Proof.
  intros Hok Hload Hf. destruct (few_entries pd Hok) as [Hlt Hnum]; [unfold few; lia|]. destruct (HASH_RANGE_eq pd Hok) as (_ & ? & ?).
  unfold pd_hash_put, HeapOnlyAlloc. cbn [mbind option_bind].
  destruct (bucket_get pd id Hok) as (-> & Hget & Hs). cbn [mbind option_bind]. rewrite Hget. cbn [mbind option_bind].
  pose proof (slot_entries_le pd (pd_ix pd id)) as Hle.
  assert (∀ s v rest, slot_ok s → slot_entries (slot_at pd (pd_ix pd id)) ≡ₚ (id, v) :: rest → slot_entries s ≡ₚ (id, value) :: rest → ∃ p',
    ('(_, pd) ← array_put (Some pd) (pd_ix pd id) s; Some (v, Some pd)) = Some (default am_undefined (dict_map (Some pd) !! id), p') ∧
    dict_inv p' ∧ dict_map p' = <[id := value]> (dict_map (Some pd))) as Hrep.
  { intros s v rest Hsok Ho Hn. destruct (bucket_replace pd id v value s rest) as (old & pd' & -> & Hok' & -> & Hm & ? & Hh & Hsp & Hz); [done..|].
    cbn [mbind option_bind]. eexists. split; [done|]. split; [|done]. split; [done|]. destruct Hload as (? & ? & ?). unfold load_ok. rewrite Hh, Hsp. lia. }
  pose proof (put_new pd id value) as Hadd.
  destruct (slot_at pd (pd_ix pd id)) as [|t|l|] eqn:Es; [..|done].
  - destruct (Hadd (Tup (id, value))) as (old & pd1 & pd2 & -> & E & _ & Hinv & Hm); [done..|apply not_elem_of_nil|].
    cbn [Z.leb Z.compare mbind option_bind]. rewrite E. eauto.
  - cbn [Z.leb Z.compare Z.add Z.sub Pos.add Pos.compare Pos.compare_cont mbind option_bind]. case_bool_decide as Ht.
    + destruct t as [k v]. cbn in Ht. subst k. by apply (Hrep (Tup (id, value)) v []).
    + destruct (Hadd (Lst [(id, value); t])) as (old & pd1 & pd2 & _ & E & E' & Hinv & Hm); [done|done|done|cbn; lia|done| |].
      { cbn. rewrite list_elem_of_singleton. congruence. }
      change (7 - 3) with 4. cbn [Z.leb Z.compare Pos.compare Pos.compare_cont CONS list_cells mbind option_bind].
      rewrite E'. cbn [mbind option_bind]. rewrite E. eauto.
  - cbn [slot_entries slot_ok] in *. destruct (find_cell_ok l id 0) as [(pre & [k v] & post & -> & Ht & Hpre & ->)|[Hl E0]].
    + cbn in Ht. subst k. rewrite length_app in Hle. cbn [length] in Hle. rewrite Z.add_0_l. unfold as_int.
      rewrite (proj2 (Z.leb_le _ INT_MAX)) by (unfold INT_MAX; lia). cbn [mbind option_bind].
      rewrite (proj2 (Z.leb_le 3 _)) by lia. cbn [mbind option_bind]. rewrite (proj2 (Z.leb_le ((_ + 1) * 2) _)) by lia. cbn [mbind option_bind].
      rewrite Nat2Z.id, take_app_length, foldl_cons_rev.
      replace (drop (length pre + 1) (pre ++ (id, v) :: post)) with post
        by (rewrite drop_app_ge by lia; by replace (length pre + 1 - length pre)%nat with 1%nat by lia).
      apply (Hrep _ v (pre ++ post)); cbn [slot_entries slot_ok].
      * cbn. rewrite length_app, length_rev. rewrite length_app in Hs. cbn in Hs. lia.
      * by rewrite <- Permutation_middle.
      * by rewrite <- Permutation_rev.
    + destruct (find_cell l id 0) as [i f]. cbn in E0. subst f.
      destruct (Hadd (Lst ((id, value) :: l))) as (old & pd1 & pd2 & E1 & E & _ & Hinv & Hm); [done|done|done|cbn; lia|done|done|].
      change (3 + 2) with 5. change (5 - 3) with 2. cbn [Z.leb Z.compare Pos.compare Pos.compare_cont CONS list_cells mbind option_bind].
      change (5 - 3) with 2. cbn [Z.leb Z.compare Pos.compare Pos.compare_cont mbind option_bind].
      rewrite E1. cbn [mbind option_bind]. rewrite E. eauto.
Qed.

Lemma dict_put_ok p id value : dict_inv p → Z.of_nat (base.size (dict_map p)) < 2 ^ 29 - 1 → ∃ p',
  pd_hash_put p id value = Some (default am_undefined (dict_map p !! id), p') ∧ dict_inv p' ∧ dict_map p' = <[id := value]> (dict_map p).
Proof.
  destruct p as [pd|]; [intros [Hok Hload]; by apply put_existing|]. intros _ Hf.
  destruct new_dict as (pd & E & [Hok Hload] & Hm). destruct (put_existing _ id value Hok Hload) as (p' & Hput & Hinv & Hm').
  { by rewrite Hm. }
  rewrite Hm in Hput, Hm'. exists p'. split; [|done]. change (dict_map None) with (∅ : gmap Eterm Eterm). rewrite <- Hput. unfold pd_hash_put at 1. rewrite E. done.
Qed.

(** ** Erase *)

Lemma finish_erase_ok pd (ret : Eterm) : pd_ok pd → few (Some pd) →
  let range := homeSize pd + splitPosition pd in
  numElements pd < range → (range ≤ INITIAL_SIZE ∨ range / 2 ≤ numElements pd + 1) → size pd < 4 * range + 4 → ∃ pd',
  (let range := HASH_RANGE pd in
   if (range >? INITIAL_SIZE) && (range / 2 >? numElements pd) then pd ← shrink pd; Some (ret, Some pd) else Some (ret, Some pd))
    = Some (ret, Some pd') ∧ dict_inv (Some pd') ∧ dict_map (Some pd') = dict_map (Some pd).
Proof.
  intros Hok Hf range Hn Hload Hz. destruct (few_entries pd Hok Hf) as [Hlt Hnum]. destruct (HASH_RANGE_eq pd Hok) as (-> & Hh & Hs).
  cbv zeta. fold range. destruct (Z.gtb_spec range INITIAL_SIZE) as [Hr|Hr]; cbn [andb].
  - destruct (Z.gtb_spec (range / 2) (numElements pd)) as [Hhalf|Hhalf].
    + destruct (shrink_ok pd Hok) as (pd' & -> & Hok' & He & Hne & Hrng & Hz'); [done..|]. cbn [mbind option_bind].
      exists pd'. split; [done|]. split; [|by apply same_map]. split; [done|]. unfold load_ok. fold range in Hrng. rewrite Hne.
      unfold INITIAL_SIZE in *. split_and!; try done; rewrite Hrng; Z.to_euclidean_division_equations; lia.
    + exists pd. split; [done|]. split; [|done]. split; [done|]. split_and!; [done|by right|done].
  - exists pd. split; [done|]. split; [|done]. split; [done|]. split_and!; [done|left; fold range; lia|done].
Qed.

Lemma erase_cells_none l id : id ∉ l.*1 → ∀ live (ret : Eterm) n, erase_cells l id live ret n = (l, ret, n).
Proof.
  induction l as [|t l IH]; intros Hn live ret n; cbn [erase_cells]; [done|].
  rewrite fmap_cons, not_elem_of_cons in Hn. destruct Hn as [Ht Hl]. rewrite bool_decide_eq_false_2 by congruence. by rewrite IH.
Qed.

Lemma erase_cells_one pre t post id : t.1 = id → id ∉ pre.*1 → id ∉ post.*1 → ∀ (ret : Eterm) n,
  erase_cells (pre ++ t :: post) id true ret n = (pre ++ post, t.2, n + 1).
Proof.
  intros Ht Hpre Hpost. induction pre as [|u pre IH]; intros ret n; cbn [app erase_cells].
  - rewrite bool_decide_eq_true_2 by done. by rewrite erase_cells_none.
  - rewrite fmap_cons, not_elem_of_cons in Hpre. destruct Hpre as [Hu Hpre]. rewrite bool_decide_eq_false_2 by congruence. by rewrite IH.
Qed.

(** A store to a slot in use *)
Lemma array_put_known pd ndx s : size pd = zlen (data pd) → used pd ≤ size pd → 0 ≤ ndx < used pd → ndx < MAX_HASH →
  array_put (Some pd) ndx s = Some (slot_at pd ndx, set_data (<[Z.to_nat ndx := s]> (data pd)) pd).
Proof.
  intros Hsz Hu Hb Hm. unfold array_put, array_room, data_at, slot_at. destruct (Z.geb_spec ndx (size pd)); [lia|]. cbn [mbind option_bind].
  rewrite (proj2 (Z.leb_le _ _)), wrap_u_small by (unfold MAX_HASH in *; lia).
  destruct (lookup_lt_is_Some_2 (data pd) (Z.to_nat ndx)) as [old E]; [lia|]. rewrite E. cbn.
  destruct (Z.gtb_spec (ndx + 1) (used pd)); [lia|done].
Qed.

Lemma slot_used pd ndx : arr_ok pd → slot_at pd ndx ≠ Nil → ndx < used pd.
Proof. intros (_ & _ & Hnil & _) Hne. destruct (Z.lt_ge_cases ndx (used pd)) as [|Hge]; [done|by apply Hnil in Hge]. Qed.

Lemma bucket_nodup pd i : pd_ok pd → NoDup (slot_entries (slot_at pd i)).*1.
Proof.
  intros [_ (_ & _ & Hk & _)]. unfold slot_at. destruct (data pd !! Z.to_nat i) as [s|] eqn:E; [|constructor].
  unfold entries in Hk. rewrite <- (take_drop_middle _ _ _ E) in Hk. rewrite bind_app, bind_cons, !fmap_app in Hk.
  apply NoDup_app in Hk as (_ & _ & Hk). by apply NoDup_app in Hk as (Hk & _).
Qed.

(** What the search and removal in [pd_hash_erase] leave before the table is shrunk *)
Definition removed pd id pd' : Prop :=
  pd_ok pd' ∧ dict_map (Some pd') = delete id (dict_map (Some pd)) ∧ homeSize pd' = homeSize pd ∧ splitPosition pd' = splitPosition pd ∧
  size pd' ≤ Z.max (size pd) (2 * (homeSize pd + splitPosition pd)) ∧ numElements pd - 1 ≤ numElements pd' ≤ numElements pd.

Lemma removed_none pd id : pd_ok pd → id ∉ (slot_entries (slot_at pd (pd_ix pd id))).*1 →
  removed pd id pd ∧ dict_map (Some pd) !! id = None.
Proof.
  intros Hok Hn. apply bucket_lookup_none in Hn; [|done]. split; [|done]. split; [done|]. rewrite delete_id by done. split_and!; (done || lia).
Qed.

(** The cells of a list bucket are relinked in place, and a list of one cell is replaced by its tuple. *)
Lemma erase_list pd id l : pd_ok pd → zlen (entries pd) < 2 ^ 29 → slot_at pd (pd_ix pd id) = Lst l → ∃ pd',
  (let '(cells', ret, n) := erase_cells l id true am_undefined 0 in
   let pd1 := set_num (to_Uint (numElements pd - n)) (set_data (<[Z.to_nat (pd_ix pd id) := mk_list cells']> (data pd)) pd) in
   match cells' with
   | [] => None
   | [t] => '(_, pd) ← array_put (Some pd1) (pd_ix pd id) (Tup t); Some (ret, pd)
   | _ => Some (ret, pd1)
   end) = Some (default am_undefined (dict_map (Some pd) !! id), pd') ∧ removed pd id pd'.
Proof.
  intros Hok Hlt Es. pose proof Hok as [Ha (_ & _ & _ & Hnum)]. pose proof (pd_ix_bound pd id Hok) as Hb.
  pose proof (slot_used pd (pd_ix pd id) Ha ltac:(by rewrite Es)) as Hu. pose proof Ha as (Hsz & Hus & _).
  pose proof (slot_at_ok pd (pd_ix pd id) Ha) as Hs. rewrite Es in Hs. cbn in Hs.
  assert (pd_ix pd id < MAX_HASH) as Hmax.
  { destruct (geo_pos _ _ (proj1 (proj2 Hok))) as (? & ? & ?). pose proof (hash_ix_range (homeSize pd) (splitPosition pd) (MAKE_HASH id)). unfold pd_ix. lia. }
  destruct (find_cell_ok l id 0) as [(pre & [k v] & post & -> & Ht & Hpre & _)|[Hl _]].
  - cbn in Ht. subst k. pose proof (bucket_nodup pd (pd_ix pd id) Hok) as Hnd. rewrite Es in Hnd. cbn [slot_entries] in Hnd.
    rewrite <- Permutation_middle in Hnd. apply (proj1 (nodup_head _ _ _)) in Hnd as [Hnd _]. rewrite fmap_app, not_elem_of_app in Hnd.
    rewrite erase_cells_one by (done || apply Hnd). cbv zeta. rewrite Z.add_0_l.
    assert (1 ≤ length (pre ++ post))%nat as Hlen by (rewrite length_app in *; cbn in Hs; lia).
    destruct (bucket_remove pd id v (collapse (pre ++ post)) (pre ++ post)) as (old & pd' & E & Hok' & -> & Hm & Hn & Hh & Hsp & Hz & Hpos);
      [done|apply slot_entries_collapse|by rewrite Es; cbn; rewrite <- Permutation_middle|by rewrite (proj1 (slot_entries_collapse _))|].
    rewrite array_put_known in E by (done || lia). injection E as <- <-. rewrite to_Uint_small by lia.
    exists (set_num (numElements pd - 1) (set_data (<[Z.to_nat (pd_ix pd id) := collapse (pre ++ post)]> (data pd)) pd)).
    split; [|split; [done|]; split; [done|]; cbn; lia].
    destruct (pre ++ post) as [|t1 [|t2 r]]; [cbn in Hlen; lia| |done].
    rewrite array_put_known by (cbn [size used data set_num set_data]; rewrite ?length_insert; (done || lia)). cbn. by rewrite list_insert_insert_eq.
  - destruct (removed_none pd id Hok) as [Hr ->]; [by rewrite Es|]. rewrite erase_cells_none by done. cbv zeta.
    rewrite Z.sub_0_r, to_Uint_small by lia. exists pd. split; [|done].
    assert (set_num (numElements pd) (set_data (<[Z.to_nat (pd_ix pd id) := mk_list l]> (data pd)) pd) = pd) as ->.
    { assert (mk_list l = Lst l) as -> by (destruct l; [cbn in Hs; lia|done]). rewrite list_insert_id; [by destruct pd|].
      revert Es. unfold slot_at. destruct (data pd !! Z.to_nat (pd_ix pd id)); [by intros <-|done]. }
    destruct l as [|t1 [|t2 r]]; cbn in Hs; [lia..|done].
Qed.

Lemma erase_ok p id : dict_inv p → few p → ∃ p',
  pd_hash_erase p id = Some (default am_undefined (dict_map p !! id), p') ∧ dict_inv p' ∧ dict_map p' = delete id (dict_map p).
Proof.
  destruct p as [pd|]; [|intros _ _; exists None; cbn; by rewrite lookup_empty, delete_empty].
  intros [Hok Hload] Hf. destruct (few_entries pd Hok Hf) as [Hlt Hnum]. destruct (HASH_RANGE_eq pd Hok) as (_ & ? & ?).
  unfold pd_hash_erase. destruct (bucket_get pd id Hok) as (-> & Hget & Hs). cbn [mbind option_bind]. rewrite Hget. cbn [mbind option_bind].
  assert (∀ r pd1, r = Some (default am_undefined (dict_map (Some pd) !! id), pd1) → removed pd id pd1 → ∃ p',
    ('(ret, pd) ← r;
      let range := HASH_RANGE pd in
      if (range >? INITIAL_SIZE) && (range / 2 >? numElements pd) then pd ← shrink pd; Some (ret, Some pd) else Some (ret, Some pd)) =
      Some (default am_undefined (dict_map (Some pd) !! id), p') ∧ dict_inv p' ∧ dict_map p' = delete id (dict_map (Some pd))) as Hfin.
  { intros r pd1 -> (Hok1 & Hm1 & Hh & Hsp & Hz & Hn). cbn [mbind option_bind]. destruct Hload as (? & Hl & ?).
    destruct (finish_erase_ok pd1 (default am_undefined (dict_map (Some pd) !! id))) as (pd' & E & Hinv & Hm); rewrite ?Hh, ?Hsp; try done; try lia.
    { unfold few. rewrite Hm1. unfold few in Hf. assert (base.size (delete id (dict_map (Some pd))) ≤ base.size (dict_map (Some pd)))%nat; [|lia].
      apply map_subseteq_size. apply delete_subseteq. }
    cbv zeta in E. exists (Some pd'). rewrite E, Hm, Hm1. done. }
  destruct (slot_at pd (pd_ix pd id)) as [|t|l|] eqn:Es; [..|done].
  - destruct (removed_none pd id Hok) as [Hr E]; [rewrite Es; apply not_elem_of_nil|]. apply (Hfin _ pd); [by rewrite E|done].
  - case_bool_decide as Ht.
    + destruct t as [k v]. cbn in Ht. subst k.
      destruct (bucket_remove pd id v Nil []) as (old & pd' & E & Hok' & Hl & Hm & Hn & Hh & Hsp & Hz & Hpos); [done|done|by rewrite Es|done|].
      eapply Hfin; [rewrite E; cbn [mbind option_bind]; rewrite Hn, to_Uint_small, Hl by lia; done|]. split; [done|]. split; [done|]. cbn; lia.
    + destruct (removed_none pd id Hok) as [Hr E]; [rewrite Es; cbn; rewrite list_elem_of_singleton; congruence|]. apply (Hfin _ pd); [by rewrite E|done].
  - destruct (erase_list pd id l Hok Hlt Es) as (pd' & E & Hr). by apply (Hfin _ pd').
Qed.

(** ** The check of the debug build *)

Lemma check_slots_ok n pd : Forall slot_ok (data pd) → ∀ i num, 0 ≤ i → i + Z.of_nat n ≤ zlen (data pd) →
  check_slots n pd i num = Some (num + zlen (take n (drop (Z.to_nat i) (data pd)) ≫= slot_entries)).
Proof.
  intros Hok. induction n as [|n IH]; intros i num Hi Hn; cbn [check_slots]; [by rewrite take_0, Z.add_0_r|].
  unfold data_at. rewrite (proj2 (Z.leb_le _ _)) by done. destruct (lookup_lt_is_Some_2 (data pd) (Z.to_nat i)) as [s E]; [lia|].
  rewrite E. cbn [mbind option_bind]. pose proof (Forall_lookup_1 _ _ _ _ Hok E) as Hs.
  assert (slot_count s = Some (zlen (slot_entries s))) as -> by (by destruct s). cbn [mbind option_bind]. rewrite IH by lia.
  replace (Z.to_nat (i + 1)) with (S (Z.to_nat i)) by lia. rewrite (drop_S _ _ _ E). cbn [take]. rewrite bind_cons, length_app. f_equal. lia.
Qed.

Lemma dict_check_ok p : dict_inv p → pd_check p = true.
Proof.
  destruct p as [pd|]; [|done]. intros [Hok _]. destruct (HASH_RANGE_eq pd Hok) as (HR & _). pose proof Hok as [(Hsz & Hu & Hnil & Hs) (Hg & _ & _ & Hn)].
  destruct (geo_pos _ _ Hg) as (? & ? & ?). unfold pd_check. rewrite HR, check_slots_ok by (done || lia). change (Z.to_nat 0) with 0%nat. rewrite drop_0.
  assert (zlen (take (Z.to_nat (used pd)) (data pd) ≫= slot_entries) = numElements pd) as ->.
  { rewrite Hn. unfold entries. rewrite <- (take_drop (Z.to_nat (used pd)) (data pd)) at 2.
    rewrite bind_app, drop_entries_nil, app_nil_r; (done || lia). }
  rewrite Z.add_0_l, Z.eqb_refl. repeat rewrite (proj2 (Z.leb_le _ _)) by lia. rewrite Z.geb_leb, (proj2 (Z.leb_le _ _)) by lia. done.
Qed.
End Ops.
