(* ===== verification/ProcDictTheorems.v ===== *)
(** The correctness properties of the process dictionary ([ProcDict], [ProcDictSpec],
    [ProcDictOps]), with a concrete instance. *)

From Stdlib Require Import ZArith ZifyBool.
From stdpp Require Import base list numbers option gmap.
From S2P Require Import Prelude LinearHash ProcDict ProcDictSpec ProcDictOps.
Local Open Scope Z_scope.

(** * Sequences of operations *)
Section Sequences.
Context {Eterm : Type} `{Countable Eterm, !DictTerms Eterm, !DictTermLaws Eterm}.

Inductive dict_op :=
| OpPut (id value : Eterm)
| OpGet (id : Eterm)
| OpErase (id : Eterm)
| OpGetAll
| OpEraseAll
| OpGetKeys (value : Eterm)
| OpCopy
| OpDump.

Inductive dict_res :=
| Term (t : Eterm)
| Terms (l : list Eterm)
| Tuples (l : list (tuple Eterm)).

(** The code: the built-in functions with the debug checks, and the listings for [process_info] and crash dumps *)
Definition dict_step (p : option (ProcDict Eterm)) (op : dict_op) : option (dict_res * option (ProcDict Eterm)) :=
  match op with
  | OpPut id value => '(r, p') ← put_2 p id value; Some (Term r, p')
  | OpGet id => '(r, p') ← get_1 p id; Some (Term r, p')
  | OpErase id => '(r, p') ← erase_1 p id; Some (Term r, p')
  | OpGetAll => '(r, p') ← get_0 p; Some (Tuples r, p')
  | OpEraseAll => '(r, p') ← erase_0 p; Some (Tuples r, p')
  | OpGetKeys value => '(r, p') ← get_keys_1 p value; Some (Terms r, p')
  | OpCopy => r ← erts_dictionary_copy p; Some (Tuples r, p)
  | OpDump => r ← erts_deep_dictionary_dump p; Some (Tuples r, p)
  end.

Fixpoint dict_run (p : option (ProcDict Eterm)) (ops : list dict_op) : option (list dict_res * option (ProcDict Eterm)) :=
  match ops with
  | [] => Some ([], p)
  | op :: ops' => '(r, p') ← dict_step p op; '(rs, p'') ← dict_run p' ops'; Some (r :: rs, p'')
  end.

(** The specification on finite maps; lists come in any order. *)
Definition spec_step (m : gmap Eterm Eterm) (op : dict_op) (r : dict_res) (m' : gmap Eterm Eterm) : Prop :=
  match op with
  | OpPut id value => r = Term (default am_undefined (m !! id)) ∧ m' = <[id := value]> m
  | OpGet id => r = Term (default am_undefined (m !! id)) ∧ m' = m
  | OpErase id => r = Term (default am_undefined (m !! id)) ∧ m' = delete id m
  | OpGetAll | OpCopy | OpDump => (∃ l, r = Tuples l ∧ l ≡ₚ map_to_list m) ∧ m' = m
  | OpEraseAll => (∃ l, r = Tuples l ∧ l ≡ₚ map_to_list m) ∧ m' = ∅
  | OpGetKeys value => (∃ l, r = Terms l ∧ l ≡ₚ (filter (λ t, t.2 = value) (map_to_list m)).*1) ∧ m' = m
  end.

Inductive spec_run : gmap Eterm Eterm → list dict_op → list dict_res → gmap Eterm Eterm → Prop :=
| spec_nil m : spec_run m [] [] m
| spec_cons m op r m' ops rs m'' : spec_step m op r m' → spec_run m' ops rs m'' → spec_run m (op :: ops) (r :: rs) m''.

Lemma checked_ok {A} p (r : A) p' : dict_inv p → dict_inv p' → checked p (Some (r, p')) = Some (r, p').
Proof. intros Hp Hp'. unfold checked. by rewrite dict_check_ok by done; cbn; rewrite dict_check_ok by done. Qed.

Lemma dict_step_ok p op : dict_inv p → Z.of_nat (base.size (dict_map p)) < 2 ^ 29 - 1 → ∃ r p',
  dict_step p op = Some (r, p') ∧ dict_inv p' ∧ spec_step (dict_map p) op r (dict_map p') ∧
  (base.size (dict_map p') ≤ S (base.size (dict_map p)))%nat.
Proof.
  intros Hinv Hlt. assert (few p) as Hf by (unfold few; lia).
  destruct (listings_ok p Hinv Hf) as (l1 & l2 & l3 & E1 & E2 & E3 & HP1 & HP2 & HP3).
  destruct op as [id value|id|id| | |value| |]; cbn [dict_step spec_step]; unfold put_2, get_1, erase_1, get_0, erase_0, get_keys_1.
  - destruct (dict_put_ok p id value Hinv Hlt) as (p' & -> & Hinv' & Hm). rewrite checked_ok by done. eexists _, p'. split; [done|].
    split; [done|]. split; [done|]. rewrite Hm, map_size_insert. destruct (dict_map p !! id); cbn; lia.
  - rewrite (get_ok p id Hinv). cbn [mbind option_bind]. rewrite checked_ok by done. eexists _, p. split_and!; (done || lia).
  - destruct (erase_ok p id Hinv Hf) as (p' & -> & Hinv' & Hm). rewrite checked_ok by done. eexists _, p'. split; [done|].
    split; [done|]. split; [done|]. rewrite Hm. etrans; [apply map_subseteq_size, delete_subseteq|lia].
  - rewrite E1. cbn [mbind option_bind]. rewrite checked_ok by done. eexists _, p. split; [done|]. split_and!; [done|eauto|done|lia].
  - rewrite E1. cbn [mbind option_bind]. assert (pd_hash_erase_all p = None) as -> by (by destruct p). rewrite checked_ok by done.
    eexists _, None. split; [done|]. split; [done|]. split; [split; [eauto|done]|]. cbn. rewrite map_size_empty. lia.
  - destruct (get_keys_ok p value Hinv) as (l & -> & HP). cbn [mbind option_bind]. rewrite checked_ok by done.
    eexists _, p. split; [done|]. split_and!; [done|eauto|done|lia].
  - rewrite E2. eexists _, p. split; [done|]. split_and!; [done|eauto|done|lia].
  - rewrite E3. eexists _, p. split; [done|]. split_and!; [done|eauto|done|lia].
Qed.

Lemma dict_run_ok ops : ∀ p, dict_inv p → Z.of_nat (base.size (dict_map p) + length ops) < 2 ^ 29 → ∃ rs p',
  dict_run p ops = Some (rs, p') ∧ dict_inv p' ∧ spec_run (dict_map p) ops rs (dict_map p').
Proof.
  induction ops as [|op ops IH]; intros p Hinv Hlt; cbn [dict_run length] in *; [exists [], p; split_and!; [done..|constructor]|].
  destruct (dict_step_ok p op Hinv) as (r & p1 & -> & Hinv1 & Hs & Hsz); [lia|]. cbn [mbind option_bind].
  destruct (IH p1 Hinv1) as (rs & p2 & -> & Hinv2 & Hr); [lia|]. cbn [mbind option_bind].
  exists (r :: rs), p2. split_and!; [done..|]. by econstructor.
Qed.

(** C10: The process dictionary implements a finite map from keys to values.  Any sequence of fewer than 2^29 [put/2], [get/1], [erase/1], [get/0],
    [erase/0], [get_keys/1], [process_info] copies and dumps, starting without a dictionary, runs without undefined behaviour (no access
    outside of the array, no heap word that was not reserved, no overflow) and without failing a check of the debug build,
    whatever splitting, merging and reallocation it causes; its results are those of a map, where listings come in some order. *)
Theorem dict_refines_map ops : zlen ops < 2 ^ 29 → ∃ rs p,
  dict_run None ops = Some (rs, p) ∧ spec_run ∅ ops rs (dict_map p).
Proof.
  intros Hlt. destruct (dict_run_ok ops None) as (rs & p & E & _ & Hr); [done|cbn; rewrite map_size_empty; lia|]. eauto.
Qed.

(** C35: In every state that such a sequence of fewer than 2^29 calls reaches, the number of elements is counted right, the table has more buckets than elements (so a bucket holds less than
    one element on average), at least half as many elements as buckets unless it has only the 10 initial buckets,
    and an array with less than four slots per bucket (and three more); the bucket number of any key is below the number of
    buckets. *)
Theorem dict_load_bounded ops rs pd (id : Eterm) : zlen ops < 2 ^ 29 → dict_run None ops = Some (rs, Some pd) →
  let range := homeSize pd + splitPosition pd in
  numElements pd = Z.of_nat (base.size (dict_map (Some pd))) ∧ numElements pd < range ∧
  (range ≤ INITIAL_SIZE ∨ range / 2 ≤ numElements pd) ∧ size pd < 4 * range + 4 ∧
  (∃ h, pd_hash_value pd id = Some h ∧ 0 ≤ h < range) ∧ ∀ value, (id, value) ∈ entries pd ↔ dict_map (Some pd) !! id = Some value.
Proof.
  intros Hlt E range. destruct (dict_run_ok ops None) as (rs' & p & E' & Hinv & _); [done|cbn; rewrite map_size_empty; lia|].
  rewrite E in E'. injection E' as <- <-. destruct Hinv as [Hok (H1 & H2 & H3)]. split; [by apply dict_size|]. do 3 (split; [done|]).
  pose proof Hok as [_ (Hg & _ & Hk & _)]. split.
  - exists (pd_ix pd id). split; [by apply pd_hash_value_eq|]. destruct (geo_pos _ _ Hg) as (? & ? & ?). apply hash_ix_range; lia.
  - intros value. by apply elem_of_list_to_map.
Qed.
End Sequences.

(** * A concrete instance: integers as terms, hashed to themselves, on a 64-bit machine *)
Module Instances.
#[export] Instance int_terms : DictTerms Z := {| MAKE_HASH := Z.abs; am_undefined := -1; sizeof_Uint := 8 |}.
#[export] Instance int_term_laws : DictTermLaws Z.
Proof. split; [apply Z.abs_nonneg|by right]. Qed.

(** With 8-byte [Uint]s the search of [next_array_size] stops at the 14th of the 29 entries of its table: larger
    arrays are allocated with exactly the size needed. *)
Lemma next_array_size_half_table : next_array_size 81920 = Some 81920 ∧ next_array_size 81921 = Some 81921 ∧
  In 163840 array_sizes.
Proof. split; [reflexivity|]. split; [reflexivity|]. cbn. tauto. Qed.

Definition ops1 : list (dict_op (Eterm := Z)) := [OpPut 3 30; OpPut 13 130; OpPut 23 230; OpErase 13; OpGetAll].

Lemma dict_refines_map_witness : ∃ rs p, dict_run None ops1 = Some (rs, p) ∧ spec_run ∅ ops1 rs (dict_map p).
Proof. apply (dict_refines_map ops1). reflexivity. Defined.

Lemma dict_load_bounded_witness : ∃ rs pd, dict_run None [OpPut 3 30] = Some (rs, Some pd) ∧
  numElements pd = Z.of_nat (base.size (dict_map (Some pd))) ∧ numElements pd < homeSize pd + splitPosition pd.
Proof.
  eexists _, _. split; [vm_compute; reflexivity|].
  match goal with |- numElements ?pd = _ ∧ _ => pose proof (dict_load_bounded [OpPut 3 30] [Term (-1)] pd 3) as Hb end.
  destruct Hb as (H1 & H2 & _); [reflexivity|vm_compute; reflexivity|]. split; [exact H1|exact H2].
Defined.
End Instances.
