(* ===== verification/DbUtil.v ===== *)
(** What the two implementations of ETS tables share: the error codes of [erts/emulator/beam/erl_db_util.h], and the addresses of new
    blocks. *)

From stdpp Require Import base list.
From S2P Require Import Prelude.
Local Open Scope Z_scope.

Inductive db_error :=
| DB_ERROR_NONE | DB_ERROR_BADITEM | DB_ERROR_SYSRES | DB_ERROR_BADKEY | DB_ERROR_BADPARAM | DB_ERROR_UNSPEC.

#[export] Instance db_error_eq_dec : EqDecision db_error.
Proof. solve_decision. Defined.

(** An allocator: the block it returns is not one of the blocks that are in use. *)
Class NodeAlloc := { new_addr : list Z → Z; new_addr_fresh : ∀ l, new_addr l ∉ l }.
