(* ===== verification/DbTree.v ===== *)
(** Ordered ETS tables: [erts/emulator/beam/erl_db_tree.c].

    A table is an AVL tree of objects, ordered by key.  Insertion and deletion are the code of [erl_monitors.c]
    (which was made from this file), so the definitions of [Avl] are used for the descent and the rotations.  New here are
    the searches with a saved stack: a table keeps the path to the node that the last [first], [next], [prev] or [slot] ended
    at, as an array of node pointers with a position number, and the next search starts from there if it can.

    A node has an address.  The stack is a list of addresses, the top first; following a pointer is [node_at], which is undefined
    for an address that is not in the tree (a freed node).  A function whose result is [None] runs into
    undefined behaviour or an assertion.  [find_next] and [find_prev] are the same code with left and right, and [<] and
    [>], exchanged: they are written once, with a direction ([true] is [next]). *)

From Stdlib Require Import ZArith ZifyBool.
From stdpp Require Import base list numbers option.
From S2P Require Import Prelude Avl DbUtil.
Local Open Scope Z_scope.

(** Objects [Obj] with a key of type [T]; [cmp] compares keys up to [==], the classes of which are [K]. *)
Class DbTerms (Obj T K : Type) := {
  GETKEY : Obj → T; ets_key : T → K; ets_cmp : K → K → Z;
  am_EOT : T; is_EOT : T → bool;
  arityval : Obj → Z; element : Obj → Z → T }.

Definition TREE_MAX_ELEMENTS : Z := 4294967295.
Definition DELETE_RECORD_LIMIT : Z := 12000.

Section DbTree.
Context {Obj T K : Type} `{EqDecision Obj, !DbTerms Obj T K}.

Record TreeDbTerm := TDT { addr : Z; dbterm : Obj }.

Record DbTreeStack := Stack { slot : Z; array : list Z }.

Record DbTableTree := Table {
  root : tree TreeDbTerm; nitems : Z; is_stack_busy : bool; static_stack : DbTreeStack }.

Implicit Types (tb : DbTableTree) (t this : tree TreeDbTerm) (stack : DbTreeStack) (key : T) (obj : Obj) (d : bool).

Definition cmp (a b : T) : Z := ets_cmp (ets_key a) (ets_key b).
Definition CMP_EQ (a b : T) : bool := cmp a b =? 0.
Definition node_key (n : TreeDbTerm) : T := GETKEY (dbterm n).
Definition NITEMS tb : Z := int32 (nitems tb).

(** ** Node pointers and stacks *)

Fixpoint node_at t (p : Z) : option (tree TreeDbTerm) :=
  match t with
  | Leaf => None
  | Node l a _ r =>
      if addr a =? p then Some t else match node_at l p with Some x => Some x | None => node_at r p end
  end.

(** Comparison of a child pointer with a node pointer *)
Definition points_to t (p : Z) : bool := match t with Leaf => false | Node _ a _ _ => addr a =? p end.

Definition PUSH_NODE (arr : list Z) t : option (list Z) :=
  match t with
  | Leaf => None
  | Node _ a _ _ => if bool_decide (length arr < STACK_NEED)%nat then Some (addr a :: arr) else None
  end.

(** [NULL] is [Leaf]. *)
Definition TOP_NODE tb (arr : list Z) : option (tree TreeDbTerm) :=
  match arr with [] => Some Leaf | p :: _ => node_at (root tb) p end.

Definition set_static stack tb : DbTableTree := Table (root tb) (nitems tb) (is_stack_busy tb) stack.
Definition set_busy b tb : DbTableTree := Table (root tb) (nitems tb) b (static_stack tb).
Definition reset_static_stack tb : DbTableTree := set_static (Stack 0 []) tb.

(** [None] when another user has the static stack *)
Definition get_static_stack tb : option DbTreeStack * DbTableTree :=
  if is_stack_busy tb then (None, tb) else (Some (static_stack tb), set_busy true tb).

(** The flag tells whether it is the static stack or a new one. *)
Definition get_any_stack tb : DbTreeStack * bool * DbTableTree :=
  if is_stack_busy tb then (Stack 0 [], false, tb) else (static_stack tb, true, set_busy true tb).

(** A stack that is not the static one is freed; [erts_db_free] asserts that the pointer is not [NULL]. *)
Definition release_stack tb (s : option (DbTreeStack * bool)) : option DbTableTree :=
  match s with
  | Some (stack, true) => Some (set_busy false (set_static stack tb))
  | Some (_, false) => Some tb
  | None => None
  end.

(** ** Searches *)

(** The child before a node and the child after it, in direction [d] *)
Definition near d (l r : tree TreeDbTerm) : tree TreeDbTerm := if d then l else r.
Definition far d (l r : tree TreeDbTerm) : tree TreeDbTerm := if d then r else l.

(** [while (this->left != NULL) { push; this = this->left; } push;] and the same to the right *)
Fixpoint spine d t (arr : list Z) : option (tree TreeDbTerm * list Z) :=
  match t with
  | Leaf => None
  | Node l _ _ r =>
      arr' ← PUSH_NODE arr t;
      match near d l r with
      | Leaf => Some (t, arr')
      | Node _ _ _ _ => if d then spine d l arr' else spine d r arr'
      end
  end.

(** The same without a stack *)
Fixpoint spine_end d t : tree TreeDbTerm :=
  match t with
  | Leaf => Leaf
  | Node l _ _ r => match near d l r with Leaf => t | Node _ _ _ _ => if d then spine_end d l else spine_end d r end
  end.

(** [do { tmp = pop; this = top; if this == NULL return NULL } while (this->right == tmp)] *)
Fixpoint pop_while d tb (tmp : Z) (arr : list Z) : option (tree TreeDbTerm * list Z) :=
  match arr with
  | [] => Some (Leaf, [])
  | p :: arr' =>
      this ← node_at (root tb) p;
      match this with
      | Leaf => None
      | Node l _ _ r => if points_to (far d l r) tmp then pop_while d tb p arr' else Some (this, arr)
      end
  end.

(** [++slot], or [--slot], in [Uint]s; never called with slot 0 *)
Definition move_slot d stack : Z := if slot stack >? 0 then (if d then slot stack + 1 else slot stack - 1) else slot stack.

(** The end of [find_next]: the next element from [this] *)
Definition next_from d tb this stack : option (tree TreeDbTerm * DbTreeStack) :=
  match this with
  | Leaf => None
  | Node l _ _ r =>
      match far d l r with
      | Node _ _ _ _ => '(this, arr) ← spine d (far d l r) (array stack); Some (this, Stack (move_slot d stack) arr)
      | Leaf =>
          match array stack with
          | [] => None
          | tmp :: arr =>
              '(this, arr) ← pop_while d tb tmp arr;
              match this with
              | Leaf => Some (Leaf, Stack 0 arr)
              | Node _ _ _ _ => Some (this, Stack (move_slot d stack) arr)
              end
          end
      end
  end.

(** The loop that rebuilds the stack; the flag tells that the search is over. *)
Fixpoint rebuild d t key (arr : list Z) : option (tree TreeDbTerm * list Z * bool) :=
  match t with
  | Leaf => None
  | Node l a _ r =>
      arr ← PUSH_NODE arr t;
      let c := cmp (node_key a) key in
      if (if d then c <? 0 else c >? 0) then
        match far d l r with
        | Leaf => Some (t, arr, false)
        | Node _ _ _ _ => if d then rebuild d r key arr else rebuild d l key arr
        end
      else if (if d then c >? 0 else c <? 0) then
        match near d l r with
        | Leaf => Some (t, arr, true)
        | Node _ _ _ _ => if d then rebuild d l key arr else rebuild d r key arr
        end
      else Some (t, arr, false)
  end.

Definition find_adjacent d tb stack key : option (tree TreeDbTerm * DbTreeStack) :=
  this ← TOP_NODE tb (array stack);
  let stack := match this with
               | Leaf => stack
               | Node _ a _ _ => if CMP_EQ (node_key a) key then stack else Stack 0 []
               end in
  match array stack with
  | [] =>
      match root tb with
      | Leaf => Some (Leaf, stack)
      | Node _ _ _ _ =>
          '(this, arr, found) ← rebuild d (root tb) key [];
          if (found : bool) then Some (this, Stack (slot stack) arr) else next_from d tb this (Stack (slot stack) arr)
      end
  | _ => next_from d tb this stack
  end.

Definition find_next := find_adjacent true.
Definition find_prev := find_adjacent false.

(** With a partly bound key: [pb] is [cmp_partly_bound(key, _)]. *)
Fixpoint pb_search d tb (pb : T → Z) t (arr : list Z) : option (tree TreeDbTerm * list Z) :=
  match t with
  | Leaf => None
  | Node l a _ r =>
      arr ← PUSH_NODE arr t;
      let c := pb (node_key a) in
      if (if d then c >=? 0 else c <=? 0) then
        match far d l r with
        | Leaf => match arr with [] => None | tmp :: arr' => pop_while d tb tmp arr' end
        | Node _ _ _ _ => if d then pb_search d tb pb r arr else pb_search d tb pb l arr
        end
      else
        match near d l r with
        | Leaf => Some (t, arr)
        | Node _ _ _ _ => if d then pb_search d tb pb l arr else pb_search d tb pb r arr
        end
  end.

Definition find_from_pb_key d tb (pb : T → Z) : option (tree TreeDbTerm * DbTreeStack) :=
  match root tb with
  | Leaf => Some (Leaf, Stack 0 [])
  | Node _ _ _ _ => '(this, arr) ← pb_search d tb pb (root tb) []; Some (this, Stack 0 arr)
  end.

Definition find_next_from_pb_key := find_from_pb_key true.
Definition find_prev_from_pb_key := find_from_pb_key false.

Fixpoint find_key t key : tree TreeDbTerm :=
  match t with
  | Leaf => Leaf
  | Node l a _ r =>
      let res := cmp key (node_key a) in
      if res =? 0 then t else if res <? 0 then find_key l key else find_key r key
  end.

(** The source calls [release_stack] also when it did not get a stack. *)
Definition find_node tb key : option (tree TreeDbTerm * DbTableTree) :=
  let '(stack, tb) := get_static_stack tb in
  match stack with
  | None => tb ← release_stack tb None; Some (find_key (root tb) key, tb)
  | Some s =>
      top ← TOP_NODE tb (array s);
      let this := match top with
                  | Node _ a _ _ => if CMP_EQ (node_key a) key then top else find_key (root tb) key
                  | Leaf => find_key (root tb) key
                  end in
      tb ← release_stack tb (Some (s, true));
      Some (this, tb)
  end.

(** ** Table interface routines *)

Definition db_create_tree : DbTableTree := Table Leaf 0 false (Stack 0 []).

(** [db_first_tree] and [db_last_tree] *)
Definition db_end_tree d (end_slot : Z) tb : option (db_error * T * DbTableTree) :=
  match root tb with
  | Leaf => Some (DB_ERROR_NONE, am_EOT, tb)
  | Node _ _ _ _ =>
      let '(stack, tb) := get_static_stack tb in
      '(this, tb) ← match stack with
                    | Some _ =>
                        '(this, arr) ← spine d (root tb) [];
                        tb ← release_stack tb (Some (Stack end_slot arr, true));
                        Some (this, tb)
                    | None => Some (spine_end d (root tb), tb)
                    end;
      match this with Leaf => None | Node _ a _ _ => Some (DB_ERROR_NONE, node_key a, tb) end
  end.

Definition db_first_tree tb := db_end_tree true 1 tb.
Definition db_last_tree tb := db_end_tree false (NITEMS tb) tb.

Definition db_adjacent_tree d tb key : option (db_error * T * DbTableTree) :=
  if is_EOT key then Some (DB_ERROR_BADKEY, am_EOT, tb)
  else
    let '(stack, is_static, tb) := get_any_stack tb in
    '(this, stack) ← find_adjacent d tb stack key;
    tb ← release_stack tb (Some (stack, is_static));
    Some (DB_ERROR_NONE, match this with Leaf => am_EOT | Node _ a _ _ => node_key a end, tb).

Definition db_next_tree := db_adjacent_tree true.
Definition db_prev_tree := db_adjacent_tree false.

(** The address of the block that [get_term] returns is an argument. *)
Definition db_put_tree tb obj (key_clash_fail : bool) (p : Z) : option (db_error * DbTableTree) :=
  let key := GETKEY obj in
  let tb := reset_static_stack tb in
  '(stk, this) ← walk (λ a, cmp key (node_key a)) (root tb) [];
  match this with
  | Leaf =>
      if nitems tb + 1 >=? TREE_MAX_ELEMENTS then Some (DB_ERROR_SYSRES, tb)
      else
        root' ← insertion_rotation stk (Node Leaf (TDT p obj) 0 Leaf) true;
        Some (DB_ERROR_NONE, Table root' (nitems tb + 1) (is_stack_busy tb) (static_stack tb))
  | Node l _ b r =>
      if key_clash_fail then Some (DB_ERROR_BADKEY, tb)
      else Some (DB_ERROR_NONE,
                 Table (foldl (λ t f, plug f t) (Node l (TDT p obj) b r) stk) (nitems tb) (is_stack_busy tb) (static_stack tb))
  end.

Definition db_get_tree tb key : option (db_error * list Obj * DbTableTree) :=
  '(this, tb) ← find_node tb key;
  Some (DB_ERROR_NONE, match this with Leaf => [] | Node _ a _ _ => [dbterm a] end, tb).

Definition db_member_tree tb key : option (db_error * bool * DbTableTree) :=
  '(this, tb) ← find_node tb key;
  Some (DB_ERROR_NONE, match this with Leaf => false | Node _ _ _ _ => true end, tb).

Definition db_get_element_tree tb key (ndex : Z) : option (db_error * option T * DbTableTree) :=
  '(this, tb) ← find_node tb key;
  match this with
  | Leaf => Some (DB_ERROR_BADKEY, None, tb)
  | Node _ a _ _ =>
      if ndex >? arityval (dbterm a) then Some (DB_ERROR_BADPARAM, None, tb)
      else Some (DB_ERROR_NONE, Some (element (dbterm a) ndex), tb)
  end.

(** [linkout_tree] and [linkout_object_tree]; [same] is the test of the object that the latter makes. *)
Definition linkout tb key (same : Obj → bool) : option (option TreeDbTerm * DbTableTree) :=
  let tb := reset_static_stack tb in
  '(stk, this) ← walk (λ a, cmp key (node_key a)) (root tb) [];
  match this with
  | Leaf => Some (None, tb)
  | Node l q b r =>
      if same (dbterm q) then
        root' ← (match r, l with
                 | Leaf, _ => deletion_rotation stk l true
                 | _, Leaf => deletion_rotation stk r true
                 | _, _ =>
                     _ ← push (FL q b r) stk;
                     '(p, state) ← delsub l b r;
                     if (state : bool) then q' ← balance_left p; deletion_rotation stk q'.1 q'.2
                     else deletion_rotation stk p false
                 end);
        Some (Some q, Table root' (nitems tb - 1) (is_stack_busy tb) (static_stack tb))
      else Some (None, tb)
  end.

Definition linkout_tree tb key := linkout tb key (λ _, true).
Definition linkout_object_tree tb obj := linkout tb (GETKEY obj) (λ o, bool_decide (obj = o)).

(** The node returned by [linkout] is freed. *)
Definition db_erase_tree tb key : option (db_error * DbTableTree) :=
  '(res, tb) ← linkout_tree tb key; Some (DB_ERROR_NONE, tb).
Definition db_erase_object_tree tb obj : option (db_error * DbTableTree) :=
  '(res, tb) ← linkout_object_tree tb obj; Some (DB_ERROR_NONE, tb).

(** ** Slots *)

(** [for (;;) { tmp = pop; this = top; if (this == NULL || this->left == tmp) break; }] *)
Fixpoint pop_until d tb (tmp : Z) (arr : list Z) : option (tree TreeDbTerm * list Z) :=
  match arr with
  | [] => Some (Leaf, [])
  | p :: arr' =>
      this ← node_at (root tb) p;
      match this with
      | Leaf => None
      | Node l _ _ r => if points_to (near d l r) tmp then Some (this, arr) else pop_until d tb p arr'
      end
  end.

Definition slot_step d tb this (arr : list Z) : option (tree TreeDbTerm * list Z) :=
  match this with
  | Leaf => None
  | Node l _ _ r =>
      match far d l r with
      | Node _ _ _ _ => spine d (far d l r) arr
      | Leaf => match arr with [] => None | tmp :: arr' => pop_until d tb tmp arr' end
      end
  end.

(** [while (stack->slot != slot && this != NULL)]; each turn changes the position by one, so the distance is enough fuel. *)
Fixpoint slot_loop (fuel : nat) tb (want : Z) this stack : option (tree TreeDbTerm * DbTreeStack) :=
  match this with
  | Leaf => Some (Leaf, stack)
  | Node _ _ _ _ =>
      if slot stack =? want then Some (this, stack)
      else
        match fuel with
        | O => None
        | S fuel' =>
            let d := want >? slot stack in
            '(this, arr) ← slot_step d tb this (array stack);
            slot_loop fuel' tb want this (Stack (if d then slot stack + 1 else slot stack - 1) arr)
        end
  end.

Definition slot_search tb (want : Z) : option (tree TreeDbTerm * DbTableTree) :=
  let '(stack, is_static, tb) := get_any_stack tb in
  let stack := if want =? 1 then Stack 0 (array stack) else stack in
  let stack := if slot stack =? 0 then Stack 0 [] else stack in
  '(this, stack) ←
    match array stack with
    | [] =>
        match root tb with
        | Leaf => Some (Leaf, stack)
        | Node _ _ _ _ =>
            '(_, arr) ← spine true (root tb) [];
            this ← TOP_NODE tb arr;
            slot_loop (Z.to_nat (Z.abs (want - 1))) tb want this (Stack 1 arr)
        end
    | arr => this ← TOP_NODE tb arr; slot_loop (Z.to_nat (Z.abs (want - slot stack))) tb want this stack
    end;
  tb ← release_stack tb (Some (stack, is_static));
  Some (this, tb).

(** The result [inl] is [am_EOT], [inr] a list of objects. *)
Definition db_slot_tree tb (n : Z) : option (db_error * (unit + list Obj) * DbTableTree) :=
  if (n <? 0) || (n >? NITEMS tb) then Some (DB_ERROR_BADPARAM, inr [], tb)
  else if n =? NITEMS tb then Some (DB_ERROR_NONE, inl tt, tb)
  else
    '(st, tb) ← slot_search tb (n + 1);
    match st with
    | Leaf => Some (DB_ERROR_UNSPEC, inr [], tb)
    | Node _ a _ _ => Some (DB_ERROR_NONE, inr [dbterm a], tb)
    end.

(** ** Update in place *)

(** [handle->bp] points to the slot of the node: the nodes above it and the node *)
Record DbUpdateHandle := Handle { bp : list (frame TreeDbTerm); h_node : TreeDbTerm; h_balance : Z;
                                  h_left : tree TreeDbTerm; h_right : tree TreeDbTerm }.

Fixpoint find_node2 t key (above : list (frame TreeDbTerm)) : option DbUpdateHandle :=
  match t with
  | Leaf => None
  | Node l a b r =>
      let res := cmp key (node_key a) in
      if res =? 0 then Some (Handle above a b l r)
      else if res <? 0 then find_node2 l key (FL a b r :: above) else find_node2 r key (FR l a b :: above)
  end.

Definition db_lookup_dbterm_tree tb key : option DbUpdateHandle := find_node2 (root tb) key [].

(** The caller has changed the object to [obj]; with [mustResize] it is copied to a new block at [p]. *)
Definition db_finalize_dbterm_tree tb (h : DbUpdateHandle) obj (mustResize : bool) (p : Z) : DbTableTree :=
  let node := if mustResize then TDT p obj else TDT (addr (h_node h)) obj in
  let root' := foldl (λ t f, plug f t) (Node (h_left h) node (h_balance h) (h_right h)) (bp h) in
  let tb' := Table root' (nitems tb) (is_stack_busy tb) (static_stack tb) in
  if mustResize then reset_static_stack tb' else tb'.

(** ** Traversal with a callback

    [doit] gets a node and its own state, and returns whether to go on.  It does not change the table. *)
Fixpoint traverse_loop {C} (fuel : nat) d tb (doit : TreeDbTerm → C → bool * C) this stack (ctx : C) : option (DbTreeStack * C) :=
  match this with
  | Leaf => Some (stack, ctx)
  | Node _ a _ _ =>
      match fuel with
      | O => None
      | S fuel' =>
          '(next, stack) ← find_adjacent d tb stack (node_key a);
          let '(go_on, ctx) := doit a ctx in
          if go_on then traverse_loop fuel' d tb doit next stack ctx else Some (stack, ctx)
      end
  end.

(** [lastkey] is [None] for [NIL]. *)
Definition traverse {C} (fuel : nat) d tb stack (lastkey : option T) (doit : TreeDbTerm → C → bool * C) (ctx : C) : option (DbTreeStack * C) :=
  match lastkey with
  | None =>
      match root tb with
      | Leaf => Some (Stack 0 [], ctx)
      | Node _ _ _ _ =>
          '(_, arr) ← spine d (root tb) [];
          this ← TOP_NODE tb arr;
          traverse_loop fuel d tb doit this (Stack 0 arr) ctx
      end
  | Some key => '(next, stack) ← find_adjacent d tb stack key; traverse_loop fuel d tb doit next stack ctx
  end.

Definition traverse_forward {C} fuel tb := @traverse C fuel true tb.
Definition traverse_backwards {C} fuel tb := @traverse C fuel false tb.

(** [do_db_tree_foreach_offheap] and [do_dump_tree]: the objects in the order of the calls *)
Fixpoint foreach_tree t : list Obj :=
  match t with Leaf => [] | Node l a _ r => foreach_tree l ++ dbterm a :: foreach_tree r end.

(** ** Freeing a table

    The stack holds nodes from which a child was cut off.  [freed] collects the nodes handed to [free_term]. *)
Fixpoint free_down (fuel : nat) t (stk : list (tree TreeDbTerm)) : option (TreeDbTerm * list (tree TreeDbTerm)) :=
  match fuel with
  | O => None
  | S fuel' =>
      match t with
      | Leaf => None
      | Node (Node _ _ _ _ as l) a b r =>
          if bool_decide (length stk < STACK_NEED)%nat then free_down fuel' l (Node Leaf a b r :: stk) else None
      | Node Leaf a b (Node _ _ _ _ as r) =>
          if bool_decide (length stk < STACK_NEED)%nat then free_down fuel' r (Node Leaf a b Leaf :: stk) else None
      | Node Leaf a _ Leaf => Some (a, stk)
      end
  end.

Fixpoint tree_size t : nat := match t with Leaf => 0 | Node l _ _ r => S (tree_size l + tree_size r) end.

(** One call frees at most [num_left] nodes; the flag tells that the table is empty.  The inner loop visits each node of the
    subtree at most once, so its size is enough fuel. *)
Fixpoint do_free_tree_cont (num_left : nat) (stk : list (tree TreeDbTerm)) (freed : list TreeDbTerm)
  : option (bool * list (tree TreeDbTerm) * list TreeDbTerm) :=
  match stk with
  | [] => Some (true, [], freed)
  | Leaf :: stk' => Some (true, stk', freed)
  | t :: stk' =>
      '(a, stk'') ← free_down (S (tree_size t)) t stk';
      match num_left with
      | O => None
      | S O => Some (false, stk'', freed ++ [a])
      | S n => do_free_tree_cont n stk'' (freed ++ [a])
      end
  end.

(** [db_free_table_tree]: calls of [db_free_table_continue_tree] until the work is done *)
Fixpoint free_calls (calls : nat) (stk : list (tree TreeDbTerm)) (freed : list TreeDbTerm) : option (list TreeDbTerm) :=
  match calls with
  | O => None
  | S n =>
      '(result, stk, freed) ← do_free_tree_cont (Z.to_nat DELETE_RECORD_LIMIT) stk freed;
      if (result : bool) then Some freed else free_calls n stk freed
  end.

Definition db_free_table_tree (calls : nat) tb : option (list TreeDbTerm) := free_calls calls [root tb] [].

Definition db_delete_all_objects_tree (calls : nat) tb : option (list TreeDbTerm * DbTableTree) :=
  freed ← db_free_table_tree calls tb; Some (freed, db_create_tree).

(** ** The checks of the debug build *)

Fixpoint traverse_until t (current to : Z) : option TreeDbTerm * Z :=
  match t with
  | Leaf => (None, current)
  | Node l a _ r =>
      let '(tmp, current) := traverse_until l current to in
      match tmp with
      | Some x => (Some x, current)
      | None => if current + 1 =? to then (Some a, current + 1) else traverse_until r (current + 1) to
      end
  end.

Definition check_slot_pos tb : bool :=
  let stack := static_stack tb in
  match array stack with
  | [] => true
  | p :: _ => if slot stack =? 0 then true else match (traverse_until (root tb) 0 (slot stack)).1 with Some a => addr a =? p | None => false end
  end.

(** The stack from the bottom: every entry is a child of the one before. *)
Fixpoint check_path t (arr : list Z) : bool :=
  match arr with
  | [] => true
  | p :: arr' =>
      match t with
      | Leaf => false
      | Node l _ _ r => if points_to l p then check_path l arr' else if points_to r p then check_path r arr' else false
      end
  end.

Definition check_saved_stack tb : bool :=
  match rev (array (static_stack tb)) with
  | [] => true
  | p :: arr => if points_to (root tb) p then check_path (root tb) arr else false
  end.

Fixpoint check_table_tree t : Z * bool :=
  match t with
  | Leaf => (0, true)
  | Node l _ b r =>
      let '(lh, lok) := check_table_tree l in
      let '(rh, rok) := check_table_tree r in
      ((if rh >? lh then rh else lh) + 1, lok && rok && (rh - lh =? b))
  end.

Definition db_check_table_tree tb : bool :=
  (check_table_tree (root tb)).2 && check_saved_stack tb && check_slot_pos tb.

End DbTree.
Arguments TreeDbTerm Obj : clear implicits.
Arguments DbTableTree Obj : clear implicits.
