(* ===== verification/DbTreeSpec.v ===== *)
(** The searches of ordered ETS tables ([DbTree]): the saved stack is the path to a node of the tree, and starting from it
    finds the same neighbours as a search from the root. *)

From Stdlib Require Import ZArith ZifyBool Sorted.
From stdpp Require Import base list numbers option gmap.
From S2P Require Import Prelude Avl AvlSpec DbTree.
Local Open Scope Z_scope.

Class DbTermLaws (Obj T K : Type) `{DbTerms Obj T K} := { ets_cmp_order :: CmpOrder (ets_cmp (DbTerms := _)) }.

Section Spec.
Context {Obj T K : Type} `{EqDecision Obj, !DbTerms Obj T K, !DbTermLaws Obj T K}.
Abbreviation node := (TreeDbTerm Obj).
Abbreviation ttree := (tree node).
Implicit Types (t cur this : ttree) (stk : list (frame node)) (a x : node) (d : bool) (k : K) (arr : list Z) (tb : DbTableTree Obj).

Definition nkey a : K := ets_key (node_key a).

(** Elements in the order of direction [d] *)
Definition elems_d d t : list node := if d then elems t else rev (elems t).
Definition ctx_before d stk : list node := if d then ctx_left stk else rev (ctx_right stk).
Definition ctx_after d stk : list node := if d then ctx_right stk else rev (ctx_left stk).
Definition after d k a : Prop := if d then above nkey ets_cmp k a else below nkey ets_cmp k a.
Definition before d k a : Prop := after (negb d) k a.

Abbreviation plugs := (foldl (λ t f, plug f t)).

Definition faddr (f : frame node) : Z := match f with FL a _ _ | FR _ a _ => addr a end.

Lemma elems_d_node d l a b r : elems_d d (Node l a b r) = elems_d d (near d l r) ++ a :: elems_d d (far d l r).
Proof. destruct d; cbn; [done|]. rewrite rev_app_distr. cbn. by rewrite <- app_assoc. Qed.

Lemma elems_d_plugs d stk t : elems_d d (plugs t stk) = ctx_before d stk ++ elems_d d t ++ ctx_after d stk.
Proof.
  destruct d; cbn; rewrite foldl_plug_elems; [done|]. by rewrite !rev_app_distr, <- app_assoc.
Qed.

Lemma elems_d_perm d t : elems_d d t ≡ₚ elems t.
Proof. destruct d; cbn; [done|]. by rewrite <- Permutation_rev. Qed.

(** The frame of a node whose near or far child the path goes into *)
Definition frame_of d (is_near : bool) a b (sib : ttree) : frame node :=
  if eqb d is_near then FL a b sib else FR sib a b.

Lemma frame_cases d (f : frame node) : ∃ is_near a b sib, f = frame_of d is_near a b sib.
Proof. destruct f as [a b r|l a b]; [exists d, a, b, r|exists (negb d), a, b, l]; by destruct d. Qed.

Lemma plug_frame d is_near a b sib cur : plug (frame_of d is_near a b sib) cur =
  Node (if eqb d is_near then cur else sib) a b (if eqb d is_near then sib else cur).
Proof. by destruct d, is_near. Qed.

Lemma ctx_before_frame d is_near a b sib stk :
  ctx_before d (frame_of d is_near a b sib :: stk) = ctx_before d stk ++ (if is_near then [] else elems_d d sib ++ [a]).
Proof.
  destruct d, is_near; cbn; rewrite ?app_nil_r; try done. rewrite rev_app_distr. cbn. by rewrite <- ?app_assoc.
Qed.

Lemma ctx_after_frame d is_near a b sib stk :
  ctx_after d (frame_of d is_near a b sib :: stk) = (if is_near then a :: elems_d d sib else []) ++ ctx_after d stk.
Proof.
  destruct d, is_near; cbn; try done. rewrite !rev_app_distr. cbn. done.
Qed.

(** ** Paths *)

Definition uniq t : Prop := NoDup (addr <$> elems t).

Lemma uniq_sub stk t : uniq (plugs t stk) → uniq t.
Proof.
  unfold uniq. rewrite foldl_plug_elems, !fmap_app. intros Hn. apply NoDup_app in Hn as (_ & _ & Hn). by apply NoDup_app in Hn as (Hn & _).
Qed.

Lemma node_at_elem t p n : node_at t p = Some n → p ∈ addr <$> elems t.
Proof.
  induction t as [|l IHl a b r IHr]; cbn [node_at elems]; [done|]. rewrite fmap_app, fmap_cons, elem_of_app, elem_of_cons.
  destruct (Z.eqb_spec (addr a) p) as [->|]; [tauto|]. destruct (node_at l p); [intros [= ->]; left; by apply IHl|]. tauto.
Qed.

Lemma node_at_plug f t p n : uniq (plug f t) → node_at t p = Some n → node_at (plug f t) p = Some n.
Proof.
  intros Hu Hn. pose proof (node_at_elem _ _ _ Hn) as Hp. destruct f as [a b r|l a b]; cbn [plug node_at] in *; unfold uniq in Hu; cbn [elems] in Hu;
    rewrite fmap_app, fmap_cons in Hu; apply NoDup_app in Hu as (_ & Hd & Hu); apply NoDup_cons in Hu as [Ha _].
  - destruct (Z.eqb_spec (addr a) p) as [E|]; [destruct (Hd p Hp); rewrite E; left|]. by rewrite Hn.
  - destruct (Z.eqb_spec (addr a) p) as [E|]; [by rewrite E in Ha|]. destruct (node_at l p) eqn:E; [|done].
    apply node_at_elem in E. destruct (Hd p E). by right.
Qed.

Lemma node_at_plugs stk t p n : uniq (plugs t stk) → node_at t p = Some n → node_at (plugs t stk) p = Some n.
Proof.
  revert t. induction stk as [|f stk IH]; intros t Hu Hn; cbn [foldl] in *; [done|]. apply IH; [done|]. apply node_at_plug; [|done].
  by apply uniq_sub in Hu.
Qed.

(** The array [arr] is the path to the node [this] with element [x]. *)
Definition holds t arr this x : Prop :=
  ∃ stk l b r, this = Node l x b r ∧ t = plugs this stk ∧ arr = addr x :: (faddr <$> stk).

Lemma holds_node_at t arr this x : uniq t → holds t arr this x → node_at t (addr x) = Some this.
Proof.
  intros Hu (stk & l & b & r & -> & -> & ->). apply node_at_plugs; [done|]. cbn. by rewrite Z.eqb_refl.
Qed.

Lemma plugs_avl_inv stk t h : avl (plugs t stk) h → ∃ hs, avl t hs ∧ Z.of_nat (length stk) + hs ≤ h.
Proof.
  revert t. induction stk as [|f stk IH]; intros t Ha; cbn [foldl length] in *; [exists h; split; [done|lia]|].
  destruct (IH _ Ha) as (hm & Hm & Hle). destruct f as [a b r|l a b]; cbn [plug] in Hm;
    apply avl_node_inv in Hm as (hl & hr & Hl & Hr & Hb & Hb1 & -> & ? & ?); [exists hl|exists hr]; (split; [done|lia]).
Qed.

Definition height_ok t : Prop := ∃ h, avl t h ∧ h ≤ Z.of_nat STACK_NEED.

Lemma push_path t stk l a b r : height_ok t → t = plugs (Node l a b r) stk →
  PUSH_NODE (faddr <$> stk) (Node l a b r) = Some (addr a :: (faddr <$> stk)).
Proof.
  intros (h & Ha & Hh) ->. destruct (plugs_avl_inv _ _ _ Ha) as (hs & Hs & Hle).
  apply avl_node_inv in Hs as (hl & hr & Hl & Hr & _ & _ & -> & ? & ?).
  cbn. rewrite bool_decide_eq_true_2; [done|]. rewrite length_fmap. lia.
Qed.

(** ** Moving along the tree *)

Lemma spine_ok d t cur stk : height_ok t → t = plugs cur stk → cur ≠ Leaf → ∃ this arr x stk' l b r,
  spine d cur (faddr <$> stk) = Some (this, arr) ∧ this = Node l x b r ∧ t = plugs this stk' ∧ arr = addr x :: (faddr <$> stk') ∧
  ctx_before d stk' = ctx_before d stk ∧ near d l r = Leaf ∧ spine_end d cur = this.
Proof.
  intros Hh. revert stk. induction cur as [|l IHl a b r IHr]; intros stk Ht Hne; [done|]. cbn [spine spine_end].
  rewrite (push_path t) by done. cbn [mbind option_bind].
  assert (addr a :: (faddr <$> stk) = faddr <$> (frame_of d true a b (far d l r) :: stk)) as Harr by (by destruct d).
  assert (t = plugs (near d l r) (frame_of d true a b (far d l r) :: stk)) as Ht' by (cbn [foldl]; rewrite plug_frame; by destruct d).
  destruct (near d l r) as [|l' a' b' r'] eqn:En; [by eexists _, _, a, stk, l, b, r|].
  assert (∀ c, (∀ stk, t = plugs c stk → c ≠ Leaf → ∃ this arr x stk' l b r,
      spine d c (faddr <$> stk) = Some (this, arr) ∧ this = Node l x b r ∧ t = plugs this stk' ∧ arr = addr x :: (faddr <$> stk') ∧
      ctx_before d stk' = ctx_before d stk ∧ near d l r = Leaf ∧ spine_end d c = this) → c = Node l' a' b' r' → ∃ this arr x stk' l b r,
      spine d c (addr a :: (faddr <$> stk)) = Some (this, arr) ∧ this = Node l x b r ∧ t = plugs this stk' ∧ arr = addr x :: (faddr <$> stk') ∧
      ctx_before d stk' = ctx_before d stk ∧ near d l r = Leaf ∧ spine_end d c = this) as Hgo.
  { intros c IH Hc. rewrite Harr. destruct (IH (frame_of d true a b (far d l r) :: stk)) as (this & arr & x & stk' & l2 & b2 & r2 & E & Hthis & Ht2 & Ha & Hb & Hn & He);
      [by rewrite Hc|by rewrite Hc|].
    exists this, arr, x, stk', l2, b2, r2. rewrite E, Hb, ctx_before_frame, app_nil_r. done. }
  destruct d; [apply (Hgo l IHl En)|apply (Hgo r IHr En)].
Qed.

Lemma sibling_apart l a b r p : uniq (Node l a b r) → (points_to l p = true → points_to r p = false) ∧ (points_to r p = true → points_to l p = false).
Proof.
  unfold uniq. cbn [elems]. rewrite fmap_app, fmap_cons. intros (_ & Hd & _)%NoDup_app.
  assert (∀ t, points_to t p = true → p ∈ addr <$> elems t) as Hin.
  { intros [|l' a' b' r']; cbn; [done|]. intros Hp%Z.eqb_eq. subst. rewrite fmap_app, fmap_cons, elem_of_app, elem_of_cons. tauto. }
  split; intros Hp; apply not_true_is_false; intros Hq; apply Hin in Hp, Hq; eapply Hd; eauto; by right.
Qed.

(** Popping up to the ancestor that comes next *)
Lemma pop_ok d tb stk : ∀ cur tmp, uniq (root tb) → root tb = plugs cur stk → points_to cur tmp = true →
  pop_until d tb tmp (faddr <$> stk) = pop_while d tb tmp (faddr <$> stk) ∧
  match ctx_after d stk with
  | [] => pop_while d tb tmp (faddr <$> stk) = Some (Leaf, [])
  | x :: _ => ∃ this arr, pop_while d tb tmp (faddr <$> stk) = Some (this, arr) ∧ holds (root tb) arr this x
  end.
Proof.
  induction stk as [|f stk IH]; intros cur tmp Hu Hr Hp; [by destruct d|].
  destruct (frame_cases d f) as (is_near & a & b & sib & ->). cbn [foldl] in Hr. rewrite plug_frame in Hr.
  rewrite ctx_after_frame. rewrite fmap_cons. cbn [pop_while pop_until].
  assert (faddr (frame_of d is_near a b sib) = addr a) as -> by (by destruct d, is_near).
  set (this := Node (if eqb d is_near then cur else sib) a b (if eqb d is_near then sib else cur)) in *.
  assert (holds (root tb) (addr a :: (faddr <$> stk)) this a) as Hh by (by eexists stk, _, b, _).
  rewrite (holds_node_at _ _ _ _ Hu Hh). cbn [mbind option_bind]. subst this.
  pose proof Hu as Hu'. rewrite Hr in Hu'. apply uniq_sub in Hu'. apply (sibling_apart _ _ _ _ tmp) in Hu' as [HA HB].
  specialize (IH (Node (if eqb d is_near then cur else sib) a b (if eqb d is_near then sib else cur)) (addr a) Hu Hr ltac:(cbn; apply Z.eqb_refl)).
  destruct d, is_near; cbn [eqb near far app] in *.
  - rewrite Hp, (HA Hp). split; [done|]. by eexists _, _.
  - rewrite Hp, (HB Hp). done.
  - rewrite Hp, (HB Hp). split; [done|]. by eexists _, _.
  - rewrite Hp, (HA Hp). done.
Qed.

(** The list [l] around an element, which occurs once *)
Lemma split_unique (l1 l2 r1 r2 : list node) x : NoDup (addr <$> l1 ++ x :: r1) → l1 ++ x :: r1 = l2 ++ x :: r2 → l1 = l2 ∧ r1 = r2.
Proof.
  revert l2. induction l1 as [|y l1 IH]; intros [|z l2]; cbn; intros Hn E; injection E; intros; subst.
  - done.
  - apply NoDup_cons in Hn as [Hn _]. destruct Hn. rewrite fmap_app, fmap_cons, elem_of_app, elem_of_cons. tauto.
  - apply NoDup_cons in Hn as [Hn _]. destruct Hn. rewrite fmap_app, fmap_cons, elem_of_app, elem_of_cons. tauto.
  - apply NoDup_cons in Hn as [_ Hn]. destruct (IH l2 Hn) as [-> ->]; done.
Qed.

Lemma uniq_d d t : uniq t → NoDup (addr <$> elems_d d t).
Proof. unfold uniq. by rewrite elems_d_perm. Qed.

(** The node after [x], in direction [d], from the path to [x] *)
Lemma adjacent_ok d tb this arr x pre post : uniq (root tb) → height_ok (root tb) → holds (root tb) arr this x →
  elems_d d (root tb) = pre ++ x :: post →
  (∀ s, next_from d tb this (Stack s arr) = match post with
     | [] => Some (Leaf, Stack 0 [])
     | _ => '(this, arr) ← slot_step d tb this arr; Some (this, Stack (move_slot d (Stack s arr)) arr) end) ∧
  match post with
  | [] => True
  | y :: _ => ∃ this' arr', slot_step d tb this arr = Some (this', arr') ∧ holds (root tb) arr' this' y
  end.
Proof.
  intros Hu Hh (stk & l & b & r & -> & Hr & ->) He. pose proof Hr as Hr'. apply (f_equal (elems_d d)) in Hr'.
  rewrite elems_d_plugs, elems_d_node in Hr'. rewrite <- app_assoc in Hr'. cbn [app] in Hr'. rewrite app_assoc in Hr'.
  assert (post = elems_d d (far d l r) ++ ctx_after d stk) as ->.
  { eapply split_unique; [|etrans; [symmetry; exact He|exact Hr']]. rewrite <- He. by apply uniq_d. }
  unfold next_from, slot_step. cbn [array].
  destruct (far d l r) as [|fl fa fb fr] eqn:Ef.
  - destruct (pop_ok d tb stk (Node l x b r) (addr x) Hu Hr ltac:(cbn; apply Z.eqb_refl)) as [-> Hpop].
    assert (elems_d d Leaf = ([] : list node)) as -> by (by destruct d). cbn [app].
    destruct (ctx_after d stk) as [|y rest]; [split; [|done]; intros s; by rewrite Hpop|].
    destruct Hpop as (this' & arr' & -> & Hh'). split; [|by eexists _, _]. intros s. cbn [mbind option_bind].
    destruct Hh' as (? & ? & ? & ? & -> & _). done.
  - assert (root tb = plugs (Node fl fa fb fr) (frame_of d false x b (near d l r) :: stk)) as Hr2.
    { cbn [foldl]. rewrite plug_frame, Hr. f_equal. destruct d; cbn in *; congruence. }
    assert (addr x :: (faddr <$> stk) = faddr <$> (frame_of d false x b (near d l r) :: stk)) as Harr by (by destruct d).
    rewrite Harr.
    destruct (spine_ok d (root tb) (Node fl fa fb fr) _ Hh Hr2 ltac:(done)) as (this' & arr' & y & stk' & l' & b' & r' & Hsp & Hth & Hr3 & Ha & Hb & Hn & _).
    rewrite Hsp. cbn [mbind option_bind].
    assert (∃ rest, elems_d d (Node fl fa fb fr) ++ ctx_after d stk = y :: rest) as [rest Hrest].
    { pose proof Hr3 as E3. apply (f_equal (elems_d d)) in E3. rewrite Hth, elems_d_plugs, Hb, elems_d_node, Hn in E3.
      pose proof Hr2 as E2. apply (f_equal (elems_d d)) in E2. rewrite elems_d_plugs in E2. rewrite E2 in E3. apply app_inv_head in E3.
      rewrite ctx_after_frame in E3. cbn [app] in E3. rewrite E3. assert (elems_d d Leaf = ([] : list node)) as -> by (by destruct d). cbn [app]. by eexists. }
    rewrite Hrest. split; [done|]. eexists _, _. split; [done|]. exists stk', l', b', r'. done.
Qed.

(** ** Order *)

Definition ordered_tree t : Prop := ordered nkey ets_cmp (elems t).

Lemma cmp_refl k : ets_cmp k k = 0.
Proof. by apply cmp_eq. Qed.

Lemma before_not_after d k a : before d k a → ¬ after d k a.
Proof. unfold before, after, above, below. destruct d; cbn; rewrite (cmp_anti _ (nkey a)), ?(cmp_anti k); lia. Qed.

Lemma same_not_after d k a : nkey a = k → ¬ after d k a.
Proof. intros <-. unfold after, above, below. destruct d; rewrite cmp_refl; lia. Qed.

Lemma after_trans d k a y : after d k a → after d (nkey a) y → after d k y.
Proof. destruct d; cbn; unfold above, below; intros H1 H2; by eapply cmp_trans. Qed.

Lemma before_trans d k a y : before d k a → before d (nkey a) y → before d k y.
Proof. apply after_trans. Qed.

Lemma ordered_around d t pre x post : ordered_tree t → elems_d d t = pre ++ x :: post →
  Forall (before d (nkey x)) pre ∧ Forall (after d (nkey x)) post.
Proof.
  intros Ho He. unfold ordered_tree in Ho. destruct d; cbn in He.
  - rewrite He in Ho. by apply ordered_split in Ho as [? ?].
  - apply (f_equal (@rev _)) in He. rewrite rev_involutive, rev_app_distr in He. cbn in He. rewrite <- app_assoc in He. cbn in He.
    rewrite He in Ho. apply ordered_split in Ho as [H1 H2]. split; [by apply Forall_rev in H2; rewrite rev_involutive in H2|].
    by apply Forall_rev in H1; rewrite rev_involutive in H1.
Qed.

(** The elements up to key [k] and those after it, in direction [d] *)
Definition key_split d k t (pre post : list node) : Prop :=
  elems_d d t = pre ++ post ∧ Forall (λ a, ¬ after d k a) pre ∧ Forall (after d k) post.

Lemma key_split_unique d k t pre post pre' post' : key_split d k t pre post → key_split d k t pre' post' → pre = pre' ∧ post = post'.
Proof.
  intros (E & H1 & H2) (E' & H1' & H2'). rewrite E in E'. clear E. revert pre' E' H1'.
  induction pre as [|x pre IH]; intros [|x' pre'] E' H1'; cbn in E'.
  - done.
  - subst. inversion H2; inversion H1'; subst. done.
  - subst. inversion H1; inversion H2'; subst. done.
  - injection E' as <- E'. inversion H1; inversion H1'; subst. destruct (IH ltac:(done) pre' E') as [-> ->]; done.
Qed.

(** The tests of the searches *)
Lemma cmp_tests d key a : let c := cmp (node_key a) key in let k := ets_key key in
  if (if d then c <? 0 else c >? 0) then before d k a
  else if (if d then c >? 0 else c <? 0) then after d k a else nkey a = k.
Proof.
  cbn zeta. unfold cmp. fold (nkey a). set (k := ets_key key). pose proof (cmp_anti k (nkey a)). pose proof (cmp_anti (nkey a) k). unfold before, after, above, below.
  destruct d; cbn [negb].
  - destruct (Z.ltb_spec (ets_cmp (nkey a) k) 0); [done|]. destruct (Z.gtb_spec (ets_cmp (nkey a) k) 0); [tauto || lia|]. apply cmp_eq. lia.
  - destruct (Z.gtb_spec (ets_cmp (nkey a) k) 0); [tauto || lia|]. destruct (Z.ltb_spec (ets_cmp (nkey a) k) 0); [done|]. apply cmp_eq. lia.
Qed.

(** Where a node of a path is in the order *)
Lemma plugs_around d t stk l a b r : t = plugs (Node l a b r) stk →
  elems_d d t = (ctx_before d stk ++ elems_d d (near d l r)) ++ a :: (elems_d d (far d l r) ++ ctx_after d stk).
Proof. intros ->. rewrite elems_d_plugs, elems_d_node, <- !app_assoc. done. Qed.

Lemma rebuild_ok d t key : height_ok t → ordered_tree t → ∀ cur stk, t = plugs cur stk → cur ≠ Leaf →
  Forall (before d (ets_key key)) (ctx_before d stk) → Forall (after d (ets_key key)) (ctx_after d stk) →
  ∃ this arr found x pre post, rebuild d cur key (faddr <$> stk) = Some (this, arr, found) ∧ holds t arr this x ∧
    elems_d d t = pre ++ x :: post ∧
    if found : bool then key_split d (ets_key key) t pre (x :: post) else key_split d (ets_key key) t (pre ++ [x]) post.
Proof.
  intros Hh Ho. set (k := ets_key key). induction cur as [|l IHl a b r IHr]; intros stk Ht Hne Hb Ha; [done|].
  cbn [rebuild]. rewrite (push_path t) by done. cbn [mbind option_bind].
  pose proof (plugs_around d t stk l a b r Ht) as He. destruct (ordered_around d _ _ _ _ Ho He) as [Hab Haa].
  apply Forall_app in Hab as [_ Hnear]. apply Forall_app in Haa as [Hfar _].
  assert (∀ y, before d k y → ¬ after d k y) as Hex by (intros; by apply before_not_after).
  pose proof (cmp_tests d key a) as Hc. cbn zeta in Hc. fold k in Hc.
  (* going on into a child *)
  assert (∀ (nr : bool) c, c = (if nr then near d l r else far d l r) → c ≠ Leaf → t = plugs c (frame_of d nr a b (if nr then far d l r else near d l r) :: stk) ∧
    addr a :: (faddr <$> stk) = faddr <$> (frame_of d nr a b (if nr then far d l r else near d l r) :: stk)) as Hgo.
  { intros nr c -> _. split; [|by destruct d, nr]. cbn [foldl]. rewrite plug_frame. destruct d, nr; done. }
  assert (t = plugs (Node l a b r) stk → holds t (addr a :: (faddr <$> stk)) (Node l a b r) a) as Hhere by (intros; by eexists stk, l, b, r).
  specialize (Hhere Ht).
  destruct (if d then cmp (node_key a) key <? 0 else cmp (node_key a) key >? 0).
  - assert (Forall (before d k) (ctx_before d stk ++ elems_d d (near d l r) ++ [a])) as Hpre.
    { apply Forall_app. split; [done|]. apply Forall_app. split; [|by constructor]. eapply Forall_impl; [exact Hnear|]. intros y Hy. by eapply before_trans. }
    destruct (far d l r) as [|fl fa fb fr] eqn:Ef.
    + exists (Node l a b r), (addr a :: (faddr <$> stk)), false, a, (ctx_before d stk ++ elems_d d (near d l r)), (elems_d d Leaf ++ ctx_after d stk).
      split; [done|]. split; [done|]. split; [done|]. split; [by rewrite He, <- !app_assoc|]. rewrite <- app_assoc. split; [by eapply Forall_impl|].
      apply Forall_app. split; [by destruct d|done].
    + destruct (Hgo false _ eq_refl ltac:(done)) as [Ht' Harr]. rewrite Harr.
      assert (Forall (before d k) (ctx_before d (frame_of d false a b (near d l r) :: stk)) ∧ Forall (after d k) (ctx_after d (frame_of d false a b (near d l r) :: stk))) as [Hb' Ha'].
      { rewrite ctx_before_frame, ctx_after_frame. done. }
      rewrite <- Ef in Ht'. destruct d; cbn [far] in Ef, Ht'; [apply (IHr _ Ht')|apply (IHl _ Ht')]; (done || by rewrite Ef).
  - destruct (if d then cmp (node_key a) key >? 0 else cmp (node_key a) key <? 0).
    + assert (Forall (after d k) (a :: elems_d d (far d l r) ++ ctx_after d stk)) as Hpost.
      { constructor; [done|]. apply Forall_app. split; [|done]. eapply Forall_impl; [exact Hfar|]. intros y Hy. by eapply after_trans. }
      destruct (near d l r) as [|nl na nb nr] eqn:En.
      * exists (Node l a b r), (addr a :: (faddr <$> stk)), true, a, (ctx_before d stk ++ elems_d d Leaf), (elems_d d (far d l r) ++ ctx_after d stk).
        split; [done|]. split; [done|]. split; [done|]. split; [done|]. split; [|done].
        apply Forall_app. split; [by eapply Forall_impl|by destruct d].
      * destruct (Hgo true _ eq_refl ltac:(done)) as [Ht' Harr]. rewrite Harr.
        assert (Forall (before d k) (ctx_before d (frame_of d true a b (far d l r) :: stk)) ∧ Forall (after d k) (ctx_after d (frame_of d true a b (far d l r) :: stk))) as [Hb' Ha'].
        { rewrite ctx_before_frame, ctx_after_frame, app_nil_r. done. }
        rewrite <- En in Ht'. destruct d; cbn [near] in En, Ht'; [apply (IHl _ Ht')|apply (IHr _ Ht')]; (done || by rewrite En).
    + exists (Node l a b r), (addr a :: (faddr <$> stk)), false, a, (ctx_before d stk ++ elems_d d (near d l r)), (elems_d d (far d l r) ++ ctx_after d stk).
      split; [done|]. split; [done|]. split; [done|]. rewrite Hc in *. split; [by rewrite He, <- !app_assoc|]. split.
      * rewrite <- app_assoc. apply Forall_app. split; [by eapply Forall_impl|]. apply Forall_app. split; [by eapply Forall_impl|].
        constructor; [by apply same_not_after|done].
      * by apply Forall_app.
Qed.
End Spec.
