(* ===== verification/DbTreeOps.v ===== *)
(** The operations of ordered ETS tables ([DbTree]): the invariant of a table with its saved stack, and one lemma per operation,
    in terms of the ordered list of nodes. *)

From Stdlib Require Import ZArith ZifyBool Sorted.
From stdpp Require Import base list numbers option gmap.
From S2P Require Import Prelude Avl AvlSpec DbUtil DbTree DbTreeSpec.
Local Open Scope Z_scope.

Section Ops.
Context {Obj T K : Type} `{EqDecision Obj, !DbTerms Obj T K, !DbTermLaws Obj T K}.
Abbreviation node := (TreeDbTerm Obj).
Abbreviation ttree := (tree node).
Abbreviation plugs := (foldl (λ t f, plug f t)).
Implicit Types (t cur this : ttree) (stk : list (frame node)) (a x y : node) (d : bool) (k : K) (arr : list Z) (tb : DbTableTree Obj).

(** The number of a node, counted from 1, or 0 *)
Definition pos_ok t (s : Z) x : Prop := s = 0 ∨ ∃ pre post, elems t = pre ++ x :: post ∧ s = zlen pre + 1.

Definition stack_ok t (stack : DbTreeStack) : Prop :=
  stack = Stack 0 [] ∨ ∃ this x, holds t (array stack) this x ∧ pos_ok t (slot stack) x.

Definition tree_ok t : Prop := uniq t ∧ height_ok t ∧ ordered_tree t.

(** A table; at most [INT_MAX] objects, so that their number fits in the [int] of [NITEMS] *)
Definition table_ok tb : Prop :=
  tree_ok (root tb) ∧ stack_ok (root tb) (static_stack tb) ∧ nitems tb = zlen (elems (root tb)) ∧ nitems tb ≤ INT_MAX.

(** ** Neighbours *)

Lemma pos_moves d t s arr pre x y post : uniq t → pos_ok t s x → elems_d d t = pre ++ x :: y :: post → pos_ok t (move_slot d (Stack s arr)) y.
Proof.
  intros Hu Hp He. unfold move_slot. cbn [slot]. destruct (Z.gtb_spec s 0); [|destruct Hp as [->|(p & q & _ & ->)]; [by left|lia]].
  destruct Hp as [->|(p & q & E & ->)]; [lia|]. right. unfold uniq in Hu. destruct d; cbn in He.
  - exists (pre ++ [x]), post. rewrite He, <- app_assoc. split; [done|]. rewrite E in He, Hu. apply split_unique in He as [-> _]; [|done].
    rewrite length_app. cbn. lia.
  - apply (f_equal (@rev _)) in He. rewrite rev_involutive, rev_app_distr in He. cbn in He. rewrite <- !app_assoc in He. cbn in He.
    exists (rev post), (x :: rev pre). split; [done|]. rewrite E in He, Hu.
    change (rev post ++ y :: x :: rev pre) with (rev post ++ [y] ++ x :: rev pre) in He. rewrite app_assoc in He.
    apply split_unique in He as [-> _]; [|done]. rewrite length_app. cbn. lia.
Qed.

Lemma holds_top tb arr this x : uniq (root tb) → holds (root tb) arr this x → TOP_NODE tb arr = Some this ∧ arr ≠ [].
Proof. intros Hu Hh. pose proof (holds_node_at _ _ _ _ Hu Hh) as Hn. by destruct Hh as (? & ? & ? & ? & _ & _ & ->). Qed.

Lemma holds_elem t arr this x : holds t arr this x → x ∈ elems t.
Proof. intros (stk & l & b & r & -> & -> & _). rewrite foldl_plug_elems. cbn. rewrite !elem_of_app, elem_of_cons. tauto. Qed.

(** What a search returns: [NULL], or the node of the first element of [post] *)
Definition finds t (post : list node) (this : ttree) (stack : DbTreeStack) : Prop :=
  stack_ok t stack ∧ match post with [] => this = Leaf | y :: _ => ∃ l b r, this = Node l y b r end.

Lemma next_from_ok d tb this arr x s pre post : tree_ok (root tb) → holds (root tb) arr this x → pos_ok (root tb) s x →
  elems_d d (root tb) = pre ++ x :: post → ∃ this' stack', next_from d tb this (Stack s arr) = Some (this', stack') ∧ finds (root tb) post this' stack'.
Proof.
  intros (Hu & Hh & _) Hho Hp He. destruct (adjacent_ok d tb this arr x pre post Hu Hh Hho He) as [-> Hpost].
  destruct post as [|y post]; [eexists _, _; split; [done|]; by split; [left|]|].
  destruct Hpost as (this' & arr' & -> & Hho'). cbn [mbind option_bind]. eexists _, _. split; [done|]. split.
  - right. exists this', y. split; [done|]. by eapply pos_moves.
  - destruct Hho' as (? & l & b & r & -> & _). eauto.
Qed.

Lemma find_adjacent_ok d tb stack key pre post : tree_ok (root tb) → stack_ok (root tb) stack → key_split d (ets_key key) (root tb) pre post →
  ∃ this stack', find_adjacent d tb stack key = Some (this, stack') ∧ finds (root tb) post this stack'.
Proof.
  intros Hok Hs Hk. pose proof Hok as (Hu & Hh & Ho). unfold find_adjacent.
  assert (∃ this stack', match root tb with
      | Leaf => Some (Leaf, Stack 0 [])
      | Node _ _ _ _ => '(this, arr, found) ← rebuild d (root tb) key [];
          if (found : bool) then Some (this, Stack 0 arr) else next_from d tb this (Stack 0 arr)
      end = Some (this, stack') ∧ finds (root tb) post this stack') as Hre.
  { destruct (root tb) as [|l a b r] eqn:Er.
    - destruct Hk as (E & _). assert (post = []) as -> by (destruct d, pre; by injection E || done). eexists _, _. split; [done|]. by split; [left|].
    - rewrite <- Er in *. destruct (rebuild_ok d (root tb) key Hh Ho (root tb) []) as (this & arr & found & x & p & q & E & Hho & He & Hf); [done|by rewrite Er|by destruct d|by destruct d|].
      change (faddr <$> []) with ([] : list Z) in E. rewrite E. cbn [mbind option_bind]. destruct found; pose proof (key_split_unique _ _ _ _ _ _ _ Hk Hf) as [-> ->].
      + eexists _, _. split; [done|]. split; [right; exists this, x; split; [done|by left]|]. destruct Hho as (? & ? & ? & ? & -> & _). eauto.
      + eapply next_from_ok; try done. by left. }
  destruct Hs as [->|(this & x & Hho & Hp)]; [exact Hre|]. destruct (holds_top _ _ _ _ Hu Hho) as [-> Hne]. cbn [mbind option_bind].
  pose proof Hho as (stk & l & b & r & -> & Hr & _). unfold CMP_EQ. destruct (Z.eqb_spec (cmp (node_key x) key) 0) as [E|E]; [|exact Hre].
  destruct stack as [s arr]. cbn [array slot] in *. destruct arr as [|p arr']; [done|].
  pose proof (plugs_around d _ _ _ _ _ _ Hr) as He. destruct (ordered_around d _ _ _ _ Ho He) as [Hb Ha].
  assert (nkey x = ets_key key) as Ekey by (by apply cmp_eq). rewrite Ekey in *.
  destruct (key_split_unique _ _ _ _ _ ((ctx_before d stk ++ elems_d d (near d l r)) ++ [x]) (elems_d d (far d l r) ++ ctx_after d stk) Hk) as [_ ->].
  { split; [by rewrite He, <- !app_assoc|]. split; [|done]. apply Forall_app. split; [eapply Forall_impl; [exact Hb|]; intros; by apply before_not_after|].
    constructor; [by apply same_not_after|done]. }
  by eapply next_from_ok.
Qed.

(** ** Partly bound keys *)

(** The keys that a search in direction [d] passes *)
Definition passes d (pb : T → Z) a : Prop := if d then 0 ≤ pb (node_key a) else pb (node_key a) ≤ 0.

Lemma pb_search_ok d tb pb : tree_ok (root tb) →
  (∀ pre x post, elems_d d (root tb) = pre ++ x :: post → (passes d pb x → Forall (passes d pb) pre) ∧ (¬ passes d pb x → Forall (λ a, ¬ passes d pb a) post)) →
  ∀ cur stk, root tb = plugs cur stk → cur ≠ Leaf → Forall (passes d pb) (ctx_before d stk) → Forall (λ a, ¬ passes d pb a) (ctx_after d stk) →
  ∃ this arr pre post, pb_search d tb pb cur (faddr <$> stk) = Some (this, arr) ∧ elems_d d (root tb) = pre ++ post ∧
    Forall (passes d pb) pre ∧ Forall (λ a, ¬ passes d pb a) post ∧ finds (root tb) post this (Stack 0 arr).
Proof.
  intros (Hu & Hh & Ho) Hmono. induction cur as [|l IHl a b r IHr]; intros stk Hr Hne Hb Ha; [done|].
  cbn [pb_search]. rewrite (push_path (root tb)) by done. cbn [mbind option_bind].
  pose proof (plugs_around d _ _ _ _ _ _ Hr) as He. destruct (Hmono _ _ _ He) as [Hm1 Hm2].
  assert (∀ nr : bool, root tb = plugs (if nr then near d l r else far d l r) (frame_of d nr a b (if nr then far d l r else near d l r) :: stk) ∧
    addr a :: (faddr <$> stk) = faddr <$> (frame_of d nr a b (if nr then far d l r else near d l r) :: stk)) as Hgo.
  { intros nr. split; [|by destruct d, nr]. cbn [foldl]. rewrite plug_frame. destruct d, nr; done. }
  destruct (if d then pb (node_key a) >=? 0 else pb (node_key a) <=? 0) eqn:Etest.
  - assert (passes d pb a) as Hpa by (unfold passes; destruct d; lia). specialize (Hm1 Hpa). apply Forall_app in Hm1 as [_ Hn].
    assert (Forall (passes d pb) (ctx_before d stk ++ elems_d d (near d l r) ++ [a])) as Hpre by (rewrite !Forall_app; auto).
    destruct (far d l r) as [|fl fa fb fr] eqn:Ef.
    + destruct (pop_ok d tb stk (Node l a b r) (addr a) Hu Hr ltac:(cbn; apply Z.eqb_refl)) as [_ Hpop].
      assert (∃ this arr, pop_while d tb (addr a) (faddr <$> stk) = Some (this, arr) ∧ finds (root tb) (ctx_after d stk) this (Stack 0 arr)) as (this & arr & -> & Hf).
      { destruct (ctx_after d stk) as [|y rest]; [eexists _, _; split; [done|]; by split; [left|]|].
        destruct Hpop as (this & arr & -> & Hho). eexists _, _. split; [done|]. split; [right; exists this, y; split; [done|by left]|].
        destruct Hho as (? & ? & ? & ? & -> & _). eauto. }
      eexists this, arr, _, _. split; [done|]. split; [|split; [exact Hpre|by split]]. rewrite He. destruct d; cbn; by rewrite <- !app_assoc.
    + destruct (Hgo false) as [Hr' ->]. rewrite <- Ef in Hr'.
      assert (Forall (passes d pb) (ctx_before d (frame_of d false a b (near d l r) :: stk)) ∧ Forall (λ a, ¬ passes d pb a) (ctx_after d (frame_of d false a b (near d l r) :: stk))) as [Hb' Ha'].
      { by rewrite ctx_before_frame, ctx_after_frame. }
      destruct d; cbn [far] in Ef, Hr'; [apply (IHr _ Hr')|apply (IHl _ Hr')]; (done || by rewrite Ef).
  - assert (¬ passes d pb a) as Hpa by (unfold passes; destruct d; lia). specialize (Hm2 Hpa). apply Forall_app in Hm2 as [Hf _].
    destruct (near d l r) as [|nl na nb nr] eqn:En.
    + eexists (Node l a b r), _, (ctx_before d stk ++ elems_d d Leaf), (a :: elems_d d (far d l r) ++ ctx_after d stk). split; [done|]. split; [done|].
      split; [apply Forall_app; split; [done|by destruct d]|]. split; [constructor; [done|by apply Forall_app]|].
      split; [|by eexists _, _, _]. right. exists (Node l a b r), a. split; [by eexists stk, l, b, r|by left].
    + destruct (Hgo true) as [Hr' ->]. rewrite <- En in Hr'.
      assert (Forall (passes d pb) (ctx_before d (frame_of d true a b (far d l r) :: stk)) ∧ Forall (λ a, ¬ passes d pb a) (ctx_after d (frame_of d true a b (far d l r) :: stk))) as [Hb' Ha'].
      { rewrite ctx_before_frame, ctx_after_frame, app_nil_r. split; [done|]. constructor; [done|by apply Forall_app]. }
      destruct d; cbn [near] in En, Hr'; [apply (IHl _ Hr')|apply (IHr _ Hr')]; (done || by rewrite En).
Qed.

(** ** Reading operations *)

(** The table is the same, up to the saved stack. *)
Definition same_table tb tb' : Prop :=
  table_ok tb' ∧ root tb' = root tb ∧ nitems tb' = nitems tb ∧ is_stack_busy tb' = is_stack_busy tb.

Definition head_key (l : list node) : T := match l with [] => am_EOT | x :: _ => node_key x end.

Lemma set_stack_same tb stack : table_ok tb → is_stack_busy tb = false → stack_ok (root tb) stack →
  same_table tb (set_busy false (set_static stack (set_busy true tb))).
Proof. intros (H1 & _ & H2 & H3) Hb Hs. by split. Qed.

Lemma same_refl tb : table_ok tb → same_table tb tb.
Proof. by split. Qed.

Lemma spine_root d tb : tree_ok (root tb) → root tb ≠ Leaf → ∃ this arr x rest,
  spine d (root tb) [] = Some (this, arr) ∧ spine_end d (root tb) = this ∧ holds (root tb) arr this x ∧ elems_d d (root tb) = x :: rest.
Proof.
  intros (Hu & Hh & Ho) Hne.
  destruct (spine_ok d (root tb) (root tb) [] Hh eq_refl Hne) as (this & arr & x & stk & l & b & r & E & -> & Hr & -> & Hb & Hn & He).
  eexists _, _, x, _. split; [exact E|]. split; [done|]. split; [by eexists stk, l, b, r|].
  rewrite Hr, (plugs_around d _ stk l x b r eq_refl), Hb, Hn. by destruct d.
Qed.

Lemma db_end_ok d tb : table_ok tb → ∃ tb',
  db_end_tree d (if d then 1 else NITEMS tb) tb = Some (DB_ERROR_NONE, head_key (elems_d d (root tb)), tb') ∧ same_table tb tb'.
Proof.
  intros Hok. pose proof Hok as (Htree & Hs & Hn & Hmax). unfold db_end_tree. destruct (root tb) as [|l a b r] eqn:Er.
  { exists tb. split; [by destruct d|by apply same_refl]. }
  rewrite <- Er in *. unfold get_static_stack.
  destruct (spine_root d tb Htree ltac:(by rewrite Er)) as (this & arr & x & rest & E & Hend & Hho & He).
  pose proof Hho as (? & ? & ? & ? & -> & _). destruct (is_stack_busy tb) eqn:Eb.
  - rewrite Hend. cbn [mbind option_bind]. exists tb. rewrite He. split; [done|by apply same_refl].
  - cbn [root set_busy]. rewrite E. cbn [mbind option_bind release_stack]. rewrite He. eexists. split; [done|].
    apply set_stack_same; [done..|]. right. eexists _, x. split; [exact Hho|]. right. cbn [slot]. destruct d; cbn in He.
    + exists [], rest. split; [by rewrite He|done].
    + apply (f_equal (@rev _)) in He. rewrite rev_involutive in He. cbn in He. exists (rev rest), []. split; [done|].
      unfold NITEMS. rewrite int32_small by (rewrite Hn; unfold INT_MAX in *; lia). rewrite Hn, He, length_app. cbn. lia.
Qed.

Lemma db_adjacent_ok d tb key pre post : table_ok tb → is_EOT key = false → key_split d (ets_key key) (root tb) pre post → ∃ tb',
  db_adjacent_tree d tb key = Some (DB_ERROR_NONE, head_key post, tb') ∧ same_table tb tb'.
Proof.
  intros Hok He Hk. pose proof Hok as (Htree & Hs & Hn & Hmax). unfold db_adjacent_tree, get_any_stack. rewrite He.
  destruct (is_stack_busy tb) eqn:Eb.
  - destruct (find_adjacent_ok d tb (Stack 0 []) key pre post Htree ltac:(by left) Hk) as (this & stack' & -> & _ & Hp). cbn [mbind option_bind release_stack].
    exists tb. split; [|by apply same_refl]. destruct post as [|y post]; [by rewrite Hp|]. by destruct Hp as (? & ? & ? & ->).
  - destruct (find_adjacent_ok d (set_busy true tb) (static_stack tb) key pre post Htree Hs Hk) as (this & stack' & -> & Hs' & Hp). cbn [mbind option_bind release_stack].
    eexists. split; [|by apply set_stack_same]. destruct post as [|y post]; [by rewrite Hp|]. by destruct Hp as (? & ? & ? & ->).
Qed.

(** The object with a key *)
Definition look t k : option node := avl_lookup (λ a, ets_cmp k (nkey a)) t.
Definition node_of t : option node := match t with Leaf => None | Node _ a _ _ => Some a end.

Lemma find_key_look t key : node_of (find_key t key) = look t (ets_key key).
Proof.
  unfold look. induction t as [|l IHl a b r IHr]; cbn [find_key avl_lookup]; [done|]. unfold cmp. fold (nkey a).
  destruct (ets_cmp (ets_key key) (nkey a) =? 0); [done|]. by destruct (ets_cmp (ets_key key) (nkey a) <? 0).
Qed.

Lemma find_node_ok tb key : table_ok tb → is_stack_busy tb = false → ∃ this tb',
  find_node tb key = Some (this, tb') ∧ node_of this = look (root tb) (ets_key key) ∧ same_table tb tb'.
Proof.
  intros Hok Hb. pose proof Hok as ((Hu & _ & Ho) & Hs & Hn & Hmax). unfold find_node, get_static_stack. rewrite Hb.
  destruct Hs as [Es|(this & x & Hho & Hp)].
  - rewrite Es. cbn. eexists _, _. split; [done|]. split; [apply find_key_look|]. apply set_stack_same; [done..|by left].
  - destruct (holds_top (set_busy true tb) _ _ _ Hu Hho) as [-> _]. cbn [mbind option_bind release_stack].
    eexists _, _. split; [done|]. split; [|apply set_stack_same; [done..|right; eauto]].
    pose proof Hho as (? & ? & ? & ? & -> & _). unfold CMP_EQ. destruct (Z.eqb_spec (cmp (node_key x) key) 0) as [E|]; [|apply find_key_look].
    cbn. symmetry. apply lookup_elem; [apply _|done|]. split; [by eapply holds_elem|]. by apply cmp_eq.
Qed.

(** ** Slots *)

Lemma slot_loop_ok tb : tree_ok (root tb) → ∀ fuel this arr pre x post want y,
  holds (root tb) arr this x → elems (root tb) = pre ++ x :: post → 1 ≤ want → elems (root tb) !! Z.to_nat (want - 1) = Some y →
  (Z.to_nat (Z.abs (want - (zlen pre + 1))) ≤ fuel)%nat → ∃ this' arr',
  slot_loop fuel tb want this (Stack (zlen pre + 1) arr) = Some (this', Stack want arr') ∧ holds (root tb) arr' this' y.
Proof.
  intros (Hu & Hh & Ho). induction fuel as [|fuel IH]; intros this arr pre x post want y Hho He Hw Hy Hf;
    pose proof Hho as (? & ? & ? & ? & -> & _); cbn [slot_loop slot];
    (destruct (Z.eqb_spec (zlen pre + 1) want) as [<-|Hne];
     [replace (Z.to_nat (zlen pre + 1 - 1)) with (length pre) in Hy by lia; rewrite He, list_lookup_middle in Hy by done; injection Hy as <-; eauto|]).
  - lia.
  - cbn [array]. destruct (Z.gtb_spec want (zlen pre + 1)).
    + destruct post as [|z post].
      { apply lookup_lt_Some in Hy. rewrite He, length_app in Hy. cbn in Hy. lia. }
      destruct (adjacent_ok true tb _ arr x pre (z :: post) Hu Hh Hho He) as [_ (this' & arr' & -> & Hho')]. cbn [mbind option_bind].
      replace (zlen pre + 1 + 1) with (zlen (pre ++ [x]) + 1) by (rewrite length_app; cbn; lia).
      apply (IH this' arr' (pre ++ [x]) z post); try done; [by rewrite <- app_assoc|rewrite length_app; cbn; lia].
    + destruct pre as [|p pre _] using rev_ind; [cbn in *; lia|].
      assert (elems_d false (root tb) = rev post ++ x :: p :: rev pre) as He'.
      { cbn. rewrite He, rev_app_distr. cbn. rewrite rev_app_distr, <- app_assoc. done. }
      destruct (adjacent_ok false tb _ arr x _ (p :: rev pre) Hu Hh Hho He') as [_ (this' & arr' & -> & Hho')]. cbn [mbind option_bind].
      rewrite length_app in *. cbn [length] in *. replace (Z.of_nat (length pre + 1) + 1 - 1) with (zlen pre + 1) by lia.
      apply (IH this' arr' pre p (x :: post)); try done; [by rewrite He, <- app_assoc|lia].
Qed.

Lemma slot_search_ok tb want y : table_ok tb → 1 ≤ want → elems (root tb) !! Z.to_nat (want - 1) = Some y → ∃ this tb',
  slot_search tb want = Some (this, tb') ∧ node_of this = Some y ∧ same_table tb tb'.
Proof.
  intros Hok Hw Hy. pose proof Hok as (Htree & Hs & Hn & Hmax). pose proof Htree as (Hu & Hh & Ho).
  assert (root tb ≠ Leaf) as Hne by (intros E; by rewrite E in Hy).
  (* the search itself, from any stack *)
  assert (∀ tb0 stack, root tb0 = root tb → stack_ok (root tb) stack → ∃ this stack',
    (let stack := if want =? 1 then Stack 0 (array stack) else stack in
     let stack := if slot stack =? 0 then Stack 0 [] else stack in
     match array stack with
     | [] => match root tb0 with Leaf => Some (Leaf, stack) | Node _ _ _ _ =>
          '(_, arr) ← spine true (root tb0) []; this ← TOP_NODE tb0 arr; slot_loop (Z.to_nat (Z.abs (want - 1))) tb0 want this (Stack 1 arr) end
     | arr => this ← TOP_NODE tb0 arr; slot_loop (Z.to_nat (Z.abs (want - slot stack))) tb0 want this stack
     end) = Some (this, stack') ∧ stack_ok (root tb) stack' ∧ node_of this = Some y) as Hsearch.
  { intros tb0 stack Hr0 Hst. rewrite <- Hr0 in *.
    assert (∀ arr this x pre post, holds (root tb0) arr this x → elems (root tb0) = pre ++ x :: post → ∃ this' stack',
      slot_loop (Z.to_nat (Z.abs (want - (zlen pre + 1)))) tb0 want this (Stack (zlen pre + 1) arr) = Some (this', stack') ∧
      stack_ok (root tb0) stack' ∧ node_of this' = Some y) as Hloop.
    { intros arr this x pre post Hho He. destruct (slot_loop_ok tb0 Htree (Z.to_nat (Z.abs (want - (zlen pre + 1)))) this arr pre x post want y) as (this' & arr' & -> & Hho'); [done..|].
      eexists _, _. split; [done|]. split.
      - right. exists this', y. split; [done|]. right. exists (take (Z.to_nat (want - 1)) (elems (root tb0))), (drop (S (Z.to_nat (want - 1))) (elems (root tb0))).
        split; [by rewrite take_drop_middle|]. cbn [slot]. apply lookup_lt_Some in Hy. rewrite length_take. lia.
      - by destruct Hho' as (? & ? & ? & ? & -> & _). }
    assert (∃ this stack', match root tb0 with Leaf => Some (Leaf, Stack 0 []) | Node _ _ _ _ =>
        '(_, arr) ← spine true (root tb0) []; this ← TOP_NODE tb0 arr; slot_loop (Z.to_nat (Z.abs (want - 1))) tb0 want this (Stack 1 arr) end = Some (this, stack') ∧
        stack_ok (root tb0) stack' ∧ node_of this = Some y) as Hfresh.
    { destruct (spine_root true tb0 Htree Hne) as (this & arr & x & rest & -> & _ & Hho & He). cbn [mbind option_bind].
      destruct (holds_top tb0 _ _ _ Hu Hho) as [-> _]. cbn [mbind option_bind]. destruct (root tb0) eqn:Er; [done|]. rewrite <- Er in *.
      apply (Hloop arr this x [] rest Hho He). }
    cbv zeta. destruct Hst as [->|(this & x & Hho & Hp)]; [destruct (want =? 1); exact Hfresh|].
    destruct (want =? 1) eqn:E1; cbn [slot]; [exact Hfresh|]. destruct Hp as [E0|(pre & post & He & Hsl)]; [rewrite E0; exact Hfresh|].
    destruct stack as [s arr]. cbn [slot array] in *. subst s. destruct (Z.eqb_spec (zlen pre + 1) 0); [lia|]. cbn [array].
    destruct (holds_top tb0 _ _ _ Hu Hho) as [Htop Hne']. destruct arr as [|p arr']; [done|]. rewrite Htop. cbn [mbind option_bind slot]. by eapply Hloop. }
  unfold slot_search, get_any_stack. destruct (is_stack_busy tb) eqn:Eb.
  - destruct (Hsearch tb (Stack 0 []) eq_refl ltac:(by left)) as (this & stack' & E & _ & Hthis). cbv zeta in E. rewrite E. cbn [mbind option_bind release_stack].
    eexists _, _. split; [done|]. split; [done|by apply same_refl].
  - destruct (Hsearch (set_busy true tb) (static_stack tb) eq_refl Hs) as (this & stack' & E & Hs' & Hthis). cbv zeta in E. rewrite E. cbn [mbind option_bind release_stack].
    eexists _, _. split; [done|]. split; [done|by apply set_stack_same].
Qed.
End Ops.

(** * Ordered ETS tables ([DbTree]): insertion, deletion, update in place, traversal with a callback, and freeing a table. *)

Section Write.
Context {Obj T K : Type} `{EqDecision Obj, !DbTerms Obj T K, !DbTermLaws Obj T K}.
Abbreviation node := (TreeDbTerm Obj).
Abbreviation ttree := (tree node).
Abbreviation plugs := (foldl (λ t f, plug f t)).
Implicit Types (t cur this : ttree) (stk : list (frame node)) (a x y : node) (d : bool) (k : K) (arr : list Z) (tb : DbTableTree Obj).

(** A new tree for the table, with the stack reset *)
Lemma new_table tb t n : (∃ h, avl t h) → ordered_tree t → uniq t → n = zlen (elems t) → n ≤ INT_MAX →
  table_ok (Table t n (is_stack_busy tb) (Stack 0 [])).
Proof.
  intros [h Ha] Ho Hu Hn Hm. split; [|split; [by left|done]]. split; [done|]. split; [|done]. exists h. split; [done|].
  eapply avl_stack_need; [done|]. rewrite <- Hn. unfold INT_MAX, STACK_NODES in *. lia.
Qed.

(** Where the walk for a key ends, from the root of a table *)
Lemma walk_root tb k : tree_ok (root tb) → ∃ stk this hs h,
  walk (λ a, ets_cmp k (nkey a)) (root tb) [] = Some (stk, this) ∧ root tb = plugs this stk ∧ avl this hs ∧ ctx_avl stk hs h ∧
  elems (root tb) = ctx_left stk ++ elems this ++ ctx_right stk ∧
  Forall (below nkey ets_cmp k) (ctx_left stk) ∧ Forall (above nkey ets_cmp k) (ctx_right stk) ∧
  match this with Leaf => look (root tb) k = None | Node _ q _ _ => nkey q = k ∧ look (root tb) k = Some q end.
Proof.
  intros (Hu & (h & Ha & Hh) & Ho).
  destruct (walk_ok nkey ets_cmp (root tb) k [] h h Ha eq_refl ltac:(cbn; lia) Ho) as (stk & sub & hs & Hw & Hs & Hc & _ & He & Hlo & Hhi & Hsub); [constructor..|].
  exists stk, sub, hs, h. cbn [ctx_left ctx_right app] in He. rewrite app_nil_r in He. split; [done|]. split.
  { clear -Hw. assert (∀ t s, walk (λ a, ets_cmp k (nkey a)) t s = Some (stk, sub) → plugs t s = plugs sub stk) as Hg; [|by apply (Hg _ [])].
    induction t as [|l IHl a b r IHr]; intros s; cbn [walk]; [by intros [= -> ->]|].
    destruct (ets_cmp k (nkey a) <? 0); [unfold push; case_bool_decide; cbn; [|done]; apply (IHl (FL a b r :: s))|].
    destruct (ets_cmp k (nkey a) >? 0); [unfold push; case_bool_decide; cbn; [|done]; apply (IHr (FR l a b :: s))|]. by intros [= -> ->]. }
  split_and!; try done. unfold look. destruct sub as [|sl q sb sr].
  - destruct (avl_lookup _ (root tb)) as [q|] eqn:E; [|done]. apply lookup_elem in E as [Hq Hk]; [|apply _|done].
    rewrite He in Hq. cbn [elems app] in Hq. by destruct (no_key nkey ets_cmp k _ _ Hlo Hhi q Hq).
  - split; [done|]. apply lookup_elem; [apply _|done|]. split; [|done]. rewrite He. cbn [elems]. rewrite !elem_of_app, elem_of_cons. tauto.
Qed.

Lemma ordered_replace t l q r (x : node) : ordered nkey ets_cmp (l ++ q :: r) → nkey x = nkey q → elems t = l ++ x :: r → ordered_tree t.
Proof.
  intros Ho Hk He. unfold ordered_tree. rewrite He. apply ordered_app in Ho as (H1 & [H2 H3]%StronglySorted_inv & H4). apply ordered_app.
  split; [done|]. split; [constructor; [done|]; unfold lt_key in *; by rewrite Hk|].
  intros u v Hu [->|Hv]%elem_of_cons; [|by apply H4; [|right]]. unfold lt_key. rewrite Hk. by apply H4; [|left].
Qed.

Lemma uniq_replace (t t' : ttree) l q r (x : node) : uniq t → elems t = l ++ q :: r → elems t' = l ++ x :: r →
  addr x = addr q ∨ addr x ∉ addr <$> elems t → uniq t'.
Proof.
  unfold uniq. intros Hu He He' Hx. rewrite He in Hu, Hx. rewrite He'. rewrite fmap_app, fmap_cons in Hu, Hx |- *. destruct Hx as [->|Hx]; [done|].
  rewrite <- Permutation_middle in Hu |- *. apply NoDup_cons in Hu as [_ Hu]. apply NoDup_cons. split; [|done].
  rewrite !elem_of_app, elem_of_cons in Hx. rewrite elem_of_app. tauto.
Qed.

(** ** Insertion *)

Lemma put_ok tb obj clash p : table_ok tb → nitems tb < INT_MAX → p ∉ addr <$> elems (root tb) →
  let k := ets_key (GETKEY obj) in
  match look (root tb) k with
  | Some q =>
      if clash : bool then db_put_tree tb obj clash p = Some (DB_ERROR_BADKEY, reset_static_stack tb)
      else ∃ tb' A B, db_put_tree tb obj clash p = Some (DB_ERROR_NONE, tb') ∧ table_ok tb' ∧ is_stack_busy tb' = is_stack_busy tb ∧
        elems (root tb) = A ++ q :: B ∧ elems (root tb') = A ++ TDT p obj :: B
  | None => ∃ tb' A B, db_put_tree tb obj clash p = Some (DB_ERROR_NONE, tb') ∧ table_ok tb' ∧ is_stack_busy tb' = is_stack_busy tb ∧
      elems (root tb) = A ++ B ∧ elems (root tb') = A ++ TDT p obj :: B
  end.
Proof.
  intros Hok Hlt Hp k. destruct (walk_root tb k (proj1 Hok)) as (stk & this & hs & h & Hw & Hr & Hs & Hc & He & Hlo & Hhi & Hthis).
  pose proof Hok as ((Hu & _ & Ho) & _ & Hn & Hmax). unfold db_put_tree. cbn [root reset_static_stack set_static].
  change (walk (λ a, cmp (GETKEY obj) (node_key a)) (root tb) []) with (walk (λ a, ets_cmp k (nkey a)) (root tb) []). rewrite Hw. cbn [mbind option_bind].
  destruct this as [|l q b r].
  - rewrite Hthis. cbn [nitems reset_static_stack set_static is_stack_busy static_stack]. destruct (Z.geb_spec (nitems tb + 1) TREE_MAX_ELEMENTS); [unfold INT_MAX, TREE_MAX_ELEMENTS in *; lia|].
    apply avl_Leaf_inv in Hs. subst hs.
    destruct (insertion_rotation_ok stk (Node Leaf (TDT p obj) 0 Leaf) 0 h Hc) as (t' & -> & Ha & Het).
    { split; [|by right]. eapply avl_node'; [constructor|constructor|..]; lia. }
    cbn [mbind option_bind]. cbn [elems app] in Het, He. eexists _, (ctx_left stk), (ctx_right stk). split; [done|]. cbn [root]. split; [|done].
    apply (new_table tb); [destruct Ha; eauto| | | |lia].
    + unfold ordered_tree in *. rewrite Het. rewrite He in Ho. apply ordered_app in Ho as (O1 & O2 & O3). apply ordered_app. split; [done|].
      rewrite Forall_forall in Hlo. split; [by constructor|]. intros u v Hu' [->|Hv]%elem_of_cons; [|by apply O3]. by apply Hlo.
    + unfold uniq. rewrite Het, fmap_app, fmap_cons. rewrite <- Permutation_middle. apply NoDup_cons. unfold uniq in Hu. by rewrite He, fmap_app in Hu, Hp.
    + rewrite Hn, He, Het, !length_app. cbn. lia.
  - destruct Hthis as [Hq ->]. destruct clash; [done|]. cbn [elems] in He.
    assert (elems (plugs (Node l (TDT p obj) b r) stk) = (ctx_left stk ++ elems l) ++ TDT p obj :: (elems r ++ ctx_right stk)) as Het.
    { rewrite foldl_plug_elems. cbn [elems]. by rewrite <- !app_assoc. }
    assert (elems (root tb) = (ctx_left stk ++ elems l) ++ q :: (elems r ++ ctx_right stk)) as He' by (rewrite He; by rewrite <- !app_assoc).
    eexists _, _, _. split; [done|]. cbn [root]. split; [|done]. apply (new_table tb).
    + exists h. eapply foldl_plug_avl; [done|]. apply avl_node_inv in Hs as (hl & hr & ? & ? & ? & ? & -> & _). by constructor.
    + apply (ordered_replace _ _ q _ (TDT p obj)) in Het; [done|rewrite <- He'; exact Ho|by rewrite Hq].
    + eapply (uniq_replace (root tb)); eauto.
    + cbn. rewrite Hn, Het, He', !length_app. cbn. done.
    + done.
Qed.

(** A full table is left as it is. *)
Lemma put_full tb obj clash p : tree_ok (root tb) → look (root tb) (ets_key (GETKEY obj)) = None → TREE_MAX_ELEMENTS ≤ nitems tb + 1 →
  db_put_tree tb obj clash p = Some (DB_ERROR_SYSRES, reset_static_stack tb).
Proof.
  intros Hok Hl Hf. set (k := ets_key (GETKEY obj)) in *. destruct (walk_root tb k Hok) as (stk & this & hs & h & Hw & _ & _ & _ & _ & _ & _ & Hthis).
  unfold db_put_tree. cbn [root reset_static_stack set_static].
  change (walk (λ a, cmp (GETKEY obj) (node_key a)) (root tb) []) with (walk (λ a, ets_cmp k (nkey a)) (root tb) []). rewrite Hw. cbn [mbind option_bind].
  destruct this as [|l q b r]; [|destruct Hthis; congruence]. cbn [nitems reset_static_stack set_static]. destruct (Z.geb_spec (nitems tb + 1) TREE_MAX_ELEMENTS); [done|lia].
Qed.

(** ** Deletion *)

(** [linkout] is the removal of [Avl], once the object is found. *)
Lemma linkout_remove tb key (same : Obj → bool) : tree_ok (root tb) → let k := ets_key key in
  linkout tb key same =
    match look (root tb) k with
    | Some q => if same (dbterm q) then '(_, root') ← avl_remove (λ a, ets_cmp k (nkey a)) (root tb);
                  Some (Some q, Table root' (nitems tb - 1) (is_stack_busy tb) (Stack 0 []))
                else Some (None, reset_static_stack tb)
    | None => Some (None, reset_static_stack tb)
    end.
Proof.
  intros Hok k. destruct (walk_root tb k Hok) as (stk & this & hs & h & Hw & _ & _ & _ & _ & _ & _ & Hthis).
  unfold linkout, avl_remove. cbn [root reset_static_stack set_static].
  change (walk (λ a, cmp key (node_key a)) (root tb) []) with (walk (λ a, ets_cmp k (nkey a)) (root tb) []). rewrite Hw. cbn [mbind option_bind].
  destruct this as [|l q b r]; [by rewrite Hthis|]. destruct Hthis as [_ ->]. destruct (same (dbterm q)); [|done].
  destruct (match r with Leaf => _ | _ => _ end); done.
Qed.

Lemma linkout_ok tb key (same : Obj → bool) : table_ok tb → let k := ets_key key in
  match look (root tb) k with
  | Some q =>
      if same (dbterm q) then ∃ tb' A B, linkout tb key same = Some (Some q, tb') ∧ table_ok tb' ∧ is_stack_busy tb' = is_stack_busy tb ∧
        elems (root tb) = A ++ q :: B ∧ elems (root tb') = A ++ B
      else linkout tb key same = Some (None, reset_static_stack tb)
  | None => linkout tb key same = Some (None, reset_static_stack tb)
  end.
Proof.
  intros Hok k. pose proof Hok as (Htree & _ & Hn & Hmax). rewrite linkout_remove by done. fold k. pose proof Htree as (Hu & (h & Ha & Hh) & Ho).
  pose proof (remove_ok nkey ets_cmp (root tb) k) as Hrem. fold (look (root tb) k) in Hrem.
  destruct (look (root tb) k) as [q|]; [|done]. destruct (same (dbterm q)); [|done].
  destruct Hrem as (t' & A & B & -> & [Ha' Ho'] & He & He'); [by split; [exists h|]|rewrite <- Hn; unfold INT_MAX, STACK_NODES in *; lia|].
  cbn [mbind option_bind]. eexists _, A, B. split; [done|]. split; [|done]. apply (new_table tb); [done..| | |lia].
  - unfold uniq in *. rewrite He in Hu. rewrite He'. rewrite fmap_app, fmap_cons in Hu. rewrite <- Permutation_middle in Hu. rewrite fmap_app. by apply NoDup_cons in Hu as [_ Hu].
  - rewrite Hn, He, He', !length_app. cbn. lia.
Qed.

Lemma reset_same tb : table_ok tb → same_table tb (reset_static_stack tb).
Proof. intros (H1 & _ & H2 & H3). split; [|done]. split; [done|]. split; [by left|done]. Qed.

(** ** Update in place *)

Lemma find_node2_ok t key : ∀ stk, match find_node2 t key stk with
  | Some h => plugs t stk = plugs (Node (h_left h) (h_node h) (h_balance h) (h_right h)) (bp h) ∧ look t (ets_key key) = Some (h_node h)
  | None => look t (ets_key key) = None
  end.
Proof.
  unfold look. induction t as [|l IHl a b r IHr]; intros stk; cbn [find_node2 avl_lookup]; [done|]. unfold cmp. fold (nkey a).
  destruct (ets_cmp (ets_key key) (nkey a) =? 0); [done|].
  destruct (ets_cmp (ets_key key) (nkey a) <? 0); [apply (IHl (FL a b r :: stk))|apply (IHr (FR l a b :: stk))].
Qed.

(** Changing the contents of nodes, at the same addresses *)
Fixpoint tmap (g : node → node) t : ttree := match t with Leaf => Leaf | Node l a b r => Node (tmap g l) (g a) b (tmap g r) end.
Definition fmap_frame (g : node → node) (f : frame node) : frame node :=
  match f with FL a b r => FL (g a) b (tmap g r) | FR l a b => FR (tmap g l) (g a) b end.

Lemma tmap_elems g t : elems (tmap g t) = g <$> elems t.
Proof. induction t as [|l IHl a b r IHr]; cbn; [done|]. by rewrite fmap_app, fmap_cons, IHl, IHr. Qed.

Lemma tmap_plugs g stk : ∀ t, tmap g (plugs t stk) = plugs (tmap g t) (fmap_frame g <$> stk).
Proof. induction stk as [|f stk IH]; intros t; [done|]. rewrite fmap_cons. cbn [foldl]. rewrite IH. by destruct f. Qed.

Lemma tmap_id g t : (∀ a, a ∈ elems t → g a = a) → tmap g t = t.
Proof.
  induction t as [|l IHl a b r IHr]; cbn [tmap elems]; [done|]. intros Hg. rewrite IHl, IHr, (Hg a); [done|..].
  - apply elem_of_app. right. left.
  - intros x Hx. apply Hg, elem_of_app. right. by right.
  - intros x Hx. apply Hg, elem_of_app. by left.
Qed.

Lemma fmap_frame_id g stk : (∀ a, a ∈ ctx_left stk ++ ctx_right stk → g a = a) → fmap_frame g <$> stk = stk.
Proof.
  induction stk as [|f stk IH]; [done|]. intros Hg. rewrite fmap_cons. destruct f as [a b r|l a b]; cbn [fmap_frame ctx_left ctx_right] in *.
  - rewrite IH, (Hg a), tmap_id; [done|..]; intros; try apply Hg; rewrite ?elem_of_app, ?elem_of_cons, ?elem_of_app in *; tauto.
  - rewrite IH, (Hg a), tmap_id; [done|..]; intros; try apply Hg; rewrite ?elem_of_app, ?elem_of_cons, ?list_elem_of_singleton in *; tauto.
Qed.

Lemma stack_ok_tmap g t stack : (∀ a, addr (g a) = addr a) → stack_ok t stack → stack_ok (tmap g t) stack.
Proof.
  intros Hg [->|(this & x & (stk & l & b & r & -> & -> & Ha) & Hp)]; [by left|]. right. exists (tmap g (Node l x b r)), (g x). split.
  - exists (fmap_frame g <$> stk), (tmap g l), b, (tmap g r). split; [done|]. split; [apply tmap_plugs|]. rewrite Ha, Hg. f_equal.
    rewrite <- list_fmap_compose. apply list_fmap_ext. intros i f _. destruct f; cbn; by rewrite Hg.
  - destruct Hp as [->|(pre & post & He & ->)]; [by left|]. right. exists (g <$> pre), (g <$> post).
    by rewrite tmap_elems, He, fmap_app, fmap_cons, length_fmap.
Qed.

Lemma finalize_ok tb key h obj resize p : table_ok tb → db_lookup_dbterm_tree tb key = Some h → ets_key (GETKEY obj) = ets_key key →
  p ∉ addr <$> elems (root tb) → ∃ A B new, let tb' := db_finalize_dbterm_tree tb h obj resize p in
  table_ok tb' ∧ is_stack_busy tb' = is_stack_busy tb ∧ elems (root tb) = A ++ h_node h :: B ∧ elems (root tb') = A ++ new :: B ∧ dbterm new = obj.
Proof.
  intros Hok Hl Hk Hp. pose proof Hok as ((Hu & (hh & Ha & Hh) & Ho) & Hs & Hn & Hmax). unfold db_lookup_dbterm_tree in Hl.
  pose proof (find_node2_ok (root tb) key []) as Hf. rewrite Hl in Hf. cbn [foldl] in Hf. destruct Hf as [Hr Hlook]. destruct h as [stk q b l r].
  cbn [bp h_node h_balance h_left h_right] in *. apply lookup_elem in Hlook as [_ Hkq]; [|apply _|done].
  set (new := if resize then TDT p obj else TDT (addr q) obj).
  assert (elems (root tb) = (ctx_left stk ++ elems l) ++ q :: (elems r ++ ctx_right stk)) as He by (rewrite Hr, foldl_plug_elems; cbn [elems]; by rewrite <- !app_assoc).
  assert (elems (plugs (Node l new b r) stk) = (ctx_left stk ++ elems l) ++ new :: (elems r ++ ctx_right stk)) as He' by (rewrite foldl_plug_elems; cbn [elems]; by rewrite <- !app_assoc).
  assert (dbterm new = obj) as Hobj by (by destruct resize).
  assert (∃ h, avl (plugs (Node l new b r) stk) h) as Ha'.
  { clear -Hr Ha. rewrite Hr in Ha. clear Hr. exists hh. revert Ha. assert (∀ t t' h', (∀ h, avl t h → avl t' h) → avl (plugs t stk) h' → avl (plugs t' stk) h') as Hg.
    { induction stk as [|f stk IH]; cbn [foldl]; [eauto|]. intros t t' h' Ht. apply IH. intros h2. destruct f; cbn [plug]; intros (h3 & h4 & ? & ? & ? & ? & -> & _)%avl_node_inv; constructor; auto. }
    apply Hg. intros h2 (h3 & h4 & ? & ? & ? & ? & -> & _)%avl_node_inv. by constructor. }
  assert (ordered_tree (plugs (Node l new b r) stk)) as Ho'.
  { eapply (ordered_replace _ _ q _ new); [rewrite <- He; exact Ho| |exact He']. unfold nkey, node_key. rewrite Hobj. by rewrite Hk, <- Hkq. }
  assert (uniq (plugs (Node l new b r) stk)) as Hu'.
  { eapply (uniq_replace (root tb)); eauto. unfold new. destruct resize; [by right|by left]. }
  assert (nitems tb = zlen (elems (plugs (Node l new b r) stk))) as Hn' by (rewrite Hn, He, He', !length_app; done).
  exists (ctx_left stk ++ elems l), (elems r ++ ctx_right stk), new. unfold db_finalize_dbterm_tree. cbn [h_node h_left h_right h_balance bp]. fold new.
  destruct resize; cbn [root reset_static_stack set_static is_stack_busy]; (split; [|done]).
  - by apply (new_table tb).
  - destruct (new_table tb _ (nitems tb) Ha' Ho' Hu' Hn' Hmax) as (Htree & _). split; [exact Htree|]. split; [|done]. cbn [root static_stack].
    set (g := λ a : node, if addr a =? addr q then new else a).
    assert (∀ a, addr (g a) = addr a) as Hg by (intros a; unfold g; destruct (Z.eqb_spec (addr a) (addr q)); [done|done]).
    assert (plugs (Node l new b r) stk = tmap g (root tb)) as ->; [|by apply stack_ok_tmap].
    assert (∀ a, a ∈ (ctx_left stk ++ elems l) ++ (elems r ++ ctx_right stk) → g a = a) as Hid.
    { intros a Hin. unfold g. destruct (Z.eqb_spec (addr a) (addr q)) as [E|]; [|done]. exfalso. unfold uniq in Hu. rewrite He, fmap_app, fmap_cons in Hu.
      rewrite <- Permutation_middle in Hu. apply NoDup_cons in Hu as [Hq _]. apply Hq. rewrite <- fmap_app, <- E. by apply list_elem_of_fmap_2. }
    rewrite Hr, tmap_plugs. cbn [tmap]. rewrite fmap_frame_id, !tmap_id; [unfold g; by rewrite Z.eqb_refl|..];
      intros a Hin; apply Hid; rewrite ?elem_of_app in *; tauto.
Qed.

(** ** Traversal *)

(** The callback on a list, until it says stop *)
Fixpoint visit {C} (doit : node → C → bool * C) (l : list node) (ctx : C) : C :=
  match l with [] => ctx | a :: l' => let '(go_on, ctx) := doit a ctx in if go_on then visit doit l' ctx else ctx end.

Lemma split_after d t pre x post : ordered_tree t → elems_d d t = pre ++ x :: post → key_split d (nkey x) t (pre ++ [x]) post.
Proof.
  intros Ho He. destruct (ordered_around d t pre x post Ho He) as [Hb Ha]. split; [by rewrite <- app_assoc|]. split; [|done].
  apply Forall_app. split; [eapply Forall_impl; [exact Hb|]; intros; by apply before_not_after|]. constructor; [by apply same_not_after|done].
Qed.

Lemma traverse_loop_ok {C} d tb (doit : node → C → bool * C) : tree_ok (root tb) → ∀ fuel pre post this stack ctx,
  elems_d d (root tb) = pre ++ post → finds (root tb) post this stack → (length post ≤ fuel)%nat → ∃ stack',
  traverse_loop fuel d tb doit this stack ctx = Some (stack', visit doit post ctx) ∧ stack_ok (root tb) stack'.
Proof.
  intros Hok. induction fuel as [|fuel IH]; intros pre post this stack ctx He [Hs Hf] Hlen; (destruct post as [|x post]; [subst this; by eexists|]);
    destruct Hf as (l & b & r & ->); cbn [traverse_loop visit]; [cbn in Hlen; lia|].
  destruct (find_adjacent_ok d tb stack (node_key x) (pre ++ [x]) post Hok Hs) as (this' & stack' & -> & Hf'); [apply split_after; [apply Hok|done]|].
  cbn [mbind option_bind]. destruct (doit x ctx) as [go_on ctx']. destruct go_on; [|eexists; split; [done|apply Hf']].
  apply (IH (pre ++ [x]) post); [by rewrite <- app_assoc|done|cbn in Hlen; lia].
Qed.

Lemma traverse_ok {C} d tb (doit : node → C → bool * C) stack lastkey ctx fuel pre post : tree_ok (root tb) → stack_ok (root tb) stack →
  match lastkey with None => pre = [] ∧ post = elems_d d (root tb) | Some key => key_split d (ets_key key) (root tb) pre post end →
  (length post ≤ fuel)%nat → ∃ stack', traverse fuel d tb stack lastkey doit ctx = Some (stack', visit doit post ctx) ∧ stack_ok (root tb) stack'.
Proof.
  intros Hok Hs Hpost Hlen. unfold traverse. destruct lastkey as [key|].
  - destruct (find_adjacent_ok d tb stack key pre post Hok Hs Hpost) as (this & stack' & -> & Hf). cbn [mbind option_bind].
    apply (traverse_loop_ok d tb doit Hok fuel pre post); [apply Hpost|done|done].
  - destruct Hpost as [-> ->]. destruct (root tb) as [|l a b r] eqn:Er.
    { eexists. split; [by destruct d|by left]. }
    rewrite <- Er in *. destruct (spine_root d tb Hok ltac:(by rewrite Er)) as (this & arr & x & rest & -> & _ & Hho & He). cbn [mbind option_bind].
    destruct (holds_top tb arr this x (proj1 Hok) Hho) as [-> _]. cbn [mbind option_bind].
    apply (traverse_loop_ok d tb doit Hok fuel []); [done| |done]. rewrite He. split; [right; exists this, x; split; [done|by left]|].
    destruct Hho as (? & ? & ? & ? & -> & _). eauto.
Qed.

(** ** Freeing *)

Fixpoint hgt t : Z := match t with Leaf => 0 | Node l _ _ r => 1 + Z.max (hgt l) (hgt r) end.

(** The nodes on the stack fit: below each there is room for the levels of its subtree. *)
Fixpoint fits (stk : list ttree) : Prop :=
  match stk with [] => True | t :: stk' => t ≠ Leaf ∧ hgt t + Z.of_nat (length stk') ≤ Z.of_nat STACK_NEED ∧ fits stk' end.

Definition stack_elems (stk : list ttree) : list node := stk ≫= elems.

Lemma hgt_avl t h : avl t h → hgt t = h.
Proof. induction 1 as [|l a b r hl hr Hl IHl Hr IHr]; cbn; [done|]. by rewrite IHl, IHr. Qed.

Lemma hgt_pos t : 0 ≤ hgt t.
Proof. induction t; cbn; lia. Qed.

Lemma free_down_ok fuel t (stk : list ttree) : t ≠ Leaf → (tree_size t < fuel)%nat → hgt t + Z.of_nat (length stk) ≤ Z.of_nat STACK_NEED → fits stk → ∃ a (stk' : list ttree),
  free_down fuel t stk = Some (a, stk') ∧ fits stk' ∧ elems t ++ stack_elems stk ≡ₚ a :: stack_elems stk'.
Proof.
  revert t stk. induction fuel as [|fuel IH]; intros t stk Hne Hf Hh Hst; [lia|]. destruct t as [|l a b r]; [done|]. cbn [free_down].
  pose proof (hgt_pos l). pose proof (hgt_pos r). cbn [hgt tree_size] in *. destruct l as [|ll la lb lr].
  - destruct r as [|rl ra rb rr].
    + exists a, stk. done.
    + set (r := Node rl ra rb rr) in *. assert (1 ≤ hgt r) by (cbn; pose proof (hgt_pos rl); pose proof (hgt_pos rr); lia).
      rewrite bool_decide_eq_true_2 by (unfold STACK_NEED in *; lia).
      destruct (IH r (Node Leaf a b Leaf :: stk)) as (x & stk' & -> & Hst' & HP); [done|cbn [tree_size] in *; lia|cbn [length]; lia|by cbn; split_and!; [|lia|]|].
      exists x, stk'. split; [done|]. split; [done|]. rewrite <- HP. unfold stack_elems. rewrite bind_cons. cbn [elems app]. by rewrite Permutation_middle.
  - set (l := Node ll la lb lr) in *. assert (1 ≤ hgt l) by (cbn; pose proof (hgt_pos ll); pose proof (hgt_pos lr); lia).
    rewrite bool_decide_eq_true_2 by (unfold STACK_NEED in *; lia).
    destruct (IH l (Node Leaf a b r :: stk)) as (x & stk' & -> & Hst' & HP); [done|cbn [tree_size] in *; lia|cbn [length]; lia|cbn; split_and!; [done|pose proof (hgt_pos r); lia|done]|].
    exists x, stk'. split; [done|]. split; [done|]. rewrite <- HP. unfold stack_elems. rewrite bind_cons. cbn [elems app]. by rewrite <- app_assoc.
Qed.

Lemma do_free_ok num (stk : list ttree) freed : (1 ≤ num)%nat → fits stk → ∃ res (stk' : list ttree) fr,
  do_free_tree_cont num stk freed = Some (res, stk', freed ++ fr) ∧ fr ++ stack_elems stk' ≡ₚ stack_elems stk ∧ fits stk' ∧ (length fr ≤ num)%nat ∧
  if res : bool then stk' = [] else length fr = num.
Proof.
  revert stk freed. induction num as [|num IH]; intros stk freed Hn Hst; [lia|]. destruct stk as [|t stk].
  { exists true, [], []. cbn. rewrite app_nil_r. split_and!; [done..|lia|done]. }
  destruct Hst as (Hne & Hh & Hst). cbn [do_free_tree_cont]. destruct (free_down_ok (S (tree_size t)) t stk) as (a & stk' & E & Hst' & HP); [done|lia|done|done|].
  destruct t as [|l x b r]; [done|]. rewrite E. cbn [mbind option_bind].
  destruct num as [|num].
  - exists false, stk', [a]. split; [done|]. unfold stack_elems in *. rewrite bind_cons. by rewrite HP.
  - destruct (IH stk' (freed ++ [a])) as (res & stk2 & fr & -> & HP2 & Hst2 & Hle & Hres); [lia|done|]. rewrite <- app_assoc. cbn [app].
    exists res, stk2, (a :: fr). split; [done|]. split; [unfold stack_elems in *; rewrite bind_cons, HP; cbn; by rewrite HP2|]. split; [done|]. split; [cbn; lia|]. destruct res; [done|]. cbn. lia.
Qed.

Lemma free_calls_ok calls (stk : list ttree) freed : fits stk → Z.of_nat (length (stack_elems stk)) < DELETE_RECORD_LIMIT * Z.of_nat calls → ∃ fr,
  free_calls calls stk freed = Some (freed ++ fr) ∧ fr ≡ₚ stack_elems stk.
Proof.
  revert stk freed. induction calls as [|calls IH]; intros stk freed Hst Hlt; [lia|]. cbn [free_calls].
  destruct (do_free_ok (Z.to_nat DELETE_RECORD_LIMIT) stk freed) as (res & stk' & fr & -> & HP & Hst' & _ & Hres); [unfold DELETE_RECORD_LIMIT; lia|done|].
  cbn [mbind option_bind]. destruct res.
  - subst stk'. exists fr. split; [done|]. rewrite <- HP. unfold stack_elems. cbn. by rewrite app_nil_r.
  - destruct (IH stk' (freed ++ fr) Hst') as (fr' & -> & HP').
    { apply Permutation_length in HP. rewrite length_app in HP. lia. }
    exists (fr ++ fr'). rewrite app_assoc. split; [done|]. by rewrite HP', HP.
Qed.

Lemma free_table_ok calls tb : table_ok tb → nitems tb < DELETE_RECORD_LIMIT * Z.of_nat calls → ∃ freed,
  db_free_table_tree calls tb = Some freed ∧ freed ≡ₚ elems (root tb).
Proof.
  intros ((_ & (h & Ha & Hh) & _) & _ & Hn & _) Hlt. unfold db_free_table_tree. destruct (root tb) as [|l a b r] eqn:Er.
  - destruct calls as [|calls]; [lia|]. eexists. split; [|done]. cbn [free_calls].
    assert (∃ m, Z.to_nat DELETE_RECORD_LIMIT = S m) as [m ->] by (exists (Z.to_nat 11999); unfold DELETE_RECORD_LIMIT; lia). done.
  - rewrite <- Er in *. apply hgt_avl in Ha. destruct (free_calls_ok calls [root tb] []) as (fr & E & HP).
    + cbn. rewrite Er at 1. split; [done|]. split; [lia|done].
    + unfold stack_elems. cbn. rewrite app_nil_r. lia.
    + exists fr. split; [done|]. rewrite HP. unfold stack_elems. cbn. by rewrite app_nil_r.
Qed.
End Write.
