(* ===== verification/DbTreeTheorems.v ===== *)
(** The correctness properties of ordered ETS tables ([DbTree], [DbTreeSpec], [DbTreeOps]), with a concrete
    instance. *)

From Stdlib Require Import ZArith ZifyBool Sorted.
From stdpp Require Import base list numbers option gmap.
From S2P Require Import Prelude Avl AvlSpec DbUtil DbTree DbTreeSpec DbTreeOps.
Local Open Scope Z_scope.

(** * Sequences of operations *)
Section Sequences.
Context {Obj T K : Type} `{EqDecision Obj, !DbTerms Obj T K, !DbTermLaws Obj T K, !NodeAlloc}.
Implicit Types (tb : DbTableTree Obj) (l : list Obj) (o : Obj) (key : T) (k : K).

Definition okey o : K := ets_key (GETKEY o).

(** [other] tells that another reader has the static stack during the call. *)
Inductive ets_op :=
| EPut (o : Obj) (key_clash_fail : bool)
| EGet (key : T)
| EMember (key : T)
| EElement (key : T) (ndex : Z)
| EErase (key : T)
| EEraseObject (o : Obj)
| EFirst (other : bool)
| ELast (other : bool)
| ENext (other : bool) (key : T)
| EPrev (other : bool) (key : T)
| ESlot (other : bool) (n : Z)
| EUpdate (key : T) (f : Obj → Obj) (resize : bool)
| EDeleteAll.

Inductive ets_res :=
| RCode (e : db_error)
| RKey (e : db_error) (key : T)
| RObjects (e : db_error) (l : list Obj)
| RBool (e : db_error) (b : bool)
| RElement (e : db_error) (t : option T)
| RSlot (e : db_error) (r : unit + list Obj).

Definition fresh tb : Z := new_addr (addr <$> elems (root tb)).

(** ** The code *)
Definition ets_step tb (op : ets_op) : option (ets_res * DbTableTree Obj) :=
  match op with
  | EPut o clash => '(e, tb) ← db_put_tree tb o clash (fresh tb); Some (RCode e, tb)
  | EGet key => '(e, l, tb) ← db_get_tree tb key; Some (RObjects e l, tb)
  | EMember key => '(e, b, tb) ← db_member_tree tb key; Some (RBool e b, tb)
  | EElement key n => '(e, r, tb) ← db_get_element_tree tb key n; Some (RElement e r, tb)
  | EErase key => '(e, tb) ← db_erase_tree tb key; Some (RCode e, tb)
  | EEraseObject o => '(e, tb) ← db_erase_object_tree tb o; Some (RCode e, tb)
  | EFirst other => '(e, r, tb) ← db_first_tree (set_busy other tb); Some (RKey e r, set_busy false tb)
  | ELast other => '(e, r, tb) ← db_last_tree (set_busy other tb); Some (RKey e r, set_busy false tb)
  | ENext other key => '(e, r, tb) ← db_next_tree (set_busy other tb) key; Some (RKey e r, set_busy false tb)
  | EPrev other key => '(e, r, tb) ← db_prev_tree (set_busy other tb) key; Some (RKey e r, set_busy false tb)
  | ESlot other n => '(e, r, tb) ← db_slot_tree (set_busy other tb) n; Some (RSlot e r, set_busy false tb)
  | EUpdate key f resize =>
      match db_lookup_dbterm_tree tb key with
      | Some h => Some (RBool DB_ERROR_NONE true, db_finalize_dbterm_tree tb h (f (dbterm (h_node h))) resize (fresh tb))
      | None => Some (RBool DB_ERROR_NONE false, tb)
      end
  | EDeleteAll => '(_, tb) ← db_delete_all_objects_tree (Z.to_nat (nitems tb / DELETE_RECORD_LIMIT + 1)) tb; Some (RCode DB_ERROR_NONE, tb)
  end.

Fixpoint ets_run tb (ops : list ets_op) : option (list ets_res * DbTableTree Obj) :=
  match ops with
  | [] => Some ([], tb)
  | op :: ops' => '(r, tb) ← ets_step tb op; '(rs, tb) ← ets_run tb ops'; Some (r :: rs, tb)
  end.

(** ** The specification: a list of objects, in order and with different keys *)
Definition less k l : list Obj := filter (λ o, ets_cmp (okey o) k < 0) l.
Definition equal k l : list Obj := filter (λ o, ets_cmp (okey o) k = 0) l.
Definition greater k l : list Obj := filter (λ o, ets_cmp k (okey o) < 0) l.
Definition key_or_EOT (o : option Obj) : T := from_option GETKEY am_EOT o.

Definition spec_step l (op : ets_op) : ets_res * list Obj :=
  match op with
  | EPut o clash =>
      match equal (okey o) l with
      | _ :: _ => if clash then (RCode DB_ERROR_BADKEY, l) else (RCode DB_ERROR_NONE, less (okey o) l ++ o :: greater (okey o) l)
      | [] => (RCode DB_ERROR_NONE, less (okey o) l ++ o :: greater (okey o) l)
      end
  | EGet key => (RObjects DB_ERROR_NONE (equal (ets_key key) l), l)
  | EMember key => (RBool DB_ERROR_NONE (match equal (ets_key key) l with [] => false | _ => true end), l)
  | EElement key n =>
      (match equal (ets_key key) l with
       | [] => RElement DB_ERROR_BADKEY None
       | o :: _ => if n >? arityval o then RElement DB_ERROR_BADPARAM None else RElement DB_ERROR_NONE (Some (element o n))
       end, l)
  | EErase key => (RCode DB_ERROR_NONE, less (ets_key key) l ++ greater (ets_key key) l)
  | EEraseObject o => (RCode DB_ERROR_NONE, filter (λ o', o ≠ o') l)
  | EFirst _ => (RKey DB_ERROR_NONE (key_or_EOT (head l)), l)
  | ELast _ => (RKey DB_ERROR_NONE (key_or_EOT (last l)), l)
  | ENext _ key =>
      (if is_EOT key then RKey DB_ERROR_BADKEY am_EOT else RKey DB_ERROR_NONE (key_or_EOT (head (greater (ets_key key) l))), l)
  | EPrev _ key =>
      (if is_EOT key then RKey DB_ERROR_BADKEY am_EOT else RKey DB_ERROR_NONE (key_or_EOT (last (less (ets_key key) l))), l)
  | ESlot _ n =>
      (if (n <? 0) || (n >? zlen l) then RSlot DB_ERROR_BADPARAM (inr [])
       else match l !! Z.to_nat n with Some o => RSlot DB_ERROR_NONE (inr [o]) | None => RSlot DB_ERROR_NONE (inl tt) end, l)
  | EUpdate key f _ =>
      match equal (ets_key key) l with
      | [] => (RBool DB_ERROR_NONE false, l)
      | o :: _ => (RBool DB_ERROR_NONE true, less (ets_key key) l ++ f o :: greater (ets_key key) l)
      end
  | EDeleteAll => (RCode DB_ERROR_NONE, [])
  end.

Fixpoint spec_run l (ops : list ets_op) : list ets_res * list Obj :=
  match ops with
  | [] => ([], l)
  | op :: ops' => let '(r, l) := spec_step l op in let '(rs, l) := spec_run l ops' in (r :: rs, l)
  end.

(** An update keeps the key. *)
Definition op_ok (op : ets_op) : Prop := match op with EUpdate _ f _ => ∀ o, okey (f o) = okey o | _ => True end.

Definition objs tb : list Obj := dbterm <$> elems (root tb).

(** ** The table as a list *)

Lemma filters k (A M B : list (TreeDbTerm Obj)) : Forall (below nkey ets_cmp k) A → Forall (λ a, nkey a = k) M → Forall (above nkey ets_cmp k) B →
  let l := dbterm <$> A ++ M ++ B in less k l = dbterm <$> A ∧ equal k l = dbterm <$> M ∧ greater k l = dbterm <$> B.
Proof.
  intros HA HM HB l. subst l. unfold less, equal, greater.
  assert (∀ (P : Obj → Prop) `{∀ o, Decision (P o)} (L : list (TreeDbTerm Obj)), Forall (λ a, P (dbterm a)) L → filter P (dbterm <$> L) = dbterm <$> L) as Hall.
  { intros P HP L. induction 1 as [|a L Ha _ IH]; [done|]. rewrite fmap_cons, filter_cons_True by done. by rewrite IH. }
  assert (∀ (P : Obj → Prop) `{∀ o, Decision (P o)} (L : list (TreeDbTerm Obj)), Forall (λ a, ¬ P (dbterm a)) L → filter P (dbterm <$> L) = []) as Hnone.
  { intros P HP L. induction 1 as [|a L Ha _ IH]; [done|]. by rewrite fmap_cons, filter_cons_False by done. }
  assert (∀ a, nkey a = okey (dbterm a)) as Hk by done.
  rewrite !fmap_app, !filter_app.
  assert (∀ a, below nkey ets_cmp k a → ets_cmp (nkey a) k < 0 ∧ 0 < ets_cmp k (nkey a)) as Hb.
  { intros a Ha. split; [done|]. by apply cmp_anti. }
  assert (∀ a, above nkey ets_cmp k a → ets_cmp k (nkey a) < 0 ∧ 0 < ets_cmp (nkey a) k) as Hab.
  { intros a Ha. split; [done|]. by apply cmp_anti. }
  assert (ets_cmp k k = 0) as Hkk by (by apply cmp_eq).
  split_and!.
  - rewrite (Hall _ _ A), (Hnone _ _ M), (Hnone _ _ B), !app_nil_r; [done|..]; (eapply Forall_impl; [eassumption|]); cbn; intros a Ha; rewrite <- Hk;
      [apply Hab in Ha|rewrite Ha|apply Hb in Ha]; lia.
  - rewrite (Hnone _ _ A), (Hall _ _ M), (Hnone _ _ B), app_nil_r; [done|..]; (eapply Forall_impl; [eassumption|]); cbn; intros a Ha; rewrite <- Hk;
      [apply Hab in Ha|rewrite Ha|apply Hb in Ha]; lia.
  - rewrite (Hnone _ _ A), (Hnone _ _ M), (Hall _ _ B); [done|..]; (eapply Forall_impl; [eassumption|]); cbn; intros a Ha; rewrite <- Hk;
      [apply Hab in Ha|rewrite Ha|apply Hb in Ha]; lia.
Qed.

(** The table around a key *)
Lemma around tb k : tree_ok (root tb) → ∃ A B, let M := option_list (look (root tb) k) in
  elems (root tb) = A ++ M ++ B ∧ Forall (below nkey ets_cmp k) A ∧ Forall (λ a, nkey a = k) M ∧ Forall (above nkey ets_cmp k) B ∧
  less k (objs tb) = dbterm <$> A ∧ equal k (objs tb) = dbterm <$> M ∧ greater k (objs tb) = dbterm <$> B.
Proof.
  intros Hok. destruct (walk_root tb k Hok) as (stk & this & hs & h & Hw & Hr & Hs & Hc & He & Hlo & Hhi & Hthis).
  pose proof Hok as (_ & _ & Ho). unfold objs. destruct this as [|l q b r].
  - rewrite Hthis. cbn [option_list elems app] in *. exists (ctx_left stk), (ctx_right stk). rewrite He. split_and!; try done; by apply (filters k _ []).
  - destruct Hthis as [Hq ->]. cbn [option_list app]. exists (ctx_left stk ++ elems l), (elems r ++ ctx_right stk). cbn [elems] in He.
    assert (elems (root tb) = (ctx_left stk ++ elems l) ++ [q] ++ (elems r ++ ctx_right stk)) as He' by (rewrite He; by rewrite <- !app_assoc).
    unfold ordered_tree in Ho. rewrite He' in Ho. apply ordered_split in Ho as [Hb Ha]. rewrite Hq in Hb, Ha.
    assert (Forall (λ a, nkey a = k) [q]) as HM by (by constructor). rewrite He'. split_and!; try done; by apply (filters k _ [q]).
Qed.

(** The same for given parts *)
Lemma around_at t k A x B : ordered_tree t → elems t = A ++ x :: B → nkey x = k →
  Forall (below nkey ets_cmp k) A ∧ Forall (above nkey ets_cmp k) B.
Proof. intros Ho He <-. unfold ordered_tree in Ho. rewrite He in Ho. by apply ordered_split. Qed.

Lemma fresh_ok tb : fresh tb ∉ addr <$> elems (root tb).
Proof. apply new_addr_fresh. Qed.

(** What a step must give *)
Definition step_ok tb (op : ets_op) (r : option (ets_res * DbTableTree Obj)) : Prop :=
  ∃ res tb', r = Some (res, tb') ∧ table_ok tb' ∧ is_stack_busy tb' = false ∧ spec_step (objs tb) op = (res, objs tb') ∧ nitems tb' ≤ nitems tb + 1.

Lemma put_step tb o clash : table_ok tb → nitems tb < INT_MAX → is_stack_busy tb = false → step_ok tb (EPut o clash) (ets_step tb (EPut o clash)).
Proof.
  intros Hok Hn Hb. pose proof Hok as (Htree & _ & Hni & _). pose proof (put_ok tb o clash (fresh tb) Hok Hn (fresh_ok tb)) as Hput. cbv zeta in Hput.
  destruct (around tb (okey o) Htree) as (A & B & He & HA & HM & HB & El & Ee & Eg). cbv zeta in *. unfold step_ok. cbn [ets_step spec_step]. fold (okey o) in Hput.
  rewrite Ee, El, Eg. destruct (look (root tb) (okey o)) as [q|]; cbn [option_list] in *; [destruct clash|].
  - rewrite Hput. cbn [mbind option_bind]. destruct (reset_same tb Hok) as (Hok' & Hr & Hn' & Hb'). eexists _, _. split; [done|]. rewrite Hb', Hn'.
    split_and!; (done || lia).
  - destruct Hput as (tb' & A' & B' & -> & Hok' & Hb' & He1 & He2). cbn [mbind option_bind]. eexists _, tb'. split; [done|]. pose proof Hok' as (Ht' & _ & Hn' & _).
    split; [done|]. split; [congruence|]. rewrite Hni, Hn', He1, He2, !length_app. split; [|cbn; lia]. cbn. f_equal. unfold objs. rewrite He2, fmap_app, fmap_cons. cbn.
    assert (A' = A ∧ B' = B) as [-> ->]; [|done]. rewrite He in He1. cbn [app] in He1. symmetry in He1. apply split_unique in He1; [done|].
    rewrite He1. rewrite <- He. apply Htree.
  - destruct Hput as (tb' & A' & B' & -> & Hok' & Hb' & He1 & He2). cbn [mbind option_bind]. eexists _, tb'. split; [done|]. pose proof Hok' as (Ht' & _ & Hn' & _).
    split; [done|]. split; [congruence|]. rewrite Hni, Hn', He1, He2, !length_app. split; [|cbn; lia]. cbn. f_equal. unfold objs. rewrite He2, fmap_app, fmap_cons. cbn.
    destruct (around_at _ (okey o) _ _ _ (proj2 (proj2 Ht')) He2 eq_refl) as [HA' HB'].
    destruct (filters (okey o) A' [] B' HA' ltac:(constructor) HB') as (F1 & _ & F2). cbn [app] in F1, F2. rewrite <- He1 in F1, F2.
    fold (objs tb) in F1, F2. by rewrite <- F1, <- F2, El, Eg.
Qed.

(** Operations that leave the contents alone *)
Lemma read_step tb op res tb' : table_ok tb → is_stack_busy tb = false → same_table tb tb' → spec_step (objs tb) op = (res, objs tb) →
  step_ok tb op (Some (res, tb')).
Proof.
  intros Hok Hb (Hok' & Hr & Hn & Hb') Hs. eexists _, tb'. split; [done|]. split; [done|]. split; [congruence|]. split; [|lia].
  rewrite Hs. unfold objs. by rewrite Hr.
Qed.

(** The same for an operation that runs while another reader may have the stack *)
Lemma shared_step tb op other res tb' : table_ok tb → same_table (set_busy other tb) tb' →
  spec_step (objs tb) op = (res, objs tb) → step_ok tb op (Some (res, set_busy false tb')).
Proof.
  intros Hok (Hok' & Hr & Hn & _) Hs. eexists _, _. split; [done|]. split; [exact Hok'|]. split; [done|]. split; [|cbn in *; lia].
  rewrite Hs. unfold objs. cbn [root set_busy] in *. by rewrite Hr.
Qed.

Lemma remove_step tb key (same : Obj → bool) op l' : table_ok tb → is_stack_busy tb = false →
  (∀ A B, objs tb = A ++ (dbterm <$> option_list (look (root tb) (ets_key key))) ++ B → less (ets_key key) (objs tb) = A → greater (ets_key key) (objs tb) = B →
     spec_step (objs tb) op = (RCode DB_ERROR_NONE, l') ∧
     l' = match look (root tb) (ets_key key) with Some q => if same (dbterm q) then A ++ B else objs tb | None => objs tb end) →
  step_ok tb op ('(_, tb) ← linkout tb key same; Some (RCode DB_ERROR_NONE, tb)).
Proof.
  intros Hok Hb Hspec. pose proof Hok as (Htree & _ & Hni & _). set (k := ets_key key) in *.
  destruct (around tb k Htree) as (A & B & He & HA & HM & HB & El & Ee & Eg). cbv zeta in *.
  destruct (Hspec (dbterm <$> A) (dbterm <$> B)) as [Hs Hl]; [|done..|].
  { unfold objs. rewrite He, !fmap_app. done. }
  pose proof (linkout_ok tb key same Hok) as Hlink. cbv zeta in Hlink. fold k in Hlink.
  assert (linkout tb key same = Some (None, reset_static_stack tb) → l' = objs tb → step_ok tb op ('(_, tb) ← linkout tb key same; Some (RCode DB_ERROR_NONE, tb))) as Hno.
  { intros -> ->. cbn [mbind option_bind]. apply read_step; [done..|by apply reset_same|done]. }
  destruct (look (root tb) k) as [q|]; [|by apply Hno]. destruct (same (dbterm q)); [|by apply Hno].
  destruct Hlink as (tb' & A' & B' & -> & Hok' & Hb' & He1 & He2). cbn [mbind option_bind option_list] in *.
  assert (A' = A ∧ B' = B) as [-> ->].
  { rewrite He in He1. cbn [app] in He1. symmetry in He1. apply split_unique in He1; [done|]. rewrite He1, <- He. apply Htree. }
  pose proof Hok' as (_ & _ & Hn' & _). eexists _, tb'. split; [done|]. split; [done|]. split; [congruence|].
  rewrite Hs, Hl, Hn', Hni, He1, He2, !length_app. unfold objs. rewrite He2, fmap_app. split; [done|cbn; lia].
Qed.

Lemma erase_step tb key : table_ok tb → is_stack_busy tb = false → step_ok tb (EErase key) (ets_step tb (EErase key)).
Proof.
  intros Hok Hb. cbn [ets_step]. unfold db_erase_tree, linkout_tree.
  assert (∀ r : option (option (TreeDbTerm Obj) * DbTableTree Obj), ('(e, tb) ← ('(_, tb) ← r; Some (DB_ERROR_NONE, tb)); Some (RCode e, tb)) = ('(_, tb) ← r; Some (RCode DB_ERROR_NONE, tb))) as -> by (by intros [[? ?]|]).
  eapply (remove_step _ _ _ _ (less (ets_key key) (objs tb) ++ greater (ets_key key) (objs tb))); [done..|].
  intros A B He HA HB. cbn [spec_step]. rewrite HA, HB. split; [done|]. destruct (look (root tb) (ets_key key)); [done|]. by rewrite He.
Qed.

Lemma filter_other o (L : list Obj) : o ∉ L → filter (λ o', o ≠ o') L = L.
Proof.
  induction L as [|x L IH]; [done|]. rewrite not_elem_of_cons. intros [Hx HL]. rewrite filter_cons_True by done. by rewrite IH.
Qed.

Lemma erase_object_step tb o : table_ok tb → is_stack_busy tb = false → step_ok tb (EEraseObject o) (ets_step tb (EEraseObject o)).
Proof.
  intros Hok Hb. cbn [ets_step]. unfold db_erase_object_tree, linkout_object_tree.
  assert (∀ r : option (option (TreeDbTerm Obj) * DbTableTree Obj), ('(e, tb) ← ('(_, tb) ← r; Some (DB_ERROR_NONE, tb)); Some (RCode e, tb)) = ('(_, tb) ← r; Some (RCode DB_ERROR_NONE, tb))) as -> by (by intros [[? ?]|]).
  eapply (remove_step _ _ _ _ (filter (λ o', o ≠ o') (objs tb))); [done..|].
  intros A B He HA HB. cbn [spec_step]. split; [done|]. fold (okey o) in *.
  assert ((o ∉ A) ∧ (o ∉ B)) as [HoA HoB].
  { rewrite <- HA, <- HB. unfold less, greater. split; intros [Hf _]%list_elem_of_filter; rewrite (proj2 (cmp_eq (okey o) (okey o)) eq_refl) in Hf; lia. }
  rewrite He, !filter_app, (filter_other o A HoA), (filter_other o B HoB). destruct (look (root tb) (okey o)) as [q|]; cbn [option_list]; [|done].
  change (dbterm <$> option_list (Some q)) with [dbterm q]. case_bool_decide as E; [rewrite filter_cons_False by tauto|rewrite filter_cons_True by done]; done.
Qed.

Lemma get_steps tb op : table_ok tb → is_stack_busy tb = false →
  match op with EGet _ | EMember _ | EElement _ _ => step_ok tb op (ets_step tb op) | _ => True end.
Proof.
  intros Hok Hb. destruct op as [|key|key|key n| | | | | | | | |]; try done; cbn [ets_step]; unfold db_get_tree, db_member_tree, db_get_element_tree;
    destruct (find_node_ok tb key Hok Hb) as (this & tb' & -> & Hthis & Hsame); cbn [mbind option_bind];
    destruct (around tb (ets_key key) (proj1 Hok)) as (A & B & _ & _ & _ & _ & _ & Ee & _); rewrite <- Hthis in Ee; destruct this as [|l a b r]; cbn [node_of option_list] in Ee.
  1-4: apply read_step; [done..|]; cbn [spec_step]; by rewrite Ee.
  - apply read_step; [done..|]. cbn [spec_step]. by rewrite Ee.
  - destruct (n >? arityval (dbterm a)) eqn:E; cbn [mbind option_bind]; (apply read_step; [done..|]); cbn [spec_step]; rewrite Ee; cbn; by rewrite E.
Qed.

Lemma head_key_head (L : list (TreeDbTerm Obj)) : head_key L = key_or_EOT (head (dbterm <$> L)).
Proof. by destruct L. Qed.

Lemma fmap_rev (L : list (TreeDbTerm Obj)) : dbterm <$> rev L = rev (dbterm <$> L).
Proof. apply List.map_rev. Qed.

Lemma head_rev {A} (L : list A) : head (rev L) = last L.
Proof. induction L as [|x L _] using rev_ind; [done|]. by rewrite rev_app_distr, last_snoc. Qed.

Lemma end_steps tb (d other : bool) : table_ok tb → let op := if d then EFirst other else ELast other in step_ok tb op (ets_step tb op).
Proof.
  intros Hok op. destruct (db_end_ok d (set_busy other tb) Hok) as (tb' & E & Hsame). cbn [root set_busy] in E.
  destruct d; subst op; cbn [ets_step]; unfold db_first_tree, db_last_tree; rewrite E; cbn [mbind option_bind];
    (eapply shared_step; [done..|]); cbn [spec_step]; rewrite head_key_head; cbn [elems_d]; [done|]. rewrite fmap_rev, head_rev. done.
Qed.

Lemma adjacent_steps tb (d other : bool) key : table_ok tb → let op := if d then ENext other key else EPrev other key in step_ok tb op (ets_step tb op).
Proof.
  intros Hok op. destruct (is_EOT key) eqn:EE.
  { destruct d; subst op; cbn [ets_step]; unfold db_next_tree, db_prev_tree, db_adjacent_tree; rewrite EE; cbn [mbind option_bind];
      (eapply (shared_step _ _ other); [done|by split|]); cbn [spec_step]; by rewrite EE. }
  destruct (around tb (ets_key key) (proj1 Hok)) as (A & B & He & HA & HM & HB & El & _ & Eg). cbv zeta in *. set (M := option_list _) in *.
  assert (∃ pre, key_split d (ets_key key) (root tb) pre (if d then B else rev A)) as [pre Hk].
  { assert (∀ e a, below nkey ets_cmp (ets_key key) a ∨ nkey a = ets_key key → e = true → ¬ after e (ets_key key) a) as Hlow.
    { intros e a [Ha|Ha] ->; [by apply before_not_after|by apply same_not_after]. }
    destruct d.
    - exists (A ++ M). split; [cbn; by rewrite He, app_assoc|]. split; [|done]. apply Forall_app. split; (eapply Forall_impl; [eassumption|]); intros a Ha; apply Hlow; auto.
    - exists (rev (M ++ B)). split; [cbn; by rewrite He, rev_app_distr|]. split; [|by apply Forall_rev]. apply Forall_rev, Forall_app.
      split; (eapply Forall_impl; [eassumption|]); intros a Ha; [by apply same_not_after|by apply (before_not_after false)]. }
  destruct (db_adjacent_ok d (set_busy other tb) key pre _ Hok EE Hk) as (tb' & E & Hsame).
  destruct d; subst op; cbn [ets_step]; unfold db_next_tree, db_prev_tree; rewrite E; cbn [mbind option_bind];
    (eapply shared_step; [done..|]); cbn [spec_step]; rewrite EE, head_key_head; [by rewrite Eg|]. by rewrite El, fmap_rev, head_rev.
Qed.

Lemma slot_step_ok tb other n : table_ok tb → step_ok tb (ESlot other n) (ets_step tb (ESlot other n)).
Proof.
  intros Hok. pose proof Hok as (Htree & _ & Hni & Hmax). cbn [ets_step]. unfold db_slot_tree.
  assert (NITEMS (set_busy other tb) = zlen (objs tb)) as Hni'.
  { unfold NITEMS. cbn [nitems set_busy]. rewrite int32_small by (unfold INT_MAX in *; lia). unfold objs. by rewrite length_fmap. }
  rewrite Hni'. assert (∀ r, spec_step (objs tb) (ESlot other n) = (r, objs tb) → (if (n <? 0) || (n >? zlen (objs tb)) then RSlot DB_ERROR_BADPARAM (inr [])
       else match objs tb !! Z.to_nat n with Some o => RSlot DB_ERROR_NONE (inr [o]) | None => RSlot DB_ERROR_NONE (inl tt) end) = r) as Hspec by (cbn [spec_step]; by intros r [= ->]).
  destruct ((n <? 0) || (n >? zlen (objs tb))) eqn:Erng.
  { cbn [mbind option_bind]. eapply (shared_step _ _ other); [done|by split|]. cbn [spec_step]. by rewrite Erng. }
  destruct (Z.eqb_spec n (zlen (objs tb))) as [->|Hne].
  { cbn [mbind option_bind]. eapply (shared_step _ _ other); [done|by split|]. cbn [spec_step]. rewrite Erng. by rewrite lookup_ge_None_2 by lia. }
  assert (∃ y, elems (root tb) !! Z.to_nat n = Some y) as [y Hy].
  { apply lookup_lt_is_Some_2. unfold objs in *. rewrite length_fmap in *. lia. }
  destruct (slot_search_ok (set_busy other tb) (n + 1) y Hok) as (this & tb' & -> & Hthis & Hsame); [lia|by replace (Z.to_nat (n + 1 - 1)) with (Z.to_nat n) by lia|].
  cbn [mbind option_bind]. destruct this as [|l a b r]; [done|]. injection Hthis as ->. cbn [mbind option_bind]. eapply shared_step; [done..|]. cbn [spec_step]. rewrite Erng.
  unfold objs. by rewrite list_lookup_fmap, Hy.
Qed.

Lemma update_step tb key f resize : table_ok tb → is_stack_busy tb = false → (∀ o, okey (f o) = okey o) →
  step_ok tb (EUpdate key f resize) (ets_step tb (EUpdate key f resize)).
Proof.
  intros Hok Hb Hf. pose proof Hok as (Htree & _ & Hni & _). cbn [ets_step].
  destruct (around tb (ets_key key) Htree) as (A & B & He & HA & HM & HB & El & Ee & Eg). cbv zeta in *.
  pose proof (find_node2_ok (root tb) key []) as Hfind. fold (db_lookup_dbterm_tree tb key) in Hfind.
  destruct (db_lookup_dbterm_tree tb key) as [h|] eqn:Eh.
  - destruct Hfind as [_ Hl]. rewrite Hl in *. cbn [option_list app] in *.
    assert (nkey (h_node h) = ets_key key) as Hk by (apply lookup_elem in Hl as [_ ?]; [done|apply _|apply Htree]).
    destruct (finalize_ok tb key h (f (dbterm (h_node h))) resize (fresh tb) Hok Eh) as (A' & B' & new & Hok' & Hb' & He1 & He2 & Hnew); [by rewrite <- Hk; apply Hf|apply fresh_ok|].
    cbv zeta in *. assert (A' = A ∧ B' = B) as [-> ->].
    { rewrite He in He1. symmetry in He1. apply split_unique in He1; [done|]. rewrite He1, <- He. apply Htree. }
    eexists _, _. split; [done|]. split; [done|]. split; [congruence|]. pose proof Hok' as (_ & _ & Hn' & _). rewrite Hn', Hni, He1, He2, !length_app. split; [|cbn; lia].
    cbn [spec_step]. rewrite Ee, El, Eg. cbn. f_equal. unfold objs. rewrite He2, fmap_app, fmap_cons. by rewrite Hnew.
  - rewrite Hfind in Ee. cbn in Ee. apply read_step; [done..|by split|]. cbn [spec_step]. by rewrite Ee.
Qed.

Lemma delete_all_step tb : table_ok tb → step_ok tb EDeleteAll (ets_step tb EDeleteAll).
Proof.
  intros Hok. pose proof Hok as (_ & _ & Hn & _). cbn [ets_step]. unfold db_delete_all_objects_tree.
  destruct (free_table_ok (Z.to_nat (nitems tb / DELETE_RECORD_LIMIT + 1)) tb Hok) as (freed & -> & _).
  { unfold DELETE_RECORD_LIMIT. Z.to_euclidean_division_equations. lia. }
  cbn [mbind option_bind]. eexists _, _. split; [done|]. split; [|split; [done|split; [done|cbn; lia]]]. apply (new_table db_create_tree Leaf 0); try done.
  - exists 0. constructor.
  - constructor.
  - constructor.
Qed.

Lemma ets_step_ok tb op : table_ok tb → nitems tb < INT_MAX → is_stack_busy tb = false → op_ok op → step_ok tb op (ets_step tb op).
Proof.
  intros Hok Hn Hb Hop. pose proof (get_steps tb op Hok Hb) as Hget. destruct op as [o clash|key|key|key n|key|o|other|other|other key|other key|other n|key f resize|]; try exact Hget.
  - by apply put_step.
  - by apply erase_step.
  - by apply erase_object_step.
  - by apply (end_steps tb true).
  - by apply (end_steps tb false).
  - by apply (adjacent_steps tb true).
  - by apply (adjacent_steps tb false).
  - by apply slot_step_ok.
  - by apply update_step.
  - by apply delete_all_step.
Qed.

Lemma ets_run_ok ops : ∀ tb, table_ok tb → is_stack_busy tb = false → Forall op_ok ops → nitems tb + zlen ops ≤ INT_MAX → ∃ rs tb',
  ets_run tb ops = Some (rs, tb') ∧ table_ok tb' ∧ is_stack_busy tb' = false ∧ spec_run (objs tb) ops = (rs, objs tb').
Proof.
  induction ops as [|op ops IH]; intros tb Hok Hb Hops Hn; cbn [ets_run spec_run]; [by exists [], tb|].
  apply Forall_cons in Hops as [Hop Hops]. cbn [length] in Hn. destruct (ets_step_ok tb op Hok ltac:(lia) Hb Hop) as (r & tb1 & -> & Hok1 & Hb1 & -> & Hn1).
  cbn [mbind option_bind]. destruct (IH tb1 Hok1 Hb1 Hops ltac:(lia)) as (rs & tb2 & -> & Hok2 & Hb2 & ->). cbn [mbind option_bind]. by exists (r :: rs), tb2.
Qed.

Lemma create_ok : table_ok (db_create_tree : DbTableTree Obj).
Proof.
  apply (new_table db_create_tree Leaf 0); try done; [exists 0; constructor|constructor|constructor].
Qed.

(** ** The checks of the debug build *)

Lemma check_tree_avl (t : tree (TreeDbTerm Obj)) h : avl t h → check_table_tree t = (h, true).
Proof.
  induction 1 as [|l a b r hl hr Hl IHl Hr IHr Hb Hb1]; cbn [check_table_tree]; [done|]. rewrite IHl, IHr. cbn [andb].
  rewrite (proj2 (Z.eqb_eq (hr - hl) b)) by done. destruct (Z.gtb_spec hr hl); f_equal; lia.
Qed.

Lemma check_path_ok stk : ∀ (t cur l : tree (TreeDbTerm Obj)) x b r, uniq t → t = foldl (λ t f, plug f t) cur stk → cur = Node l x b r →
  ∃ p arr, rev (addr x :: (faddr <$> stk)) = p :: arr ∧ points_to t p = true ∧ check_path t arr = true.
Proof.
  induction stk as [|f stk IH] using rev_ind; intros t cur l x b r Hu Ht Hcur.
  - subst. exists (addr x), []. cbn. by rewrite Z.eqb_refl.
  - rewrite foldl_app in Ht. cbn [foldl] in Ht. set (sub := foldl (λ t f, plug f t) cur stk) in *.
    assert (uniq sub) as Hu' by (apply (uniq_sub [f]); cbn; by rewrite <- Ht).
    destruct (IH sub cur l x b r Hu' eq_refl Hcur) as (p & arr & Hrev & Hpt & Hpath).
    exists (faddr f), (p :: arr). rewrite fmap_app, app_comm_cons. change (faddr <$> [f]) with [faddr f]. rewrite rev_unit, Hrev. split; [done|].
    rewrite Ht in Hu |- *. destruct f as [a b' r'|l' a b']; cbn [plug points_to faddr check_path] in *; rewrite Z.eqb_refl; (split; [done|]).
    + by rewrite Hpt.
    + apply (sibling_apart _ _ _ _ p) in Hu as [_ Hu]. by rewrite (Hu Hpt), Hpt.
Qed.

Lemma traverse_until_ok (t : tree (TreeDbTerm Obj)) : ∀ c to, c < to → traverse_until t c to =
  match elems t !! Z.to_nat (to - c - 1) with Some a => (Some a, to) | None => (None, c + zlen (elems t)) end.
Proof.
  induction t as [|l IHl a b r IHr]; intros c to Hc; cbn [traverse_until elems]; [f_equal; cbn; lia|]. rewrite IHl by done.
  destruct (elems l !! Z.to_nat (to - c - 1)) as [y|] eqn:E.
  - by rewrite (lookup_app_l_Some _ _ _ _ E).
  - apply lookup_ge_None_1 in E. rewrite lookup_app_r by done. destruct (Z.eqb_spec (c + zlen (elems l) + 1) to) as [<-|Hne].
    + replace (Z.to_nat (c + zlen (elems l) + 1 - c - 1) - length (elems l))%nat with 0%nat by lia. done.
    + rewrite IHr by lia. rewrite lookup_cons_ne_0 by lia. replace (pred (Z.to_nat (to - c - 1) - length (elems l))) with (Z.to_nat (to - (c + zlen (elems l) + 1) - 1)) by lia.
      rewrite length_app. cbn [length]. destruct (elems r !! _); [done|]. f_equal. lia.
Qed.

Lemma check_ok tb : table_ok tb → db_check_table_tree tb = true.
Proof.
  intros ((Hu & (h & Ha & _) & _) & Hs & _). unfold db_check_table_tree. rewrite (check_tree_avl _ _ Ha). cbn [andb snd].
  destruct Hs as [Es|(this & x & (stk & l & b & r & Hthis & Hr & Harr) & Hp)]; [unfold check_saved_stack, check_slot_pos; by rewrite Es|].
  unfold check_saved_stack, check_slot_pos. rewrite Harr.
  destruct (check_path_ok stk (root tb) this l x b r Hu Hr Hthis) as (p & arr & -> & Hpt & Hpath). rewrite Hpt, Hpath. cbn [andb].
  destruct Hp as [->|(pre & post & He & Hsl)]; [done|]. rewrite Hsl, (proj2 (Z.eqb_neq (zlen pre + 1) 0)) by lia. rewrite traverse_until_ok by lia.
  replace (Z.to_nat (zlen pre + 1 - 0 - 1)) with (length pre) by lia. rewrite He, list_lookup_middle by done. cbn. apply Z.eqb_refl.
Qed.

(** ** Properties *)

(** C6: An ordered ETS table implements an ordered list of objects with different keys.  Any sequence of at most [INT_MAX] insertions (with and without the
    failure on an existing key), lookups, deletions by key and by object, updates in place, [first], [last], [next], [prev] and
    [slot] calls (each also while another reader holds the saved stack) and deletions of all objects runs without undefined behaviour (no
    freed node is followed, no stack overflows) and returns what the list gives: [next] the least key that is greater, [slot] the object at
    the position, and so on, whatever path the previous calls left on the saved stack. *)
Theorem ets_refines_ordered_list ops : Forall op_ok ops → zlen ops ≤ INT_MAX → ∃ rs tb,
  ets_run db_create_tree ops = Some (rs, tb) ∧ spec_run [] ops = (rs, objs tb) ∧
  StronglySorted (λ o o', ets_cmp (okey o) (okey o') < 0) (objs tb).
Proof.
  intros Hops Hn. destruct (ets_run_ok ops db_create_tree create_ok eq_refl Hops) as (rs & tb & E & Hok & _ & Hs); [cbn; lia|].
  exists rs, tb. split; [done|]. split; [exact Hs|]. destruct Hok as ((_ & _ & Ho) & _). unfold ordered_tree, ordered in Ho. unfold objs.
  induction Ho as [|a l Hl IH Ha]; [constructor|]. rewrite fmap_cons. constructor; [done|]. apply Forall_fmap. eapply Forall_impl; [exact Ha|]. done.
Qed.

(** In every table that such a sequence reaches, a traversal calls its callback on the objects in order (descending, backwards) until the callback says
    stop, from the start or from the objects after a given key, starting from whatever is on the saved stack, in at most as
    many rounds as there are objects; and a search from a partly bound key finds the first object that the key does not pass. *)
Lemma ets_traversal_in_order ops rs tb : Forall op_ok ops → zlen ops ≤ INT_MAX → ets_run db_create_tree ops = Some (rs, tb) →
  (∀ (C : Type) d lastkey (doit : TreeDbTerm Obj → C → bool * C) ctx, ∃ nodes stack',
     dbterm <$> nodes = (match lastkey, d with
                         | None, true => objs tb
                         | None, false => rev (objs tb)
                         | Some key, true => greater (ets_key key) (objs tb)
                         | Some key, false => rev (less (ets_key key) (objs tb))
                         end) ∧
     traverse (length (objs tb)) d tb (static_stack tb) lastkey doit ctx = Some (stack', visit doit nodes ctx)) ∧
  (∀ d pb, (∀ pre x post, elems_d d (root tb) = pre ++ x :: post →
              (passes d pb x → Forall (passes d pb) pre) ∧ (¬ passes d pb x → Forall (λ a, ¬ passes d pb a) post)) →
     ∃ this stack' pre post, find_from_pb_key d tb pb = Some (this, stack') ∧ elems_d d (root tb) = pre ++ post ∧
       Forall (passes d pb) pre ∧ Forall (λ a, ¬ passes d pb a) post ∧ node_of this = head post).
Proof.
  intros Hops Hn E. destruct (ets_run_ok ops db_create_tree create_ok eq_refl Hops) as (rs' & tb' & E' & Hok & _ & _); [cbn; lia|].
  rewrite E in E'. injection E' as <- <-. pose proof Hok as (Htree & Hs & _). split.
  - intros C d lastkey doit ctx. assert (∃ pre post, match lastkey with None => pre = [] ∧ post = elems_d d (root tb) | Some key => key_split d (ets_key key) (root tb) pre post end ∧
      dbterm <$> post = (match lastkey, d with None, true => objs tb | None, false => rev (objs tb)
        | Some key, true => greater (ets_key key) (objs tb) | Some key, false => rev (less (ets_key key) (objs tb)) end) ∧ (length post ≤ length (objs tb))%nat) as (pre & post & Hp & Hmap & Hlen).
    { unfold objs. destruct lastkey as [key|].
      - destruct (around tb (ets_key key) Htree) as (A & B & He & HA & HM & HB & El & _ & Eg). cbv zeta in *. set (M := option_list _) in *. fold (objs tb).
        destruct d; [exists (A ++ M), B|exists (rev (M ++ B)), (rev A)].
        + split; [|split; [by rewrite Eg|unfold objs; rewrite length_fmap, He, !length_app; lia]]. split; [cbn; by rewrite He, app_assoc|]. split; [|done].
          apply Forall_app. split; (eapply Forall_impl; [eassumption|]); intros a Ha; [by apply (before_not_after true)|by apply same_not_after].
        + split; [|split; [by rewrite fmap_rev, El|unfold objs; rewrite length_fmap, He, !length_app, length_rev; lia]]. split; [cbn; by rewrite He, rev_app_distr|].
          split; [|by apply Forall_rev]. apply Forall_rev, Forall_app. split; (eapply Forall_impl; [eassumption|]); intros a Ha; [by apply same_not_after|by apply (before_not_after false)].
      - exists [], (elems_d d (root tb)). rewrite length_fmap. split; [done|]. split; [destruct d; cbn; [done|apply fmap_rev]|]. rewrite elems_d_perm. lia. }
    destruct (traverse_ok d tb doit (static_stack tb) lastkey ctx (length (objs tb)) pre post Htree Hs Hp Hlen) as (stack' & -> & _). eauto.
  - intros d pb Hmono. unfold find_from_pb_key. destruct (root tb) as [|l a b r] eqn:Er.
    { eexists _, _, [], []. split; [done|]. split; [by destruct d|]. split_and!; constructor. }
    rewrite <- Er in *. destruct (pb_search_ok d tb pb Htree Hmono (root tb) []) as (this & arr & pre & post & Epb & He & H1 & H2 & _ & Hf); [done|by rewrite Er|by destruct d|by destruct d|].
    change (faddr <$> []) with ([] : list Z) in Epb. rewrite Epb. cbn [mbind option_bind]. eexists _, _, pre, post. split_and!; try done.
    destruct post; [by subst|]. by destruct Hf as (? & ? & ? & ->).
Qed.

(** Every table that such a sequence reaches passes the debug check (balance numbers, saved stack, slot position), is not higher than the 50 slots of
    the stacks, and is freed by a bounded number of calls that hand every node to [free_term] exactly once, at most 12000 nodes per
    call. *)
Lemma ets_checks_and_freeing ops rs tb : Forall op_ok ops → zlen ops ≤ INT_MAX → ets_run db_create_tree ops = Some (rs, tb) →
  db_check_table_tree tb = true ∧ height_ok (root tb) ∧
  (∀ calls, nitems tb < DELETE_RECORD_LIMIT * Z.of_nat calls → ∃ freed, db_free_table_tree calls tb = Some freed ∧ freed ≡ₚ elems (root tb)) ∧
  (∀ (stk : list (tree (TreeDbTerm Obj))) freed, fits stk → ∃ res stk' fr,
     do_free_tree_cont (Z.to_nat DELETE_RECORD_LIMIT) stk freed = Some (res, stk', freed ++ fr) ∧ fr ++ stack_elems stk' ≡ₚ stack_elems stk ∧
     fits stk' ∧ Z.of_nat (length fr) ≤ DELETE_RECORD_LIMIT ∧ if res : bool then stk' = [] else Z.of_nat (length fr) = DELETE_RECORD_LIMIT).
Proof.
  intros Hops Hn E. destruct (ets_run_ok ops db_create_tree create_ok eq_refl Hops) as (rs' & tb' & E' & Hok & _ & _); [cbn; lia|].
  rewrite E in E'. injection E' as <- <-. split; [by apply check_ok|]. split; [apply Hok|]. split; [intros calls Hc; by apply free_table_ok|].
  intros stk freed Hst. destruct (do_free_ok (Z.to_nat DELETE_RECORD_LIMIT) stk freed) as (res & stk' & fr & Hd & HP & Hf & Hle & Hres); [unfold DELETE_RECORD_LIMIT; lia|done|].
  exists res, stk', fr. split; [done|]. split; [done|]. split; [done|]. unfold DELETE_RECORD_LIMIT in *. split; [lia|]. destruct res; [done|]. rewrite Hres. lia.
Qed.

(** C22: In every table that a sequence of at most [INT_MAX] operations reaches, a traversal calls its callback on the objects in order
    (descending, backwards) until the callback says stop, from the start or from the objects after a given key, starting from whatever is on the
    saved stack, in at most as many rounds as there are objects; and a search from a partly bound key finds the first object that the
    key does not pass.  Such a table passes the debug check (balance numbers, saved stack, slot position), is not higher than the 50
    slots of the stacks, and is freed by a bounded number of calls that hand every node to [free_term] exactly once: a call frees at most
    12000 nodes, exactly 12000 when it says that there is more to do, and when it says that it is done nothing is left. *)
Theorem ets_traversal_and_freeing ops rs tb : Forall op_ok ops → zlen ops ≤ INT_MAX → ets_run db_create_tree ops = Some (rs, tb) →
  (∀ (C : Type) d lastkey (doit : TreeDbTerm Obj → C → bool * C) ctx, ∃ nodes stack',
     dbterm <$> nodes = (match lastkey, d with
                         | None, true => objs tb
                         | None, false => rev (objs tb)
                         | Some key, true => greater (ets_key key) (objs tb)
                         | Some key, false => rev (less (ets_key key) (objs tb))
                         end) ∧
     traverse (length (objs tb)) d tb (static_stack tb) lastkey doit ctx = Some (stack', visit doit nodes ctx)) ∧
  (∀ d pb, (∀ pre x post, elems_d d (root tb) = pre ++ x :: post →
              (passes d pb x → Forall (passes d pb) pre) ∧ (¬ passes d pb x → Forall (λ a, ¬ passes d pb a) post)) →
     ∃ this stack' pre post, find_from_pb_key d tb pb = Some (this, stack') ∧ elems_d d (root tb) = pre ++ post ∧
       Forall (passes d pb) pre ∧ Forall (λ a, ¬ passes d pb a) post ∧ node_of this = head post) ∧
  db_check_table_tree tb = true ∧ height_ok (root tb) ∧
  (∀ calls, nitems tb < DELETE_RECORD_LIMIT * Z.of_nat calls → ∃ freed, db_free_table_tree calls tb = Some freed ∧ freed ≡ₚ elems (root tb)) ∧
  (∀ (stk : list (tree (TreeDbTerm Obj))) freed, fits stk → ∃ res stk' fr,
     do_free_tree_cont (Z.to_nat DELETE_RECORD_LIMIT) stk freed = Some (res, stk', freed ++ fr) ∧ fr ++ stack_elems stk' ≡ₚ stack_elems stk ∧
     fits stk' ∧ Z.of_nat (length fr) ≤ DELETE_RECORD_LIMIT ∧ if res : bool then stk' = [] else Z.of_nat (length fr) = DELETE_RECORD_LIMIT).
Proof.
  intros Hops Hn E. destruct (ets_traversal_in_order ops rs tb Hops Hn E) as [H1 H2]. split; [exact H1|]. split; [exact H2|]. by apply (ets_checks_and_freeing ops rs).
Qed.

(** A lookup while another reader has the static stack releases a stack that it does not have. *)
Lemma find_node_busy tb key : is_stack_busy tb = true → find_node tb key = None.
Proof. intros Hb. unfold find_node, get_static_stack. by rewrite Hb. Qed.

(** With more than [INT_MAX] objects, which the limit on the number of objects allows, every slot number is refused. *)
Lemma slot_refused tb n : INT_MAX < nitems tb < TREE_MAX_ELEMENTS → 0 ≤ n → db_slot_tree tb n = Some (DB_ERROR_BADPARAM, inr [], tb).
Proof.
  intros Hn H0. unfold db_slot_tree, NITEMS, wrap_s, INT_MAX, TREE_MAX_ELEMENTS in *. change (2 ^ (32 - 1)) with 2147483648. change (2 ^ 32) with 4294967296.
  assert ((nitems tb + 2147483648) mod 4294967296 = nitems tb - 2147483648) as -> by (symmetry; apply Z.mod_unique with 1; lia).
  rewrite (proj2 (Z.gtb_lt _ _)) by lia. by rewrite orb_true_r.
Qed.
End Sequences.

(** * A concrete instance: pairs of integers, with the first component as key *)
Module Instances.
#[export] Instance pair_terms : DbTerms (Z * Z) Z Z :=
  {| GETKEY := fst; ets_key := id; ets_cmp := Z.sub; am_EOT := -1; is_EOT := Z.eqb (-1); arityval := λ _, 2;
     element := λ o i, if i =? 1 then o.1 else o.2 |}.
#[export] Instance pair_term_laws : DbTermLaws (Z * Z) Z Z.
Proof. split. split; cbn; lia. Qed.

Lemma max_fresh (l : list Z) : foldr Z.max 0 l + 1 ∉ l.
Proof.
  intros Hin. assert (∀ x, x ∈ l → x ≤ foldr Z.max 0 l) as Hmax; [|apply Hmax in Hin; lia].
  clear Hin. intros x Hx. induction l as [|y l IH]; [by apply elem_of_nil in Hx|]. apply elem_of_cons in Hx as [->|Hx]; cbn; [lia|]. specialize (IH Hx). lia.
Qed.
#[export] Instance next_alloc : NodeAlloc := {| new_addr := λ l, foldr Z.max 0 l + 1; new_addr_fresh := max_fresh |}.

Definition ops1 : list (ets_op (Obj := Z * Z) (T := Z)) := [EPut (2, 20) false; EPut (1, 10) true; ENext false 1; EUpdate 2 (λ o, (o.1, 21)) false].

Lemma ops1_ok : Forall op_ok ops1.
Proof. repeat constructor. Qed.

Lemma ets_refines_ordered_list_witness : ∃ rs tb,
  ets_run db_create_tree ops1 = Some (rs, tb) ∧ spec_run [] ops1 = (rs, objs tb) ∧ StronglySorted (λ o o', ets_cmp (okey o) (okey o') < 0) (objs tb).
Proof. apply (ets_refines_ordered_list ops1); [exact ops1_ok|cbv; congruence]. Defined.

Lemma ets_traversal_and_freeing_witness : ∃ rs tb, ets_run db_create_tree ops1 = Some (rs, tb) ∧
  (∃ nodes stack', dbterm <$> nodes = objs tb ∧
    traverse (length (objs tb)) true tb (static_stack tb) None (λ a n, (true, n + (dbterm a).2)) 0 = Some (stack', visit (λ a n, (true, n + (dbterm a).2)) nodes 0)) ∧
  db_check_table_tree tb = true.
Proof.
  eexists _, _. split; [reflexivity|]. split.
  - apply (proj1 (ets_traversal_and_freeing ops1 _ _ ops1_ok ltac:(cbv; congruence) eq_refl) Z true None).
  - apply (proj2 (ets_traversal_and_freeing ops1 _ _ ops1_ok ltac:(cbv; congruence) eq_refl)).
Defined.
End Instances.
