(* ===== verification/Grouped.v ===== *)
(** Lists in which equal keys stand together, and equality of lists up to the order between different keys: what the
    order of objects in a hashed ETS table is specified with. *)

From Stdlib Require Import Lia.
From stdpp Require Import base list option sets.

(** * Runs of equal elements *)
Section Destutter.
Context {K : Type} `{EqDecision K}.
Implicit Types (l pre post : list K) (k : K).

(** One element for each run of equal elements *)
Fixpoint destutter l : list K :=
  match l with
  | [] => []
  | x :: l' => if bool_decide (head l' = Some x) then destutter l' else x :: destutter l'
  end.

Lemma elem_of_destutter k l : k ∈ destutter l ↔ k ∈ l.
Proof.
  induction l as [|x l IH]; [done|]. cbn [destutter]. case_bool_decide as E; set_unfold; [|naive_solver].
  destruct l; simplify_eq/=. set_solver.
Qed.

Lemma destutter_NoDup l : NoDup l → destutter l = l.
Proof.
  induction 1 as [|x l Hx Hl IH]; [done|]. cbn. rewrite bool_decide_eq_false_2; [by rewrite IH|].
  destruct l; [done|]. intros [= ->]. set_solver.
Qed.

Lemma destutter_app pre post : (∀ k, last pre = Some k → head post ≠ Some k) → destutter (pre ++ post) = destutter pre ++ destutter post.
Proof.
  induction pre as [|x pre IH]; intros Hl; [done|]. destruct pre as [|y pre].
  - cbn. case_bool_decide as E; [by destruct (Hl x)|done].
  - cbn [app] in *. assert (∀ k, last (y :: pre) = Some k → head post ≠ Some k) as Hl' by (intros k ?; by apply Hl).
    change (destutter (x :: y :: pre ++ post)) with (if bool_decide (Some y = Some x) then destutter (y :: pre ++ post) else x :: destutter (y :: pre ++ post)).
    change (destutter (x :: y :: pre)) with (if bool_decide (Some y = Some x) then destutter (y :: pre) else x :: destutter (y :: pre)).
    rewrite IH by done. by case_bool_decide.
Qed.

Lemma destutter_replicate n k : destutter (replicate (S n) k) = [k].
Proof. induction n as [|n IH]; [done|]. change (replicate (S (S n)) k) with (k :: replicate (S n) k). cbn [destutter]. by rewrite bool_decide_eq_true_2. Qed.

Lemma last_elem l k : last l = Some k → k ∈ l.
Proof. intros (l' & ->)%last_Some. set_solver. Qed.

Lemma head_elem l k : head l = Some k → k ∈ l.
Proof. destruct l; intros; simplify_eq/=. set_solver. Qed.

Lemma destutter_run pre n k post : k ∉ pre → k ∉ post → destutter (pre ++ replicate (S n) k ++ post) = destutter pre ++ k :: destutter post.
Proof.
  intros Hpre Hpost. rewrite destutter_app by (intros k' Hk'%last_elem [= ->]; done). f_equal.
  rewrite destutter_app, destutter_replicate; [done|]. intros k' Hk' Hh%head_elem. apply last_elem in Hk'.
  apply elem_of_replicate in Hk' as [-> _]. done.
Qed.

(** Elements of a run, and runs *)
Definition grouped l : Prop := NoDup (destutter l).

Lemma grouped_NoDup l : NoDup l → grouped l.
Proof. unfold grouped. intros. by rewrite destutter_NoDup. Qed.

Lemma grouped_cons x l : grouped (x :: l) → grouped l.
Proof. unfold grouped. cbn. case_bool_decide; [done|]. by intros [_ ?]%NoDup_cons. Qed.

(** The run of a key *)
Lemma grouped_split l k : grouped l → ∃ pre n post, l = pre ++ replicate n k ++ post ∧ k ∉ pre ∧ k ∉ post ∧ (n = 0 → post = []).
Proof.
  induction l as [|x l IH]; intros Hg; [exists [], 0, []; cbn; split_and!; set_solver|].
  destruct (IH (grouped_cons _ _ Hg)) as (pre & n & post & -> & Hpre & Hpost & Hn).
  destruct (decide (x = k)) as [->|Hx]; [|exists (x :: pre), n, post; split_and!; [done|set_solver|done|done]].
  destruct pre as [|y pre]; [exists [], (S n), post; split_and!; [done|set_solver|done|done]|].
  destruct n as [|n]; [exists [], 1, (y :: pre ++ post); cbn; split_and!; [done|set_solver|set_solver|done]|].
  exfalso. unfold grouped in Hg. cbn in Hg. rewrite bool_decide_eq_false_2 in Hg by set_solver.
  apply NoDup_cons in Hg as [Hk _]. apply Hk. change (if bool_decide (head (pre ++ k :: replicate n k ++ post) = Some y)
    then destutter (pre ++ k :: replicate n k ++ post) else y :: destutter (pre ++ k :: replicate n k ++ post)) with (destutter (y :: pre ++ k :: replicate n k ++ post)).
  apply elem_of_destutter. set_solver.
Qed.

Lemma destutter_app_sublist pre post : destutter (pre ++ post) `sublist_of` destutter pre ++ destutter post.
Proof.
  induction pre as [|x pre IH]; [done|]. cbn [destutter app]. repeat case_bool_decide; cbn [app].
  - done.
  - by apply sublist_cons.
  - destruct pre; simplify_eq/=.
  - by apply sublist_skip.
Qed.

Lemma sublist_destutter l : destutter l `sublist_of` l.
Proof. induction l as [|x l IH]; [done|]. cbn. case_bool_decide; [by apply sublist_cons|by apply sublist_skip]. Qed.

(** Changing the length of a run *)
Lemma destutter_run_sublist pre n m k post :
  k ∉ pre → k ∉ post → (n = 0 ∨ 0 < m) → grouped (pre ++ replicate n k ++ post) →
  destutter (pre ++ replicate n k ++ post) `sublist_of` destutter (pre ++ replicate m k ++ post).
Proof.
  intros Hpre Hpost [->|Hm] Hg.
  - destruct m as [|m]; [done|]. rewrite destutter_run by done. cbn. etrans; [apply destutter_app_sublist|].
    apply sublist_app; [done|by apply sublist_cons].
  - destruct m as [|m]; [lia|]. rewrite destutter_run by done. destruct n as [|n]; [|by rewrite destutter_run].
    cbn. etrans; [apply destutter_app_sublist|]. apply sublist_app; [done|by apply sublist_cons].
Qed.

Lemma grouped_run pre n m k post :
  k ∉ pre → k ∉ post → (n = 0 → post = []) → grouped (pre ++ replicate n k ++ post) → grouped (pre ++ replicate m k ++ post).
Proof.
  intros Hpre Hpost Hn Hg. assert (NoDup (destutter pre ++ destutter post)) as Hnd.
  { unfold grouped in Hg. destruct n as [|n].
    - rewrite Hn, !app_nil_r in Hg by done. by rewrite Hn, app_nil_r.
    - rewrite destutter_run in Hg by done. eapply sublist_NoDup; [exact Hg|]. apply sublist_app; [done|by apply sublist_cons]. }
  unfold grouped. destruct m as [|m]; [eapply sublist_NoDup; [exact Hnd|apply destutter_app_sublist]|].
  rewrite destutter_run by done. apply NoDup_app in Hnd as (H1 & H2 & H3). apply NoDup_app. split; [done|].
  rewrite NoDup_cons, elem_of_destutter. split; [|done].
  intros x Hx. rewrite elem_of_cons. intros [->|Hx']; [by apply Hpre, elem_of_destutter|by apply (H2 x)].
Qed.

Lemma grouped_head x l : grouped (x :: l) → ∃ n post, l = replicate n x ++ post ∧ x ∉ post.
Proof.
  intros (pre & n & post & E & Hpre & Hpost & Hn)%(λ H, grouped_split _ x H). destruct pre as [|y pre]; simplify_eq/=; [|set_solver].
  destruct n as [|n]; simplify_eq/=; [|eauto]. by specialize (Hn eq_refl).
Qed.

Lemma grouped_sublist l' l : l' `sublist_of` l → grouped l → grouped l'.
Proof.
  induction 1 as [|x l' l Hs IH|x l' l Hs IH]; intros Hg; [done| |by apply IH, (grouped_cons x)].
  specialize (IH (grouped_cons _ _ Hg)). unfold grouped. cbn. case_bool_decide as Hh; [done|]. rewrite NoDup_cons, elem_of_destutter. split; [|done].
  intros Hx. destruct (grouped_head _ _ Hg) as (n & post & -> & Hpost). apply sublist_app_r in Hs as (l1 & l2 & -> & H1 & H2).
  destruct l1 as [|y l1]; cbn in *; [by apply Hpost, (elem_of_sublist l2)|].
  assert (y ∈ replicate n x) as [-> _]%elem_of_replicate by (eapply elem_of_sublist; [|done]; set_solver). done.
Qed.

Lemma grouped_app l l' : grouped l → grouped l' → (∀ k, k ∈ l → k ∉ l') → grouped (l ++ l').
Proof.
  intros H H' Hd. unfold grouped. rewrite destutter_app; [|intros k Hk%last_elem Hk'%head_elem; by apply (Hd k)].
  apply NoDup_app. split; [done|]. split; [|done]. intros k. rewrite !elem_of_destutter. apply Hd.
Qed.

End Destutter.

(** * Equality up to the order between different keys *)
Section KeyEq.
Context {A K : Type} `{EqDecision K} (key : A → K).
Implicit Types (l : list A) (k : K).

Definition of_key k l : list A := filter (λ o, key o = k) l.

Definition key_eq l l' : Prop := ∀ k, of_key k l = of_key k l'.

#[export] Instance key_eq_equiv : Equivalence key_eq.
Proof. split; [done| |]; [intros ? ? H k; by rewrite H|intros ? ? ? H H' k; by rewrite H, H']. Qed.

Lemma of_key_app k l l' : of_key k (l ++ l') = of_key k l ++ of_key k l'.
Proof. apply filter_app. Qed.

Lemma of_key_all k l : Forall (λ o, key o = k) l → of_key k l = l.
Proof. induction 1 as [|o l Ho Hl IH]; [done|]. unfold of_key. rewrite filter_cons_True by done. by f_equal. Qed.

Lemma of_key_none k l : Forall (λ o, key o ≠ k) l → of_key k l = [].
Proof. induction 1 as [|o l Ho Hl IH]; [done|]. unfold of_key. by rewrite filter_cons_False. Qed.

#[export] Instance key_eq_app : Proper (key_eq ==> key_eq ==> key_eq) app.
Proof. intros l1 l1' H1 l2 l2' H2 k. by rewrite !of_key_app, H1, H2. Qed.

Lemma elem_of_key k l o : o ∈ of_key k l ↔ o ∈ l ∧ key o = k.
Proof. unfold of_key. rewrite list_elem_of_filter. tauto. Qed.

Lemma key_eq_elem l l' o : key_eq l l' → o ∈ l ↔ o ∈ l'.
Proof.
  intros H. assert (∀ l, o ∈ l ↔ o ∈ of_key (key o) l) as E by (intros; rewrite elem_of_key; tauto).
  rewrite (E l), (E l'). by rewrite H.
Qed.

(** Moving the first element with its key to the front *)
Lemma key_eq_front l l' x : key_eq (x :: l) l' → ∃ a b, l' = a ++ x :: b ∧ key_eq l (a ++ b).
Proof.
  intros H. assert (∀ l', of_key (key x) l' = x :: of_key (key x) l → ∃ a b, l' = a ++ x :: b ∧ Forall (λ o, key o ≠ key x) a) as Hsplit.
  { clear. induction l' as [|y l' IH]; [done|]. unfold of_key. destruct (decide (key y = key x)) as [E|E].
    - rewrite filter_cons_True by done. intros [= -> _]. by exists [], l'.
    - rewrite filter_cons_False by done. intros (a & b & -> & Ha)%IH. exists (y :: a), b. split; [done|]. by constructor. }
  destruct (Hsplit l') as (a & b & -> & Ha). { rewrite <- H. unfold of_key. by rewrite filter_cons_True. }
  exists a, b. split; [done|]. intros k. specialize (H k). rewrite of_key_app in H |- *. pose proof (of_key_none _ _ Ha) as E0.
  destruct (decide (key x = k)) as [<-|E].
  - rewrite E0 in H |- *. unfold of_key in H |- *. rewrite !filter_cons_True in H by done. by simplify_eq/=.
  - unfold of_key in H |- *. by rewrite !filter_cons_False in H by done.
Qed.

Lemma key_eq_perm l l' : key_eq l l' → l ≡ₚ l'.
Proof.
  revert l'. induction l as [|x l IH]; intros l' H.
  - destruct l' as [|y l']; [done|]. specialize (H (key y)). unfold of_key in H. by rewrite filter_cons_True in H.
  - destruct (key_eq_front _ _ _ H) as (a & b & -> & Hab). rewrite <- Permutation_middle. constructor. by apply IH.
Qed.

(** Functions that treat the keys separately *)
Lemma key_eq_filter (P : A → Prop) `{∀ x, Decision (P x)} l l' : key_eq l l' → key_eq (filter P l) (filter P l').
Proof.
  intros Heq k. unfold of_key. rewrite !list_filter_filter. specialize (Heq k). unfold of_key in Heq.
  assert (∀ l, filter (λ x, key x = k ∧ P x) l = filter (λ x, P x ∧ key x = k) l) as E by (intros; apply list_filter_iff; tauto).
  rewrite !E.
  rewrite <- !list_filter_filter. by rewrite Heq.
Qed.

Lemma key_eq_fmap (f : A → A) l l' : (∀ o, key (f o) = key o) → key_eq l l' → key_eq (f <$> l) (f <$> l').
Proof.
  intros Hf H k. unfold of_key. assert (∀ l, filter (λ o, key o = k) (f <$> l) = f <$> filter (λ o, key o = k) l) as E.
  { clear -Hf. induction l as [|x l IH]; [done|]. rewrite fmap_cons.
    destruct (decide (key x = k)); [rewrite !filter_cons_True by (by rewrite ?Hf)|rewrite !filter_cons_False by (by rewrite ?Hf)]; cbn; by rewrite IH. }
  rewrite !E. f_equal. apply H.
Qed.

End KeyEq.
