(* ===== verification/DbHash.v ===== *)
(** Hashed ETS tables: [erts/emulator/beam/erl_db_hash.c], linear hashing over segments of 256 buckets.

    A bucket is the list of its nodes, and a pointer into a bucket is the rest of the list from there on.  Segments are
    blocks with addresses; an extended segment also holds a segment table, and [segtab] points to the table of the extended
    segment that was allocated last.  A function that runs into undefined behaviour (a bucket without segment, an element
    outside of a tuple, an overflow of [int]) has the result [None].  A table operation runs under the lock of the table or
    of its bucket and is one step here; [grow], [shrink] and [db_unfix_table_hash], which other operations can
    precede, test [is_resizing], [nactive] and the fixation as the code does. *)

From Stdlib Require Import ZArith ZifyBool.
From stdpp Require Import base list numbers option gmap.
From S2P Require Import Prelude DbUtil.
Local Open Scope Z_scope.

(** Objects (tuples) and terms; [eq] and [EQ] are equality.  [hash] is the hash value of an atom or [make_hash2]. *)
Class DbHashTerms (Obj T : Type) := {
  GETKEY : Obj → T; hash : T → Z; am_EOT : T;
  arityval : Obj → Z; tpl : Obj → Z → option T }.

(** Whether the emulator is built with [ERTS_SMP] *)
Class DbHashConfig := { ERTS_SMP : bool }.

Definition CHAIN_LEN : Z := 6.
Definition SEGSZ_EXP : Z := 8.
Definition SEGSZ : Z := Z.shiftl 1 SEGSZ_EXP.
Definition SEGSZ_MASK : Z := SEGSZ - 1.
Definition NSEG_1 : Z := 1.
Definition NSEG_2 : Z := 256.
Definition NSEG_INC : Z := 128.
Definition DELETE_RECORD_LIMIT : Z := 10000.
Definition DB_HASH_LOCK_CNT : Z := 16.
Definition DB_HASH_LOCK_MASK : Z := DB_HASH_LOCK_CNT - 1.
Definition MAX_HASH : Z := 4026531839.
Definition INVALID_HASH : Z := 4294967295.

(** The bits of [common.status] that say which kind of hashed table it is *)
Inductive db_type := DB_SET | DB_BAG | DB_DUPLICATE_BAG.

#[export] Instance db_type_eq_dec : EqDecision db_type.
Proof. solve_decision. Defined.

(** A value computed in an [int] *)
Definition in_int (z : Z) : option Z := if z <=? INT_MAX then Some z else None.

Section DbHash.
Context {Obj T : Type} `{EqDecision Obj, EqDecision T, !DbHashTerms Obj T, !DbHashConfig}.

Record HashDbTerm := HDT { hvalue : Z; dbterm : Obj }.

(** [struct segment], or [struct ext_segment] with the table of segment pointers *)
Record segment := Seg { buckets : list (list HashDbTerm); last_segtab : option Z; ext_segtab : option (list (option Z)) }.

Record DbTableHash := Table {
  status : db_type; fixref : Z; nitems : Z;
  segtab : option Z; szm : Z; nslots : Z; nsegs : Z; fixdel : list Z; nactive : Z; is_resizing : bool;
  blocks : gmap Z segment }.

Implicit Types (tb : DbTableHash) (b q : HashDbTerm) (chain : list HashDbTerm) (key : T) (obj : Obj) (ix hval : Z).

Definition set_segs segtab nslots nsegs blocks tb : DbTableHash :=
  Table (status tb) (fixref tb) (nitems tb) segtab (szm tb) nslots nsegs (fixdel tb) (nactive tb) (is_resizing tb) blocks.
Definition set_active nactive szm tb : DbTableHash :=
  Table (status tb) (fixref tb) (nitems tb) (segtab tb) szm (nslots tb) (nsegs tb) (fixdel tb) nactive (is_resizing tb) (blocks tb).
Definition set_nitems n tb : DbTableHash :=
  Table (status tb) (fixref tb) n (segtab tb) (szm tb) (nslots tb) (nsegs tb) (fixdel tb) (nactive tb) (is_resizing tb) (blocks tb).
Definition set_fixdel l tb : DbTableHash :=
  Table (status tb) (fixref tb) (nitems tb) (segtab tb) (szm tb) (nslots tb) (nsegs tb) l (nactive tb) (is_resizing tb) (blocks tb).
Definition set_fixref n tb : DbTableHash :=
  Table (status tb) n (nitems tb) (segtab tb) (szm tb) (nslots tb) (nsegs tb) (fixdel tb) (nactive tb) (is_resizing tb) (blocks tb).

Definition IS_FIXED tb : bool := negb (fixref tb =? 0).
Definition NITEMS tb : Z := int32 (nitems tb).

(** ** Segments and buckets *)

Definition SEGTAB tb : option (list (option Z)) := p ← segtab tb; s ← blocks tb !! p; ext_segtab s.

Definition at_ix {A} (l : list A) (i : Z) : option A := if 0 <=? i then l !! Z.to_nat i else None.

(** The segment that holds slot [i] *)
Definition seg_of tb (i : Z) : option (Z * segment) :=
  arr ← SEGTAB tb; p ← mjoin (at_ix arr (Z.shiftr i SEGSZ_EXP)); s ← blocks tb !! p; Some (p, s).

Definition BUCKET tb (i : Z) : option (list HashDbTerm) :=
  '(_, s) ← seg_of tb i; at_ix (buckets s) (Z.land i SEGSZ_MASK).

Definition set_BUCKET tb (i : Z) chain : option DbTableHash :=
  '(p, s) ← seg_of tb i;
  _ ← at_ix (buckets s) (Z.land i SEGSZ_MASK);
  let s' := Seg (<[Z.to_nat (Z.land i SEGSZ_MASK) := chain]> (buckets s)) (last_segtab s) (ext_segtab s) in
  Some (set_segs (segtab tb) (nslots tb) (nsegs tb) (<[p := s']> (blocks tb)) tb).

(** [mem] is the answer of [erts_db_alloc_fnf]. *)
Definition alloc_seg tb (mem : option Z) : option (bool * DbTableHash) :=
  let six := Z.shiftr (nslots tb) SEGSZ_EXP in
  if six =? nsegs tb then
    let nsegs' := if six =? 0 then NSEG_1 else if six =? 1 then NSEG_2 else six + NSEG_INC in
    match mem with
    | None => Some (false, tb)
    | Some eseg =>
        arr ← (match segtab tb with
               | None => Some (replicate (Z.to_nat nsegs') None)
               | Some _ =>
                   old ← SEGTAB tb;
                   if zlen old <? nsegs tb then None
                   else Some (take (Z.to_nat (nsegs tb)) old ++ replicate (Z.to_nat (nsegs' - six)) None)
               end);
        let s := Seg (replicate (Z.to_nat SEGSZ) []) (segtab tb) (Some (<[Z.to_nat six := Some eseg]> arr)) in
        Some (true, set_segs (Some eseg) (nslots tb + SEGSZ) nsegs' (<[eseg := s]> (blocks tb)) tb)
    end
  else
    p ← segtab tb;
    s ← blocks tb !! p;
    arr ← ext_segtab s;
    _ ← at_ix arr six;
    let s' := Seg (buckets s) (last_segtab s) (Some (<[Z.to_nat six := mem]> arr)) in
    let tb := set_segs (segtab tb) (nslots tb) (nsegs tb) (<[p := s']> (blocks tb)) tb in
    match mem with
    | None => Some (false, tb)
    | Some new =>
        let s := Seg (replicate (Z.to_nat SEGSZ) []) None None in
        Some (true, set_segs (segtab tb) (nslots tb + SEGSZ) (nsegs tb) (<[new := s]> (blocks tb)) tb)
    end.

(** The records that are freed are part of the result; their number is what the C function returns. *)
Definition free_seg tb (free_records : bool) : option (list HashDbTerm * DbTableHash) :=
  let six := Z.shiftr (nslots tb) SEGSZ_EXP - 1 in
  st ← segtab tb;
  s0 ← blocks tb !! st;
  arr ← ext_segtab s0;
  top ← mjoin (at_ix arr six);
  s ← blocks tb !! top;
  let freed := if free_records then concat (buckets s) else [] in
  if bool_decide (st = top) then
    Some (freed, set_segs (last_segtab s) (nslots tb - SEGSZ) six (delete top (blocks tb)) tb)
  else
    let s0' := Seg (buckets s0) (last_segtab s0) (Some (<[Z.to_nat six := None]> arr)) in
    Some (freed, set_segs (segtab tb) (nslots tb - SEGSZ) (nsegs tb) (delete top (<[st := s0']> (blocks tb))) tb).

(** ** Hash values and keys *)

Definition MAKE_HASH key : Z := hash key mod MAX_HASH.

Definition hash_to_ix tb hval : Z :=
  let mask := szm tb in
  let ix := Z.land hval mask in
  if ix >=? nactive tb then Z.land ix (Z.shiftr mask 1) else ix.

Definition live b : bool := negb (hvalue b =? INVALID_HASH).
Definition node_key b : T := GETKEY (dbterm b).

Definition has_live_key b key hval : bool :=
  if negb (hvalue b =? hval) then false else bool_decide (key = node_key b).

Definition has_key b key hval : bool :=
  if negb (hvalue b =? hval) && live b then false else bool_decide (key = node_key b).

Definition add_fixed_deletion tb ix : DbTableHash := set_fixdel (ix :: fixdel tb) tb.

(** ** Growing and shrinking *)

(** The loop of [grow].  [pnext] is the end of the list [cur], to which the node [p] belongs or which it leaves; [to_pnext] is the end of the list [oth]; a node for the
    other list is linked there and the two change places.  The lists are built backwards; [swapped] tells which of
    them starts in the old bucket. *)
Fixpoint split_loop (szm : Z) chain from_ix (cur oth : list HashDbTerm) (swapped : bool) : list HashDbTerm * list HashDbTerm :=
  match chain with
  | [] => if swapped then (rev oth, rev cur) else (rev cur, rev oth)
  | p :: chain' =>
      if hvalue p =? INVALID_HASH then split_loop szm chain' from_ix cur oth swapped
      else
        let ix := Z.land (hvalue p) szm in
        if negb (ix =? from_ix) then split_loop szm chain' ix (p :: oth) cur (negb swapped)
        else split_loop szm chain' from_ix (p :: cur) oth swapped
  end.

Definition grow tb (nact : Z) (mem : option Z) : option DbTableHash :=
  if is_resizing tb then Some tb
  else if negb (nactive tb =? nact) then Some tb
  else
    '(ok, tb) ← (if nact =? nslots tb then alloc_seg tb mem else Some (true, tb));
    if negb ok then Some tb
    else
      let '(from_ix, szm') :=
        if nact <=? szm tb then (Z.land nact (Z.shiftr (szm tb) 1), szm tb) else (0, Z.lor (Z.shiftl (szm tb) 1) 1) in
      if IS_FIXED tb then Some tb
      else
        let tb := set_active (nactive tb + 1) (if from_ix =? 0 then szm' else szm tb) tb in
        chain ← BUCKET tb from_ix;
        let '(from, to) := split_loop szm' chain from_ix [] [] false in
        tb ← set_BUCKET tb from_ix from;
        set_BUCKET tb nact to.

Definition purge chain : list HashDbTerm := filter (λ b, is_true (live b)) chain.

Definition shrink tb (nact : Z) : option DbTableHash :=
  if is_resizing tb then Some tb
  else if nactive tb =? nact then
    let src_ix := nact - 1 in
    let low_szm := Z.shiftr (szm tb) 1 in
    let dst_ix := Z.land src_ix low_szm in
    if IS_FIXED tb then Some tb
    else
      src ← BUCKET tb src_ix;
      dst ← BUCKET tb dst_ix;
      tb ← set_BUCKET tb dst_ix (purge src ++ dst);
      tb ← set_BUCKET tb src_ix [];
      let tb := set_active src_ix (if dst_ix =? 0 then low_szm else szm tb) tb in
      if nslots tb - src_ix >=? SEGSZ then '(_, tb) ← free_seg tb false; Some tb else Some tb
  else Some tb.

Definition try_shrink tb : option DbTableHash :=
  if nactive tb >? SEGSZ then
    limit ← in_int (nactive tb * CHAIN_LEN);
    if (NITEMS tb <? limit) && negb (IS_FIXED tb) then shrink tb (nactive tb) else Some tb
  else Some tb.

(** ** Insertion *)

(** [for (;;) { if (b == NULL || test(b)) break; bp = &b->next; b = b->next; }]: the nodes before [b], and those from [b] on *)
Fixpoint seek (test : HashDbTerm → bool) chain : list HashDbTerm * list HashDbTerm :=
  match chain with
  | [] => ([], [])
  | b :: chain' => if test b then ([], chain) else let '(pre, suf) := seek test chain' in (b :: pre, suf)
  end.

(** [do ... while (q != NULL && has_key(tb,q,key,hval))]: is there a live object? *)
Fixpoint clash key hval (suf : list HashDbTerm) : bool :=
  match suf with
  | [] => false
  | q :: suf' => if has_key q key hval then (if live q then true else clash key hval suf') else false
  end.

(** The same loop for [DB_BAG]: the nodes before an equal object, the object, and the nodes behind it *)
Fixpoint find_equal obj key hval (suf : list HashDbTerm) : option (list HashDbTerm * HashDbTerm * list HashDbTerm) :=
  match suf with
  | [] => None
  | q :: suf' =>
      if has_key q key hval then
        if bool_decide (dbterm q = obj) then Some ([], q, suf')
        else '(pre, q', post) ← find_equal obj key hval suf'; Some (q :: pre, q', post)
      else None
  end.

(** The label [Lnew] *)
Definition put_new tb ix (pre suf : list HashDbTerm) obj hval (mem : option Z) : option (db_error * DbTableHash) :=
  tb ← set_BUCKET tb ix (pre ++ HDT hval obj :: suf);
  let tb := set_nitems (nitems tb + 1) tb in
  limit ← in_int (nactive tb * (CHAIN_LEN + 1));
  tb ← (if (NITEMS tb >? limit) && negb (IS_FIXED tb) then grow tb (nactive tb) mem else Some tb);
  Some (DB_ERROR_NONE, tb).

Definition db_put_hash tb obj (key_clash_fail : bool) (mem : option Z) : option (db_error * DbTableHash) :=
  let key := GETKEY obj in
  let hval := MAKE_HASH key in
  let ix := hash_to_ix tb hval in
  chain ← BUCKET tb ix;
  let '(pre, suf) := seek (λ b, has_key b key hval) chain in
  match suf with
  | [] => put_new tb ix pre [] obj hval mem
  | b :: bnext =>
      match status tb with
      | DB_SET =>
          if live b && key_clash_fail then Some (DB_ERROR_BADKEY, tb)
          else
            let tb := if live b then tb else set_nitems (nitems tb + 1) tb in
            tb ← set_BUCKET tb ix (pre ++ HDT hval obj :: bnext);
            Some (DB_ERROR_NONE, tb)
      | st =>
          if key_clash_fail then
            if clash key hval suf then Some (DB_ERROR_BADKEY, tb) else put_new tb ix pre suf obj hval mem
          else
            match st, find_equal obj key hval suf with
            | DB_BAG, Some (before, q, post) =>
                if live q then Some (DB_ERROR_NONE, tb)
                else
                  let tb := set_nitems (nitems tb + 1) tb in
                  tb ← set_BUCKET tb ix (pre ++ HDT hval (dbterm q) :: before ++ post);
                  Some (DB_ERROR_NONE, tb)
            | _, _ => put_new tb ix pre suf obj hval mem
            end
      end
  end.

(** ** Lookup *)

(** [while (b2 != NULL && has_key(tb,b2,key,hval)) b2 = b2->next]: the nodes that are passed *)
Fixpoint group (test : HashDbTerm → bool) (l : list HashDbTerm) : list HashDbTerm :=
  match l with
  | [] => []
  | b :: l' => if test b then b :: group test l' else []
  end.

(** The list is built by [CONS] in front. *)
Definition put_term_list (l : list HashDbTerm) : list Obj := rev (dbterm <$> purge l).

Definition search_list key hval chain : list HashDbTerm := (seek (λ b, has_live_key b key hval) chain).2.

Definition find_live tb key : option (list HashDbTerm) :=
  let hval := MAKE_HASH key in
  chain ← BUCKET tb (hash_to_ix tb hval);
  Some (search_list key hval chain).

Definition db_get_hash tb key : option (db_error * list Obj) :=
  let hval := MAKE_HASH key in
  found ← find_live tb key;
  match found with
  | [] => Some (DB_ERROR_NONE, [])
  | b1 :: b1next =>
      let rest := match status tb with DB_SET => [] | _ => group (λ b, has_key b key hval) b1next end in
      Some (DB_ERROR_NONE, put_term_list (b1 :: rest))
  end.

Definition db_member_hash tb key : option (db_error * bool) :=
  found ← find_live tb key;
  Some (DB_ERROR_NONE, match found with [] => false | _ => true end).

(** The results of [db_get_element_hash]: one element for a set, a list for a bag *)
Inductive element_result := Element (t : T) | Elements (l : list T).

Definition db_get_element_hash tb key (ndex : Z) : option (db_error * option element_result) :=
  let hval := MAKE_HASH key in
  found ← find_live tb key;
  match found with
  | [] => Some (DB_ERROR_BADKEY, None)
  | b1 :: b1next =>
      if ndex >? arityval (dbterm b1) then Some (DB_ERROR_BADITEM, None)
      else
        match status tb with
        | DB_SET => t ← tpl (dbterm b1) ndex; Some (DB_ERROR_NONE, Some (Element t))
        | _ =>
            let rest := group (λ b, has_key b key hval) b1next in
            if existsb (λ b2, (ndex >? arityval (dbterm b2)) && live b2) rest then Some (DB_ERROR_BADITEM, None)
            else
              ts ← mapM (λ b, tpl (dbterm b) ndex) (purge (b1 :: rest));
              Some (DB_ERROR_NONE, Some (Elements (rev ts)))
        end
  end.

(** [num_ret] is the size of the array [ret]; the results are the array as far as it is written, and the new [*num_ret]. *)
Definition db_get_element_array tb key (ndex num_ret : Z) : option (db_error * list T * Z) :=
  let hval := MAKE_HASH key in
  found ← find_live tb key;
  match found with
  | [] => Some (DB_ERROR_BADKEY, [], num_ret)
  | b1 :: b1next =>
      match status tb with
      | DB_SET => t ← tpl (dbterm b1) ndex; Some (DB_ERROR_NONE, [t], 1)
      | _ =>
          let rest := group (λ b, has_live_key b key hval) b1next in
          if existsb (λ b2, ndex >? arityval (dbterm b2)) rest then Some (DB_ERROR_BADITEM, [], num_ret)
          else
            ts ← mapM (λ b, tpl (dbterm b) ndex) (take (Z.to_nat num_ret) (b1 :: rest));
            Some (DB_ERROR_NONE, ts, zlen ts)
      end
  end.

(** ** Deletion *)

(** The loop of [db_erase_hash]: the chain it leaves, [nitems_diff], and whether a deletion was recorded *)
Fixpoint erase_loop (fixed : bool) key hval chain (nitems_diff : Z) (added : bool) : list HashDbTerm * Z * bool :=
  match chain with
  | [] => ([], nitems_diff, added)
  | b :: chain' =>
      if has_live_key b key hval then
        let nitems_diff := nitems_diff - 1 in
        if (nitems_diff =? -1) && fixed then
          let '(c, d, a) := erase_loop fixed key hval chain' nitems_diff true in
          (HDT INVALID_HASH (dbterm b) :: c, d, a)
        else erase_loop fixed key hval chain' nitems_diff added
      else if negb (nitems_diff =? 0) && live b then (chain, nitems_diff, added)
      else let '(c, d, a) := erase_loop fixed key hval chain' nitems_diff added in (b :: c, d, a)
  end.

(** The end of both erase functions *)
Definition finish_erase tb ix chain (nitems_diff : Z) (added : bool) : option (db_error * DbTableHash) :=
  let tb := if added then add_fixed_deletion tb ix else tb in
  tb ← set_BUCKET tb ix chain;
  if negb (nitems_diff =? 0) then
    tb ← try_shrink (set_nitems (nitems tb + nitems_diff) tb); Some (DB_ERROR_NONE, tb)
  else Some (DB_ERROR_NONE, tb).

Definition db_erase_hash tb key : option (db_error * DbTableHash) :=
  let hval := MAKE_HASH key in
  let ix := hash_to_ix tb hval in
  chain ← BUCKET tb ix;
  let '(chain', nitems_diff, added) := erase_loop (IS_FIXED tb) key hval chain 0 false in
  finish_erase tb ix chain' nitems_diff added.

Fixpoint erase_object_loop (fixed dup : bool) obj key hval chain (nkeys nitems_diff : Z) (added : bool)
  : list HashDbTerm * Z * bool :=
  match chain with
  | [] => ([], nitems_diff, added)
  | b :: chain' =>
      if has_live_key b key hval then
        let nkeys := nkeys + 1 in
        if bool_decide (obj = dbterm b) then
          let nitems_diff := nitems_diff - 1 in
          if (nkeys =? 1) && fixed then
            let b' := HDT INVALID_HASH (dbterm b) in
            if dup then
              let '(c, d, a) := erase_object_loop fixed dup obj key hval chain' nkeys nitems_diff true in (b' :: c, d, a)
            else (b' :: chain', nitems_diff, true)
          else if dup then erase_object_loop fixed dup obj key hval chain' nkeys nitems_diff added
          else (chain', nitems_diff, added)
        else let '(c, d, a) := erase_object_loop fixed dup obj key hval chain' nkeys nitems_diff added in (b :: c, d, a)
      else if negb (nitems_diff =? 0) && live b then (chain, nitems_diff, added)
      else let '(c, d, a) := erase_object_loop fixed dup obj key hval chain' nkeys nitems_diff added in (b :: c, d, a)
  end.

Definition db_erase_object_hash tb obj : option (db_error * DbTableHash) :=
  let key := GETKEY obj in
  let hval := MAKE_HASH key in
  let ix := hash_to_ix tb hval in
  chain ← BUCKET tb ix;
  let '(chain', nitems_diff, added) :=
    erase_object_loop (IS_FIXED tb) (bool_decide (status tb = DB_DUPLICATE_BAG)) obj key hval chain 0 0 false in
  finish_erase tb ix chain' nitems_diff added.

(** The loop of [db_erase_bag_exact2]: the chain, whether the key was found, and whether a node was removed *)
Fixpoint exact2_loop key value hval chain (found : bool) : option (list HashDbTerm * bool * bool) :=
  match chain with
  | [] => Some ([], found, false)
  | b :: chain' =>
      let next (f : bool) := '(c, f, r) ← exact2_loop key value hval chain' f; Some (b :: c, f, r) in
      if has_live_key b key hval then
        if arityval (dbterm b) =? 2 then
          t ← tpl (dbterm b) 2;
          if bool_decide (value = t) then Some (chain', true, true) else next true
        else next true
      else if found then Some (chain, found, false)
      else next found
  end.

Definition db_erase_bag_exact2 tb key value : option (db_error * DbTableHash) :=
  let hval := MAKE_HASH key in
  let ix := hash_to_ix tb hval in
  chain ← BUCKET tb ix;
  '(chain', found, removed) ← exact2_loop key value hval chain false;
  tb ← set_BUCKET tb ix chain';
  let tb := if (removed : bool) then set_nitems (nitems tb - 1) tb else tb in
  if (found : bool) then tb ← try_shrink tb; Some (DB_ERROR_NONE, tb) else Some (DB_ERROR_NONE, tb).

(** ** Traversal *)

(** [next_slot] and [next_slot_w]: 0 when the end of the table is reached *)
Definition next_slot tb ix : Z :=
  if ERTS_SMP then
    let ix := ix + DB_HASH_LOCK_CNT in
    if ix <? nactive tb then ix else Z.land (ix + 1) DB_HASH_LOCK_MASK
  else if ix + 1 <? nactive tb then ix + 1 else 0.

Definition first_live chain : list HashDbTerm := (seek live chain).2.

(** The loop over slots in [next]; an empty list is the end of the table. *)
Fixpoint next_loop (fuel : nat) tb ix : option (Z * list HashDbTerm) :=
  match fuel with
  | O => None
  | S fuel' =>
      let ix := next_slot tb ix in
      if ix =? 0 then Some (ix, [])
      else
        chain ← BUCKET tb ix;
        match first_live chain with [] => next_loop fuel' tb ix | l => Some (ix, l) end
  end.

Definition next tb ix (list : list HashDbTerm) : option (Z * Datatypes.list HashDbTerm) :=
  match first_live (tail list) with
  | [] => next_loop (Z.to_nat (nactive tb)) tb ix
  | l => Some (ix, l)
  end.

(** The search for a bucket that is not empty in [db_first_hash] *)
Fixpoint first_loop (fuel : nat) tb ix : option (list HashDbTerm) :=
  match fuel with
  | O => None
  | S fuel' =>
      chain ← BUCKET tb ix;
      match chain with
      | [] => let ix := next_slot tb ix in if ix =? 0 then Some [] else first_loop fuel' tb ix
      | b :: _ => if live b then Some chain else '(_, l) ← next tb ix chain; Some l
      end
  end.

Definition key_or_EOT (l : list HashDbTerm) : T := match l with [] => am_EOT | b :: _ => node_key b end.

Definition db_first_hash tb : option (db_error * T) :=
  l ← first_loop (Z.to_nat (nactive tb)) tb 0; Some (DB_ERROR_NONE, key_or_EOT l).

(** The loop of [db_next_hash] that leaves the objects with the same key, for bags *)
Fixpoint skip_key (fuel : nat) tb key hval ix (l : list HashDbTerm) : option (list HashDbTerm) :=
  match fuel with
  | O => None
  | S fuel' =>
      match l with
      | [] => Some []
      | b :: _ =>
          if negb (has_live_key b key hval) then Some l
          else '(ix, l) ← next tb ix l; skip_key fuel' tb key hval ix l
      end
  end.

(** [fuel]: the number of objects with the key, at least *)
Definition db_next_hash (fuel : nat) tb key : option (db_error * T) :=
  let hval := MAKE_HASH key in
  let ix := hash_to_ix tb hval in
  chain ← BUCKET tb ix;
  match (seek (λ b, has_key b key hval) chain).2 with
  | [] => Some (DB_ERROR_BADKEY, am_EOT)
  | b =>
      '(ix, l) ← next tb ix b;
      l ← match status tb with DB_SET => Some l | _ => skip_key fuel tb key hval ix l end;
      Some (DB_ERROR_NONE, key_or_EOT l)
  end.

(** [slot] is [None] if the argument is not a small integer; [inl tt] stands for the atom [$end_of_table]. *)
Definition db_slot_hash tb (slot : option Z) : option (db_error * option (unit + list Obj)) :=
  match slot with
  | None => Some (DB_ERROR_BADPARAM, None)
  | Some slot =>
      if slot <? 0 then Some (DB_ERROR_BADPARAM, None)
      else if slot <? nactive tb then chain ← BUCKET tb slot; Some (DB_ERROR_NONE, Some (inr (put_term_list chain)))
      else if slot =? nactive tb then Some (DB_ERROR_NONE, Some (inl tt))
      else Some (DB_ERROR_BADPARAM, None)
  end.

(** A loop over all slots in the order of [next_slot] *)
Fixpoint over_slots {A} (f : A → list HashDbTerm → A) (fuel : nat) tb ix (acc : A) : option A :=
  match fuel with
  | O => None
  | S fuel' =>
      chain ← BUCKET tb ix;
      let acc := f acc chain in
      let ix := next_slot tb ix in
      if ix =? 0 then Some acc else over_slots f fuel' tb ix acc
  end.

Definition db_kept_items_hash tb : option Z :=
  over_slots (λ n chain, n + zlen (filter (λ b, is_true (negb (live b))) chain)) (Z.to_nat (nactive tb)) tb 0 0.

(** The integer part of [db_calc_stats_hash]: sum, sum of squares, maximum and minimum of the chain lengths *)
Definition stats_step (acc : Z * Z * Z * Z) chain : Z * Z * Z * Z :=
  let '(sum, sq_sum, max_chain_len, min_chain_len) := acc in
  let len := zlen chain in
  (sum + len, sq_sum + len * len, if len >? max_chain_len then len else max_chain_len, if len <? min_chain_len then len else min_chain_len).

Definition chain_stats tb : option (Z * Z * Z * Z) := over_slots stats_step (Z.to_nat (nactive tb)) tb 0 (0, 0, 0, INT_MAX).

(** [for (i = 0; i < nactive; i++)] over the buckets: the objects in this order *)
Definition db_foreach_offheap_hash tb : option (list Obj) :=
  ls ← mapM (λ i : nat, BUCKET tb (Z.of_nat i)) (seq 0 (Z.to_nat (nactive tb)));
  Some (dbterm <$> concat ls).

(** ** Updating an object *)

(** [bp] points to the link to the node: the bucket and the number of nodes before it. *)
Record DbUpdateHandle := Handle { h_ix : Z; h_pos : nat; h_obj : Obj }.

Definition db_lookup_dbterm_hash tb key : option (option DbUpdateHandle) :=
  let hval := MAKE_HASH key in
  let ix := hash_to_ix tb hval in
  chain ← BUCKET tb ix;
  let '(pre, suf) := seek (λ b, has_live_key b key hval) chain in
  Some match suf with [] => None | b :: _ => Some (Handle ix (length pre) (dbterm b)) end.

(** [obj] is the object as updated, in place or in a new block. *)
Definition db_finalize_dbterm_hash tb (h : DbUpdateHandle) obj : option DbTableHash :=
  chain ← BUCKET tb (h_ix h);
  old ← chain !! h_pos h;
  set_BUCKET tb (h_ix h) (<[h_pos h := HDT (hvalue old) obj]> chain).

(** ** Fixation *)

(** Purging the slots of a list of fixed deletions *)
Fixpoint unfix_loop tb (l : list Z) : option DbTableHash :=
  match l with
  | [] => Some tb
  | ix :: l' =>
      if IS_FIXED tb then Some (set_fixdel (l ++ fixdel tb) tb)
      else
        tb ← (if ix <? nactive tb then chain ← BUCKET tb ix; set_BUCKET tb ix (purge chain) else Some tb);
        unfix_loop tb l'
  end.

Definition db_unfix_table_hash tb : option DbTableHash := unfix_loop (set_fixdel [] tb) (fixdel tb).

Definition local_fix_table tb : DbTableHash := set_fixref (fixref tb + 1) tb.

Definition local_unfix_table tb : option DbTableHash :=
  let tb := set_fixref (fixref tb - 1) tb in
  if fixref tb =? 0 then db_unfix_table_hash tb else Some tb.

(** ** Creation and deletion of tables *)

(** The result of [alloc_seg] is not used. *)
Definition db_create_hash tb (mem : option Z) : option DbTableHash :=
  '(_, tb) ← alloc_seg (Table (status tb) (fixref tb) (nitems tb) None SEGSZ_MASK 0 0 [] SEGSZ (is_resizing tb) (blocks tb)) mem;
  Some (Table (status tb) (fixref tb) (nitems tb) (segtab tb) (szm tb) (nslots tb) (nsegs tb) (fixdel tb) (nactive tb) false (blocks tb)).

Fixpoint mark_loop (n : nat) tb ix : option DbTableHash :=
  match n with
  | O => Some tb
  | S n' =>
      chain ← BUCKET tb ix;
      tb ← match chain with
           | [] => Some tb
           | _ => set_BUCKET (add_fixed_deletion tb ix) ix ((λ b, HDT INVALID_HASH (dbterm b)) <$> chain)
           end;
      mark_loop n' tb (ix + 1)
  end.

Definition db_mark_all_deleted_hash tb : option DbTableHash :=
  tb ← mark_loop (Z.to_nat (nactive tb)) tb 0; Some (set_nitems 0 tb).

(** [while (tb->nslots != 0)] in [db_free_table_continue_hash]; the first component tells whether it is done. *)
Fixpoint free_segs (fuel : nat) tb (done : Z) (freed : list HashDbTerm) : option (bool * list HashDbTerm * DbTableHash) :=
  match fuel with
  | O => None
  | S fuel' =>
      if nslots tb =? 0 then Some (true, freed, tb)
      else
        '(l, tb) ← free_seg tb true;
        let done := done + 1 in
        if done >=? (DELETE_RECORD_LIMIT `quot` CHAIN_LEN) `quot` SEGSZ then Some (false, freed ++ l, tb)
        else free_segs fuel' tb done (freed ++ l)
  end.

Definition db_free_table_continue_hash tb : option (bool * list HashDbTerm * DbTableHash) :=
  if zlen (fixdel tb) >=? 2 * DELETE_RECORD_LIMIT then
    Some (false, [], set_fixdel (drop (Z.to_nat (2 * DELETE_RECORD_LIMIT)) (fixdel tb)) tb)
  else
    free_segs (S (Z.to_nat ((DELETE_RECORD_LIMIT `quot` CHAIN_LEN) `quot` SEGSZ)))
              (set_fixdel [] tb) (zlen (fixdel tb) `quot` 2) [].

(** [while (!db_free_table_continue_hash(tbl))] *)
Fixpoint db_free_table_hash (calls : nat) tb : option (list HashDbTerm * DbTableHash) :=
  match calls with
  | O => None
  | S calls' =>
      '(finished, freed, tb) ← db_free_table_continue_hash tb;
      if (finished : bool) then Some (freed, tb)
      else '(freed', tb) ← db_free_table_hash calls' tb; Some (freed ++ freed', tb)
  end.

Definition db_delete_all_objects_hash (calls : nat) tb (mem : option Z) : option DbTableHash :=
  if IS_FIXED tb then db_mark_all_deleted_hash tb
  else
    '(_, tb) ← db_free_table_hash calls tb;
    tb ← db_create_hash tb mem;
    Some (set_nitems 0 tb).

End DbHash.

Arguments HashDbTerm : clear implicits.
Arguments segment : clear implicits.
Arguments DbTableHash : clear implicits.
Arguments DbUpdateHandle : clear implicits.
Arguments element_result : clear implicits.
