(* ===== verification/DbHashSegs.v ===== *)
(** The segments of a hashed table implement one array of buckets: [segs tb fl] says that the segments and segment
    tables of [tb] are consistent and hold the buckets [fl], and that the table has no other blocks. *)

From Stdlib Require Import ZArith ZifyBool.
From stdpp Require Import base list numbers option gmap fin_maps.
From S2P Require Import Prelude DbUtil DbHash.
Local Open Scope Z_scope.

(** ** Lists of lists of one length *)
Section Blocks.
Context {A : Type}.
Implicit Types (ls : list (list A)) (n : nat).

Lemma join_cons l ls : mjoin (l :: ls) = l ++ mjoin ls.
Proof. done. Qed.

Lemma mjoin_insert ls n j l i x :
  Forall (λ l, length l = n) ls → ls !! j = Some l → (i < n)%nat →
  mjoin (<[j := <[i := x]> l]> ls) = <[(j * n + i)%nat := x]> (mjoin ls).
Proof.
  intros Hf. revert j. induction Hf as [|l0 ls Hl Hf IH]; intros j Hj Hi; [done|].
  destruct j as [|j]; simplify_eq/=.
  - by rewrite insert_app_l by lia.
  - rewrite IH by done. rewrite insert_app_r_alt by lia. f_equal. f_equal. lia.
Qed.

Lemma mjoin_length ls n : Forall (λ l, length l = n) ls → length (mjoin ls) = (n * length ls)%nat.
Proof. induction 1 as [|l ls Hl Hf IH]; [cbn; lia|]. rewrite join_cons, length_app, IH, length_cons. lia. Qed.

Lemma mjoin_app ls ls' : mjoin (ls ++ ls') = mjoin ls ++ mjoin ls'.
Proof. induction ls; [done|]. cbn [app]. by rewrite !join_cons, IHls, (assoc (++)). Qed.

End Blocks.

Lemma dbh_shiftr_8 i : Z.shiftr i SEGSZ_EXP = i / 256.
Proof. apply Z.shiftr_div_pow2. done. Qed.

Lemma land_255' i : Z.land i SEGSZ_MASK = i mod 256.
Proof. apply land_255. Qed.

Section Segs.
Context {Obj : Type}.
Implicit Types (tb : DbTableHash Obj) (ids : list Z) (bl : gmap Z (segment Obj)) (c : list (HashDbTerm Obj)) (fl : list (list (HashDbTerm Obj))).

(** The segment table [st] with [n] entries, for the segments [ids], and the tables it replaced *)
Inductive tab_ok bl ids : option Z → nat → Prop :=
| tab_nil : tab_ok bl ids None 0
| tab_ext e s base n :
    ids !! base = Some e → bl !! e = Some s → ext_segtab s = Some ((ids !!.) <$> seq 0 n) → (base < n)%nat →
    tab_ok bl ids (last_segtab s) base → tab_ok bl ids (Some e) n.

Definition bkts bl (e : Z) : list (list (HashDbTerm Obj)) := from_option buckets [] (bl !! e).

Definition segs_ok tb ids : Prop :=
  NoDup ids ∧ (∀ e, e ∈ ids ↔ is_Some (blocks tb !! e)) ∧ nslots tb = 256 * zlen ids ∧
  Forall (λ e, length (bkts (blocks tb) e) = 256%nat) ids ∧
  ∃ n, tab_ok (blocks tb) ids (segtab tb) n ∧ nsegs tb = Z.of_nat n ∧ (length ids ≤ n)%nat.

Definition segs tb fl : Prop := ∃ ids, segs_ok tb ids ∧ fl = mjoin (bkts (blocks tb) <$> ids).

Lemma segs_length tb fl : segs tb fl → nslots tb = zlen fl.
Proof.
  intros (ids & (_ & _ & Hn & Hf & _) & ->). rewrite (mjoin_length _ 256) by (by apply Forall_fmap).
  rewrite length_fmap. lia.
Qed.

(** No segments, no blocks *)
Lemma segs_nil tb : segs tb [] → blocks tb = ∅ ∧ segtab tb = None.
Proof.
  intros Hs. pose proof (segs_length _ _ Hs) as Hl. destruct Hs as (ids & (_ & Hd & Hn & _ & n & Ht & _) & _). cbn in Hl.
  assert (ids = []) as -> by (apply nil_length_inv; lia). split.
  - apply map_empty. intros e. destruct (blocks tb !! e) eqn:E; [|done].
    by assert (e ∈ ([] : list Z)) as ?%not_elem_of_nil by (apply Hd; eauto).
  - inversion Ht; [done|]. by simplify_eq.
Qed.

Lemma tab_lookup tb ids st n k e :
  tab_ok (blocks tb) ids st n → (k < n)%nat → ids !! k = Some e →
  ∃ p s, st = Some p ∧ blocks tb !! p = Some s ∧ ext_segtab s = Some ((ids !!.) <$> seq 0 n).
Proof. intros Ht Hk He. inversion Ht; subst; [lia|]. eauto. Qed.

Lemma seq_lookup_entry ids n k : (k < n)%nat → ((ids !!.) <$> seq 0 n) !! k = Some (ids !! k).
Proof. intros. rewrite list_lookup_fmap, lookup_seq_lt by done. done. Qed.

(** Slot [i] is in segment [i / 256]. *)
Lemma seg_of_ok tb ids i :
  segs_ok tb ids → 0 ≤ i < nslots tb →
  ∃ e s, ids !! Z.to_nat (i / 256) = Some e ∧ blocks tb !! e = Some s ∧ seg_of tb i = Some (e, s) ∧ length (buckets s) = 256%nat.
Proof.
  intros (Hnd & Hd & Hn & Hf & n & Ht & Hns & Hle) Hi.
  pose proof (Z.div_lt_upper_bound i 256 (zlen ids) eq_refl ltac:(lia)). pose proof (Z.div_pos i 256 ltac:(lia) eq_refl).
  destruct (lookup_lt_is_Some_2 ids (Z.to_nat (i / 256))) as [e He]; [lia|].
  destruct (tab_lookup tb ids _ _ (Z.to_nat (i / 256)) e Ht ltac:(lia) He) as (p & s & Hp & Hs & Ha).
  assert (is_Some (blocks tb !! e)) as [s' Hs'] by (apply Hd; by eapply list_elem_of_lookup_2).
  exists e, s'. split; [done|]. split; [done|]. split.
  - unfold seg_of, SEGTAB. rewrite Hp. cbn. rewrite Hs. cbn. rewrite Ha. cbn. unfold at_ix.
    rewrite dbh_shiftr_8, (proj2 (Z.leb_le 0 (i / 256))) by lia. rewrite seq_lookup_entry by lia. cbn. rewrite He. cbn. by rewrite Hs'.
  - rewrite Forall_lookup in Hf. specialize (Hf _ _ He). unfold bkts in Hf. by rewrite Hs' in Hf.
Qed.

Lemma slot_split i : 0 ≤ i → Z.to_nat i = (Z.to_nat (i / 256) * 256 + Z.to_nat (i mod 256))%nat ∧ (Z.to_nat (i mod 256) < 256)%nat.
Proof. intros. pose proof (Z.div_mod i 256 ltac:(lia)). pose proof (Z.mod_pos_bound i 256 eq_refl). pose proof (Z.div_pos i 256 ltac:(lia) eq_refl). lia. Qed.

Lemma BUCKET_segs tb fl i : segs tb fl → 0 ≤ i < nslots tb → BUCKET tb i = fl !! Z.to_nat i.
Proof.
  intros (ids & Hok & ->) Hi. destruct (seg_of_ok _ _ _ Hok Hi) as (e & s & He & Hs & Hseg & Hl).
  unfold BUCKET. rewrite Hseg. cbn. unfold at_ix. rewrite land_255'.
  pose proof (Z.mod_pos_bound i 256 eq_refl). rewrite (proj2 (Z.leb_le 0 (i mod 256))) by lia.
  destruct (slot_split i ltac:(lia)) as [-> Hm].
  destruct (lookup_lt_is_Some_2 (buckets s) (Z.to_nat (i mod 256))) as [c Hc]; [lia|]. rewrite Hc. symmetry.
  destruct Hok as (_ & _ & _ & Hf & _).
  apply (join_lookup_Some_same_length' 256); [by apply Forall_fmap|done|].
  exists (buckets s). rewrite list_lookup_fmap, He. cbn. unfold bkts. by rewrite Hs.
Qed.

(** A table with [n] entries depends on the first [n] segments only, and not on the contents of their buckets. *)
Lemma tab_ok_agree bl bl' ids ids' st n :
  (∀ k, (k < n)%nat → ids' !! k = ids !! k) →
  (∀ k e s, (k < n)%nat → ids !! k = Some e → bl !! e = Some s →
     ∃ s', bl' !! e = Some s' ∧ ext_segtab s' = ext_segtab s ∧ last_segtab s' = last_segtab s) →
  tab_ok bl ids st n → tab_ok bl' ids' st n.
Proof.
  intros Hids Hbl Ht. revert Hids Hbl. induction Ht as [|e s base n He Hs Ha Hb Ht IH]; intros Hids Hbl; [constructor|].
  destruct (Hbl _ _ _ Hb He Hs) as (s' & Hs' & Ha' & Hl').
  econstructor; [by rewrite Hids|done| |done|rewrite Hl'; apply IH].
  - rewrite Ha', Ha. f_equal. apply list_fmap_ext. intros k x [-> Hk]%lookup_seq. by rewrite Hids.
  - intros. apply Hids. lia.
  - intros k ? ? ?. apply (Hbl k). lia.
Qed.

Lemma set_BUCKET_segs tb fl i c :
  segs tb fl → 0 ≤ i < nslots tb →
  ∃ bl, let tb' := set_segs (segtab tb) (nslots tb) (nsegs tb) bl tb in
        set_BUCKET tb i c = Some tb' ∧ segs tb' (<[Z.to_nat i := c]> fl) ∧ ∀ e, blocks tb !! e = None → bl !! e = None.
Proof.
  intros (ids & Hok & ->) Hi. destruct (seg_of_ok _ _ _ Hok Hi) as (e & s & He & Hs & Hseg & Hl).
  unfold set_BUCKET. rewrite Hseg. cbn [mbind option_bind]. unfold at_ix. rewrite land_255'.
  pose proof (Z.mod_pos_bound i 256 eq_refl). rewrite (proj2 (Z.leb_le 0 (i mod 256))) by lia.
  destruct (slot_split i ltac:(lia)) as [-> Hm].
  destruct (lookup_lt_is_Some_2 (buckets s) (Z.to_nat (i mod 256))) as [c0 Hc]; [lia|]. rewrite Hc. cbn [mbind option_bind].
  set (s' := Seg _ _ _). exists (<[e := s']> (blocks tb)). split; [done|].
  destruct Hok as (Hnd & Hd & Hn & Hf & n & Ht & Hns & Hle).
  assert (bkts (<[e:=s']> (blocks tb)) <$> ids =
          <[Z.to_nat (i / 256) := <[Z.to_nat (i mod 256) := c]> (buckets s)]> (bkts (blocks tb) <$> ids)) as E.
  { apply list_eq. intros k. rewrite list_lookup_fmap. destruct (decide (k = Z.to_nat (i / 256))) as [->|Hk].
    - rewrite He, list_lookup_insert_eq by (rewrite length_fmap; by eapply lookup_lt_Some). cbn. unfold bkts. by rewrite lookup_insert_eq.
    - rewrite list_lookup_insert_ne by done. rewrite list_lookup_fmap. destruct (ids !! k) as [e'|] eqn:E; [|done]. cbn. unfold bkts.
      rewrite lookup_insert_ne; [done|]. intros ->. apply Hk. by eapply NoDup_lookup. }
  split; [|intros e'; destruct (decide (e = e')) as [<-|]; [congruence|by rewrite lookup_insert_ne]].
  exists ids. split.
  - split; [done|]. split; [|split; [done|split]]; cbn.
    + intros e'. rewrite Hd. destruct (decide (e = e')) as [<-|]; [rewrite lookup_insert_eq, Hs; split; eauto|by rewrite lookup_insert_ne].
    + assert (Forall (λ l, length l = 256%nat) (bkts (<[e:=s']> (blocks tb)) <$> ids)) as Hf'%Forall_fmap; [|done].
      rewrite E. apply Forall_insert; [by apply Forall_fmap|]. by rewrite length_insert.
    + exists n. split; [|done]. eapply tab_ok_agree; [done| |done]. intros k e1 s1 _ _ H1.
      destruct (decide (e = e1)) as [<-|]; [exists s'; rewrite lookup_insert_eq; by simplify_eq|exists s1; by rewrite lookup_insert_ne].
  - cbn [blocks set_segs]. rewrite E. symmetry. apply mjoin_insert; [by apply Forall_fmap| |done].
    rewrite list_lookup_fmap, He. cbn. unfold bkts. by rewrite Hs.
Qed.

(** ** Allocating and freeing segments *)

Lemma entries_snoc ids e n :
  (length ids < n)%nat → ((ids ++ [e]) !!.) <$> seq 0 n = <[length ids := Some e]> ((ids !!.) <$> seq 0 n).
Proof.
  intros Hn. apply list_eq. intros k. destruct (decide (k < n)%nat) as [Hk|Hk].
  - rewrite seq_lookup_entry by done. destruct (decide (k = length ids)) as [->|].
    + rewrite list_lookup_insert_eq by (rewrite length_fmap, length_seq; lia). f_equal. by apply list_lookup_middle.
    + rewrite list_lookup_insert_ne, seq_lookup_entry by done. f_equal.
      destruct (decide (k < length ids)%nat); [by rewrite lookup_app_l|].
      rewrite !lookup_ge_None_2; [done|lia|rewrite length_app; cbn; lia].
  - rewrite !lookup_ge_None_2; [done|..]; rewrite ?length_insert, length_fmap, length_seq; lia.
Qed.

Lemma entries_extend ids n n' :
  (length ids ≤ n ≤ n')%nat → (ids !!.) <$> seq 0 n' = ((ids !!.) <$> seq 0 n) ++ replicate (n' - n) None.
Proof.
  intros [Hn Hn']. replace n' with (n + (n' - n))%nat at 1 by lia. rewrite seq_app, fmap_app. f_equal.
  apply list_eq. intros k. destruct (decide (k < n' - n)%nat) as [Hk|Hk].
  - rewrite list_lookup_fmap, lookup_seq_lt, lookup_replicate_2 by lia. cbn. f_equal. apply lookup_ge_None_2. lia.
  - rewrite !lookup_ge_None_2; [done|..]; rewrite ?length_fmap, ?length_seq, ?length_replicate; lia.
Qed.

Lemma bkts_insert_fresh bl e s ids : e ∉ ids → bkts (<[e := s]> bl) <$> ids = bkts bl <$> ids.
Proof. intros He. apply list_fmap_ext. intros k x Hx. unfold bkts. rewrite lookup_insert_ne; [done|]. intros ->. by apply He, (list_elem_of_lookup_2 _ k). Qed.

Lemma segs_snoc tb ids e s bl' st' n' ng :
  segs_ok tb ids → e ∉ ids → bl' !! e = Some s → buckets s = replicate 256 [] →
  (∀ e0, e0 ≠ e → is_Some (bl' !! e0) ↔ e0 ∈ ids) → (∀ e0, e0 ∈ ids → bkts bl' e0 = bkts (blocks tb) e0) →
  tab_ok bl' (ids ++ [e]) st' n' → (length ids < n')%nat → ng = Z.of_nat n' →
  segs (set_segs st' (nslots tb + SEGSZ) ng bl' tb) (mjoin (bkts (blocks tb) <$> ids) ++ replicate 256 []).
Proof.
  intros (Hnd & Hd & Hn & Hf & n & Ht & Hns & Hle) He Hs Hb Hdom Hbk Ht' Hn' ->.
  assert (bkts bl' e = replicate 256 []) as Hbe by (unfold bkts; by rewrite Hs).
  exists (ids ++ [e]). split.
  - split; [apply NoDup_app; split; [done|split; [set_solver|apply NoDup_singleton]]|]. split; [|split; [|split]]; cbn.
    + intros e0. rewrite elem_of_app, list_elem_of_singleton. destruct (decide (e0 = e)) as [->|Hne]; [rewrite Hs; split; [eauto|by intros; right]|].
      rewrite Hdom by done. split; [intros [?|?]; done|by left].
    + change SEGSZ with 256. rewrite Hn, length_app. cbn [length]. lia.
    + apply Forall_app. split; [|by rewrite Forall_singleton, Hbe].
      rewrite Forall_forall in Hf |- *. intros e0 H0. rewrite Hbk by done. by apply Hf.
    + exists n'. split; [done|]. split; [done|]. rewrite length_app. cbn. lia.
  - cbn. rewrite fmap_app, mjoin_app. f_equal; [|cbn; by rewrite Hbe, app_nil_r].
    f_equal. apply list_fmap_ext. intros k x Hx. symmetry. apply Hbk. by eapply list_elem_of_lookup_2.
Qed.

Lemma tab_inv bl ids st n :
  tab_ok bl ids st n → (0 < n)%nat →
  ∃ e s base, st = Some e ∧ ids !! base = Some e ∧ bl !! e = Some s ∧ ext_segtab s = Some ((ids !!.) <$> seq 0 n) ∧
              (base < n)%nat ∧ tab_ok bl ids (last_segtab s) base.
Proof. destruct 1; [lia|]. intros _. eauto 10. Qed.

Lemma six_length tb ids : nslots tb = 256 * zlen ids → Z.shiftr (nslots tb) SEGSZ_EXP = zlen ids.
Proof. intros ->. rewrite dbh_shiftr_8, Z.mul_comm. by apply Z.div_mul. Qed.

Lemma alloc_seg_none tb fl : segs tb fl → ∃ bl, alloc_seg tb None = Some (false, set_segs (segtab tb) (nslots tb) (nsegs tb) bl tb) ∧
  segs (set_segs (segtab tb) (nslots tb) (nsegs tb) bl tb) fl.
Proof.
  intros (ids & Hok & ->). pose proof Hok as (Hnd & Hd & Hn & Hf & n & Ht & Hns & Hle).
  unfold alloc_seg. rewrite (six_length _ _ Hn). destruct (Z.eqb_spec (zlen ids) (nsegs tb)) as [E|E].
  { exists (blocks tb). split; [by destruct tb|]. exists ids. split; [|done]. by destruct tb. }
  destruct (tab_inv _ _ _ _ Ht ltac:(lia)) as (e & s & base & Hst & He & Hs & Ha & Hb & Ht').
  rewrite Hst. cbn [mbind option_bind]. rewrite Hs. cbn [mbind option_bind]. rewrite Ha. cbn [mbind option_bind].
  unfold at_ix. rewrite (proj2 (Z.leb_le 0 (zlen ids))), Nat2Z.id by lia. rewrite seq_lookup_entry by lia. cbn [mbind option_bind].
  rewrite list_insert_id by (rewrite seq_lookup_entry by lia; f_equal; apply lookup_ge_None_2; lia).
  replace (Seg (buckets s) (last_segtab s) _) with s by (by destruct s, ext_segtab; cbn in *; simplify_eq). rewrite insert_id by done.
  exists (blocks tb). split; [done|]. exists ids. split; [|done]. rewrite <- Hst. by destruct tb.
Qed.

Lemma alloc_seg_some tb fl e :
  segs tb fl → blocks tb !! e = None →
  ∃ st ng bl, let tb' := set_segs st (nslots tb + SEGSZ) ng bl tb in
    alloc_seg tb (Some e) = Some (true, tb') ∧ segs tb' (fl ++ replicate 256 []).
Proof.
  intros (ids & Hok & ->) Hfresh. pose proof Hok as (Hnd & Hd & Hn & Hf & n & Ht & Hns & Hle).
  assert (e ∉ ids) as He. { intros [? ?]%Hd. congruence. }
  unfold alloc_seg. rewrite (six_length _ _ Hn). destruct (Z.eqb_spec (zlen ids) (nsegs tb)) as [E|E].
  - assert (n = length ids) as -> by lia.
    set (n' := if zlen ids =? 0 then NSEG_1 else if zlen ids =? 1 then NSEG_2 else zlen ids + NSEG_INC).
    assert (zlen ids < n') as Hn' by (subst n'; unfold NSEG_1, NSEG_2, NSEG_INC; repeat case_match; lia).
    assert (match segtab tb with
            | None => Some (replicate (Z.to_nat n') None)
            | Some _ => old ← SEGTAB tb; if zlen old <? nsegs tb then None
                        else Some (take (Z.to_nat (nsegs tb)) old ++ replicate (Z.to_nat (n' - zlen ids)) None)
            end = Some ((ids !!.) <$> seq 0 (Z.to_nat n'))) as Harr.
    { rewrite (entries_extend ids (length ids)) by lia. destruct (decide (ids = [])) as [->|Hnil].
      - inversion Ht; [|cbn in *; lia]. cbn. by rewrite Nat.sub_0_r.
      - destruct ids as [|i0 ids0] eqn:Eids; [done|]. rewrite <- Eids in *.
        destruct (tab_inv _ _ _ _ Ht ltac:(subst; cbn; lia)) as (e1 & s & base & Hst & He1 & Hs & Ha & Hb & Ht').
        unfold SEGTAB. rewrite Hst. cbn [mbind option_bind]. rewrite Hs. cbn [mbind option_bind]. rewrite Ha. cbn [mbind option_bind].
        rewrite length_fmap, length_seq, Hns, Z.ltb_irrefl, Nat2Z.id, take_ge by (rewrite length_fmap, length_seq; lia).
        do 3 f_equal. lia. }
    rewrite Harr. cbn [mbind option_bind]. eexists _, n', _. split; [done|].
    eapply (segs_snoc _ ids e _ _ _ (Z.to_nat n')); [done|done|by rewrite lookup_insert_eq|done|..|lia|lia].
    + intros e0 H0. rewrite lookup_insert_ne by done. by rewrite Hd.
    + intros e0 H0. unfold bkts. rewrite lookup_insert_ne by set_solver. done.
    + eapply (tab_ext _ _ e _ (length ids)); [by apply list_lookup_middle|by rewrite lookup_insert_eq| |lia|].
      * cbn [ext_segtab]. f_equal. by rewrite Nat2Z.id, entries_snoc by lia.
      * cbn [last_segtab]. eapply tab_ok_agree; [intros k Hk; by rewrite lookup_app_l by lia| |done]. intros k e0 s0 _ H0%list_elem_of_lookup_2 Hs0. exists s0. rewrite lookup_insert_ne by set_solver. done.
  - destruct (tab_inv _ _ _ _ Ht ltac:(lia)) as (e1 & s & base & Hst & He1 & Hs & Ha & Hb & Ht').
    assert (e ≠ e1) as Hne by (intros ->; congruence).
    rewrite Hst. cbn [mbind option_bind]. rewrite Hs. cbn [mbind option_bind]. rewrite Ha. cbn [mbind option_bind].
    unfold at_ix. rewrite (proj2 (Z.leb_le 0 (zlen ids))), Nat2Z.id by lia. rewrite seq_lookup_entry by lia. cbn [mbind option_bind].
    eexists _, _, _. split; [done|].
    eapply (segs_snoc _ ids e _ _ _ n); [done|done|cbn; by rewrite lookup_insert_eq|done|..|lia|done]; cbn [blocks set_segs].
    + intros e0 H0. rewrite lookup_insert_ne by done. rewrite Hd. destruct (decide (e1 = e0)) as [->|]; [rewrite lookup_insert_eq, Hs; split; eauto|by rewrite lookup_insert_ne].
    + intros e0 H0. unfold bkts. rewrite lookup_insert_ne by set_solver. destruct (decide (e1 = e0)) as [->|]; [by rewrite lookup_insert_eq, Hs|by rewrite lookup_insert_ne].
    + eapply (tab_ext _ _ e1 _ base); [rewrite lookup_app_l; [done|by eapply lookup_lt_Some]|rewrite lookup_insert_ne, lookup_insert_eq by done; done| |lia|]; cbn [ext_segtab last_segtab].
      * rewrite entries_snoc by lia. done.
      * pose proof (lookup_lt_Some _ _ _ He1).
        eapply tab_ok_agree; [intros k Hk; by rewrite lookup_app_l by lia| |done]. intros k e0 s0 Hk H0 Hs0.
        exists s0. rewrite !lookup_insert_ne; [done|intros ->; pose proof (NoDup_lookup _ _ _ _ Hnd He1 H0); lia|].
        intros ->. by apply He, (list_elem_of_lookup_2 _ k).
Qed.

Lemma entries_init ids e n :
  (length ids < n)%nat → (ids !!.) <$> seq 0 n = <[length ids := None]> (((ids ++ [e]) !!.) <$> seq 0 n).
Proof.
  intros Hn. rewrite entries_snoc by done. rewrite list_insert_insert_eq, list_insert_id; [done|].
  rewrite seq_lookup_entry by done. f_equal. by apply lookup_ge_None_2.
Qed.

(** The blocks and tables without the last segment *)
Lemma segs_init tb ids e bl' st' n' ng ns :
  segs_ok tb (ids ++ [e]) → bl' !! e = None →
  (∀ e0, e0 ∈ ids → is_Some (bl' !! e0) ∧ bkts bl' e0 = bkts (blocks tb) e0) → (∀ e0, is_Some (bl' !! e0) → is_Some (blocks tb !! e0)) →
  tab_ok bl' ids st' n' → (length ids ≤ n')%nat → ng = Z.of_nat n' → ns = nslots tb - SEGSZ →
  segs (set_segs st' ns ng bl' tb) (mjoin (bkts (blocks tb) <$> ids)).
Proof.
  intros (Hnd & Hd & Hn & Hf & _) He Hbk Hsub Ht' Hn' -> ->.
  apply NoDup_app in Hnd as (Hnd & Hni & _). apply Forall_app in Hf as [Hf _]. rewrite Forall_forall in Hf.
  exists ids. split.
  - split; [done|]. split; [|split; [|split]]; cbn.
    + intros e0. split; [intros H0; by apply Hbk|]. intros H0. pose proof (Hsub _ H0) as [H1|H1%list_elem_of_singleton]%Hd%elem_of_app; [done|].
      subst. rewrite He in H0. by destruct H0.
    + change SEGSZ with 256. rewrite Hn, length_app. cbn [length]. lia.
    + rewrite Forall_forall. intros e0 H0. rewrite (proj2 (Hbk _ H0)). by apply Hf.
    + by exists n'.
  - cbn. f_equal. apply list_fmap_ext. intros k x Hx%list_elem_of_lookup_2. symmetry. by apply Hbk.
Qed.

Lemma free_seg_segs tb fl free_records :
  segs tb fl → nslots tb ≠ 0 →
  ∃ st ng bl fl' last, let tb' := set_segs st (nslots tb - SEGSZ) ng bl tb in
    fl = fl' ++ last ∧ length last = 256%nat ∧
    free_seg tb free_records = Some (if free_records then concat last else [], tb') ∧ segs tb' fl'.
Proof.
  intros (ids & Hok & ->) Hnz. pose proof Hok as (Hnd & Hd & Hn & Hf & n & Ht & Hns & Hle).
  destruct ids as [|top ids _] using rev_ind; [cbn in *; lia|].
  rewrite length_app in Hle, Hn. cbn [length] in Hle, Hn.
  destruct (tab_inv _ _ _ _ Ht ltac:(lia)) as (e & s & base & Hst & He & Hs & Ha & Hb & Ht').
  assert (is_Some (blocks tb !! top)) as [s1 Hs1] by (apply Hd; set_solver).
  assert (Z.shiftr (nslots tb) SEGSZ_EXP - 1 = zlen ids) as Hsix by (rewrite (six_length _ (ids ++ [top])), length_app; [cbn; lia|rewrite length_app; cbn [length]; lia]).
  pose proof Hnd as (Hnd' & Hni & _)%NoDup_app.
  assert (top ∉ ids) as Htop by (intros ?; eapply Hni; [done|set_solver]).
  assert (∀ k e0, ids !! k = Some e0 → e0 ≠ top) as Hne by (intros k e0 Hk ->; by apply Htop, (list_elem_of_lookup_2 _ k)).
  rewrite fmap_app, mjoin_app.
  assert (mjoin (bkts (blocks tb) <$> [top]) = buckets s1) as Hlast by (cbn; unfold bkts; rewrite Hs1; cbn; by rewrite app_nil_r).
  rewrite Hlast. unfold free_seg. rewrite Hsix, Hst. cbn [mbind option_bind]. rewrite Hs. cbn [mbind option_bind]. rewrite Ha. cbn [mbind option_bind].
  unfold at_ix. rewrite (proj2 (Z.leb_le 0 (zlen ids))), Nat2Z.id by lia. rewrite seq_lookup_entry by lia. cbn [mjoin option_join].
  rewrite list_lookup_middle by done. cbn [mbind option_bind]. rewrite Hs1. cbn [mbind option_bind].
  assert (length (buckets s1) = 256%nat) as Hl1. { rewrite <- Hlast. cbn. rewrite app_nil_r. apply Forall_app in Hf as [_ Hf]. by inversion Hf. }
  case_bool_decide as Htb.
  - subst e. simplify_eq. assert (base = length ids) as ->. { eapply NoDup_lookup; [exact Hnd|done|by apply list_lookup_middle]. }
    eexists _, _, _, _, _. split; [done|]. split; [done|]. split; [done|].
    eapply (segs_init _ _ top _ _ (length ids)); [done|by rewrite lookup_delete_eq|..|done|done|done].
    + intros e0 H0. assert (top ≠ e0) by set_solver. unfold bkts. rewrite lookup_delete_ne by done. split; [apply Hd; set_solver|done].
    + intros e0. destruct (decide (top = e0)) as [->|]; [rewrite lookup_delete_eq; by intros []|by rewrite lookup_delete_ne].
    + eapply (tab_ok_agree (blocks tb) _ (ids ++ [top])); [intros k Hk; by rewrite lookup_app_l by lia| |done]. intros k e0 s0 Hk H0 Hs0. exists s0.
      rewrite lookup_app_l in H0 by lia. rewrite lookup_delete_ne by (intros ->; by eapply Hne). done.
  - assert (base < length ids)%nat as Hbl.
    { destruct (decide (base < length ids)%nat); [done|]. pose proof (lookup_lt_Some _ _ _ He) as Hlt. rewrite length_app in Hlt. cbn in Hlt.
      assert (base = length ids) as -> by lia. rewrite list_lookup_middle in He by done. by simplify_eq. }
    rewrite lookup_app_l in He by done.
    eexists _, _, _, _, _. split; [done|]. split; [done|]. split; [done|].
    eapply (segs_init _ _ top _ _ n); [done|by rewrite lookup_delete_eq|..|lia|done|done].
    + intros e0 H0. assert (top ≠ e0) by set_solver. unfold bkts. rewrite lookup_delete_ne by done.
      destruct (decide (e = e0)) as [<-|]; [rewrite lookup_insert_eq, Hs; by eauto|rewrite lookup_insert_ne by done; split; [apply Hd; set_solver|done]].
    + intros e0. destruct (decide (top = e0)) as [->|]; [rewrite lookup_delete_eq; by intros []|rewrite lookup_delete_ne by done].
      destruct (decide (e = e0)) as [<-|]; [rewrite Hs; by eauto|by rewrite lookup_insert_ne].
    + eapply (tab_ext _ _ e _ base); [done|rewrite lookup_delete_ne, lookup_insert_eq by done; done| |lia|]; cbn [ext_segtab last_segtab].
      * f_equal. symmetry. apply entries_init. lia.
      * eapply (tab_ok_agree (blocks tb) _ (ids ++ [top])); [intros k Hk; by rewrite lookup_app_l by lia| |done]. intros k e0 s0 Hk H0 Hs0. exists s0.
        rewrite lookup_app_l in H0 by lia. rewrite lookup_delete_ne, lookup_insert_ne; [done|intros ->; pose proof (NoDup_lookup _ _ _ _ Hnd' He H0); lia|].
        intros ->. by eapply Hne.
Qed.

End Segs.
