(* ===== verification/DbHashChain.v ===== *)
(** The chains of a hashed ETS table: what the loops over a bucket do, in terms of the run of nodes that have the key. *)

From Stdlib Require Import ZArith ZifyBool.
From stdpp Require Import base list numbers option sets gmap.
From S2P Require Import Prelude Grouped DbUtil DbHash.
Local Open Scope Z_scope.

Section Chain.
Context {Obj T : Type} `{EqDecision Obj, EqDecision T, !DbHashTerms Obj T}.
Implicit Types (b q : HashDbTerm Obj) (chain pre grp post l : list (HashDbTerm Obj)) (k : T) (obj : Obj) (st : db_type).

(** A live node has the hash value of its key. *)
Definition node_ok b : Prop := hvalue b = MAKE_HASH (node_key b) ∨ hvalue b = INVALID_HASH.

Lemma MAKE_HASH_range k : 0 ≤ MAKE_HASH k < INVALID_HASH.
Proof. unfold MAKE_HASH, MAX_HASH, INVALID_HASH. pose proof (Z.mod_pos_bound (hash k) 4026531839 eq_refl). lia. Qed.

Lemma live_spec b : live b = true ↔ hvalue b ≠ INVALID_HASH.
Proof. unfold live. lia. Qed.

Lemma has_key_ok b k : node_ok b → has_key b k (MAKE_HASH k) = bool_decide (node_key b = k).
Proof.
  intros Hb. pose proof (MAKE_HASH_range k). unfold has_key, live. destruct Hb as [->| ->].
  - destruct (decide (node_key b = k)) as [->|Hk]; [rewrite Z.eqb_refl; cbn; by rewrite !bool_decide_eq_true_2|].
    rewrite !bool_decide_eq_false_2 by done. by case_match.
  - rewrite (Z.eqb_refl INVALID_HASH), andb_false_r. apply bool_decide_ext. naive_solver.
Qed.

Lemma has_live_key_ok b k : node_ok b → has_live_key b k (MAKE_HASH k) = bool_decide (node_key b = k) && live b.
Proof.
  intros Hb. pose proof (MAKE_HASH_range k). unfold has_live_key, live. destruct Hb as [->| ->].
  - pose proof (MAKE_HASH_range (node_key b)). rewrite (proj2 (Z.eqb_neq (MAKE_HASH (node_key b)) INVALID_HASH)), andb_true_r by lia.
    destruct (decide (node_key b = k)) as [->|Hk]; [rewrite Z.eqb_refl; cbn; by rewrite !bool_decide_eq_true_2|].
    rewrite !bool_decide_eq_false_2 by done. by case_match.
  - rewrite (proj2 (Z.eqb_neq INVALID_HASH (MAKE_HASH k))), Z.eqb_refl, andb_false_r by lia. done.
Qed.

(** ** Order and repetitions in a chain *)

(** In a bag a node behind an equal one is not live. *)
Fixpoint bag_ok chain : Prop :=
  match chain with
  | [] => True
  | a :: l => Forall (λ b, dbterm b = dbterm a → live b = false) l ∧ bag_ok l
  end.

Definition keys chain : list T := node_key <$> chain.

Definition chain_ok st chain : Prop :=
  Forall node_ok chain ∧ grouped (keys chain) ∧ (st = DB_SET → NoDup (keys chain)) ∧ (st = DB_BAG → bag_ok chain).

(** The run of [k] is [grp]. *)
Definition run k chain pre grp post : Prop :=
  chain = pre ++ grp ++ post ∧ Forall (λ b, node_key b ≠ k) pre ∧ Forall (λ b, node_key b = k) grp ∧
  Forall (λ b, node_key b ≠ k) post ∧ (grp = [] → post = []).

Lemma not_in_keys k l : k ∉ keys l ↔ Forall (λ b, node_key b ≠ k) l.
Proof. unfold keys. rewrite list_elem_of_fmap, Forall_forall. naive_solver. Qed.

Lemma keys_run k l : Forall (λ b, node_key b = k) l ↔ keys l = replicate (length l) k.
Proof. unfold keys. induction l as [|b l IH]; cbn; [done|]. rewrite Forall_cons, IH. naive_solver congruence. Qed.

Lemma run_exists k chain : grouped (keys chain) → ∃ pre grp post, run k chain pre grp post.
Proof.
  intros (kpre & n & kpost & E & Hpre & Hpost & Hn)%(λ H, grouped_split _ k H).
  apply fmap_app_inv in E as (pre & l & -> & E & ->). symmetry in E. apply fmap_app_inv in E as (grp & post & Hg & -> & ->).
  exists pre, grp, post. split; [done|]. rewrite <- !not_in_keys. split; [done|]. split; [|split; [done|]].
  - apply keys_run. unfold keys. rewrite <- Hg. f_equal. pose proof (f_equal length Hg) as Hl. by rewrite length_replicate, length_fmap in Hl.
  - intros ->. destruct n; [|done]. by apply fmap_nil_inv in Hn.
Qed.

Lemma bag_ok_app l1 l2 : bag_ok (l1 ++ l2) ↔ bag_ok l1 ∧ bag_ok l2 ∧ Forall (λ a, Forall (λ b, dbterm b = dbterm a → live b = false) l2) l1.
Proof.
  induction l1 as [|a l1 IH]; cbn; [rewrite Forall_nil; tauto|]. rewrite IH, Forall_app, Forall_cons. tauto.
Qed.

Lemma other_key_differ k l1 l2 :
  Forall (λ b, node_key b = k) l1 → Forall (λ b, node_key b ≠ k) l2 →
  Forall (λ a, Forall (λ b, dbterm b = dbterm a → live b = false) l2) l1 ∧ Forall (λ a, Forall (λ b, dbterm b = dbterm a → live b = false) l1) l2.
Proof.
  unfold node_key. rewrite !Forall_forall. intros H1 H2. split; intros a Ha; rewrite Forall_forall; intros b Hb E.
  - destruct (H2 b Hb). rewrite E. by apply H1.
  - destruct (H2 a Ha). rewrite <- E. by apply H1.
Qed.

Lemma bag_ok_run k pre grp post :
  Forall (λ b, node_key b ≠ k) pre → Forall (λ b, node_key b = k) grp → Forall (λ b, node_key b ≠ k) post →
  bag_ok (pre ++ grp ++ post) ↔ bag_ok (pre ++ post) ∧ bag_ok grp.
Proof.
  intros Hpre Hgrp Hpost. destruct (other_key_differ _ _ _ Hgrp Hpost) as [H1 H2]. destruct (other_key_differ _ _ _ Hgrp Hpre) as [H3 H4].
  assert (∀ l1 l2 l3, Forall (λ a, Forall (λ b, dbterm b = dbterm a → live b = false) (l2 ++ l3)) l1 ↔
            Forall (λ a, Forall (λ b, dbterm b = dbterm a → live b = false) l2) l1 ∧ Forall (λ a, Forall (λ b, dbterm b = dbterm a → live b = false) l3) l1) as E.
  { intros. rewrite !Forall_forall. setoid_rewrite Forall_app. clear. firstorder. }
  rewrite !bag_ok_app, E. tauto.
Qed.

(** Replacing the run of a key *)
Lemma chain_ok_update st k chain pre grp grp' post :
  chain_ok st chain → run k chain pre grp post →
  Forall node_ok grp' → Forall (λ b, node_key b = k) grp' → (st = DB_SET → length grp' ≤ 1)%nat → (st = DB_BAG → bag_ok grp') →
  chain_ok st (pre ++ grp' ++ post).
Proof.
  intros (Hn & Hg & Hset & Hbag) Hrun Hn' Hk' Hl' Hb'. pose proof Hrun as (-> & Hpre & Hgrp & Hpost & Hnil).
  rewrite !Forall_app in Hn. rewrite <- !not_in_keys in Hpre, Hpost.
  split; [rewrite !Forall_app; tauto|]. unfold keys in *. rewrite !fmap_app in *. fold (keys pre) (keys grp) (keys post) (keys grp') in *.
  rewrite (proj1 (keys_run k grp) Hgrp) in *. rewrite (proj1 (keys_run k grp') Hk'). split; [|split].
  - eapply grouped_run; [done|done| |exact Hg]. intros ?%length_zero_iff_nil. by rewrite Hnil.
  - intros Hs. specialize (Hset Hs). specialize (Hl' Hs). apply NoDup_app in Hset as (H1 & H2 & H3). apply NoDup_app in H3 as (_ & _ & H3).
    destruct grp' as [|b [|]]; cbn in *; [| |lia].
    + apply NoDup_app. split; [done|]. split; [|done]. intros x Hx Hx'. eapply H2; [done|]. set_solver.
    + apply NoDup_app. split; [done|]. split; [|apply NoDup_cons; done]. intros x Hx [->|Hx']%elem_of_cons; [done|]. eapply H2; [done|]. set_solver.
  - intros Hb. rewrite !not_in_keys in Hpre, Hpost. apply (bag_ok_run k); [done..|].
    split; [|by apply Hb']. specialize (Hbag Hb). by apply (bag_ok_run k) in Hbag as [? _].
Qed.

(** ** Searching *)

Lemma seek_app (test : HashDbTerm Obj → bool) pre suf :
  Forall (λ b, test b = false) pre → match suf with [] => True | b :: _ => test b = true end → seek test (pre ++ suf) = (pre, suf).
Proof.
  intros Hpre Hsuf. induction Hpre as [|b pre Hb Hpre IH]; cbn [app seek].
  - destruct suf as [|b suf]; [done|]. cbn. by rewrite Hsuf.
  - by rewrite Hb, IH.
Qed.

Lemma seek_run k chain pre grp post :
  Forall node_ok chain → run k chain pre grp post → seek (λ b, has_key b k (MAKE_HASH k)) chain = (pre, grp ++ post).
Proof.
  intros Hn (-> & Hpre & Hgrp & Hpost & Hnil). rewrite !Forall_app in Hn. destruct Hn as (Hn1 & Hn2 & _). apply seek_app.
  - rewrite Forall_forall in *. intros b Hb. rewrite has_key_ok by auto. apply bool_decide_eq_false_2. auto.
  - destruct grp as [|b grp]; [by rewrite Hnil|]. cbn. inversion Hn2; inversion Hgrp; subst. rewrite has_key_ok by done. by apply bool_decide_eq_true_2.
Qed.

Lemma group_run k grp post :
  Forall node_ok (grp ++ post) → Forall (λ b, node_key b = k) grp → Forall (λ b, node_key b ≠ k) post →
  group (λ b, has_key b k (MAKE_HASH k)) (grp ++ post) = grp.
Proof.
  intros Hn Hgrp Hpost. induction Hgrp as [|b grp Hb Hgrp IH]; cbn [app group].
  - destruct post as [|b post]; [done|]. inversion Hn; inversion Hpost; subst. cbn. rewrite has_key_ok by done. by rewrite bool_decide_eq_false_2.
  - inversion Hn; subst. rewrite has_key_ok, bool_decide_eq_true_2 by done. by rewrite IH.
Qed.

(** The dead nodes at the start of a list *)
Lemma first_live_split l : ∃ dead rest, l = dead ++ rest ∧ Forall (λ b, live b = false) dead ∧ match rest with [] => True | b :: _ => live b = true end.
Proof.
  induction l as [|b l (dead & rest & -> & Hd & Hr)]; [by exists [], []|]. destruct (live b) eqn:E.
  - by exists [], (b :: dead ++ rest).
  - exists (b :: dead), rest. split; [done|]. by split; [constructor|].
Qed.

Lemma first_live_app dead rest :
  Forall (λ b, live b = false) dead → match rest with [] => True | b :: _ => live b = true end → first_live (dead ++ rest) = rest.
Proof. intros. unfold first_live. by rewrite seek_app. Qed.

Lemma seek_live_run k chain pre dead rest post :
  Forall node_ok chain → run k chain pre (dead ++ rest) post → Forall (λ b, live b = false) dead →
  match rest with [] => True | b :: _ => live b = true end →
  seek (λ b, has_live_key b k (MAKE_HASH k)) chain = match rest with [] => (chain, []) | _ => (pre ++ dead, rest ++ post) end.
Proof.
  intros Hn (-> & Hpre & Hgrp & Hpost & Hnil) Hd Hr. rewrite !Forall_app in Hn. destruct Hn as (Hn1 & [Hn2 Hn3] & Hn4).
  assert (Forall (λ b, has_live_key b k (MAKE_HASH k) = false) (pre ++ dead)) as Hpd.
  { apply Forall_app. split; rewrite Forall_forall in *; intros b Hb; rewrite has_live_key_ok by auto.
    - by rewrite bool_decide_eq_false_2 by auto.
    - by rewrite Hd, andb_false_r by done. }
  destruct rest as [|b rest].
  - rewrite app_nil_r. rewrite <- (app_nil_r (pre ++ dead ++ post)) at 1. apply seek_app; [|done]. rewrite (assoc (++)). apply Forall_app. split; [done|].
    rewrite Forall_forall in *. intros b Hb. rewrite has_live_key_ok, bool_decide_eq_false_2 by auto. done.
  - rewrite <- (assoc (++) dead), (assoc (++) pre). apply seek_app; [done|]. cbn.
    apply Forall_app in Hgrp as [_ Hgrp]. inversion Hn3; inversion Hgrp; subst. rewrite has_live_key_ok, bool_decide_eq_true_2 by done. done.
Qed.

(** ** The objects of a chain *)

Definition objs l : list Obj := dbterm <$> purge l.

Lemma purge_cons b l : purge (b :: l) = if live b then b :: purge l else purge l.
Proof. unfold purge. destruct (live b) eqn:E; [by rewrite filter_cons_True|by rewrite filter_cons_False by (rewrite E; done)]. Qed.

Lemma purge_app l l' : purge (l ++ l') = purge l ++ purge l'.
Proof. apply filter_app. Qed.

Lemma objs_cons b l : objs (b :: l) = if live b then dbterm b :: objs l else objs l.
Proof. unfold objs. rewrite purge_cons. by case_match. Qed.

Lemma objs_app l l' : objs (l ++ l') = objs l ++ objs l'.
Proof. unfold objs. by rewrite purge_app, fmap_app. Qed.

Lemma objs_dead l : Forall (λ b, live b = false) l → objs l = [].
Proof. induction 1 as [|b l Hb Hl IH]; [done|]. by rewrite objs_cons, Hb. Qed.

Lemma purge_live l : Forall (λ b, live b = true) (purge l).
Proof. unfold purge. rewrite Forall_forall. intros b [Hb _]%list_elem_of_filter. by destruct (live b). Qed.

Lemma purge_id l : Forall (λ b, live b = true) l → purge l = l.
Proof. induction 1 as [|b l Hb Hl IH]; [done|]. by rewrite purge_cons, Hb, IH. Qed.

Lemma purge_sublist l : purge l `sublist_of` l.
Proof. induction l as [|b l IH]; [done|]. rewrite purge_cons. destruct (live b); [by apply sublist_skip|by apply sublist_cons]. Qed.

Lemma objs_purge l : objs (purge l) = objs l.
Proof. unfold objs. by rewrite (purge_id (purge l)) by apply purge_live. Qed.

Abbreviation of_objkey := (of_key GETKEY).

Lemma objs_of_key k l : Forall (λ b, node_key b = k) l → of_objkey k (objs l) = objs l.
Proof.
  induction 1 as [|b l Hb Hl IH]; [done|]. rewrite objs_cons. destruct (live b); [|done]. unfold of_key in *. rewrite filter_cons_True by done. by rewrite IH.
Qed.

Lemma objs_other_key k l : Forall (λ b, node_key b ≠ k) l → of_objkey k (objs l) = [].
Proof.
  induction 1 as [|b l Hb Hl IH]; [done|]. rewrite objs_cons. destruct (live b); [|done]. unfold of_key in *. by rewrite filter_cons_False.
Qed.

Lemma objs_run k chain pre grp post : run k chain pre grp post → of_objkey k (objs chain) = objs grp.
Proof.
  intros (-> & Hpre & Hgrp & Hpost & _). rewrite !objs_app, !of_key_app, (objs_other_key k pre), (objs_other_key k post), objs_of_key by done.
  by rewrite app_nil_r.
Qed.

Lemma objs_other_run k k' pre grp grp' post :
  k' ≠ k → Forall (λ b, node_key b = k) grp → Forall (λ b, node_key b = k) grp' →
  of_objkey k' (objs (pre ++ grp ++ post)) = of_objkey k' (objs (pre ++ grp' ++ post)).
Proof.
  intros Hk H H'. rewrite !objs_app, !of_key_app, (objs_other_key k' grp), (objs_other_key k' grp'); [done|..];
    (eapply Forall_impl; [done|]; cbn; congruence).
Qed.

(** ** Loops for insertion *)

Lemma clash_run k grp post :
  Forall node_ok (grp ++ post) → Forall (λ b, node_key b = k) grp → Forall (λ b, node_key b ≠ k) post →
  clash k (MAKE_HASH k) (grp ++ post) = negb (bool_decide (objs grp = [])).
Proof.
  intros Hn Hgrp Hpost. induction Hgrp as [|b grp Hb Hgrp IH]; cbn [app clash].
  - destruct post as [|b post]; [done|]. inversion Hn; inversion Hpost; subst. cbn. rewrite has_key_ok by done. by rewrite bool_decide_eq_false_2.
  - inversion Hn; subst. rewrite has_key_ok, bool_decide_eq_true_2, objs_cons by done. destruct (live b); [done|]. by apply IH.
Qed.

Lemma find_equal_run obj k grp post :
  Forall node_ok (grp ++ post) → Forall (λ b, node_key b = k) grp → Forall (λ b, node_key b ≠ k) post →
  match find_equal obj k (MAKE_HASH k) (grp ++ post) with
  | None => Forall (λ b, dbterm b ≠ obj) grp
  | Some (before, q, rest) =>
      ∃ after, rest = after ++ post ∧ grp = before ++ q :: after ∧ dbterm q = obj ∧ Forall (λ b, dbterm b ≠ obj) before
  end.
Proof.
  intros Hn Hgrp Hpost. induction Hgrp as [|b grp Hb Hgrp IH]; cbn [app find_equal].
  - destruct post as [|b post]; [by constructor|]. inversion Hn; inversion Hpost; subst. cbn.
    rewrite has_key_ok, bool_decide_eq_false_2 by done. by constructor.
  - inversion Hn; subst. rewrite has_key_ok, bool_decide_eq_true_2 by done. case_bool_decide as E; [by exists grp|].
    specialize (IH ltac:(done)). destruct (find_equal _ _ _ _) as [[[before q] rest]|]; cbn; [|by constructor].
    destruct IH as (after & -> & -> & Hq & Hf). exists after. split_and!; [done..|]. by constructor.
Qed.

(** ** Loops for deletion *)

(** [l'] is [l] without some of its nodes, and with others marked as deleted. *)
Inductive thinned : list (HashDbTerm Obj) → list (HashDbTerm Obj) → Prop :=
| thin_nil : thinned [] []
| thin_skip b l' l : thinned l' l → thinned l' (b :: l)
| thin_keep b l' l : thinned l' l → thinned (b :: l') (b :: l)
| thin_kill b l' l : thinned l' l → thinned (HDT INVALID_HASH (dbterm b) :: l') (b :: l).

Lemma thinned_refl l : thinned l l.
Proof. induction l; by constructor. Qed.

Lemma thinned_Forall (P : HashDbTerm Obj → Prop) l' l :
  (∀ b, P b → P (HDT INVALID_HASH (dbterm b))) → thinned l' l → Forall P l → Forall P l'.
Proof. intros HP. induction 1; rewrite ?Forall_cons; intros; cleanup; auto. Qed.

Lemma thinned_node_ok l' l : thinned l' l → Forall node_ok l → Forall node_ok l'.
Proof. apply thinned_Forall. intros b _. by right. Qed.

Lemma thinned_key k l' l : thinned l' l → Forall (λ b, node_key b = k) l → Forall (λ b, node_key b = k) l'.
Proof. by apply thinned_Forall. Qed.

Lemma thinned_length l' l : thinned l' l → (length l' ≤ length l)%nat.
Proof. induction 1; cbn; lia. Qed.

Lemma thinned_bag_ok l' l : thinned l' l → bag_ok l → bag_ok l'.
Proof.
  induction 1 as [| |b l' l H IH|b l' l H IH]; cbn; [done|tauto|..]; intros [Hf Hb]; (split; [|auto]);
    (eapply thinned_Forall; [|exact H|exact Hf]); done.
Qed.

(** What a deletion loop does to the run of the key, as far as the table depends on it: [cs] is the part of the chain from the run
    on, [d] the change of the number of objects, [a] whether a deletion was recorded *)
Definition erased (fixed first : bool) grp post (objs' : list Obj) (cs : list (HashDbTerm Obj)) (d : Z) (a0 a : bool) : Prop :=
  ∃ grp', cs = grp' ++ post ∧ thinned grp' grp ∧ objs grp' = objs' ∧ d = zlen objs' - zlen (objs grp) ∧
    (a = false → a0 = false ∧ grp' `sublist_of` grp) ∧ (first = true → fixed = true → grp ≠ [] → grp' ≠ []).

Lemma other_not_live_key k b : node_ok b → node_key b ≠ k → has_live_key b k (MAKE_HASH k) = false.
Proof. intros. by rewrite has_live_key_ok, bool_decide_eq_false_2. Qed.

Lemma run_live_key k b : node_ok b → node_key b = k → has_live_key b k (MAKE_HASH k) = live b.
Proof. intros. by rewrite has_live_key_ok, bool_decide_eq_true_2. Qed.

Lemma erase_loop_post fixed k post d a :
  Forall node_ok post → Forall (λ b, node_key b ≠ k) post → erase_loop fixed k (MAKE_HASH k) post d a = (post, d, a).
Proof.
  intros Hn Hk. revert d a. induction Hk as [|b post Hb Hk IH]; intros d a; [done|]. inversion Hn; subst. cbn [erase_loop].
  rewrite other_not_live_key by done. case_match; [done|]. by rewrite IH.
Qed.

Lemma erase_loop_grp fixed k grp post d0 a0 :
  Forall node_ok (grp ++ post) → Forall (λ b, node_key b = k) grp → Forall (λ b, node_key b ≠ k) post → d0 ≤ 0 →
  let '(cs, d, a) := erase_loop fixed k (MAKE_HASH k) (grp ++ post) d0 a0 in
  erased fixed (d0 =? 0) grp post [] cs (d - d0) a0 a.
Proof.
  intros Hn Hgrp Hpost. revert d0 a0. induction Hgrp as [|b grp Hb Hgrp IH]; intros d0 a0 Hd0; cbn [app].
  - rewrite erase_loop_post by done. exists []. cbn. split_and!; [done|constructor|done|lia|done|done].
  - inversion Hn; subst. cbn [erase_loop]. rewrite run_live_key by done. destruct (live b) eqn:El.
    + destruct (decide (fixed = true ∧ d0 = 0)) as [[-> ->]|Hfd].
      * rewrite (proj2 (Z.eqb_eq (0 - 1) (-1))) by lia. cbn [andb]. specialize (IH ltac:(done) (0 - 1) true ltac:(lia)).
        destruct (erase_loop _ _ _ _ _ _) as [[cs d] a]. destruct IH as (grp' & -> & Ht & Ho & Hd & Ha & _).
        exists (HDT INVALID_HASH (dbterm b) :: grp'). split_and!; [done|by apply thin_kill|by rewrite objs_cons| | |done].
        -- rewrite objs_cons, El. cbn [length] in *. lia.
        -- intros ->. by destruct Ha.
      * assert ((d0 - 1 =? -1) && fixed = false) as -> by (destruct fixed; [|lia]; rewrite andb_true_r; apply Z.eqb_neq; intros ?; apply Hfd; split; [done|lia]).
        specialize (IH ltac:(done) (d0 - 1) a0 ltac:(lia)). destruct (erase_loop _ _ _ _ _ _) as [[cs d] a].
        destruct IH as (grp' & -> & Ht & Ho & Hd & Ha & _). exists grp'. split_and!; [done|by apply thin_skip|done| | |].
        -- rewrite objs_cons, El. cbn [length] in *. lia.
        -- intros ->. destruct Ha; [done|]. split; [done|by apply sublist_cons].
        -- intros ?%Z.eqb_eq ->. exfalso. by apply Hfd.
    + rewrite andb_false_r. specialize (IH ltac:(done) d0 a0 Hd0). destruct (erase_loop _ _ _ _ _ _) as [[cs d] a].
      destruct IH as (grp' & -> & Ht & Ho & Hd & Ha & _). exists (b :: grp'). split_and!; [done|by apply thin_keep|by rewrite objs_cons, El| | |done].
      * rewrite objs_cons, El. lia.
      * intros ->. destruct Ha; [done|]. split; [done|by apply sublist_skip].
Qed.

Lemma erase_loop_pre fixed k pre cs :
  Forall node_ok pre → Forall (λ b, node_key b ≠ k) pre →
  erase_loop fixed k (MAKE_HASH k) (pre ++ cs) 0 false =
    let '(c, d, a) := erase_loop fixed k (MAKE_HASH k) cs 0 false in (pre ++ c, d, a).
Proof.
  intros Hn Hk. induction Hk as [|b pre Hb Hk IH]; [by repeat case_match|]. inversion Hn; subst. cbn [app erase_loop].
  rewrite other_not_live_key by done. cbn [Z.eqb negb andb]. rewrite IH by done. by destruct (erase_loop _ _ _ cs _ _) as [[c d] a].
Qed.

Lemma erase_loop_run fixed k chain pre grp post :
  Forall node_ok chain → run k chain pre grp post →
  ∃ cs d a, erase_loop fixed k (MAKE_HASH k) chain 0 false = (pre ++ cs, d, a) ∧ erased fixed true grp post [] cs d false a.
Proof.
  intros Hn (-> & Hpre & Hgrp & Hpost & _). apply Forall_app in Hn as [Hn1 Hn2]. rewrite erase_loop_pre by done.
  pose proof (erase_loop_grp fixed k grp post 0 false Hn2 Hgrp Hpost ltac:(lia)) as He.
  destruct (erase_loop _ _ _ (grp ++ post) _ _) as [[cs d] a]. exists cs, d, a. by rewrite Z.sub_0_r in He.
Qed.

Definition without obj (l : list Obj) : list Obj := filter (λ o, o ≠ obj) l.

Lemma without_cons obj (o : Obj) (l : list Obj) : without obj (o :: l) = if bool_decide (o = obj) then without obj l else o :: without obj l.
Proof. unfold without. case_bool_decide; [by rewrite filter_cons_False by tauto|by rewrite filter_cons_True]. Qed.

Lemma without_absent obj (l : list Obj) : obj ∉ l → without obj l = l.
Proof. induction l as [|o l IH]; intros Hl; [done|]. rewrite without_cons, bool_decide_eq_false_2 by set_solver. f_equal. set_solver. Qed.

Lemma erase_object_loop_post fixed dup obj k post n d a :
  Forall node_ok post → Forall (λ b, node_key b ≠ k) post →
  erase_object_loop fixed dup obj k (MAKE_HASH k) post n d a = (post, d, a).
Proof.
  intros Hn Hk. revert d a. induction Hk as [|b post Hb Hk IH]; intros d a; [done|]. inversion Hn; subst. cbn [erase_object_loop].
  rewrite other_not_live_key by done. case_match; [done|]. by rewrite IH.
Qed.

(** [single]: at most one live object is equal to [obj]. *)
Definition single obj (l : list Obj) : Prop := (length (filter (λ o, o = obj) l) ≤ 1)%nat.

Lemma single_cons obj (o : Obj) (l : list Obj) : single obj (o :: l) → single obj l ∧ (o = obj → obj ∉ l).
Proof.
  unfold single. destruct (decide (o = obj)) as [->|]; [rewrite filter_cons_True by done|rewrite filter_cons_False by done]; [|done].
  cbn. intros Hl. split; [lia|]. intros _ Hin. assert (length (filter (λ o, o = obj) l) = 0)%nat as Hz by lia.
  apply nil_length_inv in Hz. apply (not_elem_of_nil obj). rewrite <- Hz. by apply list_elem_of_filter.
Qed.

Lemma erase_object_loop_grp fixed dup obj k grp post n d0 a0 :
  Forall node_ok (grp ++ post) → Forall (λ b, node_key b = k) grp → Forall (λ b, node_key b ≠ k) post → 0 ≤ n →
  (dup = false → single obj (objs grp)) →
  let '(cs, d, a) := erase_object_loop fixed dup obj k (MAKE_HASH k) (grp ++ post) n d0 a0 in
  erased fixed (n =? 0) grp post (without obj (objs grp)) cs (d - d0) a0 a.
Proof.
  intros Hn Hgrp Hpost. revert n d0 a0. induction Hgrp as [|b grp Hb Hgrp IH]; intros n d0 a0 Hn0 Hs; cbn [app].
  - rewrite erase_object_loop_post by done. exists []. cbn. split_and!; [done|constructor|done|lia|done|done].
  - inversion Hn; subst. cbn [erase_object_loop]. rewrite run_live_key by done. rewrite objs_cons in Hs |- *. unfold erased. rewrite objs_cons.
    destruct (live b) eqn:El.
    + assert (dup = false → single obj (objs grp)) as Hs' by (intros ?; by apply (single_cons _ (dbterm b)), Hs).
      rewrite without_cons, (bool_decide_ext (obj = dbterm b) (dbterm b = obj)) by naive_solver. case_bool_decide as Eq.
      * destruct (decide (fixed = true ∧ n = 0)) as [[-> ->]|Hfn].
        -- cbn [Z.add Z.eqb andb Pos.eqb]. destruct dup.
           ++ specialize (IH ltac:(done) 1 (d0 - 1) true ltac:(lia) ltac:(done)). destruct (erase_object_loop _ _ _ _ _ _ _ _ _) as [[cs d] a].
              destruct IH as (grp' & -> & Ht & Ho & Hd & Ha & _).
              exists (HDT INVALID_HASH (dbterm b) :: grp'). split_and!; [done|by apply thin_kill|by rewrite objs_cons| | |done].
              ** cbn [length] in *. lia.
              ** intros ->. by destruct Ha.
           ++ assert (obj ∉ objs grp) by (apply (single_cons obj (dbterm b)); auto). rewrite without_absent by done.
              exists (HDT INVALID_HASH (dbterm b) :: grp). split_and!; [done|apply thin_kill, thinned_refl|by rewrite objs_cons| |done|done].
              cbn [length]. lia.
        -- assert ((n + 1 =? 1) && fixed = false) as -> by (destruct fixed; [|lia]; rewrite andb_true_r; apply Z.eqb_neq; intros ?; apply Hfn; split; [done|lia]).
           assert (n =? 0 = true → fixed = true → False) as Hf by (intros ?%Z.eqb_eq ->; by apply Hfn). destruct dup.
           ++ specialize (IH ltac:(done) (n + 1) (d0 - 1) a0 ltac:(lia) ltac:(done)). destruct (erase_object_loop _ _ _ _ _ _ _ _ _) as [[cs d] a].
              destruct IH as (grp' & -> & Ht & Ho & Hd & Ha & _). exists grp'. split_and!; [done|by apply thin_skip|done| | |intros; by destruct Hf].
              ** cbn [length] in *. lia.
              ** intros ->. destruct Ha; [done|]. split; [done|by apply sublist_cons].
           ++ assert (obj ∉ objs grp) by (apply (single_cons obj (dbterm b)); auto). rewrite without_absent by done.
              exists grp. split_and!; [done|apply thin_skip, thinned_refl|done| |intros; split; [done|by apply sublist_cons]|intros; by destruct Hf].
              cbn [length]. lia.
      * specialize (IH ltac:(done) (n + 1) d0 a0 ltac:(lia) Hs'). destruct (erase_object_loop _ _ _ _ _ _ _ _ _) as [[cs d] a].
        destruct IH as (grp' & -> & Ht & Ho & Hd & Ha & _). exists (b :: grp').
        split_and!; [done|by apply thin_keep|rewrite objs_cons, El; congruence|cbn [length]; lia| |done].
        intros ->. destruct Ha; [done|]. split; [done|by apply sublist_skip].
    + rewrite andb_false_r. specialize (IH ltac:(done) n d0 a0 Hn0 Hs). destruct (erase_object_loop _ _ _ _ _ _ _ _ _) as [[cs d] a].
      destruct IH as (grp' & -> & Ht & Ho & Hd & Ha & _). exists (b :: grp'). split_and!; [done|by apply thin_keep|by rewrite objs_cons, El|done| |done].
      intros ->. destruct Ha; [done|]. split; [done|by apply sublist_skip].
Qed.

Lemma erase_object_loop_pre fixed dup obj k pre cs :
  Forall node_ok pre → Forall (λ b, node_key b ≠ k) pre →
  erase_object_loop fixed dup obj k (MAKE_HASH k) (pre ++ cs) 0 0 false =
    let '(c, d, a) := erase_object_loop fixed dup obj k (MAKE_HASH k) cs 0 0 false in (pre ++ c, d, a).
Proof.
  intros Hn Hk. induction Hk as [|b pre Hb Hk IH]; cbn [app]; [by destruct (erase_object_loop _ _ _ _ _ cs _ _ _) as [[? ?] ?]|].
  inversion Hn; subst. cbn [erase_object_loop]. rewrite other_not_live_key by done. cbn [Z.eqb negb andb]. rewrite IH by done.
  by destruct (erase_object_loop _ _ _ _ _ cs _ _ _) as [[c d] a].
Qed.

Lemma erase_object_loop_run fixed dup obj k chain pre grp post :
  Forall node_ok chain → run k chain pre grp post → (dup = false → single obj (objs grp)) →
  ∃ cs d a, erase_object_loop fixed dup obj k (MAKE_HASH k) chain 0 0 false = (pre ++ cs, d, a) ∧
            erased fixed true grp post (without obj (objs grp)) cs d false a.
Proof.
  intros Hn (-> & Hpre & Hgrp & Hpost & _) Hs. apply Forall_app in Hn as [Hn1 Hn2]. rewrite erase_object_loop_pre by done.
  pose proof (erase_object_loop_grp fixed dup obj k grp post 0 0 false Hn2 Hgrp Hpost ltac:(lia) Hs) as He.
  destruct (erase_object_loop _ _ _ _ _ (grp ++ post) _ _ _) as [[cs d] a]. exists cs, d, a. by rewrite Z.sub_0_r in He.
Qed.

(** In a bag, and in a set, an object is live once at most. *)
Lemma bag_ok_single obj l : bag_ok l → single obj (objs l).
Proof.
  induction l as [|b l IH]; [intros; unfold single; cbn; lia|]; cbn [bag_ok]. intros [Hf Hb]. specialize (IH Hb). rewrite objs_cons. destruct (live b); [|done].
  unfold single in *. destruct (decide (dbterm b = obj)) as [E|E]; [rewrite filter_cons_True by done|by rewrite filter_cons_False by done].
  assert (filter (λ o, o = obj) (objs l) = []) as ->; [|cbn; lia]. clear IH Hb. induction Hf as [|b' l Hb' Hf IH]; [done|]. rewrite objs_cons.
  destruct (live b') eqn:El; [|done]. rewrite filter_cons_False; [done|]. intros Eo; cbn in Eo. discriminate Hb'. congruence.
Qed.

(** ** Splitting and purging chains *)

Definition ix_of (szm : Z) b : Z := Z.land (hvalue b) szm.

Lemma split_loop_ok szm chain A B cur oth :
  A ≠ B → Forall (λ b, live b = true → ix_of szm b = A ∨ ix_of szm b = B) chain →
  split_loop szm chain A cur oth false =
    (rev cur ++ filter (λ b, ix_of szm b = A) (purge chain), rev oth ++ filter (λ b, ix_of szm b = B) (purge chain)) ∧
  split_loop szm chain B cur oth true =
    (rev oth ++ filter (λ b, ix_of szm b = A) (purge chain), rev cur ++ filter (λ b, ix_of szm b = B) (purge chain)).
Proof.
  intros HAB Hf. revert cur oth. induction Hf as [|p chain Hp Hf IH]; intros cur oth; [by rewrite !app_nil_r|].
  cbn [split_loop]. rewrite purge_cons. unfold live in Hp |- *. destruct (Z.eqb_spec (hvalue p) INVALID_HASH) as [E|E]; cbn [negb]; [apply IH|].
  specialize (Hp ltac:(lia)). fold (ix_of szm p). destruct Hp as [Hp|Hp]; rewrite Hp.
  - rewrite filter_cons_True, filter_cons_False by congruence. rewrite Z.eqb_refl, (proj2 (Z.eqb_neq A B)) by done. cbn [negb].
    split; [rewrite (proj1 (IH _ _))|rewrite (proj1 (IH _ _))]; cbn [rev]; by rewrite <- (assoc (++)).
  - rewrite filter_cons_False, filter_cons_True by congruence. rewrite Z.eqb_refl, (proj2 (Z.eqb_neq B A)) by done. cbn [negb].
    split; [rewrite (proj2 (IH _ _))|rewrite (proj2 (IH _ _))]; cbn [rev]; by rewrite <- (assoc (++)).
Qed.

Lemma Forall_sub (P : HashDbTerm Obj → Prop) l' l : l' `sublist_of` l → Forall P l → Forall P l'.
Proof. intros Hs. rewrite !Forall_forall. intros Hf b Hb. by eapply Hf, elem_of_sublist. Qed.

Lemma keys_sublist l' l : l' `sublist_of` l → keys l' `sublist_of` keys l.
Proof. induction 1; cbn; [done|by apply sublist_skip|by apply sublist_cons]. Qed.

Lemma bag_ok_sublist l' l : l' `sublist_of` l → bag_ok l → bag_ok l'.
Proof.
  induction 1 as [|b l' l H IH|b l' l H IH]; cbn; [done| |tauto]. intros [Hf Hb]. split; [|auto].
  by eapply Forall_sub.
Qed.

Lemma chain_ok_sublist st l' l : l' `sublist_of` l → chain_ok st l → chain_ok st l'.
Proof.
  intros Hs (Hn & Hg & Hset & Hbag). assert (keys l' `sublist_of` keys l) as Hk by (by apply keys_sublist). split_and!.
  - by eapply Forall_sub.
  - by eapply grouped_sublist.
  - intros E. eapply sublist_NoDup; [by apply Hset|done].
  - intros E. eapply bag_ok_sublist; [done|by apply Hbag].
Qed.

Lemma chain_ok_app st l l' : chain_ok st l → chain_ok st l' → (∀ k, k ∈ keys l → k ∉ keys l') → chain_ok st (l ++ l').
Proof.
  intros (Hn & Hg & Hset & Hbag) (Hn' & Hg' & Hset' & Hbag') Hd. unfold chain_ok, keys. rewrite fmap_app. split_and!.
  - by apply Forall_app.
  - by apply grouped_app.
  - intros E. apply NoDup_app. auto.
  - intros E. apply bag_ok_app. split_and!; [auto..|]. rewrite Forall_forall. intros a Ha. rewrite Forall_forall. intros b Hb Eq.
    destruct (Hd (node_key a)); [by apply list_elem_of_fmap_2|]. unfold node_key. rewrite <- Eq. by apply (list_elem_of_fmap_2 node_key).
Qed.

End Chain.
