(* ===== verification/DbHashSpec.v ===== *)
(** The invariant of hashed ETS tables, and what changes of one bucket, growing and shrinking do to the contents. *)

From Stdlib Require Import ZArith ZifyBool.
From stdpp Require Import base list numbers option sets gmap.
From S2P Require Import Prelude Grouped LinearHash DbUtil DbHash DbHashSegs DbHashChain.
Local Open Scope Z_scope.

Section Spec.
Context {Obj T : Type} `{EqDecision Obj, EqDecision T, !DbHashTerms Obj T, !DbHashConfig}.
Implicit Types (tb : DbTableHash Obj) (b : HashDbTerm Obj) (c chain pre grp post l : list (HashDbTerm Obj)) (fl : list (list (HashDbTerm Obj))) (k : T) (obj : Obj).

Abbreviation of_objkey := (of_key GETKEY).

(** ** Geometry *)

(** [home] buckets are split as far as there are more than [home] active ones; [szm] is the mask for [2 * home]. *)
Definition geo tb (home : Z) : Prop :=
  (∃ e, 7 ≤ e ∧ home = 2 ^ e) ∧ szm tb = home * 2 - 1 ∧ home < nactive tb ≤ home * 2 ∧ 256 ≤ nactive tb.

Lemma land_mask h e : 0 ≤ e → Z.land h (2 ^ e - 1) = h mod 2 ^ e.
Proof. intros. rewrite <- Z.land_ones by done. f_equal. rewrite Z.ones_equiv. lia. Qed.

Lemma pow_double e : 0 ≤ e → 2 ^ e * 2 = 2 ^ (e + 1).
Proof. intros. rewrite Z.pow_add_r by lia. lia. Qed.

Lemma mask_half e : 0 ≤ e → Z.shiftr (2 ^ e * 2 - 1) 1 = 2 ^ e - 1.
Proof. intros. rewrite Z.shiftr_div_pow2 by done. change (2 ^ 1) with 2. pose proof (Z.pow_pos_nonneg 2 e). Z.to_euclidean_division_equations. lia. Qed.

Lemma mod_mod_double h m : 0 < m → (h mod (m * 2)) mod m = h mod m.
Proof.
  intros Hm. destruct (mod_double m h Hm) as [[-> | ->] ?]; [apply Z.mod_mod; lia|].
  replace (h mod m + m) with (h mod m + 1 * m) by lia. rewrite Z.mod_add, Z.mod_mod by lia. done.
Qed.

Lemma hash_to_ix_eq tb home h : geo tb home → hash_to_ix tb h = hash_ix home (nactive tb - home) h.
Proof.
  intros ((e & He & ->) & Hs & Hn & _). unfold hash_to_ix, hash_ix. rewrite Hs, mask_half, pow_double, !land_mask, <- pow_double by lia.
  replace (2 ^ e + (nactive tb - 2 ^ e)) with (nactive tb) by lia. destruct (_ >=? _); [|done].
  apply mod_mod_double. apply Z.pow_pos_nonneg; lia.
Qed.

Definition key_ix tb k : Z := hash_to_ix tb (MAKE_HASH k).

Lemma key_ix_range tb home k : geo tb home → 0 ≤ key_ix tb k < nactive tb.
Proof.
  intros Hg. unfold key_ix. rewrite (hash_to_ix_eq _ _ _ Hg). destruct Hg as ((e & He & ->) & _ & Hn & _). pose proof (Z.pow_pos_nonneg 2 e).
  pose proof (hash_ix_range (2 ^ e) (nactive tb - 2 ^ e) (MAKE_HASH k)). lia.
Qed.

(** ** The invariant *)

(** Every node is in the bucket of its key. *)
Definition placed tb fl : Prop :=
  segs tb fl ∧ (∃ home, geo tb home) ∧ nactive tb ≤ nslots tb ∧
  ∀ i c, fl !! i = Some c → chain_ok (status tb) c ∧ Forall (λ b, key_ix tb (node_key b) = Z.of_nat i) c.

(** The objects of the table; of a key, the last object that was inserted comes first. *)
Definition contents fl : list Obj := objs (mjoin fl).

Definition has_dead c : Prop := Exists (λ b, live b = false) c.

Definition table_ok tb fl : Prop :=
  placed tb fl ∧ nitems tb = zlen (contents fl) ∧
  (∀ i c, fl !! i = Some c → has_dead c → Z.of_nat i ∈ fixdel tb) ∧ Forall (λ i, 0 ≤ i) (fixdel tb) ∧
  is_resizing tb = false ∧ 0 ≤ fixref tb.

Lemma placed_slot tb fl i : placed tb fl → 0 ≤ i < nactive tb → ∃ c, BUCKET tb i = Some c ∧ fl !! Z.to_nat i = Some c.
Proof.
  intros (Hs & _ & Hn & _) Hi. rewrite (BUCKET_segs _ _ _ Hs) by lia. pose proof (segs_length _ _ Hs).
  destruct (lookup_lt_is_Some_2 fl (Z.to_nat i)) as [c Hc]; [lia|]. eauto.
Qed.

Lemma placed_key tb fl k :
  placed tb fl → ∃ c, BUCKET tb (key_ix tb k) = Some c ∧ fl !! Z.to_nat (key_ix tb k) = Some c ∧ chain_ok (status tb) c.
Proof.
  intros Hp. pose proof Hp as (_ & (home & Hg) & _ & Hc). pose proof (key_ix_range tb home k Hg).
  destruct (placed_slot tb fl (key_ix tb k) Hp ltac:(lia)) as (c & Hb & Hl). exists c. split; [done|]. split; [done|]. by apply (Hc _ _ Hl).
Qed.

(** Slots that are not active are empty. *)
Lemma placed_inactive tb fl i c : placed tb fl → nactive tb ≤ Z.of_nat i → fl !! i = Some c → c = [].
Proof.
  intros (_ & (home & Hg) & _ & Hc) Hi Hl. destruct (Hc _ _ Hl) as [_ Hf]. destruct c as [|b c]; [done|]. inversion Hf as [|? ? Hb]; subst.
  pose proof (key_ix_range tb home (node_key b) Hg). lia.
Qed.

(** ** Contents by key *)

Lemma mjoin_objs_other k fl : (∀ i c, fl !! i = Some c → Forall (λ b, node_key b ≠ k) c) → of_objkey k (objs (mjoin fl)) = [].
Proof.
  intros Hf. apply objs_other_key. induction fl as [|c fl IH]; [constructor|]. rewrite join_cons. apply Forall_app. split; [by apply (Hf 0%nat)|].
  apply IH. intros i. apply (Hf (S i)).
Qed.

Lemma contents_key tb fl k c :
  placed tb fl → fl !! Z.to_nat (key_ix tb k) = Some c → of_objkey k (contents fl) = of_objkey k (objs c).
Proof.
  intros (_ & (home & Hg) & _ & Hc) Hl. pose proof (key_ix_range tb home k Hg). unfold contents.
  rewrite <- (take_drop_middle _ _ _ Hl) at 1. rewrite mjoin_app, join_cons, !objs_app, !of_key_app.
  assert (∀ i c', fl !! i = Some c' → i ≠ Z.to_nat (key_ix tb k) → Forall (λ b, node_key b ≠ k) c') as Hother.
  { intros i c' Hi Hne. destruct (Hc _ _ Hi) as [_ Hf]. eapply Forall_impl; [done|]. cbn. intros b Hb E. apply Hne. rewrite E in Hb. lia. }
  rewrite (mjoin_objs_other k (take _ _)), (mjoin_objs_other k (drop _ _)); [by rewrite app_nil_r| |].
  - intros i c'. rewrite lookup_drop. intros Hi. eapply Hother; [done|lia].
  - intros i c' [Hi Hlt]%lookup_take_Some. eapply Hother; [done|lia].
Qed.

Lemma contents_run tb fl k c pre grp post :
  placed tb fl → fl !! Z.to_nat (key_ix tb k) = Some c → run k c pre grp post → of_objkey k (contents fl) = objs grp.
Proof. intros Hp Hl Hr. rewrite (contents_key _ _ _ _ Hp Hl). by eapply objs_run. Qed.

(** Equal contents by key are equally many objects. *)
Lemma contents_length fl fl' : key_eq GETKEY (contents fl) (contents fl') → zlen (contents fl) = zlen (contents fl').
Proof. intros Hp%key_eq_perm. by rewrite Hp. Qed.

(** ** Changing one bucket *)

Lemma contents_insert fl i c c' :
  fl !! i = Some c → zlen (contents (<[i := c']> fl)) = zlen (contents fl) + zlen (objs c') - zlen (objs c).
Proof.
  intros Hl. rewrite insert_take_drop by (by eapply lookup_lt_Some). rewrite <- (take_drop_middle _ _ _ Hl) at 3. unfold contents.
  rewrite !mjoin_app, !join_cons, !objs_app, !length_app. lia.
Qed.

(** The fields that a change of buckets keeps *)
Definition same_shape tb tb' : Prop :=
  status tb' = status tb ∧ szm tb' = szm tb ∧ nslots tb' = nslots tb ∧ nactive tb' = nactive tb ∧ is_resizing tb' = is_resizing tb ∧ fixref tb' = fixref tb.

Lemma same_shape_ix tb tb' k : same_shape tb tb' → key_ix tb' k = key_ix tb k.
Proof. intros (_ & Hs & _ & Hn & _). unfold key_ix, hash_to_ix. by rewrite Hs, Hn. Qed.

Lemma same_shape_geo tb tb' home : same_shape tb tb' → geo tb home → geo tb' home.
Proof. intros (_ & Hs & _ & Hn & _). unfold geo. by rewrite Hs, Hn. Qed.

Lemma placed_insert tb tb' fl i c' :
  placed tb fl → same_shape tb tb' → segs tb' (<[i := c']> fl) →
  chain_ok (status tb) c' → Forall (λ b, key_ix tb (node_key b) = Z.of_nat i) c' → placed tb' (<[i := c']> fl).
Proof.
  intros (Hs & (home & Hg) & Hn & Hc) Hsame Hs' Hok Hf. pose proof Hsame as (Hst & Hz & Hns & Hna & _).
  split; [done|]. split; [exists home; by eapply same_shape_geo|]. split; [lia|].
  intros j c Hj. rewrite Hst. assert (∀ c, Forall (λ b, key_ix tb (node_key b) = Z.of_nat j) c → Forall (λ b, key_ix tb' (node_key b) = Z.of_nat j) c) as E.
  { intros c0 H0. eapply Forall_impl; [exact H0|]. cbn. intros b. by rewrite (same_shape_ix _ _ _ Hsame). }
  destruct (decide (i = j)) as [<-|Hij].
  - rewrite list_lookup_insert_eq in Hj; [simplify_eq; auto|]. pose proof (lookup_lt_Some _ _ _ Hj) as Hlt. by rewrite length_insert in Hlt.
  - rewrite list_lookup_insert_ne in Hj by done. destruct (Hc _ _ Hj). auto.
Qed.

(** Replacing the run of a key *)
Lemma table_update tb tb' fl k c pre grp grp' post :
  let fl' := <[Z.to_nat (key_ix tb k) := pre ++ grp' ++ post]> fl in
  table_ok tb fl → fl !! Z.to_nat (key_ix tb k) = Some c → run k c pre grp post →
  Forall node_ok grp' → Forall (λ b, node_key b = k) grp' → (status tb = DB_SET → length grp' ≤ 1)%nat → (status tb = DB_BAG → bag_ok grp') →
  same_shape tb tb' → segs tb' fl' → nitems tb' = nitems tb + zlen (objs grp') - zlen (objs grp) →
  fixdel tb ⊆ fixdel tb' → (has_dead grp' → has_dead grp ∨ key_ix tb k ∈ fixdel tb') → Forall (λ i, 0 ≤ i) (fixdel tb') →
  table_ok tb' fl' ∧ of_objkey k (contents fl) = objs grp ∧ of_objkey k (contents fl') = objs grp' ∧
  ∀ k', k' ≠ k → of_objkey k' (contents fl') = of_objkey k' (contents fl).
Proof.
  intros fl' Hok Hl Hrun Hn' Hk' Hset Hbag Hsame Hs' Hni Hfd Hdead Hfd0. pose proof Hok as (Hp & Hnit & Hd & Hf0 & Hres & Hfr).
  pose proof Hp as (Hs & (home & Hg) & Hna & Hc). pose proof (key_ix_range tb home k Hg) as Hix. destruct (Hc _ _ Hl) as [Hcok Hcix].
  pose proof Hrun as (-> & Hpre & Hgrp & Hpost & _). rewrite !Forall_app in Hcix. destruct Hcix as (Hi1 & Hi2 & Hi3).
  assert (placed tb' fl') as Hp'.
  { eapply placed_insert; [done..|by eapply chain_ok_update|]. rewrite !Forall_app. split; [done|]. split; [|done].
    eapply Forall_impl; [exact Hk'|]. cbn. intros b ->. lia. }
  pose proof Hsame as (_ & _ & _ & _ & Hr' & Hfx). split; [split; [done|]|].
  - split; [subst fl'; rewrite (contents_insert _ _ _ _ Hl), !objs_app, !length_app; lia|]. split; [|split; [done|split; congruence]].
    intros j c' Hj Hdd. destruct (decide (j = Z.to_nat (key_ix tb k))) as [->|Hne].
    + subst fl'. rewrite list_lookup_insert_eq in Hj by (by eapply lookup_lt_Some). simplify_eq. rewrite Z2Nat.id by lia.
      assert (has_dead pre ∨ has_dead grp' ∨ has_dead post) as Hdd' by (unfold has_dead in *; by rewrite !Exists_app in Hdd).
      assert (has_dead (pre ++ grp ++ post) → key_ix tb k ∈ fixdel tb') as Hold.
      { intros Hx. apply Hfd. rewrite <- (Z2Nat.id (key_ix tb k)) by lia. by eapply Hd. }
      unfold has_dead in Hold. rewrite !Exists_app in Hold. destruct Hdd' as [?|[Hx|?]]; [auto| |auto]. destruct (Hdead Hx); auto.
    + apply Hfd. eapply Hd; [|done]. subst fl'. by rewrite list_lookup_insert_ne in Hj by done.
  - split; [by eapply contents_run|]. assert (fl' !! Z.to_nat (key_ix tb' k) = Some (pre ++ grp' ++ post)) as Hl'.
    { rewrite (same_shape_ix _ _ _ Hsame). apply list_lookup_insert_eq. by eapply lookup_lt_Some. }
    split.
    + rewrite (contents_key _ _ _ _ Hp' Hl'), !objs_app, !of_key_app, (objs_of_key k grp'), (objs_other_key k pre), (objs_other_key k post) by done. by rewrite app_nil_r.
    + intros k' Hk. destruct (decide (key_ix tb k' = key_ix tb k)) as [E|E].
      * rewrite (contents_key tb' fl' k' (pre ++ grp' ++ post)), (contents_key tb fl k' (pre ++ grp ++ post)); [by eapply objs_other_run|done|by rewrite E|done|].
        rewrite (same_shape_ix _ _ _ Hsame), E. by rewrite (same_shape_ix _ _ _ Hsame) in Hl'.
      * destruct (placed_key tb fl k' Hp) as (c' & _ & Hc' & _). rewrite (contents_key tb fl k' c'), (contents_key tb' fl' k' c'); [done|done| |done|done].
        rewrite (same_shape_ix _ _ _ Hsame). subst fl'. rewrite list_lookup_insert_ne; [done|]. pose proof (key_ix_range tb home k' Hg). lia.
Qed.

(** ** Growing *)

Lemma contents_app fl fl' : contents (fl ++ fl') = contents fl ++ contents fl'.
Proof. unfold contents. by rewrite mjoin_app, objs_app. Qed.

Lemma contents_empty fl : Forall (λ c, c = []) fl → contents fl = [].
Proof. induction 1 as [|c fl -> Hf IH]; [done|]. unfold contents in *. by rewrite join_cons. Qed.

(** The number of active slots as [m + s], where bucket [s] of [m] is split next *)
Lemma grow_geo tb home :
  geo tb home → ∃ m s, (∃ e, 7 ≤ e ∧ m = 2 ^ e) ∧ 0 ≤ s < m ∧ nactive tb = m + s ∧ (∀ h, hash_to_ix tb h = hash_ix m s h) ∧
    (if nactive tb <=? szm tb then (Z.land (nactive tb) (Z.shiftr (szm tb) 1), szm tb) else (0, Z.lor (Z.shiftl (szm tb) 1) 1)) = (s, m * 2 - 1) ∧
    (if s =? 0 then m * 2 - 1 else szm tb) = m * 2 - 1.
Proof.
  intros Hg. pose proof Hg as ((e & He & ->) & Hz & Hn & _). pose proof (Z.pow_pos_nonneg 2 e ltac:(lia) ltac:(lia)).
  destruct (decide (nactive tb = 2 ^ e * 2)) as [E|E].
  - exists (2 ^ e * 2), 0. split; [exists (e + 1); rewrite pow_double by lia; lia|]. split; [lia|]. split; [lia|].
    split; [intros h; rewrite (hash_to_ix_eq _ _ _ Hg), hash_ix_double, E by lia; f_equal; lia|]. split; [|done].
    destruct (Z.leb_spec (nactive tb) (szm tb)); [lia|]. f_equal. rewrite lor_shiftl_add by lia. rewrite Hz. lia.
  - exists (2 ^ e), (nactive tb - 2 ^ e). split; [eauto|]. split; [lia|]. split; [lia|]. split; [intros h; by apply hash_to_ix_eq|]. split.
    + rewrite (proj2 (Z.leb_le (nactive tb) (szm tb))) by lia. rewrite Hz, mask_half, land_mask by lia. f_equal.
      symmetry. apply (Z.mod_unique _ _ 1); lia.
    + by case_match.
Qed.

Lemma of_key_objs_filter (P : HashDbTerm Obj → Prop) `{∀ b, Decision (P b)} k c :
  Forall (λ b, live b = true → node_key b = k → P b) c → of_objkey k (objs (filter P (purge c))) = of_objkey k (objs c).
Proof.
  induction 1 as [|b c Hb Hc IH]; [done|]. rewrite purge_cons, objs_cons. destruct (live b) eqn:El; [|done]. unfold of_key in *.
  destruct (decide (P b)) as [HP|HP]; [rewrite filter_cons_True, objs_cons, El by done|rewrite filter_cons_False by done].
  - destruct (decide (node_key b = k)); [rewrite !filter_cons_True by done; by rewrite IH|by rewrite !filter_cons_False].
  - rewrite IH, filter_cons_False; [done|]. intros E. by apply HP, Hb.
Qed.

(** Splitting a bucket in a table that has a free slot *)
Lemma split_ok tb tb' fl m s c :
  let to := filter (λ b, ix_of (m * 2 - 1) b = s + m) (purge c) in
  let fl' := <[Z.to_nat (nactive tb) := to]> (<[Z.to_nat s := filter (λ b, ix_of (m * 2 - 1) b = s) (purge c)]> fl) in
  table_ok tb fl → nactive tb < nslots tb → (∃ e, 7 ≤ e ∧ m = 2 ^ e) → 0 ≤ s < m → nactive tb = m + s → (∀ h, hash_to_ix tb h = hash_ix m s h) →
  fl !! Z.to_nat s = Some c → segs tb' fl' →
  status tb' = status tb → szm tb' = m * 2 - 1 → nslots tb' = nslots tb → nactive tb' = nactive tb + 1 → nitems tb' = nitems tb →
  fixdel tb' = fixdel tb → is_resizing tb' = false → fixref tb' = fixref tb →
  table_ok tb' fl' ∧ key_eq GETKEY (contents fl') (contents fl).
Proof.
  intros to fl' (Hp & Hni & Hd & Hf0 & Hres & Hfr) Hslot He Hs Hna Hix Hc Hsegs E1 E2 E3 E4 E5 E6 E7 E8.
  pose proof Hp as (Hsg & (home & Hg) & _ & Hch). pose proof He as (e & He7 & Hm). pose proof (Z.pow_pos_nonneg 2 e ltac:(lia) ltac:(lia)) as Hpos.
  assert (geo tb' m) as Hg'. { split; [done|]. rewrite E2, E4. destruct Hg as (_ & _ & _ & ?). lia. }
  assert (∀ k, key_ix tb' k = hash_ix m (s + 1) (MAKE_HASH k)) as Hix'.
  { intros k. unfold key_ix. rewrite (hash_to_ix_eq _ _ _ Hg'), E4, Hna. f_equal. lia. }
  assert (∀ k, key_ix tb k = hash_ix m s (MAKE_HASH k)) as Hix0 by (intros; apply Hix).
  destruct (Hch _ _ Hc) as [Hcok Hcix]. pose proof Hcok as (Hnode & _).
  assert (∀ b, b ∈ c → live b = true → ix_of (m * 2 - 1) b = key_ix tb' (node_key b) ∧ (key_ix tb' (node_key b) = s ∨ key_ix tb' (node_key b) = s + m)) as Hnew.
  { intros b Hb Hlive. rewrite Forall_forall in Hnode, Hcix. specialize (Hcix _ Hb). rewrite Hix0 in Hcix.
    destruct (Hnode _ Hb) as [Hh|Hh]; [|by apply live_spec in Hlive]. unfold ix_of. rewrite Hh, Hix', Hm, pow_double, land_mask, <- pow_double by lia.
    rewrite <- Hm. destruct (hash_ix_grow m s (MAKE_HASH (node_key b)) ltac:(lia) ltac:(lia)) as [Hgr _].
    destruct Hgr as [-> ?]; [lia|done]. }
  pose proof (segs_length _ _ Hsg) as Hlen.
  assert (∀ j cj, fl' !! j = Some cj → (j = Z.to_nat (nactive tb) ∧ cj = to) ∨
            (j = Z.to_nat s ∧ cj = filter (λ b, ix_of (m * 2 - 1) b = s) (purge c)) ∨ (j ≠ Z.to_nat s ∧ fl !! j = Some cj)) as Hfl'.
  { intros j cj Hj. subst fl'. destruct (decide (j = Z.to_nat (nactive tb))) as [->|Hj1].
    - rewrite list_lookup_insert_eq in Hj by (rewrite length_insert; lia). simplify_eq. by left.
    - rewrite list_lookup_insert_ne in Hj by done. right. destruct (decide (j = Z.to_nat s)) as [->|Hj2]; [left|right; by rewrite list_lookup_insert_ne in Hj].
      rewrite list_lookup_insert_eq in Hj by lia. by simplify_eq. }
  assert (∀ (P : HashDbTerm Obj → Prop) `{∀ b, Decision (P b)}, filter P (purge c) `sublist_of` c) as Hsub.
  { intros P ?. etrans; [apply sublist_filter|apply purge_sublist]. }
  assert (∀ A, A = s ∨ A = s + m → Forall (λ b, key_ix tb' (node_key b) = A) (filter (λ b, ix_of (m * 2 - 1) b = A) (purge c))) as Hplace.
  { intros A HA. rewrite Forall_forall. intros b [Hb [Hlv Hin]%list_elem_of_filter]%list_elem_of_filter. rewrite <- Hb. symmetry. apply Hnew; [done|]. by destruct (live b). }
  assert (placed tb' fl') as Hp'.
  { split; [done|]. split; [by exists m|]. split; [lia|]. intros j cj Hj. rewrite E1. destruct (Hfl' _ _ Hj) as [[-> ->]|[[-> ->]|[Hne Hl]]].
    - split; [eapply chain_ok_sublist; [apply Hsub|done]|]. rewrite Z2Nat.id by lia. rewrite Hna, Z.add_comm. apply Hplace. lia.
    - split; [eapply chain_ok_sublist; [apply Hsub|done]|]. rewrite Z2Nat.id by lia. apply Hplace. lia.
    - destruct (Hch _ _ Hl) as [H1 H2]. split; [done|]. eapply Forall_impl; [exact H2|]. cbn. intros b Hb. rewrite Hix'. rewrite Hix0 in Hb.
      rewrite (proj2 (hash_ix_grow m s _ ltac:(lia) ltac:(lia))); lia. }
  assert (key_eq GETKEY (contents fl') (contents fl)) as Hke.
  { intros k. destruct (placed_key _ _ k Hp) as (ck & _ & Hck & _). destruct (placed_key _ _ k Hp') as (ck' & _ & Hck' & _).
    rewrite (contents_key _ _ _ _ Hp' Hck'), (contents_key _ _ _ _ Hp Hck).
    pose proof (key_ix_range tb home k Hg). pose proof (key_ix_range tb' m k Hg').
    destruct (hash_ix_grow m s (MAKE_HASH k) ltac:(lia) ltac:(lia)) as [Hgr1 Hgr2]. rewrite <- Hix0, <- Hix' in Hgr1, Hgr2.
    assert (∀ A, key_ix tb' k = A → of_objkey k (objs (filter (λ b, ix_of (m * 2 - 1) b = A) (purge c))) = of_objkey k (objs c)) as Hfilt.
    { intros A HA. apply of_key_objs_filter. rewrite Forall_forall. intros b Hb Hlv <-. rewrite <- HA. by apply Hnew. }
    destruct (decide (key_ix tb k = s)) as [Es|Es].
    - rewrite Es, Hc in Hck. injection Hck as <-. destruct (Hgr1 Es) as [Hk1 Hor]. rewrite <- Hk1 in Hor.
      destruct (Hfl' _ _ Hck') as [[Hj ->]|[[Hj ->]|[Hj Hl]]]; [apply Hfilt; lia..|].
      destruct Hor as [Hor|Hor]; [lia|]. rewrite Hor in Hck'. subst fl'.
      replace (Z.to_nat (s + m)) with (Z.to_nat (nactive tb)) in Hck' by lia. rewrite list_lookup_insert_eq in Hck' by (rewrite length_insert; lia).
      injection Hck' as <-. by apply Hfilt.
    - rewrite Hgr2 in Hck' by done. destruct (Hfl' _ _ Hck') as [[Hj _]|[[Hj _]|[_ Hj]]]; [lia|lia|]. by rewrite Hck in Hj; injection Hj as ->. }
  split; [|done]. split; [done|]. split; [rewrite E5, Hni; symmetry; by apply contents_length|]. split; [|split; [by rewrite E6|split; congruence]].
  intros j cj Hj Hdd. rewrite E6. destruct (Hfl' _ _ Hj) as [[-> ->]|[[-> ->]|[Hne Hl]]]; [exfalso..|by eapply Hd];
    (apply Exists_exists in Hdd as (b & [_ [Hlv _]%list_elem_of_filter]%list_elem_of_filter & Hdead)); by rewrite Hdead in Hlv.
Qed.

Definition mem_ok tb (mem : option Z) : Prop := match mem with Some e => blocks tb !! e = None | None => True end.

(** Operations that reorganise a table *)
Definition reorganised tb fl tb' fl' : Prop :=
  table_ok tb' fl' ∧ key_eq GETKEY (contents fl') (contents fl) ∧ status tb' = status tb ∧ fixref tb' = fixref tb ∧ nitems tb' = nitems tb.

Lemma reorganised_refl tb fl : table_ok tb fl → reorganised tb fl tb fl.
Proof. done. Qed.

(** More slots without objects *)
Lemma table_extend tb fl st ns ng bl fl' :
  table_ok tb fl → let tb' := set_segs st ns ng bl tb in segs tb' (fl ++ fl') → Forall (λ c, c = []) fl' → nslots tb ≤ ns →
  table_ok tb' (fl ++ fl') ∧ contents (fl ++ fl') = contents fl.
Proof.
  intros ((Hs & Hg & Hn & Hc) & Hni & Hd & Hrest) tb' Hs' He Hns.
  assert (contents (fl ++ fl') = contents fl) as Econt by (by rewrite contents_app, (contents_empty fl'), app_nil_r). split; [|done].
  assert (∀ i c, (fl ++ fl') !! i = Some c → fl !! i = Some c ∨ c = []) as Hlk.
  { intros i c [Hi|[_ Hi]]%lookup_app_Some; [by left|]. right. rewrite Forall_lookup in He. by eapply He. }
  split; [|split; [by rewrite Econt|split; [|done]]].
  - split; [done|]. split; [done|]. split; [cbn; lia|]. intros i c Hi. destruct (Hlk _ _ Hi) as [Hl| ->]; [by apply Hc|].
    split; [|constructor]. split_and!; [constructor|apply grouped_NoDup; constructor|intros _; constructor|done].
  - intros i c Hi Hdd. destruct (Hlk _ _ Hi) as [Hl| ->]; [by eapply Hd|]. by apply Exists_nil in Hdd.
Qed.

Lemma alloc_step tb fl mem :
  table_ok tb fl → mem_ok tb mem →
  ∃ ok st ns ng bl fl1, let tb1 := set_segs st ns ng bl tb in
    (if nactive tb =? nslots tb then alloc_seg tb mem else Some (true, tb)) = Some (ok, tb1) ∧
    table_ok tb1 fl1 ∧ contents fl1 = contents fl ∧ (ok = true → nactive tb < ns).
Proof.
  intros Hok Hmem. pose proof Hok as (Hp & _). pose proof Hp as (Hs & _ & Hn & _). destruct (Z.eqb_spec (nactive tb) (nslots tb)) as [E|E].
  - destruct mem as [e|].
    + destruct (alloc_seg_some tb fl e Hs Hmem) as (st & ng & bl & -> & Hs'). exists true. eexists _, _, _, _, _. split; [done|].
      destruct (table_extend tb fl _ _ _ _ (replicate 256 []) Hok Hs') as [H1 H2]; [by apply Forall_replicate|change SEGSZ with 256; lia|].
      split; [exact H1|]. split; [done|]. change SEGSZ with 256. lia.
    + destruct (alloc_seg_none tb fl Hs) as (bl & -> & Hs'). eexists false, _, _, _, _, fl. split; [done|]. split; [|done].
      destruct (table_extend tb fl (segtab tb) (nslots tb) (nsegs tb) bl [] Hok) as [H1 _]; [by rewrite app_nil_r|done|lia|]. by rewrite app_nil_r in H1.
  - exists true, (segtab tb), (nslots tb), (nsegs tb), (blocks tb), fl. replace (set_segs _ _ _ _ tb) with tb by (by destruct tb).
    split; [done|]. split; [done|]. split; [done|]. lia.
Qed.

Lemma set_active_segs tb n z fl : segs tb fl → segs (set_active n z tb) fl.
Proof. done. Qed.

Lemma dbh_grow_ok tb fl mem :
  table_ok tb fl → mem_ok tb mem → ∃ tb' fl', grow tb (nactive tb) mem = Some tb' ∧ reorganised tb fl tb' fl' ∧ nactive tb' ≤ nactive tb + 1.
Proof.
  intros Hok Hmem. pose proof Hok as (_ & _ & _ & _ & Hres & _). unfold grow. rewrite Hres, Z.eqb_refl. cbn [negb].
  destruct (alloc_step tb fl mem Hok Hmem) as (ok & st & ns & ng & bl & fl1 & -> & Hok1 & Hcont & Hlt). cbn [mbind option_bind].
  set (tb1 := set_segs st ns ng bl tb) in *.
  assert (reorganised tb fl tb1 fl1) as Hre by (split; [done|]; rewrite Hcont; done).
  destruct ok; cbn [negb]; [|exists tb1, fl1; split; [done|split; [done|cbn; lia]]].
  pose proof Hok1 as (Hp1 & Hrest1). pose proof Hp1 as (Hs1 & (home & Hg) & _ & Hch). destruct (grow_geo tb1 home Hg) as (m & s & He & Hs & Hna & Hix & Efrom & Eszm).
  change (nactive tb) with (nactive tb1) in *. change (szm tb1) with (szm tb1) in *. rewrite Efrom.
  destruct (IS_FIXED tb1); [exists tb1, fl1; split; [done|split; [done|lia]]|]. rewrite Eszm.
  assert (nactive tb1 < nslots tb1) as Hlt1 by (by apply Hlt).
  destruct (placed_slot tb1 fl1 s Hp1 ltac:(lia)) as (c & Hb & Hc).
  change (BUCKET (set_active _ _ tb1) s) with (BUCKET tb1 s). rewrite Hb. cbn [mbind option_bind].
  assert (split_loop (m * 2 - 1) c s [] [] false =
            (filter (λ b, ix_of (m * 2 - 1) b = s) (purge c), filter (λ b, ix_of (m * 2 - 1) b = s + m) (purge c))) as Hsplit.
  { destruct (Hch _ _ Hc) as [(Hnode & _) Hcix]. apply (split_loop_ok _ _ s (s + m) [] []); [lia|]. rewrite Forall_forall in Hnode, Hcix |- *.
    intros b Hbin Hlv. destruct (Hnode _ Hbin) as [Hh|Hh]; [|by apply live_spec in Hlv]. specialize (Hcix _ Hbin). unfold key_ix in Hcix. rewrite Hix in Hcix.
    unfold ix_of. rewrite Hh. destruct He as (e & He & ->). rewrite pow_double, land_mask, <- pow_double by lia.
    apply (hash_ix_grow (2 ^ e) s); lia. }
  rewrite Hsplit.
  destruct (set_BUCKET_segs (set_active (nactive tb1 + 1) (m * 2 - 1) tb1) fl1 s (filter (λ b, ix_of (m * 2 - 1) b = s) (purge c))) as (bl1 & -> & Hs2 & _); [done|cbn; lia|].
  cbn [mbind option_bind]. match goal with |- context [set_BUCKET ?t _ _] => destruct (set_BUCKET_segs t _ (nactive tb1) (filter (λ b, ix_of (m * 2 - 1) b = s + m) (purge c)) Hs2) as (bl2 & -> & Hs3 & _) end; [cbn [nslots set_segs set_active]; lia|].
  eexists _, _. split; [done|].
  destruct (split_ok tb1 _ fl1 m s c Hok1 Hlt1 He Hs Hna Hix Hc Hs3) as [Hok2 Hke]; [done..|by destruct Hok1 as (_ & _ & _ & _ & ? & _)|done|].
  split; [|cbn; lia]. split; [done|]. rewrite <- Hcont. done.
Qed.

(** ** Shrinking *)

Lemma shrink_geo tb home tb' :
  geo tb home → 256 < nactive tb → let s := nactive tb - 1 - home in
  szm tb' = (if s =? 0 then Z.shiftr (szm tb) 1 else szm tb) → nactive tb' = nactive tb - 1 →
  0 ≤ s < home ∧ Z.land (nactive tb - 1) (Z.shiftr (szm tb) 1) = s ∧ (∃ home', geo tb' home') ∧
  (∀ h, hash_to_ix tb h = hash_ix home (s + 1) h) ∧ (∀ h, hash_to_ix tb' h = hash_ix home s h).
Proof.
  intros Hg Hlt s Hz' Hn'. pose proof Hg as ((e & He & ->) & Hz & Hn & _). pose proof (Z.pow_pos_nonneg 2 e ltac:(lia) ltac:(lia)).
  split; [lia|]. split; [rewrite Hz, mask_half, land_mask by lia; symmetry; apply (Z.mod_unique _ _ 1); lia|].
  assert (∀ h, hash_to_ix tb h = hash_ix (2 ^ e) (s + 1) h) as Hix by (intros h; rewrite (hash_to_ix_eq _ _ _ Hg); f_equal; lia).
  destruct (Z.eqb_spec s 0) as [Es|Es].
  - assert (2 ^ e = 2 ^ (e - 1) * 2) as Hhalf by (rewrite pow_double by lia; f_equal; lia).
    assert (8 ≤ e) as He8. { destruct (decide (e = 7)) as [->|]; [|lia]. change (2 ^ 7) with 128 in *. lia. }
    assert (geo tb' (2 ^ (e - 1))) as Hg'.
    { split; [exists (e - 1); lia|]. rewrite Hz', Hn', Hz, mask_half by lia. rewrite Hhalf. split; [lia|]. lia. }
    split; [by eexists|]. split; [done|]. intros h. rewrite (hash_to_ix_eq _ _ _ Hg'), Es, Hhalf, hash_ix_double by lia. f_equal. lia.
  - assert (geo tb' (2 ^ e)) as Hg'. { split; [eauto|]. rewrite Hz', Hn'. lia. }
    split; [by eexists|]. split; [done|]. intros h. rewrite (hash_to_ix_eq _ _ _ Hg'). f_equal. lia.
Qed.

Lemma merge_ok tb tb' fl home csrc cdst :
  let s := nactive tb - 1 - home in
  let fl' := <[Z.to_nat (nactive tb - 1) := []]> (<[Z.to_nat s := purge csrc ++ cdst]> fl) in
  table_ok tb fl → geo tb home → 256 < nactive tb →
  fl !! Z.to_nat (nactive tb - 1) = Some csrc → fl !! Z.to_nat s = Some cdst → segs tb' fl' →
  szm tb' = (if s =? 0 then Z.shiftr (szm tb) 1 else szm tb) → nactive tb' = nactive tb - 1 →
  status tb' = status tb → nslots tb' = nslots tb → nitems tb' = nitems tb →
  fixdel tb' = fixdel tb → is_resizing tb' = false → fixref tb' = fixref tb →
  table_ok tb' fl' ∧ key_eq GETKEY (contents fl') (contents fl).
Proof.
  intros s fl' (Hp & Hni & Hd & Hf0 & Hres & Hfr) Hg Hlt Hsrc Hdst Hsegs E2 E4 E1 E3 E5 E6 E7 E8.
  pose proof Hp as (Hsg & _ & Hns & Hch). destruct (shrink_geo tb home tb' Hg Hlt E2 E4) as (Hs & _ & Hg' & Hix & Hix'). fold s in Hs, Hix, Hix'.
  assert (0 < home) as Hh by lia. pose proof (segs_length _ _ Hsg) as Hlen.
  assert (∀ k, key_ix tb' k = if bool_decide (key_ix tb k = nactive tb - 1) then s else key_ix tb k) as Hmerge.
  { intros k. unfold key_ix. rewrite Hix, Hix', hash_ix_merge by lia.
    replace (s + home) with (nactive tb - 1) by lia. done. }
  assert (∀ j cj, fl' !! j = Some cj → (j = Z.to_nat (nactive tb - 1) ∧ cj = []) ∨ (j = Z.to_nat s ∧ cj = purge csrc ++ cdst) ∨
            (j ≠ Z.to_nat (nactive tb - 1) ∧ fl !! j = Some cj)) as Hfl'.
  { intros j cj Hj. subst fl'. destruct (decide (j = Z.to_nat (nactive tb - 1))) as [->|Hj1].
    - rewrite list_lookup_insert_eq in Hj by (rewrite length_insert; lia). simplify_eq. by left.
    - rewrite list_lookup_insert_ne in Hj by done. right. destruct (decide (j = Z.to_nat s)) as [->|Hj2]; [left|right; by rewrite list_lookup_insert_ne in Hj].
      rewrite list_lookup_insert_eq in Hj by lia. by simplify_eq. }
  destruct (Hch _ _ Hsrc) as [Hsok Hsix]. destruct (Hch _ _ Hdst) as [Hdok Hdix].
  assert (Forall (λ b, key_ix tb (node_key b) = nactive tb - 1) (purge csrc)) as Hpix.
  { eapply Forall_sub; [apply purge_sublist|]. eapply Forall_impl; [exact Hsix|]. cbn. lia. }
  assert (chain_ok (status tb) (purge csrc ++ cdst)) as Hmok.
  { apply chain_ok_app; [eapply chain_ok_sublist; [apply purge_sublist|done]|done|]. unfold keys. intros k (b & -> & Hb)%list_elem_of_fmap (b' & E & Hb')%list_elem_of_fmap.
    rewrite Forall_forall in Hpix, Hdix. specialize (Hpix _ Hb). specialize (Hdix _ Hb'). rewrite E in Hpix. lia. }
  assert (placed tb' fl') as Hp'.
  { split; [done|]. split; [done|]. split; [lia|]. intros j cj Hj. rewrite E1. destruct (Hfl' _ _ Hj) as [[-> ->]|[[-> ->]|[Hne Hl]]].
    - split; [|constructor]. split_and!; [constructor|apply grouped_NoDup; constructor|intros _; constructor|done].
    - split; [done|]. rewrite Z2Nat.id by lia. apply Forall_app. split; [eapply Forall_impl; [exact Hpix|]|eapply Forall_impl; [exact Hdix|]]; cbn; intros b Hb; rewrite Hmerge.
      + by rewrite bool_decide_eq_true_2.
      + rewrite bool_decide_eq_false_2; lia.
    - destruct (Hch _ _ Hl) as [H1 H2]. split; [done|]. eapply Forall_impl; [exact H2|]. cbn. intros b Hb. rewrite Hmerge, bool_decide_eq_false_2; lia. }
  assert (key_eq GETKEY (contents fl') (contents fl)) as Hke.
  { intros k. destruct (placed_key _ _ k Hp) as (ck & _ & Hck & _). destruct (placed_key _ _ k Hp') as (ck' & _ & Hck' & _).
    rewrite (contents_key _ _ _ _ Hp' Hck'), (contents_key _ _ _ _ Hp Hck). pose proof (key_ix_range tb home k Hg). rewrite Hmerge in Hck'.
    assert (∀ i c, fl !! i = Some c → Z.of_nat i ≠ key_ix tb k → of_objkey k (objs c) = []) as Hnone.
    { intros i c Hc Hne. apply objs_other_key. destruct (Hch _ _ Hc) as [_ Hf]. eapply Forall_impl; [exact Hf|]. cbn. intros b Hb E. rewrite E in Hb. lia. }
    assert (fl' !! Z.to_nat s = Some (purge csrc ++ cdst)) as Hfs.
    { subst fl'. rewrite list_lookup_insert_ne by lia. rewrite list_lookup_insert_eq by lia. done. }
    case_bool_decide as Ek.
    - rewrite Hfs in Hck'. injection Hck' as <-. rewrite Ek, Hsrc in Hck. injection Hck as <-.
      rewrite objs_app, of_key_app, objs_purge, (Hnone _ cdst Hdst) by lia. by rewrite app_nil_r.
    - destruct (Hfl' _ _ Hck') as [[Hj _]|[[Hj ->]|[_ Hj]]]; [lia| |rewrite Hck in Hj; by injection Hj as ->].
      rewrite Hj, Hdst in Hck. injection Hck as <-. rewrite objs_app, of_key_app, objs_purge, (Hnone _ csrc Hsrc) by lia. done. }
  split; [|done]. split; [done|]. split; [rewrite E5, Hni; symmetry; by apply contents_length|]. split; [|split; [by rewrite E6|split; congruence]].
  intros j cj Hj Hdd. rewrite E6. destruct (Hfl' _ _ Hj) as [[-> ->]|[[-> ->]|[Hne Hl]]]; [by apply Exists_nil in Hdd| |by eapply Hd].
  eapply Hd; [exact Hdst|]. apply Exists_app in Hdd as [Hx|Hx]; [|done]. apply Exists_exists in Hx as (b & Hb & Hdead).
  pose proof (purge_live csrc) as Hlv. rewrite Forall_forall in Hlv. rewrite Hlv in Hdead; done.
Qed.

(** Fewer slots *)
Lemma table_drop tb fl st ns ng bl last :
  table_ok tb (fl ++ last) → let tb' := set_segs st ns ng bl tb in segs tb' fl → nactive tb ≤ ns → table_ok tb' fl ∧ contents fl = contents (fl ++ last).
Proof.
  intros Hok tb' Hs' Hns. pose proof Hok as (Hp & Hni & Hd & Hrest). pose proof Hp as (Hs & Hg & Hn & Hc). pose proof (segs_length _ _ Hs') as Hlen. cbn in Hlen.
  assert (Forall (λ c, c = []) last) as Hlast.
  { rewrite Forall_lookup. intros i c Hi. eapply (placed_inactive tb _ (length fl + i) c Hp); [lia|]. rewrite lookup_app_r by lia.
    by replace (length fl + i - length fl)%nat with i by lia. }
  assert (contents fl = contents (fl ++ last)) as Econt by (by rewrite contents_app, (contents_empty last), app_nil_r). split; [|done].
  assert (∀ i c, fl !! i = Some c → (fl ++ last) !! i = Some c) as Hlk by (intros; by apply lookup_app_l_Some).
  split; [|split; [by rewrite Econt|split; [|done]]]; [|intros i c Hi; by apply Hd, Hlk].
  split; [done|]. split; [done|]. split; [done|]. intros i c Hi. by apply Hc, Hlk.
Qed.

Lemma dbh_shrink_ok tb fl :
  table_ok tb fl → 256 < nactive tb → ∃ tb' fl', shrink tb (nactive tb) = Some tb' ∧ reorganised tb fl tb' fl' ∧ nactive tb' ≤ nactive tb ∧ (IS_FIXED tb = true → tb' = tb).
Proof.
  intros Hok Hlt. pose proof Hok as (Hp & _ & _ & _ & Hres & _). pose proof Hp as (Hs & (home & Hg) & Hns & _).
  unfold shrink. rewrite Hres, Z.eqb_refl. destruct (IS_FIXED tb) eqn:Efix; [by exists tb, fl|].
  set (s := nactive tb - 1 - home). set (szm' := if s =? 0 then Z.shiftr (szm tb) 1 else szm tb).
  destruct (shrink_geo tb home (set_active (nactive tb - 1) szm' tb) Hg Hlt eq_refl eq_refl) as (Hs0 & Hland & _). fold s in Hs0, Hland. rewrite Hland.
  destruct (placed_slot tb fl (nactive tb - 1) Hp ltac:(lia)) as (csrc & -> & Hsrc). destruct (placed_slot tb fl s Hp ltac:(lia)) as (cdst & -> & Hdst). cbn [mbind option_bind].
  destruct (set_BUCKET_segs tb fl s (purge csrc ++ cdst) Hs ltac:(lia)) as (bl1 & -> & Hs1 & _). cbn [mbind option_bind].
  destruct (set_BUCKET_segs _ _ (nactive tb - 1) [] Hs1 ltac:(cbn; lia)) as (bl2 & -> & Hs2 & _). cbn [mbind option_bind].
  match goal with |- context [set_active ?n ?z ?t] => set (tb2 := set_active n z t) end.
  destruct (merge_ok tb tb2 fl home csrc cdst Hok Hg Hlt Hsrc Hdst Hs2) as [Hok2 Hke]; [done..|]. fold s in Hok2, Hke.
  assert (reorganised tb fl tb2 (<[Z.to_nat (nactive tb - 1) := []]> (<[Z.to_nat s := purge csrc ++ cdst]> fl))) as Hre by done.
  destruct (Z.geb_spec (nslots tb2 - (nactive tb - 1)) SEGSZ) as [Hge|Hge].
  - change SEGSZ with 256 in Hge. destruct (free_seg_segs tb2 _ false Hs2) as (st & ng & bl & fl3 & last & E3 & Hl3 & -> & Hs3); [lia|]. cbn [mbind option_bind].
    eexists _, fl3. split; [done|]. rewrite E3 in Hok2, Hke.
    destruct (table_drop tb2 fl3 _ _ _ _ last Hok2 Hs3) as [Hok3 Hc3]; [change SEGSZ with 256; cbn [nactive tb2 set_active] in *; lia|].
    split; [|split; [cbn; lia|done]]. split; [done|]. rewrite Hc3. done.
  - eexists _, _. split; [done|]. split; [done|]. split; [cbn; lia|done].
Qed.

Lemma in_int_ok z : z ≤ INT_MAX → in_int z = Some z.
Proof. intros. unfold in_int. by rewrite (proj2 (Z.leb_le z INT_MAX)). Qed.

Lemma try_shrink_ok tb fl :
  table_ok tb fl → nactive tb ≤ 2 ^ 28 + 255 →
  ∃ tb' fl', try_shrink tb = Some tb' ∧ reorganised tb fl tb' fl' ∧ nactive tb' ≤ nactive tb ∧ (IS_FIXED tb = true → tb' = tb).
Proof.
  intros Hok Hn. unfold try_shrink. change SEGSZ with 256. destruct (Z.gtb_spec (nactive tb) 256) as [Hlt|Hle]; [|by exists tb, fl].
  rewrite in_int_ok by (unfold CHAIN_LEN, INT_MAX; lia). cbn [mbind option_bind]. destruct (_ && _) eqn:E; [|by exists tb, fl]. apply dbh_shrink_ok; [done|lia].
Qed.

End Spec.
