(* ===== verification/DbHashOps.v ===== *)
(** The operations of hashed ETS tables: what they return and what they do to the objects of a key. *)

From Stdlib Require Import ZArith ZifyBool.
From stdpp Require Import base list numbers option sets gmap.
From S2P Require Import Prelude LinearHash DbUtil Grouped DbHash DbHashSegs DbHashChain DbHashSpec.
Local Open Scope Z_scope.

(** Elements of a tuple exist up to its arity. *)
Class DbHashTermLaws (Obj T : Type) `{DbHashTerms Obj T} := {
  tpl_element : ∀ (o : Obj) n, 1 ≤ n ≤ arityval o → is_Some (tpl o n) }.

Section Ops.
Context {Obj T : Type} `{EqDecision Obj, EqDecision T, !DbHashTerms Obj T, !DbHashConfig}.
Implicit Types (tb : DbTableHash Obj) (b : HashDbTerm Obj) (c chain pre grp post l : list (HashDbTerm Obj)) (fl : list (list (HashDbTerm Obj))) (k : T) (obj : Obj) (os : list Obj).

Abbreviation of_objkey := (of_key GETKEY).

(** The order of the keys in every bucket, keys of deleted objects included, is kept. *)
Definition stable tb fl tb' fl' : Prop :=
  nactive tb' = nactive tb ∧ Forall2 (λ c c', destutter (keys c) `sublist_of` destutter (keys c')) fl fl'.

Lemma stable_refl tb fl : stable tb fl tb fl.
Proof. split; [done|]. apply Forall2_same_length_lookup_2; [done|]. intros; by simplify_eq. Qed.

Lemma stable_insert tb tb' fl i c c' :
  nactive tb' = nactive tb → fl !! i = Some c → destutter (keys c) `sublist_of` destutter (keys c') → stable tb fl tb' (<[i := c']> fl).
Proof.
  intros Hn Hl Hs. split; [done|]. apply Forall2_same_length_lookup_2; [by rewrite length_insert|]. intros j cj cj' Hj Hj'.
  destruct (decide (i = j)) as [<-|Hne]; [|rewrite list_lookup_insert_ne in Hj' by done; by simplify_eq].
  rewrite list_lookup_insert_eq in Hj' by (by eapply lookup_lt_Some). by simplify_eq.
Qed.

Lemma stable_run k c pre grp grp' post :
  grouped (keys c) → run k c pre grp post → Forall (λ b, node_key b = k) grp' → grp = [] ∨ grp' ≠ [] →
  destutter (keys c) `sublist_of` destutter (keys (pre ++ grp' ++ post)).
Proof.
  intros Hg (-> & Hpre & Hgrp & Hpost & _) Hgrp' Hne. unfold keys in *. rewrite !fmap_app in *. fold (keys pre) (keys grp) (keys post) (keys grp') in *.
  rewrite (proj1 (keys_run k grp) Hgrp) in *. rewrite (proj1 (keys_run k grp') Hgrp'). apply destutter_run_sublist; [by apply not_in_keys..| |done].
  destruct Hne as [->|Hne]; [by left|]. right. destruct grp'; [done|]. cbn. lia.
Qed.

(** The result of an operation on key [k]: its objects are [os'] now, the last one inserted first. *)
Definition op_ok tb fl k os' tb' : Prop :=
  ∃ fl', table_ok tb' fl' ∧ of_objkey k (contents fl') = os' ∧ (∀ k', k' ≠ k → of_objkey k' (contents fl') = of_objkey k' (contents fl)) ∧
    status tb' = status tb ∧ fixref tb' = fixref tb ∧ nactive tb' ≤ nactive tb + 1 ∧ (IS_FIXED tb = true → stable tb fl tb' fl').

Lemma op_ok_refl tb fl k : table_ok tb fl → op_ok tb fl k (of_objkey k (contents fl)) tb.
Proof. intros Hok. exists fl. split_and!; [done..|lia|]. intros _. apply stable_refl. Qed.

(** A change of the run, and then perhaps a reorganisation *)
Lemma op_ok_then tb fl k os' tb1 tb2 :
  op_ok tb fl k os' tb1 → nactive tb1 = nactive tb →
  (∀ fl1, table_ok tb1 fl1 → ∃ fl2, reorganised tb1 fl1 tb2 fl2 ∧ nactive tb2 ≤ nactive tb1 + 1 ∧ (IS_FIXED tb1 = true → tb2 = tb1)) →
  op_ok tb fl k os' tb2.
Proof.
  intros (fl1 & Hok1 & Hk & Hother & Hst & Hfr & Hna & Hstab) En Hre. destruct (Hre fl1 Hok1) as (fl2 & (Hok2 & Hke & Hst2 & Hfr2 & _) & Hna2 & Hfix).
  destruct (IS_FIXED tb) eqn:Efix.
  - exists fl1. assert (IS_FIXED tb1 = true) as Ef1 by (unfold IS_FIXED in *; by rewrite Hfr). rewrite Hfix by done. split_and!; [done..|]. intros _. by apply Hstab.
  - exists fl2. split_and!; [done|by rewrite (Hke k)|intros k' Hk'; by rewrite (Hke k'), Hother|congruence|congruence|lia|congruence].
Qed.

(** ** Changing the run of a key *)

(** The bucket of a key and the run of the key in it *)
Lemma bucket_run tb fl k :
  table_ok tb fl → ∃ c pre grp post,
    BUCKET tb (hash_to_ix tb (MAKE_HASH k)) = Some c ∧ fl !! Z.to_nat (key_ix tb k) = Some c ∧ chain_ok (status tb) c ∧ run k c pre grp post ∧
    of_objkey k (contents fl) = objs grp.
Proof.
  intros (Hp & _). destruct (placed_key tb fl k Hp) as (c & Hb & Hl & Hc). pose proof Hc as (_ & Hg & _). destruct (run_exists k c Hg) as (pre & grp & post & Hr).
  exists c, pre, grp, post. split_and!; [done..|]. by eapply contents_run.
Qed.

Lemma change_run tb fl k c pre grp grp' post tb0 :
  table_ok tb fl → fl !! Z.to_nat (key_ix tb k) = Some c → run k c pre grp post →
  Forall node_ok grp' → Forall (λ b, node_key b = k) grp' → (status tb = DB_SET → length grp' ≤ 1)%nat → (status tb = DB_BAG → bag_ok grp') →
  same_shape tb tb0 → blocks tb0 = blocks tb → segtab tb0 = segtab tb → nsegs tb0 = nsegs tb →
  fixdel tb ⊆ fixdel tb0 → (has_dead grp' → has_dead grp ∨ key_ix tb k ∈ fixdel tb0) → Forall (λ i, 0 ≤ i) (fixdel tb0) →
  (IS_FIXED tb = true → grp = [] ∨ grp' ≠ []) →
  ∃ bl, let tb1 := set_segs (segtab tb0) (nslots tb0) (nsegs tb0) bl tb0 in
    set_BUCKET tb0 (hash_to_ix tb (MAKE_HASH k)) (pre ++ grp' ++ post) = Some tb1 ∧ (∀ e, blocks tb !! e = None → bl !! e = None) ∧
    ∀ n, n = nitems tb + zlen (objs grp') - zlen (objs grp) → op_ok tb fl k (objs grp') (set_nitems n tb1) ∧ nactive (set_nitems n tb1) = nactive tb.
Proof.
  intros Hok Hl Hr Hn' Hk' Hset Hbag Hsame Hbl Hsegt Hnsg Hfd Hdead Hfd0 Hne. pose proof Hok as (Hp & _). pose proof Hp as (Hs & (home & Hg) & Hns & Hch).
  pose proof (key_ix_range tb home k Hg) as Hix. pose proof Hsame as (Hst & Hz & Hnsl & Hna & Hres & Hfr).
  assert (segs tb0 fl) as Hs0. { destruct Hs as (ids & Hids & ->). exists ids. unfold segs_ok in *. by rewrite Hbl, Hsegt, Hnsg, Hnsl. }
  change (hash_to_ix tb (MAKE_HASH k)) with (key_ix tb k).
  destruct (set_BUCKET_segs tb0 fl (key_ix tb k) (pre ++ grp' ++ post) Hs0 ltac:(lia)) as (bl & -> & Hs1 & Hfresh). exists bl. split; [done|]. rewrite Hbl in Hfresh. split; [done|]. intros n ->. split; [|done].
  destruct (table_update tb (set_nitems (nitems tb + zlen (objs grp') - zlen (objs grp)) (set_segs (segtab tb0) (nslots tb0) (nsegs tb0) bl tb0))
              fl k c pre grp grp' post Hok Hl Hr Hn' Hk' Hset Hbag) as (Hok' & _ & Hk1 & Hother); [by split_and!|done|done|done|done|done|].
  eexists. split; [exact Hok'|]. split; [done|]. split; [done|]. split; [done|]. split; [done|]. split; [cbn; lia|].
  intros Hfix. eapply stable_insert; [done|done|]. destruct (Hch _ _ Hl) as [(_ & Hgr & _) _]. eapply stable_run; [done|done|done|by apply Hne].
Qed.

(** ** Insertion *)

(** Bounds that keep the products of [int]s in range *)
Definition small tb : Prop := nactive tb ≤ 2 ^ 28 + 255.

Lemma new_live k obj : live (HDT (MAKE_HASH k) obj) = true.
Proof. apply live_spec. cbn. pose proof (MAKE_HASH_range k). lia. Qed.

Lemma same_shape_refl tb : same_shape tb tb.
Proof. done. Qed.

(** Conditions on a run that hold because the chain is in order *)
Lemma run_conditions st k c pre grp post :
  chain_ok st c → run k c pre grp post →
  Forall node_ok grp ∧ Forall node_ok (grp ++ post) ∧ Forall (λ b, node_key b = k) grp ∧ Forall (λ b, node_key b ≠ k) post ∧
  (st = DB_SET → length grp ≤ 1)%nat ∧ (st = DB_BAG → bag_ok grp).
Proof.
  intros (Hn & _ & Hset & Hbag) (-> & Hpre & Hgrp & Hpost & _). apply Forall_app in Hn as [_ Hn]. pose proof Hn as [Hn' _]%Forall_app. split_and!; try done.
  - intros E. specialize (Hset E). unfold keys in Hset. rewrite !fmap_app in Hset. apply NoDup_app in Hset as (_ & _ & Hset). apply NoDup_app in Hset as (Hset & _ & _).
    fold (keys grp) in Hset. rewrite (proj1 (keys_run k grp) Hgrp) in Hset. destruct grp as [|? [|? ?]]; cbn in *; [lia|lia|]. apply NoDup_cons in Hset as [Hx _]. set_solver.
  - intros E. specialize (Hbag E). by apply (bag_ok_run k) in Hbag as [_ ?].
Qed.

Lemma put_new_ok tb fl c pre grp post obj mem :
  let k := GETKEY obj in
  table_ok tb fl → small tb → mem_ok tb mem → fl !! Z.to_nat (key_ix tb k) = Some c → chain_ok (status tb) c → run k c pre grp post →
  (status tb = DB_SET → grp = []) → (status tb = DB_BAG → Forall (λ b, dbterm b = obj → live b = false) grp) →
  ∃ tb', put_new tb (hash_to_ix tb (MAKE_HASH k)) pre (grp ++ post) obj (MAKE_HASH k) mem = Some (DB_ERROR_NONE, tb') ∧
         op_ok tb fl k (obj :: objs grp) tb'.
Proof.
  intros k Hok Hsm Hmem Hl Hc Hr Hset Hbag. destruct (run_conditions _ _ _ _ _ _ Hc Hr) as (Hn & _ & Hk & _ & _ & Hb). pose proof (new_live k obj) as Hlive.
  destruct (change_run tb fl k c pre grp (HDT (MAKE_HASH k) obj :: grp) post tb) as (bl & Hset1 & Hfresh & Hop); try done.
  - constructor; [by left|done].
  - by constructor.
  - intros E. rewrite Hset by done. cbn. lia.
  - intros E. split; [by apply Hbag|by apply Hb].
  - intros Hd. left. inversion Hd; [congruence|done].
  - by destruct Hok as (_ & _ & _ & ? & _).
  - by right.
  - unfold put_new. cbn [app] in Hset1. rewrite Hset1. cbn [mbind option_bind]. destruct (Hop (nitems tb + 1)) as [Hop1 Hna]; [rewrite objs_cons, Hlive; cbn [length]; lia|].
    rewrite objs_cons, Hlive in Hop1. cbn [dbterm] in Hop1.
    match goal with |- context [set_nitems _ ?t] => set (tb1 := set_nitems (nitems tb + 1) t) in *; change (set_nitems (nitems t + 1) t) with tb1 end.
    rewrite in_int_ok by (rewrite Hna; unfold small, CHAIN_LEN, INT_MAX in *; lia). cbn [mbind option_bind].
    destruct (_ && _) eqn:E; [|eexists; split; [done|exact Hop1]]. apply andb_true_iff in E as [_ Hf].
    assert (mem_ok tb1 mem) as Hmem1 by (destruct mem; [by apply Hfresh|done]). pose proof Hop1 as (fl1 & Hok1 & _).
    destruct (dbh_grow_ok tb1 fl1 mem Hok1 Hmem1) as (tb2 & _ & Hg & _). rewrite Hg. cbn [mbind option_bind]. eexists. split; [done|].
    eapply op_ok_then; [done|done|]. intros fl1' Hok1'. destruct (dbh_grow_ok tb1 fl1' mem Hok1' Hmem1) as (tb2' & fl2 & Hg' & Hre & Hna2).
    rewrite Hg in Hg'. injection Hg' as <-. exists fl2. split; [done|]. split; [done|]. intros Hfx. by rewrite Hfx in Hf.
Qed.

Definition put_result (st : db_type) (key_clash_fail : bool) obj os : db_error * list Obj :=
  if key_clash_fail && negb (bool_decide (os = [])) then (DB_ERROR_BADKEY, os)
  else (DB_ERROR_NONE, match st with
                       | DB_SET => [obj]
                       | DB_BAG => if bool_decide (obj ∈ os) then os else obj :: os
                       | DB_DUPLICATE_BAG => obj :: os
                       end).

Lemma elem_of_objs o l : o ∈ objs l ↔ ∃ b, b ∈ l ∧ live b = true ∧ dbterm b = o.
Proof.
  unfold objs, purge. rewrite list_elem_of_fmap. split.
  - intros (b & -> & [Hb ?]%list_elem_of_filter). exists b. by destruct (live b).
  - intros (b & Hb & Hl & <-). exists b. split; [done|]. apply list_elem_of_filter. by rewrite Hl.
Qed.

Lemma objs_nil_dead l : objs l = [] → Forall (λ b, live b = false) l.
Proof.
  intros E. rewrite Forall_forall. intros b Hb. destruct (live b) eqn:El; [|done]. exfalso.
  apply (not_elem_of_nil (dbterm b)). rewrite <- E. apply elem_of_objs. eauto.
Qed.

Lemma set_nitems_id tb n : n = nitems tb → set_nitems n tb = tb.
Proof. intros ->. by destruct tb. Qed.

Lemma fixdel_nonneg tb fl : table_ok tb fl → Forall (λ i, 0 ≤ i) (fixdel tb).
Proof. by intros (_ & _ & _ & ? & _). Qed.

(** An object in the place of one with the same key *)
Lemma put_set_ok tb fl k c pre b post obj :
  GETKEY obj = k → table_ok tb fl → fl !! Z.to_nat (key_ix tb k) = Some c → run k c pre [b] post → status tb = DB_SET →
  let tb0 := if live b then tb else set_nitems (nitems tb + 1) tb in
  ∃ tb', set_BUCKET tb0 (hash_to_ix tb (MAKE_HASH k)) (pre ++ HDT (MAKE_HASH k) obj :: post) = Some tb' ∧ op_ok tb fl k [obj] tb'.
Proof.
  intros Hk Hok Hl Hr Hst tb0. pose proof (new_live k obj) as Hlive.
  destruct (change_run tb fl k c pre [b] [HDT (MAKE_HASH k) obj] post tb0) as (bl & Hset & _ & Hop); try done.
  - constructor; [|done]. left. unfold node_key. cbn [dbterm hvalue]. by rewrite Hk.
  - by constructor.
  - subst tb0. by case_match.
  - subst tb0. by case_match.
  - subst tb0. by case_match.
  - subst tb0. by case_match.
  - subst tb0. by case_match.
  - intros Hd. inversion Hd as [? ? Hx|? ? Hx]; subst; [congruence|by apply Exists_nil in Hx].
  - replace (fixdel tb0) with (fixdel tb) by (subst tb0; by case_match). by eapply fixdel_nonneg.
  - by right.
  - cbn [app] in Hset. rewrite Hset. eexists. split; [done|]. rewrite !objs_cons, Hlive in Hop. cbn [dbterm] in Hop. change (objs []) with (@nil Obj) in Hop.
    destruct (Hop (nitems tb0)) as [Hop1 _]; [subst tb0; destruct (live b); cbn; lia|]. by rewrite set_nitems_id in Hop1.
Qed.

(** An object that was deleted while the table was fixed, revived in front of the others *)
Lemma put_revive_ok tb fl k c pre before q after post obj :
  GETKEY obj = k → table_ok tb fl → fl !! Z.to_nat (key_ix tb k) = Some c → chain_ok (status tb) c → run k c pre (before ++ q :: after) post →
  status tb = DB_BAG → dbterm q = obj → live q = false → Forall (λ b, dbterm b ≠ obj) before →
  ∃ tb', set_BUCKET (set_nitems (nitems tb + 1) tb) (hash_to_ix tb (MAKE_HASH k)) (pre ++ HDT (MAKE_HASH k) (dbterm q) :: before ++ after ++ post) = Some tb' ∧
         op_ok tb fl k (obj :: objs (before ++ q :: after)) tb'.
Proof.
  intros Hk Hok Hl Hc Hr Hst Hq Hdead Hbef. pose proof (new_live k (dbterm q)) as Hlive. destruct (run_conditions _ _ _ _ _ _ Hc Hr) as (Hn & _ & Hkeys & _ & _ & Hbag).
  specialize (Hbag Hst). assert (before ++ after `sublist_of` before ++ q :: after) as Hsub by (apply sublist_app; [done|by apply sublist_cons]).
  assert (Forall (λ b, dbterm b = dbterm q → live b = false) (before ++ after)) as Heq.
  { apply bag_ok_app in Hbag as (_ & [Hf _] & _). apply Forall_app. split; [|done]. eapply Forall_impl; [exact Hbef|]. cbn. congruence. }
  assert (objs (before ++ after) = objs (before ++ q :: after)) as Eobj by (by rewrite !objs_app, objs_cons, Hdead).
  destruct (change_run tb fl k c pre (before ++ q :: after) (HDT (MAKE_HASH k) (dbterm q) :: before ++ after) post (set_nitems (nitems tb + 1) tb)) as (bl & Hset & _ & Hop); try done.
  - constructor; [left; unfold node_key; cbn [dbterm hvalue]; by rewrite Hq, Hk|]. by eapply Forall_sub.
  - constructor; [unfold node_key; cbn [dbterm]; by rewrite Hq|]. by eapply Forall_sub.
  - by rewrite Hst.
  - intros _. split; [done|by eapply bag_ok_sublist].
  - intros Hd. left. inversion Hd as [? ? Hx|? ? Hx]; subst; [congruence|]. unfold has_dead. rewrite Exists_app, Exists_cons. by right; left.
  - change (fixdel (set_nitems _ tb)) with (fixdel tb). by eapply fixdel_nonneg.
  - by right.
  - cbn [app] in Hset. rewrite <- (assoc (++)) in Hset. rewrite Hset. eexists. split; [done|]. rewrite objs_cons, Hlive, Eobj in Hop. cbn [dbterm] in Hop. rewrite Hq in Hop.
    destruct (Hop (nitems tb + 1)) as [Hop1 _]; [cbn [length]; lia|]. by rewrite set_nitems_id in Hop1.
Qed.

Lemma dbh_put_ok tb fl obj key_clash_fail mem :
  table_ok tb fl → small tb → mem_ok tb mem →
  ∃ tb', let '(e, os') := put_result (status tb) key_clash_fail obj (of_objkey (GETKEY obj) (contents fl)) in
         db_put_hash tb obj key_clash_fail mem = Some (e, tb') ∧ op_ok tb fl (GETKEY obj) os' tb'.
Proof.
  intros Hok Hsm Hmem. set (k := GETKEY obj). destruct (bucket_run tb fl k Hok) as (c & pre & grp & post & Hb & Hl & Hc & Hr & Hos). rewrite Hos.
  pose proof (op_ok_refl tb fl k Hok) as Hrefl. rewrite Hos in Hrefl. destruct (run_conditions _ _ _ _ _ _ Hc Hr) as (Hn & Hng & Hkeys & Hpost & Hset & Hbag).
  unfold db_put_hash. fold k. rewrite Hb. cbn [mbind option_bind]. rewrite (seek_run k c pre grp post) by (try done; by destruct Hc).
  assert ((status tb = DB_SET → grp = []) → (status tb = DB_BAG → Forall (λ b, dbterm b = obj → live b = false) grp) →
          ∃ tb', put_new tb (hash_to_ix tb (MAKE_HASH k)) pre (grp ++ post) obj (MAKE_HASH k) mem = Some (DB_ERROR_NONE, tb') ∧ op_ok tb fl k (obj :: objs grp) tb') as Hnew
    by (intros; by eapply put_new_ok).
  destruct grp as [|b grp1].
  - pose proof Hr as (_ & _ & _ & _ & Hnil). specialize (Hnil eq_refl). subst post. destruct Hnew as (tb' & Hp & Hop); [done|done|]. cbn [app] in *. exists tb'. unfold put_result.
    change (objs []) with (@nil Obj) in *. rewrite bool_decide_eq_true_2, andb_false_r by done. split; [done|]. by destruct (status tb).
  - cbn [app]. rewrite <- (app_comm_cons grp1 post b) in *. unfold put_result. destruct (status tb) eqn:Est.
    + assert (grp1 = []) as -> by (specialize (Hset eq_refl); destruct grp1; cbn in *; [done|lia]). cbn [app]. rewrite objs_cons. change (objs []) with (@nil Obj).
      destruct (live b && key_clash_fail) eqn:Ecl.
      * apply andb_true_iff in Ecl as [Elive ->]. rewrite Elive. rewrite objs_cons, Elive in Hrefl. cbn. by exists tb.
      * destruct (put_set_ok tb fl k c pre b post obj eq_refl Hok Hl Hr Est) as (tb' & -> & Hop). exists tb'.
        assert (key_clash_fail && negb (bool_decide ((if live b then [dbterm b] else []) = [])) = false) as ->; [|by cbn].
        destruct (live b), key_clash_fail; try done; by rewrite bool_decide_eq_true_2.
    + destruct key_clash_fail; cbn [andb].
      * rewrite (app_comm_cons grp1 post b), clash_run by done. case_bool_decide as Eo; cbn [negb]; [|by exists tb].
        rewrite Eo in *. rewrite bool_decide_eq_false_2 by set_solver. destruct Hnew as (tb' & Hp & Hop); [done| |by exists tb'].
        intros _. eapply Forall_impl; [by apply objs_nil_dead|]. done.
      * rewrite (app_comm_cons grp1 post b). pose proof (find_equal_run obj k (b :: grp1) post Hng Hkeys Hpost) as Hfe.
        destruct (find_equal obj k (MAKE_HASH k) ((b :: grp1) ++ post)) as [[[before q] rest]|].
        -- destruct Hfe as (after & -> & Eg & Hq & Hbef). rewrite Eg in *. destruct (live q) eqn:Elq.
           ++ rewrite bool_decide_eq_true_2; [by exists tb|]. apply elem_of_objs. exists q. split; [set_solver|done].
           ++ destruct (put_revive_ok tb fl k c pre before q after post obj eq_refl Hok Hl ltac:(by rewrite Est) Hr Est Hq Elq Hbef) as (tb' & -> & Hop).
              exists tb'. cbn [mbind option_bind]. split; [done|]. rewrite bool_decide_eq_false_2; [done|].
              intros (b' & Hb' & Hlb' & Eb')%elem_of_objs. specialize (Hbag eq_refl). apply bag_ok_app in Hbag as (_ & [Hf _] & _). rewrite Forall_forall in Hf, Hbef.
              apply elem_of_app in Hb' as [Hb'|[->|Hb']%elem_of_cons]; [by apply (Hbef b')|congruence|]. rewrite Hf in Hlb'; [done|done|congruence].
        -- rewrite bool_decide_eq_false_2; [|intros (b' & Hb' & _ & Eb')%elem_of_objs; rewrite Forall_forall in Hfe; by apply (Hfe b')].
           destruct Hnew as (tb' & Hp & Hop); [done| |by exists tb']. intros _. eapply Forall_impl; [exact Hfe|]. done.
    + destruct key_clash_fail; cbn [andb].
      * rewrite (app_comm_cons grp1 post b), clash_run by done. case_bool_decide as Eo; cbn [negb]; [|by exists tb]. rewrite Eo in *. by destruct Hnew as (tb' & Hp & Hop); [..|exists tb'].
      * by destruct Hnew as (tb' & Hp & Hop); [..|exists tb'].
Qed.

(** ** Lookup *)

(** What [find_live] finds: the part of the run from its first live node on, with the rest of the chain behind it *)
Lemma find_live_ok tb fl k :
  table_ok tb fl → ∃ rest post,
    find_live tb k = Some (match rest with [] => [] | _ => rest ++ post end) ∧ of_objkey k (contents fl) = objs rest ∧
    Forall node_ok (rest ++ post) ∧ Forall (λ b, node_key b = k) rest ∧ Forall (λ b, node_key b ≠ k) post ∧
    (status tb = DB_SET → length rest ≤ 1)%nat ∧ match rest with [] => True | b :: _ => live b = true end.
Proof.
  intros Hok. destruct (bucket_run tb fl k Hok) as (c & pre & grp & post & Hb & Hl & Hc & Hr & Hos).
  destruct (run_conditions _ _ _ _ _ _ Hc Hr) as (Hn & Hng & Hk & Hpost & Hset & _). destruct (first_live_split grp) as (dead & rest & -> & Hd & Hrest).
  exists rest, post. unfold find_live. rewrite Hb. cbn [mbind option_bind]. unfold search_list.
  rewrite (seek_live_run k c pre dead rest post) by (try done; by destruct Hc). apply Forall_app in Hk as [_ Hk]. split_and!.
  - by destruct rest.
  - rewrite Hos, objs_app, (objs_dead dead) by done. done.
  - rewrite !Forall_app in Hng. rewrite Forall_app. tauto.
  - done.
  - done.
  - intros E. specialize (Hset E). rewrite length_app in Hset. lia.
  - done.
Qed.

Lemma put_term_list_objs l : put_term_list l = rev (objs l).
Proof. done. Qed.

Lemma dbh_get_ok tb fl k : table_ok tb fl → db_get_hash tb k = Some (DB_ERROR_NONE, rev (of_objkey k (contents fl))).
Proof.
  intros Hok. destruct (find_live_ok tb fl k Hok) as (rest & post & Hf & -> & Hn & Hk & Hpost & Hset & _). unfold db_get_hash. rewrite Hf. cbn [mbind option_bind].
  destruct rest as [|b1 rest]; [done|]. cbn [app]. do 2 f_equal. rewrite put_term_list_objs. inversion Hn; inversion Hk; subst.
  destruct (status tb); [|by rewrite (group_run (node_key b1) rest post)..]. specialize (Hset eq_refl). destruct rest; [done|cbn in Hset; lia].
Qed.

Lemma member_ok tb fl k : table_ok tb fl → db_member_hash tb k = Some (DB_ERROR_NONE, negb (bool_decide (of_objkey k (contents fl) = []))).
Proof.
  intros Hok. destruct (find_live_ok tb fl k Hok) as (rest & post & Hf & -> & _ & _ & _ & _ & Hlive). unfold db_member_hash. rewrite Hf. cbn [mbind option_bind].
  destruct rest as [|b1 rest]; [done|]. by rewrite objs_cons, Hlive.
Qed.

(** The elements at position [n] of the objects of a key, [os] in the order of insertion *)
Definition get_element_result (st : db_type) os (n : Z) : option (db_error * option (element_result T)) :=
  match os with
  | [] => Some (DB_ERROR_BADKEY, None)
  | o :: _ =>
      if existsb (λ o, n >? arityval o) os then Some (DB_ERROR_BADITEM, None)
      else match st with
           | DB_SET => t ← tpl o n; Some (DB_ERROR_NONE, Some (Element t))
           | _ => ts ← mapM (λ o, tpl o n) os; Some (DB_ERROR_NONE, Some (Elements ts))
           end
  end.

Lemma mapM_app_opt {A B} (f : A → option B) (l l' : list A) : mapM f (l ++ l') = r ← mapM f l; r' ← mapM f l'; Some (r ++ r').
Proof.
  induction l as [|a l IH]; cbn; [by destruct (mapM f l')|]. destruct (f a); cbn; [|done]. fold (mapM f (l ++ l')) (mapM f l). rewrite IH.
  destruct (mapM f l); cbn; [|done]. by destruct (mapM f l').
Qed.

Lemma mapM_rev {A B} (f : A → option B) (l : list A) : mapM f (rev l) = r ← mapM f l; Some (rev r).
Proof.
  induction l as [|a l IH]; [done|]. cbn [rev]. rewrite mapM_app_opt, IH. cbn. fold (mapM f l). destruct (mapM f l); cbn; destruct (f a); done.
Qed.

Lemma mapM_fmap_opt {A B C} (f : B → option C) (g : A → B) (l : list A) : mapM (λ a, f (g a)) l = mapM f (g <$> l).
Proof. induction l as [|a l IH]; [done|]. cbn. fold (mapM (λ a, f (g a)) l) (mapM f (g <$> l)). by rewrite IH. Qed.

Lemma existsb_rev {A} (f : A → bool) (l : list A) : existsb f (rev l) = existsb f l.
Proof. induction l as [|a l IH]; [done|]. cbn. rewrite existsb_app, IH. cbn. by destruct (f a), (existsb f l). Qed.

Lemma existsb_objs (f : Obj → bool) l : existsb (λ b, f (dbterm b) && live b) l = existsb f (objs l).
Proof. induction l as [|b l IH]; [done|]. cbn [existsb]. rewrite objs_cons, IH. destruct (live b); cbn; [by rewrite andb_true_r|by rewrite andb_false_r]. Qed.

Lemma get_element_ok tb fl k n :
  table_ok tb fl → db_get_element_hash tb k n = get_element_result (status tb) (rev (of_objkey k (contents fl))) n.
Proof.
  intros Hok. destruct (find_live_ok tb fl k Hok) as (rest & post & Hf & -> & Hn & Hk & Hpost & Hset & Hlive). unfold db_get_element_hash. rewrite Hf. cbn [mbind option_bind].
  destruct rest as [|b1 rest]; [done|]. cbn [app]. inversion Hn as [|? ? Hn1 Hn2]; inversion Hk as [|? ? Hk1 Hk2]; subst. rewrite (group_run (node_key b1) rest post) by done.
  assert (∃ o os', rev (objs (b1 :: rest)) = o :: os') as (o & os' & E).
  { destruct (rev (objs (b1 :: rest))) as [|o os'] eqn:E; [|eauto]. apply (f_equal (@rev _)) in E. rewrite rev_involutive, objs_cons, Hlive in E. done. }
  assert (existsb (λ o, n >? arityval o) (o :: os') = (n >? arityval (dbterm b1)) || existsb (λ b2, (n >? arityval (dbterm b2)) && live b2) rest) as Eex.
  { rewrite <- E, existsb_rev, objs_cons, Hlive. cbn [existsb]. by rewrite (existsb_objs (λ o, n >? arityval o)). }
  unfold get_element_result. rewrite E, Eex. destruct (n >? arityval (dbterm b1)) eqn:E1; [done|]. cbn [orb].
  destruct (status tb).
  - specialize (Hset eq_refl). destruct rest; [|cbn in Hset; lia]. rewrite objs_cons, Hlive in E. cbn in E. by injection E as <- <-.
  - destruct (existsb _ rest); [done|]. rewrite <- E, mapM_rev. unfold objs. rewrite <- (mapM_fmap_opt (λ o, tpl o n)). cbn [mbind option_bind]. by destruct (mapM _ _).
  - destruct (existsb _ rest); [done|]. rewrite <- E, mapM_rev. unfold objs. rewrite <- (mapM_fmap_opt (λ o, tpl o n)). cbn [mbind option_bind]. by destruct (mapM _ _).
Qed.

(** ** Deletion *)

(** The end of the erase functions, for a loop that has thinned the run *)
Lemma dbh_finish_erase_ok tb fl k c pre grp post os' cs d a :
  table_ok tb fl → small tb → fl !! Z.to_nat (key_ix tb k) = Some c → chain_ok (status tb) c → run k c pre grp post →
  erased (IS_FIXED tb) true grp post os' cs d false a →
  ∃ tb', finish_erase tb (hash_to_ix tb (MAKE_HASH k)) (pre ++ cs) d a = Some (DB_ERROR_NONE, tb') ∧ op_ok tb fl k os' tb'.
Proof.
  intros Hok Hsm Hl Hc Hr (grp' & -> & Ht & Ho & Hd & Ha & Hfix). destruct (run_conditions _ _ _ _ _ _ Hc Hr) as (Hn & _ & Hk & _ & Hset & Hbag).
  set (tb0 := if a then add_fixed_deletion tb (hash_to_ix tb (MAKE_HASH k)) else tb). pose proof Hok as ((_ & (home & Hg) & _) & _). pose proof (key_ix_range tb home k Hg) as Hix.
  destruct (change_run tb fl k c pre grp grp' post tb0) as (bl & Hset1 & Hfresh & Hop); try done.
  - by eapply thinned_node_ok.
  - by eapply thinned_key.
  - intros E. specialize (Hset E). pose proof (thinned_length _ _ Ht). lia.
  - intros E. eapply thinned_bag_ok; [done|auto].
  - subst tb0. by case_match.
  - subst tb0. by case_match.
  - subst tb0. by case_match.
  - subst tb0. by case_match.
  - subst tb0. case_match; [|done]. cbn. set_solver.
  - subst tb0. destruct a; [right; cbn; set_solver|]. intros Hdd. left. destruct (Ha eq_refl) as [_ Hs]. unfold has_dead in *. rewrite Exists_exists in *.
    destruct Hdd as (b & Hb & ?). exists b. split; [by eapply elem_of_sublist|done].
  - subst tb0. pose proof (fixdel_nonneg _ _ Hok). case_match; [|done]. cbn. constructor; [unfold key_ix in Hix; lia|done].
  - intros Hfx. destruct grp as [|b grp]; [by left|]. right. by apply Hfix.
  - unfold finish_erase. fold tb0. rewrite Hset1. cbn [mbind option_bind]. set (tb1 := set_segs _ _ _ bl tb0) in *. rewrite Ho in Hop.
    assert (nitems tb1 = nitems tb) as Eni by (subst tb1 tb0; by case_match).
    destruct (Hop (nitems tb1 + d)) as [Hop1 Hna]; [rewrite Eni; lia|]. destruct (Z.eqb_spec d 0) as [->|Hd0]; cbn [negb].
    + eexists. split; [done|]. rewrite Z.add_0_r in Hop1. by rewrite set_nitems_id in Hop1.
    + pose proof Hop1 as (fl1 & Hok1 & _). assert (small (set_nitems (nitems tb1 + d) tb1)) as Hsm1 by (unfold small; by rewrite Hna).
      destruct (try_shrink_ok _ fl1 Hok1 Hsm1) as (tb2 & _ & Hs & _). rewrite Hs. cbn [mbind option_bind]. eexists. split; [done|].
      eapply op_ok_then; [done|done|]. intros fl1' Hok1'. destruct (try_shrink_ok _ fl1' Hok1' Hsm1) as (tb2' & fl2 & Hs' & Hre & Hna2 & Hfx).
      rewrite Hs in Hs'. injection Hs' as <-. exists fl2. split; [done|]. split; [lia|done].
Qed.

Lemma dbh_erase_ok tb fl k : table_ok tb fl → small tb → ∃ tb', db_erase_hash tb k = Some (DB_ERROR_NONE, tb') ∧ op_ok tb fl k [] tb'.
Proof.
  intros Hok Hsm. destruct (bucket_run tb fl k Hok) as (c & pre & grp & post & Hb & Hl & Hc & Hr & Hos). unfold db_erase_hash. rewrite Hb. cbn [mbind option_bind].
  destruct (erase_loop_run (IS_FIXED tb) k c pre grp post) as (cs & d & a & -> & He); [by destruct Hc|done|]. by eapply dbh_finish_erase_ok.
Qed.

Lemma erase_object_ok tb fl obj :
  table_ok tb fl → small tb →
  ∃ tb', db_erase_object_hash tb obj = Some (DB_ERROR_NONE, tb') ∧ op_ok tb fl (GETKEY obj) (without obj (of_objkey (GETKEY obj) (contents fl))) tb'.
Proof.
  intros Hok Hsm. destruct (bucket_run tb fl (GETKEY obj) Hok) as (c & pre & grp & post & Hb & Hl & Hc & Hr & ->). unfold db_erase_object_hash. rewrite Hb. cbn [mbind option_bind].
  destruct (erase_object_loop_run (IS_FIXED tb) (bool_decide (status tb = DB_DUPLICATE_BAG)) obj (GETKEY obj) c pre grp post) as (cs & d & a & -> & He);
    [by destruct Hc|done| |by eapply dbh_finish_erase_ok].
  intros Hdup%bool_decide_eq_false. destruct (run_conditions _ _ _ _ _ _ Hc Hr) as (_ & _ & _ & _ & Hset & Hbag). destruct (status tb); [|by apply bag_ok_single, Hbag|done].
  specialize (Hset eq_refl). unfold single. etrans; [apply length_filter|]. unfold objs. rewrite length_fmap. etrans; [|exact Hset]. unfold purge. apply length_filter.
Qed.

(** ** Updating an object in place *)

(** [ets:update_counter] and [ets:update_element]: [f] is the change they make *)
Definition update_object tb k (f : Obj → Obj) : option (bool * DbTableHash Obj) :=
  h ← db_lookup_dbterm_hash tb k;
  match h with
  | None => Some (false, tb)
  | Some h => tb ← db_finalize_dbterm_hash tb h (f (h_obj h)); Some (true, tb)
  end.

Lemma update_ok tb fl k f :
  table_ok tb fl → status tb = DB_SET → (∀ o, GETKEY (f o) = GETKEY o) →
  let os := of_objkey k (contents fl) in
  ∃ tb', update_object tb k f = Some (negb (bool_decide (os = [])), tb') ∧ op_ok tb fl k (f <$> os) tb'.
Proof.
  intros Hok Hst Hf os. subst os. destruct (bucket_run tb fl k Hok) as (c & pre & grp & post & Hb & Hl & Hc & Hr & Hos). rewrite Hos.
  pose proof (op_ok_refl tb fl k Hok) as Hrefl. rewrite Hos in Hrefl. destruct (run_conditions _ _ _ _ _ _ Hc Hr) as (Hn & Hng & Hk & Hpost & Hset & _). specialize (Hset Hst).
  destruct (first_live_split grp) as (dead & rest & -> & Hd & Hrest). unfold update_object, db_lookup_dbterm_hash. rewrite Hb. cbn [mbind option_bind].
  rewrite (seek_live_run k c pre dead rest post) by (try done; by destruct Hc). rewrite length_app in Hset. destruct rest as [|b rest].
  - cbn [mbind option_bind]. exists tb. rewrite app_nil_r, objs_dead in * by done. done.
  - assert (dead = [] ∧ rest = []) as [-> ->] by (destruct dead, rest; cbn in Hset; try lia; done). cbn [app mbind option_bind h_obj].
    rewrite objs_cons, Hrest. change (objs []) with (@nil Obj). cbn [app] in Hr. pose proof Hr as (Ec & _). cbn [app] in Ec.
    unfold db_finalize_dbterm_hash. cbn [h_ix h_pos]. rewrite Hb. cbn [mbind option_bind]. rewrite Ec, app_nil_r, list_lookup_middle by done. cbn [mbind option_bind].
    rewrite insert_app_r_alt, Nat.sub_diag by lia. cbn [insert list_insert]. inversion Hn as [|? ? Hnb _]; inversion Hk as [|? ? Hkb _]; subst.
    assert (hvalue b = MAKE_HASH (node_key b)) as Hh by (destruct Hnb as [?|Hx]; [done|by apply live_spec in Hrest]).
    assert (live (HDT (hvalue b) (f (dbterm b))) = true) as Hlv by done. assert (node_key (HDT (hvalue b) (f (dbterm b))) = node_key b) as Ek by apply Hf.
    destruct (change_run tb fl (node_key b) _ pre [b] [HDT (hvalue b) (f (dbterm b))] post tb Hok Hl Hr) as (bl & Hset1 & _ & Hop); try done.
    + constructor; [|done]. left. by rewrite Ek.
    + by constructor.
    + intros Hdd. inversion Hdd as [? ? Hx|? ? Hx]; subst; [congruence|by apply Exists_nil in Hx].
    + by eapply fixdel_nonneg.
    + by right.
    + cbn [app] in Hset1. rewrite Hset1. cbn [mbind option_bind]. eexists. split; [done|]. rewrite !objs_cons, Hlv, Hrest in Hop. cbn [dbterm] in Hop.
      change (objs []) with (@nil Obj) in Hop. destruct (Hop (nitems tb)) as [Hop1 _]; [cbn; lia|]. by rewrite set_nitems_id in Hop1.
Qed.

(** ** Slots *)

Lemma slot_ok tb fl (slot : option Z) :
  table_ok tb fl →
  match slot with
  | Some i =>
      if (0 <=? i) && (i <? nactive tb) then ∃ c, fl !! Z.to_nat i = Some c ∧ db_slot_hash tb slot = Some (DB_ERROR_NONE, Some (inr (rev (objs c))))
      else if i =? nactive tb then db_slot_hash tb slot = Some (DB_ERROR_NONE, Some (inl tt))
      else db_slot_hash tb slot = Some (DB_ERROR_BADPARAM, None)
  | None => db_slot_hash tb slot = Some (DB_ERROR_BADPARAM, None)
  end.
Proof.
  intros (Hp & _). pose proof Hp as (_ & (home & Hg) & _). pose proof Hg as (_ & _ & _ & Hn256). destruct slot as [i|]; [|done]. unfold db_slot_hash.
  destruct (Z.leb_spec 0 i), (Z.ltb_spec i (nactive tb)); cbn [andb].
  - destruct (placed_slot tb fl i Hp ltac:(lia)) as (c & Hb & Hl). exists c. split; [done|]. rewrite (proj2 (Z.ltb_ge i 0)) by lia. by rewrite Hb.
  - rewrite (proj2 (Z.ltb_ge i 0)) by lia. by case_match.
  - rewrite (proj2 (Z.ltb_lt i 0)) by lia. rewrite (proj2 (Z.eqb_neq i (nactive tb))) by lia. done.
  - lia.
Qed.

End Ops.

(** * Fixation, creation and deletion of hashed ETS tables. *)

Section Life.
Context {Obj T : Type} `{EqDecision Obj, EqDecision T, !DbHashTerms Obj T, !DbHashConfig}.
Implicit Types (tb : DbTableHash Obj) (b : HashDbTerm Obj) (c : list (HashDbTerm Obj)) (fl : list (list (HashDbTerm Obj))) (l : list Z).

(** ** Purging *)

Lemma table_fixdel tb fl l :
  table_ok tb fl → (∀ i c, fl !! i = Some c → has_dead c → Z.of_nat i ∈ l) → Forall (λ i, 0 ≤ i) l → table_ok (set_fixdel l tb) fl.
Proof. intros (Hp & Hni & _ & _ & Hres & Hfr) Hd Hl. by split_and!. Qed.

Lemma purge_slot tb fl ix c l :
  table_ok (set_fixdel (ix :: l) tb) fl → 0 ≤ ix < nactive tb → fl !! Z.to_nat ix = Some c →
  ∃ bl, let tb' := set_segs (segtab tb) (nslots tb) (nsegs tb) bl tb in
    set_BUCKET tb ix (purge c) = Some tb' ∧ table_ok (set_fixdel l tb') (<[Z.to_nat ix := purge c]> fl) ∧ contents (<[Z.to_nat ix := purge c]> fl) = contents fl.
Proof.
  intros (Hp & Hni & Hd & Hf0 & Hres & Hfr) Hix Hl. pose proof Hp as (Hs & _ & Hns & Hch). cbn in Hns.
  destruct (set_BUCKET_segs tb fl ix (purge c) Hs ltac:(lia)) as (bl & Hset & Hs' & _). exists bl. split; [done|]. destruct (Hch _ _ Hl) as [Hc Hcix].
  assert (contents (<[Z.to_nat ix := purge c]> fl) = contents fl) as Econt.
  { rewrite insert_take_drop by (by eapply lookup_lt_Some). rewrite <- (take_drop_middle _ _ _ Hl) at 3. unfold contents. by rewrite !mjoin_app, !join_cons, !objs_app, objs_purge. }
  split; [|done]. split; [|split; [by rewrite Econt|split]].
  - eapply (placed_insert (set_fixdel (ix :: l) tb)); [done|done|done|eapply chain_ok_sublist; [apply purge_sublist|done]|]. eapply Forall_sub; [apply purge_sublist|done].
  - intros j cj Hj Hdd. destruct (decide (j = Z.to_nat ix)) as [->|Hne].
    + rewrite list_lookup_insert_eq in Hj by (by eapply lookup_lt_Some). simplify_eq. apply Exists_exists in Hdd as (b & Hb & Hdead).
      pose proof (purge_live c) as Hlv. rewrite Forall_forall in Hlv. rewrite Hlv in Hdead; done.
    + rewrite list_lookup_insert_ne in Hj by done. specialize (Hd _ _ Hj Hdd). cbn in Hd |- *. apply elem_of_cons in Hd as [Hd|Hd]; [lia|done].
  - cbn in *. by inversion Hf0.
Qed.

(** In a table that is not fixed every recorded slot is purged. *)
Lemma unfix_loop_ok tb fl l :
  table_ok (set_fixdel l tb) fl → IS_FIXED tb = false →
  ∃ bl fl', let tb' := set_segs (segtab tb) (nslots tb) (nsegs tb) bl tb in
    unfix_loop tb l = Some tb' ∧ table_ok (set_fixdel [] tb') fl' ∧ contents fl' = contents fl.
Proof.
  intros Hok Hfix. revert tb fl Hok Hfix. induction l as [|ix l IH]; intros tb fl Hok Hfix.
  { exists (blocks tb), fl. split; [by destruct tb|]. split; [by destruct tb|done]. }
  cbn [unfix_loop]. rewrite Hfix. destruct (Z.ltb_spec ix (nactive tb)) as [Hlt|Hge].
  - pose proof Hok as (Hp & _ & _ & Hf0 & _). cbn in Hf0. inversion Hf0 as [|? ? Hix0 Hl0]; subst.
    destruct (placed_slot (set_fixdel (ix :: l) tb) fl ix Hp ltac:(cbn; lia)) as (c & Hb & Hl). change (BUCKET (set_fixdel (ix :: l) tb) ix) with (BUCKET tb ix) in Hb.
    rewrite Hb. cbn [mbind option_bind]. destruct (purge_slot tb fl ix c l Hok ltac:(lia) Hl) as (bl & -> & Hok' & Econt). cbn [mbind option_bind].
    destruct (IH _ _ Hok' Hfix) as (bl' & fl' & -> & Hok2 & Econt2). exists bl', fl'. split; [done|]. split; [done|]. congruence.
  - cbn [mbind option_bind]. apply IH; [|done]. pose proof Hok as (Hp & _ & Hd & Hf0 & _). change (set_fixdel l tb) with (set_fixdel l (set_fixdel (ix :: l) tb)).
    apply table_fixdel; [done| |by inversion Hf0]. intros i c Hi Hdd. specialize (Hd _ _ Hi Hdd). cbn in Hd. apply elem_of_cons in Hd as [Hd|Hd]; [|done].
    exfalso. rewrite (placed_inactive _ _ i c Hp) in Hdd; [by apply Exists_nil in Hdd|cbn; lia|done].
Qed.

(** [db_unfix_table_hash] keeps the objects; if the table is not fixed no deleted objects remain. *)
Lemma unfix_ok tb fl :
  table_ok tb fl → ∃ tb' fl', db_unfix_table_hash tb = Some tb' ∧ table_ok tb' fl' ∧ contents fl' = contents fl ∧
    status tb' = status tb ∧ fixref tb' = fixref tb ∧ nactive tb' = nactive tb ∧
    (IS_FIXED tb = true → tb' = tb) ∧ (IS_FIXED tb = false → Forall (λ c, ¬ has_dead c) fl').
Proof.
  intros Hok. unfold db_unfix_table_hash. destruct (IS_FIXED tb) eqn:Ef.
  - exists tb, fl. assert (unfix_loop (set_fixdel [] tb) (fixdel tb) = Some tb) as ->; [|by split_and!].
    destruct (fixdel tb) as [|ix l] eqn:El; cbn [unfix_loop]; [|change (IS_FIXED (set_fixdel [] tb)) with (IS_FIXED tb); rewrite Ef]; f_equal; destruct tb; cbn in *; by rewrite El, ?app_nil_r.
  - destruct (unfix_loop_ok (set_fixdel [] tb) fl (fixdel tb)) as (bl & fl' & -> & Hok' & Ec); [by destruct tb|done|].
    eexists _, fl'. split; [done|]. split; [exact Hok'|]. split_and!; [done..|]. intros _. rewrite Forall_lookup. intros i c Hi Hdd.
    destruct Hok' as (_ & _ & Hd & _). exact (not_elem_of_nil _ (Hd _ _ Hi Hdd)).
Qed.

(** ** Deleting all objects of a fixed table *)

Definition kill b : HashDbTerm Obj := HDT INVALID_HASH (dbterm b).

Lemma keys_kill c : keys (kill <$> c) = keys c.
Proof. unfold keys. rewrite <- list_fmap_compose. by apply list_fmap_ext. Qed.

Lemma kill_dead c : Forall (λ b, live b = false) (kill <$> c).
Proof. apply Forall_fmap. by apply Forall_true. Qed.

Lemma kill_chain_ok st c : chain_ok st c → chain_ok st (kill <$> c).
Proof.
  intros (Hn & Hg & Hset & _). unfold chain_ok. rewrite keys_kill. split_and!; [|done|done|].
  - apply Forall_fmap. apply Forall_true. intros b. by right.
  - intros _. pose proof (kill_dead c) as Hd. induction Hd as [|b l Hb Hd IH]; cbn; [done|]. split; [|done]. eapply Forall_impl; [exact Hd|]. done.
Qed.

Lemma mark_loop_ok n tb fl ix :
  segs tb fl → 0 ≤ ix → ix + Z.of_nat n ≤ nslots tb →
  ∃ bl fd fl', let tb' := set_fixdel fd (set_segs (segtab tb) (nslots tb) (nsegs tb) bl tb) in
    mark_loop n tb ix = Some tb' ∧ segs tb' fl' ∧ length fl' = length fl ∧ fixdel tb ⊆ fd ∧ (Forall (λ i, 0 ≤ i) (fixdel tb) → Forall (λ i, 0 ≤ i) fd) ∧
    ∀ j c, fl !! j = Some c →
      if (ix <=? Z.of_nat j) && (Z.of_nat j <? ix + Z.of_nat n) then fl' !! j = Some (kill <$> c) ∧ (c ≠ [] → Z.of_nat j ∈ fd) else fl' !! j = Some c.
Proof.
  revert tb fl ix. induction n as [|n IH]; intros tb fl ix Hs Hix Hn.
  { exists (blocks tb), (fixdel tb), fl. split; [by destruct tb|]. split; [by destruct tb|]. split_and!; [done..|]. intros j c Hj. case_match; [lia|done]. }
  cbn [mark_loop]. rewrite (BUCKET_segs _ _ _ Hs) by lia. pose proof (segs_length _ _ Hs) as Hlen.
  destruct (lookup_lt_is_Some_2 fl (Z.to_nat ix)) as [c0 Hc0]; [lia|]. rewrite Hc0. cbn [mbind option_bind].
  assert (∃ bl fd, let tb1 := set_fixdel fd (set_segs (segtab tb) (nslots tb) (nsegs tb) bl tb) in
            match c0 with [] => Some tb | _ => set_BUCKET (add_fixed_deletion tb ix) ix ((λ b, HDT INVALID_HASH (dbterm b)) <$> c0) end = Some tb1 ∧
            segs tb1 (<[Z.to_nat ix := kill <$> c0]> fl) ∧ fixdel tb ⊆ fd ∧ (c0 ≠ [] → ix ∈ fd) ∧ (Forall (λ i, 0 ≤ i) (fixdel tb) → Forall (λ i, 0 ≤ i) fd)) as
    (bl & fd & -> & Hs1 & Hsub & Hin & H0).
  { destruct c0 as [|b c0].
    - exists (blocks tb), (fixdel tb). split; [by destruct tb|]. split; [cbn; rewrite list_insert_id by done; by destruct tb|]. by split_and!.
    - destruct (set_BUCKET_segs (add_fixed_deletion tb ix) fl ix (kill <$> b :: c0) Hs ltac:(cbn; lia)) as (bl & Hset & Hs1 & _).
      exists bl, (ix :: fixdel tb). split; [exact Hset|]. split; [done|]. split; [set_solver|]. split; [set_solver|]. intros. by constructor. }
  cbn [mbind option_bind]. destruct (IH _ _ (ix + 1) Hs1) as (bl' & fd' & fl' & -> & Hs' & Hl' & Hsub' & H0' & Hall); [lia|cbn; lia|].
  exists bl', fd', fl'. split; [done|]. split; [done|]. split; [by rewrite Hl', length_insert|]. split; [cbn in Hsub'; set_solver|]. split; [auto|].
  intros j c Hj. destruct (decide (j = Z.to_nat ix)) as [->|Hne].
  - rewrite Hc0 in Hj. injection Hj as <-. specialize (Hall (Z.to_nat ix) (kill <$> c0)). rewrite list_lookup_insert_eq in Hall by lia. specialize (Hall eq_refl).
    rewrite Z2Nat.id in * by lia. rewrite (proj2 (Z.leb_gt (ix + 1) ix)) in Hall by lia. rewrite Z.leb_refl, (proj2 (Z.ltb_lt ix _)) by lia. cbn [andb] in *.
    split; [done|]. intros Hc. apply Hsub'. by apply Hin.
  - specialize (Hall j c). rewrite list_lookup_insert_ne in Hall by done. specialize (Hall Hj). revert Hall.
    destruct (Z.leb_spec (ix + 1) (Z.of_nat j)), (Z.ltb_spec (Z.of_nat j) (ix + 1 + Z.of_nat n)), (Z.leb_spec ix (Z.of_nat j)), (Z.ltb_spec (Z.of_nat j) (ix + Z.of_nat (S n)));
      cbn [andb]; try done; lia.
Qed.

Lemma contents_dead fl : Forall (Forall (λ b, live b = false)) fl → contents fl = [].
Proof. induction 1 as [|c fl Hc Hf IH]; [done|]. unfold contents in *. by rewrite join_cons, objs_app, objs_dead, IH. Qed.

Lemma mark_all_ok tb fl :
  table_ok tb fl → ∃ tb' fl', db_mark_all_deleted_hash tb = Some tb' ∧ table_ok tb' fl' ∧ contents fl' = [] ∧
    status tb' = status tb ∧ fixref tb' = fixref tb ∧ nactive tb' = nactive tb ∧ stable tb fl tb' fl'.
Proof.
  intros Hok. pose proof Hok as (Hp & Hni & Hd & Hf0 & Hres & Hfr). pose proof Hp as (Hs & Hg & Hns & Hch). pose proof Hg as (home & _ & _ & _ & Hn256).
  unfold db_mark_all_deleted_hash. destruct (mark_loop_ok (Z.to_nat (nactive tb)) tb fl 0 Hs) as (bl & fd & fl' & -> & Hs' & Hl' & Hsub & H0 & Hall); [lia|lia|].
  cbn [mbind option_bind]. set (tb' := set_nitems 0 _). assert (fl' = (λ c, kill <$> c) <$> fl) as ->.
  { apply list_eq_same_length with (length fl); [by rewrite length_fmap|done|]. intros j c' c'' Hj Hc' Hc''. rewrite list_lookup_fmap in Hc''.
    destruct (fl !! j) as [c|] eqn:Hc; [|done]. cbn in Hc''. injection Hc'' as <-. specialize (Hall j c Hc). destruct (_ && _) eqn:E; [destruct Hall; congruence|].
    pose proof (placed_inactive tb fl j c Hp ltac:(lia) Hc) as ->. cbn. congruence. }
  assert (contents ((λ c, kill <$> c) <$> fl) = []) as Ec. { apply contents_dead. apply Forall_fmap. apply Forall_true. intros c. apply kill_dead. }
  assert (∀ k, key_ix tb' k = key_ix tb k) as Hix by done.
  exists tb', ((λ c, kill <$> c) <$> fl). split; [done|]. split; [|split_and!; [done..|]].
  - split; [|split; [by rewrite Ec|split; [|split; [by apply H0|done]]]].
    + split; [exact Hs'|]. split; [done|]. split; [done|]. intros i c. rewrite list_lookup_fmap. destruct (fl !! i) as [c0|] eqn:Hc; [|done]. intros [= <-].
      destruct (Hch _ _ Hc) as [Hc0 Hix0]. split; [by apply kill_chain_ok|]. apply Forall_fmap. eapply Forall_impl; [exact Hix0|]. done.
    + intros i c. rewrite list_lookup_fmap. destruct (fl !! i) as [c0|] eqn:Hc; [|done]. intros [= <-] Hdd. destruct c0 as [|b c0]; [by apply Exists_nil in Hdd|].
      specialize (Hall i _ Hc). destruct (_ && _) eqn:E; [by apply Hall|]. exfalso. pose proof (placed_inactive tb fl i _ Hp ltac:(lia) Hc). done.
  - split; [done|]. apply Forall2_same_length_lookup_2; [by rewrite length_fmap|]. intros i c c' Hc. rewrite list_lookup_fmap, Hc. intros [= <-]. by rewrite keys_kill.
Qed.

(** ** Deleting a table in portions *)

Definition seg_limit : Z := (DELETE_RECORD_LIMIT `quot` CHAIN_LEN) `quot` SEGSZ.

Lemma concat_mjoin {A} (ls : list (list A)) : concat ls = mjoin ls.
Proof. induction ls as [|l0 ls IH]; [done|]. cbn [concat]. by rewrite join_cons, IH. Qed.

(** The fields that freeing keeps *)
Definition kept tb tb' : Prop := status tb' = status tb ∧ fixref tb' = fixref tb ∧ nitems tb' = nitems tb ∧ is_resizing tb' = is_resizing tb.

Lemma free_segs_ok fuel tb fl n freed :
  segs tb fl → (0 < fuel)%nat → seg_limit - n ≤ Z.of_nat fuel →
  ∃ fin freed' tb' fl', free_segs fuel tb n freed = Some (fin, freed ++ freed', tb') ∧ segs tb' fl' ∧ mjoin fl ≡ₚ freed' ++ mjoin fl' ∧
    kept tb tb' ∧ fixdel tb' = fixdel tb ∧ (if fin : bool then fl' = [] else length fl' + 256 ≤ length fl)%nat.
Proof.
  revert tb fl n freed. induction fuel as [|fuel IH]; intros tb fl n freed Hs Hf Hlim; [lia|]. cbn [free_segs]. pose proof (segs_length _ _ Hs) as Hlen.
  destruct (Z.eqb_spec (nslots tb) 0) as [E|E].
  { exists true, [], tb, fl. rewrite app_nil_r. assert (fl = []) as -> by (apply nil_length_inv; lia). done. }
  destruct (free_seg_segs tb fl true Hs E) as (st & ng & bl & fl1 & last & -> & Hlast & -> & Hs1). cbn [mbind option_bind]. fold seg_limit.
  rewrite concat_mjoin. destruct (Z.geb_spec (n + 1) seg_limit) as [Hge|Hlt].
  - eexists false, _, _, fl1. split; [done|]. split; [done|]. split; [rewrite mjoin_app; by rewrite Permutation_app_comm|]. split; [done|]. split; [done|].
    rewrite length_app. lia.
  - destruct (IH _ _ (n + 1) (freed ++ mjoin last) Hs1) as (fin & freed' & tb' & fl' & -> & Hs' & Hperm & Hk & Hfd & Hfin); [lia|lia|].
    exists fin, (mjoin last ++ freed'), tb', fl'. split; [by rewrite (assoc (++))|]. split; [done|]. split; [|split; [done|split; [done|]]].
    + rewrite mjoin_app, Hperm, Permutation_app_comm. by rewrite (assoc (++)).
    + destruct fin; [done|]. rewrite length_app. lia.
Qed.

(** Portions that are left, the last one not counted *)
Definition portions tb : Z := zlen (fixdel tb) / (2 * DELETE_RECORD_LIMIT) + nslots tb / SEGSZ.

Lemma portions_fewer tb ns : 0 ≤ ns ≤ nslots tb - 256 → ns / SEGSZ < portions tb.
Proof.
  intros Hns. unfold portions. change SEGSZ with 256. pose proof (Z.div_pos (zlen (fixdel tb)) (2 * DELETE_RECORD_LIMIT) ltac:(lia) eq_refl).
  assert (ns / 256 ≤ (nslots tb - 1 * 256) / 256) as Hle by (apply Z.div_le_mono; lia). replace (nslots tb - 1 * 256) with (nslots tb + (-1) * 256) in Hle by lia.
  rewrite Z.div_add in Hle by lia. lia.
Qed.

Lemma free_continue_ok tb fl :
  segs tb fl → ∃ fin freed tb' fl', db_free_table_continue_hash tb = Some (fin, freed, tb') ∧ segs tb' fl' ∧ mjoin fl ≡ₚ freed ++ mjoin fl' ∧ kept tb tb' ∧
    (if fin : bool then fl' = [] ∧ fixdel tb' = [] else portions tb' < portions tb).
Proof.
  intros Hs. pose proof (segs_length _ _ Hs) as Hlen. unfold db_free_table_continue_hash. destruct (Z.geb_spec (zlen (fixdel tb)) (2 * DELETE_RECORD_LIMIT)) as [Hge|Hlt].
  - eexists false, [], _, fl. split; [done|]. split; [done|]. split; [done|]. split; [done|]. unfold portions. cbn [fixdel nslots set_fixdel].
    rewrite length_drop, Nat2Z.inj_sub by lia. rewrite Z2Nat.id by done.
    replace (zlen (fixdel tb) - 2 * DELETE_RECORD_LIMIT) with (zlen (fixdel tb) + (-1) * (2 * DELETE_RECORD_LIMIT)) by lia. rewrite Z.div_add by done. lia.
  - fold seg_limit. destruct (free_segs_ok (S (Z.to_nat seg_limit)) (set_fixdel [] tb) fl (zlen (fixdel tb) `quot` 2) [] Hs) as (fin & freed & tb' & fl' & -> & Hs' & Hperm & Hk & Hfd & Hfin).
    + lia.
    + assert (0 ≤ zlen (fixdel tb) `quot` 2) by (apply Z.quot_pos; lia). assert (0 ≤ seg_limit) by done. lia.
    + exists fin, freed, tb', fl'. split; [done|]. split; [done|]. split; [done|]. split; [done|]. destruct fin; [done|]. pose proof (segs_length _ _ Hs') as Hlen'.
      unfold portions at 1. rewrite Hfd. cbn [fixdel set_fixdel length]. apply (portions_fewer tb). lia.
Qed.

(** Every node is freed once, and no segment is left. *)
Lemma dbh_free_table_ok calls tb fl :
  segs tb fl → portions tb < Z.of_nat calls →
  ∃ freed tb', db_free_table_hash calls tb = Some (freed, tb') ∧ freed ≡ₚ mjoin fl ∧ segs tb' [] ∧ fixdel tb' = [] ∧ kept tb tb'.
Proof.
  revert tb fl. induction calls as [|calls IH]; intros tb fl Hs Hc.
  { exfalso. pose proof (segs_length _ _ Hs). unfold portions in Hc. pose proof (Z.div_pos (zlen (fixdel tb)) (2 * DELETE_RECORD_LIMIT) ltac:(lia) eq_refl).
    pose proof (Z.div_pos (nslots tb) SEGSZ ltac:(lia) eq_refl). lia. }
  cbn [db_free_table_hash]. destruct (free_continue_ok tb fl Hs) as (fin & freed & tb1 & fl1 & -> & Hs1 & Hperm & Hk & Hfin). cbn [mbind option_bind]. destruct fin.
  - destruct Hfin as [-> Hfd]. cbn in Hperm. rewrite app_nil_r in Hperm. by exists freed, tb1.
  - destruct (IH tb1 fl1 Hs1 ltac:(lia)) as (freed' & tb' & -> & Hp' & Hs' & Hfd' & Hk'). cbn [mbind option_bind]. exists (freed ++ freed'), tb'.
    split; [done|]. split; [by rewrite Hp', Hperm|]. split; [done|]. split; [done|]. unfold kept in *. intuition congruence.
Qed.

(** ** Creation *)

Lemma geo_initial tb : szm tb = SEGSZ_MASK → nactive tb = SEGSZ → geo tb 128.
Proof. intros Hz Hn. split; [by exists 7|]. rewrite Hz, Hn. change SEGSZ_MASK with 255. change SEGSZ with 256. lia. Qed.

Lemma dbh_create_ok tb e :
  blocks tb = ∅ → 0 ≤ fixref tb →
  ∃ tb', db_create_hash tb (Some e) = Some tb' ∧ table_ok (set_nitems 0 tb') (replicate 256 []) ∧ status tb' = status tb ∧ fixref tb' = fixref tb ∧ nactive tb' = SEGSZ ∧
    nitems tb' = nitems tb.
Proof.
  intros Hb Hf. unfold db_create_hash. set (tb0 := Table _ _ _ _ _ _ _ _ _ _ _).
  assert (segs tb0 []) as Hs0.
  { exists []. split; [|done]. split; [constructor|]. split; [|split; [done|split; [constructor|]]]; cbn.
    - intros e0. rewrite Hb, lookup_empty. split; [by intros ?%elem_of_nil|by intros []].
    - exists 0%nat. split; [constructor|done]. }
  destruct (alloc_seg_some tb0 [] e Hs0) as (st & ng & bl & -> & Hs1); [cbn; by rewrite Hb|]. cbn [mbind option_bind]. eexists. split; [done|]. split_and!; [|done..].
  assert (∀ i c, (replicate 256 [] : list (list (HashDbTerm Obj))) !! i = Some c → c = []) as He by (intros i c [-> _]%lookup_replicate; done).
  split; [|split; [|split; [|split; [constructor|done]]]].
  - split; [exact Hs1|]. split; [exists 128; by apply geo_initial|]. split; [done|]. intros i c ->%He. split; [|constructor].
    split_and!; [constructor|apply grouped_NoDup; constructor|intros _; constructor|done].
  - rewrite contents_empty; [done|]. by apply Forall_replicate.
  - intros i c ->%He Hd. by apply Exists_nil in Hd.
Qed.

Lemma delete_all_ok calls tb fl mem :
  table_ok tb fl → portions tb < Z.of_nat calls → (IS_FIXED tb = false → is_Some mem) →
  ∃ tb' fl', db_delete_all_objects_hash calls tb mem = Some tb' ∧ table_ok tb' fl' ∧ contents fl' = [] ∧ status tb' = status tb ∧ fixref tb' = fixref tb ∧
    nactive tb' ≤ nactive tb ∧ (IS_FIXED tb = true → stable tb fl tb' fl').
Proof.
  intros Hok Hc Hmem. unfold db_delete_all_objects_hash. pose proof Hok as ((Hs & (home & _ & _ & _ & Hn) & _) & _ & _ & _ & _ & Hfr). destruct (IS_FIXED tb).
  - destruct (mark_all_ok tb fl Hok) as (tb' & fl' & -> & Hok' & Hcont & Hst & Hf & Hna & Hstab). exists tb', fl'. split_and!; [done..|lia|done].
  - destruct (Hmem eq_refl) as [e ->]. destruct (dbh_free_table_ok calls tb fl Hs Hc) as (freed & tb1 & -> & _ & Hs1 & _ & (Hst & Hf & _)). cbn [mbind option_bind].
    destruct (segs_nil _ Hs1) as [Hb1 _]. destruct (dbh_create_ok tb1 e Hb1 ltac:(lia)) as (tb2 & -> & Hok2 & Hst2 & Hf2 & Hna2 & _). cbn [mbind option_bind].
    eexists _, _. split; [done|]. split; [exact Hok2|]. split; [apply contents_empty; by apply Forall_replicate|]. change SEGSZ with 256 in Hna2. cbn [status fixref nactive set_nitems].
    split_and!; [congruence|congruence|lia|discriminate].
Qed.

End Life.
