(* ===== verification/DbHashOrder.v ===== *)
(** The order in which [next_slot] visits the slots of a hashed ETS table, and [ets:first] and [ets:next]. *)

From Stdlib Require Import ZArith ZifyBool.
From stdpp Require Import base list numbers option sets gmap.
From S2P Require Import Prelude Grouped LinearHash DbUtil DbHash DbHashSegs DbHashChain DbHashSpec DbHashOps.
Local Open Scope Z_scope.

(** * Lists that a successor function runs through *)
Section Linked.
Implicit Types (f : Z → Z) (l : list Z) (z : Z).

(** [f] leads from each element to the next, and from the last one to [z]. *)
Fixpoint linked f l z : Prop :=
  match l with
  | [] => True
  | a :: l' => f a = default z (head l') ∧ linked f l' z
  end.

Lemma linked_app f l l' z : linked f l (default z (head l')) → linked f l' z → linked f (l ++ l') z.
Proof.
  induction l as [|a l IH]; intros H H'; [done|]. destruct H as [Ha Hl]. split; [|by apply IH]. rewrite Ha. by destruct l.
Qed.

Lemma linked_seq f start n z :
  (∀ j, (j < n)%nat → f (start j) = if decide (S j < n)%nat then start (S j) else z) → linked f (start <$> seq 0 n) z.
Proof.
  revert start. induction n as [|n IH]; intros start Hf; [done|]. cbn [seq fmap list_fmap linked]. split.
  - rewrite Hf by lia. destruct n; [by destruct (decide _); [lia|]|]. destruct (decide _); [done|lia].
  - rewrite <- fmap_S_seq, <- list_fmap_compose. apply (IH (start ∘ S)). intros j Hj. cbn. rewrite Hf by lia. repeat case_decide; try lia; done.
Qed.

Lemma linked_next f l x l' z : linked f (l ++ x :: l') z → f x = default z (head l').
Proof. induction l as [|a l IH]; [by intros [? _]|]. intros [_ ?]. by apply IH. Qed.

End Linked.

Lemma filter_none {A} (P : A → Prop) `{∀ x, Decision (P x)} (l : list A) : (∀ x, x ∈ l → ¬ P x) → filter P l = [].
Proof. induction l as [|x l IH]; intros Hl; [done|]. rewrite filter_cons_False by (apply Hl; set_solver). apply IH. set_solver. Qed.

Section Order.
Context {Obj T : Type} `{EqDecision Obj, EqDecision T, !DbHashTerms Obj T, !DbHashConfig}.
Implicit Types (tb : DbTableHash Obj) (b : HashDbTerm Obj) (c l R : list (HashDbTerm Obj)) (fl : list (list (HashDbTerm Obj))) (k : T).

(** ** The order of slots *)

(** The slots that one of the 16 locks protects *)
Definition lock_slots (n r : Z) : list Z := (λ j : nat, r + 16 * Z.of_nat j) <$> seq 0 (Z.to_nat ((n - r + 15) / 16)).

Definition slot_order tb : list Z :=
  if ERTS_SMP then seqZ 0 16 ≫= lock_slots (nactive tb) else seqZ 0 (nactive tb).

Lemma land_lock x : Z.land x DB_HASH_LOCK_MASK = x mod 16.
Proof. exact (Z.land_ones x 4 ltac:(lia)). Qed.

Lemma lock_count n r j : 0 ≤ r < 16 → 16 ≤ n → (j < Z.to_nat ((n - r + 15) / 16))%nat ↔ r + 16 * Z.of_nat j < n.
Proof. intros. Z.to_euclidean_division_equations. lia. Qed.

Lemma lock_linked tb r : ERTS_SMP = true → 0 ≤ r < 16 → 16 ≤ nactive tb → linked (next_slot tb) (lock_slots (nactive tb) r) ((r + 1) mod 16).
Proof.
  intros Hsmp Hr Hn. apply linked_seq. intros j Hj%lock_count; [|done..]. unfold next_slot. rewrite Hsmp. change DB_HASH_LOCK_CNT with 16.
  destruct (decide _) as [Hs|Hs].
  - apply lock_count in Hs; [|done..]. rewrite (proj2 (Z.ltb_lt _ _)) by lia. lia.
  - rewrite lock_count in Hs by done. rewrite (proj2 (Z.ltb_ge _ _)) by lia. rewrite land_lock.
    replace (r + 16 * Z.of_nat j + 16 + 1) with (r + 1 + (Z.of_nat j + 1) * 16) by lia. by apply Z.mod_add.
Qed.

Lemma lock_head n r : 0 ≤ r < 16 → 16 ≤ n → head (lock_slots n r) = Some r.
Proof.
  intros. unfold lock_slots. assert (0 < Z.to_nat ((n - r + 15) / 16))%nat as Hp by (apply lock_count; lia).
  destruct (Z.to_nat _); [lia|]. cbn. f_equal. lia.
Qed.

Lemma locks_linked tb m r :
  ERTS_SMP = true → 0 ≤ r → r + Z.of_nat m = 16 → 16 ≤ nactive tb → linked (next_slot tb) (seqZ r (Z.of_nat m) ≫= lock_slots (nactive tb)) 0.
Proof.
  intros Hsmp. revert r. induction m as [|m IH]; intros r Hr Hm Hn; [done|].
  rewrite seqZ_cons by lia. rewrite bind_cons. replace (Z.pred (Z.of_nat (S m))) with (Z.of_nat m) by lia.
  apply linked_app; [|apply IH; lia]. pose proof (lock_linked tb r Hsmp ltac:(lia) Hn) as Hl. destruct m as [|m].
  - cbn. assert (r = 15) as -> by lia. done.
  - rewrite seqZ_cons, bind_cons by lia. change (Z.succ r) with (r + 1). pose proof (lock_head (nactive tb) (r + 1) ltac:(lia) Hn) as Hh.
    destruct (lock_slots (nactive tb) (r + 1)) as [|x xs]; [done|]. injection Hh as ->. cbn. by rewrite Z.mod_small in Hl by lia.
Qed.

Lemma slots_linked tb : 16 ≤ nactive tb → linked (next_slot tb) (slot_order tb) 0.
Proof.
  intros Hn. unfold slot_order. destruct ERTS_SMP eqn:E; [by apply (locks_linked tb 16 0)|].
  unfold seqZ. apply linked_seq. intros j Hj. unfold next_slot. rewrite E. destruct (Z.ltb_spec (Z.of_nat j + 0 + 1) (nactive tb)); case_decide; lia.
Qed.

Lemma slot_order_NoDup tb : 16 ≤ nactive tb → NoDup (slot_order tb).
Proof.
  intros Hn. unfold slot_order. destruct ERTS_SMP; [|apply NoDup_seqZ]. apply NoDup_bind; [| |apply NoDup_seqZ].
  - intros r1 r2 x. unfold lock_slots. rewrite !elem_of_seqZ, !list_elem_of_fmap. intros H1 H2 (j1 & E1 & _) (j2 & E2 & _). lia.
  - intros r _. apply NoDup_fmap_2; [|apply NoDup_seq]. intros j1 j2 E. lia.
Qed.

Lemma elem_of_slot_order tb i : 16 ≤ nactive tb → i ∈ slot_order tb ↔ 0 ≤ i < nactive tb.
Proof.
  intros Hn. unfold slot_order. destruct ERTS_SMP; [|rewrite elem_of_seqZ; lia]. rewrite list_elem_of_bind. setoid_rewrite elem_of_seqZ. unfold lock_slots. setoid_rewrite list_elem_of_fmap. split.
  - intros (r & (j & -> & Hj) & Hr). rewrite elem_of_seq in Hj. destruct Hj as [_ Hj]. rewrite Nat.add_0_l in Hj. apply lock_count in Hj; lia.
  - intros Hi. exists (i mod 16). pose proof (Z.mod_pos_bound i 16 eq_refl). pose proof (Z.div_mod i 16 ltac:(done)). pose proof (Z.div_pos i 16 ltac:(lia) eq_refl).
    split; [|lia]. exists (Z.to_nat (i / 16)). split; [lia|]. rewrite elem_of_seq, Nat.add_0_l. split; [lia|]. apply lock_count; lia.
Qed.

Lemma slot_order_perm tb : 16 ≤ nactive tb → slot_order tb ≡ₚ seqZ 0 (nactive tb).
Proof.
  intros Hn. apply NoDup_Permutation; [by apply slot_order_NoDup|apply NoDup_seqZ|]. intros i. rewrite elem_of_slot_order, elem_of_seqZ by done. lia.
Qed.

Lemma slot_order_length tb : 16 ≤ nactive tb → length (slot_order tb) = Z.to_nat (nactive tb).
Proof. intros Hn. rewrite (slot_order_perm tb Hn). apply length_seqZ. Qed.

Lemma slot_order_0 tb : 16 ≤ nactive tb → ∃ zs, slot_order tb = 0 :: zs.
Proof.
  intros Hn. unfold slot_order. destruct ERTS_SMP.
  - rewrite seqZ_cons, bind_cons by done. pose proof (lock_head (nactive tb) 0 ltac:(lia) Hn) as Hh. destruct (lock_slots (nactive tb) 0); [done|]. injection Hh as ->. by eexists.
  - rewrite seqZ_cons by lia. by eexists.
Qed.

(** The slot behind [ix]; 0 is the end of the order only. *)
Lemma dbh_slot_step tb A ix B :
  16 ≤ nactive tb → slot_order tb = A ++ ix :: B →
  next_slot tb ix = match B with [] => 0 | j :: _ => j end ∧ ∀ j B', B = j :: B' → (j =? 0) = false.
Proof.
  intros Hn Ho. pose proof (slots_linked tb Hn) as Hl. rewrite Ho in Hl. rewrite (linked_next _ _ _ _ _ Hl). split; [by destruct B|].
  intros j B' ->. apply Z.eqb_neq. intros ->. destruct (slot_order_0 tb Hn) as (zs & E). pose proof (slot_order_NoDup tb Hn) as Hnd. rewrite Ho in E, Hnd.
  destruct A as [|a A]; injection E as -> <-; cbn in Hnd; apply NoDup_cons in Hnd as [Hnd _]; set_solver.
Qed.

(** ** The nodes in the order of a traversal *)

Definition bucket fl (i : Z) : list (HashDbTerm Obj) := default [] (fl !! Z.to_nat i).

Definition nodes tb fl : list (HashDbTerm Obj) := slot_order tb ≫= bucket fl.

(** The nodes from [R] on are those that a traversal has not passed when it is at [l] in slot [ix]. *)
Definition at_pos tb fl (ix : Z) l R : Prop :=
  ∃ A B pre, slot_order tb = A ++ ix :: B ∧ bucket fl ix = pre ++ l ∧ R = l ++ (B ≫= bucket fl).

Lemma nactive_16 tb fl : table_ok tb fl → 16 ≤ nactive tb.
Proof. intros ((_ & (home & _ & _ & _ & Hn) & _) & _). lia. Qed.

Lemma BUCKET_order tb fl i : table_ok tb fl → i ∈ slot_order tb → BUCKET tb i = Some (bucket fl i).
Proof.
  intros Hok Hi%elem_of_slot_order; [|by eapply nactive_16]. destruct Hok as [Hp _]. destruct (placed_slot tb fl i Hp Hi) as (c & -> & Hc).
  unfold bucket. by rewrite Hc.
Qed.

Lemma first_live_cons b l : first_live (b :: l) = if live b then b :: l else first_live l.
Proof. unfold first_live. cbn [seek]. destruct (live b); [done|]. by destruct (seek live l). Qed.

Lemma first_live_purge l : first_live l = [] ↔ purge l = [].
Proof.
  destruct (first_live_split l) as (dead & rest & -> & Hd & Hr). rewrite first_live_app by done. rewrite purge_app. split.
  - intros ->. rewrite app_nil_r. clear -Hd. induction Hd as [|b l Hb Hl IH]; [done|]. by rewrite purge_cons, Hb.
  - destruct rest as [|b rest]; [done|]. rewrite purge_cons, Hr. by intros [_ ?]%app_nil.
Qed.

Lemma first_live_app_cases l l' : first_live (l ++ l') = match first_live l with [] => first_live l' | f => f ++ l' end.
Proof.
  destruct (first_live_split l) as (dead & rest & -> & Hd & Hr). rewrite (first_live_app dead rest) by done. destruct rest as [|b rest].
  - rewrite app_nil_r. clear -Hd. induction Hd as [|b l Hb Hl IH]; [done|]. by rewrite <- app_comm_cons, first_live_cons, Hb.
  - rewrite <- (assoc (++)). by apply first_live_app.
Qed.

Lemma first_live_suffix l : ∃ dead, l = dead ++ first_live l.
Proof. destruct (first_live_split l) as (dead & rest & -> & Hd & Hr). exists dead. by rewrite first_live_app. Qed.

(** What a search that goes on at [R] finds *)
Definition finds tb fl R (r : option (Z * list (HashDbTerm Obj))) : Prop :=
  ∃ ix l, r = Some (ix, l) ∧ match l with [] => first_live R = [] | _ => at_pos tb fl ix l (first_live R) end.

Lemma next_loop_ok tb fl fuel A ix B :
  table_ok tb fl → slot_order tb = A ++ ix :: B → (length B < fuel)%nat → finds tb fl (B ≫= bucket fl) (next_loop fuel tb ix).
Proof.
  intros Hok. revert A ix B. induction fuel as [|fuel IH]; intros A ix B Ho Hf; [lia|]. cbn [next_loop].
  destruct (dbh_slot_step tb A ix B (nactive_16 _ _ Hok) Ho) as [-> Hnz].
  destruct B as [|j B]; [by exists 0, []|]. rewrite (Hnz _ _ eq_refl). rewrite (BUCKET_order _ _ _ Hok) by (rewrite Ho; set_solver). cbn [mbind option_bind]. rewrite bind_cons.
  unfold finds. rewrite first_live_app_cases. destruct (first_live (bucket fl j)) as [|b f] eqn:E.
  - destruct (IH (A ++ [ix]) j B) as (ix' & l & -> & Hl'); [by rewrite <- (assoc (++))|cbn in Hf; lia|]. by exists ix', l.
  - exists j, (b :: f). split; [done|]. destruct (first_live_suffix (bucket fl j)) as (dead & Ed). rewrite E in Ed.
    exists (A ++ [ix]), B, dead. by rewrite <- (assoc (++)).
Qed.

Lemma at_pos_order tb fl ix l R : at_pos tb fl ix l R → ∃ pre, nodes tb fl = pre ++ R.
Proof.
  intros (A & B & pre & Ho & Hb & ->). exists ((A ≫= bucket fl) ++ pre). unfold nodes. rewrite Ho, bind_app, bind_cons, Hb. by rewrite <- !(assoc (++)).
Qed.

Lemma order_tail_length tb A ix B : 16 ≤ nactive tb → slot_order tb = A ++ ix :: B → (length B < Z.to_nat (nactive tb))%nat.
Proof. intros Hn Ho. rewrite <- slot_order_length, Ho, length_app by done. cbn. lia. Qed.

Lemma next_ok tb fl ix b l R : table_ok tb fl → at_pos tb fl ix (b :: l) (b :: R) → finds tb fl R (next tb ix (b :: l)).
Proof.
  intros Hok (A & B & pre & Ho & Hb & E). injection E as ->. unfold next. cbn [tail]. pose proof (nactive_16 _ _ Hok) as Hn.
  unfold finds. rewrite first_live_app_cases. destruct (first_live l) as [|b' f] eqn:Ef.
  - eapply next_loop_ok; [done|done|by eapply order_tail_length].
  - exists ix, (b' :: f). split; [done|]. destruct (first_live_suffix l) as (dead & Ed). rewrite Ef in Ed. subst l. exists A, B, (pre ++ b :: dead).
    by rewrite <- (assoc (++)).
Qed.

Lemma first_loop_ok tb fl fuel A ix B :
  table_ok tb fl → slot_order tb = A ++ ix :: B → (length B < fuel)%nat →
  ∃ l, first_loop fuel tb ix = Some l ∧ head l = head (first_live ((ix :: B) ≫= bucket fl)).
Proof.
  intros Hok. revert A ix B. induction fuel as [|fuel IH]; intros A ix B Ho Hf; [lia|]. cbn [first_loop]. rewrite bind_cons.
  rewrite (BUCKET_order _ _ _ Hok) by (rewrite Ho; set_solver). cbn [mbind option_bind]. destruct (bucket fl ix) as [|b c] eqn:Eb.
  - destruct (dbh_slot_step tb A ix B (nactive_16 _ _ Hok) Ho) as [-> Hnz].
    destruct B as [|j B]; [by exists []|]. rewrite (Hnz _ _ eq_refl). destruct (IH (A ++ [ix]) j B) as (l & -> & Hl'); [by rewrite <- (assoc (++))|cbn in Hf; lia|]. by exists l.
  - destruct (live b) eqn:El; [exists (b :: c); by rewrite <- app_comm_cons, first_live_cons, El|].
    destruct (next_ok tb fl ix b c (c ++ (B ≫= bucket fl)) Hok) as (ix' & l & -> & Hl); [exists A, B, []; by rewrite Eb|].
    cbn [mbind option_bind]. exists l. split; [done|]. assert (first_live ((b :: c) ++ (B ≫= bucket fl)) = first_live (c ++ (B ≫= bucket fl))) as ->.
    { by rewrite <- app_comm_cons, first_live_cons, El. }
    destruct l as [|b' l]; [by rewrite Hl|]. destruct Hl as (? & ? & ? & _ & _ & E). by rewrite E.
Qed.

(** ** The keys in the order of a traversal *)

(** The keys of the table in the order of a traversal, those of deleted objects that are still in their buckets included *)
Definition keys_of tb fl : list T := destutter (keys (nodes tb fl)).

Definition live_key fl k : Prop := of_key GETKEY k (contents fl) ≠ [].

#[export] Instance live_key_dec fl k : Decision (live_key fl k).
Proof. unfold live_key. solve_decision. Defined.

Lemma elem_of_nodes tb fl b : table_ok tb fl → b ∈ nodes tb fl ↔ b ∈ mjoin fl.
Proof.
  intros Hok. pose proof (nactive_16 _ _ Hok) as Hn. unfold nodes. rewrite list_elem_of_bind, list_elem_of_join. unfold bucket. split.
  - intros (i & Hb & Hi). destruct (fl !! Z.to_nat i) as [c|] eqn:E; [|by apply elem_of_nil in Hb]. exists c. split; [done|]. by eapply list_elem_of_lookup_2.
  - intros (c & Hb & (i & Hi)%list_elem_of_lookup_1). exists (Z.of_nat i). rewrite Nat2Z.id, Hi. split; [done|]. apply elem_of_slot_order; [done|].
    destruct Hok as [Hp _]. destruct (decide (Z.of_nat i < nactive tb)); [lia|]. rewrite (placed_inactive tb fl i c) in Hb by (done || lia). by apply elem_of_nil in Hb.
Qed.

Lemma elem_of_contents tb fl o : table_ok tb fl → o ∈ contents fl ↔ o ∈ objs (nodes tb fl).
Proof. intros Hok. unfold contents. rewrite !elem_of_objs. by setoid_rewrite (elem_of_nodes tb fl). Qed.

Lemma live_key_spec tb fl k : table_ok tb fl → live_key fl k ↔ ∃ b, b ∈ nodes tb fl ∧ live b = true ∧ node_key b = k.
Proof.
  intros Hok. unfold live_key. split.
  - intros Hne. destruct (of_key GETKEY k (contents fl)) as [|o os] eqn:E; [done|].
    assert (o ∈ of_key GETKEY k (contents fl)) as [Ho Hk]%elem_of_key by (rewrite E; set_solver).
    apply (elem_of_contents tb) in Ho; [|done]. apply elem_of_objs in Ho as (b & Hb & Hl & <-). by exists b.
  - intros (b & Hb & Hl & Hk) E. apply (not_elem_of_nil (dbterm b)). rewrite <- E. apply elem_of_key. split; [|done].
    apply (elem_of_contents tb); [done|]. apply elem_of_objs. by exists b.
Qed.

(** Equal keys stand together in the order. *)
Lemma grouped_slots fl (ix : T → Z) (zs : list Z) :
  NoDup zs → (∀ i, i ∈ zs → grouped (keys (bucket fl i)) ∧ Forall (λ b, ix (node_key b) = i) (bucket fl i)) → grouped (keys (zs ≫= bucket fl)).
Proof.
  induction zs as [|i zs IH]; intros Hnd Hb; [constructor|]. rewrite bind_cons. unfold keys. rewrite fmap_app. apply NoDup_cons in Hnd as [Hi Hnd].
  destruct (Hb i) as [Hg Hf]; [set_solver|]. apply grouped_app; [done|apply IH; [done|]; set_solver|].
  intros k (b & -> & Hbi)%list_elem_of_fmap (b' & Hk & (j & Hbj & Hj)%list_elem_of_bind)%list_elem_of_fmap.
  rewrite Forall_forall in Hf. destruct (Hb j) as [_ Hfj]; [set_solver|]. rewrite Forall_forall in Hfj. apply Hi. by rewrite <- (Hf b Hbi), Hk, (Hfj b' Hbj).
Qed.

Lemma nodes_grouped tb fl : table_ok tb fl → grouped (keys (nodes tb fl)).
Proof.
  intros Hok. pose proof (nactive_16 _ _ Hok) as Hn. apply (grouped_slots fl (key_ix tb)); [by apply slot_order_NoDup|].
  intros i Hi%elem_of_slot_order; [|done]. destruct Hok as [Hp _]. destruct (placed_slot tb fl i Hp Hi) as (c & _ & Hc). unfold bucket. rewrite Hc.
  destruct Hp as (_ & _ & _ & Hch). destruct (Hch _ _ Hc) as [(_ & Hg & _) Hf]. split; [done|]. eapply Forall_impl; [exact Hf|]. cbn. lia.
Qed.

Lemma keys_of_NoDup tb fl : table_ok tb fl → NoDup (keys_of tb fl).
Proof. apply nodes_grouped. Qed.

Lemma live_key_in tb fl k : table_ok tb fl → live_key fl k → k ∈ keys_of tb fl.
Proof. intros Hok (b & Hb & _ & <-)%(live_key_spec tb); [|done]. apply elem_of_destutter, list_elem_of_fmap. by exists b. Qed.

(** The first of the keys [B] that has an object, and the end of the table if none has *)
Definition next_key fl (B : list T) : T := default am_EOT (head (filter (live_key fl) B)).

Lemma head_first_live l : head (first_live l) = head (purge l).
Proof.
  destruct (first_live_split l) as (dead & rest & -> & Hd & Hr). rewrite first_live_app by done. rewrite purge_app.
  replace (purge dead) with (@nil (HashDbTerm Obj)); [|symmetry; apply first_live_purge; rewrite <- (app_nil_r dead); by apply first_live_app].
  destruct rest as [|b rest]; [done|]. by rewrite purge_cons, Hr.
Qed.

Lemma key_or_EOT_head l : key_or_EOT l = from_option node_key am_EOT (head l).
Proof. by destruct l. Qed.

(** The first live node behind [pre] has the first live key. *)
Lemma next_key_purge tb fl pre R :
  table_ok tb fl → nodes tb fl = pre ++ R → (∀ k, k ∈ keys pre → k ∉ keys R) → key_or_EOT (purge R) = next_key fl (destutter (keys R)).
Proof.
  intros Hok Hnodes Hdis. pose proof (nodes_grouped _ _ Hok) as Hg. rewrite Hnodes in Hg. unfold keys in Hg. rewrite fmap_app in Hg. fold (keys pre) (keys R) in Hg.
  apply (grouped_sublist (keys R)) in Hg; [|by apply sublist_inserts_l]. unfold next_key.
  assert (∀ k, k ∈ keys R → live_key fl k ↔ ∃ b, b ∈ R ∧ live b = true ∧ node_key b = k) as Hlk.
  { intros k Hk. rewrite (live_key_spec tb) by done. rewrite Hnodes. split; [|set_solver]. intros (b & [Hb|Hb]%elem_of_app & Hl & <-); [|by exists b].
    exfalso. eapply (Hdis (node_key b)); [|done]. apply list_elem_of_fmap. by exists b. }
  destruct (purge R) as [|b0 P] eqn:EP.
  - assert (filter (live_key fl) (destutter (keys R)) = []) as ->; [|done]. apply filter_none. intros k Hk Hlive. rewrite elem_of_destutter in Hk. destruct (proj1 (Hlk k Hk) Hlive) as (b & Hb & Hl & _).
    apply (not_elem_of_nil b). rewrite <- EP. apply list_elem_of_filter. by rewrite Hl.
  - cbn [key_or_EOT]. destruct (run_exists (node_key b0) R Hg) as (pre' & grp & post & (HR & Hpre & Hgrp & Hpost & Hnil)).
    assert (b0 ∈ R ∧ live b0 = true) as [Hb0 Hl0]. { assert (b0 ∈ purge R) as [Hl Hb]%list_elem_of_filter by (rewrite EP; set_solver). split; [done|]. by destruct (live b0). }
    assert (purge pre' = []) as Hpp.
    { rewrite HR, purge_app in EP. destruct (purge pre') as [|b1 P1] eqn:E1; [done|]. injection EP as -> _. exfalso. rewrite Forall_forall in Hpre.
      apply (Hpre b0); [|done]. assert (b0 ∈ purge pre') as [_ ?]%list_elem_of_filter by (rewrite E1; set_solver). done. }
    assert (grp ≠ []) as Hne. { intros ->. rewrite Hnil in HR by done. cbn in HR. rewrite app_nil_r in HR. subst R. rewrite Hpp in EP. done. }
    rewrite <- !not_in_keys in Hpre, Hpost. assert (destutter (keys R) = destutter (keys pre') ++ node_key b0 :: destutter (keys post)) as ED.
    { rewrite HR. unfold keys. rewrite !fmap_app. fold (keys pre') (keys grp) (keys post). rewrite (proj1 (keys_run _ grp) Hgrp).
      destruct grp; [done|]. by apply destutter_run. }
    assert (filter (live_key fl) (destutter (keys pre')) = []) as Ef.
    { apply filter_none. intros k Hk Hlive. pose proof (Hg : NoDup _) as Hnd. rewrite ED in Hnd. apply NoDup_app in Hnd as (_ & Hd & _).
      assert (k ∈ keys pre') as Hk' by (by rewrite <- elem_of_destutter). destruct (proj1 (Hlk k ltac:(rewrite HR; unfold keys; rewrite !fmap_app; set_solver)) Hlive) as (b & Hb & Hl & Ek).
      rewrite HR in Hb. apply elem_of_app in Hb as [Hb|Hb].
      - apply (not_elem_of_nil b). rewrite <- Hpp. apply list_elem_of_filter. by rewrite Hl.
      - apply (Hd k Hk). apply elem_of_app in Hb as [Hb|Hb]; [rewrite Forall_forall in Hgrp; rewrite <- Ek, Hgrp by done; set_solver|].
        apply elem_of_cons. right. apply elem_of_destutter. rewrite <- Ek. apply list_elem_of_fmap. by exists b. }
    rewrite ED, filter_app, Ef, filter_cons_True; [done|]. apply Hlk; [apply list_elem_of_fmap; by exists b0|]. by exists b0.
Qed.

(** ** [ets:first] and [ets:next] *)

Lemma first_ok tb fl : table_ok tb fl → db_first_hash tb = Some (DB_ERROR_NONE, next_key fl (keys_of tb fl)).
Proof.
  intros Hok. pose proof (nactive_16 _ _ Hok) as Hn. unfold db_first_hash. destruct (slot_order_0 tb Hn) as (zs & Ho).
  destruct (first_loop_ok tb fl (Z.to_nat (nactive tb)) [] 0 zs Hok Ho (order_tail_length tb [] 0 zs Hn Ho)) as (l & -> & Hl). cbn [mbind option_bind].
  rewrite <- Ho in Hl. fold (nodes tb fl) in Hl. rewrite head_first_live in Hl.
  rewrite key_or_EOT_head, Hl, <- key_or_EOT_head. do 2 f_equal. apply (next_key_purge tb fl []); [done|done|]. by intros k ?%elem_of_nil.
Qed.

Definition other_live k : HashDbTerm Obj → Prop := λ b, is_true (live b) ∧ node_key b ≠ k.

#[local] Instance other_live_dec k b : Decision (other_live k b).
Proof. unfold other_live. solve_decision. Defined.

(** Where [next] goes, as the head of what it finds *)
Lemma finds_head tb fl R r : finds tb fl R r → ∃ ix l, r = Some (ix, l) ∧ head l = head (first_live R) ∧ (l = [] ∨ at_pos tb fl ix l (first_live R)).
Proof.
  intros (ix & l & -> & Hl). exists ix, l. split; [done|]. destruct l as [|b l]; [by rewrite Hl; auto|]. split; [|by right]. by destruct Hl as (? & ? & ? & _ & _ & ->).
Qed.

Lemma nodes_node_ok tb fl b : table_ok tb fl → b ∈ nodes tb fl → node_ok b.
Proof.
  intros Hok (c & Hb & (i & Hi)%list_elem_of_lookup_1)%elem_of_nodes%list_elem_of_join; [|done]. destruct Hok as ((_ & _ & _ & Hch) & _).
  destruct (Hch _ _ Hi) as [(Hn & _) _]. rewrite Forall_forall in Hn. by apply Hn.
Qed.

Lemma skip_key_ok tb fl k fuel ix l R :
  table_ok tb fl → l = [] ∧ first_live R = [] ∨ at_pos tb fl ix l (first_live R) ∧ head l = head (first_live R) → (length (purge R) < fuel)%nat →
  ∃ l', skip_key fuel tb k (MAKE_HASH k) ix l = Some l' ∧ head l' = head (filter (other_live k) R).
Proof.
  intros Hok. revert ix l R. induction fuel as [|fuel IH]; intros ix l R Hl Hf; [lia|]. cbn [skip_key].
  destruct (first_live_split R) as (dead & rest & -> & Hd & Hr). rewrite first_live_app in Hl by done. rewrite filter_app.
  assert (filter (other_live k) dead = []) as ->.
  { apply filter_none. intros b Hb [Hlb _]. rewrite Forall_forall in Hd. by rewrite Hd in Hlb. }
  destruct Hl as [[-> ->]|[Hpos Hh]]; [by exists []|]. destruct l as [|b l]; [destruct rest; [by exists []|done]|]. destruct rest as [|b' rest]; [done|]. injection Hh as <-.
  assert (b ∈ nodes tb fl) as Hb by (destruct (at_pos_order _ _ _ _ _ Hpos) as (pre & ->); set_solver). cbn [app].
  rewrite has_live_key_ok, Hr, andb_true_r by (by eapply nodes_node_ok). case_bool_decide as Ek; cbn [negb].
  - rewrite filter_cons_False by (unfold other_live; tauto). destruct (finds_head _ _ _ _ (next_ok tb fl ix b l rest Hok Hpos)) as (ix' & l' & -> & Hh & Hl').
    cbn [mbind option_bind]. apply IH; [|rewrite purge_app, purge_cons, Hr, length_app in Hf; cbn in Hf; lia].
    destruct Hl' as [->|Hl']; [|by right]. left. split; [done|]. by destruct (first_live rest).
  - exists (b :: l). split; [done|]. rewrite filter_cons_True; [done|]. split; [by rewrite Hr|done].
Qed.

(** The place of a key *)
Lemma key_position tb fl k :
  table_ok tb fl → ∃ c pre grp post pre' R, BUCKET tb (hash_to_ix tb (MAKE_HASH k)) = Some c ∧ run k c pre grp post ∧ chain_ok (status tb) c ∧
    at_pos tb fl (hash_to_ix tb (MAKE_HASH k)) (grp ++ post) (grp ++ R) ∧ nodes tb fl = pre' ++ grp ++ R ∧ k ∉ keys pre' ∧ k ∉ keys R ∧ (grp = [] → k ∉ keys (nodes tb fl)).
Proof.
  intros Hok. destruct (bucket_run tb fl k Hok) as (c & pre & grp & post & Hb & Hl & Hc & Hr & _). change (hash_to_ix tb (MAKE_HASH k)) with (key_ix tb k).
  pose proof Hok as ((_ & (home & Hg) & _ & Hch) & _). pose proof (key_ix_range tb home k Hg) as Hix. pose proof (nactive_16 _ _ Hok) as Hn.
  assert (key_ix tb k ∈ slot_order tb) as Ho by (by apply elem_of_slot_order). apply list_elem_of_split in Ho as (A & B & Ho).
  assert (∀ zs, key_ix tb k ∉ zs → (∀ i, i ∈ zs → i ∈ slot_order tb) → k ∉ keys (zs ≫= bucket fl)) as Hother.
  { intros zs Hni Hsub (b & Hk & (i & Hbi & Hi)%list_elem_of_bind)%list_elem_of_fmap. pose proof (Hsub _ Hi) as Hi'%elem_of_slot_order; [|done].
    unfold bucket in Hbi. destruct (fl !! Z.to_nat i) as [ci|] eqn:E; [|by apply elem_of_nil in Hbi]. destruct (Hch _ _ E) as [_ Hf]. rewrite Forall_forall in Hf.
    cbn in Hbi. specialize (Hf b Hbi). rewrite <- Hk, Z2Nat.id in Hf by lia. by rewrite <- Hf in Hi. }
  pose proof (slot_order_NoDup tb Hn) as Hnd. rewrite Ho in Hnd. apply NoDup_app in Hnd as (_ & Hd & [HB _]%NoDup_cons).
  assert (bucket fl (key_ix tb k) = c) as Ebc by (unfold bucket; by rewrite Hl). pose proof Hr as (Ec & Hpre & Hgrp & Hpost & Hnil). rewrite <- !not_in_keys in Hpre, Hpost.
  exists c, pre, grp, post, ((A ≫= bucket fl) ++ pre), (post ++ (B ≫= bucket fl)).
  assert (k ∉ keys ((A ≫= bucket fl) ++ pre)) as H1.
  { unfold keys. rewrite fmap_app, elem_of_app. intros [?|?]; [|done]. eapply (Hother A); [|intros i Hi; rewrite Ho; apply elem_of_app; by left|done]. intros Hi. eapply Hd; [exact Hi|]. apply elem_of_cons. by left. }
  assert (k ∉ keys (post ++ (B ≫= bucket fl))) as H2.
  { unfold keys. rewrite fmap_app, elem_of_app. intros [?|?]; [done|]. eapply (Hother B); [done| |done]. intros i Hi. rewrite Ho. apply elem_of_app. right. apply elem_of_cons. by right. }
  assert (nodes tb fl = ((A ≫= bucket fl) ++ pre) ++ grp ++ post ++ (B ≫= bucket fl)) as En.
  { unfold nodes. rewrite Ho, bind_app, bind_cons, Ebc, Ec. by rewrite <- !(assoc (++)). }
  split_and!; try done.
  - exists A, B, pre. rewrite Ebc. split_and!; [done..|by rewrite <- (assoc (++))].
  - intros ->. rewrite En. unfold keys in *. rewrite !fmap_app in *. set_solver.
Qed.

Lemma purge_filter_other k l : k ∉ keys l → filter (other_live k) l = purge l.
Proof.
  intros Hk%not_in_keys. unfold purge. induction Hk as [|b l Hb Hl IH]; [done|]. rewrite !filter_cons, IH. unfold other_live.
  repeat case_decide; tauto.
Qed.

Lemma filter_other_run k l : Forall (λ b, node_key b = k) l → filter (other_live k) l = [].
Proof. intros Hl. apply filter_none. intros b Hb [_ ?]. rewrite Forall_forall in Hl. auto. Qed.

Lemma mjoin_buckets fl : mjoin fl = seqZ 0 (zlen fl) ≫= bucket fl.
Proof.
  induction fl as [|c fl IH] using rev_ind; [done|]. rewrite mjoin_app, IH, length_app. cbn [length]. rewrite Nat2Z.inj_add, seqZ_app, bind_app by lia. f_equal.
  - apply Forall_bind_ext. rewrite Forall_forall. intros i Hi%elem_of_seqZ. unfold bucket. rewrite lookup_app_l by lia. done.
  - rewrite seqZ_cons, bind_cons by done. unfold bucket at 1. rewrite list_lookup_middle by lia. done.
Qed.

Lemma nodes_perm tb fl : table_ok tb fl → nodes tb fl ≡ₚ mjoin fl.
Proof.
  intros Hok. pose proof (nactive_16 _ _ Hok) as Hn. unfold nodes. rewrite slot_order_perm by done. pose proof Hok as (Hp & _). pose proof Hp as (Hs & _ & Hns & _).
  pose proof (segs_length _ _ Hs) as Hlen. rewrite mjoin_buckets. replace (zlen fl) with (nactive tb + (zlen fl - nactive tb)) by lia. rewrite seqZ_app, bind_app by lia.
  rewrite Z.add_0_l. replace (seqZ (nactive tb) (zlen fl - nactive tb) ≫= bucket fl) with (@nil (HashDbTerm Obj)); [by rewrite app_nil_r|].
  symmetry. assert (Forall (λ i, bucket fl i = []) (seqZ (nactive tb) (zlen fl - nactive tb))) as Hf.
  { rewrite Forall_forall. intros i Hi%elem_of_seqZ. unfold bucket. destruct (fl !! Z.to_nat i) as [c|] eqn:E; [|done]. eapply placed_inactive; [done| |done]. lia. }
  induction Hf as [|i zs Hi Hf IH]; [done|]. by rewrite bind_cons, Hi, IH.
Qed.

Lemma nodes_items tb fl R pre : table_ok tb fl → nodes tb fl = pre ++ R → Z.of_nat (length (purge R)) ≤ nitems tb.
Proof.
  intros Hok Hn. pose proof Hok as (_ & -> & _). unfold contents, objs. rewrite length_fmap. unfold purge at 2. rewrite <- (nodes_perm tb fl Hok), Hn. fold (purge (pre ++ R)). rewrite purge_app, length_app. lia.
Qed.

Lemma next_found tb fl fuel k pre grp R c cpre post :
  table_ok tb fl → nitems tb < Z.of_nat fuel → BUCKET tb (hash_to_ix tb (MAKE_HASH k)) = Some c → run k c cpre grp post → chain_ok (status tb) c → grp ≠ [] →
  at_pos tb fl (hash_to_ix tb (MAKE_HASH k)) (grp ++ post) (grp ++ R) → nodes tb fl = pre ++ grp ++ R → k ∉ keys R →
  db_next_hash fuel tb k = Some (DB_ERROR_NONE, key_or_EOT (purge R)).
Proof.
  intros Hok Hfuel Hb Hr Hc Hne Hpos Hnodes HkR. destruct (run_conditions _ _ _ _ _ _ Hc Hr) as (_ & _ & Hgrp & _ & Hset & _).
  unfold db_next_hash. rewrite Hb. cbn [mbind option_bind]. rewrite (seek_run k c cpre grp post) by (try done; by destruct Hc). cbn [snd].
  destruct grp as [|b grp]; [done|]. cbn [app] in Hpos |- *. destruct (finds_head _ _ _ _ (next_ok tb fl _ _ _ _ Hok Hpos)) as (ix' & l' & -> & Hh & Hl'). cbn [mbind option_bind].
  inversion Hgrp as [|? ? _ Hgrp']; subst. rewrite <- (purge_filter_other k R) by done.
  assert (∃ l2, (match status tb with DB_SET => Some l' | _ => skip_key fuel tb k (MAKE_HASH k) ix' l' end) = Some l2 ∧ head l2 = head (filter (other_live k) R)) as (l2 & -> & Hl2);
    [|cbn [mbind option_bind]; by rewrite !key_or_EOT_head, Hl2].
  assert (∃ l2, skip_key fuel tb k (MAKE_HASH k) ix' l' = Some l2 ∧ head l2 = head (filter (other_live k) R)) as Hskip.
  { replace (filter (other_live k) R) with (filter (other_live k) (grp ++ R)) by (by rewrite filter_app, filter_other_run). apply (skip_key_ok tb fl k); [done| |].
    - destruct Hl' as [->|Hl']; [left|by right]. split; [done|]. by destruct (first_live (grp ++ R)).
    - pose proof (nodes_items tb fl (grp ++ R) (pre ++ [b]) Hok ltac:(by rewrite Hnodes, <- (assoc (++)))). lia. }
  destruct (status tb); [|done..]. specialize (Hset eq_refl). destruct grp; [|cbn in Hset; lia]. exists l'. split; [done|].
  by rewrite Hh, head_first_live, purge_filter_other.
Qed.

Lemma next_key_ok tb fl fuel k A B :
  table_ok tb fl → nitems tb < Z.of_nat fuel → keys_of tb fl = A ++ k :: B → db_next_hash fuel tb k = Some (DB_ERROR_NONE, next_key fl B).
Proof.
  intros Hok Hfuel Hkeys. destruct (key_position tb fl k Hok) as (c & pre & grp & post & pre' & R & Hb & Hr & Hc & Hpos & Hnodes & Hk1 & Hk2 & Hnil).
  assert (grp ≠ []) as Hne. { intros E. apply (Hnil E). rewrite <- elem_of_destutter. fold (keys_of tb fl). rewrite Hkeys. set_solver. }
  rewrite (next_found tb fl fuel k pre' grp R c pre post) by done. do 2 f_equal. destruct (run_conditions _ _ _ _ _ _ Hc Hr) as (_ & _ & Hgrp & _).
  pose proof (keys_of_NoDup _ _ Hok) as Hnd. assert (keys_of tb fl = destutter (keys pre') ++ k :: destutter (keys R)) as E.
  { unfold keys_of. rewrite Hnodes. unfold keys. rewrite !fmap_app. fold (keys pre') (keys grp) (keys R). rewrite (proj1 (keys_run k grp) Hgrp). destruct grp; [done|]. by apply destutter_run. }
  rewrite E in Hnd, Hkeys. apply NoDup_app in Hnd as (_ & Hd & [HB _]%NoDup_cons). apply not_elem_of_app_cons_inv_l in Hkeys as (_ & _ & <-).
  - apply (next_key_purge tb fl (pre' ++ grp)); [done|by rewrite <- (assoc (++))|]. intros x. unfold keys. rewrite fmap_app, elem_of_app. fold (keys pre') (keys grp) (keys R).
    rewrite (proj1 (keys_run k grp) Hgrp), elem_of_replicate. intros [Hx|[-> _]]; [|done]. rewrite <- elem_of_destutter in Hx |- *. intros Hx'. apply (Hd x); [done|]. set_solver.
  - intros HA. pose proof (keys_of_NoDup _ _ Hok) as Hnd. rewrite E, Hkeys in Hnd. apply NoDup_app in Hnd as (_ & Hd' & _). apply (Hd' k); [done|]. set_solver.
  - by rewrite elem_of_destutter.
Qed.

Lemma next_badkey tb fl fuel k : table_ok tb fl → k ∉ keys_of tb fl → db_next_hash fuel tb k = Some (DB_ERROR_BADKEY, am_EOT).
Proof.
  intros Hok Hk. unfold keys_of in Hk. rewrite elem_of_destutter in Hk. destruct (key_position tb fl k Hok) as (c & pre & grp & post & pre' & R & Hb & Hr & Hc & _ & Hnodes & _).
  destruct (run_conditions _ _ _ _ _ _ Hc Hr) as (_ & _ & Hgrp & _). unfold db_next_hash. rewrite Hb. cbn [mbind option_bind].
  rewrite (seek_run k c pre grp post) by (try done; by destruct Hc). cbn [snd]. destruct grp as [|b grp].
  - destruct Hr as (_ & _ & _ & _ & ->); done.
  - destruct Hk. rewrite Hnodes. unfold keys. rewrite !fmap_app. inversion Hgrp; subst. set_solver.
Qed.

(** ** The order while the table is fixed *)

Lemma destutter_slots fl (ix : T → Z) (zs : list Z) :
  NoDup zs → (∀ i, i ∈ zs → Forall (λ b, ix (node_key b) = i) (bucket fl i)) →
  destutter (keys (zs ≫= bucket fl)) = zs ≫= λ i, destutter (keys (bucket fl i)).
Proof.
  induction zs as [|i zs IH]; intros Hnd Hb; [done|]. rewrite !bind_cons. unfold keys. rewrite fmap_app. fold (keys (bucket fl i)) (keys (zs ≫= bucket fl)).
  apply NoDup_cons in Hnd as [Hi Hnd]. rewrite destutter_app, IH; [done|done|set_solver|]. intros k Hk%last_elem Hk'%head_elem.
  apply list_elem_of_fmap in Hk as (b & -> & Hbi). apply list_elem_of_fmap in Hk' as (b' & Hk & (j & Hbj & Hj)%list_elem_of_bind).
  pose proof (Hb i ltac:(set_solver)) as Hf. pose proof (Hb j ltac:(set_solver)) as Hfj. rewrite Forall_forall in Hf, Hfj. apply Hi. by rewrite <- (Hf b Hbi), Hk, (Hfj b' Hbj).
Qed.

Lemma keys_of_slots tb fl : table_ok tb fl → keys_of tb fl = slot_order tb ≫= λ i, destutter (keys (bucket fl i)).
Proof.
  intros Hok. pose proof (nactive_16 _ _ Hok) as Hn. apply (destutter_slots fl (key_ix tb)); [by apply slot_order_NoDup|].
  intros i Hi%elem_of_slot_order; [|done]. destruct Hok as [Hp _]. destruct (placed_slot tb fl i Hp Hi) as (c & _ & Hc). unfold bucket. rewrite Hc.
  destruct Hp as (_ & _ & _ & Hch). destruct (Hch _ _ Hc) as [_ Hf]. eapply Forall_impl; [exact Hf|]. cbn. lia.
Qed.

Lemma stable_keys tb fl tb' fl' : table_ok tb fl → table_ok tb' fl' → stable tb fl tb' fl' → keys_of tb fl `sublist_of` keys_of tb' fl'.
Proof.
  intros Hok Hok' [Hn Hf]. rewrite !keys_of_slots by done. unfold slot_order. rewrite Hn. generalize (if ERTS_SMP then seqZ 0 16 ≫= lock_slots (nactive tb) else seqZ 0 (nactive tb)).
  intros zs. induction zs as [|i zs IH]; [done|]. rewrite !bind_cons. apply sublist_app; [|done]. unfold bucket.
  rewrite Forall2_lookup in Hf. by destruct (Hf (Z.to_nat i)).
Qed.

(** ** Loops over all slots *)

Lemma dbh_over_slots_ok {A} (f : A → list (HashDbTerm Obj) → A) tb fl fuel zs ix zs' acc :
  table_ok tb fl → slot_order tb = zs ++ ix :: zs' → (length zs' < fuel)%nat →
  over_slots f fuel tb ix acc = Some (foldl f acc (bucket fl <$> ix :: zs')).
Proof.
  intros Hok. revert zs ix zs' acc. induction fuel as [|fuel IH]; intros zs ix zs' acc Ho Hf; [lia|]. cbn [over_slots].
  rewrite (BUCKET_order _ _ _ Hok) by (rewrite Ho; set_solver). cbn [mbind option_bind]. destruct (dbh_slot_step tb zs ix zs' (nactive_16 _ _ Hok) Ho) as [-> Hnz].
  destruct zs' as [|j zs']; [done|]. rewrite (Hnz _ _ eq_refl). rewrite (IH (zs ++ [ix]) j zs'); [done|by rewrite <- (assoc (++))|cbn in Hf; lia].
Qed.

Lemma all_slots_ok {A} (f : A → list (HashDbTerm Obj) → A) tb fl acc :
  table_ok tb fl → over_slots f (Z.to_nat (nactive tb)) tb 0 acc = Some (foldl f acc (bucket fl <$> slot_order tb)).
Proof.
  intros Hok. pose proof (nactive_16 _ _ Hok) as Hn. destruct (slot_order_0 tb Hn) as (zs & Ho). rewrite Ho. eapply (dbh_over_slots_ok f tb fl _ []); [done|exact Ho|exact (order_tail_length tb [] 0 zs Hn Ho)].
Qed.

Lemma foldl_count (m : list (HashDbTerm Obj) → Z) (zs : list Z) fl n :
  (∀ l l', m (l ++ l') = m l + m l') → m [] = 0 → foldl (λ n c, n + m c) n (bucket fl <$> zs) = n + m (zs ≫= bucket fl).
Proof.
  intros Happ Hnil. revert n. induction zs as [|i zs IH]; intros n; cbn [fmap list_fmap foldl]; [cbn; lia|]. rewrite bind_cons, Happ. fold (bucket fl <$> zs). rewrite IH. lia.
Qed.

Lemma kept_items_ok tb fl : table_ok tb fl → db_kept_items_hash tb = Some (zlen (mjoin fl) - nitems tb).
Proof.
  intros Hok. unfold db_kept_items_hash. rewrite (all_slots_ok _ _ _ _ Hok). f_equal.
  rewrite (foldl_count (λ c, zlen (filter (λ b, is_true (negb (live b))) c))) by (try done; intros; rewrite filter_app, length_app; lia). fold (nodes tb fl).
  rewrite (nodes_perm tb fl Hok). pose proof Hok as (_ & -> & _). unfold contents, objs. rewrite length_fmap. clear.
  induction (mjoin fl) as [|b l IH]; [done|]. rewrite purge_cons, filter_cons. destruct (live b); case_decide; try done; cbn [length] in *; lia.
Qed.

(** The lengths of the chains: their sum is the number of nodes, and all are between the minimum and the maximum. *)
Lemma chain_stats_ok tb fl :
  table_ok tb fl → zlen (mjoin fl) ≤ INT_MAX →
  ∃ sq mx mn, chain_stats tb = Some (zlen (mjoin fl), sq, mx, mn) ∧ ∀ i, i ∈ slot_order tb → mn ≤ zlen (bucket fl i) ≤ mx.
Proof.
  intros Hok Hmax. unfold chain_stats. rewrite (all_slots_ok _ _ _ _ Hok).
  assert (∀ zs sum sq mx mn, ∃ sq' mx' mn', foldl stats_step (sum, sq, mx, mn) (bucket fl <$> zs) = (sum + zlen (zs ≫= bucket fl), sq', mx', mn') ∧
            mn' ≤ mn ∧ mx ≤ mx' ∧ ∀ i, i ∈ zs → mn' ≤ zlen (bucket fl i) ≤ mx') as Hloop.
  { induction zs as [|i zs IH]; intros sum sq mx mn; [exists sq, mx, mn; cbn; split_and!; [f_equal; f_equal; f_equal; lia|done|done|by intros i ?%elem_of_nil]|].
    cbn [fmap list_fmap foldl]. fold (bucket fl <$> zs). rewrite bind_cons, length_app. unfold stats_step at 2.
    destruct (IH (sum + zlen (bucket fl i)) (sq + zlen (bucket fl i) * zlen (bucket fl i)) (if zlen (bucket fl i) >? mx then zlen (bucket fl i) else mx)
                (if zlen (bucket fl i) <? mn then zlen (bucket fl i) else mn)) as (sq' & mx' & mn' & -> & Hmn & Hmx & Hall).
    exists sq', mx', mn'. split_and!; [f_equal; f_equal; f_equal; lia|destruct (Z.ltb_spec (zlen (bucket fl i)) mn); lia|destruct (Z.gtb_spec (zlen (bucket fl i)) mx); lia|].
    intros j [->|Hj]%elem_of_cons; [|by apply Hall]. destruct (Z.ltb_spec (zlen (bucket fl i)) mn), (Z.gtb_spec (zlen (bucket fl i)) mx); lia. }
  destruct (Hloop (slot_order tb) 0 0 0 INT_MAX) as (sq' & mx' & mn' & -> & _ & _ & Hall). exists sq', mx', mn'. split; [|done].
  fold (nodes tb fl). by rewrite (nodes_perm tb fl Hok).
Qed.

Lemma foreach_offheap_ok tb fl : table_ok tb fl → db_foreach_offheap_hash tb = Some (dbterm <$> mjoin fl).
Proof.
  intros Hok. pose proof Hok as (Hp & _). pose proof Hp as (Hs & _ & Hns & _). pose proof (segs_length _ _ Hs) as Hlen. pose proof (nactive_16 _ _ Hok) as Hn. unfold db_foreach_offheap_hash.
  assert (mapM (λ i : nat, BUCKET tb (Z.of_nat i)) (seq 0 (Z.to_nat (nactive tb))) = Some (take (Z.to_nat (nactive tb)) fl)) as ->.
  { apply mapM_Some. apply Forall2_same_length_lookup_2; [rewrite length_seq, length_take; lia|]. intros j x c Hj Hc. apply lookup_seq in Hj as [-> Hj]. apply lookup_take_Some in Hc as [Hc _].
    rewrite (BUCKET_segs _ _ _ Hs) by lia. by rewrite Nat2Z.id. }
  cbn [mbind option_bind]. do 2 f_equal. rewrite concat_mjoin. rewrite <- (take_drop (Z.to_nat (nactive tb)) fl) at 2. rewrite mjoin_app.
  replace (mjoin (drop (Z.to_nat (nactive tb)) fl)) with (@nil (HashDbTerm Obj)); [by rewrite app_nil_r|]. symmetry.
  assert (Forall (λ c, c = []) (drop (Z.to_nat (nactive tb)) fl)) as Hf.
  { rewrite Forall_lookup. intros j c Hj. rewrite lookup_drop in Hj. eapply placed_inactive; [done| |done]. lia. }
  induction Hf as [|c ls -> Hf IH]; [done|]. by rewrite join_cons, IH.
Qed.

End Order.
