(* ===== verification/DbHashTheorems.v ===== *)
(** The correctness properties of hashed ETS tables ([DbHash] to [DbHashOrder]), with a concrete instance. *)

From Stdlib Require Import ZArith ZifyBool.
From stdpp Require Import base list numbers option sets gmap.
From S2P Require Import Prelude Grouped LinearHash DbUtil DbHash DbHashSegs DbHashChain DbHashSpec DbHashOps DbHashOrder.
Local Open Scope Z_scope.

(** * Sequences of operations *)
Section Sequences.
Context {Obj T : Type} `{EqDecision Obj, EqDecision T, !DbHashTerms Obj T, !DbHashTermLaws Obj T, !DbHashConfig, !NodeAlloc}.
Implicit Types (tb : DbTableHash Obj) (l os : list Obj) (o : Obj) (k : T) (fl : list (list (HashDbTerm Obj))) (st : db_type).

Abbreviation of_objkey := (of_key GETKEY).

(** [mem] tells whether there is memory for a new segment.  A fixation is given up either at once, with [local_unfix_table], or in two
    steps, as [unfix_table_locked] does, which decrements the counter and takes the write lock before the purge. *)
Inductive hash_op :=
| HPut (o : Obj) (key_clash_fail mem : bool)
| HGet (k : T)
| HMember (k : T)
| HElement (k : T) (ndex : Z)
| HErase (k : T)
| HEraseObject (o : Obj)
| HUpdate (k : T) (f : Obj → Obj)
| HSlot (slot : option Z)
| HFirst
| HNext (k : T)
| HSize
| HFix
| HUnfix
| HRelease
| HPurge
| HDeleteAll.

Inductive hash_res :=
| HCode (e : db_error)
| HObjects (e : db_error) (l : list Obj)
| HBool (e : db_error) (b : bool)
| HElements (e : db_error) (r : option (element_result T))
| HSlotted (e : db_error) (r : option (unit + list Obj))
| HKey (e : db_error) (k : T)
| HNumber (n : Z).

(** ** The code *)

Definition fresh_seg tb : Z := new_addr (fst <$> map_to_list (blocks tb)).

(** Enough calls of [db_free_table_continue_hash] *)
Definition free_calls tb : nat := S (Z.to_nat (portions tb)).

Definition hash_step tb (op : hash_op) : option (hash_res * DbTableHash Obj) :=
  match op with
  | HPut o clash mem => '(e, tb) ← db_put_hash tb o clash (if mem then Some (fresh_seg tb) else None); Some (HCode e, tb)
  | HGet k => '(e, l) ← db_get_hash tb k; Some (HObjects e l, tb)
  | HMember k => '(e, b) ← db_member_hash tb k; Some (HBool e b, tb)
  | HElement k n => '(e, r) ← db_get_element_hash tb k n; Some (HElements e r, tb)
  | HErase k => '(e, tb) ← db_erase_hash tb k; Some (HCode e, tb)
  | HEraseObject o => '(e, tb) ← db_erase_object_hash tb o; Some (HCode e, tb)
  | HUpdate k f => '(b, tb) ← update_object tb k f; Some (HBool DB_ERROR_NONE b, tb)
  | HSlot slot => '(e, r) ← db_slot_hash tb slot; Some (HSlotted e r, tb)
  | HFirst => '(e, k) ← db_first_hash tb; Some (HKey e k, tb)
  | HNext k => '(e, k) ← db_next_hash (S (Z.to_nat (nitems tb))) tb k; Some (HKey e k, tb)
  | HSize => Some (HNumber (NITEMS tb), tb)
  | HFix => Some (HCode DB_ERROR_NONE, local_fix_table tb)
  | HUnfix => tb ← (if IS_FIXED tb then local_unfix_table tb else Some tb); Some (HCode DB_ERROR_NONE, tb)
  | HRelease => Some (HCode DB_ERROR_NONE, if IS_FIXED tb then set_fixref (fixref tb - 1) tb else tb)
  | HPurge => tb ← db_unfix_table_hash tb; Some (HCode DB_ERROR_NONE, tb)
  | HDeleteAll => tb ← db_delete_all_objects_hash (free_calls tb) tb (Some (fresh_seg tb)); Some (HCode DB_ERROR_NONE, tb)
  end.

Fixpoint hash_run tb (ops : list hash_op) : option (list hash_res * DbTableHash Obj) :=
  match ops with
  | [] => Some ([], tb)
  | op :: ops' => '(r, tb) ← hash_step tb op; '(rs, tb) ← hash_run tb ops'; Some (r :: rs, tb)
  end.

(** The table as [ets_new_2] passes it to [db_create_hash] *)
Definition blank st : DbTableHash Obj := Table st 0 0 None 0 0 0 [] 0 false ∅.

(** ** The specification: a list of objects, the last one inserted first *)

Definition set_key k os l : list Obj := os ++ filter (λ o, GETKEY o ≠ k) l.

(** A key with an object, or the end of the table *)
Definition key_in l k : Prop := k = am_EOT ∨ of_objkey k l ≠ [].

Definition spec_hash st l (op : hash_op) (r : hash_res) (l' : list Obj) : Prop :=
  match op with
  | HPut o clash _ => let '(e, os) := put_result st clash o (of_objkey (GETKEY o) l) in r = HCode e ∧ l' = set_key (GETKEY o) os l
  | HGet k => r = HObjects DB_ERROR_NONE (rev (of_objkey k l)) ∧ l' = l
  | HMember k => r = HBool DB_ERROR_NONE (negb (bool_decide (of_objkey k l = []))) ∧ l' = l
  | HElement k n => ∃ e x, get_element_result st (rev (of_objkey k l)) n = Some (e, x) ∧ r = HElements e x ∧ l' = l
  | HErase k => r = HCode DB_ERROR_NONE ∧ l' = set_key k [] l
  | HEraseObject o => r = HCode DB_ERROR_NONE ∧ l' = without o l
  | HUpdate k f => r = HBool DB_ERROR_NONE (negb (bool_decide (of_objkey k l = []))) ∧ l' = set_key k (f <$> of_objkey k l) l
  | HSlot slot =>
      (r = HSlotted DB_ERROR_BADPARAM None ∨
       (∃ i, slot = Some i ∧ 0 ≤ i) ∧
       (r = HSlotted DB_ERROR_NONE (Some (inl tt)) ∨
        ∃ os, r = HSlotted DB_ERROR_NONE (Some (inr os)) ∧ ∀ k, of_objkey k os = [] ∨ of_objkey k os = rev (of_objkey k l))) ∧ l' = l
  | HFirst => (∃ k, r = HKey DB_ERROR_NONE k ∧ key_in l k ∧ (k = am_EOT → l = [] ∨ of_objkey k l ≠ [])) ∧ l' = l
  | HNext k => (r = HKey DB_ERROR_BADKEY am_EOT ∧ of_objkey k l = [] ∨ ∃ k', r = HKey DB_ERROR_NONE k' ∧ key_in l k' ∧ (k' ≠ am_EOT → k' ≠ k)) ∧ l' = l
  | HSize => r = HNumber (zlen l) ∧ l' = l
  | HFix | HUnfix | HRelease | HPurge => r = HCode DB_ERROR_NONE ∧ l' = l
  | HDeleteAll => r = HCode DB_ERROR_NONE ∧ l' = []
  end.

Inductive spec_hash_run st : list Obj → list hash_op → list hash_res → list Obj → Prop :=
| spec_hash_nil l : spec_hash_run st l [] [] l
| spec_hash_cons l op r l1 ops rs l' : spec_hash st l op r l1 → spec_hash_run st l1 ops rs l' → spec_hash_run st l (op :: ops) (r :: rs) l'.

(** An element has a position from 1 on, and [ets:update_counter] and [ets:update_element] want a set and keep the key. *)
Definition hop_ok st (op : hash_op) : Prop :=
  match op with
  | HElement _ n => 1 ≤ n
  | HUpdate _ f => st = DB_SET ∧ ∀ o, GETKEY (f o) = GETKEY o
  | _ => True
  end.

(** ** Steps *)

(** The table holds the objects [l]. *)
Definition holds st tb fl l : Prop := table_ok tb fl ∧ status tb = st ∧ key_eq GETKEY l (contents fl).

(** The operations that no fixation is given up with *)
Definition keeps_fix (op : hash_op) : Prop := match op with HUnfix | HRelease => False | _ => True end.

Definition step_result st tb fl l (op : hash_op) (res : option (hash_res * DbTableHash Obj)) : Prop :=
  ∃ r tb' fl' l', res = Some (r, tb') ∧ holds st tb' fl' l' ∧ spec_hash st l op r l' ∧ nactive tb' ≤ nactive tb + 1 ∧
    (IS_FIXED tb = true → keeps_fix op → IS_FIXED tb' = true ∧ stable tb fl tb' fl').

Lemma key_eq_set_key k os l fl fl' :
  key_eq GETKEY l (contents fl) → of_objkey k (contents fl') = os → (∀ k', k' ≠ k → of_objkey k' (contents fl') = of_objkey k' (contents fl)) →
  key_eq GETKEY (set_key k os l) (contents fl').
Proof.
  intros Heq Hk Hother k'. unfold set_key. rewrite of_key_app. unfold of_key at 2. rewrite list_filter_filter. destruct (decide (k' = k)) as [->|Hne].
  - rewrite Hk, (filter_none _ l), app_nil_r by (intros o _; tauto). subst os. apply of_key_all. rewrite Forall_forall. by intros o [_ ?]%elem_of_key.
  - rewrite (of_key_none GETKEY k' os).
    + cbn [app]. rewrite Hother, <- (Heq k') by done. unfold of_key. apply list_filter_iff. intros o. split; [tauto|]. intros E. split; congruence.
    + subst os. rewrite Forall_forall. intros o [_ <-]%elem_of_key. congruence.
Qed.

(** An operation that leaves the table alone *)
Lemma read_result st tb fl l op r : holds st tb fl l → spec_hash st l op r l → step_result st tb fl l op (Some (r, tb)).
Proof. intros Hh Hs. exists r, tb, fl, l. split_and!; [done..|lia|]. intros Hf _. split; [done|]. apply stable_refl. Qed.

Lemma change_result st tb fl l op k os r tb' l' :
  holds st tb fl l → op_ok tb fl k os tb' → (∀ fl', holds st tb' fl' (set_key k os l) → holds st tb' fl' l') → spec_hash st l op r l' →
  step_result st tb fl l op (Some (r, tb')).
Proof.
  intros (Hok & Hst & Heq) (fl' & Hok' & Hk & Hother & Hst' & Hfr & Hna & Hstab) Hl Hs. exists r, tb', fl', l'. split; [done|].
  split; [apply Hl; split_and!; [done|congruence|by eapply key_eq_set_key]|]. split; [done|]. split; [done|].
  intros Hf _. split; [unfold IS_FIXED in *; by rewrite Hfr|by apply Hstab].
Qed.

Lemma fresh_seg_ok tb mem : mem_ok tb (if mem : bool then Some (fresh_seg tb) else None).
Proof.
  destruct mem; [|done]. cbn. destruct (blocks tb !! fresh_seg tb) as [s|] eqn:E; [|done]. exfalso. apply (new_addr_fresh (fst <$> map_to_list (blocks tb))).
  apply list_elem_of_fmap. exists (fresh_seg tb, s). split; [done|]. by apply elem_of_map_to_list.
Qed.

Lemma put_result_step st tb fl l o clash mem : holds st tb fl l → small tb → step_result st tb fl l (HPut o clash mem) (hash_step tb (HPut o clash mem)).
Proof.
  intros Hh Hsm. pose proof Hh as (Hok & Hst & Heq). destruct (dbh_put_ok tb fl o clash _ Hok Hsm (fresh_seg_ok tb mem)) as (tb' & Hput). cbn [hash_step].
  pose proof (Heq (GETKEY o)) as Ek. rewrite <- Ek, Hst in Hput. destruct (put_result st clash o (of_objkey (GETKEY o) l)) as [e os'] eqn:E. destruct Hput as [-> Hop].
  cbn [mbind option_bind]. eapply change_result; [done|exact Hop|by intros fl' ?|]. cbn [spec_hash]. by rewrite E.
Qed.

Lemma erase_object_step_ok st tb fl l o : holds st tb fl l → small tb → step_result st tb fl l (HEraseObject o) (hash_step tb (HEraseObject o)).
Proof.
  intros Hh Hsm. pose proof Hh as (Hok & Hst & Heq). destruct (erase_object_ok tb fl o Hok Hsm) as (tb' & E & Hop). cbn [hash_step]. rewrite E. cbn [mbind option_bind].
  eapply change_result; [done|exact Hop| |by cbn]. intros fl' (Hok' & Hst' & Heq'). split_and!; [done..|]. etrans; [|exact Heq']. rewrite <- (Heq (GETKEY o)). clear.
  intros k. unfold set_key, without. rewrite of_key_app. unfold of_key. rewrite !list_filter_filter. destruct (decide (k = GETKEY o)) as [->|Hne].
  - rewrite (filter_none (λ x, GETKEY x = GETKEY o ∧ GETKEY x ≠ GETKEY o)), app_nil_r by (intros x _; tauto). apply list_filter_iff. naive_solver.
  - rewrite (filter_none (λ x, (GETKEY x = k ∧ x ≠ o) ∧ GETKEY x = GETKEY o)) by (intros x _; naive_solver). cbn [app]. apply list_filter_iff. naive_solver.
Qed.

Lemma element_defined st os n : 1 ≤ n → ∃ e x, get_element_result st os n = Some (e, x).
Proof.
  intros Hn. unfold get_element_result. destruct os as [|o os]; [eauto|]. destruct (existsb _ (o :: os)) eqn:E; [eauto|].
  assert (∀ o', o' ∈ o :: os → is_Some (tpl o' n)) as Hall.
  { intros o' Ho'. apply tpl_element. split; [done|]. destruct (Z.le_gt_cases n (arityval o')) as [?|Hgt]; [done|]. exfalso.
    assert (existsb (λ o, n >? arityval o) (o :: os) = true) as E'; [|congruence]. apply existsb_exists. exists o'. split; [by apply list_elem_of_In|]. lia. }
  destruct st.
  - destruct (Hall o) as [t ->]; [set_solver|]. eauto.
  - assert (is_Some (mapM (λ o, tpl o n) (o :: os))) as [ts ->]; [|eauto]. apply mapM_is_Some_2. rewrite Forall_forall. done.
  - assert (is_Some (mapM (λ o, tpl o n) (o :: os))) as [ts ->]; [|eauto]. apply mapM_is_Some_2. rewrite Forall_forall. done.
Qed.

Lemma of_key_rev k l : of_objkey k (rev l) = rev (of_objkey k l).
Proof. unfold of_key. induction l as [|o l IH]; [done|]. cbn [rev]. rewrite filter_app, IH, filter_cons. rewrite filter_cons, filter_nil. case_decide; [done|]. by rewrite app_nil_r. Qed.

Lemma slot_result st tb fl l slot : holds st tb fl l → step_result st tb fl l (HSlot slot) (hash_step tb (HSlot slot)).
Proof.
  intros Hh. pose proof Hh as (Hok & Hst & Heq). pose proof (nactive_16 _ _ Hok). pose proof (slot_ok tb fl slot Hok) as Hs. cbn [hash_step]. destruct slot as [i|].
  - destruct (_ && _) eqn:E; [|destruct (Z.eqb_spec i (nactive tb))].
    + destruct Hs as (c & Hc & ->). cbn [mbind option_bind]. apply read_result; [done|]. split; [|done]. right. split; [exists i; split; [done|lia]|]. right. eexists. split; [done|].
      intros k. rewrite of_key_rev. destruct Hok as [Hp _]. pose proof Hp as (_ & (home & Hg) & _ & Hch). pose proof (key_ix_range tb home k Hg) as Hix.
      destruct (decide (key_ix tb k = i)) as [Hk|Hk]; [right; f_equal; rewrite Heq; symmetry; apply (contents_key tb); [done|by rewrite Hk]|]. left.
      rewrite objs_other_key; [done|]. destruct (Hch _ _ Hc) as [_ Hf]. eapply Forall_impl; [exact Hf|]. cbn. intros b Hb <-. lia.
    + rewrite Hs. cbn [mbind option_bind]. apply read_result; [done|]. split; [|done]. right. split; [exists i; split; [done|lia]|]. by left.
    + rewrite Hs. cbn [mbind option_bind]. apply read_result; [done|]. split; [by left|done].
  - rewrite Hs. cbn [mbind option_bind]. apply read_result; [done|]. split; [by left|done].
Qed.

(** The keys that [first] and [next] return *)
Lemma next_key_in l fl B : key_eq GETKEY l (contents fl) → key_in l (next_key fl B) ∧ (next_key fl B = am_EOT ∧ Forall (λ k, ¬ live_key fl k) B ∨ next_key fl B ∈ B ∧ live_key fl (next_key fl B)).
Proof.
  intros Heq. unfold next_key, key_in. destruct (filter (live_key fl) B) as [|k ks] eqn:E; cbn [head default from_option].
  - split; [by left|]. left. split; [done|]. rewrite Forall_forall. intros k Hk Hl. exact (filter_nil_not_elem_of _ _ _ E Hl Hk).
  - assert (k ∈ filter (live_key fl) B) as [Hl Hk]%list_elem_of_filter by (rewrite E; set_solver). split; [right; by rewrite Heq|]. by right.
Qed.

Lemma first_result st tb fl l : holds st tb fl l → step_result st tb fl l HFirst (hash_step tb HFirst).
Proof.
  intros Hh. pose proof Hh as (Hok & Hst & Heq). cbn [hash_step]. rewrite (first_ok tb fl Hok). cbn [mbind option_bind]. apply read_result; [done|]. split; [|done].
  eexists. split; [done|]. destruct (next_key_in l fl (keys_of tb fl) Heq) as [Hin Hc]. split; [done|]. intros _. destruct Hc as [[_ Hnone]|[_ Hl]]; [left|right; by rewrite Heq].
  destruct l as [|o l]; [done|]. exfalso. rewrite Forall_forall in Hnone. assert (live_key fl (GETKEY o)) as Hl.
  { unfold live_key. rewrite <- (Heq (GETKEY o)). unfold of_key. by rewrite filter_cons_True. }
  eapply Hnone; [|exact Hl]. by apply live_key_in.
Qed.

Lemma next_result st tb fl l k : holds st tb fl l → step_result st tb fl l (HNext k) (hash_step tb (HNext k)).
Proof.
  intros Hh. pose proof Hh as (Hok & Hst & Heq). cbn [hash_step]. destruct (decide (k ∈ keys_of tb fl)) as [Hk|Hk].
  - apply list_elem_of_split in Hk as (A & B & E). rewrite (next_key_ok tb fl (S (Z.to_nat (nitems tb))) k A B Hok ltac:(lia) E). cbn [mbind option_bind]. apply read_result; [done|]. split; [|done]. right.
    eexists. split; [done|]. destruct (next_key_in l fl B Heq) as [Hin Hc]. split; [done|]. intros Hne. destruct Hc as [[? _]|[HB _]]; [done|]. intros Hk.
    pose proof (keys_of_NoDup _ _ Hok) as Hnd. rewrite E in Hnd. apply NoDup_app in Hnd as (_ & _ & [? _]%NoDup_cons). by rewrite Hk in HB.
  - rewrite (next_badkey tb fl) by done. cbn [mbind option_bind]. apply read_result; [done|]. split; [|done]. left. split; [done|]. rewrite (Heq k).
    destruct (decide (of_objkey k (contents fl) = [])) as [?|Hl]; [done|]. destruct Hk. by apply live_key_in.
Qed.

Lemma set_fixref_ok tb fl n : table_ok tb fl → 0 ≤ n → table_ok (set_fixref n tb) fl.
Proof. by intros (Hp & Hni & Hd & Hf & Hr & _) Hn. Qed.

Lemma fixed_pos tb fl : table_ok tb fl → IS_FIXED tb = true ↔ 0 < fixref tb.
Proof. intros (_ & _ & _ & _ & _ & Hfr). unfold IS_FIXED. lia. Qed.

(** What fixing and unfixing leave of the table *)
Lemma fix_results st tb fl l op :
  holds st tb fl l → match op with HFix | HUnfix | HRelease | HPurge => step_result st tb fl l op (hash_step tb op) | _ => True end.
Proof.
  intros Hh. pose proof Hh as (Hok & Hst & Heq). pose proof (fixed_pos _ _ Hok) as Hfix. pose proof Hok as (_ & _ & _ & _ & _ & Hfr).
  assert (∀ tb0, table_ok tb0 fl → status tb0 = st → nactive tb0 = nactive tb → ¬ keeps_fix op ∨ IS_FIXED tb = IS_FIXED tb0 ∧ nactive tb0 = nactive tb →
            match op with HFix | HUnfix | HRelease | HPurge => True | _ => False end →
            step_result st tb fl l op (tb ← db_unfix_table_hash tb0; Some (HCode DB_ERROR_NONE, tb))) as Hpurge.
  { intros tb0 Hok0 Hst0 Hn0 Hk Hop. destruct (unfix_ok tb0 fl Hok0) as (tb' & fl' & -> & Hok' & Ec & Hst' & Hfr' & Hna & Hsame & _). cbn [mbind option_bind].
    destruct (IS_FIXED tb0) eqn:E0.
    - rewrite (Hsame eq_refl) in *. exists (HCode DB_ERROR_NONE), tb0, fl, l. split_and!; [done|done|by destruct op|lia|]. intros Hf Hkf. split; [done|]. split; [done|]. exact (proj2 (stable_refl tb fl)).
    - exists (HCode DB_ERROR_NONE), tb', fl', l. split_and!; [done|split_and!; [done|congruence|by rewrite Ec]|by destruct op|lia|]. intros Hf Hkf. destruct Hk as [?|[Hk _]]; [done|congruence]. }
  assert (∀ n, 0 ≤ n → holds st (set_fixref n tb) fl l) as Hset by (intros n Hn; split_and!; [by apply set_fixref_ok|done|done]).
  destruct op; try done; cbn [hash_step].
  - exists (HCode DB_ERROR_NONE), (set_fixref (fixref tb + 1) tb), fl, l. split_and!; [done|apply Hset; lia|done|cbn; lia|]. intros _ _. split; [unfold IS_FIXED; cbn; lia|]. exact (stable_refl tb fl).
  - destruct (IS_FIXED tb) eqn:E; cbn [mbind option_bind]; [|by apply (read_result st tb fl l)]. assert (0 < fixref tb) by (by apply Hfix). unfold local_unfix_table. cbn [fixref set_fixref].
    destruct (Z.eqb_spec (fixref tb - 1) 0); [apply Hpurge; [apply set_fixref_ok; [done|lia]|done|done|left; by intros []|done]|].
    exists (HCode DB_ERROR_NONE), (set_fixref (fixref tb - 1) tb), fl, l. split_and!; [done|apply Hset; lia|done|cbn; lia|]. by intros _ [].
  - destruct (IS_FIXED tb) eqn:E; [|by apply (read_result st tb fl l)]. assert (0 < fixref tb) by (by apply Hfix).
    exists (HCode DB_ERROR_NONE), (set_fixref (fixref tb - 1) tb), fl, l. split_and!; [done|apply Hset; lia|done|cbn; lia|]. by intros _ [].
  - apply Hpurge; [done..|by right|done].
Qed.

Lemma delete_all_result st tb fl l : holds st tb fl l → step_result st tb fl l HDeleteAll (hash_step tb HDeleteAll).
Proof.
  intros (Hok & Hst & Heq). cbn [hash_step]. destruct (delete_all_ok (free_calls tb) tb fl (Some (fresh_seg tb)) Hok) as (tb' & fl' & -> & Hok' & Ec & Hst' & Hfr & Hna & Hstab).
  - unfold free_calls. lia.
  - done.
  - cbn [mbind option_bind]. exists (HCode DB_ERROR_NONE), tb', fl', []. split_and!; [done|split_and!; [done|congruence|by rewrite Ec]|done|lia|].
    intros Hf _. split; [unfold IS_FIXED in *; by rewrite Hfr|by apply Hstab].
Qed.

Lemma holds_length st tb fl l : holds st tb fl l → nitems tb = zlen l.
Proof. intros ((_ & -> & _) & _ & Heq%key_eq_perm). by rewrite Heq. Qed.

Lemma dbh_hash_step_ok st tb fl l op :
  holds st tb fl l → small tb → zlen l ≤ INT_MAX → hop_ok st op → step_result st tb fl l op (hash_step tb op).
Proof.
  intros Hh Hsm Hl Hop. pose proof Hh as (Hok & Hst & Heq). pose proof (fix_results st tb fl l op Hh) as Hfix.
  destruct op as [o clash mem|k|k|k n|k|o|k f|slot| |k| | | | | |]; try exact Hfix; clear Hfix.
  - by apply put_result_step.
  - cbn [hash_step]. rewrite (dbh_get_ok tb fl k Hok). cbn [mbind option_bind]. apply read_result; [done|]. cbn [spec_hash]. by rewrite (Heq k).
  - cbn [hash_step]. rewrite (member_ok tb fl k Hok). cbn [mbind option_bind]. apply read_result; [done|]. cbn [spec_hash]. by rewrite (Heq k).
  - cbn [hash_step]. rewrite (get_element_ok tb fl k n Hok), <- (Heq k), Hst. destruct (element_defined st (rev (of_objkey k l)) n Hop) as (e & x & E). rewrite E. cbn [mbind option_bind].
    apply read_result; [done|]. cbn [spec_hash]. eauto.
  - cbn [hash_step]. destruct (dbh_erase_ok tb fl k Hok Hsm) as (tb' & -> & Ho). cbn [mbind option_bind]. eapply change_result; [done|exact Ho|by intros fl' ?|by cbn].
  - by apply erase_object_step_ok.
  - destruct Hop as [-> Hf]. cbn [hash_step]. destruct (update_ok tb fl k f Hok Hst Hf) as (tb' & -> & Ho). cbn [mbind option_bind]. rewrite <- (Heq k) in Ho |- *.
    eapply change_result; [done|exact Ho|by intros fl' ?|by cbn].
  - by apply slot_result.
  - by apply first_result.
  - by apply next_result.
  - cbn [hash_step]. apply read_result; [done|]. cbn [spec_hash]. unfold NITEMS. rewrite (holds_length _ _ _ _ Hh). rewrite int32_small by (unfold INT_MAX in *; lia). done.
  - by apply delete_all_result.
Qed.

Lemma filter_length_le (P : Obj → Prop) `{∀ o, Decision (P o)} l : (length (filter P l) ≤ length l)%nat.
Proof. apply length_filter. Qed.

Lemma split_key_length k l : (length (of_objkey k l) + length (filter (λ o, GETKEY o ≠ k) l) = length l)%nat.
Proof. unfold of_key. induction l as [|o l IH]; [done|]. rewrite !filter_cons. repeat case_decide; cbn [length]; try done; lia. Qed.

Lemma spec_hash_length st l op r l' : hop_ok st op → spec_hash st l op r l' → zlen l' ≤ zlen l + 1.
Proof.
  intros Hop. destruct op as [o clash mem|k|k|k n|k|o|k f|slot| |k| | | | | |]; cbn [spec_hash]; try (intros [_ ->]; lia).
  - destruct (put_result st clash o (of_objkey (GETKEY o) l)) as [e os] eqn:E. intros [_ ->]. unfold set_key. rewrite length_app. pose proof (split_key_length (GETKEY o) l).
    unfold put_result in E. repeat case_match; simplify_eq; cbn [length]; lia.
  - intros (e & x & _ & _ & ->). lia.
  - intros [_ ->]. unfold set_key. cbn [app]. pose proof (split_key_length k l). lia.
  - intros [_ ->]. unfold without. pose proof (length_filter (λ o', o' ≠ o) l). lia.
  - intros [_ ->]. unfold set_key. rewrite length_app, length_fmap. pose proof (split_key_length k l). lia.
  - intros [_ ->]. cbn. lia.
Qed.

(** A run that started [n] steps after the table was created *)
Lemma dbh_hash_run_ok st n ops tb fl l :
  holds st tb fl l → 0 ≤ n → nactive tb ≤ 256 + n → zlen l ≤ n → n + zlen ops < 2 ^ 28 → Forall (hop_ok st) ops →
  ∃ rs tb' fl' l', hash_run tb ops = Some (rs, tb') ∧ holds st tb' fl' l' ∧ spec_hash_run st l ops rs l' ∧
    nactive tb' ≤ 256 + n + zlen ops ∧ zlen l' ≤ n + zlen ops ∧ (IS_FIXED tb = true → Forall keeps_fix ops → IS_FIXED tb' = true ∧ keys_of tb fl `sublist_of` keys_of tb' fl').
Proof.
  revert n tb fl l. induction ops as [|op ops IH]; intros n tb fl l Hh Hn0 Hna Hl Hn Hops.
  { exists [], tb, fl, l. cbn. split_and!; [done|done|constructor|lia|lia|done]. }
  apply Forall_cons in Hops as [Hop Hops]. cbn [length] in Hn. destruct (dbh_hash_step_ok st tb fl l op Hh) as (r & tb1 & fl1 & l1 & E1 & Hh1 & Hs1 & Hna1 & Hst1); [unfold small; lia|unfold INT_MAX; lia|done|].
  pose proof (spec_hash_length _ _ _ _ _ Hop Hs1). destruct (IH (n + 1) tb1 fl1 l1 Hh1) as (rs & tb2 & fl2 & l2 & E2 & Hh2 & Hs2 & Hna2 & Hl2 & Hst2); [lia..|done|].
  exists (r :: rs), tb2, fl2, l2. cbn [hash_run length]. rewrite E1. cbn [mbind option_bind]. rewrite E2. split_and!; [done|done|by econstructor|lia|lia|].
  intros Hf Hk. apply Forall_cons in Hk as [Hk Hks]. destruct (Hst1 Hf Hk) as [Hf1 Hsub1]. destruct (Hst2 Hf1 Hks) as [Hf2 Hsub2]. split; [done|].
  etrans; [|exact Hsub2]. eapply stable_keys; [apply Hh|apply Hh1|done].
Qed.

Lemma created st e : ∃ tb, db_create_hash (blank st) (Some e) = Some tb ∧ holds st tb (replicate 256 []) [] ∧ nactive tb = 256.
Proof.
  destruct (dbh_create_ok (blank st) e) as (tb & E & Hok & Hst & Hfr & Hn & Hni); [done|done|]. exists tb. split; [done|]. split; [|done].
  rewrite set_nitems_id in Hok by (by rewrite Hni). split_and!; [done..|]. by rewrite contents_empty by (by apply Forall_replicate).
Qed.

(** ** Keys that operations leave alone *)








(** ** Traversal of a table that is fixed *)




(** ** How many objects a key has *)

Lemma single_NoDup l : (∀ o, single o l) → NoDup l.
Proof.
  induction l as [|o l IH]; intros Hs; [constructor|]. apply NoDup_cons. split; [by apply (single_cons o o l)|]. apply IH. intros o'. by apply (single_cons o' o l).
Qed.

Lemma holds_unique st tb fl l :
  holds st tb fl l → (st = DB_SET → ∀ k, (length (of_objkey k l) ≤ 1)%nat) ∧ (st = DB_BAG → NoDup l).
Proof.
  intros (Hok & Hst & Heq). assert (∀ k, ∃ grp, of_objkey k l = objs grp ∧ (st = DB_SET → length grp ≤ 1)%nat ∧ (st = DB_BAG → bag_ok grp)) as Hgrp.
  { intros k. rewrite (Heq k). destruct (bucket_run tb fl k Hok) as (c & pre & grp & post & _ & _ & Hc & Hr & ->). rewrite Hst in Hc.
    destruct (run_conditions _ _ _ _ _ _ Hc Hr) as (_ & _ & _ & _ & Hset & Hbag). by exists grp. }
  split.
  - intros E k. destruct (Hgrp k) as (grp & -> & Hset & _). specialize (Hset E). unfold objs. rewrite length_fmap. etrans; [apply length_filter|done].
  - intros E. apply single_NoDup. intros o. destruct (Hgrp (GETKEY o)) as (grp & Eg & _ & Hbag). pose proof (bag_ok_single o grp (Hbag E)) as Hs. rewrite <- Eg in Hs.
    unfold single, of_key in *. rewrite list_filter_filter in Hs. rewrite (list_filter_iff (λ x, x = o) (λ x, x = o ∧ GETKEY x = GETKEY o)); [done|]. intros x. split; [|tauto]. by intros ->.
Qed.

(** The table after a run *)
Lemma reached st e ops :
  Forall (hop_ok st) ops → zlen ops < 2 ^ 28 →
  ∃ tb0 rs tb fl l, db_create_hash (blank st) (Some e) = Some tb0 ∧ hash_run tb0 ops = Some (rs, tb) ∧ holds st tb fl l ∧ spec_hash_run st [] ops rs l ∧
    nactive tb ≤ 256 + zlen ops ∧ zlen l ≤ zlen ops.
Proof.
  intros Hops Hlen. destruct (created st e) as (tb0 & E0 & Hh0 & Hn0). destruct (dbh_hash_run_ok st 0 ops tb0 _ [] Hh0) as (rs & tb & fl & l & E & Hh & Hs & Hna & Hl & _); [done|lia|done|lia|done|].
  exists tb0, rs, tb, fl, l. split_and!; [done..|lia|lia].
Qed.


(** ** Properties *)

(** C2: A hashed ETS table implements a set, a bag or a duplicate bag of objects.  Any sequence of fewer than 2^28 insertions (with and without the failure on an
    existing key, with memory for new segments or without), lookups, element lookups, deletions by key and by object, updates in
    place, [slot], [first], [next] and size calls, fixations, releases, purges and deletions of all objects runs without undefined behaviour
    (no bucket without a segment, no overflow of [int]) and returns what the specification allows, while the table grows, shrinks and
    keeps deleted objects in their buckets: the objects of a key come in the order of their insertion, a set has one object for a key at most, and a bag no object twice. *)
Theorem ets_hash_refines_bags st e ops :
  Forall (hop_ok st) ops → zlen ops < 2 ^ 28 →
  ∃ tb0 rs tb l, db_create_hash (blank st) (Some e) = Some tb0 ∧ hash_run tb0 ops = Some (rs, tb) ∧ spec_hash_run st [] ops rs l ∧
    (∀ k, db_get_hash tb k = Some (DB_ERROR_NONE, rev (of_objkey k l))) ∧ nitems tb = zlen l ∧
    (st = DB_SET → ∀ k, (length (of_objkey k l) ≤ 1)%nat) ∧ (st = DB_BAG → NoDup l).
Proof.
  intros Hops Hlen. destruct (reached st e ops Hops Hlen) as (tb0 & rs & tb & fl & l & E0 & E & Hh & Hs & _). exists tb0, rs, tb, l. pose proof Hh as (Hok & Hst & Heq).
  destruct (holds_unique _ _ _ _ Hh) as [Hset Hbag]. split_and!; [done..| |by eapply holds_length|done|done]. intros k. rewrite (Heq k). by apply dbh_get_ok.
Qed.



(** C34: Memory of a hashed ETS table.  After any such sequence, freeing the table, in portions, comes to an end, frees every node of the table, live or deleted, exactly once and every segment, and leaves no
    segment table behind; the nodes are those that the garbage collector sees, as many as there are objects and kept deleted objects.  When the last fixation is given up, the purge removes all deleted objects and no other. *)
Theorem ets_hash_reclaims st e ops tb0 rs tb :
  Forall (hop_ok st) ops → zlen ops < 2 ^ 28 → db_create_hash (blank st) (Some e) = Some tb0 → hash_run tb0 ops = Some (rs, tb) →
  (∃ os kept freed tb', db_foreach_offheap_hash tb = Some os ∧ db_kept_items_hash tb = Some kept ∧ db_free_table_hash (free_calls tb) tb = Some (freed, tb') ∧
     dbterm <$> freed ≡ₚ os ∧ zlen freed = nitems tb + kept ∧ 0 ≤ kept ∧ blocks tb' = ∅ ∧ segtab tb' = None ∧ fixdel tb' = []) ∧
  (fixref tb = 0 → ∃ tb', db_unfix_table_hash tb = Some tb' ∧ db_kept_items_hash tb' = Some 0 ∧ nitems tb' = nitems tb ∧ ∀ k, db_get_hash tb' k = db_get_hash tb k).
Proof.
  intros Hops Hlen E0 E. destruct (reached st e ops Hops Hlen) as (tb0' & rs' & tb1 & fl & l & E0' & E' & Hh & _). rewrite E0 in E0'. injection E0' as <-. rewrite E in E'. injection E' as <- <-.
  destruct Hh as (Hok & _). assert (nitems tb ≤ zlen (mjoin fl)) as Hle.
  { destruct Hok as (_ & -> & _). unfold contents, objs. rewrite length_fmap. pose proof (length_filter (λ b, is_true (live b)) (mjoin fl)). unfold purge. lia. }
  split.
  - pose proof Hok as ((Hs & _) & _). destruct (dbh_free_table_ok (free_calls tb) tb fl Hs) as (freed & tb' & Ef & Hp & Hs' & Hfd & _); [unfold free_calls; lia|].
    destruct (segs_nil _ Hs') as [Hb Hst]. eexists _, _, freed, tb'. rewrite (foreach_offheap_ok tb fl Hok), (kept_items_ok tb fl Hok). split_and!; try done; [by rewrite Hp|rewrite Hp; lia|lia].
  - intros Hfr. destruct (unfix_ok tb fl Hok) as (tb' & fl' & Eu & Hok' & Ec & _ & _ & _ & _ & Hd). exists tb'. assert (IS_FIXED tb = false) as Hf by (unfold IS_FIXED; by rewrite Hfr). specialize (Hd Hf).
    split; [done|]. pose proof Hok as (_ & Hni & _). pose proof Hok' as (_ & Hni' & _). split_and!; [|congruence|intros k; by rewrite (dbh_get_ok tb fl), (dbh_get_ok tb' fl'), Ec].
    rewrite (kept_items_ok tb' fl' Hok'). f_equal. rewrite Hni'. unfold contents, objs. rewrite length_fmap, purge_id; [lia|]. clear -Hd.
    induction Hd as [|c fl Hc Hd IH]; [constructor|]. rewrite join_cons. apply Forall_app. split; [|done]. rewrite Forall_forall. intros b Hb. destruct (live b) eqn:El; [done|].
    destruct Hc. apply Exists_exists. by exists b.
Qed.

End Sequences.

(** * A concrete instance *)
Module Instances.
#[export] Instance pair_hash_terms : DbHashTerms (Z * Z) Z :=
  {| GETKEY := fst; hash := id; am_EOT := -1; arityval := λ _, 2; tpl := λ o i, if i =? 1 then Some o.1 else if i =? 2 then Some o.2 else None |}.
#[export] Instance pair_hash_laws : DbHashTermLaws (Z * Z) Z.
Proof. split. intros o n [H1 H2]. cbn in *. assert (n = 1 ∨ n = 2) as [-> | ->] by lia; by eexists. Qed.
#[export] Instance smp_config : DbHashConfig := {| ERTS_SMP := true |}.

Lemma hash_max_fresh (l : list Z) : foldr Z.max 0 l + 1 ∉ l.
Proof.
  intros Hin. assert (∀ x, x ∈ l → x ≤ foldr Z.max 0 l) as Hmax; [|apply Hmax in Hin; lia].
  clear Hin. intros x Hx. induction l as [|y l IH]; [by apply elem_of_nil in Hx|]. apply elem_of_cons in Hx as [->|Hx]; cbn; [lia|]. specialize (IH Hx). lia.
Qed.
#[export] Instance hash_alloc : NodeAlloc := {| new_addr := λ l, foldr Z.max 0 l + 1; new_addr_fresh := hash_max_fresh |}.

Definition bag_ops : list (hash_op (Obj := Z * Z) (T := Z)) := [HPut (2, 20) false true; HFix; HPut (258, 1) false true; HErase 2; HPut (2, 21) true false; HElement 2 2; HNext 2; HUnfix].

Lemma bag_ops_ok : Forall (hop_ok DB_BAG) bag_ops.
Proof. repeat constructor; cbn; lia. Qed.

Lemma ets_hash_refines_bags_witness : ∃ tb0 rs tb l,
  db_create_hash (blank DB_BAG) (Some 1) = Some tb0 ∧ hash_run tb0 bag_ops = Some (rs, tb) ∧ spec_hash_run DB_BAG [] bag_ops rs l ∧
  (∀ k, db_get_hash tb k = Some (DB_ERROR_NONE, rev (of_key GETKEY k l))) ∧ nitems tb = zlen l ∧ (DB_BAG = DB_SET → ∀ k, (length (of_key GETKEY k l) ≤ 1)%nat) ∧ (DB_BAG = DB_BAG → NoDup l).
Proof. apply (ets_hash_refines_bags DB_BAG 1 bag_ops); [exact bag_ops_ok|cbv; congruence]. Defined.



Lemma ets_hash_reclaims_witness : ∃ tb0 rs tb, db_create_hash (blank DB_BAG) (Some 1) = Some tb0 ∧ hash_run tb0 bag_ops = Some (rs, tb) ∧
  ∃ freed tb', db_free_table_hash (free_calls tb) tb = Some (freed, tb') ∧ blocks tb' = ∅.
Proof.
  destruct (reached DB_BAG 1 bag_ops bag_ops_ok eq_refl) as (tb0 & rs & tb & fl & l & E0 & E & _). exists tb0, rs, tb. split; [exact E0|]. split; [exact E|].
  destruct (ets_hash_reclaims DB_BAG 1 bag_ops tb0 rs tb bag_ops_ok eq_refl E0 E) as [(os & kept & freed & tb' & _ & _ & Ef & _ & _ & _ & Hb & _) _].
  exists freed, tb'. split; [exact Ef|exact Hb].
Defined.
End Instances.
