(* ===== verification/Bits.v ===== *)
(** Bit strings in memory: the bit copy and comparison of [erts/emulator/beam/erl_bits.c], and the macros of [erl_bits.h].

    Memory is a map from addresses to bytes ([AllocMem.v]); reading or writing an address that is not in it is an
    error ([None]).  A pointer is an address, [Uint] and [size_t] have [D_EXP] bits.  A buffer is read from an address
    in a direction (1 or -1), its first bit is the most significant bit of its first byte. *)

From Stdlib Require Import ZArith ZifyBool.
From stdpp Require Import base list numbers option gmap.
From S2P Require Import Prelude Big BigTerm AllocMem.
Local Open Scope Z_scope.

(** [*p] and [*p = v] on [byte]s. *)
Definition rd (m : memory) (p : Z) : option Z := m !! p.
Definition wr (m : memory) (p v : Z) : option memory :=
  match m !! p with Some _ => Some (<[p := wrap_u 8 v]> m) | None => None end.

Section Bits.
Context {dw : DigitWidth}.

Definition NBYTES (x : Z) : Z := Z.shiftr (dig (x + 7)) 3.
Definition BYTE_OFFSET (ofs : Z) : Z := Z.shiftr ofs 3.
Definition BIT_OFFSET (ofs : Z) : Z := Z.land ofs 7.

Definition MAKE_MASK (n : Z) : Z := dig (dig (Z.shiftl 1 n) - 1).
Definition MASK_BITS (src dst mask : Z) : Z := Z.lor (Z.land src mask) (Z.land dst (dig (Z.lnot mask))).

(** ** erts_copy_bits *)

(** [while (count--) { *dst = *src; dst += ddir; src += sdir; }] *)
Fixpoint copy_whole (count : nat) (m : memory) (src sdir dst ddir : Z) : option (memory * Z * Z) :=
  match count with
  | O => Some (m, src, dst)
  | S count' =>
      b ← rd m src; m ← wr m dst b;
      copy_whole count' m (src + sdir) sdir (dst + ddir) ddir
  end.

(** The loop of the shifted copy; [bits] is the last byte read. *)
Fixpoint copy_shifted (count : nat) (m : memory) (src sdir dst ddir bits lshift rshift : Z) : option (memory * Z * Z * Z) :=
  match count with
  | O => Some (m, src, dst, bits)
  | S count' =>
      let bits1 := dig (Z.shiftl bits lshift) in
      bits ← rd m src;
      m ← wr m dst (Z.lor bits1 (Z.shiftr bits rshift));
      copy_shifted count' m (src + sdir) sdir (dst + ddir) ddir bits lshift rshift
  end.

(** All bits of the destination are in one byte. *)
Definition copy_in_byte (m : memory) (src soffs sdir dst doffs n lmask rmask : Z) : option memory :=
  let lmask := if Z.land lmask rmask =? 0 then Z.lor lmask rmask else Z.land lmask rmask in
  if soffs =? doffs then
    b ← rd m src; d ← rd m dst; wr m dst (MASK_BITS b d lmask)
  else if soffs >? doffs then
    b ← rd m src;
    let bits := Z.shiftl b (soffs - doffs) in
    bits ← (if soffs + n >? 8
            then b' ← rd m (src + sdir); Some (Z.lor bits (Z.shiftr b' (8 - (soffs - doffs))))
            else Some bits);
    d ← rd m dst; wr m dst (MASK_BITS bits d lmask)
  else
    b ← rd m src; d ← rd m dst; wr m dst (MASK_BITS (Z.shiftr b (doffs - soffs)) d lmask).

(** The same alignment: whole bytes but for the first and the last. *)
Definition copy_aligned (m : memory) (src sdir dst ddir lmask rmask count : Z) : option memory :=
  '(m, src, dst) ← (if lmask =? 0 then Some (m, src, dst)
                    else b ← rd m src; d ← rd m dst; m ← wr m dst (MASK_BITS b d lmask);
                         Some (m, src + sdir, dst + ddir));
  '(m, src, dst) ← copy_whole (Z.to_nat count) m src sdir dst ddir;
  if rmask =? 0 then Some m
  else b ← rd m src; d ← rd m dst; wr m dst (MASK_BITS b d rmask).

(** Different alignments: every byte of the destination has bits of two bytes of the source. *)
Definition copy_unaligned (m : memory) (src soffs sdir dst doffs ddir n lmask rmask count : Z) : option memory :=
  '(lshift, rshift, bits, src) ← (if soffs >? doffs
     then b ← rd m src; Some (soffs - doffs, 8 - (soffs - doffs), b, if soffs + n >? 8 then src + sdir else src)
     else Some (8 - (doffs - soffs), doffs - soffs, 0, src));
  '(m, src, dst, bits) ← (if lmask =? 0 then Some (m, src, dst, bits)
     else let bits1 := dig (Z.shiftl bits lshift) in
          bits ← rd m src; d ← rd m dst;
          m ← wr m dst (MASK_BITS (Z.lor bits1 (Z.shiftr bits rshift)) d lmask);
          Some (m, src + sdir, dst + ddir, bits));
  '(m, src, dst, bits) ← copy_shifted (Z.to_nat count) m src sdir dst ddir bits lshift rshift;
  if rmask =? 0 then Some m
  else
    let bits1 := dig (Z.shiftl bits lshift) in
    bits1 ← (if Z.land (dig (Z.shiftl rmask rshift)) 255 =? 0 then Some bits1
             else b ← rd m src; Some (Z.lor bits1 (Z.shiftr b rshift)));
    d ← rd m dst; wr m dst (MASK_BITS bits1 d rmask).

Definition erts_copy_bits (m : memory) (src soffs sdir dst doffs ddir n : Z) : option memory :=
  if n =? 0 then Some m
  else
    let src := src + sdir * BYTE_OFFSET soffs in
    let dst := dst + ddir * BYTE_OFFSET doffs in
    let soffs := BIT_OFFSET soffs in
    let doffs := BIT_OFFSET doffs in
    let deoffs := BIT_OFFSET (dig (doffs + n)) in
    let lmask := if doffs =? 0 then 0 else MAKE_MASK (8 - doffs) in
    let rmask := if deoffs =? 0 then 0 else dig (Z.shiftl (MAKE_MASK deoffs) (8 - deoffs)) in
    if dig (doffs + n) <? 8 then copy_in_byte m src soffs sdir dst doffs n lmask rmask
    else
      let count := Z.shiftr (if lmask =? 0 then n else n - (8 - doffs)) 3 in
      if soffs =? doffs then copy_aligned m src sdir dst ddir lmask rmask count
      else copy_unaligned m src soffs sdir dst doffs ddir n lmask rmask count.

(** ** erts_cmp_bits *)
Definition get_bit (b offs : Z) : Z := Z.land (Z.shiftr b (7 - offs)) 1.

(** [memcmp(3)]: the sign of the first difference. *)
Fixpoint sys_memcmp (n : nat) (m : memory) (a b : Z) : option Z :=
  match n with
  | O => Some 0
  | S n' =>
      x ← rd m a; y ← rd m b;
      if x =? y then sys_memcmp n' m (a + 1) (b + 1) else Some (if x <? y then -1 else 1)
  end.

(** The variables of the loops: the current byte and the bit offset in it, and the address behind it. *)
Record cursor := Cursor { cb : Z; c_offs : Z; c_ptr : Z }.

(** [offs++; if (offs == 8) { offs = 0; b = *ptr++; }] *)
Definition next_bit (m : memory) (c : cursor) : option cursor :=
  let offs := c_offs c + 1 in
  if offs =? 8 then b ← rd m (c_ptr c); Some (Cursor b 0 (c_ptr c + 1))
  else Some (Cursor (cb c) offs (c_ptr c)).

(** The outcome of a loop: [return cmp], or the cursors and the size left. *)
Inductive cmp_outcome := CmpReturn (cmp : Z) | CmpGo (a b : cursor) (size : nat).

(** The first loop stops when [a] is at a byte boundary. *)
Fixpoint cmp_head (m : memory) (a b : cursor) (size : nat) : option cmp_outcome :=
  match size with
  | O => Some (CmpGo a b O)
  | S size' =>
      let cmp := get_bit (cb a) (c_offs a) - get_bit (cb b) (c_offs b) in
      if negb (cmp =? 0) then Some (CmpReturn cmp)
      else
        b ← next_bit m b; a ← next_bit m a;
        if c_offs a =? 0 then Some (CmpGo a b size') else cmp_head m a b size'
  end.

(** The loop over whole bytes of [a]; [k] iterations are left while [size >= 8]. *)
Fixpoint cmp_bytes (k : nat) (m : memory) (a b : cursor) (size : nat) (lshift rshift : Z) : option cmp_outcome :=
  match k with
  | O => Some (CmpGo a b size)
  | S k' =>
      let b_cmp := wrap_u 8 (Z.shiftl (cb b) lshift) in
      b' ← rd m (c_ptr b);
      let b_cmp := Z.lor b_cmp (Z.shiftr b' rshift) in
      let cmp := cb a - b_cmp in
      if negb (cmp =? 0) then Some (CmpReturn cmp)
      else
        a' ← rd m (c_ptr a);
        cmp_bytes k' m (Cursor a' (c_offs a) (c_ptr a + 1)) (Cursor b' (c_offs b) (c_ptr b + 1)) (size - 8) lshift rshift
  end.

Fixpoint cmp_tail (m : memory) (a b : cursor) (size : nat) : option Z :=
  match size with
  | O => Some 0
  | S size' =>
      let cmp := get_bit (cb a) (c_offs a) - get_bit (cb b) (c_offs b) in
      if negb (cmp =? 0) then Some cmp
      else a ← next_bit m a; b ← next_bit m b; cmp_tail m a b size'
  end.

Definition erts_cmp_bits (m : memory) (a_ptr a_offs b_ptr b_offs size : Z) : option Z :=
  if Z.land (Z.lor (Z.lor a_offs b_offs) size) 7 =? 0 then
    let byte_size := int32 (Z.shiftr size 3) in sys_memcmp (Z.to_nat (dig byte_size)) m a_ptr b_ptr
  else
    a ← rd m a_ptr; b ← rd m b_ptr;
    o ← cmp_head m (Cursor a a_offs (a_ptr + 1)) (Cursor b b_offs (b_ptr + 1)) (Z.to_nat size);
    match o with
    | CmpReturn cmp => Some cmp
    | CmpGo a b size =>
        let lshift := c_offs b in let rshift := 8 - lshift in
        o ← cmp_bytes (size / 8) m a b size lshift rshift;
        match o with
        | CmpReturn cmp => Some cmp
        | CmpGo a b size => cmp_tail m a b size
        end
    end.
End Bits.
