(* ===== verification/BitsSpec.v ===== *)
(** What a bit string in memory is, and the bit copy of [Bits.v]: [erts_copy_bits] moves exactly the bits asked for, for every
    alignment and direction. *)

From Stdlib Require Import ZArith ZifyBool.
From stdpp Require Import base list numbers option gmap.
From S2P Require Import Prelude Big BigSpec BigBitsSpec BigTerm AllocMem Bits.
Local Open Scope Z_scope.
Ltac Zify.zify_post_hook ::= Z.to_euclidean_division_equations.

(** Bit [k] of the buffer at [p]. *)
Definition bit (m : memory) (p dir k : Z) : bool :=
  match m !! (p + dir * (k / 8)) with Some b => Z.testbit b (7 - k mod 8) | None => false end.

(** The [n] bits from bit [off] on. *)
Definition field (m : memory) (p dir off n : Z) : list bool := (λ k, bit m p dir (off + k)) <$> seqZ 0 n.

(** Memory holds bytes. *)
Definition bytes_mem (m : memory) : Prop := ∀ a b, m !! a = Some b → is_byte b.

(** The bytes of the bits from [off] to [off + n] are mapped. *)
Definition bits_mapped (m : memory) (p dir off n : Z) : Prop := ∀ k, off ≤ k < off + n → is_Some (m !! (p + dir * (k / 8))).

(** No byte has bits of both fields. *)
Definition bits_apart (p dir off n p' dir' off' n' : Z) : Prop :=
  ∀ j k, off ≤ j < off + n → off' ≤ k < off' + n' → p + dir * (j / 8) ≠ p' + dir' * (k / 8).

(** The same addresses are mapped, and bytes are only different in the field. *)
Definition same_but (m m' : memory) (p dir off n : Z) : Prop :=
  (∀ a, is_Some (m' !! a) ↔ is_Some (m !! a)) ∧
  (∀ a, (∀ k, off ≤ k < off + n → a ≠ p + dir * (k / 8)) → m' !! a = m !! a).

Ltac dm8 k := pose proof (Z.div_mod k 8 ltac:(lia)); pose proof (Z.mod_pos_bound k 8 ltac:(lia)).

(** Cases on a test in the goal, which leaves the hypotheses as they are. *)
Ltac eqb_cases x y H :=
  destruct (decide (x = y)) as [H|H]; [rewrite (proj2 (Z.eqb_eq x y) H)|rewrite (proj2 (Z.eqb_neq x y) H)].

Section BitLemmas.
Context {dw : DigitWidth}.

Lemma BYTE_OFFSET_eq k : BYTE_OFFSET k = k / 8.
Proof. unfold BYTE_OFFSET. by rewrite Z.shiftr_div_pow2 by lia. Qed.
Lemma BIT_OFFSET_eq k : BIT_OFFSET k = k mod 8.
Proof. exact (Z.land_ones k 3 ltac:(lia)). Qed.

Lemma NBYTES_eq n : 0 ≤ n → n + 7 < D_BASE → NBYTES n = (n + 7) / 8.
Proof. intros. unfold NBYTES. rewrite dig_small, Z.shiftr_div_pow2 by (unfold is_digit; lia). done. Qed.

Lemma byte_bit X i b : 0 ≤ i → 0 ≤ b < 8 → Z.testbit ((X / 256 ^ i) mod 256) b = Z.testbit X (8 * i + b).
Proof.
  intros Hi Hb. change 256 with (2 ^ 8) at 2. rewrite Z.mod_pow2_bits_low by lia. change 256 with (2 ^ 8). rewrite <- Z.pow_mul_r by lia.
  rewrite <- Z.shiftr_div_pow2, Z.shiftr_spec by lia. f_equal. lia.
Qed.
Lemma mul_pow2_bits X s j : 0 ≤ s → Z.testbit (X * 2 ^ s) j = Z.testbit X (j - s).
Proof. intros. by rewrite Z.mul_pow2_bits by lia. Qed.

Lemma testbit_dig z i : 0 ≤ i < D_EXP → Z.testbit (dig z) i = Z.testbit z i.
Proof. intros H. unfold dig, D_BASE. by rewrite Z.mod_pow2_bits_low by lia. Qed.
Lemma testbit_byte_high b i : is_byte b → 8 ≤ i → Z.testbit b i = false.
Proof. intros H Hi. rewrite <- (Z.mod_small b (2 ^ 8)) by exact H. by rewrite Z.mod_pow2_bits_high by lia. Qed.

Lemma MAKE_MASK_bits n i : 0 ≤ n < D_EXP → 0 ≤ i < D_EXP → Z.testbit (MAKE_MASK n) i = (i <? n).
Proof.
  intros Hn Hi. unfold MAKE_MASK. rewrite testbit_dig by lia.
  assert (dig (Z.shiftl 1 n) = 2 ^ n) as ->.
  { rewrite Z.shiftl_1_l. apply dig_small. split; [|apply Z.pow_lt_mono_r]; lia. }
  rewrite Z.sub_1_r, <- Z.ones_equiv, Z.testbit_ones_nonneg by lia. done.
Qed.

Lemma wrap_u8_byte v : is_byte (wrap_u 8 v).
Proof. unfold wrap_u, is_byte. apply Z.mod_pos_bound. done. Qed.
Lemma wrap_u8_bits v i : 0 ≤ i < 8 → Z.testbit (wrap_u 8 v) i = Z.testbit v i.
Proof. intros. unfold wrap_u. by rewrite Z.mod_pow2_bits_low by lia. Qed.
Lemma wrap_u8_id v : is_byte v → wrap_u 8 v = v.
Proof. intros. apply wrap_u_small. done. Qed.

Lemma wr_ok m p v : is_Some (m !! p) → wr m p v = Some (<[p := wrap_u 8 v]> m).
Proof. unfold wr. by intros [? ->]. Qed.

Lemma MASK_BITS_bits s d mask i : 0 ≤ i < D_EXP →
  Z.testbit (MASK_BITS s d mask) i = if Z.testbit mask i then Z.testbit s i else Z.testbit d i.
Proof.
  intros H. unfold MASK_BITS. rewrite Z.lor_spec, !Z.land_spec, testbit_dig, Z.lnot_spec by lia.
  destruct (Z.testbit mask i), (Z.testbit s i), (Z.testbit d i); done.
Qed.

Lemma bytes_mem_insert m p v : bytes_mem m → bytes_mem (<[p := wrap_u 8 v]> m).
Proof.
  intros B a b. destruct (decide (a = p)) as [->|N]; [rewrite lookup_insert_eq|rewrite lookup_insert_ne by done; apply B].
  intros [= <-]. apply wrap_u8_byte.
Qed.

(** Bytes with the same bits are the same. *)
Lemma byte_eq a b : is_byte a → is_byte b → (∀ i, 0 ≤ i < 8 → Z.testbit a i = Z.testbit b i) → a = b.
Proof.
  intros Ha Hb H. apply Z.bits_inj'. intros i Hi. destruct (Z.lt_ge_cases i 8); [by apply H; lia|].
  by rewrite !testbit_byte_high by (done || lia).
Qed.

(** ** Fields *)
Lemma length_field m p dir off n : length (field m p dir off n) = Z.to_nat n.
Proof. unfold field. by rewrite length_fmap, length_seqZ. Qed.

Lemma field_lookup m p dir off n k : 0 ≤ k < n → field m p dir off n !! Z.to_nat k = Some (bit m p dir (off + k)).
Proof.
  intros H. unfold field. rewrite list_lookup_fmap, (proj2 (lookup_seqZ 0 n (Z.to_nat k) k)) by lia. done.
Qed.

Lemma field_ext m p dir off m' p' dir' off' n :
  (∀ k, 0 ≤ k < n → bit m p dir (off + k) = bit m' p' dir' (off' + k)) → field m p dir off n = field m' p' dir' off' n.
Proof. intros H. unfold field. apply list_fmap_ext. intros i k [-> Hi]%lookup_seqZ. apply H. lia. Qed.

Lemma field_ext_inv m p dir off m' p' dir' off' n k :
  field m p dir off n = field m' p' dir' off' n → 0 ≤ k < n → bit m p dir (off + k) = bit m' p' dir' (off' + k).
Proof. intros E Hk. apply (f_equal (λ l, l !! Z.to_nat k)) in E. rewrite !field_lookup in E by done. by injection E. Qed.

Lemma field_app m p dir off n1 n2 : 0 ≤ n1 → 0 ≤ n2 → field m p dir off (n1 + n2) = field m p dir off n1 ++ field m p dir (off + n1) n2.
Proof.
  intros H1 H2. unfold field. rewrite seqZ_app by lia. rewrite fmap_app. f_equal.
  rewrite <- (Z.add_0_r (0 + n1)), <- fmap_add_seqZ, <- list_fmap_compose. apply list_fmap_ext. intros i x _. cbn. f_equal. lia.
Qed.

Lemma same_but_refl m p dir off n : same_but m m p dir off n.
Proof. split; done. Qed.
Lemma same_but_trans m1 m2 m3 p dir off n : same_but m1 m2 p dir off n → same_but m2 m3 p dir off n → same_but m1 m3 p dir off n.
Proof. intros [D1 H1] [D2 H2]. split; [intros a; by rewrite D2|]. intros a Ha. by rewrite H2, H1. Qed.
Lemma same_but_wr m p dir off n k v : off ≤ k < off + n → is_Some (m !! (p + dir * (k / 8))) →
  same_but m (<[p + dir * (k / 8) := v]> m) p dir off n.
Proof.
  intros Hk HS. split; intros a.
  - destruct (decide (a = p + dir * (k / 8))) as [->|N]; [rewrite lookup_insert_eq|by rewrite lookup_insert_ne]. split; done.
  - intros Ha. apply lookup_insert_ne. intros E. by apply (Ha k).
Qed.
Lemma same_but_mapped m m' p dir off n q d o l : same_but m m' p dir off n → bits_mapped m q d o l → bits_mapped m' q d o l.
Proof. intros [D _] H k Hk. apply D, H, Hk. Qed.

(** Fields in other bytes are kept. *)
Lemma same_but_bit m m' p dir off n q d k : same_but m m' p dir off n →
  (∀ j, off ≤ j < off + n → q + d * (k / 8) ≠ p + dir * (j / 8)) → bit m' q d k = bit m q d k.
Proof. intros [_ H] A. unfold bit. by rewrite H. Qed.

(** In one buffer the byte is the index of the bit divided by 8. *)
Lemma same_byte (p dir j k : Z) : dir ≠ 0 → p + dir * (j / 8) = p + dir * (k / 8) → j / 8 = k / 8.
Proof. nia. Qed.

(** ** Copying *)

(** The state of a copy that has stored the destination bits below [P]. *)
Section Copying.
Variables (m0 : memory) (src soffs sdir dst doffs ddir n : Z).
Hypothesis (B0 : bytes_mem m0) (Hdir : ddir ≠ 0).
Hypothesis (Hs : 0 ≤ soffs < 8) (Hd : 0 ≤ doffs < 8) (Hn : 0 < n) (Hfit : doffs + n < D_BASE).
Hypothesis (HS : bits_mapped m0 src sdir soffs n) (HD : bits_mapped m0 dst ddir doffs n).
Hypothesis (HA : bits_apart src sdir soffs n dst ddir doffs n).

Definition copied (m : memory) (P : Z) : Prop :=
  bytes_mem m ∧ same_but m0 m dst ddir doffs n ∧
  ∀ k, bit m dst ddir k = if bool_decide (doffs ≤ k < P) then bit m0 src sdir (soffs + (k - doffs)) else bit m0 dst ddir k.

Lemma copied_start : copied m0 doffs.
Proof. split; [done|]. split; [apply same_but_refl|]. intros k. by rewrite bool_decide_eq_false_2 by lia. Qed.

(** The byte with source bit [j] while the copy goes on. *)
Lemma copied_src m P j : copied m P → soffs ≤ j < soffs + n →
  ∃ b, m !! (src + sdir * (j / 8)) = Some b ∧ m0 !! (src + sdir * (j / 8)) = Some b ∧ is_byte b.
Proof.
  intros (_ & [_ H] & _) Hj. destruct (HS j Hj) as [b Hb]. exists b. split; [|by split; [|apply (B0 _ _ Hb)]].
  rewrite H; [done|]. intros k Hk. by apply HA.
Qed.
Lemma copied_dst m P k : copied m P → doffs ≤ k < doffs + n → ∃ d, m !! (dst + ddir * (k / 8)) = Some d ∧ is_byte d.
Proof. intros (B & [D _] & _) Hk. destruct (proj2 (D _) (HD k Hk)) as [d E]. eauto. Qed.

Lemma src_bit j b : m0 !! (src + sdir * (j / 8)) = Some b → bit m0 src sdir j = Z.testbit b (7 - j mod 8).
Proof. intros E. unfold bit. by rewrite E. Qed.

(** Storing the byte with the destination bits from [P] to [P']. *)
Lemma copied_step m P P' v : copied m P → doffs ≤ P < P' → P' ≤ doffs + n → (P' - 1) / 8 = P / 8 →
  (∀ k, k / 8 = P / 8 → Z.testbit v (7 - k mod 8) =
     if bool_decide (P ≤ k < P') then bit m0 src sdir (soffs + (k - doffs)) else bit m dst ddir k) →
  ∃ m', wr m (dst + ddir * (P / 8)) v = Some m' ∧ copied m' P'.
Proof.
  intros C HP HP' HB HV. destruct (copied_dst m P P C) as (d & Ed & _); [lia|]. rewrite wr_ok by eauto. eexists. split; [reflexivity|].
  destruct C as (B & S & K). split; [by apply bytes_mem_insert|]. split.
  { eapply same_but_trans; [done|]. apply same_but_wr; [lia|eauto]. }
  intros k. unfold bit at 1. destruct (decide (k / 8 = P / 8)) as [E|E].
  - dm8 k. rewrite E, lookup_insert_eq, wrap_u8_bits, HV by (done || lia). dm8 P. dm8 (P' - 1).
    rewrite K. repeat case_bool_decide; (done || lia).
  - rewrite lookup_insert_ne by (intros ?%same_byte; [congruence|done]). fold (bit m dst ddir k). rewrite K.
    dm8 k. dm8 P. dm8 (P' - 1). case_bool_decide as C1; case_bool_decide as C2; (done || lia).
Qed.

(** The masks select the bits of the first and of the last byte. *)
Lemma lmask_bits b : 0 ≤ b < 8 → 0 < doffs → Z.testbit (MAKE_MASK (8 - doffs)) (7 - b) = bool_decide (doffs ≤ b).
Proof. intros. pose proof D_EXP_ge. rewrite MAKE_MASK_bits by lia. case_bool_decide; lia. Qed.
Lemma rmask_bits deoffs b : 0 ≤ b < 8 → 0 < deoffs < 8 →
  Z.testbit (dig (Z.shiftl (MAKE_MASK deoffs) (8 - deoffs))) (7 - b) = bool_decide (b < deoffs).
Proof.
  intros. pose proof D_EXP_ge. rewrite testbit_dig, Z.shiftl_spec by lia. case_bool_decide.
  - rewrite MAKE_MASK_bits by lia. lia.
  - apply Z.testbit_neg_r. lia.
Qed.
Lemma lmask_zero : 0 < doffs → (MAKE_MASK (8 - doffs) =? 0) = false.
Proof.
  intros H. apply Z.eqb_neq. intros E. pose proof (lmask_bits 7 ltac:(lia) H) as T. rewrite E, Z.testbit_0_l in T.
  rewrite bool_decide_eq_true_2 in T by lia. done.
Qed.
Lemma rmask_zero deoffs : 0 < deoffs < 8 → (dig (Z.shiftl (MAKE_MASK deoffs) (8 - deoffs)) =? 0) = false.
Proof.
  intros H. apply Z.eqb_neq. intros E. pose proof (rmask_bits deoffs 0 ltac:(lia) H) as T. rewrite E, Z.testbit_0_l in T.
  rewrite bool_decide_eq_true_2 in T by lia. done.
Qed.

(** A masked store of the bits from [P] to [P']. *)
Lemma copied_mask m P P' v mask : copied m P → doffs ≤ P < P' → P' ≤ doffs + n → (P' - 1) / 8 = P / 8 →
  (∀ k, k / 8 = P / 8 → Z.testbit mask (7 - k mod 8) = bool_decide (P ≤ k < P')) →
  (∀ k, k / 8 = P / 8 → P ≤ k < P' → Z.testbit v (7 - k mod 8) = bit m0 src sdir (soffs + (k - doffs))) →
  ∃ d m', rd m (dst + ddir * (P / 8)) = Some d ∧ wr m (dst + ddir * (P / 8)) (MASK_BITS v d mask) = Some m' ∧ copied m' P'.
Proof.
  intros C HP HP' HB HM HV. destruct (copied_dst m P P C) as (d & Ed & _); [lia|]. exists d.
  destruct (copied_step m P P' (MASK_BITS v d mask) C HP HP' HB) as (m' & E & C'); [|by exists m'].
  intros k Hk. dm8 k. pose proof D_EXP_ge. rewrite MASK_BITS_bits, HM by lia. case_bool_decide as Hin; [by apply HV|].
  unfold bit. by rewrite Hk, Ed.
Qed.

(** A source byte shifted into position: destination bit [k] is the bit [k mod 8 + L] of the bytes [b1], [b2]. *)
Lemma shifted_bit b1 b2 L b : is_byte b1 → is_byte b2 → 0 < L < 8 → 0 ≤ b < 8 →
  Z.testbit (Z.lor (dig (Z.shiftl b1 L)) (Z.shiftr b2 (8 - L))) (7 - b) =
  if b + L <? 8 then Z.testbit b1 (7 - (b + L)) else Z.testbit b2 (7 - (b + L - 8)).
Proof.
  intros H1 H2 HL Hb. pose proof D_EXP_ge. rewrite Z.lor_spec, testbit_dig, Z.shiftl_spec, Z.shiftr_spec by lia.
  destruct (Z.ltb_spec (b + L) 8).
  - rewrite (testbit_byte_high b2) by (done || lia). rewrite orb_false_r. f_equal. lia.
  - rewrite (Z.testbit_neg_r b1) by lia. cbn. f_equal. lia.
Qed.

(** The variables of the code: the end, the bits in the last byte, the masks, the first whole byte and the number of whole bytes. *)
Variables (E deoffs lmask rmask q0 count : Z).
Hypothesis (E_eq : E = doffs + n) (deoffs_eq : deoffs = E mod 8).
Hypothesis (lmask_eq : lmask = if doffs =? 0 then 0 else MAKE_MASK (8 - doffs)).
Hypothesis (rmask_eq : rmask = if deoffs =? 0 then 0 else dig (Z.shiftl (MAKE_MASK deoffs) (8 - deoffs))).
Hypothesis (q0_eq : q0 = if doffs =? 0 then 0 else 1) (count_eq : count = (E - 8 * q0) / 8).

(** *** The same alignment *)
Lemma src_bit_aligned k b : soffs = doffs → m0 !! (src + sdir * (k / 8)) = Some b →
  Z.testbit b (7 - k mod 8) = bit m0 src sdir (soffs + (k - doffs)).
Proof. intros HE Eb. replace (soffs + (k - doffs)) with k by lia. symmetry. by apply src_bit. Qed.

Lemma copy_whole_spec c : soffs = doffs → ∀ m q, copied m (8 * q) → doffs ≤ 8 * q → 8 * (q + Z.of_nat c) ≤ E →
  ∃ m', copy_whole c m (src + sdir * q) sdir (dst + ddir * q) ddir =
    Some (m', src + sdir * (q + Z.of_nat c), dst + ddir * (q + Z.of_nat c)) ∧ copied m' (8 * (q + Z.of_nat c)).
Proof.
  intros HE. induction c as [|c IH]; intros m q C Hq HE'; cbn [copy_whole].
  { rewrite Z.add_0_r. eauto. }
  destruct (copied_src m (8 * q) (8 * q) C) as (b & E1 & E0 & Bb); [lia|].
  replace (8 * q / 8) with q in E1, E0 by lia. unfold rd. rewrite E1. cbn [mbind option_bind].
  destruct (copied_step m (8 * q) (8 * (q + 1)) b C) as (m' & Ew & C'); [lia|lia|lia| |].
  { intros k Hk. replace (8 * q / 8) with q in Hk by lia. dm8 k. rewrite bool_decide_eq_true_2 by lia. apply src_bit_aligned; [done|].
    by rewrite Hk. }
  replace (8 * q / 8) with q in Ew by lia. rewrite Ew. cbn [mbind option_bind].
  replace (src + sdir * q + sdir) with (src + sdir * (q + 1)) by lia. replace (dst + ddir * q + ddir) with (dst + ddir * (q + 1)) by lia.
  replace (q + Z.of_nat (S c)) with (q + 1 + Z.of_nat c) in * by lia. apply IH; [done|lia..].
Qed.

Lemma q0_spec : 0 ≤ q0 ≤ 1 ∧ doffs ≤ 8 * q0 ∧ (q0 = 0 ↔ doffs = 0).
Proof. rewrite q0_eq. destruct (Z.eqb_spec doffs 0); lia. Qed.
Lemma count_spec : 8 ≤ E → 0 ≤ count ∧ E = 8 * (q0 + count) + deoffs ∧ 0 ≤ deoffs < 8.
Proof. intros H. pose proof q0_spec. rewrite count_eq, deoffs_eq. dm8 E. dm8 (E - 8 * q0). lia. Qed.

(** The last byte, with [deoffs] bits. *)
Lemma rmask_last k : 8 ≤ E → 0 < deoffs → k / 8 = q0 + count →
  Z.testbit rmask (7 - k mod 8) = bool_decide (8 * (q0 + count) ≤ k < E).
Proof.
  intros H8 Hde Hk. destruct (count_spec H8) as (? & ? & ?). dm8 k. rewrite rmask_eq. rewrite (proj2 (Z.eqb_neq deoffs 0)) by lia.
  rewrite rmask_bits by lia. apply bool_decide_ext. lia.
Qed.
Lemma lmask_first k : 0 < doffs → k / 8 = 0 → Z.testbit lmask (7 - k mod 8) = bool_decide (doffs ≤ k < 8).
Proof.
  intros H Hk. dm8 k. rewrite lmask_eq. rewrite (proj2 (Z.eqb_neq doffs 0)) by lia. rewrite lmask_bits by lia. apply bool_decide_ext. lia.
Qed.
Lemma lmask_test : (lmask =? 0) = (doffs =? 0).
Proof. rewrite lmask_eq. destruct (Z.eqb_spec doffs 0); [done|]. apply lmask_zero. lia. Qed.
Lemma rmask_test : (rmask =? 0) = (deoffs =? 0).
Proof. rewrite rmask_eq. destruct (Z.eqb_spec deoffs 0); [done|]. dm8 E. apply rmask_zero. lia. Qed.

Lemma copy_aligned_spec : soffs = doffs → 8 ≤ E → ∃ m', copy_aligned m0 src sdir dst ddir lmask rmask count = Some m' ∧ copied m' E.
Proof.
  intros HE H8. unfold copy_aligned. rewrite lmask_test, rmask_test. destruct q0_spec as (Hq & Hq' & _). destruct (count_spec H8) as (Hc & HEq & Hde).
  assert (∃ m1, (if doffs =? 0 then Some (m0, src, dst)
     else b ← rd m0 src; d ← rd m0 dst; m ← wr m0 dst (MASK_BITS b d lmask); Some (m, src + sdir, dst + ddir)) =
     Some (m1, src + sdir * q0, dst + ddir * q0) ∧ copied m1 (8 * q0)) as (m1 & -> & C1).
  { rewrite q0_eq. eqb_cases doffs 0 Hdo; [rewrite !Z.mul_0_r, !Z.add_0_r; eexists; split; [done|]; replace 0 with doffs by lia; apply copied_start|].
    destruct (copied_src m0 doffs doffs copied_start) as (b & E1 & _ & _); [lia|]. replace (doffs / 8) with 0 in E1 by lia.
    destruct (copied_mask m0 doffs 8 b lmask copied_start) as (d & m1 & Ed & Ew & C); [lia|lia|lia| | |].
    { intros k Hk. apply lmask_first; lia. }
    { intros k Hk _. apply src_bit_aligned; [done|]. by replace (k / 8) with 0 by lia. }
    unfold rd in *. rewrite Z.mul_0_r, !Z.add_0_r in *. replace (doffs / 8) with 0 in * by lia. rewrite Z.mul_0_r, !Z.add_0_r in *.
    rewrite E1. cbn [mbind option_bind]. rewrite Ed. cbn [mbind option_bind]. rewrite Ew. cbn [mbind option_bind].
    exists m1. rewrite !Z.mul_1_r. done. }
  cbn [mbind option_bind]. destruct (copy_whole_spec (Z.to_nat count) HE m1 q0 C1) as (m2 & E2 & C2); [lia..|].
  rewrite Z2Nat.id in * by lia. rewrite E2. cbn [mbind option_bind]. eqb_cases deoffs 0 Hdo; [exists m2; split; [done|]; by replace E with (8 * (q0 + count)) by lia|].
  set (P := 8 * (q0 + count)) in *. assert (P / 8 = q0 + count) as EP by lia.
  destruct (copied_src m2 P P C2) as (b & E1 & E0 & _); [lia|].
  destruct (copied_mask m2 P E b rmask C2) as (d & m3 & Ed & Ew & C3); [lia|lia|lia| | |].
  { intros k Hk. apply rmask_last; lia. }
  { intros k Hk _. apply src_bit_aligned; [done|]. by rewrite Hk. }
  rewrite EP in *. unfold rd in *. rewrite E1. cbn [mbind option_bind]. rewrite Ed. cbn [mbind option_bind]. rewrite Ew. eauto.
Qed.

(** The mask of a copy inside one byte. *)
Lemma in_mask k : E < 8 → k / 8 = 0 →
  Z.testbit (if Z.land lmask rmask =? 0 then Z.lor lmask rmask else Z.land lmask rmask) (7 - k mod 8) = bool_decide (doffs ≤ k < E).
Proof.
  intros HE Hk. dm8 k. assert (deoffs = E) as Hde by (rewrite deoffs_eq; lia).
  assert (∀ b, 0 ≤ b < 8 → Z.testbit rmask (7 - b) = bool_decide (b < E)) as TR.
  { intros b Hb. rewrite rmask_eq. eqb_cases deoffs 0 Hz; [lia|]. rewrite rmask_bits by lia. by rewrite Hde. }
  rewrite lmask_eq. eqb_cases doffs 0 Hz.
  - rewrite Z.land_0_l, Z.lor_0_l. cbn [Z.eqb]. rewrite TR by lia. apply bool_decide_ext. lia.
  - eqb_cases (Z.land (MAKE_MASK (8 - doffs)) rmask) 0 Hm.
    + exfalso. pose proof (f_equal (λ z, Z.testbit z (7 - doffs)) Hm) as T. cbn beta in T.
      rewrite Z.land_spec, lmask_bits, TR, Z.testbit_0_l, !bool_decide_eq_true_2 in T by lia. done.
    + rewrite Z.land_spec, lmask_bits, TR by lia. repeat case_bool_decide; (done || lia).
Qed.

(** A masked store of all bits, in the first byte of the destination. *)
Lemma copied_in_byte v : E < 8 → (∀ k, k / 8 = 0 → doffs ≤ k < E → Z.testbit v (7 - k mod 8) = bit m0 src sdir (soffs + (k - doffs))) →
  ∃ d m', rd m0 dst = Some d ∧
    wr m0 dst (MASK_BITS v d (if Z.land lmask rmask =? 0 then Z.lor lmask rmask else Z.land lmask rmask)) = Some m' ∧ copied m' E.
Proof.
  intros HE HV. destruct (copied_mask m0 doffs E v _ copied_start ltac:(lia) ltac:(lia) ltac:(lia)
    (λ k Hk, in_mask k HE ltac:(lia))) as (d & m' & Ed & Ew & C); [intros; apply HV; lia|].
  replace (doffs / 8) with 0 in * by lia. rewrite Z.mul_0_r, Z.add_0_r in *. eauto.
Qed.

(** The first byte of the source. *)
Lemma src_first : ∃ b, rd m0 src = Some b ∧ m0 !! src = Some b ∧ is_byte b.
Proof.
  destruct (HS soffs ltac:(lia)) as [b Eb]. replace (soffs / 8) with 0 in Eb by lia. rewrite Z.mul_0_r, Z.add_0_r in Eb.
  exists b. split; [done|]. split; [done|]. by apply (B0 _ _ Eb).
Qed.

Lemma copy_in_byte_aligned : soffs = doffs → E < 8 → ∃ m', copy_in_byte m0 src soffs sdir dst doffs n lmask rmask = Some m' ∧ copied m' E.
Proof.
  intros HE H8. unfold copy_in_byte. rewrite (proj2 (Z.eqb_eq _ _) HE). destruct src_first as (b & Eb & E0 & _). rewrite Eb. cbn [mbind option_bind].
  destruct (copied_in_byte b H8) as (d & m' & Ed & Ew & C).
  { intros k Hk Hin. apply src_bit_aligned; [done|]. by rewrite Hk, Z.mul_0_r, Z.add_0_r. }
  rewrite Ed. cbn [mbind option_bind]. rewrite Ew. eauto.
Qed.

(** *** Different alignments *)
Variables (L e : Z).
Hypothesis (L_e : soffs - doffs = 8 * e + L) (HL : 0 < L < 8).

Lemma src_bit_shifted k b1 b2 : is_byte b1 → is_byte b2 →
  (k mod 8 + L < 8 → m0 !! (src + sdir * (k / 8 + e)) = Some b1) →
  (8 ≤ k mod 8 + L → m0 !! (src + sdir * (k / 8 + e + 1)) = Some b2) →
  Z.testbit (Z.lor (dig (Z.shiftl b1 L)) (Z.shiftr b2 (8 - L))) (7 - k mod 8) = bit m0 src sdir (soffs + (k - doffs)).
Proof.
  intros B1 B2 H1 H2. dm8 k. rewrite shifted_bit by (done || lia). set (j := soffs + (k - doffs)).
  destruct (Z.ltb_spec (k mod 8 + L) 8) as [Hlt|Hge].
  - rewrite (src_bit j b1); [f_equal; subst j; lia|]. rewrite <- H1 by lia. do 3 f_equal. subst j; lia.
  - rewrite (src_bit j b2); [f_equal; subst j; lia|]. rewrite <- H2 by lia. do 3 f_equal. subst j; lia.
Qed.

(** The byte read for the destination bit [k], which is the last one of its byte that is copied. *)
Lemma read_next m P k : copied m P → doffs ≤ k < E → 8 ≤ k mod 8 + L →
  ∃ b, rd m (src + sdir * (k / 8 + e + 1)) = Some b ∧ m0 !! (src + sdir * (k / 8 + e + 1)) = Some b ∧ is_byte b.
Proof.
  intros C Hk HkL. destruct (copied_src m P (soffs + (k - doffs)) C) as (b & E1 & E2 & B); [lia|].
  replace ((soffs + (k - doffs)) / 8) with (k / 8 + e + 1) in * by lia. eauto.
Qed.

Lemma copy_shifted_spec c : ∀ m q bits, copied m (8 * q) → doffs ≤ 8 * q → 8 * (q + Z.of_nat c) ≤ E →
  m0 !! (src + sdir * (q + e)) = Some bits → is_byte bits →
  ∃ m' bits', copy_shifted c m (src + sdir * (q + e + 1)) sdir (dst + ddir * q) ddir bits L (8 - L) =
    Some (m', src + sdir * (q + Z.of_nat c + e + 1), dst + ddir * (q + Z.of_nat c), bits') ∧
    copied m' (8 * (q + Z.of_nat c)) ∧ m0 !! (src + sdir * (q + Z.of_nat c + e)) = Some bits' ∧ is_byte bits'.
Proof.
  induction c as [|c IH]; intros m q bits C Hq HE Hb Bb; cbn [copy_shifted].
  { rewrite Z.add_0_r. eauto 10. }
  destruct (read_next m (8 * q) (8 * q + 7) C) as (b & E1 & E0 & B); [lia|lia|].
  replace ((8 * q + 7) / 8) with q in E1, E0 by lia. rewrite E1. cbn [mbind option_bind].
  destruct (copied_step m (8 * q) (8 * (q + 1)) (Z.lor (dig (Z.shiftl bits L)) (Z.shiftr b (8 - L))) C) as (m' & Ew & C'); [lia..| |].
  { intros k Hk. dm8 k. rewrite bool_decide_eq_true_2 by lia. apply src_bit_shifted; [done..| |]; intros _;
      replace (k / 8) with q by lia; done. }
  replace (8 * q / 8) with q in Ew by lia. rewrite Ew. cbn [mbind option_bind].
  replace (src + sdir * (q + e + 1) + sdir) with (src + sdir * (q + 1 + e + 1)) by lia.
  replace (dst + ddir * q + ddir) with (dst + ddir * (q + 1)) by lia.
  replace (q + Z.of_nat (S c)) with (q + 1 + Z.of_nat c) in * by lia. apply IH; [done|lia|lia| |done]. by replace (q + 1 + e) with (q + e + 1) by lia.
Qed.

(** The first byte, when it is not whole: [bits] is 0 when the source has nothing before the first bit. *)
Lemma shifted_head bits : is_byte bits → (e = 0 → m0 !! src = Some bits) → 8 ≤ E → e = 0 ∨ e = -1 → (doffs = 0 → e = 0) →
  ∃ m1 bits1, (if doffs =? 0 then Some (m0, src + sdir * (e + 1), dst, bits)
     else let bits1 := dig (Z.shiftl bits L) in
          bits ← rd m0 (src + sdir * (e + 1)); d ← rd m0 dst;
          m ← wr m0 dst (MASK_BITS (Z.lor bits1 (Z.shiftr bits (8 - L))) d lmask);
          Some (m, src + sdir * (e + 1) + sdir, dst + ddir, bits)) =
     Some (m1, src + sdir * (q0 + e + 1), dst + ddir * q0, bits1) ∧ copied m1 (8 * q0) ∧
     m0 !! (src + sdir * (q0 + e)) = Some bits1 ∧ is_byte bits1.
Proof.
  intros Bb Hb H8 He Hd0. rewrite q0_eq. eqb_cases doffs 0 Hdo.
  { exists m0, bits. rewrite Z.mul_0_r, !Z.add_0_r, !Z.add_0_l. split; [done|]. split; [replace (8 * 0) with doffs by lia; apply copied_start|].
    rewrite Hd0, Z.mul_0_r, Z.add_0_r by done. auto. }
  destruct (read_next m0 doffs 7 copied_start) as (b & E1 & E0 & B); [lia|lia|]. replace (7 / 8 + e + 1) with (e + 1) in * by lia.
  rewrite E1. cbn [mbind option_bind].
  destruct (copied_mask m0 doffs 8 (Z.lor (dig (Z.shiftl bits L)) (Z.shiftr b (8 - L))) lmask copied_start) as (d & m1 & Ed & Ew & C); [lia|lia|lia| | |].
  { intros k Hk. apply lmask_first; lia. }
  { intros k Hk Hin. dm8 k. apply src_bit_shifted; [done..| |]; intros HkL; replace (k / 8) with 0 by lia.
    - assert (e = 0) as -> by lia. rewrite Z.add_0_l, Z.mul_0_r, Z.add_0_r. auto.
    - done. }
  replace (doffs / 8) with 0 in * by lia. rewrite Z.mul_0_r, Z.add_0_r in Ed, Ew. rewrite Ed. cbn [mbind option_bind]. rewrite Ew. cbn [mbind option_bind].
  exists m1, b. rewrite Z.mul_1_r, Z.mul_1_r. replace (src + sdir * (1 + e + 1)) with (src + sdir * (e + 1) + sdir) by lia.
  replace (1 + e) with (e + 1) by lia. done.
Qed.

(** The second byte is read for the last bits when the first has not all of them. *)
Lemma rmask_rest : 8 ≤ E → 0 < deoffs → (Z.land (dig (Z.shiftl rmask (8 - L))) 255 =? 0) = (deoffs <=? 8 - L).
Proof.
  intros H8 Hde. pose proof D_EXP_ge. assert (∀ i, 0 ≤ i < 8 → Z.testbit (Z.land (dig (Z.shiftl rmask (8 - L))) 255) i =
    bool_decide (8 - deoffs ≤ i - (8 - L))) as T.
  { intros i Hi. rewrite Z.land_spec, testbit_dig, Z.shiftl_spec by lia. change 255 with (Z.ones 8). rewrite Z.ones_spec_low, andb_true_r by lia.
    destruct (count_spec H8) as (_ & _ & Hd8). destruct (Z.lt_ge_cases (i - (8 - L)) 0).
    - rewrite Z.testbit_neg_r, bool_decide_eq_false_2 by lia. done.
    - rewrite rmask_eq. eqb_cases deoffs 0 Hz; [lia|].
      pose proof (rmask_bits deoffs (7 - (i - (8 - L))) ltac:(lia) ltac:(lia)) as R.
      replace (7 - (7 - (i - (8 - L)))) with (i - (8 - L)) in R by lia. rewrite R. apply bool_decide_ext. lia. }
  destruct (Z.leb_spec deoffs (8 - L)) as [Hle|Hgt].
  - apply Z.eqb_eq, byte_eq; [apply is_byte_land|unfold is_byte; lia|]. intros i Hi. rewrite T, bool_decide_eq_false_2, Z.testbit_0_l by lia. done.
  - apply Z.eqb_neq. intros Ez. specialize (T 7 ltac:(lia)). rewrite Ez, Z.testbit_0_l, bool_decide_eq_true_2 in T by lia. done.
Qed.

Lemma shiftl_byte b : is_byte b → dig (Z.shiftl b L) = Z.shiftl b L.
Proof.
  intros Hb. pose proof D_EXP_ge. apply dig_small. unfold is_digit, is_byte, D_BASE in *. rewrite Z.shiftl_mul_pow2 by lia.
  assert (1 ≤ 2 ^ L ≤ 2 ^ 8) by (split; [apply (Z.pow_le_mono_r 2 0)|apply Z.pow_le_mono_r]; lia).
  assert (2 ^ 16 < 2 ^ D_EXP) by (apply Z.pow_lt_mono_r; lia). change (2 ^ 8) with 256 in *. change (2 ^ 16) with 65536 in *. nia.
Qed.

Lemma copy_in_byte_shifted : e = 0 ∨ e = -1 → E < 8 → ∃ m', copy_in_byte m0 src soffs sdir dst doffs n lmask rmask = Some m' ∧ copied m' E.
Proof.
  intros He H8. unfold copy_in_byte. rewrite (proj2 (Z.eqb_neq soffs doffs)) by lia.
  destruct src_first as (b & Eb & E0 & Bb). rewrite Eb. cbn [mbind option_bind]. destruct (Z.gtb_spec soffs doffs) as [Hgt|Hle].
  - assert (e = 0) by lia. replace (soffs - doffs) with L by lia.
    assert (∃ b', (if soffs + n >? 8 then b' ← rd m0 (src + sdir); Some (Z.lor (Z.shiftl b L) (Z.shiftr b' (8 - L))) else Some (Z.shiftl b L)) =
      Some (Z.lor (dig (Z.shiftl b L)) (Z.shiftr b' (8 - L))) ∧ is_byte b' ∧ (8 < soffs + n → m0 !! (src + sdir) = Some b')) as (b' & -> & Bb' & Hb').
    { rewrite shiftl_byte by done. destruct (Z.gtb_spec (soffs + n) 8).
      - destruct (read_next m0 doffs (E - 1) copied_start) as (b' & Er & Em & B); [lia..|]. replace ((E - 1) / 8 + e + 1) with 1 in * by lia.
        rewrite Z.mul_1_r in *. rewrite Er. eauto.
      - exists 0. rewrite Z.shiftr_0_l, Z.lor_0_r. split; [done|]. split; [unfold is_byte; lia|lia]. }
    cbn [mbind option_bind]. destruct (copied_in_byte (Z.lor (dig (Z.shiftl b L)) (Z.shiftr b' (8 - L))) H8) as (d & m' & Ed & Ew & C).
    { intros k Hk Hin. dm8 k. apply src_bit_shifted; [done..| |]; intros HkL; rewrite Hk.
      - replace (0 + e) with 0 by lia. by rewrite Z.mul_0_r, Z.add_0_r.
      - replace (0 + e + 1) with 1 by lia. rewrite Z.mul_1_r. apply Hb'. lia. }
    rewrite Ed. cbn [mbind option_bind]. rewrite Ew. eauto.
  - assert (e = -1) by lia. replace (doffs - soffs) with (8 - L) by lia.
    destruct (copied_in_byte (Z.shiftr b (8 - L)) H8) as (d & m' & Ed & Ew & C).
    { intros k Hk Hin. dm8 k. rewrite <- (Z.lor_0_l (Z.shiftr b (8 - L))), <- (Zmod_0_l D_BASE : dig 0 = 0), <- (Z.shiftl_0_l L).
      apply src_bit_shifted; [unfold is_byte; lia|done|lia|]. intros _. rewrite Hk. replace (0 + e + 1) with 0 by lia.
      by rewrite Z.mul_0_r, Z.add_0_r. }
    rewrite Ed. cbn [mbind option_bind]. rewrite Ew. eauto.
Qed.

Lemma copy_unaligned_spec : e = 0 ∨ e = -1 → 8 ≤ E →
  ∃ m', copy_unaligned m0 src soffs sdir dst doffs ddir n lmask rmask count = Some m' ∧ copied m' E.
Proof.
  intros He H8. unfold copy_unaligned. rewrite lmask_test, rmask_test. destruct q0_spec as (Hq & Hq' & _). destruct (count_spec H8) as (Hc & HEq & Hde).
  assert (∃ bits, (if soffs >? doffs
     then b ← rd m0 src; Some (soffs - doffs, 8 - (soffs - doffs), b, if soffs + n >? 8 then src + sdir else src)
     else Some (8 - (doffs - soffs), doffs - soffs, 0, src)) = Some (L, 8 - L, bits, src + sdir * (e + 1)) ∧
     is_byte bits ∧ (e = 0 → m0 !! src = Some bits)) as (bits & -> & Bb & Hb).
  { destruct (Z.gtb_spec soffs doffs).
    - assert (e = 0) as -> by lia. destruct (HS soffs ltac:(lia)) as [b Eb]. replace (soffs / 8) with 0 in Eb by lia.
      rewrite Z.mul_0_r, Z.add_0_r in Eb. unfold rd. rewrite Eb. cbn [mbind option_bind]. exists b. destruct (Z.gtb_spec (soffs + n) 8); [|lia].
      rewrite Z.mul_1_r. replace (soffs - doffs) with L by lia. eauto.
    - assert (e = -1) as -> by lia. exists 0. rewrite Z.mul_0_r, Z.add_0_r. replace (8 - (doffs - soffs)) with L by lia.
      replace (doffs - soffs) with (8 - L) by lia. split; [done|]. split; [unfold is_byte; lia|done]. }
  cbn [mbind option_bind].
  destruct (shifted_head bits Bb Hb H8 He) as (m1 & bits1 & E1 & C1 & Eb1 & Bb1); [lia|].
  cbv zeta in E1. cbv beta zeta. cbn [mbind option_bind] in E1. rewrite E1. cbn [mbind option_bind].
  destruct (copy_shifted_spec (Z.to_nat count) m1 q0 bits1 C1) as (m2 & bits2 & E2 & C2 & Eb2 & Bb2); [lia|lia|done|done|].
  rewrite Z2Nat.id in * by lia. rewrite E2. cbn [mbind option_bind].
  eqb_cases deoffs 0 Hdo; [exists m2; split; [done|]; by replace E with (8 * (q0 + count)) by lia|].
  rewrite rmask_rest by lia. set (P := 8 * (q0 + count)) in *. assert (P / 8 = q0 + count) as EP by lia.
  assert (∃ b, (if deoffs <=? 8 - L then Some (dig (Z.shiftl bits2 L))
     else b ← rd m2 (src + sdir * (q0 + count + e + 1)); Some (Z.lor (dig (Z.shiftl bits2 L)) (Z.shiftr b (8 - L)))) =
     Some (Z.lor (dig (Z.shiftl bits2 L)) (Z.shiftr b (8 - L))) ∧ is_byte b ∧
     (8 - L < deoffs → m0 !! (src + sdir * (q0 + count + e + 1)) = Some b)) as (b & -> & Bb3 & Hb3).
  { destruct (Z.leb_spec deoffs (8 - L)).
    - exists 0. rewrite Z.shiftr_0_l, Z.lor_0_r. split; [done|]. split; [unfold is_byte; lia|lia].
    - destruct (read_next m2 P (E - 1) C2) as (b & Er & E0 & B); [lia|lia|]. replace ((E - 1) / 8) with (q0 + count) in * by lia.
      rewrite Er. eauto. }
  cbn [mbind option_bind].
  destruct (copied_mask m2 P E (Z.lor (dig (Z.shiftl bits2 L)) (Z.shiftr b (8 - L))) rmask C2) as (d & m3 & Ed & Ew & C3); [lia|lia|lia| | |].
  { intros k Hk. apply rmask_last; lia. }
  { intros k Hk Hin. dm8 k. apply src_bit_shifted; [done..| |]; intros HkL; rewrite Hk, EP; [done|]. apply Hb3. lia. }
  rewrite EP in *. rewrite Ed. cbn [mbind option_bind]. rewrite Ew. eauto.
Qed.
End Copying.

(** ** The whole function *)
Lemma bit_shift m p dir k j : bit m (p + dir * j) dir k = bit m p dir (8 * j + k).
Proof.
  unfold bit. replace ((8 * j + k) / 8) with (j + k / 8) by lia. replace ((8 * j + k) mod 8) with (k mod 8) by lia.
  by replace (p + dir * j + dir * (k / 8)) with (p + dir * (j + k / 8)) by lia.
Qed.

Lemma bits_mapped_shift m p dir off n : bits_mapped m p dir off n ↔ bits_mapped m (p + dir * (off / 8)) dir (off mod 8) n.
Proof.
  unfold bits_mapped. split; intros H k Hk.
  - specialize (H (8 * (off / 8) + k) ltac:(lia)). replace ((8 * (off / 8) + k) / 8) with (off / 8 + k / 8) in H by lia.
    by replace (p + dir * (off / 8) + dir * (k / 8)) with (p + dir * (off / 8 + k / 8)) by lia.
  - specialize (H (k - 8 * (off / 8)) ltac:(lia)). replace ((k - 8 * (off / 8)) / 8) with (k / 8 - off / 8) in H by lia.
    by replace (p + dir * (k / 8)) with (p + dir * (off / 8) + dir * (k / 8 - off / 8)) by lia.
Qed.

Lemma same_but_shift m m' p dir off n : same_but m m' (p + dir * (off / 8)) dir (off mod 8) n → same_but m m' p dir off n.
Proof.
  intros [D H]. split; [done|]. intros a Ha. apply H. intros k Hk. specialize (Ha (8 * (off / 8) + k) ltac:(lia)).
  replace ((8 * (off / 8) + k) / 8) with (off / 8 + k / 8) in Ha by lia. lia.
Qed.

(** [m'] is [m] with the field at [dst] replaced by the field at [src]. *)
Definition field_copied (m m' : memory) (src soffs sdir dst doffs ddir n : Z) : Prop :=
  bytes_mem m' ∧ same_but m m' dst ddir doffs n ∧
  ∀ k, bit m' dst ddir k = if bool_decide (doffs ≤ k < doffs + n) then bit m src sdir (soffs + (k - doffs)) else bit m dst ddir k.

Lemma field_copied_shift m m' src soffs sdir dst doffs ddir n :
  field_copied m m' (src + sdir * (soffs / 8)) (soffs mod 8) sdir (dst + ddir * (doffs / 8)) (doffs mod 8) ddir n →
  field_copied m m' src soffs sdir dst doffs ddir n.
Proof.
  intros (B & S & K). split; [done|]. split; [by apply same_but_shift|]. intros k.
  specialize (K (k - 8 * (doffs / 8))). rewrite !bit_shift in K. replace (8 * (doffs / 8) + (k - 8 * (doffs / 8))) with k in K by lia.
  rewrite K. repeat case_bool_decide; try lia; [f_equal; lia|done].
Qed.

Lemma erts_copy_bits_spec m src soffs sdir dst doffs ddir n :
  bytes_mem m → ddir ≠ 0 → 0 ≤ soffs → 0 ≤ doffs → 0 ≤ n → 8 + n < D_BASE →
  bits_mapped m src sdir soffs n → bits_mapped m dst ddir doffs n → bits_apart src sdir soffs n dst ddir doffs n →
  ∃ m', erts_copy_bits m src soffs sdir dst doffs ddir n = Some m' ∧ field_copied m m' src soffs sdir dst doffs ddir n.
Proof.
  intros B Hdir Hs Hd Hn Hfit MS MD HA. unfold erts_copy_bits. rewrite !BYTE_OFFSET_eq, !BIT_OFFSET_eq. eqb_cases n 0 Hz.
  { exists m. split; [done|]. split; [done|]. split; [apply same_but_refl|]. intros k. by rewrite bool_decide_eq_false_2 by lia. }
  rewrite dig_small by (unfold is_digit; lia).
  assert (bits_apart (src + sdir * (soffs / 8)) sdir (soffs mod 8) n (dst + ddir * (doffs / 8)) ddir (doffs mod 8) n) as HA'.
  { intros j k Hj Hk. specialize (HA (8 * (soffs / 8) + j) (8 * (doffs / 8) + k) ltac:(lia) ltac:(lia)).
    replace ((8 * (soffs / 8) + j) / 8) with (soffs / 8 + j / 8) in HA by lia.
    replace ((8 * (doffs / 8) + k) / 8) with (doffs / 8 + k / 8) in HA by lia. lia. }
  apply bits_mapped_shift in MS. apply bits_mapped_shift in MD. set (s := soffs mod 8) in *. set (d := doffs mod 8) in *.
  assert (0 ≤ s < 8 ∧ 0 ≤ d < 8 ∧ 0 < n) as (Hs8 & Hd8 & Hn0) by lia.
  set (E := d + n). set (lmask := if d =? 0 then 0 else MAKE_MASK (8 - d)).
  set (rmask := if E mod 8 =? 0 then 0 else dig (Z.shiftl (MAKE_MASK (E mod 8)) (8 - E mod 8))).
  set (q0 := if d =? 0 then 0 else 1). set (count := (E - 8 * q0) / 8).
  assert (Z.shiftr (if lmask =? 0 then n else n - (8 - d)) 3 = count) as ->.
  { rewrite Z.shiftr_div_pow2 by lia. change (2 ^ 3) with 8. unfold lmask, count, q0, E. eqb_cases d 0 Hz0; [cbn [Z.eqb]; f_equal; lia|].
    rewrite (lmask_zero s d) by lia. f_equal. lia. }
  enough (∃ m', (if E <? 8 then copy_in_byte m (src + sdir * (soffs / 8)) s sdir (dst + ddir * (doffs / 8)) d n lmask rmask
     else if s =? d then copy_aligned m (src + sdir * (soffs / 8)) sdir (dst + ddir * (doffs / 8)) ddir lmask rmask count
     else copy_unaligned m (src + sdir * (soffs / 8)) s sdir (dst + ddir * (doffs / 8)) d ddir n lmask rmask count) = Some m' ∧
     copied m (src + sdir * (soffs / 8)) s sdir (dst + ddir * (doffs / 8)) d ddir n m' E) as (m' & Em & C).
  { exists m'. split; [done|]. apply field_copied_shift, C. }
  destruct (Z.ltb_spec E 8) as [Hlt|Hge], (Z.eqb_spec s d) as [Hsd|Hsd].
  - eapply copy_in_byte_aligned; done.
  - eapply copy_in_byte_shifted with (L := (s - d) mod 8) (e := (s - d) / 8); (done || lia).
  - eapply copy_aligned_spec with (q0 := q0); (done || lia).
  - eapply copy_unaligned_spec with (q0 := q0) (L := (s - d) mod 8) (e := (s - d) / 8); (done || lia).
Qed.

(** A copy of whole bytes onto themselves changes nothing. *)
Lemma copy_whole_self c : ∀ m p, bytes_mem m → (∀ i, 0 ≤ i < Z.of_nat c → is_Some (m !! (p + i))) →
  copy_whole c m p 1 p 1 = Some (m, p + Z.of_nat c, p + Z.of_nat c).
Proof.
  induction c as [|c IH]; intros m p B Hm; cbn [copy_whole]; [by rewrite Z.add_0_r|].
  destruct (Hm 0 ltac:(lia)) as [b Hb]. rewrite Z.add_0_r in Hb. unfold rd. rewrite Hb. cbn [mbind option_bind].
  rewrite wr_ok, wrap_u8_id, insert_id by (eauto || apply (B _ _ Hb)). cbn [mbind option_bind].
  rewrite IH; [by replace (p + 1 + Z.of_nat c) with (p + Z.of_nat (S c)) by lia|done|]. intros i Hi. specialize (Hm (i + 1) ltac:(lia)). by replace (p + 1 + i) with (p + (i + 1)) by lia.
Qed.

Lemma erts_copy_bits_self m dst doffs n : bytes_mem m → 0 ≤ doffs → doffs mod 8 = 0 → 0 < n → n mod 8 = 0 → n < D_BASE →
  bits_mapped m dst 1 doffs n → erts_copy_bits m (dst + doffs / 8) 0 1 dst doffs 1 n = Some m.
Proof.
  intros B Hd Hd8 Hn Hn8 Hfit HM. unfold erts_copy_bits. rewrite !BYTE_OFFSET_eq, !BIT_OFFSET_eq. rewrite (proj2 (Z.eqb_neq n 0)) by lia.
  rewrite Hd8. change (0 mod 8) with 0. change (0 / 8) with 0. rewrite Z.add_0_l, dig_small, Hn8 by (unfold is_digit; lia).
  cbn [Z.eqb]. rewrite (proj2 (Z.ltb_ge n 8)) by lia. rewrite Z.shiftr_div_pow2 by lia. change (2 ^ 3) with 8.
  unfold copy_aligned. cbn [Z.eqb mbind option_bind]. rewrite Z.mul_0_r, Z.add_0_r, Z.mul_1_l.
  rewrite copy_whole_self; [done|done|]. intros i Hi. rewrite Z2Nat.id in Hi by lia. specialize (HM (doffs + 8 * i) ltac:(lia)).
  rewrite Z.mul_1_l in HM. by replace (dst + doffs / 8 + i) with (dst + (doffs + 8 * i) / 8) by lia.
Qed.
End BitLemmas.
