(* ===== verification/BitsCmp.v ===== *)
(** [erts_cmp_bits] orders bit strings like lists of bits: by the first difference. *)

From Stdlib Require Import ZArith ZifyBool.
From stdpp Require Import base list numbers option gmap.
From S2P Require Import Prelude Big BigSpec BigBitsSpec BigTerm AllocMem Bits BitsSpec.
Local Open Scope Z_scope.

(** The lexicographic order of bit strings of the same length. *)
Fixpoint lex (a b : list bool) : Z :=
  match a, b with
  | x :: a', y :: b' => if eqb x y then lex a' b' else if x then 1 else -1
  | _, _ => 0
  end.

(** The number with the bits, the first one the most significant. *)
Fixpoint msb_value (l : list bool) : Z :=
  match l with [] => 0 | x :: l' => (if x then 2 ^ zlen l' else 0) + msb_value l' end.

Definition bits8 (x : Z) : list bool := (λ i, Z.testbit x (7 - i)) <$> seqZ 0 8.

Section Cmp.
Context {dw : DigitWidth}.

Lemma lex_app a1 : ∀ b1 a2 b2, length a1 = length b1 → lex (a1 ++ a2) (b1 ++ b2) = if lex a1 b1 =? 0 then lex a2 b2 else lex a1 b1.
Proof.
  induction a1 as [|x a1 IH]; intros [|y b1] a2 b2 Hl; try done. cbn [lex app]. injection Hl as Hl. rewrite (IH b1) by done.
  by destruct x, y.
Qed.

Lemma lex_eq a : ∀ b, length a = length b → lex a b = 0 ↔ a = b.
Proof.
  induction a as [|x a IH]; intros [|y b] Hl; try done. injection Hl as Hl. cbn [lex]. specialize (IH b Hl). destruct x, y; cbn [eqb]; rewrite ?IH; split; congruence.
Qed.

Lemma msb_value_range l : 0 ≤ msb_value l < 2 ^ zlen l.
Proof.
  induction l as [|x l IH]; [done|]. cbn [msb_value length]. rewrite Nat2Z.inj_succ, Z.pow_succ_r by lia. destruct x; lia.
Qed.

Lemma lex_value a : ∀ b, length a = length b → lex a b = Z.sgn (msb_value a - msb_value b).
Proof.
  induction a as [|x a IH]; intros [|y b] Hl; try done. injection Hl as Hl. cbn [lex msb_value].
  pose proof (msb_value_range a). pose proof (msb_value_range b). rewrite <- Hl in *. specialize (IH b Hl).
  destruct x, y; cbn [eqb]; rewrite ?IH; [f_equal; lia| | |f_equal; lia]; symmetry; [apply Z.sgn_pos|apply Z.sgn_neg]; lia.
Qed.

Lemma bits8_value x : is_byte x → msb_value (bits8 x) = x.
Proof.
  intros H. assert (forallb (λ x, msb_value (bits8 x) =? x) (seqZ 0 256) = true) as F by done.
  rewrite forallb_forall in F. apply Z.eqb_eq, F, list_elem_of_In, elem_of_seqZ. unfold is_byte in H. lia.
Qed.

Lemma lex_bytes x y : is_byte x → is_byte y → lex (bits8 x) (bits8 y) = Z.sgn (x - y).
Proof. intros Hx Hy. rewrite lex_value by done. by rewrite !bits8_value. Qed.

Lemma field_8 m p dir off x : (∀ i, 0 ≤ i < 8 → bit m p dir (off + i) = Z.testbit x (7 - i)) → field m p dir off 8 = bits8 x.
Proof. intros H. unfold field, bits8. apply list_fmap_ext. intros i k [-> Hi]%lookup_seqZ. apply H. lia. Qed.

Lemma field_byte m p off x : m !! (p + off / 8) = Some x → off mod 8 = 0 → field m p 1 off 8 = bits8 x.
Proof.
  intros Hx H8. apply field_8. intros i Hi. unfold bit. replace (p + 1 * ((off + i) / 8)) with (p + off / 8) by lia. rewrite Hx. f_equal. lia.
Qed.

Lemma field_1 m p off n : 0 < n → field m p 1 off n = bit m p 1 off :: field m p 1 (off + 1) (n - 1).
Proof.
  intros H. replace n with (1 + (n - 1)) at 1 by lia. rewrite field_app by lia.
  assert (field m p 1 off 1 = [bit m p 1 off]) as -> by (unfold field; change (seqZ 0 1) with [0]; cbn [fmap list_fmap]; by rewrite Z.add_0_r).
  done.
Qed.

(** ** Cursors *)
Section Fields.
Variables (m : memory).
Hypothesis (B : bytes_mem m).

(** The cursor is at bit [k] of the buffer. *)
Definition at_bit (p k : Z) (c : cursor) : Prop :=
  m !! (p + k / 8) = Some (cb c) ∧ c_offs c = k mod 8 ∧ c_ptr c = p + k / 8 + 1.

(** The bytes up to the one with bit [k] can be read. *)
Definition readable (p k : Z) : Prop := ∀ i, 0 ≤ i ≤ k → is_Some (m !! (p + i / 8)).

Lemma get_bit_spec p k c : at_bit p k c → get_bit (cb c) (c_offs c) = if bit m p 1 k then 1 else 0.
Proof.
  intros (H1 & H2 & _). unfold get_bit, bit. rewrite Z.mul_1_l, H1, H2.
  change 1 with (Z.ones 1) at 1. rewrite Z.land_ones by lia. change (2 ^ 1) with 2. dm8 k.
  rewrite <- Z.bit0_mod, Z.shiftr_spec, Z.add_0_l by lia. by destruct (Z.testbit _ _).
Qed.

Lemma next_bit_spec p k c : at_bit p k c → 0 ≤ k → readable p (k + 1) → ∃ c', next_bit m c = Some c' ∧ at_bit p (k + 1) c'.
Proof.
  intros (H1 & H2 & H3) Hk R. unfold next_bit. rewrite H2, H3. dm8 k. eqb_cases (k mod 8 + 1) 8 H8.
  - destruct (R (k + 1) ltac:(lia)) as [b Hb]. unfold rd. replace (p + k / 8 + 1) with (p + (k + 1) / 8) by lia. rewrite Hb.
    eexists. split; [reflexivity|]. split; [done|]. cbn. lia.
  - eexists. split; [reflexivity|]. unfold at_bit. cbn [cb c_offs c_ptr]. replace ((k + 1) / 8) with (k / 8) by lia. split; [done|]. lia.
Qed.

(** The outcome of a loop: the order is decided, or it is that of the bits left. *)
Variables (pa pb : Z).
Abbreviation order ka kb n := (lex (field m pa 1 ka n) (field m pb 1 kb n)).

Definition outcome_ok (ka kb n : Z) (o : cmp_outcome) (done : cursor → nat → Prop) : Prop :=
  match o with
  | CmpReturn r => r ≠ 0 ∧ Z.sgn r = order ka kb n
  | CmpGo a b size => ∃ i, 0 ≤ i ∧ i + Z.of_nat size = n ∧ at_bit pa (ka + i) a ∧ at_bit pb (kb + i) b ∧
      order ka kb n = order (ka + i) (kb + i) (n - i) ∧ done a size
  end.

Lemma order_step ka kb n : 0 < n → bit m pa 1 ka = bit m pb 1 kb → order ka kb n = order (ka + 1) (kb + 1) (n - 1).
Proof. intros Hn E. rewrite (field_1 m pa ka), (field_1 m pb kb) by done. cbn [lex]. rewrite E. by destruct (bit m pb 1 kb). Qed.
Lemma order_bit ka kb n : 0 < n → bit m pa 1 ka ≠ bit m pb 1 kb →
  Z.sgn ((if bit m pa 1 ka then 1 else 0) - (if bit m pb 1 kb then 1 else 0)) = order ka kb n.
Proof. intros Hn E. rewrite (field_1 m pa ka), (field_1 m pb kb) by done. cbn [lex]. by destruct (bit m pa 1 ka), (bit m pb 1 kb). Qed.

Lemma outcome_ok_step ka kb n o done : 0 < n → bit m pa 1 ka = bit m pb 1 kb →
  outcome_ok (ka + 1) (kb + 1) (n - 1) o done → outcome_ok ka kb n o done.
Proof.
  intros Hn E. destruct o as [r|a b size]; cbn [outcome_ok]; rewrite (order_step ka kb n) by done; [done|].
  intros (i & Hi & Hs & Ha & Hb & Ho & Hd). exists (i + 1). rewrite !Z.add_assoc in *.
  replace (ka + i + 1) with (ka + 1 + i) by lia. replace (kb + i + 1) with (kb + 1 + i) by lia.
  replace (n - (i + 1)) with (n - 1 - i) by lia. repeat split; (done || lia || idtac); apply Ha || apply Hb.
Qed.

Lemma outcome_ok_go ka kb a b size (done : cursor → nat → Prop) : at_bit pa ka a → at_bit pb kb b → done a size →
  outcome_ok ka kb (Z.of_nat size) (CmpGo a b size) done.
Proof. intros Ha Hb Hd. exists 0. rewrite !Z.add_0_r, Z.sub_0_r. repeat (split; [lia || exact Ha || exact Hb || reflexivity|]). exact Hd. Qed.

Lemma cmp_diff p q ka kb a b : at_bit p ka a → at_bit q kb b →
  (get_bit (cb a) (c_offs a) - get_bit (cb b) (c_offs b) =? 0) = eqb (bit m p 1 ka) (bit m q 1 kb).
Proof. intros Ha Hb. rewrite (get_bit_spec p ka a Ha), (get_bit_spec q kb b Hb). by destruct (bit m p 1 ka), (bit m q 1 kb). Qed.

(** ** The loops *)
Lemma cmp_head_spec size : ∀ ka kb a b, at_bit pa ka a → at_bit pb kb b → 0 ≤ ka → 0 ≤ kb →
  readable pa (ka + Z.of_nat size) → readable pb (kb + Z.of_nat size) →
  ∃ o, cmp_head m a b size = Some o ∧ outcome_ok ka kb (Z.of_nat size) o (λ a size, c_offs a = 0 ∨ size = O).
Proof.
  induction size as [|size IH]; intros ka kb a b Ha Hb Hka Hkb Ra Rb; cbn [cmp_head].
  { eexists. split; [reflexivity|]. apply outcome_ok_go; auto. }
  rewrite (cmp_diff pa pb ka kb) by done. destruct (eqb (bit m pa 1 ka) (bit m pb 1 kb)) eqn:E; cbn [negb].
  2:{ apply eqb_false_iff in E. eexists. split; [reflexivity|]. cbn [outcome_ok]. rewrite (get_bit_spec pa ka a Ha), (get_bit_spec pb kb b Hb).
      split; [|apply order_bit; [lia|done]]. by destruct (bit m pa 1 ka), (bit m pb 1 kb). }
  apply eqb_prop in E.
  destruct (next_bit_spec pb kb b Hb Hkb) as (b' & -> & Hb'); [intros i Hi; apply Rb; lia|].
  destruct (next_bit_spec pa ka a Ha Hka) as (a' & -> & Ha'); [intros i Hi; apply Ra; lia|]. cbn [mbind option_bind].
  replace (Z.of_nat (S size)) with (Z.of_nat size + 1) in * by lia.
  assert (∀ o, outcome_ok (ka + 1) (kb + 1) (Z.of_nat size) o (λ a size, c_offs a = 0 ∨ size = O) →
    outcome_ok ka kb (Z.of_nat size + 1) o (λ a size, c_offs a = 0 ∨ size = O)) as Hstep.
  { intros o Ho. apply outcome_ok_step; [lia|done|]. by rewrite Z.add_simpl_r. }
  eqb_cases (c_offs a') 0 Hz.
  - eexists. split; [reflexivity|]. apply Hstep. apply outcome_ok_go; auto.
  - destruct (IH (ka + 1) (kb + 1) a' b') as (o & Eo & Ho); [done..|lia|lia| | |].
    + intros i Hi. apply Ra. lia.
    + intros i Hi. apply Rb. lia.
    + exists o. auto.
Qed.

(** Eight bits of [b] over a byte boundary. *)
Lemma shifted_byte k c b' : at_bit pb k c → m !! (pb + k / 8 + 1) = Some b' →
  field m pb 1 k 8 = bits8 (Z.lor (wrap_u 8 (Z.shiftl (cb c) (c_offs c))) (Z.shiftr b' (8 - c_offs c))) ∧
  is_byte (Z.lor (wrap_u 8 (Z.shiftl (cb c) (c_offs c))) (Z.shiftr b' (8 - c_offs c))).
Proof.
  intros (H1 & H2 & _) Hb'. rewrite H2. dm8 k. pose proof (B _ _ H1) as B1. pose proof (B _ _ Hb') as B2. split.
  - apply field_8. intros i Hi. rewrite Z.lor_spec, wrap_u8_bits, Z.shiftl_spec, Z.shiftr_spec by lia. unfold bit. rewrite Z.mul_1_l.
    destruct (Z.lt_ge_cases (k mod 8 + i) 8).
    + replace ((k + i) / 8) with (k / 8) by lia. rewrite H1, (testbit_byte_high b') by (done || lia). rewrite orb_false_r. f_equal. lia.
    + replace (pb + (k + i) / 8) with (pb + k / 8 + 1) by lia. rewrite Hb', (Z.testbit_neg_r (cb c)) by lia. cbn. f_equal. lia.
  - split; [apply Z.lor_nonneg; split; [apply wrap_u8_byte|apply Z.shiftr_nonneg, B2]|]. apply (Z.log2_lt_cancel _ (2 ^ 8)).
    rewrite Z.log2_lor, Z.log2_pow2 by (apply wrap_u8_byte || apply Z.shiftr_nonneg, B2 || lia).
    pose proof (wrap_u8_byte (Z.shiftl (cb c) (k mod 8))) as [W1 W2].
    assert (Z.shiftr b' (8 - k mod 8) ≤ b') as S1 by (rewrite Z.shiftr_div_pow2 by lia; apply Z.div_le_upper_bound; unfold is_byte in B2; [lia|];
      assert (0 < 2 ^ (8 - k mod 8)) by lia; nia).
    apply Z.max_lub_lt; [|apply (Z.le_lt_trans _ (Z.log2 b')); [by apply Z.log2_le_mono|]].
    + eapply Z.le_lt_trans; [apply Z.log2_le_mono; instantiate (1 := 255); lia|done].
    + eapply Z.le_lt_trans; [apply Z.log2_le_mono; instantiate (1 := 255); unfold is_byte in B2; lia|done].
Qed.

Lemma order_8 ka kb n x y : 8 ≤ n → field m pa 1 ka 8 = bits8 x → field m pb 1 kb 8 = bits8 y → is_byte x → is_byte y →
  order ka kb n = if x =? y then order (ka + 8) (kb + 8) (n - 8) else Z.sgn (x - y).
Proof.
  intros Hn Ha Hb Bx By. replace n with (8 + (n - 8)) at 1 2 by lia. rewrite !field_app by lia. rewrite lex_app by (by rewrite !length_field).
  rewrite Ha, Hb, lex_bytes by done. eqb_cases x y E; [by rewrite E, Z.sub_diag|].
  rewrite (proj2 (Z.eqb_neq (Z.sgn (x - y)) 0)); [done|]. rewrite Z.sgn_null_iff. lia.
Qed.

Lemma cmp_bytes_spec k : ∀ ka kb a b size lshift, at_bit pa ka a → at_bit pb kb b → 0 ≤ ka → 0 ≤ kb →
  readable pa (ka + Z.of_nat size) → readable pb (kb + Z.of_nat size) → (8 * k ≤ size)%nat → (k = O ∨ c_offs a = 0) → lshift = c_offs b →
  ∃ o, cmp_bytes k m a b size lshift (8 - lshift) = Some o ∧ outcome_ok ka kb (Z.of_nat size) o (λ _ _, True).
Proof.
  induction k as [|k IH]; intros ka kb a b size lshift Ha Hb Hka Hkb Ra Rb Hk H0 ->; cbn [cmp_bytes].
  { eexists. split; [reflexivity|]. apply outcome_ok_go; auto. }
  destruct H0 as [?|H0]; [done|]. pose proof Ha as (Ha1 & Ha2 & Ha3). pose proof Hb as (Hb1 & Hb2 & Hb3).
  destruct (Rb (kb + 8) ltac:(lia)) as [b' Eb]. replace (pb + (kb + 8) / 8) with (c_ptr b) in Eb by lia. change (m !! c_ptr b) with (rd m (c_ptr b)) in Eb. rewrite Eb.
  cbn [mbind option_bind]. destruct (shifted_byte kb b b' Hb) as [Fb By]; [by rewrite <- Hb3|].
  set (y := Z.lor _ _) in *. pose proof (field_byte m pa ka (cb a) Ha1 ltac:(lia)) as Fa.
  pose proof (order_8 ka kb (Z.of_nat size) _ _ ltac:(lia) Fa Fb (B _ _ Ha1) By) as Ho.
  eqb_cases (cb a - y) 0 Hd; cbn [negb].
  2:{ eexists. split; [reflexivity|]. split; [done|]. rewrite Ho, (proj2 (Z.eqb_neq _ _)) by lia. done. }
  destruct (Ra (ka + 8) ltac:(lia)) as [a' Ea]. replace (pa + (ka + 8) / 8) with (c_ptr a) in Ea by lia. change (m !! c_ptr a) with (rd m (c_ptr a)) in Ea. rewrite Ea.
  cbn [mbind option_bind]. rewrite (proj2 (Z.eqb_eq _ _)) in Ho by lia.
  destruct (IH (ka + 8) (kb + 8) (Cursor a' (c_offs a) (c_ptr a + 1)) (Cursor b' (c_offs b) (c_ptr b + 1)) (size - 8)%nat (c_offs b))
    as (o & Eo & Hoo); [| |lia|lia| | |lia|by right|done|].
  { unfold at_bit. cbn [cb c_offs c_ptr]. replace (pa + (ka + 8) / 8) with (c_ptr a) by lia. split; [done|]. lia. }
  { unfold at_bit. cbn [cb c_offs c_ptr]. replace (pb + (kb + 8) / 8) with (c_ptr b) by lia. split; [done|]. lia. }
  { intros i Hi. apply Ra. lia. } { intros i Hi. apply Rb. lia. }
  exists o. split; [done|]. replace (Z.of_nat (size - 8)) with (Z.of_nat size - 8) in Hoo by lia.
  destruct o as [r|a1 b1 size1]; cbn [outcome_ok] in *; [by rewrite Ho|].
  destruct Hoo as (i & Hi & Hs & H1 & H2 & H3 & _). exists (8 + i). rewrite !Z.add_assoc, Ho, H3.
  replace (Z.of_nat size - (8 + i)) with (Z.of_nat size - 8 - i) by lia. repeat split; (done || lia || idtac); apply H1 || apply H2.
Qed.

Lemma cmp_tail_spec size : ∀ ka kb a b, at_bit pa ka a → at_bit pb kb b → 0 ≤ ka → 0 ≤ kb →
  readable pa (ka + Z.of_nat size) → readable pb (kb + Z.of_nat size) →
  ∃ r, cmp_tail m a b size = Some r ∧ Z.sgn r = order ka kb (Z.of_nat size).
Proof.
  induction size as [|size IH]; intros ka kb a b Ha Hb Hka Hkb Ra Rb; cbn [cmp_tail]; [by exists 0|].
  rewrite (cmp_diff pa pb ka kb) by done. destruct (eqb (bit m pa 1 ka) (bit m pb 1 kb)) eqn:E; cbn [negb].
  2:{ apply eqb_false_iff in E. eexists. split; [reflexivity|]. rewrite (get_bit_spec pa ka a Ha), (get_bit_spec pb kb b Hb).
      apply order_bit; [lia|done]. }
  apply eqb_prop in E.
  destruct (next_bit_spec pa ka a Ha Hka) as (a' & -> & Ha'); [intros i Hi; apply Ra; lia|].
  destruct (next_bit_spec pb kb b Hb Hkb) as (b' & -> & Hb'); [intros i Hi; apply Rb; lia|]. cbn [mbind option_bind].
  rewrite order_step by (done || lia). replace (Z.of_nat (S size) - 1) with (Z.of_nat size) by lia.
  apply IH; [done..|lia|lia| |]; intros i Hi; [apply Ra|apply Rb]; lia.
Qed.
End Fields.

Lemma sys_memcmp_spec m k : bytes_mem m → ∀ pa pb, readable m pa (8 * Z.of_nat k - 1) → readable m pb (8 * Z.of_nat k - 1) →
  ∃ r, sys_memcmp k m pa pb = Some r ∧ Z.sgn r = lex (field m pa 1 0 (8 * Z.of_nat k)) (field m pb 1 0 (8 * Z.of_nat k)).
Proof.
  intros B. induction k as [|k IH]; intros pa pb Ra Rb; cbn [sys_memcmp]; [by exists 0|].
  destruct (Ra 0 ltac:(lia)) as [x Ex]. destruct (Rb 0 ltac:(lia)) as [y Ey]. change (0 / 8) with 0 in *. rewrite Z.add_0_r in *.
  unfold rd. rewrite Ex, Ey. cbn [mbind option_bind]. pose proof (B _ _ Ex) as Bx. pose proof (B _ _ Ey) as By.
  rewrite (order_8 m pa pb 0 0 (8 * Z.of_nat (S k)) x y) by (done || lia || (apply field_byte; [|done]; by rewrite Z.add_0_r)).
  destruct (Z.eqb_spec x y) as [E|E].
  - destruct (IH (pa + 1) (pb + 1)) as (r & Er & Hr); [| |exists r; split; [done|]].
    + intros i Hi. specialize (Ra (8 + i) ltac:(lia)). by replace (pa + 1 + i / 8) with (pa + (8 + i) / 8) by lia.
    + intros i Hi. specialize (Rb (8 + i) ltac:(lia)). by replace (pb + 1 + i / 8) with (pb + (8 + i) / 8) by lia.
    + rewrite Hr. replace (8 * Z.of_nat (S k) - 8) with (8 * Z.of_nat k) by lia.
      f_equal; apply field_ext; intros i Hi; [rewrite <- (Z.mul_1_l 1) at 1|rewrite <- (Z.mul_1_l 1) at 1]; rewrite bit_shift; f_equal; lia.
  - eexists. split; [reflexivity|]. destruct (Z.ltb_spec x y); symmetry; [apply Z.sgn_neg|apply Z.sgn_pos]; lia.
Qed.

Lemma land_lor_7 a b c : Z.land (Z.lor (Z.lor a b) c) 7 = 0 ↔ a mod 8 = 0 ∧ b mod 8 = 0 ∧ c mod 8 = 0.
Proof.
  rewrite !Z.land_lor_distr_l, !Z.lor_eq_0_iff. change 7 with (Z.ones 3). rewrite !Z.land_ones by lia. change (2 ^ 3) with 8. tauto.
Qed.

(** The strings are compared by whole bytes when they, and their size, are aligned. *)
Definition cmp_aligned (a_offs b_offs size : Z) : Z := if Z.land (Z.lor (Z.lor a_offs b_offs) size) 7 =? 0 then 1 else 0.

(** Unless the strings are aligned, the byte behind the last bit is read as well. *)
Lemma erts_cmp_bits_spec m a_ptr a_offs b_ptr b_offs size :
  bytes_mem m → 0 ≤ a_offs < 8 → 0 ≤ b_offs < 8 → 0 ≤ size → size / 8 ≤ INT_MAX →
  readable m a_ptr (a_offs + size - cmp_aligned a_offs b_offs size) → readable m b_ptr (b_offs + size - cmp_aligned a_offs b_offs size) →
  ∃ r, erts_cmp_bits m a_ptr a_offs b_ptr b_offs size = Some r ∧ Z.sgn r = lex (field m a_ptr 1 a_offs size) (field m b_ptr 1 b_offs size).
Proof.
  intros B Ha Hb Hs Hint. unfold cmp_aligned, erts_cmp_bits. eqb_cases (Z.land (Z.lor (Z.lor a_offs b_offs) size) 7) 0 Hal; intros Ra Rb.
  - apply land_lor_7 in Hal as (A1 & A2 & A3). assert (a_offs = 0) as -> by lia. assert (b_offs = 0) as -> by lia.
    rewrite Z.shiftr_div_pow2 by lia. change (2 ^ 3) with 8. unfold INT_MAX in *.
    rewrite int32_small by (unfold INT_MAX; lia). pose proof D_BASE_ge. assert (2 ^ 32 ≤ D_BASE).
    { pose proof D_EXP_ge. unfold D_BASE. apply Z.pow_le_mono_r; lia. }
    rewrite dig_small by (unfold is_digit; lia).
    destruct (sys_memcmp_spec m (Z.to_nat (size / 8)) B a_ptr b_ptr) as (r & Er & Hr).
    { intros i Hi. apply Ra. lia. } { intros i Hi. apply Rb. lia. }
    exists r. split; [done|]. by replace (8 * Z.of_nat (Z.to_nat (size / 8))) with size in Hr by lia.
  - rewrite Z.sub_0_r in Ra, Rb. destruct (Ra a_offs ltac:(lia)) as [a Ea]. destruct (Rb b_offs ltac:(lia)) as [b Eb].
    assert (at_bit m a_ptr a_offs (Cursor a a_offs (a_ptr + 1))) as Aa by (split; [done|]; cbn; lia).
    assert (at_bit m b_ptr b_offs (Cursor b b_offs (b_ptr + 1))) as Ab by (split; [done|]; cbn; lia).
    replace (a_ptr + a_offs / 8) with a_ptr in Ea by lia. replace (b_ptr + b_offs / 8) with b_ptr in Eb by lia.
    unfold rd. rewrite Ea, Eb. cbn [mbind option_bind].
    destruct (cmp_head_spec m a_ptr b_ptr (Z.to_nat size) a_offs b_offs _ _ Aa Ab) as (o & -> & Ho); [lia|lia|rewrite Z2Nat.id by lia; done..|].
    rewrite Z2Nat.id in Ho by lia. cbn [mbind option_bind]. destruct o as [r|a1 b1 s1]; cbn [outcome_ok] in Ho; [exists r; split; [done|apply Ho]|].
    destruct Ho as (i & Hi & Hs1 & Aa1 & Ab1 & -> & Hst).
    destruct (cmp_bytes_spec m B a_ptr b_ptr (s1 / 8) (a_offs + i) (b_offs + i) a1 b1 s1 (c_offs b1) Aa1 Ab1) as (o & -> & Ho); [lia|lia| | |apply Nat.Div0.mul_div_le| |done|].
    { intros j Hj. apply Ra. lia. } { intros j Hj. apply Rb. lia. }
    { destruct Hst as [?| ->]; [by right|by left]. }
    replace (size - i) with (Z.of_nat s1) by lia. cbn [mbind option_bind]. destruct o as [r|a2 b2 s2]; cbn [outcome_ok] in Ho; [exists r; split; [done|apply Ho]|].
    destruct Ho as (j & Hj & Hs2 & Aa2 & Ab2 & -> & _). replace (Z.of_nat s1 - j) with (Z.of_nat s2) by lia.
    apply cmp_tail_spec; [done|done|lia|lia| |]; intros l Hl; [apply Ra|apply Rb]; lia.
Qed.
End Cmp.
