(* ===== verification/BitsBuild.v ===== *)
(** Construction of binaries: the [bs_put] functions of [erts/emulator/beam/erl_bits.c].

    The state is the one of [struct erl_bits_state]: the binary that is built and the offset in bits, and a byte buffer
    that grows when a field needs it.  The block that [erts_realloc] returns for it and the local arrays
    ([tmp_buf]) are arguments, as addresses.  A term is an integer ([int_term]; [NIL] stands for any other term). *)

From Stdlib Require Import ZArith ZifyBool.
From stdpp Require Import base list numbers option gmap.
From S2P Require Import Prelude Big BigTerm AllocMem Bits.
Local Open Scope Z_scope.

Definition BSF_LITTLE : Z := 2.
Definition BSF_SIGNED : Z := 4.
Definition little (flags : Z) : bool := negb (Z.land flags BSF_LITTLE =? 0).
Definition signed_field (flags : Z) : bool := negb (Z.land flags BSF_SIGNED =? 0).

Record erl_bits_state := BitsState {
  byte_buf : Z;
  byte_buf_len : Z;
  erts_current_bin : Z;
  erts_bin_offset : Z }.

(** A heap binary or a reference-counted one: its data and size in bytes. *)
Record real_bin := RealBin { rb_bytes : Z; rb_size : Z }.

Record ErlSubBin := SubBin {
  sb_size : Z;
  sb_offs : Z;
  sb_bitsize : Z;
  sb_bitoffs : Z;
  sb_is_writable : bool;
  sb_orig : real_bin }.

Inductive bin_term := Real (b : real_bin) | Sub (sb : ErlSubBin).

Definition binary_size (t : bin_term) : Z := match t with Real b => rb_size b | Sub sb => sb_size sb end.

(** [Bytep], [Bitoffs], [Bitsize] *)
Definition ERTS_GET_BINARY_BYTES (t : bin_term) : Z * Z * Z :=
  match t with
  | Real b => (rb_bytes b, 0, 0)
  | Sub sb => (rb_bytes (sb_orig sb) + sb_offs sb, sb_bitoffs sb, sb_bitsize sb)
  end.

Section Build.
Context {dw : DigitWidth}.

(** [erts_bin_offset += n] *)
Definition advance (st : erl_bits_state) (n : Z) : erl_bits_state :=
  BitsState (byte_buf st) (byte_buf_len st) (erts_current_bin st) (dig (erts_bin_offset st + n)).

(** [signed_val] and [unsigned_val] of a small with the value [z], and [make_small] of a word. *)
Definition unsigned_val (z : Z) : Z := z mod 2 ^ SMALL_BITS.
Definition make_small (x : Z) : int_term := Small (wrap_s SMALL_BITS x).

(** ** fmt_int *)

(** [sz] bytes of [val], lowest first, to [dst] and on in the direction [ddir]; yields [dst] and [val] as well.  (The
    [switch] in the macro only unrolls the loop.) *)
Fixpoint COPY_VAL (sz : nat) (m : memory) (dst ddir val : Z) : option (memory * Z * Z) :=
  match sz with
  | O => Some (m, dst, val)
  | S sz' => m ← wr m dst (Z.land val 255); COPY_VAL sz' m (dst + ddir) ddir (Z.shiftr val 8)
  end.

Definition SUBc (m : memory) (a cp b : Z) : option (memory * Z) :=
  let x := wrap_u 8 a in
  let y := wrap_u 8 (x - cp) in
  let cp := b2d (y >? x) in
  m ← wr m b (Z.lnot y); Some (m, cp).

(** A byte of the magnitude: stored as it is, or negated with the borrow [c]. *)
Definition out_byte (sign : bool) (m : memory) (x c buf : Z) : option (memory * Z) :=
  if sign then SUBc m x c buf else m ← wr m buf x; Some (m, c).

(** [k] bytes of the digit [d], or of the accumulator, lowest first. *)
Fixpoint out_bytes (sign : bool) (k : nat) (m : memory) (d c buf dir : Z) : option (memory * Z * Z * Z) :=  (* d, c, buf *)
  match k with
  | O => Some (m, d, c, buf)
  | S k' => '(m, c) ← out_byte sign m (Z.land d 255) c buf; out_bytes sign k' m (Z.shiftr d 8) c (buf + dir) dir
  end.

(** [sizeof(ErtsDigit)]. *)
Definition sizeof_digit : Z := Z.of_nat D_SIZE.

(** [n] bytes of the digits, little endian: [while (n >= sizeof(ErtsDigit))], then the rest of the last digit. *)
Fixpoint fmt_little (sign : bool) (m : memory) (dp : list Z) (n c buf : Z) : option (memory * Z * Z) :=    (* c, buf *)
  match dp with
  | d :: dp' =>
      if n >=? sizeof_digit then
        '(m, _, c, buf) ← out_bytes sign D_SIZE m d c buf 1;
        fmt_little sign m dp' (n - sizeof_digit) c buf
      else '(m, _, c, buf) ← out_bytes sign (Z.to_nat n) m d c buf 1; Some (m, c, buf)
  | [] => if n >? 0 then None else Some (m, c, buf)
  end.

(** The same, big endian: the bytes are stored downwards, shifted by [offs] bits; [acc] holds the bits of the last digit
    that are still to be stored. *)
Fixpoint fmt_big (sign : bool) (m : memory) (dp : list Z) (n acc offs c buf : Z) : option (memory * Z * Z * Z) :=   (* acc, c, buf *)
  match dp with
  | d :: dp' =>
      if n >=? sizeof_digit then
        let acc := Z.lor acc (dig (Z.shiftl d offs)) in
        '(m, c) ← out_byte sign m (Z.land acc 255) c buf;
        '(m, acc, c, buf) ← out_bytes sign (D_SIZE - 1) m (Z.shiftr d (8 - offs)) c (buf - 1) (-1);
        fmt_big sign m dp' (n - sizeof_digit) acc offs c buf
      else if n >? 0 then out_bytes sign (Z.to_nat n) m (Z.lor acc (dig (Z.shiftl d offs))) c buf (-1)
      else Some (m, acc, c, buf)
  | [] => if n >? 0 then None else Some (m, acc, c, buf)
  end.

Definition fmt_int_small (m : memory) (buf sz v offs : Z) (le : bool) : option memory :=
  if le then
    '(m, buf, v) ← COPY_VAL (Z.to_nat (sz - 1)) m buf 1 v;
    wr m buf (if offs =? 0 then Z.land v 255 else Z.land (Z.shiftl v (8 - offs)) 255)
  else
    let buf := buf + (sz - 1) in
    '(m, buf, sz, v) ← (if offs =? 0 then Some (m, buf, sz, v)
       else m ← wr m buf (Z.land (Z.shiftl v (8 - offs)) 255); Some (m, buf - 1, sz - 1, Z.shiftr v offs));
    '(m, _, _) ← COPY_VAL (Z.to_nat sz) m buf (-1) v; Some m.

Definition fmt_int_big (m : memory) (buf sz : Z) (sign : bool) (dp : list Z) (offs : Z) (le : bool) : option memory :=
  let ds := zlen dp * sizeof_digit in
  let n := Z.min sz ds in
  if le then
    let sz := sz - n in
    '(m, c, buf) ← fmt_little sign m dp n 1 buf;
    '(m, _, _, buf) ← out_bytes sign (Z.to_nat sz) m 0 c buf 1;
    if offs =? 0 then Some m
    else let buf := buf - 1 in b ← rd m buf; wr m buf (Z.shiftl b (8 - offs))
  else
    let buf := buf + (sz - 1) in
    let sz := sz - n in
    let offs := if offs =? 0 then 0 else 8 - offs in
    '(m, acc, c, buf) ← fmt_big sign m dp n 0 offs 1 buf;
    '(m, _, _, _) ← out_bytes sign (Z.to_nat sz) m acc c buf (-1); Some m.

(** The return code and the memory. *)
Definition fmt_int (m : memory) (buf sz : Z) (val : int_term) (size flags : Z) : option (Z * memory) :=
  let offs := BIT_OFFSET size in
  match val with
  | Small v => m ← fmt_int_small m buf sz v offs (little flags); Some (0, m)
  | Bignum sign dp => m ← fmt_int_big m buf sz sign dp offs (little flags); Some (0, m)
  | NIL => Some (-1, m)
  end.

(** ** Integers *)

(** [new_buf] is the block that [erts_realloc] returns. *)
Definition need_byte_buf (st : erl_bits_state) (need new_buf : Z) : erl_bits_state :=
  if byte_buf_len st <? need then BitsState new_buf need (erts_current_bin st) (erts_bin_offset st) else st.

Definition put_unaligned (m : memory) (st : erl_bits_state) (new_buf : Z) (arg : int_term) (num_bits flags : Z)
  : option (Z * memory * erl_bits_state) :=
  let st := need_byte_buf st (int32 (NBYTES num_bits)) new_buf in
  '(r, m) ← fmt_int m (byte_buf st) (NBYTES num_bits) arg num_bits flags;
  if r <? 0 then Some (0, m, st)
  else
    m ← erts_copy_bits m (byte_buf st) 0 1 (erts_current_bin st) (erts_bin_offset st) 1 num_bits;
    Some (1, m, advance st num_bits).

Definition erts_new_bs_put_integer (m : memory) (st : erl_bits_state) (new_buf : Z) (arg : int_term) (num_bits flags : Z)
  : option (Z * memory * erl_bits_state) :=
  let bin_offset := erts_bin_offset st in
  let finish (m : memory) := Some (1, m, advance st num_bits) in
  if num_bits =? 0 then Some (1, m, st)
  else
    let bit_offset := BIT_OFFSET bin_offset in
    let iptr := erts_current_bin st + BYTE_OFFSET bin_offset in
    match arg with
    | Small v =>
        let rbits := 8 - bit_offset in
        if bit_offset + num_bits <=? 8 then
          b ← rd m iptr;
          let b := Z.land b (Z.shiftl 255 rbits) in
          let b := Z.lor b (Z.shiftl (Z.land v (Z.shiftl 1 num_bits - 1)) (8 - bit_offset - num_bits)) in
          m ← wr m iptr b; finish m
        else if bit_offset =? 0 then
          '(_, m) ← fmt_int m iptr (NBYTES num_bits) arg num_bits flags; finish m
        else if little flags then put_unaligned m st new_buf arg num_bits flags
        else
          let shift_count := num_bits - rbits in
          b ← rd m iptr;
          let b := Z.land b (Z.shiftl 255 rbits) in
          let b := if shift_count <? D_EXP then Z.lor b (Z.land (Z.shiftr v shift_count) (Z.shiftl 1 rbits - 1))
                   else if v <? 0 then Z.lor b (Z.land (-1) (Z.shiftl 1 rbits - 1)) else b in
          m ← wr m iptr b;
          '(_, m) ← fmt_int m (iptr + 1) (NBYTES (num_bits - rbits)) arg (num_bits - rbits) flags; finish m
    | _ =>
        if bit_offset =? 0 then
          '(r, m) ← fmt_int m iptr (NBYTES num_bits) arg num_bits flags;
          if r <? 0 then Some (0, m, st) else finish m
        else put_unaligned m st new_buf arg num_bits flags
    end.

(** ** UTF-8 and UTF-16 *)

(** [dst[0] = ...; dst[1] = ...] *)
Fixpoint wr_list (m : memory) (dst : Z) (l : list Z) : option memory :=
  match l with [] => Some m | v :: l' => m ← wr m dst v; wr_list m (dst + 1) l' end.

(** The character in the destination, or in [tmp_buf]; then the copy, [num_bits] for the bytes written. *)
Definition put_char (m : memory) (st : erl_bits_state) (tmp_buf : Z) (bytes : list Z) : option (Z * memory * erl_bits_state) :=
  let bin_offset := erts_bin_offset st in
  let dst := if BIT_OFFSET bin_offset =? 0 then erts_current_bin st + BYTE_OFFSET bin_offset else tmp_buf in
  let num_bits := 8 * zlen bytes in
  m ← wr_list m dst bytes;
  m ← (if bin_offset =? 0 then Some m else erts_copy_bits m dst 0 1 (erts_current_bin st) bin_offset 1 num_bits);
  Some (1, m, advance st num_bits).

Definition erts_bs_put_utf8 (m : memory) (st : erl_bits_state) (tmp_buf : Z) (arg : int_term) : option (Z * memory * erl_bits_state) :=
  match arg with
  | Small val =>
      if val <? 0 then Some (0, m, st)
      else if val <? 128 then put_char m st tmp_buf [val]
      else if val <? 2048 then put_char m st tmp_buf [Z.lor 192 (Z.shiftr val 6); Z.lor 128 (Z.land val 63)]
      else if val <? 65536 then
        if (55296 <=? val) && (val <=? 57343) || (val =? 65534) || (val =? 65535) then Some (0, m, st)
        else put_char m st tmp_buf [Z.lor 224 (Z.shiftr val 12); Z.lor 128 (Z.land (Z.shiftr val 6) 63); Z.lor 128 (Z.land val 63)]
      else if val <? 1114112 then
        put_char m st tmp_buf [Z.lor 240 (Z.shiftr val 18); Z.lor 128 (Z.land (Z.shiftr val 12) 63);
                               Z.lor 128 (Z.land (Z.shiftr val 6) 63); Z.lor 128 (Z.land val 63)]
      else Some (0, m, st)
  | _ => Some (0, m, st)
  end.

Definition erts_bs_put_utf16 (m : memory) (st : erl_bits_state) (tmp_buf : Z) (arg : int_term) (flags : Z)
  : option (Z * memory * erl_bits_state) :=
  match arg with
  | Small z =>
      let val := unsigned_val z in
      if (val >? 1114111) || (55296 <=? val) && (val <=? 57343) || (val =? 65534) || (val =? 65535) then Some (0, m, st)
      else if val <? 65536 then
        if little flags then put_char m st tmp_buf [val; Z.shiftr val 8] else put_char m st tmp_buf [Z.shiftr val 8; val]
      else
        let val := val - 65536 in
        let w1 := wrap_u 16 (Z.lor 55296 (Z.shiftr val 10)) in
        let w2 := wrap_u 16 (Z.lor 56320 (Z.land val 1023)) in
        if little flags then put_char m st tmp_buf [w1; Z.shiftr w1 8; w2; Z.shiftr w2 8]
        else put_char m st tmp_buf [Z.shiftr w1 8; w1; Z.shiftr w2 8; w2]
  | _ => Some (0, m, st)
  end.

(** ** Binaries and strings *)
Definition copy_binary_to_buffer (m : memory) (DstBuffer DstBufOffset SrcBuffer SrcBufferOffset NumBits : Z) : option memory :=
  if (BIT_OFFSET DstBufOffset =? 0) && (SrcBufferOffset =? 0) && (BIT_OFFSET NumBits =? 0)
  then sys_memcpy m (DstBuffer + BYTE_OFFSET DstBufOffset) SrcBuffer (NBYTES NumBits)
  else erts_copy_bits m SrcBuffer SrcBufferOffset 1 DstBuffer DstBufOffset 1 NumBits.

(** [None] as the argument: not a binary. *)
Definition erts_new_bs_put_binary (m : memory) (st : erl_bits_state) (arg : option bin_term) (num_bits : Z)
  : option (Z * memory * erl_bits_state) :=
  match arg with
  | None => Some (0, m, st)
  | Some t =>
      let '(bptr, bitoffs, bitsize) := ERTS_GET_BINARY_BYTES t in
      if num_bits >? dig (8 * binary_size t + bitsize) then Some (0, m, st)
      else
        m ← copy_binary_to_buffer m (erts_current_bin st) (erts_bin_offset st) bptr bitoffs num_bits;
        Some (1, m, advance st num_bits)
  end.

Definition erts_new_bs_put_binary_all (m : memory) (st : erl_bits_state) (arg : option bin_term) (unit : Z)
  : option (Z * memory * erl_bits_state) :=
  match arg with
  | None => Some (0, m, st)
  | Some t =>
      let '(bptr, bitoffs, bitsize) := ERTS_GET_BINARY_BYTES t in
      let num_bits := dig (8 * binary_size t + bitsize) in
      if unit =? 0 then None
      else if (if unit =? 8 then negb (bitsize =? 0) else negb (unit =? 1) && negb (num_bits mod unit =? 0)) then Some (0, m, st)
      else
        m ← copy_binary_to_buffer m (erts_current_bin st) (erts_bin_offset st) bptr bitoffs num_bits;
        Some (1, m, advance st num_bits)
  end.

Definition erts_new_bs_put_string (m : memory) (st : erl_bits_state) (iptr num_bytes : Z) : option (memory * erl_bits_state) :=
  m ← (if BIT_OFFSET (erts_bin_offset st) =? 0
       then sys_memcpy m (erts_current_bin st + BYTE_OFFSET (erts_bin_offset st)) iptr num_bytes
       else erts_copy_bits m iptr 0 1 (erts_current_bin st) (erts_bin_offset st) 1 (dig (num_bytes * 8)));
  Some (m, advance st (dig (num_bytes * 8))).
End Build.
