(* ===== verification/BitsFmt.v ===== *)
(** [fmt_int]: the bytes it stores are those of the integer in two's complement, for smalls and bignums, in either byte order. *)

From Stdlib Require Import ZArith ZifyBool.
From stdpp Require Import base list numbers option gmap.
From S2P Require Import Prelude Big BigSpec BigBitsSpec BigTerm BigTermSpec BigOutSpec AllocMem Bits BitsSpec BitsBuild.
Local Open Scope Z_scope.
Ltac Zify.zify_post_hook ::= Z.to_euclidean_division_equations.

(** The [k] lowest bytes of [V], which may be negative, stored from [p] on in the direction [dir]. *)
Fixpoint stream (k : nat) (m : memory) (p dir V : Z) : memory :=
  match k with O => m | S k' => stream k' (<[p := V mod 256]> m) (p + dir) dir (V / 256) end.

(** [k] bytes can be stored from [p] on. *)
Definition room (m : memory) (p dir : Z) (k : nat) : Prop := ∀ i, 0 ≤ i < Z.of_nat k → is_Some (m !! (p + dir * i)).

Section Stream.
Context {dw : DigitWidth}.

Lemma room_S m p dir k v : room m p dir (S k) → is_Some (m !! p) ∧ room (<[p := v]> m) (p + dir) dir k.
Proof.
  intros H. split; [by specialize (H 0 ltac:(lia)); rewrite Z.mul_0_r, Z.add_0_r in H|].
  intros i Hi. specialize (H (i + 1) ltac:(lia)). replace (p + dir * (i + 1)) with (p + dir + dir * i) in H by lia.
  destruct (decide (p = p + dir + dir * i)) as [<-|N]; [rewrite lookup_insert_eq; eauto|by rewrite lookup_insert_ne].
Qed.

Lemma pow256_S k : 256 ^ Z.of_nat (S k) = 256 * 256 ^ Z.of_nat k.
Proof. rewrite Nat2Z.inj_succ, Z.pow_succ_r; lia. Qed.
Lemma pow256_pos k : 0 < 256 ^ Z.of_nat k.
Proof. apply Z.pow_pos_nonneg; lia. Qed.
Lemma div_pow256_S V k : V / 256 / 256 ^ Z.of_nat k = V / 256 ^ Z.of_nat (S k).
Proof. rewrite pow256_S. pose proof (pow256_pos k). by rewrite Z.div_div by lia. Qed.

Lemma stream_app j k m p dir V : stream (j + k) m p dir V = stream k (stream j m p dir V) (p + dir * Z.of_nat j) dir (V / 256 ^ Z.of_nat j).
Proof.
  revert m p V. induction j as [|j IH]; intros m p V; cbn [stream Nat.add].
  { by rewrite Z.mul_0_r, Z.add_0_r, Z.div_1_r. }
  rewrite IH. rewrite div_pow256_S. f_equal. lia.
Qed.

Lemma stream_out k dir : ∀ m p V a, (∀ i, 0 ≤ i < Z.of_nat k → a ≠ p + dir * i) → stream k m p dir V !! a = m !! a.
Proof.
  induction k as [|k IH]; intros m p V a H; cbn [stream]; [done|]. rewrite IH.
  - apply lookup_insert_ne. intros <-. apply (H 0); lia.
  - intros i Hi E. apply (H (i + 1)); lia.
Qed.

Lemma stream_in k dir : dir ≠ 0 → ∀ m p V i, 0 ≤ i < Z.of_nat k → stream k m p dir V !! (p + dir * i) = Some ((V / 256 ^ i) mod 256).
Proof.
  intros Hd. induction k as [|k IH]; intros m p V i Hi; [lia|]. cbn [stream]. destruct (decide (i = 0)) as [->|N].
  - rewrite Z.mul_0_r, Z.add_0_r, Z.div_1_r, stream_out; [apply lookup_insert_eq|]. intros j Hj E. nia.
  - replace (p + dir * i) with (p + dir + dir * (i - 1)) by lia. rewrite IH by lia. do 2 f_equal. rewrite Z.div_div by lia.
    f_equal. replace i with (Z.succ (i - 1)) at 2 by lia. by rewrite Z.pow_succ_r by lia.
Qed.

Lemma stream_is_Some k dir : ∀ m p V a, room m p dir k → is_Some (stream k m p dir V !! a) ↔ is_Some (m !! a).
Proof.
  induction k as [|k IH]; intros m p V a R; cbn [stream]; [done|]. destruct (room_S m p dir k (V mod 256) R) as [HS R'].
  rewrite IH by done. destruct (decide (a = p)) as [->|N]; [rewrite lookup_insert_eq; split; eauto|by rewrite lookup_insert_ne].
Qed.

Lemma stream_bytes k dir : ∀ m p V, bytes_mem m → bytes_mem (stream k m p dir V).
Proof. induction k as [|k IH]; intros m p V B; cbn [stream]; [done|]. apply IH. exact (bytes_mem_insert m p V B). Qed.

Lemma wr_mod m p V x : is_Some (m !! p) → x mod 256 = V mod 256 → wr m p x = Some (<[p := V mod 256]> m).
Proof. intros HS E. rewrite wr_ok by done. unfold wrap_u. change (2 ^ 8) with 256. by rewrite E. Qed.

(** ** COPY_VAL *)
Lemma COPY_VAL_spec k dir : ∀ m p v, room m p dir k →
  COPY_VAL k m p dir v = Some (stream k m p dir v, p + dir * Z.of_nat k, v / 256 ^ Z.of_nat k).
Proof.
  induction k as [|k IH]; intros m p v R; cbn [COPY_VAL stream]; [by rewrite Z.mul_0_r, Z.add_0_r, Z.div_1_r|].
  destruct (room_S m p dir k (v mod 256) R) as [HS R']. rewrite land_255, (wr_mod m p v) by (done || lia). cbn [mbind option_bind].
  rewrite shiftr_8, IH by done. rewrite div_pow256_S. by replace (p + dir + dir * Z.of_nat k) with (p + dir * Z.of_nat (S k)) by lia.
Qed.

(** ** Bytes of a magnitude *)

(** The integer that is stored when the magnitude [M] is left, with the borrow [c]. *)
Definition signed_rest (sign : bool) (M c : Z) : Z := if sign then - M - 1 + c else M.

Lemma out_byte_spec sign m M x c p : is_Some (m !! p) → 0 ≤ c ≤ 1 → x = M mod 256 →
  ∃ c', out_byte sign m x c p = Some (<[p := signed_rest sign M c mod 256]> m, c') ∧ 0 ≤ c' ≤ 1 ∧
    signed_rest sign (M / 256) c' = signed_rest sign M c / 256.
Proof.
  intros HS Hc ->. unfold out_byte, signed_rest. destruct sign.
  - unfold SUBc, wrap_u. change (2 ^ 8) with 256. rewrite Z.mod_mod by lia.
    rewrite (wr_mod m p (- M - 1 + c)); [|done|unfold Z.lnot; lia]. cbn [mbind option_bind].
    eexists. split; [reflexivity|]. unfold b2d. destruct (Z.gtb_spec ((M mod 256 - c) mod 256) (M mod 256)); lia.
  - rewrite (wr_mod m p M) by (done || lia). cbn [mbind option_bind]. eauto.
Qed.

Lemma out_bytes_spec sign k dir : ∀ m d M H c p, room m p dir k → 0 ≤ c ≤ 1 → M = d + 256 ^ Z.of_nat k * H →
  ∃ c', out_bytes sign k m d c p dir =
    Some (stream k m p dir (signed_rest sign M c), d / 256 ^ Z.of_nat k, c', p + dir * Z.of_nat k) ∧ 0 ≤ c' ≤ 1 ∧
    signed_rest sign (M / 256 ^ Z.of_nat k) c' = signed_rest sign M c / 256 ^ Z.of_nat k.
Proof.
  induction k as [|k IH]; intros m d M H c p R Hc EM; cbn [out_bytes stream].
  { exists c. rewrite Z.mul_0_r, Z.add_0_r, !Z.div_1_r. auto. }
  destruct (room_S m p dir k (signed_rest sign M c mod 256) R) as [HS R']. rewrite pow256_S in EM.
  destruct (out_byte_spec sign m M (Z.land d 255) c p HS Hc) as (c1 & -> & Hc1 & E1); [rewrite land_255; lia|].
  cbn [mbind option_bind]. rewrite shiftr_8.
  destruct (IH (<[p := signed_rest sign M c mod 256]> m) (d / 256) (M / 256) H c1 (p + dir) R' Hc1) as (c' & -> & Hc' & E'); [lia|].
  exists c'. rewrite !div_pow256_S, E1 in *. rewrite !div_pow256_S in E'.
  split; [by replace (p + dir + dir * Z.of_nat k) with (p + dir * Z.of_nat (S k)) by lia|done].
Qed.

Lemma room_app m p dir j k V : room m p dir (j + k) → room m p dir j ∧ room (stream j m p dir V) (p + dir * Z.of_nat j) dir k.
Proof.
  intros R. assert (room m p dir j) as Rj by (intros i Hi; apply R; lia). split; [done|]. intros i Hi. apply stream_is_Some; [done|].
  specialize (R (Z.of_nat j + i) ltac:(lia)). by replace (p + dir * Z.of_nat j + dir * i) with (p + dir * (Z.of_nat j + i)) by lia.
Qed.

Lemma sizeof_digit_pos : 0 < sizeof_digit.
Proof. destruct D_SIZE_spec. unfold sizeof_digit. lia. Qed.

(** ** Little endian *)
Lemma fmt_little_spec sign dp : ∀ m (n : nat) c p, digits dp → room m p 1 n → 0 ≤ c ≤ 1 → Z.of_nat n ≤ zlen dp * sizeof_digit →
  ∃ c', fmt_little sign m dp (Z.of_nat n) c p = Some (stream n m p 1 (signed_rest sign (val dp) c), c', p + Z.of_nat n) ∧ 0 ≤ c' ≤ 1 ∧
    signed_rest sign (val dp / 256 ^ Z.of_nat n) c' = signed_rest sign (val dp) c / 256 ^ Z.of_nat n.
Proof.
  destruct D_SIZE_spec as [EB HS]. induction dp as [|d dp IH]; intros m n c p D R Hc Hn; cbn [fmt_little].
  { cbn [length] in Hn. assert (n = O) as -> by lia. cbn. exists c. rewrite Z.add_0_r, !Z.div_1_r. auto. }
  apply Forall_cons in D as [Dd D]. cbn [length] in Hn. unfold sizeof_digit in *. destruct (Z.geb_spec (Z.of_nat n) (Z.of_nat D_SIZE)) as [Hge|Hlt].
  - set (k := (n - D_SIZE)%nat). assert (n = D_SIZE + k)%nat as Ek by lia. rewrite Ek in R.
    destruct (room_app m p 1 D_SIZE k (signed_rest sign (val (d :: dp)) c) R) as [R1 R2].
    destruct (out_bytes_spec sign D_SIZE 1 m d (val (d :: dp)) (val dp) c p R1 Hc) as (c1 & -> & Hc1 & E1); [cbn [val]; rewrite EB; lia|].
    cbn [mbind option_bind]. rewrite Z.mul_1_l in *.
    assert (val (d :: dp) / 256 ^ Z.of_nat D_SIZE = val dp) as Ev.
    { rewrite <- EB. cbn [val]. pose proof D_BASE_ge. rewrite Z.add_comm, Z.mul_comm, Z.div_add_l, Z.div_small by (unfold is_digit in Dd; lia). lia. }
    rewrite Ev in E1. replace (Z.of_nat n - Z.of_nat D_SIZE) with (Z.of_nat k) by lia.
    destruct (IH (stream D_SIZE m p 1 (signed_rest sign (val (d :: dp)) c)) k c1 (p + Z.of_nat D_SIZE) D R2 Hc1) as (c' & -> & Hc' & E'); [lia|].
    exists c'. rewrite Ek, stream_app, Z.mul_1_l, <- E1.
    split; [by replace (p + Z.of_nat D_SIZE + Z.of_nat k) with (p + Z.of_nat (D_SIZE + k)) by lia|]. split; [done|].
    rewrite Nat2Z.inj_add, Z.pow_add_r, <- !Z.div_div, Ev, <- E1 by (pose proof (pow256_pos D_SIZE); pose proof (pow256_pos k); lia). done.
  - set (H := D_BASE / 256 ^ Z.of_nat n * val dp).
    destruct (out_bytes_spec sign n 1 m d (val (d :: dp)) H c p R Hc) as (c1 & E & Hc1 & E1).
    { subst H. cbn [val]. rewrite EB. replace (Z.of_nat D_SIZE) with (Z.of_nat (D_SIZE - n) + Z.of_nat n) by lia. rewrite Z.pow_add_r by lia.
      rewrite Z.div_mul by (pose proof (pow256_pos n); lia). lia. }
    rewrite Nat2Z.id, E. cbn [mbind option_bind]. exists c1. rewrite Z.mul_1_l. auto.
Qed.

(** ** Big endian *)
Lemma lor_acc acc d offs : 0 ≤ offs < 8 → 0 ≤ acc < 2 ^ offs → is_digit d →
  Z.lor acc (dig (Z.shiftl d offs)) = acc + (d * 2 ^ offs) mod D_BASE.
Proof.
  intros Ho Ha Hd. unfold dig. rewrite Z.shiftl_mul_pow2 by lia. pose proof D_EXP_ge.
  assert (D_BASE = 2 ^ offs * 2 ^ (D_EXP - offs)) as EB by (unfold D_BASE; rewrite <- Z.pow_add_r by lia; f_equal; lia).
  rewrite EB at 1. rewrite (Z.mul_comm d), Zmult_mod_distr_l, Z.mul_comm. rewrite <- Z.shiftl_mul_pow2, lor_shiftl_add' by lia.
  f_equal. rewrite EB, Zmult_mod_distr_l. lia.
Qed.

(** The digit's bits above the first byte. *)
Lemma acc_rest acc d offs : 0 ≤ offs < 8 → 0 ≤ acc < 2 ^ offs → (acc + d * 2 ^ offs) / 256 = Z.shiftr d (8 - offs).
Proof.
  intros Ho Ha. rewrite Z.shiftr_div_pow2 by lia. replace 256 with (2 ^ offs * 2 ^ (8 - offs)) by (rewrite <- Z.pow_add_r by lia; by replace (offs + (8 - offs)) with 8 by lia).
  rewrite <- Z.div_div, Z.div_add, (Z.div_small acc) by lia. done.
Qed.

Lemma digit_step acc d offs V : 0 ≤ offs < 8 → 0 ≤ acc < 2 ^ offs → is_digit d →
  let T := acc + 2 ^ offs * (d + D_BASE * V) in
  Z.land (Z.lor acc (dig (Z.shiftl d offs))) 255 = T mod 256 ∧
  T / 256 = Z.shiftr d (8 - offs) + 256 ^ Z.of_nat (D_SIZE - 1) * (2 ^ offs * V) ∧
  0 ≤ Z.shiftr d (8 - offs) / 256 ^ Z.of_nat (D_SIZE - 1) < 2 ^ offs.
Proof.
  intros Ho Ha Hd. cbv zeta. destruct D_SIZE_spec as [EB HS]. pose proof (pow256_pos (D_SIZE - 1)) as P.
  assert (D_BASE = 256 * 256 ^ Z.of_nat (D_SIZE - 1)) as EB' by (rewrite EB, <- pow256_S; do 2 f_equal; lia).
  split; [|split].
  - rewrite land_255, lor_acc by done. rewrite <- Zplus_mod_idemp_r, Z.mod_mod_divide, Zplus_mod_idemp_r by (exists (256 ^ Z.of_nat (D_SIZE - 1)); lia).
    replace (acc + 2 ^ offs * (d + D_BASE * V)) with (acc + d * 2 ^ offs + (2 ^ offs * 256 ^ Z.of_nat (D_SIZE - 1) * V) * 256) by lia.
    by rewrite Z.mod_add by lia.
  - rewrite EB'. replace (acc + 2 ^ offs * (d + 256 * 256 ^ Z.of_nat (D_SIZE - 1) * V)) with
      (acc + d * 2 ^ offs + (2 ^ offs * 256 ^ Z.of_nat (D_SIZE - 1) * V) * 256) by lia.
    rewrite Z.div_add, acc_rest by (done || lia). lia.
  - rewrite Z.shiftr_div_pow2, Z.div_div by lia. split; [apply Z.div_pos; [apply Hd|lia]|]. apply Z.div_lt_upper_bound; [lia|].
    destruct Hd as [_ Hd]. assert (2 ^ (8 - offs) * 2 ^ offs = 256) as E8 by (rewrite <- Z.pow_add_r by lia; by replace (8 - offs + offs) with 8 by lia).
    rewrite EB' in Hd. nia.
Qed.

(** One whole digit. *)
Lemma fmt_digit sign m acc d offs V c p : room m p (-1) D_SIZE → 0 ≤ c ≤ 1 → 0 ≤ offs < 8 → 0 ≤ acc < 2 ^ offs → is_digit d →
  let T := acc + 2 ^ offs * (d + D_BASE * V) in
  ∃ m1 c1 acc' c', out_byte sign m (Z.land (Z.lor acc (dig (Z.shiftl d offs))) 255) c p = Some (m1, c1) ∧
    out_bytes sign (D_SIZE - 1) m1 (Z.shiftr d (8 - offs)) c1 (p - 1) (-1) =
      Some (stream D_SIZE m p (-1) (signed_rest sign T c), acc', c', p - Z.of_nat D_SIZE) ∧
    0 ≤ c' ≤ 1 ∧ 0 ≤ acc' < 2 ^ offs ∧ T / 256 ^ Z.of_nat D_SIZE = acc' + 2 ^ offs * V ∧
    signed_rest sign (T / 256 ^ Z.of_nat D_SIZE) c' = signed_rest sign T c / 256 ^ Z.of_nat D_SIZE.
Proof.
  intros R Hc Ho Ha Hd T. destruct D_SIZE_spec as [EB HS]. destruct (digit_step acc d offs V Ho Ha Hd) as (E1 & E2 & Hacc). fold T in E1, E2.
  assert (D_SIZE = S (D_SIZE - 1)) as ES by lia. set (k := (D_SIZE - 1)%nat) in *. rewrite ES in R |- *.
  destruct (room_S m p (-1) k (signed_rest sign T c mod 256) R) as [HSp R'].
  destruct (out_byte_spec sign m T _ c p HSp Hc E1) as (c1 & Eo & Hc1 & Ec1).
  destruct (out_bytes_spec sign k (-1) _ (Z.shiftr d (8 - offs)) (T / 256) (2 ^ offs * V) c1 (p + -1) R' Hc1 E2) as (c' & Eo' & Hc' & Ec').
  exists (<[p := signed_rest sign T c mod 256]> m), c1, (Z.shiftr d (8 - offs) / 256 ^ Z.of_nat k), c'. split; [done|]. cbn [stream].
  rewrite Ec1 in *. rewrite div_pow256_S in *. replace (p - 1) with (p + -1) by lia. replace (p - Z.of_nat (S k)) with (p + -1 + -1 * Z.of_nat k) by lia.
  split; [done|]. split; [done|]. split; [done|]. split; [|by rewrite Ec', div_pow256_S].
  rewrite <- div_pow256_S, E2, (Z.mul_comm (256 ^ Z.of_nat k)), Z.div_add by (pose proof (pow256_pos k); lia). done.
Qed.

(** A part of a digit. *)
Lemma fmt_part sign m acc d offs V c p n : room m p (-1) n → 0 ≤ c ≤ 1 → 0 ≤ offs < 8 → 0 ≤ acc < 2 ^ offs → is_digit d → (n < D_SIZE)%nat →
  let T := acc + 2 ^ offs * (d + D_BASE * V) in
  ∃ acc' c', out_bytes sign n m (Z.lor acc (dig (Z.shiftl d offs))) c p (-1) =
      Some (stream n m p (-1) (signed_rest sign T c), acc', c', p - Z.of_nat n) ∧ 0 ≤ c' ≤ 1 ∧
    signed_rest sign (T / 256 ^ Z.of_nat n) c' = signed_rest sign T c / 256 ^ Z.of_nat n.
Proof.
  intros R Hc Ho Ha Hd Hn T. destruct D_SIZE_spec as [EB HS].
  assert (D_BASE = 256 ^ Z.of_nat n * 256 ^ Z.of_nat (D_SIZE - n)) as EB' by (rewrite EB, <- Z.pow_add_r by lia; f_equal; lia).
  rewrite lor_acc by done. pose proof D_BASE_ge. set (q := d * 2 ^ offs / D_BASE).
  destruct (out_bytes_spec sign n (-1) m (acc + (d * 2 ^ offs) mod D_BASE) T (256 ^ Z.of_nat (D_SIZE - n) * (q + 2 ^ offs * V)) c p R Hc) as (c' & E & Hc' & Ec').
  { subst T. rewrite Z.mul_assoc, <- EB', (Z.mod_eq (d * 2 ^ offs)) by lia. subst q. lia. }
  eexists _, c'. rewrite E. replace (p + -1 * Z.of_nat n) with (p - Z.of_nat n) by lia. eauto.
Qed.

Lemma fmt_big_spec sign offs dp : 0 ≤ offs < 8 → ∀ m (n : nat) acc c p, digits dp → room m p (-1) n → 0 ≤ c ≤ 1 → 0 ≤ acc < 2 ^ offs →
  Z.of_nat n ≤ zlen dp * sizeof_digit →
  let T := acc + 2 ^ offs * val dp in
  ∃ acc' c', fmt_big sign m dp (Z.of_nat n) acc offs c p = Some (stream n m p (-1) (signed_rest sign T c), acc', c', p - Z.of_nat n) ∧ 0 ≤ c' ≤ 1 ∧
    signed_rest sign (T / 256 ^ Z.of_nat n) c' = signed_rest sign T c / 256 ^ Z.of_nat n ∧
    (Z.of_nat n = zlen dp * sizeof_digit → acc' = T / 256 ^ Z.of_nat n).
Proof.
  intros Ho. destruct D_SIZE_spec as [EB HS]. induction dp as [|d dp IH]; intros m n acc c p D R Hc Ha Hn T; cbn [fmt_big].
  { cbn [length] in Hn. assert (n = O) as -> by lia. cbn. exists acc, c. subst T. cbn. rewrite Z.sub_0_r, Z.mul_0_r, Z.add_0_r, !Z.div_1_r. auto. }
  apply Forall_cons in D as [Dd D]. cbn [length val] in *. unfold sizeof_digit in *. destruct (Z.geb_spec (Z.of_nat n) (Z.of_nat D_SIZE)) as [Hge|Hlt].
  - set (k := (n - D_SIZE)%nat). assert (n = D_SIZE + k)%nat as Ek by lia. rewrite Ek in R.
    destruct (room_app m p (-1) D_SIZE k (signed_rest sign T c) R) as [R1 R2].
    destruct (fmt_digit sign m acc d offs (val dp) c p R1 Hc Ho Ha Dd) as (m1 & c1 & acc1 & c2 & -> & E2 & Hc2 & Ha1 & ET & Es). fold T in E2, ET, Es.
    cbn [mbind option_bind]. rewrite E2. cbn [mbind option_bind]. replace (Z.of_nat n - Z.of_nat D_SIZE) with (Z.of_nat k) by lia.
    replace (p + -1 * Z.of_nat D_SIZE) with (p - Z.of_nat D_SIZE) in R2 by lia.
    destruct (IH _ k acc1 c2 (p - Z.of_nat D_SIZE) D R2 Hc2 Ha1) as (acc' & c' & -> & Hc' & Es' & Hacc); [lia|].
    exists acc', c'. rewrite Ek, stream_app. replace (p + -1 * Z.of_nat D_SIZE) with (p - Z.of_nat D_SIZE) by lia.
    rewrite <- ET, Es in Es'. rewrite <- ET in Hacc |- *. rewrite Es in *. rewrite ET in *.
    replace (p - Z.of_nat D_SIZE - Z.of_nat k) with (p - Z.of_nat (D_SIZE + k)) by lia. split; [done|]. split; [done|].
    rewrite Nat2Z.inj_add, Z.pow_add_r, <- !Z.div_div, ET by (pose proof (pow256_pos D_SIZE); pose proof (pow256_pos k); lia).
    split; [done|]. intros Hk. apply Hacc. lia.
  - destruct (Z.gtb_spec (Z.of_nat n) 0).
    + rewrite Nat2Z.id. destruct (fmt_part sign m acc d offs (val dp) c p n R Hc Ho Ha Dd ltac:(lia)) as (acc' & c' & -> & Hc' & Es).
      exists acc', c'. split; [done|]. split; [done|]. split; [done|]. lia.
    + assert (n = O) as -> by lia. cbn [stream]. exists acc, c. change (256 ^ Z.of_nat 0) with 1. rewrite !Z.div_1_r, Z.sub_0_r. split; [done|]. split; [done|]. split; [done|].
      lia.
Qed.

(** ** The whole function *)

(** The unused bits of the last byte. *)
Definition pad_bits (size : Z) : Z := (8 - size mod 8) mod 8.

(** The memory with the integer [v] in the bytes at [buf]: the unused bits are the low ones of the last byte. *)
Definition fmt_mem (le : bool) (m : memory) (buf : Z) (sz : nat) (size v : Z) : memory :=
  if le then <[buf + Z.of_nat (sz - 1) := (v / 256 ^ Z.of_nat (sz - 1) * 2 ^ pad_bits size) mod 256]> (stream (sz - 1) m buf 1 v)
  else stream sz m (buf + (Z.of_nat sz - 1)) (-1) (v * 2 ^ pad_bits size).

(** The value of an argument that is an integer. *)
Definition int_arg (t : int_term) (v : Z) : Prop :=
  match t with Small z => z = v ∧ in_small v | Bignum sign ds => big_digits_ok ds ∧ sval sign ds = v | NIL => False end.

Lemma room_rev m buf sz : room m buf 1 sz → room m (buf + (Z.of_nat sz - 1)) (-1) sz.
Proof.
  intros R i Hi. specialize (R (Z.of_nat sz - 1 - i) ltac:(lia)).
  by replace (buf + (Z.of_nat sz - 1) + -1 * i) with (buf + 1 * (Z.of_nat sz - 1 - i)) by lia.
Qed.
Lemma room_le m p dir j k : room m p dir k → (j ≤ k)%nat → room m p dir j.
Proof. intros R H i Hi. apply R. lia. Qed.

Lemma pad_bits_cases size : (size mod 8 =? 0) = true ∧ pad_bits size = 0 ∨ (size mod 8 =? 0) = false ∧ pad_bits size = 8 - size mod 8 ∧ 0 < size mod 8 < 8.
Proof. unfold pad_bits. destruct (Z.eqb_spec (size mod 8) 0); [left|right]; lia. Qed.

Lemma fmt_int_small_spec m buf sz v size le : room m buf 1 sz → (0 < sz)%nat →
  fmt_int_small m buf (Z.of_nat sz) v (size mod 8) le = Some (fmt_mem le m buf sz size v).
Proof.
  intros R Hs. unfold fmt_int_small, fmt_mem. destruct le.
  - replace (Z.to_nat (Z.of_nat sz - 1)) with (sz - 1)%nat by lia. assert (sz = (sz - 1) + 1)%nat as Esz by lia. rewrite Esz in R.
    destruct (room_app m buf 1 (sz - 1) 1 v R) as [R1 R2]. rewrite COPY_VAL_spec by done. cbn [mbind option_bind].
    specialize (R2 0 ltac:(lia)). rewrite Z.mul_1_l, Z.mul_0_r, Z.add_0_r in *.
    destruct (pad_bits_cases size) as [[-> Hp]|(-> & Hp & H8)]; rewrite Hp, !land_255; apply wr_mod; try done.
    + rewrite Z.mul_1_r. lia.
    + rewrite Z.shiftl_mul_pow2 by lia. lia.
  - apply room_rev in R. destruct (pad_bits_cases size) as [[-> Hp]|(-> & Hp & H8)]; rewrite Hp.
    + cbn [mbind option_bind]. by rewrite Nat2Z.id, COPY_VAL_spec, Z.mul_1_r by done.
    + replace sz with (S (sz - 1)) in R |- * by lia. destruct (room_S _ _ _ _ ((v * 2 ^ (8 - size mod 8)) mod 256) R) as [HS R'].
      rewrite land_255, Z.shiftl_mul_pow2, (wr_mod _ _ (v * 2 ^ (8 - size mod 8))) by (done || lia). cbn [mbind option_bind].
      replace (Z.to_nat (Z.of_nat (S (sz - 1)) - 1)) with (sz - 1)%nat by lia.
      replace (buf + (Z.of_nat (S (sz - 1)) - 1) - 1) with (buf + (Z.of_nat (S (sz - 1)) - 1) + -1) by lia.
      rewrite COPY_VAL_spec by done. cbn [mbind option_bind stream]. do 2 f_equal.
      rewrite Z.shiftr_div_pow2 by lia. replace 256 with (2 ^ (size mod 8) * 2 ^ (8 - size mod 8)) at 1 by (rewrite <- Z.pow_add_r by lia; by replace (size mod 8 + (8 - size mod 8)) with 8 by lia).
      by rewrite Z.div_mul_cancel_r by lia.
Qed.

Lemma signed_rest_start sign M : signed_rest sign M 1 = if sign then - M else M.
Proof. unfold signed_rest. destruct sign; lia. Qed.

Lemma val_digits_bound dp : digits dp → 0 ≤ val dp < 256 ^ (zlen dp * sizeof_digit).
Proof.
  intros D. destruct D_SIZE_spec as [EB _]. pose proof (val_range dp D) as V. unfold base_pow in V. rewrite EB in V. unfold sizeof_digit.
  rewrite <- Z.pow_mul_r in V by lia. by rewrite Z.mul_comm in V.
Qed.

(** [n] bytes of the digits and [sz - n] bytes of padding. *)
Lemma fmt_big_split (sz : nat) (dp : list Z) : ∃ n p : nat, Z.min (Z.of_nat sz) (zlen dp * sizeof_digit) = Z.of_nat n ∧ (sz = n + p)%nat ∧
  Z.of_nat n ≤ zlen dp * sizeof_digit ∧ (p = O ∨ Z.of_nat n = zlen dp * sizeof_digit).
Proof.
  pose proof sizeof_digit_pos. set (ds := zlen dp * sizeof_digit). assert (0 ≤ ds) by lia.
  exists (Z.to_nat (Z.min (Z.of_nat sz) ds)), (sz - Z.to_nat (Z.min (Z.of_nat sz) ds))%nat. lia.
Qed.

Lemma fmt_int_little_spec m buf sz sign dp size : room m buf 1 sz → (0 < sz)%nat → digits dp →
  fmt_int_big m buf (Z.of_nat sz) sign dp (size mod 8) true = Some (fmt_mem true m buf sz size (sval sign dp)).
Proof.
  intros R Hs D. unfold fmt_int_big. destruct (fmt_big_split sz dp) as (n & p & -> & Esz & Hn & Hp). rewrite Esz in R |- *.
  assert (sval sign dp = signed_rest sign (val dp) 1) as Ev by (rewrite signed_rest_start; done). rewrite Ev. set (V := signed_rest sign (val dp) 1).
  destruct (room_app m buf 1 n p V R) as [R1 R2]. rewrite Z.mul_1_l in R2.
  destruct (fmt_little_spec sign dp m n 1 buf D R1 ltac:(lia) Hn) as (c & -> & Hc & Ec). cbn [mbind option_bind]. fold V in Ec |- *.
  replace (Z.to_nat (Z.of_nat (n + p) - Z.of_nat n)) with p by lia.
  destruct (out_bytes_spec sign p 1 (stream n m buf 1 V) 0 (val dp / 256 ^ Z.of_nat n) (if decide (p = O) then val dp / 256 ^ Z.of_nat n else 0) c
    (buf + Z.of_nat n) R2 Hc) as (c' & -> & _ & _).
  { destruct (decide (p = O)) as [->|N]; [change (256 ^ Z.of_nat 0) with 1; lia|]. destruct Hp as [?|Hp]; [done|]. rewrite Hp, Z.div_small; [lia|].
    by apply val_digits_bound. }
  cbn [mbind option_bind]. rewrite Ec, Z.mul_1_l.
  assert (stream p (stream n m buf 1 V) (buf + Z.of_nat n) 1 (V / 256 ^ Z.of_nat n) = stream sz m buf 1 V) as -> by (by rewrite Esz, stream_app, Z.mul_1_l).
  rewrite <- Esz.
  assert (stream sz m buf 1 V = <[buf + Z.of_nat (sz - 1) := V / 256 ^ Z.of_nat (sz - 1) mod 256]> (stream (sz - 1) m buf 1 V)) as ES.
  { replace sz with (sz - 1 + 1)%nat at 1 by lia. rewrite stream_app. cbn [stream]. by rewrite Z.mul_1_l. }
  rewrite ES. unfold fmt_mem. destruct (pad_bits_cases size) as [[-> Hpad]|(-> & Hpad & H8)]; rewrite Hpad.
  { by rewrite Z.mul_1_r. }
  replace (buf + Z.of_nat n + Z.of_nat p - 1) with (buf + Z.of_nat (sz - 1)) by lia. unfold rd. rewrite lookup_insert_eq. cbn [mbind option_bind].
  rewrite (wr_mod _ _ (V / 256 ^ Z.of_nat (sz - 1) * 2 ^ (8 - size mod 8))); [by rewrite insert_insert_eq|by rewrite lookup_insert_eq; eauto|].
  rewrite Z.shiftl_mul_pow2, Zmult_mod_idemp_l by lia. done.
Qed.

Lemma fmt_int_bigendian_spec m buf sz sign dp size : room m buf 1 sz → (0 < sz)%nat → digits dp →
  fmt_int_big m buf (Z.of_nat sz) sign dp (size mod 8) false = Some (fmt_mem false m buf sz size (sval sign dp)).
Proof.
  intros R Hs D. apply room_rev in R. unfold fmt_int_big, fmt_mem. destruct (fmt_big_split sz dp) as (n & p & -> & Esz & Hn & Hp).
  assert ((if size mod 8 =? 0 then 0 else 8 - size mod 8) = pad_bits size) as ->.
  { destruct (pad_bits_cases size) as [[-> ->]|(-> & -> & _)]; done. }
  assert (0 ≤ pad_bits size < 8) as Ho by (unfold pad_bits; lia). set (s := pad_bits size) in *.
  set (T := 0 + 2 ^ s * val dp). assert (sval sign dp * 2 ^ s = signed_rest sign T 1) as ->.
  { rewrite signed_rest_start. subst T. unfold sval. destruct sign; lia. }
  set (V := signed_rest sign T 1). set (b0 := buf + (Z.of_nat sz - 1)) in *. rewrite Esz in R |- *.
  destruct (room_app m b0 (-1) n p V R) as [R1 R2].
  destruct (fmt_big_spec sign s dp Ho m n 0 1 b0 D R1 ltac:(lia)) as (acc & c & -> & Hc & Ec & Hacc); [lia|lia|]. fold T in Ec, Hacc |- *. fold V in Ec |- *.
  cbn [mbind option_bind]. replace (Z.to_nat (Z.of_nat (n + p) - Z.of_nat n)) with p by lia. replace (b0 - Z.of_nat n) with (b0 + -1 * Z.of_nat n) by lia.
  destruct (out_bytes_spec sign p (-1) (stream n m b0 (-1) V) acc (T / 256 ^ Z.of_nat n) (if decide (p = O) then T / 256 ^ Z.of_nat n - acc else 0) c
    (b0 + -1 * Z.of_nat n) R2 Hc) as (c' & -> & _ & _).
  { destruct (decide (p = O)) as [->|N]; [change (256 ^ Z.of_nat 0) with 1; lia|]. destruct Hp as [?|Hp]; [done|]. rewrite (Hacc Hp). lia. }
  cbn [mbind option_bind]. by rewrite Ec, <- stream_app.
Qed.

Lemma fmt_int_spec m buf sz t v size flags : room m buf 1 sz → (0 < sz)%nat → int_arg t v →
  fmt_int m buf (Z.of_nat sz) t size flags = Some (0, fmt_mem (little flags) m buf sz size v).
Proof.
  intros R Hs A. unfold fmt_int. rewrite BIT_OFFSET_eq. destruct t as [z|sign dp|]; [|destruct A as ((D & _) & <-)|done].
  - destruct A as [-> _]. by rewrite fmt_int_small_spec.
  - destruct (little flags); [rewrite fmt_int_little_spec by done|rewrite fmt_int_bigendian_spec by done]; done.
Qed.
End Stream.
