(* ===== verification/BitsPut.v ===== *)
(** What the [bs_put] functions of [BitsBuild.v] add to the binary under construction: the bits of the field, behind the bits
    that are there already. *)

From Stdlib Require Import ZArith ZifyBool.
From stdpp Require Import base list numbers option gmap.
From S2P Require Import Prelude Big BigSpec BigBitsSpec BigTerm BigTermSpec BigOutSpec AllocMem Bits BitsSpec BitsBuild BitsFmt.
Local Open Scope Z_scope.
Ltac Zify.zify_post_hook ::= Z.to_euclidean_division_equations.

(** Bit [k] of a field of [size] bits with the integer [v].  Big endian: the bits of [v] from the most significant one on.  Little endian:
    the bytes from the least significant one on, the last one with the bits that are left. *)
Definition int_bit (le : bool) (size v k : Z) : bool :=
  if le then Z.testbit v (8 * (k / 8) + Z.min 8 (size - 8 * (k / 8)) - 1 - k mod 8) else Z.testbit v (size - 1 - k).

(** Addresses of temporary buffers, which the functions may overwrite. *)
Section Put.
Context {dw : DigitWidth}.
Variable scratch : Z → Prop.

(** [m'] is [m] with the [n] bits [f] at the offset [off] of the binary; behind them, the rest of the last byte is arbitrary. *)
Definition placed (m m' : memory) (bin off n : Z) (f : Z → bool) : Prop :=
  bytes_mem m' ∧ (∀ a, is_Some (m' !! a) ↔ is_Some (m !! a)) ∧
  (∀ k, 0 ≤ k < n → bit m' bin 1 (off + k) = f k) ∧
  (∀ k, 0 ≤ k < off → bit m' bin 1 k = bit m bin 1 k) ∧
  (∀ a, ¬ scratch a → (∀ k, off ≤ k < off + n → a ≠ bin + k / 8) → m' !! a = m !! a).

(** A temporary buffer of [n] bytes. *)
Definition is_scratch (m : memory) (p n : Z) : Prop := ∀ i, 0 ≤ i < n → scratch (p + i) ∧ is_Some (m !! (p + i)).

(** The binary up to bit [e] is mapped, and no temporary buffer. *)
Definition bin_ok (m : memory) (bin e : Z) : Prop := ∀ k, 0 ≤ k < e → is_Some (m !! (bin + k / 8)) ∧ ¬ scratch (bin + k / 8).

Lemma bin_ok_mapped m bin off n : 0 ≤ off → bin_ok m bin (off + n) → bits_mapped m bin 1 off n.
Proof. intros Ho H k Hk. rewrite Z.mul_1_l. apply H. lia. Qed.

(** ** Bits of bytes *)
Lemma fmt_mem_out le m buf sz size v a : (0 < sz)%nat → (∀ i, 0 ≤ i < Z.of_nat sz → a ≠ buf + i) → fmt_mem le m buf sz size v !! a = m !! a.
Proof.
  intros Hs Ha. unfold fmt_mem. destruct le.
  - rewrite lookup_insert_ne by (intros E; apply (Ha (Z.of_nat (sz - 1))); lia). apply stream_out. intros i Hi E. apply (Ha i); lia.
  - apply stream_out. intros i Hi E. apply (Ha (Z.of_nat sz - 1 - i)); lia.
Qed.

Lemma fmt_mem_is_Some le m buf sz size v a : (0 < sz)%nat → room m buf 1 sz → is_Some (fmt_mem le m buf sz size v !! a) ↔ is_Some (m !! a).
Proof.
  intros Hs R. unfold fmt_mem. destruct le; [|apply stream_is_Some, room_rev, R].
  assert (room m buf 1 (sz - 1)) as R1 by (by apply (room_le m buf 1 _ sz); [|lia]).
  destruct (decide (a = buf + Z.of_nat (sz - 1))) as [->|N]; [|rewrite lookup_insert_ne by done; by apply stream_is_Some].
  rewrite lookup_insert_eq. split; [intros _|eauto]. specialize (R (Z.of_nat (sz - 1)) ltac:(lia)). by rewrite Z.mul_1_l in R.
Qed.

Lemma fmt_mem_bytes le m buf sz size v : bytes_mem m → bytes_mem (fmt_mem le m buf sz size v).
Proof.
  intros B. unfold fmt_mem. destruct le; [|by apply stream_bytes]. apply (bytes_mem_insert _ _ (v / 256 ^ Z.of_nat (sz - 1) * 2 ^ pad_bits size)).
  by apply stream_bytes.
Qed.

Lemma fmt_mem_bit le m buf sz size v k : 0 ≤ k < size → Z.of_nat sz = (size + 7) / 8 → bit (fmt_mem le m buf sz size v) buf 1 k = int_bit le size v k.
Proof.
  intros Hk Hsz. unfold bit, fmt_mem, int_bit. rewrite Z.mul_1_l. dm8 k. destruct le.
  - destruct (decide (k / 8 = Z.of_nat (sz - 1))) as [E|E].
    + rewrite E, lookup_insert_eq. rewrite <- (Z.div_1_r (_ * _)). change 1 with (256 ^ 0) at 1. rewrite byte_bit, mul_pow2_bits by (lia || unfold pad_bits; lia).
      change 256 with (2 ^ 8). rewrite <- Z.pow_mul_r, <- Z.shiftr_div_pow2 by lia. unfold pad_bits in *.
      rewrite Z.shiftr_spec by lia. f_equal. lia.
    + rewrite lookup_insert_ne by lia. rewrite <- (Z.mul_1_l (k / 8)), stream_in, byte_bit by lia. f_equal. lia.
  - set (i := Z.of_nat sz - 1 - k / 8). replace (buf + k / 8) with (buf + (Z.of_nat sz - 1) + -1 * i) by lia.
    rewrite stream_in, byte_bit, mul_pow2_bits by (unfold pad_bits; lia). f_equal. unfold pad_bits. lia.
Qed.

(** ** Whole bytes written at a byte boundary *)
Lemma placed_fmt le m bin off n v sz : bytes_mem m → 0 ≤ off → off mod 8 = 0 → 0 < n → Z.of_nat sz = (n + 7) / 8 →
  bin_ok m bin (off + n) → room m (bin + off / 8) 1 sz ∧ placed m (fmt_mem le m (bin + off / 8) sz n v) bin off n (int_bit le n v).
Proof.
  intros B Ho H8 Hn Hsz OK. assert (room m (bin + off / 8) 1 sz) as R.
  { intros i Hi. rewrite Z.mul_1_l. destruct (OK (off + 8 * i)) as [HS _]; [lia|]. by replace (bin + off / 8 + i) with (bin + (off + 8 * i) / 8) by lia. }
  split; [done|]. split; [by apply fmt_mem_bytes|]. split; [intros a; by apply fmt_mem_is_Some; [lia|]|]. split; [|split].
  - intros k Hk. rewrite <- (fmt_mem_bit le m (bin + off / 8) sz) by done. set (m' := fmt_mem _ _ _ _ _ _).
    pose proof (bit_shift m' bin 1 k (off / 8)) as E. rewrite Z.mul_1_l in E. rewrite E. f_equal. lia.
  - intros k Hk. unfold bit. rewrite fmt_mem_out by lia. done.
  - intros a _ Ha. apply fmt_mem_out; [lia|]. intros i Hi E. apply (Ha (off + 8 * i)); lia.
Qed.

(** ** Bits copied from a temporary buffer *)
Lemma field_copied_placed m m1 m2 src soffs bin off n (f : Z → bool) : 0 ≤ off → 0 ≤ n →
  (∀ a, is_Some (m1 !! a) ↔ is_Some (m !! a)) → (∀ a, ¬ scratch a → m1 !! a = m !! a) → bin_ok m bin (off + n) →
  (∀ k, 0 ≤ k < n → bit m1 src 1 (soffs + k) = f k) → field_copied m1 m2 src soffs 1 bin off 1 n → placed m m2 bin off n f.
Proof.
  intros Ho Hn D1 F1 OK Hf (B & [D2 F2] & K). split; [done|]. split; [intros a; by rewrite D2, D1|]. split; [|split].
  - intros k Hk. rewrite K, bool_decide_eq_true_2 by lia. rewrite <- Hf by done. f_equal. lia.
  - intros k Hk. rewrite K, bool_decide_eq_false_2 by lia. unfold bit. rewrite Z.mul_1_l. rewrite F1; [done|]. apply OK. lia.
  - intros a Ha Hk. rewrite F2; [by apply F1|]. intros k Hin. rewrite Z.mul_1_l. by apply Hk.
Qed.

Lemma copy_scratch m m1 p nb bin off n (f : Z → bool) : bytes_mem m1 → 0 ≤ off → 0 ≤ n → 8 + n < D_BASE → n ≤ 8 * nb → is_scratch m p nb →
  (∀ a, is_Some (m1 !! a) ↔ is_Some (m !! a)) → (∀ a, ¬ scratch a → m1 !! a = m !! a) → bin_ok m bin (off + n) →
  (∀ k, 0 ≤ k < n → bit m1 p 1 k = f k) →
  ∃ m2, erts_copy_bits m1 p 0 1 bin off 1 n = Some m2 ∧ placed m m2 bin off n f.
Proof.
  intros B Ho Hn Hfit Hnb SC D1 F1 OK Hf.
  destruct (erts_copy_bits_spec m1 p 0 1 bin off 1 n) as (m2 & E & C); [done|done|lia|lia|lia|lia| | | |].
  - intros k Hk. rewrite Z.mul_1_l. apply D1. apply SC. lia.
  - intros k Hk. apply D1. by apply (bin_ok_mapped m bin off n Ho OK).
  - intros j k Hj Hk. rewrite !Z.mul_1_l. intros E. destruct (OK k ltac:(lia)) as [_ N]. apply N. rewrite <- E. apply SC. lia.
  - exists m2. split; [done|]. by apply (field_copied_placed m m1 m2 p 0).
Qed.

(** ** Integers *)
Definition st_ok (m : memory) (st : erl_bits_state) : Prop := is_scratch m (byte_buf st) (byte_buf_len st) ∧ 0 ≤ erts_bin_offset st.

(** A field of [n] bits has been added. *)
Definition put_ok (m : memory) (st : erl_bits_state) (r : option (Z * memory * erl_bits_state)) (n : Z) (f : Z → bool) : Prop :=
  ∃ m' st', r = Some (1, m', st') ∧ placed m m' (erts_current_bin st) (erts_bin_offset st) n f ∧ st_ok m' st' ∧
    erts_current_bin st' = erts_current_bin st ∧ erts_bin_offset st' = erts_bin_offset st + n.

Lemma is_scratch_dom m m' p n : (∀ a, is_Some (m' !! a) ↔ is_Some (m !! a)) → is_scratch m p n → is_scratch m' p n.
Proof. intros D H i Hi. destruct (H i Hi) as [H1 H2]. split; [done|by apply D]. Qed.

Lemma put_ok_intro m st m' st0 n f : placed m m' (erts_current_bin st) (erts_bin_offset st) n f → is_scratch m (byte_buf st0) (byte_buf_len st0) →
  0 ≤ erts_bin_offset st → 0 ≤ n → erts_bin_offset st + n < D_BASE → erts_current_bin st0 = erts_current_bin st → erts_bin_offset st0 = erts_bin_offset st →
  put_ok m st (Some (1, m', advance st0 n)) n f.
Proof.
  intros P SC Ho Hn Hfit E1 E2. exists m', (advance st0 n). split; [done|]. split; [done|]. unfold advance, st_ok.
  cbn [byte_buf byte_buf_len erts_current_bin erts_bin_offset]. rewrite E2, dig_small by (unfold is_digit; lia). split; [|done]. split; [|lia].
  eapply is_scratch_dom; [|done]. apply P.
Qed.

(** The byte that holds the bits before the field and the first bits of it. *)
Lemma first_byte_bits b X rbits i : is_byte b → 0 < rbits ≤ 8 → 0 ≤ i < 8 → (rbits ≤ i → Z.testbit X i = false) →
  Z.testbit (Z.lor (Z.land b (Z.shiftl 255 rbits)) X) i = if i <? rbits then Z.testbit X i else Z.testbit b i.
Proof.
  intros Hb Hr Hi HX. rewrite Z.lor_spec, Z.land_spec, Z.shiftl_spec by lia. change 255 with (Z.ones 8). destruct (Z.ltb_spec i rbits).
  - rewrite (Z.testbit_neg_r (Z.ones 8)), andb_false_r by lia. done.
  - rewrite Z.ones_spec_low, HX, andb_true_r, orb_false_r by lia. done.
Qed.

Lemma one_shl n : 0 ≤ n → Z.shiftl 1 n - 1 = Z.ones n.
Proof. intros. by rewrite Z.ones_equiv, Z.shiftl_1_l, Z.sub_1_r by lia. Qed.

(** Bits of the byte at the offset, with the [rbits] last ones replaced. *)
Lemma placed_byte m bin off n b v (f : Z → bool) : bytes_mem m → 0 ≤ off → 0 < n → off mod 8 + n ≤ 8 → m !! (bin + off / 8) = Some b →
  (∀ k, 0 ≤ k < off mod 8 → Z.testbit v (7 - k) = Z.testbit b (7 - k)) →
  (∀ k, 0 ≤ k < n → Z.testbit v (7 - (off mod 8 + k)) = f k) →
  placed m (<[bin + off / 8 := wrap_u 8 v]> m) bin off n f.
Proof.
  intros B Ho Hn H8 Hb H1 H2. split; [by apply bytes_mem_insert|]. split.
  { intros a. destruct (decide (a = bin + off / 8)) as [->|N]; [rewrite lookup_insert_eq; split; eauto|by rewrite lookup_insert_ne]. }
  split; [|split].
  - intros k Hk. unfold bit. rewrite Z.mul_1_l. replace ((off + k) / 8) with (off / 8) by lia. rewrite lookup_insert_eq, wrap_u8_bits by lia.
    rewrite <- H2 by done. f_equal. lia.
  - intros k Hk. unfold bit. rewrite Z.mul_1_l. destruct (decide (k / 8 = off / 8)) as [E|E].
    + rewrite E, lookup_insert_eq, wrap_u8_bits, Hb by lia. apply H1. lia.
    + by rewrite lookup_insert_ne by lia.
  - intros a _ Ha. apply lookup_insert_ne. intros <-. apply (Ha off); lia.
Qed.

(** Two fields one after the other. *)
Lemma placed_app m m1 m2 bin off n1 n2 f f1 f2 : 0 ≤ off → 0 ≤ n1 → 0 ≤ n2 → placed m m1 bin off n1 f1 → placed m1 m2 bin (off + n1) n2 f2 →
  (∀ k, 0 ≤ k < n1 → f k = f1 k) → (∀ k, 0 ≤ k < n2 → f (n1 + k) = f2 k) → placed m m2 bin off (n1 + n2) f.
Proof.
  intros Ho H1 H2 (B1 & D1 & K1 & L1 & F1) (B2 & D2 & K2 & L2 & F2) E1 E2. split; [done|]. split; [intros a; by rewrite D2, D1|]. split; [|split].
  - intros k Hk. destruct (Z.lt_ge_cases k n1).
    + rewrite L2, K1, E1 by lia. done.
    + replace (off + k) with (off + n1 + (k - n1)) by lia. rewrite K2, <- E2 by lia. f_equal. lia.
  - intros k Hk. rewrite L2, L1 by lia. done.
  - intros a Ha Hk. rewrite F2, F1; [done|done| |done|]; intros k Hin; apply Hk; lia.
Qed.

Lemma placed_dom m m' bin off n f e : placed m m' bin off n f → bin_ok m bin e → bin_ok m' bin e.
Proof. intros (_ & D & _) OK k Hk. destruct (OK k Hk) as [H1 H2]. split; [by apply D|done]. Qed.

Section Field.
Variables (m : memory) (st : erl_bits_state) (new_buf : Z) (t : int_term) (v n flags : Z).
Abbreviation bin := (erts_current_bin st).
Abbreviation off := (erts_bin_offset st).
Hypothesis (B : bytes_mem m) (ST : st_ok m st) (A : int_arg t v).
Hypothesis (Hn : 0 < n) (Hfit : off + n + 8 < D_BASE) (Hint : (n + 7) / 8 ≤ INT_MAX).
Hypothesis (OK : bin_ok m bin (off + n)) (NB : is_scratch m new_buf ((n + 7) / 8)).

Lemma off_pos : 0 ≤ off.
Proof. apply ST. Qed.

Lemma NBYTES_n : NBYTES n = Z.of_nat (Z.to_nat ((n + 7) / 8)) ∧ Z.of_nat (Z.to_nat ((n + 7) / 8)) = (n + 7) / 8.
Proof. pose proof off_pos. rewrite NBYTES_eq by lia. lia. Qed.

Lemma need_byte_buf_spec : let st' := need_byte_buf st (int32 (NBYTES n)) new_buf in
  is_scratch m (byte_buf st') (byte_buf_len st') ∧ is_scratch m (byte_buf st') ((n + 7) / 8) ∧ erts_current_bin st' = bin ∧ erts_bin_offset st' = off.
Proof.
  destruct NBYTES_n as [-> ->]. rewrite int32_small by (unfold INT_MAX in *; lia). unfold need_byte_buf. destruct ST as [SC _].
  destruct (Z.ltb_spec (byte_buf_len st) ((n + 7) / 8)); cbn; [done|]. split; [done|]. split; [|done]. intros i Hi. apply SC. lia.
Qed.

Lemma put_unaligned_spec : put_ok m st (put_unaligned m st new_buf t n flags) n (int_bit (little flags) n v).
Proof.
  pose proof off_pos. destruct need_byte_buf_spec as (SC1 & SC2 & E1 & E2). unfold put_unaligned. set (st' := need_byte_buf _ _ _) in *.
  destruct NBYTES_n as [-> Hsz]. set (sz := Z.to_nat ((n + 7) / 8)) in *.
  assert (room m (byte_buf st') 1 sz) as R by (intros i Hi; rewrite Z.mul_1_l; apply SC2; lia).
  rewrite (fmt_int_spec m (byte_buf st') sz t v n flags R) by (done || lia). cbn [mbind option_bind]. cbn [Z.ltb Z.compare].
  destruct (copy_scratch m (fmt_mem (little flags) m (byte_buf st') sz n v) (byte_buf st') ((n + 7) / 8) bin off n (int_bit (little flags) n v))
    as (m2 & E & P); [by apply fmt_mem_bytes|lia|lia|lia|lia|done| | |done| |].
  - intros a. by apply fmt_mem_is_Some; [lia|].
  - intros a Ha. apply fmt_mem_out; [lia|]. intros i Hi ->. apply Ha, SC2. lia.
  - intros k Hk. by apply fmt_mem_bit.
  - rewrite E1, E2, E. cbn [mbind option_bind]. apply put_ok_intro; (done || lia).
Qed.

Lemma put_aligned_spec : off mod 8 = 0 →
  ∃ m', fmt_int m (bin + off / 8) (NBYTES n) t n flags = Some (0, m') ∧ placed m m' bin off n (int_bit (little flags) n v).
Proof.
  intros H8. pose proof off_pos. destruct NBYTES_n as [-> Hsz]. set (sz := Z.to_nat ((n + 7) / 8)) in *.
  destruct (placed_fmt (little flags) m bin off n v sz) as [R P]; [done..|]. eexists. split; [|done]. apply fmt_int_spec; (done || lia).
Qed.

(** A field in one byte. *)
Lemma int_bit_small k : n ≤ 8 → 0 ≤ k < n → int_bit (little flags) n v k = Z.testbit v (n - 1 - k).
Proof. intros H8 Hk. unfold int_bit. destruct (little flags); [|done]. f_equal. lia. Qed.

Lemma put_in_byte_spec : off mod 8 + n ≤ 8 → ∃ b m', rd m (bin + off / 8) = Some b ∧
  wr m (bin + off / 8) (Z.lor (Z.land b (Z.shiftl 255 (8 - off mod 8))) (Z.shiftl (Z.land v (Z.shiftl 1 n - 1)) (8 - off mod 8 - n))) = Some m' ∧
  placed m m' bin off n (int_bit (little flags) n v).
Proof.
  intros H8. pose proof off_pos. destruct (OK off) as [[b Eb] _]; [lia|]. exists b. rewrite wr_ok by eauto. eexists. split; [done|]. split; [reflexivity|].
  pose proof (B _ _ Eb) as Bb. rewrite one_shl by lia.
  assert (∀ i, 0 ≤ i < 8 → Z.testbit (Z.shiftl (Z.land v (Z.ones n)) (8 - off mod 8 - n)) i =
    if bool_decide (8 - off mod 8 - n ≤ i < 8 - off mod 8) then Z.testbit v (i - (8 - off mod 8 - n)) else false) as T.
  { intros i Hi. rewrite Z.shiftl_spec, Z.land_spec by lia. case_bool_decide as Hc; [by rewrite Z.ones_spec_low, andb_true_r by lia|].
    destruct (Z.lt_ge_cases i (8 - off mod 8 - n)); [by rewrite Z.testbit_neg_r by lia|]. by rewrite Z.ones_spec_high, andb_false_r by lia. }
  apply (placed_byte m bin off n b); try (done || lia).
  - intros k Hk. rewrite first_byte_bits; [|done|lia|lia|intros; rewrite T, bool_decide_eq_false_2 by lia; done]. by rewrite (proj2 (Z.ltb_ge _ _)) by lia.
  - intros k Hk. rewrite first_byte_bits; [|done|lia|lia|intros; rewrite T, bool_decide_eq_false_2 by lia; done]. rewrite (proj2 (Z.ltb_lt _ _)) by lia.
    rewrite T, bool_decide_eq_true_2, int_bit_small by lia. f_equal. lia.
Qed.

(** A small, big endian, that begins inside a byte: the bits up to the byte boundary. *)
Lemma small_high_bits i : in_small v → D_EXP - 1 ≤ i → Z.testbit v i = (v <? 0).
Proof.
  intros [H1 H2] Hi. destruct small_facts as (S1 & S2 & S3 & _). pose proof D_EXP_ge.
  assert (2 ^ (D_EXP - 1) ≤ 2 ^ i) by (apply Z.pow_le_mono_r; lia).
  destruct (Z.ltb_spec v 0).
  - rewrite <- (Z.lnot_involutive v), Z.lnot_spec by lia. apply negb_true_iff, Z.testbit_false; [lia|]. rewrite Z.div_small; [done|unfold Z.lnot; lia].
  - apply Z.testbit_false; [lia|]. rewrite Z.div_small; [done|lia].
Qed.

Lemma first_bits i : in_small v → 0 ≤ i < 8 → 8 < off mod 8 + n → 0 < off mod 8 →
  let X := if n - (8 - off mod 8) <? D_EXP then Z.land (Z.shiftr v (n - (8 - off mod 8))) (Z.shiftl 1 (8 - off mod 8) - 1)
           else if v <? 0 then Z.land (-1) (Z.shiftl 1 (8 - off mod 8) - 1) else 0 in
  Z.testbit X i = if i <? 8 - off mod 8 then Z.testbit v (n - (8 - off mod 8) + i) else false.
Proof.
  intros Hv Hi H8 Ho. cbv zeta. rewrite one_shl by lia. set (s := n - (8 - off mod 8)). destruct (Z.ltb_spec s D_EXP) as [Hs|Hs].
  - rewrite Z.land_spec, Z.shiftr_spec, (Z.add_comm i) by lia. destruct (Z.ltb_spec i (8 - off mod 8)).
    + by rewrite Z.ones_spec_low, andb_true_r by lia.
    + by rewrite Z.ones_spec_high, andb_false_r by lia.
  - rewrite (small_high_bits (s + i)) by (done || lia). destruct (Z.ltb_spec v 0).
    + rewrite Z.land_m1_l. destruct (Z.ltb_spec i (8 - off mod 8)); [by rewrite Z.ones_spec_low by lia|by rewrite Z.ones_spec_high by lia].
    + rewrite Z.testbit_0_l. by destruct (i <? 8 - off mod 8).
Qed.

Lemma put_split_spec : t = Small v → 8 < off mod 8 + n → 0 < off mod 8 → little flags = false → ∃ b m1 m',
  rd m (bin + off / 8) = Some b ∧
  wr m (bin + off / 8)
    (let b := Z.land b (Z.shiftl 255 (8 - off mod 8)) in
     if n - (8 - off mod 8) <? D_EXP then Z.lor b (Z.land (Z.shiftr v (n - (8 - off mod 8))) (Z.shiftl 1 (8 - off mod 8) - 1))
     else if v <? 0 then Z.lor b (Z.land (-1) (Z.shiftl 1 (8 - off mod 8) - 1)) else b) = Some m1 ∧
  fmt_int m1 (bin + off / 8 + 1) (NBYTES (n - (8 - off mod 8))) t (n - (8 - off mod 8)) flags = Some (0, m') ∧
  placed m m' bin off n (int_bit (little flags) n v).
Proof.
  intros Et H8 Ho LE. pose proof off_pos. destruct (OK off) as [[b Eb] _]; [lia|]. pose proof (B _ _ Eb) as Bb.
  assert (in_small v) as Hv by (rewrite Et in A; apply A). exists b. rewrite wr_ok by eauto. set (r := 8 - off mod 8) in *.
  set (X := if n - r <? D_EXP then Z.land (Z.shiftr v (n - r)) (Z.shiftl 1 r - 1) else if v <? 0 then Z.land (-1) (Z.shiftl 1 r - 1) else 0).
  assert (∀ i, 0 ≤ i < 8 → Z.testbit X i = if i <? r then Z.testbit v (n - r + i) else false) as T by (intros i Hi; by apply first_bits).
  assert ((let b := Z.land b (Z.shiftl 255 r) in
     if n - r <? D_EXP then Z.lor b (Z.land (Z.shiftr v (n - r)) (Z.shiftl 1 r - 1))
     else if v <? 0 then Z.lor b (Z.land (-1) (Z.shiftl 1 r - 1)) else b) = Z.lor (Z.land b (Z.shiftl 255 r)) X) as ->.
  { cbv zeta. subst X. destruct (n - r <? D_EXP); [done|]. destruct (v <? 0); [done|]. by rewrite Z.lor_0_r. }
  set (m1 := <[bin + off / 8 := wrap_u 8 (Z.lor (Z.land b (Z.shiftl 255 r)) X)]> m).
  assert (∀ i, 0 ≤ i < 8 → Z.testbit (Z.lor (Z.land b (Z.shiftl 255 r)) X) i = if i <? r then Z.testbit X i else Z.testbit b i) as T2.
  { intros i Hi. apply first_byte_bits; [done|lia|done|]. intros Hir. rewrite T by done. by rewrite (proj2 (Z.ltb_ge _ _)). }
  assert (placed m m1 bin off r (λ k, Z.testbit v (n - 1 - k))) as P1.
  { apply (placed_byte m bin off r b); try (done || lia).
    - intros k Hk. rewrite T2 by lia. by rewrite (proj2 (Z.ltb_ge _ _)) by lia.
    - intros k Hk. rewrite T2, T by lia. rewrite (proj2 (Z.ltb_lt _ _)) by lia. f_equal. lia. }
  set (sz := Z.to_nat ((n - r + 7) / 8)).
  destruct (placed_fmt (little flags) m1 bin (off + r) (n - r) v sz) as [R P2]; [apply P1|lia..| |].
  { replace (off + r + (n - r)) with (off + n) by lia. by eapply placed_dom. }
  replace (bin + (off + r) / 8) with (bin + off / 8 + 1) in * by lia. set (m' := fmt_mem _ _ _ _ _ _) in *. exists m1, m'. split; [done|]. split; [done|].
  split; [rewrite NBYTES_eq by lia; replace ((n - r + 7) / 8) with (Z.of_nat sz) by lia; apply fmt_int_spec; (done || lia)|].
  replace n with (r + (n - r)) at 1 by lia. rewrite LE in *. apply (placed_app m m1 m' bin off r (n - r) _ _ _ ltac:(lia) ltac:(lia) ltac:(lia) P1 P2).
  - done.
  - intros k Hk. unfold int_bit. f_equal. lia.
Qed.

End Field.

Lemma erts_new_bs_put_integer_spec m st new_buf t v n flags : bytes_mem m → st_ok m st → int_arg t v → 0 ≤ n →
  erts_bin_offset st + n + 8 < D_BASE → (n + 7) / 8 ≤ INT_MAX → bin_ok m (erts_current_bin st) (erts_bin_offset st + n) →
  is_scratch m new_buf ((n + 7) / 8) →
  put_ok m st (erts_new_bs_put_integer m st new_buf t n flags) n (int_bit (little flags) n v).
Proof.
  intros B ST A Hn Hfit Hint OK NB. pose proof (off_pos m st ST). set (bin := erts_current_bin st) in *. set (off := erts_bin_offset st) in *.
  unfold erts_new_bs_put_integer. fold bin off. rewrite BIT_OFFSET_eq, BYTE_OFFSET_eq. eqb_cases n 0 Hz.
  { exists m, st. split; [done|]. split; [|split; [done|split; [done|fold off; lia]]]. split; [done|]. split; [done|]. split; [lia|done]. }
  assert (0 < n) as Hn' by lia.
  assert (∀ m', placed m m' bin off n (int_bit (little flags) n v) → put_ok m st (Some (1, m', advance st n)) n (int_bit (little flags) n v)) as Fin.
  { intros m' P. apply put_ok_intro; (done || lia || apply ST). }
  pose proof (put_unaligned_spec m st new_buf t v n flags B ST A Hn' Hfit Hint OK NB) as PU.
  pose proof (put_aligned_spec m st t v n flags B ST A Hn' Hfit OK) as PA. fold bin off in PA.
  destruct t as [z|sign ds|] eqn:Et; [assert (z = v) as -> by apply A| |destruct A].
  - destruct (Z.leb_spec (off mod 8 + n) 8) as [H8|H8].
    { destruct (put_in_byte_spec m st v n flags B ST Hn' OK H8) as (b & m' & E & Ew & P). fold bin off in E, Ew, P. rewrite E. cbn [mbind option_bind].
      rewrite Ew. by apply Fin. }
    eqb_cases (off mod 8) 0 Ho.
    { destruct PA as (m' & Ef & P); [done|]. rewrite Ef. by apply Fin. }
    destruct (little flags) eqn:LE; [done|].
    destruct (put_split_spec m st (Small v) v n flags B ST A Hn' Hfit OK eq_refl H8 ltac:(fold off; lia) LE) as (b & m1 & m' & E & Ew & Ef & P).
    fold bin off in E, Ew, Ef, P. rewrite E. cbn [mbind option_bind]. cbv zeta in Ew. rewrite Ew. cbn [mbind option_bind]. rewrite Ef.
    cbn [mbind option_bind]. rewrite LE in P. by apply Fin.
  - eqb_cases (off mod 8) 0 Ho; [|done]. destruct PA as (m' & Ef & P); [done|]. rewrite Ef. by apply Fin.
Qed.

(** What is no integer is refused; the byte buffer may have grown. *)
Lemma erts_new_bs_put_integer_error m st new_buf n flags : n ≠ 0 → ∃ st', erts_new_bs_put_integer m st new_buf NIL n flags = Some (0, m, st') ∧
  erts_current_bin st' = erts_current_bin st ∧ erts_bin_offset st' = erts_bin_offset st.
Proof.
  intros Hn. unfold erts_new_bs_put_integer. rewrite (proj2 (Z.eqb_neq n 0)) by done. destruct (BIT_OFFSET (erts_bin_offset st) =? 0); [by exists st|].
  unfold put_unaligned, need_byte_buf. cbn [fmt_int mbind option_bind Z.ltb Z.compare]. eexists. split; [reflexivity|]. by case_match.
Qed.
End Put.

(** * The other [bs_put] functions: UTF-8 and UTF-16 characters, binaries and literal strings. *)

(** Bit [k] of a string of bytes. *)
Definition byte_list_bit (l : list Z) (k : Z) : bool :=
  match l !! Z.to_nat (k / 8) with Some b => Z.testbit b (7 - k mod 8) | None => false end.

(** ** Unicode *)

(** The characters that can be encoded: no surrogates, not FFFE and FFFF. *)
Definition is_char (c : Z) : bool := (0 <=? c) && (c <=? 1114111) && negb ((55296 <=? c) && (c <=? 57343)) && negb (c =? 65534) && negb (c =? 65535).

(** The encoding of RFC 3629. *)
Definition utf8_bytes (c : Z) : list Z :=
  if c <? 128 then [c]
  else if c <? 2048 then [192 + c / 64; 128 + c mod 64]
  else if c <? 65536 then [224 + c / 4096; 128 + (c / 64) mod 64; 128 + c mod 64]
  else [240 + c / 262144; 128 + (c / 4096) mod 64; 128 + (c / 64) mod 64; 128 + c mod 64].

(** The encoding of RFC 2781: one or two 16-bit words, each in the byte order of the field. *)
Definition utf16_words (c : Z) : list Z :=
  if c <? 65536 then [c] else [55296 + (c - 65536) / 1024; 56320 + (c - 65536) mod 1024].
Definition word16_bytes (le : bool) (w : Z) : list Z := if le then [w mod 256; w / 256] else [w / 256; w mod 256].
Definition utf16_bytes (le : bool) (c : Z) : list Z := utf16_words c ≫= word16_bytes le.

Section Encodings.
Context {dw : DigitWidth}.
(** ** Bits put side by side *)
Lemma lor_add hi k lo : 0 ≤ k → 0 ≤ lo < 2 ^ k → Z.lor (hi * 2 ^ k) lo = hi * 2 ^ k + lo.
Proof. intros. pose proof (lor_shiftl_add hi lo k) as E. rewrite Z.shiftl_mul_pow2 in E by lia. auto. Qed.
Lemma lor_192 lo : 0 ≤ lo < 64 → Z.lor 192 lo = 192 + lo.
Proof. exact (lor_add 3 6 lo ltac:(lia)). Qed.
Lemma lor_128 lo : 0 ≤ lo < 128 → Z.lor 128 lo = 128 + lo.
Proof. exact (lor_add 1 7 lo ltac:(lia)). Qed.
Lemma lor_224 lo : 0 ≤ lo < 32 → Z.lor 224 lo = 224 + lo.
Proof. exact (lor_add 7 5 lo ltac:(lia)). Qed.
Lemma lor_240 lo : 0 ≤ lo < 16 → Z.lor 240 lo = 240 + lo.
Proof. exact (lor_add 15 4 lo ltac:(lia)). Qed.
Lemma lor_55296 lo : 0 ≤ lo < 2048 → Z.lor 55296 lo = 55296 + lo.
Proof. exact (lor_add 27 11 lo ltac:(lia)). Qed.
Lemma lor_56320 lo : 0 ≤ lo < 1024 → Z.lor 56320 lo = 56320 + lo.
Proof. exact (lor_add 55 10 lo ltac:(lia)). Qed.
Lemma land_63 z : Z.land z 63 = z mod 64.
Proof. exact (Z.land_ones z 6 ltac:(lia)). Qed.
Lemma shiftr_pow z k d : 0 ≤ k → d = 2 ^ k → Z.shiftr z k = z / d.
Proof. intros H ->. by rewrite Z.shiftr_div_pow2. Qed.

Lemma land_1023 z : Z.land z 1023 = z mod 1024.
Proof. exact (Z.land_ones z 10 ltac:(lia)). Qed.

Lemma wrap_u8_mod z : wrap_u 8 z = z mod 256.
Proof. done. Qed.

Lemma small_bits_ge : 28 ≤ SMALL_BITS.
Proof. unfold SMALL_BITS. pose proof D_EXP_ge. lia. Qed.

(** [unsigned_val] of a negative small is too big for a character. *)
Lemma unsigned_val_char z : in_small z →
  is_char z = negb ((unsigned_val z >? 1114111) || (55296 <=? unsigned_val z) && (unsigned_val z <=? 57343) || (unsigned_val z =? 65534) || (unsigned_val z =? 65535)) ∧
  (0 ≤ z → unsigned_val z = z).
Proof.
  intros [H1 H2]. unfold MIN_SMALL, MAX_SMALL in *. pose proof small_bits_ge. unfold unsigned_val, is_char.
  assert (2 ^ SMALL_BITS = 2 * 2 ^ (SMALL_BITS - 1)) as E by (rewrite <- Z.pow_succ_r by lia; f_equal; lia).
  assert (2 ^ 27 ≤ 2 ^ (SMALL_BITS - 1)) as Hp by (apply Z.pow_le_mono_r; lia). change (2 ^ 27) with 134217728 in Hp.
  assert (0 ≤ z → z mod 2 ^ SMALL_BITS = z) as Hpos by (intros; apply Z.mod_small; lia). split; [|done].
  destruct (Z.lt_ge_cases z 0).
  - assert (z mod 2 ^ SMALL_BITS = z + 2 ^ SMALL_BITS) as ->; [|lia]. symmetry. apply (Z.mod_unique_pos _ _ (-1)); lia.
  - rewrite Hpos by lia. lia.
Qed.

End Encodings.

Ltac enc_lia :=
  rewrite ?land_63, ?(shiftr_pow _ 6 64), ?(shiftr_pow _ 12 4096), ?(shiftr_pow _ 18 262144), ?(shiftr_pow _ 10 1024), ?(shiftr_pow _ 8 256) by (done || lia);
  rewrite ?lor_192, ?lor_128, ?lor_224, ?lor_240, ?lor_55296, ?lor_56320 by lia.

Section More.
Context {dw : DigitWidth}.
Variable scratch : Z → Prop.

Lemma wr_list_spec l : ∀ m p, (∀ i, 0 ≤ i < zlen l → is_Some (m !! (p + i))) → bytes_mem m →
  ∃ m', wr_list m p l = Some m' ∧ bytes_mem m' ∧ (∀ a, is_Some (m' !! a) ↔ is_Some (m !! a)) ∧
    (∀ a, (∀ i, 0 ≤ i < zlen l → a ≠ p + i) → m' !! a = m !! a) ∧
    ∀ i, 0 ≤ i < zlen l → m' !! (p + i) = wrap_u 8 <$> l !! Z.to_nat i.
Proof.
  induction l as [|v l IH]; intros m p R B; cbn [wr_list]; [exists m; repeat (split; [done|]); cbn; lia|].
  cbn [length] in *. pose proof (R 0 ltac:(lia)) as R0. rewrite Z.add_0_r in R0. rewrite wr_ok by done. cbn [mbind option_bind].
  set (m1 := <[p := wrap_u 8 v]> m). assert (∀ a, is_Some (m1 !! a) ↔ is_Some (m !! a)) as D1.
  { intros a. subst m1. destruct (decide (a = p)) as [->|N]; [rewrite lookup_insert_eq; split; eauto|by rewrite lookup_insert_ne]. }
  destruct (IH m1 (p + 1)) as (m' & -> & B' & D' & F' & L').
  { intros i Hi. apply D1. replace (p + 1 + i) with (p + (i + 1)) by lia. apply R. lia. }
  { by apply bytes_mem_insert. }
  exists m'. split; [done|]. split; [done|]. split; [intros a; by rewrite D', D1|]. split.
  - intros a Ha. rewrite F'; [apply lookup_insert_ne; intros <-; apply (Ha 0); lia|]. intros i Hi E. apply (Ha (i + 1)); lia.
  - intros i Hi. destruct (decide (i = 0)) as [->|N].
    + rewrite Z.add_0_r, F' by lia. subst m1. by rewrite lookup_insert_eq.
    + replace (p + i) with (p + 1 + (i - 1)) by lia. rewrite L' by lia. by replace (Z.to_nat i) with (S (Z.to_nat (i - 1))) by lia.
Qed.

(** The bits of the bytes at [p]. *)
Lemma byte_list_bits m p l k : (∀ i, 0 ≤ i < zlen l → m !! (p + i) = l !! Z.to_nat i) → 0 ≤ k < 8 * zlen l → bit m p 1 k = byte_list_bit l k.
Proof. intros H Hk. unfold bit, byte_list_bit. by rewrite Z.mul_1_l, H by lia. Qed.

Lemma put_char_spec m st tmp_buf l : bytes_mem m → st_ok scratch m st → is_scratch scratch m tmp_buf 4 → (0 < length l ≤ 4)%nat →
  erts_bin_offset st + 8 * zlen l + 8 < D_BASE → bin_ok scratch m (erts_current_bin st) (erts_bin_offset st + 8 * zlen l) →
  put_ok scratch m st (put_char m st tmp_buf l) (8 * zlen l) (byte_list_bit (wrap_u 8 <$> l)).
Proof.
  intros B ST TB Hl Hfit OK. pose proof (off_pos scratch m st ST). unfold put_char. rewrite BIT_OFFSET_eq, BYTE_OFFSET_eq.
  set (bin := erts_current_bin st) in *. set (off := erts_bin_offset st) in *. set (n := 8 * zlen l) in *.
  assert (∀ m', placed scratch m m' bin off n (byte_list_bit (wrap_u 8 <$> l)) →
    put_ok scratch m st (Some (1, m', advance st n)) n (byte_list_bit (wrap_u 8 <$> l))) as Fin.
  { intros m' P. apply put_ok_intro; (done || lia || apply ST). }
  eqb_cases (off mod 8) 0 Ho.
  - destruct (wr_list_spec l m (bin + off / 8)) as (m1 & -> & B1 & D1 & F1 & L1); [|done|].
    { intros i Hi. destruct (OK (off + 8 * i)) as [HS _]; [lia|]. by replace (bin + off / 8 + i) with (bin + (off + 8 * i) / 8) by lia. }
    cbn [mbind option_bind]. assert (placed scratch m m1 bin off n (byte_list_bit (wrap_u 8 <$> l))) as P.
    { split; [done|]. split; [done|]. split; [|split].
      - intros k Hk. rewrite <- (byte_list_bits m1 (bin + off / 8)); [|intros i; rewrite length_fmap, list_lookup_fmap; apply L1|rewrite length_fmap; lia].
        pose proof (bit_shift m1 bin 1 k (off / 8)) as E. rewrite Z.mul_1_l in E. rewrite E. f_equal. lia.
      - intros k Hk. unfold bit. rewrite F1 by lia. done.
      - intros a _ Ha. apply F1. intros i Hi E. apply (Ha (off + 8 * i)); lia. }
    eqb_cases off 0 Hz; [by apply Fin|]. rewrite erts_copy_bits_self; [by apply Fin|done|lia|lia|lia|lia|lia|].
    intros k Hk. apply D1. rewrite Z.mul_1_l. apply OK. lia.
  - destruct (wr_list_spec l m tmp_buf) as (m1 & -> & B1 & D1 & F1 & L1); [intros i Hi; apply TB; lia|done|]. cbn [mbind option_bind].
    rewrite (proj2 (Z.eqb_neq off 0)) by lia.
    destruct (copy_scratch scratch m m1 tmp_buf 4 bin off n (byte_list_bit (wrap_u 8 <$> l))) as (m2 & -> & P); [done|lia|lia|lia|lia|done|done| |done| |by apply Fin].
    + intros a Ha. apply F1. intros i Hi ->. apply Ha, TB. lia.
    + intros k Hk. apply byte_list_bits; [intros i; rewrite length_fmap, list_lookup_fmap; apply L1|rewrite length_fmap; lia].
Qed.

Lemma erts_bs_put_utf8_spec m st tmp_buf c : bytes_mem m → st_ok scratch m st → is_scratch scratch m tmp_buf 4 → is_char c = true →
  erts_bin_offset st + 8 * zlen (utf8_bytes c) + 8 < D_BASE → bin_ok scratch m (erts_current_bin st) (erts_bin_offset st + 8 * zlen (utf8_bytes c)) →
  put_ok scratch m st (erts_bs_put_utf8 m st tmp_buf (Small c)) (8 * zlen (utf8_bytes c)) (byte_list_bit (utf8_bytes c)).
Proof.
  intros B ST TB HC Hfit OK. unfold is_char in HC.
  assert (∀ l, utf8_bytes c = wrap_u 8 <$> l → (0 < length l ≤ 4)%nat →
    put_ok scratch m st (put_char m st tmp_buf l) (8 * zlen (utf8_bytes c)) (byte_list_bit (utf8_bytes c))) as Put.
  { intros l E Hl. rewrite E in *. rewrite length_fmap in *. by apply put_char_spec. }
  unfold erts_bs_put_utf8. rewrite (proj2 (Z.ltb_ge c 0)) by lia. unfold utf8_bytes in *.
  destruct (Z.ltb_spec c 128); [apply Put; [|cbn; lia]; cbn; by rewrite wrap_u8_id by (unfold is_byte; lia)|].
  destruct (Z.ltb_spec c 2048); [apply Put; [|cbn; lia]; cbn [fmap list_fmap]; enc_lia; by rewrite !wrap_u8_id by (unfold is_byte; lia)|].
  destruct (Z.ltb_spec c 65536).
  - replace ((55296 <=? c) && (c <=? 57343) || (c =? 65534) || (c =? 65535)) with false by lia.
    apply Put; [|cbn; lia]; cbn [fmap list_fmap]; enc_lia; by rewrite !wrap_u8_id by (unfold is_byte; lia).
  - rewrite (proj2 (Z.ltb_lt c 1114112)) by lia.
    apply Put; [|cbn; lia]; cbn [fmap list_fmap]; enc_lia; by rewrite !wrap_u8_id by (unfold is_byte; lia).
Qed.

(** What is not a character, or not a small, is refused; nothing is written. *)
Lemma erts_bs_put_utf8_error m st tmp_buf t : (∀ c, t = Small c → is_char c = false) → erts_bs_put_utf8 m st tmp_buf t = Some (0, m, st).
Proof.
  intros H. destruct t as [c| |]; [|done..]. specialize (H c eq_refl). unfold is_char in H. unfold erts_bs_put_utf8.
  destruct (Z.ltb_spec c 0); [done|]. rewrite (proj2 (Z.ltb_ge c 128)) by lia. rewrite (proj2 (Z.ltb_ge c 2048)) by lia.
  destruct (Z.ltb_spec c 65536).
  - by replace ((55296 <=? c) && (c <=? 57343) || (c =? 65534) || (c =? 65535)) with true by lia.
  - by rewrite (proj2 (Z.ltb_ge c 1114112)) by lia.
Qed.

Lemma erts_bs_put_utf16_spec m st tmp_buf c flags : bytes_mem m → st_ok scratch m st → is_scratch scratch m tmp_buf 4 → is_char c = true →
  erts_bin_offset st + 8 * zlen (utf16_bytes (little flags) c) + 8 < D_BASE →
  bin_ok scratch m (erts_current_bin st) (erts_bin_offset st + 8 * zlen (utf16_bytes (little flags) c)) →
  put_ok scratch m st (erts_bs_put_utf16 m st tmp_buf (Small c) flags) (8 * zlen (utf16_bytes (little flags) c)) (byte_list_bit (utf16_bytes (little flags) c)).
Proof.
  intros B ST TB HC Hfit OK. pose proof small_bits_ge. assert (in_small c) as HS.
  { unfold is_char in HC. unfold in_small, MIN_SMALL, MAX_SMALL.
    assert (2 ^ 27 ≤ 2 ^ (SMALL_BITS - 1)) as Hp by (apply Z.pow_le_mono_r; lia). change (2 ^ 27) with 134217728 in Hp. lia. }
  destruct (unsigned_val_char c HS) as [E Eu]. rewrite HC in E. unfold is_char in HC. rewrite Eu in * by lia.
  assert (∀ l, utf16_bytes (little flags) c = wrap_u 8 <$> l → (0 < length l ≤ 4)%nat →
    put_ok scratch m st (put_char m st tmp_buf l) (8 * zlen (utf16_bytes (little flags) c)) (byte_list_bit (utf16_bytes (little flags) c))) as Put.
  { intros l El Hl. rewrite El in *. rewrite length_fmap in *. by apply put_char_spec. }
  unfold erts_bs_put_utf16. rewrite Eu by lia. symmetry in E. apply negb_true_iff in E. rewrite E. clear E.
  unfold utf16_bytes, utf16_words in *. destruct (Z.ltb_spec c 65536).
  - destruct (little flags); apply Put; cbn [word16_bytes mbind list_bind app fmap list_fmap length]; try lia; rewrite !wrap_u8_mod; enc_lia; repeat f_equal; lia.
  - rewrite land_1023. enc_lia. unfold wrap_u at 1 2 3 4 5 6 7 8. change (2 ^ 16) with 65536. rewrite !(Z.mod_small _ 65536) by lia.
    destruct (little flags); apply Put; cbn [word16_bytes mbind list_bind app fmap list_fmap length]; try lia; rewrite !wrap_u8_mod; enc_lia;
      repeat f_equal; lia.
Qed.

Lemma erts_bs_put_utf16_error m st tmp_buf t flags : (∀ c, t = Small c → in_small c ∧ is_char c = false) →
  erts_bs_put_utf16 m st tmp_buf t flags = Some (0, m, st).
Proof.
  intros H. destruct t as [c| |]; [|done..]. destruct (H c eq_refl) as [HS HC]. destruct (unsigned_val_char c HS) as [E _]. rewrite HC in E.
  symmetry in E. apply negb_false_iff in E. unfold erts_bs_put_utf16. by rewrite E.
Qed.

(** ** Binaries *)

(** The [n] bits at the source are mapped and apart from the field at [bin]. *)
Definition src_ok (m : memory) (src soffs bin off n : Z) : Prop :=
  0 ≤ soffs ∧ bits_mapped m src 1 soffs n ∧ bits_apart src 1 soffs n bin 1 off n.

Lemma copy_bits_placed m src soffs bin off n : bytes_mem m → 0 ≤ off → 0 ≤ n → 8 + n < D_BASE → src_ok m src soffs bin off n →
  bin_ok scratch m bin (off + n) →
  ∃ m', erts_copy_bits m src soffs 1 bin off 1 n = Some m' ∧ placed scratch m m' bin off n (λ k, bit m src 1 (soffs + k)).
Proof.
  intros B Ho Hn Hfit (Hs & MS & AP) OK.
  destruct (erts_copy_bits_spec m src soffs 1 bin off 1 n) as (m' & E & C); [done|done|lia|lia|lia|lia|done| |done|].
  { by apply (bin_ok_mapped scratch). }
  exists m'. split; [done|]. by apply (field_copied_placed scratch m m m' src soffs).
Qed.

Lemma memcpy_placed m src bin off nb : bytes_mem m → 0 ≤ off → off mod 8 = 0 → 0 ≤ nb → src_ok m src 0 bin off (8 * nb) → bin_ok scratch m bin (off + 8 * nb) →
  ∃ m', sys_memcpy m (bin + off / 8) src nb = Some m' ∧ placed scratch m m' bin off (8 * nb) (λ k, bit m src 1 k).
Proof.
  intros B Ho H8 Hn (_ & MS & AP) OK. unfold sys_memcpy, sys_memmove.
  assert (overlap (bin + off / 8) src nb = false) as ->.
  { unfold overlap. destruct (Z.le_ge_cases nb 0); [lia|].
    destruct (Z.le_ge_cases (bin + off / 8) src) as [C|C].
    - destruct (Z.ltb_spec src (bin + off / 8 + nb)) as [L|L]; [|lia]. exfalso. apply (AP 0 (off + 8 * (src - (bin + off / 8)))); lia.
    - destruct (Z.ltb_spec (bin + off / 8) (src + nb)) as [L|L]; [|lia]. exfalso. apply (AP (8 * (bin + off / 8 - src)) off); lia. }
  destruct (mem_bytes_mapped m src nb) as [bs Ebs].
  { apply mapped_spec. intros x Hx. specialize (MS (8 * (x - src)) ltac:(lia)). by replace (src + 1 * (8 * (x - src) / 8)) with x in MS by lia. }
  rewrite Ebs. apply mem_bytes_spec in Ebs as [Lb Hb]; [|done]. cbn [mbind option_bind].
  assert (∀ x, bin + off / 8 ≤ x < bin + off / 8 + nb → is_Some (m !! x)) as MD.
  { intros x Hx. destruct (OK (off + 8 * (x - (bin + off / 8)))) as [HS _]; [lia|]. by replace (bin + (off + 8 * (x - (bin + off / 8))) / 8) with x in HS by lia. }
  rewrite (proj2 (mapped_spec _ _ _) MD). eexists. split; [reflexivity|].
  assert (∀ x, put_bytes m (bin + off / 8) bs !! x = if bool_decide (bin + off / 8 ≤ x < bin + off / 8 + nb) then m !! (src + (x - (bin + off / 8))) else m !! x) as L.
  { intros x. rewrite put_bytes_lookup, Lb. case_bool_decide; [|done]. rewrite <- Hb by lia. done. }
  split; [intros a b Ea; rewrite L in Ea; case_bool_decide; by eapply B|]. split; [|split; [|split]].
  - intros a. rewrite L. case_bool_decide as C; [|done]. split; intros _; [by apply MD|].
    specialize (MS (8 * (a - (bin + off / 8))) ltac:(lia)). by replace (src + 1 * (8 * (a - (bin + off / 8)) / 8)) with (src + (a - (bin + off / 8))) in MS by lia.
  - intros k Hk. unfold bit. rewrite L, bool_decide_eq_true_2 by lia. replace (src + (bin + 1 * ((off + k) / 8) - (bin + off / 8))) with (src + 1 * (k / 8)) by lia.
    by replace ((off + k) mod 8) with (k mod 8) by lia.
  - intros k Hk. unfold bit. rewrite L, bool_decide_eq_false_2 by lia. done.
  - intros a _ Ha. rewrite L, bool_decide_eq_false_2; [done|]. intros C. apply (Ha (off + 8 * (a - (bin + off / 8)))); lia.
Qed.

Lemma copy_binary_to_buffer_spec m src soffs bin off n : bytes_mem m → 0 ≤ off → 0 ≤ n → 8 + n < D_BASE → src_ok m src soffs bin off n →
  bin_ok scratch m bin (off + n) →
  ∃ m', copy_binary_to_buffer m bin off src soffs n = Some m' ∧ placed scratch m m' bin off n (λ k, bit m src 1 (soffs + k)).
Proof.
  intros B Ho Hn Hfit SO OK. unfold copy_binary_to_buffer. rewrite !BIT_OFFSET_eq, BYTE_OFFSET_eq.
  destruct (Z.eqb_spec (off mod 8) 0), (Z.eqb_spec soffs 0) as [->|], (Z.eqb_spec (n mod 8) 0); cbn [andb]; try by apply copy_bits_placed.
  rewrite NBYTES_eq by lia. replace n with (8 * (n / 8)) in SO, OK |- * by lia. replace ((8 * (n / 8) + 7) / 8) with (n / 8) by lia.
  apply memcpy_placed; (done || lia).
Qed.

(** A binary term: where its bits are, and how many. *)
Definition term_src (t : bin_term) : Z * Z := let '(bptr, bitoffs, _) := ERTS_GET_BINARY_BYTES t in (bptr, bitoffs).
Definition term_bits (t : bin_term) : Z := let '(_, _, bitsize) := ERTS_GET_BINARY_BYTES t in 8 * binary_size t + bitsize.
Definition term_bit (m : memory) (t : bin_term) (k : Z) : bool := let '(p, o) := term_src t in bit m p 1 (o + k).

Lemma erts_new_bs_put_binary_spec m st t n : bytes_mem m → st_ok scratch m st → 0 ≤ n → 0 ≤ term_bits t < D_BASE → n ≤ term_bits t →
  erts_bin_offset st + n + 8 < D_BASE →
  src_ok m (term_src t).1 (term_src t).2 (erts_current_bin st) (erts_bin_offset st) n → bin_ok scratch m (erts_current_bin st) (erts_bin_offset st + n) →
  put_ok scratch m st (erts_new_bs_put_binary m st (Some t) n) n (term_bit m t).
Proof.
  intros B ST Hn Ht Hle Hfit SO OK. pose proof (off_pos scratch m st ST). unfold erts_new_bs_put_binary, term_src, term_bits, term_bit, term_src in *.
  destruct (ERTS_GET_BINARY_BYTES t) as [[p o] bs]. cbn [fst snd] in *. rewrite dig_small by (unfold is_digit; lia).
  destruct (Z.gtb_spec n (8 * binary_size t + bs)); [lia|].
  destruct (copy_binary_to_buffer_spec m p o (erts_current_bin st) (erts_bin_offset st) n) as (m' & -> & P); [done|lia|lia|lia|done|done|].
  cbn [mbind option_bind]. apply put_ok_intro; (done || lia || apply ST).
Qed.

Lemma erts_new_bs_put_binary_error m st t n : 0 ≤ term_bits t < D_BASE → term_bits t < n → erts_new_bs_put_binary m st (Some t) n = Some (0, m, st).
Proof.
  intros Ht Hlt. unfold erts_new_bs_put_binary, term_bits in *. destruct (ERTS_GET_BINARY_BYTES t) as [[p o] bs]. rewrite dig_small by (unfold is_digit; lia).
  destruct (Z.gtb_spec n (8 * binary_size t + bs)); [done|lia].
Qed.

(** The unit divides the size. *)
Lemma erts_new_bs_put_binary_all_spec m st t unit : bytes_mem m → st_ok scratch m st → 0 < unit → 0 ≤ term_bits t < D_BASE →
  (let '(_, _, bitsize) := ERTS_GET_BINARY_BYTES t in 0 ≤ bitsize < 8) →
  erts_bin_offset st + term_bits t + 8 < D_BASE →
  src_ok m (term_src t).1 (term_src t).2 (erts_current_bin st) (erts_bin_offset st) (term_bits t) →
  bin_ok scratch m (erts_current_bin st) (erts_bin_offset st + term_bits t) →
  if bool_decide (term_bits t mod unit = 0) then put_ok scratch m st (erts_new_bs_put_binary_all m st (Some t) unit) (term_bits t) (term_bit m t)
  else erts_new_bs_put_binary_all m st (Some t) unit = Some (0, m, st).
Proof.
  intros B ST Hu Ht Hb Hfit SO OK. pose proof (off_pos scratch m st ST). unfold erts_new_bs_put_binary_all, term_src, term_bits, term_bit, term_src in *.
  destruct (ERTS_GET_BINARY_BYTES t) as [[p o] bs]. cbn [fst snd] in *. rewrite dig_small by (unfold is_digit; lia). set (n := 8 * binary_size t + bs) in *.
  eqb_cases unit 0 Hz; [lia|].
  assert ((if unit =? 8 then negb (bs =? 0) else negb (unit =? 1) && negb (n mod unit =? 0)) = negb (bool_decide (n mod unit = 0))) as ->.
  { eqb_cases unit 8 H8; [rewrite H8; case_bool_decide; lia|]. eqb_cases unit 1 H1; [rewrite H1; case_bool_decide; cbn; lia|].
    case_bool_decide as E; [by rewrite E|]. by rewrite (proj2 (Z.eqb_neq _ _)). }
  case_bool_decide; cbn [negb]; [|done].
  destruct (copy_binary_to_buffer_spec m p o (erts_current_bin st) (erts_bin_offset st) n) as (m' & -> & P); [done|lia|lia|lia|done|done|].
  cbn [mbind option_bind]. apply put_ok_intro; (done || lia || apply ST).
Qed.

Lemma erts_new_bs_put_string_spec m st iptr nb : bytes_mem m → st_ok scratch m st → 0 ≤ nb → erts_bin_offset st + 8 * nb + 8 < D_BASE →
  src_ok m iptr 0 (erts_current_bin st) (erts_bin_offset st) (8 * nb) → bin_ok scratch m (erts_current_bin st) (erts_bin_offset st + 8 * nb) →
  put_ok scratch m st ('(m', st') ← erts_new_bs_put_string m st iptr nb; Some (1, m', st')) (8 * nb) (λ k, bit m iptr 1 k).
Proof.
  intros B ST Hn Hfit SO OK. pose proof (off_pos scratch m st ST). unfold erts_new_bs_put_string. rewrite BIT_OFFSET_eq, BYTE_OFFSET_eq.
  rewrite (Z.mul_comm nb 8), dig_small by (unfold is_digit; lia).
  assert (∃ m', (if erts_bin_offset st mod 8 =? 0 then sys_memcpy m (erts_current_bin st + erts_bin_offset st / 8) iptr nb
     else erts_copy_bits m iptr 0 1 (erts_current_bin st) (erts_bin_offset st) 1 (8 * nb)) = Some m' ∧
     placed scratch m m' (erts_current_bin st) (erts_bin_offset st) (8 * nb) (λ k, bit m iptr 1 k)) as (m' & -> & P).
  { destruct (Z.eqb_spec (erts_bin_offset st mod 8) 0); [by apply memcpy_placed|].
    by apply (copy_bits_placed m iptr 0 (erts_current_bin st) (erts_bin_offset st) (8 * nb)); (done || lia). }
  cbn [mbind option_bind]. apply put_ok_intro; (done || lia || apply ST).
Qed.
End More.
