(* ===== verification/BitsMatch.v ===== *)
(** Matching of binaries: the [bs_get] functions of [erts/emulator/beam/erl_bits.c].

    A match buffer is updated in place; the functions return the new one with the result, where [None] is
    [THE_NON_VALUE].  Local arrays ([bigbuf], [tmp_buf]) and the block that [erts_alloc] returns are arguments, as addresses. *)

From Stdlib Require Import ZArith ZifyBool.
From stdpp Require Import base list numbers option gmap.
From S2P Require Import Prelude Big BigTerm AllocMem Bits BitsBuild.
Local Open Scope Z_scope.

Record ErlBinMatchBuffer := MatchBuffer {
  mb_orig : real_bin;
  mb_base : Z;
  mb_offset : Z;
  mb_size : Z }.

Section Match.
Context {dw : DigitWidth}.

(** [mb->offset += n] *)
Definition mb_advance (mb : ErlBinMatchBuffer) (n : Z) : ErlBinMatchBuffer :=
  MatchBuffer (mb_orig mb) (mb_base mb) (dig (mb_offset mb + n)) (mb_size mb).

(** The memory, the match buffer and the result. *)
Abbreviation match_result A := (option (memory * ErlBinMatchBuffer * option A)).

(** ** Integers *)

(** [w |= ~mask], and [make_small(w)], for a field of [num_bits] bits. *)
Definition small_field (w num_bits flags : Z) : int_term :=
  make_small (if signed_field flags && negb (Z.shiftr w (num_bits - 1) =? 0) then Z.lor w (dig (Z.lnot (MAKE_MASK num_bits))) else w).

(** [w = (w << 8) | *bp++], [k] times. *)
Fixpoint shift_bytes (k : nat) (m : memory) (w bp : Z) : option (Z * Z) :=
  match k with
  | O => Some (w, bp)
  | S k' => b ← rd m bp; shift_bytes k' m (Z.lor (dig (Z.shiftl w 8)) b) (bp + 1)
  end.

(** The [switch (BYTE_OFFSET(n))], which falls through its cases; there are seven of them under [ARCH_64], three otherwise. *)
Definition switch_bytes (n : Z) (m : memory) (w bp : Z) : option (Z * Z) :=
  if BYTE_OFFSET n <=? (if D_EXP =? 64 then 7 else 3) then shift_bytes (Z.to_nat (BYTE_OFFSET n)) m w bp else Some (w, bp).

(** A big-endian field of 9 to [SMALL_BITS-1] bits, or one of at most 8 bits. *)
Definition get_small (m : memory) (base offset num_bits flags : Z) : option int_term :=
  let offs := BIT_OFFSET offset in
  let bp := base + BYTE_OFFSET offset in
  if num_bits <=? 8 - offs then
    b ← rd m bp; Some (small_field (Z.land (Z.shiftr b (8 - offs - num_bits)) (MAKE_MASK num_bits)) num_bits flags)
  else if num_bits <=? 8 then
    b0 ← rd m bp; b1 ← rd m (bp + 1);
    let w := Z.lor (Z.shiftl b0 8) b1 in
    Some (small_field (Z.land (Z.shiftr w (16 - offs - num_bits)) (MAKE_MASK num_bits)) num_bits flags)
  else
    '(w, bp, n) ← (if offs =? 0 then Some (0, bp, num_bits)
                   else b ← rd m bp; Some (Z.land b (MAKE_MASK (8 - offs)), bp + 1, num_bits - (8 - offs)));
    '(w, bp) ← switch_bytes n m w bp;
    let n := BIT_OFFSET n in
    w ← (if n >? 0 then b ← rd m bp; Some (Z.lor (dig (Z.shiftl w n)) (Z.shiftr b (8 - n))) else Some w);
    Some (small_field w num_bits flags).

(** [while (ptr <= MSB)]: the two's complement of the bytes. *)
Fixpoint complement_loop (k : nat) (m : memory) (ptr c : Z) : option memory :=
  match k with
  | O => Some m
  | S k' =>
      b ← rd m ptr;
      let pd := wrap_u 8 (Z.lnot b) in
      let d := wrap_u 8 (pd + c) in
      m ← wr m ptr d;
      complement_loop k' m (ptr + 1) (b2d (d <? pd))
  end.

(** [while (( *MSB == 0) && (MSB > LSB)) { MSB--; bytes--; }] with [MSB = LSB + bytes - 1]. *)
Fixpoint normalize (bytes : nat) (m : memory) (LSB : Z) : option nat :=
  match bytes with
  | S (S _ as bytes') => b ← rd m (LSB + Z.of_nat bytes'); if b =? 0 then normalize bytes' m LSB else Some bytes
  | _ => _ ← rd m (LSB + Z.of_nat bytes - 1); Some bytes
  end.

(** [ReadToVariable], and the sums that the shorter cases write out. *)
Fixpoint read_loop (bs : list Z) (i v64 : Z) : Z :=
  match bs with [] => v64 | b :: bs' => read_loop bs' (i + 1) (dig (dig (Z.shiftl b (8 * i)) + v64)) end.
Definition ReadToVariable (bs : list Z) : Z := read_loop bs 0 0.

(** The term for the bytes, lowest first: small, one digit, or any number of them. *)
Definition bytes_to_term (bs : list Z) (sgn : bool) : option int_term :=
  if zlen bs <=? D_EXP / 8 then
    let v32 := ReadToVariable bs in
    if (zlen bs =? D_EXP / 8) && negb (IS_USMALL sgn v32) then Some (Bignum sgn [v32])
    else Some (if sgn then make_small (- Sint v32) else make_small v32)
  else bytes_to_big bs sgn.

(** All other fields: the bits are moved to a buffer, lowest byte first. *)
Definition get_integer_general (m : memory) (bigbuf tmp base offset num_bits flags : Z) : option (memory * int_term) :=
  let bytes := NBYTES num_bits in
  let bits := if BIT_OFFSET num_bits =? 0 then 8 else BIT_OFFSET num_bits in
  let offs := 8 - bits in
  let LSB := if bytes <=? 64 then bigbuf else tmp in
  let MSB := LSB + bytes - 1 in
  m ← (if little flags
       then m ← erts_copy_bits m base offset 1 LSB 0 1 num_bits; b ← rd m MSB; wr m MSB (Z.shiftr b offs)
       else m ← wr m MSB 0; erts_copy_bits m base offset 1 MSB offs (-1) num_bits);
  b ← rd m MSB;
  '(m, sgn) ← (if signed_field flags && negb (Z.land b (Z.shiftl 1 (bits - 1)) =? 0)
               then m ← wr m MSB (Z.lor b (dig (Z.lnot (MAKE_MASK bits))));
                    m ← complement_loop (Z.to_nat bytes) m LSB 1; Some (m, true)
               else Some (m, false));
  bytes ← normalize (Z.to_nat bytes) m LSB;
  bs ← mem_bytes m LSB (Z.of_nat bytes);
  res ← bytes_to_term bs sgn; Some (m, res).

Definition erts_bs_get_integer_2 (m : memory) (bigbuf tmp num_bits flags : Z) (mb : ErlBinMatchBuffer) : match_result int_term :=
  if num_bits =? 0 then Some (m, mb, Some (Small 0))
  else if dig (mb_size mb - mb_offset mb) <? num_bits then Some (m, mb, None)
  else if (num_bits <=? 8) || (num_bits <? SMALL_BITS) && negb (little flags) then
    t ← get_small m (mb_base mb) (mb_offset mb) num_bits flags; Some (m, mb_advance mb num_bits, Some t)
  else
    '(m, t) ← get_integer_general m bigbuf tmp (mb_base mb) (mb_offset mb) num_bits flags;
    Some (m, mb_advance mb num_bits, Some t).

(** ** Binaries *)

(** [empty] is the new empty binary. *)
Definition erts_bs_get_binary_2 (empty : real_bin) (num_bits : Z) (mb : ErlBinMatchBuffer) : ErlBinMatchBuffer * option bin_term :=
  if num_bits =? 0 then (mb, Some (Real empty))
  else if dig (mb_size mb - mb_offset mb) <? num_bits then (mb, None)
  else (mb_advance mb num_bits,
        Some (Sub (SubBin (BYTE_OFFSET num_bits) (BYTE_OFFSET (mb_offset mb)) (BIT_OFFSET num_bits) (BIT_OFFSET (mb_offset mb)) false (mb_orig mb)))).

Definition erts_bs_get_binary_all_2 (mb : ErlBinMatchBuffer) : ErlBinMatchBuffer * bin_term :=
  let size := dig (mb_size mb - mb_offset mb) in
  (MatchBuffer (mb_orig mb) (mb_base mb) (mb_size mb) (mb_size mb),
   Sub (SubBin (BYTE_OFFSET size) (BYTE_OFFSET (mb_offset mb)) (BIT_OFFSET size) (BIT_OFFSET (mb_offset mb)) false (mb_orig mb))).

(** [bigbuf] is the local array. *)
Definition erts_bs_get_unaligned_uint32 (m : memory) (bigbuf : Z) (mb : ErlBinMatchBuffer) : option (memory * Z) :=
  let LSB := bigbuf in let MSB := LSB + 3 in
  m ← wr m MSB 0;
  m ← erts_copy_bits m (mb_base mb) (mb_offset mb) 1 MSB 0 (-1) 32;
  b0 ← rd m LSB; b1 ← rd m (LSB + 1); b2 ← rd m (LSB + 2); b3 ← rd m (LSB + 3);
  Some (m, uint32 (Z.lor (Z.lor (Z.lor b0 (Z.shiftl b1 8)) (Z.shiftl b2 16)) (Z.shiftl b3 24))).

(** ** UTF-8 *)
Definition erts_align_utf8_bytes (m : memory) (mb : ErlBinMatchBuffer) (buf : Z) : option memory :=
  let bits := dig (mb_size mb - mb_offset mb) in
  let bits := if bits <=? 15 then 8 else if bits >=? 32 then 32 else if bits >=? 24 then 24 else 16 in
  erts_copy_bits m (mb_base mb) (mb_offset mb) 1 buf 0 1 bits.

Definition erts_trailing_bytes_for_utf8 : list Z :=
  replicate 128 0 ++ replicate 64 9 ++ [9; 9] ++ replicate 30 1 ++ replicate 16 2 ++ replicate 8 3 ++ replicate 8 9.

(** [(a & 0xC0) != 0x80] *)
Definition not_trailing (a : Z) : bool := negb (Z.land a 192 =? 128).

(** The character at [pos] with [remaining_bits] bits behind it, and the bits it takes. *)
Definition decode_utf8 (m : memory) (pos remaining_bits : Z) : option (option (Z * Z)) :=
  result ← rd m pos;
  trailing ← erts_trailing_bytes_for_utf8 !! Z.to_nat result;
  match trailing with
  | 0 => Some (Some (result, 8))
  | 1 =>
      if remaining_bits <? 16 then Some None
      else
        a ← rd m (pos + 1);
        if not_trailing a then Some None
        else Some (Some (dig (Z.shiftl result 6 + a - 12416), 16))
  | 2 =>
      if remaining_bits <? 24 then Some None
      else
        a ← rd m (pos + 1); b ← rd m (pos + 2);
        if not_trailing a || not_trailing b || (result =? 224) && (a <? 160) then Some None
        else
          let result := dig (Z.shiftl (Z.shiftl result 6 + a) 6 + b - 925824) in
          if (55296 <=? result) && (result <=? 57343) || (result =? 65534) || (result =? 65535) then Some None
          else Some (Some (result, 24))
  | 3 =>
      if remaining_bits <? 32 then Some None
      else
        a ← rd m (pos + 1); b ← rd m (pos + 2); c ← rd m (pos + 3);
        if not_trailing a || not_trailing b || not_trailing c || (result =? 240) && (a <? 144) then Some None
        else
          let result := dig (Z.shiftl (Z.shiftl (Z.shiftl result 6 + a) 6 + b) 6 + c - 63447168) in
          if result >? 1114111 then Some None else Some (Some (result, 32))
  | _ => Some None
  end.

Definition erts_bs_get_utf8 (m : memory) (tmp_buf : Z) (mb : ErlBinMatchBuffer) : match_result int_term :=
  let remaining_bits := dig (mb_size mb - mb_offset mb) in
  if remaining_bits <? 8 then Some (m, mb, None)
  else
    '(m, pos) ← (if BIT_OFFSET (mb_offset mb) =? 0 then Some (m, mb_base mb + BYTE_OFFSET (mb_offset mb))
                 else m ← erts_align_utf8_bytes m mb tmp_buf; Some (m, tmp_buf));
    r ← decode_utf8 m pos remaining_bits;
    match r with
    | Some (result, n) => Some (m, mb_advance mb n, Some (make_small result))
    | None => Some (m, mb, None)
    end.

(** ** UTF-16 *)
Definition get_word16 (m : memory) (src flags : Z) : option Z :=
  b0 ← rd m src; b1 ← rd m (src + 1);
  Some (wrap_u 16 (if little flags then Z.lor b0 (Z.shiftl b1 8) else Z.lor (Z.shiftl b0 8) b1)).

Definition decode_utf16 (m : memory) (src num_bits flags : Z) : option (option (Z * Z)) :=
  w1 ← get_word16 m src flags;
  if (w1 <? 55296) || (w1 >? 57343) then
    if (w1 =? 65534) || (w1 =? 65535) then Some None else Some (Some (w1, 16))
  else if w1 >? 56319 then Some None
  else if num_bits <? 32 then Some None
  else
    w2 ← get_word16 m (src + 2) flags;
    if negb ((56320 <=? w2) && (w2 <=? 57343)) then Some None
    else Some (Some (dig (Z.lor (Z.shiftl (Z.land w1 1023) 10) (Z.land w2 1023) + 65536), 32)).

Definition erts_bs_get_utf16 (m : memory) (tmp_buf flags : Z) (mb : ErlBinMatchBuffer) : match_result int_term :=
  let num_bits := dig (mb_size mb - mb_offset mb) in
  if num_bits <? 16 then Some (m, mb, None)
  else
    '(m, src) ← (if BIT_OFFSET (mb_offset mb) =? 0 then Some (m, mb_base mb + BYTE_OFFSET (mb_offset mb))
                 else m ← erts_copy_bits m (mb_base mb) (mb_offset mb) 1 tmp_buf 0 1 (if num_bits <? 32 then 16 else 32); Some (m, tmp_buf));
    r ← decode_utf16 m src num_bits flags;
    match r with
    | Some (w, n) => Some (m, mb_advance mb n, Some (make_small w))
    | None => Some (m, mb, None)
    end.
End Match.
