(* ===== verification/BitsGet.v ===== *)
(** [erts_bs_get_integer_2] yields the integer whose field the bits are, as a well-formed term. *)

From Stdlib Require Import ZArith ZifyBool.
From stdpp Require Import base list numbers option gmap.
From S2P Require Import Prelude Big BigSpec BigBitsSpec BigTerm BigTermSpec BigOutSpec AllocMem Bits BitsSpec BitsBuild BitsFmt BitsPut BitsMatch.
Local Open Scope Z_scope.
Ltac Zify.zify_post_hook ::= Z.to_euclidean_division_equations.

(** The integers that a field of [n] bits can hold. *)
Definition int_range (signed : bool) (n z : Z) : Prop :=
  if signed && (0 <? n) then - 2 ^ (n - 1) ≤ z < 2 ^ (n - 1) else 0 ≤ z < 2 ^ n.

Section Small.
Context {dw : DigitWidth}.

Lemma two_pow_S n : 0 < n → 2 ^ n = 2 * 2 ^ (n - 1).
Proof. intros. rewrite <- Z.pow_succ_r by lia. f_equal. lia. Qed.

Lemma testbit_sub_pow w n i : 0 ≤ i < n → Z.testbit (w - 2 ^ n) i = Z.testbit w i.
Proof.
  intros Hi. rewrite <- (Z.mod_pow2_bits_low (w - 2 ^ n) n), <- (Z.mod_pow2_bits_low w n) by lia. f_equal.
  rewrite <- (Z.mul_1_l (2 ^ n)) at 1. by rewrite Z_mod_plus_full || (rewrite <- (Z.mod_add w (-1) (2 ^ n)) by lia; f_equal; lia).
Qed.

Lemma testbit_top w n : 0 < n → 0 ≤ w < 2 ^ n → Z.testbit w (n - 1) = (2 ^ (n - 1) <=? w).
Proof.
  intros Hn Hw. rewrite two_pow_S in Hw by done. destruct (Z.leb_spec (2 ^ (n - 1)) w).
  - apply Z.testbit_true; [lia|]. assert (w / 2 ^ (n - 1) = 1) as -> by (symmetry; apply (Z.div_unique _ _ _ (w - 2 ^ (n - 1))); lia). done.
  - apply Z.testbit_false; [lia|]. by rewrite Z.div_small by lia.
Qed.

(** [z] is the integer with the [n] bits of [w], signed or not. *)
Definition field_value (signed : bool) (n w z : Z) : Prop :=
  int_range signed n z ∧ ∀ i, 0 ≤ i < n → Z.testbit z i = Z.testbit w i.

Lemma field_value_pos signed n w : 0 < n → 0 ≤ w < 2 ^ n → (signed = true → Z.testbit w (n - 1) = false) → field_value signed n w w.
Proof.
  intros Hn Hw Hs. split; [|done]. unfold int_range. rewrite (proj2 (Z.ltb_lt 0 n) Hn), andb_true_r. destruct signed; [|done].
  specialize (Hs eq_refl). rewrite testbit_top in Hs by done. lia.
Qed.
Lemma field_value_neg n w : 0 < n → 0 ≤ w < 2 ^ n → Z.testbit w (n - 1) = true → field_value true n w (w - 2 ^ n).
Proof.
  intros Hn Hw Hs. rewrite testbit_top in Hs by done. split; [|intros i Hi; by apply testbit_sub_pow].
  unfold int_range. rewrite (proj2 (Z.ltb_lt 0 n) Hn). cbn [andb]. pose proof (two_pow_S n Hn). lia.
Qed.

Lemma wrap_s_add w x k : 0 < w → wrap_s w (x + k * 2 ^ w) = wrap_s w x.
Proof. intros. unfold wrap_s. f_equal. replace (x + k * 2 ^ w + 2 ^ (w - 1)) with (x + 2 ^ (w - 1) + k * 2 ^ w) by lia. by rewrite Z.mod_add by lia. Qed.

Lemma lor_high w n : 0 ≤ n < D_EXP → 0 ≤ w < 2 ^ n → Z.lor w (dig (Z.lnot (MAKE_MASK n))) = w - 2 ^ n + D_BASE.
Proof.
  intros Hn Hw. assert (MAKE_MASK n = 2 ^ n - 1) as ->.
  { unfold MAKE_MASK. rewrite Z.shiftl_1_l, (dig_small (2 ^ n)) by (split; [|apply Z.pow_lt_mono_r]; lia). apply dig_small.
    assert (2 ^ n < D_BASE) by (apply Z.pow_lt_mono_r; lia). unfold is_digit. lia. }
  assert (D_BASE = 2 ^ (D_EXP - n) * 2 ^ n) as EB by (unfold D_BASE; rewrite <- Z.pow_add_r by lia; f_equal; lia).
  assert (2 ^ n < D_BASE) by (apply Z.pow_lt_mono_r; lia).
  assert (dig (Z.lnot (2 ^ n - 1)) = (2 ^ (D_EXP - n) - 1) * 2 ^ n) as ->.
  { unfold dig. replace (Z.lnot (2 ^ n - 1)) with (- 2 ^ n) by (unfold Z.lnot; lia). symmetry. apply (Z.mod_unique_pos _ _ (-1)); lia. }
  rewrite <- Z.shiftl_mul_pow2, lor_shiftl_add' by lia. lia.
Qed.

Lemma small_bits_28 : 28 ≤ SMALL_BITS ∧ SMALL_BITS < D_EXP.
Proof. unfold SMALL_BITS. pose proof D_EXP_ge. lia. Qed.

Lemma make_small_spec z k : in_small z → make_small (z + k * D_BASE) = Small z.
Proof.
  intros [H1 H2]. unfold make_small. f_equal. pose proof small_bits_28.
  assert (D_BASE = 2 ^ 4 * 2 ^ SMALL_BITS) as EB by (unfold D_BASE, SMALL_BITS; rewrite <- Z.pow_add_r by lia; f_equal; lia).
  rewrite EB, Z.mul_assoc, wrap_s_add by lia. apply wrap_s_small; [|lia]. unfold MIN_SMALL, MAX_SMALL in *. lia.
Qed.

Lemma make_small_id z : in_small z → make_small z = Small z.
Proof. intros H. pose proof (make_small_spec z 0 H) as E. by rewrite Z.mul_0_l, Z.add_0_r in E. Qed.

Lemma range_small signed n z : 0 < n < SMALL_BITS → int_range signed n z → in_small z.
Proof.
  intros Hn H. unfold int_range in H. unfold in_small, MIN_SMALL, MAX_SMALL. assert (2 ^ n ≤ 2 ^ (SMALL_BITS - 1)) by (apply Z.pow_le_mono_r; lia).
  pose proof (two_pow_S n). destruct (signed && (0 <? n)); lia.
Qed.

Lemma small_field_spec w n flags : 0 < n < SMALL_BITS → 0 ≤ w < 2 ^ n →
  ∃ z, small_field w n flags = Small z ∧ represents (Small z) z ∧ field_value (signed_field flags) n w z.
Proof.
  intros Hn Hw. pose proof small_bits_28. unfold small_field.
  assert (negb (Z.shiftr w (n - 1) =? 0) = Z.testbit w (n - 1)) as ->.
  { rewrite testbit_top, Z.shiftr_div_pow2 by lia. rewrite two_pow_S in Hw by lia. destruct (Z.leb_spec (2 ^ (n - 1)) w).
    - assert (w / 2 ^ (n - 1) = 1) as -> by (symmetry; apply (Z.div_unique _ _ _ (w - 2 ^ (n - 1))); lia). done.
    - by rewrite Z.div_small by lia. }
  destruct (signed_field flags && Z.testbit w (n - 1)) eqn:E.
  - apply andb_true_iff in E as [E1 E2]. rewrite E1, lor_high by lia. exists (w - 2 ^ n).
    pose proof (field_value_neg n w ltac:(lia) Hw E2) as FV. pose proof (range_small true n _ Hn (proj1 FV)) as IS.
    rewrite <- (Z.mul_1_l D_BASE), make_small_spec by done. done.
  - assert (field_value (signed_field flags) n w w) as FV by (apply field_value_pos; [lia|done|]; intros Es; by rewrite Es in E).
    exists w. pose proof (range_small _ n _ Hn (proj1 FV)) as IS. by rewrite make_small_id.
Qed.
End Small.

(** ** Fields up to [SMALL_BITS-1] bits *)
Section GetSmall.
Context {dw : DigitWidth}.
Variables (m : memory) (base off : Z).
Hypothesis (B : bytes_mem m).

(** [w] has the first [j] bits of the field. *)
Definition prefix (j w : Z) : Prop := 0 ≤ w < 2 ^ j ∧ ∀ i, 0 ≤ i < j → Z.testbit w i = bit m base 1 (off + (j - 1 - i)).

(** A number with no bits from [n] on. *)
Lemma bits_bound w n : 0 ≤ n → 0 ≤ w → (∀ i, n ≤ i → Z.testbit w i = false) → w < 2 ^ n.
Proof.
  intros Hn Hw H. destruct (Z.lt_ge_cases w (2 ^ n)) as [|C]; [done|]. exfalso. assert (0 < w) by (assert (0 < 2 ^ n) by lia; lia).
  pose proof (Z.bit_log2 w ltac:(lia)) as T. rewrite H in T; [done|]. apply Z.log2_le_pow2; lia.
Qed.

Lemma prefix_start : prefix 0 0.
Proof. split; [done|]. intros i Hi. lia. Qed.

(** The next [r] bits, from the beginning of a byte. *)
Lemma prefix_step j w r b : prefix j w → 0 ≤ j → 0 < r ≤ 8 → j + r ≤ D_EXP → (off + j) mod 8 = 0 → m !! (base + (off + j) / 8) = Some b →
  prefix (j + r) (Z.lor (dig (Z.shiftl w r)) (Z.shiftr b (8 - r))).
Proof.
  intros [Hw Tw] Hj Hr Hfit H8 Hb. pose proof (B _ _ Hb) as Bb.
  assert (∀ i, 0 ≤ i → Z.testbit (Z.lor (dig (Z.shiftl w r)) (Z.shiftr b (8 - r))) i =
    if i <? j + r then bit m base 1 (off + (j + r - 1 - i)) else false) as T.
  { intros i Hi. rewrite Z.lor_spec, Z.shiftr_spec by lia. destruct (Z.lt_ge_cases i r) as [C|C].
    - pose proof D_EXP_ge. rewrite testbit_dig, Z.shiftl_spec, (Z.testbit_neg_r w) by lia. rewrite (proj2 (Z.ltb_lt _ _)) by lia. cbn [orb].
      unfold bit. replace (base + 1 * ((off + (j + r - 1 - i)) / 8)) with (base + (off + j) / 8) by lia. rewrite Hb. f_equal. lia.
    - rewrite (testbit_byte_high b) by (done || lia). rewrite orb_false_r. destruct (Z.ltb_spec i (j + r)).
      + rewrite testbit_dig, Z.shiftl_spec, Tw by lia. f_equal. lia.
      + unfold dig, D_BASE. destruct (Z.lt_ge_cases i D_EXP); [|by rewrite Z.mod_pow2_bits_high by lia].
        rewrite Z.mod_pow2_bits_low, Z.shiftl_spec by lia. rewrite <- (Z.mod_small w (2 ^ j)) by done. by rewrite Z.mod_pow2_bits_high by lia. }
  split.
  - split; [apply Z.lor_nonneg; split; [apply Z.mod_pos_bound; pose proof D_BASE_ge; lia|apply Z.shiftr_nonneg, Bb]|].
    apply bits_bound; [lia| |].
    + apply Z.lor_nonneg; split; [apply Z.mod_pos_bound; pose proof D_BASE_ge; lia|apply Z.shiftr_nonneg, Bb].
    + intros i Hi. rewrite T by lia. by rewrite (proj2 (Z.ltb_ge _ _)).
  - intros i Hi. rewrite T by lia. by rewrite (proj2 (Z.ltb_lt _ _)) by lia.
Qed.

Lemma shift_bytes_spec k : ∀ j w, prefix j w → 0 ≤ j → j + 8 * Z.of_nat k ≤ D_EXP → (off + j) mod 8 = 0 →
  bits_mapped m base 1 (off + j) (8 * Z.of_nat k) →
  ∃ w', shift_bytes k m w (base + (off + j) / 8) = Some (w', base + (off + (j + 8 * Z.of_nat k)) / 8) ∧ prefix (j + 8 * Z.of_nat k) w'.
Proof.
  induction k as [|k IH]; intros j w P Hj Hfit H8 HM; cbn [shift_bytes].
  { exists w. rewrite Z.mul_0_r, Z.add_0_r. done. }
  destruct (HM (off + j) ltac:(lia)) as [b Hb]. rewrite Z.mul_1_l in Hb. unfold rd. rewrite Hb. cbn [mbind option_bind].
  pose proof (prefix_step j w 8 b P Hj ltac:(lia) ltac:(lia) H8 Hb) as P'. rewrite Z.shiftr_0_r in P'.
  replace (j + 8 * Z.of_nat (S k)) with (j + 8 + 8 * Z.of_nat k) in * by lia.
  replace (base + (off + j) / 8 + 1) with (base + (off + (j + 8)) / 8) by lia.
  apply IH; [done|lia|lia|lia|]. intros i Hi. apply HM. lia.
Qed.

(** Bits cut out of a word with the bits of whole bytes: [T] is the number of bits of the word. *)
Lemma prefix_cut x T o n : (∀ i, 0 ≤ i < T → Z.testbit x i = bit m base 1 (off - o + (T - 1 - i))) → 0 ≤ x → 0 ≤ o → 0 < n < D_EXP → o + n ≤ T →
  prefix n (Z.land (Z.shiftr x (T - o - n)) (MAKE_MASK n)).
Proof.
  intros HT Hx Ho Hn HTn.
  assert (∀ i, 0 ≤ i → Z.testbit (Z.land (Z.shiftr x (T - o - n)) (MAKE_MASK n)) i = if i <? n then bit m base 1 (off + (n - 1 - i)) else false) as TB.
  { intros i Hi. rewrite Z.land_spec, Z.shiftr_spec by lia. destruct (Z.ltb_spec i n) as [C|C].
    - rewrite MAKE_MASK_bits, HT by lia. rewrite (proj2 (Z.ltb_lt i n)), andb_true_r by lia. f_equal. lia.
    - destruct (Z.lt_ge_cases i D_EXP).
      + rewrite MAKE_MASK_bits by lia. by rewrite (proj2 (Z.ltb_ge i n)), andb_false_r by lia.
      + unfold MAKE_MASK. unfold dig at 1. unfold D_BASE. by rewrite Z.mod_pow2_bits_high, andb_false_r by lia. }
  assert (0 ≤ Z.land (Z.shiftr x (T - o - n)) (MAKE_MASK n)) as N by (apply Z.land_nonneg; left; by apply Z.shiftr_nonneg).
  split.
  - split; [done|]. apply bits_bound; [lia|done|]. intros i Hi. rewrite TB by lia. by rewrite (proj2 (Z.ltb_ge _ _)).
  - intros i Hi. rewrite TB by lia. by rewrite (proj2 (Z.ltb_lt _ _)) by lia.
Qed.
End GetSmall.

Section GetInt.
Context {dw : DigitWidth}.

(** [t] is the term for the integer in the [n] bits from [off] on. *)
Definition int_read (m : memory) (base off n flags : Z) (t : int_term) : Prop :=
  ∃ z, result t z ∧ int_range (signed_field flags) n z ∧ ∀ k, 0 ≤ k < n → bit m base 1 (off + k) = int_bit (little flags) n z k.

Lemma prefix_read m base off n w flags : 0 < n < SMALL_BITS → prefix m base off n w → n ≤ 8 ∨ little flags = false →
  int_read m base off n flags (small_field w n flags).
Proof.
  intros Hn [Hw Tw] Hc. destruct (small_field_spec w n flags Hn Hw) as (z & -> & R & Rg & Tz). exists z. split; [by left|]. split; [done|].
  intros k Hk. assert (int_bit (little flags) n z k = Z.testbit z (n - 1 - k)) as ->.
  { unfold int_bit. destruct (little flags); [|done]. destruct Hc as [Hc|?]; [|done]. f_equal. lia. }
  rewrite Tz, Tw by lia. f_equal. lia.
Qed.

Lemma switch_limit n : 0 ≤ n < SMALL_BITS → (BYTE_OFFSET n <=? (if D_EXP =? 64 then 7 else 3)) = true.
Proof.
  intros Hn. rewrite BYTE_OFFSET_eq. unfold SMALL_BITS, D_EXP in *. destruct H_EXP_cases as [E|E]; rewrite E in *.
  - change (2 * 16 =? 64) with false. cbv iota. lia.
  - change (2 * 32 =? 64) with true. cbv iota. lia.
Qed.

Lemma get_small_spec m base off n flags : bytes_mem m → 0 ≤ off → 0 < n < SMALL_BITS → n ≤ 8 ∨ little flags = false → bits_mapped m base 1 off n →
  ∃ t, get_small m base off n flags = Some t ∧ int_read m base off n flags t.
Proof.
  intros B Ho Hn Hc HM. pose proof small_bits_28. unfold get_small. rewrite BIT_OFFSET_eq, BYTE_OFFSET_eq. set (o := off mod 8).
  assert (∀ k, off ≤ k < off + n → ∃ b, rd m (base + k / 8) = Some b ∧ m !! (base + k / 8) = Some b ∧ is_byte b) as Rd.
  { intros k Hk. destruct (HM k Hk) as [b Hb]. rewrite Z.mul_1_l in Hb. exists b. split; [done|]. split; [done|]. by eapply B. }
  destruct (Rd off ltac:(lia)) as (b0 & E0 & M0 & B0).
  assert (∀ i, 0 ≤ i < 8 → Z.testbit b0 i = bit m base 1 (off - o + (7 - i))) as T0.
  { intros i Hi. unfold bit. replace (base + 1 * ((off - o + (7 - i)) / 8)) with (base + off / 8) by (subst o; lia). rewrite M0. f_equal. subst o. lia. }
  destruct (Z.leb_spec n (8 - o)) as [C1|C1]; [|destruct (Z.leb_spec n 8) as [C2|C2]].
  - rewrite E0. cbn [mbind option_bind]. eexists. split; [reflexivity|]. apply prefix_read; [done| |done].
    apply (prefix_cut m base off b0 8 o n); [|apply B0|subst o; lia|lia|lia]. intros i Hi. by rewrite T0 by done.
  - destruct (Rd (off + n - 1) ltac:(lia)) as (b1 & E1 & M1 & B1). replace ((off + n - 1) / 8) with (off / 8 + 1) in * by (subst o; lia).
    rewrite Z.add_assoc in *. rewrite E0, E1. cbn [mbind option_bind]. eexists. split; [reflexivity|]. apply prefix_read; [done| |done].
    apply (prefix_cut m base off _ 16 o n); [|apply Z.lor_nonneg; split; [apply Z.shiftl_nonneg, B0|apply B1]|subst o; lia|lia|subst o; lia].
    intros i Hi. rewrite Z.lor_spec, Z.shiftl_spec by lia. destruct (Z.lt_ge_cases i 8).
    + rewrite (Z.testbit_neg_r b0) by lia. cbn [orb]. unfold bit. replace (base + 1 * ((off - o + (16 - 1 - i)) / 8)) with (base + off / 8 + 1) by (subst o; lia).
      rewrite M1. f_equal. subst o. lia.
    + rewrite (testbit_byte_high b1), orb_false_r, T0 by (done || lia). f_equal. lia.
  - assert (∃ j w, (if o =? 0 then Some (0, base + off / 8, n)
        else b ← rd m (base + off / 8); Some (Z.land b (MAKE_MASK (8 - o)), base + off / 8 + 1, n - (8 - o))) =
        Some (w, base + (off + j) / 8, n - j) ∧ prefix m base off j w ∧ 0 ≤ j < 8 ∧ (off + j) mod 8 = 0) as (j & w & -> & P & Hj & Hj8).
    { eqb_cases o 0 Hz; [exists 0, 0; rewrite Z.add_0_r, Z.sub_0_r; split; [done|]; split; [apply prefix_start|subst o; lia]|].
      rewrite E0. cbn [mbind option_bind]. eexists (8 - o), _. split; [|split; [|subst o; lia]].
      - replace (base + off / 8 + 1) with (base + (off + (8 - o)) / 8) by (subst o; lia). reflexivity.
      - rewrite <- (Z.shiftr_0_r b0). replace 0 with (8 - o - (8 - o)) at 1 by lia. apply (prefix_cut m base off b0 8 o (8 - o)); [|apply B0|subst o; lia|subst o; lia|lia].
        intros i Hi. by rewrite T0 by done. }
    cbn [mbind option_bind]. unfold switch_bytes. rewrite switch_limit by lia. rewrite BYTE_OFFSET_eq.
    destruct (shift_bytes_spec m base off B (Z.to_nat ((n - j) / 8)) j w P ltac:(lia)) as (w1 & -> & P1); [lia|lia|intros k Hk; apply HM; lia|].
    rewrite Z2Nat.id in * by lia. set (q := (n - j) / 8) in *. cbn [mbind option_bind]. rewrite BIT_OFFSET_eq.
    destruct (Z.gtb_spec ((n - j) mod 8) 0) as [Hr|Hr].
    + destruct (Rd (off + n - 1) ltac:(lia)) as (b1 & E1 & M1 & B1). replace ((off + n - 1) / 8) with ((off + (j + 8 * q)) / 8) in * by (subst q; lia).
      rewrite E1. cbn [mbind option_bind]. eexists. split; [reflexivity|]. apply prefix_read; [done| |done].
      replace n with (j + 8 * q + (n - j) mod 8) at 1 by (subst q; lia). apply prefix_step; (done || (subst q; lia)).
    + cbn [mbind option_bind]. eexists. split; [reflexivity|]. apply prefix_read; [done| |done]. by replace n with (j + 8 * q) by (subst q; lia).
Qed.
End GetInt.

(** * Fields that need a buffer: the bytes in it, the two's complement, and the term made of them; then [erts_bs_get_integer_2] as a whole. *)

(** The [nb] bytes at [p], lowest first, are those of [W]. *)
Definition holds (m : memory) (p : Z) (nb : nat) (W : Z) : Prop :=
  0 ≤ W < 256 ^ Z.of_nat nb ∧ ∀ i, 0 ≤ i < Z.of_nat nb → m !! (p + i) = Some ((W / 256 ^ i) mod 256).

Section Holds.
Context {dw : DigitWidth}.

Lemma holds_exists nb : ∀ m p, bytes_mem m → (∀ i, 0 ≤ i < Z.of_nat nb → is_Some (m !! (p + i))) → ∃ W, holds m p nb W.
Proof.
  induction nb as [|nb IH]; intros m p B H; [exists 0; split; [done|lia]|].
  destruct (H 0 ltac:(lia)) as [b Hb]. rewrite Z.add_0_r in Hb. pose proof (B _ _ Hb) as Bb. unfold is_byte in Bb.
  destruct (IH m (p + 1) B) as (W & HW & HL). { intros i Hi. specialize (H (i + 1) ltac:(lia)). by replace (p + 1 + i) with (p + (i + 1)) by lia. }
  exists (b + 256 * W). split; [rewrite pow256_S; lia|]. intros i Hi. destruct (decide (i = 0)) as [->|N].
  - rewrite Z.add_0_r, Hb, Z.div_1_r. f_equal. lia.
  - replace (p + i) with (p + 1 + (i - 1)) by lia. rewrite HL by lia. do 2 f_equal. replace i with (Z.succ (i - 1)) at 2 by lia. rewrite Z.pow_succ_r by lia.
    assert (0 < 256 ^ (i - 1)) by (apply Z.pow_pos_nonneg; lia). rewrite <- Z.div_div by lia. f_equal. lia.
Qed.

Lemma holds_bit m p nb W i b : holds m p nb W → 0 ≤ i < Z.of_nat nb → 0 ≤ b < 8 → ∃ x, m !! (p + i) = Some x ∧ Z.testbit x b = Z.testbit W (8 * i + b).
Proof. intros [_ H] Hi Hb. exists ((W / 256 ^ i) mod 256). rewrite H by done. split; [done|]. apply byte_bit; lia. Qed.

(** Bits of [W] are bits of the buffer. *)
Lemma holds_testbit m p nb W i : holds m p nb W → 0 ≤ i < 8 * Z.of_nat nb → Z.testbit W i = bit m p 1 (8 * (i / 8) + (7 - i mod 8)).
Proof.
  intros H Hi. destruct (holds_bit m p nb W (i / 8) (i mod 8) H) as (x & Ex & Tx); [lia|lia|]. unfold bit.
  replace (p + 1 * ((8 * (i / 8) + (7 - i mod 8)) / 8)) with (p + i / 8) by lia. rewrite Ex.
  replace (7 - (8 * (i / 8) + (7 - i mod 8)) mod 8) with (i mod 8) by lia. rewrite Tx. f_equal. lia.
Qed.

Lemma holds_msb m p nb W : holds m p (S nb) W → m !! (p + Z.of_nat nb) = Some (W / 256 ^ Z.of_nat nb) ∧ 0 ≤ W / 256 ^ Z.of_nat nb < 256.
Proof.
  intros [HW H]. pose proof (pow256_pos nb). rewrite pow256_S in HW. assert (0 ≤ W / 256 ^ Z.of_nat nb < 256) as R.
  { split; [apply Z.div_pos; lia|apply Z.div_lt_upper_bound; lia]. }
  rewrite H by lia. by rewrite Z.mod_small.
Qed.

(** ** Two's complement *)
Lemma complement_loop_spec k : ∀ m p X c, room m p 1 k → 0 ≤ c ≤ 1 → (∀ i, 0 ≤ i < Z.of_nat k → m !! (p + i) = Some ((X / 256 ^ i) mod 256)) →
  complement_loop k m p c = Some (stream k m p 1 (- X - 1 + c)).
Proof.
  induction k as [|k IH]; intros m p X c R Hc H; cbn [complement_loop stream]; [done|].
  pose proof (H 0 ltac:(lia)) as H0. rewrite Z.add_0_r, Z.div_1_r in H0. unfold rd. rewrite H0. cbn [mbind option_bind].
  assert (wrap_u 8 (wrap_u 8 (Z.lnot (X mod 256)) + c) = (- X - 1 + c) mod 256) as ->.
  { unfold wrap_u, Z.lnot. change (2 ^ 8) with 256. lia. }
  destruct (room_S m p 1 k ((- X - 1 + c) mod 256) R) as [HS R']. rewrite (wr_mod m p (- X - 1 + c)) by (done || lia). cbn [mbind option_bind].
  set (c' := b2d _). assert (0 ≤ c' ≤ 1) as Hc' by (unfold c', b2d; case_match; lia).
  rewrite (IH _ (p + 1) (X / 256) c' R' Hc').
  - do 2 f_equal. unfold c', b2d, wrap_u, Z.lnot. change (2 ^ 8) with 256. destruct (Z.ltb_spec ((- X - 1 + c) mod 256) ((Z.pred (- (X mod 256))) mod 256)); lia.
  - intros i Hi. specialize (H (i + 1) ltac:(lia)). rewrite lookup_insert_ne by lia. replace (p + 1 + i) with (p + (i + 1)) by lia. rewrite H.
    do 2 f_equal. replace (i + 1) with (Z.succ i) by lia. rewrite Z.pow_succ_r, Z.div_div by lia. done.
Qed.

Lemma mod_pow256_digit V nb i : 0 ≤ i < Z.of_nat nb → ((V mod 256 ^ Z.of_nat nb) / 256 ^ i) mod 256 = (V / 256 ^ i) mod 256.
Proof.
  intros Hi. set (P := 256 ^ i). assert (0 < P) by (apply Z.pow_pos_nonneg; lia).
  assert (256 ^ Z.of_nat nb = P * (256 * 256 ^ (Z.of_nat nb - i - 1))) as E.
  { unfold P. replace 256 with (256 ^ 1) at 3 by done. rewrite <- !Z.pow_add_r by lia. f_equal. lia. }
  rewrite E. assert (0 < 256 ^ (Z.of_nat nb - i - 1)) by (apply Z.pow_pos_nonneg; lia). set (Q := 256 ^ (Z.of_nat nb - i - 1)) in *.
  rewrite (Z.mod_eq V) by nia. set (q := V / (P * (256 * Q))). replace (V - P * (256 * Q) * q) with (V + (- (256 * Q * q)) * P) by lia.
  rewrite Z.div_add by lia. replace (V / P + - (256 * Q * q)) with (V / P + (- (Q * q)) * 256) by lia. by rewrite Z.mod_add by lia.
Qed.

Lemma stream_holds m p nb V : holds (stream nb m p 1 V) p nb (V mod 256 ^ Z.of_nat nb).
Proof.
  split; [apply Z.mod_pos_bound, pow256_pos|]. intros i Hi. rewrite <- (Z.mul_1_l i) at 1. rewrite stream_in by lia. by rewrite mod_pow256_digit.
Qed.

(** ** Normalisation *)
Lemma normalize_spec nb : ∀ m p W, holds m p (S nb) W →
  ∃ nb', normalize (S nb) m p = Some (S nb') ∧ holds m p (S nb') W ∧ (nb' = O ∨ 256 ^ Z.of_nat nb' ≤ W).
Proof.
  induction nb as [|nb IH]; intros m p W H; pose proof (holds_msb _ _ _ _ H) as [Ht Hr].
  { exists O. cbn [normalize]. rewrite Z.add_0_r in Ht. replace (p + Z.of_nat 1 - 1) with p by lia. unfold rd. rewrite Ht. auto. }
  cbn [normalize]. change (rd m (p + Z.of_nat (S nb))) with (m !! (p + Z.of_nat (S nb))). rewrite Ht. cbn [mbind option_bind].
  pose proof (pow256_pos (S nb)). destruct H as [HW H]. eqb_cases (W / 256 ^ Z.of_nat (S nb)) 0 Hz.
  - apply IH. split; [|intros i Hi; apply H; lia]. apply Z.div_small_iff in Hz; lia.
  - exists (S nb). split; [done|]. split; [done|]. right. destruct (Z.lt_ge_cases W (256 ^ Z.of_nat (S nb))); [|done].
    by rewrite Z.div_small in Hz by lia.
Qed.

Lemma holds_bytes nb : ∀ m p W, holds m p nb W → ∃ bs, mem_bytes m p (Z.of_nat nb) = Some bs ∧ length bs = nb ∧ pdigits 256 bs ∧ pval 256 bs = W.
Proof.
  intros m p W H. assert (∃ bs, length bs = nb ∧ pdigits 256 bs ∧ pval 256 bs = W ∧ ∀ i, 0 ≤ i < Z.of_nat nb → bs !! Z.to_nat i = Some ((W / 256 ^ i) mod 256)) as
    (bs & Hl & Hd & Hv & Hb).
  { destruct H as [HW _]. revert W HW. induction nb as [|nb IH]; intros W HW; [exists []; split; [done|]; split; [constructor|]; split; [cbn in *; lia|lia]|].
    rewrite pow256_S in HW. destruct (IH (W / 256)) as (bs & Hl & Hd & Hv & Hb); [lia|]. exists (W mod 256 :: bs). split; [cbn; lia|].
    split; [constructor; [lia|done]|]. split; [cbn [pval]; lia|]. intros i Hi. destruct (decide (i = 0)) as [->|N]; [by rewrite Z.div_1_r|].
    replace (Z.to_nat i) with (S (Z.to_nat (i - 1))) by lia. cbn [lookup list_lookup]. rewrite Hb by lia. do 2 f_equal.
    replace i with (Z.succ (i - 1)) at 2 by lia. rewrite Z.pow_succ_r, Z.div_div by lia. done. }
  exists bs. split; [|done]. apply mem_bytes_spec; [lia|]. split; [lia|]. intros i Hi. destruct H as [_ H]. by rewrite H, Hb.
Qed.

(** ** The term of the bytes *)
Lemma read_loop_spec bs : ∀ i v, pdigits 256 bs → 0 ≤ i → 0 ≤ v < 256 ^ i → i + zlen bs ≤ Z.of_nat D_SIZE →
  read_loop bs i v = v + 256 ^ i * pval 256 bs.
Proof.
  destruct D_SIZE_spec as [EB _]. induction bs as [|b bs IH]; intros i v D Hi Hv Hl; cbn [read_loop pval]; [lia|].
  apply Forall_cons in D as [Hb D]. cbn [length] in Hl. assert (256 ^ (i + 1) = 256 ^ i * 256) as ES by (rewrite Z.pow_add_r by lia; done).
  assert (256 ^ (i + 1) ≤ D_BASE) by (rewrite EB; apply Z.pow_le_mono_r; lia).
  assert (Z.shiftl b (8 * i) = b * 256 ^ i) as -> by (rewrite Z.shiftl_mul_pow2, Z.pow_mul_r by lia; done).
  assert (dig (b * 256 ^ i) = b * 256 ^ i) as -> by (apply dig_small; unfold is_digit; nia).
  assert (dig (b * 256 ^ i + v) = b * 256 ^ i + v) as -> by (apply dig_small; unfold is_digit; nia).
  rewrite (IH (i + 1)); [rewrite ES; lia|done|lia|rewrite ES; nia|lia].
Qed.

Lemma D_SIZE_Z : Z.of_nat D_SIZE = D_EXP / 8.
Proof. unfold D_SIZE. pose proof D_EXP_ge. lia. Qed.

Lemma last_nonzero bs : pdigits 256 bs → 256 ^ (zlen bs - 1) ≤ pval 256 bs → list.last bs ≠ Some 0.
Proof.
  intros D H E. apply last_Some in E as [l ->]. rewrite pval_app in H by lia. apply Forall_app in D as [D _]. pose proof (pval_range 256 ltac:(lia) l D).
  rewrite length_app in H. cbn [length pval] in H. replace (Z.of_nat (length l + 1) - 1) with (zlen l) in H by lia. lia.
Qed.

Lemma bytes_to_term_spec bs sgn : pdigits 256 bs → bs ≠ [] → (length bs = 1%nat ∨ 256 ^ (zlen bs - 1) ≤ pval 256 bs) →
  ∃ t, bytes_to_term bs sgn = Some t ∧ result t (if sgn then - pval 256 bs else pval 256 bs).
Proof.
  intros D N Ht. unfold bytes_to_term. pose proof D_EXP_ge. destruct D_SIZE_spec as [EB _]. rewrite D_SIZE_Z in EB.
  destruct (Z.leb_spec (zlen bs) (D_EXP / 8)) as [Hle|Hgt].
  2:{ apply bytes_to_big_spec; [done|done|]. destruct Ht as [Ht|Ht]; [lia|by apply last_nonzero]. }
  unfold ReadToVariable. rewrite read_loop_spec by (done || lia || (rewrite D_SIZE_Z; lia)). rewrite Z.add_0_l, Z.mul_1_l. set (W := pval 256 bs) in *.
  pose proof (pval_range 256 ltac:(lia) bs D) as HW. fold W in HW. assert (W < D_BASE) as HD.
  { assert (256 ^ zlen bs ≤ 256 ^ (D_EXP / 8)) by (apply Z.pow_le_mono_r; lia). lia. }
  destruct small_facts as (S1 & S2 & S3 & S4).
  assert (∀ z, in_small z → result (make_small z) z) as Sm.
  { intros z Hz. rewrite make_small_id by done. by left. }
  assert (IS_USMALL sgn W = true → result (if sgn then make_small (- Sint W) else make_small W) (if sgn then - W else W)) as Usm.
  { unfold IS_USMALL. intros U. assert (Sint W = W) as E by (apply Sint_small; destruct sgn; lia). destruct sgn; [rewrite E|]; apply Sm; unfold in_small; lia. }
  destruct (Z.eqb_spec (zlen bs) (D_EXP / 8)) as [E8|E8]; cbn [andb].
  - destruct (IS_USMALL sgn W) eqn:U; cbn [negb]; [eexists; split; [reflexivity|]; by apply Usm|]. eexists. split; [reflexivity|]. left. unfold IS_USMALL in U.
    assert (W ≠ 0) as HW0 by (destruct sgn; lia). split; [|split].
    + split; [constructor; [split; lia|constructor]|]. split; [done|]. split; [unfold norm; cbn [list.last]; congruence|]. cbn [length]. rewrite big_arity_max_eq. lia.
    + unfold sval. cbn [val]. destruct sgn; lia.
    + unfold in_small. destruct sgn; lia.
  - eexists. split; [reflexivity|]. apply Usm. unfold IS_USMALL. enough (W ≤ MAX_SMALL) by (destruct sgn; lia).
    assert (256 ^ zlen bs ≤ 256 ^ (D_EXP / 8 - 1)) by (apply Z.pow_le_mono_r; lia).
    assert (256 ^ (D_EXP / 8 - 1) ≤ 2 ^ (SMALL_BITS - 1)); [|unfold MAX_SMALL; lia].
    change 256 with (2 ^ 8). rewrite <- Z.pow_mul_r by lia. apply Z.pow_le_mono_r; unfold SMALL_BITS; lia.
Qed.
End Holds.

(** ** Moving the bits to the buffer *)
Section General.
Context {dw : DigitWidth}.
Variable scratch : Z → Prop.

(** Only temporary buffers are different. *)
Definition only_scratch (m m' : memory) : Prop :=
  bytes_mem m' ∧ (∀ a, is_Some (m' !! a) ↔ is_Some (m !! a)) ∧ ∀ a, ¬ scratch a → m' !! a = m !! a.

Lemma only_scratch_refl m : bytes_mem m → only_scratch m m.
Proof. done. Qed.
Lemma only_scratch_trans m1 m2 m3 : only_scratch m1 m2 → only_scratch m2 m3 → only_scratch m1 m3.
Proof. intros (B1 & D1 & F1) (B2 & D2 & F2). split; [done|]. split; [intros a; by rewrite D2|]. intros a Ha. by rewrite F2, F1. Qed.
Lemma only_scratch_wr m p v : bytes_mem m → scratch p → is_Some (m !! p) → only_scratch m (<[p := wrap_u 8 v]> m).
Proof.
  intros B S HS. split; [by apply bytes_mem_insert|]. split.
  - intros a. destruct (decide (a = p)) as [->|N]; [rewrite lookup_insert_eq; split; eauto|by rewrite lookup_insert_ne].
  - intros a Ha. apply lookup_insert_ne. by intros <-.
Qed.
Lemma only_scratch_copied m m' src soffs sdir dst doffs ddir n : field_copied m m' src soffs sdir dst doffs ddir n →
  (∀ k, doffs ≤ k < doffs + n → scratch (dst + ddir * (k / 8))) → only_scratch m m'.
Proof. intros (B & [D F] & _) H. split; [done|]. split; [done|]. intros a Ha. apply F. intros k Hk ->. by apply Ha, H. Qed.
Lemma only_scratch_stream m p k V : bytes_mem m → room m p 1 k → (∀ i, 0 ≤ i < Z.of_nat k → scratch (p + i)) → only_scratch m (stream k m p 1 V).
Proof.
  intros B R H. split; [by apply stream_bytes|]. split; [intros a; by apply stream_is_Some|]. intros a Ha. apply stream_out. intros i Hi ->. rewrite Z.mul_1_l in Ha.
  by apply Ha, H.
Qed.

(** The bits of the field are mapped, and not in a temporary buffer. *)
Definition field_ok (m : memory) (base off n : Z) : Prop := ∀ k, off ≤ k < off + n → is_Some (m !! (base + k / 8)) ∧ ¬ scratch (base + k / 8).

Lemma only_scratch_bit m m' base off n k : only_scratch m m' → field_ok m base off n → off ≤ k < off + n → bit m' base 1 k = bit m base 1 k.
Proof. intros (_ & _ & F) OK Hk. unfold bit. rewrite Z.mul_1_l, F; [done|]. by apply OK. Qed.
Lemma only_scratch_field m m' base off n : only_scratch m m' → field_ok m base off n → field_ok m' base off n.
Proof. intros (_ & D & _) OK k Hk. destruct (OK k Hk). split; [by apply D|done]. Qed.
Lemma only_scratch_is m m' p n : only_scratch m m' → is_scratch scratch m p n → is_scratch scratch m' p n.
Proof. intros (_ & D & _). by apply is_scratch_dom. Qed.

Variables (m : memory) (base off n LSB : Z) (nb : nat).
Hypothesis (B : bytes_mem m) (Ho : 0 ≤ off) (Hn : 0 < n) (Hfit : 8 + n < D_BASE) (Hnb : Z.of_nat (S nb) = (n + 7) / 8).
Hypothesis (OK : field_ok m base off n) (SC : is_scratch scratch m LSB (Z.of_nat (S nb))).
(** The bits in the most significant byte. *)
Abbreviation bits := (n - 8 * Z.of_nat nb).

(** The buffer holds the field as an unsigned integer. *)
Definition moved (le : bool) (m1 : memory) (W : Z) : Prop :=
  only_scratch m m1 ∧ holds m1 LSB (S nb) W ∧ W < 2 ^ n ∧ ∀ k, 0 ≤ k < n → bit m base 1 (off + k) = int_bit le n W k.

Lemma moved_intro (le : bool) m1 : only_scratch m m1 →
  (∀ i, 0 ≤ i < 8 * Z.of_nat (S nb) → bit m1 LSB 1 (8 * (i / 8) + (7 - i mod 8)) =
     if i <? n then bit m base 1 (off + (if le then 8 * (i / 8) + Z.min 8 (n - 8 * (i / 8)) - 1 - i mod 8 else n - 1 - i)) else false) →
  ∃ W, moved le m1 W.
Proof.
  intros S H. destruct (holds_exists (Datatypes.S nb) m1 LSB) as [W HW]; [apply S|intros i Hi; by apply (only_scratch_is m m1 LSB _ S SC)|].
  assert (∀ i, 0 ≤ i → Z.testbit W i = if i <? n then bit m base 1 (off + (if le then 8 * (i / 8) + Z.min 8 (n - 8 * (i / 8)) - 1 - i mod 8 else n - 1 - i)) else false) as T.
  { intros i Hi. destruct (Z.lt_ge_cases i (8 * Z.of_nat (Datatypes.S nb))); [rewrite (holds_testbit m1 LSB _ W i HW) by lia; by apply H|].
    rewrite (proj2 (Z.ltb_ge i n)) by lia. destruct HW as [HW _]. change 256 with (2 ^ 8) in HW. rewrite <- Z.pow_mul_r in HW by lia.
    rewrite <- (Z.mod_small W _ HW). apply Z.mod_pow2_bits_high. lia. }
  exists W. split; [done|]. split; [done|]. destruct HW as [[HW _] _]. split.
  - apply bits_bound; [lia|done|]. intros i Hi. rewrite T by lia. by rewrite (proj2 (Z.ltb_ge _ _)).
  - intros k Hk. unfold int_bit. destruct le; rewrite T by lia; rewrite (proj2 (Z.ltb_lt _ _)) by lia; f_equal; lia.
Qed.

(** The same byte from both ends of the buffer. *)
Lemma bit_reverse m1 q r : 0 ≤ r < 8 → bit m1 LSB 1 (8 * q + r) = bit m1 (LSB + Z.of_nat nb) (-1) (8 * (Z.of_nat nb - q) + r).
Proof.
  intros Hr. unfold bit. replace (LSB + Z.of_nat nb + -1 * ((8 * (Z.of_nat nb - q) + r) / 8)) with (LSB + 1 * ((8 * q + r) / 8)) by lia.
  by replace ((8 * (Z.of_nat nb - q) + r) mod 8) with ((8 * q + r) mod 8) by lia.
Qed.

Lemma move_big : ∃ m1 W, (m1 ← wr m (LSB + Z.of_nat nb) 0; erts_copy_bits m1 base off 1 (LSB + Z.of_nat nb) (8 - bits) (-1) n) = Some m1 ∧ moved false m1 W.
Proof.
  destruct (SC (Z.of_nat nb) ltac:(lia)) as [Sm Mm]. rewrite wr_ok by done. cbn [mbind option_bind].
  pose proof (only_scratch_wr m _ 0 B Sm Mm) as S0. set (m0 := <[LSB + Z.of_nat nb := wrap_u 8 0]> m) in *.
  destruct (erts_copy_bits_spec m0 base off 1 (LSB + Z.of_nat nb) (8 - bits) (-1) n) as (m1 & E & C); [apply S0|done|lia|lia|lia|lia| | | |].
  - intros k Hk. rewrite Z.mul_1_l. by apply (only_scratch_field m m0 base off n S0 OK).
  - intros k Hk. replace (LSB + Z.of_nat nb + -1 * (k / 8)) with (LSB + (Z.of_nat nb - k / 8)) by lia.
    apply (only_scratch_is m m0 LSB _ S0 SC). lia.
  - intros j k Hj Hk E. destruct (OK j Hj) as [_ N]. apply N. rewrite Z.mul_1_l in E. rewrite E.
    replace (LSB + Z.of_nat nb + -1 * (k / 8)) with (LSB + (Z.of_nat nb - k / 8)) by lia. apply SC. lia.
  - assert (only_scratch m m1) as S1.
    { eapply only_scratch_trans; [done|]. eapply only_scratch_copied; [done|]. intros k Hk.
      replace (LSB + Z.of_nat nb + -1 * (k / 8)) with (LSB + (Z.of_nat nb - k / 8)) by lia. apply SC. lia. }
    destruct (moved_intro false m1 S1) as [W HW]; [|by exists m1, W]. intros i Hi. destruct C as (_ & _ & C). rewrite bit_reverse, C by lia.
    case_bool_decide as Hin.
    + rewrite (proj2 (Z.ltb_lt i n)) by lia. rewrite (only_scratch_bit m m0 base off n) by (done || lia). f_equal. lia.
    + rewrite (proj2 (Z.ltb_ge i n)) by lia. unfold bit.
      replace (LSB + Z.of_nat nb + -1 * ((8 * (Z.of_nat nb - i / 8) + (7 - i mod 8)) / 8)) with (LSB + Z.of_nat nb) by lia.
      subst m0. rewrite lookup_insert_eq. by rewrite Z.testbit_0_l.
Qed.

Lemma move_little : ∃ m1 W, (m1 ← erts_copy_bits m base off 1 LSB 0 1 n; b ← rd m1 (LSB + Z.of_nat nb); wr m1 (LSB + Z.of_nat nb) (Z.shiftr b (8 - bits))) = Some m1 ∧
  moved true m1 W.
Proof.
  destruct (erts_copy_bits_spec m base off 1 LSB 0 1 n) as (m0 & E & C); [done|done|lia|lia|lia|lia| | | |].
  - intros k Hk. rewrite Z.mul_1_l. by apply OK.
  - intros k Hk. rewrite Z.mul_1_l. apply SC. lia.
  - intros j k Hj Hk E. destruct (OK j Hj) as [_ N]. apply N. rewrite !Z.mul_1_l in E. rewrite E. apply SC. lia.
  - rewrite E. cbn [mbind option_bind].
    assert (only_scratch m m0) as S0 by (eapply only_scratch_copied; [done|]; intros k Hk; rewrite Z.mul_1_l; apply SC; lia).
    destruct (only_scratch_is m m0 LSB _ S0 SC (Z.of_nat nb) ltac:(lia)) as [Sm [b Eb]].
    unfold rd. rewrite Eb. cbn [mbind option_bind]. rewrite wr_ok by eauto.
    pose proof (only_scratch_wr m0 (LSB + Z.of_nat nb) (Z.shiftr b (8 - bits)) (proj1 S0) Sm ltac:(eauto)) as S1. set (m1 := <[_ := _]> m0) in *.
    destruct (moved_intro true m1 (only_scratch_trans _ _ _ S0 S1)) as [W HW]; [|by exists m1, W]. intros i Hi. destruct C as (B0 & _ & C).
    assert (∀ k, 0 ≤ k < n → bit m0 LSB 1 k = bit m base 1 (off + k)) as C'.
    { intros k Hk. rewrite C, bool_decide_eq_true_2 by lia. f_equal. lia. }
    unfold bit at 1. replace (LSB + 1 * ((8 * (i / 8) + (7 - i mod 8)) / 8)) with (LSB + i / 8) by lia.
    replace (7 - (8 * (i / 8) + (7 - i mod 8)) mod 8) with (i mod 8) by lia. destruct (decide (i / 8 = Z.of_nat nb)) as [Eq|Nq].
    + subst m1. rewrite Eq, lookup_insert_eq, wrap_u8_bits, Z.shiftr_spec by lia. destruct (Z.ltb_spec i n).
      * rewrite <- C' by lia. unfold bit. replace (LSB + 1 * ((8 * Z.of_nat nb + Z.min 8 bits - 1 - i mod 8) / 8)) with (LSB + Z.of_nat nb) by lia.
        rewrite Eb. f_equal. lia.
      * apply testbit_byte_high; [by apply (B0 _ _ Eb)|lia].
    + subst m1. rewrite lookup_insert_ne by lia. rewrite (proj2 (Z.ltb_lt i n)) by lia. rewrite <- C' by lia. unfold bit.
      replace (LSB + 1 * ((8 * (i / 8) + Z.min 8 (n - 8 * (i / 8)) - 1 - i mod 8) / 8)) with (LSB + i / 8) by lia. case_match; [f_equal; lia|done].
Qed.
End General.

(** ** The sign, and the whole function *)
Section Whole.
Context {dw : DigitWidth}.
Variable scratch : Z → Prop.

Lemma land_one b j : 0 ≤ j → (Z.land b (Z.shiftl 1 j) =? 0) = negb (Z.testbit b j).
Proof.
  intros Hj. rewrite Z.shiftl_1_l. destruct (Z.testbit b j) eqn:T; cbn [negb].
  - apply Z.eqb_neq. intros E. apply (f_equal (λ z, Z.testbit z j)) in E. cbn beta in E. by rewrite Z.land_spec, T, Z.pow2_bits_true, Z.testbit_0_l in E by lia.
  - apply Z.eqb_eq, Z.bits_inj'. intros i Hi. rewrite Z.land_spec, Z.testbit_0_l, Z.pow2_bits_eqb by lia. destruct (Z.eqb_spec j i) as [->|]; [by rewrite T|apply andb_false_r].
Qed.

(** Sign extension of the most significant byte. *)
Lemma holds_extend m p nb W n : holds m p (S nb) W → W < 2 ^ n → 0 < n - 8 * Z.of_nat nb ≤ 8 →
  let b := W / 256 ^ Z.of_nat nb in
  holds (<[p + Z.of_nat nb := wrap_u 8 (Z.lor b (dig (Z.lnot (MAKE_MASK (n - 8 * Z.of_nat nb)))))]> m) p (S nb) (W + (256 ^ Z.of_nat (S nb) - 2 ^ n)).
Proof.
  intros [HW H] HWn Hbits b. set (k := n - 8 * Z.of_nat nb) in *. pose proof (pow256_pos nb). pose proof D_EXP_ge.
  assert (2 ^ n = 2 ^ k * 256 ^ Z.of_nat nb) as En.
  { change 256 with (2 ^ 8). rewrite <- Z.pow_mul_r, <- Z.pow_add_r by lia. f_equal. lia. }
  assert (0 ≤ b < 2 ^ k) as Hb by (split; [apply Z.div_pos; lia|apply Z.div_lt_upper_bound; lia]).
  assert (2 ^ k ≤ 2 ^ 8) as Hk by (apply Z.pow_le_mono_r; lia). change (2 ^ 8) with 256 in Hk. assert (0 < 2 ^ k) by lia.
  assert (wrap_u 8 (Z.lor b (dig (Z.lnot (MAKE_MASK k)))) = b + (256 - 2 ^ k)) as ->.
  { rewrite lor_high by lia. destruct D_SIZE_spec as [EB HS]. unfold wrap_u. change (2 ^ 8) with 256.
    replace (b - 2 ^ k + D_BASE) with (b + (256 - 2 ^ k) + (256 ^ Z.of_nat (D_SIZE - 1) - 1) * 256).
    - rewrite Z.mod_add, Z.mod_small by lia. done.
    - rewrite EB. replace D_SIZE with (S (D_SIZE - 1)) at 2 by lia. rewrite pow256_S. lia. }
  replace (W + (256 ^ Z.of_nat (S nb) - 2 ^ n)) with (W + (256 - 2 ^ k) * 256 ^ Z.of_nat nb) by (rewrite pow256_S, En; lia).
  assert (0 ≤ (256 - 2 ^ k) * 256 ^ Z.of_nat nb) by (apply Z.mul_nonneg_nonneg; lia). split; [rewrite pow256_S; lia|]. intros i Hi. destruct (decide (i = Z.of_nat nb)) as [->|N].
  - rewrite lookup_insert_eq, Z.div_add by lia. fold b. rewrite Z.mod_small by lia. done.
  - rewrite lookup_insert_ne, H by lia. f_equal. set (P := 256 ^ i). assert (0 < P) by (apply Z.pow_pos_nonneg; lia).
    assert (256 ^ Z.of_nat nb = 256 ^ (Z.of_nat nb - i - 1) * 256 * P) as ->.
    { unfold P. change 256 with (256 ^ 1) at 3. rewrite <- !Z.pow_add_r by lia. f_equal. lia. }
    rewrite Z.mul_assoc, Z.div_add by lia. replace ((256 - 2 ^ k) * (256 ^ (Z.of_nat nb - i - 1) * 256)) with ((256 - 2 ^ k) * 256 ^ (Z.of_nat nb - i - 1) * 256) by lia.
    by rewrite Z.mod_add by lia.
Qed.

(** The magnitude and the sign. *)
Lemma sign_step m m1 base off n LSB nb le W flags : moved scratch m base off n LSB nb le m1 W → 0 < n - 8 * Z.of_nat nb ≤ 8 →
  is_scratch scratch m LSB (Z.of_nat (S nb)) →
  ∃ m2 (sgn : bool) M, (if signed_field flags && negb (Z.land (W / 256 ^ Z.of_nat nb) (Z.shiftl 1 (n - 8 * Z.of_nat nb - 1)) =? 0)
     then m ← wr m1 (LSB + Z.of_nat nb) (Z.lor (W / 256 ^ Z.of_nat nb) (dig (Z.lnot (MAKE_MASK (n - 8 * Z.of_nat nb)))));
          m ← complement_loop (S nb) m LSB 1; Some (m, true)
     else Some (m1, false)) = Some (m2, sgn) ∧ only_scratch scratch m m2 ∧ holds m2 LSB (S nb) M ∧
     field_value (signed_field flags) n W (if sgn then - M else M).
Proof.
  intros (S1 & HW & HWn & _) Hbits SC. rewrite land_one, negb_involutive by lia. assert (0 < n) as Hn by lia.
  assert (Z.testbit (W / 256 ^ Z.of_nat nb) (n - 8 * Z.of_nat nb - 1) = Z.testbit W (n - 1)) as ->.
  { change 256 with (2 ^ 8). rewrite <- Z.pow_mul_r, <- Z.shiftr_div_pow2, Z.shiftr_spec by lia. f_equal. lia. }
  assert (0 ≤ W < 2 ^ n) as HWr by (split; [apply HW|done]).
  destruct (signed_field flags && Z.testbit W (n - 1)) eqn:E.
  2:{ exists m1, false, W. split; [done|]. split; [done|]. split; [done|]. apply field_value_pos; [done|done|]. intros Es. by rewrite Es in E. }
  apply andb_true_iff in E as [Es Et]. rewrite Es. pose proof (only_scratch_is scratch m m1 LSB _ S1 SC) as SC1.
  destruct (SC1 (Z.of_nat nb) ltac:(lia)) as [Sm Mm]. rewrite wr_ok by done. cbn [mbind option_bind].
  pose proof (holds_extend m1 LSB nb W n HW HWn Hbits) as HX. cbv zeta in HX.
  pose proof (only_scratch_wr scratch m1 (LSB + Z.of_nat nb) (Z.lor (W / 256 ^ Z.of_nat nb) (dig (Z.lnot (MAKE_MASK (n - 8 * Z.of_nat nb))))) (proj1 S1) Sm Mm) as S2.
  set (m2 := <[_ := _]> m1) in *. set (X := W + _) in *.
  assert (room m2 LSB 1 (S nb)) as R by (intros i Hi; rewrite Z.mul_1_l; by apply (only_scratch_is scratch m1 m2 LSB _ S2 SC1)).
  rewrite (complement_loop_spec (S nb) m2 LSB X 1 R ltac:(lia) (proj2 HX)). cbn [mbind option_bind]. replace (- X - 1 + 1) with (- X) by lia.
  exists (stream (S nb) m2 LSB 1 (- X)), true, (2 ^ n - W). split; [done|]. split.
  { eapply only_scratch_trans; [done|]. eapply only_scratch_trans; [done|]. apply only_scratch_stream; [apply S2|done|]. intros i Hi. by apply SC. }
  split.
  - pose proof (stream_holds m2 LSB (S nb) (- X)) as HS. replace ((- X) mod 256 ^ Z.of_nat (S nb)) with (2 ^ n - W) in HS; [done|].
    symmetry. subst X. pose proof (testbit_top W n Hn HWr) as TT. rewrite Et in TT. pose proof (two_pow_S n Hn).
    assert (2 ^ n ≤ 256 ^ Z.of_nat (S nb)) by (change 256 with (2 ^ 8); rewrite <- Z.pow_mul_r by lia; apply Z.pow_le_mono_r; lia).
    symmetry. apply (Z.mod_unique_pos _ _ (-1)); lia.
  - replace (- (2 ^ n - W)) with (W - 2 ^ n) by lia. by apply field_value_neg.
Qed.

Lemma int_bit_mod le n W z k : 0 ≤ k < n → (∀ i, 0 ≤ i < n → Z.testbit z i = Z.testbit W i) → int_bit le n z k = int_bit le n W k.
Proof. intros Hk H. unfold int_bit. destruct le; apply H; lia. Qed.

Lemma get_integer_general_spec m bigbuf tmp base off n flags : bytes_mem m → 0 ≤ off → 0 < n → 8 + n < D_BASE → field_ok scratch m base off n →
  is_scratch scratch m bigbuf 64 → is_scratch scratch m tmp ((n + 7) / 8) →
  ∃ m' t, get_integer_general m bigbuf tmp base off n flags = Some (m', t) ∧ only_scratch scratch m m' ∧ int_read m base off n flags t.
Proof.
  intros B Ho Hn Hfit OK SB ST. unfold get_integer_general. rewrite NBYTES_eq, BIT_OFFSET_eq by lia. destruct (Z.to_nat ((n + 7) / 8)) as [|nb] eqn:Enb; [lia|].
  assert (Z.of_nat (S nb) = (n + 7) / 8) as Hnb by lia. rewrite <- Hnb.
  assert ((if n mod 8 =? 0 then 8 else n mod 8) = n - 8 * Z.of_nat nb) as -> by (destruct (Z.eqb_spec (n mod 8) 0); lia).
  set (LSB := if Z.of_nat (S nb) <=? 64 then bigbuf else tmp). assert (is_scratch scratch m LSB (Z.of_nat (S nb))) as SC.
  { unfold LSB. destruct (Z.leb_spec (Z.of_nat (S nb)) 64); [intros i Hi; apply SB; lia|by rewrite Hnb]. }
  replace (LSB + Z.of_nat (S nb) - 1) with (LSB + Z.of_nat nb) by lia.
  assert (∃ m1 W, (if little flags then m ← erts_copy_bits m base off 1 LSB 0 1 n; b ← rd m (LSB + Z.of_nat nb); wr m (LSB + Z.of_nat nb) (Z.shiftr b (8 - (n - 8 * Z.of_nat nb)))
     else m ← wr m (LSB + Z.of_nat nb) 0; erts_copy_bits m base off 1 (LSB + Z.of_nat nb) (8 - (n - 8 * Z.of_nat nb)) (-1) n) = Some m1 ∧
     moved scratch m base off n LSB nb (little flags) m1 W) as (m1 & W & -> & MV).
  { destruct (little flags); [by apply (move_little scratch m base off n LSB nb)|by apply (move_big scratch m base off n LSB nb)]. }
  cbn [mbind option_bind]. pose proof MV as (S1 & HW & HWn & Tb). destruct (holds_msb _ _ _ _ HW) as [Et _].
  change (rd m1 (LSB + Z.of_nat nb)) with (m1 !! (LSB + Z.of_nat nb)). rewrite Et. cbn [mbind option_bind].
  destruct (sign_step m m1 base off n LSB nb (little flags) W flags MV ltac:(lia) SC) as (m2 & sgn & M & E & S2 & HM & FV).
  rewrite E. cbn [mbind option_bind].
  destruct (normalize_spec nb m2 LSB M HM) as (nb' & -> & HM' & Htop). cbn [mbind option_bind].
  destruct (holds_bytes (S nb') m2 LSB M HM') as (bs & -> & Hl & Hd & Hv). cbn [mbind option_bind].
  destruct (bytes_to_term_spec bs sgn Hd) as (t & -> & R); [by intros ->| |].
  { destruct Htop as [->|Htop]; [by left|right]. rewrite Hl, Hv. by replace (Z.of_nat (S nb') - 1) with (Z.of_nat nb') by lia. }
  cbn [mbind option_bind]. rewrite Hv in R. destruct FV as [Rg Tz]. eexists m2, t. split; [reflexivity|]. split; [done|].
  exists (if sgn then - M else M). split; [done|]. split; [done|]. intros k Hk. rewrite Tb by done. symmetry. by apply int_bit_mod.
Qed.
End Whole.
