(* ===== verification/BitsGetMore.v ===== *)
(** The [bs_get] functions of [BitsMatch.v] on a match buffer: integers, UTF-8 and UTF-16 characters, binaries. *)

From Stdlib Require Import ZArith ZifyBool.
From stdpp Require Import base list numbers option gmap.
From S2P Require Import Prelude Big BigSpec BigBitsSpec BigTerm BigTermSpec BigOutSpec AllocMem Bits BitsSpec BitsBuild BitsFmt BitsPut BitsMatch BitsGet.
Local Open Scope Z_scope.
Ltac Zify.zify_post_hook ::= Z.to_euclidean_division_equations.

(** The bytes [l] are at [p]. *)
Definition bytes_at (m : memory) (p : Z) (l : list Z) : Prop := ∀ i, 0 ≤ i < zlen l → m !! (p + i) = l !! Z.to_nat i.

Section Utf.
Context {dw : DigitWidth}.

(** ** UTF-8 *)
Definition trailing_class (b : Z) : Z := if b <? 128 then 0 else if b <? 194 then 9 else if b <? 224 then 1 else if b <? 240 then 2 else if b <? 248 then 3 else 9.

Lemma trailing_spec b : is_byte b → erts_trailing_bytes_for_utf8 !! Z.to_nat b = Some (trailing_class b).
Proof.
  intros H. assert (forallb (λ b, match erts_trailing_bytes_for_utf8 !! Z.to_nat b with Some t => t =? trailing_class b | None => false end) (seqZ 0 256) = true) as F by reflexivity.
  rewrite forallb_forall in F. specialize (F b). rewrite <- list_elem_of_In, elem_of_seqZ in F. specialize (F ltac:(unfold is_byte in H; lia)). case_match; [|done].
  f_equal. by apply Z.eqb_eq.
Qed.

Lemma not_trailing_spec a : is_byte a → not_trailing a = negb ((128 <=? a) && (a <? 192)).
Proof.
  intros H. assert (forallb (λ a, eqb (not_trailing a) (negb ((128 <=? a) && (a <? 192)))) (seqZ 0 256) = true) as F by reflexivity.
  rewrite forallb_forall in F. specialize (F a). rewrite <- list_elem_of_In, elem_of_seqZ in F. apply eqb_prop, F. unfold is_byte in H. lia.
Qed.

Lemma bytes_at_cons m p x l : bytes_at m p (x :: l) ↔ m !! p = Some x ∧ bytes_at m (p + 1) l.
Proof.
  unfold bytes_at. split.
  - intros H. split; [specialize (H 0 ltac:(cbn; lia)); by rewrite Z.add_0_r in H|]. intros i Hi. specialize (H (i + 1) ltac:(cbn; lia)).
    replace (Z.to_nat (i + 1)) with (S (Z.to_nat i)) in H by lia. by replace (p + 1 + i) with (p + (i + 1)) by lia.
  - intros [H0 H] i Hi. destruct (decide (i = 0)) as [->|N]; [by rewrite Z.add_0_r|]. specialize (H (i - 1) ltac:(cbn in Hi; lia)).
    replace (Z.to_nat i) with (S (Z.to_nat (i - 1))) by lia. by replace (p + i) with (p + 1 + (i - 1)) by lia.
Qed.
Lemma bytes_at_nil m p : bytes_at m p [].
Proof. intros i Hi. cbn in Hi. lia. Qed.

(** The outcome of a decoder: a character and the bits it takes, or the report that there is none. *)
Definition decoded (enc : Z → list Z) (m : memory) (pos rem : Z) (r : option (Z * Z)) : Prop :=
  match r with
  | Some (c, n) => is_char c = true ∧ n = 8 * zlen (enc c) ∧ n ≤ rem ∧ bytes_at m pos (enc c)
  | None => ∀ c, is_char c = true → 8 * zlen (enc c) ≤ rem → ¬ bytes_at m pos (enc c)
  end.

(** [rem / 8] bytes, at most 4, can be read at [pos]. *)
Definition bytes_ready (m : memory) (pos rem : Z) : Prop := ∀ i, 0 ≤ i < 4 → 8 * (i + 1) ≤ rem → ∃ b, m !! (pos + i) = Some b ∧ is_byte b.

Lemma D_BASE_32 : 2 ^ 32 ≤ D_BASE.
Proof. pose proof D_EXP_ge. unfold D_BASE. apply Z.pow_le_mono_r; lia. Qed.

Ltac utf_bytes H :=
  unfold utf8_bytes in *; repeat case_match; cbn [length] in *;
  repeat match type of H with bytes_at _ _ (_ :: _) => apply bytes_at_cons in H; destruct H as [? H] end.
Ltac no_char :=
  intros c HC Hlen Hat; unfold is_char in HC; utf_bytes Hat; repeat rewrite <- Z.add_assoc in *; change (1 + (1 + 1)) with 3 in *; change (1 + 1) with 2 in *; simplify_eq; try lia.

Lemma decode_utf8_spec m pos rem : 8 ≤ rem → bytes_ready m pos rem → ∃ r, decode_utf8 m pos rem = Some r ∧ decoded utf8_bytes m pos rem r.
Proof.
  intros Hrem Rd. pose proof D_BASE_32. unfold decode_utf8. destruct (Rd 0 ltac:(lia) ltac:(lia)) as (b0 & E0 & B0). rewrite Z.add_0_r in E0.
  unfold rd. rewrite E0. cbn [mbind option_bind]. rewrite trailing_spec by done. cbn [mbind option_bind]. unfold trailing_class, is_byte in *.
  destruct (Z.ltb_spec b0 128).
  { eexists. split; [reflexivity|]. cbn [decoded]. unfold utf8_bytes, is_char. rewrite (proj2 (Z.ltb_lt b0 128)) by lia. split; [lia|]. split; [done|]. split; [done|].
    apply bytes_at_cons. split; [done|apply bytes_at_nil]. }
  destruct (Z.ltb_spec b0 194). { eexists. split; [reflexivity|]. cbn [decoded]. no_char. }
  destruct (Z.ltb_spec b0 224).
  { destruct (Z.ltb_spec rem 16). { eexists. split; [reflexivity|]. cbn [decoded]. no_char. }
    destruct (Rd 1 ltac:(lia) ltac:(lia)) as (a & E1 & B1). rewrite E1. cbn [mbind option_bind]. rewrite not_trailing_spec by done. unfold is_byte in B1.
    destruct (negb ((128 <=? a) && (a <? 192))) eqn:T1. { eexists. split; [reflexivity|]. cbn [decoded]. no_char. }
    eexists. split; [reflexivity|]. cbn [decoded]. rewrite Z.shiftl_mul_pow2 by lia. rewrite dig_small by (unfold is_digit; lia). set (c := b0 * 2 ^ 6 + a - 12416).
    unfold is_char, utf8_bytes. rewrite (proj2 (Z.ltb_ge c 128)), (proj2 (Z.ltb_lt c 2048)) by lia. split; [lia|]. split; [done|]. split; [cbn; lia|].
    apply bytes_at_cons. split; [rewrite E0; f_equal; lia|]. apply bytes_at_cons. split; [rewrite E1; f_equal; lia|apply bytes_at_nil]. }
  destruct (Z.ltb_spec b0 240).
  { destruct (Z.ltb_spec rem 24). { eexists. split; [reflexivity|]. cbn [decoded]. no_char. }
    destruct (Rd 1 ltac:(lia) ltac:(lia)) as (a & E1 & B1). destruct (Rd 2 ltac:(lia) ltac:(lia)) as (b & E2 & B2). rewrite E1, E2. cbn [mbind option_bind].
    rewrite !not_trailing_spec by done. unfold is_byte in B1, B2. destruct (_ || _ || _) eqn:T1. { eexists. split; [reflexivity|]. cbn [decoded]. no_char. }
    rewrite !Z.shiftl_mul_pow2 by lia. rewrite dig_small by (unfold is_digit; lia). set (c := (b0 * 2 ^ 6 + a) * 2 ^ 6 + b - 925824).
    destruct ((55296 <=? c) && (c <=? 57343) || (c =? 65534) || (c =? 65535)) eqn:T2. { eexists. split; [reflexivity|]. cbn [decoded]. subst c. no_char. }
    eexists. split; [reflexivity|]. cbn [decoded]. unfold is_char, utf8_bytes. rewrite (proj2 (Z.ltb_ge c 128)), (proj2 (Z.ltb_ge c 2048)), (proj2 (Z.ltb_lt c 65536)) by lia.
    split; [lia|]. split; [done|]. split; [cbn; lia|].
    apply bytes_at_cons. split; [rewrite E0; f_equal; lia|]. apply bytes_at_cons. split; [rewrite E1; f_equal; lia|]. rewrite <- Z.add_assoc.
    apply bytes_at_cons. split; [change (1 + 1) with 2; rewrite E2; f_equal; lia|apply bytes_at_nil]. }
  destruct (Z.ltb_spec b0 248).
  { destruct (Z.ltb_spec rem 32). { eexists. split; [reflexivity|]. cbn [decoded]. no_char. }
    destruct (Rd 1 ltac:(lia) ltac:(lia)) as (a & E1 & B1). destruct (Rd 2 ltac:(lia) ltac:(lia)) as (b & E2 & B2). destruct (Rd 3 ltac:(lia) ltac:(lia)) as (d & E3 & B3).
    rewrite E1, E2, E3. cbn [mbind option_bind].
    rewrite !not_trailing_spec by done. unfold is_byte in B1, B2, B3. destruct (_ || _ || _ || _) eqn:T1. { eexists. split; [reflexivity|]. cbn [decoded]. no_char. }
    rewrite !Z.shiftl_mul_pow2 by lia. rewrite dig_small by (unfold is_digit; lia). set (c := ((b0 * 2 ^ 6 + a) * 2 ^ 6 + b) * 2 ^ 6 + d - 63447168).
    destruct (Z.gtb_spec c 1114111) as [T2|T2]. { eexists. split; [reflexivity|]. cbn [decoded]. subst c. no_char. }
    eexists. split; [reflexivity|]. cbn [decoded]. unfold is_char, utf8_bytes. rewrite (proj2 (Z.ltb_ge c 128)), (proj2 (Z.ltb_ge c 2048)), (proj2 (Z.ltb_ge c 65536)) by lia.
    split; [lia|]. split; [done|]. split; [cbn; lia|].
    apply bytes_at_cons. split; [rewrite E0; f_equal; lia|]. apply bytes_at_cons. split; [rewrite E1; f_equal; lia|]. rewrite <- Z.add_assoc.
    apply bytes_at_cons. split; [change (1 + 1) with 2; rewrite E2; f_equal; lia|]. rewrite <- Z.add_assoc.
    apply bytes_at_cons. split; [change (1 + 1) with 2 in *; change (2 + 1) with 3; rewrite E3; f_equal; lia|apply bytes_at_nil]. }
  eexists. split; [reflexivity|]. cbn [decoded]. no_char.
Qed.

(** ** UTF-16 *)
Lemma lor_bytes lo hi : is_byte lo → is_byte hi → Z.lor lo (Z.shiftl hi 8) = lo + 256 * hi ∧ Z.lor (Z.shiftl hi 8) lo = lo + 256 * hi.
Proof.
  intros Hl Hh. rewrite (lor_shiftl_add' lo hi 8) by (done || lia). rewrite (lor_shiftl_add hi lo 8) by (done || lia). lia.
Qed.

Lemma get_word16_spec m p flags b0 b1 : m !! p = Some b0 → m !! (p + 1) = Some b1 → is_byte b0 → is_byte b1 →
  ∃ w, get_word16 m p flags = Some w ∧ 0 ≤ w < 65536 ∧ word16_bytes (little flags) w = [b0; b1].
Proof.
  intros E0 E1 B0 B1. unfold get_word16, rd. rewrite E0, E1. cbn [mbind option_bind]. destruct (lor_bytes b0 b1 B0 B1) as [L1 _]. destruct (lor_bytes b1 b0 B1 B0) as [_ L2].
  rewrite L1, L2. eexists. split; [reflexivity|]. unfold wrap_u, is_byte in *. change (2 ^ 16) with 65536.
  destruct (little flags); cbn [word16_bytes]; (split; [lia|]); f_equal; (lia || f_equal; lia).
Qed.

Lemma word16_inj le v w : 0 ≤ v < 65536 → 0 ≤ w < 65536 → word16_bytes le v = word16_bytes le w → v = w.
Proof. intros Hv Hw. unfold word16_bytes. destruct le; intros [= E1 E2]; lia. Qed.

Lemma bytes_at_word m p le v w rest : bytes_at m p (word16_bytes le v ++ rest) → 0 ≤ v < 65536 → 0 ≤ w < 65536 →
  (∃ b0 b1, m !! p = Some b0 ∧ m !! (p + 1) = Some b1 ∧ word16_bytes le w = [b0; b1]) → v = w ∧ bytes_at m (p + 2) rest.
Proof.
  intros H Hv Hw (b0 & b1 & E0 & E1 & Ew). unfold word16_bytes in *.
  destruct le; cbn [app] in H; apply bytes_at_cons in H as [H0 H]; apply bytes_at_cons in H as [H1 H]; rewrite <- Z.add_assoc in H; simplify_eq; (split; [lia|done]).
Qed.

Lemma zlen_utf16 le c : zlen (utf16_bytes le c) = if c <? 65536 then 2 else 4.
Proof. unfold utf16_bytes, utf16_words. destruct (c <? 65536), le; done. Qed.

Lemma utf16_two le c : is_char c = true → 65536 ≤ c → utf16_bytes le c = word16_bytes le (55296 + (c - 65536) / 1024) ++ word16_bytes le (56320 + (c - 65536) mod 1024) ∧
  55296 ≤ 55296 + (c - 65536) / 1024 ≤ 56319 ∧ 56320 ≤ 56320 + (c - 65536) mod 1024 ≤ 57343.
Proof.
  intros HC Hc. unfold is_char in HC. unfold utf16_bytes, utf16_words. rewrite (proj2 (Z.ltb_ge c 65536)) by lia. split; [by destruct le|]. lia.
Qed.
Lemma utf16_one le c : c < 65536 → utf16_bytes le c = word16_bytes le c ++ [].
Proof. intros Hc. unfold utf16_bytes, utf16_words. rewrite (proj2 (Z.ltb_lt c 65536)) by lia. done. Qed.

Lemma decode_utf16_spec m src rem flags : 16 ≤ rem → bytes_ready m src rem →
  ∃ r, decode_utf16 m src rem flags = Some r ∧ decoded (utf16_bytes (little flags)) m src rem r.
Proof.
  intros Hrem Rd. pose proof D_BASE_32. unfold decode_utf16. set (le := little flags).
  destruct (Rd 0 ltac:(lia) ltac:(lia)) as (b0 & E0 & B0). destruct (Rd 1 ltac:(lia) ltac:(lia)) as (b1 & E1 & B1). rewrite Z.add_0_r in E0.
  destruct (get_word16_spec m src flags b0 b1 E0 E1 B0 B1) as (w1 & -> & R1 & W1). fold le in W1. cbn [mbind option_bind].
  assert (∀ c, is_char c = true → bytes_at m src (utf16_bytes le c) → c < 65536 ∧ c = w1 ∨ 65536 ≤ c ∧ 55296 + (c - 65536) / 1024 = w1 ∧
    bytes_at m (src + 2) (word16_bytes le (56320 + (c - 65536) mod 1024) ++ [])) as Inv.
  { intros c HC Hat. unfold is_char in HC. destruct (Z.lt_ge_cases c 65536) as [Hc|Hc]; [left|right].
    - rewrite utf16_one in Hat by done. apply (bytes_at_word m src le c w1) in Hat as [-> _]; (done || lia || eauto).
    - destruct (utf16_two le c) as (Eb & ? & ?); [unfold is_char; lia|done|]. rewrite Eb in Hat.
      apply (bytes_at_word m src le _ w1) in Hat as [E Hat]; [|lia|done|eauto]. split; [done|]. split; [done|]. by rewrite app_nil_r. }
  destruct ((w1 <? 55296) || (w1 >? 57343)) eqn:T1.
  { destruct ((w1 =? 65534) || (w1 =? 65535)) eqn:T2; eexists; (split; [reflexivity|]); cbn [decoded].
    - intros c HC Hlen Hat. destruct (Inv c HC Hat) as [[? ->]|(? & ? & _)]; unfold is_char in HC; lia.
    - rewrite zlen_utf16, (proj2 (Z.ltb_lt w1 65536)) by lia. split; [unfold is_char; lia|]. split; [done|]. split; [lia|]. rewrite utf16_one, W1 by lia.
      apply bytes_at_cons. split; [done|]. apply bytes_at_cons. split; [done|apply bytes_at_nil]. }
  destruct (Z.gtb_spec w1 56319).
  { eexists. split; [reflexivity|]. cbn [decoded]. intros c HC Hlen Hat. destruct (Inv c HC Hat) as [[? ->]|(? & ? & _)]; unfold is_char in HC; lia. }
  destruct (Z.ltb_spec rem 32).
  { eexists. split; [reflexivity|]. cbn [decoded]. intros c HC Hlen Hat. rewrite zlen_utf16 in Hlen. destruct (Inv c HC Hat) as [[? ->]|(? & ? & _)]; [unfold is_char in HC; lia|].
    rewrite (proj2 (Z.ltb_ge c 65536)) in Hlen by lia. lia. }
  destruct (Rd 2 ltac:(lia) ltac:(lia)) as (b2 & E2 & B2). destruct (Rd 3 ltac:(lia) ltac:(lia)) as (b3 & E3 & B3). replace (src + 3) with (src + 2 + 1) in E3 by lia.
  destruct (get_word16_spec m (src + 2) flags b2 b3 E2 E3 B2 B3) as (w2 & -> & R2 & W2). fold le in W2. cbn [mbind option_bind].
  destruct (negb ((56320 <=? w2) && (w2 <=? 57343))) eqn:T2.
  { eexists. split; [reflexivity|]. cbn [decoded]. intros c HC Hlen Hat. destruct (Inv c HC Hat) as [[? ->]|(? & ? & Hat2)]; [unfold is_char in HC; lia|].
    apply (bytes_at_word m (src + 2) le _ w2) in Hat2 as [E _]; [|lia|done|eauto]. lia. }
  eexists. split; [reflexivity|]. cbn [decoded]. rewrite !land_1023, lor_shiftl_add by lia. rewrite dig_small by (unfold is_digit; lia). change (2 ^ 10) with 1024.
  set (c := w1 mod 1024 * 1024 + w2 mod 1024 + 65536). assert (is_char c = true) as HC by (unfold is_char; lia). destruct (utf16_two le c HC ltac:(lia)) as (Eb & _ & _).
  rewrite zlen_utf16, (proj2 (Z.ltb_ge c 65536)) by lia. split; [done|]. split; [done|]. split; [lia|]. rewrite Eb.
  replace (55296 + (c - 65536) / 1024) with w1 by lia. replace (56320 + (c - 65536) mod 1024) with w2 by lia. rewrite W1, W2. cbn [app].
  apply bytes_at_cons. split; [done|]. apply bytes_at_cons. split; [done|]. rewrite <- Z.add_assoc. apply bytes_at_cons. split; [done|].
  apply bytes_at_cons. split; [done|apply bytes_at_nil].
Qed.
Lemma utf8_bytes_ok c : is_char c = true → Forall is_byte (utf8_bytes c) ∧ zlen (utf8_bytes c) ≤ 4.
Proof. intros HC. unfold is_char in HC. unfold utf8_bytes. repeat case_match; (split; [repeat (constructor; [unfold is_byte; lia|]); constructor|cbn; lia]). Qed.
Lemma utf16_bytes_ok le c : is_char c = true → Forall is_byte (utf16_bytes le c) ∧ zlen (utf16_bytes le c) ≤ 4.
Proof.
  intros HC. rewrite zlen_utf16. split; [|destruct (c <? 65536); lia]. unfold is_char in HC. unfold utf16_bytes, utf16_words, word16_bytes.
  destruct (Z.ltb_spec c 65536), le; cbn [mbind list_bind app]; repeat (constructor; [unfold is_byte; lia|]); constructor.
Qed.
End Utf.

(** ** Match buffers *)
Section Buffers.
Context {dw : DigitWidth}.
Variable scratch : Z → Prop.

(** What is left to match is mapped, and no temporary buffer. *)
Definition mb_ok (m : memory) (mb : ErlBinMatchBuffer) : Prop :=
  0 ≤ mb_offset mb ≤ mb_size mb ∧ mb_size mb + 8 < D_BASE ∧ field_ok scratch m (mb_base mb) (mb_offset mb) (mb_size mb - mb_offset mb).

Lemma mb_remaining m mb : mb_ok m mb → dig (mb_size mb - mb_offset mb) = mb_size mb - mb_offset mb.
Proof. intros (H1 & H2 & _). apply dig_small. unfold is_digit. lia. Qed.

Lemma mb_advance_eq m mb n : mb_ok m mb → 0 ≤ n ≤ mb_size mb - mb_offset mb →
  mb_advance mb n = MatchBuffer (mb_orig mb) (mb_base mb) (mb_offset mb + n) (mb_size mb).
Proof. intros (H1 & H2 & _) Hn. unfold mb_advance. rewrite dig_small by (unfold is_digit; lia). done. Qed.

Lemma field_ok_le m base off n n' : field_ok scratch m base off n → n' ≤ n → field_ok scratch m base off n'.
Proof. intros H Hn k Hk. apply H. lia. Qed.

Lemma mb_advance_ok m m' mb n : mb_ok m mb → only_scratch scratch m m' → 0 ≤ n ≤ mb_size mb - mb_offset mb → mb_ok m' (mb_advance mb n).
Proof.
  intros M S Hn. rewrite (mb_advance_eq m) by done. destruct M as (H1 & H2 & OK). split; [cbn; lia|]. split; [done|]. cbn.
  intros k Hk. apply (only_scratch_field scratch m m' _ _ _ S OK). lia.
Qed.

Lemma erts_bs_get_integer_2_spec m bigbuf tmp n flags mb : bytes_mem m → mb_ok m mb → 0 < n → is_scratch scratch m bigbuf 64 → is_scratch scratch m tmp ((n + 7) / 8) →
  if n <=? mb_size mb - mb_offset mb
  then ∃ m' t, erts_bs_get_integer_2 m bigbuf tmp n flags mb = Some (m', mb_advance mb n, Some t) ∧ only_scratch scratch m m' ∧
    int_read m (mb_base mb) (mb_offset mb) n flags t
  else erts_bs_get_integer_2 m bigbuf tmp n flags mb = Some (m, mb, None).
Proof.
  intros B M Hn SB ST. pose proof M as (H1 & H2 & OK). unfold erts_bs_get_integer_2. rewrite (mb_remaining m) by done. eqb_cases n 0 Hz; [lia|].
  destruct (Z.leb_spec n (mb_size mb - mb_offset mb)) as [Hle|Hgt]; [|by rewrite (proj2 (Z.ltb_lt _ _)) by lia]. rewrite (proj2 (Z.ltb_ge _ _)) by lia.
  pose proof (field_ok_le m _ _ _ n OK Hle) as OKn. pose proof small_bits_28.
  destruct ((n <=? 8) || (n <? SMALL_BITS) && negb (little flags)) eqn:C.
  - destruct (get_small_spec m (mb_base mb) (mb_offset mb) n flags) as (t & -> & R); [done|lia|lia| |intros k Hk; rewrite Z.mul_1_l; by apply OKn|].
    { destruct (little flags); [left|by right]. rewrite andb_false_r in C. lia. }
    eexists m, t. split; [done|]. split; [by apply only_scratch_refl|done].
  - destruct (get_integer_general_spec scratch m bigbuf tmp (mb_base mb) (mb_offset mb) n flags) as (m' & t & -> & S & R); [done|lia|lia|lia|done..|].
    eexists m', t. done.
Qed.

(** ** Characters *)

(** The bits that follow are those of the bytes [l]. *)
Definition next_bytes (m : memory) (mb : ErlBinMatchBuffer) (l : list Z) : Prop :=
  8 * zlen l ≤ mb_size mb - mb_offset mb ∧ ∀ k, 0 ≤ k < 8 * zlen l → bit m (mb_base mb) 1 (mb_offset mb + k) = byte_list_bit l k.

(** Exactly the encodings of characters are accepted. *)
Definition char_matched (enc : Z → list Z) (m : memory) (mb : ErlBinMatchBuffer) (r : option (memory * ErlBinMatchBuffer * option int_term)) : Prop :=
  ∃ m' mb' t, r = Some (m', mb', t) ∧ only_scratch scratch m m' ∧
    match t with
    | Some t => ∃ c, t = Small c ∧ is_char c = true ∧ next_bytes m mb (enc c) ∧ mb' = mb_advance mb (8 * zlen (enc c))
    | None => mb' = mb ∧ ∀ c, is_char c = true → ¬ next_bytes m mb (enc c)
    end.

Lemma bytes_at_bits m p l : bytes_mem m → Forall is_byte l → (∀ i, 0 ≤ i < zlen l → is_Some (m !! (p + i))) →
  bytes_at m p l ↔ ∀ k, 0 ≤ k < 8 * zlen l → bit m p 1 k = byte_list_bit l k.
Proof.
  intros B Hl HM. split; [intros H k Hk; unfold bit, byte_list_bit; by rewrite Z.mul_1_l, H by lia|].
  intros H i Hi. destruct (HM i Hi) as [x Ex]. destruct (lookup_lt_is_Some_2 l (Z.to_nat i)) as [y Ey]; [lia|]. rewrite Ex, Ey. f_equal.
  apply byte_eq; [by eapply B|by eapply (Forall_lookup_1 _ _ _ _ Hl)|]. intros j Hj. specialize (H (8 * i + (7 - j)) ltac:(lia)). unfold bit, byte_list_bit in H.
  replace ((8 * i + (7 - j)) / 8) with i in H by lia. rewrite Z.mul_1_l, Ex, Ey in H. by replace (7 - (8 * i + (7 - j)) mod 8) with j in H by lia.
Qed.

(** From the bytes at [pos] back to the bits of the match buffer. *)
Lemma char_matched_intro enc m m1 mb pos r rem : mb_ok m mb → only_scratch scratch m m1 → bytes_ready m1 pos rem →
  (∀ c, is_char c = true → Forall is_byte (enc c) ∧ zlen (enc c) ≤ 4 ∧ (8 * zlen (enc c) ≤ mb_size mb - mb_offset mb ↔ 8 * zlen (enc c) ≤ rem)) →
  (∀ k, 0 ≤ k < 32 → 8 * (k / 8 + 1) ≤ rem → bit m1 pos 1 k = bit m (mb_base mb) 1 (mb_offset mb + k)) →
  decoded enc m1 pos rem r →
  char_matched enc m mb (match r with Some (c, n) => Some (m1, mb_advance mb n, Some (make_small c)) | None => Some (m1, mb, None) end).
Proof.
  intros M S Rd HE HB D.
  assert (∀ c, is_char c = true → 8 * zlen (enc c) ≤ rem → bytes_at m1 pos (enc c) ↔ next_bytes m mb (enc c)) as Iff.
  { intros c HC Hlen. destruct (HE c HC) as (HF & H4 & HR). rewrite bytes_at_bits; [|apply S|done|intros i Hi; destruct (Rd i) as (b & Eb & _); [lia|lia|eauto]].
    unfold next_bytes. split; [intros H; split; [by apply HR|]|intros [_ H]]; intros k Hk; specialize (H k Hk); rewrite <- H; [symmetry|]; apply HB; lia. }
  destruct r as [[c n]|]; cbn [decoded] in D.
  - destruct D as (HC & -> & Hlen & Hat). eexists _, _, _. split; [reflexivity|]. split; [done|]. exists c.
    split; [|split; [done|split; [by apply Iff|done]]]. apply make_small_id.
    unfold is_char in HC. unfold in_small, MIN_SMALL, MAX_SMALL. pose proof small_bits_28.
    assert (2 ^ 27 ≤ 2 ^ (SMALL_BITS - 1)) as Hp by (apply Z.pow_le_mono_r; lia). change (2 ^ 27) with 134217728 in Hp. lia.
  - eexists _, _, _. split; [reflexivity|]. split; [done|]. split; [done|]. intros c HC Hn.
    assert (8 * zlen (enc c) ≤ rem) as Hr by (apply (HE c HC), Hn). apply (D c HC Hr). by apply Iff.
Qed.

(** The bytes of the next characters, where they are or in [tmp_buf]. *)
Lemma ready_aligned m mb : bytes_mem m → mb_ok m mb → mb_offset mb mod 8 = 0 →
  bytes_ready m (mb_base mb + mb_offset mb / 8) (mb_size mb - mb_offset mb) ∧
  ∀ k, bit m (mb_base mb + mb_offset mb / 8) 1 k = bit m (mb_base mb) 1 (mb_offset mb + k).
Proof.
  intros B (H1 & H2 & OK) H8. split.
  - intros i Hi Hrem. destruct (OK (mb_offset mb + 8 * i)) as [[b Eb] _]; [lia|]. exists b.
    replace (mb_base mb + mb_offset mb / 8 + i) with (mb_base mb + (mb_offset mb + 8 * i) / 8) by lia. split; [done|by eapply B].
  - intros k. pose proof (bit_shift m (mb_base mb) 1 k (mb_offset mb / 8)) as E. rewrite Z.mul_1_l in E. rewrite E. f_equal. lia.
Qed.

Lemma ready_copied m mb tmp_buf n rem : bytes_mem m → mb_ok m mb → is_scratch scratch m tmp_buf 4 → 0 < n ≤ 32 → n mod 8 = 0 → n ≤ mb_size mb - mb_offset mb →
  (∀ i, 0 ≤ i < 4 → 8 * (i + 1) ≤ rem → 8 * (i + 1) ≤ n) →
  ∃ m1, erts_copy_bits m (mb_base mb) (mb_offset mb) 1 tmp_buf 0 1 n = Some m1 ∧ only_scratch scratch m m1 ∧
    bytes_ready m1 tmp_buf rem ∧
    ∀ k, 0 ≤ k < 32 → 8 * (k / 8 + 1) ≤ rem → bit m1 tmp_buf 1 k = bit m (mb_base mb) 1 (mb_offset mb + k).
Proof.
  intros B (H1 & H2 & OK) SC Hn H8 Hle Hbytes. pose proof D_BASE_32.
  destruct (erts_copy_bits_spec m (mb_base mb) (mb_offset mb) 1 tmp_buf 0 1 n) as (m1 & E & C); [done|done|lia|lia|lia|lia| | | |].
  - intros k Hk. rewrite Z.mul_1_l. apply OK. lia.
  - intros k Hk. rewrite Z.mul_1_l. apply SC. lia.
  - intros j k Hj Hk E. rewrite !Z.mul_1_l in E. destruct (OK j) as [_ N]; [lia|]. apply N. rewrite E. apply SC. lia.
  - exists m1. split; [done|]. assert (only_scratch scratch m m1) as S by (eapply only_scratch_copied; [done|]; intros k Hk; rewrite Z.mul_1_l; apply SC; lia).
    split; [done|]. split.
    + intros i Hi _. destruct (only_scratch_is scratch m m1 tmp_buf 4 S SC i Hi) as [_ [b Eb]]. exists b. split; [done|]. apply S in Eb. done.
    + intros k Hk Hrem. destruct C as (_ & _ & C). specialize (Hbytes (k / 8) ltac:(lia) Hrem). rewrite C, bool_decide_eq_true_2 by lia. f_equal. lia.
Qed.

Lemma erts_bs_get_utf8_spec m tmp_buf mb : bytes_mem m → mb_ok m mb → is_scratch scratch m tmp_buf 4 → char_matched utf8_bytes m mb (erts_bs_get_utf8 m tmp_buf mb).
Proof.
  intros B M SC. pose proof M as (H1 & H2 & OK). unfold erts_bs_get_utf8. rewrite (mb_remaining m) by done. set (rem := mb_size mb - mb_offset mb).
  destruct (Z.ltb_spec rem 8).
  { eexists m, mb, None. split; [done|]. split; [by apply only_scratch_refl|]. split; [done|]. intros c HC [Hlen _].
    assert (0 < zlen (utf8_bytes c)) by (unfold utf8_bytes; repeat case_match; cbn; lia). lia. }
  rewrite BIT_OFFSET_eq, BYTE_OFFSET_eq.
  assert (∃ m1 pos, (if mb_offset mb mod 8 =? 0 then Some (m, mb_base mb + mb_offset mb / 8)
     else m ← erts_align_utf8_bytes m mb tmp_buf; Some (m, tmp_buf)) = Some (m1, pos) ∧ only_scratch scratch m m1 ∧ bytes_ready m1 pos rem ∧
     ∀ k, 0 ≤ k < 32 → 8 * (k / 8 + 1) ≤ rem → bit m1 pos 1 k = bit m (mb_base mb) 1 (mb_offset mb + k)) as (m1 & pos & -> & S & Rd & HB).
  { eqb_cases (mb_offset mb mod 8) 0 H8.
    - destruct (ready_aligned m mb B M H8) as [Rd HB]. eexists m, _. split; [reflexivity|]. split; [by apply only_scratch_refl|]. split; [done|]. intros k _ _. apply HB.
    - unfold erts_align_utf8_bytes. rewrite (mb_remaining m) by done. fold rem. set (n := if rem <=? 15 then 8 else if rem >=? 32 then 32 else if rem >=? 24 then 24 else 16).
      destruct (ready_copied m mb tmp_buf n rem B M SC) as (m1 & E & S & Rd & HB); try (subst n; fold rem; repeat case_match; lia).
      rewrite E. eexists m1, _. done. }
  cbn [mbind option_bind]. destruct (decode_utf8_spec m1 pos rem) as (r & -> & D); [lia|done|]. cbn [mbind option_bind].
  apply (char_matched_intro utf8_bytes m m1 mb pos r rem); try done. intros c HC. destruct (utf8_bytes_ok c HC). done.
Qed.

Lemma erts_bs_get_utf16_spec m tmp_buf flags mb : bytes_mem m → mb_ok m mb → is_scratch scratch m tmp_buf 4 →
  char_matched (utf16_bytes (little flags)) m mb (erts_bs_get_utf16 m tmp_buf flags mb).
Proof.
  intros B M SC. pose proof M as (H1 & H2 & OK). unfold erts_bs_get_utf16. rewrite (mb_remaining m) by done. set (rem := mb_size mb - mb_offset mb).
  destruct (Z.ltb_spec rem 16).
  { eexists m, mb, None. split; [done|]. split; [by apply only_scratch_refl|]. split; [done|]. intros c HC [Hlen _]. rewrite zlen_utf16 in Hlen.
    fold rem in Hlen. destruct (c <? 65536); lia. }
  rewrite BIT_OFFSET_eq, BYTE_OFFSET_eq.
  set (rem' := if rem <? 32 then 16 else rem). assert (rem <? 32 = (rem' <? 32)) as E32 by (subst rem'; destruct (Z.ltb_spec rem 32); lia).
  assert (16 ≤ rem' ≤ rem) as Hrem' by (subst rem'; destruct (Z.ltb_spec rem 32); lia).
  assert (∃ m1 pos, (if mb_offset mb mod 8 =? 0 then Some (m, mb_base mb + mb_offset mb / 8)
     else m ← erts_copy_bits m (mb_base mb) (mb_offset mb) 1 tmp_buf 0 1 (if rem <? 32 then 16 else 32); Some (m, tmp_buf)) = Some (m1, pos) ∧ only_scratch scratch m m1 ∧
     bytes_ready m1 pos rem' ∧
     ∀ k, 0 ≤ k < 32 → 8 * (k / 8 + 1) ≤ rem' → bit m1 pos 1 k = bit m (mb_base mb) 1 (mb_offset mb + k)) as (m1 & pos & -> & S & Rd & HB).
  { eqb_cases (mb_offset mb mod 8) 0 H8.
    - destruct (ready_aligned m mb B M H8) as [Rd HB]. eexists m, _. split; [reflexivity|]. split; [by apply only_scratch_refl|]. split; [|intros k _ _; apply HB].
      intros i Hi Hr. apply Rd; [done|]. fold rem. lia.
    - destruct (ready_copied m mb tmp_buf (if rem <? 32 then 16 else 32) rem' B M SC) as (m1 & E & S & Rd & HB); try (fold rem; destruct (Z.ltb_spec rem 32); lia).
      { by rewrite E; eexists m1, _. } }
  cbn [mbind option_bind]. destruct (decode_utf16_spec m1 pos rem' flags) as (r & Er & D); [lia|done|].
  assert (decode_utf16 m1 pos rem flags = Some r) as -> by (rewrite <- Er; unfold decode_utf16; by rewrite E32). cbn [mbind option_bind].
  apply (char_matched_intro (utf16_bytes (little flags)) m m1 mb pos r rem'); try done. intros c HC. destruct (utf16_bytes_ok (little flags) c HC). split; [done|].
  split; [done|]. rewrite zlen_utf16. fold rem. subst rem'. destruct (Z.ltb_spec rem 32), (c <? 65536); lia.
Qed.

(** ** Binaries *)

(** [t] is a binary of the [n] bits at the offset of the match buffer. *)
Definition bin_matched (mb : ErlBinMatchBuffer) (n : Z) (t : bin_term) : Prop :=
  term_bits t = n ∧ ∀ m k, 0 ≤ k < n → term_bit m t k = bit m (mb_base mb) 1 (mb_offset mb + k).

Lemma sub_bin_matched mb n : mb_base mb = rb_bytes (mb_orig mb) →
  bin_matched mb n (Sub (SubBin (BYTE_OFFSET n) (BYTE_OFFSET (mb_offset mb)) (BIT_OFFSET n) (BIT_OFFSET (mb_offset mb)) false (mb_orig mb))).
Proof.
  intros E. unfold bin_matched, term_bits, term_bit, term_src. cbn [ERTS_GET_BINARY_BYTES binary_size sb_size sb_offs sb_bitsize sb_bitoffs sb_orig].
  rewrite !BYTE_OFFSET_eq, !BIT_OFFSET_eq. split; [lia|]. intros m k Hk. rewrite <- E.
  pose proof (bit_shift m (mb_base mb) 1 (mb_offset mb mod 8 + k) (mb_offset mb / 8)) as Eb. rewrite Z.mul_1_l in Eb. rewrite Eb. f_equal. lia.
Qed.

Lemma erts_bs_get_binary_2_spec m empty n mb : mb_ok m mb → mb_base mb = rb_bytes (mb_orig mb) → rb_size empty = 0 → 0 ≤ n →
  if n <=? mb_size mb - mb_offset mb
  then ∃ t, erts_bs_get_binary_2 empty n mb = (mb_advance mb n, Some t) ∧ bin_matched mb n t
  else erts_bs_get_binary_2 empty n mb = (mb, None).
Proof.
  intros M E Ee Hn. pose proof M as (H1 & H2 & _). unfold erts_bs_get_binary_2. rewrite (mb_remaining m) by done. eqb_cases n 0 Hz.
  { rewrite Hz, (proj2 (Z.leb_le _ _)) by lia. eexists. rewrite (mb_advance_eq m) by (done || lia). rewrite Z.add_0_r. split; [by destruct mb|].
    split; [unfold term_bits; cbn; lia|lia]. }
  destruct (Z.leb_spec n (mb_size mb - mb_offset mb)); [|by rewrite (proj2 (Z.ltb_lt _ _)) by lia]. rewrite (proj2 (Z.ltb_ge _ _)) by lia.
  eexists. split; [reflexivity|]. by apply sub_bin_matched.
Qed.

Lemma erts_bs_get_binary_all_2_spec m mb : mb_ok m mb → mb_base mb = rb_bytes (mb_orig mb) →
  ∃ t, erts_bs_get_binary_all_2 mb = (mb_advance mb (mb_size mb - mb_offset mb), t) ∧ bin_matched mb (mb_size mb - mb_offset mb) t.
Proof.
  intros M E. pose proof M as (H1 & H2 & _). unfold erts_bs_get_binary_all_2. rewrite (mb_remaining m) by done. eexists. split; [|by apply sub_bin_matched].
  rewrite (mb_advance_eq m) by (done || lia). by replace (mb_offset mb + (mb_size mb - mb_offset mb)) with (mb_size mb) by lia.
Qed.

(** ** 32 bits *)
Lemma lor_4_bytes b0 b1 b2 b3 : is_byte b0 → is_byte b1 → is_byte b2 → is_byte b3 →
  Z.lor (Z.lor (Z.lor b0 (Z.shiftl b1 8)) (Z.shiftl b2 16)) (Z.shiftl b3 24) = b0 + 256 * (b1 + 256 * (b2 + 256 * b3)).
Proof.
  unfold is_byte. intros H0 H1 H2 H3. rewrite (lor_shiftl_add' b0 b1 8) by lia. rewrite (lor_shiftl_add' _ b2 16) by lia. rewrite (lor_shiftl_add' _ b3 24) by lia. lia.
Qed.

Lemma erts_bs_get_unaligned_uint32_spec m bigbuf mb : bytes_mem m → mb_ok m mb → is_scratch scratch m bigbuf 4 → 32 ≤ mb_size mb - mb_offset mb →
  ∃ m' u, erts_bs_get_unaligned_uint32 m bigbuf mb = Some (m', u) ∧ only_scratch scratch m m' ∧ 0 ≤ u < 2 ^ 32 ∧
    ∀ k, 0 ≤ k < 32 → bit m (mb_base mb) 1 (mb_offset mb + k) = Z.testbit u (31 - k).
Proof.
  intros B (H1 & H2 & OK) SC H32. pose proof D_BASE_32. unfold erts_bs_get_unaligned_uint32.
  destruct (move_big scratch m (mb_base mb) (mb_offset mb) 32 bigbuf 3) as (m1 & W & E & S & (HW & HL) & HW32 & Tb); [done|lia|lia|lia|done|intros k Hk; apply OK; lia|done|].
  change (Z.of_nat 3) with 3 in *. change (8 - (32 - 8 * 3)) with 0 in E.
  destruct (wr m (bigbuf + 3) 0) as [m0|]; [|done]. cbn [mbind option_bind] in E |- *. rewrite E. cbn [mbind option_bind]. unfold rd.
  pose proof (HL 0 ltac:(lia)) as L0. rewrite Z.add_0_r in L0. rewrite L0, (HL 1 ltac:(lia)), (HL 2 ltac:(lia)), (HL 3 ltac:(lia)). cbn [mbind option_bind].
  rewrite lor_4_bytes by (unfold is_byte; apply Z.mod_pos_bound; lia). change (256 ^ 0) with 1. change (256 ^ 1) with 256. change (256 ^ 2) with 65536. change (256 ^ 3) with 16777216.
  exists m1, W. split; [|split; [done|split; [split; [apply HW|done]|done]]]. do 2 f_equal. unfold wrap_u. change (2 ^ 32) with 4294967296 in *. lia.
Qed.
End Buffers.
