(* ===== verification/BitsSegments.v ===== *)
(** Sequences of segments: a binary built by the [bs_put] functions, one after the other, and matched by the [bs_get] functions in the
    same order.  The instructions of a binary expression and of a binary pattern call them like this. *)

From Stdlib Require Import ZArith ZifyBool.
From stdpp Require Import base list numbers option gmap.
From S2P Require Import Prelude Big BigSpec BigBitsSpec BigTerm BigTermSpec BigOutSpec AllocMem Bits BitsSpec BitsBuild BitsFmt BitsPut BitsMatch BitsGet BitsGetMore.
Local Open Scope Z_scope.
Ltac Zify.zify_post_hook ::= Z.to_euclidean_division_equations.

Ltac same_bytes H :=
  pose proof (H 0%nat _ _ eq_refl eq_refl); try pose proof (H 1%nat _ _ eq_refl eq_refl); try pose proof (H 2%nat _ _ eq_refl eq_refl);
  try pose proof (H 3%nat _ _ eq_refl eq_refl).

Section Unique.
Context {dw : DigitWidth}.

Lemma next_bytes_same m mb l l' : Forall is_byte l → Forall is_byte l' → next_bytes m mb l → next_bytes m mb l' →
  ∀ i x y, l !! i = Some x → l' !! i = Some y → x = y.
Proof.
  intros Hl Hl' [_ N] [_ N'] i x y Hx Hy. apply byte_eq; [by eapply (Forall_lookup_1 _ _ _ _ Hl)|by eapply (Forall_lookup_1 _ _ _ _ Hl')|]. intros j Hj.
  pose proof (lookup_lt_Some _ _ _ Hx). pose proof (lookup_lt_Some _ _ _ Hy). set (k := 8 * Z.of_nat i + (7 - j)).
  specialize (N k ltac:(lia)). specialize (N' k ltac:(lia)). rewrite N in N'. unfold byte_list_bit in N'. replace (Z.to_nat (k / 8)) with i in N' by lia.
  rewrite Hx, Hy in N'. by replace (7 - k mod 8) with j in N' by lia.
Qed.

(** No encoding is the beginning of another one. *)
Lemma utf8_unique m mb c c' : is_char c = true → is_char c' = true → next_bytes m mb (utf8_bytes c) → next_bytes m mb (utf8_bytes c') → c = c'.
Proof.
  intros HC HC' N N'. pose proof (next_bytes_same m mb _ _ (proj1 (utf8_bytes_ok c HC)) (proj1 (utf8_bytes_ok c' HC')) N N') as H. clear N N'.
  unfold is_char in *. unfold utf8_bytes in H. repeat case_match; same_bytes H; lia.
Qed.
Lemma utf16_unique le m mb c c' : is_char c = true → is_char c' = true → next_bytes m mb (utf16_bytes le c) → next_bytes m mb (utf16_bytes le c') → c = c'.
Proof.
  intros HC HC' N N'. pose proof (next_bytes_same m mb _ _ (proj1 (utf16_bytes_ok le c HC)) (proj1 (utf16_bytes_ok le c' HC')) N N') as H. clear N N'.
  unfold is_char in *. unfold utf16_bytes, utf16_words, word16_bytes in H. destruct le; repeat case_match; cbn [mbind list_bind app] in H; same_bytes H; lia.
Qed.
End Unique.

Inductive segment :=
| SegInt (t : int_term) (size flags : Z)
| SegUtf8 (c : Z)
| SegUtf16 (c flags : Z)
| SegBin (t : bin_term) (size : Z).

Inductive seg_value := VInt (t : int_term) | VBin (t : bin_term).

(** The temporary buffers of the calls: [new_buf] for [erts_realloc], [tmp] for [erts_alloc], and the local arrays. *)
Record buffers := Buffers { new_buf : Z; tmp_buf : Z; bigbuf : Z; tmp_block : Z; empty_bin : real_bin }.

Section Segments.
Context {dw : DigitWidth}.
Variable bufs : buffers.

Definition put_segment (m : memory) (st : erl_bits_state) (s : segment) : option (Z * memory * erl_bits_state) :=
  match s with
  | SegInt t n flags => erts_new_bs_put_integer m st (new_buf bufs) t n flags
  | SegUtf8 c => erts_bs_put_utf8 m st (tmp_buf bufs) (Small c)
  | SegUtf16 c flags => erts_bs_put_utf16 m st (tmp_buf bufs) (Small c) flags
  | SegBin t n => erts_new_bs_put_binary m st (Some t) n
  end.

Fixpoint build (m : memory) (st : erl_bits_state) (l : list segment) : option (Z * memory * erl_bits_state) :=
  match l with
  | [] => Some (1, m, st)
  | s :: l' => '(r, m, st) ← put_segment m st s; if r =? 0 then Some (0, m, st) else build m st l'
  end.

Definition int_result (r : option (memory * ErlBinMatchBuffer * option int_term)) : option (memory * ErlBinMatchBuffer * option seg_value) :=
  match r with Some (m, mb, t) => Some (m, mb, option_map VInt t) | None => None end.

Definition get_segment (m : memory) (mb : ErlBinMatchBuffer) (s : segment) : option (memory * ErlBinMatchBuffer * option seg_value) :=
  match s with
  | SegInt _ n flags => int_result (erts_bs_get_integer_2 m (bigbuf bufs) (tmp_block bufs) n flags mb)
  | SegUtf8 _ => int_result (erts_bs_get_utf8 m (tmp_buf bufs) mb)
  | SegUtf16 _ flags => int_result (erts_bs_get_utf16 m (tmp_buf bufs) flags mb)
  | SegBin _ n => let '(mb, t) := erts_bs_get_binary_2 (empty_bin bufs) n mb in Some (m, mb, option_map VBin t)
  end.

Fixpoint get_all (m : memory) (mb : ErlBinMatchBuffer) (l : list segment) : option (memory * ErlBinMatchBuffer * option (list seg_value)) :=
  match l with
  | [] => Some (m, mb, Some [])
  | s :: l' =>
      '(m, mb, v) ← get_segment m mb s;
      match v with
      | None => Some (m, mb, None)
      | Some v => '(m, mb, vs) ← get_all m mb l'; Some (m, mb, option_map (cons v) vs)
      end
  end.

(** ** The specification *)

(** The size of a segment in bits, and its bits. *)
Definition seg_size (s : segment) : Z :=
  match s with SegInt _ n _ => n | SegUtf8 c => 8 * zlen (utf8_bytes c) | SegUtf16 c flags => 8 * zlen (utf16_bytes (little flags) c) | SegBin _ n => n end.

Definition int_value (t : int_term) : Z := match t with Small z => z | Bignum sign ds => sval sign ds | NIL => 0 end.

Definition seg_bit (m : memory) (s : segment) (k : Z) : bool :=
  match s with
  | SegInt t n flags => int_bit (little flags) n (int_value t) k
  | SegUtf8 c => byte_list_bit (utf8_bytes c) k
  | SegUtf16 c flags => byte_list_bit (utf16_bytes (little flags) c) k
  | SegBin t _ => term_bit m t k
  end.

(** What matching has to find: the integer modulo the size of its field, the character, the bits of the binary
    (which was in [m]; the result is in [m2]). *)
Definition seg_matches (m m2 : memory) (s : segment) (v : seg_value) : Prop :=
  match s, v with
  | SegInt t n flags, VInt t' => ∃ z, result t' z ∧ field_value (signed_field flags) n (int_value t) z
  | SegUtf8 c, VInt t' => t' = Small c
  | SegUtf16 c _, VInt t' => t' = Small c
  | SegBin t n, VBin t' => term_bits t' = n ∧ ∀ k, 0 ≤ k < n → term_bit m2 t' k = term_bit m t k
  | _, _ => False
  end.

Variable scratch : Z → Prop.

(** The temporary buffers are big enough for segments of at most [max] bits. *)
Definition bufs_ok (m : memory) (max : Z) : Prop :=
  is_scratch scratch m (new_buf bufs) ((max + 7) / 8) ∧ is_scratch scratch m (tmp_buf bufs) 4 ∧ is_scratch scratch m (bigbuf bufs) 64 ∧
  is_scratch scratch m (tmp_block bufs) ((max + 7) / 8) ∧ rb_size (empty_bin bufs) = 0.

(** A segment that can be put: an integer, a character, a binary that is long enough and apart from the [e] bits of the binary under construction. *)
Definition seg_ok (m : memory) (bin e max : Z) (s : segment) : Prop :=
  match s with
  | SegInt t n _ => int_arg t (int_value t) ∧ 0 ≤ n ≤ max
  | SegUtf8 c => is_char c = true
  | SegUtf16 c _ => is_char c = true
  | SegBin t n => 0 ≤ n ≤ term_bits t ∧ term_bits t < D_BASE ∧ 0 ≤ (term_src t).2 ∧
      ∀ k, 0 ≤ k < n → let a := (term_src t).1 + ((term_src t).2 + k) / 8 in
        is_Some (m !! a) ∧ ¬ scratch a ∧ ∀ j, 0 ≤ j < e → a ≠ bin + j / 8
  end.

Definition total (l : list segment) : Z := foldr (λ s n, seg_size s + n) 0 l.

Lemma seg_size_pos m bin e max s : seg_ok m bin e max s → 0 ≤ seg_size s.
Proof. destruct s; cbn; [lia|lia|lia|lia]. Qed.
Lemma total_pos m bin e max l : Forall (seg_ok m bin e max) l → 0 ≤ total l.
Proof. induction 1 as [|s l H _ IH]; cbn; [lia|]. apply seg_size_pos in H. fold (total l). lia. Qed.

(** Conditions survive changes that keep what is mapped, and what is outside of the binary and the buffers. *)
Definition kept (m m' : memory) (bin e : Z) : Prop :=
  bytes_mem m' ∧ (∀ a, is_Some (m' !! a) ↔ is_Some (m !! a)) ∧ ∀ a, ¬ scratch a → (∀ j, 0 ≤ j < e → a ≠ bin + j / 8) → m' !! a = m !! a.

Lemma placed_kept m m' bin off n f e : placed scratch m m' bin off n f → 0 ≤ off → off + n ≤ e → kept m m' bin e.
Proof. intros (B & D & _ & _ & F) Ho He. split; [done|]. split; [done|]. intros a Ha Hj. apply F; [done|]. intros k Hk. apply Hj. lia. Qed.

Lemma bufs_ok_kept m m' bin e max : kept m m' bin e → bufs_ok m max → bufs_ok m' max.
Proof. intros (_ & D & _) (H1 & H2 & H3 & H4 & H5). repeat (split; [by eapply is_scratch_dom|]). done. Qed.

Lemma seg_ok_kept m m' bin e max s : kept m m' bin e → seg_ok m bin e max s → seg_ok m' bin e max s.
Proof.
  intros (_ & D & _). destruct s as [| | |t n]; cbn; try done. intros (H1 & H2 & H3 & H4). split; [done|]. split; [done|]. split; [done|].
  intros k Hk. destruct (H4 k Hk) as (M & N & A). split; [by apply D|done].
Qed.

Lemma seg_bit_kept m m' bin e max s k : kept m m' bin e → seg_ok m bin e max s → 0 ≤ k < seg_size s → seg_bit m' s k = seg_bit m s k.
Proof.
  intros (_ & _ & F). destruct s as [| | |t n]; cbn; try done. intros (H1 & H2 & H3 & H4) Hk. destruct (H4 k Hk) as (M & N & A).
  unfold term_bit. destruct (term_src t) as [p o]. cbn in *. unfold bit. by rewrite Z.mul_1_l, F.
Qed.

(** ** Construction *)
Lemma put_segment_spec m st e max s : bytes_mem m → st_ok scratch m st → bufs_ok m max → (max + 7) / 8 ≤ INT_MAX → e + 8 < D_BASE →
  seg_ok m (erts_current_bin st) e max s → bin_ok scratch m (erts_current_bin st) e → erts_bin_offset st + seg_size s ≤ e →
  put_ok scratch m st (put_segment m st s) (seg_size s) (seg_bit m s).
Proof.
  intros B ST (NB & TB & _ & _ & _) Hmax He SO OK Hoff. pose proof (off_pos scratch m st ST) as Ho.
  assert (bin_ok scratch m (erts_current_bin st) (erts_bin_offset st + seg_size s)) as OK' by (intros k Hk; apply OK; lia).
  destruct s as [t n flags|c|c flags|t n]; cbn [put_segment seg_size seg_bit seg_ok] in *.
  - destruct SO as [A Hn]. apply erts_new_bs_put_integer_spec; try (done || lia). intros i Hi. apply NB. lia.
  - apply erts_bs_put_utf8_spec; (done || lia).
  - apply erts_bs_put_utf16_spec; (done || lia).
  - destruct SO as (Hn & Ht & Hs & SO). apply erts_new_bs_put_binary_spec; try (done || lia). split; [done|]. split.
    + intros k Hk. rewrite Z.mul_1_l. destruct (SO (k - (term_src t).2) ltac:(lia)) as [M _].
      by replace ((term_src t).2 + (k - (term_src t).2)) with k in M by lia.
    + intros j k Hj Hk E. rewrite !Z.mul_1_l in E. destruct (SO (j - (term_src t).2) ltac:(lia)) as (_ & _ & A).
      replace ((term_src t).2 + (j - (term_src t).2)) with j in A by lia. apply (A k); lia.
Qed.

(** The segments [l] are in the binary at [off], one after the other. *)
Fixpoint segs_at (m m' : memory) (bin off : Z) (l : list segment) : Prop :=
  match l with
  | [] => True
  | s :: l' => (∀ k, 0 ≤ k < seg_size s → bit m' bin 1 (off + k) = seg_bit m s k) ∧ segs_at m m' bin (off + seg_size s) l'
  end.

Lemma segs_at_kept m m1 m' bin e max l : kept m m1 bin e → Forall (seg_ok m bin e max) l → ∀ off, segs_at m1 m' bin off l → segs_at m m' bin off l.
Proof.
  intros K F. induction F as [|s l Hs F IH]; intros off; cbn; [done|]. intros [H1 H2]. split; [|by apply IH]. intros k Hk. rewrite H1 by done.
  by eapply seg_bit_kept.
Qed.

Lemma kept_trans m1 m2 m3 bin e : kept m1 m2 bin e → kept m2 m3 bin e → kept m1 m3 bin e.
Proof. intros (B1 & D1 & F1) (B2 & D2 & F2). split; [done|]. split; [intros a; by rewrite D2|]. intros a Ha Hj. by rewrite F2, F1. Qed.

Lemma build_spec e max l : (max + 7) / 8 ≤ INT_MAX → e + 8 < D_BASE → ∀ m st, bytes_mem m → st_ok scratch m st → bufs_ok m max →
  Forall (seg_ok m (erts_current_bin st) e max) l → bin_ok scratch m (erts_current_bin st) e → erts_bin_offset st + total l ≤ e →
  ∃ m' st', build m st l = Some (1, m', st') ∧ kept m m' (erts_current_bin st) e ∧ erts_bin_offset st' = erts_bin_offset st + total l ∧
    (∀ k, 0 ≤ k < erts_bin_offset st → bit m' (erts_current_bin st) 1 k = bit m (erts_current_bin st) 1 k) ∧
    segs_at m m' (erts_current_bin st) (erts_bin_offset st) l.
Proof.
  intros Hmax He. induction l as [|s l IH]; intros m st B ST BO F OK Hoff; cbn [build].
  { exists m, st. split; [done|]. split; [done|]. cbn. rewrite Z.add_0_r. done. }
  apply Forall_cons in F as [Fs F]. pose proof (total_pos _ _ _ _ _ F) as Hp. pose proof (seg_size_pos _ _ _ _ _ Fs) as Hs. cbn in Hoff. fold (total l) in Hoff.
  destruct (put_segment_spec m st e max s B ST BO Hmax He Fs OK ltac:(lia)) as (m1 & st1 & -> & P & ST1 & E1 & E2). cbn [mbind option_bind Z.eqb].
  pose proof (off_pos scratch m st ST) as Ho. pose proof (placed_kept m m1 _ _ _ _ e P Ho ltac:(lia)) as K1.
  destruct (IH m1 st1) as (m' & st' & Eb & K2 & Eo & Hbefore & HA); rewrite ?E1, ?E2 in *; [apply K1|done|by eapply bufs_ok_kept| | |lia|].
  { eapply Forall_impl; [done|]. intros s' Hs'. by eapply seg_ok_kept. }
  { by eapply placed_dom. }
  exists m', st'. split; [done|]. split; [by eapply kept_trans|]. split; [rewrite Eo; cbn; fold (total l); lia|]. destruct P as (_ & _ & P3 & P4 & _). split.
  - intros k Hk. rewrite Hbefore, P4 by lia. done.
  - cbn. split; [|by eapply segs_at_kept]. intros k Hk. rewrite Hbefore, P3 by lia. done.
Qed.

(** ** Matching *)
(** A character that was put is found. *)
Lemma char_found enc m mb c r : (∀ c c', is_char c = true → is_char c' = true → next_bytes m mb (enc c) → next_bytes m mb (enc c') → c = c') →
  is_char c = true → next_bytes m mb (enc c) → char_matched scratch enc m mb r →
  ∃ m', r = Some (m', mb_advance mb (8 * zlen (enc c)), Some (Small c)) ∧ only_scratch scratch m m'.
Proof.
  intros U HC N (m' & mb' & t & -> & S & H). destruct t as [t|]; [|by destruct H as [_ H]; destruct (H c HC N)].
  destruct H as (c' & -> & HC' & N' & ->). rewrite <- (U c c') by done. eauto.
Qed.

Lemma get_segment_spec m0 m mb bin e max s : bytes_mem m → mb_ok scratch m mb → mb_base mb = rb_bytes (mb_orig mb) → bufs_ok m max → seg_ok m0 bin e max s →
  seg_size s ≤ mb_size mb - mb_offset mb → (∀ k, 0 ≤ k < seg_size s → bit m (mb_base mb) 1 (mb_offset mb + k) = seg_bit m0 s k) →
  ∃ m1 v, get_segment m mb s = Some (m1, mb_advance mb (seg_size s), Some v) ∧ only_scratch scratch m m1 ∧
    ∀ m2, only_scratch scratch m m2 → seg_matches m0 m2 s v.
Proof.
  intros B M Eb (NB & TB & BB & TT & EE) SO Hle HB. pose proof M as (H1 & H2 & OK). destruct s as [t n flags|c|c flags|t n]; cbn [get_segment seg_size seg_bit seg_ok seg_matches] in *.
  - destruct SO as [A Hn]. destruct (decide (n = 0)) as [->|Hz].
    { exists m, (VInt (Small 0)). unfold erts_bs_get_integer_2. cbn [Z.eqb int_result option_map]. rewrite (mb_advance_eq scratch m) by (done || lia). rewrite Z.add_0_r.
      split; [by destruct mb|]. split; [by apply only_scratch_refl|]. intros m2 _. exists 0. destruct small_facts as (? & ? & _).
      split; [left; split; [done|unfold in_small; lia]|]. split; [unfold int_range; rewrite andb_false_r; cbn; lia|lia]. }
    pose proof (erts_bs_get_integer_2_spec scratch m (bigbuf bufs) (tmp_block bufs) n flags mb B M ltac:(lia) BB) as G. rewrite (proj2 (Z.leb_le _ _)) in G by done.
    destruct G as (m' & t' & -> & S & z & R & Rg & Tz); [intros i Hi; apply TT; lia|]. exists m', (VInt t'). split; [done|]. split; [done|]. intros m2 _. exists z. split; [done|].
    split; [done|]. intros i Hi. set (k := if little flags then 8 * (i / 8) + Z.min 8 (n - 8 * (i / 8)) - 1 - i mod 8 else n - 1 - i).
    assert (0 ≤ k < n ∧ ∀ v, int_bit (little flags) n v k = Z.testbit v i) as [Hk HI].
    { subst k. unfold int_bit. destruct (little flags); (split; [lia|]); intros v; f_equal; lia. }
    rewrite <- HI, <- Tz, HB, HI by done. done.
  - destruct (char_found utf8_bytes m mb c _ (utf8_unique m mb) SO (conj Hle HB) (erts_bs_get_utf8_spec scratch m (tmp_buf bufs) mb B M TB)) as (m' & -> & S).
    exists m', (VInt (Small c)). done.
  - destruct (char_found (utf16_bytes (little flags)) m mb c _ (utf16_unique (little flags) m mb) SO (conj Hle HB)
      (erts_bs_get_utf16_spec scratch m (tmp_buf bufs) flags mb B M TB)) as (m' & -> & S).
    exists m', (VInt (Small c)). done.
  - destruct SO as (Hn & _). pose proof (erts_bs_get_binary_2_spec scratch m (empty_bin bufs) n mb M Eb EE ltac:(lia)) as G. rewrite (proj2 (Z.leb_le _ _)) in G by done.
    destruct G as (t' & -> & Ht & Hb). exists m, (VBin t'). split; [done|]. split; [by apply only_scratch_refl|]. intros m2 S2. split; [done|]. intros k Hk.
    rewrite Hb, <- HB by done. apply (only_scratch_bit scratch m m2 _ _ _ _ S2 OK). lia.
Qed.

Lemma bufs_ok_scratch m m' max : only_scratch scratch m m' → bufs_ok m max → bufs_ok m' max.
Proof. intros (_ & D & _) (H1 & H2 & H3 & H4 & H5). repeat (split; [by eapply is_scratch_dom|]). done. Qed.

Lemma segs_at_scratch m0 m m' base l : only_scratch scratch m m' → ∀ off n, field_ok scratch m base off n → Forall (λ s, 0 ≤ seg_size s) l → total l ≤ n →
  segs_at m0 m base off l → segs_at m0 m' base off l.
Proof.
  intros S. induction l as [|s l IH]; intros off n OK F Hn; cbn; [done|]. intros [H1 H2]. apply Forall_cons in F as [Hs F]. cbn in Hn. fold (total l) in Hn.
  assert (0 ≤ total l) by (clear -F; induction F as [|? ? ? ? IHF]; cbn; [lia|fold (total l); lia]). split.
  - intros k Hk. rewrite <- H1 by done. apply (only_scratch_bit scratch m m' base off n _ S OK). lia.
  - apply (IH _ (n - seg_size s)); [|done|lia|done]. intros k Hk. apply OK. lia.
Qed.

Lemma get_all_spec m0 bin e max l : Forall (seg_ok m0 bin e max) l → ∀ m mb, bytes_mem m → mb_ok scratch m mb → mb_base mb = rb_bytes (mb_orig mb) → bufs_ok m max →
  total l ≤ mb_size mb - mb_offset mb → segs_at m0 m (mb_base mb) (mb_offset mb) l →
  ∃ m' vs, get_all m mb l = Some (m', mb_advance mb (total l), Some vs) ∧ only_scratch scratch m m' ∧ Forall2 (seg_matches m0 m') l vs.
Proof.
  induction 1 as [|s l Hs F IH]; intros m mb B M Eb BO Hle HA; cbn [get_all].
  { exists m, []. cbn. pose proof M as (H1 & _ & _). rewrite (mb_advance_eq scratch m) by (done || lia). rewrite Z.add_0_r. split; [by destruct mb|]. split; [by apply only_scratch_refl|]. done. }
  cbn in Hle, HA. fold (total l) in Hle. destruct HA as [HB HA]. pose proof (seg_size_pos _ _ _ _ _ Hs) as Hp. pose proof (total_pos _ _ _ _ _ F) as Ht.
  destruct (get_segment_spec m0 m mb bin e max s B M Eb BO Hs ltac:(lia) HB) as (m1 & v & -> & S1 & HV). cbn [mbind option_bind].
  pose proof (mb_advance_ok scratch m m1 mb (seg_size s) M S1 ltac:(lia)) as M1. rewrite (mb_advance_eq scratch m) in * by (done || lia).
  destruct (IH m1 (MatchBuffer (mb_orig mb) (mb_base mb) (mb_offset mb + seg_size s) (mb_size mb))) as (m2 & vs & -> & S2 & F2);
    cbn [mb_orig mb_base mb_offset mb_size]; [apply S1|done|done|by eapply bufs_ok_scratch|lia| |].
  { apply (segs_at_scratch m0 m m1 _ l S1 _ (mb_size mb - (mb_offset mb + seg_size s))); [|eapply Forall_impl; [exact F|intros s' Hs'; by eapply seg_size_pos]|lia|done].
    destruct M as (_ & _ & OK). intros k Hk. apply OK. lia. }
  cbn [mbind option_bind option_map]. exists m2, (v :: vs). pose proof (only_scratch_trans scratch _ _ _ S1 S2) as S.
  split; [|split; [done|constructor; [by apply HV|done]]]. do 3 f_equal. unfold mb_advance. cbn [mb_orig mb_base mb_offset mb_size total foldr]. f_equal. f_equal. fold (total l). lia.
Qed.
End Segments.
