(* ===== verification/BitsTheorems.v ===== *)
(** The properties of the bit syntax functions of [erts/emulator/beam/erl_bits.c]. *)

From Stdlib Require Import ZArith ZifyBool.
From stdpp Require Import base list numbers option gmap.
From S2P Require Import Prelude Big BigSpec BigBitsSpec BigTerm BigTermSpec BigOutSpec AllocMem Bits BitsSpec BitsCmp BitsBuild BitsFmt BitsPut BitsMatch BitsGet BitsGetMore BitsSegments.
Local Open Scope Z_scope.
Ltac Zify.zify_post_hook ::= Z.to_euclidean_division_equations.

Section Properties.
Context {dw : DigitWidth}.

(** C8: construction and matching are inverse.  Whatever integers (small or big, of either sign, in fields of any size below 2^31 bytes,
    signed or not, in either byte order), characters and binaries are put one after the other, at any bit offset, all calls succeed, the offset advances by the
    sizes, the bits in front are kept, and matching the result with the same fields finds each of them: the integer modulo the size of its
    field, in the range of the field and as a well-formed term, the character, a binary with the same bits; the match ends behind the last field. *)
Theorem bit_syntax_roundtrip (scratch : Z → Prop) (bufs : buffers) (m : memory) (st : erl_bits_state) (size max : Z) (l : list segment) :
  bytes_mem m → st_ok scratch m st → bufs_ok bufs scratch m max → (max + 7) / 8 ≤ INT_MAX → size + 8 < D_BASE →
  bin_ok scratch m (erts_current_bin st) size → Forall (seg_ok scratch m (erts_current_bin st) size max) l → erts_bin_offset st + total l ≤ size →
  ∃ m1 st1 m2 vs, build bufs m st l = Some (1, m1, st1) ∧ erts_bin_offset st1 = erts_bin_offset st + total l ∧
    (∀ k, 0 ≤ k < erts_bin_offset st → bit m1 (erts_current_bin st) 1 k = bit m (erts_current_bin st) 1 k) ∧
    get_all bufs m1 (MatchBuffer (RealBin (erts_current_bin st) ((size + 7) / 8)) (erts_current_bin st) (erts_bin_offset st) size) l =
      Some (m2, MatchBuffer (RealBin (erts_current_bin st) ((size + 7) / 8)) (erts_current_bin st) (erts_bin_offset st1) size, Some vs) ∧
    Forall2 (seg_matches m m2) l vs.
Proof.
  intros B ST BO Hmax Hs OK F Hoff. pose proof (off_pos scratch m st ST). pose proof (total_pos _ _ _ _ _ _ F).
  destruct (build_spec bufs scratch size max l Hmax Hs m st B ST BO F OK Hoff) as (m1 & st1 & E & K & Eo & Hb & HA).
  set (mb := MatchBuffer _ _ (erts_bin_offset st) size).
  assert (mb_ok scratch m1 mb) as M.
  { split; [cbn; lia|]. split; [done|]. intros k Hk. cbn in Hk |- *. destruct (OK k ltac:(lia)) as [H1 H2]. split; [by apply K|done]. }
  destruct (get_all_spec bufs scratch m (erts_current_bin st) size max l F m1 mb (proj1 K) M eq_refl) as (m2 & vs & Eg & S & F2);
    [by eapply bufs_ok_kept|cbn; lia|done|].
  exists m1, st1, m2, vs. split; [done|]. split; [done|]. split; [done|]. split; [|done]. rewrite Eg, (mb_advance_eq scratch m1) by (done || cbn; lia). by rewrite Eo.
Qed.

(** C19: [erts_copy_bits] copies exactly [n] bits, for every combination of bit offsets and of directions: it succeeds without touching an address
    that is not mapped, bit [i] of the field at the destination is bit [i] of the field at the source afterwards, every other bit of the
    destination and every other byte is as before. *)
Theorem erts_copy_bits_exact (m : memory) (src soffs sdir dst doffs ddir n : Z) :
  bytes_mem m → ddir ≠ 0 → 0 ≤ soffs → 0 ≤ doffs → 0 ≤ n → 8 + n < D_BASE →
  bits_mapped m src sdir soffs n → bits_mapped m dst ddir doffs n → bits_apart src sdir soffs n dst ddir doffs n →
  ∃ m', erts_copy_bits m src soffs sdir dst doffs ddir n = Some m' ∧ bytes_mem m' ∧
    field m' dst ddir doffs n = field m src sdir soffs n ∧
    (∀ k, k < doffs ∨ doffs + n ≤ k → bit m' dst ddir k = bit m dst ddir k) ∧
    (∀ a, (∀ k, doffs ≤ k < doffs + n → a ≠ dst + ddir * (k / 8)) → m' !! a = m !! a).
Proof.
  intros B Hdir Hs Hd Hn Hfit MS MD HA. destruct (erts_copy_bits_spec m src soffs sdir dst doffs ddir n) as (m' & E & B' & [_ F] & K); try done.
  exists m'. split; [done|]. split; [done|]. split; [|split; [|done]].
  - apply field_ext. intros k Hk. rewrite K, bool_decide_eq_true_2 by lia. f_equal. lia.
  - intros k Hk. by rewrite K, bool_decide_eq_false_2 by lia.
Qed.

(** C30: [erts_cmp_bits] is the lexicographic order of the two bit strings (below 2^31 bytes): the sign of the result says which one has the 1 at the first
    difference, and 0 that they are equal.  Unless both strings and their size are aligned to bytes it also reads the byte behind the last
    bit of each, which has to be mapped. *)
Theorem erts_cmp_bits_lexicographic (m : memory) (a_ptr a_offs b_ptr b_offs size : Z) :
  bytes_mem m → 0 ≤ a_offs < 8 → 0 ≤ b_offs < 8 → 0 ≤ size → size / 8 ≤ INT_MAX →
  readable m a_ptr (a_offs + size - cmp_aligned a_offs b_offs size) → readable m b_ptr (b_offs + size - cmp_aligned a_offs b_offs size) →
  ∃ r, erts_cmp_bits m a_ptr a_offs b_ptr b_offs size = Some r ∧
    Z.sgn r = lex (field m a_ptr 1 a_offs size) (field m b_ptr 1 b_offs size) ∧
    (r = 0 ↔ field m a_ptr 1 a_offs size = field m b_ptr 1 b_offs size).
Proof.
  intros B Ha Hb Hs Hint Ra Rb. destruct (erts_cmp_bits_spec m a_ptr a_offs b_ptr b_offs size) as (r & E & Hr); try done. exists r. split; [done|]. split; [done|].
  rewrite <- Z.sgn_null_iff, Hr. apply lex_eq. by rewrite !length_field.
Qed.

(** C20: the UTF-8 and UTF-16 decoders accept exactly the encodings of characters (no surrogates, not FFFE and FFFF, no overlong forms, nothing
    truncated): they return the character, and advance by its encoding, when the next bits are one; otherwise they return no value and
    leave the match buffer alone.  No two encodings are the beginning of the same bits, so the character is the only one. *)
Theorem bs_get_utf_exact (scratch : Z → Prop) (m : memory) (tmp_buf flags : Z) (mb : ErlBinMatchBuffer) :
  bytes_mem m → mb_ok scratch m mb → is_scratch scratch m tmp_buf 4 →
  char_matched scratch utf8_bytes m mb (erts_bs_get_utf8 m tmp_buf mb) ∧
  char_matched scratch (utf16_bytes (little flags)) m mb (erts_bs_get_utf16 m tmp_buf flags mb) ∧
  (∀ c c', is_char c = true → is_char c' = true → next_bytes m mb (utf8_bytes c) → next_bytes m mb (utf8_bytes c') → c = c') ∧
  (∀ c c', is_char c = true → is_char c' = true → next_bytes m mb (utf16_bytes (little flags) c) → next_bytes m mb (utf16_bytes (little flags) c') → c = c').
Proof.
  intros B M SC. split; [by apply erts_bs_get_utf8_spec|]. split; [by apply erts_bs_get_utf16_spec|]. split; intros c c'; [apply utf8_unique|apply utf16_unique].
Qed.

(** C21: what the match functions return is well formed.  From a match buffer within its binary they yield one within it, a memory of bytes in which
    only temporary buffers are different, and: a small or a normalised bignum, in the range of the field (or the report that
    the number has too many digits for a bignum); a sub binary of exactly the bits asked for, or of all that are left; the next 32 bits as an
    unsigned number.  A field that is too long yields no value and leaves the buffer alone. *)
Theorem bs_get_well_typed (scratch : Z → Prop) (m : memory) (mb : ErlBinMatchBuffer) (empty : real_bin) (bigbuf tmp n flags : Z) :
  bytes_mem m → mb_ok scratch m mb → mb_base mb = rb_bytes (mb_orig mb) → rb_size empty = 0 → 0 < n →
  is_scratch scratch m bigbuf 64 → is_scratch scratch m tmp ((n + 7) / 8) →
  (if n <=? mb_size mb - mb_offset mb
   then (∃ m' t z, erts_bs_get_integer_2 m bigbuf tmp n flags mb = Some (m', mb_advance mb n, Some t) ∧ only_scratch scratch m m' ∧
          mb_ok scratch m' (mb_advance mb n) ∧ result t z ∧ int_range (signed_field flags) n z) ∧
        ∃ t, erts_bs_get_binary_2 empty n mb = (mb_advance mb n, Some t) ∧ bin_matched mb n t
   else erts_bs_get_integer_2 m bigbuf tmp n flags mb = Some (m, mb, None) ∧ erts_bs_get_binary_2 empty n mb = (mb, None)) ∧
  (∃ t, erts_bs_get_binary_all_2 mb = (mb_advance mb (mb_size mb - mb_offset mb), t) ∧ bin_matched mb (mb_size mb - mb_offset mb) t) ∧
  (32 ≤ mb_size mb - mb_offset mb → ∃ m' u, erts_bs_get_unaligned_uint32 m bigbuf mb = Some (m', u) ∧ only_scratch scratch m m' ∧ 0 ≤ u < 2 ^ 32 ∧
     ∀ k, 0 ≤ k < 32 → bit m (mb_base mb) 1 (mb_offset mb + k) = Z.testbit u (31 - k)).
Proof.
  intros B M Eb Ee Hn SB ST. split; [|split; [by eapply erts_bs_get_binary_all_2_spec|]].
  - pose proof (erts_bs_get_integer_2_spec scratch m bigbuf tmp n flags mb B M Hn SB ST) as GI.
    pose proof (erts_bs_get_binary_2_spec scratch m empty n mb M Eb Ee ltac:(lia)) as GB. destruct (Z.leb_spec n (mb_size mb - mb_offset mb)); [|done].
    split; [|done]. destruct GI as (m' & t & E & S & z & R & Rg & _). exists m', t, z. split; [done|]. split; [done|]. split; [|done].
    apply (mb_advance_ok scratch m m' mb n M S). lia.
  - intros H32. apply erts_bs_get_unaligned_uint32_spec; try done. intros i Hi. apply SB. lia.
Qed.

(** C32: strings and whole binaries are appended bit by bit; a whole binary is refused when the unit does not divide its size, a binary that is
    too short or no binary at all, an integer or character segment whose argument is none: 0 is returned, and memory and offset are as before
    (the byte buffer may have grown). *)
Theorem bs_put_outcomes (scratch : Z → Prop) (m : memory) (st : erl_bits_state) (new_buf tmp_buf : Z) :
  bytes_mem m → st_ok scratch m st →
  (∀ t unit, 0 < unit → 0 ≤ term_bits t < D_BASE → (let '(_, _, bitsize) := ERTS_GET_BINARY_BYTES t in 0 ≤ bitsize < 8) →
     erts_bin_offset st + term_bits t + 8 < D_BASE →
     src_ok m (term_src t).1 (term_src t).2 (erts_current_bin st) (erts_bin_offset st) (term_bits t) →
     bin_ok scratch m (erts_current_bin st) (erts_bin_offset st + term_bits t) →
     if bool_decide (term_bits t mod unit = 0)
     then put_ok scratch m st (erts_new_bs_put_binary_all m st (Some t) unit) (term_bits t) (term_bit m t)
     else erts_new_bs_put_binary_all m st (Some t) unit = Some (0, m, st)) ∧
  (∀ iptr nb, 0 ≤ nb → erts_bin_offset st + 8 * nb + 8 < D_BASE → src_ok m iptr 0 (erts_current_bin st) (erts_bin_offset st) (8 * nb) →
     bin_ok scratch m (erts_current_bin st) (erts_bin_offset st + 8 * nb) →
     put_ok scratch m st ('(m', st') ← erts_new_bs_put_string m st iptr nb; Some (1, m', st')) (8 * nb) (λ k, bit m iptr 1 k)) ∧
  (∀ t n, 0 ≤ term_bits t < D_BASE → term_bits t < n → erts_new_bs_put_binary m st (Some t) n = Some (0, m, st)) ∧
  (∀ n unit, erts_new_bs_put_binary m st None n = Some (0, m, st) ∧ erts_new_bs_put_binary_all m st None unit = Some (0, m, st)) ∧
  (∀ n flags, n ≠ 0 → ∃ st', erts_new_bs_put_integer m st new_buf NIL n flags = Some (0, m, st') ∧
     erts_current_bin st' = erts_current_bin st ∧ erts_bin_offset st' = erts_bin_offset st) ∧
  (∀ t, (∀ c, t = Small c → is_char c = false) → erts_bs_put_utf8 m st tmp_buf t = Some (0, m, st)) ∧
  (∀ t flags, (∀ c, t = Small c → in_small c ∧ is_char c = false) → erts_bs_put_utf16 m st tmp_buf t flags = Some (0, m, st)).
Proof.
  intros B ST. split; [intros; by apply erts_new_bs_put_binary_all_spec|]. split; [intros; by apply erts_new_bs_put_string_spec|].
  split; [intros; by apply erts_new_bs_put_binary_error|]. split; [done|]. split; [intros; by apply erts_new_bs_put_integer_error|].
  split; intros; [by apply erts_bs_put_utf8_error|by apply erts_bs_put_utf16_error].
Qed.
End Properties.

(** ** Instances *)
Module Instances.
#[local] Instance dw64 : DigitWidth := {| H_EXP := 32; H_EXP_cases := or_intror eq_refl |}.

(** 256 bytes of memory. *)
Definition wm : memory := gset_to_gmap 85 (list_to_set (seqZ 0 256)).

Lemma wm_lookup a : 0 ≤ a < 256 → wm !! a = Some 85.
Proof. intros H. apply lookup_gset_to_gmap_Some. split; [|done]. apply elem_of_list_to_set, elem_of_seqZ. lia. Qed.
Lemma wm_mapped a : 0 ≤ a < 256 → is_Some (wm !! a).
Proof. intros H. rewrite wm_lookup by done. eauto. Qed.
Lemma wm_bytes : bytes_mem wm.
Proof. intros a b H. apply lookup_gset_to_gmap_Some in H as [_ <-]. unfold is_byte. lia. Qed.

(** Temporary buffers from 100 on, the binary at 0. *)
Definition wscratch (a : Z) : Prop := 100 ≤ a < 200.
Lemma w_scratch p n : 100 ≤ p → p + n ≤ 200 → is_scratch wscratch wm p n.
Proof. intros H1 H2 i Hi. split; [unfold wscratch; lia|apply wm_mapped; lia]. Qed.
Lemma w_field off n : 0 ≤ off → off + n ≤ 800 → ∀ k, off ≤ k < off + n → is_Some (wm !! (0 + k / 8)) ∧ ¬ wscratch (0 + k / 8).
Proof. intros H1 H2 k Hk. split; [apply wm_mapped; lia|unfold wscratch; lia]. Qed.
Lemma w_base : D_BASE = 18446744073709551616.
Proof. reflexivity. Qed.

Definition wbufs : buffers := Buffers 100 116 120 184 (RealBin 0 0).
Definition wst : erl_bits_state := BitsState 108 4 0 3.
Definition wmb : ErlBinMatchBuffer := MatchBuffer (RealBin 0 10) 0 3 80.
Definition wsegs : list segment := [SegInt (Small (-5)) 12 4; SegUtf8 955; SegBin (Real (RealBin 50 2)) 9; SegInt (Small 70000) 20 2].

Lemma wst_ok : st_ok wscratch wm wst.
Proof. split; [apply w_scratch; cbn; lia|cbn; lia]. Qed.
Lemma wmb_ok : mb_ok wscratch wm wmb.
Proof. split; [cbn; lia|]. split; [rewrite w_base; cbn; lia|]. intros k Hk. apply (w_field 3 77); [lia|lia|exact Hk]. Qed.
Lemma wbufs_ok : bufs_ok wbufs wscratch wm 64.
Proof. repeat (split; [apply w_scratch; cbn; lia|]). done. Qed.
Lemma wsegs_ok : Forall (seg_ok wscratch wm 0 80 64) wsegs.
Proof.
  assert (∀ z, -1000000 ≤ z ≤ 1000000 → in_small z) as Sm.
  { intros z Hz. unfold in_small. change MIN_SMALL with (-576460752303423488). change MAX_SMALL with 576460752303423487. lia. }
  unfold wsegs. apply Forall_cons; split; [|apply Forall_cons; split; [|apply Forall_cons; split; [|apply Forall_cons; split; [|constructor]]]].
  - split; [split; [reflexivity|apply Sm; cbn; lia]|lia].
  - reflexivity.
  - split; [cbn; lia|]. split; [rewrite w_base; cbn; lia|]. split; [cbn; lia|]. cbn. intros k Hk. split; [apply wm_mapped; lia|]. split; [unfold wscratch; lia|lia].
  - split; [split; [reflexivity|apply Sm; cbn; lia]|lia].
Qed.

Lemma bit_syntax_roundtrip_witness :
  ∃ m1 st1 m2 vs, build wbufs wm wst wsegs = Some (1, m1, st1) ∧ erts_bin_offset st1 = 3 + total wsegs ∧
    (∀ k, 0 ≤ k < 3 → bit m1 0 1 k = bit wm 0 1 k) ∧
    get_all wbufs m1 (MatchBuffer (RealBin 0 ((80 + 7) / 8)) 0 3 80) wsegs = Some (m2, MatchBuffer (RealBin 0 ((80 + 7) / 8)) 0 (erts_bin_offset st1) 80, Some vs) ∧
    Forall2 (seg_matches wm m2) wsegs vs.
Proof.
  apply (bit_syntax_roundtrip wscratch wbufs wm wst 80 64 wsegs); [exact wm_bytes|exact wst_ok|exact wbufs_ok|unfold INT_MAX; lia|rewrite w_base; lia| |exact wsegs_ok|cbn; lia].
  intros k Hk. apply (w_field 0 80); lia.
Defined.

Lemma erts_copy_bits_exact_witness :
  ∃ m', erts_copy_bits wm 10 5 1 30 3 (-1) 21 = Some m' ∧ bytes_mem m' ∧ field m' 30 (-1) 3 21 = field wm 10 1 5 21 ∧
    (∀ k, k < 3 ∨ 3 + 21 ≤ k → bit m' 30 (-1) k = bit wm 30 (-1) k) ∧ (∀ a, (∀ k, 3 ≤ k < 3 + 21 → a ≠ 30 + -1 * (k / 8)) → m' !! a = wm !! a).
Proof.
  apply (erts_copy_bits_exact wm 10 5 1 30 3 (-1) 21); [exact wm_bytes|lia|lia|lia|lia|rewrite w_base; lia|intros k Hk; apply wm_mapped; lia|intros k Hk; apply wm_mapped; lia|].
  intros j k Hj Hk. lia.
Defined.

Lemma erts_cmp_bits_lexicographic_witness :
  ∃ r, erts_cmp_bits wm 10 3 20 6 29 = Some r ∧ Z.sgn r = lex (field wm 10 1 3 29) (field wm 20 1 6 29) ∧ (r = 0 ↔ field wm 10 1 3 29 = field wm 20 1 6 29).
Proof.
  apply (erts_cmp_bits_lexicographic wm 10 3 20 6 29); [exact wm_bytes|lia|lia|lia|unfold INT_MAX; lia| |]; intros i Hi; change (cmp_aligned 3 6 29) with 0 in Hi; apply wm_mapped; lia.
Defined.

Lemma bs_get_utf_exact_witness : char_matched wscratch utf8_bytes wm wmb (erts_bs_get_utf8 wm 116 wmb) ∧ char_matched wscratch (utf16_bytes true) wm wmb (erts_bs_get_utf16 wm 116 2 wmb).
Proof.
  destruct (bs_get_utf_exact wscratch wm 116 2 wmb) as (H1 & H2 & _); [exact wm_bytes|exact wmb_ok|apply w_scratch; lia|]. split; [exact H1|exact H2].
Defined.

Lemma bs_get_well_typed_witness :
  ∃ m' t z, erts_bs_get_integer_2 wm 120 184 30 2 wmb = Some (m', mb_advance wmb 30, Some t) ∧ only_scratch wscratch wm m' ∧ mb_ok wscratch m' (mb_advance wmb 30) ∧
    result t z ∧ int_range (signed_field 2) 30 z.
Proof.
  destruct (bs_get_well_typed wscratch wm wmb (RealBin 0 0) 120 184 30 2) as [[H _] _]; [exact wm_bytes|exact wmb_ok|reflexivity|reflexivity|lia|apply w_scratch; lia|apply w_scratch; lia|].
  exact H.
Defined.

Lemma bs_put_outcomes_witness : erts_new_bs_put_binary wm wst (Some (Real (RealBin 50 2))) 17 = Some (0, wm, wst) ∧ erts_bs_put_utf8 wm wst 116 (Small 55300) = Some (0, wm, wst).
Proof.
  destruct (bs_put_outcomes wscratch wm wst 100 116 wm_bytes wst_ok) as (_ & _ & H1 & _ & _ & H2 & _). split.
  - apply H1; [rewrite w_base; cbn; lia|cbn; lia].
  - apply H2. intros c [= <-]. reflexivity.
Defined.
End Instances.
