(* ===== verification/Atoms.v ===== *)
(** The atom table of the emulator: [erts/emulator/beam/atom.c], [atom.h], and the order of atoms in [utils.c].

    An atom is an object of an index table, and the text of its name lies in segments that are filled from the front.  A pointer to an atom
    is the address of the structure with the fields that never change (the text and [ord0]); the pointer [name], which
    [init_atom_table] redirects, is a component of the state, like the [index] field.  What [erts_alloc] returns is an argument of the operations.

    [am_atom_put] looks a name up under a read lock and puts it under a write lock: other threads may run in between.  The
    two critical sections are two steps of a transition system, and the properties hold for every interleaving. *)

From Stdlib Require Import ZArith ZifyBool.
From stdpp Require Import base list numbers option gmap sorting.
From S2P Require Import Prelude Hash HashSpec Index Big AllocMem.
Local Open Scope Z_scope.

Definition MAX_ATOM_LENGTH : Z := 255.
Definition ATOM_LIMIT : Z := 1024 * 1024.
Definition ATOM_SIZE : Z := 3000.
Definition ATOM_TEXT_SIZE : Z := 32768.

(** A template has no [ord0]. *)
Record Atom := MkAtom { a_addr : Z; a_text : list Z; a_ord0 : Z }.
#[export] Instance Atom_eq_dec : EqDecision Atom.
Proof. solve_decision. Defined.

Definition a_len (a : Atom) : Z := zlen (a_text a).
Definition template (name : list Z) : Atom := MkAtom 0 name 0.

(** [memcmp(3)] on [n] bytes. *)
Fixpoint text_memcmp (s1 s2 : list Z) (n : nat) : Z :=
  match n, s1, s2 with
  | S n', x :: s1', y :: s2' => if x =? y then text_memcmp s1' s2' n' else if x <? y then -1 else 1
  | _, _, _ => 0
  end.

Section Atoms.
Context {dw : DigitWidth}.

(** ** Callbacks of the hash table *)

(** [while (len--) { h = (h << 4) + *p++; if ((g = h & 0xf0000000)) { h ^= (g >> 24); h ^= g; } }] *)
Fixpoint hashpjw (h : Z) (p : list Z) : Z :=
  match p with
  | [] => h
  | c :: p' =>
      let h := dig (dig (Z.shiftl h 4) + c) in
      let g := Z.land h 4026531840 in
      hashpjw (if negb (g =? 0) then Z.lxor (Z.lxor h (Z.shiftr g 24)) g else h) p'
  end.
Definition atom_hash (obj : Atom) : Z := hashpjw 0 (a_text obj).

Definition atom_cmp (tmpl obj : Atom) : Z :=
  if (a_len tmpl =? a_len obj) && (text_memcmp (a_text tmpl) (a_text obj) (Z.to_nat (a_len tmpl)) =? 0) then 0 else 1.

#[export] Instance atom_functions : HashFunctions Atom := {| hf_hash := atom_hash; hf_cmp := atom_cmp |}.

(** ** The state *)
Record atom_state := AtomState {
  erts_atom_table : IndexTable Atom;
  name_field : Atom → Z;
  text_mem : memory;
  text_list : list Z;
  atom_text_pos : Z; atom_text_end : Z;
  reserved_atom_space : Z; atom_space : Z }.
Implicit Types (st : atom_state) (tmpl : Atom) (name : list Z).

Definition set_table st (t : IndexTable Atom) : atom_state :=
  AtomState t (name_field st) (text_mem st) (text_list st) (atom_text_pos st) (atom_text_end st) (reserved_atom_space st) (atom_space st).
(** [p->name = q] *)
Definition set_name st (p : Atom) (q : Z) : atom_state :=
  AtomState (erts_atom_table st) (λ o, if decide (o = p) then q else name_field st o) (text_mem st) (text_list st) (atom_text_pos st)
    (atom_text_end st) (reserved_atom_space st) (atom_space st).

(** [sizeof(AtomText)]: a pointer and the text. *)
Definition sizeof_AtomText : Z := D_EXP / 8 + ATOM_TEXT_SIZE.

(** [seg] is the address of [ptr->text]. *)
Definition more_atom_space st (seg : Z) : atom_state :=
  AtomState (erts_atom_table st) (name_field st) (text_mem st) (seg :: text_list st) seg (seg + ATOM_TEXT_SIZE)
    (dig (reserved_atom_space st + sizeof_AtomText)) (atom_space st).

Definition atom_text_alloc st (seg bytes : Z) : Z * atom_state :=
  let st := if atom_text_pos st + bytes >=? atom_text_end st then more_atom_space st seg else st in
  (atom_text_pos st,
   AtomState (erts_atom_table st) (name_field st) (text_mem st) (text_list st) (atom_text_pos st + bytes) (atom_text_end st)
     (reserved_atom_space st) (dig (atom_space st + bytes))).

(** The first four bytes of the name, padded with zeros. *)
Definition ord0_byte name (i : nat) : Z := default 0 (name !! i).
Definition atom_ord0 name : Z :=
  Z.shiftl (ord0_byte name 0) 23 + Z.shiftl (ord0_byte name 1) 15 + Z.shiftl (ord0_byte name 2) 7 + Z.shiftr (ord0_byte name 3) 1.

(** The new object is at [addr]; the text goes to the segment, or to the new segment [seg]. *)
Definition atom_alloc st (addr seg : Z) tmpl : Atom * atom_state :=
  let obj := MkAtom addr (a_text tmpl) (atom_ord0 (a_text tmpl)) in
  let '(p, st) := atom_text_alloc st seg (a_len tmpl) in
  let st := set_name st obj p in
  let st := AtomState (set_field (erts_atom_table st) obj (-1)) (name_field st) (put_bytes (text_mem st) p (a_text tmpl)) (text_list st)
              (atom_text_pos st) (atom_text_end st) (reserved_atom_space st) (atom_space st) in
  (obj, st).

(** [index_put(&erts_atom_table, tmpl)]: the callback runs if the name is not there. *)
Definition atom_index_put st (addr seg : Z) tmpl : option (Z * atom_state) :=
  found ← hash_get (t_htable (erts_atom_table st)) tmpl;
  match found with
  | Some _ => '(ix, t) ← index_put (erts_atom_table st) tmpl tmpl; Some (ix, set_table st t)
  | None =>
      let '(obj, st) := atom_alloc st addr seg tmpl in
      '(ix, t) ← index_put (erts_atom_table st) tmpl obj; Some (ix, set_table st t)
  end.

(** ** Terms *)
Definition TAG_IMMED2_SIZE : Z := 6.
Definition TAG_IMMED2_MASK : Z := 63.
Definition TAG_IMMED2_ATOM : Z := 11.
Definition make_atom (x : Z) : Z := dig (Z.shiftl x TAG_IMMED2_SIZE + TAG_IMMED2_ATOM).
Definition is_atom (x : Z) : bool := Z.land x TAG_IMMED2_MASK =? TAG_IMMED2_ATOM.
Definition atom_val (x : Z) : Z := Z.shiftr x TAG_IMMED2_SIZE.

(** ** Operations *)

(** [if (len > MAX_ATOM_LENGTH) len = MAX_ATOM_LENGTH] *)
Definition atom_cut name : list Z := take (Z.to_nat MAX_ATOM_LENGTH) name.

(** The section under the read lock; [None] inside: not found. *)
Definition am_atom_put_get st name : option (option Z) :=
  aix ← index_get (erts_atom_table st) (template (atom_cut name));
  Some (if aix >=? 0 then Some (make_atom aix) else None).

(** The section under the write lock. *)
Definition am_atom_put_put st (addr seg : Z) name : option (Z * atom_state) :=
  '(ix, st) ← atom_index_put st addr seg (template (atom_cut name)); Some (make_atom ix, st).

(** Both, one after the other. *)
Definition am_atom_put st (addr seg : Z) name : option (Z * atom_state) :=
  ret ← am_atom_put_get st name;
  match ret with Some ret => Some (ret, st) | None => am_atom_put_put st addr seg name end.

(** The result is [*ap], if any. *)
Definition erts_atom_get st name : option (option Z) :=
  i ← index_get (erts_atom_table st) (template name); Some (if i <? 0 then None else Some (make_atom i)).

Definition atom_tab st (i : Z) : option Atom := erts_index_lookup (erts_atom_table st) i.
Definition atom_table_size st : Z := t_entries (erts_atom_table st).
Definition erts_atom_get_text_space_sizes st : Z * Z := (reserved_atom_space st, atom_space st).

(** 1 or 0; the term is an atom of the table. *)
Definition erts_is_atom_bytes st (text : list Z) (term : Z) : option bool :=
  if negb (is_atom term) then Some false
  else
    a ← atom_tab st (atom_val term);
    Some ((zlen text =? a_len a) && (text_memcmp (a_text a) text (length text) =? 0)).

(** The loop over [erl_atom_names], pairs of an address and the text there; [addrs] are the blocks for the atoms. *)
Fixpoint init_names st (names : list (Z * list Z)) (addrs : nat → Z) (i : nat) (seg : Z) : option atom_state :=
  match names with
  | [] => Some st
  | (p, text) :: names' =>
      '(ix, st) ← atom_index_put st (addrs i) seg (template text);
      let st := AtomState (erts_atom_table st) (name_field st) (text_mem st) (text_list st) (atom_text_pos st - zlen text) (atom_text_end st)
                  (reserved_atom_space st) (dig (atom_space st - zlen text)) in
      a ← atom_tab st ix;
      init_names (set_name st a p) names' addrs (S i) seg
  end.

Definition init_atom_table (erl_atom_names : list (Z * list Z)) (addrs : nat → Z) (seg : Z) (mem : memory) (table_name : list Z) (f : Atom → Z)
    : option atom_state :=
  t ← erts_index_init table_name ATOM_SIZE ATOM_LIMIT f;
  let st := more_atom_space (AtomState t (λ _, 0) mem [] 0 0 0 0) seg in
  init_names st erl_atom_names addrs 0 seg.

(** ** The order of atoms *)

(** [while((i < l1) && (i < l2)) { if (s1[i] < s2[i]) return(-1); if (s1[i] > s2[i]) return(1); i++; }] *)
Fixpoint cmpbytes_loop (n : nat) (s1 s2 : list Z) : option Z :=
  match n, s1, s2 with
  | S n', x :: s1', y :: s2' => if x <? y then Some (-1) else if x >? y then Some 1 else cmpbytes_loop n' s1' s2'
  | _, _, _ => None
  end.

Definition cmpbytes (s1 : list Z) (l1 : Z) (s2 : list Z) (l2 : Z) : Z :=
  match cmpbytes_loop (Z.to_nat (Z.min l1 l2)) s1 s2 with
  | Some r => r
  | None => if l1 <? l2 then -1 else if l1 >? l2 then 1 else 0
  end.

Definition cmp_atoms st (a b : Z) : option Z :=
  aa ← atom_tab st (atom_val a);
  bb ← atom_tab st (atom_val b);
  let diff := int32 (a_ord0 aa - a_ord0 bb) in
  if negb (diff =? 0) then Some diff
  else Some (cmpbytes (drop 3 (a_text aa)) (a_len aa - 3) (drop 3 (a_text bb)) (a_len bb - 3)).

(** * Interleavings *)

(** A thread is in the middle of [am_atom_put]: it has not found this name. *)
Record system := Sys { sys_atoms : atom_state; sys_pending : gmap nat (list Z) }.

Inductive event :=
| Put (tid : nat) (name : list Z)               (* am_atom_put, up to the read unlock *)
| Resume (tid : nat) (addr seg : Z)             (* the write-locked part of it *)
| Lookup (name : list Z).                       (* erts_atom_get *)

(** The atom returned, if any. *)
Definition atom_step (s : system) (e : event) : option (option Z * system) :=
  match e with
  | Put tid name =>
      r ← am_atom_put_get (sys_atoms s) name;
      Some (r, match r with Some _ => s | None => Sys (sys_atoms s) (<[tid := name]> (sys_pending s)) end)
  | Resume tid addr seg =>
      name ← sys_pending s !! tid;
      '(ret, st) ← am_atom_put_put (sys_atoms s) addr seg name;
      Some (Some ret, Sys st (delete tid (sys_pending s)))
  | Lookup name => r ← erts_atom_get (sys_atoms s) name; Some (r, s)
  end.
End Atoms.

(** * Specification *)

Lemma text_memcmp_eq s1 : ∀ s2 n, length s1 = n → length s2 = n → text_memcmp s1 s2 n = 0 ↔ s1 = s2.
Proof.
  induction s1 as [|x s1 IH]; intros [|y s2] n H1 H2; cbn in *; subst n; try done. cbn.
  destruct (Z.eqb_spec x y) as [->|Hne]; [|split; [by destruct (x <? y)|congruence]]. rewrite IH by lia. split; congruence.
Qed.

Section Laws.
Context {dw : DigitWidth}.

Lemma dig_pos z : 0 ≤ dig z.
Proof. apply Z.mod_pos_bound. unfold D_BASE, D_EXP. destruct H_EXP_cases as [-> | ->]; done. Qed.

Lemma hashpjw_pos p : ∀ h, 0 ≤ h → 0 ≤ hashpjw h p.
Proof.
  induction p as [|c p IH]; intros h Hh; [done|]. cbn [hashpjw]. apply IH. pose proof (dig_pos (dig (Z.shiftl h 4) + c)).
  case_match; [|done]. assert (0 ≤ Z.land (dig (dig (Z.shiftl h 4) + c)) 4026531840) by (apply Z.land_nonneg; lia).
  apply Z.lxor_nonneg. split; [intros _; done|intros _]. apply Z.lxor_nonneg. split; [intros _; by apply Z.shiftr_nonneg|done].
Qed.

(** The callbacks look at the text only. *)
#[export, program] Instance atom_laws : HashLaws Atom (list Z) := {| okey := a_text |}.
Next Obligation.
  intros a b. cbn. unfold atom_cmp, a_len. rewrite Nat2Z.id. split.
  - destruct (Z.eqb_spec (zlen (a_text a)) (zlen (a_text b))); cbn [andb]; [|done].
    case_match eqn:E; [|done]. intros _. apply Z.eqb_eq in E. apply text_memcmp_eq in E; [done|done|lia].
  - intros E. rewrite E, Z.eqb_refl. cbn [andb]. by rewrite (proj2 (text_memcmp_eq (a_text b) (a_text b) _ eq_refl eq_refl)).
Qed.
Next Obligation. intros a b E. cbn in *. unfold atom_hash. by rewrite E. Qed.
Next Obligation. intros a. by apply hashpjw_pos. Qed.
End Laws.

(** ** The abstract table: a list of names *)
Definition index_of (ns : list (list Z)) (n : list Z) : option nat := fst <$> list_find (λ x, x = n) ns.

Lemma index_of_Some ns n i : index_of ns n = Some i → ns !! i = Some n.
Proof. unfold index_of. intros ([j x] & (H1 & -> & _)%list_find_Some & ->)%fmap_Some. done. Qed.
Lemma index_of_None ns n : index_of ns n = None ↔ n ∉ ns.
Proof.
  unfold index_of. rewrite fmap_None. split.
  - intros H%list_find_None Hin. rewrite Forall_forall in H. by apply (H n).
  - intros H. apply list_find_None, Forall_forall. by intros x Hx ->.
Qed.
Lemma index_of_lookup ns n i : NoDup ns → ns !! i = Some n → index_of ns n = Some i.
Proof.
  intros Hd Hi. destruct (index_of ns n) as [j|] eqn:E.
  - apply index_of_Some in E. f_equal. by eapply NoDup_lookup.
  - apply index_of_None in E. destruct E. by eapply list_elem_of_lookup_2.
Qed.

Section Spec.
Context {dw : DigitWidth}.
Implicit Types (st : atom_state) (s : system) (name : list Z) (ns : list (list Z)) (os : list Atom).

Definition names_step (a : list (list Z) * gmap nat (list Z)) (e : event) : option Z * (list (list Z) * gmap nat (list Z)) :=
  let '(ns, pending) := a in
  match e with
  | Put tid name =>
      match index_of ns (atom_cut name) with
      | Some i => (Some (make_atom (Z.of_nat i)), (ns, pending))
      | None => (None, (ns, <[tid := name]> pending))
      end
  | Resume tid _ _ =>
      match pending !! tid with
      | None => (None, (ns, pending))
      | Some name =>
          match index_of ns (atom_cut name) with
          | Some i => (Some (make_atom (Z.of_nat i)), (ns, delete tid pending))
          | None => (Some (make_atom (zlen ns)), (ns ++ [atom_cut name], delete tid pending))
          end
      end
  | Lookup name => ((λ i, make_atom (Z.of_nat i)) <$> index_of ns name, (ns, pending))
  end.

Fixpoint names_run (a : list (list Z) * gmap nat (list Z)) (es : list event) : list (option Z) * (list (list Z) * gmap nat (list Z)) :=
  match es with
  | [] => ([], a)
  | e :: es' => let '(r, a') := names_step a e in let '(rs, a'') := names_run a' es' in (r :: rs, a'')
  end.

(** ** The invariant *)

(** The text of an atom is in memory, outside of the free part of the segment. *)
Record atom_ok st (o : Atom) : Prop := {
  ok_ord0 : a_ord0 o = atom_ord0 (a_text o);
  ok_text : mem_bytes (text_mem st) (name_field st o) (a_len o) = Some (a_text o);
  ok_place : ∀ x, name_field st o ≤ x < name_field st o + a_len o → ¬ (atom_text_pos st ≤ x < atom_text_end st) }.

Record atoms_ok st os : Prop := {
  ao_listed : listed (erts_atom_table st) os;
  ao_limit : t_limit (erts_atom_table st) = ATOM_LIMIT;
  ao_short : Forall (λ o, a_len o ≤ MAX_ATOM_LENGTH) os;
  ao_objs : Forall (atom_ok st) os }.

(** A new segment does not overlap a name in use. *)
Definition seg_fresh st (seg : Z) : Prop :=
  ∀ o x, o ∈ objs (t_htable (erts_atom_table st)) → name_field st o ≤ x < name_field st o + a_len o → ¬ (seg ≤ x < seg + ATOM_TEXT_SIZE).

Lemma texts_key os : okey <$> os = a_text <$> os.
Proof. done. Qed.

(** Where the next text goes, and the state of the segment afterwards. *)
Definition text_place st (seg len : Z) : Z := if atom_text_pos st + len >=? atom_text_end st then seg else atom_text_pos st.

Lemma atom_alloc_eq st addr seg tmpl obj st' : atom_alloc st addr seg tmpl = (obj, st') →
  obj = MkAtom addr (a_text tmpl) (atom_ord0 (a_text tmpl)) ∧
  erts_atom_table st' = set_field (erts_atom_table st) obj (-1) ∧
  text_mem st' = put_bytes (text_mem st) (text_place st seg (a_len tmpl)) (a_text tmpl) ∧
  atom_text_pos st' = text_place st seg (a_len tmpl) + a_len tmpl ∧
  (atom_text_end st' = if atom_text_pos st + a_len tmpl >=? atom_text_end st then seg + ATOM_TEXT_SIZE else atom_text_end st) ∧
  name_field st' obj = text_place st seg (a_len tmpl) ∧ (∀ o, o ≠ obj → name_field st' o = name_field st o) ∧
  atom_space st' = dig (atom_space st + a_len tmpl).
Proof.
  unfold atom_alloc, atom_text_alloc, text_place, more_atom_space, set_name. intros E. destruct (_ >=? _); cbn in E; injection E as <- <-; cbn;
    repeat split; try by rewrite decide_True. all: intros o Ho; by rewrite decide_False.
Qed.

(** An atom whose text is not overwritten stays well formed. *)
Lemma atom_ok_kept st st' o : atom_ok st o → name_field st' o = name_field st o →
  (∀ x, name_field st o ≤ x < name_field st o + a_len o → text_mem st' !! x = text_mem st !! x ∧ ¬ (atom_text_pos st' ≤ x < atom_text_end st')) →
  atom_ok st' o.
Proof.
  intros [H1 H2 H3] Hf Hx. split; [done| |].
  - rewrite Hf, <- H2. apply mem_bytes_ext. intros x Hr. by apply Hx.
  - rewrite Hf. intros x Hr. by apply Hx.
Qed.

Lemma put_bytes_own m a l : mem_bytes (put_bytes m a l) a (zlen l) = Some l.
Proof.
  apply mem_bytes_spec; [lia|]. split; [done|]. intros i Hi. rewrite put_bytes_lookup, bool_decide_eq_true_2 by lia. f_equal. lia.
Qed.

Lemma atom_index_put_new st os addr seg name : atoms_ok st os → zlen name ≤ MAX_ATOM_LENGTH → name ∉ a_text <$> os → seg_fresh st seg →
  zlen os < ATOM_LIMIT →
  ∃ st' obj, atom_index_put st addr seg (template name) = Some (zlen os, st') ∧ atoms_ok st' (os ++ [obj]) ∧ a_text obj = name ∧ obj ∉ os ∧
    (∀ o, o ∈ os → name_field st' o = name_field st o) ∧
    text_mem st' = put_bytes (text_mem st) (text_place st seg (zlen name)) name ∧
    atom_text_pos st' = text_place st seg (zlen name) + zlen name ∧
    (atom_text_end st' = if atom_text_pos st + zlen name >=? atom_text_end st then seg + ATOM_TEXT_SIZE else atom_text_end st) ∧
    atom_space st' = dig (atom_space st + zlen name).
Proof.
  intros [L Hlim Hs Ho] Hlen Hn Hfresh Hroom. unfold atom_index_put. rewrite hash_get_spec by apply L.
  change (okey (template name)) with name. rewrite (proj2 (listed_map_None _ _ _ L) Hn). cbn [mbind option_bind].
  destruct (atom_alloc st addr seg (template name)) as [obj st1] eqn:Ea. apply atom_alloc_eq in Ea as (Eo & Et & Em & Ep & Ee & En & Ek & Es).
  cbn [a_text template] in *. change (a_len (template name)) with (zlen name) in *.
  assert (obj ∉ os) as Hnew. { intros Hin. destruct Hn. apply list_elem_of_fmap. exists obj. by subst obj. }
  pose proof (listed_set_field _ _ obj (-1) L Hnew) as L1. rewrite <- Et in L1.
  destruct (proj2 (listed_put _ _ (template name) obj L1 ltac:(by subst obj)) Hn) as (t' & -> & L2 & Hl2 & _).
  { rewrite Et. cbn. unfold set_index. by rewrite decide_True. }
  { rewrite Et. cbn. by rewrite Hlim. }
  cbn [mbind option_bind]. exists (set_table st1 t'), obj. split; [done|].
  assert (∀ o x, o ∈ os → name_field st o ≤ x < name_field st o + a_len o → ¬ (text_place st seg (zlen name) ≤ x < atom_text_end st1)) as Hap.
  { intros o x Hin Hx. rewrite Ee. unfold text_place. destruct (_ >=? _); [apply (Hfresh o); [by apply (listed_in _ os)|done]|].
    by apply (ok_place st o); [eapply Forall_forall|]. }
  assert (text_place st seg (zlen name) + zlen name ≤ atom_text_end st1) as Hend.
  { rewrite Ee. unfold text_place, ATOM_TEXT_SIZE, MAX_ATOM_LENGTH in *. destruct (Z.geb_spec (atom_text_pos st + zlen name) (atom_text_end st)); lia. }
  split; [split|].
  - done.
  - cbn. rewrite Hl2, Et. done.
  - apply Forall_app. split; [done|]. constructor; [|done]. subst obj. done.
  - apply Forall_app. split.
    + apply Forall_forall. intros o Hin. apply (atom_ok_kept st); [by eapply Forall_forall|cbn; apply Ek; by intros ->|].
      intros x Hx. cbn. pose proof (Hap o x Hin Hx). rewrite Em, Ep, put_bytes_lookup, bool_decide_eq_false_2 by lia. split; [done|lia].
    + constructor; [|done]. split; cbn [text_mem name_field set_table atom_text_pos atom_text_end]; [by subst obj| |].
      * rewrite En, Em. replace (a_len obj) with (zlen name) by (by subst obj). replace (a_text obj) with name by (by subst obj). apply put_bytes_own.
      * rewrite En, Ep. replace (a_len obj) with (zlen name) by (by subst obj). lia.
  - split; [by subst obj|]. split; [done|]. split; [intros o Hin; cbn; apply Ek; by intros ->|]. done.
Qed.

Lemma atom_index_put_old st os addr seg name i : atoms_ok st os → a_text <$> os !! i = Some name →
  atom_index_put st addr seg (template name) = Some (Z.of_nat i, st).
Proof.
  intros [L Hlim Hs Ho] (o & Hi & Ht)%fmap_Some. unfold atom_index_put. rewrite hash_get_spec by apply L.
  assert (table_map (t_htable (erts_atom_table st)) !! okey (template name) = Some o) as ->.
  { apply (listed_map _ os); [done|]. split; [by eapply list_elem_of_lookup_2|done]. }
  cbn [mbind option_bind]. rewrite (proj1 (listed_put _ _ (template name) (template name) L eq_refl) i o Hi (eq_sym Ht)).
  cbn [mbind option_bind]. do 2 f_equal. by destruct st.
Qed.
(** ** Steps *)
Definition texts os : list (list Z) := a_text <$> os.

Lemma texts_nodup st os : atoms_ok st os → NoDup (texts os).
Proof. intros H. apply (listed_nodup _ _ (ao_listed _ _ H)). Qed.

(** [index_get] on a name. *)
Lemma atom_index_get st os name : atoms_ok st os →
  index_get (erts_atom_table st) (template name) = Some (match index_of (texts os) name with Some i => Z.of_nat i | None => -1 end).
Proof.
  intros [L _ _ _]. destruct (listed_get _ _ (template name) L) as [G1 G2]. destruct (index_of (texts os) name) as [i|] eqn:E.
  - apply index_of_Some in E. apply list_lookup_fmap_Some in E as (o & -> & Hi). by apply (G1 i o).
  - apply index_of_None in E. by apply G2.
Qed.

Lemma atom_cut_short name : zlen (atom_cut name) ≤ MAX_ATOM_LENGTH.
Proof. unfold atom_cut, MAX_ATOM_LENGTH. rewrite length_take. lia. Qed.

Lemma atom_index_put_full st os addr seg name r : atoms_ok st os → name ∉ texts os → atom_index_put st addr seg (template name) = Some r →
  zlen os < ATOM_LIMIT.
Proof.
  intros [L Hlim _ _] Hn. unfold atom_index_put. rewrite hash_get_spec by apply L.
  change (okey (template name)) with name. rewrite (proj2 (listed_map_None _ _ _ L) Hn). cbn [mbind option_bind].
  destruct (atom_alloc st addr seg (template name)) as [obj st1] eqn:Ea. apply atom_alloc_eq in Ea as (Eo & Et & _).
  assert (obj ∉ os) as Hnew. { intros Hin. destruct Hn. apply list_elem_of_fmap. exists obj. by subst obj. }
  pose proof (listed_set_field _ _ obj (-1) L Hnew) as L1. rewrite <- Et in L1. intros E.
  destruct (index_put (erts_atom_table st1) (template name) obj) as [[ix t']|] eqn:Ei; [|done].
  assert (t_limit (erts_atom_table st1) = ATOM_LIMIT) as Hl by (rewrite Et; done). rewrite <- Hl.
  apply (listed_room _ _ (template name) obj (ix, t') L1); [by subst obj| |done| |done].
  - rewrite Et. cbn. unfold set_index. by rewrite decide_True.
  - by rewrite Hl.
Qed.

(** What a caller and the allocator guarantee: one call per thread at a time; a new segment is not in use. *)
Definition event_ok s (e : event) : Prop :=
  match e with
  | Put tid _ => sys_pending s !! tid = None
  | Resume tid _ seg => is_Some (sys_pending s !! tid) ∧ seg_fresh (sys_atoms s) seg
  | Lookup _ => True
  end.

(** A step succeeds unless the table is full; what it returns and does is what the abstract step does. *)
Lemma atom_step_spec s os e : atoms_ok (sys_atoms s) os → event_ok s e → zlen os < ATOM_LIMIT ∨ is_Some (atom_step s e) →
  ∃ r s' new, atom_step s e = Some (r, s') ∧ atoms_ok (sys_atoms s') (os ++ new) ∧
    names_step (texts os, sys_pending s) e = (r, (texts (os ++ new), sys_pending s')).
Proof.
  intros Hok He Hroom. destruct e as [tid name|tid addr seg|name]; cbn [atom_step names_step].
  - unfold am_atom_put_get. rewrite (atom_index_get _ os) by done. cbn [mbind option_bind].
    destruct (index_of (texts os) (atom_cut name)) as [i|]; cbn [mbind option_bind].
    + replace (Z.of_nat i >=? 0) with true by lia. exists (Some (make_atom (Z.of_nat i))), s, []. by rewrite app_nil_r.
    + eexists _, _, []. rewrite app_nil_r. done.
  - destruct He as [[name Hname] Hfresh]. rewrite Hname. cbn [mbind option_bind]. unfold am_atom_put_put.
    destruct (index_of (texts os) (atom_cut name)) as [i|] eqn:E.
    + apply index_of_Some in E. unfold texts in E. rewrite list_lookup_fmap in E. rewrite (atom_index_put_old _ os _ _ _ i) by done.
      cbn [mbind option_bind]. eexists _, _, []. rewrite app_nil_r. done.
    + apply index_of_None in E. assert (zlen os < ATOM_LIMIT) as Hlt.
      { destruct Hroom as [|[r Hr]]; [done|]. cbn [atom_step] in Hr. rewrite Hname in Hr. cbn [mbind option_bind] in Hr. unfold am_atom_put_put in Hr.
        destruct (atom_index_put _ addr seg _) as [r'|] eqn:Ep; [|done]. by eapply atom_index_put_full. }
      destruct (atom_index_put_new _ os addr seg (atom_cut name) Hok (atom_cut_short name) E Hfresh Hlt) as (st' & obj & -> & Hok' & Ht & _).
      cbn [mbind option_bind]. eexists _, _, [obj]. split; [done|]. split; [done|]. unfold texts. rewrite fmap_app, length_fmap. cbn. by rewrite Ht.
  - unfold erts_atom_get. rewrite (atom_index_get _ os) by done. cbn [mbind option_bind].
    destruct (index_of (texts os) name) as [i|]; cbn [fmap option_fmap option_map mbind option_bind].
    + replace (Z.of_nat i <? 0) with false by lia. eexists _, _, []. rewrite app_nil_r. done.
    + eexists _, _, []. rewrite app_nil_r. done.
Qed.

(** Runs of the system with what each event returned. *)
Inductive trace : system → list (event * option Z) → system → Prop :=
| trace_nil s : trace s [] s
| trace_cons s e r s1 tr s2 : event_ok s e → atom_step s e = Some (r, s1) → trace s1 tr s2 → trace s ((e, r) :: tr) s2.

Lemma trace_spec s tr s' : trace s tr s' → ∀ os, atoms_ok (sys_atoms s) os →
  ∃ new, atoms_ok (sys_atoms s') (os ++ new) ∧
    names_run (texts os, sys_pending s) tr.*1 = (tr.*2, (texts (os ++ new), sys_pending s')).
Proof.
  induction 1 as [s|s e r s1 tr s2 He Hs _ IH]; intros os Hok; [exists []; by rewrite app_nil_r|].
  destruct (atom_step_spec s os e Hok He) as (r' & s1' & new & Es & Hok1 & En); [right; by eexists|].
  rewrite Hs in Es. injection Es as <- <-. destruct (IH _ Hok1) as (new' & Hok2 & Er). rewrite <- app_assoc in Hok2, Er.
  exists (new ++ new'). split; [done|]. cbn [names_run fmap list_fmap fst]. rewrite En, Er. done.
Qed.

(** ** Initialisation *)
Section Init.
Context (addrs : nat → Z) (seg : Z) (mem : memory).

(** A predefined name lies in memory, outside of the text segment. *)
Definition static_ok (n : Z * list Z) : Prop :=
  zlen n.2 ≤ MAX_ATOM_LENGTH ∧ mem_bytes mem n.1 (zlen n.2) = Some n.2 ∧
  ∀ x, n.1 ≤ x < n.1 + zlen n.2 → ¬ (seg ≤ x < seg + ATOM_TEXT_SIZE).

(** The texts of predefined names are copied to the start of the segment, again and again. *)
Definition init_ok st os : Prop :=
  atoms_ok st os ∧ atom_text_pos st = seg ∧ atom_text_end st = seg + ATOM_TEXT_SIZE ∧ atom_space st = 0 ∧
  ∀ x, ¬ (seg ≤ x < seg + ATOM_TEXT_SIZE) → text_mem st !! x = mem !! x.

Lemma init_names_spec names : ∀ st os i, init_ok st os → Forall static_ok names → NoDup (texts os ++ names.*2) →
  zlen os + zlen names ≤ ATOM_LIMIT →
  ∃ st' os', init_names st names addrs i seg = Some st' ∧ init_ok st' os' ∧ texts os' = texts os ++ names.*2.
Proof.
  induction names as [|[p text] names IH]; intros st os i (Hok & Hp & He & Hsp & Hm) Hst Hnd Hlim; cbn [init_names].
  { exists st, os. cbn. by rewrite app_nil_r. }
  apply Forall_cons in Hst as [(Hlen & Hmem & Hout) Hst]. cbn [fst snd] in *. cbn [length] in Hlim.
  assert (text ∉ a_text <$> os) as Hn.
  { cbn in Hnd. apply NoDup_app in Hnd as (_ & Hd & _). intros Hin. apply (Hd text Hin). left. }
  destruct (atom_index_put_new st os (addrs i) seg text Hok Hlen Hn) as (st1 & obj & -> & Hok1 & Ht & Hobj & Hnf & Em & Ep & Ee & Es).
  { intros o x Hin Hx. rewrite <- Hp at 1. rewrite <- He. apply (ok_place st o); [|done]. eapply Forall_forall; [apply Hok|]. by apply (listed_in (erts_atom_table st) os _ (ao_listed _ _ Hok)). }
  { lia. }
  cbn [mbind option_bind].
  assert (text_place st seg (zlen text) = seg) as Epl. { unfold text_place. destruct (_ >=? _); [done|lia]. }
  rewrite Epl in Em, Ep. assert (atom_text_end st1 = seg + ATOM_TEXT_SIZE) as Ee1 by (rewrite Ee; destruct (_ >=? _); [done|lia]).
  assert (atom_tab st1 (zlen os) = Some obj) as Hobj1.
  { apply (li_lookup _ _ (ao_listed _ _ Hok1)). rewrite lookup_app_r, Nat.sub_diag by done. done. }
  set (st2 := AtomState _ _ _ _ _ _ _ _). assert (atom_tab st2 (zlen os) = Some obj) as -> by done. cbn [mbind option_bind].
  destruct (IH (set_name st2 obj p) (os ++ [obj]) (S i)) as (st' & os' & E & Hi & Htx).
  - assert (∀ x, ¬ (seg ≤ x < seg + ATOM_TEXT_SIZE) → text_mem st1 !! x = mem !! x) as Hm1.
    { intros x Hx. rewrite Em, put_bytes_lookup, bool_decide_eq_false_2; [by apply Hm|]. unfold ATOM_TEXT_SIZE, MAX_ATOM_LENGTH in *. lia. }
    split; [|cbn; repeat split; [lia|done| |done]].
    2: { rewrite Es, Hsp. rewrite Z.add_0_l. unfold dig. rewrite Zminus_mod_idemp_l, Z.sub_diag. apply Z.mod_0_l. unfold D_BASE, D_EXP. by destruct H_EXP_cases as [-> | ->]. }
    destruct Hok1 as [L1 Hl1 Hs1 Ho1]. split; [done|done|done|]. apply Forall_app. split.
    + apply Forall_forall. intros o Hin. assert (o ≠ obj) by (by intros ->). apply (atom_ok_kept st).
      * eapply Forall_forall; [apply Hok|done].
      * cbn. rewrite decide_False by done. by apply Hnf.
      * intros x Hx. cbn. assert (¬ (seg ≤ x < seg + ATOM_TEXT_SIZE)) as Hx'.
        { rewrite <- Hp at 1. rewrite <- He. apply (ok_place st o); [|done]. eapply Forall_forall; [apply Hok|done]. }
        rewrite Hm1, Hm by done. split; [done|]. rewrite Ee1. lia.
    + constructor; [|done]. apply Forall_app in Ho1 as [_ Ho1]. apply Forall_cons in Ho1 as [[H1 _ _] _]. unfold a_len in *.
      split; cbn [name_field set_name text_mem st2 atom_text_pos atom_text_end]; [done| |]; rewrite ?decide_True by done; unfold a_len; rewrite Ht.
      * rewrite <- Hmem. apply mem_bytes_ext. intros x Hx. by apply Hm1, Hout.
      * intros x Hx. rewrite Ep, Ee1. replace (seg + zlen text - zlen text) with seg by lia. by apply Hout.
  - done.
  - cbn in Hnd. unfold texts in *. rewrite fmap_app. cbn. rewrite Ht, <- app_assoc. done.
  - rewrite length_app. cbn [length]. lia.
  - exists st', os'. split; [done|]. split; [done|]. rewrite Htx. unfold texts. rewrite fmap_app. cbn. by rewrite Ht, <- app_assoc.
Qed.
End Init.
(** ** Order *)

(** The lexicographic order of names. *)
Fixpoint text_lex (a b : list Z) : Z :=
  match a, b with
  | [], [] => 0
  | [], _ => -1
  | _, [] => 1
  | x :: a', y :: b' => if x <? y then -1 else if x >? y then 1 else text_lex a' b'
  end.

Lemma text_lex_eq a : ∀ b, text_lex a b = 0 ↔ a = b.
Proof.
  induction a as [|x a IH]; intros [|y b]; cbn; try done. destruct (Z.ltb_spec x y); [split; [done|intros [= -> _]; lia]|].
  destruct (Z.gtb_spec x y); [split; [done|intros [= -> _]; lia]|]. rewrite IH. assert (x = y) as -> by lia. split; congruence.
Qed.

Lemma cmpbytes_lex (s1 : list Z) : ∀ s2 : list Z, cmpbytes s1 (zlen s1) s2 (zlen s2) = text_lex s1 s2.
Proof.
  unfold cmpbytes. induction s1 as [|x s1 IH]; intros [|y s2]; cbn [length text_lex]; [done..|].
  rewrite <- IH. replace (Z.to_nat (Z.min (Z.of_nat (S (length s1))) (Z.of_nat (S (length s2))))) with (S (Z.to_nat (Z.min (zlen s1) (zlen s2)))) by lia.
  cbn [cmpbytes_loop]. destruct (x <? y); [done|]. destruct (x >? y); [done|]. destruct (cmpbytes_loop _ _ _); [done|].
  repeat case_match; lia.
Qed.

Lemma ord0_range a : Forall is_byte a → 0 ≤ atom_ord0 a < 2147483648.
Proof.
  intros Hb. assert (∀ i, 0 ≤ ord0_byte a i < 256) as H.
  { intros i. unfold ord0_byte. destruct (a !! i) as [b|] eqn:E; cbn; [|lia]. by apply (Forall_lookup_1 _ _ _ _ Hb) in E. }
  unfold atom_ord0. rewrite !Z.shiftl_mul_pow2, Z.shiftr_div_pow2 by lia. change (2 ^ 23) with 8388608. change (2 ^ 15) with 32768.
  change (2 ^ 7) with 128. change (2 ^ 1) with 2. pose proof (H 0%nat). pose proof (H 1%nat). pose proof (H 2%nat). pose proof (H 3%nat).
  Z.div_mod_to_equations. lia.
Qed.

(** The four bytes decide when they differ, up to the lowest bit of the last one. *)
Lemma ord0_lex a b : Forall is_byte a → Forall is_byte b →
  (atom_ord0 a < atom_ord0 b → text_lex a b = -1) ∧ (atom_ord0 b < atom_ord0 a → text_lex a b = 1) ∧
  (atom_ord0 a = atom_ord0 b → text_lex a b = cmpbytes (drop 3 a) (zlen a - 3) (drop 3 b) (zlen b - 3)).
Proof.
  intros Ha Hb.
  assert (∀ s1 s2 : list Z, zlen s1 - 3 < 0 ∨ zlen s2 - 3 < 0 →
    cmpbytes (drop 3 s1) (zlen s1 - 3) (drop 3 s2) (zlen s2 - 3) = if zlen s1 <? zlen s2 then -1 else if zlen s1 >? zlen s2 then 1 else 0) as Short.
  { intros s1 s2 H. unfold cmpbytes. replace (Z.to_nat _) with 0%nat by lia. cbn [cmpbytes_loop]. repeat case_match; lia. }
  assert (∀ s1 s2 : list Z, 3 ≤ zlen s1 → 3 ≤ zlen s2 → cmpbytes (drop 3 s1) (zlen s1 - 3) (drop 3 s2) (zlen s2 - 3) = text_lex (drop 3 s1) (drop 3 s2)) as Long.
  { intros s1 s2 H1 H2. rewrite <- cmpbytes_lex, !length_drop. f_equal; lia. }
  unfold atom_ord0. rewrite !Z.shiftl_mul_pow2, !Z.shiftr_div_pow2 by lia. change (2 ^ 23) with 8388608. change (2 ^ 15) with 32768.
  change (2 ^ 7) with 128. change (2 ^ 1) with 2. unfold is_byte in *.
  destruct a as [|a0 [|a1 [|a2 [|a3 a]]]], b as [|b0 [|b1 [|b2 [|b3 b]]]]; rewrite ?Forall_cons in Ha; rewrite ?Forall_cons in Hb;
    first [rewrite Short by (cbn; lia) | rewrite Long by (cbn; lia)];
    cbn [text_lex length drop ord0_byte lookup list_lookup default from_option id];
    (split; [|split]); intros H; Z.div_mod_to_equations; repeat case_match; try lia.
Qed.
(** ** Terms *)
Lemma make_atom_spec i : 0 ≤ i < ATOM_LIMIT → is_atom (make_atom i) = true ∧ atom_val (make_atom i) = i.
Proof.
  intros Hi. unfold ATOM_LIMIT in Hi. assert (make_atom i = i * 64 + 11) as ->.
  { unfold make_atom, TAG_IMMED2_SIZE, TAG_IMMED2_ATOM. rewrite Z.shiftl_mul_pow2 by lia. change (2 ^ 6) with 64.
    apply Z.mod_small. unfold D_BASE, D_EXP. destruct H_EXP_cases as [-> | ->]; cbn; lia. }
  unfold is_atom, atom_val, TAG_IMMED2_SIZE, TAG_IMMED2_MASK, TAG_IMMED2_ATOM. change 63 with (Z.ones 6).
  rewrite Z.land_ones, Z.shiftr_div_pow2 by lia. change (2 ^ 6) with 64. Z.div_mod_to_equations. lia.
Qed.

Lemma erts_is_atom_bytes_spec st os i o text : atoms_ok st os → os !! i = Some o →
  erts_is_atom_bytes st text (make_atom (Z.of_nat i)) = Some (bool_decide (text = a_text o)).
Proof.
  intros [L Hl _ _] Hi. pose proof (listed_limit _ _ L) as Hlim. rewrite Hl in Hlim. specialize (Hlim eq_refl). pose proof (lookup_lt_Some _ _ _ Hi).
  destruct (make_atom_spec (Z.of_nat i) ltac:(lia)) as [E1 E2]. unfold erts_is_atom_bytes. rewrite E1, E2. cbn [negb].
  unfold atom_tab. rewrite (li_lookup _ _ L i o Hi). cbn [mbind option_bind]. f_equal. unfold a_len.
  destruct (Z.eqb_spec (zlen text) (zlen (a_text o))) as [El|]; cbn [andb]; [|symmetry; apply bool_decide_eq_false_2; by intros ->].
  apply eq_iff_eq_true. rewrite Z.eqb_eq, bool_decide_eq_true, text_memcmp_eq by lia. split; congruence.
Qed.

(** The two sections together. *)
Lemma am_atom_put_spec st os addr seg name : atoms_ok st os → zlen os < ATOM_LIMIT → seg_fresh st seg →
  ∃ a st', am_atom_put st addr seg name = Some (a, st') ∧ erts_atom_get st' (atom_cut name) = Some (Some a).
Proof.
  intros Hok Hroom Hf. unfold am_atom_put, am_atom_put_get, erts_atom_get. rewrite (atom_index_get _ os) by done. cbn [mbind option_bind].
  destruct (index_of (texts os) (atom_cut name)) as [i|] eqn:E.
  - replace (Z.of_nat i >=? 0) with true by lia. eexists _, _. split; [done|]. rewrite (atom_index_get _ os), E by done. cbn [mbind option_bind].
    by replace (Z.of_nat i <? 0) with false by lia.
  - change (-1 >=? 0) with false. cbv iota. unfold am_atom_put_put. apply index_of_None in E.
    destruct (atom_index_put_new _ os addr seg _ Hok (atom_cut_short name) E Hf Hroom) as (st' & obj & -> & Hok' & Ht & _).
    cbn [mbind option_bind]. eexists _, _. split; [done|]. rewrite (atom_index_get _ _ _ Hok').
    rewrite (index_of_lookup _ _ (length os) (texts_nodup _ _ Hok')).
    + cbn [mbind option_bind]. by replace (zlen os <? 0) with false by lia.
    + unfold texts. rewrite list_lookup_fmap, lookup_app_r, Nat.sub_diag by done. cbn. by rewrite Ht.
Qed.

Lemma init_atom_table_spec names addrs seg mem table_name f : Forall (static_ok seg mem) names → NoDup names.*2 → zlen names ≤ ATOM_LIMIT →
  ∃ st0 os0, init_atom_table names addrs seg mem table_name f = Some st0 ∧ atoms_ok st0 os0 ∧ texts os0 = names.*2.
Proof.
  intros Hst Hnd Hlim. unfold init_atom_table. destruct (listed_init (O := Atom) (K := list Z) table_name ATOM_SIZE ATOM_LIMIT f) as (t & -> & L & Hl & _); [done..|].
  cbn [mbind option_bind]. destruct (init_names_spec addrs seg mem names (more_atom_space (AtomState t (λ _, 0) mem [] 0 0 0 0) seg) [] 0)
    as (st0 & os0 & -> & (Hok0 & _) & Ht0); [split; [by split|done]|done|done|done|]. by exists st0, os0.
Qed.

(** * Properties *)

(** C16: the atom table is a list of names, whatever the interleaving of the threads.  [init_atom_table] numbers the predefined names in their order (the
    constants [am_...] of generated code rely on it); in any run of [am_atom_put] and [erts_atom_get] calls of any number of threads, with
    others between the two critical sections of [am_atom_put], every call returns what it returns on a list of names, where an atom is a
    position and a new name is appended: a name has one atom for all threads, an atom keeps its number and its name, names are cut at 255 bytes.
    The bytes of every name are intact in the text segments, and a call fails only when there are [ATOM_LIMIT] atoms. *)
Theorem atom_table_refines_names (names : list (Z * list Z)) (addrs : nat → Z) (seg : Z) (mem : memory) (table_name : list Z) (f : Atom → Z) :
  Forall (static_ok seg mem) names → NoDup names.*2 → zlen names ≤ ATOM_LIMIT →
  ∃ st0, init_atom_table names addrs seg mem table_name f = Some st0 ∧
  ∀ tr s, trace (Sys st0 ∅) tr s →
  ∃ ns, names_run (names.*2, ∅) tr.*1 = (tr.*2, (ns, sys_pending s)) ∧ names.*2 `prefix_of` ns ∧ NoDup ns ∧
    atom_table_size (sys_atoms s) = zlen ns ∧ zlen ns ≤ ATOM_LIMIT ∧
    (∀ i n, ns !! i = Some n → is_atom (make_atom (Z.of_nat i)) = true ∧ atom_val (make_atom (Z.of_nat i)) = Z.of_nat i ∧ zlen n ≤ MAX_ATOM_LENGTH ∧
       (∀ text, erts_is_atom_bytes (sys_atoms s) text (make_atom (Z.of_nat i)) = Some (bool_decide (text = n))) ∧
       ∃ a, atom_tab (sys_atoms s) (Z.of_nat i) = Some a ∧ a_text a = n ∧
         mem_bytes (text_mem (sys_atoms s)) (name_field (sys_atoms s) a) (zlen n) = Some n) ∧
    (zlen ns < ATOM_LIMIT →
       (∀ e, event_ok s e → is_Some (atom_step s e)) ∧
       ∀ addr seg' name, seg_fresh (sys_atoms s) seg' →
         ∃ a st', am_atom_put (sys_atoms s) addr seg' name = Some (a, st') ∧ erts_atom_get st' (atom_cut name) = Some (Some a)).
Proof.
  intros Hst Hnd Hlim. destruct (init_atom_table_spec names addrs seg mem table_name f) as (st0 & os0 & -> & Hok0 & Ht0); [done..|].
  exists st0. split; [done|]. intros tr s Htr. destruct (trace_spec _ _ _ Htr os0 Hok0) as (new & Hok & Hrun). cbn [sys_pending] in Hrun.
  rewrite Ht0 in Hrun. exists (texts (os0 ++ new)). split; [done|]. split; [unfold texts; rewrite fmap_app; fold (texts os0); rewrite Ht0; by eexists|].
  split; [by eapply texts_nodup|]. pose proof Hok as [L1 Hl1 Hs1 Ho1].
  pose proof (listed_limit _ _ L1) as Hmax. rewrite Hl1 in Hmax. specialize (Hmax eq_refl).
  assert (zlen (texts (os0 ++ new)) = zlen (os0 ++ new)) as Elen by (unfold texts; by rewrite length_fmap). rewrite Elen.
  split; [by apply (li_entries _ _ L1)|]. split; [lia|]. split.
  - intros i n Hi. unfold texts in Hi. apply list_lookup_fmap_Some in Hi as (o & -> & Hi). pose proof (lookup_lt_Some _ _ _ Hi).
    destruct (make_atom_spec (Z.of_nat i) ltac:(lia)) as [E1 E2]. split; [done|]. split; [done|].
    split; [by apply (Forall_lookup_1 _ _ _ _ Hs1 Hi)|]. split; [intros text; by eapply erts_is_atom_bytes_spec|].
    exists o. split; [by apply (li_lookup _ _ L1)|]. split; [done|]. by destruct (Forall_lookup_1 _ _ _ _ Ho1 Hi).
  - intros Hroom. split.
    + intros e He. destruct (atom_step_spec s _ e Hok He) as (r & s' & _ & -> & _); [by left|]. by eexists.
    + intros addr seg' name Hf. by eapply am_atom_put_spec.
Qed.
(** C31: [cmp_atoms] orders atoms by their names, byte by byte, a prefix first: the precomputed [ord0], which has only part of the fourth byte,
    and the comparison of what is behind the third byte (with a negative length when a name is shorter) agree with the lexicographic order;
    only an atom itself compares equal. *)
Theorem cmp_atoms_lexicographic st os (i j : nat) (a b : Atom) :
  atoms_ok st os → os !! i = Some a → os !! j = Some b → Forall is_byte (a_text a) → Forall is_byte (a_text b) →
  ∃ r, cmp_atoms st (make_atom (Z.of_nat i)) (make_atom (Z.of_nat j)) = Some r ∧ Z.sgn r = text_lex (a_text a) (a_text b) ∧ (r = 0 ↔ i = j).
Proof.
  intros Hok Hi Hj Ha Hb. pose proof Hok as [L Hl Hs Ho]. pose proof (listed_limit _ _ L) as Hmax. rewrite Hl in Hmax. specialize (Hmax eq_refl).
  pose proof (lookup_lt_Some _ _ _ Hi). pose proof (lookup_lt_Some _ _ _ Hj). unfold cmp_atoms, atom_tab.
  rewrite (proj2 (make_atom_spec (Z.of_nat i) ltac:(lia))), (proj2 (make_atom_spec (Z.of_nat j) ltac:(lia))).
  rewrite (li_lookup _ _ L i a Hi), (li_lookup _ _ L j b Hj). cbn [mbind option_bind].
  rewrite (ok_ord0 _ _ (Forall_lookup_1 _ _ _ _ Ho Hi)), (ok_ord0 _ _ (Forall_lookup_1 _ _ _ _ Ho Hj)).
  pose proof (ord0_range _ Ha). pose proof (ord0_range _ Hb). rewrite int32_small by (unfold INT_MAX; lia).
  destruct (ord0_lex _ _ Ha Hb) as (O1 & O2 & O3).
  assert (text_lex (a_text a) (a_text b) = 0 ↔ i = j) as Heq.
  { rewrite text_lex_eq. split; [intros E|intros ->; congruence]. eapply (NoDup_lookup (texts os)); [by eapply texts_nodup|..]; unfold texts; rewrite list_lookup_fmap.
    - by rewrite Hi.
    - rewrite Hj. cbn. congruence. }
  destruct (Z.eqb_spec (atom_ord0 (a_text a) - atom_ord0 (a_text b)) 0) as [E|E]; cbn [negb]; eexists; (split; [done|]).
  - unfold a_len. rewrite <- O3 by lia. split; [|done]. assert (∀ x y, Z.sgn (text_lex x y) = text_lex x y) as ->; [|done].
    induction x as [|u x IH]; intros [|v y]; cbn; try done. repeat case_match; [done..|apply IH].
  - destruct (Z.lt_trichotomy (atom_ord0 (a_text a)) (atom_ord0 (a_text b))) as [Hlt|[?|Hgt]]; [|lia|].
    + rewrite (O1 Hlt) in *. split; [apply Z.sgn_neg_iff; lia|]. rewrite <- Heq. lia.
    + rewrite (O2 Hgt) in *. split; [apply Z.sgn_pos_iff; lia|]. rewrite <- Heq. lia.
Qed.
End Spec.

(** ** Instances *)
Module Instances.
#[local] Instance dw64 : DigitWidth := {| H_EXP := 32; H_EXP_cases := or_intror eq_refl |}.

(** The predefined names "ab" and "abc", behind the segment. *)
Definition wmem : memory := put_bytes (put_bytes ∅ 40000 [97; 98]) 40010 [97; 98; 99].
Definition wnames : list (Z * list Z) := [(40010, [97; 98; 99]); (40000, [97; 98])].

Lemma wnames_ok : Forall (static_ok 0 wmem) wnames.
Proof. repeat constructor; cbn; unfold MAX_ATOM_LENGTH, ATOM_TEXT_SIZE; try reflexivity; lia. Qed.
Lemma wnames_nodup : NoDup wnames.*2.
Proof. apply (bool_decide_eq_true_1 (NoDup wnames.*2)). vm_compute. reflexivity. Qed.

#[local] Instance event_eq_dec : EqDecision event.
Proof. solve_decision. Defined.

(** A run, with [event_ok] checked before each step. *)
Definition seg_freshb (st : atom_state) (seg : Z) : bool :=
  forallb (λ o, (name_field st o + a_len o <=? seg) || (seg + ATOM_TEXT_SIZE <=? name_field st o)) (objs (t_htable (erts_atom_table st))).
Definition event_okb (s : system) (e : event) : bool :=
  match e with
  | Put tid _ => bool_decide (sys_pending s !! tid = None)
  | Resume tid _ seg => bool_decide (is_Some (sys_pending s !! tid)) && seg_freshb (sys_atoms s) seg
  | Lookup _ => true
  end.
Fixpoint checked_run (s : system) (es : list event) : option (list (event * option Z) * system) :=
  match es with
  | [] => Some ([], s)
  | e :: es =>
      if event_okb s e then '(r, s1) ← atom_step s e; '(tr, s2) ← checked_run s1 es; Some ((e, r) :: tr, s2) else None
  end.

Lemma event_okb_ok s e : event_okb s e = true → event_ok s e.
Proof.
  destruct e as [tid n|tid addr seg|n]; cbn; [intros H; by apply bool_decide_eq_true in H| |done].
  intros [H1 H2]%andb_prop. apply bool_decide_eq_true in H1. split; [done|]. intros o x Ho Hx. unfold seg_freshb in H2.
  rewrite forallb_forall in H2. specialize (H2 o (proj1 (list_elem_of_In _ _) Ho)). lia.
Qed.

Lemma checked_run_trace es : ∀ s tr s', checked_run s es = Some (tr, s') → trace s tr s'.
Proof.
  induction es as [|e es IH]; cbn [checked_run]; intros s tr s' E; [injection E as <- <-; constructor|].
  destruct (event_okb s e) eqn:Eo; [|done]. destruct (atom_step s e) as [[r s1]|] eqn:Es; [|done]. cbn [mbind option_bind] in E.
  destruct (checked_run s1 es) as [[tr1 s2]|] eqn:Er; [|done]. cbn [mbind option_bind] in E. injection E as <- <-.
  econstructor; [by apply event_okb_ok|done|by apply IH].
Qed.

(** Two threads put the same new name; both look it up before one of them puts it. *)
Definition wevents : list event := [Lookup [120]; Put 1 [120]; Put 2 [120]; Resume 2 7 100000; Resume 1 8 200000; Lookup [120]; Put 2 [97; 98]].
Definition wresults : list (option Z) := [None; None; None; Some (make_atom 2); Some (make_atom 2); Some (make_atom 2); Some (make_atom 1)].

Lemma wrun_ok :
  match init_atom_table wnames Z.of_nat 0 wmem [97; 0] (λ _, -1) with
  | Some st0 => match checked_run (Sys st0 ∅) wevents with Some (tr, _) => bool_decide (tr = zip wevents wresults) | None => false end
  | None => false
  end = true.
Proof. vm_compute. reflexivity. Qed.

Lemma atom_table_refines_names_witness :
  ∃ st0 s, init_atom_table wnames Z.of_nat 0 wmem [97; 0] (λ _, -1) = Some st0 ∧ trace (Sys st0 ∅) (zip wevents wresults) s ∧
    names_run (wnames.*2, ∅) wevents = (wresults, ([[97; 98; 99]; [97; 98]; [120]], sys_pending s)) ∧ atom_table_size (sys_atoms s) = 3.
Proof.
  destruct (atom_table_refines_names wnames Z.of_nat 0 wmem [97; 0] (λ _, -1) wnames_ok wnames_nodup ltac:(vm_compute; discriminate)) as (st0 & E & H).
  pose proof wrun_ok as W. rewrite E in W. destruct (checked_run (Sys st0 ∅) wevents) as [[tr s]|] eqn:R; [|discriminate W].
  apply bool_decide_eq_true in W. subst tr. apply checked_run_trace in R. exists st0, s. split; [exact E|]. split; [exact R|].
  destruct (H _ _ R) as (ns & Hrun & _ & _ & Hsz & _). rewrite Hsz. clear - Hrun.
  assert (ns = [[97; 98; 99]; [97; 98]; [120]]) as -> by (cbv -[make_atom sys_pending] in Hrun; injection Hrun; intros; subst; reflexivity).
  split; [exact Hrun|reflexivity].
Defined.

Lemma cmp_atoms_lexicographic_witness :
  ∃ st0, init_atom_table wnames Z.of_nat 0 wmem [97; 0] (λ _, -1) = Some st0 ∧
    ∃ r, cmp_atoms st0 (make_atom 0) (make_atom 1) = Some r ∧ Z.sgn r = 1 ∧ (r = 0 ↔ 0%nat = 1%nat).
Proof.
  destruct (init_atom_table_spec wnames Z.of_nat 0 wmem [97; 0] (λ _, -1) wnames_ok wnames_nodup ltac:(vm_compute; discriminate)) as (st0 & os & E & Hok & Ht).
  exists st0. split; [exact E|]. destruct os as [|a [|b [|c os]]]; try discriminate Ht. injection Ht as Ea Eb.
  change 1 with (text_lex [97; 98; 99] [97; 98]) at 2. rewrite <- Ea, <- Eb.
  apply (cmp_atoms_lexicographic st0 [a; b] 0 1 a b Hok eq_refl eq_refl); [rewrite Ea|rewrite Eb]; repeat constructor; unfold is_byte; lia.
Defined.
End Instances.
