(* ===== verification/Exports.v ===== *)
(** The export table and the module table of the emulator: [erts/emulator/beam/export.c], [module.c].

    Export entries are found by module, function and arity.  Entries are numbered in an index table that is read without a lock; stubs for
    functions that are not loaded are collected in a second hash table, and moved to the first one while all other threads are blocked.  An
    entry is the address of the structure with [code[0]], [code[1]] and [code[2]], which never change; the other fields are a
    component of the state. *)

From Stdlib Require Import ZArith ZifyBool.
From stdpp Require Import base list numbers option gmap sorting.
From S2P Require Import Prelude Hash HashSpec Index Big Atoms.
Local Open Scope Z_scope.

Definition EXPORT_INITIAL_SIZE : Z := 4000.
Definition EXPORT_LIMIT : Z := 512 * 1024.
Definition MODULE_SIZE : Z := 50.
Definition MODULE_LIMIT : Z := 64 * 1024.

(** Module, function and arity. *)
Abbreviation mfa := (Z * Z * Z)%type.

Record Export := MkExport { e_ptr : Z; e_code : mfa }.
#[export] Instance Export_eq_dec : EqDecision Export.
Proof. solve_decision. Defined.

(** [address], [code[3]], [code[4]], [match_prog_set] *)
Record export_fields := ExportFields { e_address : Z; e_code3 : Z; e_code4 : Z; e_match_prog_set : Z }.

Record Module := MkModule { m_ptr : Z; m_module : Z }.
#[export] Instance Module_eq_dec : EqDecision Module.
Proof. solve_decision. Defined.

Section Exports.
Context {dw : DigitWidth} (em_call_error_handler em_call_traced_function : Z).

(** ** Callbacks *)
Definition EXPORT_HASH (m f a : Z) : Z := dig (dig (m * f) + a).
Definition export_hash (x : Export) : Z := let '(m, f, a) := e_code x in EXPORT_HASH m f a.
Definition export_cmp (tmpl obj : Export) : Z :=
  let '(m, f, a) := e_code tmpl in let '(m', f', a') := e_code obj in
  if negb ((m =? m') && (f =? f') && (a =? a')) then 1 else 0.

#[export] Instance export_functions : HashFunctions Export := {| hf_hash := export_hash; hf_cmp := export_cmp |}.

Record export_state := ExportState {
  export_table : IndexTable Export;
  secondary_export_table : Hash Export;
  fields : Export → export_fields }.
Implicit Types (st : export_state).

(** [obj->code + i]: [code] is behind the slot (three words), two pointers and two words for hipe. *)
Definition code_ptr (obj : Export) (i : Z) : Z := e_ptr obj + (7 + i) * (D_EXP / 8).

(** The entry at [ptr]; its [index] is -1. *)
Definition export_alloc st (ptr : Z) (tmpl : Export) : Export * export_state :=
  let obj := MkExport ptr (e_code tmpl) in
  (obj, ExportState (set_field (export_table st) obj (-1)) (secondary_export_table st)
          (λ o, if decide (o = obj) then ExportFields (code_ptr obj 3) em_call_error_handler 0 0 else fields st o)).

Definition init_export_table (name name2 : list Z) (ix : Export → Z) (fs : Export → export_fields) : option export_state :=
  t ← erts_index_init name EXPORT_INITIAL_SIZE EXPORT_LIMIT ix;
  h ← hash_init name2 50;
  Some (ExportState t h fs).

(** ** Operations *)

(** [while (b != 0) { if (codes are equal) break; b = b->next; }]: the code of [hash_get], written out without the hash values. *)
Fixpoint find_export (k : mfa) (chain : list (HashBucket Export)) : option Export :=
  match chain with
  | [] => None
  | b :: chain' =>
      let '(m, f, a) := k in let '(m', f', a') := e_code (hb_obj b) in
      if (m' =? m) && (f' =? f) && (a' =? a) then Some (hb_obj b) else find_export k chain'
  end.

Definition erts_find_export_entry st (k : mfa) : option (option Export) :=
  let '(m, f, a) := k in
  let hval := EXPORT_HASH m f a in
  let h := t_htable (export_table st) in
  chain ← h_bucket h !! Z.to_nat (hval `mod` h_size h);
  Some (find_export k chain).

Definition erts_find_function st (k : mfa) : option (option Export) :=
  ep ← hash_get (t_htable (export_table st)) (MkExport 0 k);
  Some (match ep with
        | Some ep =>
            if (e_address (fields st ep) =? code_ptr ep 3) && negb (e_code3 (fields st ep) =? em_call_traced_function) then None else Some ep
        | None => None
        end).

(** [index_put] with the callback, which runs if the entry is not there. *)
Definition export_index_put st (ptr : Z) (tmpl : Export) : option (Z * export_state) :=
  found ← hash_get (t_htable (export_table st)) tmpl;
  let '(obj, st) := match found with Some _ => (tmpl, st) | None => export_alloc st ptr tmpl end in
  '(ix, t) ← index_put (export_table st) tmpl obj;
  Some (ix, ExportState t (secondary_export_table st) (fields st)).

Definition erts_export_put st (ptr : Z) (k : mfa) : option (option Export * export_state) :=
  '(ix, st) ← export_index_put st ptr (MkExport 0 k);
  Some (erts_index_lookup (export_table st) ix, st).

(** The part of [erts_export_get_or_make_stub] under the write lock. *)
Definition make_stub st (ptr : Z) (k : mfa) : option (Export * export_state) :=
  let tmpl := MkExport 0 k in
  found ← hash_get (secondary_export_table st) tmpl;
  let '(obj, st) := match found with Some _ => (tmpl, st) | None => export_alloc st ptr tmpl end in
  '(ep, h) ← hash_put (secondary_export_table st) tmpl obj;
  Some (ep, ExportState (export_table st) h (fields st)).

Definition erts_export_get_or_make_stub st (ptr : Z) (k : mfa) : option (Export * export_state) :=
  ep ← erts_find_export_entry st k;
  match ep with Some ep => Some (ep, st) | None => make_stub st ptr k end.

Definition erts_export_consolidate st : option export_state :=
  t ← erts_index_merge (secondary_export_table st) (export_table st);
  '(src, h) ← erts_hash_merge (secondary_export_table st) (t_htable t);
  Some (ExportState (set_htable t h) src (fields st)).

Definition export_list st (i : Z) : option Export := erts_index_lookup (export_table st) i.
Definition export_list_size st : Z := t_entries (export_table st).
Definition export_get st (e : Export) : option (option Export) := hash_get (t_htable (export_table st)) e.

(** * Interleavings

    [erts_export_get_or_make_stub] looks into the first table without a lock, then takes the lock of the second one; a thread
    in between is pending.  [erts_export_put] and [erts_export_consolidate] run while all other threads are blocked: none is pending. *)
Record export_sys := ESys { es_tables : export_state; es_pending : gmap nat mfa }.

Inductive export_event :=
| Find (k : mfa)
| Stub (tid : nat) (k : mfa)
| StubPut (tid : nat) (ptr : Z)
| ExportPut (ptr : Z) (k : mfa)
| Consolidate.

Definition set_tables (s : export_sys) st : export_sys := ESys st (es_pending s).

(** The entry returned, if any, and the new state. *)
Definition export_step (s : export_sys) (e : export_event) : option (option Export * export_sys) :=
  match e with
  | Find k => r ← erts_find_export_entry (es_tables s) k; Some (r, s)
  | Stub tid k =>
      r ← erts_find_export_entry (es_tables s) k;
      Some (r, match r with Some _ => s | None => ESys (es_tables s) (<[tid := k]> (es_pending s)) end)
  | StubPut tid ptr =>
      k ← es_pending s !! tid;
      '(ep, st) ← make_stub (es_tables s) ptr k; Some (Some ep, ESys st (delete tid (es_pending s)))
  | ExportPut ptr k => '(ep, st) ← erts_export_put (es_tables s) ptr k; Some (ep, set_tables s st)
  | Consolidate => st ← erts_export_consolidate (es_tables s); Some (None, set_tables s st)
  end.
End Exports.

(** * Modules *)
Section Modules.
Context {dw : DigitWidth}.

(** [(HashValue) x->module], an [int]. *)
Definition module_hash (x : Module) : Z := dig (m_module x).
Definition module_cmp (tmpl obj : Module) : Z := if negb (m_module tmpl =? m_module obj) then 1 else 0.
#[export] Instance module_functions : HashFunctions Module := {| hf_hash := module_hash; hf_cmp := module_cmp |}.

(** [code], [old_code], [code_length], [old_code_length] *)
Record module_fields := ModuleFields { mf_code : Z; mf_old_code : Z; mf_code_length : Z; mf_old_code_length : Z }.
Record module_state := ModuleState { module_table : IndexTable Module; m_fields : Module → module_fields }.
Implicit Types (st : module_state).

Definition module_alloc st (ptr : Z) (tmpl : Module) : Module * module_state :=
  let obj := MkModule ptr (m_module tmpl) in
  (obj, ModuleState (set_field (module_table st) obj (-1)) (λ o, if decide (o = obj) then ModuleFields 0 0 0 0 else m_fields st o)).

Definition init_module_table (name : list Z) (ix : Module → Z) (fs : Module → module_fields) : option module_state :=
  t ← erts_index_init name MODULE_SIZE MODULE_LIMIT ix; Some (ModuleState t fs).

(** The inner [None] is [NULL]. *)
Definition erts_get_module st (mod_ : Z) : option (option Module) :=
  index ← index_get (module_table st) (MkModule 0 (atom_val mod_));
  Some (if index =? -1 then None else erts_index_lookup (module_table st) index).

Definition erts_put_module st (ptr mod_ : Z) : option (option Module * module_state) :=
  let e := MkModule 0 (atom_val mod_) in
  found ← hash_get (t_htable (module_table st)) e;
  let '(obj, st) := match found with Some _ => (e, st) | None => module_alloc st ptr e end in
  '(index, t) ← index_put (module_table st) e obj;
  Some (erts_index_lookup t index, ModuleState t (m_fields st)).

Definition module_code st (i : Z) : option Module := erts_index_lookup (module_table st) i.
Definition module_code_size st : Z := t_entries (module_table st).
End Modules.

(** * Specification *)
Section Laws.
Context {dw : DigitWidth}.

#[export, program] Instance export_laws : HashLaws Export mfa := {| okey := e_code |}.
Next Obligation. intros [p [[m f] a]] [q [[m' f'] a']]. unfold hf_cmp, export_functions, export_cmp. cbn. split; [case_match; [done|]; intros _; repeat f_equal; lia|intros [= -> -> ->]; by rewrite !Z.eqb_refl]. Qed.
Next Obligation. intros a b E. cbn in *. unfold export_hash. by rewrite E. Qed.
Next Obligation. intros [p [[m f] a]]. cbn. apply dig_pos. Qed.

#[export, program] Instance module_laws : HashLaws Module Z := {| okey := m_module |}.
Next Obligation. intros a b. cbn. unfold module_cmp. case_match; lia. Qed.
Next Obligation. intros a b E. cbn in *. unfold module_hash. by rewrite E. Qed.
Next Obligation. intros a. cbn. apply dig_pos. Qed.
End Laws.

Section Spec.
Context {dw : DigitWidth} (em_call_error_handler em_call_traced_function : Z).
Abbreviation export_alloc := (export_alloc em_call_error_handler).
Abbreviation export_index_put := (export_index_put em_call_error_handler).
Abbreviation erts_export_put := (erts_export_put em_call_error_handler).
Abbreviation make_stub := (make_stub em_call_error_handler).
Abbreviation export_step := (export_step em_call_error_handler).
Implicit Types (st : export_state) (s : export_sys) (es : list Export) (k : mfa) (e : Export).

Definition primary st : gmap mfa Export := table_map (t_htable (export_table st)).
Definition stubs st : gmap mfa Export := table_map (secondary_export_table st).
(** All entries. *)
Definition entries st : gmap mfa Export := primary st ∪ stubs st.

Record exports_ok st es : Prop := {
  xo_listed : listed (export_table st) es;
  xo_limit : t_limit (export_table st) = EXPORT_LIMIT;
  xo_stubs : hash_ok (secondary_export_table st);
  xo_disjoint : stubs st ##ₘ primary st }.

Lemma primary_code st es k e : exports_ok st es → primary st !! k = Some e → e ∈ es ∧ e_code e = k.
Proof. intros Hok. apply (listed_map _ _ _ _ (xo_listed _ _ Hok)). Qed.
Lemma stubs_code st es k e : exports_ok st es → stubs st !! k = Some e ↔ e ∈ objs (secondary_export_table st) ∧ e_code e = k.
Proof. intros Hok. exact (table_map_lookup _ _ _ (xo_stubs _ _ Hok)). Qed.

Lemma find_export_in k (chain : list (HashBucket Export)) : Forall entry_ok chain → find_export k chain = find_in (MkExport 0 k) (hf_hash (MkExport 0 k)) chain.
Proof.
  induction 1 as [|b chain Hb _ IH]; [done|]. cbn [find_export find_in]. rewrite IH. destruct k as [[m f] a].
  destruct (e_code (hb_obj b)) as [[m' f'] a'] eqn:E. unfold entry_ok in Hb. rewrite Hb. cbn [hf_hash hf_cmp export_functions]. unfold export_cmp. cbn [e_code].
  rewrite E. rewrite (Z.eqb_sym m'), (Z.eqb_sym f'), (Z.eqb_sym a'). destruct ((m =? m') && (f =? f') && (a =? a')) eqn:Ec; cbn [negb]; [|by rewrite andb_false_r].
  replace (export_hash (hb_obj b)) with (export_hash (MkExport 0 (m, f, a))); [by rewrite Z.eqb_refl|]. unfold export_hash. rewrite E. cbn. repeat f_equal; lia.
Qed.

(** The loop written out finds what [hash_get] finds. *)
Lemma erts_find_export_entry_spec st es k : exports_ok st es → erts_find_export_entry st k = Some (primary st !! k).
Proof.
  intros Hok. pose proof (io_hash _ (li_ok _ _ (xo_listed _ _ Hok))) as Hh. unfold erts_find_export_entry, primary. destruct k as [[m f] a] eqn:Ek.
  change (EXPORT_HASH m f a) with (hf_hash (MkExport 0 (m, f, a))). destruct (chain_exists _ (MkExport 0 (m, f, a)) Hh) as [c Hc]. rewrite Hc. cbn [mbind option_bind].
  rewrite find_export_in by (by eapply chain_entries). by rewrite (find_in_table _ _ c Hh Hc).
Qed.

Lemma erts_find_function_spec st es k : exports_ok st es →
  erts_find_function em_call_traced_function st k = Some (match primary st !! k with
    | Some ep => if (e_address (fields st ep) =? code_ptr ep 3) && negb (e_code3 (fields st ep) =? em_call_traced_function) then None else Some ep
    | None => None end).
Proof. intros Hok. unfold erts_find_function. by rewrite hash_get_spec by apply (xo_listed _ _ Hok). Qed.

Lemma entries_lookup st es k e : exports_ok st es → entries st !! k = Some e ↔ primary st !! k = Some e ∨ stubs st !! k = Some e.
Proof. intros Hok. unfold entries. apply lookup_union_Some, symmetry, Hok. Qed.

(** [ep] is the entry for [k]: the one that was there, or a new one at [ptr] that leads to the error handler; nothing else changes. *)
Definition initial_fields (ep : Export) : export_fields := ExportFields (code_ptr ep 3) em_call_error_handler 0 0.
Definition entry_for st st' k (ptr : Z) (ep : Export) : Prop :=
  entries st' = <[k := ep]> (entries st) ∧
  match entries st !! k with Some e => ep = e | None => ep = MkExport ptr k ∧ fields st' ep = initial_fields ep end ∧
  ∀ o, entries st !! e_code o = Some o → fields st' o = fields st o.

(** A function that is not in the first table is added there, whatever the second one contains. *)
Lemma erts_export_put_new st es ptr k : listed (export_table st) es → t_limit (export_table st) = EXPORT_LIMIT → primary st !! k = None → zlen es < EXPORT_LIMIT →
  let obj := MkExport ptr k in
  ∃ t', erts_export_put st ptr k = Some (Some obj, ExportState t' (secondary_export_table st) (fields (export_alloc st ptr (MkExport 0 k)).2)) ∧
    listed t' (es ++ [obj]) ∧ t_limit t' = EXPORT_LIMIT ∧ table_map (t_htable t') = <[k := obj]> (primary st).
Proof.
  intros L Hl E Hroom obj. unfold erts_export_put, export_index_put. rewrite hash_get_spec by apply L.
  change (table_map (t_htable (export_table st)) !! okey (MkExport 0 k)) with (primary st !! k). rewrite E. cbn [mbind option_bind].
  assert (k ∉ e_code <$> es) as Hn by (by apply (listed_map_None _ _ _ L)). cbn [export_alloc e_code]. fold obj.
  assert (obj ∉ es) as Ho by (intros Hin; destruct Hn; apply list_elem_of_fmap; by exists obj).
  destruct (proj2 (listed_put _ _ (MkExport 0 k) obj (listed_set_field _ _ obj (-1) L Ho) eq_refl) Hn) as (t' & Ep & L' & Hl' & _).
  { cbn. unfold set_index. by rewrite decide_True. }
  { cbn. by rewrite Hl. }
  cbn [export_table secondary_export_table fields]. rewrite Ep. cbn [mbind option_bind export_table].
  assert (erts_index_lookup t' (zlen es) = Some obj) as ->.
  { apply (li_lookup _ _ L'). rewrite lookup_app_r, Nat.sub_diag by done. done. }
  exists t'. split; [done|]. split; [done|]. split; [by rewrite Hl'|]. exact (listed_map_snoc _ es t' obj L L').
Qed.

Lemma erts_export_put_spec st es ptr k : exports_ok st es → stubs st !! k = None → zlen es < EXPORT_LIMIT →
  ∃ ep st' new, erts_export_put st ptr k = Some (Some ep, st') ∧ exports_ok st' (es ++ new) ∧ entry_for st st' k ptr ep ∧
    secondary_export_table st' = secondary_export_table st.
Proof.
  intros Hok Hk Hroom. pose proof Hok as [L Hl Hs Hd]. destruct (primary st !! k) as [ep|] eqn:E.
  - unfold erts_export_put, export_index_put. rewrite hash_get_spec by apply L.
    change (table_map (t_htable (export_table st)) !! okey (MkExport 0 k)) with (primary st !! k). rewrite E. cbn [mbind option_bind].
    destruct (primary_code st es k ep Hok E) as [[i Hi]%list_elem_of_lookup Hc].
    rewrite (proj1 (listed_put _ _ (MkExport 0 k) (MkExport 0 k) L eq_refl) i ep Hi Hc). cbn [mbind option_bind export_table].
    exists ep, st, []. rewrite (li_lookup _ _ L i ep Hi), app_nil_r. split; [by destruct st|]. split; [done|]. split; [|done].
    assert (entries st !! k = Some ep) as Ee by (apply (entries_lookup st es); [done|by left]). split; [by rewrite insert_id|]. by rewrite Ee.
  - destruct (erts_export_put_new st es ptr k L Hl E Hroom) as (t' & -> & L' & Hl' & Em). set (obj := MkExport ptr k) in *.
    assert (entries st !! k = None) as Ee by (unfold entries; by apply lookup_union_None). eexists obj, _, [obj]. split; [done|].
    split; [split; [done|done|done|]|split; [|done]].
    + unfold stubs, primary. cbn. rewrite Em. by apply map_disjoint_insert_r_2.
    + split; [unfold entries, primary, stubs; cbn; rewrite Em; by rewrite insert_union_l|]. rewrite Ee. split; [split; [done|]|].
      * cbn. by rewrite decide_True.
      * intros o Ho'. cbn. rewrite decide_False; [done|]. intros ->. cbn in Ho'. congruence.
Qed.

Lemma make_stub_spec st es ptr k : exports_ok st es → primary st !! k = None →
  ∃ ep st', make_stub st ptr k = Some (ep, st') ∧ exports_ok st' es ∧ entry_for st st' k ptr ep ∧ primary st' = primary st ∧
    zlen (objs (secondary_export_table st')) ≤ zlen (objs (secondary_export_table st)) + 1.
Proof.
  intros Hok Hk. pose proof Hok as [L Hl Hs Hd]. unfold make_stub. rewrite hash_get_spec by done.
  change (table_map (secondary_export_table st) !! okey (MkExport 0 k)) with (stubs st !! k). cbn [mbind option_bind].
  destruct (stubs st !! k) as [ep|] eqn:E.
  - pose proof (hash_put_spec _ (MkExport 0 k) (MkExport 0 k) Hs eq_refl) as Hp.
    change (table_map (secondary_export_table st) !! okey (MkExport 0 k)) with (stubs st !! k) in Hp. rewrite E in Hp. rewrite Hp. cbn [mbind option_bind].
    exists ep, st. split; [by destruct st|]. split; [done|]. split; [|split; [done|lia]].
    assert (entries st !! k = Some ep) as Ee by (apply (entries_lookup st es); [done|by right]). split; [by rewrite insert_id|]. by rewrite Ee.
  - cbn [export_alloc e_code]. set (obj := MkExport ptr k). cbn [secondary_export_table].
    pose proof (hash_put_spec _ (MkExport 0 k) obj Hs eq_refl) as Hp.
    change (table_map (secondary_export_table st) !! okey (MkExport 0 k)) with (stubs st !! k) in Hp. rewrite E in Hp.
    destruct Hp as (h' & -> & Hh' & Hperm & Em). cbn [mbind option_bind]. change (okey (MkExport 0 k)) with k in Em.
    assert (obj ∉ es) as Ho.
    { intros Hin. assert (primary st !! k = Some obj) by (by apply (listed_map _ _ _ _ L)). congruence. }
    assert (entries st !! k = None) as Ee by (unfold entries; by apply lookup_union_None).
    exists obj, (ExportState (set_field (export_table st) obj (-1)) h' (fields (export_alloc st ptr (MkExport 0 k)).2)). split; [done|].
    split; [split; [by apply listed_set_field|done|done|]|split; [|split; [done|]]].
    + unfold stubs, primary. cbn. rewrite Em. by apply map_disjoint_insert_l_2.
    + split; [unfold entries, primary, stubs; cbn; rewrite Em; by rewrite insert_union_r|]. rewrite Ee. split; [split; [done|]|].
      * cbn. by rewrite decide_True.
      * intros o Ho'. cbn. rewrite decide_False; [done|]. intros ->. cbn in Ho'. congruence.
    + cbn. rewrite (Permutation_length Hperm). cbn [length]. lia.
Qed.

Lemma erts_export_consolidate_spec st es : exports_ok st es → zlen es + zlen (objs (secondary_export_table st)) ≤ EXPORT_LIMIT →
  ∃ st', erts_export_consolidate st = Some st' ∧ exports_ok st' (es ++ objs (secondary_export_table st)) ∧ stubs st' = ∅ ∧
    entries st' = entries st ∧ fields st' = fields st.
Proof.
  intros Hok Hroom. pose proof Hok as [L Hl Hs Hd]. unfold erts_export_consolidate.
  destruct (listed_merge (secondary_export_table st) (export_table st) es Hs L Hd ltac:(by rewrite Hl)) as (t1 & src' & h' & -> & E & Hs' & He & L' & Hl' & _).
  cbn [mbind option_bind]. rewrite E. cbn [mbind option_bind]. eexists. split; [done|].
  assert (stubs (ExportState (set_htable t1 h') src' (fields st)) = ∅) as Es by (unfold stubs, table_map; cbn; by rewrite He).
  split; [split; [done|cbn; by rewrite Hl'|done|rewrite Es; apply map_disjoint_empty_l]|]. split; [done|]. split; [|done].
  unfold entries. rewrite Es, (right_id_L ∅ (∪)). apply map_eq. intros k. apply option_eq. intros e. fold (entries st).
  rewrite (entries_lookup st es) by done. unfold primary at 1. cbn. rewrite (listed_map _ _ _ _ L'), elem_of_app.
  rewrite (stubs_code st es) by done. rewrite <- (listed_in _ _ e L). unfold primary. rewrite (listed_map _ _ _ _ L), <- (listed_in _ _ e L). change (okey e) with (e_code e). tauto.
Qed.
(** An entry of [src] whose key is in [dst] makes the merge of the hash tables abort. *)
Lemma insert_entries_clash bs : ∀ h : Hash Export, hash_ok h → Forall entry_ok bs → (∃ b e, b ∈ bs ∧ table_map h !! okey (hb_obj b) = Some e) → insert_entries h bs = None.
Proof.
  induction bs as [|b bs IH]; intros h Hh Hbs (b' & e & Hin & He); [by apply elem_of_nil in Hin|]. apply Forall_cons in Hbs as [Hb Hbs]. cbn [insert_entries].
  pose proof (hash_insert_entry_spec h b Hh Hb) as Hi. destruct (table_map h !! okey (hb_obj b)) as [e0|] eqn:E; [by rewrite Hi|].
  destruct Hi as (h' & -> & Hh' & Hp). cbn [mbind option_bind]. apply IH; [done..|]. exists b', e. apply elem_of_cons in Hin as [->|Hin]; [congruence|]. split; [done|].
  apply (table_map_lookup _ _ _ Hh) in He as [He1 He2]. apply (table_map_lookup _ _ _ Hh'). split; [|done]. rewrite Hp. by right.
Qed.

Lemma index_merge_htable (ps : list Export) : ∀ t t' : IndexTable Export, index_merge_all t ps = Some t' → t_htable t' = t_htable t.
Proof.
  induction ps as [|p ps IH]; intros t t'; cbn [index_merge_all]; [by intros [= ->]|]. intros (t1 & H1 & H2)%bind_Some. rewrite (IH _ _ H2). clear IH H2.
  unfold index_merge_one in H1. apply bind_Some in H1 as (t2 & H1 & H2). 
  transitivity (t_htable t2).
  - unfold set_slot in H2. apply bind_Some in H2 as (page & _ & H2). apply bind_Some in H2 as (pg & _ & H2). case_match; by simplify_eq.
  - unfold ensure_page, add_page in H1. repeat case_match; by simplify_eq.
Qed.

Lemma consolidate_clash st k e e' : hash_ok (t_htable (export_table st)) → hash_ok (secondary_export_table st) → primary st !! k = Some e → stubs st !! k = Some e' →
  erts_export_consolidate st = None.
Proof.
  intros Hh Hs Hp He. unfold erts_export_consolidate. destruct (erts_index_merge _ _) as [t|] eqn:E; [|done]. cbn [mbind option_bind]. apply index_merge_htable in E. rewrite E.
  unfold erts_hash_merge. rewrite insert_entries_clash; [done|done|apply (ho_entries _ Hs)|]. apply (table_map_lookup _ _ _ Hs) in He as [Hin He].
  apply list_elem_of_fmap in Hin as (b & -> & Hin). exists b, e. split; [done|]. by rewrite He.
Qed.

(** A function with a stub gets a second entry, and the next [erts_export_consolidate] aborts. *)
Lemma erts_export_put_stub st es ptr k e : exports_ok st es → stubs st !! k = Some e → zlen es < EXPORT_LIMIT →
  ∃ st', erts_export_put st ptr k = Some (Some (MkExport ptr k), st') ∧ primary st' !! k = Some (MkExport ptr k) ∧ stubs st' !! k = Some e ∧
    erts_export_consolidate st' = None.
Proof.
  intros [L Hl Hs Hd] He Hroom. assert (primary st !! k = None) as E by (by apply (map_disjoint_Some_l (stubs st) _ _ e)).
  destruct (erts_export_put_new st es ptr k L Hl E Hroom) as (t' & -> & L' & _ & Em). eexists. split; [done|].
  assert (table_map (t_htable t') !! k = Some (MkExport ptr k)) as Hk by (by rewrite Em, lookup_insert_eq). split; [exact Hk|]. split; [exact He|].
  apply (consolidate_clash _ k (MkExport ptr k) e); [apply L'|done|exact Hk|exact He].
Qed.

(** ** Steps *)
Record sys_ok s es : Prop := {
  so_tables : exports_ok (es_tables s) es;
  so_pending : ∀ tid k, es_pending s !! tid = Some k → primary (es_tables s) !! k = None }.

(** What the callers guarantee: one call per thread at a time, nobody else runs during the changes of the first table, entries are put there
    after their stubs have been consolidated; and there is room. *)
Definition export_room s : Prop :=
  export_list_size (es_tables s) + zlen (objs (secondary_export_table (es_tables s))) < EXPORT_LIMIT.
Definition event_ok s (ev : export_event) : Prop :=
  match ev with
  | Find _ => True
  | Stub tid _ => es_pending s !! tid = None
  | StubPut tid _ => is_Some (es_pending s !! tid)
  | ExportPut _ k => es_pending s = ∅ ∧ stubs (es_tables s) !! k = None ∧ export_room s
  | Consolidate => es_pending s = ∅ ∧ export_room s
  end.

(** What an event returns and does. *)
Definition event_result s (ev : export_event) (r : option Export) (s' : export_sys) : Prop :=
  match ev with
  | Find k => r = primary (es_tables s) !! k ∧ s' = s
  | Stub tid k => r = primary (es_tables s) !! k ∧ es_tables s' = es_tables s ∧ (r = None → es_pending s' = <[tid := k]> (es_pending s))
  | StubPut tid ptr => ∃ k ep, es_pending s !! tid = Some k ∧ r = Some ep ∧ entry_for (es_tables s) (es_tables s') k ptr ep
  | ExportPut ptr k => ∃ ep, r = Some ep ∧ entry_for (es_tables s) (es_tables s') k ptr ep
  | Consolidate => stubs (es_tables s') = ∅ ∧ entries (es_tables s') = entries (es_tables s) ∧ fields (es_tables s') = fields (es_tables s)
  end.

Lemma export_step_spec s es ev : sys_ok s es → event_ok s ev →
  ∃ r s' new, export_step s ev = Some (r, s') ∧ sys_ok s' (es ++ new) ∧ event_result s ev r s'.
Proof.
  intros [Hok Hp] He. pose proof (li_entries _ _ (xo_listed _ _ Hok)) as Hsz. unfold event_ok, export_room, export_list_size in He.
  destruct ev as [k|tid k|tid ptr|ptr k|]; cbn [Exports.export_step event_result].
  - rewrite (erts_find_export_entry_spec _ es) by done. cbn [mbind option_bind]. eexists _, _, []. by rewrite app_nil_r.
  - rewrite (erts_find_export_entry_spec _ es) by done. cbn [mbind option_bind]. eexists _, _, []. rewrite app_nil_r. split; [done|].
    destruct (primary (es_tables s) !! k) as [ep|] eqn:E; [done|]. split; [|done]. split; [done|]. intros tid' k'. cbn.
    rewrite lookup_insert_Some. intros [[_ <-]|[_ Hk']]; [done|by eapply Hp].
  - destruct He as [k Hk]. rewrite Hk. cbn [mbind option_bind].
    destruct (make_stub_spec _ es ptr k Hok (Hp _ _ Hk)) as (ep & st' & -> & Hok' & He & Hpr & _). cbn [mbind option_bind].
    eexists _, _, []. rewrite app_nil_r. split; [done|]. split; [split; [done|]|by exists k, ep].
    intros tid' k'. cbn. rewrite lookup_delete_Some, Hpr. intros [_ Hk']. by eapply Hp.
  - destruct He as (Hpe & Hst & Hroom). destruct (erts_export_put_spec _ es ptr k Hok Hst ltac:(lia)) as (ep & st' & new & -> & Hok' & He & _).
    cbn [mbind option_bind]. eexists _, _, new. split; [done|]. split; [split; [done|]|by exists ep]. intros tid' k'. cbn. by rewrite Hpe.
  - destruct He as (Hpe & Hroom). destruct (erts_export_consolidate_spec _ es Hok ltac:(lia)) as (st' & -> & Hok' & H1 & H2 & H3).
    cbn [mbind option_bind]. eexists _, _, _. split; [done|]. split; [split; [done|]|done]. intros tid' k'. cbn. by rewrite Hpe.
Qed.

(** Entries are never replaced. *)
Lemma event_result_mono s es ev r s' : sys_ok s es → event_result s ev r s' → entries (es_tables s) ⊆ entries (es_tables s').
Proof.
  intros [Hok _] Hr.
  assert (∀ k ptr ep, entry_for (es_tables s) (es_tables s') k ptr ep → entries (es_tables s) ⊆ entries (es_tables s')) as Hin.
  { intros k ptr ep (-> & Hk & _). apply map_subseteq_spec. intros k' e Hk'. destruct (decide (k = k')) as [->|]; [|by rewrite lookup_insert_ne].
    rewrite Hk' in Hk. by rewrite lookup_insert_eq, Hk. }
  destruct ev as [k|tid k|tid ptr|ptr k|]; cbn in Hr.
  - by destruct Hr as [_ ->].
  - by destruct Hr as (_ & -> & _).
  - destruct Hr as (k & ep & _ & _ & He). by eapply Hin.
  - destruct Hr as (ep & _ & He). by eapply Hin.
  - by destruct Hr as (_ & -> & _).
Qed.

(** The key a call is about, and the runs of the system with the entries that were returned for keys. *)
Definition event_key s (ev : export_event) : option mfa :=
  match ev with Find k | Stub _ k | ExportPut _ k => Some k | StubPut tid _ => es_pending s !! tid | Consolidate => None end.
Definition returned s (ev : export_event) (r : option Export) : list (mfa * Export) :=
  match event_key s ev, r with Some k, Some e => [(k, e)] | _, _ => [] end.

Inductive export_trace : export_sys → list (mfa * Export) → export_sys → Prop :=
| et_nil s : export_trace s [] s
| et_cons s ev r s1 tr s2 : event_ok s ev → export_step s ev = Some (r, s1) → export_trace s1 tr s2 → export_trace s (returned s ev r ++ tr) s2.

Lemma returned_entry s es ev r s' k e : sys_ok s es → event_result s ev r s' → (k, e) ∈ returned s ev r → entries (es_tables s') !! k = Some e.
Proof.
  intros [Hok _] Hr Hin. unfold returned in Hin. destruct (event_key s ev) as [k'|] eqn:Ek; [|by apply elem_of_nil in Hin].
  destruct r as [e'|]; [|by apply elem_of_nil in Hin]. apply list_elem_of_singleton in Hin as [= <- <-].
  destruct ev as [k0|tid k0|tid ptr|ptr k0|]; cbn in Hr, Ek; simplify_eq.
  - destruct Hr as [Hr ->]. apply (entries_lookup _ es); [done|by left].
  - destruct Hr as (Hr & -> & _). apply (entries_lookup _ es); [done|by left].
  - destruct Hr as (k0 & ep & Hk & [= <-] & -> & _). simplify_eq. by rewrite lookup_insert_eq.
  - destruct Hr as (ep & [= <-] & -> & _). by rewrite lookup_insert_eq.
Qed.

Lemma export_trace_spec s tr s' : export_trace s tr s' → ∀ es, sys_ok s es →
  ∃ new, sys_ok s' (es ++ new) ∧ entries (es_tables s) ⊆ entries (es_tables s') ∧ ∀ k e, (k, e) ∈ tr → entries (es_tables s') !! k = Some e.
Proof.
  induction 1 as [s|s ev r s1 tr s2 He Hs _ IH]; intros es Hok.
  { exists []. rewrite app_nil_r. split; [done|]. split; [done|]. intros k e Hin. by apply elem_of_nil in Hin. }
  destruct (export_step_spec s es ev Hok He) as (r' & s1' & new & Es & Hok1 & Hr). rewrite Hs in Es. injection Es as <- <-.
  destruct (IH _ Hok1) as (new' & Hok2 & Hm & Hin2). exists (new ++ new'). rewrite app_assoc. split; [done|].
  pose proof (event_result_mono _ _ _ _ _ Hok Hr) as Hm1. split; [by etrans|]. intros k e [Hin|Hin]%elem_of_app; [|by apply Hin2].
  eapply lookup_weaken; [|exact Hm]. exact (returned_entry _ _ _ _ _ _ _ Hok Hr Hin).
Qed.

End Spec.

(** ** Modules *)
Section ModuleSpec.
Context {dw : DigitWidth}.
Definition modules_ok (st : module_state) (ms : list Module) : Prop := listed (module_table st) ms ∧ t_limit (module_table st) = MODULE_LIMIT.

Lemma erts_get_module_spec (st : module_state) ms i : modules_ok st ms → 0 ≤ i < ATOM_LIMIT →
  erts_get_module st (make_atom i) = Some (table_map (t_htable (module_table st)) !! i).
Proof.
  intros [L _] Hi. unfold erts_get_module. rewrite (proj2 (make_atom_spec i Hi)). rewrite index_get_spec by apply L. cbn [mbind option_bind okey module_laws m_module].
  destruct (table_map _ !! i) as [m|] eqn:E; [|done]. apply (listed_map _ ms) in E as [[j Hj]%list_elem_of_lookup _]; [|done].
  destruct (listed_field _ ms j m L Hj) as [_ ->]. replace (Z.of_nat j =? -1) with false by lia. by rewrite (li_lookup _ _ L j m Hj).
Qed.

Lemma erts_put_module_spec (st : module_state) ms ptr i : modules_ok st ms → 0 ≤ i < ATOM_LIMIT → zlen ms < MODULE_LIMIT →
  ∃ m st' new, erts_put_module st ptr (make_atom i) = Some (Some m, st') ∧ modules_ok st' (ms ++ new) ∧ zlen new ≤ 1 ∧
    table_map (t_htable (module_table st')) = <[i := m]> (table_map (t_htable (module_table st))) ∧
    (table_map (t_htable (module_table st)) !! i = Some m ∨
     table_map (t_htable (module_table st)) !! i = None ∧ m = MkModule ptr i ∧ m_fields st' m = ModuleFields 0 0 0 0) ∧
    ∀ o, o ∈ ms → m_fields st' o = m_fields st o.
Proof.
  intros [L Hl] Hi Hroom. unfold erts_put_module. rewrite (proj2 (make_atom_spec i Hi)). rewrite hash_get_spec by apply L.
  change (okey (MkModule 0 i)) with i. cbn [mbind option_bind]. destruct (table_map _ !! i) as [m|] eqn:E.
  - pose proof E as E'. apply (listed_map _ ms) in E' as [[j Hj]%list_elem_of_lookup Hm]; [|done].
    rewrite (proj1 (listed_put _ _ (MkModule 0 i) (MkModule 0 i) L eq_refl) j m Hj Hm). cbn [mbind option_bind].
    exists m, st, []. rewrite (li_lookup _ _ L j m Hj), app_nil_r. split; [by destruct st|]. split; [done|]. split; [done|]. split; [by rewrite insert_id|]. split; [by left|done].
  - assert (i ∉ m_module <$> ms) as Hn by (by apply (listed_map_None _ _ _ L)). cbn [module_alloc m_module]. set (obj := MkModule ptr i).
    assert (obj ∉ ms) as Ho by (intros Hin; destruct Hn; apply list_elem_of_fmap; by exists obj). cbn [module_table m_fields].
    destruct (proj2 (listed_put _ _ (MkModule 0 i) obj (listed_set_field _ _ obj (-1) L Ho) eq_refl) Hn) as (t' & Ep & L' & Hl' & _).
    { cbn. unfold set_index. by rewrite decide_True. }
    { cbn. by rewrite Hl. }
    rewrite Ep. cbn [mbind option_bind]. assert (erts_index_lookup t' (zlen ms) = Some obj) as ->.
    { apply (li_lookup _ _ L'). rewrite lookup_app_r, Nat.sub_diag by done. done. }
    eexists obj, _, [obj]. split; [done|]. split; [split; [done|cbn; by rewrite Hl']|]. split; [done|]. split; [exact (listed_map_snoc _ ms t' obj L L')|]. split.
    + right. split; [done|]. split; [done|]. cbn. by rewrite decide_True.
    + intros o Hin. cbn. by rewrite decide_False by (intros ->; done).
Qed.

(** Calls of [erts_get_module] and [erts_put_module] for the atom numbered [i], on the table and on a finite map. *)
Inductive module_event :=
| GetModule (i : Z)
| PutModule (ptr i : Z).
Definition module_event_atom (ev : module_event) : Z := match ev with GetModule i | PutModule _ i => i end.

Definition module_step (st : module_state) (ev : module_event) : option (option Module * module_state) :=
  match ev with
  | GetModule i => r ← erts_get_module st (make_atom i); Some (r, st)
  | PutModule ptr i => erts_put_module st ptr (make_atom i)
  end.
Fixpoint module_run (st : module_state) (evs : list module_event) : option (list (option Module) * module_state) :=
  match evs with
  | [] => Some ([], st)
  | ev :: evs => '(r, st) ← module_step st ev; '(rs, st) ← module_run st evs; Some (r :: rs, st)
  end.

Definition map_step (m : gmap Z Module) (ev : module_event) : option Module * gmap Z Module :=
  match ev with
  | GetModule i => (m !! i, m)
  | PutModule ptr i => let x := default (MkModule ptr i) (m !! i) in (Some x, <[i := x]> m)
  end.
Fixpoint map_run (m : gmap Z Module) (evs : list module_event) : list (option Module) * gmap Z Module :=
  match evs with
  | [] => ([], m)
  | ev :: evs => let '(r, m) := map_step m ev in let '(rs, m) := map_run m evs in (r :: rs, m)
  end.

Lemma module_step_spec (st : module_state) ms ev : modules_ok st ms → 0 ≤ module_event_atom ev < ATOM_LIMIT → zlen ms < MODULE_LIMIT →
  let '(r, m) := map_step (table_map (t_htable (module_table st))) ev in
  ∃ st' new, module_step st ev = Some (r, st') ∧ modules_ok st' (ms ++ new) ∧ zlen new ≤ 1 ∧ m = table_map (t_htable (module_table st')) ∧
    ∀ o, o ∈ ms → m_fields st' o = m_fields st o.
Proof.
  intros Hok Hi Hroom. destruct ev as [i|ptr i]; cbn [map_step module_step module_event_atom] in *.
  - rewrite (erts_get_module_spec _ ms) by done. exists st, []. by rewrite app_nil_r.
  - destruct (erts_put_module_spec st ms ptr i Hok Hi Hroom) as (m & st' & new & -> & Hok' & Hle & Em & Hm & Hf).
    assert (default (MkModule ptr i) (table_map (t_htable (module_table st)) !! i) = m) as -> by (by destruct Hm as [->|(-> & -> & _)]).
    by exists st', new.
Qed.

Lemma module_run_spec evs : ∀ (st : module_state) ms, modules_ok st ms → Forall (λ ev, 0 ≤ module_event_atom ev < ATOM_LIMIT) evs →
  zlen ms + zlen evs ≤ MODULE_LIMIT →
  let '(rs, m) := map_run (table_map (t_htable (module_table st))) evs in
  ∃ st' new, module_run st evs = Some (rs, st') ∧ modules_ok st' (ms ++ new) ∧ m = table_map (t_htable (module_table st')) ∧
    ∀ o, o ∈ ms → m_fields st' o = m_fields st o.
Proof.
  induction evs as [|ev evs IH]; intros st ms Hok Hat Hroom.
  { exists st, []. by rewrite app_nil_r. }
  apply Forall_cons in Hat as [Hi Hat]. cbn [length] in Hroom. pose proof (module_step_spec st ms ev Hok Hi ltac:(lia)) as Hs.
  cbn [map_run module_run]. destruct (map_step _ ev) as [r m]. destruct Hs as (st1 & new & -> & Hok1 & Hn & -> & Hf). cbn [mbind option_bind].
  pose proof (IH st1 _ Hok1 Hat) as Hr. rewrite length_app in Hr. specialize (Hr ltac:(lia)). destruct (map_run _ evs) as [rs m'].
  destruct Hr as (st2 & new' & -> & Hok2 & -> & Hf2). exists st2, (new ++ new'). rewrite app_assoc. split; [done|]. split; [done|]. split; [done|].
  intros o Ho. rewrite Hf2 by (apply elem_of_app; by left). by apply Hf.
Qed.
End ModuleSpec.

(** * Properties *)
Section Properties.
Context {dw : DigitWidth}.

Lemma init_export_table_spec name name2 ix fs : ∃ st0, init_export_table name name2 ix fs = Some st0 ∧ exports_ok st0 [] ∧ entries st0 = ∅.
Proof.
  unfold init_export_table. destruct (listed_init (O := Export) (K := mfa) name EXPORT_INITIAL_SIZE EXPORT_LIMIT ix) as (t & -> & L & Hl & _); [done..|].
  destruct (hash_init_ok (O := Export) name2 50) as (h & -> & Hh & Ho & _); [done|]. cbn [mbind option_bind]. eexists. split; [done|].
  assert (stubs (ExportState t h fs) = ∅) as Es by (unfold stubs, table_map; cbn; by rewrite Ho).
  split; [split; [done|done|done|rewrite Es; apply map_disjoint_empty_l]|]. unfold entries. rewrite Es, (right_id_L ∅ (∪)). unfold primary. cbn.
  apply map_empty. intros k. by apply (listed_map_None _ _ _ L), not_elem_of_nil.
Qed.

(** The atomic call is the two steps without others in between. *)
Lemma erts_export_get_or_make_stub_spec eh st es ptr k : exports_ok st es →
  ∃ ep st', erts_export_get_or_make_stub eh st ptr k = Some (ep, st') ∧ exports_ok st' es ∧ entry_for eh st st' k ptr ep.
Proof.
  intros Hok. unfold erts_export_get_or_make_stub. rewrite (erts_find_export_entry_spec _ es) by done. cbn [mbind option_bind].
  destruct (primary st !! k) as [ep|] eqn:E; [|destruct (make_stub_spec eh st es ptr k Hok E) as (ep & st' & ? & ? & ? & _); by exists ep, st'].
  exists ep, st. split; [done|]. split; [done|]. assert (entries st !! k = Some ep) as Ee by (apply (entries_lookup st es); [done|by left]).
  split; [by rewrite insert_id|]. by rewrite Ee.
Qed.

(** The export table has one entry per function, for good, whatever the interleaving of the threads.  [init_export_table] yields empty tables; in
    any run of [erts_find_export_entry], [erts_export_get_or_make_stub] (with other threads between its lookup and its critical section),
    [erts_export_put] and [erts_export_consolidate] calls, two calls for a module, function and arity that return an entry return the same one,
    also when it has moved from the table of stubs in between; the list of entries has no function twice; each call completes with the entry that
    was there or with a new one that leads to the error handler, for which [erts_find_function] answers [NULL], and changes no other entry. *)
Lemma export_table_one_entry (eh traced : Z) (name name2 : list Z) (ix : Export → Z) (fs : Export → export_fields) :
  ∃ st0, init_export_table name name2 ix fs = Some st0 ∧ entries st0 = ∅ ∧
  ∀ tr s, export_trace eh (ESys st0 ∅) tr s →
  (∀ k e, (k, e) ∈ tr → e_code e = k ∧ entries (es_tables s) !! k = Some e) ∧
  (∃ es, NoDup (e_code <$> es) ∧ export_list_size (es_tables s) = zlen es ∧
     (∀ i e, es !! i = Some e → export_list (es_tables s) (Z.of_nat i) = Some e) ∧
     ∀ k e, primary (es_tables s) !! k = Some e ↔ e ∈ es ∧ e_code e = k) ∧
  (∀ k, erts_find_export_entry (es_tables s) k = Some (primary (es_tables s) !! k) ∧
     export_get (es_tables s) (MkExport 0 k) = Some (primary (es_tables s) !! k)) ∧
  (∀ k e, primary (es_tables s) !! k = Some e → fields (es_tables s) e = initial_fields eh e → eh ≠ traced →
     erts_find_function traced (es_tables s) k = Some None) ∧
  (∀ ev, event_ok s ev → ∃ r s', export_step eh s ev = Some (r, s') ∧ event_result eh s ev r s') ∧
  (∀ ptr k, ∃ ep st', erts_export_get_or_make_stub eh (es_tables s) ptr k = Some (ep, st') ∧ entry_for eh (es_tables s) st' k ptr ep) ∧
  ∀ ptr k e, stubs (es_tables s) !! k = Some e → export_list_size (es_tables s) < EXPORT_LIMIT →
    ∃ st', erts_export_put eh (es_tables s) ptr k = Some (Some (MkExport ptr k), st') ∧
      primary st' !! k = Some (MkExport ptr k) ∧ stubs st' !! k = Some e ∧ erts_export_consolidate st' = None.
Proof.
  destruct (init_export_table_spec name name2 ix fs) as (st0 & E & Hok0 & He). exists st0. split; [done|]. split; [done|]. intros tr s Htr.
  destruct (export_trace_spec eh _ _ _ Htr []) as (es & Hok & _ & Htr'); [by split|]. cbn [app] in Hok. pose proof Hok as [Hx _]. pose proof (xo_listed _ _ Hx) as L.
  split; [|split; [|split; [|split; [|split; [|split]]]]].
  - intros k e Hin. pose proof (Htr' _ _ Hin) as Hk. split; [|done]. apply (entries_lookup _ es) in Hk as [Hk|Hk]; [..|done].
    + by apply (primary_code _ es) in Hk as [_ ?].
    + by apply (stubs_code _ es) in Hk as [_ ?].
  - exists es. split; [by apply (listed_nodup _ _ L)|]. split; [by apply (li_entries _ _ L)|]. split; [by apply (li_lookup _ _ L)|]. intros k e. apply (listed_map _ _ _ _ L).
  - intros k. split; [by apply (erts_find_export_entry_spec _ es)|]. unfold export_get. by rewrite hash_get_spec by apply L.
  - intros k e Hk Hf Hne. rewrite (erts_find_function_spec _ _ es) by done. rewrite Hk, Hf. cbn. by rewrite Z.eqb_refl, (proj2 (Z.eqb_neq _ _) Hne).
  - intros ev Hev. destruct (export_step_spec eh s es ev Hok Hev) as (r & s' & new & Hs & _ & Hr). by exists r, s'.
  - intros ptr k. destruct (erts_export_get_or_make_stub_spec eh _ es ptr k Hx) as (ep & st' & Hs & _ & Hf). by exists ep, st'.
  - intros ptr k e Hk Hroom. apply (erts_export_put_stub eh _ es); [done..|]. pose proof (li_entries _ _ L). unfold export_list_size in Hroom. lia.
Qed.

(** The module table is a finite map.  Any sequence of fewer than [MODULE_LIMIT] calls of [erts_get_module] and [erts_put_module] for atoms completes
    and returns the modules that a finite map returns, where a put adds a module only when there is none; the modules are numbered
    in the order they were added, and a new one has no code, current or old, and leaves the code of the others alone. *)
Lemma module_table_refines_map (name : list Z) (ix : Module → Z) (fs : Module → module_fields) (evs : list module_event) :
  Forall (λ ev, 0 ≤ module_event_atom ev < ATOM_LIMIT) evs → zlen evs < MODULE_LIMIT →
  ∃ st0 st ms, init_module_table name ix fs = Some st0 ∧ module_run st0 evs = Some ((map_run ∅ evs).1, st) ∧
    NoDup (m_module <$> ms) ∧ module_code_size st = zlen ms ∧
    (∀ j m, ms !! j = Some m → module_code st (Z.of_nat j) = Some m) ∧
    (∀ i m, (map_run ∅ evs).2 !! i = Some m ↔ m ∈ ms ∧ m_module m = i) ∧
    ∀ ptr i, 0 ≤ i < ATOM_LIMIT → (map_run ∅ evs).2 !! i = None → zlen ms < MODULE_LIMIT →
      ∃ st', erts_put_module st ptr (make_atom i) = Some (Some (MkModule ptr i), st') ∧ m_fields st' (MkModule ptr i) = ModuleFields 0 0 0 0 ∧
        ∀ m, m ∈ ms → m_fields st' m = m_fields st m.
Proof.
  intros Hat Hn. unfold init_module_table.
  destruct (listed_init (O := Module) (K := Z) name MODULE_SIZE MODULE_LIMIT ix) as (t & -> & L0 & Hl0 & _); [done..|]. cbn [mbind option_bind].
  assert (table_map (t_htable t) = ∅) as Em by (apply map_empty; intros k; by apply (listed_map_None _ _ _ L0), not_elem_of_nil).
  pose proof (module_run_spec evs (ModuleState t fs) [] ltac:(by split) Hat ltac:(cbn [length]; lia)) as Hr. cbn [module_table] in Hr. rewrite Em in Hr.
  destruct (map_run ∅ evs) as [rs m]. destruct Hr as (st & ms & Hrun & Hok & -> & _). cbn [app] in Hok. pose proof Hok as [L _].
  exists (ModuleState t fs), st, ms. split; [done|]. split; [done|]. split; [by apply (listed_nodup _ _ L)|]. split; [by apply (li_entries _ _ L)|].
  split; [by apply (li_lookup _ _ L)|]. split; [intros i m; apply (listed_map _ _ _ _ L)|]. intros ptr i Hi Hk Hroom. cbn [snd] in Hk.
  destruct (erts_put_module_spec st ms ptr i Hok Hi Hroom) as (m & st' & new & Hp & _ & _ & _ & [Hm|(_ & -> & Hz)] & Hf); [congruence|]. by exists st'.
Qed.

(** C18: One entry per function, whatever the interleaving.  In any run of [erts_find_export_entry], [erts_export_get_or_make_stub] (with
    other threads between its lookup and its critical section), [erts_export_put] and [erts_export_consolidate] calls where no function with
    a stub is put before the stubs are consolidated, nobody else runs during the last two and there is room ([event_ok]), two
    calls for a function that return an entry return the same one, also when it has moved from the stubs; the list has no function
    twice; each call completes with the entry that was there or a new one for the error handler ([erts_find_function] answers [NULL])
    and changes no other one.  Without the condition on stubs it fails: [erts_export_put] makes a second entry and the next
    consolidation aborts.  The module table is a finite map: any fewer than [MODULE_LIMIT] gets and puts complete and return what a
    map does; modules are numbered in order, a new one has no code and leaves the others alone. *)
Theorem export_and_module_tables :
  (∀ (eh traced : Z) (name name2 : list Z) (ix : Export → Z) (fs : Export → export_fields), ∃ st0, init_export_table name name2 ix fs = Some st0 ∧ entries st0 = ∅ ∧
  ∀ tr s, export_trace eh (ESys st0 ∅) tr s →
  (∀ k e, (k, e) ∈ tr → e_code e = k ∧ entries (es_tables s) !! k = Some e) ∧
  (∃ es, NoDup (e_code <$> es) ∧ export_list_size (es_tables s) = zlen es ∧
     (∀ i e, es !! i = Some e → export_list (es_tables s) (Z.of_nat i) = Some e) ∧
     ∀ k e, primary (es_tables s) !! k = Some e ↔ e ∈ es ∧ e_code e = k) ∧
  (∀ k, erts_find_export_entry (es_tables s) k = Some (primary (es_tables s) !! k) ∧
     export_get (es_tables s) (MkExport 0 k) = Some (primary (es_tables s) !! k)) ∧
  (∀ k e, primary (es_tables s) !! k = Some e → fields (es_tables s) e = initial_fields eh e → eh ≠ traced →
     erts_find_function traced (es_tables s) k = Some None) ∧
  (∀ ev, event_ok s ev → ∃ r s', export_step eh s ev = Some (r, s') ∧ event_result eh s ev r s') ∧
  (∀ ptr k, ∃ ep st', erts_export_get_or_make_stub eh (es_tables s) ptr k = Some (ep, st') ∧ entry_for eh (es_tables s) st' k ptr ep) ∧
  ∀ ptr k e, stubs (es_tables s) !! k = Some e → export_list_size (es_tables s) < EXPORT_LIMIT →
    ∃ st', erts_export_put eh (es_tables s) ptr k = Some (Some (MkExport ptr k), st') ∧
      primary st' !! k = Some (MkExport ptr k) ∧ stubs st' !! k = Some e ∧ erts_export_consolidate st' = None) ∧
  (∀ (name : list Z) (ix : Module → Z) (fs : Module → module_fields) (evs : list module_event), Forall (λ ev, 0 ≤ module_event_atom ev < ATOM_LIMIT) evs → zlen evs < MODULE_LIMIT →
  ∃ st0 st ms, init_module_table name ix fs = Some st0 ∧ module_run st0 evs = Some ((map_run ∅ evs).1, st) ∧
    NoDup (m_module <$> ms) ∧ module_code_size st = zlen ms ∧
    (∀ j m, ms !! j = Some m → module_code st (Z.of_nat j) = Some m) ∧
    (∀ i m, (map_run ∅ evs).2 !! i = Some m ↔ m ∈ ms ∧ m_module m = i) ∧
    ∀ ptr i, 0 ≤ i < ATOM_LIMIT → (map_run ∅ evs).2 !! i = None → zlen ms < MODULE_LIMIT →
      ∃ st', erts_put_module st ptr (make_atom i) = Some (Some (MkModule ptr i), st') ∧ m_fields st' (MkModule ptr i) = ModuleFields 0 0 0 0 ∧
        ∀ m, m ∈ ms → m_fields st' m = m_fields st m).
Proof. split; [exact export_table_one_entry|exact module_table_refines_map]. Qed.
End Properties.

(** ** Instances *)
Module Instances.
#[local] Instance dw64 : DigitWidth := {| H_EXP := 32; H_EXP_cases := or_intror eq_refl |}.

(** Two threads find no entry for a function before either has made a stub. *)
Lemma two_stubs (eh : Z) st es (ptr1 ptr2 : Z) k : exports_ok st es → primary st !! k = None →
  ∃ e1 e2 s, export_trace eh (ESys st ∅) [(k, e1); (k, e2)] s ∧ exports_ok (es_tables s) es ∧ primary (es_tables s) !! k = None.
Proof.
  intros Hok Hk. pose proof (erts_find_export_entry_spec _ _ k Hok) as Ef. rewrite Hk in Ef.
  destruct (make_stub_spec eh st es ptr2 k Hok Hk) as (e1 & st1 & E1 & Hok1 & _ & Hp & _).
  destruct (make_stub_spec eh st1 es ptr1 k Hok1) as (e2 & st2 & E2 & Hok2 & _ & Hp2 & _); [by rewrite Hp|].
  exists e1, e2, (ESys st2 ∅). split; [|split; [exact Hok2|cbn; by rewrite Hp2, Hp]].
  apply (et_cons _ _ (Stub 1 k) None (ESys st {[1%nat := k]})); [done|cbn; by rewrite Ef|].
  apply (et_cons _ _ (Stub 2 k) None (ESys st {[2%nat := k; 1%nat := k]})); [done|cbn; by rewrite Ef|].
  assert (∀ s s' r e tr ev, event_ok s ev → export_step eh s ev = Some (Some e, s') → event_key s ev = Some k → export_trace eh s' tr r →
    export_trace eh s ((k, e) :: tr) r) as Hcons by (intros s s' r e tr ev Hev Hs Hkey Ht; pose proof (et_cons _ _ _ _ _ _ _ Hev Hs Ht) as T; unfold returned in T; by rewrite Hkey in T).
  apply (Hcons _ (ESys st1 {[1%nat := k]}) _ _ _ (StubPut 2 ptr2)); [by eexists| |done|].
  { unfold export_step. cbn [es_pending es_tables]. rewrite lookup_insert_eq. cbn [mbind option_bind]. by rewrite E1. }
  apply (Hcons _ (ESys st2 ∅) _ _ _ (StubPut 1 ptr1)); [by eexists| |done|constructor].
  unfold export_step. cbn [es_pending es_tables]. rewrite lookup_singleton_eq. cbn [mbind option_bind]. by rewrite E2.
Qed.

(** A module that is put twice is the same one; one that is not there is [NULL]. *)
Lemma export_and_module_tables_witness :
  (∃ st0 s e, init_export_table [101; 0] [115; 0] (λ _, -1) (λ _, ExportFields 0 0 0 0) = Some st0 ∧
    export_trace 77 (ESys st0 ∅) [((11, 75, 2), e); ((11, 75, 2), e)] s ∧ entries (es_tables s) !! (11, 75, 2) = Some e ∧
    ∃ st', erts_export_put 77 (es_tables s) 3000 (11, 75, 2) = Some (Some (MkExport 3000 (11, 75, 2)), st') ∧ erts_export_consolidate st' = None) ∧
  (∃ st0 st, init_module_table [109; 0] (λ _, -1) (λ _, ModuleFields 0 0 0 0) = Some st0 ∧
    module_run st0 [PutModule 1000 5; GetModule 6; PutModule 2000 5; GetModule 5] =
      Some ([Some (MkModule 1000 5); None; Some (MkModule 1000 5); Some (MkModule 1000 5)], st) ∧ module_code_size st = 1).
Proof.
  split.
  - destruct (proj1 export_and_module_tables 77 78 [101; 0] [115; 0] (λ _, -1) (λ _, ExportFields 0 0 0 0)) as (st0 & E & He & H).
    destruct (init_export_table_spec [101; 0] [115; 0] (λ _, -1) (λ _, ExportFields 0 0 0 0)) as (st0' & E' & Hok & _). rewrite E in E'. injection E' as <-.
    assert (entries st0 !! (11, 75, 2) = None) as [Hp _]%lookup_union_None by (by rewrite He).
    destruct (two_stubs 77 st0 [] 1000 2000 _ Hok Hp) as (e1 & e2 & s & Htr & Hoks & Hps). destruct (H _ _ Htr) as (Hall & _ & _ & _ & _ & _ & Hput).
    destruct (Hall (11, 75, 2) e1) as [_ H1]; [by constructor|]. destruct (Hall (11, 75, 2) e2) as [_ H2]; [do 2 constructor|].
    assert (e2 = e1) as -> by congruence. exists st0, s, e1. split; [exact E|]. split; [exact Htr|]. split; [exact H1|].
    apply (entries_lookup _ [] _ _ Hoks) in H1 as [H1|H1]; [congruence|].
    destruct (Hput 3000 _ _ H1) as (st' & Ep & _ & _ & Ec); [|by exists st'].
    unfold export_list_size. rewrite (li_entries _ _ (xo_listed _ _ Hoks)). vm_compute. reflexivity.
  - destruct (proj2 export_and_module_tables [109; 0] (λ _, -1) (λ _, ModuleFields 0 0 0 0) [PutModule 1000 5; GetModule 6; PutModule 2000 5; GetModule 5])
    as (st0 & st & ms & E & Hr & Hnd & Hsz & _ & Hm & _).
  { repeat constructor; cbn; unfold ATOM_LIMIT; lia. }
  { vm_compute; reflexivity. }
  exists st0, st. split; [exact E|]. split; [exact Hr|]. rewrite Hsz. clear - Hnd Hm. cbn in Hm.
  assert (ms ≡ₚ [MkModule 1000 5]) as ->%Permutation_length; [|reflexivity].
  apply NoDup_Permutation; [by eapply NoDup_fmap_1|apply NoDup_singleton|]. intros m. rewrite list_elem_of_singleton. split.
    + intros Hin. pose proof (proj2 (Hm (m_module m) m) (conj Hin eq_refl)) as Hl. revert Hl. rewrite !lookup_insert_Some. naive_solver.
    + intros ->. by apply (Hm 5).
Defined.
End Instances.
