(* ===== verification/Register.v ===== *)
(** The registry of names of processes and ports: [erts/emulator/beam/register.c] with SMP support.

    The table of names is guarded by one lock; [reg] in a process or port points back to its entry.  A port is changed under its own lock, which
    may not be waited for while the lock of the table is held: [erts_unregister_name] and [erts_whereis_name] try it, and if it is taken
    they release the table, wait for the port and start again.  Each stretch between two such points is one step of a transition system, and
    other threads may do anything in between that the locks allow.

    The state has the lock of the table, with the operations undefined that release it when it is not held, and the owner of the lock of every
    port.  The locks of processes, which are taken where [reg] of a process is changed, are left out, like tracing.  What the process
    and port tables contain is a component of the state. *)

From Stdlib Require Import ZArith ZifyBool.
From stdpp Require Import base list numbers option gmap.
From S2P Require Import Prelude Hash HashSpec Index Big Atoms.
Local Open Scope Z_scope.

Definition PREG_HASH_SIZE : Z := 10.
Definition TAG_IMMED1_MASK : Z := 15.
Definition TAG_IMMED1_PID : Z := Z.lor (Z.shiftl 0 2) 3.
Definition TAG_IMMED1_PORT : Z := Z.lor (Z.shiftl 1 2) 3.
Definition THE_NON_VALUE : Z := 0.
Definition is_internal_pid (x : Z) : bool := Z.land x TAG_IMMED1_MASK =? TAG_IMMED1_PID.
Definition is_internal_port (x : Z) : bool := Z.land x TAG_IMMED1_MASK =? TAG_IMMED1_PORT.

(** An entry is its address with its fields, which never change; [None] is [NULL]. *)
Record RegProc := MkRegProc { r_ptr : Z; r_name : Z; r_p : option Z; r_pt : option Z }.
#[export] Instance RegProc_eq_dec : EqDecision RegProc.
Proof. solve_decision. Defined.

Record Process := MkProcess { p_id : Z; p_reg : option RegProc; p_is_exiting : bool }.
Record Port := MkPort { pt_id : Z; pt_reg : option RegProc }.

Section Register.
Context {dw : DigitWidth} (am_undefined : Z).

Definition REG_HASH (term : Z) : Z := dig (atom_val term).
Definition reg_hash (obj : RegProc) : Z := REG_HASH (r_name obj).
Definition reg_cmp (tmpl obj : RegProc) : Z := if negb (r_name tmpl =? r_name obj) then 1 else 0.
#[export] Instance reg_functions : HashFunctions RegProc := {| hf_hash := reg_hash; hf_cmp := reg_cmp |}.

(** Processes and ports by address, the addresses by identifier, and the threads that have the locks of ports. *)
Record reg_state := RegState {
  process_reg : Hash RegProc;
  regtab_locked : bool;
  processes : gmap Z Process;
  process_tab : gmap Z Z;
  ports : gmap Z Port;
  port_tab : gmap Z Z;
  port_locks : gmap Z nat }.
Implicit Types (st : reg_state) (tid : nat).

Definition set_table st (h : Hash RegProc) : reg_state :=
  RegState h (regtab_locked st) (processes st) (process_tab st) (ports st) (port_tab st) (port_locks st).
Definition set_locked st (b : bool) : reg_state :=
  RegState (process_reg st) b (processes st) (process_tab st) (ports st) (port_tab st) (port_locks st).
Definition set_port_locks st (ls : gmap Z nat) : reg_state :=
  RegState (process_reg st) (regtab_locked st) (processes st) (process_tab st) (ports st) (port_tab st) ls.
(** [p->reg = r], [pt->reg = r] *)
Definition set_p_reg st (p : Z) (r : option RegProc) : option reg_state :=
  pr ← processes st !! p;
  Some (RegState (process_reg st) (regtab_locked st) (<[p := MkProcess (p_id pr) r (p_is_exiting pr)]> (processes st)) (process_tab st)
          (ports st) (port_tab st) (port_locks st)).
Definition set_pt_reg st (pt : Z) (r : option RegProc) : option reg_state :=
  q ← ports st !! pt;
  Some (RegState (process_reg st) (regtab_locked st) (processes st) (process_tab st) (<[pt := MkPort (pt_id q) r]> (ports st)) (port_tab st)
          (port_locks st)).

(** ** Locks *)

(** A lock that is taken makes the caller wait: there is no step.  The two kinds of access to the table are not told apart, as a step ends without it. *)
Definition reg_lock st : option reg_state := if regtab_locked st then None else Some (set_locked st true).
Definition reg_unlock st : option reg_state := if regtab_locked st then Some (set_locked st false) else None.

(** [None] is [EBUSY]. *)
Definition erts_smp_port_trylock tid st (pt : Z) : option reg_state :=
  match port_locks st !! pt with Some _ => None | None => Some (set_port_locks st (<[pt := tid]> (port_locks st))) end.
Definition erts_smp_port_unlock tid st (pt : Z) : option reg_state :=
  if decide (port_locks st !! pt = Some tid) then Some (set_port_locks st (delete pt (port_locks st))) else None.
Definition unlock_port tid st (port : option Z) : option reg_state :=
  match port with Some pt => erts_smp_port_unlock tid st pt | None => Some st end.

(** The port with its lock, or [NULL] if there is none any more. *)
Definition erts_id2port tid st (id : Z) : option (option Z * reg_state) :=
  match port_tab st !! id with
  | Some pt => st ← erts_smp_port_trylock tid st pt; Some (Some pt, st)
  | None => Some (None, st)
  end.

Definition erts_pid2proc st (pid : Z) : option Z :=
  p ← process_tab st !! pid; pr ← processes st !! p; if p_is_exiting pr : bool then None else Some p.

Definition init_register_table (name : list Z) : option (Hash RegProc) := hash_init name PREG_HASH_SIZE.

(** ** Registration *)
Inductive reg_next :=
| Return (res : Z)
| LockReg (proc port : option Z).

(** From [done] on. *)
Definition reg_done tid st (port : option Z) (res : Z) : option (Z * reg_state) :=
  st ← reg_unlock st; st ← unlock_port tid st port; Some (res, st).

(** [erts_register_name] before it takes the lock of the table. *)
Definition register_start tid st (c_p name id : Z) : option (reg_next * reg_state) :=
  if negb (is_atom name) || (name =? am_undefined) then Some (Return 0, st)
  else
    pr ← processes st !! c_p;
    if p_id pr =? id then Some (LockReg (Some c_p) None, st)
    else if negb (is_internal_pid id) && negb (is_internal_port id) then Some (Return 0, st)
    else if is_internal_port id then
      '(port, st) ← erts_id2port tid st id;
      match port with
      | None => '(res, st) ← reg_done tid st None 0; Some (Return res, st)
      | Some _ => Some (LockReg None port, st)
      end
    else Some (LockReg None None, st).

(** [(rp->p && rp->p->id == id) || (rp->pt && rp->pt->id == id)] *)
Definition entry_is st (rp : RegProc) (id : Z) : bool :=
  bool_decide ((p ← r_p rp; p_id <$> processes st !! p) = Some id) || bool_decide ((pt ← r_pt rp; pt_id <$> ports st !! pt) = Some id).

(** [if (rp->p) res = rp->p->id; else if (rp->pt) res = rp->pt->id;] *)
Definition entity_id st (rp : RegProc) : option Z :=
  match r_p rp, r_pt rp with
  | Some p, _ => p_id <$> processes st !! p
  | None, Some pt => pt_id <$> ports st !! pt
  | None, None => None
  end.

(** [hash_put] of [r] and what follows it, up to [done]; [ptr] is where [reg_alloc] puts a new entry. *)
Definition register_put st (ptr name id : Z) (p pt : option Z) : option (Z * reg_state) :=
  '(rp, h) ← hash_put (process_reg st) (MkRegProc 0 name p pt) (MkRegProc ptr name p pt);
  let st := set_table st h in
  st ← match p, pt with
       | Some proc, _ => if decide (r_p rp = p) then set_p_reg st proc (Some rp) else Some st
       | None, Some port => if decide (r_pt rp = pt) then set_pt_reg st port (Some rp) else Some st
       | None, None => Some st
       end;
  Some (if entry_is st rp id then 1 else 0, st).

(** [erts_register_name] from the lock on. *)
Definition register_locked tid st (ptr name id : Z) (proc port : option Z) : option (Z * reg_state) :=
  st ← reg_lock st;
  if is_internal_pid id then
    match (match proc with Some p => Some p | None => erts_pid2proc st id end) with
    | None => reg_done tid st port 0
    | Some p =>
        pr ← processes st !! p;
        match p_reg pr with
        | Some _ => reg_done tid st port 0
        | None => '(res, st) ← register_put st ptr name id (Some p) None; reg_done tid st port res
        end
    end
  else
    pt ← port; q ← ports st !! pt;
    match pt_reg q with
    | Some _ => reg_done tid st port 0
    | None => '(res, st) ← register_put st ptr name id None (Some pt); reg_done tid st port res
    end.

(** ** Lookup *)

(** [while (b) { if (rp->name == name) break; b = b->next; }] *)
Fixpoint find_name (name : Z) (chain : list (HashBucket RegProc)) : option RegProc :=
  match chain with
  | [] => None
  | b :: chain' => if r_name (hb_obj b) =? name then Some (hb_obj b) else find_name name chain'
  end.
Definition find_entry st (name : Z) : option (option RegProc) :=
  let h := process_reg st in
  chain ← h_bucket h !! Z.to_nat (REG_HASH name `mod` h_size h); Some (find_name name chain).

(** [c_p] is only used for its main lock, which is given up and taken again when the lock of the table is not free; its state is not looked at. *)
Definition erts_whereis_name_to_id st (name : Z) : option Z :=
  st ← reg_lock st;
  rp ← find_entry st name;
  let res := match rp with Some rp => default am_undefined (entity_id st rp) | None => am_undefined end in
  _ ← reg_unlock st; Some res.

(** The names, conses in front of [NIL], of all chains in turn. *)
Definition registered_0 st : option (list Z) :=
  st ← reg_lock st;
  let res := foldl (λ res chain, foldl (λ res b, r_name (hb_obj b) :: res) res chain) [] (h_bucket (process_reg st)) in
  _ ← reg_unlock st; Some res.

Definition process_reg_size st : Z := h_size (process_reg st).

(** A call of [erts_whereis_name]: whether [proc] and [port] are not [NULL], the flag [ERTS_P2P_FLG_ALLOW_OTHER_X], and the variables that survive a restart. *)
Record where_call := Where { w_name : Z; w_proc : bool; w_port : bool; w_allow : bool; w_pending_port : option Z; w_rp : option RegProc }.
Inductive where_next :=
| WReturn (proc port : option Z)
| WRestart (id : Z) (w : where_call).

(** The memory of an entry is read. *)
Definition read_entry st (rp : RegProc) : option RegProc := if decide (rp ∈ objs (process_reg st)) then Some rp else None.

Definition where_proc st (w : where_call) (rp : option RegProc) : option (option Z) :=
  if w_proc w then
    match rp with
    | None => Some None
    | Some rp =>
        rp ← read_entry st rp;
        match r_p rp with
        | None => Some None
        | Some p => pr ← processes st !! p; Some (if w_allow w || negb (p_is_exiting pr) then Some p else None)
        end
    end
  else Some None.

Definition where_done tid st (pending proc port : option Z) : option (where_next * reg_state) :=
  st ← unlock_port tid st pending; st ← reg_unlock st; Some (WReturn proc port, st).

(** From [restart] on. *)
Definition where_locked tid st (w : where_call) : option (where_next * reg_state) :=
  st ← reg_lock st;
  found ← find_entry st (w_name w);
  let rp := match found with Some rp => Some rp | None => w_rp w end in
  proc ← where_proc st w rp;
  if w_port w then
    match rp with
    | None => where_done tid st (w_pending_port w) proc None
    | Some rp =>
        rp ← read_entry st rp;
        match r_pt rp with
        | None => where_done tid st (w_pending_port w) proc None
        | Some pt =>
            if decide (w_pending_port w = Some pt) then where_done tid st None proc (Some pt)
            else
              st ← unlock_port tid st (w_pending_port w);
              match erts_smp_port_trylock tid st pt with
              | Some st => where_done tid st None proc (Some pt)
              | None =>
                  q ← ports st !! pt; st ← reg_unlock st;
                  Some (WRestart (pt_id q) (Where (w_name w) (w_proc w) (w_port w) (w_allow w) None (Some rp)), st)
              end
        end
    end
  else where_done tid st (w_pending_port w) proc None.

(** ** Removal *)
Record unreg_call := Unreg { u_c_p : option Z; u_c_prt : option Z; u_name : Z; u_port : option Z }.
Inductive unreg_next :=
| UReturn (res : Z)
| URestart (id : Z).

(** From [done] on.  The wait for [c_prt] after the release of the table belongs to the same step: callers keep to the rule that the lock of
    [c_prt] is not given up, [unreg_ok] below, and then [c_prt] is [NULL] or [port], so that there is nothing to wait for. *)
Definition unreg_done tid st (u : unreg_call) (port : option Z) (res : Z) : option (unreg_next * reg_state) :=
  st ← reg_unlock st;
  st ← (if decide (u_c_prt u = port) then Some st
        else st ← unlock_port tid st port;
             match u_c_prt u with Some c_prt => erts_smp_port_trylock tid st c_prt | None => Some st end);
  Some (UReturn res, st).

(** [hash_erase] and the rest. *)
Definition unreg_erase tid st (u : unreg_call) (name : Z) (port : option Z) : option (unreg_next * reg_state) :=
  '(_, _, h) ← hash_erase (process_reg st) (MkRegProc 0 name None None); unreg_done tid (set_table st h) u port 1.

(** From [restart] on. *)
Definition unregister_locked tid st (u : unreg_call) : option (unreg_next * reg_state) :=
  st ← reg_lock st;
  name ← (if u_name u =? THE_NON_VALUE then c_p ← u_c_p u; pr ← processes st !! c_p; Some (r_name <$> p_reg pr) else Some (Some (u_name u)));
  match name with
  | None => unreg_done tid st u (u_port u) 0
  | Some name =>
      found ← hash_get (process_reg st) (MkRegProc 0 name None None);
      match found with
      | None => unreg_done tid st u (u_port u) 0
      | Some rp =>
          match r_pt rp, r_p rp with
          | Some pt, _ =>
              if decide (u_port u = Some pt) then st ← set_pt_reg st pt None; unreg_erase tid st u name (Some pt)
              else
                st ← unlock_port tid st (u_port u);
                match erts_smp_port_trylock tid st pt with
                | Some st => st ← set_pt_reg st pt None; unreg_erase tid st u name (Some pt)
                | None => q ← ports st !! pt; st ← reg_unlock st; Some (URestart (pt_id q), st)
                end
          | None, Some p => st ← set_p_reg st p None; unreg_erase tid st u name (u_port u)
          | None, None => unreg_erase tid st u name (u_port u)
          end
      end
  end.
End Register.

(** * Threads

    The calls that are not finished: before the critical section, or waiting for the lock of a port before the next attempt. *)
Inductive call :=
| CRegister (name id : Z) (proc port : option Z)
| CUnregister (u : unreg_call)
| CUnregisterPort (u : unreg_call) (id : Z)
| CWhereis (w : where_call)
| CWhereisPort (w : where_call) (id : Z).

Record reg_sys := RSys { rs_state : reg_state; rs_calls : gmap nat call }.

(** Calls, their further steps, and what else happens to processes and ports. *)
Inductive reg_event :=
| Register (tid : nat) (c_p name id : Z)
| Unregister (tid : nat) (c_p c_prt : option Z) (name : Z)
| WhereisName (tid : nat) (name : Z) (proc port allow : bool)
| Whereis (name : Z)
| LockPort (tid : nat)
| Enter (tid : nat) (ptr : Z)
| Spawn (p id : Z)
| Exiting (p : Z)
| Exit (p : Z)
| Open (pt id : Z)
| Close (tid : nat) (pt : Z)
| PortLock (tid : nat) (pt : Z)
| PortUnlock (tid : nat) (pt : Z).

Inductive reg_result :=
| RCalled
| RInt (res : Z)
| RTerm (res : Z)
| RFound (proc port : option Z).

Section Threads.
Context {dw : DigitWidth} (am_undefined : Z).
Implicit Types (st : reg_state) (s : reg_sys) (tid : nat).

Definition set_processes st (ps : gmap Z Process) (tab : gmap Z Z) : reg_state :=
  RegState (process_reg st) (regtab_locked st) ps tab (ports st) (port_tab st) (port_locks st).
Definition set_ports st (ps : gmap Z Port) (tab : gmap Z Z) : reg_state :=
  RegState (process_reg st) (regtab_locked st) (processes st) (process_tab st) ps tab (port_locks st).

Definition with_state s st : reg_sys := RSys st (rs_calls s).
Definition calling s st tid (c : call) : reg_result * reg_sys := (RCalled, RSys st (<[tid := c]> (rs_calls s))).
Definition returning s st tid (r : reg_result) : reg_result * reg_sys := (r, RSys st (delete tid (rs_calls s))).

Definition enter_call s tid (ptr : Z) (c : call) : option (reg_result * reg_sys) :=
  let st := rs_state s in
  match c with
  | CRegister name id proc port => '(res, st) ← register_locked tid st ptr name id proc port; Some (returning s st tid (RInt res))
  | CUnregister u =>
      '(next, st) ← unregister_locked tid st u;
      Some (match next with UReturn res => returning s st tid (RInt res) | URestart id => calling s st tid (CUnregisterPort u id) end)
  | CWhereis w =>
      '(next, st) ← where_locked tid st w;
      Some (match next with WReturn proc port => returning s st tid (RFound proc port) | WRestart id w => calling s st tid (CWhereisPort w id) end)
  | CUnregisterPort _ _ | CWhereisPort _ _ => None
  end.

(** [port = erts_id2port(id, NULL, 0); goto restart;] *)
Definition lock_port s tid (c : call) : option (reg_result * reg_sys) :=
  match c with
  | CUnregisterPort u id =>
      '(port, st) ← erts_id2port tid (rs_state s) id; Some (calling s st tid (CUnregister (Unreg (u_c_p u) (u_c_prt u) (u_name u) port)))
  | CWhereisPort w id =>
      '(port, st) ← erts_id2port tid (rs_state s) id;
      Some (calling s st tid (CWhereis (Where (w_name w) (w_proc w) (w_port w) (w_allow w) port (w_rp w))))
  | _ => None
  end.

Definition env_step st (ev : reg_event) : option reg_state :=
  match ev with
  | Spawn p id => Some (set_processes st (<[p := MkProcess id None false]> (processes st)) (<[id := p]> (process_tab st)))
  | Exiting p => pr ← processes st !! p; Some (set_processes st (<[p := MkProcess (p_id pr) (p_reg pr) true]> (processes st)) (process_tab st))
  | Exit p => pr ← processes st !! p; Some (set_processes st (delete p (processes st)) (delete (p_id pr) (process_tab st)))
  | Open pt id => Some (set_ports st (<[pt := MkPort id None]> (ports st)) (<[id := pt]> (port_tab st)))
  | Close tid pt =>
      q ← ports st !! pt; st ← erts_smp_port_unlock tid st pt;
      Some (set_ports st (delete pt (ports st)) (delete (pt_id q) (port_tab st)))
  | PortLock tid pt => erts_smp_port_trylock tid st pt
  | PortUnlock tid pt => erts_smp_port_unlock tid st pt
  | _ => None
  end.

Definition reg_step s (ev : reg_event) : option (reg_result * reg_sys) :=
  let st := rs_state s in
  match ev with
  | Register tid c_p name id =>
      '(next, st) ← register_start am_undefined tid st c_p name id;
      Some (match next with Return res => (RInt res, with_state s st) | LockReg proc port => calling s st tid (CRegister name id proc port) end)
  | Unregister tid c_p c_prt name => Some (calling s st tid (CUnregister (Unreg c_p c_prt name c_prt)))
  | WhereisName tid name proc port allow => Some (calling s st tid (CWhereis (Where name proc port allow None None)))
  | Whereis name => res ← erts_whereis_name_to_id am_undefined st name; Some (RTerm res, s)
  | LockPort tid => c ← rs_calls s !! tid; lock_port s tid c
  | Enter tid ptr => c ← rs_calls s !! tid; enter_call s tid ptr c
  | _ => st ← env_step st ev; Some (RCalled, with_state s st)
  end.
End Threads.

(** * Specification *)
Section Laws.
Context {dw : DigitWidth}.
#[export, program] Instance reg_laws : HashLaws RegProc Z := {| okey := r_name |}.
Next Obligation. intros a b. cbn. unfold reg_cmp. case_match; lia. Qed.
Next Obligation. intros a b E. cbn in *. unfold reg_hash. by rewrite E. Qed.
Next Obligation. intros a. cbn. apply dig_pos. Qed.
End Laws.

(** What can have a name. *)
Inductive entity := EProc (p : Z) | EPort (pt : Z).
#[export] Instance entity_eq_dec : EqDecision entity.
Proof. solve_decision. Defined.

Section Spec.
Context {dw : DigitWidth} (am_undefined : Z).
Implicit Types (st : reg_state) (s : reg_sys) (tid : nat) (e : entity) (rp : RegProc).

Definition entity_of rp : option entity :=
  match r_p rp, r_pt rp with Some p, None => Some (EProc p) | None, Some pt => Some (EPort pt) | _, _ => None end.
Definition entry_for e (ptr name : Z) : RegProc :=
  match e with EProc p => MkRegProc ptr name (Some p) None | EPort pt => MkRegProc ptr name None (Some pt) end.
Definition reg_of st e : option (option RegProc) :=
  match e with EProc p => p_reg <$> processes st !! p | EPort pt => pt_reg <$> ports st !! pt end.
Definition id_of st e : option Z :=
  match e with EProc p => p_id <$> processes st !! p | EPort pt => pt_id <$> ports st !! pt end.
Definition set_reg st e (r : option RegProc) : option reg_state :=
  match e with EProc p => set_p_reg st p r | EPort pt => set_pt_reg st pt r end.

Definition registry st : gmap Z RegProc := table_map (process_reg st).
(** The names with the identifiers of what they name. *)
Definition names st : gmap Z Z := omap (λ rp, e ← entity_of rp; id_of st e) (registry st).

Record reg_ok st : Prop := {
  ro_hash : hash_ok (process_reg st);
  ro_entry : ∀ rp, rp ∈ objs (process_reg st) → ∃ e, entity_of rp = Some e ∧ reg_of st e = Some (Some rp);
  ro_reg : ∀ e rp, reg_of st e = Some (Some rp) → rp ∈ objs (process_reg st) ∧ entity_of rp = Some e;
  ro_process_tab : ∀ id p, process_tab st !! id = Some p ↔ id_of st (EProc p) = Some id;
  ro_port_tab : ∀ id pt, port_tab st !! id = Some pt ↔ id_of st (EPort pt) = Some id;
  ro_pid : ∀ id p, process_tab st !! id = Some p → is_internal_pid id = true;
  ro_port : ∀ id pt, port_tab st !! id = Some pt → is_internal_port id = true }.

Lemma reg_id st e : is_Some (reg_of st e) ↔ is_Some (id_of st e).
Proof. destruct e; cbn; by rewrite !fmap_is_Some. Qed.

Lemma pid_not_port id : is_internal_pid id = true → is_internal_port id = true → False.
Proof. unfold is_internal_pid, is_internal_port. intros H1%Z.eqb_eq H2%Z.eqb_eq. rewrite H1 in H2. by vm_compute in H2. Qed.

Lemma id_inj st e e' id : reg_ok st → id_of st e = Some id → id_of st e' = Some id → e = e'.
Proof.
  intros Hok H1 H2. destruct e as [p|pt], e' as [p'|pt']; try apply (ro_process_tab _ Hok) in H1; try apply (ro_process_tab _ Hok) in H2;
    try apply (ro_port_tab _ Hok) in H1; try apply (ro_port_tab _ Hok) in H2; try congruence; exfalso;
    [apply (ro_pid _ Hok) in H1; apply (ro_port _ Hok) in H2|apply (ro_pid _ Hok) in H2; apply (ro_port _ Hok) in H1]; by eapply pid_not_port.
Qed.

Lemma names_Some st n id : reg_ok st → names st !! n = Some id ↔ ∃ rp e, registry st !! n = Some rp ∧ entity_of rp = Some e ∧ id_of st e = Some id.
Proof.
  intros Hok. unfold names. rewrite lookup_omap. split.
  - intros (rp & Hr & (e & He & Hi)%bind_Some)%bind_Some. by exists rp, e.
  - intros (rp & e & -> & He & Hi). cbn. by rewrite He.
Qed.

Lemma registry_named st n rp : reg_ok st → registry st !! n = Some rp → ∃ e id, entity_of rp = Some e ∧ reg_of st e = Some (Some rp) ∧ id_of st e = Some id ∧ names st !! n = Some id.
Proof.
  intros Hok Hn. pose proof Hn as [Hin _]%(table_map_lookup _ _ _ (ro_hash _ Hok)). destruct (ro_entry _ Hok rp Hin) as (e & He & Hr).
  destruct (proj1 (reg_id st e)) as [id Hid]; [by eexists|]. exists e, id. split; [done|]. split; [done|]. split; [done|]. apply names_Some; [done|]. by exists rp, e.
Qed.

Lemma names_None st n : reg_ok st → names st !! n = None ↔ registry st !! n = None.
Proof.
  intros Hok. destruct (registry st !! n) as [rp|] eqn:E; [|unfold names; by rewrite lookup_omap, E]. destruct (registry_named st n rp Hok E) as (e & id & _ & _ & _ & ->). done.
Qed.

(** An entity has no entry iff no name leads to it. *)
Lemma unregistered st e id r : reg_ok st → id_of st e = Some id → reg_of st e = Some r → r = None ↔ ∀ n, names st !! n ≠ Some id.
Proof.
  intros Hok Hid Hr. split.
  - intros -> n (rp & e' & Hn & He & Hid')%names_Some; [|done]. rewrite (id_inj _ _ _ _ Hok Hid' Hid) in He. clear e' Hid'.
    apply (table_map_lookup _ _ _ (ro_hash _ Hok)) in Hn as [Hin _]. destruct (ro_entry _ Hok rp Hin) as (e' & He' & Hr'). congruence.
  - intros Hn. destruct r as [rp|]; [|done]. destruct (ro_reg _ Hok e rp Hr) as [Hin He]. destruct (Hn (r_name rp)). apply names_Some; [done|].
    exists rp, e. split; [by apply (table_map_lookup _ _ _ (ro_hash _ Hok))|done].
Qed.

(** ** Changes of entries *)

(** Only entries and back pointers have changed. *)
Record same_entities st st' : Prop := {
  se_id : ∀ e, id_of st' e = id_of st e;
  se_process_tab : process_tab st' = process_tab st;
  se_port_tab : port_tab st' = port_tab st }.

Lemma set_reg_spec st e r r0 : reg_of st e = Some r0 →
  ∃ st', set_reg st e r = Some st' ∧ same_entities st st' ∧ reg_of st' e = Some r ∧ (∀ e', e' ≠ e → reg_of st' e' = reg_of st e') ∧
    process_reg st' = process_reg st ∧ regtab_locked st' = regtab_locked st ∧ port_locks st' = port_locks st.
Proof.
  destruct e as [a|a]; cbn; intros (x & E & _)%fmap_Some; unfold set_p_reg, set_pt_reg; rewrite E; cbn; eexists; (split; [done|]); (split; [split; [|done..]|split]).
  - intros [b|b]; cbn; [|done]. destruct (decide (b = a)) as [->|]; [by rewrite lookup_insert_eq, E|by rewrite lookup_insert_ne].
  - cbn. by rewrite lookup_insert_eq.
  - split; [|done]. intros [b|b] Hne; cbn; [|done]. by rewrite lookup_insert_ne by congruence.
  - intros [b|b]; cbn; [done|]. destruct (decide (b = a)) as [->|]; [by rewrite lookup_insert_eq, E|by rewrite lookup_insert_ne].
  - cbn. by rewrite lookup_insert_eq.
  - split; [|done]. intros [b|b] Hne; cbn; [done|]. by rewrite lookup_insert_ne by congruence.
Qed.

Lemma entry_for_entity e ptr name : entity_of (entry_for e ptr name) = Some e ∧ r_name (entry_for e ptr name) = name.
Proof. by destruct e. Qed.

Lemma reg_ok_tabs st st' : same_entities st st' → reg_ok st →
  (∀ id p, process_tab st' !! id = Some p ↔ id_of st' (EProc p) = Some id) ∧ (∀ id pt, port_tab st' !! id = Some pt ↔ id_of st' (EPort pt) = Some id) ∧
  (∀ id p, process_tab st' !! id = Some p → is_internal_pid id = true) ∧ ∀ id pt, port_tab st' !! id = Some pt → is_internal_port id = true.
Proof. intros [Hid H1 H2] [_ _ _ H3 H4 H5 H6]. rewrite H1, H2. split_and!; try done; intros; by rewrite Hid. Qed.

(** A new entry for an entity that has none. *)
Lemma entry_added st st' e id rp : reg_ok st → same_entities st st' → hash_ok (process_reg st') → entity_of rp = Some e → id_of st e = Some id →
  objs (process_reg st') ≡ₚ rp :: objs (process_reg st) → table_map (process_reg st') = <[r_name rp := rp]> (table_map (process_reg st)) →
  registry st !! r_name rp = None → reg_of st e = Some None → reg_of st' e = Some (Some rp) → (∀ e', e' ≠ e → reg_of st' e' = reg_of st e') →
  reg_ok st' ∧ names st' = <[r_name rp := id]> (names st).
Proof.
  intros Hok Hse Hh He Hid Hp Hm Hnone Hr0 Hr Hrs. destruct (reg_ok_tabs _ _ Hse Hok) as (H1 & H2 & H3 & H4). pose proof (se_id _ _ Hse) as Hids. split.
  - split; [done| | |done..].
    + intros x. rewrite Hp, elem_of_cons. intros [->|Hin]; [by exists e|]. destruct (ro_entry _ Hok x Hin) as (e' & He' & Hr'). exists e'. split; [done|].
      rewrite Hrs; [done|]. congruence.
    + intros e' x Hx. rewrite Hp. destruct (decide (e' = e)) as [->|Hne].
      * rewrite Hr in Hx. injection Hx as <-. split; [by apply list_elem_of_here|done].
      * rewrite Hrs in Hx by done. destruct (ro_reg _ Hok e' x Hx). split; [by apply list_elem_of_further|done].
  - unfold names, registry. rewrite Hm. rewrite omap_insert, He. cbn. rewrite Hids, Hid. f_equal. apply omap_ext. intros n x _. destruct (entity_of x); [apply Hids|done].
Qed.

(** The entry of an entity is removed. *)
Lemma entry_removed st st' e rp : reg_ok st → same_entities st st' → hash_ok (process_reg st') → entity_of rp = Some e →
  objs (process_reg st) ≡ₚ rp :: objs (process_reg st') → table_map (process_reg st') = delete (r_name rp) (table_map (process_reg st)) →
  reg_of st e = Some (Some rp) → reg_of st' e = Some None → (∀ e', e' ≠ e → reg_of st' e' = reg_of st e') →
  reg_ok st' ∧ names st' = delete (r_name rp) (names st).
Proof.
  intros Hok Hse Hh He Hp Hm Hr0 Hr Hrs. destruct (reg_ok_tabs _ _ Hse Hok) as (H1 & H2 & H3 & H4). pose proof (se_id _ _ Hse) as Hids.
  assert (NoDup (objs (process_reg st))) as Hnd.
  { apply (NoDup_fmap_1 r_name). apply (ho_nodup _ (ro_hash _ Hok)). }
  rewrite Hp in Hnd. apply NoDup_cons in Hnd as [Hnot _]. split.
  - split; [done| | |done..].
    + intros x Hin. destruct (ro_entry _ Hok x) as (e' & He' & Hr'); [rewrite Hp; by apply list_elem_of_further|]. exists e'. split; [done|].
      rewrite Hrs; [done|]. intros ->. rewrite Hr0 in Hr'. injection Hr' as ->. done.
    + intros e' x Hx. destruct (decide (e' = e)) as [->|Hne]; [congruence|]. rewrite Hrs in Hx by done. destruct (ro_reg _ Hok e' x Hx) as [Hin He'].
      split; [|done]. rewrite Hp, elem_of_cons in Hin. destruct Hin as [->|]; [congruence|done].
  - unfold names, registry. rewrite Hm, omap_delete. f_equal. apply omap_ext. intros n x _. destruct (entity_of x); [apply Hids|done].
Qed.

(** ** Locks *)
Lemma reg_ok_locked st b : reg_ok st → reg_ok (set_locked st b).
Proof. intros []. by split. Qed.
Lemma reg_ok_port_locks st ls : reg_ok st → reg_ok (set_port_locks st ls).
Proof. intros []. by split. Qed.

(** The thread has locked no port but this one. *)
Definition holds_only st tid (port : option Z) : Prop := ∀ pt, port_locks st !! pt = Some tid → port = Some pt.
Definition owns st tid (port : option Z) : Prop := match port with Some pt => port_locks st !! pt = Some tid | None => True end.
Definition released st (port : option Z) : gmap Z nat := match port with Some pt => delete pt (port_locks st) | None => port_locks st end.

Lemma unlock_port_spec tid st port : owns st tid port → unlock_port tid st port = Some (set_port_locks st (released st port)).
Proof. destruct port as [pt|]; cbn; [|by destruct st]. intros H. unfold erts_smp_port_unlock. by rewrite decide_True. Qed.

(** What a step of a thread leaves alone: the ports that others have locked, and processes. *)
Record frame tid st st' : Prop := {
  fr_port : ∀ pt t, t ≠ tid → port_locks st !! pt = Some t →
    port_locks st' !! pt = Some t ∧ id_of st' (EPort pt) = id_of st (EPort pt) ∧ reg_of st' (EPort pt) = reg_of st (EPort pt);
  fr_proc : ∀ p i, id_of st (EProc p) = Some i → id_of st' (EProc p) = Some i;
  fr_locks : ∀ pt t, t ≠ tid → port_locks st' !! pt = Some t → port_locks st !! pt = Some t }.

Lemma released_other st tid port pt t : owns st tid port → t ≠ tid → port_locks st !! pt = Some t → released st port !! pt = Some t.
Proof. destruct port as [pt'|]; cbn; [|done]. intros Ho Hne Hl. rewrite lookup_delete_ne; [done|]. intros ->. congruence. Qed.

Lemma released_was st port pt t : released st port !! pt = Some t → port_locks st !! pt = Some t ∧ port ≠ Some pt.
Proof. destruct port as [pt'|]; cbn; [|done]. rewrite lookup_delete_Some. intros [Hne Hl]. split; [done|congruence]. Qed.

(** One entity has changed, and locks have been released. *)
Lemma frame_entity tid st st' e port : same_entities st st' → (∀ e', e' ≠ e → reg_of st' e' = reg_of st e') →
  (∀ pt t, e = EPort pt → port_locks st !! pt = Some t → t = tid) → owns st tid port → port_locks st' = released st port → frame tid st st'.
Proof.
  intros Hse Hr He Ho Hl. split; [|intros p i; by rewrite (se_id _ _ Hse)|intros pt t _; rewrite Hl; by intros [? _]%released_was]. intros pt t Hne Ht. rewrite Hl, (se_id _ _ Hse). split; [by eapply released_other|]. split; [done|].
  apply Hr. intros <-. destruct Hne. by eapply He.
Qed.

Lemma frame_locks tid st st' port : processes st' = processes st → ports st' = ports st → owns st tid port → port_locks st' = released st port → frame tid st st'.
Proof.
  intros Hp Hq Ho Hl. split; cbn; [|intros p i; by rewrite Hp|intros pt t _; rewrite Hl; by intros [? _]%released_was]. intros pt t Hne Ht. rewrite Hl, Hq. split; [by eapply released_other|done].
Qed.

(** ** Registration *)
Definition p_of e : option Z := match e with EProc p => Some p | EPort _ => None end.
Definition pt_of e : option Z := match e with EProc _ => None | EPort pt => Some pt end.
Lemma entity_of_fields rp e : entity_of rp = Some e ↔ r_p rp = p_of e ∧ r_pt rp = pt_of e.
Proof. unfold entity_of. destruct (r_p rp), (r_pt rp), e; cbn; naive_solver. Qed.
Lemma p_of_inj e e' : p_of e = p_of e' → pt_of e = pt_of e' → e = e'.
Proof. destruct e, e'; cbn; congruence. Qed.

Lemma entry_is_spec st rp e id i : entity_of rp = Some e → id_of st e = Some i → entry_is st rp id = bool_decide (i = id).
Proof.
  intros [Hp Hq]%entity_of_fields Hi. unfold entry_is. rewrite Hp, Hq. destruct e; cbn in *; rewrite Hi; cbn; rewrite ?orb_false_r; apply bool_decide_ext; naive_solver.
Qed.

Lemma register_put_spec st e ptr name id : reg_ok st → id_of st e = Some id → reg_of st e = Some None →
  ∃ res st', register_put st ptr name id (p_of e) (pt_of e) = Some (res, st') ∧ reg_ok st' ∧ same_entities st st' ∧
    (∀ e', e' ≠ e → reg_of st' e' = reg_of st e') ∧ regtab_locked st' = regtab_locked st ∧ port_locks st' = port_locks st ∧
    match names st !! name with None => res = 1 ∧ names st' = <[name := id]> (names st) | Some _ => res = 0 ∧ names st' = names st end.
Proof.
  intros Hok Hid Hr. unfold register_put.
  pose proof (hash_put_spec (process_reg st) (MkRegProc 0 name (p_of e) (pt_of e)) (MkRegProc ptr name (p_of e) (pt_of e)) (ro_hash _ Hok) eq_refl) as Hp.
  cbn [okey reg_laws r_name] in Hp. fold (registry st) in Hp. destruct (registry st !! name) as [rp|] eqn:E.
  - rewrite Hp. cbn [mbind option_bind]. destruct (registry_named st name rp Hok E) as (e' & i & He & Hr' & Hi & ->).
    assert (e' ≠ e) as Hne by congruence. pose proof He as [Hp1 Hp2]%entity_of_fields. assert (set_table st (process_reg st) = st) as -> by (by destruct st).
    assert (match p_of e, pt_of e with Some proc, _ => if decide (r_p rp = p_of e) then set_p_reg st proc (Some rp) else Some st
      | None, Some port => if decide (r_pt rp = pt_of e) then set_pt_reg st port (Some rp) else Some st | None, None => Some st end = Some st) as ->.
    { destruct e, e'; cbn in *; rewrite decide_False; congruence. }
    cbn [mbind option_bind]. rewrite (entry_is_spec st rp e' id i) by done. rewrite bool_decide_false by (intros ->; destruct Hne; by eapply id_inj).
    exists 0, st. split_and!; done.
  - destruct Hp as (h' & -> & Hh & Hperm & Hm). cbn [mbind option_bind]. set (rp := MkRegProc ptr name (p_of e) (pt_of e)) in *.
    assert (entity_of rp = Some e) as He by (by apply entity_of_fields). rewrite (proj2 (names_None st name Hok) E).
    destruct (set_reg_spec (set_table st h') e (Some rp) None) as (st' & Es & Hse & Hr' & Hrs & Hpr & Hlk & Hpl); [by destruct e|].
    assert (match p_of e, pt_of e with Some proc, _ => if decide (r_p rp = p_of e) then set_p_reg (set_table st h') proc (Some rp) else Some (set_table st h')
      | None, Some port => if decide (r_pt rp = pt_of e) then set_pt_reg (set_table st h') port (Some rp) else Some (set_table st h') | None, None => Some (set_table st h') end = Some st') as ->.
    { destruct e; cbn in *; by rewrite decide_True. }
    cbn [mbind option_bind]. assert (same_entities st st') as Hse' by (by destruct Hse).
    rewrite (entry_is_spec st' rp e id id); [|done|by rewrite (se_id _ _ Hse')]. rewrite bool_decide_true by done.
    destruct (entry_added st st' e id rp Hok Hse') as [Hok' Hn]; try (rewrite Hpr); try done. exists 1, st'. split_and!; done.
Qed.

Lemma reg_done_spec tid st port res : regtab_locked st = true → owns st tid port →
  reg_done tid st port res = Some (res, set_port_locks (set_locked st false) (released st port)).
Proof. intros Hl Ho. unfold reg_done, reg_unlock. rewrite Hl. cbn [mbind option_bind]. by rewrite unlock_port_spec. Qed.

(** What [res] says after a step that registers [id] under [name] if [possible]. *)
Definition registered_or_not st st' (name id res : Z) (possible : Prop) : Prop :=
  (possible ∧ res = 1 ∧ names st' = <[name := id]> (names st)) ∨ (¬ possible ∧ res = 0 ∧ names st' = names st).

Lemma names_locks st b ls : names (set_port_locks (set_locked st b) ls) = names st.
Proof. done. Qed.

(** The entity is known. *)
Lemma register_entity tid st e ptr name id port r : reg_ok st → regtab_locked st = true → id_of st e = Some id → reg_of st e = Some r → owns st tid port →
  match e with EPort pt => port = Some pt | EProc _ => True end →
  ∃ res st', (match r with Some _ => reg_done tid st port 0
              | None => '(res, st) ← register_put st ptr name id (p_of e) (pt_of e); reg_done tid st port res end) = Some (res, st') ∧
    reg_ok st' ∧ regtab_locked st' = false ∧ frame tid st st' ∧
    registered_or_not st st' name id res (names st !! name = None ∧ ∀ n, names st !! n ≠ Some id).
Proof.
  intros Hok Hl Hid Hr Ho Hport. pose proof (unregistered st e id r Hok Hid Hr) as Hu. destruct r as [rp|].
  - rewrite reg_done_spec by done. eexists _, _. split; [done|]. split; [by apply reg_ok_port_locks, reg_ok_locked|]. split; [done|].
    split; [by apply (frame_locks _ _ _ port)|]. right. split; [|done]. intros [_ Hn]. by apply Hu in Hn.
  - destruct (register_put_spec st e ptr name id Hok Hid Hr) as (res & st1 & -> & Hok1 & Hse & Hrs & Hl1 & Hp1 & Hres). cbn [mbind option_bind].
    assert (owns st1 tid port) as Ho1 by (destruct port; [cbn; by rewrite Hp1|done]). rewrite reg_done_spec by (done || by rewrite Hl1).
    eexists _, _. split; [done|]. split; [by apply reg_ok_port_locks, reg_ok_locked|]. split; [done|]. split.
    { apply (frame_entity _ _ _ e port); [by destruct Hse|exact Hrs|intros pt t -> Ht; subst port; cbn in Ho; congruence|done|].
      cbn. destruct port; cbn; by rewrite Hp1. }
    unfold registered_or_not. rewrite names_locks. destruct (names st !! name); [right|left]; destruct Hres as [-> ->]; (split; [|done]).
    + by intros [? _].
    + split; [done|by apply Hu].
Qed.

(** The steps before the lock of the table have checked name and identifier; the port is locked. *)
Definition register_ok st tid (id : Z) (proc port : option Z) : Prop :=
  match proc, port with
  | Some p, None => id_of st (EProc p) = Some id
  | None, Some pt => port_locks st !! pt = Some tid ∧ id_of st (EPort pt) = Some id
  | None, None => is_internal_pid id = true
  | _, _ => False
  end.
(** There is something that can be registered. *)
Definition target_alive st (id : Z) (proc port : option Z) : Prop := is_Some proc ∨ is_Some port ∨ is_Some (erts_pid2proc st id).

Lemma erts_pid2proc_id st id p : reg_ok st → erts_pid2proc st id = Some p → id_of st (EProc p) = Some id.
Proof.
  intros Hok (p' & Ht & (pr & Hp & He)%bind_Some)%bind_Some. destruct (p_is_exiting pr); [done|]. injection He as ->. by apply (ro_process_tab _ Hok).
Qed.

Lemma reg_of_id st e id : id_of st e = Some id → ∃ r, reg_of st e = Some r.
Proof. intros H. by destruct (proj2 (reg_id st e)) as [r Hr]; [by eexists|exists r]. Qed.

Lemma register_locked_spec tid st ptr name id proc port : reg_ok st → regtab_locked st = false → register_ok st tid id proc port →
  ∃ res st', register_locked tid st ptr name id proc port = Some (res, st') ∧ reg_ok st' ∧ regtab_locked st' = false ∧ frame tid st st' ∧
    registered_or_not st st' name id res (target_alive st id proc port ∧ names st !! name = None ∧ ∀ n, names st !! n ≠ Some id).
Proof.
  intros Hok Hl Hc. unfold register_locked, reg_lock. rewrite Hl. cbn [mbind option_bind]. set (st1 := set_locked st true).
  assert (∀ e, id_of st e = Some id → match e with EPort pt => port = Some pt | EProc _ => True end → owns st tid port → target_alive st id proc port →
    ∃ r, reg_of st e = Some r ∧ ∃ res st', (match r with Some _ => reg_done tid st1 port 0
      | None => '(res, st) ← register_put st1 ptr name id (p_of e) (pt_of e); reg_done tid st port res end) = Some (res, st') ∧
    reg_ok st' ∧ regtab_locked st' = false ∧ frame tid st st' ∧
    registered_or_not st st' name id res (target_alive st id proc port ∧ names st !! name = None ∧ ∀ n, names st !! n ≠ Some id)) as Hent.
  { intros e Hid He Ho Ha. destruct (reg_of_id _ _ _ Hid) as [r Hr]. exists r. split; [done|].
    destruct (register_entity tid st1 e ptr name id port r (reg_ok_locked _ _ Hok) eq_refl Hid Hr Ho He) as (res & st' & E & H1 & H2 & H3 & H4).
    exists res, st'. split; [exact E|]. split; [done|]. split; [done|]. split; [by destruct H3; split|].
    destruct H4 as [(H4 & H5)|(H4 & H5)]; [left|right]; (split; [|done]); [by split|intros [_ H6]; by apply H4]. }
  unfold register_ok in Hc. destruct proc as [p|], port as [pt|]; try done.
  - rewrite (ro_pid _ Hok id p) by (by apply (ro_process_tab _ Hok)). destruct (Hent (EProc p)) as (r & (pr & Hpr & ->)%fmap_Some & Hres); [done..|by left; eexists|].
    change (processes st1) with (processes st). by rewrite Hpr.
  - destruct Hc as [Hlk Hid]. assert (is_internal_port id = true) as Hip by (apply (ro_port _ Hok id pt); by apply (ro_port_tab _ Hok)).
    destruct (is_internal_pid id) eqn:Epid; [destruct (pid_not_port id Epid Hip)|].
    destruct (Hent (EPort pt)) as (r & (q & Hq & ->)%fmap_Some & Hres); [done..|by right; left; eexists|]. change (ports st1) with (ports st). cbn [mbind option_bind]. by rewrite Hq.
  - rewrite Hc. change (erts_pid2proc st1 id) with (erts_pid2proc st id). destruct (erts_pid2proc st id) as [p|] eqn:Ep.
    + destruct (Hent (EProc p)) as (r & (pr & Hpr & ->)%fmap_Some & Hres); [by apply erts_pid2proc_id|done..|right; right; by rewrite Ep; eexists|].
      change (processes st1) with (processes st). by rewrite Hpr.
    + rewrite reg_done_spec by done. eexists _, _. split; [done|]. split; [by apply reg_ok_port_locks, reg_ok_locked, reg_ok_locked|]. split; [done|].
      split; [by apply (frame_locks _ _ _ None)|]. right. split; [|done]. intros [[H|[H|H]] _]; [by destruct H..|rewrite Ep in H; by destruct H].
Qed.

Lemma frame_trans tid st1 st2 st3 : frame tid st1 st2 → frame tid st2 st3 → frame tid st1 st3.
Proof.
  intros [A1 A2 A3] [B1 B2 B3]. split; [|eauto..]. intros pt t Hne Ht. destruct (A1 pt t Hne Ht) as (H1 & <- & <-). by apply B1.
Qed.

Lemma frame_acquire tid st st' pt : processes st' = processes st → ports st' = ports st → port_locks st !! pt = None →
  port_locks st' = <[pt := tid]> (port_locks st) → frame tid st st'.
Proof.
  intros Hp Hq Hn Hl. split; cbn; [|intros p i; by rewrite Hp|intros pt' t Hne; rewrite Hl, lookup_insert_Some; by intros [[_ ?]|[_ ?]]]. intros pt' t Hne Ht. rewrite Hl, Hq. split; [|done]. rewrite lookup_insert_ne; [done|congruence].
Qed.

(** ** Removal *)
Definition unreg_ok st tid (u : unreg_call) : Prop :=
  (u_name u = THE_NON_VALUE → ∃ c_p i, u_c_p u = Some c_p ∧ id_of st (EProc c_p) = Some i) ∧
  match u_c_prt u with
  | None => owns st tid (u_port u)
  | Some c_prt => u_port u = Some c_prt ∧ port_locks st !! c_prt = Some tid ∧ u_name u ≠ THE_NON_VALUE ∧
      ∃ rp, reg_of st (EPort c_prt) = Some (Some rp) ∧ r_name rp = u_name u
  end.
(** The name a call is about: that of the process itself, if it has one, when none is given. *)
Definition unreg_name st (u : unreg_call) : option Z :=
  if u_name u =? THE_NON_VALUE then c_p ← u_c_p u; r ← reg_of st (EProc c_p); r_name <$> r else Some (u_name u).

(** The port that is unlocked at the end. *)
Definition to_release (u : unreg_call) (port : option Z) : option Z := if decide (u_c_prt u = port) then None else port.

Lemma unreg_done_spec tid st u port res : regtab_locked st = true → owns st tid (to_release u port) → u_c_prt u = port ∨ u_c_prt u = None →
  unreg_done tid st u port res = Some (UReturn res, set_port_locks (set_locked st false) (released st (to_release u port))).
Proof.
  intros Hl Ho Hc. unfold unreg_done, reg_unlock, to_release in *. rewrite Hl. cbn [mbind option_bind]. destruct (decide (u_c_prt u = port)); [by destruct st|].
  destruct Hc as [|Hc]; [done|]. rewrite unlock_port_spec by done. cbn [mbind option_bind]. by rewrite Hc.
Qed.

Lemma unreg_remove tid st u name rp e port : reg_ok st → regtab_locked st = true → registry st !! name = Some rp → entity_of rp = Some e →
  owns st tid (to_release u port) → u_c_prt u = port ∨ u_c_prt u = None → (∀ pt t, e = EPort pt → port_locks st !! pt = Some t → t = tid) →
  ∃ st', (st ← set_reg st e None; unreg_erase tid st u name port) = Some (UReturn 1, st') ∧ reg_ok st' ∧ regtab_locked st' = false ∧ frame tid st st' ∧
    names st' = delete name (names st) ∧ reg_of st' e = Some None.
Proof.
  intros Hok Hl Hn He Ho Hc Hlk. pose proof Hn as [Hin Hname]%(table_map_lookup _ _ _ (ro_hash _ Hok)). cbn in Hname.
  destruct (ro_entry _ Hok rp Hin) as (e' & He' & Hr). rewrite He in He'. injection He' as <-.
  destruct (set_reg_spec st e None (Some rp) Hr) as (st1 & -> & Hse & Hr1 & Hrs & Hpr & Hl1 & Hp1). cbn [mbind option_bind].
  unfold unreg_erase, hash_erase. rewrite Hpr.
  destruct (hash_remove_spec (process_reg st) (MkRegProc 0 name None None) (ro_hash _ Hok)) as (h' & -> & Hh & Hm & Hp). cbn [mbind option_bind okey reg_laws r_name] in *.
  specialize (Hp rp Hn). assert (owns st1 tid (to_release u port)) as Ho1 by (destruct (to_release u port); [cbn; by rewrite Hp1|done]).
  rewrite unreg_done_spec by (done || by cbn; rewrite Hl1). eexists. split; [done|]. rewrite <- Hname in *.
  set (st2 := set_table st1 h').
  destruct (entry_removed st st2 e rp Hok) as [Hok2 Hn2]; [by destruct Hse|done..|]. split; [by apply reg_ok_port_locks, reg_ok_locked|]. split; [done|].
  split; [|split; [exact Hn2|by destruct e]].
  apply (frame_entity _ _ _ e (to_release u port)); [by destruct Hse|exact Hrs|exact Hlk|done|]. cbn. destruct (to_release u port); cbn; by rewrite Hp1.
Qed.

(** Another thread has the lock of the port with this name. *)
Definition port_busy tid st (name id : Z) : Prop :=
  names st !! name = Some id ∧ ∃ pt t, id_of st (EPort pt) = Some id ∧ port_locks st !! pt = Some t ∧ t ≠ tid.

Lemma port_busy_intro tid st name id pt t port : names st !! name = Some id → id_of st (EPort pt) = Some id → released st port !! pt = Some t → holds_only st tid port →
  port_busy tid st name id.
Proof. intros Hn Hid [Ht Hne]%released_was Hh. split; [done|]. exists pt, t. split; [done|]. split; [done|]. intros ->. by apply Hne, Hh. Qed.

Lemma released_all tid st st' port : holds_only st tid port → port_locks st' = released st port → holds_only st' tid None.
Proof. intros Hh Hl pt. rewrite Hl. intros [Ht Hne]%released_was. by destruct Hne; apply Hh. Qed.

(** A call for the own name of a process, or by a port for its own name, leaves it without a name. *)
Definition nameless_after st' (u : unreg_call) : Prop :=
  (∀ c_p, u_name u = THE_NON_VALUE → u_c_p u = Some c_p → reg_of st' (EProc c_p) = Some None) ∧
  ∀ c_prt, u_c_prt u = Some c_prt → reg_of st' (EPort c_prt) = Some None.

Definition unregistered_or_not tid st st' (u : unreg_call) (next : unreg_next) : Prop :=
  match next with
  | UReturn res =>
      ((res = 1 ∧ ∃ name, unreg_name st u = Some name ∧ is_Some (names st !! name) ∧ names st' = delete name (names st)) ∨
       (res = 0 ∧ names st' = names st ∧ ∀ name, unreg_name st u = Some name → names st !! name = None)) ∧ nameless_after st' u
  | URestart id => names st' = names st ∧ u_c_prt u = None ∧ holds_only st' tid None ∧ ∃ name, unreg_name st u = Some name ∧ port_busy tid st name id
  end.

(** The entry of the caller itself is the one under the name of the call. *)
Lemma unreg_own tid st u : reg_ok st → unreg_ok st tid u →
  (∀ c_p, u_name u = THE_NON_VALUE → u_c_p u = Some c_p → reg_of st (EProc c_p) = Some None ∨
     ∃ name rp, unreg_name st u = Some name ∧ registry st !! name = Some rp ∧ entity_of rp = Some (EProc c_p)) ∧
  (∀ c_prt, u_c_prt u = Some c_prt → ∃ name rp, unreg_name st u = Some name ∧ registry st !! name = Some rp ∧ entity_of rp = Some (EPort c_prt)).
Proof.
  intros Hok [H1 H2]. unfold unreg_name. split.
  - intros c_p Hn Hc. rewrite Hn, Z.eqb_refl. destruct (H1 Hn) as (c & i & Hc' & Hi). rewrite Hc in Hc'. injection Hc' as <-. destruct (reg_of_id _ _ _ Hi) as [[rp|] Hr]; [right|by left].
    destruct (ro_reg _ Hok _ _ Hr) as [Hin He]. exists (r_name rp), rp. rewrite Hc. cbn [mbind option_bind]. rewrite Hr. split; [done|]. split; [|done].
    by apply (table_map_lookup _ _ _ (ro_hash _ Hok)).
  - intros c Hc. rewrite Hc in H2. destruct H2 as (_ & _ & Hne & rp & Hr & Hname). rewrite (proj2 (Z.eqb_neq _ _) Hne). destruct (ro_reg _ Hok _ _ Hr) as [Hin He].
    exists (u_name u), rp. split; [done|]. split; [|done]. by apply (table_map_lookup _ _ _ (ro_hash _ Hok)).
Qed.

Lemma nameless_removed tid st st' u name rp e : reg_ok st → unreg_ok st tid u → unreg_name st u = Some name → registry st !! name = Some rp → entity_of rp = Some e →
  reg_of st' e = Some None → nameless_after st' u.
Proof.
  intros Hok Hu Hn Hr He Hr'. destruct (unreg_own tid st u Hok Hu) as [H1 H2]. split.
  - intros c_p Hv Hc. destruct (H1 c_p Hv Hc) as [H0|(name' & rp' & Hn' & Hr1 & He1)]; [|congruence]. unfold unreg_name in Hn. rewrite Hv, Z.eqb_refl, Hc in Hn. cbn [mbind option_bind] in Hn.
    by rewrite H0 in Hn.
  - intros c Hc. destruct (H2 c Hc) as (name' & rp' & Hn' & Hr1 & He1). congruence.
Qed.

Lemma unreg_name_spec tid st u : unreg_ok st tid u →
  (if u_name u =? THE_NON_VALUE then c_p ← u_c_p u; pr ← processes st !! c_p; Some (r_name <$> p_reg pr) else Some (Some (u_name u))) = Some (unreg_name st u).
Proof.
  intros [Hn _]. unfold unreg_name. destruct (u_name u =? THE_NON_VALUE) eqn:E; [|done]. destruct Hn as (c & i & -> & (pr & Hp & _)%fmap_Some); [lia|]. cbn. by rewrite Hp.
Qed.

Lemma unreg_owns tid st u : unreg_ok st tid u → owns st tid (to_release u (u_port u)) ∧ (u_c_prt u = u_port u ∨ u_c_prt u = None).
Proof.
  intros [_ H]. unfold to_release. destruct (u_c_prt u) as [c|].
  - destruct H as (-> & _). rewrite decide_True by done. split; [done|by left].
  - split; [by case_decide|by right].
Qed.

Lemma unreg_nothing tid st u : reg_ok st → regtab_locked st = true → unreg_ok st tid u → (∀ name, unreg_name st u = Some name → names st !! name = None) →
  ∃ st', unreg_done tid st u (u_port u) 0 = Some (UReturn 0, st') ∧ reg_ok st' ∧ regtab_locked st' = false ∧ frame tid st st' ∧ unregistered_or_not tid st st' u (UReturn 0).
Proof.
  intros Hok Hl Hu Hn. pose proof (unreg_own _ _ _ Hok Hu) as [Hn1 Hn2]. destruct (unreg_owns _ _ _ Hu) as [Ho Hc]. rewrite unreg_done_spec by done. eexists. split; [done|].
  split; [by apply reg_ok_port_locks, reg_ok_locked|]. split; [done|]. split; [by apply (frame_locks _ _ _ (to_release u (u_port u)))|].
  assert (∀ name rp, unreg_name st u = Some name → registry st !! name = Some rp → False) as Hno by (intros name rp E Hr; apply Hn, names_None in E; [congruence|done]).
  split; [by right|]. split.
  - intros c_p Hv Hc'. destruct (Hn1 c_p Hv Hc') as [Hr|(name & rp & E & Hr & _)]; [exact Hr|by destruct (Hno name rp)].
  - intros c Hc'. destruct (Hn2 c Hc') as (name & rp & E & Hr & _). by destruct (Hno name rp).
Qed.

Lemma trylock_cases tid st pt : (∃ t, port_locks st !! pt = Some t ∧ erts_smp_port_trylock tid st pt = None) ∨
  (port_locks st !! pt = None ∧ erts_smp_port_trylock tid st pt = Some (set_port_locks st (<[pt := tid]> (port_locks st)))).
Proof. unfold erts_smp_port_trylock. destruct (port_locks st !! pt) as [t|]; [left; by exists t|by right]. Qed.

(** A name of a port, whose lock the thread does not have: it gets it, or starts again. *)
Lemma unreg_try_port tid st u name rp pt : reg_ok st → regtab_locked st = true → unreg_ok st tid u → holds_only st tid (u_port u) → u_c_prt u = None → owns st tid (u_port u) → unreg_name st u = Some name →
  registry st !! name = Some rp → entity_of rp = Some (EPort pt) →
  ∃ next st', (st ← unlock_port tid st (u_port u);
               match erts_smp_port_trylock tid st pt with
               | Some st => st ← set_pt_reg st pt None; unreg_erase tid st u name (Some pt)
               | None => q ← ports st !! pt; st ← reg_unlock st; Some (URestart (pt_id q), st)
               end) = Some (next, st') ∧
    reg_ok st' ∧ regtab_locked st' = false ∧ frame tid st st' ∧ unregistered_or_not tid st st' u next.
Proof.
  intros Hok Hl Huk Hh Hc Ho Hu Hn He. rewrite unlock_port_spec by done. cbn [mbind option_bind]. set (st1 := set_port_locks st (released st (u_port u))).
  assert (reg_ok st1) as Hok1 by (by apply reg_ok_port_locks). assert (frame tid st st1) as Hf1 by (by apply (frame_locks _ _ _ (u_port u))).
  destruct (registry_named st name rp Hok Hn) as (e & id & He' & Hr & Hid & Hname). rewrite He in He'. injection He' as <-.
  destruct (trylock_cases tid st1 pt) as [(t & Ht & ->)|[Ht ->]].
  - change (ports st1) with (ports st). pose proof Hid as (q & Hq & Hqi)%fmap_Some. rewrite Hq. cbn [mbind option_bind]. unfold reg_unlock. change (regtab_locked st1) with (regtab_locked st).
    rewrite Hl. cbn [mbind option_bind]. eexists _, _. split; [done|]. split; [by apply reg_ok_locked|]. split; [done|]. split; [by destruct Hf1; split|].
    split; [done|]. split; [done|]. split; [by apply (released_all _ st _ (u_port u))|]. exists name. split; [done|]. rewrite <- Hqi. by apply (port_busy_intro _ _ _ _ pt t (u_port u)).
  - set (st2 := set_port_locks st1 _). assert (frame tid st1 st2) as Hf2 by (by apply (frame_acquire _ _ _ pt)).
    destruct (unreg_remove tid st2 u name rp (EPort pt) (Some pt)) as (st' & E & Hok' & Hl' & Hf & Hn' & Hrn); try done.
    + by apply reg_ok_port_locks.
    + unfold to_release. rewrite Hc, decide_False by done. cbn. by rewrite lookup_insert_eq.
    + by right.
    + intros pt' t [= <-]. cbn. rewrite lookup_insert_eq. congruence.
    + exists (UReturn 1), st'. split; [exact E|]. split; [done|]. split; [done|]. split; [eapply frame_trans; [exact Hf1|]; eapply frame_trans; [exact Hf2|exact Hf]|].
      split; [|by apply (nameless_removed tid st st' u name rp (EPort pt))]. left. split; [done|]. exists name. split; [done|]. split; [by rewrite Hname; eexists|exact Hn'].
Qed.

Lemma unregister_locked_spec tid st u : reg_ok st → regtab_locked st = false → unreg_ok st tid u → holds_only st tid (u_port u) →
  ∃ next st', unregister_locked tid st u = Some (next, st') ∧ reg_ok st' ∧ regtab_locked st' = false ∧ frame tid st st' ∧ unregistered_or_not tid st st' u next.
Proof.
  intros Hok Hl Hu Hh. unfold unregister_locked, reg_lock. rewrite Hl. cbn [mbind option_bind]. set (st1 := set_locked st true).
  assert (reg_ok st1) as Hok1 by (by apply reg_ok_locked). assert (unreg_ok st1 tid u) as Hu1 by exact Hu. rewrite (unreg_name_spec tid st1) by done. cbn [mbind option_bind].
  assert (∀ st', frame tid st1 st' → frame tid st st') as Hfr by (intros st' []; by split).
  assert ((∀ name, unreg_name st u = Some name → names st !! name = None) → ∃ next st', unreg_done tid st1 u (u_port u) 0 = Some (next, st') ∧ reg_ok st' ∧ regtab_locked st' = false ∧ frame tid st st' ∧ unregistered_or_not tid st st' u next) as Hno.
  { intros Hno. destruct (unreg_nothing tid st1 u Hok1 eq_refl Hu1 Hno) as (st' & E & H1 & H2 & H3 & H4). exists (UReturn 0), st'. split; [exact E|]. split; [exact H1|]. split; [exact H2|]. split; [by apply Hfr|exact H4]. }
  change (unreg_name st1 u) with (unreg_name st u). destruct (unreg_name st u) as [name|] eqn:En; [|by apply Hno].
  rewrite hash_get_spec by apply Hok1. cbn [mbind option_bind okey reg_laws r_name]. change (table_map (process_reg st1)) with (registry st).
  destruct (registry st !! name) as [rp|] eqn:Er; [|apply Hno; intros ? [= <-]; by apply names_None].
  destruct (registry_named st name rp Hok Er) as (e & id & He & Hr & Hid & Hname). pose proof He as [Hp1 Hp2]%entity_of_fields. rewrite Hp1, Hp2.
  destruct (unreg_owns _ _ _ Hu) as [Ho Hc]. destruct e as [p|pt]; cbn [p_of pt_of].
  - destruct (unreg_remove tid st1 u name rp (EProc p) (u_port u)) as (st' & E & H1 & H2 & H3 & H4 & H5); try done. exists (UReturn 1), st'. split; [exact E|]. split; [done|]. split; [done|].
    split; [by apply Hfr|]. split; [|by apply (nameless_removed tid st st' u name rp (EProc p))]. left. split; [done|]. exists name. split; [done|]. split; [by rewrite Hname; eexists|exact H4].
  - destruct (decide (u_port u = Some pt)) as [Eu|Eu].
    + assert (port_locks st !! pt = Some tid) as Hlk by (destruct Hu as [_ Hu]; destruct (u_c_prt u); [destruct Hu as (Eq & Hlk & _); rewrite Eq in Eu; by injection Eu as ->|by rewrite Eu in Hu]).
      destruct (unreg_remove tid st1 u name rp (EPort pt) (Some pt)) as (st' & E & H1 & H2 & H3 & H4 & H5); try done; [by rewrite Eu in Ho|by rewrite Eu in Hc|intros pt' t [= <-] Ht; cbn in Ht; congruence|].
      exists (UReturn 1), st'. split; [exact E|]. split; [done|]. split; [done|]. split; [by apply Hfr|].
      split; [|by apply (nameless_removed tid st st' u name rp (EPort pt))]. left. split; [done|]. exists name. split; [done|]. split; [by rewrite Hname; eexists|exact H4].
    + destruct (u_c_prt u) as [c|] eqn:Ec.
      { destruct Hu as [_ Hu]. rewrite Ec in Hu. destruct Hu as (Eq & _ & Hne & rp' & Hr' & Hrn). exfalso. destruct (ro_reg _ Hok _ _ Hr') as [Hin' He'].
        unfold unreg_name in En. rewrite (proj2 (Z.eqb_neq _ _) Hne) in En. injection En as En.
        assert (registry st !! name = Some rp') by (apply (table_map_lookup _ _ _ (ro_hash _ Hok)); split; [done|cbn; congruence]). congruence. }
      pose proof Hu as [_ Hu']. rewrite Ec in Hu'.
      destruct (unreg_try_port tid st1 u name rp pt) as (next & st' & E & H1 & H2 & H3 & H4); try done. exists next, st'. split; [exact E|]. split; [exact H1|]. split; [exact H2|]. split; [by apply Hfr|exact H4].
Qed.

(** ** Lookup *)
Lemma find_name_in name (chain : list (HashBucket RegProc)) : Forall entry_ok chain → find_name name chain = find_in (MkRegProc 0 name None None) (REG_HASH name) chain.
Proof.
  induction 1 as [|b chain Hb _ IH]; [done|]. cbn [find_name find_in]. rewrite IH. unfold entry_ok in Hb. rewrite Hb. cbn [hf_hash hf_cmp reg_functions]. unfold reg_cmp. cbn [r_name].
  rewrite (Z.eqb_sym name). destruct (r_name (hb_obj b) =? name) eqn:E; cbn [negb]; [|by rewrite andb_false_r]. unfold reg_hash. rewrite (proj1 (Z.eqb_eq _ _) E).
  by rewrite Z.eqb_refl.
Qed.

(** The loops written out find what [hash_get] finds. *)
Lemma find_entry_spec st name : hash_ok (process_reg st) → find_entry st name = Some (registry st !! name).
Proof.
  intros Hh. unfold find_entry. change (REG_HASH name) with (hf_hash (MkRegProc 0 name None None)) at 1.
  destruct (chain_exists _ (MkRegProc 0 name None None) Hh) as [c Hc]. rewrite Hc. cbn [mbind option_bind].
  rewrite find_name_in by (by eapply chain_entries). exact (f_equal Some (find_in_table _ (MkRegProc 0 name None None) c Hh Hc)).
Qed.

Lemma entity_id_spec st rp e : entity_of rp = Some e → entity_id st rp = id_of st e.
Proof. intros [H1 H2]%entity_of_fields. unfold entity_id. rewrite H1, H2. by destruct e. Qed.

Lemma erts_whereis_name_to_id_spec st name : reg_ok st → regtab_locked st = false →
  erts_whereis_name_to_id am_undefined st name = Some (default am_undefined (names st !! name)).
Proof.
  intros Hok Hl. unfold erts_whereis_name_to_id, reg_lock. rewrite Hl. cbn [mbind option_bind]. rewrite find_entry_spec by apply Hok. cbn [mbind option_bind].
  change (registry (set_locked st true)) with (registry st). destruct (registry st !! name) as [rp|] eqn:E; cbn; [|by rewrite (proj2 (names_None st name Hok) E)].
  destruct (registry_named st name rp Hok E) as (e & id & He & _ & Hid & ->). rewrite (entity_id_spec _ _ e) by done. change (id_of (set_locked st true) e) with (id_of st e). by rewrite Hid.
Qed.

Lemma foldl_names chains acc :
  foldl (λ res chain, foldl (λ res (b : HashBucket RegProc), r_name (hb_obj b) :: res) res chain) acc chains = reverse (r_name <$> map hb_obj (concat chains)) ++ acc.
Proof.
  assert (∀ (c : list (HashBucket RegProc)) acc, foldl (λ res b, r_name (hb_obj b) :: res) acc c = reverse (r_name <$> map hb_obj c) ++ acc) as Hc.
  { induction c as [|b c IH]; intros a; [done|]. cbn [foldl map]. by rewrite IH, fmap_cons, reverse_cons, <- app_assoc. }
  revert acc. induction chains as [|c chains IH]; intros acc; [done|]. cbn [foldl concat]. rewrite IH, Hc, map_app, fmap_app, reverse_app. by rewrite app_assoc.
Qed.

Lemma registered_0_spec st : reg_ok st → regtab_locked st = false → ∃ l, registered_0 st = Some l ∧ NoDup l ∧ ∀ n, n ∈ l ↔ is_Some (names st !! n).
Proof.
  intros Hok Hl. unfold registered_0, reg_lock. rewrite Hl. cbn [mbind option_bind]. rewrite foldl_names, app_nil_r. eexists. split; [done|]. cbn [set_locked process_reg].
  fold (objs (process_reg st)). split; [rewrite reverse_Permutation; apply (ho_nodup _ (ro_hash _ Hok))|]. intros n. rewrite elem_of_reverse, list_elem_of_fmap. split.
  - intros (rp & -> & Hin). destruct (registry_named st (r_name rp) rp Hok) as (e & id & _ & _ & _ & ->); [by apply (table_map_lookup _ _ _ (ro_hash _ Hok))|by eexists].
  - intros [id (rp & e & Hn & _)%names_Some]; [|done]. apply (table_map_lookup _ _ _ (ro_hash _ Hok)) in Hn as [Hin Hn]. by exists rp.
Qed.

Definition where_process st (w : where_call) : option Z :=
  if w_proc w then rp ← registry st !! w_name w; p ← r_p rp; pr ← processes st !! p; if w_allow w || negb (p_is_exiting pr) then Some p else None else None.
Definition where_port st (w : where_call) : option Z := if w_port w then rp ← registry st !! w_name w; r_pt rp else None.
(** An entry that was found before a restart has the name that is looked up; only lookups of ports start again. *)
Definition where_ok (w : where_call) : Prop := ∀ rp, w_rp w = Some rp → r_name rp = w_name w ∧ w_port w = true.
(** After a restart the name is still there. *)
Definition not_stale st (w : where_call) : Prop := w_rp w = None ∨ is_Some (registry st !! w_name w).

Definition found_or_not tid st st' (w : where_call) (next : where_next) : Prop :=
  match next with
  | WReturn proc port => proc = where_process st w ∧ port = where_port st w ∧ owns st' tid port
  | WRestart id w' => holds_only st' tid None ∧ w_pending_port w' = None ∧ w_name w' = w_name w ∧ where_ok w' ∧ port_busy tid st (w_name w) id
  end.

Lemma read_entry_spec st n rp : reg_ok st → registry st !! n = Some rp → read_entry st rp = Some rp.
Proof. intros Hok [Hin _]%(table_map_lookup _ _ _ (ro_hash _ Hok)). unfold read_entry. by rewrite decide_True. Qed.

Lemma where_proc_spec st w : reg_ok st → where_proc st w (registry st !! w_name w) = Some (where_process st w).
Proof.
  intros Hok. unfold where_proc, where_process. destruct (w_proc w); [|done]. destruct (registry st !! w_name w) as [rp|] eqn:E; [|done]. rewrite (read_entry_spec _ _ _ Hok E). cbn.
  destruct (registry_named st _ rp Hok E) as (e & id & [H1 H2]%entity_of_fields & Hr & _). rewrite H1. destruct e as [p|]; [|done]. cbn. apply fmap_Some in Hr as (pr & -> & _). done.
Qed.

Lemma where_done_spec tid st pending proc port : regtab_locked st = true → owns st tid pending →
  where_done tid st pending proc port = Some (WReturn proc port, set_locked (set_port_locks st (released st pending)) false).
Proof. intros Hl Ho. unfold where_done. rewrite unlock_port_spec by done. cbn [mbind option_bind]. unfold reg_unlock. cbn. by rewrite Hl. Qed.

Lemma where_locked_spec tid st w : reg_ok st → regtab_locked st = false → owns st tid (w_pending_port w) → holds_only st tid (w_pending_port w) → not_stale st w →
  ∃ next st', where_locked tid st w = Some (next, st') ∧ reg_ok st' ∧ regtab_locked st' = false ∧ frame tid st st' ∧ names st' = names st ∧ found_or_not tid st st' w next.
Proof.
  intros Hok Hl Ho Hh Hs. unfold where_locked, reg_lock. rewrite Hl. cbn [mbind option_bind]. set (st1 := set_locked st true).
  assert (reg_ok st1) as Hok1 by (by apply reg_ok_locked). rewrite find_entry_spec by apply Hok1. cbn [mbind option_bind].
  assert (match registry st1 !! w_name w with Some rp => Some rp | None => w_rp w end = registry st1 !! w_name w) as ->.
  { change (registry st1) with (registry st). destruct Hs as [->|[rp ->]]; [by destruct (registry st !! w_name w)|done]. }
  rewrite where_proc_spec by done. cbn [mbind option_bind]. change (where_process st1 w) with (where_process st w).
  assert (where_port st w = None → ∃ next st', where_done tid st1 (w_pending_port w) (where_process st w) None = Some (next, st') ∧ reg_ok st' ∧ regtab_locked st' = false ∧
    frame tid st st' ∧ names st' = names st ∧ found_or_not tid st st' w next) as Hnone.
  { intros Hn. rewrite where_done_spec by done. eexists _, _. split; [done|]. split; [by apply reg_ok_locked, reg_ok_port_locks|]. split; [done|].
    split; [by apply (frame_locks _ _ _ (w_pending_port w))|]. split; [done|]. split; [done|]. by rewrite Hn. }
  unfold where_port in Hnone. destruct (w_port w) eqn:Ew; [|by apply Hnone]. change (registry st1) with (registry st).
  destruct (registry st !! w_name w) as [rp|] eqn:E; [|by apply Hnone]. rewrite (read_entry_spec st1 (w_name w) rp Hok1 E). cbn [mbind option_bind] in *.
  destruct (r_pt rp) as [pt|] eqn:Ept; [|by apply Hnone]. clear Hnone. assert (where_port st w = Some pt) as Hwp by (unfold where_port; by rewrite Ew, E).
  destruct (decide (w_pending_port w = Some pt)) as [Ep|Ep].
  - rewrite where_done_spec by done. eexists _, _. split; [done|]. split; [by apply reg_ok_locked, reg_ok_port_locks|]. split; [done|].
    split; [by apply (frame_locks _ _ _ None)|]. split; [done|]. split; [done|]. split; [done|]. rewrite Ep in Ho. exact Ho.
  - rewrite unlock_port_spec by done. cbn [mbind option_bind]. set (st2 := set_port_locks st1 _).
    assert (frame tid st st2) as Hf2 by (by apply (frame_locks _ _ _ (w_pending_port w))).
    destruct (registry_named st _ rp Hok E) as (e & id & He & Hr & Hid & Hname). pose proof He as [H1 H2]%entity_of_fields. rewrite Ept in H2. destruct e as [|pt']; [done|]. injection H2 as <-.
    destruct (trylock_cases tid st2 pt) as [(t & Ht & ->)|[Ht ->]].
    + change (ports st2) with (ports st). pose proof Hid as (q & Hq & ->)%fmap_Some. rewrite Hq. cbn [mbind option_bind]. unfold reg_unlock. cbn [st2 set_port_locks regtab_locked mbind option_bind].
      eexists _, _. split; [done|]. split; [by apply reg_ok_locked, reg_ok_port_locks|]. split; [done|]. split; [by destruct Hf2; split|]. split; [done|].
      split; [by apply (released_all _ st _ (w_pending_port w))|].
      split; [done|]. split; [done|]. split; [intros ? [= <-]; cbn; split; [|done]; by apply (table_map_lookup _ _ _ (ro_hash _ Hok)) in E as [_ E]|].
      by apply (port_busy_intro _ _ _ _ pt t (w_pending_port w)).
    + rewrite where_done_spec by done. eexists _, _. split; [done|]. split; [by apply reg_ok_locked, reg_ok_port_locks, reg_ok_port_locks, reg_ok_port_locks|]. split; [done|].
      split; [eapply frame_trans; [exact Hf2|]; by apply (frame_acquire _ _ _ pt)|]. split; [done|]. split; [done|]. split; [done|]. cbn. by rewrite lookup_insert_eq.
Qed.

(** The lookup uses the entry that it found before the restart, whose memory has been freed. *)
Lemma where_locked_stale tid st w : reg_ok st → w_port w = true → w_rp w ≠ None → registry st !! w_name w = None → (∀ rp, w_rp w = Some rp → rp ∉ objs (process_reg st)) →
  where_locked tid st w = None.
Proof.
  intros Hok Hw Hrp Hn Hfree. unfold where_locked, reg_lock. destruct (regtab_locked st); [done|]. cbn [mbind option_bind]. set (st1 := set_locked st true).
  rewrite find_entry_spec by apply Hok. cbn [mbind option_bind]. change (registry st1) with (registry st). rewrite Hn. destruct (w_rp w) as [rp|]; [|done].
  assert (read_entry st1 rp = None) as Hrd by (unfold read_entry; by rewrite decide_False by (by apply Hfree)). rewrite Hw, Hrd.
  unfold where_proc. destruct (w_proc w); [by rewrite Hrd|done].
Qed.

(** ** Threads *)
Definition call_inv st tid (c : call) : Prop :=
  match c with
  | CRegister _ id proc port => register_ok st tid id proc port
  | CUnregister u => unreg_ok st tid u
  | CUnregisterPort u _ => u_c_prt u = None ∧ (u_name u = THE_NON_VALUE → ∃ c_p i, u_c_p u = Some c_p ∧ id_of st (EProc c_p) = Some i)
  | CWhereis w => owns st tid (w_pending_port w) ∧ where_ok w
  | CWhereisPort w _ => where_ok w
  end.
(** The port that a call has locked; it has locked no other one. *)
Definition call_port (c : call) : option Z :=
  match c with CRegister _ _ _ port => port | CUnregister u => u_port u | CWhereis w => w_pending_port w | CUnregisterPort _ _ | CWhereisPort _ _ => None end.
Definition call_ok st tid (c : call) : Prop := call_inv st tid c ∧ holds_only st tid (call_port c).
(** The process that runs a call. *)
Definition call_process (c : call) : option Z :=
  match c with CRegister _ _ proc _ => proc | CUnregister u | CUnregisterPort u _ => u_c_p u | CWhereis _ | CWhereisPort _ _ => None end.

Record sys_ok s : Prop := {
  so_reg : reg_ok (rs_state s);
  so_lock : regtab_locked (rs_state s) = false;
  so_calls : ∀ tid c, rs_calls s !! tid = Some c → call_ok (rs_state s) tid c }.

Lemma owns_frame tid t st st' port : t ≠ tid → frame tid st st' → owns st t port → owns st' t port.
Proof. destruct port as [pt|]; [|done]. cbn. intros Hne Hf Ho. by apply (fr_port _ _ _ Hf pt t). Qed.

Lemma call_ok_frame tid t st st' c : t ≠ tid → frame tid st st' → call_ok st t c → call_ok st' t c.
Proof.
  intros Hne Hf [Hi Hh]. split; [|intros pt Hpt; by apply Hh, (fr_locks _ _ _ Hf)]. revert Hi. pose proof (fr_proc _ _ _ Hf) as Hp.
  assert (∀ u : unreg_call, (u_name u = THE_NON_VALUE → ∃ c_p i, u_c_p u = Some c_p ∧ id_of st (EProc c_p) = Some i) →
    u_name u = THE_NON_VALUE → ∃ c_p i, u_c_p u = Some c_p ∧ id_of st' (EProc c_p) = Some i) as Hcp.
  { intros u Hu Hn. destruct (Hu Hn) as (a & i & H1 & H2). exists a, i. by auto. }
  destruct c as [name id proc port|u|u id|w|w id]; unfold call_inv.
  - unfold register_ok. destruct proc as [p|], port as [pt|]; auto. intros [Hl Hi]. destruct (fr_port _ _ _ Hf pt t Hne Hl) as (H1 & H2 & _). by rewrite H2.
  - intros [H1 H2]. split; [by apply Hcp|]. destruct (u_c_prt u) as [c|]; [|by eapply owns_frame]. destruct H2 as (-> & Hl & Hn & rp & Hr).
    destruct (fr_port _ _ _ Hf c t Hne Hl) as (H4 & _ & H5). split; [done|]. split; [done|]. split; [done|]. exists rp. by rewrite H5.
  - intros [H1 H2]. split; [done|by apply Hcp].
  - intros [H1 H2]. split; [by apply (owns_frame tid t st)|done].
  - done.
Qed.

(** A step of the thread [tid]. *)
Lemma sys_ok_step tid s st' calls' : sys_ok s → reg_ok st' → regtab_locked st' = false → frame tid (rs_state s) st' →
  (∀ t, t ≠ tid → calls' !! t = rs_calls s !! t) → (∀ c, calls' !! tid = Some c → call_ok st' tid c) → sys_ok (RSys st' calls').
Proof.
  intros [H1 H2 H3] Hr Hl Hf Hother Hown. split; [done|done|]. cbn. intros t c Hc. destruct (decide (t = tid)) as [->|Hne]; [by apply Hown|].
  rewrite Hother in Hc by done. by eapply call_ok_frame, H3.
Qed.

Lemma sys_ok_calling tid s st' c : sys_ok s → reg_ok st' → regtab_locked st' = false → frame tid (rs_state s) st' → call_ok st' tid c →
  sys_ok (RSys st' (<[tid := c]> (rs_calls s))).
Proof.
  intros Hs Hr Hl Hf Hc. apply (sys_ok_step tid s); [done..| |]; [intros t Hne; by rewrite lookup_insert_ne|intros c'; rewrite lookup_insert_eq; by intros [= <-]].
Qed.
Lemma sys_ok_returning tid s st' : sys_ok s → reg_ok st' → regtab_locked st' = false → frame tid (rs_state s) st' → sys_ok (RSys st' (delete tid (rs_calls s))).
Proof. intros Hs Hr Hl Hf. apply (sys_ok_step tid s); [done..| |]; [intros t Hne; by rewrite lookup_delete_ne|intros c; by rewrite lookup_delete_eq]. Qed.

Lemma frame_refl tid st : frame tid st st.
Proof. by split. Qed.

(** ** What the callers guarantee *)

(** A thread makes one call at a time, with no port locked but [c_prt]; a process that runs a call does not go away, nor does anything with a name; a port is closed under its lock.
    A name for a port that has been closed is not asked for, and a lookup does not start again after its name has gone: see below. *)
Definition can_lock st (id : Z) : Prop := ∀ pt, port_tab st !! id = Some pt → port_locks st !! pt = None.
Definition event_ok s (ev : reg_event) : Prop :=
  let st := rs_state s in
  match ev with
  | Register tid c_p name id => rs_calls s !! tid = None ∧ holds_only st tid None ∧ is_Some (processes st !! c_p) ∧ (is_internal_port id = true → is_Some (port_tab st !! id) ∧ can_lock st id)
  | Unregister tid c_p c_prt name => rs_calls s !! tid = None ∧ holds_only st tid c_prt ∧ unreg_ok st tid (Unreg c_p c_prt name c_prt)
  | WhereisName tid _ _ _ _ => rs_calls s !! tid = None ∧ holds_only st tid None
  | Whereis _ => True
  | LockPort tid => match rs_calls s !! tid with Some (CUnregisterPort _ id | CWhereisPort _ id) => can_lock st id | _ => False end
  | Enter tid _ => match rs_calls s !! tid with Some (CRegister _ _ _ _ | CUnregister _) => True | Some (CWhereis w) => not_stale st w | _ => False end
  | Spawn p id => processes st !! p = None ∧ process_tab st !! id = None ∧ is_internal_pid id = true
  | Exiting p => is_Some (processes st !! p)
  | Exit p => reg_of st (EProc p) = Some None ∧ ∀ tid c, rs_calls s !! tid = Some c → call_process c ≠ Some p
  | Open pt id => ports st !! pt = None ∧ port_tab st !! id = None ∧ port_locks st !! pt = None ∧ is_internal_port id = true
  | Close tid pt => rs_calls s !! tid = None ∧ reg_of st (EPort pt) = Some None ∧ port_locks st !! pt = Some tid
  | PortLock tid pt => rs_calls s !! tid = None ∧ port_locks st !! pt = None
  | PortUnlock tid pt => rs_calls s !! tid = None ∧ port_locks st !! pt = Some tid
  end.

(** What an event returns and does to the names. *)
Definition register_valid st (c_p name id : Z) : bool :=
  is_atom name && negb (name =? am_undefined) && (bool_decide (id_of st (EProc c_p) = Some id) || is_internal_pid id || is_internal_port id).
Definition enter_result tid st st' (c : call) (r : reg_result) : Prop :=
  match c with
  | CRegister name id proc port => ∃ res, r = RInt res ∧
      registered_or_not st st' name id res (target_alive st id proc port ∧ names st !! name = None ∧ ∀ n, names st !! n ≠ Some id)
  | CUnregister u => ∃ next, r = match next with UReturn res => RInt res | URestart _ => RCalled end ∧ unregistered_or_not tid st st' u next
  | CWhereis w => ∃ next, r = match next with WReturn proc port => RFound proc port | WRestart _ _ => RCalled end ∧
      names st' = names st ∧ found_or_not tid st st' w next
  | _ => False
  end.
Definition event_result s (ev : reg_event) (r : reg_result) (s' : reg_sys) : Prop :=
  let st := rs_state s in let st' := rs_state s' in
  match ev with
  | Register tid c_p name id => r = (if register_valid st c_p name id then RCalled else RInt 0) ∧ names st' = names st
  | Whereis name => r = RTerm (default am_undefined (names st !! name)) ∧ s' = s
  | Enter tid _ => ∃ c, rs_calls s !! tid = Some c ∧ enter_result tid st st' c r
  | _ => r = RCalled ∧ names st' = names st
  end.

Lemma erts_id2port_spec tid st id : reg_ok st → can_lock st id →
  ∃ port st', erts_id2port tid st id = Some (port, st') ∧ port = port_tab st !! id ∧ reg_ok st' ∧ regtab_locked st' = regtab_locked st ∧ frame tid st st' ∧ names st' = names st ∧
    owns st' tid port ∧ (holds_only st tid None → holds_only st' tid port) ∧ ∀ pt, port = Some pt → id_of st' (EPort pt) = Some id.
Proof.
  intros Hok Hc. unfold erts_id2port. destruct (port_tab st !! id) as [pt|] eqn:E; [|exists None, st; do 4 (split; [done|]); split; [apply frame_refl|done]].
  unfold erts_smp_port_trylock. rewrite (Hc pt E). cbn [mbind option_bind]. eexists _, _. split; [done|]. split; [done|]. split; [by apply reg_ok_port_locks|]. split; [done|].
  split; [by apply (frame_acquire _ _ _ pt); [..|apply Hc|]|]. split; [done|]. split; [cbn; by rewrite lookup_insert_eq|].
  split; [intros Hh pt'; cbn; rewrite lookup_insert_Some; intros [[<- _]|[_ Hl]]; [done|by apply Hh in Hl]|]. intros ? [= <-]. by apply (ro_port_tab _ Hok).
Qed.

Lemma register_step s tid c_p name id : sys_ok s → event_ok s (Register tid c_p name id) →
  ∃ r s', reg_step am_undefined s (Register tid c_p name id) = Some (r, s') ∧ sys_ok s' ∧ event_result s (Register tid c_p name id) r s'.
Proof.
  intros Hs (Hidle & Hh & [pr Hpr] & Hport). pose proof Hs as [Hok Hl Hcalls]. cbn [reg_step event_result]. unfold register_start, register_valid. set (st := rs_state s) in *.
  destruct (is_atom name) eqn:Ea; cbn [negb orb andb].
  2:{ cbn [mbind option_bind]. eexists _, _. split; [done|]. by split; [destruct s|]. }
  destruct (name =? am_undefined) eqn:Eu; cbn [negb orb andb].
  { cbn [mbind option_bind]. eexists _, _. split; [done|]. by split; [destruct s|]. }
  rewrite Hpr. cbn [mbind option_bind id_of]. rewrite Hpr. cbn [fmap option_fmap option_map].
  destruct (Z.eqb_spec (p_id pr) id) as [<-|Hne]; [rewrite bool_decide_true by done|rewrite bool_decide_false by congruence]; cbn [orb mbind option_bind].
  { eexists _, _. split; [done|]. split; [|done]. apply sys_ok_calling; [done..|apply frame_refl|]. split; [cbn; by rewrite Hpr|exact Hh]. }
  destruct (is_internal_pid id) eqn:Ep; cbn [negb andb orb].
  { destruct (is_internal_port id) eqn:Eq; [by destruct (pid_not_port id)|]. cbn [mbind option_bind]. eexists _, _. split; [done|]. split; [|done].
    apply sys_ok_calling; [done..|apply frame_refl|by split]. }
  destruct (is_internal_port id) eqn:Eq; cbn [negb mbind option_bind].
  - destruct (Hport eq_refl) as [[pt Hpt] Hcl]. destruct (erts_id2port_spec tid st id Hok Hcl) as (port & st' & -> & Hp & Hok' & Hl' & Hf & Hn & Ho & Hh' & Hid).
    rewrite Hpt in Hp. subst port. cbn [mbind option_bind]. eexists _, _. split; [done|]. split; [|done]. apply sys_ok_calling; [done|done|by rewrite Hl'|done|].
    split; [split; [done|by apply Hid]|by apply Hh'].
  - eexists _, _. split; [done|]. by split; [destruct s|].
Qed.

Lemma enter_step s tid ptr : sys_ok s → event_ok s (Enter tid ptr) →
  ∃ r s', reg_step am_undefined s (Enter tid ptr) = Some (r, s') ∧ sys_ok s' ∧ event_result s (Enter tid ptr) r s'.
Proof.
  intros Hs He. pose proof Hs as [Hok Hl Hcalls]. cbn [reg_step event_result event_ok] in *. destruct (rs_calls s !! tid) as [c|] eqn:Ec; [|done]. cbn [mbind option_bind].
  destruct (Hcalls tid c Ec) as [Hc Hh]. destruct c as [name id proc port|u|u id|w|w id]; try done; cbn [enter_call call_inv call_port] in *.
  - destruct (register_locked_spec tid (rs_state s) ptr name id proc port Hok Hl Hc) as (res & st' & -> & H1 & H2 & H3 & H4). cbn [mbind option_bind].
    eexists _, _. split; [done|]. split; [by apply sys_ok_returning|]. eexists. split; [done|]. by exists res.
  - destruct (unregister_locked_spec tid (rs_state s) u Hok Hl Hc Hh) as (next & st' & -> & H1 & H2 & H3 & H4). cbn [mbind option_bind].
    destruct next as [res|id]; (eexists _, _; split; [done|]; split; [|eexists; split; [done|]]).
    + by apply sys_ok_returning.
    + by exists (UReturn res).
    + apply sys_ok_calling; [done..|]. destruct H4 as (_ & Hc' & Hh' & _). split; [|exact Hh']. split; [done|]. intros Hn. destruct Hc as [Hc _]. destruct (Hc Hn) as (a & i & H5 & H6). exists a, i. split; [done|]. by apply (fr_proc _ _ _ H3).
    + by exists (URestart id).
  - destruct (where_locked_spec tid (rs_state s) w Hok Hl (proj1 Hc) Hh He) as (next & st' & -> & H1 & H2 & H3 & H4 & H5). cbn [mbind option_bind].
    destruct next as [proc port|id w']; (eexists _, _; split; [done|]; split; [|eexists; split; [done|]]).
    + by apply sys_ok_returning.
    + by exists (WReturn proc port).
    + apply sys_ok_calling; [done..|]. by destruct H5 as (? & _ & _ & ? & _).
    + by exists (WRestart id w').
Qed.

Lemma lock_step s tid : sys_ok s → event_ok s (LockPort tid) →
  ∃ r s', reg_step am_undefined s (LockPort tid) = Some (r, s') ∧ sys_ok s' ∧ event_result s (LockPort tid) r s'.
Proof.
  intros Hs He. pose proof Hs as [Hok Hl Hcalls]. cbn [reg_step event_result event_ok] in *. destruct (rs_calls s !! tid) as [c|] eqn:Ec; [|done]. cbn [mbind option_bind].
  destruct (Hcalls tid c Ec) as [Hc Hh]. destruct c as [name id proc port|u|u id|w|w id]; try done; cbn [lock_port call_inv call_port] in *;
    destruct (erts_id2port_spec tid (rs_state s) id Hok He) as (port & st' & -> & _ & Hok' & Hl' & Hf & Hn & Ho & Hh' & _); cbn [mbind option_bind];
    (eexists _, _; split; [done|]; split; [|done]; apply sys_ok_calling; [done|done|by rewrite Hl'|done|]; split; [|by apply Hh']).
  - destruct Hc as [Hc Hcp]. split; cbn; [|by rewrite Hc]. intros Hn'. destruct (Hcp Hn') as (a & i & H5 & H6). exists a, i. split; [done|]. by apply (fr_proc _ _ _ Hf).
  - by split.
Qed.

(** ** Other events *)
Lemma tab_insert {A} (f : A → Z) (m : gmap Z A) (tab : gmap Z Z) p id x : m !! p = None → tab !! id = None → f x = id →
  (∀ i a, tab !! i = Some a ↔ f <$> m !! a = Some i) → ∀ i a, <[id := p]> tab !! i = Some a ↔ f <$> <[p := x]> m !! a = Some i.
Proof.
  intros Hm Ht <- Hiff i a. rewrite fmap_Some, lookup_insert_Some. setoid_rewrite lookup_insert_Some. split.
  - intros [[<- <-]|[Hne Hi]]; [by exists x; auto|]. apply Hiff, fmap_Some in Hi as (y & Hy & ->). exists y. split; [|done]. right. split; [congruence|done].
  - intros (y & [[<- <-]|[Hne Hy]] & ->); [by left|]. right. assert (tab !! f y = Some a) by (apply Hiff; by rewrite Hy). split; [congruence|done].
Qed.

Lemma tab_delete {A} (f : A → Z) (m : gmap Z A) (tab : gmap Z Z) p x : m !! p = Some x →
  (∀ i a, tab !! i = Some a ↔ f <$> m !! a = Some i) → ∀ i a, delete (f x) tab !! i = Some a ↔ f <$> delete p m !! a = Some i.
Proof.
  intros Hm Hiff i a. assert (tab !! f x = Some p) as Hx by (apply Hiff; by rewrite Hm). rewrite fmap_Some, lookup_delete_Some. setoid_rewrite lookup_delete_Some. split.
  - intros [Hne Hi]. pose proof Hi as (y & Hy & ->)%Hiff%fmap_Some. exists y. split; [|done]. split; [congruence|done].
  - intros (y & [Hne Hy] & ->). assert (tab !! f y = Some a) as Ha by (apply Hiff; by rewrite Hy). split; [congruence|done].
Qed.

(** Entities without entries come and go. *)
Lemma env_reg_ok st st' : reg_ok st → process_reg st' = process_reg st → (∀ e rp, reg_of st e = Some (Some rp) ↔ reg_of st' e = Some (Some rp)) →
  (∀ e rp, reg_of st e = Some (Some rp) → id_of st' e = id_of st e) →
  (∀ id p, process_tab st' !! id = Some p ↔ id_of st' (EProc p) = Some id) → (∀ id pt, port_tab st' !! id = Some pt ↔ id_of st' (EPort pt) = Some id) →
  (∀ id p, process_tab st' !! id = Some p → is_internal_pid id = true) → (∀ id pt, port_tab st' !! id = Some pt → is_internal_port id = true) →
  reg_ok st' ∧ names st' = names st.
Proof.
  intros Hok Hp Hr Hid H1 H2 H3 H4. split.
  - split; rewrite ?Hp; try done; [apply Hok| |].
    + intros rp Hin. destruct (ro_entry _ Hok rp Hin) as (e & He & Hre). exists e. split; [done|by apply Hr].
    + intros e rp Hre. by apply (ro_reg _ Hok), Hr.
  - unfold names, registry. rewrite Hp. apply omap_ext. intros n rp Hn. destruct (registry_named st n rp Hok Hn) as (e & id & -> & Hre & _). by apply (Hid e rp).
Qed.

(** What an event of the environment keeps. *)
Definition env_result s st' : Prop :=
  reg_ok st' ∧ names st' = names (rs_state s) ∧ regtab_locked st' = false ∧ ∀ t c, rs_calls s !! t = Some c → call_ok st' t c.

Lemma env_frame s tid st' : sys_ok s → (∀ t c, rs_calls s !! t = Some c → t ≠ tid) → frame tid (rs_state s) st' →
  ∀ t c, rs_calls s !! t = Some c → call_ok st' t c.
Proof. intros Hs Ht Hf t c Hc. apply (call_ok_frame tid t (rs_state s)); [by eapply Ht|done|by apply (so_calls _ Hs)]. Qed.
Lemma idle_other s tid : rs_calls s !! tid = None → ∀ t c, rs_calls s !! t = Some c → t ≠ tid.
Proof. intros Hi t c Hc ->. congruence. Qed.
(** An event that is not of a thread. *)
Lemma env_frame_all s st' : sys_ok s → (∀ tid, frame tid (rs_state s) st') → ∀ t c, rs_calls s !! t = Some c → call_ok st' t c.
Proof. intros Hs Hf t c Hc. apply (call_ok_frame (S t) t (rs_state s)); [lia|done|by apply (so_calls _ Hs)]. Qed.

Lemma env_processes st ps tab : reg_ok st → (∀ p rp, p_reg <$> processes st !! p = Some (Some rp) ↔ p_reg <$> ps !! p = Some (Some rp)) →
  (∀ p rp, p_reg <$> processes st !! p = Some (Some rp) → p_id <$> ps !! p = p_id <$> processes st !! p) →
  (∀ id p, tab !! id = Some p ↔ p_id <$> ps !! p = Some id) → (∀ id p, tab !! id = Some p → is_internal_pid id = true) →
  reg_ok (set_processes st ps tab) ∧ names (set_processes st ps tab) = names st.
Proof.
  intros Hok Hr Hid Ht Hpid. apply env_reg_ok; try done; [| |apply Hok..].
  - intros [p|pt] rp; cbn; [apply Hr|done].
  - intros [p|pt] rp; cbn; [apply Hid|done].
Qed.
Lemma env_ports st ps tab : reg_ok st → (∀ pt rp, pt_reg <$> ports st !! pt = Some (Some rp) ↔ pt_reg <$> ps !! pt = Some (Some rp)) →
  (∀ pt rp, pt_reg <$> ports st !! pt = Some (Some rp) → pt_id <$> ps !! pt = pt_id <$> ports st !! pt) →
  (∀ id pt, tab !! id = Some pt ↔ pt_id <$> ps !! pt = Some id) → (∀ id pt, tab !! id = Some pt → is_internal_port id = true) →
  reg_ok (set_ports st ps tab) ∧ names (set_ports st ps tab) = names st.
Proof.
  intros Hok Hr Hid Ht Hpid. apply env_reg_ok; try done; [| |apply Hok..].
  - intros [p|pt] rp; cbn; [done|apply Hr].
  - intros [p|pt] rp; cbn; [done|apply Hid].
Qed.

(** Changes of a map at one key that does not count, in the form the lemmas above need them. *)
Lemma at_key {A} (reg : A → option RegProc) (m m' : gmap Z A) k : (∀ a, a ≠ k → m' !! a = m !! a) →
  (∀ x, m !! k = Some x → reg x = None) → (∀ x, m' !! k = Some x → reg x = None) →
  (∀ a rp, reg <$> m !! a = Some (Some rp) ↔ reg <$> m' !! a = Some (Some rp)) ∧ ∀ a rp, reg <$> m !! a = Some (Some rp) → m' !! a = m !! a.
Proof.
  intros Hother H1 H2. split; intros a rp; (destruct (decide (a = k)) as [->|Hne]; [|by rewrite Hother]).
  - rewrite !fmap_Some. split; intros (x & Hx & E); [rewrite (H1 x Hx) in E|rewrite (H2 x Hx) in E]; done.
  - rewrite fmap_Some. intros (x & Hx & E). rewrite (H1 x Hx) in E. done.
Qed.

Lemma spawn_step s p id : sys_ok s → event_ok s (Spawn p id) → ∃ st', env_step (rs_state s) (Spawn p id) = Some st' ∧ env_result s st'.
Proof.
  intros Hs (Hp & Ht & Hid). pose proof Hs as [Hok Hl _]. eexists. split; [done|].
  destruct (at_key p_reg (processes (rs_state s)) (<[p := MkProcess id None false]> (processes (rs_state s))) p) as [Hr Hi].
  { intros a Hne. by rewrite lookup_insert_ne. } { intros x. by rewrite Hp. } { intros x. rewrite lookup_insert_eq. by intros [= <-]. }
  destruct (env_processes (rs_state s) (<[p := MkProcess id None false]> (processes (rs_state s))) (<[id := p]> (process_tab (rs_state s)))) as [H1 H2]; try done.
  { intros a rp Ha. by rewrite (Hi a rp Ha). } { apply tab_insert; try done. apply (ro_process_tab _ Hok). }
  { intros i a. rewrite lookup_insert_Some. intros [[<- _]|[_ H]]; [done|by eapply (ro_pid _ Hok)]. }
  split; [done|]. split; [done|]. split; [done|]. apply env_frame_all; [done|]. intros tid. split; [done| |done]. cbn. intros a i Ha. rewrite lookup_insert_ne; [done|].
  intros <-. by rewrite Hp in Ha.
Qed.

Lemma exiting_step s p : sys_ok s → event_ok s (Exiting p) → ∃ st', env_step (rs_state s) (Exiting p) = Some st' ∧ env_result s st'.
Proof.
  intros Hs [pr Hp]. pose proof Hs as [Hok Hl _]. cbn [env_step]. rewrite Hp. cbn [mbind option_bind]. eexists. split; [done|].
  set (ps := <[p := MkProcess (p_id pr) (p_reg pr) true]> (processes (rs_state s))).
  assert (∀ a, p_reg <$> ps !! a = p_reg <$> processes (rs_state s) !! a) as Hr.
  { intros a. unfold ps. destruct (decide (a = p)) as [->|]; [by rewrite lookup_insert_eq, Hp|by rewrite lookup_insert_ne]. }
  assert (∀ a, p_id <$> ps !! a = p_id <$> processes (rs_state s) !! a) as Hi.
  { intros a. unfold ps. destruct (decide (a = p)) as [->|]; [by rewrite lookup_insert_eq, Hp|by rewrite lookup_insert_ne]. }
  destruct (env_processes (rs_state s) ps (process_tab (rs_state s))) as [H1 H2]; try done.
  { intros a rp. by rewrite Hr. } { intros i a. rewrite Hi. apply (ro_process_tab _ Hok). } { apply (ro_pid _ Hok). }
  split; [done|]. split; [done|]. split; [done|]. apply env_frame_all; [done|]. intros tid. split; [done| |done]. cbn. intros a i. by rewrite Hi.
Qed.

Lemma exit_step s p : sys_ok s → event_ok s (Exit p) → ∃ st', env_step (rs_state s) (Exit p) = Some st' ∧ env_result s st'.
Proof.
  intros Hs [(pr & Hp & Hnone)%fmap_Some Hcalls]. pose proof Hs as [Hok Hl Hc]. cbn [env_step]. rewrite Hp. cbn [mbind option_bind]. eexists. split; [done|].
  destruct (at_key p_reg (processes (rs_state s)) (delete p (processes (rs_state s))) p) as [Hr Hi].
  { intros a Hne. by rewrite lookup_delete_ne. } { intros x. rewrite Hp. by intros [= <-]. } { intros x. by rewrite lookup_delete_eq. }
  destruct (env_processes (rs_state s) (delete p (processes (rs_state s))) (delete (p_id pr) (process_tab (rs_state s)))) as [H1 H2]; try done.
  { intros a rp Ha. by rewrite (Hi a rp Ha). } { apply tab_delete; [done|]. apply (ro_process_tab _ Hok). }
  { intros i a. rewrite lookup_delete_Some. intros [_ H]. by eapply (ro_pid _ Hok). }
  split; [done|]. split; [done|]. split; [done|]. intros t c Ht. destruct (Hc t c Ht) as [Hct Hh]. split; [|exact Hh]. specialize (Hcalls t c Ht).
  assert (∀ a i, a ≠ p → id_of (rs_state s) (EProc a) = Some i → id_of (set_processes (rs_state s) (delete p (processes (rs_state s))) (delete (p_id pr) (process_tab (rs_state s)))) (EProc a) = Some i) as Hid
    by (intros a i Hne; cbn; by rewrite lookup_delete_ne).
  assert (∀ u : unreg_call, u_c_p u ≠ Some p → (u_name u = THE_NON_VALUE → ∃ c_p i, u_c_p u = Some c_p ∧ id_of (rs_state s) (EProc c_p) = Some i) →
    u_name u = THE_NON_VALUE → ∃ c_p i, u_c_p u = Some c_p ∧ id_of (set_processes (rs_state s) (delete p (processes (rs_state s))) (delete (p_id pr) (process_tab (rs_state s)))) (EProc c_p) = Some i) as Hcp.
  { intros u Hne Hu Hn. destruct (Hu Hn) as (a & i & Ha & Hia). exists a, i. split; [done|]. apply Hid; [congruence|done]. }
  destruct c as [name id proc port|u|u id|w|w id]; cbn [call_inv call_process] in *; try done.
  - unfold register_ok in *. destruct proc as [a|], port; try done. apply Hid; [congruence|done].
  - destruct Hct as [H5 H6]. by split; [apply Hcp|].
  - destruct Hct as [H5 H6]. by split; [|apply Hcp].
Qed.

Lemma open_step s pt id : sys_ok s → event_ok s (Open pt id) → ∃ st', env_step (rs_state s) (Open pt id) = Some st' ∧ env_result s st'.
Proof.
  intros Hs (Hp & Ht & Hlk & Hid). pose proof Hs as [Hok Hl _]. eexists. split; [done|].
  destruct (at_key pt_reg (ports (rs_state s)) (<[pt := MkPort id None]> (ports (rs_state s))) pt) as [Hr Hi].
  { intros a Hne. by rewrite lookup_insert_ne. } { intros x. by rewrite Hp. } { intros x. rewrite lookup_insert_eq. by intros [= <-]. }
  destruct (env_ports (rs_state s) (<[pt := MkPort id None]> (ports (rs_state s))) (<[id := pt]> (port_tab (rs_state s)))) as [H1 H2]; try done.
  { intros a rp Ha. by rewrite (Hi a rp Ha). } { apply tab_insert; try done. apply (ro_port_tab _ Hok). }
  { intros i a. rewrite lookup_insert_Some. intros [[<- _]|[_ H]]; [done|by eapply (ro_port _ Hok)]. }
  split; [done|]. split; [done|]. split; [done|]. apply env_frame_all; [done|]. intros tid. split; [|done..]. cbn. intros a t _ Ha. rewrite lookup_insert_ne; [done|congruence].
Qed.

Lemma close_step s tid pt : sys_ok s → event_ok s (Close tid pt) → ∃ st', env_step (rs_state s) (Close tid pt) = Some st' ∧ env_result s st'.
Proof.
  intros Hs (Hidle & (q & Hp & Hnone)%fmap_Some & Hlk). pose proof Hs as [Hok Hl _]. cbn [env_step]. rewrite Hp. cbn [mbind option_bind].
  unfold erts_smp_port_unlock. rewrite decide_True by done. cbn [mbind option_bind]. eexists. split; [done|]. cbn [set_port_locks ports port_tab].
  destruct (at_key pt_reg (ports (rs_state s)) (delete pt (ports (rs_state s))) pt) as [Hr Hi].
  { intros a Hne. by rewrite lookup_delete_ne. } { intros x. rewrite Hp. by intros [= <-]. } { intros x. by rewrite lookup_delete_eq. }
  set (st1 := set_port_locks (rs_state s) _).
  destruct (env_ports st1 (delete pt (ports (rs_state s))) (delete (pt_id q) (port_tab (rs_state s)))) as [H1 H2]; try done.
  { by apply reg_ok_port_locks. } { intros a rp Ha. cbn. by rewrite (Hi a rp Ha). } { apply tab_delete; [done|]. apply (ro_port_tab _ Hok). }
  { intros i a. rewrite lookup_delete_Some. intros [_ H]. by eapply (ro_port _ Hok). }
  split; [done|]. split; [done|]. split; [done|]. apply (env_frame _ tid); [done|by apply idle_other|]. split; [|done|cbn; intros a t _; rewrite lookup_delete_Some; by intros [_ ?]]. cbn. intros a t Hne Ha.
  assert (a ≠ pt) by congruence. by rewrite !lookup_delete_ne.
Qed.

Lemma port_lock_step s tid pt : sys_ok s → event_ok s (PortLock tid pt) → ∃ st', env_step (rs_state s) (PortLock tid pt) = Some st' ∧ env_result s st'.
Proof.
  intros Hs (Hidle & Hlk). pose proof Hs as [Hok Hl _]. cbn [env_step]. unfold erts_smp_port_trylock. rewrite Hlk. eexists. split; [done|]. split; [by apply reg_ok_port_locks|].
  split; [done|]. split; [done|]. apply (env_frame _ tid); [done|by apply idle_other|]. by apply (frame_acquire _ _ _ pt).
Qed.

Lemma port_unlock_step s tid pt : sys_ok s → event_ok s (PortUnlock tid pt) → ∃ st', env_step (rs_state s) (PortUnlock tid pt) = Some st' ∧ env_result s st'.
Proof.
  intros Hs (Hidle & Hlk). pose proof Hs as [Hok Hl _]. cbn [env_step]. unfold erts_smp_port_unlock. rewrite decide_True by done. eexists. split; [done|].
  split; [by apply reg_ok_port_locks|]. split; [done|]. split; [done|]. apply (env_frame _ tid); [done|by apply idle_other|]. by apply (frame_locks _ _ _ (Some pt)).
Qed.

Lemma reg_step_spec s ev : sys_ok s → event_ok s ev → ∃ r s', reg_step am_undefined s ev = Some (r, s') ∧ sys_ok s' ∧ event_result s ev r s'.
Proof.
  intros Hs He.
  assert (∀ st', env_step (rs_state s) ev = Some st' → env_result s st' → ∃ r s', (st ← env_step (rs_state s) ev; Some (RCalled, with_state s st)) = Some (r, s') ∧
    sys_ok s' ∧ r = RCalled ∧ names (rs_state s') = names (rs_state s)) as Henv.
  { intros st' -> (H1 & H2 & H3 & H4). eexists _, _. split; [done|]. by split. }
  destruct ev as [tid c_p name id|tid c_p c_prt name|tid name proc port allow|name|tid|tid ptr|p id|p|p|pt id|tid pt|tid pt|tid pt].
  - by apply register_step.
  - destruct He as (_ & Hh & Hu). eexists _, _. split; [done|]. split; [|done]. apply sys_ok_calling; [done|apply Hs|apply Hs|apply frame_refl|by split].
  - eexists _, _. split; [done|]. split; [|done]. apply sys_ok_calling; [done|apply Hs|apply Hs|apply frame_refl|]. destruct He as [_ Hh]. by split.
  - cbn [reg_step event_result]. rewrite erts_whereis_name_to_id_spec by apply Hs. eexists _, _. split; [done|]. done.
  - by apply lock_step.
  - by apply enter_step.
  - destruct (spawn_step s p id Hs He) as (st' & E & Hr). by apply (Henv st').
  - destruct (exiting_step s p Hs He) as (st' & E & Hr). by apply (Henv st').
  - destruct (exit_step s p Hs He) as (st' & E & Hr). by apply (Henv st').
  - destruct (open_step s pt id Hs He) as (st' & E & Hr). by apply (Henv st').
  - destruct (close_step s tid pt Hs He) as (st' & E & Hr). by apply (Henv st').
  - destruct (port_lock_step s tid pt Hs He) as (st' & E & Hr). by apply (Henv st').
  - destruct (port_unlock_step s tid pt Hs He) as (st' & E & Hr). by apply (Henv st').
Qed.

(** The states that runs reach, with the results of the events. *)
Inductive reg_run : reg_sys → list (reg_event * reg_result) → reg_sys → Prop :=
| rr_nil s : reg_run s [] s
| rr_cons s ev r s1 tr s2 : event_ok s ev → reg_step am_undefined s ev = Some (r, s1) → reg_run s1 tr s2 → reg_run s ((ev, r) :: tr) s2.

Lemma reg_run_ok s tr s' : reg_run s tr s' → sys_ok s → sys_ok s'.
Proof.
  induction 1 as [|s ev r s1 tr s2 He Hs _ IH]; [done|]. intros Hok. apply IH. destruct (reg_step_spec s ev Hok He) as (r' & s' & Hs' & Hok' & _). rewrite Hs in Hs'. by injection Hs' as _ ->.
Qed.

Definition no_names (h : Hash RegProc) : reg_sys := RSys (RegState h false ∅ ∅ ∅ ∅ ∅) ∅.
Lemma init_register_table_spec name : ∃ h, init_register_table name = Some h ∧ sys_ok (no_names h).
Proof.
  unfold init_register_table. destruct (hash_init_ok (O := RegProc) name PREG_HASH_SIZE) as (h & -> & Hh & Ho & _); [done|]. exists h. split; [done|].
  split; [|done|intros t c; discriminate]. split; [done|intros rp; cbn; rewrite Ho; intros Hin; by apply elem_of_nil in Hin|..].
  - intros [a|a] rp; discriminate.
  - intros i a; split; discriminate.
  - intros i a; split; discriminate.
  - intros i a; discriminate.
  - intros i a; discriminate.
Qed.

(** Registration of a closed port goes on to release the lock of the table, which it has not taken. *)
Lemma register_dead_port tid st c_p pr name id : regtab_locked st = false → is_atom name = true → name ≠ am_undefined → processes st !! c_p = Some pr → p_id pr ≠ id →
  is_internal_port id = true → port_tab st !! id = None → register_start am_undefined tid st c_p name id = None.
Proof.
  intros Hl Ha Hu Hp Hid Hport Ht. unfold register_start. rewrite Ha, (proj2 (Z.eqb_neq _ _) Hu). cbn [negb orb]. rewrite Hp. cbn [mbind option_bind].
  rewrite (proj2 (Z.eqb_neq _ _) Hid), Hport, andb_false_r. unfold erts_id2port. rewrite Ht. cbn [mbind option_bind]. unfold reg_done, reg_unlock. by rewrite Hl.
Qed.
End Spec.

(** * Properties *)

(** C17: the registry is one-to-one, whatever the interleaving.  In every state that [erts_register_name], [erts_unregister_name],
    [erts_whereis_name] and [erts_whereis_name_to_id] calls of any threads reach: no process or port has two names, a name leads to one
    that is there and whose [reg] is the entry, each [reg] is one; [registered/0] lists them.  A call registers
    exactly when the name is free and the process or port is there without a name, removes exactly its name (the caller's own is gone then), finds what is registered, with a port locked; it waits only for a port that another thread has locked, holding no lock itself.
    Assumed of callers ([event_ok]): one call per thread, with no port locked but [c_prt]; processes and ports go away only after
    their name was removed (as in erl_process.c and io.c), not while they run a call.  Excluded and shown to fail: a name for a
    closed port releases a lock it does not hold; a lookup that restarts after the name was removed uses the freed entry. *)
Theorem registry_one_to_one `{dw : DigitWidth} (am_undefined : Z) (table_name : list Z) :
  ∃ h0, init_register_table table_name = Some h0 ∧
  ∀ tr s, reg_run am_undefined (no_names h0) tr s → let st := rs_state s in
  regtab_locked st = false ∧
  (∀ n n' id, names st !! n = Some id → names st !! n' = Some id → n = n') ∧
  (∀ n id, names st !! n = Some id → is_Some (process_tab st !! id) ∨ is_Some (port_tab st !! id)) ∧
  (∀ e rp, registry st !! r_name rp = Some rp ∧ entity_of rp = Some e ↔ reg_of st e = Some (Some rp)) ∧
  (∃ l, registered_0 st = Some l ∧ NoDup l ∧ ∀ n, n ∈ l ↔ is_Some (names st !! n)) ∧
  (∀ ev, event_ok s ev → ∃ r s', reg_step am_undefined s ev = Some (r, s') ∧ event_result am_undefined s ev r s') ∧
  (∀ tid c_p pr name id, is_atom name = true → name ≠ am_undefined → processes st !! c_p = Some pr → p_id pr ≠ id → is_internal_port id = true →
     port_tab st !! id = None → reg_step am_undefined s (Register tid c_p name id) = None) ∧
  (∀ tid ptr w, rs_calls s !! tid = Some (CWhereis w) → ¬ not_stale st w → reg_step am_undefined s (Enter tid ptr) = None).
Proof.
  destruct (init_register_table_spec table_name) as (h0 & -> & Hok0). exists h0. split; [done|]. intros tr s Hrun st. pose proof (reg_run_ok _ _ _ _ Hrun Hok0) as Hs.
  pose proof Hs as [Hok Hl Hcalls]. fold st in Hok, Hl, Hcalls. split; [exact Hl|]. split; [|split; [|split; [|split; [|split; [|split]]]]].
  - intros n n' id (rp & e & Hn & He & Hid)%names_Some (rp' & e' & Hn' & He' & Hid')%names_Some; try done. pose proof (id_inj _ _ _ _ Hok Hid' Hid) as ->.
    destruct (registry_named st n rp Hok Hn) as (e1 & _ & He1 & Hr & _). destruct (registry_named st n' rp' Hok Hn') as (e2 & _ & He2 & Hr' & _).
    assert (rp' = rp) as -> by congruence. apply (table_map_lookup _ _ _ (ro_hash _ Hok)) in Hn as [_ <-], Hn' as [_ <-]. done.
  - intros n id (rp & e & _ & _ & Hid)%names_Some; [|done]. destruct e as [p|pt]; [left; apply (ro_process_tab _ Hok) in Hid|right; apply (ro_port_tab _ Hok) in Hid]; by eexists.
  - intros e rp. split.
    + intros [Hn He]. destruct (registry_named st _ rp Hok Hn) as (e' & id & He' & Hr & _). congruence.
    + intros Hr. destruct (ro_reg _ Hok e rp Hr) as [Hin He]. split; [by apply (table_map_lookup _ _ _ (ro_hash _ Hok))|done].
  - by apply registered_0_spec.
  - intros ev Hev. destruct (reg_step_spec am_undefined s ev Hs Hev) as (r & s' & E & _ & Hr). by exists r, s'.
  - intros tid c_p pr name id Ha Hu Hp Hne Hport Ht. cbn [reg_step]. by rewrite (register_dead_port am_undefined tid _ c_p pr).
  - intros tid ptr w Hc Hst. cbn [reg_step]. rewrite Hc. cbn [mbind option_bind enter_call]. destruct (Hcalls tid _ Hc) as [[_ Hw] _].
    assert (w_rp w ≠ None) as Hrp by (intros E; apply Hst; by left).
    assert (registry st !! w_name w = None) as Hn by (destruct (registry st !! w_name w) eqn:E; [destruct Hst; right; by rewrite E; eexists|done]).
    rewrite where_locked_stale; try done; [by destruct (w_rp w) as [rp|] eqn:E; [apply (Hw rp)|]|]. intros rp E Hin. destruct (Hw rp E) as [Hname _].
    assert (registry st !! w_name w = Some rp) by (by apply (table_map_lookup _ _ _ (ro_hash _ Hok))). congruence.
Qed.

(** ** Instances *)
Module Instances.
#[local] Instance dw64 : DigitWidth := {| H_EXP := 32; H_EXP_cases := or_intror eq_refl |}.

(** Atoms, a pid and a port. *)
Definition w_undefined : Z := 75.
Definition w_atom : Z := 331.
Definition w_pid : Z := 19.
Definition w_port_id : Z := 23.

(** A port gets a name; a thread looks it up while another one, which closes the port, has its lock; the name is removed before the
    first thread starts again. *)
Definition w_events : list reg_event :=
  [Spawn 1000 w_pid; Open 2000 w_port_id; Register 1 1000 w_atom w_port_id; Enter 1 3000; Whereis w_atom; PortLock 2 2000;
   WhereisName 1 w_atom false true false; Enter 1 0; Unregister 2 None (Some 2000) w_atom; Enter 2 0; PortUnlock 2 2000; LockPort 1].

(** The results; the name is found as long as it is there. *)
Definition w_results : list reg_result := [RCalled; RCalled; RCalled; RInt 1; RTerm w_port_id; RCalled; RCalled; RCalled; RCalled; RInt 1; RCalled; RCalled].

Lemma holds_only_check st tid port :
  forallb (λ l, negb (bool_decide (l.2 = tid)) || bool_decide (port = Some l.1)) (map_to_list (port_locks st)) = true → holds_only st tid port.
Proof.
  rewrite forallb_forall. intros H pt Hl. apply elem_of_map_to_list, list_elem_of_In, H in Hl. cbn in Hl. rewrite bool_decide_true in Hl by done.
  by apply bool_decide_eq_true in Hl.
Qed.

Ltac w_event_ok :=
  cbn [event_ok]; repeat match goal with |- _ ∧ _ => split end;
  try (apply holds_only_check; vm_compute; reflexivity);
  vm_compute;
  repeat match goal with
    | |- _ ∧ _ => split
    | |- _ = _ => reflexivity
    | |- True => exact I
    | |- _ ∨ _ => left
    | |- ex _ => eexists
    | |- _ → _ => let H := fresh in intros H; first [discriminate H | injection H as <- | clear H]
    | |- ∀ _, _ => intros ?
    end.

Lemma registry_one_to_one_witness : ∃ h0 s, init_register_table [112; 0] = Some h0 ∧ reg_run w_undefined (no_names h0) (zip w_events w_results) s ∧
  reg_step w_undefined s (Enter 1 0) = None.
Proof.
  destruct (registry_one_to_one w_undefined [112; 0]) as (h0 & E & H). exists h0.
  assert (∃ s, reg_run w_undefined (no_names h0) (zip w_events w_results) s ∧ ∃ w, rs_calls s !! 1%nat = Some (CWhereis w) ∧ ¬ not_stale (rs_state s) w) as (s & Hrun & w & Hc & Hst).
  { clear H. vm_compute in E. injection E as <-. eexists. split.
    - do 12 (eapply rr_cons; [w_event_ok|vm_compute; reflexivity|]). apply rr_nil.
    - eexists. split; [vm_compute; reflexivity|]. intros [Hs|[x Hs]]; vm_compute in Hs; discriminate. }
  exists s. split; [exact E|]. split; [exact Hrun|]. destruct (H _ _ Hrun) as (_ & _ & _ & _ & _ & _ & _ & Hstale). exact (Hstale 1%nat 0 w Hc Hst).
Defined.
End Instances.
